(* ===== verification/_CoqProject ===== *)
-Q . S2P
Prelude.v
Digits.v
Outcome.v
Runs.v
MheapConsts.v
PallocSum.v
PallocBits.v
PallocFind.v
PallocSummarize.v
PageAlloc.v
PageAllocTree.v
PageAllocFind.v
PageAllocGrow.v
PageAllocSpec.v
Heap.v
SizeClasses.v
Span.v
SpanSpec.v
MCentral.v
MCentralLists.v
MCentralSpec.v
MCentralOps.v
Malloc.v
MallocSpec.v
MallocRefine.v
LockFreeRing.v
RingConcurrent.v
GoChan.v
GoChanQueue.v
GoChanSpec.v
GoChanSelect.v
Threads.v
RunQueue.v
RunQueueSpec.v
StealOrder.v
FindWork.v
FindWorkSpec.v
Sema.v
Mutex.v
WaitGroup.v
RWMutex.v
RWMutexSpec.v
Cond.v
CondSpec.v
Once.v
Utf8.v
Varint.v
Strconv.v
StrconvSpec.v
HeapOrder.v
ContainerHeap.v
Sort.v
StableSpec.v
SortSpec.v
ContainerList.v
ContainerListSpec.v
ContainerListRefine.v
ContainerRing.v
ContainerRingSpec.v
Limbs.v
LimbsSpec.v
LimbsDiv.v
LimbsBits.v
BigInt.v
BigIntSpec.v
BigIntText.v
BigIntNum.v
BigIntSqrt.v
BigIntRefine.v
BigRat.v
BigRatSpec.v
Bits.v
BitsSpec.v
Hex.v
HexSpec.v
Base64.v
Base64Words.v
Base64Spec.v
Base64Refine.v
