(* ===== verification/Prelude.v ===== *)
(** * goish: a verification of the runtime core and of basic packages

    goish is a port of Go's runtime and standard library to Rust.  This library models the parts
    that carry its own logic and are shared by everything above them: the memory allocator, the
    channels and the locks goroutines meet at, the byte-level and container packages that other
    packages are built on, and the arithmetic of words and of numbers of any size.  Everything is
    a shallow embedding: one definition per function of the source, under the source's name where
    Rocq allows it, executable throughout.

    ** The parts and how they interact

    - Memory.  [runtime/heap.rs] routes a request by size.  Large requests go to the page
      allocator of [runtime/mheap]: bitmaps of 512-page chunks under a five-level radix tree of
      packed summaries.  Small ones go to [runtime/mcentral]: spans of equal slots, one size class
      each, on pages that the page allocator gave.  Each P keeps one span per class of its own
      ([runtime/sched/p.rs]) and the central lists keep the rest.
    - Communication.  [gochan.rs] is the channel: a buffer, which is the bounded queue of
      [runtime/lockfree_ring.rs], and two wait queues of sudogs, with the claiming protocol of
      select.  [sync] has the semaphore and, on it, Mutex, RWMutex and WaitGroup; Once; and Cond
      over its ticket list.
    - Scheduling.  Each P has a ring of runnable goroutines and a slot for the next one, which
      other Ps steal from; what does not fit spills to the global queue ([runtime/sched/p.rs],
      [runtime/sched/scheduler.rs]).  An M looks for work in its P, the global queue, the poller
      and the other Ps in a random order.
    - Packages.  [unicode/utf8], [encoding/binary] (varints), [encoding/hex], [encoding/base64],
      [strconv] (integers), [sort], [container/heap], [container/list], [container/ring].
    - Numbers.  [math/bits] is arithmetic on words.  [math/big/mod.rs] has functions on magnitudes,
      little-endian vectors of 32-bit limbs; on them [Int], a sign and a magnitude; and on that
      [Rat], two [Int]s.

    ** Files, and what each models

    - [Prelude]: machine integers at their width ([add64], [wrap64], shifts, [trailing_zeros]),
      slices with panicking indexing ([idx], [upd], [slice]), loops, bit lemmas, tactics and hints.
      [Digits]: digits as places in a written alphabet, what the parsers of text are held to.
      [Outcome]: results of runtime code (value, panic, process exit).  [Runs]: runs of a boolean
      sequence, the vocabulary of the page allocator's specification.
    - [MheapConsts], [PallocSum], [PallocBits]: consts.rs, palloc_sum.rs, palloc_bits.rs.
      [PallocFind] and [PallocSummarize] prove the searches and the summary of one chunk.
    - [PageAlloc]: page_alloc.rs; the state is the record [PageAlloc] (arena, chunks, summaries,
      search address).  [PageAllocTree], [PageAllocFind], [PageAllocGrow] prove the tree
      invariant [pa_inv], the descent and growth; [PageAllocSpec] states the specification, the set
      of free pages with first-fit steps [page_step], and the refinement.
    - [Heap]: heap.rs, the page heap behind its lock, with [mmap] as a parameter.
      [SizeClasses]: sizeclasses.rs.  [Span]: span.rs, and what mcentral/mod.rs does to a span;
      [SpanSpec] has its invariant and theorems.
    - [MCentral]: mcentral/mod.rs, the span table, the page map and the intrusive lists per class,
      over [Span] and [Heap].  [MCentralLists] proves the lists, [MCentralSpec] the invariant that
      ties pages, spans and slots to their owners ([gcore], [glists]), [MCentralOps] every
      public function on it.
    - [Malloc]: the span caches of sched/p.rs and the routing of heap.rs, the allocator's entry
      points.  [MallocSpec]: the blocks clients hold, and the invariant of the caches.
      [MallocRefine]: client histories and the theorems about the whole allocator.
    - [LockFreeRing]: lockfree_ring.rs, one call at a time; [RingConcurrent]: its calls cut at
      their atomic accesses and interleaved freely.
    - [GoChan]: gochan.rs on a store of sudogs and select coordinators; the buffer is any
      instance of the class of bounded queues, which [LockFreeRing] discharges.  [GoChanQueue]:
      the intrusive wait queue.  [GoChanSpec]: Go's channel as an abstract machine and the
      refinement.  [GoChanSelect]: claiming and cancelling for select.
    - [Threads]: shared definitions for locks cut at their atomic accesses.  [Sema]: sema.rs and the
      class [Semaphore] its clients use.  [Mutex], [WaitGroup], [RWMutex] with [RWMutexSpec]:
      a program counter per goroutine, a step relation, invariants by induction on the steps.
      In the same way [Cond] with [CondSpec]: cond.rs and notifylist.rs; [Once]: once.rs.
    - [RunQueue]: runqput, runqget, runqsteal and their parts in sched/p.rs, cut at their atomic
      accesses, and the global queue; [RunQueueSpec]: the invariant over any interleaving, and the
      queue a P is without thieves.  [StealOrder]: RandomOrder of sched/p.rs.  [FindWork]:
      find_runnable, steal_work and what an M checks before it parks; [FindWorkSpec]: its theorems.
    - [Utf8]: utf8.rs.  [Varint]: varint.rs.  [Strconv] with [StrconvSpec]: itoa.rs and atoi.rs.
    - [HeapOrder]: exchanges, orders and binary heaps on sequences, for the next two.
    - [ContainerHeap]: heap.rs of container/heap; its trait is the class [Interface], whose laws
      are the trait's documentation.
    - [Sort]: sort.rs, zsortinterface.rs, search.rs and slice.rs of sort, against the trait as the
      class [Sort.Interface].  [StableSpec]: the stable sort, on elements tagged with their
      positions; [SortSpec]: heap sort, checks, searches and slices.
    - [ContainerRing]: ring.rs, nodes by address so that handles alias; [ContainerRingSpec]: rings as
      sequences of nodes and what each call does to them.
    - [ContainerList]: list.rs, with a store of lists and value cells, so that aliased lists, shared
      values and stale handles are what they are in the code.  [ContainerListSpec]: the ring of
      nodes of a sequence and what linking and unlinking do to it.  [ContainerListRefine]:
      the specification on plain sequences and the refinement.
    - [Limbs]: the functions on magnitudes of math/big/mod.rs.  [LimbsSpec]: the value of a
      magnitude, normal forms, and sums, products, shifts and comparisons; [LimbsDiv]: long division;
      [LimbsBits]: bits and bitwise operations, against the class [BitOp].
    - [BigInt]: [Int] of math/big/mod.rs and intconv.rs, a function from operands to the new value
      of the receiver.  [BigIntSpec]: the relation [repr] to the integers and each method on it;
      [BigIntText]: text, bytes and words; [BigIntNum]: divisors, inverses and powers;
      [BigIntSqrt]: roots and products; [BigIntRefine]: the theorems about the type.
      [BigRat] with [BigRatSpec]: [Rat], against the rationals of the Standard Library, where
      equality is the setoid [Qeq].
    - [Bits] with [BitsSpec]: bits.rs of math/bits.
    - [Hex] with [HexSpec]: hex.rs of encoding/hex; a writer is an instance of [Writer], and theorems
      about output are for those that append, the class [AppendWriter].
    - [Base64]: base64.rs of encoding/base64.  [Base64Words]: the words its fast paths assemble;
      [Base64Spec]: alphabets, one quantum on any input, and the loops against the reference
      [decode_ref]; [Base64Refine]: the encoder, the round trip and the theorems.

    ** What the theorems show

    - Page allocator: [new] establishes the invariant; [alloc] is first fit and fails only when no
      run exists; [free] and [grow] do exactly what they say; live blocks never overlap over any
      client history; alloc and free round-trip; the chunk search and the summaries equal their
      definitions; the packed word round-trips.  Heap: total, with its failure characterised.
    - The allocator as a whole: over any history of calls by any number of Ps no call panics, live
      blocks never meet, lie in the arena and are aligned; an allocation fails only when the page
      heap it started with has no free run for it and no room to grow ([exhausted]); [realloc]
      keeps contents and gives the old block back; a flush empties the cache of its P.  The
      invariant accounts for every page: what is not free is in a span or in a live block.
    - Spans: no slot is handed out twice, the audit holds.  Size classes: the smallest that fits.
    - Ring: a bounded queue sequentially, also across counter wrap-around; under interleaving, each
      ticket is read once and yields the value its producer wrote.
    - Channels: refinement of Go's channel for every capacity and history, fatal exits included;
      FIFO delivery; a select is won once.
    - Locks: mutual exclusion and no lost wake-ups in every reachable interleaving; a Wait
      does not return early; Signal wakes the oldest ticket; Once runs its function once.
    - Scheduling: no goroutine is lost or duplicated by puts, gets, steals and spills; a P alone is
      a queue; a steal takes half; the steal order visits every P once; the search for work
      finds a goroutine whenever there is one, and an M parks only when there is none
      (these two for one M at a time, the others being between calls).
    - UTF-8 and varints: round trips, soundness of decoding on arbitrary bytes, validity.
      Integers: formatting is positional notation in every base, parsing accepts exactly it
      and what overflows is an error, both invert each other, Atoi is ParseInt.
    - Sorting: Stable, Sort, Slice and SliceStable return, sort, and the stable ones are stable;
      the checks and the binary searches are exact.
    - Containers: heap order and heap sort with termination; the list refinement and its queries;
      every node of a ring is on one ring, Link and Unlink cut and join rings ([Unlink] of the
      largest [int] overflows in [n + 1], a panic where overflow is checked).
    - Words: sums, differences, products and quotients of two words are exact with their carries,
      and panic exactly where they must; counts, rotations and reversals are about the bits.
    - Big integers: every method computes the operation of the integers, for operands of any size and
      sign: long division is exact and its corrections end; bitwise operations are those of two's
      complement; printing, parsing, bytes, words and gob are inverse; GCD, inverses, powers, roots and
      binomials end with their values ([MulRange] for a lower bound above -2^63).  A value has one
      representation, which only [GobDecode] can miss, with a negative zero.  Rationals: the field
      operations in lowest terms.
    - Hexadecimal and base64: round trips, exact errors on any input, the layout of a dump, and the
      fast paths of base64 against its reference.
    - Some theorems record where the code departs from its comments: [mheap_large_align_ignored],
      [class_for_large_align], [release_unsold_leaks], [stale_freeindex_hides_slots],
      [ring_capacity_one], [add_never_negative], [heap_free_drops_alignment], [gob_negative_zero],
      [mulrange_min_panics], [unlink_overflow], [unmarshal_text_prefix], [rat_default_panics].

    ** Conventions, bounds and fuel

    - Arithmetic is the release build's: [u64] and [usize] wrap, and where the code indexes,
      unwraps or [expect]s the model can panic ([None] or [Panic]).  Theorems say that it does not.
    - Fuel.  Loops that are not structural carry fuel and running out is a distinct failure, so the
      theorems that a call returns are also termination theorems: 17 windows for the refill loop
      of a span (at most 1024 slots), 2 iterations for uncontended ring calls, the number of
      sudogs for a queue walk, 10 bytes for varints, the length of the input for UTF-8, the index
      for heap sifts, the number of nodes for list snapshots and ring walks, 64 digits for
      formatting, 64 halvings for a binary search, the length of the range for a merge, 134, 6 and
      262 accesses for an uncontended put, get and steal, 256 positions for a scan of the Ps.  In
      math/big: 3 corrections of a digit, 32 divisions per limb for printing, 32 steps per limb of
      both operands for GCD, 16 iterations per limb for Sqrt; in bits 3 corrections; in base64 the
      length of the text.
    - In [Limbs], [BigInt], [BigRat], [Bits], [Hex], [Base64] and in [Unlink] of [ContainerRing] plain
      arithmetic is checked ([chk64], [chki64]): an overflow would be a panic, and the theorems say
      where there is none; casts, shifts and [wrapping_*] operations lose the high bits as they do.
      Text for base64 has less than 2^62 bytes, dumps less than 2^32, as the counter of the dumper
      assumes.
    - Concurrency.  One atomic access or one critical section of a spin lock is one step, and
      memory is sequentially consistent: [Relaxed] and [Acquire] orderings are not
      distinguished.  RWMutex's inner writer mutex is used through its contract.  In [Span] and
      [MCentral] each function is one step, in [Malloc] each entry point (the code masks
      preemption around it); the windows where mcentral drops its lock are inside a step.
    - The span table has 65534 entries and a call uses up at most two: the history theorem
      holds for as long as three are left, and so do those about one allocation.  Requests are at
      most 2^60 bytes.
    - Goroutine counts are below the width of the counters (2^31 - 1 waiters of a mutex, 2^30 - 1
      goroutines of an RWMutex, 2^32 of a WaitGroup), as the code assumes.  The counters of a run
      queue and the tickets of a Cond wrap at 2^32; a value loaded from them is used before 2^31
      more have passed.
    - [FindWork] runs one M at a time on the queues, so a search sees no queue change under it, as it
      may in the code; [DISPATCHING], set at boot, is one of its flags.  Goroutine status words, the wake-up of idle Ms
      and the binding of Ps to Ms are not part of its state.
    - A collection to be sorted has less than 2^61 elements, so that sums of indices are exact.
      [slice::sort_by] of the standard library is a stable insertion sort.

    ** Not modelled

    Context switches and the binding of threads, signals, the network poller, system calls and files;
    cryptography and TLS; generated tables; the text, reflection and formatting packages; hashing and
    compression.  In modelled files: the profiler's hooks and the preemption mask of heap.rs, range
    adapters of channels, [WaitGroup.Go], lock guards, the floating-point slices of sort; in math/big
    [Float], the conversions to floating point, [ProbablyPrime], [ModSqrt], random numbers, the
    [fmt] interfaces and the text of [Rat]; the streaming decoder of hex and the streams of base64,
    whose interest is in the readers and writers they call; the texts of errors.

    ** Where it could go on

    The streams of base64 over the class [Writer]; slices with their aliasing (goslice.rs); path;
    [Float] over [Limbs]. *)
From Stdlib Require Import ZArith Lia Btauto.
From stdpp Require Import base tactics numbers list list_numbers option.

Declare Scope goish_scope.
Delimit Scope goish_scope with goish.
Open Scope Z_scope.

Create HintDb goish.

(** [lia] understands division and remainder by constants. *)
Ltac Zify.zify_post_hook ::= Z.to_euclidean_division_equations.

(** ** Machine integers *)

Definition W64 : Z := 2 ^ 64.
Definition u64_max : Z := 2 ^ 64 - 1.

(** [wrap64] is the reduction every release-mode [u64]/[usize] operation performs. *)
Definition wrap64 (x : Z) : Z := x mod 2 ^ 64.

Definition is_u64 (x : Z) : Prop := 0 <= x < 2 ^ 64.

Definition wrap32 (x : Z) : Z := x mod 2 ^ 32.

Definition add64 (a b : Z) : Z := wrap64 (a + b).
Definition sub64 (a b : Z) : Z := wrap64 (a - b).
Definition mul64 (a b : Z) : Z := wrap64 (a * b).
Definition shl64 (a k : Z) : Z := wrap64 (Z.shiftl a k).
Definition shr64 (a k : Z) : Z := Z.shiftr a k.
Definition not64 (a : Z) : Z := Z.lxor a u64_max.

Notation "a +! b" := (add64 a b) (at level 50, left associativity) : goish_scope.
Notation "a -! b" := (sub64 a b) (at level 50, left associativity) : goish_scope.
Notation "a *! b" := (mul64 a b) (at level 40, left associativity) : goish_scope.

(** Rust's [u64::trailing_zeros], [leading_zeros] and [count_ones]. *)
Fixpoint pos_ctz (p : positive) : Z :=
  match p with xO q => 1 + pos_ctz q | _ => 0 end.

Definition trailing_zeros (x : Z) : Z :=
  match x with Zpos p => pos_ctz p | _ => 64 end.

Definition leading_zeros (x : Z) : Z :=
  match x with Zpos _ => 63 - Z.log2 x | _ => 64 end.

Fixpoint pos_popcount (p : positive) : Z :=
  match p with
  | xH => 1
  | xO q => pos_popcount q
  | xI q => 1 + pos_popcount q
  end.

Definition count_ones (x : Z) : Z :=
  match x with Zpos p => pos_popcount p | _ => 0 end.

(** ** Slices: indexing that panics out of range is [None] *)

Definition idx {A} (l : list A) (i : Z) : option A :=
  if decide (0 <= i) then l !! Z.to_nat i else None.

Definition upd {A} (l : list A) (i : Z) (x : A) : option (list A) :=
  if decide (0 <= i < Z.of_nat (length l)) then Some (<[Z.to_nat i := x]> l) else None.

Definition zlen {A} (l : list A) : Z := Z.of_nat (length l).

(** [slice l lo hi] is [&l[lo..hi]]. *)
Definition slice {A} (l : list A) (lo hi : Z) : option (list A) :=
  if decide (0 <= lo /\ lo <= hi /\ hi <= zlen l)
  then Some (take (Z.to_nat (hi - lo)) (drop (Z.to_nat lo) l)) else None.

(** ** Loops: [for i in lo..hi] over a state that may panic *)

Fixpoint for_n {S} (n : nat) (i : Z) (body : Z -> S -> option S) (s : S) : option S :=
  match n with
  | O => Some s
  | S n' => match body i s with
            | Some s' => for_n n' (i + 1) body s'
            | None => None
            end
  end.

Definition for_range {S} (lo hi : Z) (body : Z -> S -> option S) (s : S) : option S :=
  for_n (Z.to_nat (hi - lo)) lo body s.

(** [for i in (lo..hi).rev()]. *)
Fixpoint for_down_n {S} (n : nat) (lo : Z) (body : Z -> S -> option S) (s : S) : option S :=
  match n with
  | O => Some s
  | S n' => match body (lo + Z.of_nat n') s with
            | Some s' => for_down_n n' lo body s'
            | None => None
            end
  end.

Definition for_range_rev {S} (lo hi : Z) (body : Z -> S -> option S) (s : S) : option S :=
  for_down_n (Z.to_nat (hi - lo)) lo body s.

(** ** Checked arithmetic: an overflow panics in a build with overflow checks *)

Definition chk32 (x : Z) : option Z := if decide (0 <= x < 2 ^ 32) then Some x else None.
Definition chk64 (x : Z) : option Z := if decide (0 <= x < 2 ^ 64) then Some x else None.
Definition chki64 (x : Z) : option Z := if decide (- 2 ^ 63 <= x < 2 ^ 63) then Some x else None.

(** ** Lemmas *)

Lemma chk32_ok x : 0 <= x < 2 ^ 32 -> chk32 x = Some x.
Proof. intros. unfold chk32. by rewrite decide_True by lia. Qed.
Lemma chk64_ok x : 0 <= x < 2 ^ 64 -> chk64 x = Some x.
Proof. intros. unfold chk64. by rewrite decide_True by lia. Qed.
Lemma chki64_ok x : - 2 ^ 63 <= x < 2 ^ 63 -> chki64 x = Some x.
Proof. intros. unfold chki64. by rewrite decide_True by lia. Qed.

Lemma wrap64_small x : 0 <= x < 2 ^ 64 -> wrap64 x = x.
Proof. apply Z.mod_small. Qed.

Lemma wrap64_range x : 0 <= wrap64 x < 2 ^ 64.
Proof. apply Z.mod_pos_bound. lia. Qed.

Lemma add64_small a b : 0 <= a + b < 2 ^ 64 -> add64 a b = a + b.
Proof. apply wrap64_small. Qed.
Lemma sub64_small a b : 0 <= a - b < 2 ^ 64 -> sub64 a b = a - b.
Proof. apply wrap64_small. Qed.
Lemma mul64_small a b : 0 <= a * b < 2 ^ 64 -> mul64 a b = a * b.
Proof. apply wrap64_small. Qed.
Lemma shl64_small a k : 0 <= k -> 0 <= a * 2 ^ k < 2 ^ 64 -> shl64 a k = a * 2 ^ k.
Proof. intros Hk H. unfold shl64. rewrite Z.shiftl_mul_pow2 by lia. by apply wrap64_small. Qed.
Lemma shr64_div a k : 0 <= k -> shr64 a k = a / 2 ^ k.
Proof. apply Z.shiftr_div_pow2. Qed.

(** An or with what lies below a shift is a sum. *)
Lemma lor_add_low h k l : 0 <= k -> 0 <= l < 2 ^ k -> Z.lor (h * 2 ^ k) l = h * 2 ^ k + l.
Proof.
  intros Hk Hl. rewrite <- Z.add_lor_land.
  assert (Z.land (h * 2 ^ k) l = 0) as ->; [|lia]. apply Z.bits_inj_0. intros i.
  rewrite Z.land_spec. destruct (decide (i < k)) as [Hi|Hi].
  - by rewrite Z.mul_pow2_bits_low.
  - destruct (decide (l = 0)) as [->|]; [by rewrite Z.bits_0, andb_false_r|].
    rewrite (Z.bits_above_log2 l i), andb_false_r; [done|lia|].
    apply Z.lt_le_trans with k; [|lia]. apply Z.log2_lt_pow2; lia.
Qed.

Lemma lor_disjoint h l k : 0 <= k -> h mod 2 ^ k = 0 -> 0 <= l < 2 ^ k -> Z.lor h l = h + l.
Proof.
  intros Hk Hh Hl. assert (0 < 2 ^ k) as P by (apply Z.pow_pos_nonneg; lia).
  apply Z.mod_divide in Hh as [x ->]; [|intros E; rewrite E in P; done]. by apply lor_add_low.
Qed.

Lemma pow2_u64 n : 0 <= n < 64 -> 0 < 2 ^ n < 2 ^ 64.
Proof. intros. split; [lia|]. apply Z.pow_lt_mono_r; lia. Qed.

Lemma testbit_wrap64 x i : 0 <= i -> Z.testbit (wrap64 x) i = bool_decide (i < 64) && Z.testbit x i.
Proof.
  intros Hi. unfold wrap64. case_bool_decide as H.
  - rewrite Z.mod_pow2_bits_low by lia. done.
  - rewrite Z.mod_pow2_bits_high by lia. done.
Qed.

Lemma testbit_u64_max i : 0 <= i -> Z.testbit u64_max i = bool_decide (i < 64).
Proof.
  intros Hi. change u64_max with (Z.ones 64). case_bool_decide as H.
  - apply Z.ones_spec_low. lia.
  - apply Z.ones_spec_high. lia.
Qed.

Lemma testbit_shl64 a k i : 0 <= i -> 0 <= k ->
  Z.testbit (shl64 a k) i = bool_decide (i < 64) && Z.testbit a (i - k).
Proof. intros. unfold shl64. rewrite testbit_wrap64 by lia. by rewrite Z.shiftl_spec by lia. Qed.

Lemma testbit_shr64 a k i : 0 <= i -> Z.testbit (shr64 a k) i = Z.testbit a (i + k).
Proof. intros. unfold shr64. by rewrite Z.shiftr_spec by lia. Qed.

Lemma testbit_not64 a i : 0 <= i ->
  Z.testbit (not64 a) i = xorb (Z.testbit a i) (bool_decide (i < 64)).
Proof. intros. unfold not64. rewrite Z.lxor_spec. by rewrite testbit_u64_max by lia. Qed.

Lemma testbit_u64_high x i : 0 <= x < 2 ^ 64 -> 64 <= i -> Z.testbit x i = false.
Proof.
  intros Hx Hi. rewrite <- (Z.mod_small x (2 ^ 64)) by lia. apply Z.mod_pow2_bits_high. lia.
Qed.

Lemma u64_of_bits x : 0 <= x -> (forall i, 64 <= i -> Z.testbit x i = false) -> 0 <= x < 2 ^ 64.
Proof.
  intros H0 Hb. split; [done|]. destruct (decide (x = 0)) as [->|Hne]; [lia|].
  destruct (decide (Z.log2 x < 64)) as [Hl|Hl].
  - apply Z.log2_lt_pow2; lia.
  - exfalso. specialize (Hb (Z.log2 x) ltac:(lia)). rewrite Z.bit_log2 in Hb by lia. done.
Qed.

Lemma lor_u64 a b : is_u64 a -> is_u64 b -> is_u64 (Z.lor a b).
Proof.
  unfold is_u64. intros Ha Hb. apply u64_of_bits.
  - apply Z.lor_nonneg. lia.
  - intros i Hi. rewrite Z.lor_spec, !testbit_u64_high by lia. done.
Qed.

Lemma land_u64_l a b : is_u64 a -> 0 <= b -> is_u64 (Z.land a b).
Proof.
  unfold is_u64. intros Ha Hb. apply u64_of_bits.
  - apply Z.land_nonneg. lia.
  - intros i Hi. rewrite Z.land_spec, testbit_u64_high by lia. done.
Qed.

Lemma shr_u64 a k : is_u64 a -> 0 <= k -> is_u64 (shr64 a k).
Proof.
  unfold is_u64, shr64. intros Ha Hk. apply u64_of_bits.
  - apply Z.shiftr_nonneg. lia.
  - intros i Hi. rewrite Z.shiftr_spec by lia. apply testbit_u64_high; lia.
Qed.

Lemma shl_u64 a k : is_u64 (shl64 a k).
Proof. apply wrap64_range. Qed.

Lemma not_u64 a : is_u64 a -> is_u64 (not64 a).
Proof.
  unfold is_u64. intros Ha. apply u64_of_bits.
  - unfold not64, u64_max. apply Z.lxor_nonneg. lia.
  - intros i Hi. rewrite testbit_not64, testbit_u64_high by lia.
    rewrite bool_decide_false by lia. done.
Qed.

Lemma u64_max_u64 : is_u64 u64_max.
Proof. unfold is_u64, u64_max. lia. Qed.

Lemma zero_u64 : is_u64 0.
Proof. unfold is_u64. lia. Qed.

#[export] Hint Resolve lor_u64 land_u64_l shr_u64 shl_u64 not_u64 u64_max_u64 zero_u64 : goish.

Lemma u64_ext x y : is_u64 x -> is_u64 y ->
  (forall i, 0 <= i < 64 -> Z.testbit x i = Z.testbit y i) -> x = y.
Proof.
  unfold is_u64. intros Hx Hy H. apply Z.bits_inj'. intros i Hi.
  destruct (decide (i < 64)); [by apply H|]. rewrite !testbit_u64_high by lia. done.
Qed.

(** *** Counting zeros *)

Lemma pos_ctz_spec p : 0 <= pos_ctz p <= Z.log2 (Zpos p) /\
  Z.testbit (Zpos p) (pos_ctz p) = true /\
  (forall i, 0 <= i < pos_ctz p -> Z.testbit (Zpos p) i = false).
Proof.
  induction p as [q IH|q IH|]; cbn [pos_ctz].
  - split; [split; [lia|apply Z.log2_nonneg]|]. split; [done|lia].
  - destruct IH as ((Hge & Hle) & Htrue & Hlow). rewrite (Pos2Z.inj_xO q).
    rewrite Z.log2_double by lia. split; [lia|]. split.
    + replace (1 + pos_ctz q) with (Z.succ (pos_ctz q)) by lia. by rewrite Z.double_bits_succ.
    + intros i Hi. destruct (decide (i = 0)) as [->|Hi0]; [apply Z.testbit_even_0|].
      replace i with (Z.succ (i - 1)) by lia. rewrite Z.double_bits_succ. apply Hlow. lia.
  - split; [cbn; lia|]. split; [done|lia].
Qed.

Lemma trailing_zeros_spec x : 0 < x ->
  0 <= trailing_zeros x <= Z.log2 x /\ Z.testbit x (trailing_zeros x) = true /\
  (forall i, 0 <= i < trailing_zeros x -> Z.testbit x i = false).
Proof. intros Hx. destruct x; try lia. apply pos_ctz_spec. Qed.

Lemma trailing_zeros_0 : trailing_zeros 0 = 64.
Proof. done. Qed.

Lemma log2_u64 x : 0 < x < 2 ^ 64 -> 0 <= Z.log2 x < 64.
Proof. intros. split; [apply Z.log2_nonneg|]. apply Z.log2_lt_pow2; lia. Qed.

Lemma bits_above_log2 x i : 0 <= x -> Z.log2 x < i -> Z.testbit x i = false.
Proof. apply Z.bits_above_log2. Qed.

(** Every u64 has its [trailing_zeros] low bits clear, and the next one set
    unless the word is zero; dually for [leading_zeros]. *)
Lemma trailing_zeros_u64 x : is_u64 x ->
  0 <= trailing_zeros x <= 64 /\
  (forall i, 0 <= i < trailing_zeros x -> Z.testbit x i = false) /\
  (trailing_zeros x < 64 -> Z.testbit x (trailing_zeros x) = true) /\
  (trailing_zeros x = 64 <-> x = 0).
Proof.
  unfold is_u64. intros Hx. destruct (decide (x = 0)) as [->|Hne].
  - cbn. split; [lia|]. split; [intros; apply Z.testbit_0_l|]. split; lia.
  - destruct (trailing_zeros_spec x ltac:(lia)) as (Hr & Ht & Hl).
    pose proof (log2_u64 x ltac:(lia)). split; [lia|]. split; [done|]. split; [done|]. lia.
Qed.

Lemma leading_zeros_u64 x : is_u64 x ->
  0 <= leading_zeros x <= 64 /\
  (forall i, 64 - leading_zeros x <= i < 64 -> Z.testbit x i = false) /\
  (leading_zeros x < 64 -> Z.testbit x (63 - leading_zeros x) = true) /\
  (leading_zeros x = 64 <-> x = 0).
Proof.
  unfold is_u64. intros Hx. destruct (decide (x = 0)) as [->|Hne].
  - cbn. split; [lia|]. split; [intros; apply Z.testbit_0_l|]. split; lia.
  - assert (leading_zeros x = 63 - Z.log2 x) as -> by (destruct x; try lia; done).
    pose proof (log2_u64 x ltac:(lia)).
    split; [lia|]. split; [intros; apply bits_above_log2; lia|].
    replace (63 - (63 - Z.log2 x)) with (Z.log2 x) by lia.
    split; [intros; apply Z.bit_log2; lia|]. lia.
Qed.

(** *** Slices *)

(** Takes a bind apart without unfolding what comes after it. *)
Lemma some_bind {A B} (f : A -> option B) x : mbind f (Some x) = f x.
Proof. done. Qed.

Lemma idx_Some {A} (l : list A) i x : idx l i = Some x <-> 0 <= i /\ l !! Z.to_nat i = Some x.
Proof. unfold idx. case_decide; naive_solver. Qed.

Lemma idx_lt {A} (l : list A) i : 0 <= i < zlen l -> exists x, idx l i = Some x.
Proof.
  unfold idx, zlen. intros H. rewrite decide_True by lia.
  apply (lookup_lt_is_Some_2 l). lia.
Qed.

Lemma idx_range {A} (l : list A) i x : idx l i = Some x -> 0 <= i < zlen l.
Proof. unfold zlen. intros [H0 H]%idx_Some. apply lookup_lt_Some in H. lia. Qed.

Lemma idx_None {A} (l : list A) i : idx l i = None <-> ~ (0 <= i < zlen l).
Proof.
  split; [|intros H; destruct (idx l i) eqn:E; [by apply idx_range in E|done]].
  intros E H. destruct (idx_lt l i H) as [x Hx]. congruence.
Qed.

Lemma upd_Some {A} (l : list A) i x : 0 <= i < zlen l -> upd l i x = Some (<[Z.to_nat i := x]> l).
Proof. unfold upd, zlen. intros. by rewrite decide_True by lia. Qed.

Lemma zlen_nonneg {A} (l : list A) : 0 <= zlen l.
Proof. unfold zlen. lia. Qed.

Lemma zlen_cons {A} (x : A) l : zlen (x :: l) = zlen l + 1.
Proof. unfold zlen. cbn [length]. lia. Qed.

Lemma zlen_app {A} (l k : list A) : zlen (l ++ k) = zlen l + zlen k.
Proof. unfold zlen. rewrite length_app. lia. Qed.

Lemma zlen_insert {A} (l : list A) i x : zlen (<[i := x]> l) = zlen l.
Proof. unfold zlen. by rewrite length_insert. Qed.

Lemma upd_inv {A} (l l' : list A) i x : upd l i x = Some l' ->
  0 <= i < zlen l /\ l' = <[Z.to_nat i := x]> l.
Proof. unfold upd, zlen. case_decide; naive_solver. Qed.

Lemma idx_insert {A} (l : list A) i j x : 0 <= i < zlen l -> 0 <= j ->
  idx (<[Z.to_nat i := x]> l) j = if decide (i = j) then Some x else idx l j.
Proof.
  unfold idx, zlen. intros Hi Hj. rewrite !(decide_True (P := 0 <= j)) by lia. case_decide as E.
  - subst. apply list_lookup_insert_eq. lia.
  - apply list_lookup_insert_ne. lia.
Qed.

(** Reads and writes at the end of a prefix. *)
Lemma upd_prefix {A} (pre post : list A) x y : upd (pre ++ x :: post) (zlen pre) y = Some (pre ++ y :: post).
Proof.
  unfold upd, zlen. rewrite decide_True by (rewrite length_app; cbn; lia). f_equal.
  rewrite Nat2Z.id. rewrite insert_app_r_alt, Nat.sub_diag by lia. done.
Qed.

Lemma idx_prefix {A} (pre post : list A) x : idx (pre ++ x :: post) (zlen pre) = Some x.
Proof. apply idx_Some. unfold zlen. split; [lia|]. rewrite Nat2Z.id. by apply list_lookup_middle. Qed.

Lemma zlen_snoc2 {A} (pre : list A) a b : zlen (pre ++ [a; b]) = zlen pre + 2.
Proof. unfold zlen. rewrite length_app. cbn. lia. Qed.

Lemma zlen_snoc1 {A} (pre : list A) a : zlen (pre ++ [a]) = zlen pre + 1.
Proof. unfold zlen. rewrite length_app. cbn. lia. Qed.

Lemma slice_app {A} (l r : list A) : slice (l ++ r) 0 (zlen l) = Some l /\ slice (l ++ r) (zlen l) (zlen (l ++ r)) = Some r.
Proof.
  assert (zlen (l ++ r) = zlen l + zlen r) as E by (unfold zlen; rewrite length_app; lia). split.
  - unfold slice. rewrite decide_True by (unfold zlen in *; lia). rewrite Z.sub_0_r, drop_0. unfold zlen. by rewrite Nat2Z.id, take_app_length.
  - unfold slice. rewrite decide_True by (unfold zlen in *; lia). rewrite E, Z.add_simpl_l. unfold zlen. rewrite !Nat2Z.id, drop_app_length.
    by rewrite take_ge.
Qed.

Lemma slice_Some {A} (l : list A) lo hi : 0 <= lo -> lo <= hi -> hi <= zlen l ->
  exists m, slice l lo hi = Some m /\ zlen m = hi - lo /\
            (forall k, 0 <= k < hi - lo -> idx m k = idx l (lo + k)).
Proof.
  intros H0 H1 H2. unfold slice. rewrite decide_True by lia. eexists. split; [done|].
  unfold zlen in *. split.
  - rewrite length_take, length_drop. lia.
  - intros k Hk. unfold idx. rewrite !decide_True by lia.
    rewrite lookup_take_lt by lia. rewrite lookup_drop. f_equal. lia.
Qed.

(** *** Loops *)

(** The invariant rule for [for]: a body that never panics and advances the invariant. *)
Lemma for_range_inv {S} (I : Z -> S -> Prop) lo hi body s :
  lo <= hi -> I lo s ->
  (forall i s, lo <= i < hi -> I i s -> exists s', body i s = Some s' /\ I (i + 1) s') ->
  exists s', for_range lo hi body s = Some s' /\ I hi s'.
Proof.
  intros Hle H0 Hstep. unfold for_range.
  assert (forall n i s, lo <= i -> i + Z.of_nat n = hi -> I i s ->
            exists s', for_n n i body s = Some s' /\ I hi s') as Haux.
  { induction n as [|n IH]; intros i s' Hi He HI; cbn.
    - exists s'. split; [done|]. by replace hi with i by lia.
    - destruct (Hstep i s') as (s2 & -> & H2); [lia|done|]. apply IH; [lia|lia|done]. }
  apply Haux; [lia|lia|done].
Qed.

(** What holds of a loop that returned. *)
Lemma for_range_returned {S} (I : Z -> S -> Prop) lo hi body s s' :
  lo <= hi -> I lo s -> (forall i s s', lo <= i < hi -> I i s -> body i s = Some s' -> I (i + 1) s') ->
  for_range lo hi body s = Some s' -> I hi s'.
Proof.
  intros Hle H0 Hstep. unfold for_range.
  assert (forall n i s, lo <= i -> i + Z.of_nat n = hi -> I i s -> for_n n i body s = Some s' -> I hi s') as Haux.
  { induction n as [|n IH]; intros i t Hi He HI; cbn.
    - intros [= <-]. by replace hi with i by lia.
    - destruct (body i t) as [t2|] eqn:Eb; [|done]. apply IH; [lia|lia|]. apply (Hstep i t); [lia|done|done]. }
  apply Haux; [lia|lia|done].
Qed.

(** The same for a loop that runs downwards: the invariant holds of what is done. *)
Lemma for_range_rev_inv {S} (I : Z -> S -> Prop) lo hi body s :
  lo <= hi -> I hi s ->
  (forall i s, lo <= i < hi -> I (i + 1) s -> exists s', body i s = Some s' /\ I i s') ->
  exists s', for_range_rev lo hi body s = Some s' /\ I lo s'.
Proof.
  intros Hle H0 Hstep. unfold for_range_rev.
  assert (forall n s, lo + Z.of_nat n <= hi -> I (lo + Z.of_nat n) s ->
            exists s', for_down_n n lo body s = Some s' /\ I lo s') as Haux.
  { induction n as [|n IH]; intros s' Hn HI; cbn -[Z.of_nat].
    - exists s'. split; [done|]. by replace lo with (lo + Z.of_nat 0) at 1 by lia.
    - destruct (Hstep (lo + Z.of_nat n) s') as (s2 & -> & H2); [lia| |].
      + by replace (lo + Z.of_nat n + 1) with (lo + Z.of_nat (Datatypes.S n)) by lia.
      + apply IH; [lia|done]. }
  apply Haux; [lia|]. by replace (lo + Z.of_nat (Z.to_nat (hi - lo))) with hi by lia.
Qed.

Lemma for_range_empty {S} lo hi body (s : S) : hi <= lo -> for_range lo hi body s = Some s.
Proof. intros. unfold for_range. by replace (Z.to_nat (hi - lo)) with O by lia. Qed.

(** [x & !(2^k - 1)] rounds down to a multiple of [2^k]. *)
Lemma land_not_mask x k : is_u64 x -> 0 <= k < 64 -> Z.land x (not64 (2 ^ k - 1)) = x / 2 ^ k * 2 ^ k.
Proof.
  intros Hx Hk. replace (2 ^ k - 1) with (Z.ones k) by (rewrite Z.ones_equiv; lia).
  rewrite <- Z.shiftl_mul_pow2, <- Z.shiftr_div_pow2 by lia. apply Z.bits_inj'. intros i Hi.
  rewrite Z.land_spec, testbit_not64, Z.shiftl_spec by lia.
  destruct (decide (i < k)).
  - rewrite (Z.testbit_neg_r _ (i - k)), Z.ones_spec_low by lia. case_bool_decide; [apply andb_false_r|lia].
  - rewrite Z.shiftr_spec by lia. replace (i - k + k) with i by lia. rewrite Z.ones_spec_high by lia.
    case_bool_decide; [apply andb_true_r|]. by rewrite testbit_u64_high, andb_false_r by (unfold is_u64 in *; lia).
Qed.
