(* ===== verification/Digits.v ===== *)
(** Digits as the documentation of the text formats has them: a digit is a character of a written
    alphabet and its value is its position there.  The parsers are compared with this. *)
From Stdlib Require Import ZArith Lia Ascii String.
From stdpp Require Import base tactics numbers list list_numbers option.
From S2P Require Import Prelude.
Open Scope Z_scope.

(** The bytes of a literal. *)
Definition codes (s : string) : list Z := map (fun a => Z.of_N (N_of_ascii a)) (list_ascii_of_string s).

Definition lower_digits : list Z := codes "0123456789abcdefghijklmnopqrstuvwxyz".
Definition upper_digits : list Z := codes "0123456789ABCDEFGHIJKLMNOPQRSTUVWXYZ".
Definition cased_digits : list Z := codes "0123456789abcdefghijklmnopqrstuvwxyzABCDEFGHIJKLMNOPQRSTUVWXYZ".

(** Where [c] is first found in [l]. *)
Fixpoint position (c : Z) (l : list Z) : option Z :=
  match l with
  | [] => None
  | x :: l => if decide (x = c) then Some 0 else Z.succ <$> position c l
  end.

(** The first [b] characters are the digits of base [b]; up to base 36 both cases are the same. *)
Definition digit_of (b c : Z) : option Z :=
  let place alphabet := position c (take (Z.to_nat b) alphabet) in
  if decide (b <= 36) then match place lower_digits with Some d => Some d | None => place upper_digits end
  else place cased_digits.

Definition is_digit (b c : Z) : bool := bool_decide (is_Some (digit_of b c)).

(** The number that a sequence of digits denotes, the most significant first; [a] is what comes
    before them. *)
Fixpoint horner (b a : Z) (ds : list Z) : Z :=
  match ds with
  | [] => a
  | c :: ds => horner b (a * b + default 0 (digit_of b c)) ds
  end.

Lemma position_none c l : c ∉ l -> position c l = None.
Proof.
  induction l as [|x l IH]; intros Hc; [done|]. apply not_elem_of_cons in Hc as [Hx Hc]. cbn [position]. rewrite decide_False by congruence. by rewrite IH.
Qed.

(** A character outside the printed range is no digit. *)
Lemma digit_of_range b c : ~ (48 <= c <= 122) -> digit_of b c = None.
Proof.
  intros Hc. assert (forall l, forallb (fun x => bool_decide (48 <= x <= 122)) l = true -> position c (take (Z.to_nat b) l) = None) as Hn.
  { intros l Hl. apply position_none. intros Hin. apply Hc. apply elem_of_take in Hin as (i & Hi & _).
    pose proof (proj1 (forallb_forall _ _) Hl c) as H. apply bool_decide_eq_true in H; [done|]. apply list_elem_of_In. by eapply list_elem_of_lookup_2. }
  unfold digit_of. rewrite !Hn by reflexivity. by case_decide.
Qed.

(** Two readings of digits agree when they agree on the printed range. *)
Lemma digit_of_agrees (f : Z -> Z -> option Z) lo n :
  forallb (fun b => forallb (fun c => bool_decide (f b c = digit_of b c)) (seqZ 48 75)) (seqZ lo n) = true ->
  (forall b c, ~ (48 <= c <= 122) -> f b c = None) -> forall b c, lo <= b < lo + n -> f b c = digit_of b c.
Proof.
  intros Hall Hout b c Hb. destruct (decide (48 <= c <= 122)) as [Hc|Hc]; [|by rewrite Hout, digit_of_range].
  assert (b ∈ seqZ lo n) as Hin by (apply elem_of_seqZ; lia). assert (c ∈ seqZ 48 75) as Hin' by (apply elem_of_seqZ; lia).
  pose proof (proj1 (forallb_forall _ _) Hall b ltac:(by apply list_elem_of_In)) as H1. pose proof (proj1 (forallb_forall _ _) H1 c ltac:(by apply list_elem_of_In)) as H2.
  by apply bool_decide_eq_true in H2.
Qed.

Example digits_read : map (digit_of 16) (codes "7fF") = [Some 7; Some 15; Some 15] /\ digit_of 62 65 = Some 36 /\ digit_of 2 50 = None.
Proof. vm_compute. done. Qed.
