(* ===== verification/Outcome.v ===== *)
(** Outcomes of runtime code.

    A runtime call returns a value, panics (a failed [expect], [debug_assert!] or index), or
    ends the process through [syscall::Exit].  [of_option] lifts code whose only failure is a
    panic. *)
From Stdlib Require Import ZArith.
From stdpp Require Import base tactics option.
From S2P Require Import Prelude.

Inductive outcome (A : Type) :=
| Ok (a : A)
| Panic
| Exit (code : Z).
Arguments Ok {A} a.
Arguments Panic {A}.
Arguments Exit {A} code.

#[export] Instance outcome_ret : MRet outcome := fun A a => Ok a.
#[export] Instance outcome_bind : MBind outcome := fun A B f m =>
  match m with Ok a => f a | Panic => Panic | Exit c => Exit c end.

Definition of_option {A} (o : option A) : outcome A :=
  match o with Some a => Ok a | None => Panic end.

Lemma outcome_bind_ok {A B} (f : A -> outcome B) a : mbind f (Ok a) = f a.
Proof. done. Qed.

Lemma outcome_bind_inv {A B} (f : A -> outcome B) m b : mbind f m = Ok b -> exists a, m = Ok a /\ f a = Ok b.
Proof. destruct m; cbn; intros H; [by eexists|done|done]. Qed.

#[export] Hint Rewrite @outcome_bind_ok : goish.
