(* ===== verification/Runs.v ===== *)
(** Free runs: the mathematics behind page summaries.

    A page map is a predicate [f : Z -> bool] ([true] = free).  [summary_of f lo hi s m e]
    says that on the region [lo, hi) the free run at the start has length [s], the one at
    the end length [e], and the longest one length [m]: the contract every summary of the
    page allocator's radix tree must meet.  The file shows that such triples are unique,
    compose over adjacent regions, and locate first-fit runs. *)
From Stdlib Require Import ZArith Lia.
From stdpp Require Import base tactics numbers.
From S2P Require Import Prelude.
Open Scope Z_scope.

Definition run (f : Z -> bool) (i n : Z) : Prop := forall k, i <= k < i + n -> f k = true.

Record summary_of (f : Z -> bool) (lo hi s m e : Z) : Prop := {
  so_region : lo <= hi;
  so_start_bnd : 0 <= s <= hi - lo;
  so_start_run : run f lo s;
  so_start_stop : s < hi - lo -> f (lo + s) = false;
  so_end_bnd : 0 <= e <= hi - lo;
  so_end_run : run f (hi - e) e;
  so_end_stop : e < hi - lo -> f (hi - e - 1) = false;
  so_max_run : exists i, lo <= i /\ i + m <= hi /\ run f i m;
  so_max_nonneg : 0 <= m;
  so_max_top : forall i n, lo <= i -> i + n <= hi -> run f i n -> n <= m
}.

(** [first_run f lo hi n p]: [p] is the lowest position of [n] free pages inside [lo, hi). *)
Definition first_run (f : Z -> bool) (lo hi n p : Z) : Prop :=
  lo <= p /\ p + n <= hi /\ run f p n /\
  (forall q, lo <= q -> q + n <= hi -> run f q n -> p <= q).

Definition no_run (f : Z -> bool) (lo hi n : Z) : Prop :=
  forall q, lo <= q -> q + n <= hi -> ~ run f q n.

Lemma run_sub f i n j k : run f i n -> i <= j -> j + k <= i + n -> run f j k.
Proof. intros H ? ? x Hx. apply H. lia. Qed.

Lemma run_not_false f i n k : run f i n -> i <= k < i + n -> f k = false -> False.
Proof. intros H Hk E. rewrite (H k Hk) in E. done. Qed.

Lemma run_nonpos f i n : n <= 0 -> run f i n.
Proof. intros ? k ?. lia. Qed.

Lemma run_join f i n m : run f i n -> run f (i + n) m -> run f i (n + m).
Proof.
  intros H1 H2 k Hk. destruct (decide (k < i + n)); [apply H1|apply H2]; lia.
Qed.

Lemma run_ext f g i n : (forall k, i <= k < i + n -> f k = g k) -> run f i n <-> run g i n.
Proof. intros H. split; intros R k Hk; [rewrite <- H by lia|rewrite H by lia]; by apply R. Qed.

#[export] Hint Resolve run_nonpos : goish.

Section summary.
  Context (f : Z -> bool).

  (** A free run that starts a region is no longer than the recorded start, and dually. *)
Lemma so_start_top lo hi s m e n : summary_of f lo hi s m e ->
    run f lo n -> n <= hi - lo -> n <= s.
  Proof.
    intros H R Hn. destruct (decide (n <= s)); [done|]. exfalso.
    eapply run_not_false; [exact R| |apply (so_start_stop _ _ _ _ _ _ H); lia].
    pose proof (so_start_bnd _ _ _ _ _ _ H). lia.
  Qed.

Lemma so_end_top lo hi s m e i : summary_of f lo hi s m e ->
    lo <= i -> run f i (hi - i) -> hi - i <= e.
  Proof.
    intros H Hi R. destruct (decide (hi - i <= e)); [done|]. exfalso.
    eapply run_not_false; [exact R| |apply (so_end_stop _ _ _ _ _ _ H); lia].
    pose proof (so_end_bnd _ _ _ _ _ _ H). lia.
  Qed.

Lemma so_start_le_max lo hi s m e : summary_of f lo hi s m e -> s <= m.
  Proof.
    intros H. apply (so_max_top _ _ _ _ _ _ H lo); [lia| |apply (so_start_run _ _ _ _ _ _ H)].
    pose proof (so_start_bnd _ _ _ _ _ _ H). lia.
  Qed.

Lemma so_end_le_max lo hi s m e : summary_of f lo hi s m e -> e <= m.
  Proof.
    intros H. pose proof (so_end_bnd _ _ _ _ _ _ H).
    apply (so_max_top _ _ _ _ _ _ H (hi - e)); [lia|lia|apply (so_end_run _ _ _ _ _ _ H)].
  Qed.

Lemma so_max_bnd lo hi s m e : summary_of f lo hi s m e -> m <= hi - lo.
  Proof. intros H. destruct (so_max_run _ _ _ _ _ _ H) as (i & ? & ? & _). lia. Qed.

  (** A region whose longest run is the whole region is wholly free. *)
Lemma so_full lo hi s m e : summary_of f lo hi s m e -> m = hi - lo -> s = m /\ e = m.
  Proof.
    intros H E. destruct (so_max_run _ _ _ _ _ _ H) as (i & Hi1 & Hi2 & R).
    assert (i = lo) as -> by lia.
    pose proof (so_start_le_max _ _ _ _ _ H). pose proof (so_end_le_max _ _ _ _ _ H).
    pose proof (so_start_top _ _ _ _ _ m H R ltac:(lia)).
    pose proof (so_end_top _ _ _ _ _ lo H ltac:(lia)).
    subst m. specialize (H3 R). lia.
  Qed.

Lemma so_unique lo hi s m e s' m' e' :
    summary_of f lo hi s m e -> summary_of f lo hi s' m' e' -> s = s' /\ m = m' /\ e = e'.
  Proof.
    intros H H'.
    pose proof (so_start_bnd _ _ _ _ _ _ H). pose proof (so_start_bnd _ _ _ _ _ _ H').
    pose proof (so_end_bnd _ _ _ _ _ _ H). pose proof (so_end_bnd _ _ _ _ _ _ H').
    pose proof (so_start_top _ _ _ _ _ s' H (so_start_run _ _ _ _ _ _ H')).
    pose proof (so_start_top _ _ _ _ _ s H' (so_start_run _ _ _ _ _ _ H)).
    pose proof (so_end_top _ _ _ _ _ (hi - e') H ltac:(lia)) as E1.
    pose proof (so_end_top _ _ _ _ _ (hi - e) H' ltac:(lia)) as E2.
    replace (hi - (hi - e')) with e' in E1 by lia. replace (hi - (hi - e)) with e in E2 by lia.
    specialize (E1 (so_end_run _ _ _ _ _ _ H')). specialize (E2 (so_end_run _ _ _ _ _ _ H)).
    destruct (so_max_run _ _ _ _ _ _ H) as (i & ? & ? & R).
    destruct (so_max_run _ _ _ _ _ _ H') as (i' & ? & ? & R').
    pose proof (so_max_top _ _ _ _ _ _ H i' m' ltac:(lia) ltac:(lia) R').
    pose proof (so_max_top _ _ _ _ _ _ H' i m ltac:(lia) ltac:(lia) R). lia.
  Qed.

  (** Adjacent regions compose: the step of the radix tree's bottom-up update. *)
Lemma so_merge lo mid hi s1 m1 e1 s2 m2 e2 :
    summary_of f lo mid s1 m1 e1 -> summary_of f mid hi s2 m2 e2 ->
    summary_of f lo hi (if decide (s1 = mid - lo) then s1 + s2 else s1)
      (Z.max (Z.max m1 m2) (e1 + s2)) (if decide (e2 = hi - mid) then e1 + e2 else e2).
  Proof.
    intros H1 H2.
    pose proof (so_region _ _ _ _ _ _ H1). pose proof (so_region _ _ _ _ _ _ H2).
    pose proof (so_start_bnd _ _ _ _ _ _ H1). pose proof (so_start_bnd _ _ _ _ _ _ H2).
    pose proof (so_end_bnd _ _ _ _ _ _ H1). pose proof (so_end_bnd _ _ _ _ _ _ H2).
    pose proof (so_max_nonneg _ _ _ _ _ _ H1).
    split.
    - lia.
    - case_decide; lia.
    - case_decide as E; [|apply (so_start_run _ _ _ _ _ _ H1)].
      apply run_join; [apply (so_start_run _ _ _ _ _ _ H1)|].
      replace (lo + s1) with mid by lia. apply (so_start_run _ _ _ _ _ _ H2).
    - case_decide as E; intros.
      + replace (lo + (s1 + s2)) with (mid + s2) by lia. apply (so_start_stop _ _ _ _ _ _ H2). lia.
      + apply (so_start_stop _ _ _ _ _ _ H1). lia.
    - case_decide; lia.
    - case_decide as E; [|apply (so_end_run _ _ _ _ _ _ H2)].
      apply run_join.
      + replace (hi - (e1 + e2)) with (mid - e1) by lia. apply (so_end_run _ _ _ _ _ _ H1).
      + replace (hi - (e1 + e2) + e1) with (hi - e2) by lia. apply (so_end_run _ _ _ _ _ _ H2).
    - case_decide as E; intros.
      + replace (hi - (e1 + e2) - 1) with (mid - e1 - 1) by lia.
        apply (so_end_stop _ _ _ _ _ _ H1). lia.
      + apply (so_end_stop _ _ _ _ _ _ H2). lia.
    - destruct (so_max_run _ _ _ _ _ _ H1) as (i1 & ? & ? & R1).
      destruct (so_max_run _ _ _ _ _ _ H2) as (i2 & ? & ? & R2).
      destruct (Z.max_spec (Z.max m1 m2) (e1 + s2)) as [[? ->]|[? ->]].
      + exists (mid - e1). split; [lia|]. split; [lia|]. apply run_join.
        * apply (so_end_run _ _ _ _ _ _ H1).
        * replace (mid - e1 + e1) with mid by lia. apply (so_start_run _ _ _ _ _ _ H2).
      + destruct (Z.max_spec m1 m2) as [[? ->]|[? ->]]; [exists i2|exists i1]; split_and!; (lia || done).
    - lia.
    - intros i n Hi Hn R. destruct (decide (i + n <= mid)).
      { pose proof (so_max_top _ _ _ _ _ _ H1 i n ltac:(lia) ltac:(lia) R). lia. }
      destruct (decide (mid <= i)).
      { pose proof (so_max_top _ _ _ _ _ _ H2 i n ltac:(lia) ltac:(lia) R). lia. }
      pose proof (so_end_top _ _ _ _ _ i H1 ltac:(lia) (run_sub _ _ _ i (mid - i) R ltac:(lia) ltac:(lia))).
      pose proof (so_start_top _ _ _ _ _ (i + n - mid) H2
                    (run_sub _ _ _ mid (i + n - mid) R ltac:(lia) ltac:(lia)) ltac:(lia)). lia.
  Qed.

Lemma so_all_used lo hi : lo <= hi -> (forall k, lo <= k < hi -> f k = false) ->
    summary_of f lo hi 0 0 0.
  Proof.
    intros Hle H. split; try lia; try (apply run_nonpos; lia).
    - intros. apply H. lia.
    - intros. apply H. lia.
    - exists lo. split_and!; [lia|lia|apply run_nonpos; lia].
    - intros i n Hi Hn R. destruct (decide (n <= 0)); [done|]. exfalso.
      eapply run_not_false; [exact R| |apply (H i)]; lia.
  Qed.

Lemma so_all_free lo hi : lo <= hi -> run f lo (hi - lo) ->
    summary_of f lo hi (hi - lo) (hi - lo) (hi - lo).
  Proof.
    intros Hle H. split; try lia; try done.
    - by replace (hi - (hi - lo)) with lo by lia.
    - exists lo. split_and!; [lia|lia|done].
  Qed.
End summary.

Lemma so_ext f g lo hi s m e : (forall k, lo <= k < hi -> f k = g k) ->
  summary_of f lo hi s m e -> summary_of g lo hi s m e.
Proof.
  intros E H. pose proof (so_region _ _ _ _ _ _ H).
  pose proof (so_start_bnd _ _ _ _ _ _ H). pose proof (so_end_bnd _ _ _ _ _ _ H). split; try apply H.
  - eapply run_ext; [|apply H]. intros. symmetry. apply E. lia.
  - intros. rewrite <- E by lia. apply (so_start_stop _ _ _ _ _ _ H). lia.
  - eapply run_ext; [|apply H]. intros. symmetry. apply E. lia.
  - intros. rewrite <- E by lia. apply (so_end_stop _ _ _ _ _ _ H). lia.
  - destruct (so_max_run _ _ _ _ _ _ H) as (i & ? & ? & R). exists i. split_and!; [lia|lia|].
    eapply run_ext; [|done]. intros. symmetry. apply E. lia.
  - intros i n ? ? R. apply (so_max_top _ _ _ _ _ _ H i); [lia|lia|].
    eapply run_ext; [|done]. intros. apply E. lia.
Qed.

(** Translation of a region. *)
Lemma so_shift f lo hi s m e d : summary_of f lo hi s m e ->
  summary_of (fun k => f (k - d)) (lo + d) (hi + d) s m e.
Proof.
  intros H. assert (forall i n, run f i n <-> run (fun k => f (k - d)) (i + d) n) as Hr.
  { intros i n. split; intros R k Hk; [apply R; lia|]. specialize (R (k + d) ltac:(lia)). cbn in R.
    by replace (k + d - d) with k in R by lia. }
  pose proof (so_start_bnd _ _ _ _ _ _ H). pose proof (so_end_bnd _ _ _ _ _ _ H).
  pose proof (so_region _ _ _ _ _ _ H). split; try lia.
  - apply Hr, H.
  - intros. replace (lo + d + s - d) with (lo + s) by lia. apply H. lia.
  - replace (hi + d - e) with (hi - e + d) by lia. apply Hr, H.
  - intros. replace (hi + d - e - 1 - d) with (hi - e - 1) by lia. apply H. lia.
  - destruct (so_max_run _ _ _ _ _ _ H) as (i & ? & ? & R). exists (i + d). split_and!; [lia|lia|by apply Hr].
  - apply (so_max_nonneg _ _ _ _ _ _ H).
  - intros i n Hi Hn R. apply (so_max_top _ _ _ _ _ _ H (i - d)); [lia|lia|].
    apply Hr. by replace (i - d + d) with i by lia.
Qed.

(** *** First-fit search *)

Lemma first_run_unique f lo hi n p q : first_run f lo hi n p -> first_run f lo hi n q -> p = q.
Proof.
  intros (? & ? & R1 & M1) (? & ? & R2 & M2).
  pose proof (M1 q ltac:(lia) ltac:(lia) R2). pose proof (M2 p ltac:(lia) ltac:(lia) R1). lia.
Qed.

Lemma no_run_first f lo hi n p : no_run f lo hi n -> first_run f lo hi n p -> False.
Proof. intros H (? & ? & R & _). exact (H p ltac:(lia) ltac:(lia) R). Qed.

(** *** Counting pages *)

Fixpoint count_n (f : Z -> bool) (i : Z) (n : nat) : Z :=
  match n with O => 0 | S n => Z.b2z (f i) + count_n f (i + 1) n end.

(** How many positions of [i, i + n) satisfy [f]. *)
Definition count (f : Z -> bool) (i n : Z) : Z := count_n f i (Z.to_nat n).

Lemma count_0 f i : count f i 0 = 0.
Proof. done. Qed.

Lemma count_cons f i n : 0 < n -> count f i n = Z.b2z (f i) + count f (i + 1) (n - 1).
Proof. intros. unfold count. replace (Z.to_nat n) with (S (Z.to_nat (n - 1))) by lia. done. Qed.

(** Induction on a nonnegative length. *)
Lemma count_ind (P : Z -> Prop) : P 0 -> (forall n, 0 <= n -> P n -> P (n + 1)) -> forall n, 0 <= n -> P n.
Proof. intros H0 HS n Hn. apply (natlike_ind P); [done| |done]. intros x Hx. apply HS. done. Qed.

Lemma count_split f i a b : 0 <= a -> 0 <= b -> count f i (a + b) = count f i a + count f (i + a) b.
Proof.
  intros Ha Hb. revert i. revert a Ha. refine (count_ind _ _ _).
  - intros i. by rewrite count_0, Z.add_0_r.
  - intros a Ha IH i. rewrite (count_cons f i (a + 1 + b)), (count_cons f i (a + 1)) by lia.
    replace (a + 1 + b - 1) with (a + b) by lia. rewrite IH.
    replace (a + 1 - 1) with a by lia. replace (i + 1 + a) with (i + (a + 1)) by lia. lia.
Qed.

Lemma count_ext f g i j n : 0 <= n -> (forall k, 0 <= k < n -> f (i + k) = g (j + k)) ->
  count f i n = count g j n.
Proof.
  intros Hn. revert i j. revert n Hn. refine (count_ind _ _ _); [done|].
  intros n Hn IH i j H. rewrite !(count_cons _ _ (n + 1)) by lia.
  replace (n + 1 - 1) with n by lia. f_equal.
  - f_equal. specialize (H 0). rewrite !Z.add_0_r in H. apply H. lia.
  - apply IH. intros k Hk. replace (i + 1 + k) with (i + (k + 1)) by lia.
    replace (j + 1 + k) with (j + (k + 1)) by lia. apply H. lia.
Qed.

Lemma count_false f i n : 0 <= n -> (forall k, i <= k < i + n -> f k = false) -> count f i n = 0.
Proof.
  intros Hn. revert i. revert n Hn. refine (count_ind _ _ _); [done|].
  intros n Hn IH i H. rewrite count_cons by lia. rewrite (H i) by lia.
  replace (n + 1 - 1) with n by lia. rewrite IH; [done|]. intros. apply H. lia.
Qed.

Lemma count_bounds f i n : 0 <= n -> 0 <= count f i n <= n.
Proof.
  intros Hn. revert i. revert n Hn. refine (count_ind _ _ _); [done|].
  intros n Hn IH i. rewrite count_cons by lia. replace (n + 1 - 1) with n by lia.
  specialize (IH (i + 1)). destruct (f i); cbn [Z.b2z]; lia.
Qed.

Lemma count_negb f i n : 0 <= n -> count (fun k => negb (f k)) i n = n - count f i n.
Proof.
  intros Hn. revert i. revert n Hn. refine (count_ind _ _ _); [done|].
  intros n Hn IH i. rewrite !(count_cons _ _ (n + 1)) by lia. replace (n + 1 - 1) with n by lia. rewrite IH.
  destruct (f i); cbn [Z.b2z negb]; lia.
Qed.

(** [count_ones] counts set bits. *)
Lemma pos_popcount_count p : forall n, 0 <= n -> Zpos p < 2 ^ n ->
  pos_popcount p = count (Z.testbit (Zpos p)) 0 n.
Proof.
  induction p as [q IH|q IH|]; intros n Hn Hp; cbn [pos_popcount].
  1,2: destruct (decide (n = 0)) as [->|Hn0]; [cbn in Hp; lia|];
    assert (2 ^ n = 2 * 2 ^ (n - 1)) by (rewrite <- Z.pow_succ_r by lia; f_equal; lia);
    rewrite ?Pos2Z.inj_xI, ?(Pos2Z.inj_xO q) in Hp; rewrite count_cons by lia; rewrite (IH (n - 1)) by lia.
  - cbn [Z.testbit Z.b2z Z.odd]. f_equal. apply count_ext; [lia|]. intros k Hk.
    replace (0 + 1 + k) with (Z.succ (0 + k)) by lia.
    rewrite (Pos2Z.inj_xI q). by rewrite Z.testbit_odd_succ by lia.
  - cbn [Z.testbit Z.b2z Z.odd]. rewrite Z.add_0_l. apply count_ext; [lia|]. intros k Hk.
    replace (0 + 1 + k) with (Z.succ (0 + k)) by lia.
    rewrite (Pos2Z.inj_xO q). by rewrite Z.testbit_even_succ by lia.
  - destruct (decide (n = 0)) as [->|Hn0]; [cbn in Hp; lia|].
    rewrite count_cons by lia. rewrite count_false; [done|lia|].
    intros k Hk. apply Z.bits_above_log2; cbn; lia.
Qed.

Lemma count_ones_count x n : 0 <= n -> 0 <= x < 2 ^ n -> count_ones x = count (Z.testbit x) 0 n.
Proof.
  intros Hn Hx. destruct x as [|p|p]; [|apply pos_popcount_count; lia|lia].
  cbn. rewrite count_false; [done|done|]. intros. apply Z.testbit_0_l.
Qed.

(** *** Scanning left to right

    [tail_run f lo pos len]: exactly [len] free pages end at [pos] inside the region that
    starts at [lo].  [head_run f pos hi t]: exactly [t] free pages start at [pos] inside a
    block that ends at [hi].  A scan keeps a [tail_run] and the fact that no long enough run
    lies wholly to its left. *)
Definition tail_run (f : Z -> bool) (lo pos len : Z) : Prop :=
  0 <= len <= pos - lo /\ run f (pos - len) len /\ (len < pos - lo -> f (pos - len - 1) = false).

Definition head_run (f : Z -> bool) (pos hi t : Z) : Prop :=
  0 <= t <= hi - pos /\ run f pos t /\ (t < hi - pos -> f (pos + t) = false).

Lemma so_tail f lo hi s m e : summary_of f lo hi s m e -> tail_run f lo hi e.
Proof. intros H. split; [apply H|]. split; apply H. Qed.

Lemma so_head f lo hi s m e : summary_of f lo hi s m e -> head_run f lo hi s.
Proof. intros H. split; [apply H|]. split; apply H. Qed.

Lemma so_no_run f lo hi s m e n : summary_of f lo hi s m e -> m < n -> no_run f lo hi n.
Proof. intros H Hm q ? ? R. pose proof (so_max_top _ _ _ _ _ _ H q n ltac:(lia) ltac:(lia) R). lia. Qed.

Lemma tail_run_start f lo : tail_run f lo lo 0.
Proof. split; [lia|]. split; [apply run_nonpos|]; lia. Qed.

Lemma no_run_empty f lo n : 1 <= n -> no_run f lo lo n.
Proof. intros ? q ? ? _. lia. Qed.

Lemma no_run_lt f lo pos len n : tail_run f lo pos len -> no_run f lo pos n -> len < n.
Proof.
  intros (Hb & R & _) Hno. destruct (decide (len < n)); [done|]. exfalso.
  apply (Hno (pos - len)); [lia|lia|]. eapply run_sub; [exact R|lia|lia].
Qed.

(** The run that crosses [pos] is the first fit. *)
Lemma first_from_tail f lo hi pos len n : tail_run f lo pos len -> no_run f lo pos n -> 1 <= n ->
  run f pos (n - len) -> pos - len + n <= hi -> first_run f lo hi n (pos - len).
Proof.
  intros (Hb & Rt & Hstop) Hno Hn Rh Hhi. split_and!; [lia|lia| |].
  - intros k Hk. destruct (decide (k < pos)); [apply Rt|apply Rh]; lia.
  - intros q Hq1 Hq2 R. destruct (decide (pos - len <= q)); [done|]. exfalso.
    destruct (decide (q + n <= pos)); [exact (Hno q Hq1 ltac:(lia) R)|].
    eapply run_not_false; [exact R| |apply Hstop]; lia.
Qed.

(** No run crosses [pos], none lies in the next block: none up to the block's end. *)
Lemma no_run_extend f lo pos pos' len t n : tail_run f lo pos len -> no_run f lo pos n ->
  head_run f pos pos' t -> no_run f pos pos' n -> len + t < n -> no_run f lo pos' n.
Proof.
  intros (Hb & Rt & Hstop) Hno (Ht & Rh & Hhs) Hno' Hlt q Hq1 Hq2 R.
  destruct (decide (q + n <= pos)); [exact (Hno q Hq1 ltac:(lia) R)|].
  destruct (decide (pos <= q)); [exact (Hno' q ltac:(lia) ltac:(lia) R)|].
  destruct (decide (pos - len <= q)).
  - eapply run_not_false; [exact R| |apply Hhs]; lia.
  - eapply run_not_false; [exact R| |apply Hstop]; lia.
Qed.

(** A first fit inside the next block is the first fit overall. *)
Lemma first_in_block f lo pos pos' hi len t n p : tail_run f lo pos len -> no_run f lo pos n ->
  head_run f pos pos' t -> len + t < n -> lo <= pos -> pos' <= hi ->
  first_run f pos pos' n p -> first_run f lo hi n p.
Proof.
  intros (Hb & Rt & Hstop) Hno (Ht & Rh & Hhs) Hlt Hlo Hhi (Hp1 & Hp2 & Rp & Hmin).
  split_and!; [lia|lia|done|]. intros q Hq1 Hq2 R.
  destruct (decide (pos <= q)).
  - destruct (decide (q + n <= pos')); [by apply Hmin|lia].
  - exfalso. destruct (decide (q + n <= pos)); [exact (Hno q Hq1 ltac:(lia) R)|].
    destruct (decide (pos - len <= q)).
    + eapply run_not_false; [exact R| |apply Hhs]; lia.
    + eapply run_not_false; [exact R| |apply Hstop]; lia.
Qed.

Lemma tail_run_reset f lo pos hi e : tail_run f pos hi e -> e < hi - pos -> lo <= pos -> tail_run f lo hi e.
Proof. intros (? & R & Hs) He Hl. split; [lia|]. split; [done|]. intros. apply Hs. lia. Qed.

Lemma tail_run_grow f lo pos hi len : tail_run f lo pos len -> pos <= hi -> run f pos (hi - pos) ->
  tail_run f lo hi (len + (hi - pos)).
Proof.
  intros (? & Rt & Hs) Hle R. split; [lia|]. split.
  - intros k Hk. destruct (decide (k < pos)); [apply Rt|apply R]; lia.
  - intros. replace (hi - (len + (hi - pos)) - 1) with (pos - len - 1) by lia. apply Hs. lia.
Qed.

Lemma tail_run_zero f lo pos hi : lo <= pos -> pos < hi -> f (hi - 1) = false -> tail_run f lo hi 0.
Proof. intros. split; [lia|]. split; [apply run_nonpos; lia|]. intros. by replace (hi - 0 - 1) with (hi - 1) by lia. Qed.

Lemma first1_extend f lo pos pos' hi p : no_run f lo pos 1 -> lo <= pos -> pos' <= hi ->
  first_run f pos pos' 1 p -> first_run f lo hi 1 p.
Proof.
  intros Hno Hlo Hhi (Hp1 & Hp2 & Rp & Hmin). split_and!; [lia|lia|done|]. intros q Hq1 Hq2 R.
  destruct (decide (q < pos)); [by destruct (Hno q Hq1 ltac:(lia))|].
  destruct (decide (q + 1 <= pos')); [apply Hmin; (lia || done)|lia].
Qed.

Lemma no_run_used f lo pos pos' n : no_run f lo pos n -> lo <= pos -> 1 <= n ->
  (forall p, pos <= p < pos' -> f p = false) -> no_run f lo pos' n.
Proof.
  intros Hno Hlo Hn Hu q Hq1 Hq2 R. destruct (decide (q + n <= pos)); [exact (Hno q Hq1 ltac:(lia) R)|].
  eapply run_not_false; [exact R| |apply (Hu (q + n - 1))]; lia.
Qed.
