(* ===== verification/MheapConsts.v ===== *)
(** Page-allocator geometry: src/src/runtime/mheap/consts.rs.

    Every constant is the source's expression over the others; the per-level tables are
    lists indexed by level.  [levels_span] and [level_geometry] are the arithmetic facts
    the radix tree relies on. *)
From Stdlib Require Import ZArith Lia.
From stdpp Require Import base tactics numbers list.
From S2P Require Import Prelude.
Open Scope Z_scope.

Definition PAGE_SHIFT : Z := 13.
Definition PAGE_SIZE : Z := Z.shiftl 1 PAGE_SHIFT.
Definition LOG_PALLOC_CHUNK_PAGES : Z := 9.
Definition PALLOC_CHUNK_PAGES : Z := Z.shiftl 1 LOG_PALLOC_CHUNK_PAGES.
Definition LOG_PALLOC_CHUNK_BYTES : Z := LOG_PALLOC_CHUNK_PAGES + PAGE_SHIFT.
Definition PALLOC_CHUNK_BYTES : Z := Z.shiftl 1 LOG_PALLOC_CHUNK_BYTES.
Definition HEAP_ADDR_BITS : Z := 48.
Definition SUMMARY_LEVELS : Z := 5.
Definition SUMMARY_LEVEL_BITS : Z := 3.
Definition SUMMARY_L0_BITS : Z :=
  HEAP_ADDR_BITS - LOG_PALLOC_CHUNK_BYTES - (SUMMARY_LEVELS - 1) * SUMMARY_LEVEL_BITS.

Definition LEVEL_BITS : list Z :=
  [SUMMARY_L0_BITS; SUMMARY_LEVEL_BITS; SUMMARY_LEVEL_BITS; SUMMARY_LEVEL_BITS; SUMMARY_LEVEL_BITS].

Definition LEVEL_SHIFT : list Z :=
  [HEAP_ADDR_BITS - SUMMARY_L0_BITS;
   HEAP_ADDR_BITS - SUMMARY_L0_BITS - SUMMARY_LEVEL_BITS;
   HEAP_ADDR_BITS - SUMMARY_L0_BITS - 2 * SUMMARY_LEVEL_BITS;
   HEAP_ADDR_BITS - SUMMARY_L0_BITS - 3 * SUMMARY_LEVEL_BITS;
   HEAP_ADDR_BITS - SUMMARY_L0_BITS - 4 * SUMMARY_LEVEL_BITS].

Definition LEVEL_LOG_PAGES : list Z :=
  [LOG_PALLOC_CHUNK_PAGES + 4 * SUMMARY_LEVEL_BITS;
   LOG_PALLOC_CHUNK_PAGES + 3 * SUMMARY_LEVEL_BITS;
   LOG_PALLOC_CHUNK_PAGES + 2 * SUMMARY_LEVEL_BITS;
   LOG_PALLOC_CHUNK_PAGES + 1 * SUMMARY_LEVEL_BITS;
   LOG_PALLOC_CHUNK_PAGES].

Definition LOG_MAX_PACKED_VALUE : Z :=
  LOG_PALLOC_CHUNK_PAGES + (SUMMARY_LEVELS - 1) * SUMMARY_LEVEL_BITS.
Definition MAX_PACKED_VALUE : Z := Z.shiftl 1 LOG_MAX_PACKED_VALUE.

(** Table lookup by level; only levels below [SUMMARY_LEVELS] are ever used. *)
Definition level_bits (l : Z) : Z := nth (Z.to_nat l) LEVEL_BITS 0.
Definition level_shift (l : Z) : Z := nth (Z.to_nat l) LEVEL_SHIFT 0.
Definition level_log_pages (l : Z) : Z := nth (Z.to_nat l) LEVEL_LOG_PAGES 0.

(** The source's compile-time assertions. *)
Definition consts_sanity : bool :=
  (3 * LOG_MAX_PACKED_VALUE + 1 <=? 64) &&
  (SUMMARY_L0_BITS + (SUMMARY_LEVELS - 1) * SUMMARY_LEVEL_BITS + LOG_PALLOC_CHUNK_BYTES
     =? HEAP_ADDR_BITS) &&
  (level_log_pages 0 <=? LOG_MAX_PACKED_VALUE).

(** Case analysis on a level. *)
Lemma level_cases (P : Z -> Prop) :
  P 0 -> P 1 -> P 2 -> P 3 -> P 4 -> forall l, 0 <= l < SUMMARY_LEVELS -> P l.
Proof.
  unfold SUMMARY_LEVELS. intros. assert (l = 0 \/ l = 1 \/ l = 2 \/ l = 3 \/ l = 4) by lia.
  intuition subst; assumption.
Qed.

(** Addresses shift by page size plus the level's pages, and a parent covers exactly the
    pages of its [2 ^ level_bits] children. *)
Lemma level_geometry l : 0 <= l < SUMMARY_LEVELS ->
  level_shift l = level_log_pages l + PAGE_SHIFT /\
  9 <= level_log_pages l <= 21 /\ 0 <= level_bits l <= 14 /\
  (l < 4 -> level_log_pages l = level_log_pages (l + 1) + level_bits (l + 1) /\ level_bits (l + 1) = 3).
Proof. revert l. apply level_cases; vm_compute; intuition congruence. Qed.

