(* ===== verification/PallocSum.v ===== *)
(** Packed page summaries: src/src/runtime/mheap/palloc_sum.rs.

    A [PallocSum] is one u64 holding three 21-bit counts and a sentinel bit; here it is the
    u64 itself.  The theorems: packing round-trips on every triple a summary can take,
    distinct triples pack to distinct words, and [merge_summaries] computes the summary of
    the union of adjacent regions. *)
From Stdlib Require Import ZArith Lia.
From stdpp Require Import base tactics numbers list option.
From S2P Require Import Prelude Runs MheapConsts.
Open Scope Z_scope.

Abbreviation PallocSum := Z (only parsing).

Definition FIELD_MASK : Z := Z.shiftl 1 LOG_MAX_PACKED_VALUE - 1.
Definition FULL_BIT : Z := Z.shiftl 1 63.

Definition pack (start max_ end_ : Z) : PallocSum :=
  if decide (max_ = MAX_PACKED_VALUE) then FULL_BIT
  else
    let s := Z.land start FIELD_MASK in
    let m := shl64 (Z.land max_ FIELD_MASK) LOG_MAX_PACKED_VALUE in
    let e := shl64 (Z.land end_ FIELD_MASK) (2 * LOG_MAX_PACKED_VALUE) in
    Z.lor (Z.lor s m) e.

Definition sum_empty : PallocSum := 0.
Definition sum_full (pages : Z) : PallocSum := pack pages pages pages.
Definition sum_full_max : PallocSum := FULL_BIT.
Definition sum_raw (x : PallocSum) : Z := x.

Definition sum_start (x : PallocSum) : Z :=
  if decide (Z.land x FULL_BIT <> 0) then MAX_PACKED_VALUE else Z.land x FIELD_MASK.
Definition sum_max (x : PallocSum) : Z :=
  if decide (Z.land x FULL_BIT <> 0) then MAX_PACKED_VALUE
  else Z.land (shr64 x LOG_MAX_PACKED_VALUE) FIELD_MASK.
Definition sum_end (x : PallocSum) : Z :=
  if decide (Z.land x FULL_BIT <> 0) then MAX_PACKED_VALUE
  else Z.land (shr64 x (2 * LOG_MAX_PACKED_VALUE)) FIELD_MASK.

Definition unpack (x : PallocSum) : Z * Z * Z :=
  if decide (Z.land x FULL_BIT <> 0) then (MAX_PACKED_VALUE, MAX_PACKED_VALUE, MAX_PACKED_VALUE)
  else (Z.land x FIELD_MASK,
        Z.land (shr64 x LOG_MAX_PACKED_VALUE) FIELD_MASK,
        Z.land (shr64 x (2 * LOG_MAX_PACKED_VALUE)) FIELD_MASK).

(** The [while (i as usize) < sums.len()] loop of [merge_summaries], over the summaries
    not yet merged. *)
Fixpoint merge_loop (block : Z) (i : Z) (sums : list PallocSum) (acc : Z * Z * Z) : Z * Z * Z :=
  match sums with
  | [] => acc
  | sum :: rest =>
      let '(start, most, end_) := acc in
      let '(si, mi, ei) := unpack sum in
      let start := if decide (start = i * block) then start + si else start in
      let candidate := end_ + si in
      let m := if decide (most >= mi) then most else mi in
      let most := if decide (candidate > m) then candidate else m in
      let end_ := if decide (ei = block) then end_ + block else ei in
      merge_loop block (i + 1) rest (start, most, end_)
  end.

(** [sums[0]] panics on an empty slice. *)
Definition merge_summaries (sums : list PallocSum) (log_max_pages_per_sum : Z) : option PallocSum :=
  match sums with
  | [] => None
  | s0 :: rest =>
      let block := Z.shiftl 1 log_max_pages_per_sum in
      let '(start, most, end_) := merge_loop block 1 rest (unpack s0) in
      Some (pack start most end_)
  end.

(** The triples a summary can hold: the sentinel stands for all three fields at once. *)
Definition packable (s m e : Z) : Prop :=
  0 <= s <= m /\ 0 <= e <= m /\ m <= MAX_PACKED_VALUE /\
  (m = MAX_PACKED_VALUE -> s = m /\ e = m).

Lemma FIELD_MASK_ones : FIELD_MASK = Z.ones 21.
Proof. done. Qed.

Lemma testbit_FULL_BIT i : 0 <= i -> Z.testbit FULL_BIT i = bool_decide (i = 63).
Proof.
  intros Hi. unfold FULL_BIT. rewrite Z.shiftl_1_l. case_bool_decide as H.
  - subst. by rewrite Z.pow2_bits_true by lia.
  - by rewrite Z.pow2_bits_false by lia.
Qed.

Lemma testbit_small21 a i : 0 <= a < 2 ^ 21 -> 21 <= i -> Z.testbit a i = false.
Proof. intros. rewrite <- (Z.mod_small a (2 ^ 21)) by lia. apply Z.mod_pow2_bits_high. lia. Qed.

(** The word laid out bit by bit. *)
Lemma testbit_pack s m e i : 0 <= s < 2 ^ 21 -> 0 <= m < 2 ^ 21 -> 0 <= e < 2 ^ 21 -> 0 <= i ->
  Z.testbit (pack s m e) i =
    if decide (i < 21) then Z.testbit s i
    else if decide (i < 42) then Z.testbit m (i - 21)
    else Z.testbit e (i - 42).
Proof.
  intros Hs Hm He Hi. unfold pack. rewrite decide_False by (change MAX_PACKED_VALUE with (2 ^ 21); lia).
  cbn zeta. rewrite FIELD_MASK_ones, !Z.land_ones, !Z.mod_small by lia.
  change (2 * LOG_MAX_PACKED_VALUE) with 42. change LOG_MAX_PACKED_VALUE with 21.
  rewrite !Z.lor_spec, !testbit_shl64 by lia. destruct (decide (i < 21)); [|destruct (decide (i < 42))].
  - rewrite !(Z.testbit_neg_r _ (i - _)) by lia. rewrite !andb_false_r, !orb_false_r. done.
  - rewrite (testbit_small21 s), (Z.testbit_neg_r _ (i - 42)) by lia.
    rewrite bool_decide_true by lia. by rewrite ?andb_false_r, ?orb_false_r.
  - rewrite (testbit_small21 s), (testbit_small21 m) by lia. rewrite andb_false_r.
    case_bool_decide; [done|]. by rewrite testbit_small21 by lia.
Qed.

Lemma field_of_bits x k a : 0 <= k -> 0 <= a < 2 ^ 21 ->
  (forall i, 0 <= i < 21 -> Z.testbit x (i + k) = Z.testbit a i) -> Z.land (shr64 x k) FIELD_MASK = a.
Proof.
  intros Hk Ha H. rewrite FIELD_MASK_ones. apply Z.bits_inj'. intros i Hi.
  rewrite Z.land_spec, testbit_shr64 by lia. destruct (decide (i < 21)).
  - rewrite Z.ones_spec_low, andb_true_r by lia. apply H. lia.
  - rewrite Z.ones_spec_high, andb_false_r by lia. by rewrite testbit_small21 by lia.
Qed.

Lemma land_FULL_BIT x : Z.testbit x 63 = false -> Z.land x FULL_BIT = 0.
Proof.
  intros H. apply Z.bits_inj'. intros i Hi. rewrite Z.land_spec, testbit_FULL_BIT, Z.testbit_0_l by lia.
  case_bool_decide; [subst; by rewrite H|apply andb_false_r].
Qed.

Lemma unpack_pack s m e : packable s m e -> unpack (pack s m e) = (s, m, e).
Proof.
  unfold packable. change MAX_PACKED_VALUE with (2 ^ 21). intros (Hs & He & Hm & Hfull).
  destruct (decide (m = 2 ^ 21)) as [E|E].
  { destruct (Hfull E) as [-> ->]. subst m. done. }
  pose proof (testbit_pack s m e) as T. unfold unpack.
  rewrite decide_False; cycle 1.
  { intros H. apply H, land_FULL_BIT. rewrite T by lia. rewrite !decide_False by lia.
    apply testbit_small21; lia. }
  change (2 * LOG_MAX_PACKED_VALUE) with 42. change LOG_MAX_PACKED_VALUE with 21.
  f_equal; [f_equal|].
  - change (Z.land (pack s m e) FIELD_MASK) with (Z.land (shr64 (pack s m e) 0) FIELD_MASK).
    apply field_of_bits; [lia|lia|]. intros i Hi. rewrite Z.add_0_r, T by lia. by rewrite decide_True by lia.
  - apply field_of_bits; [lia|lia|]. intros i Hi. rewrite T by lia.
    rewrite decide_False, decide_True by lia. f_equal. lia.
  - apply field_of_bits; [lia|lia|]. intros i Hi. rewrite T by lia.
    rewrite !decide_False by lia. f_equal. lia.
Qed.

Lemma unpack_fields x : unpack x = (sum_start x, sum_max x, sum_end x).
Proof. unfold unpack, sum_start, sum_max, sum_end. by case_decide. Qed.

(** A summary of a region no larger than the root's can be packed. *)
Lemma so_packable f lo hi s m e : summary_of f lo hi s m e -> hi - lo <= MAX_PACKED_VALUE ->
  packable s m e.
Proof.
  intros H Hsz. unfold packable.
  pose proof (so_start_le_max _ _ _ _ _ _ H). pose proof (so_end_le_max _ _ _ _ _ _ H).
  pose proof (so_start_bnd _ _ _ _ _ _ H). pose proof (so_end_bnd _ _ _ _ _ _ H).
  pose proof (so_max_bnd _ _ _ _ _ _ H).
  split_and!; try lia. intros E. apply (so_full _ _ _ _ _ _ H). lia.
Qed.

(** [sum_ok f lo hi x]: the packed summary [x] describes the free pages of [lo, hi). *)
Definition sum_ok (f : Z -> bool) (lo hi : Z) (x : PallocSum) : Prop :=
  exists s m e, summary_of f lo hi s m e /\ x = pack s m e.

Lemma sum_ok_unpack f lo hi x : hi - lo <= MAX_PACKED_VALUE -> sum_ok f lo hi x ->
  summary_of f lo hi (sum_start x) (sum_max x) (sum_end x).
Proof.
  intros Hsz (s & m & e & H & ->). pose proof (unpack_pack s m e (so_packable _ _ _ _ _ _ H Hsz)) as E.
  rewrite unpack_fields in E. injection E as -> -> ->. done.
Qed.

Lemma sum_ok_ext f g lo hi x : (forall k, lo <= k < hi -> f k = g k) -> sum_ok f lo hi x -> sum_ok g lo hi x.
Proof. intros E (s & m & e & H & ->). exists s, m, e. split; [|done]. by eapply so_ext. Qed.

Lemma sum_ok_unique f lo hi x y : sum_ok f lo hi x -> sum_ok f lo hi y -> x = y.
Proof.
  intros (s & m & e & H & ->) (s' & m' & e' & H' & ->).
  by destruct (so_unique _ _ _ _ _ _ _ _ _ H H') as (-> & -> & ->).
Qed.

Lemma sum_ok_zero f lo hi : lo <= hi -> (forall k, lo <= k < hi -> f k = false) -> sum_ok f lo hi 0.
Proof. intros. exists 0, 0, 0. split; [by apply so_all_used|done]. Qed.

(** A zero word is exactly the summary of a region with no free page. *)
Lemma sum_ok_raw_zero f lo hi : sum_ok f lo hi 0 -> hi - lo <= MAX_PACKED_VALUE -> summary_of f lo hi 0 0 0.
Proof. intros H Hsz. exact (sum_ok_unpack _ _ _ _ Hsz H). Qed.

(** *** Merging *)

(** The running triple after [i] summaries is the summary of the first [i] blocks. *)
Lemma merge_loop_ok f block lo : 0 < block <= MAX_PACKED_VALUE ->
  forall sums i s m e,
  0 <= i ->
  summary_of f lo (lo + i * block) s m e ->
  (forall k x, idx sums k = Some x -> sum_ok f (lo + (i + k) * block) (lo + (i + k + 1) * block) x) ->
  exists s' m' e', merge_loop block i sums (s, m, e) = (s', m', e') /\
    summary_of f lo (lo + (i + zlen sums) * block) s' m' e'.
Proof.
  intros Hb. induction sums as [|x sums IH]; intros i s m e Hi H Hk; cbn [merge_loop].
  { exists s, m, e. split; [done|]. by rewrite Z.add_0_r. }
  pose proof (Hk 0 x eq_refl) as Hx. rewrite !Z.add_0_r in Hx.
  apply sum_ok_unpack in Hx; [|lia]. rewrite unpack_fields. revert Hx.
  generalize (sum_start x), (sum_max x), (sum_end x). intros si mi ei Hx.
  pose proof (so_merge _ _ _ _ _ _ _ _ _ _ H Hx) as M.
  replace (zlen (x :: sums)) with (1 + zlen sums) by (unfold zlen; cbn; lia).
  replace (i + (1 + zlen sums)) with (i + 1 + zlen sums) by lia. apply IH; [lia| |].
  - pose proof (so_end_bnd _ _ _ _ _ _ Hx).
    replace (lo + i * block - lo) with (i * block) in M by lia.
    replace (lo + (i + 1) * block - (lo + i * block)) with block in * by lia.
    clear -M. repeat case_decide; subst; try lia;
      match goal with |- summary_of _ _ _ _ ?a _ => match type of M with summary_of _ _ _ _ ?b _ =>
        replace a with b by lia; exact M end end.
  - intros k y Hy. replace (i + 1 + k) with (i + (1 + k)) by lia. apply Hk.
    apply idx_Some in Hy as [? Hy]. apply idx_Some. split; [lia|].
    by replace (Z.to_nat (1 + k)) with (S (Z.to_nat k)) by lia.
Qed.

Lemma merge_summaries_ok f lo sums logp : 0 <= logp <= 21 ->
  0 < zlen sums -> zlen sums * 2 ^ logp <= MAX_PACKED_VALUE ->
  (forall k x, idx sums k = Some x -> sum_ok f (lo + k * 2 ^ logp) (lo + (k + 1) * 2 ^ logp) x) ->
  exists y, merge_summaries sums logp = Some y /\ sum_ok f lo (lo + zlen sums * 2 ^ logp) y.
Proof.
  intros Hl Hne Hsz Hk. destruct sums as [|x sums]; [unfold zlen in Hne; cbn in Hne; lia|].
  unfold merge_summaries. rewrite Z.shiftl_1_l.
  assert (0 < 2 ^ logp) by lia.
  assert (zlen (x :: sums) = 1 + zlen sums) as Hz by (unfold zlen; cbn; lia). rewrite Hz in *.
  assert (2 ^ logp <= MAX_PACKED_VALUE) by (unfold zlen in *; nia).
  pose proof (Hk 0 x eq_refl) as Hx. apply sum_ok_unpack in Hx; [|lia].
  replace (lo + 0 * 2 ^ logp) with lo in Hx by lia.
  destruct (merge_loop_ok f (2 ^ logp) lo ltac:(lia) sums 1 _ _ _ ltac:(lia) Hx) as (s & m & e & Hm & Hs).
  { intros k y Hy. replace (1 + k) with (k + 1) by lia. apply Hk.
    apply idx_Some in Hy as [? Hy]. apply idx_Some. split; [lia|].
    by replace (Z.to_nat (k + 1)) with (S (Z.to_nat k)) by lia. }
  rewrite unpack_fields, Hm. eexists. split; [done|]. exists s, m, e. by rewrite <- Hz in *.
Qed.

(** ** Theorems *)

(** [unpack] inverts [pack] on every triple a summary can hold (each of start and end at most
    max, max at most 2^21, the saturated value only for an all-free region), and the accessors
    [start], [max], [end] agree with [unpack]. *)
Theorem pack_roundtrip s m e : packable s m e ->
  unpack (pack s m e) = (s, m, e) /\ is_u64 (pack s m e) /\
  sum_start (pack s m e) = s /\ sum_max (pack s m e) = m /\ sum_end (pack s m e) = e.
Proof.
  intros H. pose proof (unpack_pack s m e H) as E. split; [done|].
  rewrite unpack_fields in E. injection E as -> -> ->. split; [|done].
  unfold packable in H. change MAX_PACKED_VALUE with (2 ^ 21) in H. unfold pack. case_decide; [done|].
  repeat apply lor_u64; try apply shl_u64. apply land_u64_l; [unfold is_u64; lia|done].
Qed.

Lemma pack_roundtrip_witness :
  unpack (pack 3 100 41) = (3, 100, 41) /\ is_u64 (pack 3 100 41) /\
  sum_start (pack 3 100 41) = 3 /\ sum_max (pack 3 100 41) = 100 /\ sum_end (pack 3 100 41) = 41.
Proof. apply (pack_roundtrip 3 100 41). unfold packable. change MAX_PACKED_VALUE with 2097152. lia. Defined.

(** [merge_summaries] of the summaries of adjacent regions of [2^logp] pages is the summary of
    their union: first run, longest run and last run of free pages, runs that cross region
    boundaries included. *)
Theorem merge_summaries_sound f lo sums logp : 0 <= logp <= 21 ->
  0 < zlen sums -> zlen sums * 2 ^ logp <= MAX_PACKED_VALUE ->
  (forall k x, idx sums k = Some x -> sum_ok f (lo + k * 2 ^ logp) (lo + (k + 1) * 2 ^ logp) x) ->
  exists y, merge_summaries sums logp = Some y /\
    summary_of f lo (lo + zlen sums * 2 ^ logp) (sum_start y) (sum_max y) (sum_end y).
Proof.
  intros Hl Hne Hsz Hk. destruct (merge_summaries_ok f lo sums logp Hl Hne Hsz Hk) as (y & E & Hy).
  exists y. split; [done|]. apply sum_ok_unpack; [lia|done].
Qed.

(** Eight pages of which only the fifth is used, as two regions of four pages. *)
Lemma merge_summaries_sound_witness :
  exists y, merge_summaries [pack 4 4 4; pack 0 3 3] 2 = Some y /\
    summary_of (fun k => negb (k =? 4)) 0 8 (sum_start y) (sum_max y) (sum_end y).
Proof.
  apply (merge_summaries_sound (fun k => negb (k =? 4)) 0 [pack 4 4 4; pack 0 3 3] 2); [lia|done|done|].
  intros k x Hx. pose proof (idx_range _ _ _ Hx) as Hr. unfold zlen in Hr. cbn in Hr.
  assert (k = 0 \/ k = 1) as [-> | ->] by lia; injection Hx as <-.
  - exists 4, 4, 4. split; [|done].
    split; try lia; try (intros i Hi; cbn beta in *; destruct (Z.eqb_spec i 4); (done || lia)).
    exists 0. split; [lia|]. split; [lia|]. intros i Hi; destruct (Z.eqb_spec i 4); (done || lia).
  - exists 0, 3, 3. split; [|done].
    split; try lia; try done; try (intros i Hi; cbn beta in *; destruct (Z.eqb_spec i 4); (done || lia)).
    + exists 5. split; [lia|]. split; [lia|]. intros i Hi; destruct (Z.eqb_spec i 4); (done || lia).
    + intros i n Hi Hn Hrn. destruct (Z_lt_le_dec n 4); [lia|].
      specialize (Hrn 4 ltac:(lia)). done.
Defined.
