(* ===== verification/PallocBits.v ===== *)
(** Per-chunk page bitmaps: src/src/runtime/mheap/palloc_bits.rs.

    A [PageBits] is the array of eight u64 words of one 512-page chunk; bit 0 = free,
    1 = in use.  Indexing panics out of range, so every operation that indexes returns
    [option].  Loops over the words recurse on the words that remain; the inner
    bit-shrinking loops carry fuel that their measures bound (see [scan_loop] and
    [find_bit_range64]).  This file holds the definitions and the word-level theory of the
    range operations; PallocFind.v and PallocSummarize.v prove the searches. *)
From Stdlib Require Import ZArith Lia.
From stdpp Require Import base tactics numbers list list_numbers option.
From S2P Require Import Prelude Runs MheapConsts PallocSum.
Open Scope Z_scope.
Local Open Scope goish_scope.

(** ** PageBits *)

Definition mask_low_bits (n : Z) : Z :=
  if decide (n >= 64) then u64_max else shl64 1 n - 1.

Definition PAGE_BITS_WORDS : Z := PALLOC_CHUNK_PAGES / 64.

Abbreviation PageBits := (list Z) (only parsing).

Definition page_bits_zero : PageBits := replicate (Z.to_nat PAGE_BITS_WORDS) 0.

Definition get (b : PageBits) (i : Z) : option Z :=
  w ← idx b (i / 64); Some (Z.land (shr64 w (i mod 64)) 1).

Definition block64 (b : PageBits) (i : Z) : option Z := idx b (i / 64).

(** [self.0[k] = f(self.0[k])]. *)
Definition modify (b : PageBits) (k : Z) (f : Z -> Z) : option PageBits :=
  w ← idx b k; upd b k (f w).

Definition set (b : PageBits) (i : Z) : option PageBits :=
  modify b (i / 64) (fun w => Z.lor w (shl64 1 (i mod 64))).

Definition set_range (b : PageBits) (i n : Z) : option PageBits :=
  if decide (n = 1) then set b i
  else
    let j := (i +! n) -! 1 in
    let iw := i / 64 in
    let jw := j / 64 in
    if decide (iw = jw) then modify b iw (fun w => Z.lor w (shl64 (mask_low_bits n) (i mod 64)))
    else
      b ← modify b iw (fun w => Z.lor w (shl64 u64_max (i mod 64)));
      b ← for_range (iw + 1) jw (fun k b => upd b k u64_max) b;
      modify b jw (fun w => Z.lor w (mask_low_bits (j mod 64 + 1))).

Definition set_all (b : PageBits) : PageBits := map (fun _ => u64_max) b.

Definition set_block64 (b : PageBits) (i v : Z) : option PageBits :=
  modify b (i / 64) (fun w => Z.lor w v).

Definition clear (b : PageBits) (i : Z) : option PageBits :=
  modify b (i / 64) (fun w => Z.land w (not64 (shl64 1 (i mod 64)))).

Definition clear_range (b : PageBits) (i n : Z) : option PageBits :=
  if decide (n = 1) then clear b i
  else
    let j := (i +! n) -! 1 in
    let iw := i / 64 in
    let jw := j / 64 in
    if decide (iw = jw)
    then modify b iw (fun w => Z.land w (not64 (shl64 (mask_low_bits n) (i mod 64))))
    else
      b ← modify b iw (fun w => Z.land w (not64 (shl64 u64_max (i mod 64))));
      b ← for_range (iw + 1) jw (fun k b => upd b k 0) b;
      modify b jw (fun w => Z.land w (not64 (mask_low_bits (j mod 64 + 1)))).

Definition clear_all (b : PageBits) : PageBits := map (fun _ => 0) b.

Definition popcnt_range (b : PageBits) (i n : Z) : option Z :=
  if decide (n = 1) then w ← idx b (i / 64); Some (Z.land (shr64 w (i mod 64)) 1)
  else
    let j := (i +! n) -! 1 in
    let iw := i / 64 in
    let jw := j / 64 in
    if decide (iw = jw)
    then w ← idx b iw; Some (count_ones (Z.land (shr64 w (i mod 64)) (mask_low_bits n)))
    else
      w ← idx b iw;
      s ← for_range (iw + 1) jw (fun k s => w ← idx b k; Some (s + count_ones w))
            (count_ones (shr64 w (i mod 64)));
      w ← idx b jw;
      Some (s + count_ones (Z.land w (mask_low_bits (j mod 64 + 1)))).

(** ** PallocBits *)

Definition NO_INDEX : Z := u64_max.

Abbreviation PallocBits := (list Z) (only parsing).

Definition palloc_bits_zero : PallocBits := page_bits_zero.
Definition bits_alloc_range (b : PallocBits) (i n : Z) : option PallocBits := set_range b i n.
Definition bits_free (b : PallocBits) (i n : Z) : option PallocBits := clear_range b i n.
Definition pages64 (b : PallocBits) (i : Z) : option Z := block64 b i.
Definition alloc_pages64 (b : PallocBits) (i alloc : Z) : option PallocBits := set_block64 b i alloc.

(** [findBitRange64]: the [while p > 0] loop.  [p] shrinks by at least one per turn, so
    [fuel >= p] turns suffice; [None] is the early [return 64]. *)
Fixpoint fbr_loop (fuel : nat) (c p k : Z) : option Z :=
  match fuel with
  | O => Some c
  | S fuel =>
      if decide (p > 0) then
        if decide (p <= k) then Some (Z.land c (shr64 c (Z.land p 63)))
        else
          let c := Z.land c (shr64 c (Z.land k 63)) in
          if decide (c = 0) then None
          else fbr_loop fuel c (p - k) (k * 2)
      else Some c
  end.

Definition find_bit_range64 (c n : Z) : Z :=
  match fbr_loop (Z.to_nat n) c (n - 1) 1 with
  | None => 64
  | Some c => if decide (c = 0) then 64 else trailing_zeros c
  end.

(** [find1]: [ws] are the words from index [i] on. *)
Fixpoint find1_loop (ws : list Z) (i : Z) : Z :=
  match ws with
  | [] => NO_INDEX
  | x :: ws =>
      if decide (not64 x = 0) then find1_loop ws (i + 1)
      else i * 64 + trailing_zeros (not64 x)
  end.

Definition find1 (b : PallocBits) (search_idx : Z) : Z :=
  let i := search_idx / 64 in find1_loop (drop (Z.to_nat i) b) i.

Fixpoint find_small_n_loop (npages : Z) (ws : list Z) (i end_ new_search_idx : Z) : Z * Z :=
  match ws with
  | [] => (NO_INDEX, new_search_idx)
  | bi :: ws =>
      if decide (not64 bi = 0) then find_small_n_loop npages ws (i + 1) 0 new_search_idx
      else
        let new_search_idx :=
          if decide (new_search_idx = NO_INDEX) then i * 64 + trailing_zeros (not64 bi)
          else new_search_idx in
        let start := trailing_zeros bi in
        if decide (end_ + start >= npages) then (i * 64 -! end_, new_search_idx)
        else
          let j := find_bit_range64 (not64 bi) npages in
          if decide (j < 64) then (i * 64 + j, new_search_idx)
          else find_small_n_loop npages ws (i + 1) (leading_zeros bi) new_search_idx
  end.

Definition find_small_n (b : PallocBits) (npages search_idx : Z) : Z * Z :=
  let i := search_idx / 64 in find_small_n_loop npages (drop (Z.to_nat i) b) i 0 NO_INDEX.

Fixpoint find_large_n_loop (npages : Z) (ws : list Z) (i start size new_search_idx : Z) : Z * Z :=
  match ws with
  | [] => if decide (size < npages) then (NO_INDEX, new_search_idx) else (start, new_search_idx)
  | x :: ws =>
      if decide (x = u64_max) then find_large_n_loop npages ws (i + 1) start 0 new_search_idx
      else
        let new_search_idx :=
          if decide (new_search_idx = NO_INDEX) then i * 64 + trailing_zeros (not64 x)
          else new_search_idx in
        if decide (size = 0) then
          let size := leading_zeros x in
          find_large_n_loop npages ws (i + 1) (i * 64 + 64 - size) size new_search_idx
        else
          let s := trailing_zeros x in
          if decide (s + size >= npages) then (start, new_search_idx)
          else if decide (s < 64) then
            let size := leading_zeros x in
            find_large_n_loop npages ws (i + 1) (i * 64 + 64 - size) size new_search_idx
          else find_large_n_loop npages ws (i + 1) start (size + 64) new_search_idx
  end.

Definition find_large_n (b : PallocBits) (npages search_idx : Z) : Z * Z :=
  let i := search_idx / 64 in find_large_n_loop npages (drop (Z.to_nat i) b) i NO_INDEX 0 NO_INDEX.

Definition bits_find (b : PallocBits) (npages search_idx : Z) : Z * Z :=
  if decide (npages = 1) then let addr := find1 b search_idx in (addr, addr)
  else if decide (npages <= 64) then find_small_n b npages search_idx
  else find_large_n b npages search_idx.

(** [summarize], first pass: [(start, most, cur)] over the words. *)
Definition pass1_step (acc : Z * Z * Z) (x : Z) : Z * Z * Z :=
  let '(start, most, cur) := acc in
  if decide (x = 0) then (start, most, cur + 64)
  else
    let t := trailing_zeros x in
    let l := leading_zeros x in
    let cur := cur + t in
    let start := if decide (start = NO_INDEX) then cur else start in
    let most := if decide (cur > most) then cur else most in
    (start, most, l).

(** [x & x.wrapping_add(1) == 0]: no zero below the top one. *)
Definition no_gap (x : Z) : bool := bool_decide (Z.land x (x +! 1) = 0).

(** The inner [while p > 0]: [None] is [continue 'outer]. *)
Fixpoint shrink_loop (fuel : nat) (x p k : Z) : option (Z * Z) :=
  match fuel with
  | O => Some (x, k)
  | S fuel =>
      if decide (p > 0) then
        if decide (p <= k) then
          let x := Z.lor x (shr64 x (Z.land p 63)) in
          if no_gap x then None else Some (x, k)
        else
          let x := Z.lor x (shr64 x (Z.land k 63)) in
          if no_gap x then None else shrink_loop fuel x (p - k) (k * 2)
      else Some (x, k)
  end.

(** The [loop] around it: every turn shifts at least one bit out of [x]. *)
Fixpoint scan_loop (fuel : nat) (x most p k : Z) : Z :=
  match fuel with
  | O => most
  | S fuel =>
      match shrink_loop (Z.to_nat p) x p k with
      | None => most
      | Some (x, k) =>
          let j_ones := trailing_zeros (not64 x) in
          let x := shr64 x (Z.land j_ones 63) in
          let j_zeros := trailing_zeros x in
          let x := shr64 x (Z.land j_zeros 63) in
          let most := most + j_zeros in
          if no_gap x then most else scan_loop fuel x most j_zeros k
      end
  end.

(** Second pass, one word. *)
Definition pass2_step (most : Z) (x : Z) : Z :=
  let x := shr64 x (Z.land (trailing_zeros x) 63) in
  if no_gap x then most else scan_loop 64 x most most 1.

Definition summarize (b : PallocBits) : PallocSum :=
  let n_words := zlen b in
  let '(start, most, cur) := fold_left pass1_step b (NO_INDEX, 0, 0) in
  if decide (start = NO_INDEX) then
    let n := 64 * n_words in pack n n n
  else
    let most := if decide (cur > most) then cur else most in
    if decide (most >= 64 - 2) then pack start most cur
    else
      let most := fold_left pass2_step b most in
      pack start most cur.

(** ** Theory *)

Definition wf_bits (b : PageBits) : Prop := zlen b = 8 /\ Forall is_u64 b.

(** The bit of page [p]. *)
Definition bit (b : PageBits) (p : Z) : bool :=
  match idx b (p / 64) with Some w => Z.testbit w (p mod 64) | None => false end.

(** The page is free. *)
Definition free_page (b : PageBits) (p : Z) : bool := negb (bit b p).

Lemma wf_bits_zero : wf_bits page_bits_zero.
Proof. split; [done|]. apply Forall_replicate, zero_u64. Qed.

Lemma bit_zero p : bit page_bits_zero p = false.
Proof.
  unfold bit. destruct (idx page_bits_zero (p / 64)) as [w|] eqn:E; [|done].
  apply idx_Some in E as [_ E]. apply lookup_replicate in E as [-> _]. apply Z.testbit_0_l.
Qed.

Lemma wf_word b k : wf_bits b -> 0 <= k < 8 -> exists w, idx b k = Some w /\ is_u64 w.
Proof.
  intros [Hl Hf] Hk. destruct (idx_lt b k) as [w Hw]; [lia|]. exists w. split; [done|].
  apply idx_Some in Hw as [_ Hw]. by eapply Forall_lookup_1.
Qed.

Lemma wf_insert b k w : wf_bits b -> is_u64 w -> wf_bits (<[Z.to_nat k := w]> b).
Proof. intros [Hl Hf] Hw. split; [by rewrite zlen_insert|]. by apply Forall_insert. Qed.

Lemma bit_insert b k w p : wf_bits b -> 0 <= k < 8 -> 0 <= p ->
  bit (<[Z.to_nat k := w]> b) p = if decide (p / 64 = k) then Z.testbit w (p mod 64) else bit b p.
Proof.
  intros [Hl Hf] Hk Hp. unfold bit. rewrite idx_insert by (rewrite ?Hl; lia).
  repeat case_decide; subst; done || lia.
Qed.

(** [modify] in range: one word changes. *)
Lemma modify_ok b k f : wf_bits b -> 0 <= k < 8 -> (forall w, is_u64 w -> is_u64 (f w)) ->
  exists b', modify b k f = Some b' /\ wf_bits b' /\
    (forall p, 0 <= p -> p / 64 <> k -> bit b' p = bit b p) /\
    (forall p w, 0 <= p -> p / 64 = k -> idx b k = Some w -> bit b' p = Z.testbit (f w) (p mod 64)).
Proof.
  intros Hb Hk Hf. destruct (wf_word b k Hb Hk) as (w & Hw & Hu). unfold modify. rewrite Hw. cbn.
  rewrite upd_Some by (destruct Hb as [-> _]; lia). eexists. split; [done|].
  split; [by apply wf_insert, Hf|]. split.
  - intros p Hp Hne. rewrite bit_insert by done. by rewrite decide_False.
  - intros p w' Hp He Hw'. rewrite bit_insert by done. rewrite decide_True by done. congruence.
Qed.

Lemma bit_word b p w : idx b (p / 64) = Some w -> bit b p = Z.testbit w (p mod 64).
Proof. unfold bit. by intros ->. Qed.

Lemma testbit_mask_low n i : 0 <= n -> 0 <= i -> Z.testbit (mask_low_bits n) i = bool_decide (i < n /\ i < 64).
Proof.
  intros Hn Hi. unfold mask_low_bits. case_decide.
  - rewrite testbit_u64_max by lia. apply bool_decide_ext. lia.
  - pose proof (pow2_u64 n ltac:(lia)).
    rewrite shl64_small by lia. replace (1 * 2 ^ n - 1) with (Z.ones n) by (rewrite Z.ones_equiv; lia).
    case_bool_decide; [apply Z.ones_spec_low; lia|apply Z.ones_spec_high; lia].
Qed.

Lemma mask_low_u64 n : 0 <= n -> is_u64 (mask_low_bits n).
Proof.
  intros Hn. apply u64_of_bits.
  - unfold mask_low_bits. case_decide; [unfold u64_max; lia|].
    pose proof (pow2_u64 n ltac:(lia)). rewrite shl64_small by lia. lia.
  - intros i Hi. rewrite testbit_mask_low by lia. by rewrite bool_decide_false by lia.
Qed.
#[export] Hint Resolve mask_low_u64 wf_insert : goish.
#[export] Hint Extern 1 (0 <= _) => lia : goish.
#[export] Hint Extern 1 (0 <= not64 _) => apply not_u64 : goish.

Lemma testbit_1 i : Z.testbit 1 i = bool_decide (i = 0).
Proof.
  case_bool_decide; [by subst|]. destruct (decide (i < 0)); [by apply Z.testbit_neg_r|].
  apply Z.bits_above_log2; cbn; lia.
Qed.

(** Evaluate the bits of a word expression, then settle the index arithmetic. *)
Ltac word_bits :=
  repeat first
    [ rewrite Z.lor_spec | rewrite Z.land_spec
    | rewrite testbit_not64 by lia | rewrite testbit_shl64 by lia
    | rewrite testbit_shr64 by lia
    | rewrite testbit_mask_low by lia | rewrite testbit_u64_max by lia
    | rewrite testbit_1 | rewrite Z.testbit_0_l ].
Ltac bool_cases :=
  repeat case_bool_decide;
  rewrite ?andb_true_r, ?andb_false_r, ?orb_true_r, ?orb_false_r, ?xorb_true_r, ?xorb_false_r;
  try done; try lia.

Definition in_range (i n p : Z) : bool := bool_decide (i <= p < i + n).

Section ranges.
  Context (b : PageBits) (Hb : wf_bits b).

Lemma set_ok i : 0 <= i < 512 ->
    exists b', set b i = Some b' /\ wf_bits b' /\
      forall p, 0 <= p < 512 -> bit b' p = bit b p || in_range i 1 p.
  Proof.
    intros Hi. unfold set, in_range.
    edestruct (modify_ok b (i / 64) (fun w => Z.lor w (shl64 1 (i mod 64)))) as (b' & E & Hw & H1 & H2);
      [done|lia|auto with goish|]. exists b'. split; [done|]. split; [done|]. intros p Hp.
    destruct (decide (p / 64 = i / 64)) as [Hpi|Hpi].
    - destruct (wf_word b (i / 64) Hb ltac:(lia)) as (w & Ew & _).
      rewrite (H2 p w) by (lia || done). rewrite (bit_word b p w) by congruence.
      word_bits. f_equal. bool_cases.
    - rewrite H1 by lia. bool_cases.
  Qed.

Lemma clear_ok i : 0 <= i < 512 ->
    exists b', clear b i = Some b' /\ wf_bits b' /\
      forall p, 0 <= p < 512 -> bit b' p = bit b p && negb (in_range i 1 p).
  Proof.
    intros Hi. unfold clear, in_range.
    edestruct (modify_ok b (i / 64) (fun w => Z.land w (not64 (shl64 1 (i mod 64)))))
      as (b' & E & Hw & H1 & H2); [done|lia| |].
    { intros w Hw. apply land_u64_l; [done|]. apply not_u64, shl_u64. }
    exists b'. split; [done|]. split; [done|]. intros p Hp.
    destruct (decide (p / 64 = i / 64)) as [Hpi|Hpi].
    - destruct (wf_word b (i / 64) Hb ltac:(lia)) as (w & Ew & _).
      rewrite (H2 p w) by (lia || done). rewrite (bit_word b p w) by congruence.
      word_bits. f_equal. bool_cases.
    - rewrite H1 by lia. bool_cases.
  Qed.
End ranges.

(** [set_range] and [clear_range] are one loop, over a word operation [fill mask w] and the
    constant [const] it yields on a whole word. *)
Section range_op.
  Context (one : PageBits -> Z -> option PageBits) (fill : Z -> Z -> Z) (const : Z) (g : bool -> bool -> bool).
  Context (Hg : forall a, g a false = a).
  Context (fill_u64 : forall m w, is_u64 m -> is_u64 w -> is_u64 (fill m w)).
  Context (fill_bit : forall m w i, 0 <= i < 64 -> Z.testbit (fill m w) i = g (Z.testbit w i) (Z.testbit m i)).
  Context (const_u64 : is_u64 const) (const_bit : forall a i, 0 <= i < 64 -> Z.testbit const i = g a true).
  Context (one_ok : forall b i, wf_bits b -> 0 <= i < 512 -> exists b', one b i = Some b' /\ wf_bits b' /\
             forall p, 0 <= p < 512 -> bit b' p = g (bit b p) (in_range i 1 p)).

Definition range_op (b : PageBits) (i n : Z) : option PageBits :=
    if decide (n = 1) then one b i
    else
      let j := (i +! n) -! 1 in
      let iw := i / 64 in
      let jw := j / 64 in
      if decide (iw = jw) then modify b iw (fill (shl64 (mask_low_bits n) (i mod 64)))
      else
        b ← modify b iw (fill (shl64 u64_max (i mod 64)));
        b ← for_range (iw + 1) jw (fun k b => upd b k const) b;
        modify b jw (fill (mask_low_bits (j mod 64 + 1))).

  (** One masked word: the bits of [k]'s word that the mask selects change. *)
Lemma fill_word b k m : wf_bits b -> 0 <= k < 8 -> is_u64 m ->
    exists b', modify b k (fill m) = Some b' /\ wf_bits b' /\
      forall p, 0 <= p -> bit b' p = g (bit b p) (bool_decide (p / 64 = k) && Z.testbit m (p mod 64)).
  Proof.
    intros Hb Hk Hm. destruct (modify_ok b k (fill m) Hb Hk) as (b' & E & Hw & H1 & H2); [by auto|].
    exists b'. split; [done|]. split; [done|]. intros p Hp. case_bool_decide as Hpk; cbn [andb].
    - destruct (wf_word b k Hb Hk) as (w & Ew & _). rewrite (H2 p w) by (lia || done).
      rewrite (bit_word b p w) by congruence. apply fill_bit. lia.
    - by rewrite Hg, H1 by lia.
  Qed.

Lemma fill_interior b iw jw : wf_bits b -> 0 <= iw < jw -> jw < 8 ->
    exists b', for_range (iw + 1) jw (fun k b => upd b k const) b = Some b' /\ wf_bits b' /\
      forall p, 0 <= p -> bit b' p = g (bit b p) (bool_decide (iw < p / 64 < jw)).
  Proof.
    intros Hb Hi Hj.
    set (I := fun (k : Z) (b' : list Z) => wf_bits b' /\
      forall p, 0 <= p -> bit b' p = g (bit b p) (bool_decide (iw < p / 64 < k))).
    apply (for_range_inv I (iw + 1) jw); [lia| |].
    - split; [done|]. intros p Hp. by rewrite bool_decide_false, Hg by lia.
    - intros k b' Hk [Hb' Hp']. rewrite upd_Some by (destruct Hb' as [-> _]; lia).
      eexists. split; [done|]. split; [by apply wf_insert|]. intros p Hp.
      rewrite bit_insert by (done || lia). case_decide.
      + rewrite bool_decide_true by lia. apply const_bit. lia.
      + rewrite Hp' by lia. f_equal. apply bool_decide_ext. lia.
  Qed.

Lemma range_op_ok b i n : wf_bits b -> 0 <= i -> 1 <= n -> i + n <= 512 ->
    exists b', range_op b i n = Some b' /\ wf_bits b' /\
      forall p, 0 <= p < 512 -> bit b' p = g (bit b p) (in_range i n p).
  Proof.
    intros Hb Hi Hn Hin. unfold range_op. destruct (decide (n = 1)) as [->|Hn1]; [apply one_ok; [done|lia]|].
    rewrite add64_small, sub64_small by lia. cbn zeta. unfold in_range. case_decide as Hw.
    - destruct (fill_word b (i / 64) (shl64 (mask_low_bits n) (i mod 64))) as (b' & E & Hw' & Hp');
        [done|lia|apply shl_u64|]. exists b'. split; [done|]. split; [done|]. intros p Hp.
      rewrite Hp' by lia. f_equal. destruct (decide (i mod 64 <= p mod 64)); word_bits; bool_cases.
      rewrite Z.testbit_neg_r by lia. bool_cases.
    - destruct (fill_word b (i / 64) (shl64 u64_max (i mod 64))) as (b1 & E1 & Hw1 & Hp1);
        [done|lia|apply shl_u64|]. rewrite E1. cbn [mbind option_bind].
      destruct (fill_interior b1 (i / 64) ((i + n - 1) / 64)) as (b2 & E2 & Hw2 & Hp2); [done|lia|lia|].
      rewrite E2. cbn [mbind option_bind].
      destruct (fill_word b2 ((i + n - 1) / 64) (mask_low_bits ((i + n - 1) mod 64 + 1)))
        as (b3 & E3 & Hw3 & Hp3); [done|lia|apply mask_low_u64; lia|].
      exists b3. split; [done|]. split; [done|]. intros p Hp. rewrite Hp3, Hp2, Hp1 by lia.
      destruct (decide (i mod 64 <= p mod 64)).
      + word_bits. bool_cases; rewrite ?Hg; bool_cases.
      + rewrite (testbit_shl64 _ _ (p mod 64)), (Z.testbit_neg_r _ (p mod 64 - _)) by lia.
        word_bits. bool_cases; rewrite ?Hg; bool_cases.
  Qed.
End range_op.

Lemma set_range_ok b i n : wf_bits b -> 0 <= i -> 1 <= n -> i + n <= 512 ->
  exists b', set_range b i n = Some b' /\ wf_bits b' /\
    forall p, 0 <= p < 512 -> bit b' p = bit b p || in_range i n p.
Proof.
  apply (range_op_ok set (fun m w => Z.lor w m) u64_max orb).
  - apply orb_false_r.
  - auto with goish.
  - intros. apply Z.lor_spec.
  - apply u64_max_u64.
  - intros a k Hk. rewrite testbit_u64_max, bool_decide_true, orb_true_r by lia. done.
  - intros. by apply set_ok.
Qed.

Lemma clear_range_ok b i n : wf_bits b -> 0 <= i -> 1 <= n -> i + n <= 512 ->
  exists b', clear_range b i n = Some b' /\ wf_bits b' /\
    forall p, 0 <= p < 512 -> bit b' p = bit b p && negb (in_range i n p).
Proof.
  apply (range_op_ok clear (fun m w => Z.land w (not64 m)) 0 (fun a m => a && negb m)).
  - apply andb_true_r.
  - intros m w Hm Hw. apply land_u64_l; [done|]. by apply not_u64.
  - intros m w k Hk. rewrite Z.land_spec, testbit_not64, bool_decide_true by lia. by rewrite xorb_true_r.
  - apply zero_u64.
  - intros a k Hk. by rewrite Z.testbit_0_l, andb_false_r.
  - intros. by apply clear_ok.
Qed.

(** *** Counting *)

Lemma count_ones_shr w k : is_u64 w -> 0 <= k <= 64 -> count_ones (shr64 w k) = count (Z.testbit w) k (64 - k).
Proof.
  intros Hw Hk. rewrite (count_ones_count _ 64) by (lia || (apply shr_u64; [done|lia])).
  replace 64 with (64 - k + k) at 1 by lia. rewrite count_split by lia.
  rewrite (count_false _ (0 + (64 - k))), Z.add_0_r; [|lia|].
  - apply count_ext; [lia|]. intros i Hi. rewrite testbit_shr64 by lia. f_equal. lia.
  - intros i Hi. rewrite testbit_shr64 by lia. apply testbit_u64_high; [done|lia].
Qed.

Lemma count_ones_mask w n : is_u64 w -> 0 <= n <= 64 ->
  count_ones (Z.land w (mask_low_bits n)) = count (Z.testbit w) 0 n.
Proof.
  intros Hw Hn. pose proof (mask_low_u64 n ltac:(lia)) as [Hm _].
  rewrite (count_ones_count _ 64) by (lia || (by apply land_u64_l)).
  replace 64 with (n + (64 - n)) by lia. rewrite count_split by lia.
  rewrite (count_false _ (0 + n)), Z.add_0_r; [|lia|].
  - apply count_ext; [lia|]. intros i Hi. word_bits. bool_cases.
  - intros i Hi. word_bits. bool_cases.
Qed.

Lemma count_bits_word b k w i n : idx b k = Some w -> 0 <= k -> 0 <= i -> 0 <= n -> i + n <= 64 ->
  count (bit b) (k * 64 + i) n = count (Z.testbit w) i n.
Proof.
  intros Hw Hk Hi Hn Hin. apply count_ext; [done|]. intros j Hj. unfold bit.
  replace ((k * 64 + i + j) / 64) with k by lia. rewrite Hw. f_equal. lia.
Qed.

(** [popcntRange(i, n)] counts the pages in use of [i, i + n). *)
Lemma popcnt_range_ok b i n : wf_bits b -> 0 <= i -> 1 <= n -> i + n <= 512 ->
  popcnt_range b i n = Some (count (bit b) i n).
Proof.
  intros Hb Hi Hn Hin. unfold popcnt_range.
  destruct (wf_word b (i / 64) Hb ltac:(lia)) as (w & Ew & Hw).
  assert (i = i / 64 * 64 + i mod 64) as Ei by lia.
  case_decide as Hn1.
  { subst n. rewrite Ew. cbn. f_equal. rewrite count_cons, count_0, Z.add_0_r by lia.
    rewrite (bit_word b i w Ew). change 1 with (Z.ones 1). rewrite Z.land_ones by lia.
    unfold shr64. change (2 ^ 1) with 2. rewrite Z.testbit_odd.
    rewrite Zmod_odd. by destruct (Z.odd _). }
  rewrite add64_small, sub64_small by lia. cbn zeta. case_decide as Hij.
  - rewrite Ew. cbn. f_equal. rewrite count_ones_mask by (lia || (apply shr_u64; [done|lia])).
    rewrite Ei at 2. rewrite (count_bits_word b (i / 64) w) by (done || lia).
    apply count_ext; [lia|]. intros k Hk. rewrite testbit_shr64 by lia. f_equal. lia.
  - rewrite Ew. cbn [mbind option_bind]. rewrite count_ones_shr by (done || lia).
    rewrite <- (count_bits_word b (i / 64) w) by (done || lia). rewrite <- Ei.
    set (jw := (i + n - 1) / 64) in *.
    set (I := fun (k s : Z) => s = count (bit b) i (k * 64 - i)).
    destruct (for_range_inv I (i / 64 + 1) jw (fun k s => w ← idx b k; Some (s + count_ones w))
                (count (bit b) i (64 - i mod 64))) as (s & -> & Hs).
    + lia.
    + unfold I. f_equal. lia.
    + unfold I. intros k s Hk ->. destruct (wf_word b k Hb ltac:(lia)) as (wk & Ek & Hwk).
      rewrite Ek. cbn. eexists. split; [done|]. rewrite (count_ones_count _ 64) by (lia || done).
      rewrite <- (count_bits_word b k wk) by (done || lia).
      replace ((k + 1) * 64 - i) with (k * 64 - i + 64) by lia. rewrite count_split by lia.
      f_equal. f_equal. lia.
    + cbn [mbind option_bind]. destruct (wf_word b jw Hb ltac:(lia)) as (wj & Ej & Hwj). rewrite Ej. cbn.
      f_equal. rewrite Hs, count_ones_mask by (done || lia).
      rewrite <- (count_bits_word b jw wj) by (done || lia).
      replace n with (jw * 64 - i + ((i + n - 1) mod 64 + 1)) at 2 by lia.
      rewrite (count_split _ i) by lia. f_equal. f_equal. lia.
Qed.

(** ** Theorems *)

(** [set_range] and then [clear_range] on any range of one to 512 pages never panic, act on
    exactly the pages of the range (also when the range straddles words, covers whole words
    or ends on a word boundary), and [popcnt_range] counts what they set. *)
Theorem bitmap_ranges b i n : wf_bits b -> 0 <= i -> 1 <= n -> i + n <= 512 ->
  exists b1 b2, set_range b i n = Some b1 /\ clear_range b1 i n = Some b2 /\ wf_bits b1 /\ wf_bits b2 /\
    (forall p, 0 <= p < 512 -> bit b1 p = bit b p || in_range i n p) /\
    (forall p, 0 <= p < 512 -> bit b2 p = bit b p && negb (in_range i n p)) /\
    popcnt_range b1 i n = Some n /\ popcnt_range b2 i n = Some 0.
Proof.
  intros Hb Hi Hn Hin. destruct (set_range_ok b i n Hb Hi Hn Hin) as (b1 & E1 & Hb1 & H1).
  destruct (clear_range_ok b1 i n Hb1 Hi Hn Hin) as (b2 & E2 & Hb2 & H2).
  assert (forall p, 0 <= p < 512 -> bit b2 p = bit b p && negb (in_range i n p)) as H2'.
  { intros p Hp. rewrite H2, H1 by done. by destruct (bit b p), (in_range i n p). }
  exists b1, b2. do 6 (split; [done|]). split; rewrite popcnt_range_ok by done; f_equal.
  - pose proof (count_negb (bit b1) i n ltac:(lia)) as E. rewrite count_false in E; [lia|lia|].
    intros k Hk. rewrite H1 by lia. unfold in_range. rewrite bool_decide_true by lia. by rewrite orb_true_r.
  - apply count_false; [lia|]. intros k Hk. rewrite H2' by lia. unfold in_range.
    rewrite bool_decide_true by lia. apply andb_false_r.
Qed.

Lemma bitmap_ranges_witness :
  exists b1 b2, set_range page_bits_zero 60 200 = Some b1 /\ clear_range b1 60 200 = Some b2 /\
    wf_bits b1 /\ wf_bits b2 /\
    (forall p, 0 <= p < 512 -> bit b1 p = bit page_bits_zero p || in_range 60 200 p) /\
    (forall p, 0 <= p < 512 -> bit b2 p = bit page_bits_zero p && negb (in_range 60 200 p)) /\
    popcnt_range b1 60 200 = Some 200 /\ popcnt_range b2 60 200 = Some 0.
Proof. apply (bitmap_ranges page_bits_zero 60 200); [apply wf_bits_zero|lia..]. Defined.
