(* ===== verification/PallocFind.v ===== *)
(** Searching a chunk's bitmap: the correctness of the [find] family of
    src/src/runtime/mheap/palloc_bits.rs.

    [find_bit_range64] locates the first run of ones in a word by log-step shifting;
    [find1], [find_small_n] and [find_large_n] locate the first run of free pages of a
    chunk.  All three return the first-fit position or the no-index sentinel exactly when no
    run of the requested length exists. *)
From Stdlib Require Import ZArith Lia.
From stdpp Require Import base tactics numbers list list_numbers option.
From S2P Require Import Prelude Runs MheapConsts PallocSum PallocBits.
Open Scope Z_scope.

(** ** Log-step shifting *)

(** [ands c0 c d]: bit [i] of [c] says that [d] ones start at bit [i] of [c0]. *)
Definition ands (c0 c d : Z) : Prop :=
  0 <= c /\ forall i, 0 <= i -> (Z.testbit c i = true <-> run (Z.testbit c0) i d).

Lemma ands_step c0 c d q : ands c0 c d -> 0 <= q <= d ->
  ands c0 (Z.land c (shr64 c q)) (d + q).
Proof.
  intros [H0 H] Hq. split; [apply Z.land_nonneg; lia|]. intros i Hi.
  rewrite Z.land_spec, testbit_shr64, andb_true_iff, !H by lia. split.
  - intros [R1 R2] k Hk. destruct (decide (k < i + d)); [apply R1|apply R2]; lia.
  - intros R. split; eapply run_sub; try exact R; lia.
Qed.

Lemma land_63 p : 0 <= p < 64 -> Z.land p 63 = p.
Proof. intros. change 63 with (Z.ones 6). rewrite Z.land_ones by lia. apply Z.mod_small. lia. Qed.

Lemma fbr_loop_ok c0 n : forall fuel c p k,
  p < Z.of_nat fuel -> 0 <= p < 64 -> 1 <= k <= n - p -> ands c0 c (n - p) ->
  match fbr_loop fuel c p k with
  | Some c' => ands c0 c' n
  | None => forall i, 0 <= i -> ~ run (Z.testbit c0) i n
  end.
Proof.
  induction fuel as [|fuel IH]; intros c p k Hf Hp Hk HA; [lia|]. cbn [fbr_loop].
  case_decide as Hp0; [|by replace (n - p) with n in HA by lia].
  case_decide as Hpk.
  - rewrite land_63 by lia. replace n with (n - p + p) by lia. apply ands_step; [done|lia].
  - rewrite land_63 by lia. pose proof (ands_step _ _ _ k HA ltac:(lia)) as HA'.
    case_decide as Hc.
    + intros i Hi R. destruct HA' as [_ HA']. specialize (HA' i Hi). rewrite Hc, Z.testbit_0_l in HA'.
      destruct HA' as [_ HA']. discriminate HA'. eapply run_sub; [exact R|lia|lia].
    + apply IH; [lia|lia|lia|]. by replace (n - (p - k)) with (n - p + k) by lia.
Qed.

(** [findBitRange64(c, n)]: the first run of [n] ones, or 64. *)
Lemma find_bit_range64_ok c n : is_u64 c -> 1 <= n <= 64 ->
  (find_bit_range64 c n = 64 /\ no_run (Z.testbit c) 0 64 n) \/
  (0 <= find_bit_range64 c n /\ find_bit_range64 c n + n <= 64 /\
   first_run (Z.testbit c) 0 64 n (find_bit_range64 c n)).
Proof.
  intros Hc Hn. unfold find_bit_range64.
  pose proof (fbr_loop_ok c n (Z.to_nat n) c (n - 1) 1 ltac:(lia) ltac:(lia) ltac:(lia)) as H.
  replace (n - (n - 1)) with 1 in H by lia.
  assert (ands c c 1) as H1.
  { split; [apply Hc|]. intros i Hi. split; [intros E k Hk; by replace k with i by lia|intros R; apply R; lia]. }
  specialize (H H1). destruct (fbr_loop _ _ _ _) as [c'|].
  - destruct H as [H0 H]. case_decide as Hc'.
    + left. split; [done|]. intros q Hq1 Hq2 R. apply H in R; [|lia]. by rewrite Hc', Z.testbit_0_l in R.
    + right. destruct (trailing_zeros_spec c' ltac:(lia)) as (Hr & Ht & Hl).
      set (j := trailing_zeros c') in *. apply H in Ht; [|lia].
      assert (j + n <= 64).
      { specialize (Ht (j + n - 1) ltac:(lia)). destruct (decide (j + n <= 64)); [done|].
        rewrite testbit_u64_high in Ht by (done || lia). done. }
      split; [lia|]. split; [done|]. split_and!; [lia|lia|done|].
      intros q Hq1 Hq2 R. apply H in R; [|lia]. destruct (decide (j <= q)); [done|].
      rewrite Hl in R by lia. done.
  - left. split; [done|]. intros q Hq1 Hq2 R. exact (H q Hq1 R).
Qed.

(** ** Words as blocks of 64 pages *)

Section search.
  Context (b : PallocBits) (Hb : wf_bits b).
  Abbreviation f := (free_page b).

Lemma free_word i w k : idx b i = Some w -> 0 <= i -> 0 <= k < 64 -> f (i * 64 + k) = negb (Z.testbit w k).
  Proof.
    intros Hw Hi Hk. unfold free_page, bit. replace ((i * 64 + k) / 64) with i by lia.
    rewrite Hw. do 2 f_equal. lia.
  Qed.

Lemma free_word' i w p : idx b i = Some w -> 0 <= i -> i * 64 <= p < i * 64 + 64 ->
    f p = negb (Z.testbit w (p - i * 64)).
  Proof. intros. rewrite <- (free_word i) by (done || lia). f_equal. lia. Qed.

  (** Trailing zeros are the free run that starts the word's block, leading zeros the one that ends it. *)
Lemma word_head i w : idx b i = Some w -> is_u64 w -> 0 <= i ->
    head_run f (i * 64) (i * 64 + 64) (trailing_zeros w).
  Proof.
    intros Hw Hu Hi. destruct (trailing_zeros_u64 w Hu) as (Hr & Hz & Ho & _). split; [lia|]. split.
    - intros k Hk. rewrite (free_word' i w) by (done || lia). by rewrite Hz by lia.
    - intros. rewrite (free_word i w) by (done || lia). by rewrite Ho by lia.
  Qed.

Lemma word_tail i w : idx b i = Some w -> is_u64 w -> 0 <= i ->
    tail_run f (i * 64) (i * 64 + 64) (leading_zeros w).
  Proof.
    intros Hw Hu Hi. destruct (leading_zeros_u64 w Hu) as (Hr & Hz & Ho & _). split; [lia|]. split.
    - intros k Hk. rewrite (free_word' i w) by (done || lia). by rewrite Hz by lia.
    - intros. rewrite (free_word' i w) by (done || lia).
      replace (i * 64 + 64 - leading_zeros w - 1 - i * 64) with (63 - leading_zeros w) by lia.
      by rewrite Ho by lia.
  Qed.

  (** Runs of ones of the complement are runs of free pages of the block. *)
Lemma word_runs i w q n : idx b i = Some w -> is_u64 w -> 0 <= i -> 0 <= q -> q + n <= 64 ->
    run (Z.testbit (not64 w)) q n <-> run f (i * 64 + q) n.
  Proof.
    intros Hw Hu Hi Hq Hn. split; intros R k Hk.
    - rewrite (free_word' i w) by (done || lia). specialize (R (k - i * 64) ltac:(lia)).
      rewrite testbit_not64, bool_decide_true, xorb_true_r in R by lia. done.
    - specialize (R (i * 64 + k) ltac:(lia)). rewrite (free_word i w) in R by (done || lia).
      by rewrite testbit_not64, bool_decide_true, xorb_true_r by lia.
  Qed.

  (** The lowest zero of a word that is not all ones is the block's first free page. *)
Lemma word_first i w : idx b i = Some w -> is_u64 w -> 0 <= i -> not64 w <> 0 ->
    0 <= trailing_zeros (not64 w) < 64 /\
    first_run f (i * 64) (i * 64 + 64) 1 (i * 64 + trailing_zeros (not64 w)).
  Proof.
    intros Hw Hu Hi Hne. destruct (trailing_zeros_u64 (not64 w) (not_u64 _ Hu)) as (Hr & Hz & Ho & He).
    assert (trailing_zeros (not64 w) < 64) as Hlt.
    { destruct (decide (trailing_zeros (not64 w) = 64)); [naive_solver|lia]. }
    split; [lia|]. split_and!; [lia|lia| |].
    - apply (word_runs i w); [done|done|done|lia|lia|]. intros k Hk.
      replace k with (trailing_zeros (not64 w)) by lia. by apply Ho.
    - intros q Hq1 Hq2 R. destruct (decide (i * 64 + trailing_zeros (not64 w) <= q)); [done|].
      replace q with (i * 64 + (q - i * 64)) in R by lia.
      apply (word_runs i w) in R; [|done|done|done|lia|lia]. specialize (R (q - i * 64) ltac:(lia)).
      by rewrite Hz in R by lia.
  Qed.

  (** A word of ones is a block in use. *)
Lemma word_full i w : idx b i = Some w -> is_u64 w -> 0 <= i -> not64 w = 0 ->
    forall p, i * 64 <= p < i * 64 + 64 -> f p = false.
  Proof.
    intros Hw Hu Hi Hz p Hp. rewrite (free_word' i w) by (done || lia).
    assert (Z.testbit (not64 w) (p - i * 64) = false) as E by (rewrite Hz; apply Z.testbit_0_l).
    rewrite testbit_not64, bool_decide_true, xorb_true_r in E by lia. done.
  Qed.

  (** The loops recurse on the words from [i] on. *)
Lemma drop_words i : 0 <= i <= 8 ->
    match drop (Z.to_nat i) b with
    | [] => i = 8
    | w :: ws => i < 8 /\ idx b i = Some w /\ is_u64 w /\ ws = drop (Z.to_nat (i + 1)) b
    end.
  Proof.
    intros Hi. destruct Hb as [Hl Hf]. destruct (drop (Z.to_nat i) b) as [|w ws] eqn:E.
    - apply (f_equal length) in E. rewrite length_drop in E. unfold zlen in Hl. cbn in E. lia.
    - assert (b !! Z.to_nat i = Some w) as Hw.
      { rewrite <- (Nat.add_0_r (Z.to_nat i)), <- lookup_drop, E. done. }
      pose proof (lookup_lt_Some _ _ _ Hw). unfold zlen in Hl. split; [lia|].
      split; [apply idx_Some; split; [lia|done]|]. split; [by eapply Forall_lookup_1|].
      replace (Z.to_nat (i + 1)) with (S (Z.to_nat i)) by lia.
      rewrite (drop_S b w (Z.to_nat i) Hw) in E. by injection E.
  Qed.

  (** What a search from block [lo] on may return. *)
Definition search_ok (lo n r : Z) : Prop :=
    (r = NO_INDEX /\ no_run f lo 512 n) \/ (0 <= r < 512 /\ first_run f lo 512 n r).

Lemma search_ok_found lo n p : 0 <= lo -> 1 <= n -> first_run f lo 512 n p -> search_ok lo n p.
  Proof. intros Hlo Hn H. right. split; [|done]. destruct H as (? & ? & _). lia. Qed.

Lemma find1_loop_ok lo : 0 <= lo -> forall ws i, 0 <= i <= 8 -> lo <= i * 64 ->
    ws = drop (Z.to_nat i) b -> no_run f lo (i * 64) 1 -> search_ok lo 1 (find1_loop ws i).
  Proof.
    intros Hlo. induction ws as [|w ws IH]; intros i Hi Hil Hws Hno; cbn [find1_loop];
      pose proof (drop_words i Hi) as Hd; rewrite <- Hws in Hd.
    - left. split; [done|]. subst i. done.
    - destruct Hd as (Hi8 & Hw & Hu & Hws'). case_decide as Hz.
      + apply IH; [lia|lia|done|]. eapply no_run_used; [done|lia|lia|].
        intros p Hp. apply (word_full i w); (done || lia).
      + destruct (word_first i w Hw Hu ltac:(lia) Hz) as [Hr Hf].
        apply search_ok_found; [done|lia|]. eapply first1_extend; [done|lia| |exact Hf]. lia.
  Qed.

  (** [nsi_ok]: the new search index is the first free page seen so far. *)
Definition nsi_ok (lo i nsi : Z) : Prop :=
    (nsi = NO_INDEX /\ no_run f lo (i * 64) 1) \/ (0 <= nsi < 512 /\ first_run f lo 512 1 nsi).

Lemma nsi_used lo i nsi w : nsi_ok lo i nsi -> lo <= i * 64 -> 0 <= i -> idx b i = Some w -> is_u64 w ->
    not64 w = 0 -> nsi_ok lo (i + 1) nsi.
  Proof.
    intros [[-> H]|H] ? ? Hw Hu Hz; [left|by right]. split; [done|].
    eapply no_run_used; [exact H|lia|lia|]. intros p Hp. apply (word_full i w); (done || lia).
  Qed.

Lemma nsi_step lo i nsi w : nsi_ok lo i nsi -> 0 <= lo <= i * 64 -> 0 <= i < 8 -> idx b i = Some w -> is_u64 w ->
    not64 w <> 0 ->
    search_ok lo 1 (if decide (nsi = NO_INDEX) then i * 64 + trailing_zeros (not64 w) else nsi).
  Proof.
    intros H ? ? Hw Hu Hz. case_decide as E.
    - destruct H as [[_ H]|[H _]]; [|rewrite E in H; unfold NO_INDEX, u64_max in H; lia].
      destruct (word_first i w Hw Hu ltac:(lia) Hz) as [Hr Hf].
      apply search_ok_found; [lia|lia|]. eapply first1_extend; [exact H|lia| |exact Hf]. lia.
    - destruct H as [[-> _]|H]; [done|by right].
  Qed.

Lemma search_nsi lo i r : 0 <= i < 8 -> search_ok lo 1 r -> nsi_ok lo (i + 1) r.
  Proof.
    intros Hi [[-> H]|H]; [left|by right]. split; [done|]. intros q ? ? R. apply (H q); [lia|lia|done].
  Qed.

Lemma nsi_final lo nsi : nsi_ok lo 8 nsi -> search_ok lo 1 nsi.
  Proof. done. Qed.

Lemma find_small_n_loop_ok lo n : 0 <= lo -> 1 <= n <= 64 -> forall ws i end_ nsi,
    0 <= i <= 8 -> lo <= i * 64 -> ws = drop (Z.to_nat i) b ->
    tail_run f lo (i * 64) end_ -> no_run f lo (i * 64) n -> nsi_ok lo i nsi ->
    search_ok lo n (find_small_n_loop n ws i end_ nsi).1 /\
    search_ok lo 1 (find_small_n_loop n ws i end_ nsi).2.
  Proof.
    intros Hlo Hn. induction ws as [|w ws IH]; intros i end_ nsi Hi Hil Hws Ht Hno Hs; cbn [find_small_n_loop];
      pose proof (drop_words i Hi) as Hd; rewrite <- Hws in Hd.
    { subst i. split; [by left|by apply nsi_final]. }
    destruct Hd as (Hi8 & Hw & Hu & Hws'). case_decide as Hz.
    { apply IH; [lia|lia|done| | |eapply nsi_used; (done || lia)].
      - apply (tail_run_zero _ _ (i * 64)); [lia|lia|]. apply (word_full i w); (done || lia).
      - eapply no_run_used; [done|lia|lia|]. intros p Hp. apply (word_full i w); (done || lia). }
    pose proof (nsi_step lo i nsi w Hs ltac:(lia) ltac:(lia) Hw Hu Hz) as Hs'.
    revert Hs'. generalize (if decide (nsi = NO_INDEX) then i * 64 + trailing_zeros (not64 w) else nsi).
    intros nsi' Hs'. pose proof (word_head i w Hw Hu ltac:(lia)) as Hh. cbn zeta.
    case_decide as Hge.
    { cbn [fst snd]. split; [|done].
      rewrite sub64_small by (destruct Ht; lia). apply search_ok_found; [done|lia|].
      apply first_from_tail; [done|done|lia| |].
      - eapply run_sub; [apply Hh|lia|lia].
      - destruct Ht, Hh. pose proof (no_run_lt _ _ _ _ _ (conj H H0) Hno). lia. }
    destruct (find_bit_range64_ok (not64 w) n (not_u64 _ Hu) Hn) as [[E Hnr]|(Hj0 & Hj1 & Hfr)].
    - rewrite E, decide_False by lia.
      assert (no_run f (i * 64) (i * 64 + 64) n) as Hnb.
      { intros q Hq1 Hq2 R. apply (Hnr (q - i * 64)); [lia|lia|].
        apply (word_runs i w); [done|done|lia|lia|lia|]. by replace (i * 64 + (q - i * 64)) with q by lia. }
      assert (no_run f lo ((i + 1) * 64) n) as Hno'.
      { replace ((i + 1) * 64) with (i * 64 + 64) by lia. eapply no_run_extend; try done. lia. }
      apply IH; [lia|lia|done| |done|by apply search_nsi; [lia|]].
      replace ((i + 1) * 64) with (i * 64 + 64) by lia.
      pose proof (word_tail i w Hw Hu ltac:(lia)) as Hwt.
      apply (tail_run_reset _ _ (i * 64)); [done| |lia].
      pose proof (no_run_lt _ _ _ _ _ Hwt Hnb). lia.
    - rewrite decide_True by lia. cbn [fst snd]. split; [|done]. apply search_ok_found; [done|lia|].
      eapply (first_in_block f lo (i * 64) (i * 64 + 64)); try done; [lia|lia|].
      destruct Hfr as (? & ? & R & Hmin). split_and!; [lia|lia| |].
      + apply (word_runs i w); (done || lia).
      + intros q Hq1 Hq2 Rq. replace q with (i * 64 + (q - i * 64)) in Rq by lia.
        apply (word_runs i w) in Rq; [|done|done|lia|lia|lia].
        specialize (Hmin (q - i * 64) ltac:(lia) ltac:(lia) Rq). lia.
  Qed.

Lemma find_large_n_loop_ok lo n : 0 <= lo -> 64 < n -> forall ws i start size nsi,
    0 <= i <= 8 -> lo <= i * 64 -> ws = drop (Z.to_nat i) b ->
    tail_run f lo (i * 64) size -> (0 < size -> start = i * 64 - size) ->
    no_run f lo (i * 64) n -> nsi_ok lo i nsi ->
    search_ok lo n (find_large_n_loop n ws i start size nsi).1 /\
    search_ok lo 1 (find_large_n_loop n ws i start size nsi).2.
  Proof.
    intros Hlo Hn. induction ws as [|w ws IH]; intros i start size nsi Hi Hil Hws Ht Hst Hno Hs;
      cbn [find_large_n_loop]; pose proof (drop_words i Hi) as Hd; rewrite <- Hws in Hd.
    { subst i. pose proof (no_run_lt _ _ _ _ _ Ht Hno). rewrite decide_True by lia.
      split; [by left|by apply nsi_final]. }
    destruct Hd as (Hi8 & Hw & Hu & Hws').
    assert (w = u64_max <-> not64 w = 0) as Hmax.
    { unfold not64. split; [intros ->; done|apply Z.lxor_eq]. }
    case_decide as Hz.
    { apply Hmax in Hz. apply IH; [lia|lia|done| |lia| |eapply nsi_used; (done || lia)].
      - apply (tail_run_zero _ _ (i * 64)); [lia|lia|]. apply (word_full i w); (done || lia).
      - eapply no_run_used; [done|lia|lia|]. intros p Hp. apply (word_full i w); (done || lia). }
    assert (not64 w <> 0) as Hz' by (intros E; apply Hz, Hmax, E).
    pose proof (nsi_step lo i nsi w Hs ltac:(lia) ltac:(lia) Hw Hu Hz') as Hs'.
    revert Hs'. generalize (if decide (nsi = NO_INDEX) then i * 64 + trailing_zeros (not64 w) else nsi).
    intros nsi' Hs'. pose proof (word_head i w Hw Hu ltac:(lia)) as Hh.
    pose proof (word_tail i w Hw Hu ltac:(lia)) as Hwt. cbn zeta.
    assert (no_run f (i * 64) (i * 64 + 64) n) as Hnb by (intros q ? ? _; lia).
    assert (size + trailing_zeros w < n -> no_run f lo ((i + 1) * 64) n) as Hno'.
    { intros. replace ((i + 1) * 64) with (i * 64 + 64) by lia. eapply no_run_extend; done. }
    assert (nsi_ok lo (i + 1) nsi') as Hs2 by (apply search_nsi; [lia|done]).
    destruct (leading_zeros_u64 w Hu) as (Hlr & _ & _ & Hl64).
    destruct (trailing_zeros_u64 w Hu) as (Htr & _ & _ & Ht64).
    assert (0 < size -> leading_zeros w < 64 -> tail_run f lo ((i + 1) * 64) (leading_zeros w)) as Hreset.
    { intros _ ?. replace ((i + 1) * 64) with (i * 64 + 64) by lia.
      apply (tail_run_reset _ _ (i * 64)); [done|lia|lia]. }
    case_decide as Hs0.
    { subst size. apply IH; [lia|lia|done| |lia|apply Hno'; lia|done].
      destruct (decide (leading_zeros w < 64)); [|];
        replace ((i + 1) * 64) with (i * 64 + 64) by lia.
      - apply (tail_run_reset _ _ (i * 64)); [done|lia|lia].
      - replace (leading_zeros w) with (0 + (i * 64 + 64 - i * 64)) by lia.
        apply tail_run_grow; [done|lia|]. eapply run_sub; [apply Hwt|lia|lia]. }
    assert (0 < size) as Hpos by (destruct Ht; lia). specialize (Hst Hpos).
    case_decide as Hge.
    { cbn [fst snd]. split; [|done]. apply search_ok_found; [done|lia|]. rewrite Hst.
      apply first_from_tail; [done|done|lia| |].
      - eapply run_sub; [apply Hh|lia|lia].
      - lia. }
    case_decide as Hs64.
    - apply IH; [lia|lia|done| |lia|apply Hno'; lia|done]. apply Hreset; [done|].
      destruct (decide (leading_zeros w = 64)); [|lia]. naive_solver lia.
    - apply IH; [lia|lia|done| |lia|apply Hno'; lia|done].
      replace ((i + 1) * 64) with (i * 64 + 64) by lia.
      replace (size + 64) with (size + (i * 64 + 64 - i * 64)) by lia.
      apply tail_run_grow; [done|lia|]. eapply run_sub; [apply Hh|lia|lia].
  Qed.

  (** [find(npages, search_idx)] is first fit from the search index's block on, and its second
      result is the first free page from there on. *)
Lemma bits_find_ok n si : 1 <= n -> 0 <= si < 512 ->
    search_ok (si / 64 * 64) n (bits_find b n si).1 /\ search_ok (si / 64 * 64) 1 (bits_find b n si).2.
  Proof.
    intros Hn Hsi. unfold bits_find.
    assert (no_run f (si / 64 * 64) (si / 64 * 64) 1) as H1 by (apply no_run_empty; lia).
    case_decide as Hn1; [|case_decide as Hn64].
    - subst n. cbn [fst snd]. assert (search_ok (si / 64 * 64) 1 (find1 b si)) by
        (apply find1_loop_ok; (done || lia)). done.
    - apply find_small_n_loop_ok; try (done || lia).
      + apply tail_run_start.
      + apply no_run_empty. lia.
      + by left.
    - apply find_large_n_loop_ok; try (done || lia).
      + apply tail_run_start.
      + apply no_run_empty. lia.
      + by left.
  Qed.
End search.

(** ** Theorems *)

(** The doubling-shift search [find_bit_range64] returns the lowest position of [n] consecutive
    set bits of a 64-bit word, and 64 exactly when there is none. *)
Theorem find_bit_range64_first c n : is_u64 c -> 1 <= n <= 64 ->
  (find_bit_range64 c n = 64 /\ no_run (Z.testbit c) 0 64 n) \/
  first_run (Z.testbit c) 0 64 n (find_bit_range64 c n).
Proof. intros Hc Hn. destruct (find_bit_range64_ok c n Hc Hn) as [H|(_ & _ & H)]; [by left|by right]. Qed.

Lemma find_bit_range64_first_witness :
  (find_bit_range64 234 3 = 64 /\ no_run (Z.testbit 234) 0 64 3) \/
  first_run (Z.testbit 234) 0 64 3 (find_bit_range64 234 3).
Proof. apply (find_bit_range64_first 234 3); [unfold is_u64; lia|lia]. Defined.

(** [PallocBits::find] returns the lowest run of [n] free pages at or above the word of the
    search index, runs that cross words included, or [NO_INDEX] exactly when the chunk has
    none; its second result is the first free page, the next search index. *)
Theorem bits_find_first_fit b n si : wf_bits b -> 1 <= n -> 0 <= si < 512 ->
  let '(j, next) := bits_find b n si in
  search_ok b (si / 64 * 64) n j /\ search_ok b (si / 64 * 64) 1 next.
Proof. intros Hb Hn Hsi. destruct (bits_find b n si) eqn:E. pose proof (bits_find_ok b Hb n si Hn Hsi) as H. by rewrite E in H. Qed.

Lemma bits_find_first_fit_witness :
  let '(j, next) := bits_find page_bits_zero 70 3 in
  search_ok page_bits_zero 0 70 j /\ search_ok page_bits_zero 0 1 next.
Proof. apply (bits_find_first_fit page_bits_zero 70 3); [apply wf_bits_zero|lia|lia]. Defined.
