(* ===== verification/PallocSummarize.v ===== *)
(** Summarizing a chunk: the correctness of [PallocBits::summarize] of
    src/src/runtime/mheap/palloc_bits.rs.

    The first pass accounts for every free run that touches a word boundary; the second
    finds longer runs strictly inside a word by widening the word's ones, [most] places at
    a time, until only longer gaps survive.  [summarize_ok] shows that the packed result is
    the summary of the chunk's 512 pages. *)
From Stdlib Require Import ZArith Lia.
From stdpp Require Import base tactics numbers list list_numbers option.
From S2P Require Import Prelude Runs MheapConsts PallocSum PallocBits PallocFind.
Open Scope Z_scope.

(** ** Gaps of a word *)

(** [n] zeros of [y] start at bit [i]. *)
Abbreviation zrun y := (run (fun k => negb (Z.testbit y k))).

(** No [n] zeros of [y] have a one above them. *)
Definition gapless (y n : Z) : Prop :=
  forall i, 0 <= i -> zrun y i n -> forall j, i <= j -> Z.testbit y j = false.

Lemma gapless_mono y n m : gapless y n -> n <= m -> gapless y m.
Proof. intros H Hnm i Hi R. apply H; [done|]. eapply run_sub; [exact R|lia|lia]. Qed.

(** [ors y x d]: bit [i] of [x] is clear exactly when [d] zeros start at bit [i] of [y]. *)
Definition ors (y x d : Z) : Prop :=
  is_u64 x /\ forall i, 0 <= i -> (Z.testbit x i = false <-> zrun y i d).

Lemma ors_step y x d q : ors y x d -> 0 <= q <= d -> ors y (Z.lor x (shr64 x q)) (d + q).
Proof.
  intros [H0 H] Hq. split; [apply lor_u64; [done|by apply shr_u64; [|lia]]|]. intros i Hi.
  rewrite Z.lor_spec, testbit_shr64, orb_false_iff, !H by lia. split.
  - intros [R1 R2] k Hk. destruct (decide (k < i + d)); [apply R1|apply R2]; lia.
  - intros R. split; eapply run_sub; try exact R; lia.
Qed.

Lemma ors_shift y x d k : ors y x d -> 0 <= k -> ors (shr64 y k) (shr64 x k) d.
Proof.
  intros [H0 H] Hk. split; [by apply shr_u64|]. intros i Hi. rewrite testbit_shr64, H by lia. split.
  - intros R j Hj. rewrite testbit_shr64 by lia. apply R. lia.
  - intros R j Hj. specialize (R (j - k) ltac:(lia)). cbn in R. rewrite testbit_shr64 in R by lia.
    by replace (j - k + k) with j in R by lia.
Qed.

(** Adding one to a word whose lowest clear bit is [k] changes no bit above [k]. *)
Lemma succ_bits x k : is_u64 x -> 0 <= k < 64 -> Z.testbit x k = false ->
  (forall i, 0 <= i < k -> Z.testbit x i = true) ->
  x + 1 < 2 ^ 64 /\ (forall i, k < i -> Z.testbit (x + 1) i = Z.testbit x i) /\
  (forall i, 0 <= i < k -> Z.testbit (x + 1) i = false).
Proof.
  intros Hx Hk Hbit Hlow.
  assert (x mod 2 ^ (k + 1) = 2 ^ k - 1) as Hmod.
  { replace (2 ^ k - 1) with (Z.ones k) by (rewrite Z.ones_equiv; lia). apply Z.bits_inj'. intros i Hi.
    destruct (decide (i < k)); [rewrite Z.mod_pow2_bits_low, Z.ones_spec_low by lia; apply Hlow; lia|].
    rewrite (Z.ones_spec_high k) by lia.
    destruct (decide (i = k)) as [->|]; [by rewrite Z.mod_pow2_bits_low by lia|].
    by rewrite Z.mod_pow2_bits_high by lia. }
  set (q := x / 2 ^ (k + 1)). assert (0 < 2 ^ k) by lia.
  assert (2 ^ (k + 1) = 2 * 2 ^ k) as Hp by (rewrite Z.pow_add_r by lia; lia).
  assert (x = q * 2 ^ (k + 1) + (2 ^ k - 1)) as Ex by
    (unfold q; pose proof (Z.div_mod x (2 ^ (k + 1)) ltac:(lia)); lia).
  assert ((x + 1) / 2 ^ (k + 1) = q) as Eq.
  { rewrite Ex. replace (q * 2 ^ (k + 1) + (2 ^ k - 1) + 1) with (2 ^ k + q * 2 ^ (k + 1)) by lia.
    rewrite Z.div_add by lia. rewrite Z.div_small by lia. lia. }
  split_and!.
  - assert (x <> 2 ^ 64 - 1); [|unfold is_u64 in Hx; lia]. intros E.
    rewrite E in Hbit. change (2 ^ 64 - 1) with (Z.ones 64) in Hbit.
    by rewrite Z.ones_spec_low in Hbit by lia.
  - intros i Hi. replace i with (i - (k + 1) + (k + 1)) by lia. rewrite <- !Z.div_pow2_bits by lia.
    by rewrite Eq.
  - intros i Hi. rewrite Ex. replace (q * 2 ^ (k + 1) + (2 ^ k - 1) + 1) with ((2 * q + 1) * 2 ^ k) by lia.
    apply Z.mul_pow2_bits_low. lia.
Qed.

Lemma lowest_zero x : is_u64 x ->
  let k := trailing_zeros (not64 x) in
  0 <= k <= 64 /\ (forall i, 0 <= i < k -> Z.testbit x i = true) /\ (k < 64 -> Z.testbit x k = false).
Proof.
  intros Hx k. destruct (trailing_zeros_u64 (not64 x) (not_u64 _ Hx)) as (Hr & Hz & Ho & _).
  fold k in Hr, Hz, Ho. split_and!; [lia|lia| |].
  - intros i Hi. specialize (Hz i Hi). rewrite testbit_not64, bool_decide_true, xorb_true_r in Hz by lia.
    by destruct (Z.testbit x i).
  - intros Hk. specialize (Ho Hk). rewrite testbit_not64, bool_decide_true, xorb_true_r in Ho by lia.
    by destruct (Z.testbit x k).
Qed.

(** [x & (x + 1) == 0] says that the ones of [x] are its lowest bits. *)
Lemma no_gap_spec x : is_u64 x -> no_gap x = true <-> gapless x 1.
Proof.
  intros Hx. destruct (lowest_zero x Hx) as (Hk & Hlow & Hz). set (k := trailing_zeros (not64 x)) in *.
  unfold no_gap. rewrite bool_decide_eq_true. destruct (decide (k = 64)) as [Hk64|Hk64].
  { assert (x = u64_max) as ->.
    { apply u64_ext; [done|apply u64_max_u64|]. intros i Hi. rewrite testbit_u64_max by lia.
      rewrite bool_decide_true by lia. apply Hlow. lia. }
    split; [|done]. intros _ i Hi R j Hj. destruct (decide (i < 64)).
    - specialize (R i ltac:(lia)). cbn in R. rewrite testbit_u64_max, bool_decide_true in R by lia. done.
    - rewrite testbit_u64_max by lia. by rewrite bool_decide_false by lia. }
  destruct (succ_bits x k Hx ltac:(lia) (Hz ltac:(lia)) Hlow) as (Hlt & Hhi & Hlo).
  rewrite add64_small by (unfold is_u64 in Hx; lia). split.
  - intros E i Hi R j Hj. specialize (R i ltac:(lia)). cbn in R.
    assert (k <= i) by (destruct (decide (k <= i)); [done|rewrite Hlow in R by lia; done]).
    destruct (decide (j = k)) as [->|]; [apply Hz; lia|].
    assert (Z.testbit (Z.land x (x + 1)) j = false) as Ej by (rewrite E; apply Z.testbit_0_l).
    rewrite Z.land_spec, Hhi in Ej by lia. by destruct (Z.testbit x j).
  - intros G. apply Z.bits_inj'. intros i Hi. rewrite Z.land_spec, Z.testbit_0_l.
    destruct (decide (i < k)); [rewrite Hlo by lia; apply andb_false_r|].
    rewrite (G k); [done|lia| |lia]. intros j Hj. replace j with k by lia. by rewrite Hz by lia.
Qed.

(** When a widened word has no gap left, the word has none of that size. *)
Lemma ors_gapless y x d : 1 <= d -> ors y x d -> gapless x 1 -> gapless y d.
Proof.
  intros Hd [Hx H] G i Hi R j Hj. apply H in R; [|done].
  assert (Z.testbit x j = false) as E.
  { apply (G i); [done| |done]. intros k Hk. replace k with i by lia. by rewrite R. }
  apply H in E; [|lia]. specialize (E j ltac:(lia)). cbn in E. by destruct (Z.testbit y j).
Qed.

Lemma shrink_loop_ok y : forall fuel x p k d,
  p <= Z.of_nat fuel -> 0 <= p < 64 -> 1 <= k <= d -> ors y x d -> no_gap x = false ->
  match shrink_loop fuel x p k with
  | None => gapless y (d + p)
  | Some (x', k') => ors y x' (d + p) /\ no_gap x' = false /\ 1 <= k' <= d + p
  end.
Proof.
  induction fuel as [|fuel IH]; intros x p k d Hf Hp Hk Ho Hg; cbn [shrink_loop].
  { replace (d + p) with d by lia. done. }
  case_decide as Hp0; [|by replace (d + p) with d by lia].
  case_decide as Hpk.
  - rewrite land_63 by lia. pose proof (ors_step _ _ _ p Ho ltac:(lia)) as Ho'.
    destruct (no_gap (Z.lor x (shr64 x p))) eqn:E.
    + apply no_gap_spec in E; [|apply Ho']. eapply ors_gapless; [lia|done|done].
    + split; [done|]. split; [done|lia].
  - rewrite land_63 by lia. pose proof (ors_step _ _ _ k Ho ltac:(lia)) as Ho'.
    destruct (no_gap (Z.lor x (shr64 x k))) eqn:E.
    + apply no_gap_spec in E; [|apply Ho']. eapply gapless_mono; [eapply ors_gapless; [|done|done]|]; lia.
    + specialize (IH _ (p - k) (k * 2) (d + k) ltac:(lia) ltac:(lia) ltac:(lia) Ho' E).
      by replace (d + k + (p - k)) with (d + p) in IH by lia.
Qed.

(** What the scan of one word promises: [r] is the longest gap of [y], or [most]. *)
Definition longest_gap (y most r : Z) : Prop :=
  most <= r /\ gapless y (r + 1) /\
  (r = most \/ exists i, 0 <= i /\ zrun y i r /\ Z.testbit y (i + r) = true).

(** The lowest surviving gap of the widened word: it starts at [j] and is [jz] bits wide,
    so the gap of [y] there is [m + jz] zeros followed by a one. *)
Lemma lowest_gap y x m : 0 <= m -> is_u64 y -> ors y x (m + 1) -> no_gap x = false ->
  let j := trailing_zeros (not64 x) in
  let jz := trailing_zeros (shr64 x j) in
  0 <= j < 64 /\ 1 <= jz < 64 /\ j + m + jz < 64 /\
  zrun y j (m + jz) /\ Z.testbit y (j + m + jz) = true /\
  (forall i, 0 <= i -> zrun y i (m + 1) -> j <= i).
Proof.
  intros Hm Hy [Hx H] Hg j jz. destruct (lowest_zero x Hx) as (Hk & Hlow & Hz). fold j in Hk, Hlow, Hz.
  assert (~ gapless x 1) as Hng by (intros G; apply no_gap_spec in G; [congruence|done]).
  assert (j < 64) as Hj64.
  { destruct (decide (j = 64)); [|lia]. exfalso. apply Hng. intros i Hi R k Hik.
    specialize (R i ltac:(lia)). cbn in R. destruct (decide (i < 64)); [by rewrite Hlow in R by lia|].
    apply testbit_u64_high; [done|lia]. }
  assert (forall i, 0 <= i -> zrun y i (m + 1) -> j <= i) as Hmin.
  { intros i Hi R. apply H in R; [|done]. destruct (decide (j <= i)); [done|]. by rewrite Hlow in R by lia. }
  assert (0 < shr64 x j) as Hpos.
  { pose proof (shr_u64 x j Hx ltac:(lia)) as [? _]. destruct (decide (shr64 x j = 0)) as [E|]; [|lia].
    exfalso. apply Hng. intros i Hi R k Hik. specialize (R i ltac:(lia)). cbn in R.
    assert (j <= i) by (destruct (decide (j <= i)); [done|by rewrite Hlow in R by lia]).
    replace k with (k - j + j) by lia. rewrite <- testbit_shr64 by lia. rewrite E. apply Z.testbit_0_l. }
  destruct (trailing_zeros_spec _ Hpos) as (Hr & Ht & Hl). fold jz in Hr, Ht, Hl.
  rewrite testbit_shr64 in Ht by lia.
  assert (1 <= jz) as Hjz1.
  { destruct (decide (jz = 0)) as [E|]; [|lia]. rewrite E, Z.add_0_l, Hz in Ht by lia. done. }
  assert (zrun y j (m + jz)) as R1.
  { intros k Hk'. set (t := Z.max 0 (Z.min (k - j) (jz - 1))).
    assert (Z.testbit x (t + j) = false) as E by (rewrite <- testbit_shr64 by lia; apply Hl; lia).
    apply H in E; [|lia]. apply E. lia. }
  assert (Z.testbit y (j + m + jz) = true) as R2.
  { destruct (Z.testbit y (j + m + jz)) eqn:E; [done|]. exfalso.
    assert (Z.testbit x (jz + j) = false); [|congruence]. apply H; [lia|]. intros k Hk'.
    destruct (decide (k = j + m + jz)) as [->|]; [by rewrite E|]. apply R1. lia. }
  assert (j + m + jz < 64).
  { destruct (decide (j + m + jz < 64)); [done|]. rewrite testbit_u64_high in R2 by (done || lia). done. }
  split_and!; try lia; done.
Qed.

Lemma shr64_lt y k n : 0 <= y < 2 ^ (n + 1) -> 1 <= k -> 0 <= n -> 0 <= shr64 y k < 2 ^ n.
Proof.
  intros Hy Hk Hn. rewrite shr64_div by lia. assert (2 ^ 1 <= 2 ^ k) by (apply Z.pow_le_mono_r; lia).
  rewrite Z.pow_add_r in Hy by lia. split; [apply Z.div_pos; lia|].
  apply Z.div_lt_upper_bound; [lia|]. nia.
Qed.

Lemma scan_loop_ok : forall fuel y x most p k,
  is_u64 y -> 0 <= y < 2 ^ Z.of_nat fuel -> 0 <= p <= most -> most < 64 -> 1 <= k <= most + 1 - p ->
  ors y x (most + 1 - p) -> no_gap x = false -> longest_gap y most (scan_loop fuel x most p k).
Proof.
  induction fuel as [|fuel IH]; intros y x most p k Hu Hy Hp Hm Hk Ho Hg; cbn [scan_loop].
  { exfalso. change (2 ^ Z.of_nat 0) with 1 in Hy. assert (y = 0) as -> by lia.
    assert (gapless x 1) as G; [|apply no_gap_spec in G; [congruence|apply Ho]].
    intros i Hi _ j Hj. apply Ho; [lia|]. intros q Hq. by rewrite Z.testbit_0_l. }
  pose proof (shrink_loop_ok y (Z.to_nat p) x p k (most + 1 - p) ltac:(lia) ltac:(lia) ltac:(lia) Ho Hg) as Hs.
  replace (most + 1 - p + p) with (most + 1) in Hs by lia.
  destruct (shrink_loop _ _ _ _) as [[x' k']|]; [|split_and!; [lia|done|by left]].
  destruct Hs as (Ho' & Hg' & Hk').
  destruct (lowest_gap y x' most ltac:(lia) Hu Ho' Hg') as (Hj & Hjz & Hsum & R1 & R2 & Hmin).
  set (j := trailing_zeros (not64 x')) in *. rewrite (land_63 j) by lia.
  set (jz := trailing_zeros (shr64 x' j)) in *. cbn zeta. rewrite (land_63 jz) by lia.
  assert (shr64 (shr64 x' j) jz = shr64 x' (j + jz)) as E by (unfold shr64; rewrite Z.shiftr_shiftr by lia; done).
  rewrite E. pose proof (ors_shift _ _ _ (j + jz) Ho' ltac:(lia)) as Ho2.
  assert (forall r, most + jz <= r -> gapless (shr64 y (j + jz)) (r + 1) -> gapless y (r + 1)) as Hglue.
  { intros r Hr G i Hi R. destruct (decide (j + jz <= i)) as [Hij|Hij].
    - intros q Hq. replace q with (q - (j + jz) + (j + jz)) by lia. rewrite <- testbit_shr64 by lia.
      apply (G (i - (j + jz))); [lia| |lia]. intros t Ht. rewrite testbit_shr64 by lia. apply R. lia.
    - exfalso. assert (j <= i) by (apply Hmin; [lia|]; eapply run_sub; [exact R|lia|lia]).
      specialize (R (j + most + jz) ltac:(lia)). cbn in R. by rewrite R2 in R. }
  destruct (no_gap (shr64 x' (j + jz))) eqn:Eg.
  - apply no_gap_spec in Eg; [|apply Ho2].
    assert (gapless (shr64 y (j + jz)) (most + jz + 1)) as G.
    { eapply gapless_mono; [eapply ors_gapless; [|exact Ho2|exact Eg]|]; lia. }
    split_and!; [lia|by apply Hglue|]. right. exists j. split_and!; [lia|done|].
    by replace (j + (most + jz)) with (j + most + jz) by lia.
  - destruct (IH (shr64 y (j + jz)) (shr64 x' (j + jz)) (most + jz) jz k') as (H1 & H2 & H3).
    + apply shr_u64; [done|lia].
    + apply shr64_lt; [|lia|lia]. by replace (Z.of_nat fuel + 1) with (Z.of_nat (S fuel)) by lia.
    + lia.
    + lia.
    + lia.
    + by replace (most + jz + 1 - jz) with (most + 1) by lia.
    + done.
    + split_and!; [lia|by apply Hglue|]. right. destruct H3 as [->|(i & Hi & R & T)].
      * exists j. split_and!; [lia|done|]. by replace (j + (most + jz)) with (j + most + jz) by lia.
      * exists (i + (j + jz)). split_and!; [lia| |].
        -- intros q Hq. specialize (R (q - (j + jz)) ltac:(lia)). cbn in R.
           rewrite testbit_shr64 in R by lia. by replace (q - (j + jz) + (j + jz)) with q in R by lia.
        -- rewrite testbit_shr64 in T by lia. by replace (i + (j + jz) + scan_loop fuel (shr64 x' (j + jz)) (most + jz) jz k')
             with (i + scan_loop fuel (shr64 x' (j + jz)) (most + jz) jz k' + (j + jz)) by lia.
Qed.

(** ** The two passes over a chunk *)

Section summarize.
  Context (b : PallocBits) (Hb : wf_bits b).
  Abbreviation f := (free_page b).

  (** A run of [n] pages at [q] lies strictly between the lowest and the highest one of word [j]. *)
Definition internal (j q n : Z) : Prop :=
    exists w, idx b j = Some w /\ w <> 0 /\ 0 <= j /\
      j * 64 + trailing_zeros w < q /\ q + n <= j * 64 + 63 - leading_zeros w.

Lemma internal_small j q n : internal j q n -> n <= 62.
  Proof.
    intros (w & Hw & _ & Hj & H1 & H2).
    assert (is_u64 w) as Hu.
    { destruct Hb as [_ Hf]. apply idx_Some in Hw as [_ Hw]. by eapply Forall_lookup_1. }
    destruct (trailing_zeros_u64 w Hu) as ((? & _) & _). destruct (leading_zeros_u64 w Hu) as ((? & _) & _). lia.
  Qed.

Lemma pass2_step_ok j w most : idx b j = Some w -> is_u64 w -> 0 <= j -> 0 <= most < 64 ->
    most <= pass2_step most w < 64 /\
    (forall q n, internal j q n -> run f q n -> n <= pass2_step most w) /\
    (pass2_step most w = most \/ exists q, j * 64 <= q /\ q + pass2_step most w <= j * 64 + 64 /\
                                           run f q (pass2_step most w)).
  Proof.
    intros Hw Hu Hj Hm. unfold pass2_step. destruct (decide (w = 0)) as [->|Hne].
    { change (no_gap (shr64 0 (Z.land (trailing_zeros 0) 63))) with true.
      split; [lia|]. split; [|by left]. intros q n (w & Hw' & Hne & _). congruence. }
    destruct (trailing_zeros_u64 w Hu) as (Hr & Hz & Ho & H64).
    set (t := trailing_zeros w) in *. assert (t < 64) by (destruct (decide (t = 64)); [naive_solver|lia]).
    rewrite land_63 by lia. set (y := shr64 w t). assert (is_u64 y) as Hy by (apply shr_u64; [done|lia]).
    assert (longest_gap y most (if no_gap y then most else scan_loop 64 y most most 1)) as (G1 & G2 & G3).
    { destruct (no_gap y) eqn:E.
      - apply no_gap_spec in E; [|done]. split_and!; [lia| |by left]. eapply gapless_mono; [done|lia].
      - apply scan_loop_ok; [done|apply Hy|lia|lia|lia| |done]. split; [done|].
        replace (most + 1 - most) with 1 by lia. intros i Hi. split.
        + intros E' k Hk. replace k with i by lia. by rewrite E'.
        + intros R. specialize (R i ltac:(lia)). cbn in R. by destruct (Z.testbit y i). }
    set (r := if no_gap y then most else scan_loop 64 y most most 1) in *.
    assert (forall i n, 0 <= i -> i + n <= 64 - t -> zrun y i n <-> run f (j * 64 + t + i) n) as Hpages.
    { intros i n Hi Hn. split; intros R k Hk.
      - specialize (R (k - (j * 64 + t)) ltac:(lia)). cbn in R. unfold y in R. rewrite testbit_shr64 in R by lia.
        rewrite (free_word' b j w) by (done || lia). by replace (k - j * 64) with (k - (j * 64 + t) + t) by lia.
      - specialize (R (j * 64 + t + k) ltac:(lia)). rewrite (free_word' b j w) in R by (done || lia).
        unfold y. rewrite testbit_shr64 by lia. by replace (k + t) with (j * 64 + t + k - j * 64) by lia. }
    assert (forall i, Z.testbit y i = true -> 0 <= i -> i < 64 - t) as Htop.
    { intros i Hi Hi0. destruct (decide (i < 64 - t)); [done|]. unfold y in Hi.
      rewrite testbit_shr64, testbit_u64_high in Hi by (done || lia). done. }
    split; [|split].
    - destruct G3 as [->|(i & Hi & _ & T)]; [lia|]. specialize (Htop _ T). lia.
    - intros q n (w' & Hw' & _ & _ & Hq1 & Hq2) R. rewrite Hw in Hw'. injection Hw' as <-. fold t in Hq1.
      destruct (decide (n <= r)); [done|]. exfalso.
      destruct (leading_zeros_u64 w Hu) as (Hlr & _ & Hlo & _).
      assert (zrun y (q - (j * 64 + t)) (r + 1)) as R'.
      { apply Hpages; [lia|lia|]. eapply run_sub; [exact R|lia|lia]. }
      pose proof (G2 (q - (j * 64 + t)) ltac:(lia) R' (63 - leading_zeros w - t) ltac:(lia)) as E.
      unfold y in E. rewrite testbit_shr64 in E by lia.
      replace (63 - leading_zeros w - t + t) with (63 - leading_zeros w) in E by lia.
      rewrite Hlo in E by lia. done.
    - destruct G3 as [->|(i & Hi & R & T)]; [by left|]. right. specialize (Htop _ T ltac:(lia)).
      exists (j * 64 + t + i). split_and!; [lia|lia|]. apply Hpages; [lia|lia|done].
  Qed.

Lemma pass2_ok : forall ws i most, 0 <= i <= 8 -> ws = drop (Z.to_nat i) b -> 0 <= most < 64 ->
    most <= fold_left pass2_step ws most /\
    (forall j q n, i <= j -> internal j q n -> run f q n -> n <= fold_left pass2_step ws most) /\
    (fold_left pass2_step ws most = most \/
     exists q, 0 <= q /\ q + fold_left pass2_step ws most <= 512 /\ run f q (fold_left pass2_step ws most)).
  Proof.
    induction ws as [|w ws IH]; intros i most Hi Hws Hm; cbn [fold_left];
      pose proof (drop_words b Hb i Hi) as Hd; rewrite <- Hws in Hd.
    { split; [lia|]. split; [|by left]. intros j q n Hj (w & Hw & _).
      apply idx_range in Hw. destruct Hb as [Hl _]. lia. }
    destruct Hd as (Hi8 & Hw & Hu & Hws').
    destruct (pass2_step_ok i w most Hw Hu ltac:(lia) Hm) as (A1 & A2 & A3).
    destruct (IH (i + 1) (pass2_step most w) ltac:(lia) Hws' ltac:(lia)) as (B1 & B2 & B3).
    split; [lia|]. split.
    - intros j q n Hj Hint R. destruct (decide (j = i)) as [->|].
      + specialize (A2 q n Hint R). lia.
      + apply (B2 j q n); [lia|done|done].
    - destruct B3 as [E|B3]; [|by right]. rewrite E. destruct A3 as [->|(q & ? & ? & R)]; [by left|].
      right. exists q. split_and!; [lia|lia|done].
  Qed.

  (** The first pass after [i] words: [cur] is the free tail, [most] bounds every run that is
      neither in the tail nor strictly inside a word, [start] is the free run at 0 once known. *)
Definition pass1_inv (i : Z) (acc : Z * Z * Z) : Prop :=
    let '(start, most, cur) := acc in
    tail_run f 0 (i * 64) cur /\
    ((start = NO_INDEX /\ cur = i * 64) \/ (0 <= start < 512 /\ head_run f 0 512 start)) /\
    0 <= most /\ (exists q, 0 <= q /\ q + most <= 512 /\ run f q most) /\
    (forall q n, 0 <= q -> q + n <= i * 64 -> run f q n ->
       n <= most \/ i * 64 - cur <= q \/ exists j, j < i /\ internal j q n).

Lemma tail_run_max lo pos len q : tail_run f lo pos len -> lo <= q -> run f q (pos - q) -> pos - len <= q.
  Proof.
    intros (H1 & R & Hs) Hq Rq. destruct (decide (pos - len <= q)); [done|]. exfalso.
    eapply run_not_false; [exact Rq| |apply Hs]; lia.
  Qed.

Lemma pass1_step_ok i w acc : 0 <= i < 8 -> idx b i = Some w -> is_u64 w ->
    pass1_inv i acc -> pass1_inv (i + 1) (pass1_step acc w).
  Proof.
    destruct acc as [[start most] cur]. intros Hi Hw Hu (Ht & Hst & Hm & Hach & Hcov).
    pose proof (word_head b i w Hw Hu ltac:(lia)) as Hh. pose proof (word_tail b i w Hw Hu ltac:(lia)) as Hwt.
    assert (forall q n, 0 <= q -> q < i * 64 < q + n -> run f q n -> i * 64 - cur <= q) as Hcross.
    { intros q n Hq Hqn R. eapply tail_run_max; [exact Ht|done|]. eapply run_sub; [exact R|lia|lia]. }
    destruct (trailing_zeros_u64 w Hu) as (Htr & _ & _ & Ht64).
    destruct (leading_zeros_u64 w Hu) as (Hlr & _ & _ & Hl64).
    assert (0 <= cur) as Hcur by (destruct Ht; lia).
    unfold pass1_step, pass1_inv. case_decide as Hz.
    - assert (trailing_zeros w = 64) as E by (by apply Ht64). rewrite E in Hh.
      replace ((i + 1) * 64) with (i * 64 + 64) by lia. split_and!; [|naive_solver lia|done|done|].
      + replace (cur + 64) with (cur + (i * 64 + 64 - i * 64)) by lia. apply tail_run_grow; [done|lia|].
        eapply run_sub; [apply Hh|lia|lia].
      + intros q n Hq Hqn R. destruct (decide (q + n <= i * 64)).
        * destruct (Hcov q n Hq ltac:(lia) R) as [?|[?|(j & ? & ?)]]; [by left|right; left; lia|].
          right; right. exists j. split; [lia|done].
        * right; left. destruct (decide (q < i * 64)); [specialize (Hcross q n Hq ltac:(lia) R)|]; lia.
    - assert (trailing_zeros w < 64) by (destruct (decide (trailing_zeros w = 64)); [naive_solver|lia]).
      assert (leading_zeros w < 64) by (destruct (decide (leading_zeros w = 64)); [naive_solver|lia]).
      set (t := trailing_zeros w) in *. set (l := leading_zeros w) in *.
      destruct Hh as (_ & Rh & Hhs). specialize (Hhs ltac:(lia)).
      destruct Hwt as (_ & Rt & Hts). specialize (Hts ltac:(lia)).
      destruct Ht as (Htb & Rtl & Htl).
      assert (run f (i * 64 - cur) (cur + t)) as Rmid.
      { apply run_join; [done|]. by replace (i * 64 - cur + cur) with (i * 64) by lia. }
      set (most' := if decide (cur + t > most) then cur + t else most).
      assert (most <= most' /\ cur + t <= most') as [Hm1 Hm2] by (unfold most'; case_decide; lia).
      replace ((i + 1) * 64) with (i * 64 + 64) by lia.
      split; [split; [lia|split; [done|intros; exact Hts]]|]. split; [|split; [lia|split]].
      + case_decide as Es.
        * right. destruct Hst as [[_ Hc]|[? _]]; [|subst; unfold NO_INDEX, u64_max in *; lia].
          split; [lia|]. split; [lia|]. split; [by replace (i * 64 - cur) with 0 in Rmid by lia|].
          intros _. by replace (0 + (cur + t)) with (i * 64 + t) by lia.
        * right. destruct Hst as [[? _]|?]; done.
      + unfold most'. case_decide; [|done]. exists (i * 64 - cur). split_and!; [lia|lia|done].
      + intros q n Hq Hqn R. destruct (decide (q + n <= i * 64)) as [|Hc].
        * destruct (Hcov q n Hq ltac:(lia) R) as [?|[?|(j & ? & ?)]]; [left; lia|left; lia|].
          right; right. exists j. split; [lia|done].
        * destruct (decide (i * 64 + t < q)) as [Hq'|Hq'].
          -- destruct (decide (q <= i * 64 + 63 - l)).
             ++ right; right. exists i. split; [lia|]. exists w. split_and!; [done|done|lia|done|].
                destruct (decide (q + n <= i * 64 + 63 - l)); [done|]. exfalso.
                eapply run_not_false; [exact R| |exact Hts]. lia.
             ++ right; left. lia.
          -- left. assert (q + n <= i * 64 + t).
             { destruct (decide (q + n <= i * 64 + t)); [done|]. exfalso.
               eapply run_not_false; [exact R| |exact Hhs]. lia. }
             destruct (decide (q < i * 64)); [specialize (Hcross q n Hq ltac:(lia) R)|]; lia.
  Qed.

Lemma pass1_ok : forall ws i acc, 0 <= i <= 8 -> ws = drop (Z.to_nat i) b -> pass1_inv i acc ->
    pass1_inv 8 (fold_left pass1_step ws acc).
  Proof.
    induction ws as [|w ws IH]; intros i acc Hi Hws HI; cbn [fold_left];
      pose proof (drop_words b Hb i Hi) as Hd; rewrite <- Hws in Hd.
    { by subst i. }
    destruct Hd as (Hi8 & Hw & Hu & Hws'). apply (IH (i + 1)); [lia|done|]. by apply pass1_step_ok; [lia|..].
  Qed.

  (** Putting the passes together. *)
Lemma passes_summary start cur m : tail_run f 0 512 cur -> head_run f 0 512 start ->
    0 <= m -> (exists q, 0 <= q /\ q + m <= 512 /\ run f q m) ->
    (forall q n, 0 <= q -> q + n <= 512 -> run f q n -> n <= m) -> summary_of f 0 512 start m cur.
  Proof.
    intros (Ht1 & Ht2 & Ht3) (Hh1 & Hh2 & Hh3) Hm Hach Hcov. split; (done || lia).
  Qed.

Lemma summarize_ok : sum_ok f 0 512 (summarize b).
  Proof.
    unfold summarize.
    assert (pass1_inv 8 (fold_left pass1_step b (NO_INDEX, 0, 0))) as H.
    { apply (pass1_ok _ 0); [lia|done|]. split_and!; [apply tail_run_start|by left|lia| |].
      - exists 0. split_and!; [lia|lia|apply run_nonpos; lia].
      - intros q n Hq Hn _. left. lia. }
    destruct (fold_left pass1_step b (NO_INDEX, 0, 0)) as [[start most] cur].
    destruct H as (Ht & Hst & Hm & Hach & Hcov). change (8 * 64) with 512 in *.
    case_decide as Es.
    { destruct Hst as [[_ Hc]|[? _]]; [|subst; unfold NO_INDEX, u64_max in *; lia].
      destruct Hb as [-> _]. exists 512, 512, 512. split; [|done]. destruct Ht as (_ & R & _).
      rewrite Hc in R. by apply so_all_free. }
    destruct Hst as [[? _]|[_ Hh]]; [done|]. cbn zeta.
    set (most' := if decide (cur > most) then cur else most).
    assert (most <= most' /\ cur <= most') as [Hm1 Hm2] by (unfold most'; case_decide; lia).
    assert (exists q, 0 <= q /\ q + most' <= 512 /\ run f q most') as Hach'.
    { unfold most'. case_decide; [|done]. destruct Ht as (? & R & _). exists (512 - cur).
      split_and!; [lia|lia|done]. }
    assert (forall q n, 0 <= q -> q + n <= 512 -> run f q n ->
              n <= most' \/ exists j, 0 <= j /\ internal j q n) as Hcov'.
    { intros q n Hq Hn R. destruct (Hcov q n Hq Hn R) as [?|[?|(j & ? & Hint)]]; [left; lia|left; lia|].
      right. exists j. split; [|done]. by destruct Hint as (? & _ & _ & ? & _). }
    case_decide as H62.
    - exists start, most', cur. split; [|done]. apply passes_summary; try (done || lia).
      intros q n Hq Hn R. destruct (Hcov' q n Hq Hn R) as [?|(j & _ & Hint)]; [done|].
      pose proof (internal_small _ _ _ Hint). lia.
    - destruct (pass2_ok b 0 most' ltac:(lia) eq_refl ltac:(lia)) as (B1 & B2 & B3).
      exists start, (fold_left pass2_step b most'), cur. split; [|done].
      apply passes_summary; try (done || lia).
      + destruct B3 as [->|?]; done.
      + intros q n Hq Hn R. destruct (Hcov' q n Hq Hn R) as [?|(j & Hj & Hint)]; [lia|].
        by apply (B2 j q n).
  Qed.
End summarize.

(** ** Theorems *)

(** [summarize] computes the number of free pages at the chunk's start, the longest run of free
    pages and the number at its end, although it only scans words for runs longer than the
    best one that crosses a word boundary. *)
Theorem summarize_sound b : wf_bits b ->
  summary_of (free_page b) 0 512 (sum_start (summarize b)) (sum_max (summarize b)) (sum_end (summarize b)).
Proof. intros Hb. apply sum_ok_unpack; [done|]. by apply summarize_ok. Qed.

Lemma summarize_sound_witness :
  summary_of (free_page [0; 5; 0; u64_max; 0; 0; 9223372036854775808; 1]) 0 512
    (sum_start (summarize [0; 5; 0; u64_max; 0; 0; 9223372036854775808; 1]))
    (sum_max (summarize [0; 5; 0; u64_max; 0; 0; 9223372036854775808; 1]))
    (sum_end (summarize [0; 5; 0; u64_max; 0; 0; 9223372036854775808; 1])).
Proof.
  apply (summarize_sound [0; 5; 0; u64_max; 0; 0; 9223372036854775808; 1]).
  split; [done|]. repeat (apply List.Forall_cons; [unfold is_u64, u64_max; lia|]). apply List.Forall_nil.
Defined.
