(* ===== verification/PageAlloc.v ===== *)
(** The radix-tree page allocator: src/src/runtime/mheap/page_alloc.rs.

    [PageAlloc] holds the five summary arrays, the chunk bitmaps (all [chunks_capacity] of
    them; the slice [chunks()] exposes the first [end_chunk]) and the arena's base address.
    Indexing panics out of range and [debug_assert!] is a check, so operations return
    [option]; address arithmetic wraps at 64 bits.  [mmap_zeroed] hands out zero-filled
    memory, so fresh arrays are zeros.  This file holds the definitions; PageAllocTree.v
    proves that updates keep every summary right, PageAllocFind.v that the descent is first
    fit, PageAllocSpec.v the refinement. *)
From Stdlib Require Import ZArith Lia.
From stdpp Require Import base tactics numbers list list_numbers option.
From S2P Require Import Prelude Runs MheapConsts PallocSum PallocBits.
Open Scope Z_scope.
Local Open Scope goish_scope.

Definition ALLOC_FAILED : Z := 0.

Record PageAlloc := mkPageAlloc {
  summary : list (list PallocSum);
  chunk_store : list PallocBits;
  chunks_capacity : Z;
  arena_base : Z;
  start_chunk : Z;
  end_chunk : Z
}.

(** ** Accessors *)

Definition summary_len (p : PageAlloc) (l : Z) : Z := zlen (default [] (idx (summary p) l)).

Definition chunks (p : PageAlloc) : list PallocBits := take (Z.to_nat (end_chunk p)) (chunk_store p).

Definition with_summary (p : PageAlloc) (s : list (list PallocSum)) : PageAlloc :=
  mkPageAlloc s (chunk_store p) (chunks_capacity p) (arena_base p) (start_chunk p) (end_chunk p).

Definition with_chunks (p : PageAlloc) (c : list PallocBits) : PageAlloc :=
  mkPageAlloc (summary p) c (chunks_capacity p) (arena_base p) (start_chunk p) (end_chunk p).

Definition with_end_chunk (p : PageAlloc) (e : Z) : PageAlloc :=
  mkPageAlloc (summary p) (chunk_store p) (chunks_capacity p) (arena_base p) (start_chunk p) e.

(** [self.summary_mut(l)[i] = x]. *)
Definition set_summary (p : PageAlloc) (l i : Z) (x : PallocSum) : option PageAlloc :=
  lvl ← idx (summary p) l;
  lvl ← upd lvl i x;
  s ← upd (summary p) l lvl;
  Some (with_summary p s).

(** [self.chunks_mut()[c].op()]: only the first [end_chunk] bitmaps are reachable. *)
Definition on_chunk (p : PageAlloc) (c : Z) (op : PallocBits -> option PallocBits) : option PageAlloc :=
  b ← idx (chunks p) c;
  b ← op b;
  cs ← upd (chunk_store p) c b;
  Some (with_chunks p cs).

(** [self.chunks()[ci].summarize()] into the leaf level. *)
Definition refresh_leaf (ci : Z) (p : PageAlloc) : option PageAlloc :=
  b ← idx (chunks p) ci;
  set_summary p (SUMMARY_LEVELS - 1) ci (summarize b).

(** ** Coordinates *)

Definition chunk_index (p : PageAlloc) (addr : Z) : Z := (addr -! arena_base p) / PALLOC_CHUNK_BYTES.
Definition chunk_page_index (p : PageAlloc) (addr : Z) : Z := (addr mod PALLOC_CHUNK_BYTES) / PAGE_SIZE.
Definition chunk_base (p : PageAlloc) (ci : Z) : Z := arena_base p +! ci *! PALLOC_CHUNK_BYTES.
Definition addr_to_level_index (p : PageAlloc) (l addr : Z) : Z :=
  shr64 (addr -! arena_base p) (level_shift l).

(** ** Construction *)

Definition div_ceil (a b : Z) : Z := if decide (a mod b > 0) then a / b + 1 else a / b.

(** The padded length of level [l]'s array. *)
Definition level_len (max_chunks l : Z) : Z :=
  if decide (l = 0) then shl64 1 (level_bits 0)
  else
    let level_bits_total := foldr Z.add 0 (drop (Z.to_nat l) LEVEL_BITS) in
    let shift := level_bits_total - level_bits l in
    let entries_for_heap := Z.max (shr64 (max_chunks + shl64 1 shift - 1) shift) 1 in
    let block := shl64 1 (level_bits l) in
    div_ceil entries_for_heap block * block.

(** The inner loop of [bubble_up_initial] at level [l], with its [break]. *)
Fixpoint bubble_level (n : nat) (l i : Z) (p : PageAlloc) : option PageAlloc :=
  match n with
  | O => Some p
  | S n =>
      let log_max_pages := level_log_pages (l + 1) in
      let entries_per_block := shl64 1 (level_bits (l + 1)) in
      let lo := shl64 i (level_bits (l + 1)) in
      let hi := lo + entries_per_block in
      if decide (hi > summary_len p (l + 1)) then Some p
      else
        lvl ← idx (summary p) (l + 1);
        sums ← slice lvl lo hi;
        merged ← merge_summaries sums log_max_pages;
        p ← set_summary p l i merged;
        bubble_level n l (i + 1) p
  end.

Definition bubble_up_initial (p : PageAlloc) : option PageAlloc :=
  foldr (fun l acc => p ← acc; bubble_level (Z.to_nat (summary_len p l)) l 0 p)
    (Some p) (seqZ 0 (SUMMARY_LEVELS - 1)).

Definition new (arena_base n_chunks max_chunks : Z) : option PageAlloc :=
  if decide (arena_base mod PALLOC_CHUNK_BYTES = 0 /\ n_chunks >= 1 /\ max_chunks >= n_chunks) then
    let chunk_store := replicate (Z.to_nat max_chunks) palloc_bits_zero in
    let summary := map (fun l => replicate (Z.to_nat (level_len max_chunks l)) 0) (seqZ 0 SUMMARY_LEVELS) in
    let p := mkPageAlloc summary chunk_store max_chunks arena_base 0 n_chunks in
    p ← for_range 0 n_chunks refresh_leaf p;
    bubble_up_initial p
  else None.

(** ** Update *)

(** One parent of level [l] in the walk up: recompute it, note whether it changed. *)
Definition update_parent (l i : Z) (st : PageAlloc * bool) : option (PageAlloc * bool) :=
  let '(p, changed) := st in
  let log_entries_per_block := level_bits (l + 1) in
  let log_max_pages := level_log_pages (l + 1) in
  let entries_per_block := shl64 1 log_entries_per_block in
  let child_lo := shl64 i log_entries_per_block in
  let child_hi := child_lo + entries_per_block in
  if decide (child_hi > summary_len p (l + 1)) then Some (p, changed)
  else
    lvl ← idx (summary p) (l + 1);
    sums ← slice lvl child_lo child_hi;
    merged ← merge_summaries sums log_max_pages;
    plvl ← idx (summary p) l;
    old ← idx plvl i;
    if decide (old <> merged) then p ← set_summary p l i merged; Some (p, true)
    else Some (p, changed).

(** [while l >= 0 && changed]: the levels still to visit, leaf side first. *)
Fixpoint update_levels (ls : list Z) (base limit : Z) (p : PageAlloc) : option PageAlloc :=
  match ls with
  | [] => Some p
  | l :: ls =>
      let lo := addr_to_level_index p l base in
      let hi := addr_to_level_index p l limit + 1 in
      st ← for_range lo hi (update_parent l) (p, false);
      let '(p, changed) := st in
      if (changed : bool) then update_levels ls base limit p else Some p
  end.

Definition update (p : PageAlloc) (base npages : Z) : option PageAlloc :=
  let limit := (base +! npages *! PAGE_SIZE) -! 1 in
  let sc := chunk_index p base in
  let ec := chunk_index p limit in
  p ← for_range sc (ec + 1) refresh_leaf p;
  update_levels [3; 2; 1; 0] base limit p.

(** ** Allocation and release *)

(** The pages of [sc:si .. ec:ei] through [op i n] on each chunk's bitmap. *)
Definition on_range (op : PallocBits -> Z -> Z -> option PallocBits) (p : PageAlloc) (sc ec si ei : Z)
  : option PageAlloc :=
  if decide (sc = ec) then on_chunk p sc (fun b => op b si (ei + 1 - si))
  else
    p ← on_chunk p sc (fun b => op b si (PALLOC_CHUNK_PAGES - si));
    p ← for_range (sc + 1) ec (fun c p => on_chunk p c (fun b => op b 0 PALLOC_CHUNK_PAGES)) p;
    on_chunk p ec (fun b => op b 0 (ei + 1)).

Definition alloc_range (p : PageAlloc) (base npages : Z) : option PageAlloc :=
  let limit := (base +! npages *! PAGE_SIZE) -! 1 in
  let sc := chunk_index p base in
  let ec := chunk_index p limit in
  let si := chunk_page_index p base in
  let ei := chunk_page_index p limit in
  p ← on_range bits_alloc_range p sc ec si ei;
  update p base npages.

Definition free (p : PageAlloc) (base npages : Z) : option PageAlloc :=
  let limit := (base +! npages *! PAGE_SIZE) -! 1 in
  p ← (if decide (npages = 1) then
         let i := chunk_index p base in
         let pi := chunk_page_index p base in
         on_chunk p i (fun b => bits_free b pi 1)
       else
         let sc := chunk_index p base in
         let ec := chunk_index p limit in
         let si := chunk_page_index p base in
         let ei := chunk_page_index p limit in
         on_range bits_free p sc ec si ei);
  update p base npages.

(** ** The descent *)

(** The scan of one block of a level: [Descend j] is [i = j; continue 'level]. *)
Inductive scan_result := Descend (j : Z) | Done (base size : Z).

Fixpoint find_scan (entries : list PallocSum) (npages log_max_pages i j base size : Z) : scan_result :=
  match entries with
  | [] => Done base size
  | sum :: rest =>
      if decide (sum_raw sum = 0) then find_scan rest npages log_max_pages i (j + 1) base 0
      else
        let s := sum_start sum in
        if decide (size + s >= npages) then
          Done (if decide (size = 0) then shl64 (j - i) log_max_pages else base) (size + s)
        else if decide (sum_max sum >= npages) then Descend j
        else if decide (size = 0 \/ s < shl64 1 log_max_pages) then
          let size := sum_end sum in
          find_scan rest npages log_max_pages i (j + 1) (shl64 (j - i + 1) log_max_pages - size) size
        else find_scan rest npages log_max_pages i (j + 1) base (size + shl64 1 log_max_pages)
  end.

Fixpoint find_levels (ls : list Z) (p : PageAlloc) (npages i : Z) : option Z :=
  match ls with
  | [] =>
      b ← idx (chunks p) i;
      let '(j, _) := bits_find b npages 0 in
      if decide (j = NO_INDEX) then Some ALLOC_FAILED
      else Some (chunk_base p i +! j *! PAGE_SIZE)
  | l :: ls =>
      let entries_per_block := shl64 1 (level_bits l) in
      let log_max_pages := level_log_pages l in
      let i := shl64 i (level_bits l) in
      lvl ← idx (summary p) l;
      let block_end := Z.min (i + entries_per_block) (zlen lvl) in
      match find_scan (take (Z.to_nat (block_end - i)) (drop (Z.to_nat i) lvl)) npages log_max_pages i i 0 0 with
      | Descend j => find_levels ls p npages j
      | Done base size =>
          if decide (size >= npages) then
            Some (arena_base p +! shl64 i (level_shift l) +! shl64 base PAGE_SHIFT)
          else if decide (l = 0) then Some ALLOC_FAILED
          else find_levels ls p npages i
      end
  end.

Definition find (p : PageAlloc) (npages : Z) : option Z := find_levels (seqZ 0 SUMMARY_LEVELS) p npages 0.

Definition alloc (p : PageAlloc) (npages : Z) : option (PageAlloc * Z) :=
  addr ← find p npages;
  if decide (addr = ALLOC_FAILED) then Some (p, ALLOC_FAILED)
  else
    p ← alloc_range p addr npages;
    Some (p, addr).

(** ** Growth and counters *)

Definition capacity_chunks (p : PageAlloc) : Z := chunks_capacity p.

Definition grow_parent (l i : Z) (p : PageAlloc) : option PageAlloc :=
  let log_entries_per_block := level_bits (l + 1) in
  let log_max_pages := level_log_pages (l + 1) in
  let entries_per_block := shl64 1 log_entries_per_block in
  let child_lo := shl64 i log_entries_per_block in
  let child_hi := child_lo + entries_per_block in
  if decide (child_hi > summary_len p (l + 1)) then Some p
  else
    lvl ← idx (summary p) (l + 1);
    sums ← slice lvl child_lo child_hi;
    merged ← merge_summaries sums log_max_pages;
    if decide (i < summary_len p l) then set_summary p l i merged else Some p.

Fixpoint grow_levels (ls : list Z) (lo_chunk hi_chunk : Z) (p : PageAlloc) : option PageAlloc :=
  match ls with
  | [] => Some p
  | l :: ls =>
      let log_entries_per_block := level_bits (l + 1) in
      let entries_per_block := shl64 1 log_entries_per_block in
      let parent_lo := shr64 lo_chunk log_entries_per_block in
      let parent_hi := shr64 (hi_chunk + entries_per_block - 1) log_entries_per_block in
      p ← for_range parent_lo parent_hi (grow_parent l) p;
      grow_levels ls parent_lo parent_hi p
  end.

Definition grow (p : PageAlloc) (n_more : Z) : option PageAlloc :=
  if decide (n_more = 0) then Some p
  else
    let old_count := end_chunk p in
    let new_count := old_count + n_more in
    if decide (new_count <= chunks_capacity p) then
      let p := with_end_chunk p new_count in
      p ← for_range old_count new_count refresh_leaf p;
      grow_levels [3; 2; 1; 0] old_count new_count p
    else None.

Definition free_pages (p : PageAlloc) : option Z :=
  for_range (start_chunk p) (end_chunk p)
    (fun ci n => b ← idx (chunks p) ci; c ← popcnt_range b 0 PALLOC_CHUNK_PAGES;
                 Some (n + (PALLOC_CHUNK_PAGES - c))) 0.

Definition allocated_pages (p : PageAlloc) : option Z :=
  for_range (start_chunk p) (end_chunk p)
    (fun ci n => b ← idx (chunks p) ci; c ← popcnt_range b 0 PALLOC_CHUNK_PAGES; Some (n + c)) 0.
