(* ===== verification/PageAllocTree.v ===== *)
(** The radix tree's invariant: every summary at every level describes the free pages of its
    region.  The file shows that the bottom-up walks of
    src/src/runtime/mheap/page_alloc.rs ([update] with its early exit, [grow],
    [bubble_up_initial]) restore it after the bitmaps changed, without panicking. *)
From Stdlib Require Import ZArith Lia.
From stdpp Require Import base tactics numbers list list_numbers option.
From S2P Require Import Prelude Runs MheapConsts PallocSum PallocBits PallocSummarize PageAlloc.
Open Scope Z_scope.

(** ** Geometry *)

(** Pages covered by one summary of level [l]. *)
Definition level_pages (l : Z) : Z := 2 ^ level_log_pages l.

Definition lev (p : PageAlloc) (l : Z) : list PallocSum := default [] (idx (summary p) l).

(** Page [g] of the arena is free. *)
Definition gfree (p : PageAlloc) (g : Z) : bool :=
  if decide (0 <= g) then
    match idx (chunks p) (g / 512) with Some b => free_page b (g mod 512) | None => false end
  else false.

Record geometry (p : PageAlloc) : Prop := {
  geo_levels : zlen (summary p) = 5;
  geo_cover : forall l, 0 <= l < 5 -> chunks_capacity p * 512 <= summary_len p l * level_pages l;
  geo_upper : forall l, 0 <= l < 5 -> summary_len p l * level_pages l <= 2 ^ 36;
  geo_len0 : summary_len p 0 = 2 ^ 14;
  geo_blocks : forall l, 1 <= l < 5 -> summary_len p l mod 8 = 0;
  geo_store : zlen (chunk_store p) = chunks_capacity p;
  geo_wf : Forall wf_bits (chunk_store p);
  geo_end : 0 <= end_chunk p <= chunks_capacity p;
  geo_start : start_chunk p = 0;
  geo_cap : chunks_capacity p <= 2 ^ 26;
  geo_base : 0 < arena_base p /\ arena_base p mod 2 ^ 22 = 0 /\ arena_base p + 2 ^ 48 < 2 ^ 64
}.

(** Level [l] is right for the page map [f]. *)
Definition level_ok (p : PageAlloc) (f : Z -> bool) (l : Z) : Prop :=
  forall j x, idx (lev p l) j = Some x -> sum_ok f (j * level_pages l) ((j + 1) * level_pages l) x.

Definition tree_ok (p : PageAlloc) (f : Z -> bool) : Prop := forall l, 0 <= l < 5 -> level_ok p f l.

(** Chunks that were never activated are still zero. *)
Definition fresh (p : PageAlloc) : Prop :=
  forall c b, end_chunk p <= c -> idx (chunk_store p) c = Some b -> b = page_bits_zero.

Record pa_inv (p : PageAlloc) : Prop := {
  inv_geo : geometry p;
  inv_tree : tree_ok p (gfree p);
  inv_fresh : fresh p
}.

(** [p'] differs from [p] in its summaries only. *)
Record same_store (p p' : PageAlloc) : Prop := {
  ss_store : chunk_store p' = chunk_store p;
  ss_cap : chunks_capacity p' = chunks_capacity p;
  ss_base : arena_base p' = arena_base p;
  ss_start : start_chunk p' = start_chunk p;
  ss_end : end_chunk p' = end_chunk p;
  ss_levels : zlen (summary p') = zlen (summary p);
  ss_len : forall l, summary_len p' l = summary_len p l
}.

#[export] Instance same_store_refl : Reflexive same_store.
Proof. by intros p. Qed.

#[export] Instance same_store_trans : Transitive same_store.
Proof. intros p q r [] []. split; congruence. Qed.

Lemma same_store_geometry p p' : same_store p p' -> geometry p -> geometry p'.
Proof.
  intros [H1 H2 H3 H4 H5 H6 H7] G. split; rewrite ?H1, ?H2, ?H3, ?H4, ?H5, ?H6; try apply G;
    intros; rewrite ?H2, H7; by apply G.
Qed.

Lemma same_store_chunks p p' : same_store p p' -> chunks p' = chunks p.
Proof. intros H. unfold chunks. by rewrite (ss_store _ _ H), (ss_end _ _ H). Qed.

Lemma same_store_gfree p p' : same_store p p' -> gfree p' = gfree p.
Proof. intros H. unfold gfree. by rewrite (same_store_chunks _ _ H). Qed.

Lemma same_store_fresh p p' : same_store p p' -> fresh p -> fresh p'.
Proof. intros H F c b. rewrite (ss_end _ _ H), (ss_store _ _ H). apply F. Qed.

Lemma summary_len_lev p l : summary_len p l = zlen (lev p l).
Proof. done. Qed.

Lemma lev_idx p l : zlen (summary p) = 5 -> 0 <= l < 5 -> idx (summary p) l = Some (lev p l).
Proof. intros Hl Hb. unfold lev. destruct (idx_lt (summary p) l) as [x ->]; [lia|done]. Qed.

Lemma level_pages_pos l : 0 <= l < 5 -> 2 ^ 9 <= level_pages l <= 2 ^ 21.
Proof. intros Hl. destruct (level_geometry l Hl) as (_ & H & _). unfold level_pages.
  split; apply Z.pow_le_mono_r; lia. Qed.

Lemma level_pages_child l : 0 <= l < 4 -> level_pages l = 8 * level_pages (l + 1).
Proof.
  intros Hl. destruct (level_geometry l ltac:(unfold SUMMARY_LEVELS; lia)) as (_ & _ & _ & H).
  destruct (H ltac:(lia)) as [E' E]. unfold level_pages. rewrite E'.
  destruct (level_geometry (l + 1) ltac:(unfold SUMMARY_LEVELS; lia)) as (_ & ? & _).
  rewrite E, Z.pow_add_r by lia. lia.
Qed.

Lemma level_bits_child l : 0 <= l < 4 -> level_bits (l + 1) = 3.
Proof. intros Hl. destruct (level_geometry l ltac:(unfold SUMMARY_LEVELS; lia)) as (_ & _ & _ & H). apply H. lia. Qed.

Lemma set_summary_ok p l i x : zlen (summary p) = 5 -> 0 <= l < 5 -> 0 <= i < summary_len p l ->
  exists p', set_summary p l i x = Some p' /\ same_store p p' /\
    (forall j, 0 <= j -> idx (lev p' l) j = if decide (i = j) then Some x else idx (lev p l) j) /\
    (forall l', 0 <= l' -> l' <> l -> lev p' l' = lev p l').
Proof.
  intros H5 Hl Hi. unfold set_summary. rewrite lev_idx by done. cbn [mbind option_bind].
  rewrite upd_Some by done. cbn [mbind option_bind]. rewrite upd_Some by lia. cbn [mbind option_bind].
  eexists. split; [done|].
  assert (forall l', 0 <= l' -> lev (with_summary p (<[Z.to_nat l:=<[Z.to_nat i:=x]> (lev p l)]> (summary p))) l' =
            if decide (l = l') then <[Z.to_nat i:=x]> (lev p l) else lev p l') as Hlev.
  { intros l' Hl'. unfold lev. cbn [summary with_summary]. rewrite idx_insert by (done || lia). by case_decide. }
  split; [|split].
  - split; try done; [cbn [summary with_summary]; by rewrite zlen_insert|]. intros l'. rewrite !summary_len_lev.
    destruct (decide (0 <= l')).
    + rewrite Hlev by done. case_decide; [subst; by rewrite zlen_insert|done].
    + unfold lev, idx. by rewrite !decide_False by done.
  - intros j Hj. rewrite Hlev by lia. rewrite decide_True by done. by rewrite idx_insert by done.
  - intros l' Hl' Hne. rewrite Hlev by done. by rewrite decide_False by done.
Qed.

(** ** Parents from children *)

Lemma shl64_8 i : 0 <= i -> 8 * i < 2 ^ 64 -> shl64 i 3 = 8 * i.
Proof. intros. rewrite shl64_small by lia. lia. Qed.

(** The eight children of entry [i], merged, describe the parent's region. *)
Lemma children_merge p f l i : geometry p -> 0 <= l < 4 -> level_ok p f (l + 1) ->
  0 <= i -> 8 * i + 8 <= summary_len p (l + 1) ->
  exists sums merged, slice (lev p (l + 1)) (8 * i) (8 * i + 8) = Some sums /\
    merge_summaries sums (level_log_pages (l + 1)) = Some merged /\
    sum_ok f (i * level_pages l) ((i + 1) * level_pages l) merged.
Proof.
  intros G Hl Hok Hi Hlen. rewrite summary_len_lev in Hlen.
  destruct (slice_Some (lev p (l + 1)) (8 * i) (8 * i + 8)) as (sums & Hs & Hz & Hidx); [lia|lia|lia|].
  destruct (level_geometry (l + 1) ltac:(unfold SUMMARY_LEVELS; lia)) as (_ & Hlp & _).
  pose proof (level_pages_child l Hl) as Hpg. pose proof (level_pages_pos l ltac:(lia)).
  destruct (merge_summaries_ok f (i * level_pages l) sums (level_log_pages (l + 1))) as (y & Hy & Hok').
  - lia.
  - lia.
  - fold (level_pages (l + 1)). change MAX_PACKED_VALUE with (2 ^ 21). lia.
  - fold (level_pages (l + 1)). intros k x Hk. pose proof (idx_range _ _ _ Hk).
    rewrite Hidx in Hk by lia. specialize (Hok _ _ Hk).
    replace (i * level_pages l + k * level_pages (l + 1)) with ((8 * i + k) * level_pages (l + 1)) by lia.
    by replace (i * level_pages l + (k + 1) * level_pages (l + 1)) with ((8 * i + k + 1) * level_pages (l + 1)) by lia.
  - exists sums, y. split; [done|]. split; [done|]. fold (level_pages (l + 1)) in Hok'.
    by replace ((i + 1) * level_pages l) with (i * level_pages l + zlen sums * level_pages (l + 1)) by lia.
Qed.

(** An entry whose children lie past the array is past the arena's capacity. *)
Lemma beyond_children p l i : geometry p -> 0 <= l < 4 -> 0 <= i -> summary_len p (l + 1) < 8 * i + 8 ->
  chunks_capacity p * 512 <= i * level_pages l.
Proof.
  intros G Hl Hi H. pose proof (geo_cover _ G (l + 1) ltac:(lia)). pose proof (geo_blocks _ G (l + 1) ltac:(lia)).
  rewrite (level_pages_child l Hl). pose proof (level_pages_pos (l + 1) ltac:(lia)).
  assert (summary_len p (l + 1) <= 8 * i) by lia. nia.
Qed.

Lemma gfree_beyond p g : geometry p -> chunks_capacity p * 512 <= g -> gfree p g = false.
Proof.
  intros G Hg. unfold gfree. case_decide; [|done].
  destruct (idx (chunks p) (g / 512)) as [b|] eqn:E; [|done]. exfalso.
  apply idx_range in E. unfold chunks, zlen in E. rewrite length_take in E.
  pose proof (geo_end _ G). lia.
Qed.

(** ** Recomputing a range of parents *)

(** After the parents [lo, k) of level [l] were recomputed from level [l + 1]. *)
Record recomputed (p0 : PageAlloc) (g : Z -> bool) (l lo k : Z) (p : PageAlloc) : Prop := {
  rc_store : same_store p0 p;
  rc_other : forall l', 0 <= l' -> l' <> l -> lev p l' = lev p0 l';
  rc_done : forall j x, lo <= j < k -> idx (lev p l) j = Some x ->
              sum_ok g (j * level_pages l) ((j + 1) * level_pages l) x;
  rc_rest : forall j, ~ (lo <= j < k) -> idx (lev p l) j = idx (lev p0 l) j
}.

Lemma recomputed_start p g l lo : recomputed p g l lo lo p.
Proof. split; [done|done|lia|done]. Qed.

(** Writing the right summary at [k] extends the recomputed range. *)
Lemma recomputed_set p0 g l lo k p x : geometry p0 -> 0 <= l < 5 -> 0 <= lo <= k -> k < summary_len p0 l ->
  recomputed p0 g l lo k p -> sum_ok g (k * level_pages l) ((k + 1) * level_pages l) x ->
  exists p', set_summary p l k x = Some p' /\ recomputed p0 g l lo (k + 1) p'.
Proof.
  intros G Hl Hlo Hk [Hs Ho Hd Hr] Hx.
  destruct (set_summary_ok p l k x) as (p' & E & S' & Hl' & Ho').
  - rewrite (ss_levels _ _ Hs). apply G.
  - done.
  - rewrite (ss_len _ _ Hs). lia.
  - exists p'. split; [done|]. split.
    + by transitivity p.
    + intros l' ? ?. by rewrite Ho', Ho by done.
    + intros j y Hj Hy. rewrite Hl' in Hy by lia. case_decide as E'; [naive_solver|].
      apply Hd; [lia|done].
    + intros j Hj. destruct (decide (0 <= j)).
      * rewrite Hl' by done. case_decide; [lia|]. apply Hr. lia.
      * unfold idx. by rewrite !decide_False by done.
Qed.

Lemma recomputed_keep p0 g l lo k p x : recomputed p0 g l lo k p -> lo <= k ->
  idx (lev p l) k = Some x -> sum_ok g (k * level_pages l) ((k + 1) * level_pages l) x ->
  recomputed p0 g l lo (k + 1) p.
Proof.
  intros [Hs Ho Hd Hr] Hlo Hk Hx. split; [done|done| |].
  - intros j y Hj Hy. destruct (decide (j = k)) as [->|]; [naive_solver|]. apply Hd; [lia|done].
  - intros j Hj. apply Hr. lia.
Qed.

(** The children of entry [i], seen through a state that only level [l] changed of. *)
Lemma recomputed_children p0 g l lo k p i : geometry p0 -> 0 <= l < 4 -> level_ok p0 g (l + 1) ->
  recomputed p0 g l lo k p -> 0 <= i -> 8 * i + 8 <= summary_len p0 (l + 1) ->
  shl64 i (level_bits (l + 1)) = 8 * i /\ shl64 1 (level_bits (l + 1)) = 8 /\
  summary_len p (l + 1) = summary_len p0 (l + 1) /\
  idx (summary p) (l + 1) = Some (lev p0 (l + 1)) /\
  exists sums merged, slice (lev p0 (l + 1)) (8 * i) (8 * i + 8) = Some sums /\
    merge_summaries sums (level_log_pages (l + 1)) = Some merged /\
    sum_ok g (i * level_pages l) ((i + 1) * level_pages l) merged.
Proof.
  intros G Hl Hok R Hi Hlen. rewrite level_bits_child by done.
  pose proof (geo_upper _ G (l + 1) ltac:(lia)) as Hup. pose proof (level_pages_pos (l + 1) ltac:(lia)).
  rewrite shl64_8 by nia. rewrite (ss_len _ _ (rc_store _ _ _ _ _ _ R)).
  split; [done|]. split; [done|]. split; [done|]. split.
  - rewrite lev_idx; [by rewrite (rc_other _ _ _ _ _ _ R) by lia| |lia].
    rewrite (ss_levels _ _ (rc_store _ _ _ _ _ _ R)). apply G.
  - by apply children_merge.
Qed.

Lemma update_parents_ok p0 g l lo hi : geometry p0 -> 0 <= l < 4 -> level_ok p0 g (l + 1) ->
  0 <= lo <= hi -> 8 * hi <= summary_len p0 (l + 1) -> hi <= summary_len p0 l ->
  exists p ch, for_range lo hi (update_parent l) (p0, false) = Some (p, ch) /\
    recomputed p0 g l lo hi p /\ (ch = false -> lev p l = lev p0 l).
Proof.
  intros G Hl Hok Hlo H8 Hlen.
  set (I := fun (k : Z) (st : PageAlloc * bool) =>
              recomputed p0 g l lo k st.1 /\ (st.2 = false -> lev st.1 l = lev p0 l)).
  destruct (for_range_inv I lo hi (update_parent l) (p0, false)) as ([p ch] & E & HI).
  - lia.
  - split; [apply recomputed_start|done].
  - intros k [p ch] Hk [R Hch]. cbn [fst snd] in *. unfold update_parent.
    destruct (recomputed_children p0 g l lo k p k G Hl Hok R ltac:(lia) ltac:(lia))
      as (-> & -> & -> & -> & sums & merged & Hs & Hm & Hx).
    rewrite decide_False by lia. cbn [mbind option_bind]. rewrite Hs. cbn [mbind option_bind].
    rewrite Hm. cbn [mbind option_bind].
    rewrite (lev_idx p l) by (rewrite ?(ss_levels _ _ (rc_store _ _ _ _ _ _ R)); (apply G || lia)).
    cbn [mbind option_bind].
    destruct (idx_lt (lev p l) k) as [old Hold].
    { rewrite <- summary_len_lev, (ss_len _ _ (rc_store _ _ _ _ _ _ R)). lia. }
    rewrite Hold. cbn [mbind option_bind]. case_decide as Hne.
    + destruct (recomputed_set p0 g l lo k p merged G ltac:(lia) ltac:(lia) ltac:(lia) R Hx) as (p' & -> & R').
      exists (p', true). split; [done|]. split; [done|done].
    + exists (p, ch). split; [done|]. split; [|done]. apply (recomputed_keep p0 g l lo k p old); [done|lia|done|].
      destruct (decide (old = merged)); [by subst|done].
  - exists p, ch. split; [done|]. destruct HI. done.
Qed.

Lemma recomputed_level_ok p0 f g l lo hi p : geometry p0 -> 0 <= l < 5 -> recomputed p0 g l lo hi p ->
  level_ok p0 f l ->
  (forall j, 0 <= j -> ~ (lo <= j < hi) ->
     forall k, j * level_pages l <= k < (j + 1) * level_pages l -> f k = g k) ->
  level_ok p g l.
Proof.
  intros G Hl R Hf Hag j x Hx. destruct (decide (lo <= j < hi)).
  - by apply (rc_done _ _ _ _ _ _ R).
  - rewrite (rc_rest _ _ _ _ _ _ R) in Hx by done. pose proof (idx_range _ _ _ Hx).
    eapply sum_ok_ext; [|by apply Hf]. apply Hag; [lia|done].
Qed.

(** If level [l + 1] is right for both page maps, so is every level above it that is right for
    one: the argument behind [update]'s early exit. *)
Lemma level_lift p f g l : geometry p -> 0 <= l < 4 ->
  (forall k, chunks_capacity p * 512 <= k -> f k = g k) ->
  level_ok p f (l + 1) -> level_ok p g (l + 1) -> level_ok p f l -> level_ok p g l.
Proof.
  intros G Hl Hcap Hf1 Hg1 Hf j x Hx. pose proof (idx_range _ _ _ Hx).
  destruct (decide (8 * j + 8 <= summary_len p (l + 1))).
  - destruct (children_merge p f l j G Hl Hf1) as (sums & m & Hs & Hm & Hok); [lia|done|].
    destruct (children_merge p g l j G Hl Hg1) as (sums' & m' & Hs' & Hm' & Hok'); [lia|done|].
    rewrite Hs in Hs'. injection Hs' as <-. rewrite Hm in Hm'. injection Hm' as <-.
    specialize (Hf j x Hx). by rewrite (sum_ok_unique _ _ _ _ _ Hf Hok).
  - pose proof (beyond_children p l j G Hl ltac:(lia) ltac:(lia)).
    eapply sum_ok_ext; [|by apply Hf]. intros k Hk. apply Hcap. lia.
Qed.

(** ** Leaves *)

Lemma chunk_at p c : geometry p -> 0 <= c < end_chunk p ->
  exists b, idx (chunks p) c = Some b /\ idx (chunk_store p) c = Some b /\ wf_bits b.
Proof.
  intros G Hc. destruct (idx_lt (chunk_store p) c) as [b Hb].
  { rewrite (geo_store _ G). pose proof (geo_end _ G). lia. }
  exists b. split; [|split; [done|]].
  - apply idx_Some in Hb as [? Hb]. apply idx_Some. split; [lia|]. unfold chunks.
    by rewrite lookup_take_lt by lia.
  - apply idx_Some in Hb as [_ Hb]. eapply Forall_lookup_1; [apply (geo_wf _ G)|done].
Qed.

Lemma gfree_chunk p c b k : idx (chunks p) c = Some b -> 0 <= c -> 0 <= k < 512 ->
  gfree p (c * 512 + k) = free_page b k.
Proof.
  intros Hb Hc Hk. unfold gfree. rewrite decide_True by lia.
  replace ((c * 512 + k) / 512) with c by lia. rewrite Hb. f_equal. lia.
Qed.

Lemma leaf_ok p c b : idx (chunks p) c = Some b -> 0 <= c -> wf_bits b ->
  sum_ok (gfree p) (c * level_pages 4) ((c + 1) * level_pages 4) (summarize b).
Proof.
  intros Hb Hc Hw. destruct (summarize_ok b Hw) as (s & m & e & H & ->). exists s, m, e. split; [|done].
  apply (so_shift _ _ _ _ _ _ (c * 512)) in H. change (level_pages 4) with 512.
  replace (0 + c * 512) with (c * 512) in H by lia. replace ((c + 1) * 512) with (512 + c * 512) by lia.
  eapply so_ext; [|exact H]. intros k Hk. cbn.
  rewrite <- (gfree_chunk p c b) by (done || lia). f_equal. lia.
Qed.

(** [for ci in lo..hi { refresh }]. *)
Lemma refresh_leaves_ok p0 lo hi : geometry p0 -> 0 <= lo <= hi -> hi <= end_chunk p0 ->
  exists p, for_range lo hi refresh_leaf p0 = Some p /\ recomputed p0 (gfree p0) 4 lo hi p.
Proof.
  intros G Hlo Hhi. apply (for_range_inv (fun k p => recomputed p0 (gfree p0) 4 lo k p)); [lia| |].
  - apply recomputed_start.
  - intros c p Hc R. unfold refresh_leaf. rewrite (same_store_chunks _ _ (rc_store _ _ _ _ _ _ R)).
    destruct (chunk_at p0 c G ltac:(lia)) as (b & Hb & _ & Hw). rewrite Hb. cbn [mbind option_bind].
    apply (recomputed_set p0 (gfree p0) 4 lo c p); [done|lia|lia| |done|by apply leaf_ok; [|lia|]].
    pose proof (geo_cover _ G 4 ltac:(lia)) as Hc4. change (level_pages 4) with 512 in Hc4.
    pose proof (geo_end _ G). lia.
Qed.

(** ** [update] *)

(** The levels from [n - 1] down to the root. *)
Fixpoint levels_down (n : nat) : list Z :=
  match n with O => [] | S n => Z.of_nat n :: levels_down n end.

Lemma lift_all p f g : geometry p -> (forall k, chunks_capacity p * 512 <= k -> f k = g k) ->
  forall n, Z.of_nat n < 5 -> (forall l, 0 <= l <= Z.of_nat n -> level_ok p f l) -> level_ok p g (Z.of_nat n) ->
  forall l, 0 <= l <= Z.of_nat n -> level_ok p g l.
Proof.
  intros G Hcap. induction n as [|n IH]; intros Hn Hf Hg l Hl.
  - by replace l with (Z.of_nat 0) by lia.
  - destruct (decide (l = Z.of_nat (S n))) as [->|]; [done|].
    apply IH; [lia|intros; apply Hf; lia| |lia].
    replace (Z.of_nat (S n)) with (Z.of_nat n + 1) in * by lia.
    apply (level_lift p f g); [done|lia|done| |done|]; apply Hf; lia.
Qed.

Section update.
  Context (f g : Z -> bool) (P n : Z) (HP : 0 <= P) (Hn : 1 <= n).
  Context (Hag : forall k, ~ (P <= k < P + n) -> f k = g k).

Lemma page_level_index p l q : geometry p -> 0 <= l < 5 -> 0 <= q < 2 ^ 48 ->
    addr_to_level_index p l (arena_base p + q) = q / (level_pages l * 8192).
  Proof.
    intros G Hl Hq. unfold addr_to_level_index. destruct (geo_base _ G) as (Hb1 & _ & Hb2).
    rewrite sub64_small by lia. replace (arena_base p + q - arena_base p) with q by lia.
    destruct (level_geometry l Hl) as (-> & ? & _). rewrite shr64_div by (unfold PAGE_SHIFT; lia).
    rewrite Z.pow_add_r by (unfold PAGE_SHIFT; lia). done.
  Qed.

  (** The parents the walk visits at level [l]: those whose region meets [P, P + n). *)
Lemma walk_range p l : geometry p -> 0 <= l < 5 -> P + n <= chunks_capacity p * 512 ->
    let base := arena_base p + P * 8192 in
    let limit := arena_base p + ((P + n) * 8192 - 1) in
    addr_to_level_index p l base = P / level_pages l /\
    addr_to_level_index p l limit = (P + n - 1) / level_pages l.
  Proof.
    intros G Hl Hcap base limit. pose proof (geo_cap _ G). pose proof (level_pages_pos l Hl).
    unfold base, limit. rewrite !page_level_index by (done || lia). split.
    - rewrite Z.div_mul_cancel_r; lia.
    - rewrite (Z.mul_comm (level_pages l)), <- Z.div_div by lia. f_equal. lia.
  Qed.

Lemma update_levels_ok base limit : forall m p,
    Z.of_nat m < 5 -> geometry p -> P + n <= chunks_capacity p * 512 ->
    base = arena_base p + P * 8192 -> limit = arena_base p + ((P + n) * 8192 - 1) ->
    (forall l, 0 <= l < Z.of_nat m -> level_ok p f l) ->
    (forall l, Z.of_nat m <= l < 5 -> level_ok p g l) ->
    exists p', update_levels (levels_down m) base limit p = Some p' /\ same_store p p' /\ tree_ok p' g.
  Proof.
    induction m as [|m IH]; intros p Hm G Hcap Hbase Hlimit Hf Hg; cbn [levels_down update_levels].
    { exists p. split; [done|]. split; [done|]. intros l Hl. apply Hg. lia. }
    set (l := Z.of_nat m) in *. destruct (walk_range p l G ltac:(lia) Hcap) as [Elo Ehi].
    rewrite Hbase, Hlimit, Elo, Ehi.
    pose proof (level_pages_pos l ltac:(lia)) as Hpg. pose proof (level_pages_child l ltac:(lia)) as Hch.
    pose proof (geo_cover _ G l ltac:(lia)) as Hc1. pose proof (geo_cover _ G (l + 1) ltac:(lia)) as Hc2.
    pose proof (geo_blocks _ G (l + 1) ltac:(lia)) as Hb8.
    assert (0 <= P / level_pages l) by (apply Z.div_pos; lia).
    assert (P / level_pages l <= (P + n - 1) / level_pages l) by (apply Z.div_le_mono; lia).
    set (hi := (P + n - 1) / level_pages l) in *.
    assert (hi * level_pages l <= P + n - 1) by (unfold hi; pose proof (Z.mul_div_le (P + n - 1) (level_pages l)); lia).
    assert (hi + 1 <= summary_len p l) by nia.
    assert (8 * (hi + 1) <= summary_len p (l + 1)).
    { assert (8 * hi < summary_len p (l + 1)) by nia. lia. }
    destruct (update_parents_ok p g l (P / level_pages l) (hi + 1)) as (p1 & ch & -> & R & Hch1);
      [done|lia|apply Hg; lia|lia|done|done|].
    cbn [mbind option_bind]. pose proof (rc_store _ _ _ _ _ _ R) as Hss.
    assert (level_ok p1 g l) as Hlg.
    { apply (recomputed_level_ok p f g l (P / level_pages l) (hi + 1)); [done|lia|done|apply Hf; lia|].
      intros j Hj Hout k Hk. apply Hag. intros Hkr. apply Hout. split.
      - assert (P / level_pages l < j + 1); [|lia]. apply Z.div_lt_upper_bound; lia.
      - assert (j <= hi); [|lia]. unfold hi. apply Z.div_le_lower_bound; lia. }
    assert (forall l', 0 <= l' -> l' <> l -> forall h, level_ok p h l' -> level_ok p1 h l') as Hoth.
    { intros l' ? ? h Hh. unfold level_ok. rewrite (rc_other _ _ _ _ _ _ R) by done. exact Hh. }
    assert (forall l', l <= l' < 5 -> level_ok p1 g l') as Hg1.
    { intros l' Hl'. destruct (decide (l' = l)) as [->|]; [done|]. apply Hoth; [lia|done|]. apply Hg. lia. }
    destruct ch.
    - destruct (IH p1) as (p' & E & Hss' & Hok); [lia|by eapply same_store_geometry| | | | |done|].
      + by rewrite (ss_cap _ _ Hss).
      + by rewrite (ss_base _ _ Hss).
      + by rewrite (ss_base _ _ Hss).
      + intros l' Hl'. apply Hoth; [lia|lia|]. apply Hf. lia.
      + rewrite Hbase, Hlimit in E. exists p'. split; [done|]. split; [by transitivity p1|done].
    - exists p1. split; [done|]. split; [done|]. intros l' Hl'.
      destruct (decide (l <= l')); [apply Hg1; lia|].
      assert (geometry p1) as G1 by (by eapply same_store_geometry).
      apply (lift_all p1 f g G1 ltac:(intros k Hk; apply Hag; rewrite (ss_cap _ _ Hss) in Hk; lia) m);
        [lia| |exact Hlg|lia].
      intros l2 Hl2. destruct (decide (l2 = l)) as [->|].
      + unfold level_ok. rewrite (Hch1 eq_refl). apply Hf. lia.
      + apply Hoth; [lia|done|]. apply Hf. lia.
  Qed.
End update.

Lemma chunk_index_page p q : geometry p -> 0 <= q < 2 ^ 48 -> chunk_index p (arena_base p + q) = q / 2 ^ 22.
Proof.
  intros G Hq. unfold chunk_index. destruct (geo_base _ G) as (? & _ & ?).
  rewrite sub64_small by lia. change PALLOC_CHUNK_BYTES with (2 ^ 22). f_equal. lia.
Qed.

(** The address of the last byte of the run. *)
Lemma limit_addr p P n : geometry p -> 0 <= P -> 1 <= n -> P + n <= chunks_capacity p * 512 ->
  sub64 (add64 (arena_base p + P * 8192) (mul64 n PAGE_SIZE)) 1 = arena_base p + ((P + n) * 8192 - 1).
Proof.
  intros G HP Hn Hcap. pose proof (geo_cap _ G). destruct (geo_base _ G) as (? & _ & ?).
  change PAGE_SIZE with 8192. rewrite mul64_small, add64_small, sub64_small by lia. lia.
Qed.

(** [update] restores the tree after the bitmaps of [P, P + n) changed. *)
Lemma update_ok p f P n : geometry p -> tree_ok p f -> 0 <= P -> 1 <= n -> P + n <= end_chunk p * 512 ->
  (forall k, ~ (P <= k < P + n) -> f k = gfree p k) ->
  exists p', update p (arena_base p + P * 8192) n = Some p' /\ same_store p p' /\ tree_ok p' (gfree p).
Proof.
  intros G Hf HP Hn Hend Hag. unfold update. pose proof (geo_end _ G). pose proof (geo_cap _ G).
  rewrite limit_addr by (done || lia). rewrite !chunk_index_page by (done || lia).
  destruct (refresh_leaves_ok p (P * 8192 / 2 ^ 22) (((P + n) * 8192 - 1) / 2 ^ 22 + 1)) as (p1 & -> & R);
    [done|lia|lia|]. cbn [mbind option_bind].
  pose proof (rc_store _ _ _ _ _ _ R) as Hss.
  change [3; 2; 1; 0] with (levels_down 4).
  destruct (update_levels_ok f (gfree p) P n HP Hn Hag (arena_base p + P * 8192) (arena_base p + ((P + n) * 8192 - 1)) 4 p1)
    as (p' & -> & Hss' & Hok).
  - done.
  - by eapply same_store_geometry.
  - rewrite (ss_cap _ _ Hss). lia.
  - by rewrite (ss_base _ _ Hss).
  - by rewrite (ss_base _ _ Hss).
  - intros l Hl. unfold level_ok. rewrite (rc_other _ _ _ _ _ _ R) by lia. apply Hf. lia.
  - intros l Hl. replace l with 4 by lia.
    eapply (recomputed_level_ok p f (gfree p)); [done|lia|exact R|apply Hf; lia|].
    intros j Hj Hout k Hk. apply Hag. change (level_pages 4) with 512 in Hk. lia.
  - exists p'. split; [done|]. split; [by transitivity p1|done].
Qed.
