(* ===== verification/PageAllocFind.v ===== *)
(** The radix-tree descent is first fit: the correctness of [PageAlloc::find] of
    src/src/runtime/mheap/page_alloc.rs.

    Scanning one block of summaries either finds the first run that crosses summaries,
    or the one child that holds the first fit, or shows there is none; five such scans and
    a bitmap search return the lowest address with enough free pages. *)
From Stdlib Require Import ZArith Lia.
From stdpp Require Import base tactics numbers list list_numbers option.
From S2P Require Import Prelude Runs MheapConsts PallocSum PallocBits PallocFind PageAlloc PageAllocTree.
Open Scope Z_scope.

Section scan.
  Context (f : Z -> bool) (n logp i : Z).
  Context (Hn : 1 <= n) (Hlogp : 0 <= logp <= 21).
  Abbreviation W := (2 ^ logp).

  (** What scanning the block from entry [i] up to entry [e] promises. *)
Definition scan_ok (e : Z) (r : scan_result) : Prop :=
    match r with
    | Done base size =>
        (size < n /\ no_run f (i * W) (e * W) n) \/
        (n <= size /\ 0 <= base < 2 ^ 36 /\ first_run f (i * W) (e * W) n (i * W + base))
    | Descend j =>
        i <= j < e /\ ~ no_run f (j * W) ((j + 1) * W) n /\
        (forall P, first_run f (j * W) ((j + 1) * W) n P -> first_run f (i * W) (e * W) n P)
    end.

Lemma find_scan_ok : forall entries j base size,
    i <= j -> j + zlen entries <= i + 2 ^ 14 ->
    (forall k x, idx entries k = Some x -> sum_ok f ((j + k) * W) ((j + k + 1) * W) x) ->
    tail_run f (i * W) (j * W) size -> no_run f (i * W) (j * W) n ->
    (0 < size -> base = (j - i) * W - size) ->
    scan_ok (j + zlen entries) (find_scan entries n logp i j base size).
  Proof.
    assert (0 < W <= 2 ^ 21) as HW by (split; [lia|apply Z.pow_le_mono_r; lia]).
    induction entries as [|x entries IH]; intros j base size Hj Hlen Hent Ht Hno Hbase; cbn [find_scan].
    { left. pose proof (no_run_lt _ _ _ _ _ Ht Hno). split; [done|]. by rewrite Z.add_0_r. }
    pose proof (Hent 0 x eq_refl) as Hx. rewrite !Z.add_0_r in Hx.
    assert (zlen (x :: entries) = 1 + zlen entries) as Hz by (unfold zlen; cbn; lia). rewrite Hz in *.
    assert (0 <= zlen entries) by (unfold zlen; lia).
    assert ((j + 1) * W - j * W = W) as HWW by lia.
    assert (forall b' s', tail_run f (i * W) ((j + 1) * W) s' -> no_run f (i * W) ((j + 1) * W) n ->
              (0 < s' -> b' = (j + 1 - i) * W - s') ->
              scan_ok (j + (1 + zlen entries)) (find_scan entries n logp i (j + 1) b' s')) as IH'.
    { intros b' s' ? ? ?. replace (j + (1 + zlen entries)) with (j + 1 + zlen entries) by lia.
      apply IH; try done; [lia|lia|]. intros k y Hy. replace (j + 1 + k) with (j + (1 + k)) by lia. apply Hent.
      apply idx_Some in Hy as [? Hy]. apply idx_Some. split; [lia|].
      by replace (Z.to_nat (1 + k)) with (S (Z.to_nat k)) by lia. }
    assert ((j + 1) * W - j * W <= MAX_PACKED_VALUE) as Hsz by (change MAX_PACKED_VALUE with (2 ^ 21); lia).
    unfold sum_raw. case_decide as Hraw.
    { subst x. apply sum_ok_raw_zero in Hx; [|done]. apply IH'; [|eapply no_run_extend|lia].
      - apply (tail_run_reset _ _ (j * W)); [eapply so_tail; exact Hx|lia|nia].
      - exact Ht.
      - exact Hno.
      - eapply so_head; exact Hx.
      - eapply so_no_run; [exact Hx|lia].
      - pose proof (no_run_lt _ _ _ _ _ Ht Hno). lia. }
    apply sum_ok_unpack in Hx; [|done]. revert Hx.
    generalize (sum_start x), (sum_max x), (sum_end x). intros s m e Hx.
    pose proof (so_start_bnd _ _ _ _ _ _ Hx) as Hsb. pose proof (so_end_bnd _ _ _ _ _ _ Hx) as Heb.
    pose proof (so_head _ _ _ _ _ _ Hx) as Hhead. pose proof (so_tail _ _ _ _ _ _ Hx) as Htail.
    cbn zeta. assert (0 <= j - i <= 2 ^ 14) by lia.
    assert (0 <= (j - i) * W <= 2 ^ 35) by nia.
    assert (shl64 1 logp = W) as -> by (rewrite shl64_small; lia).
    case_decide as Hge.
    { right. destruct Ht as (Htb & Rt & Hts).
      assert ((if decide (size = 0) then shl64 (j - i) logp else base) = (j - i) * W - size) as ->.
      { case_decide; [rewrite shl64_small by lia; lia|apply Hbase; lia]. }
      split; [lia|]. split; [nia|].
      replace (i * W + ((j - i) * W - size)) with (j * W - size) by lia.
      apply first_from_tail; [done|done|done| |].
      - eapply run_sub; [apply Hhead|lia|lia].
      - pose proof (no_run_lt _ _ _ _ _ (conj Htb (conj Rt Hts)) Hno). nia. }
    case_decide as Hmax.
    { split; [lia|]. split.
      - destruct (so_max_run _ _ _ _ _ _ Hx) as (q & ? & ? & R). intros Hnr.
        apply (Hnr q); [lia|lia|]. eapply run_sub; [exact R|lia|lia].
      - intros P HP. eapply (first_in_block f (i * W) (j * W) ((j + 1) * W)); try done; [lia|nia|nia]. }
    assert (no_run f (i * W) ((j + 1) * W) n) as Hno'.
    { eapply no_run_extend; [exact Ht|exact Hno|exact Hhead| |lia]. eapply so_no_run; [exact Hx|lia]. }
    case_decide as Hcase.
    - apply IH'; [|done|].
      + destruct (decide (e < W)); [apply (tail_run_reset _ _ (j * W)); [done|lia|nia]|].
        destruct Hcase as [->|?].
        * replace e with (0 + ((j + 1) * W - j * W)) by lia. apply tail_run_grow; [done|lia|].
          eapply run_sub; [apply (so_end_run _ _ _ _ _ _ Hx)|lia|lia].
        * exfalso. assert (e = (j + 1) * W - j * W) by lia.
          pose proof (so_start_top _ _ _ _ _ _ ((j + 1) * W - j * W) Hx) as Hst.
          assert (run f (j * W) ((j + 1) * W - j * W)) as R.
          { eapply run_sub; [apply (so_end_run _ _ _ _ _ _ Hx)|lia|lia]. }
          specialize (Hst R ltac:(lia)). lia.
      + intros _. rewrite shl64_small by nia. lia.
    - apply IH'; [|done|].
      + replace (size + W) with (size + ((j + 1) * W - j * W)) by lia. apply tail_run_grow; [done|lia|].
        eapply run_sub; [apply Hhead|lia|lia].
      + intros _. destruct Ht. rewrite Hbase by lia. lia.
  Qed.
End scan.

Lemma first_run_shift f g n lo hi p d : (forall k, lo <= k < hi -> f k = g (k + d)) -> 1 <= n ->
  first_run f lo hi n p -> first_run g (lo + d) (hi + d) n (p + d).
Proof.
  intros E Hn (H1 & H2 & R & Hmin). split_and!; [lia|lia| |].
  - intros k Hk. replace k with (k - d + d) by lia. rewrite <- E by lia. apply R. lia.
  - intros q Hq1 Hq2 Rq. specialize (Hmin (q - d)). assert (p <= q - d); [|lia].
    apply Hmin; [lia|lia|]. intros k Hk. rewrite E by lia. apply Rq. lia.
Qed.

Section descent.
  Context (p : PageAlloc) (Hp : pa_inv p) (n : Z) (Hn : 1 <= n).
  Abbreviation f := (gfree p).

Lemma no_run_beyond lo hi : chunks_capacity p * 512 <= lo -> no_run f lo hi n.
  Proof.
    intros Hc q Hq1 Hq2 R. specialize (R q ltac:(lia)).
    rewrite gfree_beyond in R by (apply Hp || lia). done.
  Qed.

  (** The entries of a block, as the descent slices them. *)
Lemma block_entries l a c : 0 <= l < 5 -> 0 <= a -> 0 <= c -> a + c <= summary_len p l ->
    let es := take (Z.to_nat c) (drop (Z.to_nat a) (lev p l)) in
    zlen es = c /\
    forall k x, idx es k = Some x -> sum_ok f ((a + k) * level_pages l) ((a + k + 1) * level_pages l) x.
  Proof.
    intros Hl Ha Hc Hlen es. rewrite summary_len_lev in Hlen. unfold zlen in *. split.
    - unfold es. rewrite length_take, length_drop. lia.
    - intros k x Hk. apply idx_Some in Hk as [Hk0 Hk]. apply (inv_tree _ Hp l Hl).
      apply idx_Some. split; [lia|]. unfold es in Hk. apply lookup_take_Some in Hk as [Hk _].
      rewrite lookup_drop in Hk. rewrite <- Hk. f_equal. lia.
  Qed.

Lemma address_of l i base P : 0 <= l < 5 -> 0 <= i -> 0 <= base < 2 ^ 36 -> P = i * level_pages l + base ->
    P < chunks_capacity p * 512 ->
    add64 (add64 (arena_base p) (shl64 i (level_shift l))) (shl64 base PAGE_SHIFT) = arena_base p + P * 8192.
  Proof.
    intros Hl Hi Hb HP Hcap. destruct (level_geometry l Hl) as (-> & ? & _).
    destruct (geo_base _ (inv_geo _ Hp)) as (? & _ & ?). pose proof (geo_cap _ (inv_geo _ Hp)).
    pose proof (level_pages_pos l Hl). unfold level_pages in *.
    assert (2 ^ (level_log_pages l + PAGE_SHIFT) = 2 ^ level_log_pages l * 8192) as E.
    { rewrite Z.pow_add_r by (unfold PAGE_SHIFT; lia). done. }
    assert (i * 2 ^ (level_log_pages l + PAGE_SHIFT) = i * 2 ^ level_log_pages l * 8192) as E' by (rewrite E; ring).
    assert (0 <= i * 2 ^ level_log_pages l) by nia. set (a := i * 2 ^ level_log_pages l) in *.
    rewrite (shl64_small i) by (unfold PAGE_SHIFT in *; lia). rewrite (shl64_small base) by (unfold PAGE_SHIFT; lia).
    rewrite E'. change (2 ^ PAGE_SHIFT) with 8192. rewrite (add64_small (arena_base p)) by lia. rewrite add64_small by lia. lia.
  Qed.

  (** Below the root: a region known to hold a run yields its first one. *)
Lemma find_levels_ok : forall m l i, l + Z.of_nat m = 5 -> 1 <= l -> 0 <= i ->
    ~ no_run f (i * level_pages (l - 1)) ((i + 1) * level_pages (l - 1)) n ->
    exists P, find_levels (seqZ l (Z.of_nat m)) p n i = Some (arena_base p + P * 8192) /\
      first_run f (i * level_pages (l - 1)) ((i + 1) * level_pages (l - 1)) n P.
  Proof.
    pose proof (inv_geo _ Hp) as G.
    induction m as [|m IH]; intros l i Hlm Hl1 Hi Hrun.
    - replace l with 5 in * by lia. change (level_pages (5 - 1)) with 512 in *. cbn [seqZ fmap list_fmap seq find_levels].
      assert (i < end_chunk p) as Hie.
      { destruct (decide (i < end_chunk p)); [done|]. exfalso. apply Hrun. intros q Hq1 Hq2 R.
        specialize (R q ltac:(lia)). unfold gfree in R. rewrite decide_True in R by lia.
        destruct (idx (chunks p) (q / 512)) as [b|] eqn:E; [|done].
        apply idx_range in E. unfold chunks, zlen in E. rewrite length_take in E. lia. }
      destruct (chunk_at p i G ltac:(lia)) as (b & Hb & _ & Hw). change (seqZ 5 (Z.of_nat 0)) with (@nil Z).
      cbn [find_levels]. rewrite Hb. cbn [mbind option_bind].
      destruct (bits_find_ok b Hw n 0 Hn ltac:(lia)) as [Hf _]. change (0 / 64 * 64) with 0 in Hf.
      destruct (bits_find b n 0) as [j nsi]. cbn [fst] in Hf.
      assert (forall k, 0 <= k < 512 -> free_page b k = f (k + i * 512)) as Hsh.
      { intros k Hk. rewrite <- (gfree_chunk p i b) by (done || lia). f_equal. lia. }
      destruct Hf as [[-> Hno]|[Hj Hf]].
      + exfalso. apply Hrun. intros q Hq1 Hq2 R. apply (Hno (q - i * 512)); [lia|lia|].
        intros k Hk. rewrite Hsh by lia. apply R. lia.
      + rewrite decide_False by (unfold NO_INDEX, u64_max; lia). exists (j + i * 512). split.
        * f_equal. unfold chunk_base. change PALLOC_CHUNK_BYTES with 4194304. change PAGE_SIZE with 8192.
          destruct (geo_base _ G) as (? & _ & ?). pose proof (geo_cap _ G). pose proof (geo_end _ G).
          rewrite !mul64_small by lia. rewrite (add64_small (arena_base p)) by lia. rewrite add64_small by lia. lia.
        * replace (i * 512) with (0 + i * 512) at 1 by lia. replace ((i + 1) * 512) with (512 + i * 512) by lia.
          by apply (first_run_shift (free_page b)).
    - rewrite seqZ_cons by lia. replace (Z.pred (Z.of_nat (S m))) with (Z.of_nat m) by lia.
      cbn [find_levels]. assert (0 <= l < 5) as Hl by lia.
      assert (level_bits l = 3) as Hlb.
      { replace l with (l - 1 + 1) by lia. apply level_bits_child. lia. }
      assert (level_pages (l - 1) = 8 * level_pages l) as Hpg.
      { rewrite level_pages_child by lia. by replace (l - 1 + 1) with l by lia. }
      pose proof (level_pages_pos l Hl) as Hpos.
      assert (i * level_pages (l - 1) < chunks_capacity p * 512) as Hin.
      { destruct (decide (i * level_pages (l - 1) < chunks_capacity p * 512)); [done|].
        exfalso. apply Hrun. apply no_run_beyond. lia. }
      pose proof (geo_cover _ G l Hl) as Hcov. pose proof (geo_blocks _ G l ltac:(lia)) as H8.
      pose proof (geo_cap _ G).
      assert (8 * i + 8 <= summary_len p l) as Hlen by
        (assert (8 * i < summary_len p l) by (apply (Z.mul_lt_mono_pos_r (level_pages l)); lia); lia).
      assert (8 * i < 2 ^ 64) by nia.
      rewrite Hlb, shl64_8 by lia. change (shl64 1 3) with 8.
      rewrite lev_idx by (apply G || lia). cbn [mbind option_bind]. rewrite <- summary_len_lev.
      replace (Z.min (8 * i + 8) (summary_len p l) - 8 * i) with 8 by lia.
      destruct (block_entries l (8 * i) 8 Hl ltac:(lia) ltac:(lia) Hlen) as [Hez Hent].
      set (es := take (Z.to_nat 8) (drop (Z.to_nat (8 * i)) (lev p l))) in *.
      destruct (level_geometry l Hl) as (_ & Hlp & _).
      pose proof (find_scan_ok f n (level_log_pages l) (8 * i) Hn ltac:(lia) es (8 * i) 0 0) as Hs.
      rewrite Hez in Hs. unfold scan_ok in Hs. fold (level_pages l) in Hs.
      specialize (Hs ltac:(lia) ltac:(lia) Hent (tail_run_start _ _) (no_run_empty _ _ _ Hn) ltac:(lia)).
      replace (i * level_pages (l - 1)) with (8 * i * level_pages l) in * by lia.
      replace ((i + 1) * level_pages (l - 1)) with ((8 * i + 8) * level_pages l) in * by lia.
      destruct (find_scan es n (level_log_pages l) (8 * i) (8 * i) 0 0) as [j|base size].
      + destruct Hs as (Hj & Hjr & Hfirst).
        destruct (IH (l + 1) j) as (P & E & HP); [lia|lia|lia| |].
        * by replace (l + 1 - 1) with l by lia.
        * replace (l + 1 - 1) with l in HP by lia. exists P.
          replace (Z.succ l) with (l + 1) by lia. split; [exact E|by apply Hfirst].
      + destruct Hs as [[? Hno]|(Hsz & Hb & Hfirst)]; [exfalso; by apply Hrun|].
        rewrite decide_True by lia. exists (8 * i * level_pages l + base). split; [|done].
        f_equal. apply address_of; [done|lia|done|done|].
        destruct Hfirst as (Hf1 & Hf2 & R & _). destruct (decide (8 * i * level_pages l + base < chunks_capacity p * 512)); [done|].
        specialize (R (8 * i * level_pages l + base) ltac:(lia)). rewrite gfree_beyond in R by (done || lia). done.
  Qed.

  (** [find]: the lowest run of [n] free pages of the arena, or 0 when there is none. *)
Lemma find_ok :
    (find p n = Some ALLOC_FAILED /\ forall P, 0 <= P -> ~ run f P n) \/
    (exists P, find p n = Some (arena_base p + P * 8192) /\ 0 <= P /\ P + n <= end_chunk p * 512 /\
       run f P n /\ forall Q, 0 <= Q -> run f Q n -> P <= Q).
  Proof.
    pose proof (inv_geo _ Hp) as G.
    assert (forall Q, 0 <= Q -> run f Q n -> Q + n <= end_chunk p * 512) as Hbound.
    { intros Q HQ R. specialize (R (Q + n - 1) ltac:(lia)). unfold gfree in R. rewrite decide_True in R by lia.
      destruct (idx (chunks p) ((Q + n - 1) / 512)) as [b|] eqn:E; [|done].
      apply idx_range in E. unfold chunks, zlen in E. rewrite length_take in E. lia. }
    assert (end_chunk p * 512 <= 2 ^ 35) as H35 by (pose proof (geo_end _ G); pose proof (geo_cap _ G); lia).
    assert (forall P, first_run f 0 (2 ^ 35) n P -> 0 <= P /\ P + n <= end_chunk p * 512 /\ run f P n /\
              forall Q, 0 <= Q -> run f Q n -> P <= Q) as Hfin.
    { intros P (H1 & H2 & R & Hmin). split_and!; [done|by apply Hbound|done|].
      intros Q HQ RQ. pose proof (Hbound Q HQ RQ). apply Hmin; [done|lia|done]. }
    unfold find. change (seqZ 0 SUMMARY_LEVELS) with (0 :: seqZ 1 (Z.of_nat 4)). cbn [find_levels].
    change (shl64 0 (level_bits 0)) with 0. change (shl64 1 (level_bits 0)) with (2 ^ 14).
    pose proof (geo_len0 _ G) as HN. rewrite lev_idx by (apply G || lia). cbn [mbind option_bind].
    rewrite <- summary_len_lev. set (N := summary_len p 0) in *.
    replace (Z.min (0 + 2 ^ 14) N - 0) with N by lia.
    destruct (block_entries 0 0 N ltac:(lia) ltac:(lia) ltac:(lia) ltac:(unfold N; lia)) as [Hez Hent].
    set (es := take (Z.to_nat N) (drop (Z.to_nat 0) (lev p 0))) in *. clearbody N.
    change (level_log_pages 0) with 21 in *.
    pose proof (find_scan_ok f n 21 0 Hn ltac:(lia) es 0 0 0 ltac:(lia)) as Hs.
    rewrite Hez in Hs. unfold scan_ok in Hs. change (2 ^ 21) with (level_pages 0) in Hs.
    specialize (Hs ltac:(lia) Hent (tail_run_start _ _) (no_run_empty _ _ _ Hn) ltac:(lia)).
    destruct (find_scan es n 21 0 0 0 0) as [j|base size].
    - destruct Hs as (Hj & Hjr & Hfirst). right.
      destruct (find_levels_ok 4 1 j) as (P & E & HP); [lia|lia|lia|done|].
      exists P. split; [exact E|]. apply Hfin.
      replace (2 ^ 35) with ((0 + N) * level_pages 0) by (rewrite HN; done). exact (Hfirst P HP).
    - destruct Hs as [[? Hno]|(Hsz & Hb & Hfirst)].
      + left. rewrite decide_False by lia. rewrite decide_True by done. split; [done|].
        intros P HP R. pose proof (Hbound P HP R). apply (Hno P); [lia| |done].
        rewrite HN. change (level_pages 0) with (2 ^ 21). lia.
      + right. rewrite decide_True by lia. exists base.
        change (0 * level_pages 0 + base) with (0 + base) in Hfirst.
        assert (first_run f 0 (2 ^ 35) n base) as HP.
        { replace (2 ^ 35) with ((0 + N) * level_pages 0) by (rewrite HN; done).
          by replace (0 + base) with base in Hfirst by lia. }
        destruct (Hfin base HP) as (? & ? & ?). split; [|done]. f_equal.
        apply address_of; [lia|lia|done|lia|]. pose proof (geo_end _ G). lia.
  Qed.
End descent.
