(* ===== verification/PageAllocGrow.v ===== *)
(** Growing and building the tree: the correctness of [PageAlloc::grow], [PageAlloc::new] and
    [bubble_up_initial] of src/src/runtime/mheap/page_alloc.rs.

    Both recompute whole ranges of parents bottom-up; the ranges cover every summary whose
    region meets the new chunks, so the invariant holds for the extended arena. *)
From Stdlib Require Import ZArith Lia.
From stdpp Require Import base tactics numbers list list_numbers option.
From S2P Require Import Prelude Runs MheapConsts PallocSum PallocBits PallocSummarize PageAlloc PageAllocTree.
Open Scope Z_scope.

(** ** [grow] *)

Lemma grow_parents_ok p0 g l lo hi : geometry p0 -> 0 <= l < 4 -> level_ok p0 g (l + 1) ->
  0 <= lo <= hi -> 8 * hi <= summary_len p0 (l + 1) -> hi <= summary_len p0 l ->
  exists p, for_range lo hi (grow_parent l) p0 = Some p /\ recomputed p0 g l lo hi p.
Proof.
  intros G Hl Hok Hlo H8 Hlen.
  apply (for_range_inv (fun k p => recomputed p0 g l lo k p) lo hi); [lia|apply recomputed_start|].
  intros k p Hk R. unfold grow_parent.
  destruct (recomputed_children p0 g l lo k p k G Hl Hok R ltac:(lia) ltac:(lia))
    as (-> & -> & -> & -> & sums & merged & Hs & Hm & Hx).
  rewrite decide_False by lia. cbn [mbind option_bind]. rewrite Hs. cbn [mbind option_bind].
  rewrite Hm. cbn [mbind option_bind]. rewrite (ss_len _ _ (rc_store _ _ _ _ _ _ R)).
  rewrite decide_True by lia. by apply (recomputed_set p0 g l lo k p merged G); [lia|lia|lia| |].
Qed.

Section growth.
  Context (f g : Z -> bool) (A B : Z) (HAB : A < B).
  Context (Hag : forall k, ~ (A <= k < B) -> f k = g k).

  (** [lo, hi) are the entries of level [l] that meet [A, B). *)
Definition covers (l lo hi : Z) : Prop :=
    0 <= lo /\ lo * level_pages l <= A < (lo + 1) * level_pages l /\ (hi - 1) * level_pages l < B <= hi * level_pages l.

Lemma covers_parent l lo hi : 0 <= l < 4 -> covers (l + 1) lo hi -> covers l (lo / 8) ((hi + 7) / 8).
  Proof.
    intros Hl (H0 & H1 & H2). unfold covers. rewrite (level_pages_child l Hl) in *.
    pose proof (level_pages_pos (l + 1) ltac:(lia)) as Hp. set (w := level_pages (l + 1)) in *.
    assert (lo = 8 * (lo / 8) + lo mod 8 /\ 0 <= lo mod 8 < 8) as [E1 E2] by lia.
    assert (hi + 7 = 8 * ((hi + 7) / 8) + (hi + 7) mod 8 /\ 0 <= (hi + 7) mod 8 < 8) as [E3 E4] by lia.
    set (q := lo / 8) in *. set (r := (hi + 7) / 8) in *. split_and!; [lia|nia|nia|nia|nia].
  Qed.

Lemma covers_outside l lo hi j k : covers l lo hi -> ~ (lo <= j < hi) -> 0 <= l < 5 ->
    j * level_pages l <= k < (j + 1) * level_pages l -> f k = g k.
  Proof.
    intros (H0 & H1 & H2) Hj Hl Hk. apply Hag. pose proof (level_pages_pos l Hl).
    destruct (decide (j < lo)); [nia|]. assert (hi <= j) by lia. nia.
  Qed.

Lemma covers_bounds p l lo hi : geometry p -> 0 <= l < 5 -> B <= chunks_capacity p * 512 -> covers l lo hi ->
    lo <= hi /\ hi <= summary_len p l /\ (l < 4 -> 8 * hi <= summary_len p (l + 1)).
  Proof.
    intros G Hl HB (H0 & H1 & H2). pose proof (level_pages_pos l Hl). pose proof (geo_cover _ G l Hl).
    split_and!; [nia|nia|]. intros Hl4. pose proof (geo_cover _ G (l + 1) ltac:(lia)).
    pose proof (geo_blocks _ G (l + 1) ltac:(lia)). rewrite (level_pages_child l ltac:(lia)) in *.
    assert (8 * (hi - 1) < summary_len p (l + 1)) by nia. lia.
  Qed.

Lemma grow_levels_ok : forall m p lo hi,
    Z.of_nat m < 5 -> geometry p -> B <= chunks_capacity p * 512 -> covers (Z.of_nat m) lo hi ->
    (forall l, 0 <= l < Z.of_nat m -> level_ok p f l) ->
    (forall l, Z.of_nat m <= l < 5 -> level_ok p g l) ->
    exists p', grow_levels (levels_down m) lo hi p = Some p' /\ same_store p p' /\ tree_ok p' g.
  Proof.
    induction m as [|m IH]; intros p lo hi Hm G HB Hcov Hf Hg; cbn [levels_down grow_levels].
    { exists p. split; [done|]. split; [done|]. intros l Hl. apply Hg. lia. }
    set (l := Z.of_nat m) in *. rewrite level_bits_child by lia. change (shl64 1 3) with 8.
    replace (Z.of_nat (S m)) with (l + 1) in * by lia.
    rewrite !shr64_div by lia. change (2 ^ 3) with 8. replace (hi + 8 - 1) with (hi + 7) by lia.
    pose proof (covers_parent l lo hi ltac:(lia) Hcov) as Hc.
    destruct (covers_bounds p l _ _ G ltac:(lia) HB Hc) as (Hb1 & Hb2 & Hb3).
    destruct (grow_parents_ok p g l (lo / 8) ((hi + 7) / 8)) as (p1 & -> & R);
      [done|lia|apply Hg; lia|split; [apply Hc|done]|apply Hb3; lia|done|].
    cbn [mbind option_bind]. pose proof (rc_store _ _ _ _ _ _ R) as Hss.
    assert (forall l', 0 <= l' -> l' <> l -> forall h, level_ok p h l' -> level_ok p1 h l') as Hoth.
    { intros l' ? ? h Hh. unfold level_ok. rewrite (rc_other _ _ _ _ _ _ R) by done. exact Hh. }
    destruct (IH p1 (lo / 8) ((hi + 7) / 8)) as (p' & E & Hss' & Hok).
    - lia.
    - by eapply same_store_geometry.
    - by rewrite (ss_cap _ _ Hss).
    - done.
    - intros l' Hl'. apply Hoth; [lia|lia|]. apply Hf. lia.
    - intros l' Hl'. destruct (decide (l' = l)) as [->|]; [|apply Hoth; [lia|done|]; apply Hg; lia].
      eapply (recomputed_level_ok p f g l); [done|lia|exact R|apply Hf; lia|].
      intros j Hj Hout k Hk. by apply (covers_outside l (lo / 8) ((hi + 7) / 8) j k); [| |lia|].
    - exists p'. split; [done|]. split; [by transitivity p1|done].
  Qed.
End growth.

Lemma gfree_fresh p q k : geometry p -> fresh p -> geometry q ->
  chunk_store q = chunk_store p -> end_chunk p <= end_chunk q ->
  gfree q k = gfree p k || bool_decide (end_chunk p * 512 <= k < end_chunk q * 512).
Proof.
  intros G F Gq Hs Hle. pose proof (geo_end _ G). unfold gfree. case_decide as Hk.
  2: { rewrite bool_decide_false by lia. done. }
  destruct (decide (k / 512 < end_chunk p)).
  - destruct (chunk_at p (k / 512) G ltac:(lia)) as (b & -> & Hb & _).
    destruct (chunk_at q (k / 512) Gq ltac:(lia)) as (b' & -> & Hb' & _). rewrite Hs in Hb'.
    rewrite bool_decide_false by lia. rewrite orb_false_r. congruence.
  - assert (idx (chunks p) (k / 512) = None) as ->.
    { apply idx_None. unfold chunks, zlen. rewrite length_take. lia. }
    destruct (decide (k / 512 < end_chunk q)).
    + destruct (chunk_at q (k / 512) Gq ltac:(lia)) as (b' & -> & Hb' & _). rewrite Hs in Hb'.
      rewrite (F (k / 512) b') by (done || lia). rewrite bool_decide_true by lia.
      unfold free_page. by rewrite bit_zero.
    + assert (idx (chunks q) (k / 512) = None) as ->.
      { apply idx_None. unfold chunks, zlen. rewrite length_take. lia. }
      rewrite bool_decide_false by lia. done.
Qed.

(** [grow n] activates [n] fresh chunks: their pages become free, everything else is kept. *)
Lemma grow_ok p m : pa_inv p -> 0 <= m -> end_chunk p + m <= chunks_capacity p ->
  exists p', grow p m = Some p' /\ pa_inv p' /\ end_chunk p' = end_chunk p + m /\
    chunks_capacity p' = chunks_capacity p /\ arena_base p' = arena_base p /\
    forall k, gfree p' k = gfree p k || in_range (end_chunk p * 512) (m * 512) k.
Proof.
  intros [G T F] Hm Hcap. unfold grow. case_decide as Hm0.
  { subst m. exists p. split_and!; try done; [lia|]. intros k. unfold in_range. rewrite bool_decide_false by lia.
    by rewrite orb_false_r. }
  cbn zeta. rewrite decide_True by done. set (q := with_end_chunk p (end_chunk p + m)).
  pose proof (geo_end _ G) as Hge. pose proof (geo_cap _ G).
  assert (geometry q) as Gq.
  { split; try apply G. cbn [q end_chunk with_end_chunk chunks_capacity]. lia. }
  assert (fresh q) as Fq by (intros c b Hc; apply F; cbn [q end_chunk with_end_chunk] in Hc; lia).
  assert (tree_ok q (gfree p)) as Tq by exact T.
  assert (forall k, gfree q k = gfree p k || bool_decide (end_chunk p * 512 <= k < end_chunk q * 512)) as Hq.
  { intros k. apply gfree_fresh; try done. cbn. lia. }
  assert (end_chunk q = end_chunk p + m) as Heq by done.
  destruct (refresh_leaves_ok q (end_chunk p) (end_chunk p + m)) as (q1 & -> & R); [done|lia|cbn; lia|].
  cbn [mbind option_bind]. pose proof (rc_store _ _ _ _ _ _ R) as Hss.
  change [3; 2; 1; 0] with (levels_down 4).
  destruct (grow_levels_ok (gfree p) (gfree q) (end_chunk p * 512) ((end_chunk p + m) * 512) ltac:(lia)
              ltac:(intros k Hk; rewrite Hq, Heq, bool_decide_false by lia; by rewrite orb_false_r)
              4 q1 (end_chunk p) (end_chunk p + m)) as (p' & -> & Hss' & Hok).
  - done.
  - by eapply same_store_geometry.
  - rewrite (ss_cap _ _ Hss). cbn. lia.
  - split; [lia|]. change (level_pages (Z.of_nat 4)) with 512. lia.
  - intros l Hl. unfold level_ok. rewrite (rc_other _ _ _ _ _ _ R) by lia. apply Tq. lia.
  - intros l Hl. replace l with 4 by lia.
    eapply (recomputed_level_ok q (gfree p) (gfree q)); [done|lia|exact R|apply Tq; lia|].
    intros j Hj Hout k Hk. change (level_pages 4) with 512 in Hk. rewrite Hq, Heq.
    rewrite bool_decide_false by lia. by rewrite orb_false_r.
  - assert (same_store q p') as Hss2 by (by transitivity q1). exists p'. split; [done|].
    assert (forall k, gfree p' k = gfree p k || in_range (end_chunk p * 512) (m * 512) k) as Hfin.
    { intros k. rewrite (same_store_gfree _ _ Hss2), Hq, Heq. f_equal. unfold in_range.
      apply bool_decide_ext. lia. }
    split_and!.
    + split; [by eapply same_store_geometry| |by eapply same_store_fresh]. by rewrite (same_store_gfree _ _ Hss2).
    + apply (ss_end _ _ Hss2).
    + apply (ss_cap _ _ Hss2).
    + apply (ss_base _ _ Hss2).
    + done.
Qed.

(** ** [new] *)

(** The padded array lengths: whole blocks of eight, covering the capacity. *)
Lemma level_len_ok max_chunks l : 1 <= max_chunks <= 2 ^ 26 -> 1 <= l < 5 ->
  max_chunks * 512 <= level_len max_chunks l * level_pages l <= 2 ^ 36 /\ level_len max_chunks l mod 8 = 0 /\
  0 <= level_len max_chunks l.
Proof.
  intros Hm Hl. assert (l = 1 \/ l = 2 \/ l = 3 \/ l = 4) as Hc by lia.
  assert (forall sh e, 0 <= sh <= 9 -> e = Z.max (shr64 (max_chunks + 2 ^ sh - 1) sh) 1 ->
            max_chunks * 512 <= div_ceil e 8 * 8 * (512 * 2 ^ sh) <= 2 ^ 36 /\ div_ceil e 8 * 8 mod 8 = 0 /\
            0 <= div_ceil e 8 * 8) as Haux.
  { intros sh e Hsh ->. rewrite shr64_div by lia.
    assert (0 < 2 ^ sh <= 2 ^ 9) as Hp by (split; [lia|apply Z.pow_le_mono_r; lia]).
    set (w := 2 ^ sh) in *. pose proof (Z.div_mod (max_chunks + w - 1) w ltac:(lia)) as Hd.
    pose proof (Z.mod_pos_bound (max_chunks + w - 1) w ltac:(lia)) as Hr.
    set (q := (max_chunks + w - 1) / w) in *. assert (1 <= q) by nia. rewrite Z.max_l by lia.
    assert (q <= div_ceil q 8 * 8 <= q + 7) as Hdc by (unfold div_ceil; case_decide; lia).
    split_and!; [nia|nia|lia|lia]. }
  unfold level_len. rewrite decide_False by lia.
  destruct Hc as [-> | [-> | [-> | ->]]]; cbn zeta.
  - apply (Haux 9 _ ltac:(lia) eq_refl).
  - apply (Haux 6 _ ltac:(lia) eq_refl).
  - apply (Haux 3 _ ltac:(lia) eq_refl).
  - apply (Haux 0 _ ltac:(lia) eq_refl).
Qed.

(** [bubble_level] recomputes every parent that has its children. *)
Lemma bubble_level_ok p0 g l : geometry p0 -> 0 <= l < 4 -> level_ok p0 g (l + 1) ->
  forall m i p, 0 <= i -> i + Z.of_nat m = summary_len p0 l -> recomputed p0 g l 0 i p ->
  exists p' hi, bubble_level m l i p = Some p' /\ recomputed p0 g l 0 hi p' /\
    (forall j, hi <= j -> j < summary_len p0 l -> summary_len p0 (l + 1) < 8 * j + 8).
Proof.
  intros G Hl Hok. induction m as [|m IH]; intros i p Hi Hm R; cbn [bubble_level].
  { exists p, i. split; [done|]. split; [done|]. lia. }
  destruct (decide (8 * i + 8 <= summary_len p0 (l + 1))) as [Hin|Hout].
  - destruct (recomputed_children p0 g l 0 i p i G Hl Hok R Hi Hin)
      as (-> & -> & -> & -> & sums & merged & Hs & Hmg & Hx).
    rewrite decide_False by lia. cbn [mbind option_bind]. rewrite Hs. cbn [mbind option_bind].
    rewrite Hmg. cbn [mbind option_bind].
    destruct (recomputed_set p0 g l 0 i p merged G ltac:(lia) ltac:(lia) ltac:(lia) R Hx) as (p1 & -> & R1).
    cbn [mbind option_bind]. apply IH; [lia|lia|done].
  - exists p, i. pose proof (geo_upper _ G l ltac:(lia)). pose proof (level_pages_pos l ltac:(lia)).
    rewrite level_bits_child by done. rewrite shl64_8 by nia. change (shl64 1 3) with 8.
    rewrite (ss_len _ _ (rc_store _ _ _ _ _ _ R)). rewrite decide_True by lia.
    split; [done|]. split; [done|]. lia.
Qed.

Lemma bubble_pass p f g l : geometry p -> 0 <= l < 4 -> level_ok p g (l + 1) -> level_ok p f l ->
  (forall k, chunks_capacity p * 512 <= k -> f k = g k) ->
  exists p', bubble_level (Z.to_nat (summary_len p l)) l 0 p = Some p' /\ same_store p p' /\ level_ok p' g l /\
    (forall l', 0 <= l' -> l' <> l -> lev p' l' = lev p l').
Proof.
  intros G Hl Hg Hf Hcap.
  destruct (bubble_level_ok p g l G Hl Hg (Z.to_nat (summary_len p l)) 0 p) as (p' & hi & E & R & Hhi).
  - lia.
  - unfold summary_len, zlen. lia.
  - apply recomputed_start.
  - exists p'. split; [done|]. split; [apply R|]. split; [|apply R].
    intros j x Hx. pose proof (idx_range _ _ _ Hx) as Hr.
    rewrite <- summary_len_lev, (ss_len _ _ (rc_store _ _ _ _ _ _ R)) in Hr.
    destruct (decide (0 <= j < hi)); [by apply (rc_done _ _ _ _ _ _ R)|].
    rewrite (rc_rest _ _ _ _ _ _ R) in Hx by done.
    pose proof (beyond_children p l j G Hl ltac:(lia) (Hhi j ltac:(lia) ltac:(lia))).
    eapply sum_ok_ext; [|by apply Hf]. intros k Hk. apply Hcap. lia.
Qed.

Lemma bubble_up_initial_ok p f g : geometry p -> level_ok p g 4 -> (forall l, 0 <= l < 4 -> level_ok p f l) ->
  (forall k, chunks_capacity p * 512 <= k -> f k = g k) ->
  exists p', bubble_up_initial p = Some p' /\ same_store p p' /\ tree_ok p' g.
Proof.
  intros G H4 Hf Hcap. unfold bubble_up_initial. change (seqZ 0 (SUMMARY_LEVELS - 1)) with [0; 1; 2; 3].
  cbn [foldr mbind option_bind].
  destruct (bubble_pass p f g 3) as (p3 & -> & S3 & L3 & O3); [done|lia|done|apply Hf; lia|done|].
  pose proof (same_store_geometry _ _ S3 G) as G3. cbn [mbind option_bind].
  destruct (bubble_pass p3 f g 2) as (p2 & -> & S2' & L2 & O2); [done|lia|done| | |].
  { unfold level_ok. rewrite O3 by lia. apply Hf. lia. }
  { intros k. rewrite (ss_cap _ _ S3). apply Hcap. }
  pose proof (same_store_geometry _ _ S2' G3) as G2. cbn [mbind option_bind].
  destruct (bubble_pass p2 f g 1) as (p1 & -> & S1 & L1 & O1); [done|lia|done| | |].
  { unfold level_ok. rewrite O2, O3 by lia. apply Hf. lia. }
  { intros k. rewrite (ss_cap _ _ S2'), (ss_cap _ _ S3). apply Hcap. }
  pose proof (same_store_geometry _ _ S1 G2) as G1. cbn [mbind option_bind].
  destruct (bubble_pass p1 f g 0) as (p0 & -> & S0 & L0 & O0); [done|lia|done| | |].
  { unfold level_ok. rewrite O1, O2, O3 by lia. apply Hf. lia. }
  { intros k. rewrite (ss_cap _ _ S1), (ss_cap _ _ S2'), (ss_cap _ _ S3). apply Hcap. }
  exists p0. split; [done|]. split; [by transitivity p1; [transitivity p2; [transitivity p3|]|]|].
  intros l Hl. revert l Hl. refine (level_cases _ _ _ _ _ _); [done|..]; unfold level_ok; rewrite ?O0, ?O1, ?O2, ?O3 by lia; done.
Qed.

(** [new]: a tree over [n] free chunks. *)
Lemma new_ok base n max_chunks : 0 < base -> base mod 2 ^ 22 = 0 -> base + 2 ^ 48 < 2 ^ 64 ->
  1 <= n <= max_chunks -> max_chunks <= 2 ^ 26 ->
  exists p, new base n max_chunks = Some p /\ pa_inv p /\ arena_base p = base /\ end_chunk p = n /\
    chunks_capacity p = max_chunks /\ forall k, gfree p k = in_range 0 (n * 512) k.
Proof.
  intros Hb1 Hb2 Hb3 Hn Hmax. unfold new. rewrite decide_True by (change PALLOC_CHUNK_BYTES with (2 ^ 22); lia).
  cbn zeta. set (q := mkPageAlloc _ _ _ _ _ _).
  assert (forall l, 0 <= l < 5 -> lev q l = replicate (Z.to_nat (level_len max_chunks l)) 0) as Hlev.
  { refine (level_cases _ _ _ _ _ _); done. }
  assert (chunks_capacity q = max_chunks /\ arena_base q = base /\ start_chunk q = 0 /\ end_chunk q = n /\
          chunk_store q = replicate (Z.to_nat max_chunks) page_bits_zero /\ zlen (summary q) = 5)
    as (Ecap & Ebase & Estart & Eend & Estore & E5) by done.
  clearbody q.
  assert (forall l, 1 <= l < 5 -> summary_len q l = level_len max_chunks l) as Hlen.
  { intros l Hl. rewrite summary_len_lev, Hlev by lia. unfold zlen. rewrite length_replicate.
    destruct (level_len_ok max_chunks l ltac:(lia) Hl) as (_ & _ & ?). lia. }
  assert (summary_len q 0 = 2 ^ 14) as Hlen0.
  { rewrite summary_len_lev, Hlev by lia. unfold zlen. rewrite length_replicate.
    change (level_len max_chunks 0) with (2 ^ 14). lia. }
  assert (geometry q) as G.
  { split.
    - done.
    - intros l Hl. destruct (decide (l = 0)) as [->|].
      + rewrite Hlen0. change (level_pages 0) with (2 ^ 21). rewrite Ecap. lia.
      + rewrite Hlen, Ecap by lia. apply level_len_ok; lia.
    - intros l Hl. destruct (decide (l = 0)) as [->|]; [by rewrite Hlen0|]. rewrite Hlen by lia. apply level_len_ok; lia.
    - done.
    - intros l Hl. rewrite Hlen by lia. apply level_len_ok; lia.
    - rewrite Estore, Ecap. unfold zlen. rewrite length_replicate. lia.
    - rewrite Estore. apply Forall_replicate, wf_bits_zero.
    - lia.
    - done.
    - lia.
    - rewrite Ebase. done. }
  assert (fresh q) as F.
  { intros c b _ Hb. rewrite Estore in Hb. apply idx_Some in Hb as [_ Hb].
    by apply lookup_replicate in Hb as [-> _]. }
  assert (forall k, gfree q k = in_range 0 (n * 512) k) as Hfree.
  { intros k. unfold gfree, in_range. case_decide as Hk; [|by rewrite bool_decide_false by lia].
    destruct (decide (k / 512 < n)).
    - destruct (chunk_at q (k / 512) G) as (b & -> & Hb & _); [lia|].
      rewrite Estore in Hb. apply idx_Some in Hb as [_ Hb]. apply lookup_replicate in Hb as [-> _].
      rewrite bool_decide_true by lia. unfold free_page. by rewrite bit_zero.
    - assert (idx (chunks q) (k / 512) = None) as ->.
      { apply idx_None. unfold chunks, zlen. rewrite length_take. lia. }
      by rewrite bool_decide_false by lia. }
  destruct (refresh_leaves_ok q 0 n G ltac:(lia)) as (q1 & -> & R); [lia|]. cbn [mbind option_bind].
  pose proof (rc_store _ _ _ _ _ _ R) as Hss.
  assert (forall l, 0 <= l < 5 -> level_ok q (fun _ => false) l) as Hzero.
  { intros l Hl j x Hx. rewrite Hlev in Hx by done. apply idx_Some in Hx as [_ Hx].
    apply lookup_replicate in Hx as [-> _]. apply sum_ok_zero; [|done]. pose proof (level_pages_pos l Hl). nia. }
  destruct (bubble_up_initial_ok q1 (fun _ => false) (gfree q)) as (p & -> & Hss' & Hok).
  - by eapply same_store_geometry.
  - eapply (recomputed_level_ok q (fun _ => false)); [done|lia|exact R|by apply Hzero|].
    intros j Hj Hout k Hk. rewrite Hfree. unfold in_range. change (level_pages 4) with 512 in Hk.
    by rewrite bool_decide_false by lia.
  - intros l Hl. unfold level_ok. rewrite (rc_other _ _ _ _ _ _ R) by lia. apply Hzero. lia.
  - intros k. rewrite (ss_cap _ _ Hss). intros Hk. rewrite Hfree. unfold in_range.
    by rewrite bool_decide_false by lia.
  - assert (same_store q p) as S by (by transitivity q1). exists p. split; [done|]. split_and!.
    + split; [by eapply same_store_geometry| |by eapply same_store_fresh]. by rewrite (same_store_gfree _ _ S).
    + by rewrite (ss_base _ _ S).
    + by rewrite (ss_end _ _ S).
    + by rewrite (ss_cap _ _ S).
    + intros k. by rewrite (same_store_gfree _ _ S).
Qed.
