(* ===== verification/PageAllocSpec.v ===== *)
(** The page allocator's contract: src/src/runtime/mheap/page_alloc.rs.

    [alloc], [free], [grow] and [new] preserve the radix tree's invariant, never panic inside
    their preconditions, and act on the set of free pages as the abstract first-fit
    allocator [page_step] does.  The last part runs arbitrary sequences of operations:
    live blocks never overlap. *)
From Stdlib Require Import ZArith Lia.
From stdpp Require Import base tactics numbers list list_numbers option.
From S2P Require Import Prelude Runs MheapConsts PallocSum PallocBits PallocFind PallocSummarize PageAlloc PageAllocTree PageAllocFind PageAllocGrow.
Open Scope Z_scope.

(** ** Bitmaps of a run of pages *)

(** [p'] differs from [p] in its bitmaps only. *)
Record same_tree (p p' : PageAlloc) : Prop := {
  st_summary : summary p' = summary p;
  st_cap : chunks_capacity p' = chunks_capacity p;
  st_base : arena_base p' = arena_base p;
  st_start : start_chunk p' = start_chunk p;
  st_end : end_chunk p' = end_chunk p
}.

#[export] Instance same_tree_refl : Reflexive same_tree.
Proof. by intros p. Qed.

#[export] Instance same_tree_trans : Transitive same_tree.
Proof. intros p q r [] []. split; congruence. Qed.

Lemma same_tree_lev p p' : same_tree p p' -> lev p' = lev p.
Proof. intros H. unfold lev. by rewrite (st_summary _ _ H). Qed.

Section bitmaps.
  Context (op : PallocBits -> Z -> Z -> option PallocBits) (h : bool -> bool -> bool).
  Context (Hh : forall a, h a false = a).
  Context (op_ok : forall b i n, wf_bits b -> 0 <= i -> 1 <= n -> i + n <= 512 ->
             exists b', op b i n = Some b' /\ wf_bits b' /\
               forall k, 0 <= k < 512 -> free_page b' k = h (free_page b k) (in_range i n k)).

Lemma on_chunk_ok p c i n : geometry p -> fresh p -> 0 <= c < end_chunk p -> 0 <= i -> 1 <= n -> i + n <= 512 ->
    exists p', on_chunk p c (fun b => op b i n) = Some p' /\ geometry p' /\ fresh p' /\ same_tree p p' /\
      forall k, gfree p' k = h (gfree p k) (in_range (c * 512 + i) n k).
  Proof.
    intros G F Hc Hi Hn Hin. unfold on_chunk.
    destruct (chunk_at p c G Hc) as (b & Hb & Hs & Hw). rewrite Hb. cbn [mbind option_bind].
    destruct (op_ok b i n Hw Hi Hn Hin) as (b' & -> & Hw' & Hfree). cbn [mbind option_bind].
    pose proof (idx_range _ _ _ Hs) as Hr. rewrite upd_Some by done. cbn [mbind option_bind].
    eexists. split; [done|]. set (p' := with_chunks p (<[Z.to_nat c:=b']> (chunk_store p))).
    assert (idx (chunks p') c = Some b') as Hb'.
    { apply idx_Some. split; [lia|]. unfold chunks. cbn [p' chunk_store end_chunk with_chunks].
      rewrite lookup_take_lt by lia. apply list_lookup_insert_eq. unfold zlen in Hr. lia. }
    assert (forall c', c' <> c -> 0 <= c' -> idx (chunks p') c' = idx (chunks p) c') as Hother.
    { intros c' Hne Hc'. unfold idx. rewrite !decide_True by done. unfold chunks.
      cbn [p' chunk_store end_chunk with_chunks]. destruct (decide (Z.to_nat c' < Z.to_nat (end_chunk p))%nat).
      - rewrite !lookup_take_lt by done. apply list_lookup_insert_ne. lia.
      - rewrite !lookup_take_ge by lia. done. }
    split; [|split; [|split]].
    - split; try apply G; cbn [p' chunk_store with_chunks].
      + rewrite zlen_insert. apply G.
      + apply Forall_insert; [apply G|done].
    - intros c' b0 Hc' Hb0. cbn [p' end_chunk with_chunks] in Hc'. cbn [p' chunk_store with_chunks] in Hb0.
      rewrite idx_insert in Hb0 by (lia || done). rewrite decide_False in Hb0 by lia. by apply (F c').
    - done.
    - intros k. destruct (decide (0 <= k)) as [Hk|Hk].
      2: { unfold gfree, in_range. rewrite !decide_False by lia. rewrite bool_decide_false by lia. by rewrite Hh. }
      destruct (decide (k / 512 = c)) as [Hkc|Hkc].
      + replace k with (c * 512 + k mod 512) by lia. rewrite (gfree_chunk p' c b'), (gfree_chunk p c b) by (done || lia).
        rewrite Hfree by lia. f_equal. unfold in_range. apply bool_decide_ext. lia.
      + unfold gfree. rewrite !decide_True by done. rewrite Hother by lia. unfold in_range.
        rewrite bool_decide_false by lia. by rewrite Hh.
  Qed.

  (** A run of pages, chunk by chunk. *)
Lemma on_range_ok p P n : geometry p -> fresh p -> 0 <= P -> 1 <= n -> P + n <= end_chunk p * 512 ->
    exists p', on_range op p (P / 512) ((P + n - 1) / 512) (P mod 512) ((P + n - 1) mod 512) = Some p' /\
      geometry p' /\ fresh p' /\ same_tree p p' /\ forall k, gfree p' k = h (gfree p k) (in_range P n k).
  Proof.
    intros G F HP Hn Hend. unfold on_range. change PALLOC_CHUNK_PAGES with 512.
    case_decide as Hsame.
    - destruct (on_chunk_ok p (P / 512) (P mod 512) ((P + n - 1) mod 512 + 1 - P mod 512)) as (p' & E & G' & F' & T & Hk);
        [done|done|lia|lia|lia|lia|]. exists p'. split_and!; try done. intros k. rewrite Hk. f_equal.
      unfold in_range. apply bool_decide_ext. lia.
    - destruct (on_chunk_ok p (P / 512) (P mod 512) (512 - P mod 512)) as (p1 & -> & G1 & F1 & T1 & Hk1);
        [done|done|lia|lia|lia|lia|]. cbn [mbind option_bind].
      set (ec := (P + n - 1) / 512) in *.
      set (I := fun (c : Z) (q : PageAlloc) => geometry q /\ fresh q /\ same_tree p q /\
             forall k, gfree q k = h (gfree p k) (bool_decide (P <= k < c * 512))).
      destruct (for_range_inv I (P / 512 + 1) ec (fun c q => on_chunk q c (fun b => op b 0 512)) p1)
        as (p2 & -> & G2 & F2 & T2 & Hk2).
      + lia.
      + split_and!; try done. intros k. rewrite Hk1. f_equal. unfold in_range. apply bool_decide_ext. lia.
      + intros c q Hc (Gq & Fq & Tq & Hq).
        destruct (on_chunk_ok q c 0 512) as (q' & E & G' & F' & T' & Hk');
          [done|done|rewrite (st_end _ _ Tq); lia|lia|lia|lia|].
        exists q'. split; [done|]. split_and!; try done; [by transitivity q|]. intros k. rewrite Hk', Hq.
        unfold in_range. repeat case_bool_decide; rewrite ?Hh; try done; lia.
      + cbn [mbind option_bind].
        destruct (on_chunk_ok p2 ec 0 ((P + n - 1) mod 512 + 1)) as (p3 & E & G3 & F3 & T3 & Hk3);
          [done|done|rewrite (st_end _ _ T2); lia|lia|lia|lia|].
        exists p3. split_and!; try done; [by transitivity p2|]. intros k. rewrite Hk3, Hk2.
        unfold in_range. repeat case_bool_decide; rewrite ?Hh; try done; lia.
  Qed.
End bitmaps.

Lemma bits_alloc_range_ok b i n : wf_bits b -> 0 <= i -> 1 <= n -> i + n <= 512 ->
  exists b', bits_alloc_range b i n = Some b' /\ wf_bits b' /\
    forall k, 0 <= k < 512 -> free_page b' k = free_page b k && negb (in_range i n k).
Proof.
  intros Hb Hi Hn Hin. destruct (set_range_ok b i n Hb Hi Hn Hin) as (b' & E & Hw & H).
  exists b'. split_and!; [done|done|]. intros k Hk. unfold free_page. rewrite H by done. apply negb_orb.
Qed.

Lemma bits_free_ok b i n : wf_bits b -> 0 <= i -> 1 <= n -> i + n <= 512 ->
  exists b', bits_free b i n = Some b' /\ wf_bits b' /\
    forall k, 0 <= k < 512 -> free_page b' k = free_page b k || in_range i n k.
Proof.
  intros Hb Hi Hn Hin. destruct (clear_range_ok b i n Hb Hi Hn Hin) as (b' & E & Hw & H).
  exists b'. split_and!; [done|done|]. intros k Hk. unfold free_page. rewrite H by done.
  by rewrite negb_andb, negb_involutive.
Qed.

(** ** Allocating and freeing a run *)

Lemma chunk_page_index_page p q : geometry p -> 0 <= q -> chunk_page_index p (arena_base p + q) = q mod 2 ^ 22 / 8192.
Proof.
  intros G Hq. unfold chunk_page_index. change PALLOC_CHUNK_BYTES with (2 ^ 22). change PAGE_SIZE with 8192.
  destruct (geo_base _ G) as (_ & E & _). f_equal. lia.
Qed.

(** The bitmap coordinates of the run [P, P + n). *)
Lemma run_coordinates p P n : geometry p -> 0 <= P -> 1 <= n -> P + n <= end_chunk p * 512 ->
  let limit := sub64 (add64 (arena_base p + P * 8192) (mul64 n PAGE_SIZE)) 1 in
  chunk_index p (arena_base p + P * 8192) = P / 512 /\ chunk_index p limit = (P + n - 1) / 512 /\
  chunk_page_index p (arena_base p + P * 8192) = P mod 512 /\ chunk_page_index p limit = (P + n - 1) mod 512.
Proof.
  intros G HP Hn Hend limit. pose proof (geo_end _ G). pose proof (geo_cap _ G). unfold limit.
  rewrite limit_addr by (done || lia). rewrite !chunk_index_page, !chunk_page_index_page by (done || lia).
  split_and!; lia.
Qed.

Lemma same_tree_tree_ok p p' f : same_tree p p' -> tree_ok p f -> tree_ok p' f.
Proof. intros T H l Hl. unfold level_ok. rewrite (same_tree_lev _ _ T). by apply H. Qed.

(** From changed bitmaps, [update] re-establishes the invariant. *)
Lemma update_inv p q f P n : geometry q -> fresh q -> tree_ok q f -> arena_base q = arena_base p ->
  0 <= P -> 1 <= n -> P + n <= end_chunk q * 512 -> (forall k, ~ (P <= k < P + n) -> f k = gfree q k) ->
  exists p', update q (arena_base p + P * 8192) n = Some p' /\ pa_inv p' /\
    (forall k, gfree p' k = gfree q k) /\ same_store q p'.
Proof.
  intros G F T Hb HP Hn Hend Hag. rewrite <- Hb.
  destruct (update_ok q f P n G T HP Hn Hend Hag) as (p' & E & Hss & Htree).
  exists p'. split; [done|]. split; [|split; [|done]].
  - split; [by eapply same_store_geometry| |by eapply same_store_fresh]. by rewrite (same_store_gfree _ _ Hss).
  - intros k. by rewrite (same_store_gfree _ _ Hss).
Qed.

(** The parts of the allocator an operation on pages leaves alone. *)
Record same_arena (p p' : PageAlloc) : Prop := {
  sa_cap : chunks_capacity p' = chunks_capacity p;
  sa_base : arena_base p' = arena_base p;
  sa_end : end_chunk p' = end_chunk p
}.

Lemma same_arena_of p q r : same_tree p q -> same_store q r -> same_arena p r.
Proof. intros [] []. split; congruence. Qed.

Lemma alloc_range_ok p P n : pa_inv p -> 0 <= P -> 1 <= n -> P + n <= end_chunk p * 512 ->
  exists p', alloc_range p (arena_base p + P * 8192) n = Some p' /\ pa_inv p' /\ same_arena p p' /\
    forall k, gfree p' k = gfree p k && negb (in_range P n k).
Proof.
  intros [G T F] HP Hn Hend. unfold alloc_range.
  destruct (run_coordinates p P n G HP Hn Hend) as (-> & -> & -> & ->).
  destruct (on_range_ok bits_alloc_range (fun a r => a && negb r) andb_true_r bits_alloc_range_ok p P n G F HP Hn Hend)
    as (q & -> & Gq & Fq & Tq & Hq). cbn [mbind option_bind].
  destruct (update_inv p q (gfree p) P n Gq Fq) as (p' & E & Hinv & Hf & Hss); try done.
  - by eapply same_tree_tree_ok.
  - apply (st_base _ _ Tq).
  - by rewrite (st_end _ _ Tq).
  - intros k Hk. rewrite Hq. unfold in_range. rewrite bool_decide_false by done. by rewrite andb_true_r.
  - exists p'. split; [done|]. split; [done|]. split; [by eapply same_arena_of|]. intros k. by rewrite Hf, Hq.
Qed.

Lemma free_range_ok p P n : pa_inv p -> 0 <= P -> 1 <= n -> P + n <= end_chunk p * 512 ->
  exists p', free p (arena_base p + P * 8192) n = Some p' /\ pa_inv p' /\ same_arena p p' /\
    forall k, gfree p' k = gfree p k || in_range P n k.
Proof.
  intros [G T F] HP Hn Hend. unfold free.
  destruct (run_coordinates p P n G HP Hn Hend) as (-> & -> & -> & ->).
  destruct (on_range_ok bits_free orb orb_false_r bits_free_ok p P n G F HP Hn Hend)
    as (q & E & Gq & Fq & Tq & Hq).
  assert ((if decide (n = 1) then on_chunk p (P / 512) (fun b => bits_free b (P mod 512) 1)
           else on_range bits_free p (P / 512) ((P + n - 1) / 512) (P mod 512) ((P + n - 1) mod 512)) = Some q) as ->.
  { case_decide as Hn1; [|done]. subst n. rewrite <- E. unfold on_range. rewrite decide_True by (f_equal; lia).
    replace ((P + 1 - 1) mod 512 + 1 - P mod 512) with 1 by lia. done. }
  cbn [mbind option_bind].
  destruct (update_inv p q (gfree p) P n Gq Fq) as (p' & E' & Hinv & Hf & Hss); try done.
  - by eapply same_tree_tree_ok.
  - apply (st_base _ _ Tq).
  - by rewrite (st_end _ _ Tq).
  - intros k Hk. rewrite Hq. unfold in_range. rewrite bool_decide_false by done. by rewrite orb_false_r.
  - exists p'. split; [done|]. split; [done|]. split; [by eapply same_arena_of|]. intros k. by rewrite Hf, Hq.
Qed.

Lemma alloc_spec_ok p n : pa_inv p -> 1 <= n ->
  (alloc p n = Some (p, ALLOC_FAILED) /\ forall P, 0 <= P -> ~ run (gfree p) P n) \/
  (exists P p', alloc p n = Some (p', arena_base p + P * 8192) /\ pa_inv p' /\ same_arena p p' /\
     0 <= P /\ P + n <= end_chunk p * 512 /\ run (gfree p) P n /\
     (forall Q, 0 <= Q -> run (gfree p) Q n -> P <= Q) /\
     (forall k, gfree p' k = gfree p k && negb (in_range P n k))).
Proof.
  intros Hp Hn. unfold alloc. destruct (find_ok p Hp n Hn) as [[-> Hno]|(P & -> & HP & Hend & R & Hmin)].
  - left. done.
  - right. cbn [mbind option_bind]. destruct (geo_base _ (inv_geo _ Hp)) as (Hb & _).
    rewrite decide_False by (unfold ALLOC_FAILED; lia).
    destruct (alloc_range_ok p P n Hp HP Hn Hend) as (p' & -> & Hp' & Ha & Hk). cbn [mbind option_bind].
    exists P, p'. split_and!; try done; apply Ha.
Qed.

(** ** The abstract first-fit allocator *)

(** Its state is the set of free pages; its operations are labelled with their results. *)
Inductive page_op :=
| OpAlloc (n : Z) (r : option Z)
| OpFree (P n : Z)
| OpGrow (lo n : Z).

Inductive page_step (f : Z -> bool) : page_op -> (Z -> bool) -> Prop :=
| ps_alloc n P f' :
    0 <= P -> run f P n -> (forall Q, 0 <= Q -> run f Q n -> P <= Q) ->
    (forall k, f' k = f k && negb (in_range P n k)) -> page_step f (OpAlloc n (Some P)) f'
| ps_alloc_fail n f' :
    (forall P, 0 <= P -> ~ run f P n) -> (forall k, f' k = f k) -> page_step f (OpAlloc n None) f'
| ps_free P n f' :
    (forall k, f' k = f k || in_range P n k) -> page_step f (OpFree P n) f'
| ps_grow lo n f' :
    (forall k, f' k = f k || in_range lo n k) -> page_step f (OpGrow lo n) f'.

(** The address [alloc] returns for an abstract result. *)
Definition result_addr (p : PageAlloc) (r : option Z) : Z :=
  match r with Some P => arena_base p + P * 8192 | None => ALLOC_FAILED end.

(** ** Counters *)

(** A run of [n] positions counts [n]; removing it lowers the count by [n]. *)
Lemma count_run f i n : 0 <= n -> run f i n -> count f i n = n.
Proof.
  intros Hn R. pose proof (count_negb f i n Hn) as E. rewrite count_false in E; [lia|done|].
  intros k Hk. by rewrite (R k Hk).
Qed.

Lemma count_take f g i n P m : 0 <= m -> i <= P -> P + m <= i + n -> run f P m ->
  (forall k, g k = f k && negb (in_range P m k)) -> count g i n = count f i n - m.
Proof.
  intros Hm HP Hend R Hg.
  replace n with ((P - i) + (m + (i + n - P - m))) by lia.
  rewrite !(count_split _ i), !(count_split _ (i + (P - i))) by lia.
  replace (i + (P - i)) with P by lia. rewrite (count_run f P m Hm R).
  assert (forall a c, 0 <= c -> (a + c <= P \/ P + m <= a) -> count g a c = count f a c) as Hout.
  { intros a c Hc Ha. apply count_ext; [done|]. intros k Hk. rewrite Hg. unfold in_range.
    rewrite bool_decide_false by lia. apply andb_true_r. }
  rewrite (Hout i), (Hout (P + m)) by lia. rewrite (count_false g P m); [lia|done|].
  intros k Hk. rewrite Hg. unfold in_range. rewrite bool_decide_true by lia. apply andb_false_r.
Qed.

Section counters.
  Context (p : PageAlloc) (Hp : pa_inv p).

Lemma chunk_counts c : 0 <= c < end_chunk p -> exists b, idx (chunks p) c = Some b /\
    popcnt_range b 0 PALLOC_CHUNK_PAGES = Some (512 - count (gfree p) (c * 512) 512).
  Proof.
    intros Hc. destruct Hp as [G _ _]. pose proof (geo_end _ G) as He. pose proof (geo_store _ G) as Hs.
    assert (zlen (chunks p) = end_chunk p) as Hz by (unfold chunks, zlen in *; rewrite length_take; lia).
    destruct (idx_lt (chunks p) c ltac:(lia)) as [b E]. exists b. split; [done|]. change PALLOC_CHUNK_PAGES with 512.
    assert (wf_bits b) as Hb.
    { pose proof (geo_wf _ G) as W. rewrite Forall_lookup in W. apply (W (Z.to_nat c)).
      apply idx_Some in E as [_ E]. unfold chunks in E. by apply lookup_take_Some in E as [? _]. }
    rewrite popcnt_range_ok by (done || lia). f_equal.
    rewrite (count_ext (gfree p) (free_page b) (c * 512) 0); [|lia|].
    - unfold free_page. rewrite count_negb by lia. lia.
    - intros k Hk. rewrite Z.add_0_l. apply gfree_chunk; (done || lia).
  Qed.

Lemma free_pages_count : free_pages p = Some (count (gfree p) 0 (end_chunk p * 512)).
  Proof.
    unfold free_pages. rewrite (geo_start _ (inv_geo _ Hp)). pose proof (geo_end _ (inv_geo _ Hp)) as He.
    destruct (for_range_inv (fun c n => n = count (gfree p) 0 (c * 512)) 0 (end_chunk p)
      (fun ci n => b ← idx (chunks p) ci; c ← popcnt_range b 0 PALLOC_CHUNK_PAGES;
                   Some (n + (PALLOC_CHUNK_PAGES - c))) 0) as (r & -> & ->); [lia|done| |done].
    intros c n Hc ->. destruct (chunk_counts c Hc) as (b & -> & E). cbn [mbind option_bind]. rewrite E.
    eexists. split; [done|]. change PALLOC_CHUNK_PAGES with 512.
    replace ((c + 1) * 512) with (c * 512 + 512) by lia. rewrite (count_split _ 0 (c * 512)) by lia.
    rewrite Z.add_0_l. lia.
  Qed.

Lemma allocated_pages_count :
    allocated_pages p = Some (end_chunk p * 512 - count (gfree p) 0 (end_chunk p * 512)).
  Proof.
    unfold allocated_pages. rewrite (geo_start _ (inv_geo _ Hp)). pose proof (geo_end _ (inv_geo _ Hp)) as He.
    destruct (for_range_inv (fun c n => n = c * 512 - count (gfree p) 0 (c * 512)) 0 (end_chunk p)
      (fun ci n => b ← idx (chunks p) ci; c ← popcnt_range b 0 PALLOC_CHUNK_PAGES; Some (n + c)) 0)
      as (r & -> & ->); [lia|done| |done].
    intros c n Hc ->. destruct (chunk_counts c Hc) as (b & -> & E). cbn [mbind option_bind]. rewrite E.
    eexists. split; [done|].
    replace ((c + 1) * 512) with (c * 512 + 512) by lia. rewrite (count_split _ 0 (c * 512)) by lia.
    rewrite Z.add_0_l. lia.
  Qed.
End counters.

(** ** Clients *)

(** A client holds its live blocks as (address, pages). *)
Inductive client_op :=
| CAlloc (n : Z)
| CFree (i : nat)
| CGrow (m : Z).

Definition client_step (op : client_op) (st : PageAlloc * list (Z * Z)) : option (PageAlloc * list (Z * Z)) :=
  let '(p, live) := st in
  match op with
  | CAlloc n =>
      '(p, a) ← alloc p n;
      Some (p, if decide (a = ALLOC_FAILED) then live else (a, n) :: live)
  | CFree i =>
      match live !! i with
      | Some (a, n) => p ← free p a n; Some (p, delete i live)
      | None => Some (p, live)
      end
  | CGrow m =>
      if decide (end_chunk p + m <= chunks_capacity p) then p ← grow p m; Some (p, live)
      else Some (p, live)
  end.

Fixpoint client_run (ops : list client_op) (st : PageAlloc * list (Z * Z)) : option (PageAlloc * list (Z * Z)) :=
  match ops with
  | [] => Some st
  | op :: ops => st ← client_step op st; client_run ops st
  end.

(** Requests of at least one page (and growth by a nonnegative amount). *)
Definition sane_op (op : client_op) : Prop :=
  match op with CAlloc n => 1 <= n | CFree _ => True | CGrow m => 0 <= m end.

(** Two blocks do not share a byte. *)
Definition separate (b c : Z * Z) : Prop := b.1 + b.2 * 8192 <= c.1 \/ c.1 + c.2 * 8192 <= b.1.

(** A block is a page-aligned run of active pages. *)
Definition in_arena (p : PageAlloc) (b : Z * Z) : Prop :=
  exists P, b.1 = arena_base p + P * 8192 /\ 0 <= P /\ 1 <= b.2 /\ P + b.2 <= end_chunk p * 512.

(** Page [k] of the arena belongs to the block. *)
Definition owns (p : PageAlloc) (b : Z * Z) (k : Z) : Prop :=
  b.1 <= arena_base p + k * 8192 < b.1 + b.2 * 8192.

(** Pages held by the live blocks. *)
Definition live_pages (live : list (Z * Z)) : Z := foldr (fun b acc => b.2 + acc) 0 live.

Record client_inv (p : PageAlloc) (live : list (Z * Z)) : Prop := {
  ci_inv : pa_inv p;
  ci_blocks : Forall (in_arena p) live;
  ci_free : forall k, gfree p k = true <-> 0 <= k < end_chunk p * 512 /\ Forall (fun b => ~ owns p b k) live;
  ci_sep : forall i j b c, i <> j -> live !! i = Some b -> live !! j = Some c -> separate b c;
  ci_count : count (gfree p) 0 (end_chunk p * 512) = end_chunk p * 512 - live_pages live
}.

Lemma gfree_range p k : pa_inv p -> gfree p k = true -> 0 <= k < end_chunk p * 512.
Proof.
  intros Hp Hk. unfold gfree in Hk. case_decide; [|done].
  destruct (idx (chunks p) (k / 512)) as [b|] eqn:E; [|done].
  apply idx_range in E. unfold chunks, zlen in E. rewrite length_take in E. lia.
Qed.

Lemma same_arena_block p p' b : same_arena p p' -> in_arena p b -> in_arena p' b.
Proof. intros H (P & ?). exists P. by rewrite (sa_base _ _ H), (sa_end _ _ H). Qed.

Lemma owns_same p p' b k : arena_base p' = arena_base p -> owns p' b k <-> owns p b k.
Proof. unfold owns. by intros ->. Qed.

Lemma client_alloc p live n : client_inv p live -> 1 <= n ->
  exists p' live', client_step (CAlloc n) (p, live) = Some (p', live') /\ client_inv p' live'.
Proof.
  intros [Hp Hb Hf Hs Hct] Hn. unfold client_step.
  destruct (alloc_spec_ok p n Hp Hn) as [[-> _]|(P & p' & -> & Hp' & Ha & HP & Hend & R & _ & Hk)];
    cbn [mbind option_bind].
  { rewrite decide_True by done. by exists p, live. }
  destruct (geo_base _ (inv_geo _ Hp)) as (Hbase & _).
  rewrite decide_False by (unfold ALLOC_FAILED; lia). eexists _, _. split; [done|].
  set (b0 := (arena_base p + P * 8192, n)).
  assert (Forall (separate b0) live) as Hsep.
  { apply Forall_lookup. intros i [a m] Hi.
    destruct (decide (arena_base p + P * 8192 + n * 8192 <= a)) as [|H1]; [by left|].
    destruct (decide (a + m * 8192 <= arena_base p + P * 8192)) as [|H2]; [by right|]. exfalso.
    rewrite Forall_lookup in Hb. destruct (Hb i _ Hi) as (Q & E & HQ & Hm & _). cbn [fst snd] in *.
    assert (gfree p (Z.max P Q) = true) as Hg by (apply R; lia).
    apply Hf in Hg as [_ Hg]. rewrite Forall_lookup in Hg. apply (Hg i _ Hi). unfold owns. cbn [fst snd]. lia. }
  split; [done| | | |].
  - constructor.
    + exists P. cbn [fst snd]. rewrite (sa_base _ _ Ha), (sa_end _ _ Ha). split_and!; (done || lia).
    + eapply Forall_impl; [|exact Hb]. intros b. by apply same_arena_block.
  - intros k. rewrite Hk, (sa_end _ _ Ha), andb_true_iff, negb_true_iff, Hf, Forall_cons_iff.
    unfold in_range. rewrite bool_decide_eq_false.
    assert (Forall (fun b => ~ owns p' b k) live <-> Forall (fun b => ~ owns p b k) live) as ->.
    { apply Forall_iff. intros b. by rewrite (owns_same p p') by apply Ha. }
    assert (owns p' b0 k <-> P <= k < P + n) as ->; [|naive_solver].
    unfold owns, b0. cbn [fst snd]. rewrite (sa_base _ _ Ha). lia.
  - intros [|i] [|j] b c Hij Hi Hj; cbn in Hi, Hj; [done| | |].
    + injection Hi as <-. rewrite Forall_lookup in Hsep. by apply (Hsep j).
    + injection Hj as <-. rewrite Forall_lookup in Hsep. specialize (Hsep i b Hi). unfold separate in *. tauto.
    + apply (Hs i j); [congruence|done|done].
  - rewrite (sa_end _ _ Ha), (count_take (gfree p) (gfree p') _ _ P n) by (done || lia).
    unfold live_pages in *. unfold b0. cbn [foldr snd]. lia.
Qed.

Lemma delete_lookup {A} (l : list A) i j x : delete i l !! j = Some x ->
  exists j', j' <> i /\ l !! j' = Some x /\
    j' = (if decide (j < i)%nat then j else S j).
Proof.
  intros H'. exists (if decide (j < i)%nat then j else S j).
  case_decide; [rewrite list_lookup_delete_lt in H' by done|rewrite list_lookup_delete_ge in H' by lia];
    split_and!; (done || lia).
Qed.

Lemma live_pages_delete live i b : live !! i = Some b -> live_pages live = b.2 + live_pages (delete i live).
Proof.
  revert i. induction live as [|c live IH]; intros [|i] H; try done.
  - by injection H as <-.
  - change (delete (S i) (c :: live)) with (c :: delete i live). specialize (IH i H). unfold live_pages in *.
    cbn [foldr]. rewrite IH. ring.
Qed.

Lemma client_free p live i : client_inv p live ->
  exists p' live', client_step (CFree i) (p, live) = Some (p', live') /\ client_inv p' live'.
Proof.
  intros Hc. pose proof Hc as [Hp Hb Hf Hs Hct]. unfold client_step.
  destruct (live !! i) as [[a n]|] eqn:Hi; [|by exists p, live].
  rewrite Forall_lookup in Hb. destruct (Hb i _ Hi) as (P & E & HP & Hn & Hend). cbn [fst snd] in *. subst a.
  destruct (free_range_ok p P n Hp HP Hn Hend) as (p' & -> & Hp' & Ha & Hk). cbn [mbind option_bind].
  eexists _, _. split; [done|]. split; [done| | | |].
  - apply Forall_lookup. intros j b Hj. destruct (delete_lookup _ _ _ _ Hj) as (j' & _ & Hj' & _).
    apply (same_arena_block p); [done|]. by apply (Hb j').
  - intros k. rewrite Hk, (sa_end _ _ Ha), orb_true_iff, Hf. unfold in_range. rewrite bool_decide_eq_true.
    assert (owns p (arena_base p + P * 8192, n) k <-> P <= k < P + n) as Ho by (unfold owns; cbn [fst snd]; lia).
    assert (Forall (fun b => ~ owns p' b k) (delete i live) <-> Forall (fun b => ~ owns p b k) (delete i live)) as ->.
    { apply Forall_iff. intros b. by rewrite (owns_same p p') by apply Ha. }
    rewrite (delete_Permutation live i _ Hi) at 1. rewrite Forall_cons_iff, Ho. split.
    + intros [?|Hown]; [tauto|]. split; [lia|]. apply Forall_lookup. intros j b Hj.
      destruct (delete_lookup _ _ _ _ Hj) as (j' & Hne & Hj' & _).
      pose proof (Hs i j' _ _ (not_eq_sym Hne) Hi Hj') as Hsep. unfold separate, owns in *. cbn [fst snd] in *. lia.
    + intros [? ?]. destruct (decide (P <= k < P + n)); tauto.
  - intros j1 j2 b c Hne H1 H2. destruct (delete_lookup _ _ _ _ H1) as (j1' & _ & H1' & E1).
    destruct (delete_lookup _ _ _ _ H2) as (j2' & _ & H2' & E2). apply (Hs j1' j2'); [|done|done].
    subst. repeat case_decide; lia.
  - rewrite (sa_end _ _ Ha). pose proof (live_pages_delete _ _ _ Hi) as E. cbn [snd] in E.
    assert (forall k, P <= k < P + n -> gfree p k = false) as Hused.
    { intros k Hkr. destruct (gfree p k) eqn:Ek; [|done]. apply Hf in Ek as [_ Ek]. rewrite Forall_lookup in Ek.
      destruct (Ek i _ Hi). unfold owns. cbn [fst snd]. lia. }
    rewrite (count_take (gfree p') (gfree p) _ _ P n) in Hct; [lia|lia|lia|lia| |].
    + intros k Hkr. rewrite Hk. unfold in_range. rewrite bool_decide_true by lia. apply orb_true_r.
    + intros k. rewrite Hk. unfold in_range. case_bool_decide; [rewrite Hused by lia|]; by destruct (gfree p k).
Qed.

Lemma client_grow p live m : client_inv p live -> 0 <= m ->
  exists p' live', client_step (CGrow m) (p, live) = Some (p', live') /\ client_inv p' live'.
Proof.
  intros Hc Hm. pose proof Hc as [Hp Hb Hf Hs Hct]. unfold client_step. case_decide as Hcap; [|by exists p, live].
  destruct (grow_ok p m Hp Hm Hcap) as (p' & -> & Hp' & He & _ & Ha & Hk). cbn [mbind option_bind].
  pose proof (geo_end _ (inv_geo _ Hp)) as He0. eexists _, _. split; [done|]. split; [done| | |done|].
  - eapply Forall_impl; [|exact Hb]. intros b (P & ?). exists P. rewrite Ha, He. split_and!; try tauto; lia.
  - intros k. rewrite Hk, He, orb_true_iff, Hf. unfold in_range. rewrite bool_decide_eq_true.
    assert (Forall (fun b => ~ owns p' b k) live <-> Forall (fun b => ~ owns p b k) live) as ->.
    { apply Forall_iff. intros b. by rewrite (owns_same p p'). }
    split.
    + intros [[? ?]|Hr]; [split; [lia|done]|]. split; [lia|]. eapply Forall_impl; [|exact Hb].
      intros b (P & E & ? & ? & ?) Ho. unfold owns in Ho. lia.
    + intros [Hr Hfa]. destruct (decide (k < end_chunk p * 512)); [left; split; [lia|done]|right; lia].
  - rewrite He. replace ((end_chunk p + m) * 512) with (end_chunk p * 512 + m * 512) by lia.
    rewrite (count_split _ 0 (end_chunk p * 512)), Z.add_0_l by lia.
    rewrite (count_run (gfree p') (end_chunk p * 512)); [|lia|].
    + rewrite (count_ext (gfree p') (gfree p) 0 0), Hct; [lia|lia|]. intros k Hkr. rewrite Hk, Z.add_0_l.
      unfold in_range. rewrite bool_decide_false by lia. apply orb_false_r.
    + intros k Hkr. rewrite Hk. unfold in_range. rewrite bool_decide_true by lia. apply orb_true_r.
Qed.

Lemma client_run_inv ops : forall p live, client_inv p live -> Forall sane_op ops ->
  exists p' live', client_run ops (p, live) = Some (p', live') /\ client_inv p' live'.
Proof.
  induction ops as [|op ops IH]; intros p live Hc Hops; cbn [client_run].
  { by exists p, live. }
  apply Forall_cons_iff in Hops as [Hop Hops].
  assert (exists p' live', client_step op (p, live) = Some (p', live') /\ client_inv p' live') as (p' & live' & -> & Hc').
  { destruct op; cbn in Hop; [by apply client_alloc|by apply client_free|by apply client_grow]. }
  cbn [mbind option_bind]. by apply IH.
Qed.

(** ** Theorems *)

(** A two-chunk arena with one active chunk, for the witnesses. *)
Lemma small_arena : exists p, new (2 ^ 22) 1 2 = Some p /\ pa_inv p /\ arena_base p = 2 ^ 22 /\
  end_chunk p = 1 /\ chunks_capacity p = 2 /\ forall k, gfree p k = in_range 0 512 k.
Proof. apply (new_ok (2 ^ 22) 1 2); (done || lia). Qed.

(** [PageAlloc::new] on a chunk-aligned arena builds a radix tree in which every summary at
    every level is the summary of its pages and exactly the pages of the first [n_chunks]
    chunks are free. *)
Theorem new_establishes base n max_chunks :
  0 < base -> base mod 2 ^ 22 = 0 -> base + 2 ^ 48 < 2 ^ 64 -> 1 <= n <= max_chunks -> max_chunks <= 2 ^ 26 ->
  exists p, new base n max_chunks = Some p /\ pa_inv p /\
    (forall k, gfree p k = true <-> 0 <= k < n * 512) /\ free_pages p = Some (n * 512).
Proof.
  intros Hb Ha Hm Hn Hx. destruct (new_ok base n max_chunks Hb Ha Hm Hn Hx) as (p & E & Hp & _ & He & _ & Hk).
  exists p. split; [done|]. split; [done|]. split.
  - intros k. rewrite Hk. unfold in_range. rewrite bool_decide_eq_true. lia.
  - rewrite free_pages_count, He, count_run; [done|lia| |done].
    intros k Hr. rewrite Hk. unfold in_range. by rewrite bool_decide_true by lia.
Qed.

Lemma new_establishes_witness :
  exists p, new (2 ^ 22) 1 2 = Some p /\ pa_inv p /\
    (forall k, gfree p k = true <-> 0 <= k < 1 * 512) /\ free_pages p = Some (1 * 512).
Proof. apply (new_establishes (2 ^ 22) 1 2); (done || lia). Defined.

(** C2: [alloc] never panics and refines the abstract first-fit allocator: it returns the lowest
    run of [n] free pages and marks exactly these pages used, or returns [ALLOC_FAILED] and
    leaves the allocator alone, and then no run of [n] free pages exists.  The tree stays
    right. *)
Theorem alloc_refines_first_fit p n : pa_inv p -> 1 <= n ->
  exists p' r, alloc p n = Some (p', result_addr p r) /\ pa_inv p' /\
    page_step (gfree p) (OpAlloc n r) (gfree p') /\ (r = None -> p' = p).
Proof.
  intros Hp Hn. destruct (alloc_spec_ok p n Hp Hn) as [[E Hno]|(P & p' & E & Hp' & _ & HP & _ & R & Hmin & Hk)].
  - exists p, None. split_and!; [done|done|by constructor|done].
  - exists p', (Some P). split_and!; [done|done|by constructor|done].
Qed.

Lemma alloc_refines_first_fit_witness : exists p, new (2 ^ 22) 1 2 = Some p /\
  exists p' r, alloc p 3 = Some (p', result_addr p r) /\ pa_inv p' /\
    page_step (gfree p) (OpAlloc 3 r) (gfree p') /\ (r = None -> p' = p).
Proof.
  destruct small_arena as (p & E & Hp & _). exists p. split; [exact E|].
  apply (alloc_refines_first_fit p 3); [exact Hp|lia].
Defined.

(** C18: [free] of a run of active pages never panics, makes exactly these pages free and keeps
    every summary right, although its walk up stops at the first level where nothing
    changed. *)
Theorem free_refines p P n : pa_inv p -> 0 <= P -> 1 <= n -> P + n <= end_chunk p * 512 ->
  exists p', free p (result_addr p (Some P)) n = Some p' /\ pa_inv p' /\
    page_step (gfree p) (OpFree P n) (gfree p').
Proof.
  intros Hp HP Hn Hend. destruct (free_range_ok p P n Hp HP Hn Hend) as (p' & E & Hp' & _ & Hk).
  exists p'. split_and!; [done|done|by constructor].
Qed.

Lemma free_refines_witness : exists p, new (2 ^ 22) 1 2 = Some p /\
  exists p', free p (result_addr p (Some 7)) 65 = Some p' /\ pa_inv p' /\
    page_step (gfree p) (OpFree 7 65) (gfree p').
Proof.
  destruct small_arena as (p & E & Hp & _ & He & _). exists p. split; [exact E|].
  apply (free_refines p 7 65); [exact Hp|lia|lia|lia].
Defined.

(** [alloc] followed by [free] of the block it returned gives back the same set of free
    pages. *)
Theorem alloc_free_roundtrip p n p' addr : pa_inv p -> 1 <= n -> alloc p n = Some (p', addr) ->
  addr <> ALLOC_FAILED ->
  exists p'', free p' addr n = Some p'' /\ pa_inv p'' /\ (forall k, gfree p'' k = gfree p k) /\
    free_pages p'' = free_pages p.
Proof.
  intros Hp Hn E Ha. destruct (alloc_spec_ok p n Hp Hn) as [[E' _]|(P & q & E' & Hq & S & HP & Hend & R & _ & Hk)];
    rewrite E in E'; injection E' as -> ->; [done|].
  rewrite <- (sa_end _ _ S) in Hend. rewrite <- (sa_base _ _ S).
  destruct (free_range_ok q P n Hq HP Hn Hend) as (p'' & -> & Hp'' & S' & Hk').
  assert (forall k, gfree p'' k = gfree p k) as Hsame.
  { intros k. rewrite Hk', Hk. unfold in_range. case_bool_decide; [rewrite R by done|]; by destruct (gfree p k). }
  exists p''. split_and!; [done|apply Hp''..|done|].
  rewrite !free_pages_count by done. rewrite (sa_end _ _ S'), (sa_end _ _ S). f_equal.
  pose proof (geo_end _ (inv_geo _ Hp)). apply count_ext; [lia|]. intros k _. apply Hsame.
Qed.

Lemma alloc_free_roundtrip_witness : exists p p' addr, new (2 ^ 22) 1 2 = Some p /\ alloc p 3 = Some (p', addr) /\
  exists p'', free p' addr 3 = Some p'' /\ pa_inv p'' /\ (forall k, gfree p'' k = gfree p k) /\
    free_pages p'' = free_pages p.
Proof.
  destruct small_arena as (p & E & Hp & Hb & He & _ & Hk).
  destruct (alloc_spec_ok p 3 Hp ltac:(lia)) as [[_ Hno]|(P & p' & Ea & _ & _ & HP & _)].
  - exfalso. apply (Hno 0); [lia|]. intros k Hr. rewrite Hk. apply bool_decide_eq_true. lia.
  - exists p, p', (arena_base p + P * 8192). split; [exact E|]. split; [exact Ea|].
    apply (alloc_free_roundtrip p 3 p'); [exact Hp|lia|exact Ea|rewrite Hb; unfold ALLOC_FAILED; lia].
Defined.

(** [grow] activates [m] more chunks within the reserve without panicking: their pages become
    free, nothing else changes, and the summaries over the new chunks are right at every
    level. *)
Theorem grow_refines p m : pa_inv p -> 0 <= m -> end_chunk p + m <= capacity_chunks p ->
  exists p', grow p m = Some p' /\ pa_inv p' /\ end_chunk p' = end_chunk p + m /\
    page_step (gfree p) (OpGrow (end_chunk p * 512) (m * 512)) (gfree p').
Proof.
  intros Hp Hm Hc. destruct (grow_ok p m Hp Hm Hc) as (p' & E & Hp' & He & _ & _ & Hk).
  exists p'. split_and!; [done|done|done|by constructor].
Qed.

Lemma grow_refines_witness : exists p, new (2 ^ 22) 1 2 = Some p /\
  exists p', grow p 1 = Some p' /\ pa_inv p' /\ end_chunk p' = end_chunk p + 1 /\
    page_step (gfree p) (OpGrow (end_chunk p * 512) (1 * 512)) (gfree p').
Proof.
  destruct small_arena as (p & E & Hp & _ & He & Hcap & _). exists p. split; [exact E|].
  apply (grow_refines p 1); [exact Hp|lia|unfold capacity_chunks; lia].
Defined.

(** C6: whatever sequence of allocations, releases of live blocks and growths a client performs on
    a new allocator, no operation panics, live blocks are page runs inside the active arena
    that never overlap, a page is free exactly when no live block holds it, and
    [allocated_pages] is the number of pages the client holds. *)
Theorem live_blocks_disjoint base n max_chunks ops :
  0 < base -> base mod 2 ^ 22 = 0 -> base + 2 ^ 48 < 2 ^ 64 -> 1 <= n <= max_chunks -> max_chunks <= 2 ^ 26 ->
  Forall sane_op ops ->
  exists p0 p live, new base n max_chunks = Some p0 /\ client_run ops (p0, []) = Some (p, live) /\
    Forall (in_arena p) live /\
    (forall i j b c, i <> j -> live !! i = Some b -> live !! j = Some c -> separate b c) /\
    (forall k, gfree p k = true <-> 0 <= k < end_chunk p * 512 /\ Forall (fun b => ~ owns p b k) live) /\
    allocated_pages p = Some (live_pages live).
Proof.
  intros Hb Ha Hm Hn Hx Hops. destruct (new_ok base n max_chunks Hb Ha Hm Hn Hx) as (p0 & E & Hp & _ & He & _ & Hk).
  destruct (client_run_inv ops p0 []) as (p & live & Hrun & [Hp' Hbl Hf Hs Hct]); [|done|].
  - split; [done|constructor| |done|].
    + intros k. rewrite Hk, He. unfold in_range. rewrite bool_decide_eq_true. split; [|intros [? _]; lia].
      intros ?. split; [lia|constructor].
    + rewrite He. cbn. rewrite count_run; [lia|lia|]. intros k Hr. rewrite Hk. apply bool_decide_eq_true. lia.
  - exists p0, p, live. split_and!; try done. rewrite allocated_pages_count, Hct by done. f_equal. lia.
Qed.

Lemma live_blocks_disjoint_witness :
  exists p0 p live, new (2 ^ 22) 1 2 = Some p0 /\
    client_run [CAlloc 3; CAlloc 600; CGrow 1; CAlloc 600; CFree 1; CAlloc 2] (p0, []) = Some (p, live) /\
    Forall (in_arena p) live /\
    (forall i j b c, i <> j -> live !! i = Some b -> live !! j = Some c -> separate b c) /\
    (forall k, gfree p k = true <-> 0 <= k < end_chunk p * 512 /\ Forall (fun b => ~ owns p b k) live) /\
    allocated_pages p = Some (live_pages live).
Proof.
  apply (live_blocks_disjoint (2 ^ 22) 1 2 [CAlloc 3; CAlloc 600; CGrow 1; CAlloc 600; CFree 1; CAlloc 2]);
    [done|done|done|done|done|].
  repeat (apply List.Forall_cons; [cbn; (exact I || lia)|]). apply List.Forall_nil.
Defined.
