(* ===== verification/Heap.v ===== *)
(** The heap's page tier: src/src/runtime/heap.rs.

    [Mheap] is the pair of statics [MHEAP] (the page allocator behind its spin lock) and
    [MHEAP_READY].  Every operation holds the lock throughout, so it is a function of the
    state.  [syscall::Exit(2)] is the outcome [Exit 2].  The mapping system call is the
    argument [mmap] of [map_arena]: it takes the length and returns the address, or [None]
    for [MAP_FAILED]. *)
From Stdlib Require Import ZArith Lia.
From stdpp Require Import base tactics numbers list list_numbers option.
From S2P Require Import Prelude Outcome Runs MheapConsts PallocSum PallocBits PageAlloc PageAllocTree PageAllocFind PageAllocGrow PageAllocSpec.
Open Scope Z_scope.
Local Open Scope goish_scope.

Definition LARGE_THRESHOLD : Z := 32 * 1024.
Definition INITIAL_ARENA_CHUNKS : Z := 256.
Definition MAX_ARENA_CHUNKS : Z := 81920.

Record Mheap := mkMheap { MHEAP : option PageAlloc; MHEAP_READY : bool }.

Record Layout := mkLayout { layout_size : Z; layout_align : Z }.

(** ** Operations *)

Definition map_arena (mmap : Z -> option Z) (n_chunks : Z) : outcome Z :=
  let total := n_chunks *! PALLOC_CHUNK_BYTES +! PALLOC_CHUNK_BYTES in
  match mmap total with
  | None => Exit 2
  | Some base => Ok (Z.land (base +! PALLOC_CHUNK_BYTES -! 1) (not64 (PALLOC_CHUNK_BYTES -! 1)))
  end.

Definition mheap_init (mmap : Z -> option Z) (st : Mheap) : outcome Mheap :=
  if MHEAP_READY st then Ok st
  else
    arena_base ← map_arena mmap MAX_ARENA_CHUNKS;
    pages ← of_option (new arena_base INITIAL_ARENA_CHUNKS MAX_ARENA_CHUNKS);
    Ok (mkMheap (Some pages) true).

Definition mheap_arena_base (st : Mheap) : Z :=
  match MHEAP st with Some p => arena_base p | None => 0 end.

Definition mheap_alloc_pages (st : Mheap) (npages : Z) : outcome (Mheap * Z) :=
  match MHEAP st with
  | None => Exit 2
  | Some h =>
      '(h, addr) ← of_option (alloc h npages);
      if decide (addr <> ALLOC_FAILED) then Ok (mkMheap (Some h) (MHEAP_READY st), addr)
      else
        let need := (npages *! PAGE_SIZE +! PALLOC_CHUNK_BYTES -! 1) / PALLOC_CHUNK_BYTES in
        let room := capacity_chunks h -! end_chunk h in
        let step := Z.min (Z.max need 64) room in
        if decide (step < need) then Ok (mkMheap (Some h) (MHEAP_READY st), ALLOC_FAILED)
        else
          h ← of_option (grow h step);
          '(h, addr) ← of_option (alloc h npages);
          Ok (mkMheap (Some h) (MHEAP_READY st), addr)
  end.

Definition mheap_capacity_pages (st : Mheap) : Z :=
  match MHEAP st with
  | Some h => capacity_chunks h *! (PALLOC_CHUNK_BYTES / PAGE_SIZE)
  | None => 0
  end.

Definition mheap_free_pages (st : Mheap) (base npages : Z) : outcome Mheap :=
  match MHEAP st with
  | Some h => h ← of_option (free h base npages); Ok (mkMheap (Some h) (MHEAP_READY st))
  | None => Ok st
  end.

Definition pages_for (size : Z) : Z := (size +! PAGE_SIZE -! 1) / PAGE_SIZE.

Definition mheap_alloc (st : Mheap) (layout : Layout) : outcome (Mheap * Z) :=
  let bytes := Z.max (layout_size layout) (layout_align layout) in
  let npages := pages_for bytes in
  '(st, addr) ← mheap_alloc_pages st npages;
  if decide (addr = ALLOC_FAILED) then Exit 2 else Ok (st, addr).

Definition mheap_free (st : Mheap) (ptr : Z) (layout : Layout) : outcome Mheap :=
  let bytes := Z.max (layout_size layout) (layout_align layout) in
  let npages := pages_for bytes in
  mheap_free_pages st ptr npages.

Definition route_to_mheap (st : Mheap) (layout : Layout) : bool :=
  MHEAP_READY st && bool_decide (layout_size layout > LARGE_THRESHOLD).

Definition route_to_mcentral (mcentral_ready : bool) (layout : Layout) : bool :=
  mcentral_ready && bool_decide (layout_size layout > 0) && bool_decide (layout_size layout <= LARGE_THRESHOLD)
  && bool_decide (layout_align layout <= PAGE_SIZE).

Definition sys_bytes (st : Mheap) : outcome Z :=
  match MHEAP st with
  | Some p => n ← of_option (allocated_pages p); Ok (n *! PAGE_SIZE)
  | None => Ok 0
  end.

(** ** Invariant *)

(** The heap is initialised and its page allocator is right. *)
Definition heap_inv (st : Mheap) (p : PageAlloc) : Prop := MHEAP st = Some p /\ pa_inv p.

(** The chunks a request may take: what the next growth step would activate. *)
Definition room (p : PageAlloc) : Z := chunks_capacity p - end_chunk p.

Definition chunks_for (n : Z) : Z := (n + 511) / 512.

Lemma align_up base : 0 <= base -> base + 2 ^ 22 <= 2 ^ 64 ->
  Z.land (base +! PALLOC_CHUNK_BYTES -! 1) (not64 (PALLOC_CHUNK_BYTES -! 1)) = (base + 2 ^ 22 - 1) / 2 ^ 22 * 2 ^ 22.
Proof.
  intros H0 H1. change PALLOC_CHUNK_BYTES with (2 ^ 22). change (2 ^ 22 -! 1) with (2 ^ 22 - 1).
  assert (base +! 2 ^ 22 -! 1 = base + 2 ^ 22 - 1) as ->.
  { unfold add64, sub64, wrap64. rewrite Zminus_mod_idemp_l. apply Z.mod_small. lia. }
  apply land_not_mask; [unfold is_u64; lia|done].
Qed.

Lemma need_ok n : 1 <= n <= 2 ^ 50 -> (n *! PAGE_SIZE +! PALLOC_CHUNK_BYTES -! 1) / PALLOC_CHUNK_BYTES = chunks_for n.
Proof.
  intros Hn. change PAGE_SIZE with 8192. change PALLOC_CHUNK_BYTES with 4194304. unfold mul64, add64, sub64, wrap64.
  rewrite (Z.mod_small (n * 8192)) by lia. rewrite (Z.mod_small (_ + 4194304)), Z.mod_small by lia. unfold chunks_for. lia.
Qed.

Lemma pages_for_ok size : 0 <= size <= 2 ^ 62 -> pages_for size = (size + 8191) / 8192.
Proof.
  intros H. unfold pages_for. change PAGE_SIZE with 8192. unfold add64, sub64, wrap64.
  rewrite (Z.mod_small (size + 8192)), Z.mod_small by lia. f_equal. lia.
Qed.

(** What a successful request of [n] pages did: [p'] is [p] after activating [g] more chunks
    (none if the request fit) and taking the lowest run. *)
Record took (p p' : PageAlloc) (n g P : Z) : Prop := {
  tk_base : arena_base p' = arena_base p;
  tk_end : end_chunk p' = end_chunk p + g;
  tk_range : 0 <= P /\ P + n <= end_chunk p' * 512;
  tk_free : forall k, P <= k < P + n -> gfree p k = true \/ end_chunk p * 512 <= k;
  tk_after : forall k, gfree p' k = (gfree p k || in_range (end_chunk p * 512) (g * 512) k) && negb (in_range P n k);
  tk_cap : chunks_capacity p' = chunks_capacity p
}.

Lemma chunks_for_pages n : n <= chunks_for n * 512.
Proof. unfold chunks_for. lia. Qed.

Lemma mheap_alloc_pages_ok st p n : heap_inv st p -> 1 <= n <= 2 ^ 50 ->
  (mheap_alloc_pages st n = Ok (mkMheap (Some p) (MHEAP_READY st), ALLOC_FAILED) /\
    (forall P, 0 <= P -> ~ run (gfree p) P n) /\ room p < chunks_for n) \/
  (exists p' g P, mheap_alloc_pages st n = Ok (mkMheap (Some p') (MHEAP_READY st), arena_base p + P * 8192) /\
    pa_inv p' /\ took p p' n g P /\
    ((g = 0 /\ run (gfree p) P n) \/ ((forall Q, 0 <= Q -> ~ run (gfree p) Q n) /\ chunks_for n <= g <= room p))).
Proof.
  intros [E Hp] Hn. unfold mheap_alloc_pages. rewrite E.
  pose proof (geo_base _ (inv_geo _ Hp)) as (Hb & _). pose proof (geo_end _ (inv_geo _ Hp)) as He.
  pose proof (geo_cap _ (inv_geo _ Hp)) as Hcap.
  destruct (alloc_spec_ok p n Hp ltac:(lia)) as [[-> Hno]|(P & p' & -> & Hp' & Ha & HP & Hend & R & _ & Hk)];
    cbn [of_option mbind outcome_bind]; [|right].
  2: { rewrite decide_True by (unfold ALLOC_FAILED; lia). exists p', 0, P. split_and!; [done|done| |by left].
       pose proof (sa_end _ _ Ha). split; [apply Ha|lia|lia| | |apply Ha].
       - intros k Hr. left. by apply R.
       - intros k. rewrite Hk. f_equal. unfold in_range. rewrite (bool_decide_false (_ <= k < _ + 0 * 512)) by lia.
         by rewrite orb_false_r. }
  rewrite decide_False by (by intros H; apply H).
  rewrite (need_ok n Hn). unfold capacity_chunks, sub64. unfold wrap64. rewrite Z.mod_small by lia.
  fold (room p). unfold room in *. case_decide as Hs.
  { left. split_and!; [done|done|lia]. }
  right. set (g := Z.min _ _) in *. assert (0 <= g /\ end_chunk p + g <= chunks_capacity p /\ chunks_for n <= g) as (Hg0 & Hg1 & Hg2)
    by (unfold g, chunks_for in *; lia).
  destruct (grow_ok p g Hp Hg0 Hg1) as (q & -> & Hq & Heq & Hcq & Hbq & Hkq). cbn [of_option mbind outcome_bind].
  pose proof (chunks_for_pages n) as Hfit.
  destruct (alloc_spec_ok q n Hq ltac:(lia)) as [[_ Hnoq]|(P & p' & -> & Hp' & Ha & HP & Hend & R & _ & Hk)].
  { destruct (Hnoq (end_chunk p * 512)); [lia|]. intros k Hr. rewrite Hkq. unfold in_range.
    rewrite bool_decide_true by lia. apply orb_true_r. }
  cbn [of_option mbind outcome_bind]. exists p', g, P. rewrite Hbq. split_and!; [done|done| |right; split; [done|unfold room; lia]].
  pose proof (sa_end _ _ Ha). pose proof (sa_base _ _ Ha). pose proof (sa_cap _ _ Ha). split; [congruence|lia|lia| | |congruence].
  - intros k Hr. specialize (R k Hr). rewrite Hkq in R. apply orb_true_iff in R as [R|R]; [by left|right].
    apply bool_decide_eq_true in R. lia.
  - intros k. by rewrite Hk, Hkq.
Qed.

Lemma mheap_init_spec mmap st : MHEAP_READY st = false ->
  let total := (MAX_ARENA_CHUNKS + 1) * PALLOC_CHUNK_BYTES in
  match mmap total with
  | None => mheap_init mmap st = Exit 2
  | Some raw => 0 < raw -> raw + 2 ^ 49 < 2 ^ 64 ->
      exists p, mheap_init mmap st = Ok (mkMheap (Some p) true) /\ pa_inv p /\
        raw <= arena_base p /\ arena_base p + MAX_ARENA_CHUNKS * PALLOC_CHUNK_BYTES <= raw + total /\
        arena_base p mod PALLOC_CHUNK_BYTES = 0 /\
        chunks_capacity p = MAX_ARENA_CHUNKS /\ end_chunk p = INITIAL_ARENA_CHUNKS /\
        (forall k, gfree p k = true <-> 0 <= k < INITIAL_ARENA_CHUNKS * 512)
  end.
Proof.
  intros Hr total. unfold mheap_init, map_arena. rewrite Hr.
  assert (MAX_ARENA_CHUNKS *! PALLOC_CHUNK_BYTES +! PALLOC_CHUNK_BYTES = total) as -> by done.
  destruct (mmap total) as [raw|]; [|done]. intros H0 H1.
  rewrite align_up by lia. cbn [mbind outcome_bind]. set (base := _ / _ * _).
  change (2 ^ 22) with 4194304 in *.
  assert (raw <= base < raw + 4194304 /\ base mod 4194304 = 0) as [Hb Hm].
  { split; [unfold base; lia|]. unfold base. by apply Z.mod_mul. }
  clearbody base.
  destruct (new_ok base INITIAL_ARENA_CHUNKS MAX_ARENA_CHUNKS) as (p & -> & Hp & Hbase & Hend & Hcap & Hk);
    [lia|done|lia|done|done|].
  cbn [of_option mbind outcome_bind]. exists p. split; [done|]. split; [done|].
  rewrite Hbase, Hcap. change PALLOC_CHUNK_BYTES with 4194304. unfold total. change PALLOC_CHUNK_BYTES with 4194304.
  split_and!; [lia|lia|done|done|done|]. intros k. rewrite Hk. unfold in_range. rewrite bool_decide_eq_true. lia.
Qed.

(** ** Theorems *)

(** [mheap_init] maps the whole reserve, aligns its base inside the mapping, and leaves a right
    page allocator with the first 256 chunks free and room to grow to 81920 chunks; a failed
    mapping ends the process with status 2. *)
Theorem mheap_init_ok mmap st : MHEAP_READY st = false ->
  let total := (MAX_ARENA_CHUNKS + 1) * PALLOC_CHUNK_BYTES in
  match mmap total with
  | None => mheap_init mmap st = Exit 2
  | Some raw => 0 < raw -> raw + 2 ^ 49 < 2 ^ 64 ->
      exists p, mheap_init mmap st = Ok (mkMheap (Some p) true) /\ pa_inv p /\
        raw <= arena_base p /\ arena_base p + MAX_ARENA_CHUNKS * PALLOC_CHUNK_BYTES <= raw + total /\
        arena_base p mod PALLOC_CHUNK_BYTES = 0 /\
        chunks_capacity p = MAX_ARENA_CHUNKS /\ end_chunk p = INITIAL_ARENA_CHUNKS /\
        (forall k, gfree p k = true <-> 0 <= k < INITIAL_ARENA_CHUNKS * 512)
  end.
Proof. apply mheap_init_spec. Qed.

Lemma mheap_init_ok_witness :
  exists p, mheap_init (fun _ => Some 4097) (mkMheap None false) = Ok (mkMheap (Some p) true) /\ pa_inv p.
Proof.
  destruct (mheap_init_ok (fun _ => Some 4097) (mkMheap None false) eq_refl) as (p & E & Hp & _); [lia|lia|].
  exists p. split; [exact E|exact Hp].
Defined.

(** [mheap_alloc_pages] never panics.  It serves a request of [n] pages whenever a run of [n]
    free pages exists or the reserve still has the chunks the request needs, growing the arena
    by at least those; it fails, changing nothing, exactly when neither holds. *)
Theorem mheap_alloc_pages_total st p n : heap_inv st p -> 1 <= n <= 2 ^ 50 ->
  exists st' p' addr, mheap_alloc_pages st n = Ok (st', addr) /\ heap_inv st' p' /\
    (addr = ALLOC_FAILED <-> (forall P, 0 <= P -> ~ run (gfree p) P n) /\ room p < chunks_for n) /\
    (addr = ALLOC_FAILED -> p' = p) /\
    (addr <> ALLOC_FAILED -> exists g P, addr = arena_base p + P * PAGE_SIZE /\ took p p' n g P /\ 0 <= g <= room p).
Proof.
  intros Hi Hn. pose proof (geo_base _ (inv_geo _ (proj2 Hi))) as (Hb & _).
  pose proof (geo_end _ (inv_geo _ (proj2 Hi))) as Hend.
  destruct (mheap_alloc_pages_ok st p n Hi Hn) as [(E & Hno & Hr)|(p' & g & P & E & Hp' & T & Hg)].
  - exists (mkMheap (Some p) (MHEAP_READY st)), p, ALLOC_FAILED. split_and!; try done. by split; [|apply Hi].
  - pose proof (geo_end _ (inv_geo _ Hp')) as He. pose proof (tk_range _ _ _ _ _ T) as HP.
    exists (mkMheap (Some p') (MHEAP_READY st)), p', (arena_base p + P * 8192).
    assert (arena_base p + P * 8192 <> ALLOC_FAILED) as Ha by (unfold ALLOC_FAILED; lia).
    assert (0 <= g <= room p) as Hgr by (unfold room, chunks_for in *; lia).
    split_and!; try done.
    + split; [done|]. intros [Hno Hr]. exfalso. destruct Hg as [[_ R]|[_ Hg]]; [|lia]. by apply (Hno P); [lia|].
    + intros _. by exists g, P.
Qed.

Lemma mheap_alloc_pages_total_witness : exists p, new (2 ^ 22) 1 2 = Some p /\
  exists st' p' addr, mheap_alloc_pages (mkMheap (Some p) true) 600 = Ok (st', addr) /\ heap_inv st' p' /\
    (addr = ALLOC_FAILED <-> (forall P, 0 <= P -> ~ run (gfree p) P 600) /\ room p < chunks_for 600) /\
    (addr = ALLOC_FAILED -> p' = p) /\
    (addr <> ALLOC_FAILED -> exists g P, addr = arena_base p + P * PAGE_SIZE /\ took p p' 600 g P /\ 0 <= g <= room p).
Proof.
  destruct small_arena as (p & E & Hp & _). exists p. split; [exact E|].
  apply (mheap_alloc_pages_total (mkMheap (Some p) true) p 600); [by split|lia].
Defined.

(** For a layout whose alignment is at most the page size, [mheap_alloc] returns an aligned
    block that covers the requested bytes, or ends the process when the heap is exhausted; and
    [mheap_free] with the same layout makes its pages free again. *)
Theorem mheap_layout_roundtrip st p size align : heap_inv st p ->
  0 < size <= 2 ^ 62 -> 0 < align -> PAGE_SIZE mod align = 0 ->
  mheap_alloc st (mkLayout size align) = Exit 2 \/
  exists st1 p1 addr st2 p2 g, mheap_alloc st (mkLayout size align) = Ok (st1, addr) /\ heap_inv st1 p1 /\
    addr mod align = 0 /\ in_arena p1 (addr, pages_for (Z.max size align)) /\ size <= pages_for (Z.max size align) * PAGE_SIZE /\
    mheap_free st1 addr (mkLayout size align) = Ok st2 /\ heap_inv st2 p2 /\ 0 <= g /\
    (forall k, gfree p2 k = gfree p k || in_range (end_chunk p * 512) (g * 512) k).
Proof.
  intros Hi Hs Ha0 Ha. change PAGE_SIZE with 8192 in *.
  assert (align <= 8192) as Hal by (apply Z.divide_pos_le; [lia|by apply Z.mod_divide; [lia|]]).
  unfold mheap_alloc, mheap_free. cbn [layout_size layout_align]. rewrite (pages_for_ok (Z.max size align)) by lia.
  set (n := (Z.max size align + 8191) / 8192). assert (1 <= n <= 2 ^ 50 /\ size <= n * 8192) as [Hn Hc] by (unfold n; lia).
  clearbody n. pose proof (geo_base _ (inv_geo _ (proj2 Hi))) as (Hb & Hb' & _).
  destruct (mheap_alloc_pages_ok st p n Hi Hn) as [(-> & _)|(p1 & g & P & -> & Hp1 & T & Hg)]; [by left|right].
  cbn [mbind outcome_bind]. destruct (tk_range _ _ _ _ _ T) as [HP Hend].
  rewrite decide_False by (unfold ALLOC_FAILED; lia). pose proof (tk_base _ _ _ _ _ T) as Hbase.
  destruct (free_range_ok p1 P n Hp1 HP ltac:(lia) Hend) as (p2 & E2 & Hp2 & _ & Hk2).
  exists (mkMheap (Some p1) (MHEAP_READY st)), p1, (arena_base p + P * 8192), (mkMheap (Some p2) (MHEAP_READY st)), p2, g.
  assert (0 <= g) as Hg0 by (unfold chunks_for in *; lia).
  assert (Z.divide align 8192) as Hd by (apply Z.mod_divide; (done || lia)).
  split_and!; try done.
  - apply Z.mod_divide; [lia|]. apply Z.divide_add_r.
    + apply (Z.divide_trans _ 8192); [done|]. exists (arena_base p / 8192). lia.
    + by apply Z.divide_mul_r.
  - exists P. cbn [fst snd]. rewrite Hbase. split_and!; (done || lia).
  - unfold mheap_free_pages. cbn [MHEAP]. rewrite <- Hbase, E2. done.
  - intros k. rewrite Hk2, (tk_after _ _ _ _ _ T). pose proof (tk_free _ _ _ _ _ T k) as Hf. unfold in_range.
    pose proof (tk_end _ _ _ _ _ T) as He. destruct (gfree p k); [cbn [orb andb]; by destruct (bool_decide _)|]. cbn [orb].
    repeat case_bool_decide; try done; exfalso; destruct Hf; (done || lia).
Qed.

Lemma mheap_layout_roundtrip_witness : exists p, new (2 ^ 22) 1 2 = Some p /\
  (mheap_alloc (mkMheap (Some p) true) (mkLayout 40000 4096) = Exit 2 \/
   exists st1 p1 addr st2 p2 g, mheap_alloc (mkMheap (Some p) true) (mkLayout 40000 4096) = Ok (st1, addr) /\ heap_inv st1 p1 /\
    addr mod 4096 = 0 /\ in_arena p1 (addr, pages_for (Z.max 40000 4096)) /\ 40000 <= pages_for (Z.max 40000 4096) * PAGE_SIZE /\
    mheap_free st1 addr (mkLayout 40000 4096) = Ok st2 /\ heap_inv st2 p2 /\ 0 <= g /\
    (forall k, gfree p2 k = gfree p k || in_range (end_chunk p * 512) (g * 512) k)).
Proof.
  destruct small_arena as (p & E & Hp & _). exists p. split; [exact E|].
  apply (mheap_layout_roundtrip (mkMheap (Some p) true) p 40000 4096); [by split|lia|lia|done].
Defined.

(** Alignments above the page size are not honoured: on a fresh two-chunk arena, after one
    one-page block, a 64 KiB request with 64 KiB alignment is served at an address that is
    only 8 KiB aligned. *)
Theorem mheap_large_align_ignored :
  match new (2 ^ 22) 1 2 with
  | Some p =>
      match mheap_alloc (mkMheap (Some p) true) (mkLayout 4096 8) with
      | Ok (st, _) =>
          match mheap_alloc st (mkLayout 65536 65536) with
          | Ok (_, addr) => addr mod 65536 = 8192
          | _ => False
          end
      | _ => False
      end
  | None => False
  end.
Proof. vm_compute. reflexivity. Qed.
