(* ===== verification/SizeClasses.v ===== *)
(** Size classes: src/src/runtime/mcentral/sizeclasses.rs.

    The tables are the source's; [class_for] maps a request to a class.  A table index out of
    range would panic; [class_for_ok] shows that it never is. *)
From Stdlib Require Import ZArith Lia.
From stdpp Require Import base tactics numbers list list_numbers option.
From S2P Require Import Prelude Outcome.
Open Scope Z_scope.
Local Open Scope goish_scope.

Definition NUM_SIZE_CLASSES : Z := 68.
Definition MAX_SMALL_SIZE : Z := 32768.
Definition SMALL_SIZE_DIV : Z := 8.
Definition SMALL_SIZE_MAX : Z := 1024.
Definition LARGE_SIZE_DIV : Z := 128.
Definition MIN_HEAP_ALIGN : Z := 8.

Definition SIZE_OF_CLASS : list Z :=
  [0; 8; 16; 24; 32; 48; 64; 80; 96; 112; 128; 144; 160; 176; 192; 208; 224; 240; 256; 288; 320;
   352; 384; 416; 448; 480; 512; 576; 640; 704; 768; 896; 1024; 1152; 1280; 1408; 1536; 1792; 2048;
   2304; 2688; 3072; 3200; 3456; 4096; 4864; 5376; 6144; 6528; 6784; 6912; 8192; 9472; 9728; 10240;
   10880; 12288; 13568; 14336; 16384; 18432; 19072; 20480; 21760; 24576; 27264; 28672; 32768].

Definition NPAGES_OF_CLASS : list Z :=
  [0; 1; 1; 1; 1; 1; 1; 1; 1; 1; 1; 1; 1; 1; 1; 1; 1; 1; 1; 1; 1; 1; 1; 1; 1; 1; 1; 1; 1; 1; 1; 1;
   1; 1; 1; 2; 1; 2; 1; 2; 1; 3; 2; 3; 1; 3; 2; 3; 4; 5; 6; 1; 7; 6; 5; 4; 3; 5; 7; 2; 9; 7; 5; 8;
   3; 10; 7; 4].

Definition SIZE_TO_CLASS_8 : list Z :=
  [0; 1; 2; 3; 4; 5; 5; 6; 6; 7; 7; 8; 8; 9; 9; 10; 10; 11; 11; 12; 12; 13; 13; 14; 14; 15; 15; 16;
   16; 17; 17; 18; 18; 19; 19; 19; 19; 20; 20; 20; 20; 21; 21; 21; 21; 22; 22; 22; 22; 23; 23; 23;
   23; 24; 24; 24; 24; 25; 25; 25; 25; 26; 26; 26; 26; 27; 27; 27; 27; 27; 27; 27; 27; 28; 28; 28;
   28; 28; 28; 28; 28; 29; 29; 29; 29; 29; 29; 29; 29; 30; 30; 30; 30; 30; 30; 30; 30; 31; 31; 31;
   31; 31; 31; 31; 31; 31; 31; 31; 31; 31; 31; 31; 31; 32; 32; 32; 32; 32; 32; 32; 32; 32; 32; 32;
   32; 32; 32; 32; 32].

Definition SIZE_TO_CLASS_128 : list Z :=
  [32; 33; 34; 35; 36; 37; 37; 38; 38; 39; 39; 40; 40; 40; 41; 41; 41; 42; 43; 43; 44; 44; 44; 44;
   44; 45; 45; 45; 45; 45; 45; 46; 46; 46; 46; 47; 47; 47; 47; 47; 47; 48; 48; 48; 49; 49; 50; 51;
   51; 51; 51; 51; 51; 51; 51; 51; 51; 52; 52; 52; 52; 52; 52; 52; 52; 52; 52; 53; 53; 54; 54; 54;
   54; 55; 55; 55; 55; 55; 56; 56; 56; 56; 56; 56; 56; 56; 56; 56; 56; 57; 57; 57; 57; 57; 57; 57;
   57; 57; 57; 58; 58; 58; 58; 58; 58; 59; 59; 59; 59; 59; 59; 59; 59; 59; 59; 59; 59; 59; 59; 59;
   59; 60; 60; 60; 60; 60; 60; 60; 60; 60; 60; 60; 60; 60; 60; 60; 60; 61; 61; 61; 61; 61; 62; 62;
   62; 62; 62; 62; 62; 62; 62; 62; 62; 63; 63; 63; 63; 63; 63; 63; 63; 63; 63; 64; 64; 64; 64; 64;
   64; 64; 64; 64; 64; 64; 64; 64; 64; 64; 64; 64; 64; 64; 64; 64; 64; 65; 65; 65; 65; 65; 65; 65;
   65; 65; 65; 65; 65; 65; 65; 65; 65; 65; 65; 65; 65; 65; 66; 66; 66; 66; 66; 66; 66; 66; 66; 66;
   66; 67; 67; 67; 67; 67; 67; 67; 67; 67; 67; 67; 67; 67; 67; 67; 67; 67; 67; 67; 67; 67; 67; 67;
   67; 67; 67; 67; 67; 67; 67; 67; 67].

Definition class_for (size align : Z) : outcome (option Z) :=
  let eff := if decide (size = 0) then 1 else size in
  let eff := if decide (align > MIN_HEAP_ALIGN)
             then Z.land (eff +! align -! 1) (not64 (align -! 1)) else eff in
  if decide (eff > MAX_SMALL_SIZE) then Ok None
  else
    c ← of_option
          (if decide (eff <= SMALL_SIZE_MAX)
           then idx SIZE_TO_CLASS_8 ((eff +! SMALL_SIZE_DIV -! 1) / SMALL_SIZE_DIV)
           else
             let off := eff -! SMALL_SIZE_MAX in
             idx SIZE_TO_CLASS_128 ((off +! LARGE_SIZE_DIV -! 1) / LARGE_SIZE_DIV));
    Ok (Some c).

(** Slots per span, as [init_span] computes it. *)
Definition nelems_of_class (c : Z) : option Z :=
  size ← idx SIZE_OF_CLASS c;
  npages ← idx NPAGES_OF_CLASS c;
  Some (npages * 8192 / size).

(** ** The tables *)

(** [size] rounded up to the alignment the code applies. *)
Definition round_up (size align : Z) : Z :=
  if decide (align > MIN_HEAP_ALIGN) then (Z.max size 1 + align - 1) / align * align else Z.max size 1.

(** Table entry [j] of the small table serves the sizes 8(j-1)+1 .. 8j, entry [j] of the large
    one 1024+128(j-1)+1 .. 1024+128j: the class fits them, the class below does not, and the
    slot size keeps the alignments. *)
Definition entry_ok (lo hi c : Z) : bool :=
  match idx SIZE_OF_CLASS c, idx SIZE_OF_CLASS (c - 1) with
  | Some s, Some s' =>
      bool_decide (1 <= c < NUM_SIZE_CLASSES) && bool_decide (s' <= lo) && bool_decide (hi <= s) && (s mod 8 =? 0) &&
      forallb (fun a => negb (hi mod a =? 0) || (s mod a =? 0)) [16; 32; 64; 128]
  | _, _ => false
  end.

Definition small_entry (j : Z) : bool :=
  match idx SIZE_TO_CLASS_8 j with Some c => entry_ok (8 * (j - 1)) (8 * j) c | None => false end.

Definition large_entry (j : Z) : bool :=
  match idx SIZE_TO_CLASS_128 j with Some c => entry_ok (1024 + 128 * (j - 1)) (1024 + 128 * j) c | None => false end.

Lemma small_entries : forallb small_entry (seqZ 1 128) = true.
Proof. vm_compute. reflexivity. Qed.

Lemma large_entries : forallb large_entry (seqZ 1 248) = true.
Proof. vm_compute. reflexivity. Qed.

(** ** [class_for] *)

(** [c] is the smallest class whose slots hold [eff] bytes, with slot size [s]. *)
Definition best_class (eff c s : Z) : Prop :=
  1 <= c < NUM_SIZE_CLASSES /\ idx SIZE_OF_CLASS c = Some s /\ eff <= s /\
  exists s', idx SIZE_OF_CLASS (c - 1) = Some s' /\ s' < eff.

Lemma entry_spec lo hi c eff : entry_ok lo hi c = true -> lo < eff <= hi ->
  exists s, best_class eff c s /\ s mod 8 = 0 /\ forall a, In a [16; 32; 64; 128] -> hi mod a = 0 -> s mod a = 0.
Proof.
  unfold entry_ok. intros H Heff. destruct (idx SIZE_OF_CLASS c) as [s|] eqn:Es; [|done].
  destruct (idx SIZE_OF_CLASS (c - 1)) as [s'|] eqn:Es'; [|done].
  repeat (apply andb_true_iff in H as [H ?]). rewrite forallb_forall in *.
  repeat match goal with H : bool_decide _ = true |- _ => apply bool_decide_eq_true in H end.
  exists s. split; [|split; [lia|]].
  - split; [lia|]. split; [done|]. split; [lia|]. exists s'. split; [done|lia].
  - intros a Ha Hm. specialize (H0 a Ha). rewrite Hm in H0. cbn in H0. lia.
Qed.

Lemma seq_entry (f : Z -> bool) n j : forallb f (seqZ 1 n) = true -> 1 <= j <= n -> f j = true.
Proof. intros H Hj. rewrite forallb_forall in H. apply H, list_elem_of_In, elem_of_seqZ. lia. Qed.

Lemma pow2_align k : 0 <= k <= 60 -> 0 < 2 ^ k <= 2 ^ 60.
Proof. intros Hk. split; [lia|]. apply Z.pow_le_mono_r; lia. Qed.

Lemma eff_round_up size k : 0 <= size <= 2 ^ 60 -> 0 <= k <= 60 ->
  (let eff := if decide (size = 0) then 1 else size in
   if decide (2 ^ k > MIN_HEAP_ALIGN) then Z.land (eff +! 2 ^ k -! 1) (not64 (2 ^ k -! 1)) else eff)
  = round_up size (2 ^ k).
Proof.
  intros Hs Hk. cbn zeta. pose proof (pow2_align k Hk) as Ha.
  assert ((if decide (size = 0) then 1 else size) = Z.max size 1) as -> by (case_decide; lia).
  unfold round_up. case_decide; [|done].
  unfold add64, sub64, wrap64. rewrite Zminus_mod_idemp_l. rewrite !Z.mod_small by lia.
  rewrite land_not_mask by (unfold is_u64; lia). done.
Qed.

Lemma round_up_multiple size k : 0 <= k -> 2 ^ k > 8 -> round_up size (2 ^ k) mod 2 ^ k = 0.
Proof. intros Hk H. unfold round_up. rewrite decide_True by done. apply Z.mod_mul. lia. Qed.

Lemma round_up_bounds size k : 0 <= size -> 0 <= k -> Z.max size 1 <= round_up size (2 ^ k).
Proof.
  intros Hs Hk. unfold round_up. case_decide; [|lia].
  pose proof (Z.div_mod (Z.max size 1 + 2 ^ k - 1) (2 ^ k) ltac:(lia)).
  pose proof (Z.mod_pos_bound (Z.max size 1 + 2 ^ k - 1) (2 ^ k) ltac:(lia)). lia.
Qed.

Lemma small_pow2 k : 0 <= k -> 2 ^ k <= 128 -> 2 ^ k <= 8 \/ In (2 ^ k) [16; 32; 64; 128].
Proof.
  intros Hk H. assert (k < 8) by (apply (Z.pow_lt_mono_r_iff 2); lia).
  assert (k = 0 \/ k = 1 \/ k = 2 \/ k = 3 \/ k = 4 \/ k = 5 \/ k = 6 \/ k = 7) as Hc by lia.
  destruct Hc as [-> | [-> | [-> | [-> | [-> | [-> | [-> | ->]]]]]]]; cbn; lia.
Qed.

Lemma divides_8 k s : 0 <= k -> 2 ^ k <= 8 -> s mod 8 = 0 -> s mod 2 ^ k = 0.
Proof.
  intros Hk H Hs. assert (k < 4) by (apply (Z.pow_lt_mono_r_iff 2); lia).
  assert (k = 0 \/ k = 1 \/ k = 2 \/ k = 3) as Hc by lia. destruct Hc as [-> | [-> | [-> | ->]]]; cbn; lia.
Qed.

Lemma small_class eff k : 1 <= eff <= 1024 -> 0 <= k -> (2 ^ k > 8 -> eff mod 2 ^ k = 0) ->
  exists c s, idx SIZE_TO_CLASS_8 ((eff + 8 - 1) / 8) = Some c /\ best_class eff c s /\ (2 ^ k <= 128 -> s mod 2 ^ k = 0).
Proof.
  intros He Hk Hm. set (j := (eff + 8 - 1) / 8).
  assert (1 <= j <= 128 /\ 8 * (j - 1) < eff <= 8 * j) as [Hj Hr] by (unfold j; lia).
  pose proof (seq_entry _ _ j small_entries Hj) as Hent. unfold small_entry in Hent.
  destruct (idx SIZE_TO_CLASS_8 j) as [c|]; [|done].
  destruct (entry_spec _ _ _ _ Hent Hr) as (s & Hc & H8 & Ha). exists c, s. split; [done|]. split; [done|].
  intros Hle. destruct (small_pow2 k Hk Hle) as [?|Hin]; [apply divides_8; lia|]. apply Ha; [done|].
  cbn in Hin. destruct Hin as [Eq|[Eq|[Eq|[Eq|[]]]]]; rewrite <- Eq in *; lia.
Qed.

Lemma large_class eff k : 1024 < eff <= 32768 -> 0 <= k ->
  exists c s, idx SIZE_TO_CLASS_128 ((eff - 1024 + 128 - 1) / 128) = Some c /\ best_class eff c s /\
    (2 ^ k <= 128 -> s mod 2 ^ k = 0).
Proof.
  intros He Hk. set (j := (eff - 1024 + 128 - 1) / 128).
  assert (1 <= j <= 248 /\ 1024 + 128 * (j - 1) < eff <= 1024 + 128 * j) as [Hj Hr] by (unfold j; lia).
  pose proof (seq_entry _ _ j large_entries Hj) as Hent. unfold large_entry in Hent.
  destruct (idx SIZE_TO_CLASS_128 j) as [c|]; [|done].
  destruct (entry_spec _ _ _ _ Hent Hr) as (s & Hc & H8 & Ha). exists c, s. split; [done|]. split; [done|].
  intros Hle. destruct (small_pow2 k Hk Hle) as [?|Hin]; [apply divides_8; lia|].
  assert (s mod 128 = 0) by (apply Ha; [cbn; tauto|lia]).
  cbn in Hin. destruct Hin as [Eq|[Eq|[Eq|[Eq|[]]]]]; rewrite <- Eq in *; lia.
Qed.

Lemma table_class eff k : 1 <= eff <= 32768 -> 0 <= k -> (2 ^ k > 8 -> eff mod 2 ^ k = 0) ->
  exists c s, (if decide (eff <= SMALL_SIZE_MAX)
     then idx SIZE_TO_CLASS_8 ((eff +! SMALL_SIZE_DIV -! 1) / SMALL_SIZE_DIV)
     else idx SIZE_TO_CLASS_128 ((eff -! SMALL_SIZE_MAX +! LARGE_SIZE_DIV -! 1) / LARGE_SIZE_DIV)) = Some c /\
     best_class eff c s /\ (2 ^ k <= 128 -> s mod 2 ^ k = 0).
Proof.
  intros He Hk Hm. change SMALL_SIZE_DIV with 8. change LARGE_SIZE_DIV with 128. change SMALL_SIZE_MAX with 1024.
  unfold add64, sub64, wrap64. rewrite !Zminus_mod_idemp_l. case_decide; rewrite !Z.mod_small by lia.
  - apply small_class; (done || lia).
  - apply large_class; lia.
Qed.

(** ** Theorems *)

(** [class_for] on every size and power-of-two alignment. *)
Lemma class_for_spec size k : 0 <= size <= 2 ^ 60 -> 0 <= k <= 60 ->
  let eff := round_up size (2 ^ k) in
  if decide (eff > MAX_SMALL_SIZE) then class_for size (2 ^ k) = Ok None
  else exists c s, class_for size (2 ^ k) = Ok (Some c) /\ best_class eff c s /\ size <= s /\
         (2 ^ k <= 128 -> forall base i, base mod 8192 = 0 -> (base + i * s) mod 2 ^ k = 0).
Proof.
  intros Hs Hk eff. unfold class_for. pose proof (eff_round_up size k Hs Hk) as E0. cbn zeta in E0 |- *. rewrite E0. fold eff.
  pose proof (round_up_bounds size k ltac:(lia) ltac:(lia)) as Hb. fold eff in Hb.
  destruct (decide (eff > MAX_SMALL_SIZE)) as [Hbig|Hbig]; [done|]. unfold MAX_SMALL_SIZE in Hbig.
  destruct (table_class eff k) as (c & s & E & Hc & Hal); [lia|lia|intros; apply round_up_multiple; lia|].
  rewrite E. cbn [of_option mbind outcome_bind]. exists c, s. split; [done|]. split; [done|].
  destruct Hc as (? & ? & ? & ?). split; [lia|]. intros Hle base i Hbase.
  specialize (Hal Hle). apply Z.mod_divide in Hal; [|lia]. apply Z.mod_divide; [lia|].
  apply Z.divide_add_r; [|by apply Z.divide_mul_r].
  apply (Z.divide_trans _ 8192); [|by apply Z.mod_divide].
  assert (k < 8) by (apply (Z.pow_lt_mono_r_iff 2); lia). exists (2 ^ (13 - k)).
  rewrite <- Z.pow_add_r by lia. by replace (13 - k + k) with 13 by lia.
Qed.

(** [class_for] with a power-of-two alignment declines exactly the requests whose rounded size
    exceeds 32 KiB, and otherwise picks the smallest class whose slots hold the rounded size;
    for alignments up to 128 every slot of a page-aligned span is then aligned.  No table
    index is out of range. *)
Theorem class_for_ok size k : 0 <= size <= 2 ^ 60 -> 0 <= k <= 60 ->
  let eff := round_up size (2 ^ k) in
  if decide (eff > MAX_SMALL_SIZE) then class_for size (2 ^ k) = Ok None
  else exists c s, class_for size (2 ^ k) = Ok (Some c) /\ best_class eff c s /\ size <= s /\
         (2 ^ k <= 128 -> forall base i, base mod 8192 = 0 -> (base + i * s) mod 2 ^ k = 0).
Proof. apply class_for_spec. Qed.

Lemma class_for_ok_witness :
  exists c s, class_for 100 64 = Ok (Some c) /\ best_class 128 c s /\ 100 <= s /\
         (64 <= 128 -> forall base i, base mod 8192 = 0 -> (base + i * s) mod 64 = 0).
Proof. apply (class_for_ok 100 6); lia. Defined.

(** [class_for] does not honour alignments above 128: a 2560-byte request aligned to 256 gets
    the 2688-byte class, whose second slot is only 128-byte aligned. *)
Theorem class_for_large_align :
  class_for 2560 256 = Ok (Some 40) /\ idx SIZE_OF_CLASS 40 = Some 2688 /\ (0 + 1 * 2688) mod 256 = 128.
Proof. vm_compute. done. Qed.
