(* ===== verification/Span.v ===== *)
(** Spans of the central allocator: src/src/runtime/mcentral/span.rs, with the per-span parts
    of [init_span], [cacheSpan] and [uncacheSpan] of src/src/runtime/mcentral/mod.rs.

    A [Span] is the source's record; the atomic fields hold their current value and every
    function is one step of the owner or of a freeing thread, so histories are sequences of
    such steps.  u16 counters wrap.  [None] is a panic ([debug_assert!], an index) or a loop
    out of fuel; the theorems show that neither happens. *)
From Stdlib Require Import ZArith Lia.
From stdpp Require Import base tactics numbers list list_numbers option.
From S2P Require Import Prelude Outcome Runs PallocBits SizeClasses.
Open Scope Z_scope.

Definition NIL_SPAN : Z := 0.
Definition MAX_OBJS_PER_SPAN : Z := 1024.
Definition ALLOC_BITS_WORDS : Z := MAX_OBJS_PER_SPAN / 64.

Definition wrap16 (x : Z) : Z := x mod 2 ^ 16.

Record Span := mkSpan {
  base : Z;
  npages : Z;
  elemsize : Z;
  nelems : Z;
  sizeclass : Z;
  alloc_count : Z;
  freeindex : Z;
  alloc_bits : list Z;
  alloc_cache : Z;
  next : Z;
  prev : Z;
  cached : bool
}.

Definition span_new : Span :=
  mkSpan 0 0 0 0 0 0 0 (replicate (Z.to_nat ALLOC_BITS_WORDS) 0) 0 NIL_SPAN NIL_SPAN false.

(** [reset] stores the same values field by field, whatever the span held. *)
Definition reset (s : Span) : Span :=
  mkSpan 0 0 0 0 0 0 0 (map (fun _ => 0) (alloc_bits s)) 0 NIL_SPAN NIL_SPAN false.

(** Stores to single fields. *)
Definition set_count (s : Span) (c : Z) : Span :=
  mkSpan (base s) (npages s) (elemsize s) (nelems s) (sizeclass s) c (freeindex s) (alloc_bits s) (alloc_cache s)
    (next s) (prev s) (cached s).
Definition set_freeindex (s : Span) (f : Z) : Span :=
  mkSpan (base s) (npages s) (elemsize s) (nelems s) (sizeclass s) (alloc_count s) f (alloc_bits s) (alloc_cache s)
    (next s) (prev s) (cached s).
Definition set_bits (s : Span) (b : list Z) : Span :=
  mkSpan (base s) (npages s) (elemsize s) (nelems s) (sizeclass s) (alloc_count s) (freeindex s) b (alloc_cache s)
    (next s) (prev s) (cached s).
Definition set_cache (s : Span) (c : Z) : Span :=
  mkSpan (base s) (npages s) (elemsize s) (nelems s) (sizeclass s) (alloc_count s) (freeindex s) (alloc_bits s) c
    (next s) (prev s) (cached s).
Definition set_cached (s : Span) (c : bool) : Span :=
  mkSpan (base s) (npages s) (elemsize s) (nelems s) (sizeclass s) (alloc_count s) (freeindex s) (alloc_bits s)
    (alloc_cache s) (next s) (prev s) c.

Definition is_full (s : Span) : bool := alloc_count s =? nelems s.
Definition is_empty (s : Span) : bool := alloc_count s =? 0.

(** [alloc_count.fetch_add(claimed)], skipped for zero. *)
Definition claim_count (s : Span) (claimed : Z) : Span :=
  if decide (claimed <> 0) then set_count s (wrap16 (alloc_count s + claimed)) else s.

Definition refill_alloc_cache (s : Span) (wi : Z) : option (Span * Z) :=
  if decide (wi < ALLOC_BITS_WORDS) then
    load ← idx (alloc_bits s) wi;
    let claim_mask := not64 load in
    bits ← (if decide (claim_mask <> 0) then upd (alloc_bits s) wi (Z.lor load claim_mask) else Some (alloc_bits s));
    Some (set_cache (set_bits s bits) claim_mask, count_ones claim_mask)
  else None.

(** [while bit_index == 64]: the span, and the window [Some (sfreeindex, bit_index, acache)]
    when a bit was found. *)
Fixpoint next_free_loop (fuel : nat) (s : Span) (sfreeindex acache : Z) : option (Span * option (Z * Z * Z)) :=
  let bit_index := trailing_zeros acache in
  if decide (bit_index = 64) then
    match fuel with
    | O => None
    | S fuel =>
        let sfreeindex := Z.land (wrap16 (sfreeindex + 64)) (2 ^ 16 - 1 - 63) in
        if decide (sfreeindex >= nelems s) then Some (set_freeindex s (nelems s), None)
        else
          '(s, claimed) ← refill_alloc_cache s (sfreeindex / 64);
          let s := claim_count s claimed in
          next_free_loop fuel s sfreeindex (alloc_cache s)
    end
  else Some (s, Some (sfreeindex, bit_index, acache)).

Definition next_free_owner (s : Span) : option (Span * option Z) :=
  let sfreeindex := freeindex s in
  if decide (sfreeindex >= nelems s) then Some (s, None)
  else
    '(s, window) ← next_free_loop 17 s sfreeindex (alloc_cache s);
    match window with
    | None => Some (s, None)
    | Some (sfreeindex, bit_index, acache) =>
        let slot := wrap16 (sfreeindex + bit_index) in
        if decide (slot >= nelems s) then Some (set_freeindex s (nelems s), None)
        else
          let s := set_cache s (if decide (bit_index + 1 < 64) then shr64 acache (bit_index + 1) else 0) in
          let new_freeindex := wrap16 (slot + 1) in
          s ← (if decide (new_freeindex mod 64 = 0 /\ new_freeindex < nelems s) then
                 '(s, claimed) ← refill_alloc_cache s (new_freeindex / 64);
                 Some (claim_count s claimed)
               else Some s);
          Some (set_freeindex s new_freeindex, Some slot)
    end.

Definition release_unsold (s : Span) : option Span :=
  let acache := alloc_cache s in
  if decide (acache = 0) then Some s
  else
    let wi := freeindex s / 64 in
    let bit_offset := freeindex s mod 64 in
    s ← (if decide (wi < ALLOC_BITS_WORDS) then
           let release_mask := shl64 acache bit_offset in
           if decide (release_mask <> 0) then
             let cleared := count_ones release_mask in
             w ← idx (alloc_bits s) wi;
             bits ← upd (alloc_bits s) wi (Z.land w (not64 release_mask));
             Some (set_count (set_bits s bits) (wrap16 (alloc_count s - cleared)))
           else Some s
         else Some s);
    Some (set_cache s 0).

(** [while wi < ALLOC_BITS_WORDS]; the fuel is the number of words left. *)
Fixpoint alloc_slot_loop (fuel : nat) (s : Span) (sfreeindex wi : Z) : option (Span * option Z) :=
  match fuel with
  | O => Some (s, None)
  | S fuel =>
      word ← idx (alloc_bits s) wi;
      let inv := not64 word in
      let word_base := wrap16 (wi * 64) in
      let start_bit := if decide (word_base < sfreeindex) then sfreeindex - word_base else 0 in
      let mask := if decide (start_bit = 0) then u64_max else shl64 u64_max start_bit in
      let candidate := Z.land inv mask in
      if decide (candidate = 0) then alloc_slot_loop fuel s sfreeindex (wi + 1)
      else
        let bit := trailing_zeros candidate in
        let slot := wrap16 (word_base + bit) in
        if decide (slot >= nelems s) then Some (set_freeindex s (nelems s), None)
        else
          bits ← upd (alloc_bits s) wi (Z.lor word (shl64 1 bit));
          Some (set_freeindex (set_count (set_bits s bits) (wrap16 (alloc_count s + 1))) (wrap16 (slot + 1)), Some slot)
  end.

Definition alloc_slot_locked (s : Span) : option (Span * option Z) :=
  let sfreeindex := freeindex s in
  if decide (sfreeindex >= nelems s) then Some (s, None)
  else
    let wi := sfreeindex / 64 in
    alloc_slot_loop (Z.to_nat (ALLOC_BITS_WORDS - wi)) s sfreeindex wi.

Definition free_slot_locked (s : Span) (i : Z) : option Span :=
  let wi := i / 64 in
  if decide (wi >= ALLOC_BITS_WORDS) then Some s
  else
    let mask := shl64 1 (i mod 64) in
    prev ← idx (alloc_bits s) wi;
    bits ← upd (alloc_bits s) wi (Z.land prev (not64 mask));
    let s := set_bits s bits in
    if decide (Z.land prev mask <> 0) then
      let s := set_count s (wrap16 (alloc_count s - 1)) in
      Some (if decide (i < freeindex s) then set_freeindex s i else s)
    else Some s.

Definition free_slot_atomic (s : Span) (i : Z) : option Span :=
  let wi := i / 64 in
  if decide (wi >= ALLOC_BITS_WORDS) then Some s
  else
    let mask := shl64 1 (i mod 64) in
    prev ← idx (alloc_bits s) wi;
    bits ← upd (alloc_bits s) wi (Z.land prev (not64 mask));
    let s := set_bits s bits in
    if decide (Z.land prev mask <> 0) then Some (set_count s (wrap16 (alloc_count s - 1))) else Some s.

Definition slot_addr (s : Span) (i : Z) : Z := add64 (base s) (mul64 i (elemsize s)).
Definition slot_of (s : Span) (addr : Z) : Z := wrap16 (sub64 addr (base s) / elemsize s).

(** [debug_audit]'s test: the bitmap's population equals [alloc_count]. *)
Definition audit (s : Span) : bool :=
  foldr (fun w n => count_ones w + n) 0 (alloc_bits s) =? alloc_count s.

(** The span part of [init_span]: class [c] backed by pages at [b]. *)
Definition init_span (s : Span) (c b : Z) : option Span :=
  size ← idx SIZE_OF_CLASS c;
  np ← idx NPAGES_OF_CLASS c;
  Some (mkSpan b np size (wrap16 (np * 8192 / size)) c 0 0 (map (fun _ => 0) (alloc_bits s)) 0 NIL_SPAN NIL_SPAN (cached s)).

(** The span part of [cacheSpan]: rewind, prime the cache, mark it cached. *)
Definition cache_span (s : Span) : option Span :=
  let s := set_freeindex s 0 in
  '(s, claimed) ← refill_alloc_cache s 0;
  Some (set_cached (claim_count s claimed) true).

(** The span part of [uncacheSpan]. *)
Definition uncache_span (s : Span) : option Span :=
  s ← release_unsold s;
  Some (set_cached s false).
