(* ===== verification/SpanSpec.v ===== *)
(** Correctness of spans: no slot is handed out twice and the bitmap's population is always
    [alloc_count], over every history of caching, owner allocation, locked allocation and
    release of one span; and the two ways in which a span can lose free slots. *)
From Stdlib Require Import ZArith Lia.
From stdpp Require Import base tactics numbers list list_numbers option.
From S2P Require Import Prelude Outcome Runs PallocBits SizeClasses Span.
Open Scope Z_scope.

(** Projections of field stores. *)
Ltac span_simpl :=
  cbn [base npages elemsize nelems sizeclass alloc_count freeindex alloc_bits alloc_cache next prev cached
       set_count set_freeindex set_bits set_cache set_cached].

(** ** Words of the bitmap *)

Definition wf_words (b : list Z) : Prop := zlen b = 16 /\ Forall is_u64 b.

(** Bit [i] of the bitmap is bit [i mod 64] of [m] in word [wi]. *)
Definition in_word (wi m i : Z) : bool := bool_decide (i / 64 = wi) && Z.testbit m (i mod 64).

Lemma word_at b k : wf_words b -> 0 <= k < 16 -> exists w, idx b k = Some w /\ is_u64 w.
Proof.
  intros [Hl Hf] Hk. destruct (idx_lt b k ltac:(lia)) as [w E]. exists w. split; [done|].
  apply idx_Some in E as [_ E]. rewrite Forall_lookup in Hf. by apply (Hf (Z.to_nat k)).
Qed.

Lemma store_word b k w : wf_words b -> 0 <= k < 16 -> is_u64 w ->
  exists b', upd b k w = Some b' /\ wf_words b' /\
    forall i, 0 <= i -> bit b' i = if decide (i / 64 = k) then Z.testbit w (i mod 64) else bit b i.
Proof.
  intros [Hl Hf] Hk Hw. exists (<[Z.to_nat k := w]> b). split; [apply upd_Some; lia|]. split.
  - split; [by rewrite zlen_insert|]. by apply Forall_insert.
  - intros i Hi. unfold bit. rewrite idx_insert by lia. repeat case_decide; (done || lia).
Qed.

Lemma or_word b wi w m : wf_words b -> 0 <= wi < 16 -> idx b wi = Some w -> is_u64 w -> is_u64 m ->
  exists b', upd b wi (Z.lor w m) = Some b' /\ wf_words b' /\
    forall i, 0 <= i -> bit b' i = bit b i || in_word wi m i.
Proof.
  intros Hb Hwi Hw Uw Um. destruct (store_word b wi (Z.lor w m) Hb Hwi (lor_u64 _ _ Uw Um)) as (b' & E & Hb' & H).
  exists b'. split; [done|]. split; [done|]. intros i Hi. rewrite H by done. unfold in_word. case_decide as Hc.
  - rewrite bool_decide_true, Z.lor_spec by done. unfold bit. by rewrite Hc, Hw.
  - by rewrite bool_decide_false, orb_false_r.
Qed.

Lemma andnot_word b wi w m : wf_words b -> 0 <= wi < 16 -> idx b wi = Some w -> is_u64 w -> is_u64 m ->
  exists b', upd b wi (Z.land w (not64 m)) = Some b' /\ wf_words b' /\
    forall i, 0 <= i -> bit b' i = bit b i && negb (in_word wi m i).
Proof.
  intros Hb Hwi Hw Uw Um.
  destruct (store_word b wi (Z.land w (not64 m)) Hb Hwi) as (b' & E & Hb' & H).
  { apply land_u64_l; [done|]. apply not_u64 in Um. unfold is_u64 in Um. lia. }
  exists b'. split; [done|]. split; [done|]. intros i Hi. rewrite H by done. unfold in_word. case_decide as Hc.
  - rewrite bool_decide_true, Z.land_spec, testbit_not64 by (done || lia). unfold bit. rewrite Hc, Hw.
    rewrite bool_decide_true by lia. by rewrite xorb_true_r.
  - by rewrite bool_decide_false, andb_true_r.
Qed.

(** ** Counting *)

Lemma count_or f g i n : 0 <= n -> (forall k, i <= k < i + n -> f k = true -> g k = false) ->
  count (fun k => f k || g k) i n = count f i n + count g i n.
Proof.
  intros Hn. revert i. revert n Hn. refine (count_ind _ _ _); [done|]. intros n Hn IH i H.
  rewrite !(count_cons _ _ (n + 1)) by lia. replace (n + 1 - 1) with n by lia.
  rewrite IH by (intros; apply H; (done || lia)). specialize (H i ltac:(lia)).
  destruct (f i); [rewrite H by done|]; cbn; [|destruct (g i)]; cbn; lia.
Qed.

Lemma count_minus f g i n : 0 <= n -> (forall k, i <= k < i + n -> g k = true -> f k = true) ->
  count (fun k => f k && negb (g k)) i n = count f i n - count g i n.
Proof.
  intros Hn H. assert (count f i n = count (fun k => f k && negb (g k)) i n + count g i n) as ->; [|lia].
  rewrite <- count_or; [|done|].
  - apply count_ext; [done|]. intros k Hk. specialize (H (i + k) ltac:(lia)).
    destruct (g (i + k)); [by rewrite H|]. by rewrite andb_true_r, orb_false_r.
  - intros k Hk. destruct (f k), (g k); done.
Qed.

Lemma count_in_word wi m : 0 <= wi < 16 -> is_u64 m -> count (in_word wi m) 0 1024 = count_ones m.
Proof.
  intros Hwi Hm. replace 1024 with (wi * 64 + (64 + (1024 - wi * 64 - 64))) by lia.
  rewrite count_split, (count_split _ (0 + wi * 64)) by lia.
  rewrite (count_false _ 0), (count_false _ (0 + wi * 64 + 64)); try lia.
  - rewrite (count_ones_count m 64) by (done || lia). rewrite (count_ext _ (Z.testbit m) _ 0); [lia|lia|].
    intros k Hk. unfold in_word. rewrite bool_decide_true by lia. cbn [andb]. f_equal. lia.
  - intros k Hk. unfold in_word. by rewrite bool_decide_false by lia.
  - intros k Hk. unfold in_word. by rewrite bool_decide_false by lia.
Qed.

(** The words' populations add up to the bitmap's. *)
Lemma population b : Forall is_u64 b ->
  foldr (fun w n => count_ones w + n) 0 b = count (bit b) 0 (64 * zlen b).
Proof.
  induction b as [|w b IH]; intros H; [done|]. apply Forall_cons_iff in H as [Hw Hb]. cbn [foldr]. rewrite IH by done.
  unfold zlen. cbn [length]. rewrite Nat2Z.inj_succ. replace (64 * Z.succ (Z.of_nat (length b))) with (64 + 64 * Z.of_nat (length b)) by lia.
  rewrite count_split by lia. f_equal.
  - rewrite (count_ones_count w 64) by (done || lia). apply count_ext; [lia|]. intros k Hk. unfold bit.
    replace ((0 + k) / 64) with 0 by lia. cbn. f_equal. lia.
  - apply count_ext; [lia|]. intros k Hk. unfold bit. unfold idx. rewrite !decide_True by lia.
    replace (Z.to_nat ((0 + 64 + k) / 64)) with (S (Z.to_nat ((0 + k) / 64))) by lia. cbn.
    by replace ((0 + 64 + k) mod 64) with ((0 + k) mod 64) by lia.
Qed.

(** ** The invariant *)

(** The fields set by [init_span]. *)
Definition shape (s : Span) : Z * Z * Z * Z * Z := (base s, npages s, elemsize s, nelems s, sizeclass s).

Lemma shape_nelems s s' : shape s' = shape s -> nelems s' = nelems s.
Proof. unfold shape. congruence. Qed.

(** Slot [i] is reserved in the owner's cache: its bit is claimed but it was never sold.  The
    cache's low bit stands for [freeindex]. *)
Definition unsold (s : Span) (i : Z) : bool :=
  bool_decide (freeindex s <= i) && bool_decide (i / 64 = freeindex s / 64) && Z.testbit (alloc_cache s) (i - freeindex s).

(** [L] is the set of live slots (handed out and not freed). *)
Record span_inv (s : Span) (L : Z -> bool) : Prop := {
  sp_words : wf_words (alloc_bits s);
  sp_cache : is_u64 (alloc_cache s);
  sp_nelems : 1 <= nelems s <= 1024;
  sp_index : 0 <= freeindex s <= nelems s;
  sp_count : alloc_count s = count (bit (alloc_bits s)) 0 1024;
  sp_live : forall i, L i = true -> 0 <= i < nelems s;
  sp_bits : forall i, 0 <= i < nelems s -> bit (alloc_bits s) i = L i || unsold s i;
  sp_apart : forall i, L i = true -> unsold s i = false;
  sp_fits : freeindex s < nelems s -> forall j, 0 <= j -> Z.testbit (alloc_cache s) j = true -> freeindex s mod 64 + j < 64;
  sp_claimed : forall j, 0 <= j -> Z.testbit (alloc_cache s) j = true -> freeindex s mod 64 + j < 64 ->
    bit (alloc_bits s) (freeindex s + j) = true;
  sp_tail : alloc_cache s <> 0 -> forall i, i / 64 = freeindex s / 64 -> nelems s <= i -> bit (alloc_bits s) i = true;
  sp_uncached : cached s = false -> alloc_cache s = 0
}.

Lemma span_inv_ext s L L' : span_inv s L -> (forall i, L i = L' i) -> span_inv s L'.
Proof.
  intros [? ? ? ? ? Hl Hb Ha ? ? ? ?] E. split; try done.
  - intros i. rewrite <- E. apply Hl.
  - intros i. rewrite <- E. apply Hb.
  - intros i. rewrite <- E. apply Ha.
Qed.

Lemma unsold_empty s i : alloc_cache s = 0 -> unsold s i = false.
Proof. intros E. unfold unsold. rewrite E, Z.testbit_0_l. apply andb_false_r. Qed.

Lemma count_le b : 0 <= count (bit b) 0 1024 <= 1024.
Proof. apply count_bounds. lia. Qed.

Lemma wrap16_small x : 0 <= x < 65536 -> wrap16 x = x.
Proof. intros. unfold wrap16. apply Z.mod_small. lia. Qed.

(** A span whose cache is empty satisfies the invariant as soon as its bitmap is the live set. *)
Lemma span_inv_flat s L : wf_words (alloc_bits s) -> alloc_cache s = 0 -> 1 <= nelems s <= 1024 ->
  0 <= freeindex s <= nelems s -> alloc_count s = count (bit (alloc_bits s)) 0 1024 ->
  (forall i, L i = true -> 0 <= i < nelems s) -> (forall i, 0 <= i < nelems s -> bit (alloc_bits s) i = L i) ->
  span_inv s L.
Proof.
  intros ? E ? ? ? ? Hb. split; try done; rewrite ?E.
  - apply zero_u64.
  - intros i Hi. rewrite unsold_empty by done. rewrite Hb by done. by rewrite orb_false_r.
  - intros i _. by apply unsold_empty.
  - intros _ j _. by rewrite Z.testbit_0_l.
  - intros j _. by rewrite Z.testbit_0_l.
Qed.

Lemma flat_bits s L i : span_inv s L -> alloc_cache s = 0 -> 0 <= i < nelems s -> bit (alloc_bits s) i = L i.
Proof. intros H E Hi. rewrite (sp_bits _ _ H i Hi), unsold_empty by done. apply orb_false_r. Qed.

Lemma set_cached_id s : cached s = true -> set_cached s true = s.
Proof. destruct s. cbn. by intros ->. Qed.

Lemma testbit_not_u64 w i : 0 <= i < 64 -> Z.testbit (not64 w) i = negb (Z.testbit w i).
Proof. intros Hi. rewrite testbit_not64 by lia. rewrite bool_decide_true by lia. apply xorb_true_r. Qed.

(** The bitmap after a refill of word [wi]: all of the word is claimed. *)
Lemma refill_bits b wi w : wf_words b -> 0 <= wi < 16 -> idx b wi = Some w -> is_u64 w ->
  exists b', (if decide (not64 w <> 0) then upd b wi (Z.lor w (not64 w)) else Some b) = Some b' /\ wf_words b' /\
    (forall i, 0 <= i -> bit b' i = if decide (i / 64 = wi) then true else bit b i) /\
    count (bit b') 0 1024 = count (bit b) 0 1024 + count_ones (not64 w).
Proof.
  intros Hb Hwi E Uw. pose proof (not_u64 w Uw) as Un.
  destruct (or_word b wi w (not64 w) Hb Hwi E Uw Un) as (b' & E' & Hb' & Hbit).
  assert (forall i, 0 <= i -> i / 64 = wi -> in_word wi (not64 w) i = negb (bit b i)) as Hin.
  { intros i Hi Hc. unfold in_word, bit. rewrite bool_decide_true by done. rewrite Hc, E. apply testbit_not_u64. lia. }
  case_decide as Hz.
  - exists b'. split; [done|]. split; [done|]. split.
    + intros i Hi. rewrite Hbit by done. case_decide as Hc; [rewrite Hin by done; by destruct (bit b i)|].
      unfold in_word. rewrite bool_decide_false by done. apply orb_false_r.
    + rewrite <- (count_in_word wi) by done. rewrite <- count_or; [|lia|].
      * apply count_ext; [lia|]. intros k Hk. apply Hbit. lia.
      * intros k Hk Hbk. destruct (decide (k / 64 = wi)); [rewrite Hin by (done || lia); by rewrite Hbk|].
        unfold in_word. by rewrite bool_decide_false.
  - assert (not64 w = 0) as Ez by (destruct (decide (not64 w = 0)); [done|tauto]). rewrite Ez in *.
    exists b. split; [done|]. split; [done|]. split; [|cbn; lia]. intros i Hi. case_decide as Hc; [|done].
    specialize (Hin i Hi Hc). unfold in_word in Hin. rewrite Z.testbit_0_l, andb_false_r in Hin. by destruct (bit b i).
Qed.

(** Refilling from word [wi] of a span with an empty cache. *)
Lemma refill_ok s L wi : span_inv s L -> alloc_cache s = 0 -> 0 <= wi -> wi * 64 < nelems s ->
  exists s1 c, refill_alloc_cache s wi = Some (s1, c) /\ shape (claim_count s1 c) = shape s /\
    cached (claim_count s1 c) = cached s /\ freeindex (claim_count s1 c) = freeindex s /\
    span_inv (set_cached (set_freeindex (claim_count s1 c) (wi * 64)) true) L.
Proof.
  intros H Ec Hwi Hn. pose proof (sp_nelems _ _ H) as Hne. assert (wi < 16) as Hw16 by lia.
  destruct (word_at _ wi (sp_words _ _ H) ltac:(lia)) as (w & Ew & Uw).
  destruct (refill_bits _ wi w (sp_words _ _ H) ltac:(lia) Ew Uw) as (b' & Eb & Hb' & Hbit & Hcnt).
  unfold refill_alloc_cache. change ALLOC_BITS_WORDS with 16. rewrite decide_True by lia.
  rewrite Ew. cbn [mbind option_bind]. rewrite Eb. cbn [mbind option_bind]. eexists _, _. split; [done|].
  clear Eb. set (s1 := set_cache (set_bits s b') (not64 w)). set (c := count_ones (not64 w)) in *.
  assert (alloc_count (claim_count s1 c) = count (bit b') 0 1024) as Hcount.
  { pose proof (count_le b') as Hle. rewrite Hcnt in Hle |- *. rewrite <- (sp_count _ _ H) in Hle |- *.
    pose proof (sp_count _ _ H) as Hc0. pose proof (count_le (alloc_bits s)). clearbody c. unfold claim_count, s1.
    destruct (decide (c <> 0)); span_simpl; [|lia]. apply wrap16_small. lia. }
  assert (claim_count s1 c = set_count s1 (alloc_count (claim_count s1 c))) as ->.
  { unfold claim_count. by destruct (decide (c <> 0)). }
  rewrite Hcount. split; [done|]. split; [done|]. split; [done|].
  assert (forall i, unsold (set_cached (set_freeindex (set_count s1 (count (bit b') 0 1024)) (wi * 64)) true) i =
           bool_decide (i / 64 = wi) && negb (bit (alloc_bits s) i)) as Hu.
  { intros i. unfold unsold, s1. span_simpl. replace (wi * 64 / 64) with wi by lia. destruct (decide (i / 64 = wi)) as [Hc|Hc].
    - rewrite !bool_decide_true by lia. cbn. rewrite testbit_not_u64 by lia. unfold bit. rewrite Hc, Ew. do 2 f_equal. lia.
    - rewrite (bool_decide_false (i / 64 = wi)) by done. by rewrite andb_false_r. }
  split; unfold s1; span_simpl; try done.
  - by apply not_u64.
  - lia.
  - apply (sp_live _ _ H).
  - intros i Hi. rewrite Hu, Hbit, (flat_bits s L) by (done || lia). case_decide; [rewrite bool_decide_true by done|rewrite bool_decide_false by done]; by destruct (L i).
  - intros i HL. rewrite Hu, (flat_bits s L i H Ec (sp_live _ _ H i HL)), HL. apply andb_false_r.
  - intros _ j Hj Ht. replace ((wi * 64) mod 64) with 0 by lia. destruct (decide (j < 64)); [lia|].
    rewrite testbit_u64_high in Ht by (try lia; by apply not_u64). done.
  - intros j Hj _ Hlt. rewrite Hbit by lia. rewrite decide_True by lia. done.
  - intros _ i Hi Hge. rewrite Hbit by lia. by rewrite decide_True by lia.
Qed.

(** ** The owner's allocation *)

Lemma set_freeindex_id s : set_freeindex s (freeindex s) = s.
Proof. by destruct s. Qed.

(** With an empty cache the search position is only a hint. *)
Lemma move_index s L f f' : span_inv (set_freeindex s f) L -> alloc_cache s = 0 -> 0 <= f' <= nelems s ->
  span_inv (set_freeindex s f') L.
Proof.
  intros H Ec Hf. apply span_inv_flat; span_simpl; try done.
  - apply (sp_words _ _ H).
  - apply (sp_nelems _ _ H).
  - apply (sp_count _ _ H).
  - apply (sp_live _ _ H).
  - intros i Hi. by apply (flat_bits _ _ _ H).
Qed.

Lemma next_word x : 0 <= x <= 1024 -> Z.land (wrap16 (x + 64)) (2 ^ 16 - 1 - 63) = (x / 64 + 1) * 64.
Proof.
  intros Hx. rewrite wrap16_small by lia. 
  replace ((x / 64 + 1) * 64) with (Z.shiftl (Z.shiftr (x + 64) 6) 6)
    by (rewrite Z.shiftl_mul_pow2, Z.shiftr_div_pow2 by lia; lia).
  set (y := x + 64). assert (0 < y < 2 ^ 16) as Hy by lia. clearbody y.
  change (2 ^ 16 - 1 - 63) with (Z.shiftl (Z.ones 10) 6). apply Z.bits_inj'. intros i Hi.
  rewrite Z.land_spec, !Z.shiftl_spec by lia. destruct (decide (i < 6)).
  - rewrite !(Z.testbit_neg_r _ (i - 6)) by lia. apply andb_false_r.
  - rewrite Z.shiftr_spec by lia. replace (i - 6 + 6) with i by lia. destruct (decide (i < 16)).
    + rewrite Z.ones_spec_low by lia. apply andb_true_r.
    + rewrite Z.ones_spec_high, andb_false_r by lia. symmetry. apply Z.bits_above_log2; [lia|].
      apply (Z.lt_le_trans _ 16); [apply Z.log2_lt_pow2; lia|lia].
Qed.

Lemma next_free_loop_ok : forall fuel s L sfi, span_inv (set_freeindex s sfi) L -> cached s = true ->
  0 <= freeindex s <= nelems s -> sfi < nelems s -> 1024 <= sfi + 64 * Z.of_nat fuel ->
  exists s' r, next_free_loop fuel s sfi (alloc_cache s) = Some (s', r) /\ shape s' = shape s /\ cached s' = true /\
    match r with
    | None => span_inv s' L
    | Some (sfi', bi, ac) => ac = alloc_cache s' /\ span_inv (set_freeindex s' sfi') L /\ 0 <= sfi' < nelems s' /\
        bi = trailing_zeros ac /\ bi < 64 /\ 0 <= freeindex s' <= nelems s'
    end.
Proof.
  induction fuel as [|fuel IH]; intros s L sfi H Hcd Hfi Hsfi Hfuel; cbn [next_free_loop];
    pose proof (sp_nelems _ _ H) as Hn; pose proof (sp_index _ _ H) as Hi; cbn in Hn, Hi;
    destruct (trailing_zeros_u64 _ (sp_cache _ _ H)) as (Hb & _ & _ & Hz); cbn [set_freeindex alloc_cache] in Hb, Hz;
    case_decide as Hc; try (eexists _, _; split; [done|]; split; [done|]; split; [done|]; split_and!; (done || lia)); [lia|].
  apply Hz in Hc. rewrite next_word by lia. case_decide as Hend.
  - eexists _, None. split; [done|]. split; [done|]. split; [done|]. apply (move_index s L sfi); (done || lia).
  - rewrite Z.div_mul by lia.
    assert (span_inv s L) as Hs by (rewrite <- (set_freeindex_id s); by apply (move_index s L sfi)).
    destruct (refill_ok s L (sfi / 64 + 1) Hs Hc ltac:(lia) ltac:(lia)) as (s1 & c & -> & Hn1 & Hc1 & Hf1 & H1).
    cbn [mbind option_bind]. rewrite set_cached_id in H1 by (span_simpl; congruence).
    pose proof (shape_nelems _ _ Hn1) as En1.
    destruct (IH (claim_count s1 c) L ((sfi / 64 + 1) * 64) H1) as (s' & r & -> & Hn' & Hc' & Hr); [congruence|lia|lia|lia|].
    exists s', r. split; [done|]. split; [congruence|]. by split.
Qed.

(** Selling the lowest bit [bi] of the cache. *)
Section consume.
  Context (s : Span) (L : Z -> bool) (bi cache' : Z).
  Context (H : span_inv s L) (Hbi : 0 <= bi < 64) (Hfi : freeindex s < nelems s).
  Context (Ht : Z.testbit (alloc_cache s) bi = true).
  Context (Hlow : forall j, 0 <= j < bi -> Z.testbit (alloc_cache s) j = false).
  Context (Hc' : forall j, 0 <= j -> Z.testbit cache' j = Z.testbit (alloc_cache s) (j + bi + 1)).
Let slot := freeindex s + bi.
Let s' := set_freeindex (set_cache s cache') (slot + 1).

Lemma consume_word : freeindex s mod 64 + bi < 64.
  Proof. apply (sp_fits _ _ H Hfi); (done || lia). Qed.

Lemma consume_fresh : L slot = false.
  Proof.
    pose proof consume_word. pose proof (sp_index _ _ H). destruct (L slot) eqn:E; [|done].
    assert (unsold s slot = true) as Hu; [|by rewrite (sp_apart _ _ H _ E) in Hu].
    unfold unsold, slot. rewrite !bool_decide_true by lia. by replace (freeindex s + bi - freeindex s) with bi by lia.
  Qed.

Lemma consume_exhausted : (slot + 1) mod 64 = 0 -> cache' = 0.
  Proof.
    intros Hm. apply Z.bits_inj'. intros j Hj. rewrite Hc', Z.testbit_0_l by done.
    destruct (Z.testbit (alloc_cache s) (j + bi + 1)) eqn:E; [|done].
    pose proof (sp_fits _ _ H Hfi (j + bi + 1) ltac:(lia) E). unfold slot in Hm. lia.
  Qed.

Lemma consume_unsold i : 0 <= i -> unsold s' i = unsold s i && negb (bool_decide (i = slot)).
  Proof.
    intros Hi. pose proof consume_word. unfold unsold, s'. span_simpl. fold slot.
    destruct (decide (slot + 1 <= i)) as [Hge|Hge].
    - rewrite (bool_decide_true (slot + 1 <= i)), (bool_decide_true (freeindex s <= i)), (bool_decide_false (i = slot))
        by (unfold slot in *; lia). rewrite Hc' by lia. cbn [andb negb]. rewrite andb_true_r.
      replace (i - (slot + 1) + bi + 1) with (i - freeindex s) by (unfold slot; lia).
      destruct (Z.testbit (alloc_cache s) (i - freeindex s)) eqn:E; [|by rewrite !andb_false_r].
      pose proof (sp_fits _ _ H Hfi (i - freeindex s) ltac:(unfold slot in *; lia) E). unfold slot in *.
      rewrite !bool_decide_true by lia. done.
    - rewrite (bool_decide_false (slot + 1 <= i)) by lia. cbn [andb]. symmetry.
      destruct (decide (i = slot)) as [E|Hne]; [rewrite (bool_decide_true (i = slot)) by done; apply andb_false_r|].
      destruct (decide (freeindex s <= i)); [|by rewrite (bool_decide_false (freeindex s <= i)) by done].
      rewrite (Hlow (i - freeindex s)) by (unfold slot in *; lia). by rewrite !andb_false_r.
  Qed.

Lemma consume_ok : slot < nelems s -> is_u64 cache' -> cached s = true ->
    span_inv s' (fun i => L i || bool_decide (i = slot)).
  Proof.
    intros Hslot Uc Hcd. pose proof consume_word as Hw. pose proof (sp_index _ _ H) as Hidx. pose proof (sp_nelems _ _ H) as Hn.
    assert (unsold s slot = true) as Hu.
    { unfold unsold, slot. rewrite !bool_decide_true by lia. by replace (freeindex s + bi - freeindex s) with bi by lia. }
    split; try apply H; try done.
    - unfold s'. span_simpl. unfold slot in *. lia.
    - intros i [HL|HL]%orb_true_iff; [by apply (sp_live _ _ H)|]. apply bool_decide_eq_true in HL.
      unfold s'. span_simpl. unfold slot in *. lia.
    - intros i Hi. change (alloc_bits s') with (alloc_bits s). rewrite (sp_bits _ _ H i Hi), consume_unsold by lia.
      case_bool_decide as E; [subst i; rewrite Hu; by rewrite !orb_true_r|]. by rewrite orb_false_r, andb_true_r.
    - intros i HL. assert (0 <= i) as Hi.
      { apply orb_true_iff in HL as [HL|HL]; [apply (sp_live _ _ H) in HL; lia|]. apply bool_decide_eq_true in HL. unfold slot in *. lia. }
      rewrite consume_unsold by done. apply orb_true_iff in HL as [HL| ->]; [by rewrite (sp_apart _ _ H)|apply andb_false_r].
    - unfold s'. span_simpl. intros Hlt j Hj. rewrite Hc' by done. intros Ht'.
      pose proof (sp_fits _ _ H Hfi (j + bi + 1) ltac:(lia) Ht'). unfold slot. lia.
    - unfold s'. span_simpl. intros j Hj. rewrite Hc' by done. intros Ht' _.
      pose proof (sp_fits _ _ H Hfi (j + bi + 1) ltac:(lia) Ht') as Hf.
      pose proof (sp_claimed _ _ H (j + bi + 1) ltac:(lia) Ht' Hf) as Hb.
      by replace (slot + 1 + j) with (freeindex s + (j + bi + 1)) by (unfold slot; lia).
    - unfold s'. span_simpl. intros Hne i Hi Hge.
      assert ((slot + 1) mod 64 <> 0) as Hm by (intros Hm; by apply Hne, consume_exhausted).
      apply (sp_tail _ _ H); [|unfold slot in *; lia|done]. intros E. by rewrite E, Z.testbit_0_l in Ht.
    - unfold s'. span_simpl. congruence.
  Qed.
End consume.

Definition with_slot (L : Z -> bool) (slot : Z) : Z -> bool := fun i => L i || bool_decide (i = slot).
Definition without_slot (L : Z -> bool) (slot : Z) : Z -> bool := fun i => L i && negb (bool_decide (i = slot)).

(** The cache's remaining bits are all beyond the last slot. *)
Lemma past_end_ok s L bi : span_inv s L -> cached s = true -> 0 <= bi < 64 -> freeindex s < nelems s ->
  Z.testbit (alloc_cache s) bi = true -> (forall j, 0 <= j < bi -> Z.testbit (alloc_cache s) j = false) ->
  nelems s <= freeindex s + bi -> span_inv (set_freeindex s (nelems s)) L.
Proof.
  intros H Hcd Hbi Hfi Ht Hlow Hge. pose proof (sp_index _ _ H) as Hidx. pose proof (sp_nelems _ _ H) as Hn.
  pose proof (sp_fits _ _ H Hfi bi ltac:(lia) Ht) as Hfit. assert (nelems s / 64 = freeindex s / 64) as Hw by lia.
  assert (alloc_cache s <> 0) as Hne by (intros E; by rewrite E, Z.testbit_0_l in Ht).
  assert (forall i, i < nelems s -> unsold s i = false /\ unsold (set_freeindex s (nelems s)) i = false) as Hu.
  { intros i Hi. unfold unsold. span_simpl. rewrite (bool_decide_false (nelems s <= i)) by lia. split; [|done].
    destruct (decide (freeindex s <= i)); [|by rewrite bool_decide_false by lia].
    rewrite (Hlow (i - freeindex s)) by lia. apply andb_false_r. }
  split; try apply H; span_simpl; try done; try lia.
  - intros i Hi. destruct (Hu i ltac:(lia)) as [E1 E2]. rewrite E2, <- E1. by apply (sp_bits _ _ H).
  - intros i HL. apply Hu. apply (sp_live _ _ H) in HL. lia.
  - intros j Hj _ Hlt. apply (sp_tail _ _ H Hne); lia.
  - intros _ i Hi Hgi. apply (sp_tail _ _ H Hne); lia.
Qed.

Lemma next_free_owner_ok s L : span_inv s L -> cached s = true ->
  exists s' r, next_free_owner s = Some (s', r) /\ shape s' = shape s /\ cached s' = true /\
    match r with
    | None => span_inv s' L
    | Some slot => 0 <= slot < nelems s /\ L slot = false /\ span_inv s' (with_slot L slot)
    end.
Proof.
  intros H Hcd. unfold next_free_owner. case_decide as Hf; [by exists s, None|].
  pose proof (sp_index _ _ H) as Hidx.
  destruct (next_free_loop_ok 17 s L (freeindex s)) as (s1 & w & -> & Hs1 & Hc1 & Hw); [|done|done|lia|lia|].
  { by rewrite set_freeindex_id. }
  cbn [mbind option_bind]. destruct w as [[[sfi bi] ac]|]; [|by exists s1, None].
  destruct Hw as (-> & H1 & Hsfi & Ebi & Hbi & Hfi1). pose proof (shape_nelems _ _ Hs1) as En.
  pose proof (sp_nelems _ _ H1) as Hn. pose proof (sp_cache _ _ H1) as Uc. cbn [nelems alloc_cache set_freeindex] in Hn, Uc.
  destruct (trailing_zeros_u64 _ Uc) as (Hb & Hlow & Ht & _). rewrite <- Ebi in Hb, Hlow, Ht. specialize (Ht Hbi).
  rewrite (wrap16_small (sfi + bi)) by lia. case_decide as Hge.
  { exists (set_freeindex s1 (nelems s1)), None. split; [done|]. split; [done|]. split; [done|].
    apply (past_end_ok (set_freeindex s1 sfi) L bi); span_simpl; (done || lia). }
  set (cache' := if decide (bi + 1 < 64) then shr64 (alloc_cache s1) (bi + 1) else 0).
  assert (is_u64 cache') as Uc' by (unfold cache'; case_decide; [apply shr_u64; [done|lia]|apply zero_u64]).
  assert (forall j, 0 <= j -> Z.testbit cache' j = Z.testbit (alloc_cache s1) (j + bi + 1)) as Hc'.
  { intros j Hj. unfold cache'. case_decide; [rewrite testbit_shr64 by lia; f_equal; lia|].
    rewrite Z.testbit_0_l, testbit_u64_high by (done || lia). done. }
  clearbody cache'. rewrite wrap16_small by lia.
  pose proof (consume_fresh (set_freeindex s1 sfi) L bi H1 ltac:(lia) ltac:(span_simpl; lia) Ht) as Hfresh.
  pose proof (consume_ok (set_freeindex s1 sfi) L bi cache' H1 ltac:(lia) ltac:(span_simpl; lia) Ht Hlow Hc'
    ltac:(span_simpl; lia) Uc' Hc1) as H2.
  pose proof (consume_exhausted (set_freeindex s1 sfi) L bi cache' H1 ltac:(lia) ltac:(span_simpl; lia) Hc') as Hz.
  cbn [freeindex set_freeindex] in Hfresh, H2, Hz.
  case_decide as Hpre; cbn [mbind option_bind].
  - destruct Hpre as [Hm Hlt]. specialize (Hz Hm). subst cache'.
    apply (move_index (set_cache s1 0) _ _ (freeindex s1)) in H2; [|done|done].
    change (set_freeindex (set_cache s1 0) (freeindex s1)) with (set_freeindex (set_cache s1 0) (freeindex (set_cache s1 0))) in H2.
    rewrite set_freeindex_id in H2.
    destruct (refill_ok _ _ ((sfi + bi + 1) / 64) H2 eq_refl ltac:(lia)) as (s2 & c & -> & Hs2 & Hc2 & _ & H3).
    { span_simpl. cbn in Hlt. lia. }
    cbn [mbind option_bind]. rewrite set_cached_id in H3 by (span_simpl; rewrite Hc2; done).
    replace ((sfi + bi + 1) / 64 * 64) with (sfi + bi + 1) in H3 by lia.
    eexists _, (Some (sfi + bi)). split; [done|]. split; [etrans; [exact Hs2|exact Hs1]|]. split; [by span_simpl; rewrite Hc2|].
    split; [lia|]. by split.
  - eexists _, (Some (sfi + bi)). split; [done|]. split; [done|]. split; [done|]. split; [lia|]. split; [done|]. done.
Qed.

(** ** Caching and uncaching *)

Lemma cache_span_ok s L : span_inv s L -> cached s = false ->
  exists s', cache_span s = Some s' /\ shape s' = shape s /\ cached s' = true /\ span_inv s' L.
Proof.
  intros H Hcd. pose proof (sp_uncached _ _ H Hcd) as Ec. pose proof (sp_nelems _ _ H) as Hn. unfold cache_span.
  assert (span_inv (set_freeindex s 0) L) as H0.
  { apply (move_index s L (freeindex s)); [by rewrite set_freeindex_id|done|lia]. }
  destruct (refill_ok _ _ 0 H0 Ec ltac:(lia)) as (s1 & c & -> & Hs & _ & Hf & H1); [span_simpl; lia|].
  cbn [mbind option_bind]. eexists. split; [done|]. split; [exact Hs|]. split; [done|].
  replace (set_freeindex (claim_count s1 c) (0 * 64)) with (claim_count s1 c) in H1; [done|].
  change (0 * 64) with (freeindex (set_freeindex s 0)). rewrite <- Hf. by rewrite set_freeindex_id.
Qed.

(** A span whose owner has the next slot reserved. *)
Definition ready (s : Span) : Prop := freeindex s < nelems s /\ Z.testbit (alloc_cache s) 0 = true.

Lemma next_free_ready s L s' r : span_inv s L -> ready s -> next_free_owner s = Some (s', r) -> r = Some (freeindex s).
Proof.
  intros H [Hf Ht]. destruct (trailing_zeros_u64 _ (sp_cache _ _ H)) as (Hb & Hlow & _). pose proof (sp_index _ _ H) as Hi. pose proof (sp_nelems _ _ H) as Hn.
  assert (trailing_zeros (alloc_cache s) = 0) as Ez by (destruct (decide (trailing_zeros (alloc_cache s) = 0)); [done|rewrite (Hlow 0) in Ht by lia; done]).
  unfold next_free_owner. rewrite decide_False by lia. cbn [next_free_loop]. rewrite Ez, decide_False by lia. cbn [mbind option_bind].
  rewrite Z.add_0_r, wrap16_small, decide_False by lia. destruct (if decide _ then _ else _); [|done]. cbn [mbind option_bind]. by intros [= _ <-].
Qed.

(** Caching a span whose first slot is free reserves that slot. *)
Lemma cache_span_ready s L s' : span_inv s L -> cached s = false -> L 0 = false -> cache_span s = Some s' -> ready s'.
Proof.
  intros H Hcd HL. pose proof (sp_uncached _ _ H Hcd) as Ec. pose proof (sp_nelems _ _ H) as Hn. pose proof (flat_bits s L 0 H Ec ltac:(lia)) as Hb. rewrite HL in Hb.
  destruct (word_at _ 0 (sp_words _ _ H) ltac:(lia)) as (w & Ew & Uw). unfold bit in Hb. change (0 / 64) with 0 in Hb. rewrite Ew in Hb. change (0 mod 64) with 0 in Hb.
  unfold cache_span, refill_alloc_cache. change ALLOC_BITS_WORDS with 16. rewrite decide_True by lia. cbn [alloc_bits set_freeindex]. rewrite Ew. cbn [mbind option_bind].
  destruct (if decide _ then _ else _) as [b'|]; [|done]. cbn [mbind option_bind]. intros [= <-].
  unfold claim_count. destruct (decide _); (split; span_simpl; [lia|]); rewrite testbit_not_u64 by lia; by rewrite Hb.
Qed.

Lemma release_unsold_ok s L : span_inv s L ->
  exists s', release_unsold s = Some s' /\ shape s' = shape s /\ cached s' = cached s /\ alloc_cache s' = 0 /\ span_inv s' L.
Proof.
  intros H. unfold release_unsold. case_decide as Hz; [by exists s|].
  pose proof (sp_index _ _ H) as Hi. pose proof (sp_nelems _ _ H) as Hn. change ALLOC_BITS_WORDS with 16.
  case_decide as Hw; cycle 1.
  { eexists. split; [done|]. do 3 (split; [done|]). apply span_inv_flat; try apply H; try done.
    intros i Hr. change (nelems (set_cache s 0)) with (nelems s) in Hr. change (alloc_bits (set_cache s 0)) with (alloc_bits s).
    rewrite (sp_bits _ _ H i Hr). unfold unsold. rewrite bool_decide_false by lia. apply orb_false_r. }
  set (m := shl64 (alloc_cache s) (freeindex s mod 64)). assert (is_u64 m) as Um by apply shl_u64.
  assert (forall i, 0 <= i -> in_word (freeindex s / 64) m i =
    bool_decide (i / 64 = freeindex s / 64) && bool_decide (freeindex s <= i) && Z.testbit (alloc_cache s) (i - freeindex s)) as Hin.
  { intros i Hi0. unfold in_word. destruct (decide (i / 64 = freeindex s / 64)) as [E|E]; [|by rewrite bool_decide_false].
    rewrite !(bool_decide_true (i / 64 = _)) by done. cbn [andb]. unfold m. rewrite testbit_shl64 by lia.
    replace (i mod 64 - freeindex s mod 64) with (i - freeindex s) by lia.
    rewrite (bool_decide_true (i mod 64 < 64)) by lia. cbn [andb]. case_bool_decide; [done|]. by rewrite Z.testbit_neg_r by lia. }
  clearbody m.
  assert (forall i, 0 <= i -> in_word (freeindex s / 64) m i = true -> bit (alloc_bits s) i = true) as Hsub.
  { intros i Hi0. rewrite Hin by done. intros [[E1%bool_decide_eq_true E2%bool_decide_eq_true]%andb_true_iff E3]%andb_true_iff.
    replace i with (freeindex s + (i - freeindex s)) by lia. apply (sp_claimed _ _ H); [lia|done|lia]. }
  assert (forall i, 0 <= i -> unsold s i = in_word (freeindex s / 64) m i) as Hun.
  { intros i Hi0. rewrite Hin by done. unfold unsold. by rewrite (andb_comm (bool_decide (freeindex s <= i))). }
  case_decide as Hm.
  - destruct (word_at _ (freeindex s / 64) (sp_words _ _ H) ltac:(lia)) as (w & Ew & Uw).
    destruct (andnot_word _ (freeindex s / 64) w m (sp_words _ _ H) ltac:(lia) Ew Uw Um) as (b' & Eb & Hb' & Hbit).
    rewrite Ew. cbn [mbind option_bind]. rewrite Eb. cbn [mbind option_bind]. eexists. split; [done|]. do 3 (split; [done|]).
    assert (count (bit b') 0 1024 = alloc_count s - count_ones m) as Hcnt.
    { rewrite (sp_count _ _ H), <- (count_in_word (freeindex s / 64)) by (done || lia).
      rewrite <- count_minus; [|lia|intros k Hk; apply Hsub; lia]. apply count_ext; [lia|]. intros k Hk. apply Hbit. lia. }
    pose proof (count_le b'). apply span_inv_flat; span_simpl; try apply H; try done.
    + rewrite wrap16_small by lia. done.
    + intros i Hr. rewrite Hbit, (sp_bits _ _ H i Hr), Hun by lia. pose proof (sp_apart _ _ H i) as Hap. rewrite Hun in Hap by lia.
      destruct (L i); [by rewrite Hap|]. by destruct (in_word _ m i).
  - assert (m = 0) as -> by (destruct (decide (m = 0)); [done|tauto]).
    eexists. split; [done|]. do 3 (split; [done|]). apply span_inv_flat; span_simpl; try apply H; try done.
    intros i Hr. rewrite (sp_bits _ _ H i Hr), Hun by lia. unfold in_word. rewrite Z.testbit_0_l, andb_false_r. apply orb_false_r.
Qed.

Lemma uncache_span_ok s L : span_inv s L ->
  exists s', uncache_span s = Some s' /\ shape s' = shape s /\ cached s' = false /\ span_inv s' L.
Proof.
  intros H. unfold uncache_span. destruct (release_unsold_ok s L H) as (s1 & -> & Hs & _ & Hz & H1).
  cbn [mbind option_bind]. eexists. split; [done|]. split; [exact Hs|]. split; [done|].
  split; try apply H1; try done.
Qed.

(** ** Releasing a slot *)

Lemma in_word_one wi k i : 0 <= k < 64 -> in_word wi (shl64 1 k) i = bool_decide (i = wi * 64 + k).
Proof.
  intros Hk. unfold in_word. rewrite testbit_shl64 by lia. rewrite testbit_1. rewrite (bool_decide_true (i mod 64 < 64)) by lia.
  cbn [andb]. repeat case_bool_decide; (done || lia).
Qed.

Lemma land_one w k : 0 <= k < 64 -> Z.testbit w k = true -> Z.land w (shl64 1 k) <> 0.
Proof.
  intros Hk Ht E. assert (Z.testbit (Z.land w (shl64 1 k)) k = true) as T; [|by rewrite E, Z.testbit_0_l in T].
  rewrite Z.land_spec, Ht, testbit_shl64, testbit_1 by lia. rewrite !bool_decide_true by lia. done.
Qed.

Lemma count_single i n : 0 <= i < n -> count (fun k => bool_decide (k = i)) 0 n = 1.
Proof.
  intros Hi. replace n with (i + (1 + (n - i - 1))) by lia. rewrite count_split, (count_split _ (0 + i) 1) by lia.
  rewrite (count_false _ 0 i), (count_false _ (0 + i + 1)); try lia.
  - rewrite count_cons, count_0 by lia. rewrite bool_decide_true by lia. done.
  - intros k Hk. by rewrite bool_decide_false by lia.
  - intros k Hk. by rewrite bool_decide_false by lia.
Qed.

(** The bitmap and the count after the bit of a live slot is cleared. *)
Lemma clear_slot s L i : span_inv s L -> L i = true ->
  exists w b', idx (alloc_bits s) (i / 64) = Some w /\ Z.land w (shl64 1 (i mod 64)) <> 0 /\
    upd (alloc_bits s) (i / 64) (Z.land w (not64 (shl64 1 (i mod 64)))) = Some b' /\ wf_words b' /\
    (forall k, 0 <= k -> bit b' k = bit (alloc_bits s) k && negb (bool_decide (k = i))) /\
    wrap16 (alloc_count s - 1) = count (bit b') 0 1024.
Proof.
  intros H HL. pose proof (sp_live _ _ H i HL) as Hi. pose proof (sp_nelems _ _ H) as Hn.
  destruct (word_at _ (i / 64) (sp_words _ _ H) ltac:(lia)) as (w & Ew & Uw).
  destruct (andnot_word _ (i / 64) w (shl64 1 (i mod 64)) (sp_words _ _ H) ltac:(lia) Ew Uw (shl_u64 _ _)) as (b' & Eb & Hb' & Hbit).
  assert (bit (alloc_bits s) i = true) as Hbi by (rewrite (sp_bits _ _ H i Hi), HL; done).
  assert (forall k, in_word (i / 64) (shl64 1 (i mod 64)) k = bool_decide (k = i)) as Hone.
  { intros k. rewrite in_word_one by lia. apply bool_decide_ext. lia. }
  exists w, b'. split; [done|]. split.
  { apply land_one; [lia|]. unfold bit in Hbi. by rewrite Ew in Hbi. }
  split; [done|]. split; [done|]. split; [intros k Hk; by rewrite Hbit, Hone|].
  assert (count (bit b') 0 1024 = alloc_count s - 1) as E1; [|pose proof (count_le b'); rewrite E1 in *; apply wrap16_small; lia].
  rewrite (count_ext _ (fun k => bit (alloc_bits s) k && negb (bool_decide (k = i))) 0 0); [|lia|].
  - rewrite (count_minus (bit (alloc_bits s)) (fun k => bool_decide (k = i))), count_single, (sp_count _ _ H);
      [done|lia|lia|]. intros k Hk Hr. apply bool_decide_eq_true in Hr. by subst k.
  - intros k Hk. by rewrite Hbit, Hone by lia.
Qed.

Lemma free_slot_atomic_ok s L i : span_inv s L -> L i = true ->
  exists s', free_slot_atomic s i = Some s' /\ shape s' = shape s /\ cached s' = cached s /\ span_inv s' (without_slot L i).
Proof.
  intros H HL. pose proof (sp_live _ _ H i HL) as Hi. pose proof (sp_nelems _ _ H) as Hn. unfold free_slot_atomic.
  change ALLOC_BITS_WORDS with 16. rewrite decide_False by lia.
  destruct (clear_slot s L i H HL) as (w & b' & -> & Hne & Eb & Hb' & Hbit & Hc). cbn [mbind option_bind]. rewrite Eb.
  cbn [mbind option_bind]. rewrite decide_True by done. eexists. split; [done|]. split; [done|]. split; [done|].
  assert (forall k, unsold (set_count (set_bits s b') (wrap16 (alloc_count s - 1))) k = unsold s k) as Hun by done.
  pose proof (sp_apart _ _ H i HL) as Hap.
  assert (forall k, unsold s k = true -> k <> i) as Hne' by (intros k Hk ->; congruence).
  split; try apply H; span_simpl; try done.
  - intros k [Hk _]%andb_true_iff. by apply (sp_live _ _ H).
  - intros k Hk. rewrite Hbit, Hun, (sp_bits _ _ H k Hk) by lia. unfold without_slot. case_bool_decide.
    + subst k. rewrite Hap. by destruct (L i).
    + by destruct (L k), (unsold s k).
  - intros k [Hk _]%andb_true_iff. rewrite Hun. by apply (sp_apart _ _ H).
  - intros j Hj Ht Hf. pose proof (sp_index _ _ H). rewrite Hbit, (sp_claimed _ _ H j Hj Ht Hf) by lia. rewrite bool_decide_false; [done|].
    apply Hne'. unfold unsold. rewrite !bool_decide_true by lia. by replace (freeindex s + j - freeindex s) with j by lia.
  - intros Hz k Hk Hge. rewrite Hbit, (sp_tail _ _ H Hz k Hk Hge), bool_decide_false by lia. done.
Qed.

Lemma free_slot_locked_ok s L i : span_inv s L -> cached s = false -> L i = true ->
  exists s', free_slot_locked s i = Some s' /\ shape s' = shape s /\ cached s' = false /\ span_inv s' (without_slot L i).
Proof.
  intros H Hcd HL. destruct (free_slot_atomic_ok s L i H HL) as (s1 & E & Hs & Hc & H1). revert E.
  unfold free_slot_locked, free_slot_atomic. pose proof (sp_live _ _ H i HL) as Hi. pose proof (sp_nelems _ _ H) as Hn.
  change ALLOC_BITS_WORDS with 16. rewrite !(decide_False (P := i / 64 >= 16)) by lia.
  destruct (clear_slot s L i H HL) as (w & b' & -> & Hne & Eb & _). cbn [mbind option_bind]. rewrite Eb.
  cbn [mbind option_bind]. rewrite !(decide_True (P := Z.land _ _ <> 0)) by done. intros [= <-].
  pose proof (sp_uncached _ _ H Hcd) as Ez. eexists. split; [done|]. case_decide; [|by rewrite Hcd in Hc].
  split; [done|]. split; [done|]. eapply move_index; [rewrite set_freeindex_id; exact H1|done|]. span_simpl. lia.
Qed.

(** ** Locked allocation *)

(** The slots from [lo] on that are free, lowest first, and what the search returns for them. *)
Definition lowest_free (L : Z -> bool) (lo n : Z) (r : option Z) : Prop :=
  match r with
  | Some slot => lo <= slot < n /\ L slot = false /\ forall k, lo <= k < slot -> L k = true
  | None => forall k, lo <= k < n -> L k = true
  end.

Lemma slot_candidates w f wi i : is_u64 w -> 0 <= wi < 16 -> 0 <= i < 64 -> 0 <= f < 1024 ->
  let start_bit := if decide (wrap16 (wi * 64) < f) then f - wrap16 (wi * 64) else 0 in
  let mask := if decide (start_bit = 0) then u64_max else shl64 u64_max start_bit in
  Z.testbit (Z.land (not64 w) mask) i = negb (Z.testbit w i) && bool_decide (f <= wi * 64 + i).
Proof.
  intros Uw Hwi Hi Hf start_bit mask. rewrite Z.land_spec, testbit_not_u64 by done. f_equal.
  unfold mask, start_bit. rewrite wrap16_small by lia. clear mask start_bit.
  repeat case_decide; rewrite ?testbit_shl64 by lia; try (rewrite testbit_u64_max by lia);
    rewrite ?(bool_decide_true (i < 64)) by lia; try (rewrite bool_decide_true by lia; done).
  cbn [andb]. case_bool_decide.
  - rewrite testbit_u64_max, bool_decide_true by lia. done.
  - by rewrite Z.testbit_neg_r by lia.
Qed.

(** Setting the bit of a free slot of an uncached span. *)
Lemma set_slot s L wi k w : span_inv s L -> alloc_cache s = 0 -> 0 <= wi -> 0 <= k < 64 ->
  idx (alloc_bits s) wi = Some w -> is_u64 w -> wi * 64 + k < nelems s -> L (wi * 64 + k) = false ->
  exists b', upd (alloc_bits s) wi (Z.lor w (shl64 1 k)) = Some b' /\
    span_inv (set_freeindex (set_count (set_bits s b') (wrap16 (alloc_count s + 1))) (wi * 64 + k + 1)) (with_slot L (wi * 64 + k)).
Proof.
  intros H Ez Hwi Hk Ew Uw Hlt HL. pose proof (sp_nelems _ _ H) as Hn.
  destruct (or_word _ wi w (shl64 1 k) (sp_words _ _ H) ltac:(lia) Ew Uw (shl_u64 _ _)) as (b' & Eb & Hb' & Hbit).
  assert (forall i, 0 <= i -> bit b' i = bit (alloc_bits s) i || bool_decide (i = wi * 64 + k)) as Hb.
  { intros i Hi. by rewrite Hbit, in_word_one. }
  assert (count (bit b') 0 1024 = alloc_count s + 1) as Hc.
  { rewrite (count_ext _ (fun i => bit (alloc_bits s) i || bool_decide (i = wi * 64 + k)) 0 0); [|lia|intros i Hi; apply Hb; lia].
    rewrite count_or, count_single, (sp_count _ _ H); [done|lia|lia|]. intros i Hi Hbi. apply bool_decide_eq_false. intros ->.
    rewrite (flat_bits s L) in Hbi by (done || lia). congruence. }
  exists b'. split; [done|]. pose proof (count_le b'). apply span_inv_flat; span_simpl; try done; try lia.
  - rewrite wrap16_small by lia. done.
  - intros i [Hi|Hi]%orb_true_iff; [by apply (sp_live _ _ H)|]. apply bool_decide_eq_true in Hi. lia.
  - intros i Hi. unfold with_slot. by rewrite Hb, (flat_bits s L) by (done || lia).
Qed.

Lemma alloc_slot_loop_ok s L : span_inv s L -> alloc_cache s = 0 -> freeindex s < nelems s ->
  forall fuel wi, 0 <= wi -> wi + Z.of_nat fuel = 16 ->
  (forall k, freeindex s <= k < wi * 64 -> k < nelems s -> L k = true) ->
  exists s' r, alloc_slot_loop fuel s (freeindex s) wi = Some (s', r) /\ shape s' = shape s /\ cached s' = cached s /\
    lowest_free L (freeindex s) (nelems s) r /\
    match r with Some slot => span_inv s' (with_slot L slot) | None => span_inv s' L end.
Proof.
  intros H Ez Hfi. pose proof (sp_nelems _ _ H) as Hn. pose proof (sp_index _ _ H) as Hidx.
  induction fuel as [|fuel IH]; intros wi Hwi Hf Hbelow; cbn [alloc_slot_loop].
  { exists s, None. do 3 (split; [done|]). split; [|done]. intros k Hk. apply Hbelow; lia. }
  destruct (word_at _ wi (sp_words _ _ H) ltac:(lia)) as (w & Ew & Uw). rewrite Ew. cbn [mbind option_bind].
  pose proof (fun i Hi => slot_candidates w (freeindex s) wi i Uw ltac:(lia) Hi ltac:(lia)) as Hcand. cbn zeta in Hcand.
  set (c := Z.land (not64 w) _) in *.
  assert (is_u64 c) as Uc.
  { apply land_u64_l; [by apply not_u64|]. case_decide; [done|]. pose proof (shl_u64 u64_max (if decide (wrap16 (wi * 64) < freeindex s) then freeindex s - wrap16 (wi * 64) else 0)) as [? ?]. done. }
  clearbody c.
  assert (forall i, 0 <= i < 64 -> freeindex s <= wi * 64 + i -> wi * 64 + i < nelems s -> Z.testbit c i = negb (L (wi * 64 + i))) as HcL.
  { intros i Hi Hge Hlt. rewrite Hcand, bool_decide_true, andb_true_r by done. rewrite <- (flat_bits s L) by (done || lia).
    unfold bit. replace ((wi * 64 + i) / 64) with wi by lia. rewrite Ew. by replace ((wi * 64 + i) mod 64) with i by lia. }
  assert (forall k n, 0 <= n <= 64 -> (forall j, 0 <= j < n -> Z.testbit c j = false) ->
    freeindex s <= k < wi * 64 + n -> k < nelems s -> L k = true) as Hup.
  { intros k n Hn64 Hz Hk Hkn. destruct (decide (k < wi * 64)); [apply Hbelow; lia|].
    specialize (HcL (k - wi * 64) ltac:(lia) ltac:(lia) ltac:(lia)). rewrite Hz in HcL by lia.
    replace (wi * 64 + (k - wi * 64)) with k in HcL by lia. by destruct (L k). }
  destruct (trailing_zeros_u64 c Uc) as (Hb & Hlow & Ht & Hz). case_decide as Hc0.
  { apply IH; [lia|lia|]. intros k Hk Hkn. apply (Hup k 64); [lia| |lia|done]. intros j _. subst c. apply Z.testbit_0_l. }
  assert (trailing_zeros c < 64) as Hb64 by (destruct (decide (trailing_zeros c = 64)); [tauto|lia]). specialize (Ht Hb64).
  pose proof Ht as Ht'. rewrite Hcand in Ht' by lia. apply andb_true_iff in Ht' as [_ Hge%bool_decide_eq_true].
  set (k := trailing_zeros c) in *. rewrite (wrap16_small (wi * 64)), (wrap16_small (wi * 64 + k)) by lia.
  case_decide as Hend.
  - eexists _, None. do 3 (split; [done|]). split; [intros j Hj; apply (Hup j k); (done || lia)|].
    apply (move_index s L (freeindex s)); [by rewrite set_freeindex_id|done|lia].
  - rewrite (wrap16_small (wi * 64 + k + 1)) by lia.
    assert (L (wi * 64 + k) = false) as HL by (rewrite HcL in Ht by lia; by destruct (L (wi * 64 + k))).
    destruct (set_slot s L wi k w H Ez Hwi ltac:(lia) Ew Uw ltac:(lia) HL) as (b' & -> & H').
    cbn [mbind option_bind]. eexists _, (Some (wi * 64 + k)). do 3 (split; [done|]). split; [|done].
    split; [lia|]. split; [done|]. intros j Hj. apply (Hup j k); (done || lia).
Qed.

Lemma alloc_slot_locked_ok s L : span_inv s L -> cached s = false ->
  exists s' r, alloc_slot_locked s = Some (s', r) /\ shape s' = shape s /\ cached s' = false /\
    lowest_free L (freeindex s) (nelems s) r /\
    match r with Some slot => span_inv s' (with_slot L slot) | None => span_inv s' L end.
Proof.
  intros H Hcd. pose proof (sp_index _ _ H) as Hi. pose proof (sp_nelems _ _ H) as Hn. unfold alloc_slot_locked. case_decide as Hf.
  { exists s, None. do 3 (split; [done|]). split; [|done]. intros k Hk. lia. }
  rewrite <- Hcd. apply alloc_slot_loop_ok; [done|by apply (sp_uncached _ _ H)|lia|lia|change ALLOC_BITS_WORDS with 16; lia|]. intros k Hk. lia.
Qed.

(** ** Histories *)

(** The life of one span: cached by a P and returned ([OCache], [OUncache]), owner and locked
    allocation, and the release of the [i]-th live slot on the path [mcentral::free] takes. *)
Inductive span_op := OCache | OUncache | OAlloc | OAllocLocked | OFree (i : nat).

Definition sold (live : list Z) (r : option Z) : list Z := match r with Some slot => slot :: live | None => live end.

Definition span_step (op : span_op) (st : Span * list Z) : option (Span * list Z) :=
  let '(s, live) := st in
  match op with
  | OCache => if cached s then Some (s, live) else s ← cache_span s; Some (s, live)
  | OUncache => if cached s then s ← uncache_span s; Some (s, live) else Some (s, live)
  | OAlloc => if cached s then '(s, r) ← next_free_owner s; Some (s, sold live r) else Some (s, live)
  | OAllocLocked => if cached s then Some (s, live) else '(s, r) ← alloc_slot_locked s; Some (s, sold live r)
  | OFree i =>
      match live !! i with
      | Some slot =>
          s ← (if cached s then free_slot_atomic s slot else free_slot_locked s slot);
          Some (s, delete i live)
      | None => Some (s, live)
      end
  end.

Fixpoint span_run (ops : list span_op) (st : Span * list Z) : option (Span * list Z) :=
  match ops with
  | [] => Some st
  | op :: ops => st ← span_step op st; span_run ops st
  end.

Definition members (live : list Z) (i : Z) : bool := bool_decide (i ∈ live).

Record history_inv (s0 s : Span) (live : list Z) : Prop := {
  hi_span : span_inv s (members live);
  hi_nodup : base.NoDup live;
  hi_shape : shape s = shape s0
}.

Lemma history_sold s0 s s' live r : history_inv s0 s live -> shape s' = shape s ->
  match r with
  | Some slot => members live slot = false /\ span_inv s' (with_slot (members live) slot)
  | None => span_inv s' (members live)
  end -> history_inv s0 s' (sold live r).
Proof.
  intros [H N Sh] Hs Hr. destruct r as [slot|]; cbn [sold]; [|split; [done|done|congruence]].
  destruct Hr as [Hf Hr]. split; [|apply list.NoDup_cons; split; [by apply bool_decide_eq_false in Hf|done]|congruence].
  apply (span_inv_ext _ _ _ Hr). intros i. unfold with_slot, members. rewrite orb_comm. rewrite <- bool_decide_or.
  apply bool_decide_ext. by rewrite elem_of_cons.
Qed.

Lemma history_free s0 s s' live i slot : history_inv s0 s live -> live !! i = Some slot -> shape s' = shape s ->
  span_inv s' (without_slot (members live) slot) -> history_inv s0 s' (delete i live).
Proof.
  intros [H N Sh] Hi Hs Hr. pose proof (delete_Permutation live i slot Hi) as Hp. rewrite Hp in N.
  assert (forall k, k ∈ live <-> k ∈ slot :: delete i live) as Hmem by (intros k; by rewrite <- Hp). apply list.NoDup_cons in N as [Hn N].
  split; [|done|congruence]. apply (span_inv_ext _ _ _ Hr). intros k. unfold without_slot, members. rewrite <- bool_decide_not, <- bool_decide_and.
  apply bool_decide_ext. rewrite Hmem, elem_of_cons. split; [tauto|]. intros Hk. split; [by right|]. by intros ->.
Qed.

Lemma span_step_ok s0 s live op : history_inv s0 s live ->
  exists s' live', span_step op (s, live) = Some (s', live') /\ history_inv s0 s' live'.
Proof.
  intros Hh. pose proof Hh as [H N Sh]. unfold span_step. destruct op as [| | | |i].
  - destruct (cached s) eqn:Hc; [by eexists _, _|]. destruct (cache_span_ok s _ H Hc) as (s' & -> & Hs & _ & H').
    eexists _, _. split; [done|]. by apply (history_sold s0 s s' live None).
  - destruct (cached s) eqn:Hc; [|by eexists _, _]. destruct (uncache_span_ok s _ H) as (s' & -> & Hs & _ & H').
    eexists _, _. split; [done|]. by apply (history_sold s0 s s' live None).
  - destruct (cached s) eqn:Hc; [|by eexists _, _]. destruct (next_free_owner_ok s _ H Hc) as (s' & r & -> & Hs & _ & Hr).
    eexists _, _. split; [done|]. apply (history_sold s0 s s'); [done|done|]. destruct r; [by destruct Hr as (_ & ? & ?)|done].
  - destruct (cached s) eqn:Hc; [by eexists _, _|]. destruct (alloc_slot_locked_ok s _ H Hc) as (s' & r & -> & Hs & _ & Hl & Hr).
    eexists _, _. split; [done|]. apply (history_sold s0 s s'); [done|done|]. destruct r; [by destruct Hl as (_ & ? & _)|done].
  - destruct (live !! i) as [slot|] eqn:Hi; [|by eexists _, _].
    assert (members live slot = true) as HL by (apply bool_decide_eq_true; by eapply list_elem_of_lookup_2).
    destruct (cached s) eqn:Hc.
    + destruct (free_slot_atomic_ok s _ slot H HL) as (s' & -> & Hs & _ & H').
      eexists _, _. split; [done|]. by apply (history_free s0 s s' live i slot).
    + destruct (free_slot_locked_ok s _ slot H Hc HL) as (s' & -> & Hs & _ & H').
      eexists _, _. split; [done|]. by apply (history_free s0 s s' live i slot).
Qed.

Lemma span_run_ok s0 ops : forall s live, history_inv s0 s live ->
  exists s' live', span_run ops (s, live) = Some (s', live') /\ history_inv s0 s' live'.
Proof.
  induction ops as [|op ops IH]; intros s live Hh; cbn [span_run]; [by eexists _, _|].
  destruct (span_step_ok s0 s live op Hh) as (s' & live' & -> & Hh'). cbn [mbind option_bind]. by apply IH.
Qed.

(** ** Fresh spans *)

Definition class_shape_ok (c : Z) : bool :=
  match idx SIZE_OF_CLASS c, idx NPAGES_OF_CLASS c with
  | Some size, Some np => bool_decide (1 <= np * 8192 / size <= 1024) && bool_decide (8 <= size) && bool_decide (1 <= np <= 10)
  | _, _ => false
  end.

Lemma class_shapes : forallb class_shape_ok (seqZ 1 67) = true.
Proof. vm_compute. reflexivity. Qed.

(** A span of class [c] at address [b], for any slot of the pool. *)
Record fresh_span (s : Span) (c b : Z) : Prop := {
  fs_base : base s = b;
  fs_elem : 8 <= elemsize s;
  fs_nelems : 1 <= nelems s <= 1024;
  fs_room : nelems s * elemsize s <= npages s * 8192;
  fs_pages : 1 <= npages s <= 10;
  fs_inv : span_inv s (members [])
}.

Lemma init_span_ok s0 c b : wf_words (alloc_bits s0) -> 1 <= c < NUM_SIZE_CLASSES ->
  exists s, init_span s0 c b = Some s /\ fresh_span s c b /\ cached s = cached s0.
Proof.
  intros Hw Hc. unfold NUM_SIZE_CLASSES in Hc. pose proof (seq_entry _ _ c class_shapes ltac:(lia)) as Hok. unfold class_shape_ok in Hok.
  unfold init_span. destruct (idx SIZE_OF_CLASS c) as [size|]; [|done]. destruct (idx NPAGES_OF_CLASS c) as [np|]; [|done].
  cbn [mbind option_bind]. apply andb_true_iff in Hok as [[H1%bool_decide_eq_true H2%bool_decide_eq_true]%andb_true_iff H3%bool_decide_eq_true].
  eexists. split; [done|]. rewrite wrap16_small by lia. split; [|done].
  assert (forall i, bit (map (fun _ => 0) (alloc_bits s0)) i = false) as Hz.
  { intros i. unfold bit, idx. case_decide; [|done]. destruct (map _ _ !! _) as [w|] eqn:E; [|done].
    rewrite list_lookup_fmap in E. destruct (alloc_bits s0 !! _); [|done]. injection E as <-. apply Z.testbit_0_l. }
  split; span_simpl; try done; try lia. apply span_inv_flat; span_simpl; try done; try lia.
  - destruct Hw as [Hl _]. split; [unfold zlen in *; by rewrite length_fmap|]. apply Forall_fmap, Forall_true. intros. apply zero_u64.
  - rewrite count_false; [done|lia|]. intros k _. apply Hz.
Qed.

Lemma span_new_words : wf_words (alloc_bits span_new).
Proof. split; [done|]. apply Forall_replicate, zero_u64. Qed.

(** ** Theorems *)

(** C27: over any history of one span (cached by a P and returned any number of times, owner and
    locked allocation, lock-free and locked release), no operation panics or loops, no slot is
    handed out while it is live, every slot lies inside the span, and [debug_audit]'s test
    holds: the bitmap's population equals [alloc_count]. *)
Theorem span_slots_exclusive c b ops : 1 <= c < NUM_SIZE_CLASSES -> 0 <= b -> b + 2 ^ 20 < 2 ^ 64 ->
  exists s0 s live, init_span span_new c b = Some s0 /\ span_run ops (s0, []) = Some (s, live) /\
    base.NoDup live /\ audit s = true /\
    Forall (fun i => b <= slot_addr s i /\ slot_addr s i + elemsize s <= b + npages s * 8192) live /\
    (forall i j a a', live !! i = Some a -> live !! j = Some a' -> i <> j ->
       slot_addr s a + elemsize s <= slot_addr s a' \/ slot_addr s a' + elemsize s <= slot_addr s a).
Proof.
  intros Hc Hb Hb'. destruct (init_span_ok span_new c b span_new_words Hc) as (s0 & E & Hf & _).
  destruct (span_run_ok s0 ops s0 []) as (s & live & Hrun & [H N Sh]).
  { split; [apply Hf|constructor|done]. }
  exists s0, s, live. split; [done|]. split; [done|]. split; [done|]. unfold shape in Sh. injection Sh as Eb Enp Ees Ene _.
  destruct Hf as [Hfb Hfe Hfn Hfr Hfp _]. rewrite <- Eb, <- Enp, <- Ees, <- Ene in *.
  assert (forall a i, live !! i = Some a -> 0 <= a < nelems s /\ slot_addr s a = b + a * elemsize s) as Ha.
  { intros a i Hi. assert (members live a = true) as HL by (apply bool_decide_eq_true; by eapply list_elem_of_lookup_2).
    pose proof (sp_live _ _ H a HL). split; [done|]. unfold slot_addr, add64, mul64, wrap64. rewrite Hfb.
    rewrite (Z.mod_small (a * elemsize s)), Z.mod_small by nia. done. }
  split; [|split].
  - unfold audit. apply Z.eqb_eq. destruct (sp_words _ _ H) as [Hl Hu]. rewrite population, Hl by done. symmetry. apply (sp_count _ _ H).
  - apply Forall_lookup. intros i a Hi. destruct (Ha a i Hi) as [Hr ->]. nia.
  - intros i j a a' Hi Hj Hne. destruct (Ha a i Hi) as [Hr ->], (Ha a' j Hj) as [Hr' ->].
    assert (a <> a') by (intros ->; by apply Hne, (NoDup_lookup live i j a')). destruct (decide (a < a')); [left|right]; nia.
Qed.

Lemma span_slots_exclusive_witness :
  exists s0 s live, init_span span_new 36 8192 = Some s0 /\
    span_run [OCache; OAlloc; OAlloc; OUncache; OAllocLocked; OFree 0] (s0, []) = Some (s, live) /\
    base.NoDup live /\ audit s = true /\
    Forall (fun i => 8192 <= slot_addr s i /\ slot_addr s i + elemsize s <= 8192 + npages s * 8192) live /\
    (forall i j a a', live !! i = Some a -> live !! j = Some a' -> i <> j ->
       slot_addr s a + elemsize s <= slot_addr s a' \/ slot_addr s a' + elemsize s <= slot_addr s a).
Proof. apply (span_slots_exclusive 36 8192); [unfold NUM_SIZE_CLASSES; lia|lia|lia]. Defined.

(** [slot_of] inverts [slot_addr] on every byte of a slot. *)
Theorem slot_of_addr s c b i d : fresh_span s c b -> 0 <= b -> b + 2 ^ 20 < 2 ^ 64 -> 0 <= i < nelems s -> 0 <= d < elemsize s ->
  slot_of s (slot_addr s i + d) = i.
Proof.
  intros [Hb He Hn Hr Hp _] H0 H1 Hi Hd. unfold slot_of, slot_addr, sub64, add64, mul64, wrap64. rewrite Hb.
  rewrite (Z.mod_small (i * elemsize s)) by nia. rewrite (Z.mod_small (b + i * elemsize s)), Z.mod_small by nia.
  replace (b + i * elemsize s + d - b) with (i * elemsize s + d) by lia. rewrite Z.div_add_l, Z.div_small by lia.
  rewrite wrap16_small by lia. lia.
Qed.

Lemma slot_of_addr_witness : exists s, init_span span_new 36 8192 = Some s /\ slot_of s (slot_addr s 3 + 1000) = 3.
Proof.
  destruct (init_span_ok span_new 36 8192 span_new_words) as (s & E & H & _); [unfold NUM_SIZE_CLASSES; lia|].
  exists s. split; [exact E|].
  assert (elemsize s = 1536 /\ nelems s = 5) as [E1 E2] by (injection E as <-; vm_compute; split; reflexivity).
  apply (slot_of_addr s 36 8192); [exact H|lia|lia|lia|lia].
Defined.

(** [alloc_slot_locked] on an uncached span hands out the lowest free slot at or above
    [freeindex], and returns [None] exactly when there is none there. *)
Theorem alloc_slot_locked_lowest s L : span_inv s L -> cached s = false ->
  exists s' r, alloc_slot_locked s = Some (s', r) /\ lowest_free L (freeindex s) (nelems s) r /\
    span_inv s' (match r with Some slot => with_slot L slot | None => L end).
Proof.
  intros H Hc. destruct (alloc_slot_locked_ok s L H Hc) as (s' & r & E & _ & _ & Hl & Hr).
  exists s', r. split; [done|]. split; [done|]. by destruct r.
Qed.

Lemma alloc_slot_locked_lowest_witness : exists s, init_span span_new 1 8192 = Some s /\
  exists s' r, alloc_slot_locked s = Some (s', r) /\ lowest_free (members []) (freeindex s) (nelems s) r /\
    span_inv s' (match r with Some slot => with_slot (members []) slot | None => members [] end).
Proof.
  destruct (init_span_ok span_new 1 8192 span_new_words) as (s & E & H & Hc); [unfold NUM_SIZE_CLASSES; lia|].
  exists s. split; [exact E|]. apply (alloc_slot_locked_lowest s); [apply H|exact Hc].
Defined.

(** Bits past the last slot can stay claimed: when the owner's search ends past [nelems],
    [freeindex] moves but the cache is not realigned, and [release_unsold] clears the wrong
    bits.  A five-slot span with all five slots live then counts nine, so it is not
    [is_full]; and with all five released it counts four, so it is not [is_empty] and its
    pages are never returned. *)
Theorem release_unsold_leaks :
  let fill := [OCache; OAlloc; OAlloc; OAlloc; OAlloc; OAlloc; OFree 4; OAlloc; OUncache; OCache; OAlloc; OAlloc; OUncache] in
  match init_span span_new 36 8192 with
  | Some s0 =>
      match span_run fill (s0, []), span_run (fill ++ [OFree 0; OFree 0; OFree 0; OFree 0; OFree 0]) (s0, []) with
      | Some (s, live), Some (s', live') =>
          zlen live = nelems s /\ is_full s = false /\ alloc_count s = 9 /\
          live' = [] /\ is_empty s' = false /\ alloc_count s' = 4
      | _, _ => False
      end
  | None => False
  end.
Proof. vm_compute. done. Qed.

(** A span returned by its P keeps its [freeindex], so [alloc_slot_locked] reports a span with
    three free slots out of five as having none. *)
Theorem stale_freeindex_hides_slots :
  match init_span span_new 36 8192 with
  | Some s0 =>
      match span_run [OCache; OAlloc; OAlloc; OAlloc; OAlloc; OAlloc; OFree 4; OFree 3; OFree 2; OUncache] (s0, []) with
      | Some (s, live) =>
          live = [4; 3] /\ nelems s = 5 /\ alloc_count s = 2 /\ cached s = false /\
          match alloc_slot_locked s with Some (_, r) => r = None | None => False end
      | None => False
      end
  | None => False
  end.
Proof. vm_compute. done. Qed.
