(* ===== verification/MCentral.v ===== *)
(** The central span lists: src/src/runtime/mcentral/mod.rs.

    [MCentral] is the source's record; the span table and the page map are finite maps over the
    zero-initialised arrays.  Each public function is one step on the central state and the page
    heap of [Heap].  [Panic] stands for a failed [debug_assert!] or index, [Exit 2] for [oom]. *)
From Stdlib Require Import ZArith Lia.
From stdpp Require Import base tactics numbers list list_numbers option fin_maps gmap.
From S2P Require Import Prelude Outcome MheapConsts PageAlloc Heap SizeClasses Span.
Open Scope Z_scope.

Definition MAX_SPANS : Z := 65535.

Record MCentral := mkMC {
  partial : list Z;
  full : list Z;
  spans : gmap Z Span;
  spans_bump : Z;
  spans_free_head : Z;
  page_to_span : gmap Z Z;
  tracked_pages : Z;
  mc_base : Z
}.

Definition mcentral_new : MCentral :=
  mkMC (replicate (Z.to_nat NUM_SIZE_CLASSES) NIL_SPAN) (replicate (Z.to_nat NUM_SIZE_CLASSES) NIL_SPAN) ∅ 0 NIL_SPAN ∅ 0 0.

(** The whole allocator state: this and the page heap. *)
Record Central := mkCentral { mc : MCentral; heap : Mheap }.

(** ** Fields *)

Definition set_spans (m : MCentral) (sp : gmap Z Span) : MCentral :=
  mkMC (partial m) (full m) sp (spans_bump m) (spans_free_head m) (page_to_span m) (tracked_pages m) (mc_base m).
Definition set_partial (m : MCentral) (l : list Z) : MCentral :=
  mkMC l (full m) (spans m) (spans_bump m) (spans_free_head m) (page_to_span m) (tracked_pages m) (mc_base m).
Definition set_full (m : MCentral) (l : list Z) : MCentral :=
  mkMC (partial m) l (spans m) (spans_bump m) (spans_free_head m) (page_to_span m) (tracked_pages m) (mc_base m).
Definition set_free_head (m : MCentral) (i : Z) : MCentral :=
  mkMC (partial m) (full m) (spans m) (spans_bump m) i (page_to_span m) (tracked_pages m) (mc_base m).
Definition set_bump (m : MCentral) (b : Z) : MCentral :=
  mkMC (partial m) (full m) (spans m) b (spans_free_head m) (page_to_span m) (tracked_pages m) (mc_base m).
Definition set_pages (m : MCentral) (p : gmap Z Z) : MCentral :=
  mkMC (partial m) (full m) (spans m) (spans_bump m) (spans_free_head m) p (tracked_pages m) (mc_base m).

Definition set_next (s : Span) (x : Z) : Span :=
  mkSpan (base s) (npages s) (elemsize s) (nelems s) (sizeclass s) (alloc_count s) (freeindex s) (alloc_bits s) (alloc_cache s)
    x (prev s) (cached s).
Definition set_prev (s : Span) (x : Z) : Span :=
  mkSpan (base s) (npages s) (elemsize s) (nelems s) (sizeclass s) (alloc_count s) (freeindex s) (alloc_bits s) (alloc_cache s)
    (next s) x (cached s).

(** [spans[i]]: the table starts with every entry [Span::new()]. *)
Definition span_at (m : MCentral) (i : Z) : Span := default span_new (spans m !! i).
Definition get_span (m : MCentral) (i : Z) : outcome Span :=
  if decide (0 <= i < MAX_SPANS) then Ok (span_at m i) else Panic.
Definition put_span (m : MCentral) (i : Z) (s : Span) : outcome MCentral :=
  if decide (0 <= i < MAX_SPANS) then Ok (set_spans m (<[i := s]> (spans m))) else Panic.
(** [spans[i].f = ..] and in-place calls. *)
Definition on_span (m : MCentral) (i : Z) (f : Span -> Span) : outcome MCentral :=
  s ← get_span m i; put_span m i (f s).

Definition head_of (l : list Z) (class : Z) : outcome Z := of_option (idx l class).
Definition set_head (l : list Z) (class i : Z) : outcome (list Z) := of_option (upd l class i).

(** ** The span table *)

Definition alloc_span_idx (m : MCentral) : outcome (MCentral * Z) :=
  if decide (spans_free_head m <> NIL_SPAN) then
    let idx := spans_free_head m in
    s ← get_span m idx;
    let m := set_free_head m (next s) in
    m ← on_span m idx reset;
    Ok (m, idx)
  else
    let idx := wrap16 (spans_bump m + 1) in
    if decide (idx >= MAX_SPANS) then Exit 2
    else Ok (set_bump m (wrap16 (spans_bump m + 1)), idx).

Definition release_span_idx (m : MCentral) (idx : Z) : outcome MCentral :=
  m ← on_span m idx reset;
  m ← on_span m idx (fun s => set_next s (spans_free_head m));
  Ok (set_free_head m idx).

(** ** The lists *)

Definition list_remove (m : MCentral) (idx : Z) : outcome MCentral :=
  s ← get_span m idx;
  let class := sizeclass s in
  m ← (if decide (prev s <> NIL_SPAN) then on_span m (prev s) (fun p => set_next p (next s))
       else
         ph ← head_of (partial m) class;
         if decide (ph = idx) then l ← set_head (partial m) class (next s); Ok (set_partial m l)
         else
           fh ← head_of (full m) class;
           if decide (fh = idx) then l ← set_head (full m) class (next s); Ok (set_full m l)
           else Ok m);
  m ← (if decide (next s <> NIL_SPAN) then on_span m (next s) (fun n => set_prev n (prev s)) else Ok m);
  m ← on_span m idx (fun s => set_next s NIL_SPAN);
  on_span m idx (fun s => set_prev s NIL_SPAN).

Definition partial_pop (m : MCentral) (class : Z) : outcome (MCentral * Z) :=
  idx ← head_of (partial m) class;
  if decide (idx = NIL_SPAN) then Ok (m, NIL_SPAN)
  else m ← list_remove m idx; Ok (m, idx).

(** The body the two pushes share, up to the store of the head. *)
Definition link_front (m : MCentral) (idx head : Z) : outcome MCentral :=
  m ← on_span m idx (fun s => set_next s head);
  m ← on_span m idx (fun s => set_prev s NIL_SPAN);
  if decide (head <> NIL_SPAN) then on_span m head (fun s => set_prev s idx) else Ok m.

Definition partial_push (m : MCentral) (idx : Z) : outcome MCentral :=
  s ← get_span m idx;
  head ← head_of (partial m) (sizeclass s);
  m ← link_front m idx head;
  l ← set_head (partial m) (sizeclass s) idx;
  Ok (set_partial m l).

Definition full_push (m : MCentral) (idx : Z) : outcome MCentral :=
  s ← get_span m idx;
  head ← head_of (full m) (sizeclass s);
  m ← link_front m idx head;
  l ← set_head (full m) (sizeclass s) idx;
  Ok (set_full m l).

(** [while idx != NIL_SPAN && scanned < RESCUE_SCAN_BOUND] *)
Fixpoint rescue_loop (fuel : nat) (m : MCentral) (idx first : Z) : outcome (MCentral * Z) :=
  match fuel with
  | O => Ok (m, first)
  | S fuel =>
      if decide (idx = NIL_SPAN) then Ok (m, first)
      else
        s ← get_span m idx;
        if Span.is_full s then rescue_loop fuel m (next s) first
        else
          m ← list_remove m idx;
          m ← partial_push m idx;
          rescue_loop fuel m (next s) (if decide (first = NIL_SPAN) then idx else first)
  end.

Definition rescue_full (m : MCentral) (class : Z) : outcome (MCentral * Z) :=
  idx ← head_of (full m) class;
  rescue_loop 64 m idx NIL_SPAN.

(** ** Pages *)

(** [for p in first..first + n]: the entries of the page map; [strict] is the [debug_assert!] of
    [init_span], elsewhere a guard. *)
Fixpoint map_pages (strict : bool) (n : nat) (m : MCentral) (p idx : Z) : outcome MCentral :=
  match n with
  | O => Ok m
  | S n =>
      if decide (p < tracked_pages m) then map_pages strict n (set_pages m (<[p := idx]> (page_to_span m))) (p + 1) idx
      else if strict then Panic else map_pages strict n m (p + 1) idx
  end.

Definition init_span_at (m : MCentral) (idx class b : Z) : outcome MCentral :=
  s0 ← get_span m idx;
  s ← of_option (init_span s0 class b);
  m ← put_span m idx s;
  let first_page := sub64 b (mc_base m) / PAGE_SIZE in
  map_pages true (Z.to_nat (npages s)) m first_page idx.

(** ** Initialisation *)

(** [mmap] is the system call under [mmap_zeroed]; its failure ends the process. *)
Definition mcentral_init (mmap : Z -> option Z) (c : Central) (arena_base : Z) : outcome Central :=
  let pages := mheap_capacity_pages (heap c) in
  if decide (pages = 0) then Exit 2
  else
    match mmap (mul64 pages 2) with
    | None => Exit 2
    | Some _ =>
        let m := mc c in
        Ok (mkCentral (mkMC (partial m) (full m) (spans m) (spans_bump m) (spans_free_head m) ∅ pages arena_base) (heap c))
    end.

(** ** Allocation and release *)

(** A fresh span of [class] from the page heap: its index, or [NIL_SPAN] when the heap is out
    of pages. *)
Definition draw_span (c : Central) (class : Z) : outcome (Central * Z) :=
  np ← of_option (idx NPAGES_OF_CLASS class);
  '(h, b) ← mheap_alloc_pages (heap c) np;
  if decide (b = ALLOC_FAILED) then Ok (mkCentral (mc c) h, NIL_SPAN)
  else
    '(m, i) ← alloc_span_idx (mc c);
    m ← init_span_at m i class b;
    Ok (mkCentral m h, i).

(** The head of [partial[class]], or a rescued span. *)
Definition find_span (m : MCentral) (class : Z) : outcome (MCentral * Z) :=
  idx ← head_of (partial m) class;
  if decide (idx = NIL_SPAN) then rescue_full m class else Ok (m, idx).

(** The second half of [alloc]: a slot of the span [idx], which is on a list.  Null is 0. *)
Definition alloc_from (c : Central) (idx : Z) : outcome (Central * Z) :=
  let m := mc c in
  s ← get_span m idx;
  '(s, r) ← of_option (alloc_slot_locked s);
  m ← put_span m idx s;
  match r with
  | None => m ← list_remove m idx; m ← full_push m idx; Ok (mkCentral m (heap c), 0)
  | Some slot =>
      m ← (if Span.is_full s then m ← list_remove m idx; full_push m idx else Ok m);
      Ok (mkCentral m (heap c), slot_addr s slot)
  end.

Definition alloc (c : Central) (size align : Z) : outcome (Central * Z) :=
  k ← class_for size align;
  match k with
  | None => Ok (c, 0)
  | Some class =>
      if decide (class < 1) then Ok (c, 0)
      else
        '(m, idx) ← find_span (mc c) class;
        if decide (idx = NIL_SPAN) then
          '(c, idx) ← draw_span (mkCentral m (heap c)) class;
          if decide (idx = NIL_SPAN) then Ok (c, 0)
          else m ← partial_push (mc c) idx; alloc_from (mkCentral m (heap c)) idx
        else alloc_from (mkCentral m (heap c)) idx
  end.

(** The end of [free] and of [uncacheSpan] for a span that became empty; [on_list] tells whether
    it is still on a list. *)
Definition release_span (c : Central) (idx : Z) (on_list : bool) : outcome Central :=
  let m := mc c in
  s ← get_span m idx;
  let first_page := sub64 (base s) (mc_base m) / PAGE_SIZE in
  m ← map_pages false (Z.to_nat (npages s)) m first_page NIL_SPAN;
  m ← (if on_list then list_remove m idx else Ok m);
  m ← release_span_idx m idx;
  h ← mheap_free_pages (heap c) (base s) (npages s);
  Ok (mkCentral m h).

(** The second test of [cached], under the lock, sees what the first saw: a call is one step. *)
Definition free (c : Central) (p : Z) : outcome (Central * bool) :=
  let m := mc c in
  if decide (p < mc_base m) then Ok (c, false)
  else
    let page_idx := sub64 p (mc_base m) / PAGE_SIZE in
    if decide (page_idx >= tracked_pages m) then Ok (c, false)
    else
      let idx := default NIL_SPAN (page_to_span m !! page_idx) in
      if decide (idx = NIL_SPAN) then Ok (c, false)
      else
        s ← get_span m idx;
        if decide (p < base s \/ p >= add64 (base s) (mul64 (npages s) PAGE_SIZE)) then Ok (c, false)
        else
          let slot := slot_of s p in
          if cached s then
            s ← of_option (free_slot_atomic s slot);
            m ← put_span m idx s;
            Ok (mkCentral m (heap c), true)
          else
            let was_full := Span.is_full s in
            s ← of_option (free_slot_locked s slot);
            m ← put_span m idx s;
            m ← (if was_full then m ← list_remove m idx; partial_push m idx else Ok m);
            s ← get_span m idx;
            c ← (if is_empty s then release_span (mkCentral m (heap c)) idx true else Ok (mkCentral m (heap c)));
            Ok (c, true).

(** ** Spans cached by a P *)

Definition cacheSpan (c : Central) (class : Z) : outcome (Central * Z) :=
  if decide (class = 0 \/ class >= NUM_SIZE_CLASSES) then Ok (c, NIL_SPAN)
  else
    '(m, idx) ← find_span (mc c) class;
    if decide (idx <> NIL_SPAN) then
      m ← list_remove m idx;
      s ← get_span m idx;
      s ← of_option (cache_span s);
      m ← put_span m idx s;
      Ok (mkCentral m (heap c), idx)
    else
      '(c, idx) ← draw_span (mkCentral m (heap c)) class;
      if decide (idx = NIL_SPAN) then Ok (c, NIL_SPAN)
      else
        s ← get_span (mc c) idx;
        '(s, claimed) ← of_option (refill_alloc_cache s 0);
        m ← put_span (mc c) idx (set_cached (claim_count s claimed) true);
        Ok (mkCentral m (heap c), idx).

Definition uncacheSpan (c : Central) (idx : Z) : outcome Central :=
  if decide (idx = NIL_SPAN) then Ok c
  else
    s ← get_span (mc c) idx;
    s ← of_option (uncache_span s);
    m ← put_span (mc c) idx s;
    if is_empty s then release_span (mkCentral m (heap c)) idx false
    else
      m ← (if Span.is_full s then full_push m idx else partial_push m idx);
      Ok (mkCentral m (heap c)).

Definition alloc_slot_in (c : Central) (idx : Z) : outcome (Central * Z) :=
  if decide (idx = NIL_SPAN) then Ok (c, 0)
  else
    s ← get_span (mc c) idx;
    '(s, r) ← of_option (next_free_owner s);
    m ← put_span (mc c) idx s;
    Ok (mkCentral m (heap c), match r with Some slot => slot_addr s slot | None => 0 end).

Definition is_full (c : Central) (idx : Z) : outcome bool :=
  if decide (idx = NIL_SPAN) then Ok true else s ← get_span (mc c) idx; Ok (Span.is_full s).

Definition live_slots (c : Central) : Z :=
  foldl (fun n i => n +! alloc_count (span_at (mc c) i))%goish 0 (seqZ 1 (spans_bump (mc c))).

Definition live_bytes (c : Central) : Z :=
  foldl (fun n i => let s := span_at (mc c) i in n +! alloc_count s *! elemsize s)%goish 0 (seqZ 1 (spans_bump (mc c))).
