(* ===== verification/MCentralLists.v ===== *)
(** The intrusive span lists of mcentral/mod.rs: pushing and removing spans. *)
From Stdlib Require Import ZArith Lia.
From stdpp Require Import base tactics numbers list list_numbers option fin_maps gmap.
From S2P Require Import Prelude Outcome SizeClasses Span SpanSpec MCentral.
Open Scope Z_scope.

(** ** Segments *)

(** The spans [l] are linked in order; the first's [prev] is [pr], the last's [next] is [nx]. *)
Fixpoint dseg (sp : Z -> Span) (pr : Z) (l : list Z) (nx : Z) : Prop :=
  match l with
  | [] => True
  | i :: t => prev (sp i) = pr /\ next (sp i) = hd nx t /\ dseg sp i t nx
  end.

Lemma last_cons (i : Z) l d : List.last (i :: l) d = List.last l i.
Proof. revert i d. induction l as [|x l IH]; intros i d; [done|]. change (List.last (x :: l) d = List.last (x :: l) i). by rewrite !IH. Qed.

Lemma last_in (l : list Z) d : l <> [] -> List.last l d ∈ l.
Proof. intros Hl. rewrite (app_removelast_last d Hl) at 2. rewrite elem_of_app, list_elem_of_singleton. by right. Qed.

Lemma dseg_app sp pr l1 l2 nx : dseg sp pr (l1 ++ l2) nx <-> dseg sp pr l1 (hd nx l2) /\ dseg sp (List.last l1 pr) l2 nx.
Proof.
  revert pr. induction l1 as [|i l1 IH]; intros pr; [cbn; tauto|]. cbn [app dseg]. rewrite IH.
  rewrite last_cons.
  replace (hd nx (l1 ++ l2)) with (hd (hd nx l2) l1) by by destruct l1. tauto.
Qed.

Lemma dseg_frame sp sp' pr l nx : (forall i, i ∈ l -> next (sp' i) = next (sp i) /\ prev (sp' i) = prev (sp i)) -> dseg sp pr l nx -> dseg sp' pr l nx.
Proof.
  revert pr. induction l as [|i l IH]; intros pr Hf Hd; [done|]. cbn [dseg] in *. destruct (Hf i) as [-> ->]; [by left|].
  destruct Hd as (H1 & H2 & Hd). split_and!; try done. apply IH; [|done]. intros j Hj. apply Hf. by right.
Qed.

(** Another end. *)
Lemma dseg_next sp sp' pr l nx nx' : base.NoDup l ->
  (forall i, i ∈ l -> prev (sp' i) = prev (sp i) /\ next (sp' i) = if decide (i = List.last l 0) then nx' else next (sp i)) ->
  dseg sp pr l nx -> dseg sp' pr l nx'.
Proof.
  revert pr. induction l as [|i l IH]; intros pr Hnd Hf Hd; [done|]. cbn [dseg] in *. destruct Hd as (H1 & H2 & Hd).
  apply list.NoDup_cons in Hnd as [Hi Hnd]. destruct (Hf i) as [E1 E2]; [by left|]. rewrite E1, E2. destruct l as [|j l].
  - cbn. rewrite decide_True by done. done.
  - rewrite decide_False by (intros Ei; apply Hi; rewrite Ei, last_cons, (last_cons j); destruct l; [by left|rewrite last_cons; right; by rewrite <- (last_cons z l 0); apply last_in]).
    split_and!; try done. apply IH; [done| |done]. intros k Hk. destruct (Hf k) as [E3 E4]; [by right|]. by rewrite E3, E4.
Qed.

(** Another front. *)
Lemma dseg_prev sp sp' pr pr' l nx : base.NoDup l ->
  (forall i, i ∈ l -> next (sp' i) = next (sp i) /\ prev (sp' i) = if decide (i = hd 0 l) then pr' else prev (sp i)) ->
  dseg sp pr l nx -> dseg sp' pr' l nx.
Proof.
  destruct l as [|i l]; [done|]. intros [Hi Hnd]%list.NoDup_cons Hf (H1 & H2 & Hd). cbn [dseg hd] in *. destruct (Hf i) as [E1 E2]; [by left|].
  rewrite E1, E2, decide_True by done. split_and!; try done. eapply dseg_frame; [|exact Hd]. intros j Hj. destruct (Hf j) as [E3 E4]; [by right|].
  rewrite E3, E4, decide_False; [done|]. by intros ->.
Qed.

(** ** The table *)

Definition upd_span (m : MCentral) (i : Z) (s : Span) : MCentral := set_spans m (<[i := s]> (spans m)).

Lemma span_at_upd m i s j : span_at (upd_span m i s) j = if decide (j = i) then s else span_at m j.
Proof. unfold span_at, upd_span. cbn. case_decide; [subst; by rewrite lookup_insert_eq|by rewrite lookup_insert_ne]. Qed.

Lemma get_ok m i : 0 <= i < MAX_SPANS -> get_span m i = Ok (span_at m i).
Proof. intros. unfold get_span. by rewrite decide_True. Qed.

Lemma put_span_ok m i s : 0 <= i < MAX_SPANS -> put_span m i s = Ok (upd_span m i s).
Proof. intros. unfold put_span. by rewrite decide_True. Qed.

Lemma on_ok m i f : 0 <= i < MAX_SPANS -> on_span m i f = Ok (upd_span m i (f (span_at m i))).
Proof. intros. unfold on_span. rewrite get_ok by done. cbn. by apply put_span_ok. Qed.

(** The span without its links. *)
Definition bare (s : Span) : Span := MCentral.set_next (MCentral.set_prev s 0) 0.

(** Everything but the links and the heads of the lists. *)
Record same_but (m m' : MCentral) (touched : Z -> Prop) : Prop := {
  sb_bare : forall j, bare (span_at m' j) = bare (span_at m j);
  sb_others : forall j, ~ touched j -> span_at m' j = span_at m j;
  sb_bump : spans_bump m' = spans_bump m;
  sb_free : spans_free_head m' = spans_free_head m;
  sb_pages : page_to_span m' = page_to_span m;
  sb_tracked : tracked_pages m' = tracked_pages m;
  sb_base : mc_base m' = mc_base m
}.

Lemma bare_class s s' : bare s' = bare s -> sizeclass s' = sizeclass s.
Proof. intros H. exact (f_equal sizeclass H). Qed.

Lemma same_trans m1 m2 m3 (P : Z -> Prop) : same_but m1 m2 P -> same_but m2 m3 P -> same_but m1 m3 P.
Proof.
  intros [A1 A2 A3 A4 A5 A6 A7] [B1 B2 B3 B4 B5 B6 B7]. split; [intros j; by rewrite B1|intros j Hj; by rewrite B2, A2|congruence..].
Qed.

(** ** The lists *)

(** [L true c] are the spans of [partial[c]], [L false c] those of [full[c]]. *)
Definition heads (m : MCentral) (b : bool) : list Z := if b then partial m else full m.
Definition set_heads (m : MCentral) (b : bool) (l : list Z) : MCentral := if b then set_partial m l else set_full m l.

Record lists_ok (m : MCentral) (L : bool -> Z -> list Z) : Prop := {
  lo_lens : forall b, zlen (heads m b) = NUM_SIZE_CLASSES;
  lo_heads : forall b c, 0 <= c < NUM_SIZE_CLASSES -> idx (heads m b) c = Some (hd 0 (L b c));
  lo_links : forall b c, dseg (span_at m) 0 (L b c) 0;
  lo_nodup : forall b c, base.NoDup (L b c);
  lo_apart : forall c i, i ∈ L true c -> i ∈ L false c -> False;
  lo_class : forall b c i, i ∈ L b c -> 1 <= i < MAX_SPANS /\ sizeclass (span_at m i) = c /\ 0 <= c < NUM_SIZE_CLASSES
}.

Definition on_list (L : bool -> Z -> list Z) (i : Z) : Prop := exists b c, i ∈ L b c.

(** [L] with list [b], [c] replaced. *)
Definition with_list (L : bool -> Z -> list Z) (b : bool) (c : Z) (l : list Z) : bool -> Z -> list Z :=
  fun b' c' => if decide (b' = b /\ c' = c) then l else L b' c'.

Lemma with_list_at L b c l : with_list L b c l b c = l.
Proof. unfold with_list. by rewrite decide_True. Qed.

(** A span is on one list. *)
Lemma list_unique m L b c b' c' i : lists_ok m L -> i ∈ L b c -> i ∈ L b' c' -> b = b' /\ c = c'.
Proof.
  intros Hl H1 H2. destruct (lo_class _ _ Hl _ _ _ H1) as (_ & <- & _), (lo_class _ _ Hl _ _ _ H2) as (_ & <- & _). split; [|done].
  destruct b, b'; try done; exfalso; by eapply (lo_apart _ _ Hl).
Qed.

(** ** Removing *)

(** Where the links of the ends of a segment lead. *)
Lemma dseg_mid sp l1 i l2 : dseg sp 0 (l1 ++ i :: l2) 0 -> prev (sp i) = List.last l1 0 /\ next (sp i) = hd 0 l2 /\
  dseg sp 0 l1 i /\ dseg sp i l2 0.
Proof. intros (H1 & H2 & H3 & H4)%dseg_app. done. Qed.

(** The links after the removal of [i] from [l1 ++ i :: l2]. *)
Record removed (sp sp' : Z -> Span) (l1 : list Z) (i : Z) (l2 : list Z) : Prop := {
  rm_next : forall j, j <> i -> j <> 0 -> next (sp' j) = if decide (j = List.last l1 0) then hd 0 l2 else next (sp j);
  rm_prev : forall j, j <> i -> j <> 0 -> prev (sp' j) = if decide (j = hd 0 l2) then List.last l1 0 else prev (sp j)
}.

Lemma removed_seg sp sp' l1 i l2 : removed sp sp' l1 i l2 -> base.NoDup (l1 ++ i :: l2) -> 0 ∉ l1 ++ l2 ->
  dseg sp 0 (l1 ++ i :: l2) 0 -> dseg sp' 0 (l1 ++ l2) 0.
Proof.
  intros [Hn Hp] Hnd H0 (_ & _ & Hd1 & Hd2)%dseg_mid. apply list.NoDup_app in Hnd as (N1 & Hx & N2). apply list.NoDup_cons in N2 as [Hi N2].
  rewrite elem_of_app in H0. assert (i ∉ l1) as Hi1 by (intros H; apply (Hx i H); by left).
  apply dseg_app. split.
  - eapply (dseg_next sp); [done| |exact Hd1]. intros j Hj. assert (j <> i) by (by intros ->). assert (j <> 0) by (intros ->; tauto). rewrite Hn, Hp by done. split; [|done].
    rewrite decide_False; [done|]. intros ->. destruct l2 as [|y l2]; cbn in *; [tauto|]. apply (Hx y Hj). right. by left.
  - eapply (dseg_prev sp); [done| |exact Hd2]. intros j Hj. assert (j <> i) by (by intros ->). assert (j <> 0) by (intros ->; tauto). rewrite Hn, Hp by done. split; [|done].
    rewrite decide_False; [done|]. intros ->. destruct (decide (l1 = [])) as [->|Hne]; [cbn in Hj; tauto|].
    apply (Hx _ (last_in l1 0 Hne)). by right.
Qed.

Lemma elem_with L b c l b' c' j : j ∈ with_list L b c l b' c' -> (b' = b /\ c' = c /\ j ∈ l) \/ (~ (b' = b /\ c' = c) /\ j ∈ L b' c').
Proof. unfold with_list. case_decide; [left|right]; tauto. Qed.

(** The lists after one of them changed, the others' links and all classes kept. *)
Lemma lists_change m m' L b c l : lists_ok m L -> 0 <= c < NUM_SIZE_CLASSES ->
  (forall b, zlen (heads m' b) = NUM_SIZE_CLASSES) ->
  (forall b' c', 0 <= c' < NUM_SIZE_CLASSES -> idx (heads m' b') c' = if decide (b' = b /\ c' = c) then Some (hd 0 l) else idx (heads m b') c') ->
  dseg (span_at m') 0 l 0 -> base.NoDup l ->
  (forall b' c' j, ~ (b' = b /\ c' = c) -> j ∈ L b' c' -> next (span_at m' j) = next (span_at m j) /\ prev (span_at m' j) = prev (span_at m j)) ->
  (forall j, sizeclass (span_at m' j) = sizeclass (span_at m j)) ->
  (forall j, j ∈ l -> 1 <= j < MAX_SPANS /\ sizeclass (span_at m j) = c /\ j ∉ L (negb b) c) ->
  lists_ok m' (with_list L b c l).
Proof.
  intros Hl Hc Hz Hh Hd Hnd Hf Hcl Hm. split.
  - exact Hz.
  - intros b' c' Hc'. rewrite Hh by done. unfold with_list. case_decide; [done|]. by apply (lo_heads _ _ Hl).
  - intros b' c'. unfold with_list. case_decide as E; [done|]. eapply dseg_frame; [|apply (lo_links _ _ Hl)]. intros j Hj. by eapply Hf.
  - intros b' c'. unfold with_list. case_decide; [done|]. apply (lo_nodup _ _ Hl).
  - intros c' j H1 H2. apply elem_with in H1 as [(E1 & -> & H1)|[E1 H1]], H2 as [(E2 & E2' & H2)|[E2 H2]].
    + by subst.
    + destruct (Hm j H1) as (_ & _ & Hno). by subst.
    + destruct (Hm j H2) as (_ & _ & Hno). by subst.
    + by eapply (lo_apart _ _ Hl).
  - intros b' c' j [(-> & -> & Hj)|[_ Hj]]%elem_with; rewrite Hcl; [destruct (Hm j Hj) as (H1 & H2 & _); exact (conj H1 (conj H2 Hc))|by apply (lo_class _ _ Hl) in Hj].
Qed.

Lemma hd_in (l : list Z) : hd 0 l <> 0 -> hd 0 l ∈ l.
Proof. destruct l; [done|]. intros _. by left. Qed.

Lemma last_nz (l : list Z) : 0 ∉ l -> List.last l 0 <> 0 <-> l <> [].
Proof. intros H0. destruct l as [|x l]; [done|]. split; [done|]. intros _ E. apply H0. rewrite <- E. by apply last_in. Qed.

Lemma lists_range m L b c j : lists_ok m L -> j ∈ L b c -> 0 <= j < MAX_SPANS.
Proof. intros Hl Hj. apply (lo_class _ _ Hl) in Hj. lia. Qed.

(** The first half of [list_remove]: the link to [i] is redirected, a span's or a head. *)
Lemma remove_front m L b c l1 i l2 : lists_ok m L -> L b c = l1 ++ i :: l2 ->
  exists m1 h, (if decide (prev (span_at m i) <> NIL_SPAN) then on_span m (prev (span_at m i)) (fun p => MCentral.set_next p (next (span_at m i)))
       else
         ph ← head_of (partial m) c;
         if decide (ph = i) then l ← set_head (partial m) c (next (span_at m i)); Ok (set_partial m l)
         else
           fh ← head_of (full m) c;
           if decide (fh = i) then l ← set_head (full m) c (next (span_at m i)); Ok (set_full m l)
           else Ok m) = Ok m1 /\
    m1 = set_heads (set_spans m (if decide (l1 = []) then spans m else <[List.last l1 0 := MCentral.set_next (span_at m (List.last l1 0)) (hd 0 l2)]> (spans m))) b h /\
    zlen h = NUM_SIZE_CLASSES /\ (forall c', 0 <= c' < NUM_SIZE_CLASSES -> idx h c' = if decide (c' = c) then Some (hd 0 (l1 ++ l2)) else idx (heads m b) c').
Proof.
  intros Hl El. assert (i ∈ L b c) as Hi by (rewrite El; set_solver). pose proof (lo_links _ _ Hl b c) as Hd. rewrite El in Hd.
  apply dseg_mid in Hd as (Ep & En & _ & _). rewrite Ep, En. destruct (lo_class _ _ Hl _ _ _ Hi) as (Hir & _ & Hc).
  assert (0 ∉ l1) as H0 by (intros H; assert (0 ∈ L b c) as H' by (rewrite El; set_solver); apply (lo_class _ _ Hl) in H'; lia).
  pose proof (lo_lens _ _ Hl b) as Hlen. pose proof (lo_heads _ _ Hl b c Hc) as Hh. rewrite El in Hh.
  destruct (decide (l1 = [])) as [->|Hne].
  - cbn [List.last hd app] in *. rewrite decide_False by (by intros H; apply H).
    assert (forall h, idx (heads m b) c = Some i -> exists h', upd (heads m b) c h = Some h' /\ zlen h' = NUM_SIZE_CLASSES /\
      forall c', 0 <= c' < NUM_SIZE_CLASSES -> idx h' c' = if decide (c' = c) then Some h else idx (heads m b) c') as Hup.
    { intros h _. exists (<[Z.to_nat c := h]> (heads m b)). unfold upd. rewrite decide_True by (unfold zlen in *; lia). split_and!; [done|by rewrite zlen_insert|].
      intros c' Hc'. rewrite idx_insert by lia. repeat case_decide; (done || lia). }
    destruct (Hup (hd 0 l2) Hh) as (h' & Eu & Hz & Hx). destruct b; cbn [heads] in *.
    + unfold head_of. rewrite Hh. cbn [of_option mbind outcome_bind]. rewrite decide_True by done. unfold set_head. rewrite Eu. cbn [of_option mbind outcome_bind].
      exists (set_partial m h'), h'. split_and!; (done || by destruct m).
    + pose proof (lo_heads _ _ Hl true c Hc) as Hph. cbn [heads] in Hph. unfold head_of. rewrite Hph. cbn [of_option mbind outcome_bind].
      rewrite decide_False by (intros E; apply (lo_apart _ _ Hl c i); [rewrite <- E; apply hd_in; lia|done]).
      rewrite Hh. cbn [of_option mbind outcome_bind]. rewrite decide_True by done. unfold set_head. rewrite Eu. cbn [of_option mbind outcome_bind].
      exists (set_full m h'), h'. split_and!; (done || by destruct m).
  - rewrite decide_True by by apply last_nz. pose proof (last_in l1 0 Hne) as Hin.
    rewrite on_ok by (eapply (lists_range m L b c); [done|rewrite El; set_solver]). eexists _, (heads m b). split_and!; [done|by destruct m, b|done|].
    intros c' Hc'. case_decide; [subst c'|done]. rewrite Hh. by destruct l1.
Qed.

Lemma span_at_heads m b h j : span_at (set_heads m b h) j = span_at m j.
Proof. by destruct b. Qed.

Lemma heads_heads m b h b' : heads (set_heads m b h) b' = if decide (b' = b) then h else heads m b'.
Proof. by destruct b, b'. Qed.

Lemma heads_upd m i s b : heads (upd_span m i s) b = heads m b.
Proof. by destruct b. Qed.

Lemma list_remove_ok m L b c l1 i l2 : lists_ok m L -> L b c = l1 ++ i :: l2 ->
  exists m', list_remove m i = Ok m' /\ lists_ok m' (with_list L b c (l1 ++ l2)) /\ same_but m m' (on_list L).
Proof.
  intros Hl El. assert (forall j, j ∈ l1 ++ i :: l2 -> j ∈ L b c) as Hin by (intros j; by rewrite El).
  assert (i ∈ L b c) as Hi by (apply Hin; set_solver). pose proof (lo_links _ _ Hl b c) as Hd. rewrite El in Hd.
  destruct (dseg_mid _ _ _ _ Hd) as (Ep & En & _ & _). destruct (lo_class _ _ Hl _ _ _ Hi) as (Hir & Hcl & Hc).
  assert (0 ∉ l1 ++ i :: l2) as H0 by (intros H; apply Hin, (lo_class _ _ Hl) in H; lia).
  assert (forall j, j ∈ L b c -> 0 <= j < MAX_SPANS) as Hrg by (intros j; by eapply lists_range).
  destruct (remove_front m L b c l1 i l2 Hl El) as (m1 & h & E1 & Em1 & Hz & Hx). unfold list_remove. rewrite get_ok by lia.
  cbn [mbind outcome_bind]. rewrite Hcl, E1. cbn [mbind outcome_bind]. rewrite En, Ep.
  set (pl := List.last l1 0) in *. set (nh := hd 0 l2) in *.
  assert (exists m2, (if decide (nh <> NIL_SPAN) then on_span m1 nh (fun n => MCentral.set_prev n pl) else Ok m1) = Ok m2 /\
            m2 = if decide (nh = 0) then m1 else upd_span m1 nh (MCentral.set_prev (span_at m1 nh) pl)) as (m2 & E2 & Em2).
  { unfold NIL_SPAN. destruct (decide (nh = 0)) as [Ez|Ez]; [rewrite decide_False by tauto; by eexists|]. rewrite decide_True by done.
    rewrite on_ok; [by eexists|]. apply Hrg, Hin. pose proof (hd_in l2 Ez). set_solver. }
  rewrite E2. cbn [mbind outcome_bind]. rewrite on_ok by lia. cbn [mbind outcome_bind]. rewrite on_ok by lia. eexists. split; [done|].
  rewrite span_at_upd, decide_True by done. set (m' := upd_span _ i (MCentral.set_prev _ _)).
  assert (forall j, span_at m1 j = if decide (j = pl /\ l1 <> []) then MCentral.set_next (span_at m j) nh else span_at m j) as S1.
  { intros j. rewrite Em1, span_at_heads. destruct (decide (l1 = [])) as [El1|El1]; [rewrite decide_False by tauto; by destruct m|].
    change (span_at (upd_span m pl (MCentral.set_next (span_at m pl) nh)) j = if decide (j = pl /\ l1 <> []) then MCentral.set_next (span_at m j) nh else span_at m j).
    rewrite span_at_upd. repeat case_decide; subst; tauto. }
  assert (forall j, span_at m2 j = if decide (j = nh /\ nh <> 0) then MCentral.set_prev (span_at m1 j) pl else span_at m1 j) as S2.
  { intros j. rewrite Em2. destruct (decide (nh = 0)); [rewrite decide_False by tauto; done|]. rewrite span_at_upd. repeat case_decide; subst; tauto. }
  assert (forall j, j <> i -> span_at m' j = span_at m2 j) as S3 by (intros j Hj; unfold m'; by rewrite !span_at_upd, !decide_False by done).
  assert (span_at m' i = MCentral.set_prev (MCentral.set_next (span_at m2 i) NIL_SPAN) NIL_SPAN) as S3i by (unfold m'; by rewrite span_at_upd, decide_True by done).
  assert (0 ∉ l1) as H01 by set_solver. pose proof (last_nz l1 H01) as Hpl. fold pl in Hpl.
  assert (pl ∈ L b c \/ l1 = []) as Hplin by (destruct (decide (l1 = [])); [by right|left; apply Hin; pose proof (last_in l1 0 ltac:(done)); set_solver]).
  assert (nh ∈ L b c \/ nh = 0) as Hnhin by (destruct (decide (nh = 0)); [by right|left; apply Hin; pose proof (hd_in l2 ltac:(done)); set_solver]).
  assert (forall j, bare (span_at m' j) = bare (span_at m j)) as Hb.
  { intros j. destruct (decide (j = i)) as [->|Hji]; [rewrite S3i|rewrite S3 by done]; rewrite S2, S1; repeat case_decide; done. }
  assert (forall j, ~ j ∈ L b c -> span_at m' j = span_at m j) as Ho.
  { intros j Hj. rewrite S3 by (by intros ->). rewrite S2, decide_False by (intros [-> ?]; tauto). rewrite S1, decide_False; [done|]. intros [-> ?]. tauto. }
  assert (forall b', heads m' b' = if decide (b' = b) then h else heads m b') as Hhd.
  { intros b'. unfold m'. rewrite !heads_upd, Em2. assert (heads m1 b' = if decide (b' = b) then h else heads m b') as <- by (rewrite Em1, heads_heads; case_decide; [done|by destruct b']).
    case_decide; [done|by rewrite heads_upd]. }
  split.
  - eapply lists_change; try done.
    + intros b'. rewrite Hhd. destruct (decide (b' = b)); [exact Hz|apply Hl].
    + intros b' c' Hc'. rewrite Hhd. destruct (decide (b' = b)) as [->|]; [rewrite Hx by done|by rewrite decide_False by tauto].
      destruct (decide (c' = c)); [by rewrite decide_True|by rewrite decide_False by tauto].
    + eapply (removed_seg (span_at m)); [|rewrite <- El; apply Hl|set_solver|done].
      clear E1 E2 Em1 Em2. split; intros j Hji Hj0; rewrite S3 by done; rewrite S2, S1; fold pl nh; clearbody pl nh; clear - Hpl Hj0 H0; repeat case_decide; cbn; (done || (exfalso; naive_solver)).
    + pose proof (lo_nodup _ _ Hl b c) as Hnd. rewrite El, <- Permutation_middle in Hnd. apply list.NoDup_cons in Hnd as [_ Hnd]. done.
    + intros b' c' j Hne Hj. rewrite Ho; [done|]. intros Hj'. destruct (list_unique _ _ _ _ _ _ _ Hl Hj Hj') as [-> ->]. tauto.
    + intros j. by apply bare_class.
    + intros j Hj. assert (j ∈ L b c) as Hj' by (apply Hin; set_solver). destruct (lo_class _ _ Hl _ _ _ Hj') as (H1 & H2 & _). split_and!; [apply H1|apply H1|done|].
      intros Hj2. destruct (list_unique _ _ _ _ _ _ _ Hl Hj' Hj2) as [Eb _]. by destruct b.
  - split; [done|intros j Hj; apply Ho; intros Hj'; apply Hj; by exists b, c|..]; unfold m'; cbn; rewrite Em2; case_decide; rewrite Em1; by destruct b.
Qed.

(** ** Pushing *)

Definition push (b : bool) : MCentral -> Z -> outcome MCentral := if b then partial_push else full_push.

Lemma push_unfold b m i : push b m i =
  (s ← get_span m i; head ← head_of (heads m b) (sizeclass s); m ← link_front m i head;
   l ← set_head (heads m b) (sizeclass s) i; Ok (set_heads m b l)).
Proof. by destruct b. Qed.

Lemma push_ok b m L i : lists_ok m L -> 1 <= i < MAX_SPANS -> ~ on_list L i -> 0 <= sizeclass (span_at m i) < NUM_SIZE_CLASSES ->
  let c := sizeclass (span_at m i) in
  exists m', push b m i = Ok m' /\ lists_ok m' (with_list L b c (i :: L b c)) /\ same_but m m' (fun j => j = i \/ on_list L j).
Proof.
  intros Hl Hi Hno Hc c. fold c in Hc. rewrite push_unfold, get_ok by lia. cbn [mbind outcome_bind]. fold c. unfold head_of.
  rewrite (lo_heads _ _ Hl b c Hc). cbn [of_option mbind outcome_bind]. set (hh := hd 0 (L b c)).
  assert (hh = 0 \/ hh ∈ L b c) as Hhin by (destruct (decide (hh = 0)); [by left|right; by apply hd_in]).
  assert (hh <> i) as Hhi by (intros E; destruct Hhin as [E0|Hin]; [lia|]; apply Hno; exists b, c; by rewrite <- E).
  assert (exists m1, link_front m i hh = Ok m1 /\ (forall b', heads m1 b' = heads m b') /\
    same_but m m1 (fun j => j = i \/ on_list L j) /\
    span_at m1 i = MCentral.set_prev (MCentral.set_next (span_at m i) hh) 0 /\
    (forall j, j <> i -> span_at m1 j = if decide (j = hh /\ hh <> 0) then MCentral.set_prev (span_at m j) i else span_at m j)) as (m1 & E1 & Hh1 & Hs1 & Si & Sj).
  { unfold link_front. rewrite on_ok by lia. cbn [mbind outcome_bind]. rewrite on_ok by lia. cbn [mbind outcome_bind]. unfold NIL_SPAN.
    rewrite span_at_upd, (decide_True (P := i = i)) by done. set (m1 := upd_span _ i (MCentral.set_prev _ _)).
    assert (forall j, span_at m1 j = if decide (j = i) then MCentral.set_prev (MCentral.set_next (span_at m i) hh) 0 else span_at m j) as S1
      by (intros j; unfold m1; rewrite !span_at_upd; repeat case_decide; done).
    destruct (decide (hh = 0)) as [Ez|Ez].
    - rewrite decide_False by tauto. exists m1. split; [done|]. split; [by intros []|]. split; [|split; [by rewrite S1, decide_True|intros j Hj; by rewrite S1, !decide_False by tauto]].
      split; try done; intros j; rewrite S1; [by case_decide; subst|]. intros Hj. rewrite decide_False; [done|tauto].
    - rewrite decide_True by done. destruct Hhin as [|Hhin]; [done|]. rewrite on_ok by by eapply lists_range. eexists. split; [done|]. split; [by intros []|].
      assert (forall j, span_at (upd_span m1 hh (MCentral.set_prev (span_at m1 hh) i)) j = if decide (j = hh) then MCentral.set_prev (span_at m hh) i
         else if decide (j = i) then MCentral.set_prev (MCentral.set_next (span_at m i) hh) 0 else span_at m j) as S2
        by (intros j; rewrite span_at_upd, !S1, (decide_False (P := hh = i)) by done; done).
      split; [|split; [rewrite S2, decide_False, decide_True by done; done|]].
      + split; try done; intros j; rewrite S2; [repeat case_decide; subst; done|]. intros Hj. rewrite !decide_False; [done|tauto|]. intros ->. apply Hj. right. by exists b, c.
      + intros j Hj. rewrite S2. repeat case_decide; subst; tauto. }
  rewrite E1. cbn [mbind outcome_bind]. unfold set_head, upd. rewrite Hh1. pose proof (lo_lens _ _ Hl b) as Hz. unfold zlen in Hz.
  rewrite decide_True by lia. cbn [of_option mbind outcome_bind]. eexists. split; [done|]. set (h := <[Z.to_nat c := i]> (heads m b)).
  assert (same_but m (set_heads m1 b h) (fun j => j = i \/ on_list L j)) as Hs.
  { destruct Hs1 as [B1 B2 B3 B4 B5 B6 B7]. split; intros; rewrite ?span_at_heads; try (by auto); by destruct b. }
  split; [|exact Hs]. assert (0 ∉ L b c) as H0 by (intros H; apply (lo_class _ _ Hl) in H; lia).
  assert (forall b' c' j, j ∈ L b' c' -> j <> i) as Hji by (intros b' c' j Hj ->; apply Hno; by exists b', c').
  eapply lists_change; try done.
  - intros b'. rewrite heads_heads, Hh1. destruct (decide (b' = b)); [unfold h; rewrite zlen_insert; apply Hl|apply Hl].
  - intros b' c' Hc'. rewrite heads_heads, Hh1. destruct (decide (b' = b)) as [->|]; [|by rewrite decide_False by tauto].
    unfold h. rewrite idx_insert by (unfold zlen; lia). destruct (decide (c' = c)) as [->|]; [by rewrite !decide_True|]. by rewrite !decide_False by (tauto || congruence).
  - cbn [dseg hd]. rewrite !span_at_heads, Si. split_and!; [done|done|]. eapply (dseg_prev (span_at m)); [apply Hl| |apply Hl]. intros j Hj. rewrite span_at_heads, Sj by by eapply Hji.
    fold hh. destruct (decide (j = hh)) as [->|]; [rewrite decide_True by (split; [done|by intros E; rewrite E in Hj])|rewrite decide_False by tauto]; done.
  - apply list.NoDup_cons. split; [intros Hin; by apply (Hji b c i)|apply Hl].
  - intros b' c' j Hne Hj. rewrite span_at_heads, Sj by by eapply Hji. rewrite decide_False; [done|]. intros [-> Hz0]. destruct Hhin as [|Hin]; [done|].
    destruct (list_unique _ _ _ _ _ _ _ Hl Hj Hin) as [-> ->]. tauto.
  - intros j. apply bare_class. apply Hs.
  - intros j [->|Hj]%elem_of_cons.
    + split_and!; [lia|lia|done|]. intros Hin. by apply (Hji _ _ _ Hin).
    + destruct (lo_class _ _ Hl _ _ _ Hj) as (H1 & H2 & _). split_and!; [apply H1|apply H1|done|]. intros Hj2. destruct (list_unique _ _ _ _ _ _ _ Hl Hj Hj2) as [Eb _]. by destruct b.
Qed.

Lemma same_weaken m m' (P Q : Z -> Prop) : (forall j, P j -> Q j) -> same_but m m' P -> same_but m m' Q.
Proof. intros HPQ [? Ho ? ? ? ? ?]. split; try done. intros j Hj. apply Ho. auto. Qed.

Lemma same_refl m P : same_but m m P.
Proof. done. Qed.

Lemma on_removed m L b c l1 i l2 : lists_ok m L -> L b c = l1 ++ i :: l2 -> ~ on_list (with_list L b c (l1 ++ l2)) i.
Proof.
  intros Hl El (b' & c' & [(-> & -> & Hi)|[Hne Hi]]%elem_with).
  - pose proof (lo_nodup _ _ Hl b c) as Hnd. rewrite El, <- Permutation_middle in Hnd. by apply list.NoDup_cons in Hnd as [Hnd _].
  - apply Hne. eapply (list_unique m L); [done|exact Hi|]. rewrite El. set_solver.
Qed.

Lemma on_with L b c l j : on_list (with_list L b c l) j -> j ∈ l \/ on_list L j.
Proof. intros (b' & c' & [(-> & -> & Hj)|[_ Hj]]%elem_with); [by left|right; by exists b', c']. Qed.

Lemma on_with_back L b c l j : (j ∈ L b c -> j ∈ l) -> on_list L j -> on_list (with_list L b c l) j.
Proof. intros Hl (b' & c' & Hj). exists b', c'. unfold with_list. case_decide as E; [destruct E as [-> ->]; auto|done]. Qed.

(** A span taken from one place of the lists and pushed on list [b]. *)
Lemma relist_ok b m L b0 c l1 i l2 : lists_ok m L -> L b0 c = l1 ++ i :: l2 ->
  exists m1 m', list_remove m i = Ok m1 /\ push b m1 i = Ok m' /\ same_but m m' (on_list L) /\
    lists_ok m' (with_list (with_list L b0 c (l1 ++ l2)) b c (i :: with_list L b0 c (l1 ++ l2) b c)) /\
    (forall j, on_list (with_list (with_list L b0 c (l1 ++ l2)) b c (i :: with_list L b0 c (l1 ++ l2) b c)) j <-> on_list L j).
Proof.
  intros Hl El. assert (i ∈ L b0 c) as Hi by (rewrite El; set_solver). destruct (lo_class _ _ Hl _ _ _ Hi) as (Hir & Hcl & Hc).
  destruct (list_remove_ok m L b0 c l1 i l2 Hl El) as (m1 & E1 & Hl1 & Hs1). pose proof (bare_class _ _ (sb_bare _ _ _ Hs1 i)) as Hcl1. rewrite Hcl in Hcl1.
  destruct (push_ok b m1 _ i Hl1 Hir (on_removed _ _ _ _ _ _ _ Hl El) ltac:(by rewrite Hcl1)) as (m' & E2 & Hl2 & Hs2). rewrite Hcl1 in Hl2.
  exists m1, m'. split_and!; [done|done| |done|].
  - eapply same_trans; [exact Hs1|]. eapply same_weaken; [|exact Hs2]. intros j [->|Hj]; [by exists b0, c|]. apply on_with in Hj as [Hj|]; [|done].
    exists b0, c. rewrite El. set_solver.
  - intros j. split.
    + intros [Hj|Hj]%on_with; [|apply on_with in Hj as [Hj|]; [exists b0, c; rewrite El; set_solver|done]].
      apply elem_of_cons in Hj as [->|Hj]; [by exists b0, c|]. apply elem_with in Hj as [(-> & _ & Hj)|[_ Hj]]; [exists b0, c; rewrite El; set_solver|by exists b, c].
    + intros Hj. destruct (decide (j = i)) as [->|Hji]; [exists b, c; rewrite with_list_at; by left|].
      apply on_with_back; [by right|]. apply on_with_back; [|done]. rewrite El. set_solver.
Qed.

Lemma rescue_loop_ok fuel m L c first l1 l2 : lists_ok m L -> 0 <= c < NUM_SIZE_CLASSES -> L false c = l1 ++ l2 -> (first = 0 \/ first ∈ L true c) ->
  exists m' L' f, rescue_loop fuel m (hd 0 l2) first = Ok (m', f) /\ lists_ok m' L' /\ same_but m m' (on_list L) /\
    (forall j, on_list L' j <-> on_list L j) /\ (f = 0 \/ f ∈ L' true c).
Proof.
  revert m L first l1 l2. induction fuel as [|fuel IH]; intros m L first l1 l2 Hl Hc El Hf; cbn [rescue_loop]; [by exists m, L, first|].
  destruct l2 as [|i l2]; [by exists m, L, first|]. cbn [hd]. assert (i ∈ L false c) as Hi by (rewrite El; set_solver).
  destruct (lo_class _ _ Hl _ _ _ Hi) as (Hir & Hcl & _). unfold NIL_SPAN. rewrite decide_False by lia. rewrite get_ok by lia. cbn [mbind outcome_bind].
  assert (next (span_at m i) = hd 0 l2) as En by (pose proof (lo_links _ _ Hl false c) as Hd; rewrite El in Hd; by apply dseg_mid in Hd as (_ & -> & _)). rewrite En.
  destruct (Span.is_full (span_at m i)).
  - apply (IH m L first (l1 ++ [i]) l2); try done. by rewrite <- app_assoc.
  - destruct (relist_ok true m L false c l1 i l2 Hl El) as (m1 & m2 & E1 & E2 & Hs & Hl2 & Hon). rewrite E1. cbn [mbind outcome_bind].
    change (partial_push m1 i) with (push true m1 i). rewrite E2. cbn [mbind outcome_bind]. set (L2 := with_list (with_list _ _ _ _) _ _ _) in *.
    destruct (IH m2 L2 (if decide (first = 0) then i else first) l1 l2 Hl2 Hc) as (m' & L' & f & E & Hl' & Hs' & Hon' & Hf').
    + unfold L2, with_list at 1. rewrite decide_False by (by intros [? _]). apply with_list_at.
    + right. unfold L2. rewrite with_list_at. unfold with_list. rewrite (decide_False (P := true = false /\ c = c)) by (by intros [? _]).
      destruct (decide (first = 0)); [by left|]. destruct Hf; [done|by right].
    + exists m', L', f. split_and!; [done|done| |by intros j; rewrite Hon', Hon|done]. eapply same_trans; [exact Hs|]. eapply same_weaken; [|exact Hs']. intros j. by rewrite Hon.
Qed.

Lemma find_span_ok m L c : lists_ok m L -> 0 <= c < NUM_SIZE_CLASSES ->
  exists m' L' i, find_span m c = Ok (m', i) /\ lists_ok m' L' /\ same_but m m' (on_list L) /\ (forall j, on_list L' j <-> on_list L j) /\ (i = 0 \/ i ∈ L' true c).
Proof.
  intros Hl Hc. unfold find_span, head_of. pose proof (lo_heads _ _ Hl true c Hc) as Hh. cbn [heads] in Hh. rewrite Hh. cbn [of_option mbind outcome_bind].
  unfold NIL_SPAN. destruct (decide (hd 0 (L true c) = 0)) as [E|E].
  - unfold rescue_full, head_of. pose proof (lo_heads _ _ Hl false c Hc) as Hh2. cbn [heads] in Hh2. rewrite Hh2. cbn [of_option mbind outcome_bind].
    destruct (rescue_loop_ok 64 m L c NIL_SPAN [] (L false c) Hl Hc eq_refl ltac:(by left)) as (m' & L' & f & E' & H'). by exists m', L', f.
  - exists m, L, (hd 0 (L true c)). split_and!; try done. right. by apply hd_in.
Qed.
