(* ===== verification/MCentralSpec.v ===== *)
(** The central allocator on spans and pages: its invariant, and that no two live blocks meet. *)
From Stdlib Require Import ZArith Lia.
From stdpp Require Import base tactics numbers list list_numbers option fin_maps gmap.
From S2P Require Import Prelude Outcome Runs MheapConsts PallocBits PageAlloc PageAllocTree PageAllocSpec Heap SizeClasses Span SpanSpec MCentral MCentralLists.
Open Scope Z_scope.

(** ** Span operations leave the links alone *)

Definition links (s : Span) : Z * Z := (next s, prev s).

Lemma links_refill s wi s' k : refill_alloc_cache s wi = Some (s', k) -> links s' = links s.
Proof.
  unfold refill_alloc_cache. case_decide; [|done]. destruct (idx _ _); [|done]. cbn [mbind option_bind].
  destruct (if decide _ then _ else _); [|done]. cbn [mbind option_bind]. by intros [= <- <-].
Qed.

Lemma links_claim s k : links (claim_count s k) = links s.
Proof. unfold claim_count. by case_decide. Qed.

Lemma links_next_free_loop fuel : forall s f a s' w, next_free_loop fuel s f a = Some (s', w) -> links s' = links s.
Proof.
  induction fuel as [|fuel IH]; intros s f a s' w; cbn [next_free_loop]; case_decide; try done; try (by intros [= <- <-]).
  case_decide; [by intros [= <- <-]|]. destruct (refill_alloc_cache s _) as [[s1 k]|] eqn:E; [|done]. cbn [mbind option_bind]. intros E2%IH.
  by rewrite E2, links_claim, (links_refill _ _ _ _ E).
Qed.

Lemma links_next_free s s' r : next_free_owner s = Some (s', r) -> links s' = links s.
Proof.
  unfold next_free_owner. case_decide; [by intros [= <- <-]|]. destruct (next_free_loop _ _ _ _) as [[s1 w]|] eqn:E; [|done]. cbn [mbind option_bind].
  apply links_next_free_loop in E. destruct w as [[[f b] a]|]; [|by intros [= <- <-]]. case_decide; [by intros [= <- <-]|]. case_decide.
  - destruct (refill_alloc_cache _ _) as [[s2 k]|] eqn:E2; [|done]. cbn [mbind option_bind]. intros [= <- <-]. apply links_refill in E2.
    change (links (claim_count s2 k) = links s). by rewrite links_claim, E2.
  - by intros [= <- <-].
Qed.

Lemma links_alloc_loop fuel : forall s f wi s' r, alloc_slot_loop fuel s f wi = Some (s', r) -> links s' = links s.
Proof.
  induction fuel as [|fuel IH]; intros s f wi s' r; cbn [alloc_slot_loop]; [by intros [= <- <-]|]. destruct (idx _ _); [|done]. cbn [mbind option_bind].
  destruct (decide (Z.land _ _ = 0)); [by apply IH|]. destruct (decide (_ >= nelems s)); [by intros [= <- <-]|]. destruct (upd _ _ _); [|done]. cbn [mbind option_bind]. by intros [= <- <-].
Qed.

Lemma links_alloc_slot s s' r : alloc_slot_locked s = Some (s', r) -> links s' = links s.
Proof. unfold alloc_slot_locked. case_decide; [by intros [= <- <-]|]. apply links_alloc_loop. Qed.

Lemma links_free_locked s i s' : free_slot_locked s i = Some s' -> links s' = links s.
Proof.
  unfold free_slot_locked. case_decide; [by intros [= <-]|]. destruct (idx _ _); [|done]. cbn [mbind option_bind]. destruct (upd _ _ _); [|done].
  cbn [mbind option_bind]. repeat case_decide; by intros [= <-].
Qed.

Lemma links_free_atomic s i s' : free_slot_atomic s i = Some s' -> links s' = links s.
Proof.
  unfold free_slot_atomic. case_decide; [by intros [= <-]|]. destruct (idx _ _); [|done]. cbn [mbind option_bind]. destruct (upd _ _ _); [|done].
  cbn [mbind option_bind]. case_decide; by intros [= <-].
Qed.

Lemma links_cache s s' : cache_span s = Some s' -> links s' = links s.
Proof.
  unfold cache_span. destruct (refill_alloc_cache _ _) as [[s1 k]|] eqn:E; [|done]. cbn [mbind option_bind]. intros [= <-]. apply links_refill in E.
  change (links (claim_count s1 k) = links s). by rewrite links_claim, E.
Qed.

Lemma links_uncache s s' : uncache_span s = Some s' -> links s' = links s.
Proof.
  unfold uncache_span, release_unsold. case_decide; [by intros [= <-]|]. destruct (if decide _ then _ else _) as [s1|] eqn:E; [|done]. cbn [mbind option_bind]. intros [= <-].
  change (links s1 = links s). revert E. case_decide; [|by intros [= <-]]. case_decide; [|by intros [= <-]]. destruct (idx _ _); [|done]. cbn [mbind option_bind].
  destruct (upd _ _ _); [|done]. cbn [mbind option_bind]. by intros [= <-].
Qed.

(** ** Owners of memory *)

(** A live block is a slot of a span, or a run of pages taken from the page heap directly. *)
Inductive owner := Small (i slot : Z) | Big (P n : Z).

#[export] Instance owner_eq_dec : EqDecision owner.
Proof. solve_decision. Defined.

Definition slots (os : list owner) (i : Z) : Z -> bool := fun s => bool_decide (Small i s ∈ os).

(** The first page of a span. *)
Definition pg (p : PageAlloc) (s : Span) : Z := (base s - arena_base p) / 8192.

Definition active (m : MCentral) (F : list Z) (i : Z) : Prop := 1 <= i <= spans_bump m /\ i ∉ F.

Record span_ok (p : PageAlloc) (s : Span) (live : Z -> bool) : Prop := {
  so_inv : span_inv s live;
  so_base : base s = arena_base p + pg p s * 8192;
  so_pages : 0 <= pg p s /\ pg p s + npages s <= end_chunk p * 512;
  so_npages : 1 <= npages s <= 10;
  so_elem : 8 <= elemsize s;
  so_room : nelems s * elemsize s <= npages s * 8192;
  so_class : 1 <= sizeclass s < NUM_SIZE_CLASSES;
  so_size : idx SIZE_OF_CLASS (sizeclass s) = Some (elemsize s)
}.

(** Page [k] belongs to a span or to a run taken directly. *)
Definition owned (m : MCentral) (os : list owner) (k : Z) : Prop :=
  (exists i, i <> 0 /\ page_to_span m !! k = Some i) \/ (exists P n, Big P n ∈ os /\ P <= k < P + n).

(** Pages and spans; [F] is the free list of the span table.  The last clause says that no page
    is lost: what is not free has an owner. *)
Record gcore (m : MCentral) (h : Mheap) (p : PageAlloc) (F : list Z) (os : list owner) : Prop := {
  gc_heap : heap_inv h p;
  gc_base : mc_base m = arena_base p;
  gc_track : tracked_pages m = chunks_capacity p * 512;
  gc_bump : 0 <= spans_bump m < MAX_SPANS;
  gc_fhead : spans_free_head m = hd 0 F;
  gc_fnext : forall l1 i l2, F = l1 ++ i :: l2 -> next (span_at m i) = hd 0 l2;
  gc_fnodup : base.NoDup F;
  gc_fin : forall i, i ∈ F -> 1 <= i <= spans_bump m /\ wf_words (alloc_bits (span_at m i)) /\ cached (span_at m i) = false;
  gc_unused : forall i, spans_bump m < i -> span_at m i = span_new;
  gc_span : forall i, active m F i -> span_ok p (span_at m i) (slots os i);
  gc_nodup : base.NoDup os;
  gc_owner : forall i s, Small i s ∈ os -> active m F i;
  gc_pages : forall k i, i <> 0 -> page_to_span m !! k = Some i <-> active m F i /\ pg p (span_at m i) <= k < pg p (span_at m i) + npages (span_at m i);
  gc_used : forall k i, i <> 0 -> page_to_span m !! k = Some i -> gfree p k = false;
  gc_big : forall P n, Big P n ∈ os -> 0 <= P /\ 1 <= n /\ P + n <= end_chunk p * 512 /\
    forall k, P <= k < P + n -> gfree p k = false /\ (forall i, i <> 0 -> page_to_span m !! k <> Some i);
  gc_bigs : forall P n P' n', Big P n ∈ os -> Big P' n' ∈ os -> Big P n <> Big P' n' -> P + n <= P' \/ P' + n' <= P;
  gc_noleak : forall k, 0 <= k < end_chunk p * 512 -> gfree p k = false -> owned m os k
}.

(** The lists hold the active spans that no P has cached. *)
Record glists (m : MCentral) (L : bool -> Z -> list Z) (F : list Z) : Prop := {
  gl_ok : lists_ok m L;
  gl_active : forall i, on_list L i -> active m F i;
  gl_cached : forall i, active m F i -> cached (span_at m i) = false <-> on_list L i
}.

(** ** What the invariant depends on *)

Lemma span_inv_fields s s' L : alloc_bits s' = alloc_bits s -> alloc_cache s' = alloc_cache s -> nelems s' = nelems s -> freeindex s' = freeindex s ->
  alloc_count s' = alloc_count s -> cached s' = cached s -> span_inv s L -> span_inv s' L.
Proof.
  intros E1 E2 E3 E4 E5 E6 [? ? ? ? ? ? Hb Ha ? ? ? ?]. split; unfold unsold in *; rewrite ?E1, ?E2, ?E3, ?E4, ?E5, ?E6; done.
Qed.

Lemma bare_eq {A} (f : Span -> A) s s' : bare s' = bare s -> (forall s, f (bare s) = f s) -> f s' = f s.
Proof. intros E Hf. by rewrite <- (Hf s'), E, Hf. Qed.

Lemma span_ok_bare p s s' live : bare s' = bare s -> span_ok p s live -> span_ok p s' live.
Proof.
  intros E [Hi Hb Hp Hn He Hr Hc Hs]. pose proof (fun A (f : Span -> A) => bare_eq f s s' E) as Hf.
  assert (pg p s' = pg p s) as Epg by (unfold pg; by rewrite (Hf _ base)).
  split; rewrite ?Epg, ?(Hf _ base), ?(Hf _ npages), ?(Hf _ elemsize), ?(Hf _ nelems), ?(Hf _ sizeclass) by done; try done.
  eapply span_inv_fields; [..|exact Hi]; by apply Hf.
Qed.

Lemma span_ok_shape p s s' live live' : shape s' = shape s -> span_inv s' live' -> span_ok p s live -> span_ok p s' live'.
Proof.
  intros E Hi' [Hi Hb Hp Hn He Hr Hc Hs]. unfold shape in E. injection E as E1 E2 E3 E4 E5.
  assert (pg p s' = pg p s) as Epg by (unfold pg; by rewrite E1). split; rewrite ?Epg, ?E1, ?E2, ?E3, ?E4, ?E5; done.
Qed.

Lemma gcore_same m m' h p F os (T : Z -> Prop) : gcore m h p F os -> same_but m m' T -> (forall j, T j -> active m F j) -> gcore m' h p F os.
Proof.
  intros [] [Sb So S1 S2 S3 S4 S5] HT. assert (forall i, active m' F i <-> active m F i) as Ha by (intros i; unfold active; by rewrite S1).
  assert (forall i, i ∈ F -> span_at m' i = span_at m i) as HF by (intros i Hi; apply So; intros Ht; apply HT in Ht as [_ Ht]; done).
  assert (forall i, base (span_at m' i) = base (span_at m i) /\ npages (span_at m' i) = npages (span_at m i)) as Hbn
    by (intros i; split; by apply (bare_eq _ (span_at m i))).
  assert (forall i, pg p (span_at m' i) = pg p (span_at m i)) as Hpg by (intros i; unfold pg; by destruct (Hbn i) as [-> _]).
  split; unfold owned; rewrite ?S1, ?S2, ?S3, ?S4, ?S5; try done.
  - intros l1 i l2 E. rewrite HF by (rewrite E; set_solver). by apply (gc_fnext0 l1).
  - intros i Hi. rewrite HF by done. by apply gc_fin0.
  - intros i Hi. rewrite So; [by apply gc_unused0|]. intros Ht. apply HT in Ht as [Ht _]. lia.
  - intros i Hi%Ha. eapply span_ok_bare; [apply Sb|by apply gc_span0].
  - intros i s Hs. apply Ha. by eapply gc_owner0.
  - intros k i Hi. rewrite Ha, Hpg. destruct (Hbn i) as [_ ->]. by apply gc_pages0.
Qed.

(** Owners that differ in the slots of one span. *)
Record owners_at (os os' : list owner) (i : Z) : Prop := {
  oa_nodup : base.NoDup os';
  oa_other : forall j s, j <> i -> Small j s ∈ os' <-> Small j s ∈ os;
  oa_big : forall P n, Big P n ∈ os' <-> Big P n ∈ os
}.

Lemma gcore_put m h p F os os' i s' : gcore m h p F os -> active m F i -> shape s' = shape (span_at m i) -> owners_at os os' i ->
  span_inv s' (slots os' i) -> gcore (upd_span m i s') h p F os'.
Proof.
  intros [] Hi Hsh [On Oo Ob] Hinv. assert (forall j, active (upd_span m i s') F j <-> active m F j) as Ha by done.
  assert (forall j, j ∈ F -> span_at (upd_span m i s') j = span_at m j) as HF by (intros j Hj; rewrite span_at_upd, decide_False; [done|]; intros ->; by destruct Hi).
  assert (forall j, base (span_at (upd_span m i s') j) = base (span_at m j) /\ npages (span_at (upd_span m i s') j) = npages (span_at m j)) as Hbn.
  { intros j. rewrite span_at_upd. case_decide; [subst|done]. unfold shape in Hsh. split; congruence. }
  assert (forall j, pg p (span_at (upd_span m i s') j) = pg p (span_at m j)) as Hpg by (intros j; unfold pg; by destruct (Hbn j) as [-> _]).
  split; try done.
  - intros l1 j l2 E. rewrite HF by (rewrite E; set_solver). by apply (gc_fnext0 l1).
  - intros j Hj. rewrite HF by done. by apply gc_fin0.
  - intros j Hj. rewrite span_at_upd, decide_False; [by apply gc_unused0|]. intros ->. cbn in Hj. destruct Hi. lia.
  - intros j Hj. rewrite span_at_upd. destruct (decide (j = i)) as [->|Hji]; [eapply span_ok_shape; [done|done|by apply gc_span0]|].
    eapply span_ok_shape; [done| |by apply gc_span0]. eapply span_inv_ext; [apply (gc_span0 j Hj)|]. intros s. unfold slots. apply bool_decide_ext. by rewrite Oo.
  - intros j s Hs. destruct (decide (j = i)) as [->|]; [done|]. apply (gc_owner0 j s). by apply Oo.
  - intros k j Hj. rewrite Hpg. destruct (Hbn j) as [_ ->]. by apply gc_pages0.
  - intros P n H%Ob. by apply gc_big0.
  - intros P n P' n' H1%Ob H2%Ob. by apply gc_bigs0.
  - intros k Hk Hf. destruct (gc_noleak0 k Hk Hf) as [?|(P & n & H%Ob & ?)]; [by left|right]. by exists P, n.
Qed.

Lemma glists_put m L F i s' : glists m L F -> active m F i -> shape s' = shape (span_at m i) -> links s' = links (span_at m i) ->
  cached s' = cached (span_at m i) -> glists (upd_span m i s') L F.
Proof.
  intros [[H1 H2 H3 H4 H5 H6] Ha Hc] Hi Hsh Hlk Hcd. unfold links in Hlk. injection Hlk as En Ep. unfold shape in Hsh. injection Hsh as _ _ _ _ Es.
  split; [split; try done| |].
  - intros b c. eapply dseg_frame; [|apply H3]. intros j Hj. rewrite span_at_upd. case_decide; by subst.
  - intros b c j Hj. destruct (H6 _ _ _ Hj) as (? & ? & ?). rewrite span_at_upd. case_decide; subst; split_and!; (done || lia || congruence).
  - done.
  - intros j Hj. rewrite span_at_upd. case_decide; [subst; rewrite Hcd|]; by apply Hc.
Qed.

Lemma glists_same m m' L L' F (T : Z -> Prop) : glists m L F -> same_but m m' T -> lists_ok m' L' -> (forall j, on_list L' j <-> on_list L j) -> glists m' L' F.
Proof.
  intros [_ Ha Hc] [Sb _ S1 _ _ _ _] Hl Hon. assert (forall i, active m' F i <-> active m F i) as Hact by (intros i; unfold active; by rewrite S1).
  split; [done|intros i Hi; apply Hact, Ha, Hon, Hi|]. intros i Hi. rewrite Hon. rewrite <- Hc by by apply Hact. by rewrite (bare_eq cached _ _ (Sb i)).
Qed.

(** ** Slots *)

Lemma owners_sell os i slot : base.NoDup os -> Small i slot ∉ os -> owners_at os (Small i slot :: os) i.
Proof. intros Hn Hs. split; [by apply list.NoDup_cons|intros j s Hj; rewrite elem_of_cons; naive_solver|intros P n; rewrite elem_of_cons; naive_solver]. Qed.

Lemma slots_sell os i slot s : with_slot (slots os i) slot s = slots (Small i slot :: os) i s.
Proof. unfold with_slot, slots. rewrite <- bool_decide_or. apply bool_decide_ext. rewrite elem_of_cons. naive_solver. Qed.

Lemma slots_elem os i s : slots os i s = true <-> Small i s ∈ os.
Proof. unfold slots. by rewrite bool_decide_eq_true. Qed.

Lemma slots_not os i s : slots os i s = false <-> Small i s ∉ os.
Proof. unfold slots. by rewrite bool_decide_eq_false. Qed.

(** The addresses of slots depend on the shape alone. *)
Lemma slot_addr_shape s s' slot : shape s' = shape s -> slot_addr s' slot = slot_addr s slot.
Proof. unfold shape, slot_addr. intros E. injection E as E1 _ E2 _ _. by rewrite E1, E2. Qed.

Lemma bare_shape s s' : bare s' = bare s -> shape s' = shape s.
Proof. intros E. by apply (bare_eq shape). Qed.

Lemma on_list_split L i : on_list L i -> exists b c l1 l2, L b c = l1 ++ i :: l2.
Proof. intros (b & c & Hi). apply list_elem_of_split in Hi as (l1 & l2 & E). by exists b, c, l1, l2. Qed.

(** Moving a span between lists changes nothing else. *)
Lemma relist_inv b m h p L F os i : gcore m h p F os -> glists m L F -> on_list L i ->
  exists m' L', (m ← list_remove m i; push b m i) = Ok m' /\ gcore m' h p F os /\ glists m' L' F /\ (forall j, bare (span_at m' j) = bare (span_at m j)) /\
    spans_bump m' = spans_bump m.
Proof.
  intros Hg Hl (b0 & c & l1 & l2 & El)%on_list_split. destruct (relist_ok b m L b0 c l1 i l2 (gl_ok _ _ _ Hl) El) as (m1 & m' & E1 & E2 & Hs & Hl' & Hon).
  exists m'. eexists. rewrite E1. cbn [mbind outcome_bind]. split_and!; [exact E2| |by eapply glists_same|apply Hs|apply Hs].
  eapply gcore_same; [done|exact Hs|]. apply Hl.
Qed.

Lemma active_range m h p F os i : gcore m h p F os -> active m F i -> 0 <= i < MAX_SPANS /\ i <> 0.
Proof. intros Hg [Hi _]. pose proof (gc_bump _ _ _ _ _ Hg). lia. Qed.

Lemma alloc_from_ok m h p L F os i : gcore m h p F os -> glists m L F -> on_list L i ->
  exists m' L' a, alloc_from (mkCentral m h) i = Ok (mkCentral m' h, a) /\ glists m' L' F /\
    (forall j, shape (span_at m' j) = shape (span_at m j) /\ cached (span_at m' j) = cached (span_at m j)) /\ spans_bump m' = spans_bump m /\
    ((a = 0 /\ gcore m' h p F os /\ forall k, freeindex (span_at m i) <= k < nelems (span_at m i) -> Small i k ∈ os) \/
     exists slot, a = slot_addr (span_at m i) slot /\ 0 <= slot < nelems (span_at m i) /\ Small i slot ∉ os /\ gcore m' h p F (Small i slot :: os)).
Proof.
  intros Hg Hl Hon. pose proof (gl_active _ _ _ Hl i Hon) as Hi. destruct (active_range _ _ _ _ _ _ Hg Hi) as [Hr _]. pose proof (so_inv _ _ _ (gc_span _ _ _ _ _ Hg i Hi)) as Hs.
  assert (cached (span_at m i) = false) as Hc by by apply (gl_cached _ _ _ Hl). unfold alloc_from. cbn [mc heap]. rewrite get_ok by done. cbn [mbind outcome_bind].
  destruct (alloc_slot_locked_ok _ _ Hs Hc) as (s' & r & E & Hsh & Hc' & Hlow & Hinv). rewrite E. cbn [of_option mbind outcome_bind]. rewrite put_span_ok by done. cbn [mbind outcome_bind].
  pose proof (links_alloc_slot _ _ _ E) as Hlk. assert (glists (upd_span m i s') L F) as Hl1 by (apply glists_put; (done || congruence)).
  assert (forall j, shape (span_at (upd_span m i s') j) = shape (span_at m j) /\ cached (span_at (upd_span m i s') j) = cached (span_at m j)) as Hsh1
    by (intros j; rewrite span_at_upd; case_decide; subst; split; congruence).
  destruct r as [slot|].
  - destruct Hlow as (Hsl & HL & _). apply slots_not in HL. pose proof (sp_index _ _ Hs) as Hf.
    assert (gcore (upd_span m i s') h p F (Small i slot :: os)) as Hg1.
    { eapply gcore_put; [done|done|done|by apply owners_sell; [apply Hg|]|]. eapply span_inv_ext; [exact Hinv|]. intros x. apply slots_sell. }
    rewrite (slot_addr_shape _ _ _ Hsh). destruct (Span.is_full s').
    + destruct (relist_inv false _ _ _ _ _ _ i Hg1 Hl1 Hon) as (m' & L' & E' & Hg' & Hl' & Hb & Hbp). change (push false) with full_push in E'. rewrite E'. cbn [mbind outcome_bind].
      exists m', L', (slot_addr (span_at m i) slot). split_and!; [done|done|intros j; by rewrite (bare_shape _ _ (Hb j)), (bare_eq cached _ _ (Hb j))|done|]. right. exists slot. split_and!; (done || lia).
    + exists (upd_span m i s'), L, (slot_addr (span_at m i) slot). split_and!; [done|done|done|done|]. right. exists slot. split_and!; (done || lia).
  - assert (gcore (upd_span m i s') h p F os) as Hg1.
    { eapply gcore_put; [done|done|done| |done]. split; [apply Hg|done|done]. }
    destruct (relist_inv false _ _ _ _ _ _ i Hg1 Hl1 Hon) as (m' & L' & E' & Hg' & Hl' & Hb & Hbp). change (push false) with full_push in E'.
    destruct (list_remove (upd_span m i s') i) as [m1| |]; [|done|done]. cbn [mbind outcome_bind] in *. rewrite E'. cbn [mbind outcome_bind].
    exists m', L', 0. split_and!; [done|done|intros j; by rewrite (bare_shape _ _ (Hb j)), (bare_eq cached _ _ (Hb j))|done|left]. split_and!; [done|done|].
    intros k Hk. by apply slots_elem, Hlow.
Qed.

(** ** Fresh spans *)

Lemma in_range_spec P n k : in_range P n k = true <-> P <= k < P + n.
Proof. unfold in_range. by rewrite bool_decide_eq_true. Qed.

(** Pages with an owner lie in the active chunks. *)
Lemma mapped_range m h p F os k i : gcore m h p F os -> i <> 0 -> page_to_span m !! k = Some i -> 0 <= k < end_chunk p * 512.
Proof. intros Hg Hi [Ha Hk]%(gc_pages _ _ _ _ _ Hg); [|done]. pose proof (so_pages _ _ _ (gc_span _ _ _ _ _ Hg i Ha)). lia. Qed.

(** Owners that differ in runs of pages. *)
Lemma span_ok_owners p s live live' : (forall x, live x = live' x) -> span_ok p s live -> span_ok p s live'.
Proof. intros E So. destruct So as [Hi ? ? ? ? ? ? ?]. split; try done. by eapply span_inv_ext. Qed.

Lemma slots_big os P n i x : slots os i x = slots (Big P n :: os) i x.
Proof. unfold slots. apply bool_decide_ext. rewrite elem_of_cons. naive_solver. Qed.

(** The pages just taken were nobody's, and are one run now; the rest is as before. *)
Lemma gcore_took m h h' p p' F os n g P : gcore m h p F os -> heap_inv h' p' -> took p p' n g P -> 0 <= g -> 1 <= n ->
  gcore m h' p' F (Big P n :: os) /\ Big P n ∉ os.
Proof.
  intros Hg Hh [Tb Te Tr Tf Ta Tc] Hg0 Hn.
  assert (forall k, gfree p k = false -> k < end_chunk p * 512 -> gfree p' k = false /\ ~ (P <= k < P + n)) as Hk.
  { intros k Hf Hlt. assert (~ (P <= k < P + n)) as Hno by (intros H; destruct (Tf k H); [congruence|lia]). split; [|done]. rewrite Ta, Hf.
    assert (in_range (end_chunk p * 512) (g * 512) k = false) as -> by (apply not_true_is_false; rewrite in_range_spec; lia). done. }
  assert (forall s, pg p' s = pg p s) as Hpg by (intros s; unfold pg; by rewrite Tb).
  assert (forall P' n', Big P' n' ∈ os -> 1 <= n' /\ (P' + n' <= P \/ P + n <= P')) as Hap.
  { intros P' n' H. destruct (gc_big _ _ _ _ _ Hg P' n' H) as (H1 & H2 & H3 & H4). split; [done|]. destruct (decide (P' + n' <= P)); [by left|]. right.
    destruct (decide (P + n <= P')); [done|]. exfalso. destruct (H4 (Z.max P P') ltac:(lia)) as [Hf _]. destruct (Hk (Z.max P P') Hf); lia. }
  assert (Big P n ∉ os) as Hno by (intros Ho; destruct (Hap _ _ Ho); lia). split; [|done].
  destruct Hg. split; try done; try congruence.
  - intros i Hi. apply (span_ok_owners p' _ (slots os i)); [intros x; apply slots_big|]. destruct (gc_span0 i Hi). split; rewrite ?Hpg, ?Tb; try done. lia.
  - by apply list.NoDup_cons.
  - intros i s [?|Hs]%elem_of_cons; [done|]. by eapply gc_owner0.
  - intros k i Hi. rewrite Hpg. by apply gc_pages0.
  - intros k i Hi Hp. apply Hk; [by apply (gc_used0 k i)|]. destruct (proj1 (gc_pages0 k i Hi) Hp) as [Ha Hr]. pose proof (so_pages _ _ _ (gc_span0 i Ha)). lia.
  - intros P' n' [E|H]%elem_of_cons.
    + injection E as -> ->. split_and!; try lia. intros k Hr. split; [rewrite Ta, (proj2 (in_range_spec P n k) Hr); apply andb_false_r|].
      intros i Hi Hp. destruct (proj1 (gc_pages0 k i Hi) Hp) as [Ha Hr']. pose proof (so_pages _ _ _ (gc_span0 i Ha)).
      destruct (Hk k) as [_ Hn']; [by apply (gc_used0 k i)|lia|done].
    + destruct (gc_big0 P' n' H) as (H1 & H2 & H3 & H4). split_and!; try lia. intros k Hr. destruct (H4 k Hr). split; [apply Hk; [done|lia]|done].
  - intros P1 n1 P2 n2 [E1|H1]%elem_of_cons [E2|H2]%elem_of_cons Hne; [by rewrite E1, E2 in Hne| | |by apply gc_bigs0].
    + injection E1 as -> ->. destruct (Hap _ _ H2). lia.
    + injection E2 as -> ->. destruct (Hap _ _ H1). lia.
  - intros k Hr. rewrite Ta. destruct (in_range P n k) eqn:Er.
    + intros _. apply in_range_spec in Er. right. exists P, n. split; [by left|done].
    + rewrite andb_true_r. intros [Hf Hnew]%orb_false_iff. destruct (decide (k < end_chunk p * 512)) as [Hlt|Hge].
      * destruct (gc_noleak0 k ltac:(lia) Hf) as [?|(P' & n' & ? & ?)]; [by left|right]. exists P', n'. split; [by right|done].
      * assert (in_range (end_chunk p * 512) (g * 512) k = true) by (apply in_range_spec; lia). congruence.
Qed.

Lemma map_pages_ok strict n m p0 i : 0 <= p0 -> p0 + Z.of_nat n <= tracked_pages m ->
  exists pm, map_pages strict n m p0 i = Ok (set_pages m pm) /\ forall k, pm !! k = if decide (p0 <= k < p0 + Z.of_nat n) then Some i else page_to_span m !! k.
Proof.
  revert m p0. induction n as [|n IH]; intros m p0 H0 Hn; cbn [map_pages].
  - exists (page_to_span m). split; [by destruct m|]. intros k. by rewrite decide_False by lia.
  - rewrite decide_True by lia. destruct (IH (set_pages m (<[p0 := i]> (page_to_span m))) (p0 + 1) ltac:(lia) ltac:(cbn; lia)) as (pm & E & Hpm).
    exists pm. split; [exact E|]. intros k. rewrite Hpm. cbn [page_to_span set_pages]. destruct (decide (k = p0)) as [->|].
    + rewrite decide_False by lia. rewrite lookup_insert_eq, decide_True by lia. done.
    + rewrite lookup_insert_ne by done. destruct (decide (p0 + 1 <= k < p0 + 1 + Z.of_nat n)); [by rewrite decide_True by lia|by rewrite decide_False by lia].
Qed.

Lemma lists_frame m m' L : lists_ok m L -> (forall b, heads m' b = heads m b) -> (forall j, on_list L j -> span_at m' j = span_at m j) -> lists_ok m' L.
Proof.
  intros [H1 H2 H3 H4 H5 H6] Hh Hs. split; try done.
  - intros b. by rewrite Hh.
  - intros b c Hc. rewrite Hh. by apply H2.
  - intros b c. eapply dseg_frame; [|apply H3]. intros j Hj. by rewrite Hs by by exists b, c.
  - intros b c j Hj. rewrite Hs by by exists b, c. by eapply H6.
Qed.

(** An entry of the table comes off the free list, or is a new one. *)
Lemma alloc_span_idx_ok m h p F os : gcore m h p F os -> spans_bump m + 1 < MAX_SPANS ->
  exists m' i F', alloc_span_idx m = Ok (m', i) /\ (F = i :: F' /\ spans_bump m' = spans_bump m \/ F = [] /\ F' = [] /\ i = spans_bump m + 1 /\ spans_bump m' = i) /\
    spans_free_head m' = hd 0 F' /\ wf_words (alloc_bits (span_at m' i)) /\ cached (span_at m' i) = false /\ (forall j, j <> i -> span_at m' j = span_at m j) /\
    (forall b, heads m' b = heads m b) /\ page_to_span m' = page_to_span m /\ tracked_pages m' = tracked_pages m /\ mc_base m' = mc_base m.
Proof.
  intros Hg Hb. pose proof (gc_bump _ _ _ _ _ Hg) as Hbp. unfold alloc_span_idx, NIL_SPAN. rewrite (gc_fhead _ _ _ _ _ Hg). destruct F as [|i F'].
  - rewrite decide_False by (by intros H; apply H). assert (MAX_SPANS = 65535) as HM by done. rewrite wrap16_small by lia. rewrite decide_False by lia.
    eexists _, (spans_bump m + 1), []. split; [done|]. split; [by right|]. cbn. pose proof (gc_unused _ _ _ _ _ Hg (spans_bump m + 1) ltac:(lia)) as Eu.
    assert (span_at (set_bump m (spans_bump m + 1)) (spans_bump m + 1) = span_new) as E by exact Eu. rewrite (gc_fhead _ _ _ _ _ Hg).
    rewrite E. split_and!; try done. apply span_new_words.
  - destruct (gc_fin _ _ _ _ _ Hg i ltac:(by left)) as (Hi & Hw & Hc). cbn [hd]. rewrite decide_True by lia. rewrite get_ok by lia. cbn [mbind outcome_bind].
    rewrite on_ok by lia. cbn [mbind outcome_bind]. eexists _, i, F'. split; [done|]. split; [by left|].
    split; [cbn; by apply (gc_fnext _ _ _ _ _ Hg [])|]. rewrite span_at_upd, decide_True by done. split_and!; try done; [|intros j Hj; by rewrite span_at_upd, decide_False].
    destruct Hw as [Hl _]. unfold reset. cbn [alloc_bits]. split; [unfold zlen in *; by rewrite length_fmap|]. apply Forall_fmap, Forall_true. intros. apply zero_u64.
Qed.

Lemma class_npages c : 1 <= c < NUM_SIZE_CLASSES -> exists np, idx NPAGES_OF_CLASS c = Some np /\ 1 <= np <= 10.
Proof.
  intros Hc. unfold NUM_SIZE_CLASSES in Hc. pose proof (seq_entry _ _ c class_shapes ltac:(lia)) as Hok. unfold class_shape_ok in Hok.
  destruct (idx SIZE_OF_CLASS c); [|done]. destruct (idx NPAGES_OF_CLASS c) as [np|]; [|done]. exists np. split; [done|].
  apply andb_true_iff in Hok as [_ Hok]. by apply bool_decide_eq_true in Hok.
Qed.

(** The central state after a new span [s] of [np] pages at page [P] took entry [i]. *)
Record fresh_entry (m m' : MCentral) (F F' : list Z) (i : Z) (s : Span) (P np : Z) : Prop := {
  fe_entry : F = i :: F' /\ spans_bump m' = spans_bump m \/ F = [] /\ F' = [] /\ i = spans_bump m + 1 /\ spans_bump m' = i;
  fe_bump : spans_bump m' < MAX_SPANS;
  fe_head : spans_free_head m' = hd 0 F';
  fe_span : span_at m' i = s;
  fe_others : forall j, j <> i -> span_at m' j = span_at m j;
  fe_pages : forall k, page_to_span m' !! k = if decide (P <= k < P + np) then Some i else page_to_span m !! k;
  fe_tracked : tracked_pages m' = tracked_pages m;
  fe_base : mc_base m' = mc_base m
}.

Lemma fresh_index m m' h p F F' os i s P np : gcore m h p F os -> fresh_entry m m' F F' i s P np ->
  1 <= i <= spans_bump m' /\ spans_bump m <= spans_bump m' /\ (forall j, j ∈ F' -> j ∈ F /\ j <> i) /\ i ∉ F' /\ ~ active m F i /\ base.NoDup F' /\
  (forall j, j <> i -> active m' F' j <-> active m F j) /\ (forall j, spans_bump m' < j -> spans_bump m < j).
Proof.
  intros Hg He. pose proof (gc_bump _ _ _ _ _ Hg) as Hb. unfold active. destruct (fe_entry _ _ _ _ _ _ _ _ He) as [[-> Eb]|(-> & -> & -> & Eb)].
  - destruct (gc_fin _ _ _ _ _ Hg i ltac:(by left)) as (Hi & _). pose proof (gc_fnodup _ _ _ _ _ Hg) as Hn. apply list.NoDup_cons in Hn as [Hn Hn'].
    rewrite Eb. split_and!; [lia..|intros j Hj; split; [by right|by intros ->]|done|intros [_ Ha]; apply Ha; by left|done| |lia].
    intros j Hj. rewrite elem_of_cons. naive_solver.
  - split_and!; [lia..|set_solver|set_solver|intros [Ha _]; lia|apply base.NoDup_nil_2| |lia]. intros j Hj. rewrite Eb. split; intros [H1 H2]; (split; [lia|done]).
Qed.

(** The run [P], [np] becomes the span [i]. *)
Lemma fresh_core m m' h p F F' os i s P np : gcore m h p F (Big P np :: os) -> fresh_entry m m' F F' i s P np -> span_ok p s (members []) ->
  pg p s = P -> npages s = np -> gcore m' h p F' os.
Proof.
  intros Hg He So Epg Enp. destruct (fresh_index _ _ _ _ _ _ _ _ _ _ _ Hg He) as (Hi & Hbm & HF' & HiF' & Hna & Hnd & Hactj & Hbj).
  pose proof (fe_others _ _ _ _ _ _ _ _ He) as Sj. pose proof (fe_pages _ _ _ _ _ _ _ _ He) as Hpm. pose proof (fe_span _ _ _ _ _ _ _ _ He) as Si.
  destruct (gc_big _ _ _ _ _ Hg P np ltac:(by left)) as (_ & Hnp1 & _ & Hpg). pose proof (gc_nodup _ _ _ _ _ Hg) as [Hnb Hnos0]%list.NoDup_cons.
  assert (forall P' n', Big P' n' ∈ os -> P' + n' <= P \/ P + np <= P') as Hbg.
  { intros P' n' Hb. apply (gc_bigs _ _ _ _ _ Hg P' n' P np); [by right|by left|]. by intros [= -> ->]. }
  assert (forall s', Small i s' ∉ os) as Hnos by (intros s' Hs; apply Hna, (gc_owner _ _ _ _ _ Hg i s'); by right). pose proof (gc_bump _ _ _ _ _ Hg) as Hb0.
  assert (active m' F' i) as Hact by (split; [exact Hi|done]).
  split; try apply Hg; try done.
  - rewrite (fe_base _ _ _ _ _ _ _ _ He). apply Hg.
  - rewrite (fe_tracked _ _ _ _ _ _ _ _ He). apply Hg.
  - pose proof (fe_bump _ _ _ _ _ _ _ _ He). lia.
  - apply He.
  - intros l1 j l2 E. rewrite Sj by (apply HF'; rewrite E; set_solver). destruct (fe_entry _ _ _ _ _ _ _ _ He) as [[-> _]|(_ & -> & _)]; [|by destruct l1].
    apply (gc_fnext _ _ _ _ _ Hg (i :: l1)). by rewrite E.
  - intros j Hj. destruct (HF' j Hj) as [HjF Hji]. rewrite Sj by done. destruct (gc_fin _ _ _ _ _ Hg j HjF) as (H1 & H2 & H3). split_and!; (done || lia).
  - intros j Hj. rewrite Sj by lia. apply (gc_unused _ _ _ _ _ Hg). by apply Hbj.
  - intros j Hj. destruct (decide (j = i)) as [->|Hji]; [|rewrite Sj by done; apply (span_ok_owners p _ (slots (Big P np :: os) j)); [intros x; by rewrite <- slots_big|by apply (gc_span _ _ _ _ _ Hg), Hactj]].
    rewrite Si. destruct So as [Fi ? ? ? ? ? ? ?]. split; try done. eapply span_inv_ext; [exact Fi|]. intros x. unfold slots, members. symmetry.
    rewrite !bool_decide_false; [done|set_solver|apply Hnos].
  - intros j s' Hs. destruct (decide (j = i)) as [->|Hji]; [done|]. apply Hactj; [done|]. apply (gc_owner _ _ _ _ _ Hg j s'). by right.
  - intros k j Hj0. rewrite Hpm. destruct (decide (j = i)) as [->|Hji].
    + rewrite Si, Epg, Enp. destruct (decide (P <= k < P + np)) as [Hk|Hk]; [done|]. split; [|tauto].
      intros H. exfalso. by apply Hna, (gc_pages _ _ _ _ _ Hg k i Hj0).
    + rewrite Sj, Hactj by done. rewrite <- (gc_pages _ _ _ _ _ Hg k j Hj0). destruct (decide (P <= k < P + np)) as [Hk|Hk]; [|done].
      split; [congruence|]. intros H. exfalso. by apply (proj2 (Hpg k Hk) j).
  - intros k j Hj0. rewrite Hpm. destruct (decide (P <= k < P + np)) as [Hk|Hk]; [intros _; by apply Hpg|]. by apply (gc_used _ _ _ _ _ Hg).
  - intros P' n' Hb. destruct (gc_big _ _ _ _ _ Hg P' n' ltac:(by right)) as (H1 & H2 & H3 & H4). split_and!; try lia. intros k Hk. split; [by apply H4|].
    intros j Hj0. rewrite Hpm, decide_False by (destruct (Hbg P' n' Hb); lia). by apply H4.
  - intros P1 n1 P2 n2 H1 H2. apply (gc_bigs _ _ _ _ _ Hg); by right.
  - intros k Hk Hf. unfold owned. setoid_rewrite Hpm. destruct (decide (P <= k < P + np)) as [Hin|Hout]; [left; exists i; split; [lia|done]|].
    destruct (gc_noleak _ _ _ _ _ Hg k Hk Hf) as [?|(P' & n' & [E|Hb]%elem_of_cons & Hr)]; [by left|injection E as -> ->; lia|right]. by exists P', n'.
Qed.

(** The page map covers the arena. *)
Definition gcore_geometry (m : MCentral) (p : PageAlloc) : Prop := mc_base m = arena_base p /\ tracked_pages m = chunks_capacity p * 512.

(** [init_span] at an entry of the table that holds no span. *)
Lemma init_span_at_ok m h p i c np P : gcore_geometry m p -> 0 <= i < MAX_SPANS -> wf_words (alloc_bits (span_at m i)) ->
  1 <= c < NUM_SIZE_CLASSES -> idx NPAGES_OF_CLASS c = Some np -> 1 <= np <= 10 -> 0 <= P -> P + np <= end_chunk p * 512 -> heap_inv h p ->
  exists s pm, init_span_at m i c (arena_base p + P * 8192) = Ok (set_pages (upd_span m i s) pm) /\ span_ok p s (members []) /\ pg p s = P /\ npages s = np /\
    cached s = cached (span_at m i) /\ sizeclass s = c /\ freeindex s = 0 /\
    forall k, pm !! k = if decide (P <= k < P + np) then Some i else page_to_span m !! k.
Proof.
  intros [Hmb Htr] Hi Hw Hc Enp Hnp HP HPe [_ Hpi]. destruct (geo_base _ (inv_geo _ Hpi)) as (Hab & _ & Hab2).
  pose proof (geo_end _ (inv_geo _ Hpi)) as Hge. pose proof (geo_cap _ (inv_geo _ Hpi)) as Hgc.
  destruct (init_span_ok (span_at m i) c (arena_base p + P * 8192) Hw Hc) as (s & Es & [Fb Fe Fn Fr Fp Fi] & Hsc).
  assert (npages s = np /\ sizeclass s = c /\ idx SIZE_OF_CLASS c = Some (elemsize s) /\ freeindex s = 0) as (Enps & Ecl & Esz & Efr).
  { unfold init_span in Es. destruct (idx SIZE_OF_CLASS c) as [sz|]; [|done]. rewrite Enp in Es. cbn [mbind option_bind] in Es. by injection Es as <-. }
  unfold init_span_at. rewrite get_ok by done. cbn [mbind outcome_bind]. rewrite Es. cbn [of_option mbind outcome_bind]. rewrite put_span_ok by done. cbn [mbind outcome_bind].
  assert (sub64 (arena_base p + P * 8192) (mc_base (upd_span m i s)) / PAGE_SIZE = P) as ->.
  { cbn [mc_base upd_span set_spans]. rewrite Hmb. unfold sub64, wrap64. change PAGE_SIZE with 8192. rewrite Z.mod_small by lia. lia. }
  rewrite Enps. destruct (map_pages_ok true (Z.to_nat np) (upd_span m i s) P i HP) as (pm & Em & Hpm); [cbn; rewrite Htr; lia|].
  rewrite Z2Nat.id in Hpm by lia. assert (pg p s = P) as Epg by (unfold pg; rewrite Fb; lia).
  exists s, pm. split_and!; try done. split; rewrite ?Epg, ?Ecl; (done || lia).
Qed.

Lemma draw_span_ok m h p L F os c : gcore m h p F os -> glists m L F -> 1 <= c < NUM_SIZE_CLASSES -> spans_bump m + 1 < MAX_SPANS ->
  (exists h', draw_span (mkCentral m h) c = Ok (mkCentral m h', NIL_SPAN) /\ gcore m h' p F os) \/
  exists m' h' p' F' i, draw_span (mkCentral m h) c = Ok (mkCentral m' h', i) /\ i <> 0 /\ gcore m' h' p' F' os /\ lists_ok m' L /\ ~ on_list L i /\
    arena_base p' = arena_base p /\ active m' F' i /\ (forall j, j <> i -> active m' F' j <-> active m F j) /\ (forall j, j <> i -> span_at m' j = span_at m j) /\
    cached (span_at m i) = false /\ cached (span_at m' i) = false /\ sizeclass (span_at m' i) = c /\ freeindex (span_at m' i) = 0 /\
    ~ active m F i /\ spans_bump m' <= spans_bump m + 1.
Proof.
  intros Hg Hl Hc Hb. destruct (class_npages c Hc) as (np & Enp & Hnp). unfold draw_span. rewrite Enp. cbn [of_option mbind outcome_bind heap mc].
  pose proof (gc_heap _ _ _ _ _ Hg) as Hh. destruct (geo_base _ (inv_geo _ (proj2 Hh))) as (Hab & _ & Hab2).
  destruct (mheap_alloc_pages_ok h p np Hh ltac:(lia)) as [(-> & _)|(p' & g & P & -> & Hp' & T & Hgr)]; cbn [mbind outcome_bind].
  - left. rewrite decide_True by done. eexists. split; [done|]. destruct Hg. split; try done. split; [done|apply Hh].
  - right. assert (0 <= g) as Hg0 by (unfold chunks_for in Hgr; lia). set (h' := mkMheap (Some p') (MHEAP_READY h)).
    pose proof (geo_end _ (inv_geo _ Hp')) as Hge. pose proof (geo_cap _ (inv_geo _ Hp')) as Hgc. pose proof (tk_range _ _ _ _ _ T) as [HP HPe].
    rewrite decide_False by (unfold ALLOC_FAILED; lia). assert (heap_inv h' p') as Hh' by done.
    destruct (gcore_took m h h' p p' F os np g P Hg Hh' T Hg0 ltac:(lia)) as [Hg' Hnb].
    destruct (alloc_span_idx_ok m h' p' F _ Hg' Hb) as (m1 & i & F' & -> & HF & Hfh & Hw & Hcd & Hs1 & Hh1 & Hp1 & Ht1 & Hmb). cbn [mbind outcome_bind].
    rewrite <- (tk_base _ _ _ _ _ T). pose proof (gc_bump _ _ _ _ _ Hg) as Hbp.
    assert (0 <= i < MAX_SPANS) as Hir by (destruct HF as [[-> _]|(_ & _ & -> & _)]; [destruct (gc_fin _ _ _ _ _ Hg i ltac:(by left)); lia|lia]).
    destruct (init_span_at_ok m1 h' p' i c np P) as (s & pm & -> & So & Epg & Enps & Ecd & Ecl & Efr & Hpm); try done.
    { split; [rewrite Hmb; apply Hg'|rewrite Ht1; apply Hg']. }
    cbn [mbind outcome_bind]. set (m' := set_pages (upd_span m1 i s) pm). assert (span_at m' i = s) as Si by (change (span_at (upd_span m1 i s) i = s); by rewrite span_at_upd, decide_True).
    assert (forall j, j <> i -> span_at m' j = span_at m j) as Sj by (intros j Hj; change (span_at (upd_span m1 i s) j = span_at m j); rewrite span_at_upd, decide_False by done; by apply Hs1).
    assert (fresh_entry m m' F F' i s P np) as He.
    { split; try done. - destruct HF as [[_ E]|(_ & _ & E1 & E2)]; cbn; lia. - intros k. change (page_to_span m' !! k) with (pm !! k). by rewrite Hpm, Hp1. }
    destruct (fresh_index _ _ _ _ _ _ _ _ _ _ _ Hg' He) as (Hi & _ & _ & HiF' & Hna & _ & Hactj & _).
    assert (~ on_list L i) as Hno by (intros Hon; by apply Hna, (gl_active _ _ _ Hl)).
    exists m', h', p', F', i. split; [done|]. split; [lia|]. split_and!; try done; try apply T.
    + by eapply fresh_core.
    + eapply lists_frame; [apply Hl|intros b; rewrite <- Hh1; by destruct b|]. intros j Hon. apply Sj. by intros ->.
    + destruct HF as [[-> _]|(_ & _ & -> & _)]; [by apply (gc_fin _ _ _ _ _ Hg); left|]. rewrite (gc_unused _ _ _ _ _ Hg) by lia. done.
    + by rewrite Si, Ecd.
    + by rewrite Si.
    + by rewrite Si.
    + destruct HF as [[_ E]|(_ & _ & E1 & E2)]; cbn; lia.
Qed.
