(* ===== verification/MCentralOps.v ===== *)
(** The operations of mcentral/mod.rs on the invariant of [MCentralSpec]: allocation, release,
    and the spans that Ps cache. *)
From Stdlib Require Import ZArith Lia.
From stdpp Require Import base tactics numbers list list_numbers option fin_maps gmap.
From S2P Require Import Prelude Outcome Runs MheapConsts PallocBits PageAlloc PageAllocTree PageAllocSpec Heap SizeClasses Span SpanSpec MCentral MCentralLists MCentralSpec.
Open Scope Z_scope.

(** ** Spans off the lists *)

(** The lists are right but for [i], which is on none. *)
Record loose (m : MCentral) (L : bool -> Z -> list Z) (F : list Z) (i : Z) : Prop := {
  ls_ok : lists_ok m L;
  ls_active : forall j, on_list L j -> active m F j;
  ls_off : ~ on_list L i;
  ls_cached : forall j, j <> i -> active m F j -> cached (span_at m j) = false <-> on_list L j
}.

Lemma list_remove_loose m L F i : glists m L F -> on_list L i ->
  exists m' L', list_remove m i = Ok m' /\ loose m' L' F i /\ same_but m m' (active m F).
Proof.
  intros Hl (b & c & l1 & l2 & El)%on_list_split. destruct (list_remove_ok m L b c l1 i l2 (gl_ok _ _ _ Hl) El) as (m' & E & Hl' & Hs).
  exists m', (with_list L b c (l1 ++ l2)). split_and!; [done| |by eapply same_weaken; [apply Hl|]].
  assert (forall j, active m' F j <-> active m F j) as Ha by (intros j; unfold active; by rewrite (sb_bump _ _ _ Hs)).
  assert (forall j, j <> i -> on_list (with_list L b c (l1 ++ l2)) j <-> on_list L j) as Hon.
  { intros j Hj. split; [intros [Hin|]%on_with; [|done]; exists b, c; rewrite El; set_solver|]. apply on_with_back. rewrite El. set_solver. }
  pose proof (on_removed _ _ _ _ _ _ _ (gl_ok _ _ _ Hl) El) as Hoff. split; [done| |done|].
  - intros j Hj. apply Ha, (gl_active _ _ _ Hl), Hon; [by intros ->|done].
  - intros j Hj Hact. rewrite Hon by done. rewrite (bare_eq cached _ _ (sb_bare _ _ _ Hs j)) by done. by apply (gl_cached _ _ _ Hl), Ha.
Qed.

Lemma loose_remove m h p L F os i : gcore m h p F os -> glists m L F -> on_list L i ->
  exists m' L', list_remove m i = Ok m' /\ gcore m' h p F os /\ loose m' L' F i /\ (forall j, bare (span_at m' j) = bare (span_at m j)) /\ spans_bump m' = spans_bump m.
Proof.
  intros Hg Hl Hon. destruct (list_remove_loose m L F i Hl Hon) as (m' & L' & E & Hl' & Hs). exists m', L'.
  split_and!; [done|by eapply gcore_same; [|exact Hs|]|done|apply Hs|apply Hs].
Qed.

Lemma loose_push b m h p L F os i : gcore m h p F os -> loose m L F i -> active m F i -> cached (span_at m i) = false ->
  exists m' L', push b m i = Ok m' /\ gcore m' h p F os /\ glists m' L' F /\ on_list L' i /\
    (forall j, bare (span_at m' j) = bare (span_at m j)) /\ spans_bump m' = spans_bump m.
Proof.
  intros Hg Hl Hi Hc. destruct (active_range _ _ _ _ _ _ Hg Hi) as [Hr Hn0]. pose proof (so_class _ _ _ (gc_span _ _ _ _ _ Hg i Hi)) as Hcl.
  destruct (push_ok b m L i (ls_ok _ _ _ _ Hl) ltac:(lia) (ls_off _ _ _ _ Hl) ltac:(lia)) as (m' & E & Hl' & Hs). set (c := sizeclass (span_at m i)) in *.
  exists m', (with_list L b c (i :: L b c)).
  assert (forall j, active m' F j <-> active m F j) as Ha by (intros j; unfold active; by rewrite (sb_bump _ _ _ Hs)).
  assert (on_list (with_list L b c (i :: L b c)) i) as Hoi by (exists b, c; rewrite with_list_at; by left).
  assert (forall j, j <> i -> on_list (with_list L b c (i :: L b c)) j <-> on_list L j) as Hon.
  { intros j Hj. split; [intros [Hin|]%on_with; [|done]; exists b, c; set_solver|]. apply on_with_back. set_solver. }
  split_and!; [done| | |done|apply Hs|apply Hs].
  - eapply gcore_same; [done|exact Hs|]. intros j [->|Hj]; [done|by apply Hl].
  - split; [done| |].
    + intros j Hj. apply Ha. destruct (decide (j = i)) as [->|Hji]; [done|]. by apply (ls_active _ _ _ _ Hl), Hon.
    + intros j Hact%Ha. rewrite (bare_eq cached _ _ (sb_bare _ _ _ Hs j)) by done. destruct (decide (j = i)) as [->|Hji]; [done|].
      rewrite Hon by done. by apply (ls_cached _ _ _ _ Hl).
Qed.

(** A span that a P has cached belongs on no list. *)
Lemma loose_held m L F i : loose m L F i -> cached (span_at m i) = true -> glists m L F.
Proof.
  intros Hl Hc. split; [apply Hl|apply Hl|]. intros j Ha. destruct (decide (j = i)) as [->|]; [|by apply (ls_cached _ _ _ _ Hl)].
  rewrite Hc. split; [done|]. by intros H%(ls_off _ _ _ _ Hl).
Qed.

Lemma held_loose m L F i : glists m L F -> active m F i -> cached (span_at m i) = true -> loose m L F i.
Proof. intros Hl Hi Hc. split; [apply Hl|apply Hl| |intros j _; apply Hl]. intros Hon. apply (gl_cached _ _ _ Hl) in Hon; [congruence|done]. Qed.

Lemma loose_put m L F i s' : loose m L F i -> shape s' = shape (span_at m i) -> loose (upd_span m i s') L F i.
Proof.
  intros Hl Hsh. assert (forall j, on_list L j -> span_at (upd_span m i s') j = span_at m j) as Hs.
  { intros j Hj. rewrite span_at_upd, decide_False; [done|]. intros ->. by apply (ls_off _ _ _ _ Hl). }
  split; [eapply lists_frame; [apply Hl|by intros []|done]|apply Hl|apply Hl|].
  intros j Hj Ha. rewrite span_at_upd, decide_False by done. by apply (ls_cached _ _ _ _ Hl).
Qed.

(** ** Giving a span back *)

(** The page map entries of span [i] are cleared. *)
Lemma unmap_ok m h p F os L i : gcore m h p F os -> active m F i -> lists_ok m L ->
  exists pm, map_pages false (Z.to_nat (npages (span_at m i))) m (sub64 (base (span_at m i)) (mc_base m) / PAGE_SIZE) NIL_SPAN = Ok (set_pages m pm) /\
    (forall k j, j <> 0 -> pm !! k = Some j <-> page_to_span m !! k = Some j /\ j <> i) /\ lists_ok (set_pages m pm) L.
Proof.
  intros Hg Hi Hl. pose proof (gc_span _ _ _ _ _ Hg i Hi) as So. pose proof (gc_heap _ _ _ _ _ Hg) as [_ Hp]. destruct (active_range _ _ _ _ _ _ Hg Hi) as [_ Hi0].
  pose proof (so_pages _ _ _ So) as Hpg. pose proof (so_npages _ _ _ So) as Hnp. pose proof (so_base _ _ _ So) as Hb.
  pose proof (geo_end _ (inv_geo _ Hp)) as Hge. destruct (geo_base _ (inv_geo _ Hp)) as (Hab & _ & Hab2). pose proof (geo_cap _ (inv_geo _ Hp)) as Hgc.
  assert (sub64 (base (span_at m i)) (mc_base m) / PAGE_SIZE = pg p (span_at m i)) as ->.
  { rewrite Hb, (gc_base _ _ _ _ _ Hg). unfold sub64, wrap64. change PAGE_SIZE with 8192. rewrite Z.mod_small by lia. lia. }
  destruct (map_pages_ok false (Z.to_nat (npages (span_at m i))) m (pg p (span_at m i)) NIL_SPAN ltac:(lia)) as (pm & E & Hpm).
  { rewrite (gc_track _ _ _ _ _ Hg). lia. }
  exists pm. split; [done|]. rewrite Z2Nat.id in Hpm by lia. split; [|eapply lists_frame; [exact Hl|by intros []|done]].
  intros k j Hj. rewrite Hpm. destruct (decide (pg p (span_at m i) <= k < pg p (span_at m i) + npages (span_at m i))) as [Hk|Hk].
  - assert (page_to_span m !! k = Some i) as Ek by by apply (gc_pages _ _ _ _ _ Hg k i Hi0). unfold NIL_SPAN. rewrite Ek. split; [congruence|]. intros [H1 H2]. congruence.
  - split; [|tauto]. intros H. split; [done|]. intros ->. by apply (gc_pages _ _ _ _ _ Hg k i Hi0) in H as [_ H].
Qed.

(** What [release_span] leaves of the central state. *)
Record released (m m' : MCentral) (F : list Z) (i : Z) : Prop := {
  re_bare : forall j, j <> i -> bare (span_at m' j) = bare (span_at m j);
  re_idle : forall j, j <> i -> ~ active m F j -> span_at m' j = span_at m j;
  re_next : next (span_at m' i) = hd 0 F;
  re_words : wf_words (alloc_bits (span_at m' i));
  re_cached : cached (span_at m' i) = false;
  re_bump : spans_bump m' = spans_bump m;
  re_head : spans_free_head m' = i;
  re_pages : forall k j, j <> 0 -> page_to_span m' !! k = Some j <-> page_to_span m !! k = Some j /\ j <> i;
  re_tracked : tracked_pages m' = tracked_pages m;
  re_base : mc_base m' = mc_base m
}.

Lemma released_core m m' h h' p p' F os i : gcore m h p F os -> active m F i -> (forall s, Small i s ∉ os) -> released m m' F i ->
  heap_inv h' p' -> same_arena p p' -> (forall k, gfree p' k = gfree p k || in_range (pg p (span_at m i)) (npages (span_at m i)) k) ->
  gcore m' h' p' (i :: F) os.
Proof.
  intros Hg Hi Hno [Rb Ri Rn Rw Rc R1 R2 R3 R4 R5] Hh [A3 A1 A2] Hfree. destruct (active_range _ _ _ _ _ _ Hg Hi) as [_ Hi0].
  assert (forall j, active m' (i :: F) j <-> active m F j /\ j <> i) as Ha by (intros j; unfold active; rewrite R1, elem_of_cons; tauto).
  assert (forall j, j <> i -> base (span_at m' j) = base (span_at m j) /\ npages (span_at m' j) = npages (span_at m j)) as Hbn
    by (intros j Hj; split; by apply (bare_eq _ (span_at m j)); [apply Rb|]).
  assert (forall j, j <> i -> pg p' (span_at m' j) = pg p (span_at m j)) as Hpg by (intros j Hj; unfold pg; destruct (Hbn j Hj) as [-> _]; by rewrite A1).
  assert (forall j, j ∈ F -> j <> i /\ span_at m' j = span_at m j) as HF.
  { intros j Hj. assert (j <> i) by (intros ->; by destruct Hi). split; [done|]. apply Ri; [done|]. by intros [_ Hn]. }
  assert (forall k, gfree p k = false -> page_to_span m !! k <> Some i -> gfree p' k = false) as Hnf.
  { intros k Hk Hn. rewrite Hfree, Hk. apply not_true_is_false. cbn [orb]. rewrite in_range_spec. intros Hr. by apply Hn, (gc_pages _ _ _ _ _ Hg k i Hi0). }
  destruct Hg. split; rewrite ?R1, ?R4, ?R5, ?A1, ?A2, ?A3; try done.
  - intros [|x l1] j l2 E; cbn in E; injection E as -> E; [subst; done|]. rewrite (proj2 (HF j ltac:(rewrite E; set_solver))). by apply (gc_fnext l1).
  - apply list.NoDup_cons. split; [by destruct Hi|done].
  - intros j [->|Hj]%elem_of_cons; [split_and!; try done; apply Hi|]. rewrite (proj2 (HF j Hj)). by apply gc_fin.
  - intros j Hj. rewrite Ri; [by apply gc_unused| |]; [intros ->; destruct Hi; lia|intros [H _]; lia].
  - intros j [Hj Hji]%Ha. apply (span_ok_bare p' (span_at m j)); [by apply Rb|]. destruct (gc_span j Hj). split; unfold pg in *; rewrite ?A1, ?A2; done.
  - intros j s Hs. apply Ha. split; [by eapply gc_owner|]. intros ->. by eapply Hno.
  - intros k j Hj. rewrite R3, gc_pages, Ha by done. split; (intros H; destruct_and!; rewrite ?Hpg, ?(proj2 (Hbn j ltac:(done))) in *; done).
  - intros k j Hj [H1 H2]%R3; [|done]. apply Hnf; [by apply (gc_used k j)|]. congruence.
  - intros P n Hb. destruct (gc_big P n Hb) as (B1 & B2 & B3 & B4). split_and!; try done. intros k Hk. destruct (B4 k Hk) as [B5 B6]. split; [by apply Hnf; [|apply B6]|].
    intros j Hj [H _]%R3; [|done]. by apply (B6 j).
  - intros k Hk. rewrite Hfree. intros [Hf Hr]%orb_false_iff. destruct (gc_noleak k Hk Hf) as [(j & Hj & Ej)|?]; [|by right]. left. exists j. split; [done|].
    apply R3; [done|]. split; [done|]. intros ->. apply (gc_pages k i Hi0) in Ej as [_ Ej]. apply in_range_spec in Ej. congruence.
Qed.

(** The arena is the same and no free page was taken. *)
Record kept (p p' : PageAlloc) : Prop := {
  kp_arena : same_arena p p';
  kp_free : forall k, gfree p k = true -> gfree p' k = true
}.

#[export] Instance kept_preorder : PreOrder kept.
Proof.
  split; [intros p; by split|]. intros p q r [[A1 A2 A3] A4] [[B1 B2 B3] B4]. split; [split; congruence|]. intros k Hk. by apply B4, A4.
Qed.

(** [release_span_idx] on a span that is on no list. *)
Lemma release_idx_ok m L F i : loose m L F i -> 0 <= i < MAX_SPANS -> spans_free_head m = hd 0 F ->
  wf_words (alloc_bits (span_at m i)) ->
  exists m', release_span_idx m i = Ok m' /\ glists m' L (i :: F) /\ (forall j, j <> i -> span_at m' j = span_at m j) /\
    next (span_at m' i) = hd 0 F /\ wf_words (alloc_bits (span_at m' i)) /\ cached (span_at m' i) = false /\
    spans_bump m' = spans_bump m /\ spans_free_head m' = i /\ page_to_span m' = page_to_span m /\ tracked_pages m' = tracked_pages m /\ mc_base m' = mc_base m.
Proof.
  intros Hl Hi Hf [Hw _]. unfold release_span_idx. rewrite on_ok by done. cbn [mbind outcome_bind]. rewrite on_ok by done. cbn [mbind outcome_bind].
  eexists. split; [done|]. set (m' := set_free_head _ i).
  assert (forall j, j <> i -> span_at m' j = span_at m j) as Hs by (intros j Hj; unfold m'; change (span_at (set_free_head ?m i) j) with (span_at m j); by rewrite !span_at_upd, !decide_False).
  assert (span_at m' i = MCentral.set_next (reset (span_at m i)) (spans_free_head m)) as Si
    by (unfold m'; change (span_at (set_free_head ?m i) i) with (span_at m i); rewrite !span_at_upd, !decide_True by done; done).
  split_and!; try done; rewrite ?Si; try done.
  - assert (forall j, active m' (i :: F) j <-> active m F j /\ j <> i) as Ha by (intros j; unfold active; rewrite elem_of_cons; cbn; tauto).
    assert (forall j, on_list L j -> j <> i) as Hji by (intros j Hj ->; by apply (ls_off _ _ _ _ Hl)).
    split; [eapply lists_frame; [apply Hl|by intros []|intros j Hj; by apply Hs, Hji]|intros j Hj; apply Ha; split; [by apply Hl|by apply Hji]|].
    intros j [Hj Hne]%Ha. rewrite Hs by done. by apply (ls_cached _ _ _ _ Hl).
  - split; [unfold zlen in *; cbn; by rewrite length_fmap|]. apply Forall_fmap, Forall_true. intros. apply zero_u64.
Qed.

Lemma release_span_ok m h p L F os i (b : bool) : gcore m h p F os -> active m F i -> cached (span_at m i) = false -> (forall s, Small i s ∉ os) ->
  (if b then glists m L F else loose m L F i) ->
  exists m' h' p' L', release_span (mkCentral m h) i b = Ok (mkCentral m' h') /\ gcore m' h' p' (i :: F) os /\ glists m' L' (i :: F) /\ kept p p' /\
    (forall j, j <> i -> bare (span_at m' j) = bare (span_at m j)) /\ cached (span_at m' i) = false /\ spans_bump m' = spans_bump m.
Proof.
  intros Hg Hi Hc Hno Hl. destruct (active_range _ _ _ _ _ _ Hg Hi) as [Hr _]. unfold release_span. cbn [mc heap]. rewrite get_ok by done. cbn [mbind outcome_bind].
  assert (lists_ok m L) as Hlo by (destruct b; apply Hl). destruct (unmap_ok m h p F os L i Hg Hi Hlo) as (pm & -> & Hpm & _). cbn [mbind outcome_bind].
  assert (exists m2 L2, (if b then list_remove (set_pages m pm) i else Ok (set_pages m pm)) = Ok m2 /\ loose m2 L2 F i /\ same_but (set_pages m pm) m2 (active m F))
    as (m2 & L2 & -> & Hl2 & S2).
  { destruct b; [|exists (set_pages m pm), L; split_and!; [done| |apply same_refl]].
    - destruct (list_remove_loose (set_pages m pm) L F i) as (m2 & L2 & E & H2 & S2); [|by apply (gl_cached _ _ _ Hl)|by exists m2, L2].
      split; [eapply lists_frame; [done|by intros []|done]|apply Hl|apply Hl].
    - split; [eapply lists_frame; [done|by intros []|done]|apply Hl|apply Hl|apply Hl]. }
  cbn [mbind outcome_bind]. pose proof (gc_span _ _ _ _ _ Hg i Hi) as So. destruct S2 as [B1 B2 B3 B4 B5 B6 B7].
  assert (alloc_bits (span_at m2 i) = alloc_bits (span_at m i)) as Eb by by apply (bare_eq alloc_bits).
  destruct (release_idx_ok m2 L2 F i Hl2 Hr) as (m' & -> & Hl' & Hs' & Hn' & Hw' & Hc' & R1 & R2 & R3 & R4 & R5).
  { rewrite B4. apply Hg. } { rewrite Eb. apply (sp_words _ _ (so_inv _ _ _ So)). }
  cbn [mbind outcome_bind]. pose proof (gc_heap _ _ _ _ _ Hg) as [Ep Hp]. pose proof (so_pages _ _ _ So) as Hpg. pose proof (so_npages _ _ _ So) as Hnp.
  destruct (free_range_ok p (pg p (span_at m i)) (npages (span_at m i)) Hp ltac:(lia) ltac:(lia) ltac:(lia)) as (p' & E & Hp' & Ha & Hk).
  unfold mheap_free_pages. rewrite Ep, (so_base _ _ _ So), E. cbn [of_option mbind outcome_bind]. eexists m', _, p', L2. split; [done|].
  assert (forall j, j <> i -> bare (span_at m' j) = bare (span_at m j)) as Hb' by (intros j Hj; rewrite Hs' by done; apply B1).
  split_and!; try done; [|split; [done|intros k Ek; by rewrite Hk, Ek]|by rewrite R1, B3]. eapply (released_core m); try done.
  split; try done; rewrite ?R1, ?R3, ?R4, ?R5, ?B3, ?B5, ?B6, ?B7; try done. intros j Hj Ha'. rewrite Hs' by done. by apply B2.
Qed.

(** ** The state as its clients see it *)

Definition ginv (c : Central) (p : PageAlloc) (os : list owner) : Prop :=
  exists L F, gcore (mc c) (heap c) p F os /\ glists (mc c) L F.

(** What a call leaves of the spans that hold live blocks or that a P has cached; [x] is the
    span the call caches or takes back, [d] the number of table entries it may use up. *)
Record evolves (m m' : MCentral) (p p' : PageAlloc) (os : list owner) (x d : Z) : Prop := {
  ev_base : arena_base p' = arena_base p;
  ev_shape : forall j s, Small j s ∈ os -> shape (span_at m' j) = shape (span_at m j);
  ev_held : forall j, 1 <= j -> j <> x -> cached (span_at m' j) = cached (span_at m j);
  ev_kept : forall j, 1 <= j -> j <> x -> cached (span_at m j) = true -> shape (span_at m' j) = shape (span_at m j);
  ev_bump : spans_bump m' <= spans_bump m + d
}.

Lemma evolves_same m m' p os x : (forall j, 1 <= j -> shape (span_at m' j) = shape (span_at m j)) ->
  (forall j, 1 <= j -> j <> x -> cached (span_at m' j) = cached (span_at m j)) -> spans_bump m' = spans_bump m ->
  (forall j s, Small j s ∈ os -> 1 <= j) -> evolves m m' p p os x 0.
Proof. intros Hs Hc Hb Ho. split; try done; [|auto|lia]. intros j s Hj. by eapply Hs, Ho. Qed.

Lemma evolves_trans m1 m2 m3 p1 p2 p3 os d e x : evolves m1 m2 p1 p2 os 0 d -> evolves m2 m3 p2 p3 os x e -> evolves m1 m3 p1 p3 os x (d + e).
Proof.
  intros [A1 A2 A3 A4 A5] [B1 B2 B3 B4 B5]. split; [congruence| | | |lia].
  - intros j s Hj. by rewrite (B2 j s Hj), (A2 j s Hj).
  - intros j Hj Hx. rewrite B3, A3 by (done || lia). done.
  - intros j Hj Hx Hc. rewrite B4, A4; (done || lia || rewrite A3; (done || lia)).
Qed.

Lemma owner_pos m h p F os j s : gcore m h p F os -> Small j s ∈ os -> 1 <= j.
Proof. intros Hg Hj. destruct (gc_owner _ _ _ _ _ Hg _ _ Hj) as [? _]. lia. Qed.

(** Only the links changed. *)
Lemma evolves_bare m m' h p F os : gcore m h p F os -> (forall j, bare (span_at m' j) = bare (span_at m j)) -> spans_bump m' = spans_bump m -> evolves m m' p p os 0 0.
Proof.
  intros Hg Hb Hbm. apply evolves_same; [intros j _; by apply bare_shape|intros j _ _; by apply (bare_eq cached)|done|intros j s; by apply (owner_pos _ _ _ _ _ _ _ Hg)].
Qed.

(** A new entry of the table. *)
Lemma evolves_draw m m' h p p' F os i : gcore m h p F os -> arena_base p' = arena_base p -> ~ active m F i -> (forall j, j <> i -> span_at m' j = span_at m j) ->
  cached (span_at m i) = false -> cached (span_at m' i) = false -> spans_bump m' <= spans_bump m + 1 -> evolves m m' p p' os 0 1.
Proof.
  intros Hg Hb Hna Hs Hc Hc' Hbm. split; try done.
  - intros j s Hj. rewrite Hs; [done|]. intros ->. by apply Hna, (gc_owner _ _ _ _ _ Hg i s).
  - intros j _ _. destruct (decide (j = i)) as [->|]; [congruence|by rewrite Hs].
  - intros j _ _ Hj. rewrite Hs; [done|]. intros ->. congruence.
Qed.

(** A fresh span is on no list. *)
Lemma draw_span_loose m h p L F os cl : gcore m h p F os -> glists m L F -> 1 <= cl < NUM_SIZE_CLASSES -> spans_bump m + 1 < MAX_SPANS ->
  (exists h', draw_span (mkCentral m h) cl = Ok (mkCentral m h', NIL_SPAN) /\ gcore m h' p F os) \/
  exists m' h' p' F' i, draw_span (mkCentral m h) cl = Ok (mkCentral m' h', i) /\ i <> 0 /\ gcore m' h' p' F' os /\ loose m' L F' i /\ active m' F' i /\
    cached (span_at m i) = false /\ cached (span_at m' i) = false /\ sizeclass (span_at m' i) = cl /\ freeindex (span_at m' i) = 0 /\
    (forall s, Small i s ∉ os) /\ evolves m m' p p' os 0 1.
Proof.
  intros Hg Hl Hcl Hb. destruct (draw_span_ok m h p L F os cl Hg Hl Hcl Hb)
    as [?|(m2 & h' & p' & F' & j & E & Hj & Hg2 & Hl2 & Hno & Hab & Hact & Hactj & Hsj & Hc0 & Hc1 & Hcl2 & Hf0 & Hna & Hbm2)]; [by left|right].
  exists m2, h', p', F', j. split_and!; try done; [|intros s Hs; by apply Hna, (gc_owner _ _ _ _ _ Hg j s)|by eapply evolves_draw]. split; [done| |done|].
  - intros x Hx. assert (x <> j) by by intros ->. apply Hactj; [done|]. by apply (gl_active _ _ _ Hl).
  - intros x Hx Ha. rewrite Hsj by done. apply (gl_cached _ _ _ Hl). by apply Hactj.
Qed.

(** What an allocation of class [k] gave its caller: nothing, with no page taken since [p0], or
    a new slot. *)
Definition sold (c : Central) (p0 p : PageAlloc) (os : list owner) (k a : Z) : Prop :=
  (a = 0 /\ ginv c p os /\ kept p0 p) \/
  exists i slot, a = slot_addr (span_at (mc c) i) slot /\ sizeclass (span_at (mc c) i) = k /\ Small i slot ∉ os /\ ginv c p (Small i slot :: os).

Lemma find_span_inv m h p L F os c : gcore m h p F os -> glists m L F -> 1 <= c < NUM_SIZE_CLASSES ->
  exists m' L' i, find_span m c = Ok (m', i) /\ gcore m' h p F os /\ glists m' L' F /\ evolves m m' p p os 0 0 /\
    (i = 0 \/ on_list L' i /\ sizeclass (span_at m' i) = c).
Proof.
  intros Hg Hl Hc. destruct (find_span_ok m L c (gl_ok _ _ _ Hl) ltac:(lia)) as (m' & L' & i & E & Hl' & Hs & Hon & Hi).
  exists m', L', i. split_and!; [done| |by eapply glists_same|eapply evolves_bare; [done|apply Hs|apply Hs]|].
  - eapply gcore_same; [done|exact Hs|apply Hl].
  - destruct Hi as [|Hi]; [by left|right]. split; [by exists true, c|]. by apply (lo_class _ _ Hl') in Hi as (_ & ? & _).
Qed.

Lemma alloc_from_sold m h p0 p L F os i : gcore m h p F os -> glists m L F -> on_list L i ->
  kept p0 p \/ freeindex (span_at m i) = 0 /\ (forall s, Small i s ∉ os) ->
  exists c' a, alloc_from (mkCentral m h) i = Ok (c', a) /\ evolves m (mc c') p p os 0 0 /\ sold c' p0 p os (sizeclass (span_at m i)) a.
Proof.
  intros Hg Hl Hon Hk. destruct (alloc_from_ok m h p L F os i Hg Hl Hon) as (m' & L' & a & E & Hl' & Hsh & Hbm & Hr). exists (mkCentral m' h), a.
  split_and!; [done| |].
  - apply evolves_same; [intros j _; apply Hsh|intros j _ _; apply Hsh|done|intros j s; by apply (owner_pos _ _ _ _ _ _ _ Hg)].
  - destruct (Hsh i) as [Es _]. destruct Hr as [(-> & Hg' & Hall)|(slot & -> & Hslot & Hno & Hg')].
    { left. split_and!; [done|by exists L', F|]. destruct Hk as [|[Hf Hno]]; [done|]. pose proof (gl_active _ _ _ Hl i Hon) as Hi.
      pose proof (sp_nelems _ _ (so_inv _ _ _ (gc_span _ _ _ _ _ Hg i Hi))). by destruct (Hno 0); apply Hall; lia. }
    right. exists i, slot. cbn [mc]. split_and!; [by rewrite (slot_addr_shape _ _ _ Es)| |done|by exists L', F]. unfold shape in Es. congruence.
Qed.

Lemma alloc_ok c p os size k : ginv c p os -> 0 <= size <= 2 ^ 60 -> 0 <= k <= 60 -> spans_bump (mc c) + 1 < MAX_SPANS ->
  exists c' p' a, MCentral.alloc c size (2 ^ k) = Ok (c', a) /\ evolves (mc c) (mc c') p p' os 0 1 /\
    ((a = 0 /\ ginv c' p' os /\ kept p p') \/ exists cl, class_for size (2 ^ k) = Ok (Some cl) /\ sold c' p p' os cl a).
Proof.
  intros (L & F & Hg & Hl) Hs Hk Hb. unfold MCentral.alloc. pose proof (class_for_spec size k Hs Hk) as Hcl. cbn zeta in Hcl.
  assert (forall m, evolves m m p p os 0 1) as Hrefl by (intros; split; (done || lia)).
  destruct (decide (round_up size (2 ^ k) > MAX_SMALL_SIZE)) as [Hbig|_].
  { rewrite Hcl. cbn [mbind outcome_bind]. exists c, p, 0. split_and!; [done|done|]. left. split_and!; [done|by exists L, F|done]. }
  destruct Hcl as (cl & sz & -> & (Hcr & _) & _). cbn [mbind outcome_bind]. rewrite decide_False by lia.
  destruct (find_span_inv _ _ _ _ _ _ cl Hg Hl Hcr) as (m1 & L1 & i & -> & Hg1 & Hl1 & Ev1 & Hi). cbn [mbind outcome_bind]. unfold NIL_SPAN in *.
  destruct Hi as [->|[Hon Ecl]].
  - rewrite decide_True by done. pose proof (ev_bump _ _ _ _ _ _ _ Ev1) as Hbm.
    destruct (draw_span_loose m1 (heap c) p L1 F os cl Hg1 Hl1 Hcr ltac:(lia)) as [(h' & -> & Hg2)|(m2 & h' & p' & F' & j & -> & Hj & Hg2 & Hlo & Hact & _ & Hc1 & Hcl & Hf0 & Hnos & Ev2)];
      cbn [mbind outcome_bind].
    + rewrite decide_True by done. exists (mkCentral m1 h'), p, 0. split_and!; [done|eapply (evolves_trans _ m1 _ _ p _ _ 0 1); [exact Ev1|apply Hrefl]|]. left. split_and!; [done|by exists L1, F|done].
    + rewrite decide_False by done. cbn [mc heap].
      destruct (loose_push true m2 h' p' L1 F' os j Hg2 Hlo Hact Hc1) as (m3 & L3 & E3 & Hg3 & Hl3 & Hon3 & Hb3 & Hbm3).
      change (partial_push m2 j) with (push true m2 j). rewrite E3. cbn [mbind outcome_bind].
      destruct (alloc_from_sold m3 h' p p' L3 F' os j Hg3 Hl3 Hon3) as (c' & a & -> & Ev4 & Hsold);
        [right; split; [by rewrite (bare_eq freeindex _ _ (Hb3 j))|done]|]. exists c', p', a. split_and!; [done| |].
      * eapply (evolves_trans _ m1 _ _ p _ _ 0 1); [exact Ev1|]. eapply (evolves_trans _ m2 _ _ p' _ _ 1 0); [exact Ev2|].
        eapply (evolves_trans _ m3 _ _ p' _ _ 0 0); [by eapply evolves_bare|exact Ev4].
      * right. exists cl. split; [done|]. by rewrite <- Hcl, <- (bare_class _ _ (Hb3 j)).
  - destruct (decide (i = 0)) as [->|_]; [destruct (gl_active _ _ _ Hl1 0 Hon) as [? _]; lia|].
    destruct (alloc_from_sold m1 (heap c) p p L1 F os i Hg1 Hl1 Hon ltac:(by left)) as (c' & a & -> & Ev2 & Hsold). exists c', p, a. split_and!; [done| |].
    + destruct (evolves_trans _ _ _ _ _ _ _ _ _ _ Ev1 Ev2) as [? ? ? ? Hb2]. split; try done. lia.
    + right. exists cl. split; [done|]. by rewrite <- Ecl.
Qed.

(** ** [free] *)

Lemma elem_of_delete_nodup {A} (l : list A) n x y : base.NoDup l -> l !! n = Some y -> x ∈ delete n l <-> x ∈ l /\ x <> y.
Proof.
  intros Hnd Hn. rewrite <- (take_drop_middle l n y Hn) in Hnd |- *. rewrite delete_take_drop, (take_drop_middle l n y Hn).
  rewrite <- Permutation_middle in Hnd. apply list.NoDup_cons in Hnd as [Hy _].
  assert (x ∈ l <-> x = y \/ x ∈ take n l ++ drop (S n) l) as -> by (rewrite <- (take_drop_middle l n y Hn) at 1; rewrite elem_of_app, elem_of_cons, elem_of_app; tauto).
  split; [intros H; split; [by right|by intros ->]|intros [[->|H] Hne]; done].
Qed.

Lemma nodup_delete {A} (l : list A) n : base.NoDup l -> base.NoDup (delete n l).
Proof. intros Hnd. eapply list.sublist_NoDup; [exact Hnd|apply sublist_delete]. Qed.

Lemma owners_return os n i slot : base.NoDup os -> os !! n = Some (Small i slot) -> owners_at os (delete n os) i.
Proof.
  intros Hnd Hn. split; [by apply nodup_delete|intros j s Hj|intros P k]; rewrite (elem_of_delete_nodup _ _ _ _ Hnd Hn); naive_solver.
Qed.

Lemma slots_return os n i slot s : base.NoDup os -> os !! n = Some (Small i slot) -> without_slot (slots os i) slot s = slots (delete n os) i s.
Proof.
  intros Hnd Hn. unfold without_slot, slots. rewrite <- bool_decide_not, <- bool_decide_and. apply bool_decide_ext.
  rewrite (elem_of_delete_nodup _ _ _ _ Hnd Hn). naive_solver.
Qed.

(** The arithmetic of addresses, free of wraps. *)
Lemma slot_addr_ok m h p F os i slot : gcore m h p F os -> active m F i -> 0 <= slot < nelems (span_at m i) ->
  let s := span_at m i in slot_addr s slot = arena_base p + pg p s * 8192 + slot * elemsize s /\ slot_of s (slot_addr s slot) = slot /\
    slot * elemsize s + elemsize s <= npages s * 8192 /\ base s + npages s * 8192 < 2 ^ 64 /\ 0 <= arena_base p.
Proof.
  intros Hg Hi Hs s. pose proof (gc_span _ _ _ _ _ Hg i Hi) as So. fold s in So, Hs. pose proof (gc_heap _ _ _ _ _ Hg) as [_ Hp].
  pose proof (so_pages _ _ _ So) as Hpg. pose proof (so_npages _ _ _ So) as Hnp. pose proof (so_base _ _ _ So) as Hb. pose proof (so_elem _ _ _ So) as He.
  pose proof (so_room _ _ _ So) as Hroom. pose proof (sp_nelems _ _ (so_inv _ _ _ So)) as Hn.
  pose proof (geo_end _ (inv_geo _ Hp)) as Hge. destruct (geo_base _ (inv_geo _ Hp)) as (Hab & _ & Hab2). pose proof (geo_cap _ (inv_geo _ Hp)) as Hgc.
  assert (0 <= slot * elemsize s /\ slot * elemsize s + elemsize s <= npages s * 8192) as Hse by nia.
  assert (slot_addr s slot = base s + slot * elemsize s) as Ea
    by (unfold slot_addr, add64, mul64, wrap64; rewrite (Z.mod_small (slot * elemsize s)) by lia; rewrite Z.mod_small by lia; done).
  split_and!; try lia. rewrite Ea. unfold slot_of, sub64, wrap64. rewrite Z.mod_small by lia.
  replace (base s + slot * elemsize s - base s) with (slot * elemsize s) by lia. rewrite Z.div_mul by lia. apply wrap16_small. lia.
Qed.

Lemma zero_count_idle s L : span_inv s L -> alloc_count s = 0 -> forall i, L i = false.
Proof.
  intros Hs Hz i. destruct (L i) eqn:E; [|done]. pose proof (sp_live _ _ Hs i E) as Hi. pose proof (sp_nelems _ _ Hs) as Hn.
  pose proof (sp_bits _ _ Hs i Hi) as Hb. rewrite E in Hb. cbn in Hb. pose proof (sp_count _ _ Hs) as Hc. rewrite Hz in Hc.
  pose proof (count_minus (bit (alloc_bits s)) (fun k => bool_decide (k = i)) 0 1024 ltac:(lia)) as Hm.
  rewrite count_single in Hm by lia. rewrite <- Hc in Hm. pose proof (count_bounds (fun k => bit (alloc_bits s) k && negb (bool_decide (k = i))) 0 1024 ltac:(lia)).
  rewrite Hm in H; [lia|]. intros k _ Hk. apply bool_decide_eq_true in Hk. by subst k.
Qed.

(** The lookup at the head of [free] finds the span of a live slot. *)
Lemma free_lookup m h p F os i slot : gcore m h p F os -> Small i slot ∈ os -> let a := slot_addr (span_at m i) slot in
  ~ (a < mc_base m) /\ ~ (sub64 a (mc_base m) / PAGE_SIZE >= tracked_pages m) /\ page_to_span m !! (sub64 a (mc_base m) / PAGE_SIZE) = Some i /\
  ~ (a < base (span_at m i) \/ a >= add64 (base (span_at m i)) (mul64 (npages (span_at m i)) PAGE_SIZE)).
Proof.
  intros Hg Ho a. pose proof (gc_owner _ _ _ _ _ Hg _ _ Ho) as Hi. destruct (active_range _ _ _ _ _ _ Hg Hi) as [_ Hi0]. pose proof (gc_span _ _ _ _ _ Hg i Hi) as So.
  apply slots_elem in Ho. pose proof (sp_live _ _ (so_inv _ _ _ So) slot Ho) as Hsl. destruct (slot_addr_ok m h p F os i slot Hg Hi Hsl) as (Ea & _ & Hr & Hm & Hab0). fold a in Ea.
  pose proof (so_pages _ _ _ So) as Hpg. pose proof (so_npages _ _ _ So) as Hnp. pose proof (so_base _ _ _ So) as Hb. pose proof (so_elem _ _ _ So) as He. set (s := span_at m i) in *.
  pose proof (gc_heap _ _ _ _ _ Hg) as [_ Hp]. pose proof (geo_end _ (inv_geo _ Hp)) as Hge. rewrite (gc_base _ _ _ _ _ Hg), (gc_track _ _ _ _ _ Hg). change PAGE_SIZE with 8192.
  assert (0 <= slot * elemsize s) as H0 by nia. unfold sub64, wrap64. rewrite Z.mod_small by lia.
  assert (pg p s <= (a - arena_base p) / 8192 < pg p s + npages s) as Hpi by lia. split_and!; [lia|lia|by apply (gc_pages _ _ _ _ _ Hg)|].
  unfold add64, mul64, wrap64. rewrite (Z.mod_small (npages s * 8192)) by lia. rewrite Z.mod_small by lia. lia.
Qed.

(** A slot of [i] is given back on either path; the span stays where it is. *)
Lemma return_slot m h p L F os n i slot s' : gcore m h p F os -> glists m L F -> os !! n = Some (Small i slot) -> shape s' = shape (span_at m i) ->
  links s' = links (span_at m i) -> cached s' = cached (span_at m i) -> span_inv s' (without_slot (slots os i) slot) ->
  gcore (upd_span m i s') h p F (delete n os) /\ glists (upd_span m i s') L F /\ evolves m (upd_span m i s') p p (delete n os) 0 0.
Proof.
  intros Hg Hl Hn Hsh Hlk Hc Hs. pose proof (gc_nodup _ _ _ _ _ Hg) as Hnd.
  assert (active m F i) as Hi by (eapply (gc_owner _ _ _ _ _ Hg), list_elem_of_lookup_2, Hn). split_and!.
  - eapply gcore_put; [done|done|done|by eapply owners_return|]. eapply span_inv_ext; [exact Hs|]. intros x. by apply slots_return.
  - by apply glists_put.
  - apply evolves_same; [|intros j _ _|done|]; [intros j _|..]; try (rewrite span_at_upd; case_decide; by subst).
    intros j s Hj. apply (owner_pos _ _ _ _ _ j s Hg). by apply (elem_of_delete_nodup _ _ _ _ Hnd Hn) in Hj as [? _].
Qed.

(** A span moves to the front of its partial list when it was full. *)
Lemma relist_when (w : bool) m h p L F os i : gcore m h p F os -> glists m L F -> active m F i -> cached (span_at m i) = false ->
  exists m' L', (if w then m ← list_remove m i; partial_push m i else Ok m) = Ok m' /\ gcore m' h p F os /\ glists m' L' F /\
    evolves m m' p p os 0 0 /\ bare (span_at m' i) = bare (span_at m i) /\ active m' F i.
Proof.
  intros Hg Hl Hi Hc. destruct w; [|exists m, L; split_and!; try done; by eapply evolves_bare].
  destruct (relist_inv true _ _ _ _ _ _ i Hg Hl) as (m' & L' & E & Hg' & Hl' & Hb & Hbm); [by apply (gl_cached _ _ _ Hl)|].
  exists m', L'. split_and!; [exact E|done|done|by eapply evolves_bare|done|]. unfold active. by rewrite Hbm.
Qed.

(** A span with no slot taken goes back to the page heap. *)
Lemma release_when_empty (b : bool) m h p L F os i : gcore m h p F os -> active m F i -> cached (span_at m i) = false -> (if b then glists m L F else loose m L F i) ->
  is_empty (span_at m i) = true ->
  exists c' p', release_span (mkCentral m h) i b = Ok c' /\ ginv c' p' os /\ evolves m (mc c') p p' os 0 0 /\ kept p p'.
Proof.
  intros Hg Hi Hc Hl He. apply Z.eqb_eq in He. pose proof (zero_count_idle _ _ (so_inv _ _ _ (gc_span _ _ _ _ _ Hg i Hi)) He) as Hidle.
  assert (forall s, Small i s ∉ os) as Hno by (intros s; by apply slots_not).
  destruct (release_span_ok m h p L F os i b Hg Hi Hc Hno Hl) as (m' & h' & p' & L' & E & Hg' & Hl' & Ha & Hb & Hc' & Hbm).
  exists (mkCentral m' h'), p'. split; [done|]. split; [by exists L', (i :: F)|]. split; [|done]. cbn [mc]. split; [apply Ha| | | |lia].
  - intros j s Hj. apply bare_shape, Hb. intros ->. by apply (Hno s).
  - intros j _ _. destruct (decide (j = i)) as [->|]; [congruence|by apply (bare_eq cached); [apply Hb|]].
  - intros j _ _ Hj. apply bare_shape, Hb. intros ->. congruence.
Qed.

Lemma free_small_ok c p os n i slot : ginv c p os -> os !! n = Some (Small i slot) ->
  exists c' p', MCentral.free c (slot_addr (span_at (mc c) i) slot) = Ok (c', true) /\ ginv c' p' (delete n os) /\ evolves (mc c) (mc c') p p' (delete n os) 0 0.
Proof.
  intros (L & F & Hg & Hl) Hn. pose proof (list_elem_of_lookup_2 _ _ _ Hn) as Ho. pose proof (gc_owner _ _ _ _ _ Hg _ _ Ho) as Hi.
  destruct (active_range _ _ _ _ _ _ Hg Hi) as [Hr Hi0]. pose proof (so_inv _ _ _ (gc_span _ _ _ _ _ Hg i Hi)) as Hs. pose proof (proj2 (slots_elem os i slot) Ho) as HL.
  destruct (free_lookup _ _ _ _ _ _ _ Hg Ho) as (G1 & G2 & G3 & G4). destruct (slot_addr_ok _ _ _ _ _ _ _ Hg Hi (sp_live _ _ Hs slot HL)) as (_ & Eslot & _).
  unfold MCentral.free. rewrite decide_False by exact G1. rewrite decide_False by exact G2. rewrite G3. cbn [default id from_option]. unfold NIL_SPAN.
  rewrite decide_False by done. rewrite get_ok by done. cbn [mbind outcome_bind]. rewrite decide_False by exact G4. rewrite Eslot.
  destruct (cached (span_at (mc c) i)) eqn:Ec.
  - destruct (free_slot_atomic_ok _ _ _ Hs HL) as (s' & E & Hsh & Hc & Hinv). rewrite E. cbn [of_option mbind outcome_bind]. rewrite put_span_ok by done. cbn [mbind outcome_bind].
    destruct (return_slot _ _ _ _ _ _ _ _ _ s' Hg Hl Hn Hsh (links_free_atomic _ _ _ E) Hc Hinv) as (Hg' & Hl' & Ev). eexists _, p. split; [done|]. split; [by exists L, F|done].
  - destruct (free_slot_locked_ok _ _ _ Hs Ec HL) as (s' & E & Hsh & Hc & Hinv). rewrite E. cbn [of_option mbind outcome_bind]. rewrite put_span_ok by done. cbn [mbind outcome_bind].
    destruct (return_slot _ _ _ _ _ _ _ _ _ s' Hg Hl Hn Hsh (links_free_locked _ _ _ E) ltac:(congruence) Hinv) as (Hg1 & Hl1 & Ev1).
    assert (span_at (upd_span (mc c) i s') i = s') as Si by by rewrite span_at_upd, decide_True.
    destruct (relist_when (Span.is_full (span_at (mc c) i)) _ _ _ _ _ _ i Hg1 Hl1 Hi ltac:(by rewrite Si)) as (m2 & L2 & -> & Hg2 & Hl2 & Ev2 & Hb2 & Hi2).
    rewrite Si in Hb2. pose proof (evolves_trans _ _ _ _ _ _ _ _ _ _ Ev1 Ev2) as Ev. cbn [mbind outcome_bind]. rewrite get_ok by done. cbn [mbind outcome_bind].
    destruct (is_empty (span_at m2 i)) eqn:Ee; [|eexists _, p; split; [done|]; split; [by exists L2, F|done]].
    destruct (release_when_empty true m2 (heap c) p L2 F _ i Hg2 Hi2 ltac:(by rewrite (bare_eq cached _ _ Hb2)) Hl2 Ee) as (c' & p' & -> & Hinv' & Ev3 & _).
    cbn [mbind outcome_bind]. exists c', p'. split_and!; [done|done|]. exact (evolves_trans _ _ _ _ _ _ _ _ _ _ Ev Ev3).
Qed.

(** A run of pages that no span has is not [free]'s. *)
Lemma free_big_ok c p os P n : ginv c p os -> Big P n ∈ os -> MCentral.free c (arena_base p + P * 8192) = Ok (c, false).
Proof.
  intros (L & F & Hg & Hl) Ho. destruct (gc_big _ _ _ _ _ Hg P n Ho) as (H1 & H2 & H3 & H4). pose proof (gc_heap _ _ _ _ _ Hg) as [_ Hp].
  destruct (geo_base _ (inv_geo _ Hp)) as (Hab & _ & Hab2). pose proof (geo_end _ (inv_geo _ Hp)) as Hge. pose proof (geo_cap _ (inv_geo _ Hp)) as Hgc.
  unfold MCentral.free. rewrite (gc_base _ _ _ _ _ Hg), (gc_track _ _ _ _ _ Hg). rewrite decide_False by lia.
  assert (sub64 (arena_base p + P * 8192) (arena_base p) / PAGE_SIZE = P) as ->.
  { unfold sub64, wrap64. change PAGE_SIZE with 8192. rewrite Z.mod_small by lia. lia. }
  rewrite decide_False by lia. destruct (H4 P ltac:(lia)) as [_ H5]. rewrite decide_True; [done|].
  destruct (page_to_span (mc c) !! P) as [i|] eqn:E; [|done]. cbn. destruct (decide (i = 0)) as [->|Hi]; [done|]. by destruct (H5 i Hi).
Qed.

(** ** Spans cached by a P *)

Lemma cached_active m h p F os i : gcore m h p F os -> 1 <= i -> cached (span_at m i) = true -> active m F i.
Proof.
  intros Hg Hi Hc. destruct (decide (i ∈ F)) as [HF|HF]; [apply (gc_fin _ _ _ _ _ Hg) in HF as (_ & _ & ?); congruence|]. split; [|done].
  destruct (decide (i <= spans_bump m)); [lia|]. rewrite (gc_unused _ _ _ _ _ Hg) in Hc by lia. done.
Qed.

(** A span operation that sells nothing. *)
Lemma put_idle m h p F os i s' : gcore m h p F os -> active m F i -> shape s' = shape (span_at m i) -> span_inv s' (slots os i) ->
  gcore (upd_span m i s') h p F os /\ evolves m (upd_span m i s') p p os i 0.
Proof.
  intros Hg Hi Hsh Hs. split; [eapply gcore_put; [done|done|done|split; [apply Hg|done|done]|done]|].
  apply evolves_same; [intros j _|intros j _ Hj|done|intros j s; by apply (owner_pos _ _ _ _ _ _ _ Hg)]; rewrite span_at_upd; [case_decide; by subst|by rewrite decide_False].
Qed.

Lemma cache_loose m h p L F os i : gcore m h p F os -> loose m L F i -> active m F i -> cached (span_at m i) = false ->
  exists s', cache_span (span_at m i) = Some s' /\ gcore (upd_span m i s') h p F os /\ glists (upd_span m i s') L F /\
    cached (span_at (upd_span m i s') i) = true /\ shape (span_at (upd_span m i s') i) = shape (span_at m i) /\ evolves m (upd_span m i s') p p os i 0.
Proof.
  intros Hg Hl Hi Hc. destruct (cache_span_ok _ _ (so_inv _ _ _ (gc_span _ _ _ _ _ Hg i Hi)) Hc) as (s' & E & Hsh & Hc' & Hs).
  destruct (put_idle _ _ _ _ _ _ _ Hg Hi Hsh Hs) as [Hg' Ev]. exists s'. assert (span_at (upd_span m i s') i = s') as Si by by rewrite span_at_upd, decide_True.
  rewrite Si. split_and!; try done. eapply loose_held; [by apply loose_put|by rewrite Si].
Qed.

(** What [cacheSpan] returns: nothing, or a span of the class that nobody had cached. *)
Definition lent (m m' : MCentral) (cl i : Z) : Prop :=
  i = 0 \/ 1 <= i /\ cached (span_at m i) = false /\ cached (span_at m' i) = true /\ sizeclass (span_at m' i) = cl.

Lemma shape_class s s' : shape s' = shape s -> sizeclass s' = sizeclass s.
Proof. unfold shape. congruence. Qed.

Lemma cacheSpan_ok c p os cl : ginv c p os -> 1 <= cl < NUM_SIZE_CLASSES -> spans_bump (mc c) + 1 < MAX_SPANS ->
  exists c' p' i, cacheSpan c cl = Ok (c', i) /\ ginv c' p' os /\ evolves (mc c) (mc c') p p' os i 1 /\ lent (mc c) (mc c') cl i /\
    (kept p p' \/ i <> 0 /\ ready (span_at (mc c') i)).
Proof.
  intros (L & F & Hg & Hl) Hcl Hb. unfold cacheSpan. rewrite decide_False by lia.
  destruct (find_span_inv _ _ _ _ _ _ cl Hg Hl Hcl) as (m1 & L1 & i & -> & Hg1 & Hl1 & Ev1 & Hi). cbn [mbind outcome_bind]. unfold NIL_SPAN in *.
  destruct Hi as [->|[Hon Ecl]].
  - rewrite decide_False by (by intros H; apply H). pose proof (ev_bump _ _ _ _ _ _ _ Ev1) as Hbm.
    destruct (draw_span_loose m1 (heap c) p L1 F os cl Hg1 Hl1 Hcl ltac:(lia)) as [(h' & -> & Hg2)|(m2 & h' & p' & F' & j & -> & Hj & Hg2 & Hlo & Hact & Hc0 & Hc1 & Hcl2 & Hf0 & Hnos & Evd)];
      cbn [mbind outcome_bind].
    + rewrite decide_True by done. exists (mkCentral m1 h'), p, 0. split_and!; [done|by exists L1, F| |by left|by left]. cbn [mc]. destruct Ev1. split; (done || lia).
    + rewrite decide_False by done. cbn [mc heap]. destruct (active_range _ _ _ _ _ _ Hg2 Hact) as [Hr _]. rewrite get_ok by done. cbn [mbind outcome_bind].
      destruct (cache_loose m2 h' p' L1 F' os j Hg2 Hlo Hact Hc1) as (s' & E & Hg3 & Hl3 & Hc3 & Hsh3 & Ev3).
      assert (set_freeindex (span_at m2 j) 0 = span_at m2 j) as Ef by (rewrite <- Hf0; apply set_freeindex_id).
      pose proof (cache_span_ready _ _ _ (so_inv _ _ _ (gc_span _ _ _ _ _ Hg2 j Hact)) Hc1 (proj2 (slots_not os j 0) (Hnos 0)) E) as Hrd.
      unfold cache_span in E. rewrite Ef in E. destruct (refill_alloc_cache (span_at m2 j) 0) as [[s1 k]|]; [|done].
      cbn [of_option mbind option_bind outcome_bind] in *. injection E as <-. rewrite put_span_ok by done. cbn [mbind outcome_bind]. eexists _, p', j. split; [done|].
      split; [by exists L1, F'|]. cbn [mc]. assert (evolves (mc c) m2 p p' os 0 1) as Ev2 by (eapply (evolves_trans _ m1 _ _ p _ _ 0 1); [done|exact Evd]).
      split; [exact (evolves_trans _ _ _ _ _ _ _ _ _ _ Ev2 Ev3)|]. split; [|right; split; [done|by rewrite span_at_upd, decide_True]]. right. destruct Hact as [Hj1 _].
      split_and!; [lia| |done|by rewrite (shape_class _ _ Hsh3)]. rewrite <- (ev_held _ _ _ _ _ _ _ Ev1 j) by lia. done.
  - pose proof (gl_active _ _ _ Hl1 i Hon) as Hi1. destruct (active_range _ _ _ _ _ _ Hg1 Hi1) as [Hr Hn0]. rewrite decide_True by done.
    destruct (loose_remove _ _ _ _ _ _ i Hg1 Hl1 Hon) as (m2 & L2 & -> & Hg2 & Hlo & Hb2 & Hbm2). cbn [mbind outcome_bind]. rewrite get_ok by done. cbn [mbind outcome_bind].
    assert (active m2 F i) as Hi2 by (unfold active; by rewrite Hbm2). assert (cached (span_at m1 i) = false) as Hc1 by by apply (gl_cached _ _ _ Hl1).
    assert (evolves (mc c) m2 p p os 0 0) as Ev2 by (eapply (evolves_trans _ m1 _ _ p _ _ 0 0); [done|by eapply evolves_bare]).
    destruct (cache_loose m2 (heap c) p L2 F os i Hg2 Hlo Hi2 ltac:(by rewrite (bare_eq cached _ _ (Hb2 i)))) as (s' & -> & Hg3 & Hl3 & Hc3 & Hsh3 & Ev3).
    cbn [of_option mbind outcome_bind]. rewrite put_span_ok by done. cbn [mbind outcome_bind]. eexists _, p, i. split; [done|]. split; [by exists L2, F|]. cbn [mc].
    split; [destruct (evolves_trans _ _ _ _ _ _ _ _ _ _ Ev2 Ev3); split; (done || lia)|]. split; [|by left]. right.
    split_and!; [lia| |done|by rewrite (shape_class _ _ Hsh3), (bare_class _ _ (Hb2 i))]. rewrite <- (ev_held _ _ _ _ _ _ _ Ev1 i) by lia. done.
Qed.

Lemma alloc_slot_in_ok c p0 p os i : ginv c p os -> 1 <= i -> cached (span_at (mc c) i) = true -> kept p0 p \/ ready (span_at (mc c) i) ->
  exists c' a, alloc_slot_in c i = Ok (c', a) /\ evolves (mc c) (mc c') p p os 0 0 /\ sold c' p0 p os (sizeclass (span_at (mc c) i)) a.
Proof.
  intros (L & F & Hg & Hl) Hi Hc Hk. pose proof (cached_active _ _ _ _ _ _ Hg Hi Hc) as Ha. destruct (active_range _ _ _ _ _ _ Hg Ha) as [Hr Hn0].
  unfold alloc_slot_in, NIL_SPAN. rewrite decide_False by done. rewrite get_ok by done. cbn [mbind outcome_bind].
  destruct (next_free_owner_ok _ _ (so_inv _ _ _ (gc_span _ _ _ _ _ Hg i Ha)) Hc) as (s' & r & E & Hsh & Hc' & Hr'). rewrite E. cbn [of_option mbind outcome_bind].
  rewrite put_span_ok by done. cbn [mbind outcome_bind]. eexists _, _. split; [done|]. cbn [mc].
  assert (glists (upd_span (mc c) i s') L F) as Hl' by (apply glists_put; [done|done|done|by eapply links_next_free|congruence]).
  assert (span_at (upd_span (mc c) i s') i = s') as Si by by rewrite span_at_upd, decide_True. split.
  - apply evolves_same; [intros j _|intros j _ _|done|intros j s; by apply (owner_pos _ _ _ _ _ _ _ Hg)]; rewrite span_at_upd; case_decide; subst; congruence.
  - destruct r as [slot|].
    + destruct Hr' as (Hsl & HL & Hinv). apply slots_not in HL. right. exists i, slot. cbn [mc]. rewrite Si. split_and!; [done|by apply shape_class|done|].
      exists L, F. split; [|done]. eapply gcore_put; [done|done|done|by apply owners_sell; [apply Hg|]|]. eapply span_inv_ext; [exact Hinv|]. intros x. apply slots_sell.
    + left. split; [done|]. split; [|destruct Hk as [|Hrd]; [done|]; by pose proof (next_free_ready _ _ _ _ (so_inv _ _ _ (gc_span _ _ _ _ _ Hg i Ha)) Hrd E)].
      exists L, F. split; [|done]. eapply gcore_put; [done|done|done|split; [apply Hg|done|done]|done].
Qed.

Lemma uncacheSpan_ok c p os i : ginv c p os -> 1 <= i -> cached (span_at (mc c) i) = true ->
  exists c' p', uncacheSpan c i = Ok c' /\ ginv c' p' os /\ evolves (mc c) (mc c') p p' os i 0 /\ cached (span_at (mc c') i) = false /\ kept p p'.
Proof.
  intros (L & F & Hg & Hl) Hi Hc. pose proof (cached_active _ _ _ _ _ _ Hg Hi Hc) as Ha. destruct (active_range _ _ _ _ _ _ Hg Ha) as [Hr Hn0].
  unfold uncacheSpan, NIL_SPAN. rewrite decide_False by done. rewrite get_ok by done. cbn [mbind outcome_bind].
  destruct (uncache_span_ok _ _ (so_inv _ _ _ (gc_span _ _ _ _ _ Hg i Ha))) as (s' & E & Hsh & Hc' & Hinv). rewrite E. cbn [of_option mbind outcome_bind].
  rewrite put_span_ok by done. cbn [mbind outcome_bind]. destruct (put_idle _ _ _ _ _ _ _ Hg Ha Hsh Hinv) as [Hg1 Ev1].
  pose proof (loose_put _ _ _ _ s' (held_loose _ _ _ _ Hl Ha Hc) Hsh) as Hlo. assert (span_at (upd_span (mc c) i s') i = s') as Si by by rewrite span_at_upd, decide_True.
  assert (forall m' p', evolves (upd_span (mc c) i s') m' p p' os 0 0 -> evolves (mc c) m' p p' os i 0 /\ cached (span_at m' i) = false) as Hfin.
  { intros m' p' [B1 B2 B3 B4 B5]. destruct Ev1 as [A1 A2 A3 A4 A5]. split; [split; [done| | | |lia]|].
    - intros j s Hj. by rewrite (B2 j s Hj), (A2 j s Hj).
    - intros j Hj Hx. rewrite B3, A3 by (done || lia). done.
    - intros j Hj Hx Hcj. rewrite B4, A4; (done || lia || rewrite A3; (done || lia)).
    - rewrite B3 by lia. by rewrite Si. }
  destruct (is_empty s') eqn:Ee.
  - destruct (release_when_empty false _ _ _ L F os i Hg1 Ha ltac:(by rewrite Si) Hlo ltac:(by rewrite Si)) as (c' & p' & -> & Hinv' & Ev & Hkp). exists c', p'.
    destruct (Hfin _ _ Ev). done.
  - destruct (loose_push (negb (Span.is_full s')) _ _ _ _ _ _ i Hg1 Hlo Ha ltac:(by rewrite Si)) as (m' & L' & E' & Hg' & Hl' & _ & Hb & Hbm).
    assert ((if Span.is_full s' then full_push (upd_span (mc c) i s') i else partial_push (upd_span (mc c) i s') i) = Ok m') as -> by (rewrite <- E'; by destruct (Span.is_full s')).
    cbn [mbind outcome_bind]. eexists _, p. split; [done|]. split; [by exists L', F|]. cbn [mc]. rewrite (assoc and). split; [|done]. apply Hfin. by eapply evolves_bare.
Qed.

(** ** Runs of pages taken directly *)

Lemma page_alloc_ok c p os n : ginv c p os -> 1 <= n <= 2 ^ 50 ->
  (exists h', mheap_alloc_pages (heap c) n = Ok (h', ALLOC_FAILED) /\ ginv (mkCentral (mc c) h') p os /\
     (forall P, 0 <= P -> ~ run (gfree p) P n) /\ room p < chunks_for n) \/
  (exists h' p' P, mheap_alloc_pages (heap c) n = Ok (h', arena_base p + P * 8192) /\ ginv (mkCentral (mc c) h') p' (Big P n :: os) /\ Big P n ∉ os /\
     arena_base p' = arena_base p /\ arena_base p + P * 8192 <> ALLOC_FAILED).
Proof.
  intros (L & F & Hg & Hl) Hn. pose proof (gc_heap _ _ _ _ _ Hg) as Hh. destruct (geo_base _ (inv_geo _ (proj2 Hh))) as (Hab & _ & Hab2).
  destruct (mheap_alloc_pages_ok (heap c) p n Hh Hn) as [(-> & Hno & Hroom)|(p' & g & P & -> & Hp' & T & Hgr)]; [left|right].
  - eexists. split; [done|]. split; [|done]. exists L, F. split; [|done]. cbn [mc heap]. destruct Hg. split; try done. split; [done|apply Hh].
  - assert (0 <= g) as Hg0 by (unfold chunks_for in Hgr; lia). set (h' := mkMheap (Some p') (MHEAP_READY (heap c))). exists h', p', P.
    pose proof (tk_range _ _ _ _ _ T) as HP. pose proof (geo_end _ (inv_geo _ Hp')) as Hge. pose proof (geo_cap _ (inv_geo _ Hp')) as Hgc.
    destruct (gcore_took (mc c) (heap c) h' p p' F os n g P Hg ltac:(done) T Hg0 ltac:(lia)) as [Hg' Hno].
    split; [done|]. split_and!; [by exists L, F|done|apply T|unfold ALLOC_FAILED; lia].
Qed.

Lemma page_free_ok c p os k P n : ginv c p os -> os !! k = Some (Big P n) ->
  exists h' p', mheap_free_pages (heap c) (arena_base p + P * 8192) n = Ok h' /\ ginv (mkCentral (mc c) h') p' (delete k os) /\ arena_base p' = arena_base p /\
    MHEAP h' = Some p' /\ (forall q, P <= q < P + n -> gfree p' q = true).
Proof.
  intros (L & F & Hg & Hl) Hk. pose proof (list_elem_of_lookup_2 _ _ _ Hk) as Ho. destruct (gc_big _ _ _ _ _ Hg P n Ho) as (H1 & H2 & H3 & H4).
  pose proof (gc_heap _ _ _ _ _ Hg) as [Ep Hp]. destruct (free_range_ok p P n Hp H1 H2 H3) as (p' & E & Hp' & [A3 A1 A2] & Hf).
  unfold mheap_free_pages. rewrite Ep, E. cbn [of_option mbind outcome_bind]. eexists _, p'. split; [done|].
  split; [|split_and!; [done|done|intros q Hq; rewrite Hf, (proj2 (in_range_spec P n q) Hq); apply orb_true_r]]. exists L, F. split; [|done]. cbn [mc heap].
  pose proof (gc_nodup _ _ _ _ _ Hg) as Hnd. assert (forall x, x ∈ delete k os <-> x ∈ os /\ x <> Big P n) as Hel by (intros; by apply elem_of_delete_nodup).
  assert (forall q, gfree p q = false -> ~ (P <= q < P + n) -> gfree p' q = false) as Hff.
  { intros q Hq Hr. rewrite Hf, Hq. cbn [orb]. apply not_true_is_false. by rewrite in_range_spec. }
  assert (forall s, pg p' s = pg p s) as Hpg by (intros s; unfold pg; by rewrite A1).
  destruct Hg. split; rewrite ?A1, ?A2, ?A3; try done.
  - intros i Hi. apply (span_ok_owners p' _ (slots os i)).
    + intros x. unfold slots. apply bool_decide_ext. rewrite Hel. naive_solver.
    + destruct (gc_span i Hi). split; rewrite ?Hpg, ?A1, ?A2; done.
  - by apply nodup_delete.
  - intros i s [Hs _]%Hel. by eapply gc_owner.
  - intros q i Hi. rewrite Hpg. by apply gc_pages.
  - intros q i Hi Hq. apply Hff; [by eapply gc_used|]. intros Hr. by apply (H4 q Hr) in Hq.
  - intros P' n' [Ho' Hne]%Hel. destruct (gc_big P' n' Ho') as (B1 & B2 & B3 & B4). split_and!; try done. intros q Hq. destruct (B4 q Hq) as [B5 B6]. split; [|done].
    apply Hff; [done|]. intros Hr. destruct (gc_bigs P' n' P n Ho' Ho Hne); lia.
  - intros P1 n1 P2 n2 [Q1 _]%Hel [Q2 _]%Hel. by apply gc_bigs.
  - intros q Hq. rewrite Hf. intros [Hfq Hr]%orb_false_iff. destruct (gc_noleak q Hq Hfq) as [?|(P' & n' & Hb & Hin)]; [by left|right]. exists P', n'. split; [|done].
    apply Hel. split; [done|]. intros [= -> ->]. apply in_range_spec in Hin. congruence.
Qed.

(** ** Initialisation *)

Lemma replicate_idx {A} (x : A) n i : 0 <= i < n -> idx (replicate (Z.to_nat n) x) i = Some x.
Proof. intros Hi. unfold idx. rewrite decide_True by lia. apply lookup_replicate_2. lia. Qed.

Lemma mcentral_init_ok mmap h p : heap_inv h p -> (forall k, 0 <= k < end_chunk p * 512 -> gfree p k = true) -> 1 <= chunks_capacity p -> mmap (mul64 (mheap_capacity_pages h) 2) <> None ->
  exists c, mcentral_init mmap (mkCentral mcentral_new h) (mheap_arena_base h) = Ok c /\ ginv c p [] /\ heap c = h /\ spans_bump (mc c) = 0 /\
    forall i, cached (span_at (mc c) i) = false.
Proof.
  intros Hh Hfr Hcap Hm. destruct Hh as [Ep Hp]. pose proof (geo_cap _ (inv_geo _ Hp)) as Hgc. destruct (geo_base _ (inv_geo _ Hp)) as (Hab & _ & Hab2).
  assert (mheap_capacity_pages h = chunks_capacity p * 512) as Ec.
  { unfold mheap_capacity_pages, capacity_chunks. rewrite Ep. change (PALLOC_CHUNK_BYTES / PAGE_SIZE) with 512. unfold mul64, wrap64. rewrite Z.mod_small by lia. done. }
  unfold mcentral_init. cbn [heap mc]. rewrite Ec in *. rewrite decide_False by lia. destruct (mmap _); [|done]. eexists. split; [done|].
  split; [|split; [done|split; [done|done]]]. exists (fun _ _ => []), []. cbn [mc heap]. unfold mheap_arena_base. rewrite Ep. split.
  - split; cbn; try done; try (intros; set_solver).
    + intros [] ? ? ?; done.
    + apply base.NoDup_nil_2.
    + intros i [Hi _]. cbn in Hi. lia.
    + apply base.NoDup_nil_2.
    + intros k i Hi. rewrite lookup_empty. split; [done|]. intros [[Ha _] _]. cbn in Ha. lia.
    + intros k Hk Hf. rewrite Hfr in Hf by done. done.
  - split; [split|..]; try done.
    + by intros [].
    + intros b c Hc. destruct b; apply replicate_idx; done.
    + intros _ _. apply base.NoDup_nil_2.
    + intros c i Hi. set_solver.
    + intros b c i Hi. set_solver.
    + intros i (b & c & Hi). set_solver.
    + intros i [Ha _]. cbn in Ha. lia.
Qed.
