(* ===== verification/Malloc.v ===== *)
(** The allocator's entry points: the per-P span caches of src/src/runtime/sched/p.rs and the
    routing of src/src/runtime/heap.rs over [MCentral] and [Heap].

    An entry point is one step: the source masks preemption around it.  [current_p()] is an
    argument, the index of the P, if any.  The sampling hooks of the heap profiler and the
    preemption mask keep state of their own and are left out.  Null is 0. *)
From Stdlib Require Import ZArith Lia.
From stdpp Require Import base tactics numbers list list_numbers option fin_maps gmap.
From S2P Require Import Prelude Outcome MheapConsts PageAlloc Heap SizeClasses Span MCentral.
Open Scope Z_scope.

Record Malloc := mkMalloc {
  central : Central;
  MCENTRAL_READY : bool;
  mcaches : list (list Z);   (* [P::mcache], by P *)
  MALLOCS : Z;
  TOTAL_ALLOC : Z;
  memory : Z -> Z            (* bytes, by address *)
}.

Definition set_central (st : Malloc) (c : Central) : Malloc :=
  mkMalloc c (MCENTRAL_READY st) (mcaches st) (MALLOCS st) (TOTAL_ALLOC st) (memory st).
Definition set_caches (st : Malloc) (l : list (list Z)) : Malloc :=
  mkMalloc (central st) (MCENTRAL_READY st) l (MALLOCS st) (TOTAL_ALLOC st) (memory st).
Definition set_memory (st : Malloc) (f : Z -> Z) : Malloc :=
  mkMalloc (central st) (MCENTRAL_READY st) (mcaches st) (MALLOCS st) (TOTAL_ALLOC st) f.
Definition set_mheap (st : Malloc) (h : Mheap) : Malloc := set_central st (mkCentral (mc (central st)) h).

(** [P::new]'s cache: no span for any class. *)
Definition mcache_new : list Z := replicate (Z.to_nat NUM_SIZE_CLASSES) 0.

(** ** The per-P cache *)

(** [cache[class]] and the store to it. *)
Definition cache_get (st : Malloc) (P : nat) (class : Z) : outcome Z :=
  cache ← of_option (mcaches st !! P); of_option (idx cache class).
Definition cache_set (st : Malloc) (P : nat) (class i : Z) : outcome Malloc :=
  cache ← of_option (mcaches st !! P);
  cache ← of_option (upd cache class i);
  Ok (set_caches st (<[P := cache]> (mcaches st))).

(** The slow path of [mcache_alloc]. *)
Definition mcache_refill (st : Malloc) (P : nat) (class : Z) : outcome (Malloc * Z) :=
  '(c, new_idx) ← cacheSpan (central st) class;
  let st := set_central st c in
  if decide (new_idx = NIL_SPAN) then Ok (st, 0)
  else
    st ← cache_set st P class new_idx;
    '(c, p) ← alloc_slot_in (central st) new_idx;
    Ok (set_central st c, p).

Definition mcache_alloc (st : Malloc) (P : nat) (size align : Z) : outcome (Malloc * Z) :=
  k ← class_for size align;
  match k with
  | None => Ok (st, 0)
  | Some class =>
      if decide (class < 1) then Ok (st, 0)
      else
        idx ← cache_get st P class;
        if decide (idx <> NIL_SPAN) then
          '(c, p) ← alloc_slot_in (central st) idx;
          let st := set_central st c in
          if decide (p <> 0) then Ok (st, p)
          else
            c ← uncacheSpan (central st) idx;
            st ← cache_set (set_central st c) P class NIL_SPAN;
            mcache_refill st P class
        else mcache_refill st P class
  end.

(** [for class in 1..NUM_SIZE_CLASSES] *)
Fixpoint mcache_flush_loop (fuel : nat) (st : Malloc) (P : nat) (class : Z) : outcome Malloc :=
  match fuel with
  | O => Ok st
  | S fuel =>
      idx ← cache_get st P class;
      st ← (if decide (idx <> NIL_SPAN) then
              st ← cache_set st P class NIL_SPAN;
              c ← uncacheSpan (central st) idx;
              Ok (set_central st c)
            else Ok st);
      mcache_flush_loop fuel st P (class + 1)
  end.

Definition mcache_flush (st : Malloc) (P : nat) : outcome Malloc := mcache_flush_loop 67 st P 1.

(** ** Routing *)

(** [mheap_alloc(layout)] and [mheap_free(ptr, layout)] on the whole state. *)
Definition heap_alloc_layout (st : Malloc) (layout : Layout) : outcome (Malloc * Z) :=
  '(h, p) ← mheap_alloc (heap (central st)) layout; Ok (set_mheap st h, p).
Definition heap_free_layout (st : Malloc) (ptr : Z) (layout : Layout) : outcome Malloc :=
  h ← mheap_free (heap (central st)) ptr layout; Ok (set_mheap st h).

Definition count_alloc (st : Malloc) (size : Z) : Malloc :=
  mkMalloc (central st) (MCENTRAL_READY st) (mcaches st) (add64 (MALLOCS st) 1) (add64 (TOTAL_ALLOC st) size) (memory st).

Definition alloc_masked_raw (st : Malloc) (current_p : option nat) (size align : Z) : outcome (Malloc * Z) :=
  let st := count_alloc st size in
  let layout := mkLayout size align in
  if route_to_mheap (heap (central st)) layout then heap_alloc_layout st layout
  else if route_to_mcentral (MCENTRAL_READY st) layout then
    '(st, q) ← match current_p with Some P => mcache_alloc st P size align | None => Ok (st, 0) end;
    if decide (q <> 0) then Ok (st, q)
    else
      '(c, p) ← MCentral.alloc (central st) size align;
      let st := set_central st c in
      if decide (p <> 0) then Ok (st, p) else heap_alloc_layout st layout
  else heap_alloc_layout st layout.

Definition dealloc_routed (st : Malloc) (ptr size align : Z) : outcome Malloc :=
  let layout := mkLayout size align in
  if route_to_mheap (heap (central st)) layout then heap_free_layout st ptr layout
  else
    '(st, owned) ← (if MCENTRAL_READY st then '(c, b) ← MCentral.free (central st) ptr; Ok (set_central st c, b) else Ok (st, false));
    if (owned : bool) then Ok st else heap_free_layout st ptr layout.

(** [heap::free(ptr, size)] *)
Definition heap_free (st : Malloc) (ptr size : Z) : outcome Malloc := dealloc_routed st ptr size 8.

(** [copy_nonoverlapping(src, dst, n)] *)
Definition copy_bytes (f : Z -> Z) (src dst n : Z) : Z -> Z := fun a => if decide (dst <= a < dst + n) then f (src + (a - dst)) else f a.

Definition realloc (st : Malloc) (current_p : option nat) (ptr old_size new_size align : Z) : outcome (Malloc * Z) :=
  '(st, dst) ← alloc_masked_raw st current_p new_size align;
  if decide (dst = 0) then Ok (st, 0)
  else
    let n := Z.min old_size new_size in
    let st := set_memory st (copy_bytes (memory st) ptr dst n) in
    st ← dealloc_routed st ptr old_size align;
    Ok (st, dst).

(** ** Startup *)

(** The allocator part of [__goish_rt0]; [mmap] maps memory for both. *)
Definition malloc_init (mmap : Z -> option Z) (ps : nat) : outcome Malloc :=
  h ← mheap_init mmap (mkMheap None false);
  c ← mcentral_init mmap (mkCentral mcentral_new h) (mheap_arena_base h);
  Ok (mkMalloc c true (replicate ps mcache_new) 0 0 (fun _ => 0)).

(** A run: a small and a large block, the small one grown, both released, the cache flushed. *)
Example malloc_run :
  (p ← of_option (new (2 ^ 22) 1 2);
   c ← mcentral_init (fun _ => Some 4096) (mkCentral mcentral_new (mkMheap (Some p) true)) (2 ^ 22);
   let st := mkMalloc c true [mcache_new] 0 0 (fun _ => 0) in
   '(st, a) ← alloc_masked_raw st (Some 0%nat) 100 8;
   '(st, b) ← alloc_masked_raw st None 100 8;
   '(st, d) ← alloc_masked_raw st (Some 0%nat) 40000 8;
   '(st, e) ← realloc st (Some 0%nat) a 100 200 8;
   st ← dealloc_routed st b 100 8;
   st ← dealloc_routed st d 40000 8;
   st ← dealloc_routed st e 200 8;
   st ← mcache_flush st 0;
   Ok (a - 2 ^ 22, b - 2 ^ 22, d - 2 ^ 22, e - 2 ^ 22, MALLOCS st, live_slots (central st), sys_bytes (heap (central st))))
  = Ok (0, 8192, 16384, 57344, 4, 0, Ok 0).
Proof. vm_compute. reflexivity. Qed.
