(* ===== verification/MallocSpec.v ===== *)
(** The allocator as its clients see it: live blocks never meet, whatever the history. *)
From Stdlib Require Import ZArith Lia.
From stdpp Require Import base tactics numbers list list_numbers option fin_maps gmap.
From S2P Require Import Prelude Outcome Runs MheapConsts PallocBits PageAlloc PageAllocTree PageAllocSpec Heap SizeClasses Span SpanSpec MCentral MCentralLists MCentralSpec MCentralOps Malloc.
Open Scope Z_scope.

(** ** Extents of owners *)

(** The bytes of an owner: its first address and its length. *)
Definition extent (m : MCentral) (p : PageAlloc) (o : owner) : Z * Z :=
  match o with
  | Small i slot => (slot_addr (span_at m i) slot, elemsize (span_at m i))
  | Big P n => (arena_base p + P * 8192, n * 8192)
  end.

Definition apart (e1 e2 : Z * Z) : Prop := e1.1 + e1.2 <= e2.1 \/ e2.1 + e2.2 <= e1.1.

(** The pages of an owner. *)
Lemma extent_pages m h p F os o : gcore m h p F os -> o ∈ os ->
  exists P n, 0 <= P /\ 1 <= n /\ P + n <= end_chunk p * 512 /\
    arena_base p + P * 8192 <= (extent m p o).1 /\ (extent m p o).1 + (extent m p o).2 <= arena_base p + (P + n) * 8192 /\ 8 <= (extent m p o).2 /\
    forall k, P <= k < P + n -> match o with Small i _ => page_to_span m !! k = Some i | Big _ _ => forall i, i <> 0 -> page_to_span m !! k <> Some i end.
Proof.
  intros Hg Ho. destruct o as [i slot|P n].
  - pose proof (gc_owner _ _ _ _ _ Hg _ _ Ho) as Hi. pose proof (gc_span _ _ _ _ _ Hg i Hi) as So. pose proof (so_elem _ _ _ So) as He.
    destruct (slot_addr_ok m h p F os i slot Hg Hi) as (Ea & _ & Hr & _); [apply (sp_live _ _ (so_inv _ _ _ So)); by apply slots_elem|].
    pose proof (so_pages _ _ _ So) as Hpg. pose proof (so_npages _ _ _ So) as Hnp. destruct (active_range _ _ _ _ _ _ Hg Hi) as [_ Hi0].
    assert (0 <= slot * elemsize (span_at m i)) as H0 by (apply slots_elem in Ho; apply (sp_live _ _ (so_inv _ _ _ So)) in Ho; nia).
    exists (pg p (span_at m i)), (npages (span_at m i)). cbn [extent fst snd]. split_and!; try lia. intros k Hk. by apply (gc_pages _ _ _ _ _ Hg k i Hi0).
  - destruct (gc_big _ _ _ _ _ Hg P n Ho) as (H1 & H2 & H3 & H4). exists P, n. cbn [extent fst snd]. split_and!; try lia. intros k Hk. by apply H4.
Qed.

Lemma extents_apart m h p F os o o' : gcore m h p F os -> o ∈ os -> o' ∈ os -> o <> o' -> apart (extent m p o) (extent m p o').
Proof.
  intros Hg Ho Ho' Hne. assert (forall i slot slot', o = Small i slot -> o' = Small i slot' -> apart (extent m p o) (extent m p o')) as Hsame.
  { intros i slot slot' -> ->. pose proof (gc_owner _ _ _ _ _ Hg _ _ Ho) as Hi. pose proof (gc_span _ _ _ _ _ Hg i Hi) as So. pose proof (so_elem _ _ _ So) as He.
    apply slots_elem in Ho, Ho'. destruct (slot_addr_ok m h p F os i slot Hg Hi (sp_live _ _ (so_inv _ _ _ So) _ Ho)) as (E1 & _).
    destruct (slot_addr_ok m h p F os i slot' Hg Hi (sp_live _ _ (so_inv _ _ _ So) _ Ho')) as (E2 & _). unfold apart. cbn [extent fst snd]. rewrite E1, E2.
    assert (slot <> slot') by congruence. destruct (decide (slot < slot')); [left|right]; nia. }
  assert (forall P n P' n', o = Big P n -> o' = Big P' n' -> apart (extent m p o) (extent m p o')) as Hbig.
  { intros P n P' n' -> ->. unfold apart. cbn [extent fst snd]. destruct (gc_bigs _ _ _ _ _ Hg P n P' n' Ho Ho' Hne); [left|right]; lia. }
  destruct (extent_pages _ _ _ _ _ _ Hg Ho) as (P & n & HP & Hn & He & H1 & H2 & H3 & Hk), (extent_pages _ _ _ _ _ _ Hg Ho') as (P' & n' & HP' & Hn' & He' & H1' & H2' & H3' & Hk').
  destruct (decide (P + n <= P')); [left; lia|]. destruct (decide (P' + n' <= P)); [right; lia|].
  specialize (Hk (Z.max P P') ltac:(lia)). specialize (Hk' (Z.max P P') ltac:(lia)).
  destruct o as [i slot|], o' as [i' slot'|]; [|exfalso..|]; [|eapply Hk'; [|exact Hk]|eapply Hk; [|exact Hk']|by eapply Hbig].
  - rewrite Hk in Hk'. injection Hk' as <-. by eapply Hsame.
  - by destruct (active_range _ _ _ _ _ _ Hg (gc_owner _ _ _ _ _ Hg _ _ Ho)).
  - by destruct (active_range _ _ _ _ _ _ Hg (gc_owner _ _ _ _ _ Hg _ _ Ho')).
Qed.

(** ** Blocks *)

(** What a client holds: a pointer and the layout it asked for. *)
Record block := mkBlock { b_ptr : Z; b_size : Z; b_align : Z }.

Definition block_of (m : MCentral) (p : PageAlloc) (b : block) (o : owner) : Prop :=
  b_ptr b = (extent m p o).1 /\ b_size b <= (extent m p o).2 /\
  match o with
  | Small i slot => b_size b <= LARGE_THRESHOLD /\ (b_align b <= 128 -> b_ptr b mod b_align b = 0)
  | Big P n => n = pages_for (Z.max (b_size b) (b_align b))
  end.

Lemma block_evolves m m' p p' os x d b o : evolves m m' p p' os x d -> o ∈ os -> block_of m p b o -> block_of m' p' b o.
Proof.
  intros Ev Ho. unfold block_of. assert (extent m' p' o = extent m p o) as ->; [|done]. destruct o as [i slot|P n]; cbn [extent].
  - pose proof (ev_shape _ _ _ _ _ _ _ Ev i slot Ho) as Hs. rewrite (slot_addr_shape _ _ _ Hs). unfold shape in Hs. congruence.
  - by rewrite (ev_base _ _ _ _ _ _ _ Ev).
Qed.

Lemma blocks_evolve m m' p p' os x d live : evolves m m' p p' os x d -> Forall2 (block_of m p) live os -> Forall2 (block_of m' p') live os.
Proof.
  intros Ev H. apply Forall2_same_length_lookup in H as [Hl H]. apply Forall2_same_length_lookup. split; [done|]. intros i b o Hb Ho.
  eapply block_evolves; [exact Ev|by eapply list_elem_of_lookup_2|by eapply H].
Qed.

(** ** The caches of the Ps *)

Definition entry (l : list (list Z)) (P : nat) (class : Z) : option Z := cache ← l !! P; idx cache class.

(** The spans in the caches are exactly the cached ones, each in one place, under its class. *)
Record caches_ok (m : MCentral) (l : list (list Z)) : Prop := {
  ca_len : forall P cache, l !! P = Some cache -> zlen cache = NUM_SIZE_CLASSES;
  ca_held : forall P c i, entry l P c = Some i -> i <> 0 -> 1 <= i /\ cached (span_at m i) = true /\ sizeclass (span_at m i) = c;
  ca_once : forall P P' c c' i, entry l P c = Some i -> entry l P' c' = Some i -> i <> 0 -> P = P' /\ c = c';
  ca_all : forall i, 1 <= i -> cached (span_at m i) = true -> exists P c, entry l P c = Some i
}.

Record malloc_inv (st : Malloc) (p : PageAlloc) (os : list owner) : Prop := {
  mi_central : ginv (central st) p os;
  mi_ready : MCENTRAL_READY st = true;
  mi_caches : caches_ok (mc (central st)) (mcaches st)
}.

Lemma caches_evolve m m' p p' os d l : evolves m m' p p' os 0 d -> caches_ok m l -> caches_ok m' l.
Proof.
  intros Ev [H1 H2 H3 H4]. split; [done| |done|].
  - intros P c i He Hi. destruct (H2 P c i He Hi) as (Hi1 & Hc & Hcl). split_and!; [done|by rewrite (ev_held _ _ _ _ _ _ _ Ev) by (done || lia)|].
    by rewrite (shape_class _ _ (ev_kept _ _ _ _ _ _ _ Ev i Hi1 ltac:(lia) Hc)).
  - intros i Hi Hc. apply H4; [done|]. by rewrite <- (ev_held _ _ _ _ _ _ _ Ev) by (done || lia).
Qed.

Lemma entry_range m l P c : caches_ok m l -> (P < length l)%nat -> 0 <= c < NUM_SIZE_CLASSES -> exists i, entry l P c = Some i.
Proof.
  intros Hc HP Hr. destruct (lookup_lt_is_Some_2 l P HP) as [cache E]. unfold entry. rewrite E. cbn [mbind option_bind].
  pose proof (ca_len _ _ Hc P cache E) as Hl. unfold idx. rewrite decide_True by lia. apply lookup_lt_is_Some_2. unfold zlen in Hl. lia.
Qed.

Lemma cache_get_entry st P c i : entry (mcaches st) P c = Some i -> cache_get st P c = Ok i.
Proof. unfold entry, cache_get. destruct (mcaches st !! P) as [cache|]; [|done]. cbn. by intros ->. Qed.

(** One entry of one cache changes. *)
Record entry_set (l l' : list (list Z)) (P : nat) (c i : Z) : Prop := {
  es_len : length l' = length l;
  es_lens : (forall Q cache, l !! Q = Some cache -> zlen cache = NUM_SIZE_CLASSES) -> forall Q cache, l' !! Q = Some cache -> zlen cache = NUM_SIZE_CLASSES;
  es_entry : forall Q d, entry l' Q d = if decide (Q = P /\ d = c) then Some i else entry l Q d
}.

Lemma cache_set_ok st P c i j : entry (mcaches st) P c = Some j ->
  exists l', cache_set st P c i = Ok (set_caches st l') /\ entry_set (mcaches st) l' P c i.
Proof.
  unfold entry, cache_set. destruct (mcaches st !! P) as [cache|] eqn:E; [|done]. cbn [mbind option_bind of_option outcome_bind]. intros Ej.
  assert (0 <= c < zlen cache) as Hc by (unfold idx in Ej; case_decide; [|done]; apply lookup_lt_Some in Ej; unfold zlen; lia).
  unfold upd. rewrite decide_True by (unfold zlen in *; lia). cbn [of_option mbind outcome_bind]. eexists. split; [done|]. split.
  - by rewrite length_insert.
  - intros Hl Q cache'. destruct (decide (Q = P)) as [->|HQ]; [|rewrite list_lookup_insert_ne by done; apply Hl].
    rewrite list_lookup_insert_eq by (by eapply lookup_lt_Some). intros [= <-]. rewrite zlen_insert. by apply (Hl P).
  - intros Q d. unfold entry. destruct (decide (Q = P)) as [->|HQ].
    + rewrite list_lookup_insert_eq by (by eapply lookup_lt_Some). rewrite E. cbn [mbind option_bind].
      destruct (decide (d = c)) as [->|Hd]; [rewrite decide_True by done|rewrite decide_False by tauto].
      * unfold idx. rewrite decide_True by lia. apply list_lookup_insert_eq. unfold zlen in Hc. lia.
      * unfold idx. case_decide; [|done]. apply list_lookup_insert_ne. lia.
    + rewrite list_lookup_insert_ne by done. by rewrite decide_False by tauto.
Qed.

(** The P gives its span of class [c] back. *)
Lemma caches_drop m m' p p' os l l' P c i : caches_ok m l -> entry l P c = Some i -> i <> 0 -> entry_set l l' P c 0 -> evolves m m' p p' os i 0 ->
  cached (span_at m' i) = false -> caches_ok m' l'.
Proof.
  intros [H1 H2 H3 H4] Ei Hi [E1 E2 E3] Ev Hc'. split.
  - by apply E2.
  - intros Q d j. rewrite E3. destruct (decide (Q = P /\ d = c)) as [|Hne]; [congruence|]. intros Ej Hj.
    assert (j <> i) as Hji by (intros ->; apply Hne; by apply (H3 Q P d c i)). destruct (H2 Q d j Ej Hj) as (Hj1 & Hc & Hcl).
    split_and!; [done|by rewrite (ev_held _ _ _ _ _ _ _ Ev j)|]. by rewrite (shape_class _ _ (ev_kept _ _ _ _ _ _ _ Ev j Hj1 Hji Hc)).
  - intros Q Q' d d' j. rewrite !E3. destruct (decide (Q = P /\ d = c)); [congruence|]. destruct (decide (Q' = P /\ d' = c)); [congruence|]. apply H3.
  - intros j Hj Hc. assert (j <> i) as Hji by congruence. rewrite (ev_held _ _ _ _ _ _ _ Ev j) in Hc by done. destruct (H4 j Hj Hc) as (Q & d & Ej). exists Q, d.
    rewrite E3, decide_False; [done|]. intros [-> ->]. congruence.
Qed.

(** The P keeps the span [cacheSpan] gave it. *)
Lemma caches_add m m' p p' os l l' P c i : caches_ok m l -> entry l P c = Some 0 -> i <> 0 -> entry_set l l' P c i -> evolves m m' p p' os i 1 ->
  lent m m' c i -> caches_ok m' l'.
Proof.
  intros [H1 H2 H3 H4] Ei Hi [E1 E2 E3] Ev [?|(Hi1 & Hc & Hc' & Hcl)]; [done|]. assert (forall Q d, entry l Q d <> Some i) as Hno.
  { intros Q d Ej. destruct (H2 Q d i Ej Hi) as (_ & ? & _). congruence. }
  split.
  - by apply E2.
  - intros Q d j. rewrite E3. destruct (decide (Q = P /\ d = c)) as [[-> ->]|Hne]; [intros [= <-]; done|]. intros Ej Hj.
    assert (j <> i) as Hji by (intros ->; by apply (Hno Q d)). destruct (H2 Q d j Ej Hj) as (Hj1 & Hcj & Hclj).
    split_and!; [done|by rewrite (ev_held _ _ _ _ _ _ _ Ev j)|]. by rewrite (shape_class _ _ (ev_kept _ _ _ _ _ _ _ Ev j Hj1 Hji Hcj)).
  - intros Q Q' d d' j. rewrite !E3. destruct (decide (Q = P /\ d = c)) as [[-> ->]|], (decide (Q' = P /\ d' = c)) as [[-> ->]|]; [done| | |apply H3].
    + intros [= <-] Ej. by destruct (Hno Q' d').
    + intros Ej [= <-]. by destruct (Hno Q d).
  - intros j Hj Hcj. destruct (decide (j = i)) as [->|Hji]; [exists P, c; by rewrite E3, decide_True|]. rewrite (ev_held _ _ _ _ _ _ _ Ev j) in Hcj by done.
    destruct (H4 j Hj Hcj) as (Q & d & Ej). exists Q, d. rewrite E3, decide_False; [done|]. intros [-> ->]. rewrite Ei in Ej. injection Ej. lia.
Qed.

(** ** Operations on blocks *)

(** The allocator is right and the client holds [live]. *)
Definition holds (st : Malloc) (live : list block) : Prop :=
  exists p os, malloc_inv st p os /\ Forall2 (block_of (mc (central st)) p) live os.

(** The same, and no page that was free in [p0] has been taken. *)
Definition holds_from (p0 : PageAlloc) (st : Malloc) (live : list block) : Prop :=
  exists p os, malloc_inv st p os /\ Forall2 (block_of (mc (central st)) p) live os /\ kept p0 p.

(** What an allocation of [b] did since [p0]: it took nothing at all, or it has the block. *)
Definition served (p0 : PageAlloc) (st : Malloc) (live : list block) (b : block) : Prop :=
  (b_ptr b = 0 /\ holds_from p0 st live) \/ (b_ptr b <> 0 /\ holds st (b :: live)).

(** What a call leaves beside the spans; [d] bounds the new entries of the span table. *)
Record quiet (st st' : Malloc) (d : Z) : Prop := {
  qu_memory : memory st' = memory st;
  qu_caches : length (mcaches st') = length (mcaches st);
  qu_bump : spans_bump (mc (central st')) <= spans_bump (mc (central st)) + d
}.

Lemma quiet_trans st1 st2 st3 d e : quiet st1 st2 d -> quiet st2 st3 e -> quiet st1 st3 (d + e).
Proof. intros [A1 A2 A3] [B1 B2 B3]. split; [congruence|congruence|lia]. Qed.

(** The request is one that a size class serves. *)
Record small_request (size k cl : Z) : Prop := {
  sr_size : 0 <= size <= LARGE_THRESHOLD;
  sr_align : 0 <= k <= 60;
  sr_class : class_for size (2 ^ k) = Ok (Some cl)
}.

Lemma small_class_ok size k cl : small_request size k cl -> 1 <= cl < NUM_SIZE_CLASSES /\ exists sz, idx SIZE_OF_CLASS cl = Some sz /\ size <= sz /\
  (2 ^ k <= 128 -> forall base i, base mod 8192 = 0 -> (base + i * sz) mod 2 ^ k = 0).
Proof.
  intros [Hs Hk Hc]. unfold LARGE_THRESHOLD in Hs. pose proof (class_for_spec size k ltac:(lia) Hk) as H. cbn zeta in H. destruct (decide _); [congruence|].
  destruct H as (c & s & E & (Hr & Hsz & _) & Hle & Hal). rewrite E in Hc. injection Hc as ->. split; [done|]. by exists s.
Qed.

Lemma small_block m h p F os i slot size k : gcore m h p F os -> Small i slot ∈ os -> small_request size k (sizeclass (span_at m i)) ->
  block_of m p (mkBlock (slot_addr (span_at m i) slot) size (2 ^ k)) (Small i slot) /\ slot_addr (span_at m i) slot <> 0.
Proof.
  intros Hg Ho Hreq. pose proof (gc_owner _ _ _ _ _ Hg _ _ Ho) as Hi. pose proof (gc_span _ _ _ _ _ Hg i Hi) as So. pose proof (gc_heap _ _ _ _ _ Hg) as [_ Hp].
  destruct (small_class_ok _ _ _ Hreq) as (_ & sz & Esz & Hsz & Hal). rewrite (so_size _ _ _ So) in Esz. injection Esz as <-.
  apply slots_elem in Ho. pose proof (sp_live _ _ (so_inv _ _ _ So) slot Ho) as Hsl. destruct (slot_addr_ok m h p F os i slot Hg Hi Hsl) as (Ea & _ & _ & _ & _).
  destruct (geo_base _ (inv_geo _ Hp)) as (Hab & Hab1 & _). pose proof (so_pages _ _ _ So) as Hpg. pose proof (so_elem _ _ _ So) as He.
  split; [|rewrite Ea; nia]. unfold block_of. cbn [b_ptr b_size b_align extent fst snd]. split_and!; [done|done|apply Hreq|].
  intros Hk. rewrite Ea. apply Hal; [done|]. lia.
Qed.

Lemma sold_served st p0 p os live size k cl a : sold (central st) p0 p os cl a -> MCENTRAL_READY st = true -> caches_ok (mc (central st)) (mcaches st) ->
  Forall2 (block_of (mc (central st)) p) live os -> small_request size k cl -> served p0 st live (mkBlock a size (2 ^ k)).
Proof.
  intros [(-> & Hg & Hk)|(i & slot & -> & Hcl & Hno & Hg)] Hr Hc Hb Hreq; [left; split; [done|]; by exists p, os|right]. cbn [b_ptr].
  destruct Hg as (L & F & Hg & Hl). rewrite <- Hcl in Hreq. destruct (small_block _ _ _ _ _ i slot size k Hg ltac:(by left) Hreq) as [Hblk Hnz]. split; [done|].
  exists p, (Small i slot :: os). split; [split; [by exists L, F|done|done]|]. by constructor.
Qed.

(** The fast path: a slot of the P's own span. *)
Lemma alloc_held st p0 p os live P size k cl i : malloc_inv st p os -> Forall2 (block_of (mc (central st)) p) live os -> entry (mcaches st) P cl = Some i -> i <> 0 ->
  small_request size k cl -> kept p0 p \/ ready (span_at (mc (central st)) i) ->
  exists c a, alloc_slot_in (central st) i = Ok (c, a) /\ served p0 (set_central st c) live (mkBlock a size (2 ^ k)) /\ quiet st (set_central st c) 0 /\
    (a = 0 -> malloc_inv (set_central st c) p os /\ Forall2 (block_of (mc c) p) live os).
Proof.
  intros [Hg Hr Hc] Hb He Hi Hreq Hk. destruct (ca_held _ _ Hc P cl i He Hi) as (Hi1 & Hcd & Hcl).
  destruct (alloc_slot_in_ok _ p0 _ _ i Hg Hi1 Hcd Hk) as (c & a & E & Ev & Hs). rewrite Hcl in Hs. exists c, a. split; [done|].
  pose proof (blocks_evolve _ _ _ _ _ _ _ _ Ev Hb) as Hb'. pose proof (caches_evolve _ _ _ _ _ _ _ Ev Hc) as Hc'.
  split; [by apply (sold_served (set_central st c) p0 p os live size k cl)|]. split; [split; try done; apply Ev|]. intros ->. split; [|done].
  split; [|done|done]. destruct Hs as [(_ & Hs & _)|(j & slot & Ea & Hclj & Hno & L & F & Hg' & _)]; [done|].
  rewrite <- Hclj in Hreq. by destruct (small_block _ _ _ _ _ j slot size k Hg' ltac:(by left) Hreq).
Qed.

Lemma refill_served st p0 p os live P size k cl : malloc_inv st p os -> kept p0 p -> Forall2 (block_of (mc (central st)) p) live os -> entry (mcaches st) P cl = Some 0 ->
  small_request size k cl -> spans_bump (mc (central st)) + 1 < MAX_SPANS ->
  exists st' a, mcache_refill st P cl = Ok (st', a) /\ served p0 st' live (mkBlock a size (2 ^ k)) /\ quiet st st' 1.
Proof.
  intros [Hg Hr Hc] Hk Hb He Hreq Hbm. destruct (small_class_ok _ _ _ Hreq) as (Hcl & _). unfold mcache_refill.
  destruct (cacheSpan_ok _ _ _ cl Hg Hcl Hbm) as (c & p' & i & -> & Hg' & Ev & Hlent & Hrd). cbn [mbind outcome_bind]. unfold NIL_SPAN.
  pose proof (blocks_evolve _ _ _ _ _ _ _ _ Ev Hb) as Hb'. destruct (decide (i = 0)) as [->|Hi].
  - exists (set_central st c), 0. split; [done|]. split; [|split; try done; apply Ev]. left. split; [done|]. exists p', os.
    split_and!; [split; [done|done|by eapply caches_evolve]|done|]. destruct Hrd as [|[? _]]; [by etrans|done].
  - destruct (cache_set_ok (set_central st c) P cl i 0 He) as (l' & -> & Es). cbn [mbind outcome_bind]. set (st1 := set_caches (set_central st c) l').
    assert (malloc_inv st1 p' os) as Hinv by (split; [done|done|by eapply caches_add]).
    destruct (alloc_held st1 p0 p' os live P size k cl i Hinv Hb') as (c2 & a & E & Hsv & Q & _); [cbn; by rewrite (es_entry _ _ _ _ _ Es), decide_True|done|done| |].
    { destruct Hrd as [|[_ ?]]; [left; by etrans|by right]. }
    change (central st1) with c in E. cbn [central st1 set_caches set_central]. rewrite E. cbn [mbind outcome_bind]. eexists _, a. split; [done|]. split; [exact Hsv|].
    apply (quiet_trans st st1 _ 1 0); [|exact Q]. split; [done|apply Es|apply Ev].
Qed.

Lemma drop_held st p os live P cl i : malloc_inv st p os -> Forall2 (block_of (mc (central st)) p) live os -> entry (mcaches st) P cl = Some i -> i <> 0 ->
  exists c p' l, uncacheSpan (central st) i = Ok c /\ (forall st', mcaches st' = mcaches st -> cache_set st' P cl NIL_SPAN = Ok (set_caches st' l)) /\
    let st' := set_caches (set_central st c) l in
    malloc_inv st' p' os /\ Forall2 (block_of (mc (central st')) p') live os /\ quiet st st' 0 /\ entry_set (mcaches st) l P cl 0 /\ kept p p'.
Proof.
  intros [Hg Hr Hc] Hb He Hi. destruct (ca_held _ _ Hc P cl i He Hi) as (Hi1 & Hcd & _). destruct (uncacheSpan_ok _ _ _ i Hg Hi1 Hcd) as (c & p' & E & Hg' & Ev & Hcd' & Hk).
  destruct (cache_set_ok st P cl 0 i He) as (l & El & Es). exists c, p', l. split; [done|]. split.
  { intros st' E'. revert El. unfold cache_set. rewrite E'. destruct (mcaches st !! P); [|done]. cbn [of_option mbind outcome_bind]. destruct (upd _ _ _); [|done].
    cbn [of_option mbind outcome_bind]. intros [= El]. by rewrite El. }
  split; [split; [done|done|by eapply caches_drop]|]. split; [by eapply blocks_evolve|]. split; [|done]. split; [done|apply Es|]. cbn. pose proof (ev_bump _ _ _ _ _ _ _ Ev). lia.
Qed.

Lemma mcache_alloc_ok st p0 live P size k : holds_from p0 st live -> (P < length (mcaches st))%nat -> 0 <= size <= LARGE_THRESHOLD -> 0 <= k <= 60 ->
  spans_bump (mc (central st)) + 1 < MAX_SPANS ->
  exists st' a, mcache_alloc st P size (2 ^ k) = Ok (st', a) /\ served p0 st' live (mkBlock a size (2 ^ k)) /\ quiet st st' 1.
Proof.
  intros (p & os & Hinv & Hb & Hkp) HP Hs Hk Hbm. unfold mcache_alloc. pose proof (class_for_spec size k ltac:(unfold LARGE_THRESHOLD in *; lia) Hk) as Hcl. cbn zeta in Hcl.
  assert (quiet st st 1) as Hq by (split; (done || lia)).
  destruct (decide (round_up size (2 ^ k) > MAX_SMALL_SIZE)) as [_|_].
  { rewrite Hcl. cbn [mbind outcome_bind]. exists st, 0. split_and!; [done|left; split; [done|by exists p, os]|done]. }
  destruct Hcl as (cl & sz & E & (Hcr & _) & _). rewrite E. cbn [mbind outcome_bind]. rewrite decide_False by lia.
  assert (small_request size k cl) as Hreq by done. destruct (entry_range _ _ P cl (mi_caches _ _ _ Hinv) HP ltac:(lia)) as [i Ei].
  rewrite (cache_get_entry _ _ _ _ Ei). cbn [mbind outcome_bind]. unfold NIL_SPAN at 1. destruct (decide (i = 0)) as [->|Hi].
  - rewrite decide_False by (by intros H; apply H). by apply (refill_served st p0 p os).
  - rewrite decide_True by done. destruct (alloc_held st p0 p os live P size k cl i Hinv Hb Ei Hi Hreq ltac:(by left)) as (c & a & -> & Hsv & Q1 & Hnil). cbn [mbind outcome_bind].
    destruct (decide (a = 0)) as [->|Ha].
    + rewrite decide_False by (by intros H; apply H). destruct (Hnil eq_refl) as [Hinv1 Hb1].
      destruct (drop_held _ p os live P cl i Hinv1 Hb1 Ei Hi) as (c2 & p2 & l & -> & El & Hinv2 & Hb2 & Q2 & Es & Hkp2). cbn [mbind outcome_bind].
      rewrite (El (set_central (set_central st c) c2)) by done. cbn [mbind outcome_bind].
      destruct (refill_served _ p0 p2 os live P size k cl Hinv2 ltac:(by etrans) Hb2) as (st' & a & Er & Hsv' & Q3).
      { cbn. by rewrite (es_entry _ _ _ _ _ Es), decide_True. } { done. } { pose proof (qu_bump _ _ _ Q1). pose proof (qu_bump _ _ _ Q2). cbn in *. lia. }
      exists st', a. split; [exact Er|]. split; [done|]. exact (quiet_trans _ _ _ _ _ (quiet_trans _ _ _ _ _ Q1 Q2) Q3).
    + rewrite decide_True by done. exists (set_central st c), a. split_and!; [done|done|]. destruct Q1. split; (done || lia).
Qed.

(** ** [mcache_flush] *)

Lemma flush_loop_ok live P : forall fuel st cl, holds st live -> (P < length (mcaches st))%nat -> 0 <= cl -> cl + Z.of_nat fuel <= NUM_SIZE_CLASSES ->
  exists st', mcache_flush_loop fuel st P cl = Ok st' /\ holds st' live /\ quiet st st' 0 /\
    (forall d, cl <= d < cl + Z.of_nat fuel -> entry (mcaches st') P d = Some 0) /\ (forall Q d, Q <> P \/ d < cl -> entry (mcaches st') Q d = entry (mcaches st) Q d).
Proof.
  induction fuel as [|fuel IH]; intros st cl Hh HP H0 Hle; cbn [mcache_flush_loop].
  { exists st. split; [done|]. split; [done|]. split; [split; (done || lia)|]. split; [lia|done]. }
  destruct Hh as (p & os & Hinv & Hb). destruct (entry_range _ _ P cl (mi_caches _ _ _ Hinv) HP ltac:(lia)) as [i Ei]. rewrite (cache_get_entry _ _ _ _ Ei).
  cbn [mbind outcome_bind]. unfold NIL_SPAN at 1. destruct (decide (i = 0)) as [->|Hi].
  - rewrite decide_False by (by intros H; apply H). cbn [mbind outcome_bind].
    destruct (IH st (cl + 1) ltac:(by exists p, os) HP ltac:(lia) ltac:(lia)) as (st' & E & Hh' & Q & Hz & Hoth). exists st'. split_and!; try done.
    + intros d Hd. destruct (decide (d = cl)) as [->|]; [|apply Hz; lia]. rewrite Hoth by lia. done.
    + intros R d Hd. apply Hoth. lia.
  - rewrite decide_True by done. destruct (drop_held st p os live P cl i Hinv Hb Ei Hi) as (c & p' & l & Eu & El & Hinv' & Hb' & Q & Es & _).
    rewrite (El st) by done. cbn [mbind outcome_bind]. change (central (set_caches st l)) with (central st). rewrite Eu. cbn [mbind outcome_bind].
    change (set_central (set_caches st l) c) with (set_caches (set_central st c) l).
    destruct (IH (set_caches (set_central st c) l) (cl + 1)) as (st' & E & Hh' & Q' & Hz & Hoth); [by exists p', os|cbn; by rewrite (es_len _ _ _ _ _ Es)|lia|lia|].
    exists st'. split_and!; [done|done|exact (quiet_trans _ _ _ _ _ Q Q')| |].
    + intros d Hd. destruct (decide (d = cl)) as [->|]; [|apply Hz; lia]. rewrite Hoth by lia. cbn. by rewrite (es_entry _ _ _ _ _ Es), decide_True.
    + intros R d Hd. rewrite Hoth by lia. cbn. rewrite (es_entry _ _ _ _ _ Es), decide_False; [done|]. intros [-> ->]. destruct Hd; [done|lia].
Qed.

(** ** Allocation *)

(** In the page heap of [st] no run of [n] pages is free and the arena cannot grow by [n] pages. *)
Definition exhausted (st : Malloc) (n : Z) : Prop :=
  exists p, MHEAP (heap (central st)) = Some p /\ (forall P, 0 <= P -> ~ run (gfree p) P n) /\ room p < chunks_for n.

(** What is not there after a call that took no page was not there before it. *)
Lemma kept_exhausted p p' n : kept p p' -> (forall P, 0 <= P -> ~ run (gfree p') P n) -> room p' < chunks_for n ->
  (forall P, 0 <= P -> ~ run (gfree p) P n) /\ room p < chunks_for n.
Proof.
  intros [[A1 A2 A3] Hk] Hno Hroom. unfold room in *. rewrite A1, A3 in Hroom. split; [|done]. intros P HP HR. apply (Hno P HP). intros k Hin. by apply Hk, HR.
Qed.

(** Sizes and alignments of a request; [LAYOUT_MAX] leaves the arithmetic of pages free of wraps. *)
Definition LAYOUT_MAX : Z := 2 ^ 60.
Definition sane_request (size k : Z) : Prop := 0 <= size <= LAYOUT_MAX /\ 0 <= k <= 60.

Lemma page_layout st p0 live size k : holds_from p0 st live -> sane_request size k -> let n := pages_for (Z.max size (2 ^ k)) in
  (heap_alloc_layout st (mkLayout size (2 ^ k)) = Exit 2 /\ (forall P, 0 <= P -> ~ run (gfree p0) P n) /\ room p0 < chunks_for n) \/
  exists st' a, heap_alloc_layout st (mkLayout size (2 ^ k)) = Ok (st', a) /\ a <> 0 /\ holds st' (mkBlock a size (2 ^ k) :: live) /\ quiet st st' 0.
Proof.
  intros (p & os & [Hg Hr Hc] & Hb & Hkp) [Hs Hk] n. unfold LAYOUT_MAX in Hs. assert (1 <= 2 ^ k <= 2 ^ 60) as H2 by (split; [|apply Z.pow_le_mono_r; lia]; pose proof (Z.pow_pos_nonneg 2 k); lia).
  assert (n = (Z.max size (2 ^ k) + 8191) / 8192) as En by (apply pages_for_ok; lia). assert (1 <= n <= 2 ^ 50 /\ size <= n * 8192) as [Hn Hsn] by lia.
  unfold heap_alloc_layout, mheap_alloc. cbn [layout_size layout_align]. fold n.
  destruct (page_alloc_ok _ p os n Hg Hn) as [(h' & -> & Hg' & Hno & Hroom)|(h' & p' & P & -> & Hg' & Hno & Hab & Hnf)]; cbn [mbind outcome_bind]; [left|right].
  - rewrite decide_True by done. split; [done|]. by eapply kept_exhausted.
  - rewrite decide_False by done. cbn [mbind outcome_bind]. eexists _, _. split; [done|].
    assert (evolves (mc (central st)) (mc (central st)) p p' os 0 0) as Ev by (split; (done || lia)).
    destruct (Hg') as (L & F & Hgc & _). destruct (gc_big _ _ _ _ _ Hgc P n ltac:(by left)) as (HP & _). destruct (gc_heap _ _ _ _ _ Hgc) as [_ Hp']. destruct (geo_base _ (inv_geo _ Hp')) as (Hab' & _).
    split; [lia|]. split; [|split; (done || cbn; lia)]. exists p', (Big P n :: os). split; [split; [done|done|exact Hc]|]. constructor; [|by eapply blocks_evolve].
    unfold block_of. cbn [b_ptr b_size b_align extent fst snd]. rewrite Hab. split_and!; (done || lia).
Qed.

(** A request too large for any span fails whenever the pages are exhausted. *)
Lemma large_exhausted st live cur size k : holds st live -> sane_request size k -> LARGE_THRESHOLD < size ->
  exhausted st (pages_for (Z.max size (2 ^ k))) -> alloc_masked_raw st cur size (2 ^ k) = Exit 2.
Proof.
  intros (p & os & [(L & F & Hg & _) _ _] & _) [Hs Hk] Hlt (p' & Ep & Hno & Hroom). unfold LAYOUT_MAX in Hs. pose proof (gc_heap _ _ _ _ _ Hg) as Hh.
  rewrite (proj1 Hh) in Ep. injection Ep as <-. assert (1 <= 2 ^ k <= 2 ^ 60) as H2 by (split; [|apply Z.pow_le_mono_r; lia]; pose proof (Z.pow_pos_nonneg 2 k); lia).
  set (n := pages_for (Z.max size (2 ^ k))) in *. assert (n = (Z.max size (2 ^ k) + 8191) / 8192) as En by (apply pages_for_ok; lia). assert (1 <= n <= 2 ^ 50) as Hn by lia.
  assert (heap_alloc_layout (count_alloc st size) (mkLayout size (2 ^ k)) = Exit 2) as Ex.
  { unfold heap_alloc_layout, mheap_alloc. cbn [layout_size layout_align central count_alloc]. fold n.
    destruct (mheap_alloc_pages_ok (heap (central st)) p n Hh Hn) as [(-> & _)|(p' & g & P & _ & _ & T & [[_ R]|[_ Hg']])]; [done| |lia].
    destruct (Hno P); [apply T|done]. }
  unfold alloc_masked_raw. cbn zeta. destruct (route_to_mheap _ _); [done|].
  assert (route_to_mcentral (MCENTRAL_READY (count_alloc st size)) (mkLayout size (2 ^ k)) = false) as ->; [|done].
  unfold route_to_mcentral. cbn [layout_size]. rewrite (bool_decide_false (size <= LARGE_THRESHOLD)) by lia. by rewrite andb_false_r.
Qed.

Lemma count_holds st p0 live size : holds_from p0 st live -> holds_from p0 (count_alloc st size) live /\ quiet st (count_alloc st size) 0.
Proof. intros (p & os & [Hg Hr Hc] & Hb & Hk). split; [by exists p, os|split; (done || cbn; lia)]. Qed.

Lemma central_alloc_served st p0 live size k : holds_from p0 st live -> 0 <= size <= LARGE_THRESHOLD -> 0 <= k <= 60 -> spans_bump (mc (central st)) + 1 < MAX_SPANS ->
  exists c a, MCentral.alloc (central st) size (2 ^ k) = Ok (c, a) /\ served p0 (set_central st c) live (mkBlock a size (2 ^ k)) /\ quiet st (set_central st c) 1.
Proof.
  intros (p & os & [Hg Hr Hc] & Hb & Hkp) Hs Hk Hbm. destruct (alloc_ok _ p os size k Hg ltac:(unfold LARGE_THRESHOLD in *; lia) Hk Hbm) as (c & p' & a & E & Ev & Ha).
  exists c, a. split; [done|]. pose proof (blocks_evolve _ _ _ _ _ _ _ _ Ev Hb) as Hb'. pose proof (caches_evolve _ _ _ _ _ _ _ Ev Hc) as Hc'. split; [|split; try done; apply Ev].
  destruct Ha as [(-> & Hg' & Hkp')|(cl & Ecl & Hsold)]; [left; split; [done|]; exists p', os; split_and!; [done|done|by etrans]|].
  eapply (sold_served (set_central st c) p0); [|done|done|done|done]. destruct Hsold as [(-> & ? & ?)|?]; [left; split_and!; [done|done|by etrans]|by right].
Qed.

(** The entry point: a block, or the end of the process when the pages are exhausted. *)
Lemma alloc_masked_raw_ok st live cur size k : holds st live -> sane_request size k -> (forall P, cur = Some P -> (P < length (mcaches st))%nat) ->
  spans_bump (mc (central st)) + 2 < MAX_SPANS ->
  (alloc_masked_raw st cur size (2 ^ k) = Exit 2 /\ exhausted st (pages_for (Z.max size (2 ^ k)))) \/
  exists st' a, alloc_masked_raw st cur size (2 ^ k) = Ok (st', a) /\ a <> 0 /\ holds st' (mkBlock a size (2 ^ k) :: live) /\ quiet st st' 2.
Proof.
  intros (p & os & Hinv & Hb) Hreq Hcur Hbm. unfold alloc_masked_raw. assert (holds_from p st live) as Hh by by exists p, os.
  destruct (count_holds st p live size Hh) as [Hh1 Q1]. set (st1 := count_alloc st size) in *. cbn zeta.
  assert (forall st2 d, quiet st st2 d -> d <= 2 -> holds_from p st2 live ->
    (heap_alloc_layout st2 (mkLayout size (2 ^ k)) = Exit 2 /\ exhausted st (pages_for (Z.max size (2 ^ k)))) \/
    exists st' a, heap_alloc_layout st2 (mkLayout size (2 ^ k)) = Ok (st', a) /\ a <> 0 /\ holds st' (mkBlock a size (2 ^ k) :: live) /\ quiet st st' 2) as Hpages.
  { intros st2 d Q Hd Hh2. destruct (page_layout st2 p live size k Hh2 Hreq) as [[E Hex]|(st' & a & E & Ha & Hh' & Q')]; [left; split; [done|]|right].
    - destruct (mi_central _ _ _ Hinv) as (L & F & Hg & _). exists p. split; [|done]. apply (gc_heap _ _ _ _ _ Hg).
    - exists st', a. split_and!; try done. destruct (quiet_trans _ _ _ _ _ Q Q'). split; (done || lia). }
  destruct (route_to_mheap _ _); [by apply (Hpages st1 0)|]. destruct (route_to_mcentral _ _) eqn:Hrt; [|by apply (Hpages st1 0)].
  unfold route_to_mcentral in Hrt. apply andb_true_iff in Hrt as [[[_ _]%andb_true_iff Hsz]%andb_true_iff _]. apply bool_decide_eq_true in Hsz. cbn [layout_size] in Hsz.
  destruct Hreq as [[Hs0 _] Hk]. assert (exists st2 a, match cur with Some P => mcache_alloc st1 P size (2 ^ k) | None => Ok (st1, 0) end = Ok (st2, a) /\
    served p st2 live (mkBlock a size (2 ^ k)) /\ quiet st st2 1) as (st2 & a & -> & Hsv & Q2).
  { destruct cur as [P|]; [|exists st1, 0; split_and!; [done|by left|destruct Q1; split; (done || lia)]].
    destruct (mcache_alloc_ok st1 p live P size k Hh1 (Hcur P eq_refl) ltac:(done) Hk ltac:(cbn; lia)) as (st2 & a & E & Hsv & Q). exists st2, a. split_and!; [done|done|].
    exact (quiet_trans _ _ _ _ _ Q1 Q). }
  cbn [mbind outcome_bind]. destruct Hsv as [[Ha Hh2]|[Ha Hh2]]; cbn [b_ptr] in Ha.
  2: { rewrite decide_True by done. right. exists st2, a. split_and!; try done. destruct Q2. split; (done || lia). }
  rewrite decide_False by tauto. destruct (central_alloc_served st2 p live size k Hh2 ltac:(done) Hk) as (c & a' & -> & Hsv & Q3); [pose proof (qu_bump _ _ _ Q2); lia|].
  cbn [mbind outcome_bind]. pose proof (quiet_trans _ _ _ _ _ Q2 Q3) as Q. destruct Hsv as [[Ha' Hh3]|[Ha' Hh3]]; cbn [b_ptr] in Ha'.
  - rewrite decide_False by tauto. by apply (Hpages (set_central st2 c) 2).
  - rewrite decide_True by done. right. by exists (set_central st2 c), a'.
Qed.

(** ** Release *)

(** Page [k] of the arena is free; the page of address [a]. *)
Definition page_free (st : Malloc) (k : Z) : Prop := exists p, MHEAP (heap (central st)) = Some p /\ gfree p k = true.
Definition page_of (st : Malloc) (a : Z) : Z := (a - mc_base (mc (central st))) / PAGE_SIZE.
Definition block_pages (b : block) : Z := pages_for (Z.max (b_size b) (b_align b)).

(** The pages of a block too large for a span are free. *)
Definition pages_back (st : Malloc) (b : block) : Prop :=
  LARGE_THRESHOLD < b_size b -> forall k, page_of st (b_ptr b) <= k < page_of st (b_ptr b) + block_pages b -> page_free st k.

Lemma dealloc_ok st live n b : holds st live -> live !! n = Some b ->
  exists st', dealloc_routed st (b_ptr b) (b_size b) (b_align b) = Ok st' /\ holds st' (delete n live) /\ quiet st st' 0 /\ pages_back st' b.
Proof.
  intros (p & os & [Hg Hr Hc] & Hb) Hn. destruct (Forall2_lookup_l _ _ _ _ _ Hb Hn) as (o & Ho & Ep & _ & Hkind). unfold dealloc_routed. cbn zeta. rewrite Hr.
  assert (forall m' p' d, evolves (mc (central st)) m' p p' (delete n os) 0 d -> Forall2 (block_of m' p') (delete n live) (delete n os)) as Hdel.
  { intros m' p' d Ev. eapply blocks_evolve; [exact Ev|]. by apply Forall2_delete. }
  destruct o as [i slot|P np]; cbn [extent fst] in Ep.
  - destruct Hkind as [Hsz _]. replace (route_to_mheap _ _) with false.
    2: { unfold route_to_mheap. cbn [layout_size]. rewrite bool_decide_false by lia. symmetry. apply andb_false_r. }
    destruct (free_small_ok _ p os n i slot Hg Ho) as (c' & p' & E & Hg' & Ev). rewrite Ep, E. cbn [mbind outcome_bind]. eexists. split; [done|]. split.
    + exists p', (delete n os). split; [split; [done|done|by eapply caches_evolve]|]. by eapply Hdel.
    + split; [|intros Hlt; lia]. split; try done. cbn. pose proof (ev_bump _ _ _ _ _ _ _ Ev). lia.
  - destruct (page_free_ok _ p os n P np Hg Ho) as (h' & p' & E & Hg' & Hab & Hh' & Hfr).
    assert (heap_free_layout st (b_ptr b) (mkLayout (b_size b) (b_align b)) = Ok (set_mheap st h')) as Ef.
    { unfold heap_free_layout, mheap_free. cbn [layout_size layout_align]. rewrite <- Hkind, Ep, E. done. }
    assert (holds (set_mheap st h') (delete n live) /\ quiet st (set_mheap st h') 0 /\ pages_back (set_mheap st h') b) as Hfin.
    { split; [|split; [split; (done || cbn; lia)|]]; cycle 1.
      { intros _ q. unfold page_of, block_pages. cbn [central mc set_mheap set_central]. destruct Hg as (L & F & Hg & _). rewrite Ep, (gc_base _ _ _ _ _ Hg), <- Hkind.
        change PAGE_SIZE with 8192. replace ((arena_base p + P * 8192 - arena_base p) / 8192) with P by lia. intros Hq. exists p'. split; [done|by apply Hfr]. } exists p', (delete n os). split; [by split|]. eapply (Hdel _ _ 0). split; (done || cbn; lia). }
    destruct (route_to_mheap _ _); [by exists (set_mheap st h')|].
    rewrite Ep, (free_big_ok _ p os P np Hg) by (by eapply list_elem_of_lookup_2). cbn [mbind outcome_bind]. rewrite Ep in Ef.
    replace (set_central st (central st)) with st by by destruct st. by exists (set_mheap st h').
Qed.

(** ** Histories *)

(** The calls of any number of Ps, one after the other: [cur] is the caller's P. *)
Inductive heap_op :=
| HAlloc (cur : option nat) (size k : Z)
| HFree (n : nat)
| HRealloc (cur : option nat) (n : nat) (size : Z)
| HFlush (P : nat).

Definition heap_step (op : heap_op) (s : Malloc * list block) : outcome (Malloc * list block) :=
  let '(st, live) := s in
  match op with
  | HAlloc cur size k => '(st, a) ← alloc_masked_raw st cur size (2 ^ k); Ok (st, mkBlock a size (2 ^ k) :: live)
  | HFree n =>
      match live !! n with
      | Some b => st ← dealloc_routed st (b_ptr b) (b_size b) (b_align b); Ok (st, delete n live)
      | None => Ok (st, live)
      end
  | HRealloc cur n size =>
      match live !! n with
      | Some b => '(st, a) ← realloc st cur (b_ptr b) (b_size b) size (b_align b); Ok (st, mkBlock a size (b_align b) :: delete n live)
      | None => Ok (st, live)
      end
  | HFlush P => st ← mcache_flush st P; Ok (st, live)
  end.

Fixpoint heap_run (ops : list heap_op) (s : Malloc * list block) : outcome (Malloc * list block) :=
  match ops with [] => Ok s | op :: ops => s ← heap_step op s; heap_run ops s end.

(** Layouts a client may ask for, from one of [ps] Ps. *)
Definition valid_p (ps : nat) (cur : option nat) : Prop := forall P, cur = Some P -> (P < ps)%nat.
Definition valid_op (ps : nat) (op : heap_op) : Prop :=
  match op with
  | HAlloc cur size k => sane_request size k /\ valid_p ps cur
  | HFree _ => True
  | HRealloc cur _ size => 0 <= size <= LAYOUT_MAX /\ valid_p ps cur
  | HFlush P => (P < ps)%nat
  end.

(** Alignments are powers of two. *)
Definition aligns (live : list block) : Prop := Forall (fun b => 0 <= b_size b /\ exists k, 0 <= k <= 60 /\ b_align b = 2 ^ k) live.

Lemma realloc_ok st live cur n b size k : holds st live -> live !! n = Some b -> b_align b = 2 ^ k -> sane_request size k -> valid_p (length (mcaches st)) cur ->
  spans_bump (mc (central st)) + 2 < MAX_SPANS ->
  (realloc st cur (b_ptr b) (b_size b) size (b_align b) = Exit 2 /\ exhausted st (pages_for (Z.max size (2 ^ k)))) \/
  exists st1 st' a, alloc_masked_raw st cur size (2 ^ k) = Ok (st1, a) /\ holds st1 (mkBlock a size (2 ^ k) :: live) /\
    realloc st cur (b_ptr b) (b_size b) size (b_align b) = Ok (st', a) /\ holds st' (mkBlock a size (2 ^ k) :: delete n live) /\
    memory st' = copy_bytes (memory st) (b_ptr b) a (Z.min (b_size b) size) /\ length (mcaches st') = length (mcaches st) /\ pages_back st' b.
Proof.
  intros Hh Hn Ek Hreq Hcur Hbm. rewrite Ek. unfold realloc. destruct (alloc_masked_raw_ok st live cur size k Hh Hreq Hcur Hbm) as [[-> Hex]|(st1 & a & E1 & Ha & Hh1 & Q1)]; [left|right].
  { done. }
  rewrite E1. cbn [mbind outcome_bind]. rewrite decide_False by done. cbn zeta. set (st2 := set_memory st1 _).
  assert (holds st2 (mkBlock a size (2 ^ k) :: live)) as Hh2 by (destruct Hh1 as (p & os & [? ? ?] & ?); by exists p, os).
  destruct (dealloc_ok st2 _ (S n) b Hh2 Hn) as (st' & E2 & Hh' & Q2 & Hpb). rewrite Ek in E2. rewrite E2. cbn [mbind outcome_bind]. exists st1, st', a.
  split_and!; try done.
  - rewrite (qu_memory _ _ _ Q2). cbn. by rewrite (qu_memory _ _ _ Q1).
  - rewrite (qu_caches _ _ _ Q2). cbn. apply Q1.
Qed.
