(* ===== verification/MallocRefine.v ===== *)
(** The theorems about the allocator as a whole. *)
From Stdlib Require Import ZArith Lia.
From stdpp Require Import base tactics numbers list list_numbers option fin_maps gmap.
From S2P Require Import Prelude Outcome Runs MheapConsts PallocBits PageAlloc PageAllocTree PageAllocSpec Heap SizeClasses Span SpanSpec MCentral MCentralSpec MCentralOps Malloc MallocSpec.
Open Scope Z_scope.

(** ** What holding blocks means *)

(** Blocks never meet, lie inside the arena, and are aligned as asked, up to 128. *)
Record blocks_sound (st : Malloc) (live : list block) : Prop := {
  bs_apart : forall i j b b', live !! i = Some b -> live !! j = Some b' -> i <> j -> apart (b_ptr b, b_size b) (b_ptr b', b_size b');
  bs_inside : forall b, b ∈ live -> let m := mc (central st) in
    0 < mc_base m <= b_ptr b /\ b_ptr b + b_size b <= mc_base m + tracked_pages m * PAGE_SIZE;
  bs_aligned : forall b, b ∈ live -> b_align b <= 128 -> b_ptr b mod b_align b = 0
}.

Lemma apart_shrink a n m b k l : m <= n -> l <= k -> apart (a, n) (b, k) -> apart (a, m) (b, l).
Proof. unfold apart. cbn. lia. Qed.

Lemma pow2_dvd k n : 0 <= k <= n -> (2 ^ k | 2 ^ n).
Proof. intros H. exists (2 ^ (n - k)). rewrite <- Z.pow_add_r by lia. f_equal. lia. Qed.

Lemma holds_sound st live : holds st live -> aligns live -> blocks_sound st live.
Proof.
  intros (p & os & [(L & F & Hg & _) _ _] & Hb) Hal. destruct (gc_heap _ _ _ _ _ Hg) as [_ Hp]. destruct (geo_base _ (inv_geo _ Hp)) as (Hab & Hab1 & _).
  pose proof (geo_end _ (inv_geo _ Hp)) as Hge. split.
  - intros i j b b' Hi Hj Hne. destruct (Forall2_lookup_l _ _ _ _ _ Hb Hi) as (o & Ho & Ep & Hs & _), (Forall2_lookup_l _ _ _ _ _ Hb Hj) as (o' & Ho' & Ep' & Hs' & _).
    assert (o <> o') as Hoo by (intros ->; apply Hne; eapply (NoDup_lookup os); [apply Hg|done|done]).
    pose proof (extents_apart _ _ _ _ _ o o' Hg (list_elem_of_lookup_2 _ _ _ Ho) (list_elem_of_lookup_2 _ _ _ Ho') Hoo) as Hap.
    rewrite Ep, Ep'. destruct (extent _ _ o), (extent _ _ o'). cbn [fst snd] in *. by eapply apart_shrink.
  - intros b (i & Hi)%list_elem_of_lookup_1 m. destruct (Forall2_lookup_l _ _ _ _ _ Hb Hi) as (o & Ho & Ep & Hs & _).
    destruct (extent_pages _ _ _ _ _ o Hg (list_elem_of_lookup_2 _ _ _ Ho)) as (P & n & HP & Hn & He & H1 & H2 & _).
    unfold m. rewrite (gc_base _ _ _ _ _ Hg), (gc_track _ _ _ _ _ Hg), Ep. change PAGE_SIZE with 8192. lia.
  - intros b Hbl Hle. destruct (proj1 (Forall_forall _ _) Hal b Hbl) as (_ & k & Hk & Ek). apply list_elem_of_lookup_1 in Hbl as (i & Hi).
    destruct (Forall2_lookup_l _ _ _ _ _ Hb Hi) as ([j slot|P n] & Ho & Ep & Hs & Hkind); [by apply Hkind|]. cbn [extent fst] in Ep. rewrite Ep, Ek in *.
    assert (k <= 7) as Hk7 by (apply (Z.pow_le_mono_r_iff 2); [lia|lia|done]). apply Z.mod_divide; [lia|]. apply Z.divide_add_r.
    + apply (Z.divide_trans _ (2 ^ 22)); [apply pow2_dvd; lia|by apply Z.mod_divide].
    + apply Z.divide_mul_r. change 8192 with (2 ^ 13). apply pow2_dvd. lia.
Qed.

(** ** One step *)

(** The pages the page heap is asked for when no span serves the request. *)
Definition op_pages (op : heap_op) (live : list block) : option Z :=
  match op with
  | HAlloc _ size k => Some (pages_for (Z.max size (2 ^ k)))
  | HRealloc _ n size => b ← live !! n; Some (pages_for (Z.max size (b_align b)))
  | _ => None
  end.

Definition hist_inv (ps : nat) (s : Malloc * list block) : Prop := holds s.1 s.2 /\ aligns s.2 /\ length (mcaches s.1) = ps.

Lemma heap_step_ok ps op st live : hist_inv ps (st, live) -> valid_op ps op -> spans_bump (mc (central st)) + 2 < MAX_SPANS ->
  (heap_step op (st, live) = Exit 2 /\ exists n, op_pages op live = Some n /\ exhausted st n) \/
  exists s', heap_step op (st, live) = Ok s' /\ hist_inv ps s'.
Proof.
  intros (Hh & Hal & Hlen) Hv Hbm. cbn [fst snd] in *. assert (forall n, aligns (delete n live)) as Hald by (intros n; by apply Forall_delete). destruct op as [cur size k|n|cur n size|P]; cbn [heap_step valid_op op_pages] in *.
  - destruct Hv as [Hreq Hcur]. rewrite <- Hlen in Hcur. destruct (alloc_masked_raw_ok st live cur size k Hh Hreq Hcur Hbm) as [[-> Hex]|(st' & a & -> & Ha & Hh' & Q)]; [left|right].
    + split; [done|]. by eexists.
    + eexists. split; [done|]. split_and!; [done| |cbn; rewrite (qu_caches _ _ _ Q); done]. constructor; [|done]. split; [apply Hreq|by exists k; destruct Hreq].
  - right. destruct (live !! n) as [b|] eqn:Hn; [|by exists (st, live)]. destruct (dealloc_ok st live n b Hh Hn) as (st' & -> & Hh' & Q & _).
    eexists. split; [done|]. split_and!; [done|apply Hald|cbn; rewrite (qu_caches _ _ _ Q); done].
  - destruct (live !! n) as [b|] eqn:Hn; [|right; by exists (st, live)]. destruct (proj1 (Forall_forall _ _) Hal b (list_elem_of_lookup_2 _ _ _ Hn)) as (_ & k & Hk & Ek).
    destruct Hv as [Hs Hcur]. rewrite <- Hlen in Hcur. cbn [mbind option_bind]. rewrite Ek in *.
    destruct (realloc_ok st live cur n b size k Hh Hn Ek ltac:(done) Hcur Hbm) as [[E Hex]|(st1 & st' & a & _ & _ & E & Hh' & _ & Hl & _)]; rewrite Ek in E; rewrite E; [left|right].
    + split; [done|]. by eexists.
    + eexists. split; [done|]. split_and!; [done| |cbn; congruence]. constructor; [|apply Hald]. split; [apply Hs|by exists k].
  - right. rewrite <- Hlen in Hv. destruct (flush_loop_ok live P 67 st 1 Hh Hv ltac:(lia) ltac:(unfold NUM_SIZE_CLASSES; lia)) as (st' & E & Hh' & Q & _). unfold mcache_flush.
    rewrite E. eexists. split; [done|]. split_and!; [done|done|cbn; rewrite (qu_caches _ _ _ Q); done].
Qed.

(** ** Histories *)

(** Why a history stopped before its end. *)
Inductive stopped (st : Malloc) (live : list block) : list heap_op -> Prop :=
| AtEnd : stopped st live []
| OutOfPages op ops n : heap_step op (st, live) = Exit 2 -> op_pages op live = Some n -> exhausted st n -> stopped st live (op :: ops)
| TableFull op ops : MAX_SPANS <= spans_bump (mc (central st)) + 2 -> stopped st live (op :: ops).

Lemma heap_run_ok ps : forall ops s, hist_inv ps s -> Forall (valid_op ps) ops ->
  exists ops1 ops2 st live, ops = ops1 ++ ops2 /\ heap_run ops1 s = Ok (st, live) /\ hist_inv ps (st, live) /\ stopped st live ops2.
Proof.
  induction ops as [|op ops IH]; intros [st live] Hs Hv; [exists [], [], st, live; by split_and!; [..|constructor]|]. apply Forall_cons in Hv as [Hop Hv].
  destruct (decide (spans_bump (mc (central st)) + 2 < MAX_SPANS)) as [Hbm|Hbm]; [|exists [], (op :: ops), st, live; split_and!; [done|done|done|constructor 3; lia]].
  destruct (heap_step_ok ps op st live Hs Hop Hbm) as [(E & n & En & Hex)|(s' & E & Hs')].
  - exists [], (op :: ops), st, live. split_and!; [done|done|done|by econstructor 2].
  - destruct (IH s' Hs' Hv) as (ops1 & ops2 & st' & live' & -> & Er & Hi & Hst). exists (op :: ops1), ops2, st', live'. split_and!; [done| |done|done].
    cbn [heap_run]. rewrite E. exact Er.
Qed.

(** The bytes [mmap] is asked for at startup. *)
Definition ARENA_BYTES : Z := (MAX_ARENA_CHUNKS + 1) * PALLOC_CHUNK_BYTES.
Definition PAGE_MAP_BYTES : Z := MAX_ARENA_CHUNKS * 512 * 2.

Lemma fresh_caches m ps : (forall i, cached (span_at m i) = false) -> caches_ok m (replicate ps mcache_new).
Proof.
  intros Hcd. assert (forall P c' i, entry (replicate ps mcache_new) P c' = Some i -> i = 0) as He.
  { intros P c' i. unfold entry. destruct (replicate ps mcache_new !! P) as [cache|] eqn:E; [|done]. apply lookup_replicate_1 in E as [-> _]. cbn [mbind option_bind].
    unfold idx. case_decide; [|done]. unfold mcache_new. intros [-> _]%lookup_replicate_1. done. }
  split.
  - intros P cache [-> _]%lookup_replicate_1. done.
  - intros P c' i E%He. done.
  - intros P P' c1 c2 i E%He. done.
  - intros i _ Hc. rewrite Hcd in Hc. done.
Qed.

Lemma malloc_init_inv mmap ps raw : mmap ARENA_BYTES = Some raw -> 0 < raw -> raw + 2 ^ 49 < 2 ^ 64 -> mmap PAGE_MAP_BYTES <> None ->
  exists st, malloc_init mmap ps = Ok st /\ hist_inv ps (st, []) /\ spans_bump (mc (central st)) = 0.
Proof.
  intros Hm H0 H1 Hm2. unfold malloc_init. pose proof (mheap_init_spec mmap (mkMheap None false) eq_refl) as Hi. cbn zeta in Hi. fold ARENA_BYTES in Hi. rewrite Hm in Hi.
  destruct (Hi H0 H1) as (p & -> & Hp & _ & _ & _ & Hcap & Hend & Hfr). cbn [mbind outcome_bind].
  destruct (mcentral_init_ok mmap (mkMheap (Some p) true) p) as (c & -> & Hg & Hh & Hbm & Hcd); [done|rewrite Hend; apply Hfr|rewrite Hcap; done| |].
  { unfold mheap_capacity_pages, capacity_chunks. cbn [MHEAP]. rewrite Hcap. exact Hm2. }
  cbn [mbind outcome_bind]. eexists. split; [done|]. split; [|exact Hbm]. split_and!; [|constructor|cbn; apply length_replicate].
  exists p, []. split; [|constructor]. split; [exact Hg|done|]. cbn [central mcaches].
  by apply fresh_caches.
Qed.

(** ** Theorems *)

(** C1: from startup, over any sequence of allocations, releases, reallocations and cache flushes by
    any number of Ps, no call panics: until the page heap is exhausted or the span table has
    fewer than three unused entries, every call returns.  At every point the live blocks are
    pairwise disjoint, inside the arena and aligned (up to 128), and each span that a P has
    cached is in exactly one cache, under its class. *)
Theorem malloc_blocks_sound mmap ps raw ops : mmap ARENA_BYTES = Some raw -> 0 < raw -> raw + 2 ^ 49 < 2 ^ 64 -> mmap PAGE_MAP_BYTES <> None ->
  Forall (valid_op ps) ops ->
  exists st0 ops1 ops2 st live, malloc_init mmap ps = Ok st0 /\ ops = ops1 ++ ops2 /\ heap_run ops1 (st0, []) = Ok (st, live) /\
    blocks_sound st live /\ caches_ok (mc (central st)) (mcaches st) /\ stopped st live ops2.
Proof.
  intros Hm H0 H1 Hm2 Hv. destruct (malloc_init_inv mmap ps raw Hm H0 H1 Hm2) as (st0 & E & Hi & _).
  destruct (heap_run_ok ps ops (st0, []) Hi Hv) as (ops1 & ops2 & st & live & -> & Er & (Hh & Hal & _) & Hst). exists st0, ops1, ops2, st, live.
  split_and!; [done|done|done|by apply holds_sound| |done]. by destruct Hh as (p & os & [_ _ Hc] & _).
Qed.

Lemma malloc_blocks_sound_witness :
  let ops := [HAlloc (Some 0%nat) 100 3; HAlloc None 40000 4; HRealloc (Some 1%nat) 0 5000; HFlush 0; HFree 0] in
  exists st0 ops1 ops2 st live, malloc_init (fun _ => Some 4097) 2 = Ok st0 /\ ops = ops1 ++ ops2 /\ heap_run ops1 (st0, []) = Ok (st, live) /\
    blocks_sound st live /\ caches_ok (mc (central st)) (mcaches st) /\ stopped st live ops2.
Proof.
  apply (malloc_blocks_sound (fun _ => Some 4097) 2 4097); [reflexivity|lia|lia|discriminate|].
  assert (forall P, (P < 2)%nat -> valid_p 2 (Some P)) as HP by (intros P HP Q [= <-]; exact HP).
  rewrite !Forall_cons. cbn [valid_op]. unfold sane_request, LAYOUT_MAX. split_and!; (lia || (apply HP; lia) || done).
Defined.

(** A two-chunk arena with one P, for the witnesses. *)
Definition small_state (c : Central) : Malloc := mkMalloc c true [mcache_new] 0 0 (fun _ => 0).

Lemma small_malloc : exists p c, new (2 ^ 22) 1 2 = Some p /\ mcentral_init (fun _ => Some 4096) (mkCentral mcentral_new (mkMheap (Some p) true)) (2 ^ 22) = Ok c /\
  hist_inv 1 (small_state c, []) /\ spans_bump (mc c) = 0.
Proof.
  destruct small_arena as (p & E & Hp & Hb & Hend & Hcap & Hfr). exists p.
  destruct (mcentral_init_ok (fun _ => Some 4096) (mkMheap (Some p) true) p) as (c & Ec & Hg & _ & Hbm & Hcd); [split; [reflexivity|exact Hp]| |lia|discriminate|].
  { intros k Hk. rewrite Hfr. apply in_range_spec. lia. }
  change (mheap_arena_base (mkMheap (Some p) true)) with (arena_base p) in Ec. rewrite Hb in Ec.
  exists c. split_and!; [exact E|exact Ec| |exact Hbm]. split_and!; [|constructor|reflexivity]. exists p, []. split; [|constructor].
  split; [exact Hg|reflexivity|]. cbn [central mcaches fst]. by apply (fresh_caches _ 1).
Qed.

(** The state after one allocation on that arena. *)
Definition first_op : heap_op := HAlloc (Some 0%nat) 100 3.
Definition first_block : outcome (Malloc * list block) :=
  p ← of_option (new (2 ^ 22) 1 2);
  c ← mcentral_init (fun _ => Some 4096) (mkCentral mcentral_new (mkMheap (Some p) true)) (2 ^ 22);
  heap_step first_op (small_state c, []).

Definition block_view (r : outcome (Malloc * list block)) : option (Z * list block) :=
  match r with Ok (st, live) => Some (spans_bump (mc (central st)), live) | _ => None end.

Lemma first_block_value : block_view first_block = Some (1, [mkBlock (2 ^ 22) 100 8]).
Proof. vm_compute. reflexivity. Qed.

Lemma bind_ok {A B} (x : outcome A) (f : A -> outcome B) a : x = Ok a -> (y ← x; f y) = f a.
Proof. by intros ->. Qed.

Lemma first_block_ok : exists st, hist_inv 1 (st, [mkBlock (2 ^ 22) 100 8]) /\ spans_bump (mc (central st)) = 1.
Proof.
  pose proof first_block_value as Hv. destruct small_malloc as (p & c & E & Ec & Hi & Hb).
  assert (first_block = heap_step first_op (small_state c, [])) as Ef.
  { unfold first_block. etrans; [apply bind_ok; by rewrite E|]. exact (bind_ok _ (fun c => heap_step first_op (small_state c, [])) c Ec). }
  rewrite Ef in Hv. clear Ef E Ec. destruct (heap_step_ok 1 first_op (small_state c) [] Hi) as [(E1 & _)|([st live] & E1 & Hs)].
  - split; [unfold sane_request, LAYOUT_MAX; lia|]. intros P [= <-]. lia.
  - cbn [central small_state]. rewrite Hb. reflexivity.
  - rewrite E1 in Hv. discriminate Hv.
  - rewrite E1 in Hv. injection Hv as Hv1 ->. exists st. split; [exact Hs|exact Hv1].
Qed.



(** Nothing but the live blocks holds memory: a page that is not free is in the page map or in a
    live block taken from the page heap; a claimed slot of a mapped span is a live block or
    reserved by the P that caches the span. *)
Record accounted (st : Malloc) (live : list block) : Prop := {
  ac_pages : forall p k, MHEAP (heap (central st)) = Some p -> 0 <= k < end_chunk p * 512 -> gfree p k = false ->
    (exists i, i <> 0 /\ page_to_span (mc (central st)) !! k = Some i) \/
    (exists b, b ∈ live /\ page_of st (b_ptr b) <= k < page_of st (b_ptr b) + block_pages b);
  ac_slots : forall k i slot, let s := span_at (mc (central st)) i in i <> 0 -> page_to_span (mc (central st)) !! k = Some i ->
    0 <= slot < nelems s -> bit (alloc_bits s) slot = true -> unsold s slot = true \/ (exists b, b ∈ live /\ b_ptr b = slot_addr s slot)
}.

Lemma holds_accounted st live : holds st live -> accounted st live.
Proof.
  intros (p & os & [(L & F & Hg & _) _ _] & Hb).
  assert (forall o, o ∈ os -> exists b, b ∈ live /\ block_of (mc (central st)) p b o) as Hblk.
  { intros o (j & Ho)%list_elem_of_lookup_1. destruct (Forall2_lookup_r _ _ _ _ _ Hb Ho) as (b & Hj & ?). exists b. split; [by eapply list_elem_of_lookup_2|done]. }
  split.
  - intros p' k Ep. rewrite (proj1 (gc_heap _ _ _ _ _ Hg)) in Ep. injection Ep as <-. intros Hk Hf.
    destruct (gc_noleak _ _ _ _ _ Hg k Hk Hf) as [?|(P & n & Ho & Hr)]; [by left|right]. destruct (Hblk _ Ho) as (b & Hbl & Eptr & _ & En). exists b. split; [done|].
    cbn [extent fst] in Eptr. unfold page_of, block_pages. rewrite Eptr, (gc_base _ _ _ _ _ Hg), <- En. change PAGE_SIZE with 8192. lia.
  - intros k i slot s Hi [Ha _]%(gc_pages _ _ _ _ _ Hg) Hsl Hbit; [|done]. subst s. rewrite (sp_bits _ _ (so_inv _ _ _ (gc_span _ _ _ _ _ Hg i Ha)) slot Hsl) in Hbit.
    apply orb_true_iff in Hbit as [Hlive%slots_elem|?]; [right|by left]. destruct (Hblk _ Hlive) as (b & Hbl & Eptr & _). by exists b.
Qed.

Lemma copy_outside f src dst n a : ~ (dst <= a < dst + n) -> copy_bytes f src dst n a = f a.
Proof. intros H. unfold copy_bytes. by rewrite decide_False. Qed.

(** C17: let at least three entries of the span table be unused and the new size be at most 2^60.
    [realloc] copies the old contents to a block that meets neither the old block nor any other
    live one, keeps the bytes of every live block, and releases the old block: afterwards the new
    block and the other live ones account for all memory in use ([accounted]), and the pages of
    an old block above the size classes are free.  It ends the process only when the page heap has no
    run of the pages needed and cannot grow by them. *)
Theorem realloc_preserves ps st live cur n b size : hist_inv ps (st, live) -> live !! n = Some b -> 0 <= size <= LAYOUT_MAX -> valid_p ps cur ->
  spans_bump (mc (central st)) + 2 < MAX_SPANS ->
  (realloc st cur (b_ptr b) (b_size b) size (b_align b) = Exit 2 /\ exhausted st (pages_for (Z.max size (b_align b)))) \/
  exists st' a, realloc st cur (b_ptr b) (b_size b) size (b_align b) = Ok (st', a) /\ hist_inv ps (st', mkBlock a size (b_align b) :: delete n live) /\
    apart (a, size) (b_ptr b, b_size b) /\
    (forall j, 0 <= j < Z.min (b_size b) size -> memory st' (a + j) = memory st (b_ptr b + j)) /\
    (forall b' j, b' ∈ live -> 0 <= j < b_size b' -> memory st' (b_ptr b' + j) = memory st (b_ptr b' + j)) /\
    accounted st' (mkBlock a size (b_align b) :: delete n live) /\ pages_back st' b.
Proof.
  intros (Hh & Hal & Hlen) Hn Hs Hcur Hbm. cbn [fst snd] in *. destruct (proj1 (Forall_forall _ _) Hal b (list_elem_of_lookup_2 _ _ _ Hn)) as (_ & k & Hk & Ek). rewrite <- Hlen in Hcur.
  destruct (realloc_ok st live cur n b size k Hh Hn Ek ltac:(done) Hcur Hbm) as [?|(st1 & st' & a & _ & Hh1 & E & Hh' & Hm & Hl & Hpb)]; rewrite Ek in *; [by left|right]. exists st', a.
  assert (0 <= size /\ exists k', 0 <= k' <= 60 /\ 2 ^ k = 2 ^ k') as Hnew by (split; [lia|by exists k]).
  destruct (holds_sound _ _ Hh1) as [Hap _ _]; [by constructor|].
  assert (forall b', b' ∈ live -> apart (a, size) (b_ptr b', b_size b')) as Hnb.
  { intros b' (i & Hi)%list_elem_of_lookup_1. exact (Hap 0%nat (S i) _ b' eq_refl Hi ltac:(done)). }
  split_and!; [done| |by eapply Hnb, list_elem_of_lookup_2| | |by apply holds_accounted|done].
  - split_and!; [done|constructor; [done|by apply Forall_delete]|cbn; congruence].
  - intros j Hj. rewrite Hm. unfold copy_bytes. rewrite decide_True by lia. f_equal. lia.
  - intros b' j Hb' Hj. rewrite Hm. apply copy_outside. destruct (Hnb b' Hb') as [H|H]; cbn [fst snd] in H; lia.
Qed.

Lemma realloc_preserves_witness : exists st live,
  (realloc st (Some 0%nat) (2 ^ 22) 100 5000 8 = Exit 2 /\ exhausted st (pages_for (Z.max 5000 8))) \/
  exists st' a, realloc st (Some 0%nat) (2 ^ 22) 100 5000 8 = Ok (st', a) /\ hist_inv 1 (st', mkBlock a 5000 8 :: delete 0%nat live) /\
    apart (a, 5000) (2 ^ 22, 100) /\
    (forall j, 0 <= j < Z.min 100 5000 -> memory st' (a + j) = memory st (2 ^ 22 + j)) /\
    (forall b' j, b' ∈ live -> 0 <= j < b_size b' -> memory st' (b_ptr b' + j) = memory st (b_ptr b' + j)) /\
    accounted st' (mkBlock a 5000 8 :: delete 0%nat live) /\ pages_back st' (mkBlock (2 ^ 22) 100 8).
Proof.
  destruct first_block_ok as (st & Hi & Hb). exists st, [mkBlock (2 ^ 22) 100 8].
  apply (realloc_preserves 1 st [mkBlock (2 ^ 22) 100 8] (Some 0%nat) 0 (mkBlock (2 ^ 22) 100 8) 5000);
    [exact Hi|reflexivity|unfold LAYOUT_MAX; lia|intros P [= <-]; lia|rewrite Hb; reflexivity].
Defined.

(** [mcache_flush] leaves the P's cache empty and every other P's as it was, and keeps all
    live blocks. *)
Theorem mcache_flush_empties ps st live P : hist_inv ps (st, live) -> (P < ps)%nat ->
  exists st', mcache_flush st P = Ok st' /\ hist_inv ps (st', live) /\ memory st' = memory st /\
    (forall class, 1 <= class < NUM_SIZE_CLASSES -> entry (mcaches st') P class = Some NIL_SPAN) /\
    (forall Q class, Q <> P -> entry (mcaches st') Q class = entry (mcaches st) Q class).
Proof.
  intros (Hh & Hal & Hlen) HP. cbn [fst snd] in *. rewrite <- Hlen in HP.
  destruct (flush_loop_ok live P 67 st 1 Hh HP ltac:(lia) ltac:(unfold NUM_SIZE_CLASSES; lia)) as (st' & E & Hh' & Q & Hz & Hoth). exists st'.
  split_and!; [done| |apply Q|intros class Hc; apply Hz; unfold NUM_SIZE_CLASSES in Hc; lia|intros R class HR; apply Hoth; by left].
  split_and!; [done|done|]. cbn. rewrite (qu_caches _ _ _ Q). done.
Qed.

Lemma mcache_flush_empties_witness : exists st live st', mcache_flush st 0 = Ok st' /\ hist_inv 1 (st', live) /\ memory st' = memory st /\
    (forall class, 1 <= class < NUM_SIZE_CLASSES -> entry (mcaches st') 0 class = Some NIL_SPAN) /\
    (forall Q class, Q <> 0%nat -> entry (mcaches st') Q class = entry (mcaches st) Q class).
Proof. destruct first_block_ok as (st & Hi & _). exists st, [mkBlock (2 ^ 22) 100 8]. apply (mcache_flush_empties 1); [exact Hi|lia]. Defined.

(** [heap::free(ptr, size)] passes alignment 8 to the router: a block allocated with an alignment of
    two pages keeps one of its two pages for ever. *)
Theorem heap_free_drops_alignment :
  (p ← of_option (new (2 ^ 22) 1 2);
   c ← mcentral_init (fun _ => Some 4096) (mkCentral mcentral_new (mkMheap (Some p) true)) (2 ^ 22);
   '(st, a) ← alloc_masked_raw (mkMalloc c true [mcache_new] 0 0 (fun _ => 0)) (Some 0%nat) 100 16384;
   st ← heap_free st a 100;
   sys_bytes (heap (central st))) = Ok 8192.
Proof. vm_compute. reflexivity. Qed.
