(* ===== verification/LockFreeRing.v ===== *)
(** The bounded MPMC ring: src/src/runtime/lockfree_ring.rs.

    [Ring] is the source's record: two counters that wrap at 64 bits, the slots with their
    sequence numbers, and the index mask.  A slot's value is [None] while it is uninitialised
    ([MaybeUninit::uninit]), so reading it then is a panic here and undefined behaviour there.
    This file models the calls as one thread makes them: every atomic access sees the last
    store, a compare-exchange succeeds exactly when the counter is the expected one, and the
    retry loops carry fuel.  RingConcurrent.v interleaves the same accesses. *)
From Stdlib Require Import ZArith Lia.
From stdpp Require Import base tactics numbers list list_numbers option.
From S2P Require Import Prelude.
Open Scope Z_scope.
Local Open Scope goish_scope.

(** [as isize]. *)
Definition as_isize (x : Z) : Z := if decide (x < 2 ^ 63) then x else x - 2 ^ 64.

(** [usize::next_power_of_two]. *)
Definition next_power_of_two (n : Z) : Z := if decide (n <= 1) then 1 else 2 ^ Z.log2_up n.

Section ring.
  Context {V : Type}.

Record Slot := mkSlot { seq : Z; val : option V }.

Record Ring := mkRing { head : Z; tail : Z; slots : list Slot; cap_mask : Z }.

(** The outcome of [try_send]: [Err] gives the value back. *)
Inductive send_result := SendOk | SendErr (v : V).

Definition ring_new (cap : Z) : Ring :=
  let cap := next_power_of_two (Z.max cap 1) in
  mkRing 0 0 (map (fun i => mkSlot i None) (seqZ 0 cap)) (cap - 1).

Definition capacity (r : Ring) : Z := cap_mask r +! 1.

Definition ring_len (r : Ring) : Z := tail r -! head r.

Definition set_slot (r : Ring) (i : Z) (s : Slot) : option Ring :=
  l ← upd (slots r) i s;
  Some (mkRing (head r) (tail r) l (cap_mask r)).

Fixpoint try_send_loop (fuel : nat) (r : Ring) (v : V) (t : Z) : option (Ring * send_result) :=
  match fuel with
  | O => None
  | S fuel =>
      slot ← idx (slots r) (Z.land t (cap_mask r));
      let diff := as_isize (seq slot -! t) in
      if decide (diff = 0) then
        if decide (tail r = t) then
          let r := mkRing (head r) (t +! 1) (slots r) (cap_mask r) in
          r ← set_slot r (Z.land t (cap_mask r)) (mkSlot (seq slot) (Some v));
          r ← set_slot r (Z.land t (cap_mask r)) (mkSlot (t +! 1) (Some v));
          Some (r, SendOk)
        else try_send_loop fuel r v (tail r)
      else if decide (diff < 0) then Some (r, SendErr v)
      else try_send_loop fuel r v (tail r)
  end.

Definition try_send (r : Ring) (v : V) : option (Ring * send_result) := try_send_loop 2 r v (tail r).

Fixpoint try_recv_loop (fuel : nat) (r : Ring) (h : Z) : option (Ring * option V) :=
  match fuel with
  | O => None
  | S fuel =>
      slot ← idx (slots r) (Z.land h (cap_mask r));
      let diff := as_isize (seq slot -! (h +! 1)) in
      if decide (diff = 0) then
        if decide (head r = h) then
          let r := mkRing (h +! 1) (tail r) (slots r) (cap_mask r) in
          v ← val slot;
          r ← set_slot r (Z.land h (cap_mask r)) (mkSlot (h +! capacity r) None);
          Some (r, Some v)
        else try_recv_loop fuel r (head r)
      else if decide (diff < 0) then Some (r, None)
      else try_recv_loop fuel r (head r)
  end.

Definition try_recv (r : Ring) : option (Ring * option V) := try_recv_loop 2 r (head r).

(** ** Representation *)

(** [r] holds the queue [q]; [H] is the number of values ever taken, not reduced. *)
Record ring_at (N H : Z) (q : list V) (r : Ring) : Prop := {
  ra_cap : exists k, 0 <= k <= 62 /\ N = 2 ^ k;
  ra_mask : cap_mask r = N - 1;
  ra_slots : zlen (slots r) = N;
  ra_nonneg : 0 <= H;
  ra_head : head r = wrap64 H;
  ra_tail : tail r = wrap64 (H + zlen q);
  ra_len : zlen q <= N;
  ra_full : forall i v, q !! i = Some v ->
    idx (slots r) ((H + Z.of_nat i) mod N) = Some (mkSlot (wrap64 (H + Z.of_nat i + 1)) (Some v));
  ra_free : forall i, H + zlen q <= i < H + N -> exists v, idx (slots r) (i mod N) = Some (mkSlot (wrap64 i) v)
}.

Definition ring_rep (N : Z) (q : list V) (r : Ring) : Prop := exists H, ring_at N H q r.
End ring.
Arguments Slot : clear implicits.
Arguments Ring : clear implicits.
Arguments send_result : clear implicits.

(** ** Modular facts *)

Lemma pow2_divides k : 0 <= k <= 62 -> exists m, 2 ^ 64 = m * 2 ^ k /\ 0 < m /\ 0 < 2 ^ k <= 2 ^ 62.
Proof.
  intros Hk. exists (2 ^ (64 - k)). rewrite <- Z.pow_add_r by lia. replace (64 - k + k) with 64 by lia.
  split; [done|]. split; [lia|]. split; [lia|]. apply Z.pow_le_mono_r; lia.
Qed.

Lemma wrap64_mod N i : (exists k, 0 <= k <= 62 /\ N = 2 ^ k) -> wrap64 i mod N = i mod N.
Proof.
  intros (k & Hk & ->). destruct (pow2_divides k Hk) as (m & E & Hm & Hp). unfold wrap64. rewrite E, Z.mul_comm.
  rewrite Z.rem_mul_r by lia. rewrite Z.mul_comm, Z.mod_add by lia. apply Z.mod_mod. lia.
Qed.

Lemma land_mask N x : (exists k, 0 <= k <= 62 /\ N = 2 ^ k) -> Z.land x (N - 1) = x mod N.
Proof. intros (k & Hk & ->). replace (2 ^ k - 1) with (Z.ones k) by (rewrite Z.ones_equiv; lia). apply Z.land_ones. lia. Qed.

Lemma wrap_add a b : wrap64 a +! b = wrap64 (a + b).
Proof. unfold add64, wrap64. apply Zplus_mod_idemp_l. Qed.

Lemma wrap_sub a b : wrap64 a -! wrap64 b = wrap64 (a - b).
Proof. unfold sub64, wrap64. symmetry. apply Zminus_mod. Qed.

(** The signed difference of two wrapped counters is their true difference. *)
Lemma isize_diff a b : - 2 ^ 63 <= a - b < 2 ^ 63 -> as_isize (wrap64 a -! wrap64 b) = a - b.
Proof.
  intros H. rewrite wrap_sub. unfold as_isize, wrap64. destruct (decide (0 <= a - b)).
  - rewrite Z.mod_small by lia. rewrite decide_True by lia. done.
  - replace ((a - b) mod 2 ^ 64) with (a - b + 2 ^ 64); [rewrite decide_False by lia; lia|].
    rewrite <- (Z.mod_add (a - b) 1) by lia. rewrite Z.mod_small; lia.
Qed.

(** Within a window of [N] consecutive indices, slots are told apart by their residue. *)
Lemma mod_window N lo i j : 0 < N -> lo <= i < lo + N -> lo <= j < lo + N -> i mod N = j mod N -> i = j.
Proof.
  intros HN Hi Hj E. pose proof (Z.div_mod i N ltac:(lia)). pose proof (Z.div_mod j N ltac:(lia)).
  assert (N * (i / N - j / N) = i - j) by lia. assert (i / N - j / N = 0) by nia. nia.
Qed.

(** ** The calls as one thread makes them *)

Section sequential.
  Context {V : Type} (N : Z).
  Implicit Types (r : Ring V) (q : list V) (v : V).

Lemma ring_at_pos H q r : ring_at N H q r -> 1 <= N <= 2 ^ 62.
Proof. intros [(k & Hk & ->) _ _ _ _ _ _ _ _]. destruct (pow2_divides k Hk) as (? & _ & _ & ?). lia. Qed.

Lemma idx_update_mod (l l' : list (Slot V)) i j s : upd l (i mod N) s = Some l' -> 0 < N -> zlen l = N ->
  idx l' (j mod N) = if decide (i mod N = j mod N) then Some s else idx l (j mod N).
Proof.
  intros [Hr ->]%upd_inv HN Hl. pose proof (Z.mod_pos_bound j N HN). apply idx_insert; lia.
Qed.

Lemma try_send_ok H q r v : ring_at N H q r -> zlen q < N ->
  exists r', try_send r v = Some (r', SendOk) /\ ring_at N H (q ++ [v]) r'.
Proof.
  intros Hr Hlen. pose proof (ring_at_pos _ _ _ Hr) as HN. destruct Hr as [Hk Hm Hs H0 Hh Ht Hl Hfull Hfree].
  set (T := H + zlen q) in *. destruct (Hfree T ltac:(unfold T, zlen in *; lia)) as (w & Ew).
  assert (0 <= T mod N < N) as HT by (apply Z.mod_pos_bound; lia).
  unfold try_send. cbn [try_send_loop]. rewrite Ht, Hm, land_mask, wrap64_mod, Ew by done. cbn [mbind option_bind].
  cbn [seq]. rewrite isize_diff by lia. rewrite decide_True by lia. rewrite decide_True by done.
  unfold set_slot. cbn [slots cap_mask head tail]. rewrite land_mask, wrap64_mod by done.
  rewrite (upd_Some (slots r)) by lia. cbn [mbind option_bind slots cap_mask head tail].
  rewrite land_mask, wrap64_mod by done. rewrite upd_Some by (rewrite zlen_insert; lia). cbn [mbind option_bind].
  rewrite list_insert_insert_eq, wrap_add. eexists. split; [done|].
  assert (zlen (q ++ [v]) = zlen q + 1) as Hz by (unfold zlen; rewrite length_app; cbn; lia).
  assert (forall j, idx (<[Z.to_nat (T mod N) := mkSlot (wrap64 (T + 1)) (Some v)]> (slots r)) (j mod N) =
    if decide (T mod N = j mod N) then Some (mkSlot (wrap64 (T + 1)) (Some v)) else idx (slots r) (j mod N)) as Hidx.
  { intros j. eapply idx_update_mod; [apply upd_Some; lia|lia|done]. }
  split; cbn [head tail slots cap_mask]; try done.
  - by rewrite zlen_insert.
  - rewrite Hz. f_equal. unfold T. lia.
  - lia.
  - intros i x Hi. rewrite Hidx. apply lookup_app_Some in Hi as [Hi|[Hge Hi]].
    + rewrite decide_False; [by apply Hfull|]. apply lookup_lt_Some in Hi. intros E.
      apply (mod_window N H) in E; unfold T, zlen in *; lia.
    + apply list_lookup_singleton_Some in Hi as [Hi <-]. assert (Z.of_nat i = zlen q) as -> by (unfold zlen; lia).
      by rewrite decide_True.
  - intros i Hi. rewrite Hidx. rewrite Hz in Hi. rewrite decide_False; [apply Hfree; unfold T; lia|].
    intros E. apply (mod_window N H) in E; unfold T, zlen in *; lia.
Qed.

Lemma try_send_full H q r v : ring_at N H q r -> zlen q = N -> 2 <= N -> try_send r v = Some (r, SendErr v).
Proof.
  intros Hr Hlen H2. pose proof (ring_at_pos _ _ _ Hr) as HN. destruct Hr as [Hk Hm Hs H0 Hh Ht Hl Hfull Hfree].
  destruct q as [|x q]; [unfold zlen in Hlen; cbn in Hlen; lia|].
  pose proof (Hfull 0%nat x eq_refl) as E0. cbn in E0. rewrite Z.add_0_r in E0.
  unfold try_send. cbn [try_send_loop]. rewrite Ht, Hm, land_mask, wrap64_mod by done.
  rewrite Hlen. replace ((H + N) mod N) with (H mod N) by (rewrite <- (Z.mod_add H 1) by lia; f_equal; lia).
  rewrite E0. cbn [mbind option_bind seq]. rewrite isize_diff by lia.
  rewrite decide_False, decide_True by lia. done.
Qed.

Lemma try_recv_empty H r : ring_at N H [] r -> try_recv r = Some (r, None).
Proof.
  intros Hr. pose proof (ring_at_pos _ _ _ Hr) as HN. destruct Hr as [Hk Hm Hs H0 Hh Ht Hl Hfull Hfree].
  destruct (Hfree H) as (w & Ew); [unfold zlen; cbn; lia|].
  unfold try_recv. cbn [try_recv_loop]. rewrite Hh, Hm, land_mask, wrap64_mod, Ew by done. cbn [mbind option_bind seq].
  rewrite wrap_add, isize_diff by lia. rewrite decide_False, decide_True by lia. done.
Qed.

Lemma try_recv_ok H x q r : ring_at N H (x :: q) r ->
  exists r', try_recv r = Some (r', Some x) /\ ring_at N (H + 1) q r'.
Proof.
  intros Hr. pose proof (ring_at_pos _ _ _ Hr) as HN. destruct Hr as [Hk Hm Hs H0 Hh Ht Hl Hfull Hfree].
  assert (zlen (x :: q) = zlen q + 1) as Hz by (unfold zlen; cbn [length]; lia). rewrite Hz in *.
  pose proof (Hfull 0%nat x eq_refl) as E0. cbn in E0. rewrite Z.add_0_r in E0.
  assert (0 <= H mod N < N) as HM by (apply Z.mod_pos_bound; lia).
  unfold try_recv. cbn [try_recv_loop]. rewrite Hh, Hm, land_mask, wrap64_mod, E0 by done. cbn [mbind option_bind seq val].
  rewrite wrap_add, isize_diff by lia. rewrite decide_True by lia. rewrite decide_True by done.
  unfold set_slot, capacity. cbn [slots cap_mask head tail]. rewrite land_mask, wrap64_mod by done. rewrite upd_Some by lia.
  cbn [mbind option_bind]. eexists. split; [done|].
  assert (wrap64 H +! (N - 1 +! 1) = wrap64 (H + N)) as ->.
  { unfold add64 at 2. unfold wrap64 at 2. rewrite (Z.mod_small (N - 1 + 1)) by lia. rewrite wrap_add. f_equal. lia. }
  assert (forall j, idx (<[Z.to_nat (H mod N) := mkSlot (wrap64 (H + N)) None]> (slots r)) (j mod N) =
    if decide (H mod N = j mod N) then Some (mkSlot (wrap64 (H + N)) None) else idx (slots r) (j mod N)) as Hidx.
  { intros j. eapply idx_update_mod; [apply upd_Some; lia|lia|done]. }
  split; cbn [head tail slots cap_mask]; try done; try lia.
  - by rewrite zlen_insert.
  - rewrite Ht. f_equal. lia.
  - intros i y Hi. rewrite Hidx. pose proof (lookup_lt_Some _ _ _ Hi). rewrite decide_False.
    + pose proof (Hfull (S i) y Hi) as E. replace (H + Z.of_nat (S i)) with (H + 1 + Z.of_nat i) in E by lia. done.
    + intros E. apply (mod_window N H) in E; unfold zlen in *; lia.
  - intros i Hi. rewrite Hidx. destruct (decide (i = H + N)) as [->|Hne].
    + exists None. rewrite decide_True; [done|]. rewrite <- (Z.mod_add H 1) by lia. f_equal. lia.
    + rewrite decide_False; [apply Hfree; lia|]. intros E. apply (mod_window N H) in E; unfold zlen in *; lia.
Qed.

Lemma ring_len_ok H q r : ring_at N H q r -> ring_len r = zlen q.
Proof.
  intros Hr. pose proof (ring_at_pos _ _ _ Hr) as HN. destruct Hr as [Hk Hm Hs H0 Hh Ht Hl Hfull Hfree].
  unfold ring_len. rewrite Hh, Ht, wrap_sub. unfold wrap64. replace (H + zlen q - H) with (zlen q) by lia.
  apply Z.mod_small. unfold zlen in *. lia.
Qed.
End sequential.

Lemma npo2_ok n : 0 <= n <= 2 ^ 62 -> exists k, 0 <= k <= 62 /\ next_power_of_two (Z.max n 1) = 2 ^ k /\ n <= 2 ^ k < 2 * Z.max n 1.
Proof.
  intros Hn. unfold next_power_of_two. case_decide; [exists 0; lia|].
  exists (Z.log2_up (Z.max n 1)). pose proof (Z.log2_up_spec (Z.max n 1) ltac:(lia)) as [H1 H2].
  pose proof (Z.log2_up_nonneg (Z.max n 1)). split; [split; [lia|]|].
  - apply Z.log2_up_le_pow2; lia.
  - split; [done|]. split; [lia|]. replace (Z.log2_up (Z.max n 1)) with (Z.succ (Z.pred (Z.log2_up (Z.max n 1)))) by lia.
    rewrite Z.pow_succ_r; [lia|]. pose proof (Z.log2_up_pos (Z.max n 1) ltac:(lia)). lia.
Qed.

Lemma ring_new_ok {V} cap : 0 <= cap <= 2 ^ 62 ->
  ring_at (next_power_of_two (Z.max cap 1)) 0 [] (@ring_new V cap) /\ cap <= next_power_of_two (Z.max cap 1).
Proof.
  intros Hc. destruct (npo2_ok cap Hc) as (k & Hk & E & Hle). split; [|lia]. unfold ring_new. cbn zeta. rewrite E.
  split; cbn [head tail slots cap_mask]; try done.
  - by exists k.
  - unfold zlen. rewrite length_fmap, length_seqZ. lia.
  - unfold zlen. cbn. lia.
  - intros i Hi. unfold zlen in Hi. cbn [length] in Hi. exists None. rewrite Z.mod_small by lia. apply idx_Some. split; [lia|].
    rewrite list_lookup_fmap, lookup_seqZ_lt by lia. cbn. unfold wrap64. rewrite Z.mod_small; [f_equal; f_equal; lia|].
    destruct (pow2_divides k Hk) as (? & _ & _ & ?). lia.
Qed.

(** ** What a bounded buffer promises *)

(** The interface the channel uses of its buffer: [buf_rep N q b] says that [b] holds the queue
    [q] and has room for [N] values. *)
Class Buffer (V B : Type) := {
  buf_new : Z -> B;
  buf_len : B -> Z;
  buf_send : B -> V -> option (B * send_result V);
  buf_recv : B -> option (B * option V);
  buf_rep : Z -> list V -> B -> Prop;
  buf_new_ok : forall cap, 1 <= cap <= 2 ^ 62 -> exists N, cap <= N /\ buf_rep N [] (buf_new cap);
  buf_len_ok : forall N q b, buf_rep N q b -> buf_len b = zlen q;
  buf_send_ok : forall N q b v, buf_rep N q b -> zlen q < N ->
    exists b', buf_send b v = Some (b', SendOk) /\ buf_rep N (q ++ [v]) b';
  buf_recv_empty : forall N b, buf_rep N [] b -> buf_recv b = Some (b, None);
  buf_recv_ok : forall N x q b, buf_rep N (x :: q) b -> exists b', buf_recv b = Some (b', Some x) /\ buf_rep N q b'
}.

#[export] Program Instance ring_buffer {V} : Buffer V (Ring V) := {|
  buf_new := ring_new; buf_len := ring_len; buf_send := try_send; buf_recv := try_recv; buf_rep := ring_rep
|}.
Next Obligation.
  intros V cap Hc. destruct (@ring_new_ok V cap ltac:(lia)) as [H Hle]. eexists. split; [exact Hle|]. by exists 0.
Qed.
Next Obligation. intros V N q b [H Hr]. by apply (ring_len_ok N H). Qed.
Next Obligation. intros V N q b v [H Hr] Hl. destruct (try_send_ok N H q b v Hr Hl) as (b' & E & Hr'). exists b'. split; [done|by exists H]. Qed.
Next Obligation. intros V N b [H Hr]. by apply (try_recv_empty N H). Qed.
Next Obligation. intros V N x q b [H Hr]. destruct (try_recv_ok N H x q b Hr) as (b' & E & Hr'). exists b'. split; [done|by exists (H + 1)]. Qed.

(** ** Sequences of calls *)

Inductive ring_op (V : Type) := RSend (v : V) | RRecv.
Arguments RSend {V} v.
Arguments RRecv {V}.

(** The answer of a call: what [try_send] or [try_recv] returned. *)
Inductive ring_ans (V : Type) := ASend (r : send_result V) | ARecv (r : option V).
Arguments ASend {V} r.
Arguments ARecv {V} r.

Fixpoint ring_exec {V} (ops : list (ring_op V)) (r : Ring V) : option (Ring V * list (ring_ans V)) :=
  match ops with
  | [] => Some (r, [])
  | RSend v :: ops => '(r, a) ← try_send r v; '(r, l) ← ring_exec ops r; Some (r, ASend a :: l)
  | RRecv :: ops => '(r, a) ← try_recv r; '(r, l) ← ring_exec ops r; Some (r, ARecv a :: l)
  end.

(** The specification: a list with room for [N] values. *)
Fixpoint queue_exec {V} (N : Z) (ops : list (ring_op V)) (q : list V) : list V * list (ring_ans V) :=
  match ops with
  | [] => (q, [])
  | RSend v :: ops =>
      if decide (zlen q < N) then let '(q', l) := queue_exec N ops (q ++ [v]) in (q', ASend SendOk :: l)
      else let '(q', l) := queue_exec N ops q in (q', ASend (SendErr v) :: l)
  | RRecv :: ops =>
      match q with
      | [] => let '(q', l) := queue_exec N ops [] in (q', ARecv None :: l)
      | x :: q => let '(q', l) := queue_exec N ops q in (q', ARecv (Some x) :: l)
      end
  end.

Lemma ring_exec_ok {V} N (ops : list (ring_op V)) : 2 <= N -> forall H q r, ring_at N H q r ->
  exists H' r', ring_exec ops r = Some (r', (queue_exec N ops q).2) /\ ring_at N H' (queue_exec N ops q).1 r'.
Proof.
  intros HN. induction ops as [|[v|] ops IH]; intros H q r Hr; cbn [ring_exec queue_exec].
  - by exists H, r.
  - case_decide as Hl.
    + destruct (try_send_ok N H q r v Hr Hl) as (r1 & -> & Hr1). cbn [mbind option_bind].
      destruct (IH H _ _ Hr1) as (H' & r' & -> & Hr'). cbn [mbind option_bind]. exists H', r'. by destruct (queue_exec N ops (q ++ [v])).
    + pose proof (ra_len _ _ _ _ Hr). rewrite (try_send_full N H q r v Hr) by lia. cbn [mbind option_bind].
      destruct (IH H _ _ Hr) as (H' & r' & -> & Hr'). cbn [mbind option_bind]. exists H', r'. by destruct (queue_exec N ops q).
  - destruct q as [|x q].
    + rewrite (try_recv_empty N H r Hr). cbn [mbind option_bind].
      destruct (IH H _ _ Hr) as (H' & r' & -> & Hr'). cbn [mbind option_bind]. exists H', r'. by destruct (queue_exec N ops []).
    + destruct (try_recv_ok N H x q r Hr) as (r1 & -> & Hr1). cbn [mbind option_bind].
      destruct (IH (H + 1) _ _ Hr1) as (H' & r' & -> & Hr'). cbn [mbind option_bind]. exists H', r'. by destruct (queue_exec N ops q).
Qed.

(** ** Theorems *)

(** A ring built for [cap >= 2] values and used by one thread at a time is a first-in
    first-out queue with room for [cap] rounded up to a power of two: every call of every
    sequence of calls returns at once what the list specification returns, also after the
    counters have wrapped. *)
Theorem ring_refines_queue {V} cap (ops : list (ring_op V)) : 2 <= cap <= 2 ^ 62 ->
  let N := next_power_of_two (Z.max cap 1) in
  exists r', ring_exec ops (ring_new cap) = Some (r', (queue_exec N ops []).2) /\
    capacity (@ring_new V cap) = N /\ ring_len r' = zlen (queue_exec N ops []).1 /\ cap <= N < 2 * cap.
Proof.
  intros Hc N. destruct (@ring_new_ok V cap ltac:(lia)) as [Hr Hle]. destruct (npo2_ok cap ltac:(lia)) as (k & Hk & E & Hb).
  destruct (ring_exec_ok N ops ltac:(unfold N; lia) 0 [] _ Hr) as (H' & r' & -> & Hr'). exists r'. split; [done|].
  pose proof (ring_at_pos _ _ _ _ Hr'). split; [|split; [by apply (ring_len_ok N H')|unfold N; lia]].
  unfold capacity. rewrite (ra_mask _ _ _ _ Hr). fold N. rewrite add64_small; lia.
Qed.

Lemma ring_refines_queue_witness :
  exists r', ring_exec [RSend 1; RSend 2; RSend 3; RSend 4; RSend 5; RRecv; RSend 6; RRecv] (ring_new 3) =
      Some (r', (queue_exec 4 [RSend 1; RSend 2; RSend 3; RSend 4; RSend 5; RRecv; RSend 6; RRecv] []).2) /\
    capacity (@ring_new Z 3) = 4 /\
    ring_len r' = zlen (queue_exec 4 [RSend 1; RSend 2; RSend 3; RSend 4; RSend 5; RRecv; RSend 6; RRecv] []).1 /\ 3 <= 4 < 2 * 3.
Proof. apply (ring_refines_queue 3 [RSend 1; RSend 2; RSend 3; RSend 4; RSend 5; RRecv; RSend 6; RRecv]). lia. Defined.

(** A ring of capacity one is not a queue: [new(1)] accepts a second value into its only slot,
    overwriting the first, and from then on [try_recv] retries for ever, whatever number of
    iterations it is given. *)
Theorem ring_capacity_one (a b : Z) :
  exists r, ring_exec [RSend a; RSend b] (ring_new 1) = Some (r, [ASend SendOk; ASend SendOk]) /\
    capacity r = 1 /\ ring_len r = 2 /\ (forall fuel, try_recv_loop fuel r (head r) = None).
Proof.
  eexists. split; [vm_compute; reflexivity|]. split; [done|]. split; [done|]. cbn [head].
  induction fuel as [|fuel IH]; [done|]. exact IH.
Qed.
