(* ===== verification/RingConcurrent.v ===== *)
(** The ring under concurrency: src/src/runtime/lockfree_ring.rs, [try_send] and [try_recv].

    Any number of threads run the two loops; a step of a thread is one access to shared
    memory (the program counters below sit before each of them), and a schedule is a list of
    steps.  [compare_exchange_weak] may fail spuriously.  The accesses are sequentially
    consistent: the model does not represent the weaker orderings the code passes.  The logs
    [sent] and [got] are history variables: the values in the order their tickets were
    claimed, and the tickets and values read by consumers. *)
From Stdlib Require Import ZArith Lia.
From stdpp Require Import base tactics numbers list list_numbers option.
From S2P Require Import Prelude LockFreeRing.
Open Scope Z_scope.
Local Open Scope goish_scope.

Section concurrent.
  Context {V : Type}.

Inductive thread :=
| Idle
| SendLoad (v : V)
| SendSeq (v : V) (t : Z)
| SendCas (v : V) (t : Z)
| SendWrite (v : V) (t : Z)
| SendPublish (t : Z)
| RecvLoad
| RecvSeq (h : Z)
| RecvCas (h : Z)
| RecvRead (h : Z)
| RecvPublish (h : Z) (v : V).

(** What the scheduler lets a thread do: begin a call when idle, or make one access;
    [Go true] makes a compare-exchange fail spuriously. *)
Inductive action := StartSend (v : V) | StartRecv | Go (spurious : bool).

Record config := mkConfig {
  ring : Ring V;
  threads : list thread;
  sent : list V;
  got : list (Z * V)
}.

Definition slot_at (r : Ring V) (i : Z) : option (Slot V) := idx (slots r) (Z.land i (cap_mask r)).

(** One access of a thread: the ring, its next program counter, the value whose ticket it
    claimed, and what it read. *)
Definition thread_step (r : Ring V) (th : thread) (a : action) : option (Ring V * thread * list V * list (Z * V)) :=
  match th, a with
  | Idle, StartSend v => Some (r, SendLoad v, [], [])
  | Idle, StartRecv => Some (r, RecvLoad, [], [])
  | SendLoad v, Go _ => Some (r, SendSeq v (tail r), [], [])
  | SendSeq v t, Go _ =>
      slot ← slot_at r t;
      let diff := as_isize (seq slot -! t) in
      Some (r, (if decide (diff = 0) then SendCas v t else if decide (diff < 0) then Idle else SendLoad v), [], [])
  | SendCas v t, Go spurious =>
      if decide (tail r = t /\ spurious = false)
      then Some (mkRing (head r) (t +! 1) (slots r) (cap_mask r), SendWrite v t, [v], [])
      else Some (r, SendSeq v (tail r), [], [])
  | SendWrite v t, Go _ =>
      slot ← slot_at r t;
      r ← set_slot r (Z.land t (cap_mask r)) (mkSlot (seq slot) (Some v));
      Some (r, SendPublish t, [], [])
  | SendPublish t, Go _ =>
      slot ← slot_at r t;
      r ← set_slot r (Z.land t (cap_mask r)) (mkSlot (t +! 1) (val slot));
      Some (r, Idle, [], [])
  | RecvLoad, Go _ => Some (r, RecvSeq (head r), [], [])
  | RecvSeq h, Go _ =>
      slot ← slot_at r h;
      let diff := as_isize (seq slot -! (h +! 1)) in
      Some (r, (if decide (diff = 0) then RecvCas h else if decide (diff < 0) then Idle else RecvLoad), [], [])
  | RecvCas h, Go spurious =>
      if decide (head r = h /\ spurious = false)
      then Some (mkRing (h +! 1) (tail r) (slots r) (cap_mask r), RecvRead h, [], [])
      else Some (r, RecvSeq (head r), [], [])
  | RecvRead h, Go _ =>
      slot ← slot_at r h;
      v ← val slot;
      Some (r, RecvPublish h v, [], [(h, v)])
  | RecvPublish h v, Go _ =>
      slot ← slot_at r h;
      r ← set_slot r (Z.land h (cap_mask r)) (mkSlot (h +! capacity r) None);
      Some (r, Idle, [], [])
  | th, _ => Some (r, th, [], [])
  end.

Definition step (tid : nat) (a : action) (c : config) : option config :=
  match threads c !! tid with
  | None => Some c
  | Some th =>
      '(r, th, s, g) ← thread_step (ring c) th a;
      Some (mkConfig r (<[tid := th]> (threads c)) (sent c ++ s) (got c ++ g))
  end.

Fixpoint run_schedule (sched : list (nat * action)) (c : config) : option config :=
  match sched with
  | [] => Some c
  | (tid, a) :: sched => c ← step tid a c; run_schedule sched c
  end.

(** [n] idle threads over a new ring. *)
Definition start (n : nat) (cap : Z) : config := mkConfig (ring_new cap) (replicate n Idle) [] [].

(** ** The invariant *)

(** Who owns a slot: nobody, the producer of its ticket (before or after its write), nobody
    again once published, or the consumer of its ticket (before or after its read). *)
Inductive status := Free | Writing (tid : nat) (wrote : bool) | Full | Reading (tid : nat) (read : bool).

Definition sent_at (s : list V) (i : Z) : option V := s !! Z.to_nat i.

Definition slot_ok (N H T : Z) (s : list V) (g : list (Z * V)) (i : Z) (st : status) (sl : Slot V) : Prop :=
  match st with
  | Free => seq sl = i /\ T <= i < H + N
  | Writing _ w => seq sl = i /\ H <= i < T /\ T <= i + N /\ (w = true -> val sl = sent_at s i)
  | Full => seq sl = i + 1 /\ H <= i < T /\ T <= i + N /\ val sl = sent_at s i
  | Reading _ rd => seq sl = i + 1 /\ 0 <= i < H /\ T <= i + N /\ val sl = sent_at s i /\ (rd = false -> i ∉ g.*1)
  end.

(** [G] assigns each slot its current ticket and owner. *)
Definition thread_ok (N H T : Z) (s : list V) (G : Z -> Z * status) (tid : nat) (th : thread) : Prop :=
  match th with
  | Idle | SendLoad _ | RecvLoad => True
  | SendSeq _ t => 0 <= t <= T
  | SendCas _ t => 0 <= t <= T /\ (t = T -> G (t mod N) = (t, Free))
  | SendWrite v t => 0 <= t /\ G (t mod N) = (t, Writing tid false) /\ sent_at s t = Some v
  | SendPublish t => 0 <= t /\ G (t mod N) = (t, Writing tid true)
  | RecvSeq h => 0 <= h <= H
  | RecvCas h => 0 <= h <= H /\ (h = H -> G (h mod N) = (h, Full))
  | RecvRead h => 0 <= h /\ G (h mod N) = (h, Reading tid false)
  | RecvPublish h _ => 0 <= h /\ G (h mod N) = (h, Reading tid true)
  end.

Record inv (N : Z) (G : Z -> Z * status) (c : config) : Prop := {
  iv_cap : exists k, 1 <= k <= 62 /\ N = 2 ^ k;
  iv_mask : cap_mask (ring c) = N - 1;
  iv_slots : zlen (slots (ring c)) = N;
  iv_order : 0 <= head (ring c) <= tail (ring c);
  iv_window : tail (ring c) <= head (ring c) + N;
  iv_sent : zlen (sent c) = tail (ring c);
  iv_slot : forall j, 0 <= j < N -> exists sl, idx (slots (ring c)) j = Some sl /\ (G j).1 mod N = j /\
    slot_ok N (head (ring c)) (tail (ring c)) (sent c) (got c) (G j).1 (G j).2 sl;
  iv_thread : forall tid th, threads c !! tid = Some th ->
    thread_ok N (head (ring c)) (tail (ring c)) (sent c) G tid th;
  iv_got : Forall (fun p => 0 <= p.1 < head (ring c) /\ sent_at (sent c) p.1 = Some p.2) (got c);
  iv_once : base.NoDup (got c).*1
}.
End concurrent.
Arguments thread : clear implicits.
Arguments action : clear implicits.
Arguments config : clear implicits.

(** ** Frames *)

Definition upd_ghost (G : Z -> Z * status) (j : Z) (x : Z * status) : Z -> Z * status :=
  fun k => if decide (k = j) then x else G k.

Section frame.
  Context {V : Type}.
  Implicit Types (s : list V).

Lemma sent_at_app s v i T : zlen s = T -> 0 <= i < T -> sent_at (s ++ [v]) i = sent_at s i.
Proof. intros Hl Hi. unfold sent_at. apply lookup_app_l. unfold zlen in Hl. lia. Qed.

(** What one step may do to the counters and logs; [j] is the slot it works on. *)
Record moved (N j H T H' T' : Z) (s s' : list V) (g g' : list (Z * V)) : Prop := {
  mv_tail : (T' = T /\ s' = s) \/ (T' = T + 1 /\ T mod N = j /\ exists v, s' = s ++ [v]);
  mv_head : H' = H \/ (H' = H + 1 /\ H mod N = j);
  mv_got : g' = g \/ exists h v, g' = g ++ [(h, v)] /\ h mod N = j
}.

Lemma moved_sent N j H T H' T' s s' g g' i : moved N j H T H' T' s s' g g' -> zlen s = T -> 0 <= i < T ->
  sent_at s' i = sent_at s i.
Proof. intros [[[_ ->]|(_ & _ & v & ->)] _ _] Hl Hi; [done|by apply (sent_at_app s v i T)]. Qed.

(** Slots other than the one worked on stay right. *)
Lemma slot_frame N j H T H' T' s s' g g' i st (sl : Slot V) : 2 <= N -> moved N j H T H' T' s s' g g' -> zlen s = T ->
  0 <= H <= T -> i mod N <> j -> slot_ok N H T s g i st sl -> slot_ok N H' T' s' g' i st sl.
Proof.
  intros HN M Hl H0 Hj Hok. pose proof (fun Hr => moved_sent _ _ _ _ _ _ _ _ _ _ i M Hl Hr) as Hs.
  assert ((i + N) mod N = i mod N) as HiN by (rewrite <- (Z.mod_add i 1) by lia; f_equal; lia).
  assert (T' <> T -> i <> T /\ i + N <> T) as HT.
  { intros Hne. destruct (mv_tail _ _ _ _ _ _ _ _ _ _ M) as [[? _]|(_ & Hm & _)]; [done|]. split; intros E; apply Hj; congruence. }
  assert (H' <> H -> i <> H) as HH.
  { intros Hne E. apply Hj. rewrite E. destruct (mv_head _ _ _ _ _ _ _ _ _ _ M) as [?|[_ ?]]; done. }
  assert (T <= T' <= T + 1 /\ H <= H' <= H + 1) as Hr.
  { destruct (mv_tail _ _ _ _ _ _ _ _ _ _ M) as [[? _]|(? & _)], (mv_head _ _ _ _ _ _ _ _ _ _ M) as [?|[? _]]; lia. }
  destruct st as [|tid w| |tid rd]; cbn [slot_ok] in *.
  - destruct (decide (T' = T)); lia.
  - destruct Hok as (? & ? & ? & Hv). rewrite Hs by lia. destruct (decide (T' = T)), (decide (H' = H)); split_and!; (done || lia).
  - destruct Hok as (? & ? & ? & Hv). rewrite Hs by lia. destruct (decide (T' = T)), (decide (H' = H)); split_and!; (done || lia).
  - destruct Hok as (? & ? & ? & Hv & Hg). rewrite Hs by lia. destruct (decide (T' = T)); split_and!; try done; try lia;
      intros Hrd; specialize (Hg Hrd); destruct (mv_got _ _ _ _ _ _ _ _ _ _ M) as [->|(h & v & -> & Hh)]; try done;
      rewrite fmap_app, elem_of_app; intros [?|Hin]; try done; apply list_elem_of_singleton in Hin; cbn in Hin; congruence.
Qed.

(** A thread that does not own slot [j] stays right when [j] changes hands. *)
Lemma thread_frame N j H T H' T' s s' g g' G i st x tid tid' (th : thread V) : 2 <= N -> moved N j H T H' T' s s' g g' ->
  zlen s = T -> G j = (i, st) -> tid' <> tid ->
  (forall w, st <> Writing tid' w /\ st <> Reading tid' w) -> (st = Free -> i < T') -> (st = Full -> i < H') ->
  (forall t v, th = SendWrite v t -> t < T) ->
  thread_ok N H T s G tid' th -> thread_ok N H' T' s' (upd_ghost G j x) tid' th.
Proof.
  intros HN M Hl HG Htid Hown Hfree Hfull Hw Hok.
  assert (T <= T' <= T + 1 /\ H <= H' <= H + 1) as Hr.
  { destruct (mv_tail _ _ _ _ _ _ _ _ _ _ M) as [[? _]|(? & _)], (mv_head _ _ _ _ _ _ _ _ _ _ M) as [?|[? _]]; lia. }
  destruct th as [|v|v t|v t|v t|t| |h|h|h|h v]; cbn [thread_ok] in *; try done; try lia; unfold upd_ghost.
  - destruct Hok as [Ht Hc]. split; [lia|]. intros ->. specialize (Hc ltac:(lia)). case_decide as E; [|done].
    rewrite E, HG in Hc. injection Hc as -> ->. specialize (Hfree eq_refl). lia.
  - destruct Hok as (Ht & Hg & Hs). split; [done|]. split.
    + case_decide as E; [|done]. rewrite E, HG in Hg. injection Hg as -> ->. by destruct (Hown false).
    + rewrite <- Hs. apply (moved_sent _ _ _ _ _ _ _ _ _ _ t M Hl). split; [lia|]. by apply (Hw t v).
  - destruct Hok as (Ht & Hg). split; [done|]. case_decide as E; [|done]. rewrite E, HG in Hg. injection Hg as -> ->.
    by destruct (Hown true).
  - destruct Hok as [Ht Hc]. split; [lia|]. intros ->. specialize (Hc ltac:(lia)). case_decide as E; [|done].
    rewrite E, HG in Hc. injection Hc as -> ->. specialize (Hfull eq_refl). lia.
  - destruct Hok as (Ht & Hg). split; [done|]. case_decide as E; [|done]. rewrite E, HG in Hg. injection Hg as -> ->.
    by destruct (Hown false).
  - destruct Hok as (Ht & Hg). split; [done|]. case_decide as E; [|done]. rewrite E, HG in Hg. injection Hg as -> ->.
    by destruct (Hown true).
Qed.
End frame.

(** ** Preservation *)

Section preserve.
  Context {V : Type} (N : Z) (G : Z -> Z * status) (c : config V) (I : inv N G c).
  Context (tid : nat) (th : thread V) (Hth : threads c !! tid = Some th).
  Local Abbreviation H := (head (ring c)).
  Local Abbreviation T := (tail (ring c)).

Lemma cap_bounds : 2 <= N <= 2 ^ 62.
Proof. destruct (iv_cap _ _ _ I) as (k & Hk & ->). split; [|apply Z.pow_le_mono_r; lia]. change 2 with (2 ^ 1). apply Z.pow_le_mono_r; lia. Qed.

Lemma residue i : 0 <= i mod N < N.
Proof. pose proof cap_bounds. apply Z.mod_pos_bound. lia. Qed.

(** The slot of ticket [t], whose owner is known. *)
Lemma slot_of_ticket t st : G (t mod N) = (t, st) ->
  exists sl, slot_at (ring c) t = Some sl /\ idx (slots (ring c)) (t mod N) = Some sl /\ slot_ok N H T (sent c) (got c) t st sl.
Proof.
  intros E. destruct (iv_slot _ _ _ I (t mod N) (residue t)) as (sl & Hs & _ & Hok). rewrite E in Hok.
  exists sl. split; [|done]. unfold slot_at. rewrite (iv_mask _ _ _ I), (land_mask N) by (destruct (iv_cap _ _ _ I) as (k & ? & ?); exists k; split; [lia|done]). done.
Qed.

(** A step that touches no shared variable. *)
Lemma inv_pure th' : thread_ok N H T (sent c) G tid th' ->
  inv N G (mkConfig (ring c) (<[tid := th']> (threads c)) (sent c ++ []) (got c ++ [])).
Proof.
  intros Hok. rewrite !app_nil_r. destruct I as [? ? ? ? ? ? ? It ? ?]. split; cbn [ring threads sent got]; try done.
  intros k x Hk. apply list_lookup_insert_Some in Hk as [(-> & -> & _)|[_ Hk]]; [done|by apply It].
Qed.

(** A step that works on the slot of residue [j]. *)
Lemma inv_change j i st i' st' sl' r' th' s' g' :
  0 <= j < N -> G j = (i, st) ->
  (forall tid' w, tid' <> tid -> st <> Writing tid' w /\ st <> Reading tid' w) ->
  (st = Free -> i < tail r') -> (st = Full -> i < head r') ->
  moved N j H T (head r') (tail r') (sent c) s' (got c) g' ->
  cap_mask r' = cap_mask (ring c) -> slots r' = <[Z.to_nat j := sl']> (slots (ring c)) ->
  head r' <= tail r' <= head r' + N -> i' mod N = j -> slot_ok N (head r') (tail r') s' g' i' st' sl' ->
  thread_ok N (head r') (tail r') s' (upd_ghost G j (i', st')) tid th' ->
  Forall (fun p => 0 <= p.1 < head r' /\ sent_at s' p.1 = Some p.2) g' -> base.NoDup g'.*1 ->
  inv N (upd_ghost G j (i', st')) (mkConfig r' (<[tid := th']> (threads c)) s' g').
Proof.
  intros Hj HG Hown Hfree Hfull M Hmask Hslots Hle Hi' Hok' Hth' Hgot Honce.
  pose proof cap_bounds as HN. pose proof (iv_order _ _ _ I) as Ho. pose proof (iv_window _ _ _ I) as Hwin. pose proof (iv_sent _ _ _ I) as Hs.
  split; cbn [ring threads sent got]; try done.
  - apply I.
  - rewrite Hmask. apply I.
  - rewrite Hslots, zlen_insert. apply I.
  - destruct (mv_head _ _ _ _ _ _ _ _ _ _ M) as [?|[? _]]; lia.
  - lia.
  - destruct (mv_tail _ _ _ _ _ _ _ _ _ _ M) as [[? ->]|(? & _ & v & ->)]; [lia|]. unfold zlen in *. rewrite length_app. cbn. lia.
  - intros k Hk. rewrite Hslots. pose proof (iv_slots _ _ _ I) as Hz. rewrite idx_insert by lia. unfold upd_ghost.
    destruct (decide (k = j)) as [->|Hne]; [rewrite decide_True by done; by exists sl'|rewrite decide_False by done].
    destruct (iv_slot _ _ _ I k Hk) as (sl & E & Hm & Hok). exists sl. split; [done|]. split; [done|].
    eapply slot_frame; [lia|exact M|done|done|congruence|done].
  - intros tid' th1 Hl. apply list_lookup_insert_Some in Hl as [(<- & <- & _)|[Hne Hl]]; [done|].
    eapply thread_frame; [lia|exact M|done|exact HG|by apply not_eq_sym|intros w; by apply Hown, not_eq_sym|done|done| |by apply (iv_thread _ _ _ I)].
    intros t v ->. destruct (iv_thread _ _ _ I _ _ Hl) as (_ & Hg & _). destruct (slot_of_ticket t _ Hg) as (sl & _ & _ & Hso). cbn in Hso. lia.
Qed.

Context (Hb : tail (ring c) < 2 ^ 62).

Lemma slot_any i : exists sl, slot_at (ring c) i = Some sl /\ exists t st, t mod N = i mod N /\ G (i mod N) = (t, st) /\
  slot_ok N H T (sent c) (got c) t st sl /\ 0 <= seq sl < 2 ^ 63.
Proof.
  destruct (iv_slot _ _ _ I (i mod N) (residue i)) as (sl & Hs & Hm & Hok). exists sl. split.
  - unfold slot_at. rewrite (iv_mask _ _ _ I), (land_mask N) by (destruct (iv_cap _ _ _ I) as (k & ? & ?); exists k; split; [lia|done]). done.
  - destruct (G (i mod N)) as [t st] eqn:E. exists t, st. split; [done|]. split; [done|]. split; [done|].
    pose proof (iv_order _ _ _ I). pose proof cap_bounds. destruct st; cbn in Hok; lia.
Qed.

Lemma diff_small a b : 0 <= a < 2 ^ 63 -> 0 <= b < 2 ^ 63 -> as_isize (a -! b) = a - b.
Proof. intros Ha Hb'. rewrite <- (wrap64_small a), <- (wrap64_small b) by lia. rewrite isize_diff by (rewrite ?wrap64_small by lia; lia). rewrite ?wrap64_small by lia. done. Qed.

(** Two tickets of the same slot are a multiple of [N >= 2] apart. *)
Lemma no_neighbour t : (t + 1) mod N <> t mod N.
Proof.
  pose proof cap_bounds as HN. intros E. pose proof (Z.div_mod (t + 1) N ltac:(lia)). pose proof (Z.div_mod t N ltac:(lia)).
  assert (N * ((t + 1) / N - t / N) = 1) by lia. assert (0 < (t + 1) / N - t / N) by nia. nia.
Qed.

Lemma send_seq_ok v t spurious : th = SendSeq v t ->
  exists th', thread_step (ring c) th (Go spurious) = Some (ring c, th', [], []) /\ thread_ok N H T (sent c) G tid th'.
Proof.
  intros ->. pose proof (iv_thread _ _ _ I _ _ Hth) as Ht. cbn [thread_ok] in Ht. cbn [thread_step].
  destruct (slot_any t) as (sl & -> & i & st & Hm & HG & Hok & Hseq). cbn [mbind option_bind]. rewrite diff_small by lia.
  eexists. split; [done|]. case_decide as E; [|by case_decide]. split; [lia|]. intros ->. rewrite HG.
  destruct st as [|w b| |w b]; cbn [slot_ok] in Hok.
  - destruct Hok as [Es _]. do 2 f_equal. lia.
  - lia.
  - destruct Hok as [Es _]. destruct (no_neighbour i). by replace (i + 1) with T by lia.
  - destruct Hok as [Es _]. destruct (no_neighbour i). by replace (i + 1) with T by lia.
Qed.

Lemma recv_seq_ok h spurious : th = RecvSeq h ->
  exists th', thread_step (ring c) th (Go spurious) = Some (ring c, th', [], []) /\ thread_ok N H T (sent c) G tid th'.
Proof.
  intros ->. pose proof (iv_thread _ _ _ I _ _ Hth) as Ht. cbn [thread_ok] in Ht. cbn [thread_step].
  pose proof (iv_order _ _ _ I) as Ho. pose proof (iv_window _ _ _ I) as Hwin.
  destruct (slot_any h) as (sl & -> & i & st & Hm & HG & Hok & Hseq). cbn [mbind option_bind].
  rewrite (add64_small h 1), diff_small by lia. eexists. split; [done|]. case_decide as E; [|by case_decide].
  split; [lia|]. intros ->. rewrite HG. destruct st as [|w b| |w b]; cbn [slot_ok] in Hok.
  - destruct Hok as [Es _]. destruct (no_neighbour H). by replace (H + 1) with i by lia.
  - destruct Hok as [Es _]. destruct (no_neighbour H). by replace (H + 1) with i by lia.
  - destruct Hok as [Es _]. do 2 f_equal. lia.
  - lia.
Qed.

(** The invariant survives the step, which advances the counters by at most one. *)
Definition step_good (a : action V) : Prop :=
  exists r' th' s' g' G', thread_step (ring c) th a = Some (r', th', s', g') /\ tail r' <= T + 1 /\
    inv N G' (mkConfig r' (<[tid := th']> (threads c)) (sent c ++ s') (got c ++ g')).

Lemma good_pure a th' : thread_step (ring c) th a = Some (ring c, th', [], []) -> thread_ok N H T (sent c) G tid th' -> step_good a.
Proof. intros E Hok. exists (ring c), th', [], [], G. split; [done|]. split; [lia|]. by apply inv_pure. Qed.

Lemma insert_same j sl : idx (slots (ring c)) j = Some sl -> slots (ring c) = <[Z.to_nat j := sl]> (slots (ring c)).
Proof. intros [_ E]%idx_Some. by rewrite list_insert_id. Qed.

Lemma moved_refl j : moved N j H T H T (sent c) (sent c) (got c) (got c).
Proof. split; by left. Qed.

Lemma store_slot t sl : exists r', set_slot (ring c) (Z.land t (cap_mask (ring c))) sl = Some r' /\
  head r' = H /\ tail r' = T /\ cap_mask r' = cap_mask (ring c) /\ slots r' = <[Z.to_nat (t mod N) := sl]> (slots (ring c)).
Proof.
  unfold set_slot. rewrite (iv_mask _ _ _ I), (land_mask N) by (destruct (iv_cap _ _ _ I) as (k & ? & ?); exists k; split; [lia|done]).
  pose proof (residue t). rewrite upd_Some by (rewrite (iv_slots _ _ _ I); lia). cbn [mbind option_bind]. eexists. by split.
Qed.

Lemma send_cas_ok v t spurious : th = SendCas v t -> step_good (Go spurious).
Proof.
  intros Eth. pose proof (iv_thread _ _ _ I _ _ Hth) as Hown. rewrite Eth in Hown. destruct Hown as [Ht Hf]. cbn [thread_ok] in Ht, Hf. pose proof (iv_order _ _ _ I) as Ho. pose proof (iv_window _ _ _ I) as Hwin.
  destruct (decide (T = t /\ spurious = false)) as [E|E]; cycle 1.
  { apply (good_pure _ (SendSeq v T)); [rewrite Eth; cbn [thread_step]; by rewrite decide_False|cbn; lia]. }
  destruct E as [<- ->]. specialize (Hf eq_refl). destruct (slot_of_ticket T Free Hf) as (sl & _ & Es & Hok). cbn [slot_ok] in Hok.
  exists (mkRing H (T + 1) (slots (ring c)) (cap_mask (ring c))), (SendWrite v T), [v], [], (upd_ghost G (T mod N) (T, Writing tid false)).
  split; [rewrite Eth; cbn [thread_step]; rewrite decide_True by done; by rewrite add64_small by lia|]. split; [cbn; lia|]. rewrite app_nil_r.
  pose proof (iv_sent _ _ _ I) as Hs. pose proof (residue T) as Hr.
  assert (sent_at (sent c ++ [v]) T = Some v) as Hat.
  { unfold sent_at. rewrite lookup_app_r by (unfold zlen in Hs; lia). unfold zlen in Hs. replace (_ - _)%nat with 0%nat by lia. done. }
  eapply (inv_change (T mod N) T Free T (Writing tid false) sl); cbn [head tail slots cap_mask]; try done; try lia.
  - split; [right; split; [done|]; split; [done|by eexists]|by left|by left].
  - by apply insert_same.
  - cbn [slot_ok]. split_and!; (done || lia).
  - cbn [thread_ok]. unfold upd_ghost. rewrite decide_True by done. split_and!; (done || lia).
  - eapply Forall_impl; [|apply (iv_got _ _ _ I)]. intros [h w] [Hh Hw]. cbn [fst snd] in *. split; [lia|].
    rewrite (sent_at_app _ v _ T) by (done || lia). done.
  - apply I.
Qed.

Lemma send_write_ok v t spurious : th = SendWrite v t -> step_good (Go spurious).
Proof.
  intros Eth. pose proof (iv_thread _ _ _ I _ _ Hth) as Hown. rewrite Eth in Hown. destruct Hown as (Ht & HG & Hv). destruct (slot_of_ticket t _ HG) as (sl & Ea & Es & Hok).
  cbn [slot_ok] in Hok. destruct (store_slot t (mkSlot (seq sl) (Some v))) as (r' & Er & Eh & Et & Em & Esl). pose proof (iv_order _ _ _ I) as Ho. pose proof (iv_window _ _ _ I) as Hwin.
  exists r', (SendPublish t), [], [], (upd_ghost G (t mod N) (t, Writing tid true)). rewrite !app_nil_r.
  split; [rewrite Eth; cbn [thread_step]; rewrite Ea; cbn [mbind option_bind]; by rewrite Er|]. split; [lia|].
  eapply (inv_change (t mod N) t (Writing tid false) t (Writing tid true)); rewrite ?Eh, ?Et; try done; try apply I.
  - apply residue.
  - intros tid' w Hne. split; congruence.
  - apply moved_refl.
  - lia.
  - cbn [slot_ok seq val]. split_and!; (done || lia || (intros _; congruence)).
  - cbn [thread_ok]. unfold upd_ghost. rewrite decide_True by done. split_and!; (done || lia).
Qed.

Lemma send_publish_ok t spurious : th = SendPublish t -> step_good (Go spurious).
Proof.
  intros Eth. pose proof (iv_thread _ _ _ I _ _ Hth) as Hown. rewrite Eth in Hown. destruct Hown as (Ht & HG). destruct (slot_of_ticket t _ HG) as (sl & Ea & Es & Hok).
  cbn [slot_ok] in Hok. pose proof (iv_order _ _ _ I) as Ho. pose proof (iv_window _ _ _ I) as Hwin.
  destruct (store_slot t (mkSlot (t + 1) (val sl))) as (r' & Er & Eh & Et & Em & Esl).
  exists r', Idle, [], [], (upd_ghost G (t mod N) (t, Full)). rewrite !app_nil_r.
  split; [rewrite Eth; cbn [thread_step]; rewrite Ea; cbn [mbind option_bind]; rewrite add64_small by lia; by rewrite Er|]. split; [lia|].
  eapply (inv_change (t mod N) t (Writing tid true) t Full); rewrite ?Eh, ?Et; try done; try apply I.
  - apply residue.
  - intros tid' w Hne. split; congruence.
  - apply moved_refl.
  - lia.
  - cbn [slot_ok seq val]. destruct Hok as (? & ? & ? & Hw). split_and!; (done || lia || by apply Hw).
Qed.

Lemma recv_cas_ok h spurious : th = RecvCas h -> step_good (Go spurious).
Proof.
  intros Eth. pose proof (iv_thread _ _ _ I _ _ Hth) as Hown. rewrite Eth in Hown. destruct Hown as [Ht Hf]. cbn [thread_ok] in Ht, Hf. pose proof (iv_order _ _ _ I) as Ho. pose proof (iv_window _ _ _ I) as Hwin.
  destruct (decide (H = h /\ spurious = false)) as [E|E]; cycle 1.
  { apply (good_pure _ (RecvSeq H)); [rewrite Eth; cbn [thread_step]; by rewrite decide_False|cbn; lia]. }
  destruct E as [<- ->]. specialize (Hf eq_refl). destruct (slot_of_ticket H Full Hf) as (sl & _ & Es & Hok). cbn [slot_ok] in Hok.
  exists (mkRing (H + 1) T (slots (ring c)) (cap_mask (ring c))), (RecvRead H), [], [], (upd_ghost G (H mod N) (H, Reading tid false)).
  rewrite !app_nil_r.
  split; [rewrite Eth; cbn [thread_step]; rewrite decide_True by done; by rewrite add64_small by lia|]. split; [cbn; lia|].
  pose proof (iv_got _ _ _ I) as Hg.
  eapply (inv_change (H mod N) H Full H (Reading tid false) sl); cbn [head tail slots cap_mask]; try done; try lia.
  - split; [by left|by right|by left].
  - by apply insert_same.
  - cbn [slot_ok]. destruct Hok as (? & ? & ? & ?). split_and!; try done; try lia. intros _ Hin.
    apply list_elem_of_fmap in Hin as ([h w] & E & Hin). apply list_elem_of_lookup in Hin as [k Hk].
    rewrite Forall_lookup in Hg. specialize (Hg k _ Hk). cbn in *. lia.
  - cbn [thread_ok]. unfold upd_ghost. rewrite decide_True by done. split_and!; (done || lia).
  - eapply Forall_impl; [|exact Hg]. intros [h w] [Hh Hw]. cbn [fst snd] in *. split; [lia|done].
  - apply I.
Qed.

Lemma recv_read_ok h spurious : th = RecvRead h -> step_good (Go spurious).
Proof.
  intros Eth. pose proof (iv_thread _ _ _ I _ _ Hth) as Hown. rewrite Eth in Hown. destruct Hown as (Ht & HG).
  destruct (slot_of_ticket h _ HG) as (sl & Ea & Es & Hok). cbn [slot_ok] in Hok. pose proof (iv_order _ _ _ I) as Ho. pose proof (iv_window _ _ _ I) as Hwin.
  destruct Hok as (Hseq & Hh & HT & Hval & Hnew). specialize (Hnew eq_refl).
  assert (exists v, sent_at (sent c) h = Some v) as (v & Hv).
  { apply lookup_lt_is_Some_2. pose proof (iv_sent _ _ _ I) as Hs. unfold zlen in Hs. lia. }
  exists (ring c), (RecvPublish h v), [], [(h, v)], (upd_ghost G (h mod N) (h, Reading tid true)). rewrite app_nil_r.
  split; [rewrite Eth; cbn [thread_step]; rewrite Ea; cbn [mbind option_bind]; by rewrite Hval, Hv|]. split; [lia|].
  eapply (inv_change (h mod N) h (Reading tid false) h (Reading tid true) sl); try done; try apply I.
  - apply residue.
  - intros tid' w Hne. split; congruence.
  - split; [by left|by left|right; by exists h, v].
  - by apply insert_same.
  - lia.
  - cbn [thread_ok]. unfold upd_ghost. rewrite decide_True by done. done.
  - apply Forall_app. split; [apply (iv_got _ _ _ I)|]. constructor; [|constructor]. cbn. split; [lia|done].
  - rewrite fmap_app. apply list.NoDup_app. split; [apply (iv_once _ _ _ I)|]. split; [|apply NoDup_singleton].
    intros x Hx Hin. apply list_elem_of_singleton in Hin. cbn in Hin. congruence.
Qed.

Lemma recv_publish_ok h v spurious : th = RecvPublish h v -> step_good (Go spurious).
Proof.
  intros Eth. pose proof (iv_thread _ _ _ I _ _ Hth) as Hown. rewrite Eth in Hown. destruct Hown as (Ht & HG).
  destruct (slot_of_ticket h _ HG) as (sl & Ea & Es & Hok). cbn [slot_ok] in Hok. pose proof (iv_order _ _ _ I) as Ho. pose proof (iv_window _ _ _ I) as Hwin.
  pose proof cap_bounds as HN. destruct (store_slot h (mkSlot (h + N) None)) as (r' & Er & Eh & Et & Em & Esl).
  exists r', Idle, [], [], (upd_ghost G (h mod N) (h + N, Free)). rewrite !app_nil_r. split.
  { rewrite Eth. cbn [thread_step]. rewrite Ea. cbn [mbind option_bind]. unfold capacity. rewrite (iv_mask _ _ _ I) in Er |- *.
    rewrite (add64_small (N - 1) 1), add64_small by lia. replace (N - 1 + 1) with N by lia. by rewrite Er. }
  split; [lia|].
  eapply (inv_change (h mod N) h (Reading tid true) (h + N) Free); rewrite ?Eh, ?Et; try done; try apply I.
  - apply residue.
  - intros tid' w Hne. split; congruence.
  - apply moved_refl.
  - lia.
  - rewrite <- (Z.mod_add h 1) by lia. f_equal. lia.
  - cbn [slot_ok seq val]. split; [done|lia].
Qed.

End preserve.

(** Every step of every thread keeps the invariant. *)
Lemma thread_step_ok {V} N G (c : config V) tid th a : inv N G c -> threads c !! tid = Some th -> tail (ring c) < 2 ^ 62 ->
  step_good N c tid th a.
Proof.
  intros I Hth Hb. pose proof (iv_thread _ _ _ I _ _ Hth) as Hok. pose proof (iv_order _ _ _ I) as Ho. pose proof (iv_window _ _ _ I) as Hwin.
  destruct a as [v| |sp]; destruct th eqn:Eth;
    try (eapply good_pure; [exact I|exact Hth|reflexivity|]; cbn; (done || lia)).
  - destruct (send_seq_ok N G c I tid _ Hth Hb v t sp eq_refl) as (th' & E & Hok'). by eapply good_pure.
  - by eapply send_cas_ok.
  - by eapply send_write_ok.
  - by eapply send_publish_ok.
  - destruct (recv_seq_ok N G c I tid _ Hth Hb h sp eq_refl) as (th' & E & Hok'). by eapply good_pure.
  - by eapply recv_cas_ok.
  - by eapply recv_read_ok.
  - by eapply recv_publish_ok.
Qed.

Lemma step_ok {V} N G (c : config V) tid a : inv N G c -> tail (ring c) < 2 ^ 62 ->
  exists G' c', step tid a c = Some c' /\ inv N G' c' /\ tail (ring c') <= tail (ring c) + 1.
Proof.
  intros I Hb. unfold step. destruct (threads c !! tid) as [th|] eqn:Hth; [|exists G, c; split_and!; (done || lia)].
  destruct (thread_step_ok N G c tid th a I Hth Hb) as (r' & th' & s' & g' & G' & -> & Ht & I'). cbn [mbind option_bind].
  exists G'. eexists. split; [done|]. by split.
Qed.

Lemma schedule_ok {V} N sched : forall G (c : config V), inv N G c -> tail (ring c) + zlen sched <= 2 ^ 62 ->
  exists G' c', run_schedule sched c = Some c' /\ inv N G' c'.
Proof.
  induction sched as [|[tid a] sched IH]; intros G c I Hb; cbn [run_schedule]; [by exists G, c|].
  assert (zlen ((tid, a) :: sched) = zlen sched + 1) as Hz by (unfold zlen; cbn [length]; lia). rewrite Hz in Hb.
  assert (0 <= zlen sched) by (unfold zlen; lia).
  destruct (step_ok N G c tid a I ltac:(lia)) as (G' & c' & -> & I' & Ht). cbn [mbind option_bind]. apply (IH G'); [done|lia].
Qed.

Lemma start_inv {V} n cap : 2 <= cap <= 2 ^ 62 ->
  inv (next_power_of_two (Z.max cap 1)) (fun j => (j, Free)) (@start V n cap).
Proof.
  intros Hc. destruct (npo2_ok cap ltac:(lia)) as (k & Hk & E & Hle). destruct (@ring_new_ok V cap ltac:(lia)) as [[_ Hm Hs _ _ _ _ _ Hf] _].
  assert (1 <= k) by (destruct (decide (k = 0)) as [->|]; [cbn in Hle; lia|lia]).
  assert (0 < 2 ^ k <= 2 ^ 62) as Hp by (destruct (pow2_divides k Hk) as (? & _ & _ & ?); done).
  unfold start. rewrite E in *. split; cbn [ring threads sent got]; try done.
  - exists k. split; [lia|done].
  - cbn. lia.
  - intros j Hj. destruct (Hf j) as (v & Hv); [unfold zlen; cbn; lia|]. exists (mkSlot j v).
    rewrite Z.mod_small in Hv by lia. rewrite wrap64_small in Hv by lia. split; [done|]. cbn. split; [apply Z.mod_small; lia|]. lia.
  - intros tid th Ht. apply lookup_replicate in Ht as [-> _]. done.
  - constructor.
Qed.

(** ** Theorems *)

(** C15: however any number of threads interleave their accesses on a ring of capacity at least two
    (and spurious compare-exchange failures included), no consumer ever reads an
    uninitialised slot, every value a consumer reads for a ticket is the value of the producer
    that claimed that ticket, no ticket is read twice, and at most [capacity] tickets are
    outstanding. *)
Theorem ring_tickets {V} n cap (sched : list (nat * action V)) : 2 <= cap <= 2 ^ 62 -> zlen sched <= 2 ^ 62 ->
  exists c, run_schedule sched (start n cap) = Some c /\
    (forall i v, (i, v) ∈ got c -> 0 <= i /\ sent c !! Z.to_nat i = Some v) /\ base.NoDup (got c).*1 /\
    zlen (sent c) = tail (ring c) /\ head (ring c) <= tail (ring c) <= head (ring c) + capacity (ring c).
Proof.
  intros Hc Hs. destruct (schedule_ok _ sched _ _ (start_inv n cap Hc)) as (G & c & E & I); [cbn; lia|].
  exists c. split; [done|]. pose proof (cap_bounds _ _ _ I) as HN. split_and!.
  - intros i v Hin. pose proof (iv_got _ _ _ I) as Hg. apply list_elem_of_lookup in Hin as [k Hk]. rewrite Forall_lookup in Hg.
    destruct (Hg k _ Hk) as [? ?]. split; [cbn in *; lia|done].
  - apply I.
  - apply I.
  - apply (iv_order _ _ _ I).
  - unfold capacity. rewrite (iv_mask _ _ _ I), add64_small by lia. pose proof (iv_window _ _ _ I). lia.
Qed.

(** Two threads, one value, with a spurious failure on each side. *)
Definition demo_schedule : list (nat * action Z) :=
  [(0%nat, StartSend 7); (1%nat, StartRecv)] ++
  [(0%nat, Go false); (0%nat, Go false); (0%nat, Go true); (0%nat, Go false); (0%nat, Go false); (1%nat, Go false);
   (0%nat, Go false); (0%nat, Go false); (1%nat, Go false); (1%nat, Go false); (1%nat, Go false); (1%nat, Go false)].

Lemma ring_tickets_witness :
  exists c, run_schedule demo_schedule (start 2 2) = Some c /\
    (forall i v, (i, v) ∈ got c -> 0 <= i /\ sent c !! Z.to_nat i = Some v) /\ base.NoDup (got c).*1 /\
    zlen (sent c) = tail (ring c) /\ head (ring c) <= tail (ring c) <= head (ring c) + capacity (ring c).
Proof. apply (ring_tickets 2 2 demo_schedule); [lia|]. vm_compute. discriminate. Defined.
