(* ===== verification/GoChan.v ===== *)
(** Channels: src/src/gochan.rs.

    The parked goroutines' wait entries ([Sudog]) live at addresses of a store, and the two wait
    queues of a channel are doubly linked lists through that store; [SelectCoord] flags live
    in a second store.  Address 0 is the null pointer, and dereferencing an address that
    holds nothing is [Panic].  [goready] appends the goroutine to the log [readied].  Every
    operation runs under the channel's spin lock from its first access to its last (a parked
    call releases it when its goroutine is switched out), so an operation is a function and
    a program is a sequence of operations.  [gopark] splits [Send] and [Recv]: the first half
    returns [Parked] with the address of the entry, [send_wake] and [recv_wake] are what runs
    when the goroutine is resumed.  The buffer is used through the interface [Buffer]. *)
From Stdlib Require Import ZArith Lia.
From stdpp Require Import base tactics numbers list list_numbers option fin_maps gmap.
From S2P Require Import Prelude Outcome LockFreeRing.
Open Scope Z_scope.

Section chan.
  Context {V B : Type} `{Buffer V B} (zero : V).

Record Sudog := mkSudog {
  g : Z;
  value : option V;
  success : bool;
  coord : option Z;
  next : Z;
  prev : Z
}.

Record SudogQueue := mkQueue { q_head : Z; q_tail : Z }.

(** The shared store. *)
Record World := mkWorld {
  sudogs : gmap Z Sudog;
  coords : gmap Z bool;
  readied : list Z
}.

Inductive RegisterStatus := Registered | Skip | Closed.

Record HchanState := mkHchan {
  closed : bool;
  cap : Z;
  buf : B;
  sendq : SudogQueue;
  recvq : SudogQueue
}.

Record Hchan := mkChan { nil : bool; state : HchanState }.

(** ** Wait entries *)

Definition new_send (gp : Z) (v : V) : Sudog := mkSudog gp (Some v) false None 0 0.
Definition new_recv (gp : Z) : Sudog := mkSudog gp None false None 0 0.
Definition new_send_select (gp : Z) (v : V) (co : Z) : Sudog := mkSudog gp (Some v) false (Some co) 0 0.
Definition new_recv_select (gp : Z) (co : Z) : Sudog := mkSudog gp None false (Some co) 0 0.

Definition with_next (s : Sudog) (x : Z) : Sudog := mkSudog (g s) (value s) (success s) (coord s) x (prev s).
Definition with_prev (s : Sudog) (x : Z) : Sudog := mkSudog (g s) (value s) (success s) (coord s) (next s) x.
Definition with_value (s : Sudog) (v : option V) : Sudog := mkSudog (g s) v (success s) (coord s) (next s) (prev s).
Definition with_success (s : Sudog) (b : bool) : Sudog := mkSudog (g s) (value s) b (coord s) (next s) (prev s).

Definition with_sudogs (w : World) (m : gmap Z Sudog) : World := mkWorld m (coords w) (readied w).

(** Reading and writing through a raw pointer. *)
Definition deref (w : World) (p : Z) : outcome Sudog := of_option (if decide (p = 0) then None else sudogs w !! p).
Definition store (w : World) (p : Z) (f : Sudog -> Sudog) : outcome World :=
  s ← deref w p;
  Ok (with_sudogs w (<[p := f s]> (sudogs w))).

Definition goready (w : World) (gp : Z) : World := mkWorld (sudogs w) (coords w) (readied w ++ [gp]).

(** ** The intrusive queue *)

Definition queue_new : SudogQueue := mkQueue 0 0.

Definition queue_is_empty (q : SudogQueue) : bool := bool_decide (q_head q = 0).

Definition push_back (w : World) (q : SudogQueue) (sg : Z) : outcome (World * SudogQueue) :=
  w ← store w sg (fun s => with_next s 0);
  w ← store w sg (fun s => with_prev s (q_tail q));
  if decide (q_tail q = 0) then Ok (w, mkQueue sg sg)
  else
    w ← store w (q_tail q) (fun s => with_next s sg);
    Ok (w, mkQueue (q_head q) sg).

Definition pop_front (w : World) (q : SudogQueue) : outcome (World * SudogQueue * Z) :=
  if decide (q_head q = 0) then Ok (w, q, 0)
  else
    let h := q_head q in
    hs ← deref w h;
    let head' := next hs in
    '(w, q) ← (if decide (head' = 0) then Ok (w, mkQueue head' 0)
               else w ← store w head' (fun s => with_prev s 0); Ok (w, mkQueue head' (q_tail q)));
    w ← store w h (fun s => with_next s 0);
    w ← store w h (fun s => with_prev s 0);
    Ok (w, q, h).

Definition unlink (w : World) (q : SudogQueue) (sg : Z) : outcome (World * SudogQueue) :=
  s ← deref w sg;
  let p := prev s in
  let n := next s in
  '(w, q) ← (if decide (p = 0) then Ok (w, mkQueue n (q_tail q))
             else w ← store w p (fun s => with_next s n); Ok (w, q));
  '(w, q) ← (if decide (n = 0) then Ok (w, mkQueue (q_head q) p)
             else w ← store w n (fun s => with_prev s p); Ok (w, q));
  w ← store w sg (fun s => with_next s 0);
  w ← store w sg (fun s => with_prev s 0);
  Ok (w, q).

(** [while !cur.is_null()]: fuel bounds the length of the walk; running out is [Panic]. *)
Fixpoint cancel_loop (fuel : nat) (w : World) (q : SudogQueue) (sg cur : Z) : outcome (World * SudogQueue * bool) :=
  if decide (cur = 0) then Ok (w, q, false)
  else
    match fuel with
    | O => Panic
    | S fuel =>
        if decide (cur = sg) then '(w, q) ← unlink w q cur; Ok (w, q, true)
        else s ← deref w cur; cancel_loop fuel w q sg (next s)
    end.

(** A walk visits each entry of the store at most once. *)
Definition walk_fuel (w : World) : nat := S (size (sudogs w)).

Definition cancel (w : World) (q : SudogQueue) (sg : Z) : outcome (World * SudogQueue * bool) :=
  cancel_loop (walk_fuel w) w q sg (q_head q).

(** ** Claiming *)

Definition try_claim_sudog (w : World) (sg : Z) : outcome (World * bool) :=
  s ← deref w sg;
  match coord s with
  | None => Ok (w, true)
  | Some c =>
      done ← of_option (coords w !! c);
      if (done : bool) then Ok (w, false) else Ok (mkWorld (sudogs w) (<[c := true]> (coords w)) (readied w), true)
  end.

(** The scan every waker makes: the first entry it can claim, from [cur] on. *)
Fixpoint claim_loop (fuel : nat) (w : World) (cur : Z) : outcome (World * option Z) :=
  if decide (cur = 0) then Ok (w, None)
  else
    match fuel with
    | O => Panic
    | S fuel =>
        s ← deref w cur;
        '(w, claimed) ← try_claim_sudog w cur;
        if (claimed : bool) then Ok (w, Some cur) else claim_loop fuel w (next s)
    end.

Definition claim_first (w : World) (q : SudogQueue) : outcome (World * option Z) := claim_loop (walk_fuel w) w (q_head q).

(** ** Construction *)

Definition new_buffered (c : Z) : Hchan := mkChan false (mkHchan false c (buf_new (Z.max c 1)) queue_new queue_new).
Definition new_unbuffered : Hchan := new_buffered 0.
Definition chan_nil : Hchan := mkChan true (mkHchan false 0 (buf_new 1) queue_new queue_new).

Definition Len (c : Hchan) : Z := if nil c then 0 else buf_len (buf (state c)).
Definition Cap (c : Hchan) : Z := if nil c then 0 else cap (state c).

Definition with_buf (s : HchanState) (b : B) : HchanState := mkHchan (closed s) (cap s) b (sendq s) (recvq s).
Definition with_sendq (s : HchanState) (q : SudogQueue) : HchanState := mkHchan (closed s) (cap s) (buf s) q (recvq s).
Definition with_recvq (s : HchanState) (q : SudogQueue) : HchanState := mkHchan (closed s) (cap s) (buf s) (sendq s) q.
Definition with_closed (s : HchanState) (b : bool) : HchanState := mkHchan b (cap s) (buf s) (sendq s) (recvq s).

(** ** Operations under the lock *)

(** [s.buf.try_send(v).ok().expect(..)] and [s.buf.try_recv()]. *)
Definition buf_push (s : HchanState) (v : V) : outcome HchanState :=
  '(b, r) ← of_option (buf_send (buf s) v);
  match r with SendOk => Ok (with_buf s b) | SendErr _ => Panic end.

Definition buf_pop (s : HchanState) : outcome (HchanState * option V) :=
  '(b, r) ← of_option (buf_recv (buf s));
  Ok (with_buf s b, r).

(** A claimed sender's value, rotated through the buffer if the channel is buffered. *)
Definition take_from_sender (w : World) (s : HchanState) (cur : Z) : outcome (World * HchanState * V) :=
  sd ← deref w cur;
  w ← store w cur (fun x => with_value x None);
  sender_v ← of_option (value sd);
  if decide (cap s = 0) then Ok (w, s, sender_v)
  else
    '(s, hd) ← buf_pop s;
    head ← of_option hd;
    s ← buf_push s sender_v;
    Ok (w, s, head).

Definition try_recv_locked (w : World) (s : HchanState) : outcome (World * HchanState * option (V * bool)) :=
  if decide (closed s = true /\ buf_len (buf s) = 0) then Ok (w, s, Some (zero, false))
  else
    '(w, hit) ← claim_first w (sendq s);
    match hit with
    | Some cur =>
        '(w, q) ← unlink w (sendq s) cur;
        '(w, s, v) ← take_from_sender w (with_sendq s q) cur;
        w ← store w cur (fun x => with_success x true);
        sd ← deref w cur;
        Ok (goready w (g sd), s, Some (v, true))
    | None =>
        '(s, r) ← buf_pop s;
        Ok (w, s, match r with Some v => Some (v, true) | None => None end)
    end.

Definition try_send_locked (w : World) (s : HchanState) (v : V) : outcome (World * HchanState * send_result V) :=
  if closed s then Exit 2
  else
    '(w, hit) ← claim_first w (recvq s);
    match hit with
    | Some cur =>
        '(w, q) ← unlink w (recvq s) cur;
        w ← store w cur (fun x => with_value x (Some v));
        w ← store w cur (fun x => with_success x true);
        sd ← deref w cur;
        Ok (goready w (g sd), with_recvq s q, SendOk)
    | None =>
        if decide (buf_len (buf s) < cap s) then s ← buf_push s v; Ok (w, s, SendOk)
        else Ok (w, s, SendErr v)
    end.

Definition register_recv_locked (w : World) (s : HchanState) (sg : Z) : outcome (World * HchanState * RegisterStatus) :=
  if decide (closed s = true /\ buf_len (buf s) = 0) then Ok (w, s, Closed)
  else '(w, q) ← push_back w (recvq s) sg; Ok (w, with_recvq s q, Registered).

Definition register_send_locked (w : World) (s : HchanState) (sg : Z) : outcome (World * HchanState * RegisterStatus) :=
  if closed s then Ok (w, s, Closed)
  else '(w, q) ← push_back w (sendq s) sg; Ok (w, with_sendq s q, Registered).

(** ** The helpers that take the lock themselves *)

Definition on_state (c : Hchan) (s : HchanState) : Hchan := mkChan (nil c) s.

Definition try_send_chan (w : World) (c : Hchan) (v : V) : outcome (World * Hchan * send_result V) :=
  '(w, s, r) ← try_send_locked w (state c) v;
  Ok (w, on_state c s, r).

Definition try_recv_chan (w : World) (c : Hchan) : outcome (World * Hchan * option (V * bool)) :=
  '(w, s, r) ← try_recv_locked w (state c);
  Ok (w, on_state c s, r).

Definition register_send (w : World) (c : Hchan) (sg : Z) : outcome (World * Hchan * bool) :=
  '(w, s, r) ← register_send_locked w (state c) sg;
  Ok (w, on_state c s, match r with Registered => true | _ => false end).

Definition register_recv (w : World) (c : Hchan) (sg : Z) : outcome (World * Hchan * bool) :=
  '(w, s, r) ← register_recv_locked w (state c) sg;
  Ok (w, on_state c s, match r with Registered => true | _ => false end).

Definition cancel_send (w : World) (c : Hchan) (sg : Z) : outcome (World * Hchan * bool) :=
  '(w, q, b) ← cancel w (sendq (state c)) sg;
  Ok (w, on_state c (with_sendq (state c) q), b).

Definition cancel_recv (w : World) (c : Hchan) (sg : Z) : outcome (World * Hchan * bool) :=
  '(w, q, b) ← cancel w (recvq (state c)) sg;
  Ok (w, on_state c (with_recvq (state c) q), b).

(** ** Blocking operations *)

(** A call returns, or its goroutine parks with its entry at the given address, or parks for
    ever (nil channel). *)
Inductive call (A : Type) := Returned (a : A) | Parked (sg : Z) | Forever.
Arguments Returned {A} a.
Arguments Parked {A} sg.
Arguments Forever {A}.

(** [Send] by goroutine [gp] (none: outside any goroutine), with [sg] the address of its stack
    slot for the entry. *)
Definition Send (w : World) (c : Hchan) (v : V) (gp : option Z) (sg : Z) : outcome (World * Hchan * call unit) :=
  if nil c then Ok (w, c, Forever)
  else
    '(w, s, r) ← try_send_locked w (state c) v;
    match r with
    | SendOk => Ok (w, on_state c s, Returned tt)
    | SendErr v =>
        match gp with
        | None => Exit 2
        | Some gp =>
            let w := with_sudogs w (<[sg := new_send gp v]> (sudogs w)) in
            '(w, s, st) ← register_send_locked w s sg;
            match st with
            | Registered => Ok (w, on_state c s, Parked sg)
            | Closed => Exit 2
            | Skip => Panic
            end
        end
    end.

(** The rest of [Send] after the wake-up; the entry goes with the stack frame. *)
Definition send_wake (w : World) (sg : Z) : outcome World :=
  s ← deref w sg;
  if success s then
    if decide (value s = None) then Ok (with_sudogs w (delete sg (sudogs w))) else Panic
  else Exit 2.

Definition Recv (w : World) (c : Hchan) (gp : option Z) (sg : Z) : outcome (World * Hchan * call (V * bool)) :=
  if nil c then Ok (w, c, Forever)
  else
    '(w, s, r) ← try_recv_locked w (state c);
    match r with
    | Some res => Ok (w, on_state c s, Returned res)
    | None =>
        match gp with
        | None => Exit 2
        | Some gp =>
            let w := with_sudogs w (<[sg := new_recv gp]> (sudogs w)) in
            '(w, s, st) ← register_recv_locked w s sg;
            match st with
            | Registered => Ok (w, on_state c s, Parked sg)
            | Closed => Ok (w, on_state c s, Returned (zero, false))
            | Skip => Panic
            end
        end
    end.

Definition recv_wake (w : World) (sg : Z) : outcome (World * (V * bool)) :=
  s ← deref w sg;
  let w := with_sudogs w (delete sg (sudogs w)) in
  if success s then v ← of_option (value s); Ok (w, (v, true)) else Ok (w, (zero, false)).

(** [Close]'s two walks: every entry that can be claimed is unlinked, marked and readied. *)
Fixpoint close_loop (fuel : nat) (clear : bool) (w : World) (q : SudogQueue) (cur : Z) : outcome (World * SudogQueue) :=
  if decide (cur = 0) then Ok (w, q)
  else
    match fuel with
    | O => Panic
    | S fuel =>
        s ← deref w cur;
        let nx := next s in
        '(w, claimed) ← try_claim_sudog w cur;
        if (claimed : bool) then
          '(w, q) ← unlink w q cur;
          w ← store w cur (fun x => with_success x false);
          w ← (if clear then store w cur (fun x => with_value x None) else Ok w);
          close_loop fuel clear (goready w (g s)) q nx
        else close_loop fuel clear w q nx
    end.

Definition Close (w : World) (c : Hchan) : outcome (World * Hchan) :=
  if nil c then Exit 2
  else
    let s := state c in
    if closed s then Exit 2
    else
      let s := with_closed s true in
      '(w, rq) ← close_loop (walk_fuel w) true w (recvq s) (q_head (recvq s));
      '(w, sq) ← close_loop (walk_fuel w) false w (sendq s) (q_head (sendq s));
      Ok (w, on_state c (with_sendq (with_recvq s rq) sq)).
End chan.
Arguments Sudog : clear implicits.
Arguments World : clear implicits.
Arguments HchanState : clear implicits.
Arguments Hchan : clear implicits.
Arguments call : clear implicits.
Arguments Returned {A} a.
Arguments Parked {A} sg.
Arguments Forever {A}.
