(* ===== verification/GoChanQueue.v ===== *)
(** The intrusive wait queue of src/src/gochan.rs ([SudogQueue]) implements a list of entries:
    pushing, popping and unlinking relink only entries of the queue, and never change an
    entry's data. *)
From Stdlib Require Import ZArith Lia.
From stdpp Require Import base tactics numbers list list_numbers option fin_maps gmap.
From S2P Require Import Prelude Outcome LockFreeRing GoChan.
Open Scope Z_scope.

Section queue.
  Context {V : Type}.
  Implicit Types (m : gmap Z (Sudog V)) (l : list Z).

(** The entries [l], linked in this order, after [p] and before [n]. *)
Fixpoint seg m (p : Z) l (n : Z) : Prop :=
  match l with
  | [] => True
  | x :: l => x <> 0 /\ (exists s, m !! x = Some s /\ prev s = p /\ next s = hd n l) /\ seg m x l n
  end.

Definition last_or (p : Z) l : Z := default p (last l).

Definition queue_rep m (q : SudogQueue) l : Prop :=
  q_head q = hd 0 l /\ q_tail q = last_or 0 l /\ base.NoDup l /\ seg m 0 l 0.

(** An entry without its links. *)
Definition data (s : Sudog V) : Z * option V * bool * option Z := (g s, value s, success s, coord s).

(** [m'] holds the same entries as [m], relinked only inside [l]. *)
Record relinked l m m' : Prop := {
  rl_data : forall x, data <$> m' !! x = data <$> m !! x;
  rl_frame : forall x, x ∉ l -> m' !! x = m !! x
}.

#[export] Instance relinked_refl l : Reflexive (relinked l).
Proof. split; done. Qed.

#[export] Instance relinked_trans l : Transitive (relinked l).
Proof.
  intros m1 m2 m3 [D1 F1] [D2 F2]. split; [intros x; by rewrite D2|]. intros x Hx. by rewrite F2, F1.
Qed.

Lemma relinked_size l m m' : relinked l m m' -> dom m' = dom m.
Proof.
  intros [D _]. apply set_eq. intros x. rewrite !elem_of_dom. rewrite <- (fmap_is_Some data (m' !! x)), <- (fmap_is_Some data (m !! x)). by rewrite D.
Qed.

Lemma relink_store l m x f s : x ∈ l -> m !! x = Some s -> data (f s) = data s -> relinked l m (<[x := f s]> m).
Proof.
  intros Hx E Hd. split.
  - intros y. destruct (decide (y = x)) as [->|Hne]; [rewrite lookup_insert_eq, E; cbn; by rewrite Hd|by rewrite lookup_insert_ne].
  - intros y Hy. rewrite lookup_insert_ne; [done|]. by intros ->.
Qed.

Lemma seg_app m p l1 l2 n : seg m p (l1 ++ l2) n <-> seg m p l1 (hd n l2) /\ seg m (last_or p l1) l2 n.
Proof.
  revert p. induction l1 as [|x l1 IH]; intros p; cbn [app seg]; [unfold last_or; cbn; tauto|].
  rewrite IH. assert (last_or p (x :: l1) = last_or x l1) as -> by (unfold last_or; rewrite last_cons; by destruct (last l1)).
  assert (hd n (l1 ++ l2) = hd (hd n l2) l1) as -> by (by destruct l1). tauto.
Qed.

Lemma seg_frame m m' p l n : (forall x, x ∈ l -> m' !! x = m !! x) -> seg m p l n -> seg m' p l n.
Proof.
  revert p. induction l as [|x l IH]; intros p Hf; [done|]. intros (Hx & (s & E & Hp & Hn) & Hs). split; [done|]. split.
  - exists s. split; [|done]. rewrite Hf; [done|]. apply elem_of_cons. by left.
  - apply IH; [|done]. intros y Hy. apply Hf. apply elem_of_cons. by right.
Qed.

Lemma seg_lookup m p l n x : seg m p l n -> x ∈ l -> x <> 0 /\ exists s, m !! x = Some s.
Proof.
  revert p. induction l as [|y l IH]; intros p Hs Hx; [by apply elem_of_nil in Hx|]. destruct Hs as (Hy & (s & E & _) & Hs).
  apply elem_of_cons in Hx as [->|Hx]; [split; [done|by eexists]|by apply (IH y)].
Qed.

(** Relinking the last entry forward, and the first one backward. *)
Lemma seg_set_next m p l x s n n' : x ∉ l -> seg m p (l ++ [x]) n -> m !! x = Some s ->
  seg (<[x := with_next s n']> m) p (l ++ [x]) n'.
Proof.
  intros Hx Hs E. apply seg_app in Hs as [H1 H2]. apply seg_app. split.
  - eapply seg_frame; [|exact H1]. intros y Hy. rewrite lookup_insert_ne; [done|]. by intros ->.
  - destruct H2 as (Hz & (s' & E' & Hp & _) & _). split; [done|]. split; [|done]. exists (with_next s n').
    rewrite lookup_insert_eq. split; [done|]. assert (s' = s) as -> by congruence. done.
Qed.

Lemma seg_set_prev m p p' l x s n : x ∉ l -> seg m p (x :: l) n -> m !! x = Some s ->
  seg (<[x := with_prev s p']> m) p' (x :: l) n.
Proof.
  intros Hx (Hz & (s' & E' & _ & Hn) & Hs) E. split; [done|]. split.
  - exists (with_prev s p'). rewrite lookup_insert_eq. split; [done|]. split; [done|]. assert (s' = s) as -> by congruence. done.
  - eapply seg_frame; [|exact Hs]. intros y Hy. rewrite lookup_insert_ne; [done|]. by intros ->.
Qed.

Lemma last_or_app p l x : last_or p (l ++ [x]) = x.
Proof. unfold last_or. by rewrite last_snoc. Qed.


Lemma snoc_case l : l = [] \/ exists l' x, l = l' ++ [x].
Proof. induction l as [|x l _] using rev_ind; [by left|right; by exists l, x]. Qed.

Lemma in_snoc (x : Z) l : x ∈ l ++ [x].
Proof. apply elem_of_app. right. by apply list_elem_of_singleton. Qed.

(** ** The operations *)

(** Only the store changed. *)
Definition same_rest (w w' : World V) : Prop := coords w' = coords w /\ readied w' = readied w.

Lemma deref_ok (w : World V) x s : x <> 0 -> sudogs w !! x = Some s -> deref w x = Ok s.
Proof. intros Hx E. unfold deref. rewrite decide_False by done. by rewrite E. Qed.

Lemma store_ok (w : World V) x f s : x <> 0 -> sudogs w !! x = Some s ->
  store w x f = Ok (with_sudogs w (<[x := f s]> (sudogs w))).
Proof. intros Hx E. unfold store. by rewrite (deref_ok w x s Hx E). Qed.

Lemma tail_null m q l : queue_rep m q l -> q_tail q = 0 -> l = [].
Proof.
  intros (_ & Ht & _ & Hs) E. destruct (snoc_case l) as [->|(l' & x & ->)]; [done|].
  rewrite last_or_app in Ht. destruct (seg_lookup _ _ _ _ x Hs) as [? _]; [apply in_snoc|congruence].
Qed.

Lemma head_null m q l : queue_rep m q l -> q_head q = 0 -> l = [].
Proof. intros (Hh & _ & _ & Hs) E. destruct l as [|x l]; [done|]. destruct Hs as [? _]. cbn in Hh. congruence. Qed.

Lemma push_back_ok w q l sg s : queue_rep (sudogs w) q l -> sudogs w !! sg = Some s -> sg <> 0 -> sg ∉ l ->
  exists w' q', push_back w q sg = Ok (w', q') /\ queue_rep (sudogs w') q' (l ++ [sg]) /\
    relinked (l ++ [sg]) (sudogs w) (sudogs w') /\ same_rest w w'.
Proof.
  intros Hq Es Hz Hni. unfold push_back. rewrite (store_ok w sg _ s Hz Es). cbn [mbind outcome_bind].
  rewrite (store_ok _ sg _ (with_next s 0)) by (done || apply lookup_insert_eq). cbn [mbind outcome_bind sudogs with_sudogs coords readied].
  rewrite insert_insert_eq. set (s1 := with_prev (with_next s 0) (q_tail q)). set (m1 := <[sg := s1]> (sudogs w)).
  pose proof (in_snoc sg l) as Hin.
  assert (relinked (l ++ [sg]) (sudogs w) m1) as R1 by (by apply (relink_store _ _ _ (fun s => with_prev (with_next s 0) (q_tail q)))).
  assert (m1 !! sg = Some s1) as E1 by apply lookup_insert_eq.
  assert (forall x, x ∈ l -> m1 !! x = sudogs w !! x) as Hfr by (intros x Hx; apply lookup_insert_ne; by intros ->).
  destruct (decide (q_tail q = 0)) as [Ht|Ht].
  - pose proof (tail_null _ _ _ Hq Ht) as ->. eexists _, _. split; [done|]. split; [|done]. split; [done|]. split; [done|].
    split; [apply NoDup_singleton|]. cbn. split; [done|]. split; [|done]. exists s1. split; [done|]. split; [exact Ht|done].
  - destruct Hq as (Hh & Htl & Hnd & Hs). destruct (snoc_case l) as [->|(l' & t & ->)]; [done|]. rewrite last_or_app in Htl.
    destruct (seg_lookup _ _ _ _ t Hs) as [Htz [st Et]]; [apply in_snoc|].
    apply list.NoDup_app in Hnd as (Hnd & Hdis & _). rewrite elem_of_app, list_elem_of_singleton in Hni.
    rewrite Htl. assert (m1 !! t = Some st) as Et1 by (rewrite Hfr; [done|apply in_snoc]).
    rewrite (store_ok _ t _ st) by done. cbn [mbind outcome_bind]. eexists _, _. split; [done|]. cbn [sudogs with_sudogs]. split; [|split].
    + split; [cbn; rewrite Hh; by destruct l'|]. split; [cbn; by rewrite last_or_app|]. split.
      * apply list.NoDup_app. split; [|split; [|apply NoDup_singleton]].
        -- apply list.NoDup_app. split; [done|]. split; [done|apply NoDup_singleton].
        -- intros x Hx Hx'. apply list_elem_of_singleton in Hx' as ->. apply elem_of_app in Hx. rewrite list_elem_of_singleton in Hx. tauto.
      * apply seg_app. split.
        -- apply (seg_set_next m1 0 l' t st 0 sg); [|by eapply seg_frame|done]. intros Hx. apply (Hdis t Hx). by apply list_elem_of_singleton.
        -- rewrite last_or_app. split; [done|]. split; [|done]. exists s1. rewrite lookup_insert_ne by (intros ->; apply Hni; by right). split; [done|]. split; [exact Htl|done].
    + etrans; [exact R1|]. apply (relink_store _ m1 t (fun s => with_next s sg)); [|done|done]. apply elem_of_app. left. apply in_snoc.
    + done.
Qed.

(** The two halves of [unlink]: the entries before and after the removed one. *)
Lemma unlink_left w q l x n : base.NoDup l -> seg (sudogs w) 0 l x -> q_head q = hd x l ->
  exists w' q', (if decide (last_or 0 l = 0) then Ok (w, mkQueue n (q_tail q))
                 else w ← store w (last_or 0 l) (fun s => with_next s n); Ok (w, q)) = Ok (w', q') /\
    q_head q' = hd n l /\ q_tail q' = q_tail q /\ seg (sudogs w') 0 l n /\ relinked l (sudogs w) (sudogs w') /\ same_rest w w'.
Proof.
  intros Hnd Hs Hh. destruct (snoc_case l) as [->|(l' & p & ->)].
  { rewrite decide_True by done. by eexists _, _. }
  rewrite last_or_app. destruct (seg_lookup _ _ _ _ p Hs (in_snoc p l')) as [Hz [sp Ep]]. rewrite decide_False by done.
  rewrite (store_ok w p _ sp Hz Ep). cbn [mbind outcome_bind]. eexists _, _. split; [done|]. split; [rewrite Hh; by destruct l'|].
  split; [done|]. cbn [sudogs with_sudogs]. apply list.NoDup_app in Hnd as (_ & Hdis & _). split; [|split; [|done]].
  - apply (seg_set_next _ 0 l' p sp x n); [|done|done]. intros Hx. apply (Hdis p Hx). by apply list_elem_of_singleton.
  - apply (relink_store _ _ p (fun s => with_next s n)); [apply in_snoc|done|done].
Qed.

Lemma unlink_right w q l x p : base.NoDup l -> seg (sudogs w) x l 0 -> q_tail q = last_or x l ->
  exists w' q', (if decide (hd 0 l = 0) then Ok (w, mkQueue (q_head q) p)
                 else w ← store w (hd 0 l) (fun s => with_prev s p); Ok (w, q)) = Ok (w', q') /\
    q_head q' = q_head q /\ q_tail q' = last_or p l /\ seg (sudogs w') p l 0 /\ relinked l (sudogs w) (sudogs w') /\ same_rest w w'.
Proof.
  intros Hnd Hs Ht. destruct l as [|n l]; cbn [hd].
  { rewrite decide_True by done. by eexists _, _. }
  pose proof Hs as (Hz & (sn & En & _ & _) & _). rewrite decide_False by done.
  rewrite (store_ok w n _ sn Hz En). cbn [mbind outcome_bind]. eexists _, _. split; [done|]. split; [done|]. apply list.NoDup_cons in Hnd as [Hni _].
  cbn [sudogs with_sudogs]. split; [rewrite Ht; unfold last_or; rewrite last_cons; by destruct (last l)|]. split; [|split; [|done]].
  - by apply (seg_set_prev _ x p l n sn 0).
  - apply (relink_store _ _ n (fun s => with_prev s p)); [apply elem_of_cons; by left|done|done].
Qed.

Lemma relinked_weaken l l' m m' : l ⊆ l' -> relinked l m m' -> relinked l' m m'.
Proof. intros Hl [D F]. split; [done|]. intros x Hx. apply F. intros Hx'. by apply Hx, Hl. Qed.

Lemma unlink_ok w q l1 x l2 : queue_rep (sudogs w) q (l1 ++ x :: l2) ->
  exists w' q', unlink w q x = Ok (w', q') /\ queue_rep (sudogs w') q' (l1 ++ l2) /\
    relinked (l1 ++ x :: l2) (sudogs w) (sudogs w') /\ same_rest w w'.
Proof.
  intros (Hh & Ht & Hnd & Hs). apply seg_app in Hs as [H1 (Hz & (s & Es & Hp & Hn) & H2)]. cbn [hd] in H1.
  apply list.NoDup_app in Hnd as (Hnd1 & Hdis & Hnd2). apply list.NoDup_cons in Hnd2 as [Hx2 Hnd2].
  assert (x ∉ l1) as Hx1 by (intros Hx; apply (Hdis x Hx), elem_of_cons; by left).
  assert (forall y, y ∈ l1 -> y ∉ l2) as Hd by (intros y Hy Hy2; apply (Hdis y Hy), elem_of_cons; by right).
  unfold unlink. rewrite (deref_ok w x s Hz Es). cbn [mbind outcome_bind]. rewrite Hp, Hn.
  destruct (unlink_left w q l1 x (hd 0 l2) Hnd1 H1) as (w1 & q1 & -> & Hh1 & Ht1 & S1 & R1 & Q1); [rewrite Hh; by destruct l1|].
  cbn [mbind outcome_bind].
  assert (seg (sudogs w1) x l2 0) as S1' by (eapply seg_frame; [|exact H2]; intros y Hy; apply (rl_frame _ _ _ R1); intros ?; by apply (Hd y)).
  destruct (unlink_right w1 q1 l2 x (last_or 0 l1) Hnd2 S1') as (w2 & q2 & -> & Hh2 & Ht2 & S2 & R2 & Q2).
  { rewrite Ht1, Ht. unfold last_or. rewrite last_app_cons, last_cons. by destruct (last l2). }
  cbn [mbind outcome_bind].
  assert (sudogs w2 !! x = Some s) as E2 by (by rewrite (rl_frame _ _ _ R2), (rl_frame _ _ _ R1)).
  rewrite (store_ok w2 x _ s Hz E2). cbn [mbind outcome_bind].
  rewrite (store_ok _ x _ (with_next s 0)) by (done || apply lookup_insert_eq). cbn [mbind outcome_bind sudogs with_sudogs coords readied].
  rewrite insert_insert_eq. eexists _, _. split; [done|]. cbn [sudogs with_sudogs].
  assert (forall y, y <> x -> <[x := with_prev (with_next s 0) 0]> (sudogs w2) !! y = sudogs w2 !! y) as Hfr by (intros y Hy; by apply lookup_insert_ne).
  split; [|split].
  - split; [rewrite Hh2, Hh1; by destruct l1|]. split; [rewrite Ht2; unfold last_or; rewrite last_app; by destruct (last l2)|]. split.
    + apply list.NoDup_app. by split.
    + apply seg_app. split.
      * eapply seg_frame; [|exact S1]. intros y Hy. rewrite Hfr by (by intros ->). apply (rl_frame _ _ _ R2). by apply Hd.
      * eapply seg_frame; [|exact S2]. intros y Hy. rewrite Hfr by (by intros ->). done.
  - etrans; [|etrans]; [eapply relinked_weaken; [|exact R1]|eapply relinked_weaken; [|exact R2]|].
    + intros y Hy. apply elem_of_app. by left.
    + intros y Hy. apply elem_of_app. right. apply elem_of_cons. by right.
    + apply (relink_store _ _ x (fun s => with_prev (with_next s 0) 0)); [|done|done]. apply elem_of_app. right. apply elem_of_cons. by left.
  - unfold same_rest in *. cbn. destruct Q1, Q2. split; congruence.
Qed.

Lemma pop_front_ok w q l : queue_rep (sudogs w) q l ->
  exists w' q', pop_front w q = Ok (w', q', hd 0 l) /\ queue_rep (sudogs w') q' (tl l) /\
    relinked l (sudogs w) (sudogs w') /\ same_rest w w'.
Proof.
  intros Hq. unfold pop_front. case_decide as Hz.
  { pose proof (head_null _ _ _ Hq Hz) as ->. exists w, q. split; [done|]. split; [done|]. split; [reflexivity|done]. }
  destruct Hq as (Hh & Ht & Hnd & Hs). destruct l as [|x l]; [done|]. cbn [hd tl] in *.
  destruct Hs as (Hx & (s & Es & Hp & Hn) & H2). apply list.NoDup_cons in Hnd as [Hxl Hnd].
  rewrite Hh, (deref_ok w x s Hx Es). cbn [mbind outcome_bind]. rewrite Hn.
  destruct (unlink_right w (mkQueue (hd 0 l) (q_tail q)) l x 0 Hnd H2) as (w2 & q2 & E & Hh2 & Ht2 & S2 & R2 & Q2).
  { cbn [q_tail]. rewrite Ht. unfold last_or. rewrite last_cons. by destruct (last l). }
  cbn [q_head] in E, Hh2. rewrite E. cbn [mbind outcome_bind].
  assert (sudogs w2 !! x = Some s) as E2 by (by rewrite (rl_frame _ _ _ R2)).
  rewrite (store_ok w2 x _ s Hx E2). cbn [mbind outcome_bind].
  rewrite (store_ok _ x _ (with_next s 0)) by (done || apply lookup_insert_eq). cbn [mbind outcome_bind sudogs with_sudogs coords readied].
  rewrite insert_insert_eq. eexists _, _. split; [done|]. cbn [sudogs with_sudogs]. split; [|split].
  - split; [done|]. split; [done|]. split; [done|]. eapply seg_frame; [|exact S2]. intros y Hy. apply lookup_insert_ne. by intros ->.
  - etrans; [eapply relinked_weaken; [|exact R2]|].
    + intros y Hy. apply elem_of_cons. by right.
    + apply (relink_store _ _ x (fun s => with_prev (with_next s 0) 0)); [|done|done]. apply elem_of_cons. by left.
  - done.
Qed.

(** The walks have enough fuel. *)
Lemma walk_enough w q l : queue_rep (sudogs w) q l -> (length l < walk_fuel w)%nat.
Proof.
  intros (_ & _ & Hnd & Hs). unfold walk_fuel. apply Nat.lt_succ_r.
  rewrite <- (size_list_to_set (C := gset Z)) by done. rewrite <- size_dom. apply subseteq_size. intros x Hx.
  apply elem_of_list_to_set in Hx. destruct (seg_lookup _ _ _ _ x Hs Hx) as [_ [s E]]. apply elem_of_dom. by eexists.
Qed.

(** The suffix of a queue from some entry on. *)
Lemma queue_suffix m q l1 l2 : queue_rep m q (l1 ++ l2) -> seg m (last_or 0 l1) l2 0.
Proof. intros (_ & _ & _ & Hs). by apply seg_app in Hs as [_ ?]. Qed.

Lemma cancel_loop_ok w q sg : forall fuel l1 l2, queue_rep (sudogs w) q (l1 ++ l2) -> sg ∉ l1 -> (length l2 <= fuel)%nat ->
  exists w' q', cancel_loop fuel w q sg (hd 0 l2) = Ok (w', q', bool_decide (sg ∈ l2)) /\
    queue_rep (sudogs w') q' (filter (fun x => x <> sg) (l1 ++ l2)) /\
    relinked (l1 ++ l2) (sudogs w) (sudogs w') /\ same_rest w w'.
Proof.
  assert (forall l, sg ∉ l -> filter (fun x => x <> sg) l = l) as Hid.
  { induction l as [|x l IH]; [done|]. intros Hx. rewrite elem_of_cons in Hx. rewrite filter_cons, decide_True by (intros ->; tauto).
    f_equal. apply IH. tauto. }
  induction fuel as [|fuel IH]; intros l1 l2 Hq Hn1 Hf.
  { destruct l2; [|cbn in Hf; lia]. cbn. rewrite app_nil_r in *. exists w, q. rewrite Hid by done. by rewrite bool_decide_false by (apply not_elem_of_nil). }
  pose proof (queue_suffix _ _ _ _ Hq) as Hs. destruct l2 as [|x l2].
  { cbn. rewrite app_nil_r in *. exists w, q. rewrite Hid by done. by rewrite bool_decide_false by (apply not_elem_of_nil). }
  destruct Hs as (Hz & (s & Es & _ & Hn) & _). cbn [hd cancel_loop]. rewrite decide_False by done. case_decide as Hx.
  - subst x. destruct (unlink_ok w q l1 sg l2 Hq) as (w' & q' & -> & Hq' & R & Q). cbn [mbind outcome_bind].
    eexists _, _. rewrite bool_decide_true by (apply elem_of_cons; by left). split; [done|]. split; [|done].
    destruct Hq as (_ & _ & Hnd & _). apply list.NoDup_app in Hnd as (_ & _ & Hnd). apply list.NoDup_cons in Hnd as [Hn2 _].
    by rewrite filter_app, filter_cons, decide_False, !Hid by (done || tauto).
  - rewrite (deref_ok w x s Hz Es). cbn [mbind outcome_bind]. rewrite Hn.
    replace (l1 ++ x :: l2) with ((l1 ++ [x]) ++ l2) in * by (by rewrite <- app_assoc).
    destruct (IH (l1 ++ [x]) l2 Hq) as (w' & q' & -> & Hq' & R & Q).
    + rewrite elem_of_app, list_elem_of_singleton. intros [?| ->]; done.
    + cbn in Hf. lia.
    + eexists _, _. split; [|done]. do 2 f_equal. apply bool_decide_ext. rewrite elem_of_cons. split; [tauto|]. intros [->|?]; done.
Qed.

Lemma cancel_ok w q l sg : queue_rep (sudogs w) q l ->
  exists w' q', cancel w q sg = Ok (w', q', bool_decide (sg ∈ l)) /\
    queue_rep (sudogs w') q' (filter (fun x => x <> sg) l) /\ relinked l (sudogs w) (sudogs w') /\ same_rest w w'.
Proof.
  intros Hq. pose proof (walk_enough _ _ _ Hq) as Hf. unfold cancel. pose proof Hq as (Hh & _). rewrite Hh.
  apply (cancel_loop_ok w q sg (walk_fuel w) [] l); [done|apply not_elem_of_nil|lia].
Qed.
End queue.
