(* ===== verification/GoChanSpec.v ===== *)
(** Channels refine the channel of the Go specification.

    [achan] is the abstract channel: a queue of buffered values, the parked senders with their
    values, the parked receivers, and what the entries that were woken were told.  Each
    operation of src/src/gochan.rs, on channels used through [Send], [Recv] and [Close],
    simulates its abstract counterpart; the abstract channel is first in, first out. *)
From Stdlib Require Import ZArith Lia.
From stdpp Require Import base tactics numbers list list_numbers option fin_maps gmap.
From S2P Require Import Prelude Outcome LockFreeRing GoChan GoChanQueue.
Open Scope Z_scope.

(** ** The abstract channel *)

Section spec.
  Context {V : Type} (zero : V).

(** [a_woken] maps the entry of a resumed goroutine to its value slot and success flag. *)
Record achan := mkAchan {
  a_closed : bool;
  a_cap : Z;
  a_buf : list V;
  a_send : list (Z * V);
  a_recv : list Z;
  a_woken : gmap Z (option V * bool);
  a_ready : list Z
}.

Definition a_new (cap : Z) : achan := mkAchan false cap [] [] [] ∅ [].

(** Tell entry [x] its result and make its goroutine ready. *)
Definition a_wake (a : achan) (x : Z) (r : option V * bool) : achan :=
  mkAchan (a_closed a) (a_cap a) (a_buf a) (a_send a) (a_recv a) (<[x := r]> (a_woken a)) (a_ready a ++ [x]).

Definition a_set_buf (a : achan) (b : list V) : achan :=
  mkAchan (a_closed a) (a_cap a) b (a_send a) (a_recv a) (a_woken a) (a_ready a).
Definition a_set_send (a : achan) (s : list (Z * V)) : achan :=
  mkAchan (a_closed a) (a_cap a) (a_buf a) s (a_recv a) (a_woken a) (a_ready a).
Definition a_set_recv (a : achan) (r : list Z) : achan :=
  mkAchan (a_closed a) (a_cap a) (a_buf a) (a_send a) r (a_woken a) (a_ready a).

(** [c <- v] by the goroutine whose entry would be [x]; also the values handed to receivers. *)
Definition a_Send (a : achan) (v : V) (x : Z) : outcome (achan * call unit * list V) :=
  if a_closed a then Exit 2
  else
    match a_recv a with
    | r :: rs => Ok (a_wake (a_set_recv a rs) r (Some v, true), Returned tt, [v])
    | [] =>
        if decide (zlen (a_buf a) < a_cap a) then Ok (a_set_buf a (a_buf a ++ [v]), Returned tt, [])
        else Ok (a_set_send a (a_send a ++ [(x, v)]), Parked x, [])
    end.

(** [v, ok := <-c]. *)
Definition a_Recv (a : achan) (x : Z) : outcome (achan * call (V * bool) * list V) :=
  if decide (a_closed a = true /\ a_buf a = []) then Ok (a, Returned (zero, false), [])
  else
    match a_send a, a_buf a with
    | (s, v) :: ss, [] => Ok (a_wake (a_set_send a ss) s (None, true), Returned (v, true), [v])
    | (s, v) :: ss, b :: bs =>
        Ok (a_wake (a_set_send (a_set_buf a (bs ++ [v])) ss) s (None, true), Returned (b, true), [b])
    | [], b :: bs => Ok (a_set_buf a bs, Returned (b, true), [b])
    | [], [] => Ok (a_set_recv a (a_recv a ++ [x]), Parked x, [])
    end.

Definition a_Close (a : achan) : outcome achan :=
  if a_closed a then Exit 2
  else
    let woken_recv := foldl (fun a x => a_wake a x (None, false)) a (a_recv a) in
    let woken := foldl (fun a sv => a_wake a sv.1 (Some sv.2, false)) woken_recv (a_send a) in
    Ok (mkAchan true (a_cap a) (a_buf a) [] [] (a_woken woken) (a_ready woken)).

(** What a resumed goroutine sees. *)
Definition a_forget (a : achan) (x : Z) : achan :=
  mkAchan (a_closed a) (a_cap a) (a_buf a) (a_send a) (a_recv a) (delete x (a_woken a)) (a_ready a).

Definition a_send_wake (a : achan) (x : Z) : outcome achan :=
  match a_woken a !! x with
  | Some (None, true) => Ok (a_forget a x)
  | Some (_, false) => Exit 2
  | _ => Panic
  end.

Definition a_recv_wake (a : achan) (x : Z) : outcome (achan * (V * bool)) :=
  match a_woken a !! x with
  | Some (Some v, true) => Ok (a_forget a x, (v, true))
  | Some (_, false) => Ok (a_forget a x, (zero, false))
  | _ => Panic
  end.

(** ** Invariant of the abstract channel *)

Record a_inv (a : achan) : Prop := {
  ai_cap : 0 <= a_cap a /\ zlen (a_buf a) <= a_cap a;
  ai_send : a_send a <> [] -> zlen (a_buf a) = a_cap a /\ a_recv a = [];
  ai_recv : a_recv a <> [] -> a_buf a = [] /\ a_send a = [];
  ai_closed : a_closed a = true -> a_send a = [] /\ a_recv a = []
}.

Lemma a_Send_inv a v x a' r d : a_inv a -> a_Send a v x = Ok (a', r, d) -> a_inv a'.
Proof.
  intros [[Hc0 Hc] Hs Hr Hcl] E. unfold a_Send in E. destruct (a_closed a) eqn:Ec; [done|].
  destruct (a_recv a) as [|y rs] eqn:Er; [case_decide as Hl|]; injection E as <- <- <-.
  - split; cbn; rewrite ?Er; try done.
    + rewrite zlen_app. unfold zlen at 2. cbn. lia.
    + intros Hne. destruct (Hs Hne). lia.
    + congruence.
  - split; cbn; rewrite ?Er; try done; [|congruence]. intros _. split; [lia|done].
  - destruct (Hr ltac:(done)) as [Eb Es]. split; cbn; rewrite ?Es, ?Eb in *; try done. congruence.
Qed.

Lemma a_Recv_inv a x a' r d : a_inv a -> a_Recv a x = Ok (a', r, d) -> a_inv a'.
Proof.
  intros [[Hc0 Hc] Hs Hr Hcl] E. unfold a_Recv in E. case_decide as Hce; [by injection E as <- <- <-|].
  assert (forall b bs, zlen ((b : V) :: bs) = zlen bs + 1) as Hz by (intros; unfold zlen; cbn [length]; lia).
  destruct (a_send a) as [|[y v] ss] eqn:Es, (a_buf a) as [|b bs] eqn:Eb; injection E as <- <- <-.
  - split; cbn; rewrite ?Es, ?Eb; try done. intros E. tauto.
  - rewrite Hz in Hc. split; cbn; rewrite ?Es; try done; [lia|]. intros Hne. by destruct (Hr Hne).
  - destruct (Hs ltac:(done)) as [El Er]. split; cbn; rewrite ?Er, ?Eb in *; try done; try lia.
    intros E. destruct (Hcl E) as [? _]. done.
  - destruct (Hs ltac:(done)) as [El Er]. rewrite Hz in El. split; cbn; rewrite ?Er; try done.
    + rewrite zlen_app. unfold zlen at 2. cbn. lia.
    + intros _. rewrite zlen_app. unfold zlen at 2. cbn. split; [lia|done].
    + intros E. destruct (Hcl E) as [? _]. done.
Qed.

Lemma a_Close_inv a a' : a_inv a -> a_Close a = Ok a' -> a_inv a'.
Proof.
  intros [Hc _ _ _] E. unfold a_Close in E. destruct (a_closed a); [done|]. injection E as <-. by split.
Qed.
End spec.
Arguments achan : clear implicits.

(** ** Simulation *)

Section refine.
  Context {V B : Type} `{Buffer V B} (zero : V).
  Implicit Types (w : World V) (c : Hchan B) (a : achan V) (x : Z).

Record chan_rel w c a : Prop := {
  cr_nil : nil c = false;
  cr_closed : closed (state c) = a_closed a;
  cr_cap : cap (state c) = a_cap a;
  cr_buf : exists N, Z.max (a_cap a) 1 <= N /\ buf_rep N (a_buf a) (buf (state c));
  cr_sendq : queue_rep (sudogs w) (sendq (state c)) (a_send a).*1;
  cr_recvq : queue_rep (sudogs w) (recvq (state c)) (a_recv a);
  cr_disj : forall x, x ∈ (a_send a).*1 -> x ∈ a_recv a -> False;
  cr_send : forall x v, (x, v) ∈ a_send a -> data <$> sudogs w !! x = Some (x, Some v, false, None);
  cr_recv : forall x, x ∈ a_recv a -> data <$> sudogs w !! x = Some (x, None, false, None);
  cr_woken : forall x v ok, a_woken a !! x = Some (v, ok) -> x <> 0 /\ data <$> sudogs w !! x = Some (x, v, ok, None);
  cr_apart : forall x, is_Some (a_woken a !! x) -> x ∉ (a_send a).*1 /\ x ∉ a_recv a;
  cr_dom : forall x, is_Some (sudogs w !! x) -> x ∈ (a_send a).*1 \/ x ∈ a_recv a \/ is_Some (a_woken a !! x);
  cr_ready : readied w = a_ready a
}.

(** An entry address no one uses. *)
Definition fresh w x : Prop := x <> 0 /\ sudogs w !! x = None.

Lemma queue_frame (m m' : gmap Z (Sudog V)) q l : (forall x, x ∈ l -> m' !! x = m !! x) -> queue_rep m q l -> queue_rep m' q l.
Proof. intros Hf (? & ? & ? & Hs). split_and!; try done. by eapply seg_frame. Qed.

Lemma data_inv (o : option (Sudog V)) d : data <$> o = Some d -> exists s, o = Some s /\ data s = d.
Proof. intros (s & -> & E)%fmap_Some. exists s. split; [done|by symmetry]. Qed.

Lemma in_fst (l : list (Z * V)) x v : (x, v) ∈ l -> x ∈ l.*1.
Proof. intros Hin. apply list_elem_of_fmap. by exists (x, v). Qed.

(** Plain entries are always claimed: the scan stops at the head. *)
Lemma claim_plain w q l : queue_rep (sudogs w) q l -> (forall x s, hd_error l = Some x -> sudogs w !! x = Some s -> coord s = None) ->
  claim_first w q = Ok (w, hd_error l).
Proof.
  intros (Hh & _ & _ & Hs) Hp. unfold claim_first, walk_fuel. rewrite Hh. destruct l as [|x l]; [done|].
  destruct Hs as (Hz & (s & Es & _) & _). cbn [hd claim_loop hd_error]. rewrite decide_False by done.
  rewrite (deref_ok w x s Hz Es). cbn [mbind outcome_bind]. unfold try_claim_sudog. rewrite (deref_ok w x s Hz Es).
  cbn [mbind outcome_bind]. by rewrite (Hp x s).
Qed.

Lemma buf_push_ok N q (s : HchanState B) v : buf_rep N q (buf s) -> zlen q < N ->
  exists b, buf_push s v = Ok (with_buf s b) /\ buf_rep N (q ++ [v]) b.
Proof.
  intros Hr Hl. destruct (buf_send_ok N q (buf s) v Hr Hl) as (b & E & Hb). exists b. unfold buf_push. by rewrite E.
Qed.

Lemma buf_pop_ok N y q (s : HchanState B) : buf_rep N (y :: q) (buf s) ->
  exists b, buf_pop s = Ok (with_buf s b, Some y) /\ buf_rep N q b.
Proof. intros Hr. destruct (buf_recv_ok N y q (buf s) Hr) as (b & E & Hb). exists b. unfold buf_pop. by rewrite E. Qed.

Lemma buf_pop_empty N (s : HchanState B) : buf_rep N [] (buf s) -> buf_pop s = Ok (s, None).
Proof. intros Hr. unfold buf_pop. rewrite (buf_recv_empty N (buf s) Hr). cbn. by destruct s. Qed.

(** The store after entry [x] of a queue was unlinked and told its result. *)
Record woke w w' (l : list Z) x (v : option V) (ok : bool) : Prop := {
  wk_self : data <$> sudogs w' !! x = Some (x, v, ok, None);
  wk_data : forall y, y <> x -> data <$> sudogs w' !! y = data <$> sudogs w !! y;
  wk_frame : forall y, y ∉ l -> y <> x -> sudogs w' !! y = sudogs w !! y;
  wk_ready : readied w' = readied w ++ [x]
}.

Lemma woke_dom w w' l x v ok y : woke w w' l x v ok -> is_Some (sudogs w' !! y) -> y = x \/ is_Some (sudogs w !! y).
Proof.
  intros W Hy. destruct (decide (y = x)); [by left|right]. rewrite <- (fmap_is_Some data), (wk_data _ _ _ _ _ _ W y) in Hy by done.
  by rewrite fmap_is_Some in Hy.
Qed.

(** Unlinking the head of a queue of plain entries and telling it a result. *)
Lemma unlink_head w q x l sv v ok : queue_rep (sudogs w) q (x :: l) -> data <$> sudogs w !! x = Some (x, sv, false, None) ->
  exists w1 q1 s1, x <> 0 /\ unlink w q x = Ok (w1, q1) /\ sudogs w1 !! x = Some s1 /\ data s1 = (x, sv, false, None) /\
    forall s2, data s2 = (x, v, ok, None) ->
      let w' := goready (with_sudogs w1 (<[x := s2]> (sudogs w1))) x in queue_rep (sudogs w') q1 l /\ woke w w' (x :: l) x v ok.
Proof.
  intros Hq Hd. assert (x <> 0) as Hz by (destruct Hq as (_ & _ & _ & Hz & _); done).
  destruct (unlink_ok w q [] x l Hq) as (w1 & q1 & E & Hq1 & R & Q). cbn [app] in *.
  pose proof (rl_data _ _ _ R x) as Es. rewrite Hd in Es. destruct (data_inv _ _ Es) as (s1 & Es1 & Hd1).
  exists w1, q1, s1. do 4 (split; [done|]). intros s2 H2. split.
  - eapply queue_frame; [|exact Hq1]. intros y Hy. apply lookup_insert_ne.
    destruct Hq as (_ & _ & Hnd & _). apply list.NoDup_cons in Hnd as [Hnr _]. by intros ->.
  - split; cbn.
    + by rewrite lookup_insert_eq, <- H2.
    + intros y Hy. rewrite lookup_insert_ne by done. apply (rl_data _ _ _ R).
    + intros y Hy Hne. rewrite lookup_insert_ne by done. by apply (rl_frame _ _ _ R).
    + destruct Q as [_ ->]. done.
Qed.

Lemma rel_wake_recv w w' c a r rs q' v ok : chan_rel w c a -> a_recv a = r :: rs -> queue_rep (sudogs w') q' rs ->
  woke w w' (a_recv a) r v ok -> chan_rel w' (on_state c (with_recvq (state c) q')) (a_wake (a_set_recv a rs) r (v, ok)).
Proof.
  intros R Er Hq W. destruct R as [Rn Rcl Rcap Rb Rs Rr Rd Rsd Rrd Rw Ra Rdom Rrdy]. rewrite Er in *.
  pose proof Rr as (_ & _ & Hnd & Hseg). apply list.NoDup_cons in Hnd as [Hnr _]. destruct Hseg as (Hz & _).
  assert (r ∉ (a_send a).*1) as Hns by (intros Hin; apply (Rd r Hin), elem_of_cons; by left).
  assert (forall y, y ∈ rs -> y ∈ r :: rs) as Htl by (intros; apply elem_of_cons; by right).
  split; cbn [nil state on_state closed cap buf sendq recvq with_recvq a_wake a_set_recv a_closed a_cap a_buf a_send a_recv a_woken a_ready]; try done.
  - eapply queue_frame; [|exact Rs]. intros y Hy. apply (wk_frame _ _ _ _ _ _ W); [intros Hin; by apply (Rd y)|by intros ->].
  - intros y Hy Hy'. apply (Rd y); auto.
  - intros y u Hy. rewrite (wk_data _ _ _ _ _ _ W); [by apply Rsd|]. intros ->. by apply Hns, (in_fst _ _ u).
  - intros y Hy. rewrite (wk_data _ _ _ _ _ _ W); [by apply Rrd, Htl|]. by intros ->.
  - intros y u k. rewrite lookup_insert_Some. intros [[<- [= <- <-]]|[Hne Hy]]; [split; [done|apply (wk_self _ _ _ _ _ _ W)]|].
    rewrite (wk_data _ _ _ _ _ _ W) by done. by apply Rw.
  - intros y. rewrite lookup_insert_is_Some. intros [<-|[Hne Hy]]; [done|]. destruct (Ra y Hy) as [? Hn]. split; [done|]. intros ?. by apply Hn, Htl.
  - intros y Hy. rewrite lookup_insert_is_Some. destruct (woke_dom _ _ _ _ _ _ y W Hy) as [->|Hy']; [right; right; by left|].
    destruct (decide (r = y)); [right; right; by left|]. destruct (Rdom y Hy') as [?|[Hin|?]]; [by left| |right; right; by right].
    right. left. apply elem_of_cons in Hin as [?|?]; [congruence|done].
  - rewrite (wk_ready _ _ _ _ _ _ W). by rewrite Rrdy.
Qed.

Lemma rel_wake_send w w' c a x u ss q' v ok : chan_rel w c a -> a_send a = (x, u) :: ss -> queue_rep (sudogs w') q' ss.*1 ->
  woke w w' (a_send a).*1 x v ok -> chan_rel w' (on_state c (with_sendq (state c) q')) (a_wake (a_set_send a ss) x (v, ok)).
Proof.
  intros R Er Hq W. destruct R as [Rn Rcl Rcap Rb Rs Rr Rd Rsd Rrd Rw Ra Rdom Rrdy]. rewrite Er in *. cbn [fmap list_fmap fst] in *.
  pose proof Rs as (_ & _ & Hnd & Hseg). apply list.NoDup_cons in Hnd as [Hnr _]. destruct Hseg as (Hz & _).
  assert (x ∉ a_recv a) as Hns by (intros Hin; apply (Rd x); [apply elem_of_cons; by left|done]).
  assert (forall y, y ∈ ss.*1 -> y ∈ x :: ss.*1) as Htl by (intros; apply elem_of_cons; by right).
  split; cbn [nil state on_state closed cap buf sendq recvq with_sendq a_wake a_set_send a_closed a_cap a_buf a_send a_recv a_woken a_ready]; try done.
  - eapply queue_frame; [|exact Rr]. intros y Hy. apply (wk_frame _ _ _ _ _ _ W); [intros Hin; by apply (Rd y)|by intros ->].
  - intros y Hy Hy'. apply (Rd y); auto.
  - intros y z Hy. rewrite (wk_data _ _ _ _ _ _ W); [apply Rsd; apply elem_of_cons; by right|]. intros ->. by apply Hnr, (in_fst _ _ z).
  - intros y Hy. rewrite (wk_data _ _ _ _ _ _ W); [by apply Rrd|]. by intros ->.
  - intros y z k. rewrite lookup_insert_Some. intros [[<- [= <- <-]]|[Hne Hy]]; [split; [done|apply (wk_self _ _ _ _ _ _ W)]|].
    rewrite (wk_data _ _ _ _ _ _ W) by done. by apply Rw.
  - intros y. rewrite lookup_insert_is_Some. intros [<-|[Hne Hy]]; [done|]. destruct (Ra y Hy) as [Hn ?]. split; [|done]. intros ?. by apply Hn, Htl.
  - intros y Hy. rewrite lookup_insert_is_Some. destruct (woke_dom _ _ _ _ _ _ y W Hy) as [->|Hy']; [right; right; by left|].
    destruct (decide (x = y)); [right; right; by left|]. destruct (Rdom y Hy') as [Hin|[?|?]]; [|right; by left|right; right; by right].
    left. apply elem_of_cons in Hin as [?|?]; [congruence|done].
  - rewrite (wk_ready _ _ _ _ _ _ W). by rewrite Rrdy.
Qed.

Lemma rel_buf w c a N q b : chan_rel w c a -> Z.max (a_cap a) 1 <= N -> buf_rep N q b ->
  chan_rel w (on_state c (with_buf (state c) b)) (a_set_buf a q).
Proof. intros [] HN Hb. split; try done. by exists N. Qed.

(** [__try_send_locked] on an open channel, in its three cases. *)
Lemma sim_try_send w c a v : chan_rel w c a -> a_inv a -> a_closed a = false ->
  match a_recv a with
  | r :: rs => exists w' c', try_send_locked w (state c) v = Ok (w', state c', SendOk) /\ nil c' = nil c /\
      chan_rel w' c' (a_wake (a_set_recv a rs) r (Some v, true))
  | [] => if decide (zlen (a_buf a) < a_cap a)
          then exists c', try_send_locked w (state c) v = Ok (w, state c', SendOk) /\ nil c' = nil c /\
                 chan_rel w c' (a_set_buf a (a_buf a ++ [v]))
          else try_send_locked w (state c) v = Ok (w, state c, SendErr v)
  end.
Proof.
  intros R I Hcl. unfold try_send_locked. rewrite (cr_closed _ _ _ R), Hcl. pose proof (cr_recvq _ _ _ R) as Hq.
  rewrite (claim_plain w _ _ Hq); cycle 1.
  { intros x s Hx Es. assert (x ∈ a_recv a) as Hin by (destruct (a_recv a); [done|]; injection Hx as <-; apply elem_of_cons; by left).
    pose proof (cr_recv _ _ _ R x Hin) as Hd. rewrite Es in Hd. cbn in Hd. unfold data in Hd. congruence. }
  cbn [mbind outcome_bind]. destruct (a_recv a) as [|r rs] eqn:Er; cbn [hd_error].
  - destruct (cr_buf _ _ _ R) as (N & HN & Hb). rewrite (buf_len_ok N _ _ Hb), (cr_cap _ _ _ R). case_decide as Hl; [|done].
    destruct (buf_push_ok N (a_buf a) (state c) v Hb ltac:(lia)) as (b & -> & Hb'). cbn [mbind outcome_bind].
    exists (on_state c (with_buf (state c) b)). split; [done|]. split; [done|]. by apply (rel_buf w c a N).
  - pose proof (cr_recv _ _ _ R r ltac:(rewrite Er; apply elem_of_cons; by left)) as Hd.
    destruct (unlink_head w _ r rs None (Some v) true Hq Hd) as (w1 & q1 & s1 & Hz & -> & Es1 & Hd1 & Hw). cbn [mbind outcome_bind].
    unfold data in Hd1. injection Hd1 as Eg _ _ Eco. rewrite (store_ok w1 r _ s1 Hz Es1). cbn [mbind outcome_bind].
    rewrite (store_ok _ r _ (with_value s1 (Some v))) by (done || apply lookup_insert_eq). cbn [mbind outcome_bind sudogs with_sudogs coords readied].
    rewrite insert_insert_eq. rewrite (deref_ok _ r (with_success (with_value s1 (Some v)) true)) by (done || apply lookup_insert_eq).
    cbn [mbind outcome_bind g with_success with_value]. rewrite Eg.
    destruct (Hw (with_success (with_value s1 (Some v)) true)) as [Hq1 W]; [unfold data; cbn; by rewrite Eg, Eco|].
    eexists _, (on_state c (with_recvq (state c) q1)). split; [done|]. split; [done|].
    apply (rel_wake_recv w _ c a r rs q1); [done|done|done|by rewrite Er].
Qed.

(** A claimed sender's value, taken after its entry was unlinked. *)
Lemma take_ok w1 (s : HchanState B) x s1 v q : x <> 0 -> sudogs w1 !! x = Some s1 -> value s1 = Some v ->
  (exists N, Z.max (cap s) 1 <= N /\ buf_rep N q (buf s)) -> zlen q = cap s ->
  exists b' q', take_from_sender w1 s x =
      Ok (with_sudogs w1 (<[x := with_value s1 None]> (sudogs w1)), with_buf s b', hd v q) /\
    q' = match q with [] => [] | _ :: bs => bs ++ [v] end /\ exists N, Z.max (cap s) 1 <= N /\ buf_rep N q' b'.
Proof.
  intros Hz Es Ev (N & HN & Hb) Hl. unfold take_from_sender. rewrite (deref_ok w1 x s1 Hz Es). cbn [mbind outcome_bind].
  rewrite (store_ok w1 x _ s1 Hz Es), Ev. cbn [mbind outcome_bind of_option]. destruct q as [|b bs].
  - assert (cap s = 0) as Hc by (unfold zlen in Hl; cbn in Hl; lia). rewrite decide_True by done.
    exists (buf s), []. split; [by destruct s|]. split; [done|by exists N].
  - assert (zlen (b :: bs) = zlen bs + 1) as Hz1 by (unfold zlen; cbn [length]; lia). assert (0 <= zlen bs) by (unfold zlen; lia).
    rewrite decide_False by lia. destruct (buf_pop_ok N b bs s Hb) as (b1 & -> & Hb1). cbn [mbind outcome_bind of_option].
    destruct (buf_push_ok N bs (with_buf s b1) v Hb1 ltac:(lia)) as (b2 & -> & Hb2). cbn [mbind outcome_bind].
    exists b2, (bs ++ [v]). split; [done|]. split; [done|by exists N].
Qed.

Lemma sim_recv_sender w c a x v ss : chan_rel w c a -> a_inv a -> a_closed a = false -> a_send a = (x, v) :: ss ->
  exists w' c', try_recv_locked zero w (state c) = Ok (w', state c', Some (hd v (a_buf a), true)) /\ nil c' = nil c /\
    chan_rel w' c' (a_wake (a_set_send (a_set_buf a (match a_buf a with [] => [] | _ :: bs => bs ++ [v] end)) ss) x (None, true)).
Proof.
  intros R I Hcl Es. unfold try_recv_locked. rewrite (cr_closed _ _ _ R), Hcl. rewrite decide_False by (by intros [? _]).
  pose proof (cr_sendq _ _ _ R) as Hq. assert ((x, v) ∈ a_send a) as Hxv by (rewrite Es; apply elem_of_cons; by left).
  pose proof (cr_send _ _ _ R x v Hxv) as Hd. rewrite Es in Hq. cbn [fmap list_fmap fst] in Hq.
  rewrite (claim_plain w _ _ Hq); cycle 1.
  { intros y s [= <-] Ey. rewrite Ey in Hd. cbn in Hd. unfold data in Hd. congruence. }
  cbn [mbind outcome_bind hd_error].
  destruct (unlink_head w _ x ss.*1 (Some v) None true Hq Hd) as (w1 & q1 & s1 & Hz & -> & Es1 & Hd1 & Hw). cbn [mbind outcome_bind].
  unfold data in Hd1. injection Hd1 as Eg Ev _ Eco.
  destruct (take_ok w1 (with_sendq (state c) q1) x s1 v (a_buf a) Hz Es1 Ev) as (b' & q' & -> & Eq' & N & HN & Hb').
  { cbn. rewrite (cr_cap _ _ _ R). apply (cr_buf _ _ _ R). }
  { cbn. rewrite (cr_cap _ _ _ R). destruct (ai_send _ I); [by rewrite Es|done]. }
  cbn [mbind outcome_bind]. rewrite (store_ok _ x _ (with_value s1 None)) by (done || apply lookup_insert_eq).
  cbn [mbind outcome_bind sudogs with_sudogs coords readied]. rewrite insert_insert_eq.
  rewrite (deref_ok _ x (with_success (with_value s1 None) true)) by (done || apply lookup_insert_eq).
  cbn [mbind outcome_bind g with_success with_value]. rewrite Eg.
  destruct (Hw (with_success (with_value s1 None) true)) as [Hq1 W]; [unfold data; cbn; by rewrite Eg, Eco|].
  exists (goready (with_sudogs w1 (<[x := with_success (with_value s1 None) true]> (sudogs w1))) x),
    (on_state c (with_buf (with_sendq (state c) q1) b')). split; [done|]. split; [done|].
  rewrite <- Eq'. cbn [cap with_sendq] in HN. rewrite (cr_cap _ _ _ R) in HN.
  pose proof (rel_buf w c a N q' b' R HN Hb') as R2.
  apply (rel_wake_send w _ _ _ x v ss q1 None true R2); [done|done|]. cbn [a_send a_set_buf]. by rewrite Es.
Qed.

Lemma sim_recv_buffer w c a : chan_rel w c a -> a_inv a -> ~ (a_closed a = true /\ a_buf a = []) -> a_send a = [] ->
  match a_buf a with
  | b :: bs => exists c', try_recv_locked zero w (state c) = Ok (w, state c', Some (b, true)) /\ nil c' = nil c /\ chan_rel w c' (a_set_buf a bs)
  | [] => try_recv_locked zero w (state c) = Ok (w, state c, None)
  end.
Proof.
  intros R I Hnc Es. destruct (cr_buf _ _ _ R) as (N & HN & Hb). unfold try_recv_locked.
  rewrite (cr_closed _ _ _ R), (buf_len_ok N _ _ Hb), decide_False; cycle 1.
  { intros [? Hl]. apply Hnc. split; [done|]. destruct (a_buf a); [done|]. unfold zlen in Hl. cbn in Hl. lia. }
  pose proof (cr_sendq _ _ _ R) as Hq. rewrite Es in Hq. rewrite (claim_plain w _ _ Hq) by done. cbn [mbind outcome_bind hd_error fmap list_fmap].
  destruct (a_buf a) as [|b bs] eqn:Eb.
  - by rewrite (buf_pop_empty N (state c) Hb).
  - destruct (buf_pop_ok N b bs (state c) Hb) as (b' & -> & Hb'). cbn [mbind outcome_bind].
    exists (on_state c (with_buf (state c) b')). split; [done|]. split; [done|]. by apply (rel_buf w c a N).
Qed.

(** Parking: a fresh entry is pushed on a wait queue. *)
Lemma rel_park_recv w c a x : chan_rel w c a -> fresh w x ->
  exists w' q', push_back (with_sudogs w (<[x := new_recv x]> (sudogs w))) (recvq (state c)) x = Ok (w', q') /\
    chan_rel w' (on_state c (with_recvq (state c) q')) (a_set_recv a (a_recv a ++ [x])).
Proof.
  intros R [Hz Hx]. destruct R as [Rn Rcl Rcap Rb Rs Rr Rd Rsd Rrd Rw Ra Rdom Rrdy].
  assert (forall l q, queue_rep (sudogs w) q l -> x ∉ l) as Hni.
  { intros l q (_ & _ & _ & Hs) Hin. destruct (seg_lookup _ _ _ _ x Hs Hin) as [_ [? ?]]. congruence. }
  assert (forall l q, queue_rep (sudogs w) q l -> queue_rep (<[x := new_recv x]> (sudogs w)) q l) as Hfr.
  { intros l q Hq. eapply queue_frame; [|exact Hq]. intros y Hy. apply lookup_insert_ne. intros ->. by apply (Hni l q). }
  destruct (push_back_ok (with_sudogs w (<[x := new_recv x]> (sudogs w))) (recvq (state c)) (a_recv a) x (new_recv x)) as
    (w' & q' & E & Hq' & R' & Q'); [by apply Hfr|apply lookup_insert_eq|done|by apply (Hni _ _ Rr)|].
  exists w', q'. split; [done|]. cbn [sudogs with_sudogs] in R'. pose proof (Hni _ _ Rs) as Hns. pose proof (Hni _ _ Rr) as Hnr.
  assert (forall y, y <> x -> data <$> sudogs w' !! y = data <$> sudogs w !! y) as Hd.
  { intros y Hy. rewrite (rl_data _ _ _ R'). by rewrite lookup_insert_ne. }
  assert (data <$> sudogs w' !! x = Some (x, None, false, None)) as Hdx by (rewrite (rl_data _ _ _ R'), lookup_insert_eq; done).
  split; cbn [nil state on_state closed cap buf sendq recvq with_recvq a_set_recv a_closed a_cap a_buf a_send a_recv a_woken a_ready]; try done.
  - eapply queue_frame; [|apply Hfr, Rs]. intros y Hy. apply (rl_frame _ _ _ R'). rewrite elem_of_app, list_elem_of_singleton.
    intros [?| ->]; [by apply (Rd y)|done].
  - intros y Hy. rewrite elem_of_app, list_elem_of_singleton. intros [?| ->]; [by apply (Rd y)|done].
  - intros y u Hy. rewrite Hd; [by apply Rsd|]. intros ->. by apply Hns, (in_fst _ _ u).
  - intros y. rewrite elem_of_app, list_elem_of_singleton. intros [Hy| ->]; [|done]. rewrite Hd; [by apply Rrd|]. by intros ->.
  - intros y u k Hy. destruct (Rw y u k Hy) as [? Hy']. split; [done|]. rewrite Hd; [done|]. intros ->. rewrite Hx in Hy'. done.
  - intros y Hy. destruct (Ra y Hy) as [? ?]. split; [done|]. rewrite elem_of_app, list_elem_of_singleton. intros [?| ->]; [done|].
    destruct Hy as [[u k] Hy]. destruct (Rw x u k Hy) as [_ Hy']. by rewrite Hx in Hy'.
  - intros y Hy. rewrite elem_of_app, list_elem_of_singleton. destruct (decide (y = x)); [right; left; by right|].
    rewrite <- (fmap_is_Some data), Hd, fmap_is_Some in Hy by done. destruct (Rdom y Hy) as [?|[?|?]]; tauto.
  - destruct Q' as [_ ->]. done.
Qed.

Lemma rel_park_send w c a x v : chan_rel w c a -> fresh w x ->
  exists w' q', push_back (with_sudogs w (<[x := new_send x v]> (sudogs w))) (sendq (state c)) x = Ok (w', q') /\
    chan_rel w' (on_state c (with_sendq (state c) q')) (a_set_send a (a_send a ++ [(x, v)])).
Proof.
  intros R [Hz Hx]. destruct R as [Rn Rcl Rcap Rb Rs Rr Rd Rsd Rrd Rw Ra Rdom Rrdy].
  assert (forall l q, queue_rep (sudogs w) q l -> x ∉ l) as Hni.
  { intros l q (_ & _ & _ & Hs) Hin. destruct (seg_lookup _ _ _ _ x Hs Hin) as [_ [? ?]]. congruence. }
  assert (forall l q, queue_rep (sudogs w) q l -> queue_rep (<[x := new_send x v]> (sudogs w)) q l) as Hfr.
  { intros l q Hq. eapply queue_frame; [|exact Hq]. intros y Hy. apply lookup_insert_ne. intros ->. by apply (Hni l q). }
  destruct (push_back_ok (with_sudogs w (<[x := new_send x v]> (sudogs w))) (sendq (state c)) (a_send a).*1 x (new_send x v)) as
    (w' & q' & E & Hq' & R' & Q'); [by apply Hfr|apply lookup_insert_eq|done|by apply (Hni _ _ Rs)|].
  exists w', q'. split; [done|]. cbn [sudogs with_sudogs] in R'. pose proof (Hni _ _ Rs) as Hns. pose proof (Hni _ _ Rr) as Hnr.
  assert (forall y, y <> x -> data <$> sudogs w' !! y = data <$> sudogs w !! y) as Hd.
  { intros y Hy. rewrite (rl_data _ _ _ R'). by rewrite lookup_insert_ne. }
  assert (data <$> sudogs w' !! x = Some (x, Some v, false, None)) as Hdx by (rewrite (rl_data _ _ _ R'), lookup_insert_eq; done).
  split; cbn [nil state on_state closed cap buf sendq recvq with_sendq a_set_send a_closed a_cap a_buf a_send a_recv a_woken a_ready]; try done.
  - by rewrite fmap_app.
  - eapply queue_frame; [|apply Hfr, Rr]. intros y Hy. apply (rl_frame _ _ _ R'). rewrite elem_of_app, list_elem_of_singleton.
    intros [?| ->]; [by apply (Rd y)|done].
  - intros y. rewrite fmap_app, elem_of_app. cbn. rewrite list_elem_of_singleton. intros [?| ->] Hy; [by apply (Rd y)|done].
  - intros y u. rewrite elem_of_app, list_elem_of_singleton. intros [Hy|[= -> ->]]; [|done]. rewrite Hd; [by apply Rsd|]. intros ->. by apply Hns, (in_fst _ _ u).
  - intros y Hy. rewrite Hd; [by apply Rrd|]. by intros ->.
  - intros y u k Hy. destruct (Rw y u k Hy) as [? Hy']. split; [done|]. rewrite Hd; [done|]. intros ->. rewrite Hx in Hy'. done.
  - intros y Hy. destruct (Ra y Hy) as [? ?]. split; [|done]. rewrite fmap_app, elem_of_app. cbn. rewrite list_elem_of_singleton. intros [?| ->]; [done|].
    destruct Hy as [[u k] Hy]. destruct (Rw x u k Hy) as [_ Hy']. by rewrite Hx in Hy'.
  - intros y Hy. rewrite fmap_app, elem_of_app. cbn. rewrite list_elem_of_singleton. destruct (decide (y = x)); [left; by right|].
    rewrite <- (fmap_is_Some data), Hd, fmap_is_Some in Hy by done. destruct (Rdom y Hy) as [?|[?|?]]; tauto.
  - destruct Q' as [_ ->]. done.
Qed.

(** ** The operations *)

Lemma on_state_id c c' : nil c' = nil c -> on_state c (state c') = c'.
Proof. destruct c'. cbn. by intros ->. Qed.

Lemma sim_Send w c a v x : chan_rel w c a -> a_inv a -> fresh w x ->
  match a_Send a v x with
  | Ok (a', r, _) => exists w' c', Send w c v (Some x) x = Ok (w', c', r) /\ chan_rel w' c' a'
  | Exit n => Send w c v (Some x) x = Exit n
  | Panic => False
  end.
Proof.
  intros R I Hf. unfold a_Send, Send. rewrite (cr_nil _ _ _ R). destruct (a_closed a) eqn:Hcl.
  { unfold try_send_locked. by rewrite (cr_closed _ _ _ R), Hcl. }
  pose proof (sim_try_send w c a v R I Hcl) as Hs. destruct (a_recv a) as [|r rs] eqn:Er; [case_decide as Hl|].
  - destruct Hs as (c' & -> & Hn & R'). cbn [mbind outcome_bind]. exists w, c'. split; [|done]. by rewrite on_state_id.
  - rewrite Hs. cbn [mbind outcome_bind]. unfold register_send_locked. rewrite (cr_closed _ _ _ R), Hcl.
    destruct (rel_park_send w c a x v R Hf) as (w' & q' & -> & R'). cbn [mbind outcome_bind]. by eexists _, _.
  - destruct Hs as (w' & c' & -> & Hn & R'). cbn [mbind outcome_bind]. exists w', c'. split; [|done]. by rewrite on_state_id.
Qed.

Lemma sim_Recv w c a x : chan_rel w c a -> a_inv a -> fresh w x ->
  match a_Recv zero a x with
  | Ok (a', r, _) => exists w' c', Recv zero w c (Some x) x = Ok (w', c', r) /\ chan_rel w' c' a'
  | _ => False
  end.
Proof.
  intros R I Hf. unfold a_Recv, Recv. rewrite (cr_nil _ _ _ R). destruct (cr_buf _ _ _ R) as (N & HN & Hb). case_decide as Hce.
  { destruct Hce as [Hcl Eb]. unfold try_recv_locked. rewrite (cr_closed _ _ _ R), (buf_len_ok N _ _ Hb), Eb.
    rewrite decide_True by done. cbn [mbind outcome_bind]. exists w, c. split; [|done]. by rewrite on_state_id. }
  destruct (a_send a) as [|[y v] ss] eqn:Es.
  - pose proof (sim_recv_buffer w c a R I Hce Es) as Hs. destruct (a_buf a) as [|b bs] eqn:Eb.
    + rewrite Hs. cbn [mbind outcome_bind]. unfold register_recv_locked. rewrite (cr_closed _ _ _ R), (buf_len_ok N _ _ Hb).
      rewrite decide_False by (intros [? _]; by apply Hce). destruct (rel_park_recv w c a x R Hf) as (w' & q' & -> & R').
      cbn [mbind outcome_bind]. by eexists _, _.
    + destruct Hs as (c' & -> & Hn & R'). cbn [mbind outcome_bind]. exists w, c'. split; [|done]. by rewrite on_state_id.
  - assert (a_closed a = false) as Hcl.
    { destruct (a_closed a) eqn:E; [|done]. destruct (ai_closed _ I E) as [E' _]. by rewrite Es in E'. }
    destruct (sim_recv_sender w c a y v ss R I Hcl Es) as (w' & c' & -> & Hn & R'). cbn [mbind outcome_bind].
    assert (forall q, a_buf a = q -> a_set_buf a q = a) as Hid by (intros q <-; by destruct a).
    destruct (a_buf a) as [|b bs] eqn:Eb; cbn [hd] in *; exists w', c'; (split; [by rewrite on_state_id|]); [|done].
    by rewrite (Hid []) in R'.
Qed.

(** A resumed goroutine drops its entry. *)
Lemma rel_forget w c a x : chan_rel w c a -> is_Some (a_woken a !! x) ->
  chan_rel (with_sudogs w (delete x (sudogs w))) c (a_forget a x).
Proof.
  intros R Hx. destruct R as [Rn Rcl Rcap Rb Rs Rr Rd Rsd Rrd Rw Ra Rdom Rrdy]. destruct (Ra x Hx) as [Hns Hnr].
  split; cbn [sudogs with_sudogs a_forget a_closed a_cap a_buf a_send a_recv a_woken a_ready]; try done.
  - eapply queue_frame; [|exact Rs]. intros y Hy. apply lookup_delete_ne. by intros ->.
  - eapply queue_frame; [|exact Rr]. intros y Hy. apply lookup_delete_ne. by intros ->.
  - intros y u Hy. rewrite lookup_delete_ne; [by apply Rsd|]. intros ->. by apply Hns, (in_fst _ _ u).
  - intros y Hy. rewrite lookup_delete_ne; [by apply Rrd|]. by intros ->.
  - intros y u k [Hne Hy]%lookup_delete_Some. rewrite lookup_delete_ne by done. by apply Rw.
  - intros y [Hne Hy]%lookup_delete_is_Some. by apply Ra.
  - intros y [Hne Hy]%lookup_delete_is_Some. destruct (Rdom y Hy) as [?|[?|?]]; [by left|right; by left|right; right].
    by apply lookup_delete_is_Some.
Qed.

Lemma sim_send_wake w c a x : chan_rel w c a -> match a_send_wake a x with
  | Ok a' => exists w', send_wake w x = Ok w' /\ chan_rel w' c a'
  | Exit n => send_wake w x = Exit n
  | Panic => True
  end.
Proof.
  intros R. unfold a_send_wake, send_wake. destruct (a_woken a !! x) as [[u k]|] eqn:Ex; [|done].
  destruct (cr_woken _ _ _ R x u k Ex) as [Hz Hd]. destruct (data_inv _ _ Hd) as (s & Es & Ed). unfold data in Ed. injection Ed as _ Ev Ek _.
  rewrite (deref_ok w x s Hz Es). cbn [mbind outcome_bind]. rewrite Ek, Ev. destruct u as [u|], k; try done.
  eexists. split; [done|]. apply rel_forget; [done|]. by rewrite Ex.
Qed.

Lemma sim_recv_wake w c a x : chan_rel w c a -> match a_recv_wake zero a x with
  | Ok (a', r) => exists w', recv_wake zero w x = Ok (w', r) /\ chan_rel w' c a'
  | Exit n => recv_wake zero w x = Exit n
  | Panic => True
  end.
Proof.
  intros R. unfold a_recv_wake, recv_wake. destruct (a_woken a !! x) as [[u k]|] eqn:Ex; [|done].
  destruct (cr_woken _ _ _ R x u k Ex) as [Hz Hd]. destruct (data_inv _ _ Hd) as (s & Es & Ed). unfold data in Ed. injection Ed as _ Ev Ek _.
  rewrite (deref_ok w x s Hz Es). cbn [mbind outcome_bind]. rewrite Ek, Ev.
  assert (chan_rel (with_sudogs w (delete x (sudogs w))) c (a_forget a x)) as R' by (apply rel_forget; [done|by rewrite Ex]).
  destruct u as [u|], k; try done; by eexists.
Qed.

(** [Close] wakes the receivers, then the senders. *)
Definition wake_recvs a (l : list Z) : achan V := foldl (fun a x => a_wake a x (None, false)) a l.
Definition wake_sends a (l : list (Z * V)) : achan V := foldl (fun a sv => a_wake a sv.1 (Some sv.2, false)) a l.

Lemma wake_recvs_eq a l : wake_recvs a l = mkAchan (a_closed a) (a_cap a) (a_buf a) (a_send a) (a_recv a)
  (foldl (fun m x => <[x := (None, false)]> m) (a_woken a) l) (a_ready a ++ l).
Proof.
  revert a. induction l as [|x l IH]; intros a; [cbn; rewrite app_nil_r; by destruct a|].
  cbn. unfold wake_recvs in IH. rewrite IH. cbn. by rewrite <- app_assoc.
Qed.

Lemma wake_sends_eq a l : wake_sends a l = mkAchan (a_closed a) (a_cap a) (a_buf a) (a_send a) (a_recv a)
  (foldl (fun m sv => <[sv.1 := (Some sv.2, false)]> m) (a_woken a) l) (a_ready a ++ l.*1).
Proof.
  revert a. induction l as [|x l IH]; intros a; [cbn; rewrite app_nil_r; by destruct a|].
  cbn. unfold wake_sends in IH. rewrite IH. cbn. by rewrite <- app_assoc.
Qed.

Lemma wake_recvs_set a l k : wake_recvs (a_set_recv a k) l = a_set_recv (wake_recvs a l) k.
Proof. by rewrite !wake_recvs_eq. Qed.

Lemma wake_sends_set a l k : wake_sends (a_set_send a k) l = a_set_send (wake_sends a l) k.
Proof. by rewrite !wake_sends_eq. Qed.

Lemma close_recvs : forall fuel w c a, chan_rel w c a -> (length (a_recv a) <= fuel)%nat ->
  exists w' q', close_loop fuel true w (recvq (state c)) (hd 0 (a_recv a)) = Ok (w', q') /\
    chan_rel w' (on_state c (with_recvq (state c) q')) (a_set_recv (wake_recvs a (a_recv a)) []).
Proof.
  induction fuel as [|fuel IH]; intros w c a R Hl; pose proof (cr_recvq _ _ _ R) as Hq; destruct (a_recv a) as [|r rs] eqn:Er; try (cbn in Hl; lia).
  1-2: cbn; exists w, (recvq (state c)); (split; [done|]); destruct a, c as [? []]; cbn in *; by subst.
  pose proof (cr_recv _ _ _ R r ltac:(rewrite Er; apply elem_of_cons; by left)) as Hd.
  destruct (data_inv _ _ Hd) as (s & Es & Ed). unfold data in Ed. injection Ed as Eg _ _ Eco.
  assert (next s = hd 0 rs) as Hn by (destruct Hq as (_ & _ & _ & _ & (s' & Es' & _ & ?) & _); congruence).
  destruct (unlink_head w _ r rs None None false Hq Hd) as (w1 & q1 & s1 & Hz & Eu & Es1 & Hd1 & Hw).
  unfold data in Hd1. injection Hd1 as Eg1 _ _ Eco1.
  cbn [hd close_loop]. rewrite decide_False by done. rewrite (deref_ok w r s Hz Es). cbn [mbind outcome_bind].
  unfold try_claim_sudog. rewrite (deref_ok w r s Hz Es). cbn [mbind outcome_bind]. rewrite Eco. cbn [mbind outcome_bind]. rewrite Eu.
  cbn [mbind outcome_bind]. rewrite (store_ok w1 r _ s1 Hz Es1). cbn [mbind outcome_bind].
  rewrite (store_ok _ r _ (with_success s1 false)) by (done || apply lookup_insert_eq). cbn [mbind outcome_bind sudogs with_sudogs coords readied].
  rewrite insert_insert_eq, Eg, Hn.
  destruct (Hw (with_value (with_success s1 false) None)) as [Hq1 W]; [unfold data; cbn; by rewrite Eg1, Eco1|].
  pose proof (rel_wake_recv w _ c a r rs q1 None false R Er Hq1 ltac:(by rewrite Er)) as RW.
  destruct (IH _ _ _ RW) as (w' & q' & E & R'); [cbn in *; lia|].
  cbn [a_recv a_wake a_set_recv state on_state recvq with_recvq] in E. exists w', q'. split; [exact E|].
  cbn [a_recv a_wake a_set_recv] in R'. change (a_wake (a_set_recv a rs) r (None, false)) with (a_set_recv (a_wake a r (None, false)) rs) in R'.
  rewrite wake_recvs_set in R'. exact R'.
Qed.

Lemma close_sends : forall fuel w c a, chan_rel w c a -> (length (a_send a) <= fuel)%nat ->
  exists w' q', close_loop fuel false w (sendq (state c)) (hd 0 (a_send a).*1) = Ok (w', q') /\
    chan_rel w' (on_state c (with_sendq (state c) q')) (a_set_send (wake_sends a (a_send a)) []).
Proof.
  induction fuel as [|fuel IH]; intros w c a R Hl; pose proof (cr_sendq _ _ _ R) as Hq; destruct (a_send a) as [|[x v] ss] eqn:Er; try (cbn in Hl; lia).
  1-2: cbn; exists w, (sendq (state c)); (split; [done|]); destruct a, c as [? []]; cbn in *; by subst.
  pose proof (cr_send _ _ _ R x v ltac:(rewrite Er; apply elem_of_cons; by left)) as Hd. cbn [fmap list_fmap fst] in Hq.
  destruct (data_inv _ _ Hd) as (s & Es & Ed). unfold data in Ed. injection Ed as Eg _ _ Eco.
  assert (next s = hd 0 ss.*1) as Hn by (destruct Hq as (_ & _ & _ & _ & (s' & Es' & _ & ?) & _); congruence).
  destruct (unlink_head w _ x ss.*1 (Some v) (Some v) false Hq Hd) as (w1 & q1 & s1 & Hz & Eu & Es1 & Hd1 & Hw).
  unfold data in Hd1. injection Hd1 as Eg1 Ev1 _ Eco1.
  cbn [fmap list_fmap fst hd close_loop]. rewrite decide_False by done. rewrite (deref_ok w x s Hz Es). cbn [mbind outcome_bind].
  unfold try_claim_sudog. rewrite (deref_ok w x s Hz Es). cbn [mbind outcome_bind]. rewrite Eco. cbn [mbind outcome_bind]. rewrite Eu.
  cbn [mbind outcome_bind]. rewrite (store_ok w1 x _ s1 Hz Es1). cbn [mbind outcome_bind]. rewrite Eg, Hn.
  destruct (Hw (with_success s1 false)) as [Hq1 W]; [unfold data; cbn; by rewrite Eg1, Eco1, Ev1|].
  pose proof (rel_wake_send w _ c a x v ss q1 (Some v) false R Er Hq1 ltac:(by rewrite Er)) as RW.
  destruct (IH _ _ _ RW) as (w' & q' & E & R'); [cbn in *; lia|].
  cbn [a_send a_wake a_set_send state on_state sendq with_sendq] in E. exists w', q'. split; [exact E|].
  cbn [a_send a_wake a_set_send] in R'. change (a_wake (a_set_send a ss) x (Some v, false)) with (a_set_send (a_wake a x (Some v, false)) ss) in R'.
  rewrite wake_sends_set in R'. exact R'.
Qed.

Definition a_shut a : achan V := mkAchan true (a_cap a) (a_buf a) (a_send a) (a_recv a) (a_woken a) (a_ready a).

Lemma sim_Close w c a : chan_rel w c a -> match a_Close a with
  | Ok a' => exists w' c', Close w c = Ok (w', c') /\ chan_rel w' c' a'
  | Exit n => Close w c = Exit n
  | Panic => False
  end.
Proof.
  intros R. unfold a_Close, Close. rewrite (cr_nil _ _ _ R), (cr_closed _ _ _ R). destruct (a_closed a) eqn:Hcl; [done|].
  assert (chan_rel w (on_state c (with_closed (state c) true)) (a_shut a)) as R0 by (destruct R; split; done).
  destruct (close_recvs (walk_fuel w) _ _ _ R0) as (w1 & q1 & E1 & R1).
  { pose proof (walk_enough _ _ _ (cr_recvq _ _ _ R)). cbn. lia. }
  cbn [on_state state] in E1. pose proof (cr_recvq _ _ _ R0) as (Hh & _). cbn [on_state state] in Hh.
  cbn [a_recv a_shut] in E1, Hh. rewrite Hh, E1. cbn [mbind outcome_bind].
  destruct (close_sends (walk_fuel w1) _ _ _ R1) as (w2 & q2 & E2 & R2).
  { pose proof (walk_enough _ _ _ (cr_sendq _ _ _ R1)) as Hl. rewrite length_fmap in Hl. lia. }
  pose proof (cr_sendq _ _ _ R1) as (Hh2 & _). cbn [on_state state sendq with_recvq with_closed] in E2, Hh2 |- *. rewrite Hh2, E2.
  cbn [mbind outcome_bind]. eexists _, _. split; [done|]. 
  fold (wake_recvs a (a_recv a)). fold (wake_sends (wake_recvs a (a_recv a)) (a_send a)).
  rewrite !wake_sends_eq, !wake_recvs_eq in *. exact R2.
Qed.
End refine.

(** ** Histories *)

Section history.
  Context {V B : Type} `{Buffer V B} (zero : V).

(** A step of the program: a call, or the resumption of the goroutine whose entry is [x]. *)
Inductive chan_op := DoSend (v : V) | DoRecv | DoClose | WakeSend (x : Z) | WakeRecv (x : Z).

Inductive event := EvSend (r : call unit) | EvRecv (r : call (V * bool)) | EvClose | EvSendWoke | EvRecvWoke (r : V * bool).

(** The code.  The [n]-th step's entry, should it park, lives at address [n]. *)
Definition c_step (op : chan_op) (n : Z) (w : World V) (c : Hchan B) : outcome (World V * Hchan B * event) :=
  match op with
  | DoSend v => '(w, c, r) ← Send w c v (Some n) n; Ok (w, c, EvSend r)
  | DoRecv => '(w, c, r) ← Recv zero w c (Some n) n; Ok (w, c, EvRecv r)
  | DoClose => '(w, c) ← Close w c; Ok (w, c, EvClose)
  | WakeSend x => w ← send_wake w x; Ok (w, c, EvSendWoke)
  | WakeRecv x => '(w, r) ← recv_wake zero w x; Ok (w, c, EvRecvWoke r)
  end.

Fixpoint c_run (ops : list chan_op) (n : Z) (w : World V) (c : Hchan B) : outcome (World V * Hchan B * list event) :=
  match ops with
  | [] => Ok (w, c, [])
  | op :: ops =>
      '(w, c, e) ← c_step op n w c;
      '(w, c, es) ← c_run ops (n + 1) w c;
      Ok (w, c, e :: es)
  end.

(** The specification; [Panic] marks a history that resumes a goroutine that was not woken.
    It also returns the values sent and the values handed to receivers, in order. *)
Definition a_step (op : chan_op) (n : Z) (a : achan V) : outcome (achan V * event * list V * list V) :=
  match op with
  | DoSend v => '(a, r, d) ← a_Send a v n; Ok (a, EvSend r, [v], d)
  | DoRecv => '(a, r, d) ← a_Recv zero a n; Ok (a, EvRecv r, [], d)
  | DoClose => a ← a_Close a; Ok (a, EvClose, [], [])
  | WakeSend x => a ← a_send_wake a x; Ok (a, EvSendWoke, [], [])
  | WakeRecv x => '(a, r) ← a_recv_wake zero a x; Ok (a, EvRecvWoke r, [], [])
  end.

Fixpoint a_run (ops : list chan_op) (n : Z) (a : achan V) : outcome (achan V * list event * list V * list V) :=
  match ops with
  | [] => Ok (a, [], [], [])
  | op :: ops =>
      '(a, e, s, d) ← a_step op n a;
      '(a, es, ss, ds) ← a_run ops (n + 1) a;
      Ok (a, e :: es, s ++ ss, d ++ ds)
  end.

(** Entries are numbered below [n]. *)
Definition below (a : achan V) (n : Z) : Prop :=
  forall x, x ∈ (a_send a).*1 \/ x ∈ a_recv a \/ is_Some (a_woken a !! x) -> 1 <= x < n.

Lemma below_wake a n x r : below a n -> 1 <= x < n -> below (a_wake a x r) n.
Proof. intros Hb Hx y Hy. cbn in Hy. rewrite lookup_insert_is_Some in Hy. destruct (decide (x = y)) as [<-|]; [done|]. apply Hb. tauto. Qed.

Lemma below_mono a n n' : below a n -> n <= n' -> below a n'.
Proof. intros Hb Hn x Hx. specialize (Hb x Hx). lia. Qed.

Lemma below_shrink a a' n : below a n -> (forall x, x ∈ (a_send a').*1 -> x ∈ (a_send a).*1) ->
  (forall x, x ∈ a_recv a' -> x ∈ a_recv a) -> (forall x, is_Some (a_woken a' !! x) -> is_Some (a_woken a !! x)) -> below a' n.
Proof. intros Hb H1 H2 H3 x Hx. apply Hb. naive_solver. Qed.

Lemma below_recvs a n l : below a n -> (forall x, x ∈ l -> 1 <= x < n) -> below (wake_recvs a l) n.
Proof.
  revert a. induction l as [|x l IH]; intros a Hb Hl; [done|]. apply IH.
  - apply below_wake; [done|]. apply Hl, elem_of_cons. by left.
  - intros y Hy. apply Hl, elem_of_cons. by right.
Qed.

Lemma below_sends a n (l : list (Z * V)) : below a n -> (forall x, x ∈ l.*1 -> 1 <= x < n) -> below (wake_sends a l) n.
Proof.
  revert a. induction l as [|x l IH]; intros a Hb Hl; [done|]. apply IH.
  - apply below_wake; [done|]. apply Hl. cbn. apply elem_of_cons. by left.
  - intros y Hy. apply Hl. cbn. apply elem_of_cons. by right.
Qed.

Lemma below_step op n a a' e s d : 1 <= n -> below a n -> a_step op n a = Ok (a', e, s, d) -> below a' (n + 1).
Proof.
  intros Hn Hb. pose proof (below_mono a n (n + 1) Hb ltac:(lia)) as Hb'. unfold a_step. destruct op as [v| | |x|x]; cbn.
  - unfold a_Send. destruct (a_closed a); [done|]. destruct (a_recv a) as [|r rs] eqn:Er; [case_decide|]; cbn; intros [= <- <- <- <-].
    + by apply (below_shrink a).
    + intros y Hy. cbn in Hy. rewrite fmap_app, elem_of_app in Hy. cbn in Hy. rewrite list_elem_of_singleton in Hy.
      destruct (decide (y = n)); [lia|]. apply Hb'. tauto.
    + apply below_wake; [|apply Hb'; right; left; rewrite Er; apply elem_of_cons; by left].
      apply (below_shrink a); try done. cbn. rewrite Er. intros y Hy. apply elem_of_cons. by right.
  - unfold a_Recv. case_decide; [cbn; by intros [= <- <- <- <-]|].
    destruct (a_send a) as [|[y v] ss] eqn:Es, (a_buf a) as [|b bs]; cbn; intros [= <- <- <- <-].
    + intros y Hy. cbn in Hy. rewrite elem_of_app, list_elem_of_singleton in Hy. destruct (decide (y = n)); [lia|]. apply Hb'. tauto.
    + by apply (below_shrink a).
    + apply below_wake; [|apply Hb'; left; rewrite Es; cbn; apply elem_of_cons; by left].
      apply (below_shrink a); try done. cbn. rewrite Es. intros z Hz. cbn. apply elem_of_cons. by right.
    + apply below_wake; [|apply Hb'; left; rewrite Es; cbn; apply elem_of_cons; by left].
      apply (below_shrink a); try done. cbn. rewrite Es. intros z Hz. cbn. apply elem_of_cons. by right.
  - unfold a_Close. destruct (a_closed a); [done|]. cbn. intros [= <- <- <- <-].
    fold (wake_recvs a (a_recv a)). fold (wake_sends (wake_recvs a (a_recv a)) (a_send a)).
    apply (below_shrink (wake_sends (wake_recvs a (a_recv a)) (a_send a))); cbn; try (intros ? Hin; by apply elem_of_nil in Hin); [|done].
    apply below_sends; [apply below_recvs; [done|]|]; intros y Hy; apply Hb'; tauto.
  - unfold a_send_wake. destruct (a_woken a !! x) as [[[u|] []]|]; cbn; try done. intros [= <- <- <- <-].
    apply (below_shrink a); try done. cbn. intros y. rewrite lookup_delete_is_Some. tauto.
  - unfold a_recv_wake. destruct (a_woken a !! x) as [[[u|] []]|]; cbn; try done; intros [= <- <- <- <-];
      (apply (below_shrink a); try done; cbn; intros y; rewrite lookup_delete_is_Some; tauto).
Qed.

Lemma a_step_inv op n a a' e s d : a_inv a -> a_step op n a = Ok (a', e, s, d) -> a_inv a'.
Proof.
  intros I. unfold a_step. destruct op as [v| | |x|x]; cbn.
  - destruct (a_Send a v n) as [[[a1 r] d1]| |] eqn:E; cbn; try done. intros [= <- <- <- <-]. by eapply a_Send_inv.
  - destruct (a_Recv zero a n) as [[[a1 r] d1]| |] eqn:E; cbn; try done. intros [= <- <- <- <-]. by eapply a_Recv_inv.
  - destruct (a_Close a) as [a1| |] eqn:E; cbn; try done. intros [= <- <- <- <-]. by eapply a_Close_inv.
  - unfold a_send_wake. destruct (a_woken a !! x) as [[[u|] []]|]; cbn; try done. intros [= <- <- <- <-]. by destruct I.
  - unfold a_recv_wake. destruct (a_woken a !! x) as [[[u|] []]|]; cbn; try done; intros [= <- <- <- <-]; by destruct I.
Qed.

Lemma rel_fresh w c (a : achan V) n : chan_rel w c a -> below a n -> 1 <= n -> fresh w n.
Proof.
  intros R Hb Hn. split; [lia|]. destruct (sudogs w !! n) eqn:E; [|done].
  pose proof (Hb n (cr_dom _ _ _ R n ltac:(by rewrite E))). lia.
Qed.

Lemma sim_step op n w c a : chan_rel w c a -> a_inv a -> below a n -> 1 <= n ->
  match a_step op n a with
  | Ok (a', e, _, _) => exists w' c', c_step op n w c = Ok (w', c', e) /\ chan_rel w' c' a'
  | Exit k => c_step op n w c = Exit k
  | Panic => True
  end.
Proof.
  intros R I Hb Hn. pose proof (rel_fresh w c a n R Hb Hn) as Hf. unfold a_step, c_step. destruct op as [v| | |x|x].
  - pose proof (sim_Send w c a v n R I Hf) as S. destruct (a_Send a v n) as [[[a1 r] d]| |]; cbn; [|done|by rewrite S].
    destruct S as (w' & c' & -> & R'). by eexists _, _.
  - pose proof (sim_Recv zero w c a n R I Hf) as S. destruct (a_Recv zero a n) as [[[a1 r] d]| |]; cbn; [|done|done].
    destruct S as (w' & c' & -> & R'). by eexists _, _.
  - pose proof (sim_Close w c a R) as S. destruct (a_Close a) as [a1| |]; cbn; [|done|by rewrite S].
    destruct S as (w' & c' & -> & R'). by eexists _, _.
  - pose proof (sim_send_wake w c a x R) as S. destruct (a_send_wake a x) as [a1| |]; cbn; [|done|by rewrite S].
    destruct S as (w' & -> & R'). by eexists _, _.
  - pose proof (sim_recv_wake zero w c a x R) as S. destruct (a_recv_wake zero a x) as [[a1 r]| |]; cbn; [|done|by rewrite S].
    destruct S as (w' & -> & R'). by eexists _, _.
Qed.

Lemma sim_run ops : forall n w c a, chan_rel w c a -> a_inv a -> below a n -> 1 <= n ->
  match a_run ops n a with
  | Ok (a', es, _, _) => exists w' c', c_run ops n w c = Ok (w', c', es) /\ chan_rel w' c' a'
  | Exit k => c_run ops n w c = Exit k
  | Panic => True
  end.
Proof.
  induction ops as [|op ops IH]; intros n w c a R I Hb Hn; cbn [a_run c_run]; [by eexists _, _|].
  pose proof (sim_step op n w c a R I Hb Hn) as S.
  destruct (a_step op n a) as [[[[a1 e] s] d]| |] eqn:E; cbn [mbind outcome_bind]; [|done|by rewrite S].
  destruct S as (w1 & c1 & -> & R1). cbn [mbind outcome_bind].
  pose proof (IH (n + 1) w1 c1 a1 R1 (a_step_inv _ _ _ _ _ _ _ I E) (below_step _ _ _ _ _ _ _ Hn Hb E) ltac:(lia)) as S.
  destruct (a_run ops (n + 1) a1) as [[[[a2 es] ss] ds]| |]; cbn [mbind outcome_bind]; [|done|by rewrite S].
  destruct S as (w2 & c2 & -> & R2). by eexists _, _.
Qed.

Lemma a_step_cap op n a a' e s d : a_step op n a = Ok (a', e, s, d) -> a_cap a' = a_cap a.
Proof.
  unfold a_step. destruct op as [v| | |x|x]; cbn.
  - unfold a_Send. destruct (a_closed a); [done|]. destruct (a_recv a); [case_decide|]; cbn; by intros [= <- <- <- <-].
  - unfold a_Recv. case_decide; [cbn; by intros [= <- <- <- <-]|].
    destruct (a_send a) as [|[? ?] ?], (a_buf a); cbn; by intros [= <- <- <- <-].
  - unfold a_Close. destruct (a_closed a); [done|]. cbn. by intros [= <- <- <- <-].
  - unfold a_send_wake. destruct (a_woken a !! x) as [[[u|] []]|]; cbn; try done; by intros [= <- <- <- <-].
  - unfold a_recv_wake. destruct (a_woken a !! x) as [[[u|] []]|]; cbn; try done; by intros [= <- <- <- <-].
Qed.

Lemma a_run_cap ops : forall n a a' es ss ds, a_run ops n a = Ok (a', es, ss, ds) -> a_cap a' = a_cap a.
Proof.
  induction ops as [|op ops IH]; intros n a a' es ss ds E; cbn [a_run] in E; [by injection E as <- <- <- <-|].
  destruct (a_step op n a) as [[[[a1 e] s] d]| |] eqn:E1; cbn in E; try done.
  destruct (a_run ops (n + 1) a1) as [[[[a2 es1] ss1] ds1]| |] eqn:E2; cbn in E; try done. injection E as <- <- <- <-.
  rewrite (IH _ _ _ _ _ _ E2). by eapply a_step_cap.
Qed.

(** ** First in, first out *)

Definition fifo (a : achan V) (sent dlv : list V) : Prop :=
  if a_closed a then (dlv ++ a_buf a) `prefix_of` sent else dlv ++ a_buf a ++ (a_send a).*2 = sent.

Lemma fifo_step op n a a' e s d sent dlv : a_inv a -> fifo a sent dlv -> a_step op n a = Ok (a', e, s, d) ->
  fifo a' (sent ++ s) (dlv ++ d).
Proof.
  intros I F. unfold a_step. destruct op as [v| | |x|x]; cbn.
  - unfold a_Send. destruct (a_closed a) eqn:Ec; [done|]. unfold fifo in F. rewrite Ec in F. subst sent.
    destruct (a_recv a) as [|r rs] eqn:Er; [case_decide as Hl|]; cbn; intros [= <- <- <- <-]; unfold fifo; cbn; rewrite Ec.
    + assert (a_send a = []) as -> by (destruct (a_send a) eqn:Es; [done|]; destruct (ai_send _ I); [by rewrite Es|lia]).
      cbn. by rewrite !app_nil_r, <- !app_assoc.
    + rewrite fmap_app. cbn. by rewrite app_nil_r, <- !app_assoc.
    + destruct (ai_recv _ I) as [-> ->]; [by rewrite Er|]. cbn. by rewrite !app_nil_r.
  - unfold a_Recv. case_decide as Hce; [cbn; intros [= <- <- <- <-]; by rewrite !app_nil_r|].
    unfold fifo in F. destruct (a_send a) as [|[y v] ss] eqn:Es, (a_buf a) as [|b bs] eqn:Eb; cbn; intros [= <- <- <- <-]; unfold fifo; cbn; rewrite ?Es, ?Eb;
      destruct (a_closed a) eqn:Ec; cbn in *; rewrite ?app_nil_r, <- ?app_assoc in *; cbn in *; try done;
      destruct (ai_closed _ I Ec); congruence.
  - unfold a_Close. destruct (a_closed a) eqn:Ec; [done|]. cbn. intros [= <- <- <- <-]. unfold fifo in F |- *. cbn. rewrite Ec in F. subst.
    rewrite !app_nil_r. rewrite app_assoc. by apply prefix_app_r.
  - unfold a_send_wake. destruct (a_woken a !! x) as [[[u|] []]|]; cbn; try done. intros [= <- <- <- <-]. by rewrite !app_nil_r.
  - unfold a_recv_wake. destruct (a_woken a !! x) as [[[u|] []]|]; cbn; try done; intros [= <- <- <- <-]; by rewrite !app_nil_r.
Qed.

Lemma fifo_run ops : forall n a a' es ss ds sent dlv, a_inv a -> fifo a sent dlv -> a_run ops n a = Ok (a', es, ss, ds) ->
  fifo a' (sent ++ ss) (dlv ++ ds).
Proof.
  induction ops as [|op ops IH]; intros n a a' es ss ds sent dlv I F E; cbn [a_run] in E.
  { injection E as <- <- <- <-. by rewrite !app_nil_r. }
  destruct (a_step op n a) as [[[[a1 e] s] d]| |] eqn:E1; cbn in E; try done.
  destruct (a_run ops (n + 1) a1) as [[[[a2 es1] ss1] ds1]| |] eqn:E2; cbn in E; try done. injection E as <- <- <- <-.
  rewrite !app_assoc. eapply IH; [by eapply a_step_inv|by eapply fifo_step|exact E2].
Qed.
End history.
Arguments chan_op : clear implicits.
Arguments event : clear implicits.

(** ** The channel's contract *)

Section contract.
  Context {V B : Type} `{Buffer V B} (zero : V).

Definition empty_world : World V := mkWorld ∅ ∅ [].

Lemma new_rel cap : 0 <= cap <= 2 ^ 62 -> chan_rel empty_world (new_buffered cap) (a_new cap).
Proof.
  intros Hc. destruct (buf_new_ok (Z.max cap 1)) as (N & Hle & Hr); [lia|].
  split; cbn; try done; try (intros ? Hx; by apply elem_of_nil in Hx); try (intros ? ? Hx; by apply elem_of_nil in Hx).
  - by exists N.
  - split_and!; try done. constructor.
  - split_and!; try done. constructor.
  - intros x [? E]. discriminate E.
  - intros x [? E]. discriminate E.
Qed.

Lemma new_inv cap : 0 <= cap -> a_inv (a_new (V := V) cap).
Proof. intros. by split. Qed.

Lemma new_below cap : below (a_new (V := V) cap) 1.
Proof. intros x [E|[E|[? E]]]; [by apply elem_of_nil in E|by apply elem_of_nil in E|discriminate E]. Qed.

Lemma rel_Len w c (a : achan V) : chan_rel w c a -> Len c = zlen (a_buf a) /\ Cap c = a_cap a.
Proof.
  intros R. unfold Len, Cap. rewrite (cr_nil _ _ _ R). destruct (cr_buf _ _ _ R) as (N & _ & Hb).
  split; [by apply (buf_len_ok N)|by destruct R].
Qed.

(** C3: whatever a program does with a channel made with capacity [cap] (any sequence of
    sends, receives, closes and resumptions of parked goroutines), the channel of the code
    does what the channel of the Go specification does: every call returns, parks or is
    woken with the same result, the same goroutines become ready in the same order, [len]
    is the number of buffered values, and it exits with status 2 exactly when the
    specification panics (a send on, or a close of, a closed channel). *)
Theorem chan_refines_go cap ops : 0 <= cap <= 2 ^ 62 ->
  match a_run zero ops 1 (a_new cap) with
  | Ok (a, evs, _, _) =>
      exists w c, c_run (B := B) zero ops 1 empty_world (new_buffered cap) = Ok (w, c, evs) /\
        readied w = a_ready a /\ closed (state c) = a_closed a /\ Len c = zlen (a_buf a) /\ Cap c = cap
  | Exit k => c_run (B := B) zero ops 1 empty_world (new_buffered cap) = Exit k
  | Panic => True
  end.
Proof.
  intros Hc. pose proof (sim_run zero ops 1 _ _ _ (new_rel cap Hc) (new_inv cap ltac:(lia)) (new_below cap) ltac:(lia)) as S.
  destruct (a_run zero ops 1 (a_new cap)) as [[[[a es] ss] ds]| |] eqn:E; [|done|done].
  destruct S as (w & c & Er & R). exists w, c. destruct (rel_Len w c a R) as [HL HC].
  split_and!; [done|apply R|apply R|done|]. rewrite HC. by apply (a_run_cap _ _ _ _ _ _ _ _ E).
Qed.

(** C19: a channel delivers the values in the order they were sent, each at most once: what
    receivers were handed, followed by the buffer, is a prefix of what was sent, and while
    the channel is open only the values of the parked senders are missing from it. *)
Theorem chan_fifo cap ops a evs sent dlv : 0 <= cap <= 2 ^ 62 ->
  a_run zero ops 1 (a_new cap) = Ok (a, evs, sent, dlv) ->
  exists w c, c_run (B := B) zero ops 1 empty_world (new_buffered cap) = Ok (w, c, evs) /\
    (dlv ++ a_buf a) `prefix_of` sent /\ Len c = zlen (a_buf a) /\
    (closed (state c) = false -> dlv ++ a_buf a ++ (a_send a).*2 = sent).
Proof.
  intros Hc E. pose proof (sim_run zero ops 1 _ _ _ (new_rel cap Hc) (new_inv cap ltac:(lia)) (new_below cap) ltac:(lia)) as S.
  rewrite E in S. destruct S as (w & c & Er & R). exists w, c.
  pose proof (fifo_run zero ops 1 _ _ _ _ _ [] [] (new_inv cap ltac:(lia)) eq_refl E) as F. cbn in F.
  unfold fifo in F. rewrite (cr_closed _ _ _ R). split; [done|]. split; [|split; [by apply (rel_Len w c)|]].
  - destruct (a_closed a); [done|]. rewrite <- F, app_assoc. by apply prefix_app_r.
  - intros Hcl. by rewrite Hcl in F.
Qed.
End contract.
