(* ===== verification/GoChanSelect.v ===== *)
(** Select support of src/src/gochan.rs: the wait queues under [cancel], and the claim of a
    wait entry that a [select!] shares between its cases through a [SelectCoord]. *)
From Stdlib Require Import ZArith Lia.
From stdpp Require Import base tactics numbers list list_numbers option fin_maps gmap.
From S2P Require Import Prelude Outcome LockFreeRing GoChan GoChanQueue GoChanSpec.
Open Scope Z_scope.

Section select.
  Context {V B : Type} `{Buffer V B} (zero : V).
  Implicit Types (w : World V) (q : SudogQueue) (l : list Z) (c : Hchan V).

(** An entry that a waker may still fire: a plain one, or one whose select has no winner. *)
Definition live w (x : Z) : bool :=
  match sudogs w !! x with
  | None => false
  | Some s => match coord s with None => true | Some co => bool_decide (coords w !! co = Some false) end
  end.

(** Every entry of [l] is in the store, and so is the flag it points to. *)
Definition coords_ok w l : Prop :=
  forall x s co, x ∈ l -> sudogs w !! x = Some s -> coord s = Some co -> is_Some (coords w !! co).

(** The coordination flag of an entry. *)
Definition coord_of w (x : Z) : option Z := sudogs w !! x ≫= coord.

(** The first live entry. *)
Fixpoint first_live w l : option Z :=
  match l with
  | [] => None
  | x :: l => if live w x then Some x else first_live w l
  end.

Lemma try_claim_live w x s : x <> 0 -> sudogs w !! x = Some s ->
  (forall co, coord s = Some co -> is_Some (coords w !! co)) ->
  try_claim_sudog w x = Ok (if live w x then match coord s with
                              | Some co => mkWorld (sudogs w) (<[co := true]> (coords w)) (readied w)
                              | None => w end else w, live w x).
Proof.
  intros Hx Es Hc. unfold try_claim_sudog, live. rewrite (deref_ok w x s Hx Es), Es. cbn [mbind outcome_bind].
  destruct (coord s) as [co|]; [|done]. destruct (Hc co eq_refl) as [b Hb]. rewrite Hb. cbn.
  destruct b; [by rewrite bool_decide_false by done|by rewrite bool_decide_true by done].
Qed.

Lemma claim_loop_ok w : forall fuel l p, seg (sudogs w) p l 0 -> coords_ok w l -> (length l <= fuel)%nat ->
  exists w', claim_loop fuel w (hd 0 l) = Ok (w', first_live w l) /\ sudogs w' = sudogs w /\ readied w' = readied w /\
    match first_live w l ≫= coord_of w with
    | Some co => coords w' = <[co := true]> (coords w)
    | None => coords w' = coords w
    end.
Proof.
  induction fuel as [|fuel IH]; intros l p Hs Hc Hf.
  { destruct l; [|cbn in Hf; lia]. by exists w. }
  destruct l as [|x l]; [by exists w|]. destruct Hs as (Hx & (s & Es & _ & Hn) & Hs). cbn [hd claim_loop first_live].
  rewrite decide_False by done. rewrite (deref_ok w x s Hx Es). cbn [mbind outcome_bind].
  rewrite (try_claim_live w x s Hx Es) by (intros co E; apply (Hc x s co); [apply elem_of_cons; by left|done|done]). cbn [mbind outcome_bind].
  destruct (live w x) eqn:Hl.
  - unfold coord_of. cbn. rewrite Es. cbn. destruct (coord s); by eexists.
  - rewrite Hn. apply (IH l x); [done| |cbn in Hf; lia]. intros y t co Hy. apply Hc, elem_of_cons. by right.
Qed.

Lemma live_spent w w' x y co : coord_of w x = Some co -> sudogs w' = sudogs w -> coords w' = <[co := true]> (coords w) ->
  coord_of w y = Some co -> live w' y = false.
Proof.
  unfold coord_of, live. intros _ -> Hc Ey. destruct (sudogs w !! y) as [s|]; [|done]. cbn in Ey. rewrite Ey, Hc, lookup_insert_eq.
  by apply bool_decide_false.
Qed.

(** A waker that scans a wait queue claims the first entry that may still be fired and
    no other: it skips the entries of selects that already have a winner, and once an entry
    of a select is claimed no entry of that select, on this or any other channel, can be
    claimed again; if every entry is stale the scan finds nothing and changes nothing. *)
Theorem claim_first_single_winner w q l : queue_rep (sudogs w) q l -> coords_ok w l ->
  exists w', claim_first w q = Ok (w', first_live w l) /\ sudogs w' = sudogs w /\ readied w' = readied w /\
    (first_live w l = None -> coords w' = coords w) /\
    (forall x co y, first_live w l = Some x -> coord_of w x = Some co -> coord_of w y = Some co ->
       live w y = true -> live w' y = false) /\
    (forall y, (forall x, first_live w l = Some x -> coord_of w x = None \/ coord_of w y <> coord_of w x) -> live w' y = live w y).
Proof.
  intros Hq Hc. pose proof (walk_enough _ _ _ Hq) as Hf. destruct Hq as (Hh & _ & _ & Hs). unfold claim_first. rewrite Hh.
  destruct (claim_loop_ok w (walk_fuel w) l 0 Hs Hc ltac:(lia)) as (w' & E & Ed & Er & Ec). exists w'. split_and!; try done.
  - intros En. by rewrite En in Ec.
  - intros x co y Ex Eco Ey _. rewrite Ex in Ec. cbn in Ec. rewrite Eco in Ec. by eapply live_spent.
  - intros y Hy. destruct (first_live w l) as [x|]; cbn in Ec; [|unfold live; by rewrite Ed, Ec].
    specialize (Hy x eq_refl). destruct (coord_of w x) as [co|] eqn:Eco; [|unfold live; by rewrite Ed, Ec].
    destruct Hy as [?|Hy]; [done|]. unfold live, coord_of in *. rewrite Ed, Ec. destruct (sudogs w !! y) as [s|]; [|done].
    cbn in Hy. destruct (coord s) as [cy|]; [|done]. by rewrite lookup_insert_ne by congruence.
Qed.

(** The wait queue is a list: registering an entry appends it; cancelling one tells whether
    it was still queued and removes it and nothing else, whatever its position, and leaves the
    entries' own data and everything outside the queue untouched. *)
Theorem register_cancel_queue w q l sg s other : queue_rep (sudogs w) q l -> sudogs w !! sg = Some s -> sg <> 0 -> sg ∉ l ->
  exists w1 q1, push_back w q sg = Ok (w1, q1) /\ queue_rep (sudogs w1) q1 (l ++ [sg]) /\
  exists w2 q2, cancel w1 q1 other = Ok (w2, q2, bool_decide (other ∈ l ++ [sg])) /\
    queue_rep (sudogs w2) q2 (filter (fun x => x <> other) (l ++ [sg])) /\
    (forall x, data <$> sudogs w2 !! x = data <$> sudogs w !! x) /\
    (forall x, x ∉ l ++ [sg] -> sudogs w2 !! x = sudogs w !! x) /\ coords w2 = coords w /\ readied w2 = readied w.
Proof.
  intros Hq Es Hz Hni. destruct (push_back_ok w q l sg s Hq Es Hz Hni) as (w1 & q1 & E1 & Hq1 & [D1 F1] & C1 & R1).
  exists w1, q1. split_and!; [done|done|]. destruct (cancel_ok w1 q1 _ other Hq1) as (w2 & q2 & E2 & Hq2 & [D2 F2] & C2 & R2).
  exists w2, q2. split_and!; [done|done|intros x; by rewrite D2, D1|intros x Hx; by rewrite F2, F1|congruence|congruence].
Qed.
End select.

(** ** Concrete runs *)

Definition demo_ops : list (chan_op Z) :=
  [DoSend 5; DoSend 6; DoRecv; WakeSend 2; DoRecv; DoRecv; DoSend 7; WakeRecv 6; DoClose; DoRecv].

Lemma chan_refines_go_witness :
  match a_run 0 demo_ops 1 (a_new 1) with
  | Ok (a, evs, _, _) =>
      exists w c, c_run (B := Ring Z) 0 demo_ops 1 empty_world (new_buffered 1) = Ok (w, c, evs) /\
        readied w = a_ready a /\ closed (state c) = a_closed a /\ Len c = zlen (a_buf a) /\ Cap c = 1
  | Exit k => c_run (B := Ring Z) 0 demo_ops 1 empty_world (new_buffered 1) = Exit k
  | Panic => True
  end.
Proof. apply (chan_refines_go (B := Ring Z) 0 1 demo_ops). lia. Defined.

Lemma chan_fifo_witness : exists a evs, a_run 0 demo_ops 1 (a_new 1) = Ok (a, evs, [5; 6; 7], [5; 6; 7]) /\
  exists w c, c_run (B := Ring Z) 0 demo_ops 1 empty_world (new_buffered 1) = Ok (w, c, evs) /\
    ([5; 6; 7] ++ a_buf a) `prefix_of` [5; 6; 7] /\ Len c = zlen (a_buf a) /\
    (closed (state c) = false -> [5; 6; 7] ++ a_buf a ++ (a_send a).*2 = [5; 6; 7]).
Proof.
  eexists _, _. split; [reflexivity|]. apply (chan_fifo (B := Ring Z) 0 1 demo_ops); [lia|reflexivity].
Defined.

(** Two entries of one select and a plain one, queued in this order. *)
Definition demo_world (b : bool) : World Z :=
  mkWorld {[ 1 := mkSudog 10 (Some 5) false (Some 9) 2 0; 2 := mkSudog 11 (Some 6) false (Some 9) 3 1;
             3 := mkSudog 12 (Some 7) false None 0 2; 4 := mkSudog 13 None false None 0 0 ]} {[ 9 := b ]} [].
Definition demo_queue : SudogQueue := mkQueue 1 3.

Lemma demo_rep b : queue_rep (sudogs (demo_world b)) demo_queue [1; 2; 3].
Proof.
  split_and!; [done|done| |].
  - repeat (apply list.NoDup_cons; split; [set_solver|]). by apply list.NoDup_nil.
  - cbn [seg hd]. split_and!; try done; eexists; (split; [reflexivity|done]).
Defined.

Lemma claim_first_single_winner_witness : exists w',
  claim_first (demo_world true) demo_queue = Ok (w', Some 3) /\ sudogs w' = sudogs (demo_world true).
Proof.
  destruct (claim_first_single_winner (demo_world true) demo_queue [1; 2; 3] (demo_rep true)) as (w' & E & Ed & _).
  - intros x s co Hx Es Eco. set_unfold in Hx. destruct Hx as [->|[->|[->|[]]]]; vm_compute in Es; injection Es as <-; vm_compute in Eco;
      try done; injection Eco as <-; by eexists.
  - by exists w'.
Defined.

Lemma register_cancel_queue_witness : exists w1 q1, push_back (demo_world false) demo_queue 4 = Ok (w1, q1) /\
  queue_rep (sudogs w1) q1 [1; 2; 3; 4] /\ exists w2 q2, cancel w1 q1 2 = Ok (w2, q2, true) /\ queue_rep (sudogs w2) q2 [1; 3; 4].
Proof.
  destruct (register_cancel_queue (demo_world false) demo_queue [1; 2; 3] 4 (mkSudog 13 None false None 0 0) 2 (demo_rep false))
    as (w1 & q1 & E1 & Q1 & w2 & q2 & E2 & Q2 & _).
  - reflexivity.
  - lia.
  - set_solver.
  - exists w1, q1. split_and!; [done|done|]. exists w2, q2. split; [|done]. rewrite E2. done.
Defined.
