(* ===== verification/Threads.v ===== *)
(** Goroutines of the lock models: a list of program counters, sums over it, and the wait
    queue of a semaphore as the list of the parked ones. *)
From Stdlib Require Import ZArith Lia.
From stdpp Require Import base tactics numbers list list_numbers option.
From S2P Require Import Prelude.
Open Scope Z_scope.

(** ** Sums *)

Fixpoint zsum {A} (f : A -> Z) (l : list A) : Z := match l with [] => 0 | x :: l => f x + zsum f l end.

Section sum.
  Context {A : Type} (f : A -> Z).
  Implicit Types l : list A.

Lemma zsum_insert l i x y : l !! i = Some x -> zsum f (<[i := y]> l) = zsum f l - f x + f y.
Proof.
  revert i. induction l as [|z l IH]; intros [|i] E; cbn in *; try done.
  - injection E as ->. lia.
  - rewrite IH by done. lia.
Qed.

Lemma zsum_nonneg l : (forall x, 0 <= f x) -> 0 <= zsum f l.
Proof. intros Hf. induction l as [|x l IH]; cbn; [lia|]. specialize (Hf x). lia. Qed.

Lemma zsum_ge l i x : (forall x, 0 <= f x) -> l !! i = Some x -> f x <= zsum f l.
Proof.
  intros Hf. revert i. induction l as [|y l IH]; intros [|i] E; cbn in *; try done.
  - injection E as ->. pose proof (zsum_nonneg l Hf). lia.
  - specialize (IH i E). specialize (Hf y). lia.
Qed.

Lemma zsum_ge2 l i j x y : (forall x, 0 <= f x) -> i <> j -> l !! i = Some x -> l !! j = Some y -> f x + f y <= zsum f l.
Proof.
  intros Hf. revert i j. induction l as [|z l IH]; intros [|i] [|j] Hij Ei Ej; cbn in *; try done.
  - injection Ei as ->. pose proof (zsum_ge l j y Hf Ej). lia.
  - injection Ej as ->. pose proof (zsum_ge l i x Hf Ei). lia.
  - specialize (IH i j ltac:(congruence) Ei Ej). specialize (Hf z). lia.
Qed.

Lemma zsum_pos l : 0 < zsum f l -> exists i x, l !! i = Some x /\ 0 < f x.
Proof.
  induction l as [|x l IH]; cbn; [lia|]. intros Hs. destruct (decide (0 < f x)) as [Hx|Hx]; [by exists 0%nat, x|].
  destruct IH as (i & y & E & Hy); [lia|]. by exists (S i), y.
Qed.

Lemma zsum_le_len l : (forall x, f x <= 1) -> zsum f l <= zlen l.
Proof.
  intros Hf. unfold zlen. induction l as [|x l IH]; cbn [zsum length]; [lia|]. specialize (Hf x). lia.
Qed.

Lemma zsum_replicate n x : f x = 0 -> zsum f (replicate n x) = 0.
Proof. intros Hx. induction n as [|n IH]; cbn; [done|]. lia. Qed.
End sum.

(** ** Parked goroutines *)

(** The goroutine of thread [i]; null is 0. *)
Definition gid (i : nat) : Z := Z.of_nat i + 1.

Lemma gid_inj i j : gid i = gid j -> i = j.
Proof. unfold gid. lia. Qed.

Section queue.
  Context {A : Type} (parked : A -> bool).
  Implicit Types (l : list A) (q : list Z).

(** [goready g]: the thread of [g] goes on after its call of [gopark]. *)
Definition wake (resume : A -> A) (g : option Z) l : list A :=
  match g with
  | None => l
  | Some g => match l !! Z.to_nat (g - 1) with Some x => <[Z.to_nat (g - 1) := resume x]> l | None => l end
  end.

Definition queue_ok l q : Prop := forall g, g ∈ q <-> exists i x, g = gid i /\ l !! i = Some x /\ parked x = true.

Lemma queue_ok_same l q i x y : queue_ok l q -> l !! i = Some x -> parked x = false -> parked y = false -> queue_ok (<[i := y]> l) q.
Proof.
  intros Hq E Hx Hy g. rewrite (Hq g). split; intros (j & z & -> & Ej & Hz).
  - exists j, z. split; [done|]. rewrite list_lookup_insert_ne by congruence. done.
  - apply list_lookup_insert_Some in Ej as [(-> & -> & _)|[_ Ej]]; [congruence|]. by exists j, z.
Qed.

Lemma queue_ok_park l q i x y : queue_ok l q -> l !! i = Some x -> parked x = false -> parked y = true ->
  gid i ∉ q /\ queue_ok (<[i := y]> l) (q ++ [gid i]).
Proof.
  intros Hq E Hx Hy. split.
  - intros (j & z & Hij%gid_inj & Ej & Hz)%Hq. congruence.
  - intros g. rewrite elem_of_app, list_elem_of_singleton, (Hq g). split.
    + intros [(j & z & -> & Ej & Hz)| ->].
      * exists j, z. split; [done|]. rewrite list_lookup_insert_ne by congruence. done.
      * exists i, y. rewrite list_lookup_insert_eq by (by eapply lookup_lt_Some). done.
    + intros (j & z & -> & Ej & Hz). apply list_lookup_insert_Some in Ej as [(-> & -> & _)|[_ Ej]]; [by right|left; by exists j, z].
Qed.

Lemma queue_ok_wake l q g : queue_ok l (g :: q) -> base.NoDup (g :: q) ->
  exists i x, g = gid i /\ l !! i = Some x /\ parked x = true /\
    forall resume, parked (resume x) = false ->
      wake resume (Some g) l = <[i := resume x]> l /\ queue_ok (<[i := resume x]> l) q.
Proof.
  intros Hq [Hni _]%list.NoDup_cons. pose proof (Hq g) as [(i & x & -> & E & Hx) _]; [apply elem_of_cons; by left|].
  exists i, x. split_and!; try done. intros resume Hy. split.
  - cbn. replace (Z.to_nat (gid i - 1)) with i by (unfold gid; lia). by rewrite E.
  - intros g. split.
    + intros Hg. pose proof (Hq g) as [(j & z & -> & Ej & Hz) _]; [apply elem_of_cons; by right|].
      exists j, z. split; [done|]. rewrite list_lookup_insert_ne by (intros ->; done). done.
    + intros (j & z & -> & Ej & Hz). apply list_lookup_insert_Some in Ej as [(-> & <- & _)|[Hij Ej]]; [congruence|].
      assert (gid j ∈ gid i :: q) as [Hg|Hg]%elem_of_cons by (apply Hq; by exists j, z); [apply gid_inj in Hg; congruence|done].
Qed.

Lemma queue_ok_replicate n x : parked x = false -> queue_ok (replicate n x) [].
Proof.
  intros Hx g. split; [by intros ?%elem_of_nil|]. intros (i & y & _ & [-> _]%lookup_replicate & Hy). congruence.
Qed.
End queue.
