(* ===== verification/RunQueue.v ===== *)
(** The run queues of the Ps under work stealing: src/src/runtime/sched/p.rs ([runqput] to
    [runqsteal]) and the global queue of src/src/runtime/sched/scheduler.rs.

    Each P has one owner, the M bound to it; an owner runs one call at a time, and a step is one
    access to shared memory (the program counters sit before each of them) or one critical
    section of the scheduler's lock.  [compare_exchange_weak] may fail spuriously.  Accesses are
    sequentially consistent.  A goroutine is its address; null is 0.

    The heads and tails are 32-bit and wrap.  The record keeps the count behind each of them, the
    number of goroutines that ever left or entered the ring; the code sees the count modulo
    2^32 and computes on that. *)
From Stdlib Require Import ZArith Lia.
From stdpp Require Import base tactics numbers list list_numbers option.
From S2P Require Import Prelude.
Open Scope Z_scope.

Definition LOCAL_RUNQ_SIZE : Z := 256.

Record P := mkP { heads : Z; tails : Z; runq : list Z; runnext : Z }.

Definition p_new : P := mkP 0 0 (replicate (Z.to_nat LOCAL_RUNQ_SIZE) 0) 0.

Definition set_heads (p : P) (h : Z) : P := mkP h (tails p) (runq p) (runnext p).
Definition set_tails (p : P) (t : Z) : P := mkP (heads p) t (runq p) (runnext p).
Definition set_runnext (p : P) (g : Z) : P := mkP (heads p) (tails p) (runq p) g.

(** [t.wrapping_sub(h)] on the 32-bit values. *)
Definition wsub (t h : Z) : Z := wrap32 (wrap32 t - wrap32 h).

(** [runq[x % LOCAL_RUNQ_SIZE]] for the 32-bit value [x], and the store to it. *)
Definition slot_get (p : P) (x : Z) : option Z := idx (runq p) (wrap32 x mod LOCAL_RUNQ_SIZE).
Definition slot_set (p : P) (x g : Z) : option P :=
  q ← upd (runq p) (wrap32 x mod LOCAL_RUNQ_SIZE) g; Some (mkP (heads p) (tails p) q (runnext p)).

(** ** The global queue *)

(** [for &g in batch]: null entries are skipped. *)
Fixpoint globrunqput_batch (q batch : list Z) : list Z :=
  match batch with
  | [] => q
  | g :: batch => globrunqput_batch (if decide (g <> 0) then q ++ [g] else q) batch
  end.

Definition globrunqput (q : list Z) (g : Z) : list Z := q ++ [g].

(** [for _ in 0..count] of both getters; [ok] is the test on [locked_m]. *)
Fixpoint globrunq_scan (count : nat) (ok : Z -> bool) (q : list Z) : list Z * option Z :=
  match count, q with
  | O, _ | _, [] => (q, None)
  | S count, g :: q => if ok g then (q, Some g) else globrunq_scan count ok (q ++ [g])
  end.

(** [locked_m] is what each goroutine's field holds at the time, [owner] the calling M. *)
Definition globrunqget_one (locked_m : Z -> Z) (owner : Z) (q : list Z) : list Z * option Z :=
  globrunq_scan (length q) (fun g => (locked_m g =? 0) || (locked_m g =? owner)) q.

Definition globrunqget_locked_for_owner (locked_m : Z -> Z) (owner : Z) (q : list Z) : list Z * option Z :=
  globrunq_scan (length q) (fun g => locked_m g =? owner) q.

(** ** Calls, access by access *)

Inductive pc :=
| Idle
(* runqput *)
| PutNext (g : Z)
| PutNextCas (g oldnext : Z)
| PutHead (g : Z)
| PutTail (g h : Z)
| PutWrite (g t : Z)
| PutStore (g t : Z)
(* runqputslow *)
| SlowCopy (g h n : Z) (batch : list Z)
| SlowCas (g h n : Z) (batch : list Z)
| SlowGlobal (batch : list Z)
(* runqget *)
| GetNext
| GetNextCas (next : Z)
| GetHead
| GetTail (h : Z)
| GetRead (h : Z)
| GetCas (h g : Z)
(* runqsteal and runqgrab; [v] is the target, [b] is [steal_runnext_g] *)
| GrabHead (v : nat) (b : bool)
| GrabTail (v : nat) (b : bool) (h : Z)
| GrabNext (v : nat) (b : bool)
| GrabNextCas (v : nat) (b : bool) (next : Z)
| GrabNextWrite (next : Z)
| GrabRead (v : nat) (b : bool) (h n i : Z)
| GrabWrite (v : nat) (b : bool) (h n i g : Z)
| GrabCas (v : nat) (b : bool) (h n : Z)
| StealTake (n : Z)
| StealHead (n g : Z)
| StealStore (n g : Z)
(* runqempty *)
| EmptyHead (v : nat)
| EmptyTail (v : nat) (head : Z)
| EmptyNext (v : nat) (head tail : Z)
| EmptyTail2 (v : nat) (head tail next : Z).

(** What an owner may do: begin a call when idle, or make one access; [Go true] makes a weak
    compare-exchange fail. *)
Inductive action :=
| StartPut (g : Z) (next : bool)
| StartGet
| StartSteal (v : nat) (steal_runnext_g : bool)
| StartEmpty (v : nat)
| GlobPut (g : Z)
| GlobGet (locked_m : Z -> Z)
| GlobGetLocked (locked_m : Z -> Z)
| Go (spurious : bool).

(** The effect of one access of a thief to its own P [p], in [runqsteal] and [runqgrab]: the P,
    the next program counter, the goroutines it hands to the caller and (none) those it pushes to
    the global queue. *)
Definition steal_step (p : P) (c : pc) : option (P * pc * list Z * list Z) :=
  match c with
  | GrabNextWrite next => p ← slot_set p (tails p) next; Some (p, StealTake 1, [], [])
  | GrabWrite v b h n i g =>
      p ← slot_set p (tails p + i) g;
      Some (p, (if decide (i + 1 < n) then GrabRead v b h n (i + 1) else GrabCas v b h n), [], [])
  | StealTake n =>
      g ← slot_get p (tails p + (n - 1));
      if decide (n - 1 = 0) then Some (p, Idle, (if decide (g = 0) then [] else [g]), []) else Some (p, StealHead (n - 1) g, [], [])
  | StealHead n g =>
      if decide (wrap32 (wsub (tails p) (heads p) + n) < LOCAL_RUNQ_SIZE) then Some (p, StealStore n g, [], []) else None
  | StealStore n g => Some (set_tails p (tails p + n), Idle, (if decide (g = 0) then [] else [g]), [])
  | c => Some (p, c, [], [])
  end.

(** The effect of one access of an owner to its own P [p], in [runqput], [runqputslow] and
    [runqget]: the P, the next program counter,
    the goroutines it hands to the caller and those it pushes to the global queue. *)
Definition own_step (p : P) (c : pc) (spurious : bool) : option (P * pc * list Z * list Z) :=
  match c with
  | PutNext g => Some (p, PutNextCas g (runnext p), [], [])
  | PutNextCas g oldnext =>
      if decide (runnext p = oldnext /\ spurious = false)
      then Some (set_runnext p g, (if decide (oldnext = 0) then Idle else PutHead oldnext), [], [])
      else Some (p, PutNext g, [], [])
  | PutHead g => Some (p, PutTail g (heads p), [], [])
  | PutTail g h =>
      let t := tails p in
      if decide (wsub t h < LOCAL_RUNQ_SIZE) then Some (p, PutWrite g t, [], [])
      else
        let n := wsub t h / 2 in
        if decide (n = LOCAL_RUNQ_SIZE / 2) then Some (p, SlowCopy g h n [], [], []) else None
  | PutWrite g t => p ← slot_set p t g; Some (p, PutStore g t, [], [])
  | PutStore g t => Some (set_tails p (t + 1), Idle, [], [])
  | SlowCopy g h n batch =>
      x ← slot_get p (h + zlen batch);
      let batch := batch ++ [x] in
      Some (p, (if decide (zlen batch < n) then SlowCopy g h n batch else SlowCas g h n batch), [], [])
  | SlowCas g h n batch =>
      if decide (wrap32 (heads p) = wrap32 h) then Some (set_heads p (heads p + n), SlowGlobal (batch ++ [g]), [], [])
      else Some (p, PutHead g, [], [])
  | SlowGlobal batch => Some (p, Idle, [], batch)
  | GetNext => Some (p, (if decide (runnext p <> 0) then GetNextCas (runnext p) else GetHead), [], [])
  | GetNextCas next =>
      if decide (runnext p = next) then Some (set_runnext p 0, Idle, [next], []) else Some (p, GetHead, [], [])
  | GetHead => Some (p, GetTail (heads p), [], [])
  | GetTail h => Some (p, (if decide (wrap32 (tails p) = wrap32 h) then Idle else GetRead h), [], [])
  | GetRead h => g ← slot_get p h; Some (p, GetCas h g, [], [])
  | GetCas h g =>
      if decide (wrap32 (heads p) = wrap32 h /\ spurious = false)
      then Some (set_heads p (heads p + 1), (if decide (g = 0) then GetHead else Idle), (if decide (g = 0) then [] else [g]), [])
      else Some (p, GetHead, [], [])
  | c => steal_step p c
  end.

(** The effect of one access to the target [q] of a steal: the target and the next program
    counter. *)
Definition grab_step (q : P) (c : pc) : option (P * pc) :=
  match c with
  | GrabHead v b => Some (q, GrabTail v b (heads q))
  | GrabTail v b h =>
      let d := wsub (tails q) h in
      let n := d - d / 2 in
      Some (q, if decide (n = 0) then (if b then GrabNext v b else Idle)
               else if decide (n > LOCAL_RUNQ_SIZE / 2) then GrabHead v b else GrabRead v b h n 0)
  | GrabNext v b => Some (q, if decide (runnext q = 0) then Idle else GrabNextCas v b (runnext q))
  | GrabNextCas v b next =>
      if decide (runnext q = next) then Some (set_runnext q 0, GrabNextWrite next) else Some (q, GrabHead v b)
  | GrabRead v b h n i => g ← slot_get q (h + i); Some (q, GrabWrite v b h n i g)
  | GrabCas v b h n =>
      if decide (wrap32 (heads q) = wrap32 h) then Some (set_heads q (heads q + n), StealTake n) else Some (q, GrabHead v b)
  | EmptyHead v => Some (q, EmptyTail v (heads q))
  | EmptyTail v head => Some (q, EmptyNext v head (tails q))
  | EmptyNext v head tail => Some (q, EmptyTail2 v head tail (runnext q))
  | EmptyTail2 v head tail next => Some (q, if decide (wrap32 tail = wrap32 (tails q)) then Idle else EmptyHead v)
  | c => Some (q, c)
  end.

(** The target of the next access, if it is another P's. *)
Definition target (c : pc) : option nat :=
  match c with
  | GrabHead v _ | GrabTail v _ _ | GrabNext v _ | GrabNextCas v _ _ | GrabRead v _ _ _ _ | GrabCas v _ _ _
  | EmptyHead v | EmptyTail v _ | EmptyNext v _ _ | EmptyTail2 v _ _ _ => Some v
  | _ => None
  end.

(** The result of [runqempty] at its last access. *)
Definition runqempty_result (head tail next : Z) : bool := bool_decide (wrap32 head = wrap32 tail) && bool_decide (next = 0).

(** ** The system *)

Record config := mkConfig {
  procs : list (P * pc);     (* each P with its owner *)
  globq : list Z;
  put : list Z;              (* history: goroutines made runnable *)
  ran : list Z               (* history: goroutines handed to an owner to run *)
}.

Definition set_proc (c : config) (i : nat) (x : P * pc) : config := mkConfig (<[i := x]> (procs c)) (globq c) (put c) (ran c).

(** The address of the M bound to P [i]. *)
Definition m_of (i : nat) : Z := Z.of_nat i + 1.

Definition start_call (c : config) (i : nat) (p : P) (a : action) : option config :=
  match a with
  | StartPut g next =>
      Some (mkConfig (<[i := (p, if next then PutNext g else PutHead g)]> (procs c)) (globq c) (put c ++ [g]) (ran c))
  | StartGet => Some (set_proc c i (p, GetNext))
  | StartSteal v b => Some (set_proc c i (p, GrabHead v b))
  | StartEmpty v => Some (set_proc c i (p, EmptyHead v))
  | GlobPut g => Some (mkConfig (procs c) (globrunqput (globq c) g) (put c ++ [g]) (ran c))
  | GlobGet locked_m =>
      let '(q, r) := globrunqget_one locked_m (m_of i) (globq c) in
      Some (mkConfig (procs c) q (put c) (ran c ++ option_list r))
  | GlobGetLocked locked_m =>
      let '(q, r) := globrunqget_locked_for_owner locked_m (m_of i) (globq c) in
      Some (mkConfig (procs c) q (put c) (ran c ++ option_list r))
  | Go _ => Some c
  end.

Definition step (c : config) (i : nat) (a : action) : option config :=
  '(p, k) ← procs c !! i;
  match k, a with
  | Idle, a => start_call c i p a
  | k, Go spurious =>
      match target k with
      | Some v =>
          '(q, kv) ← procs c !! v;
          '(q, k) ← grab_step q k;
          Some (set_proc (set_proc c v (q, kv)) i (p, k))
      | None =>
          '(p, k, out, glob) ← own_step p k spurious;
          Some (mkConfig (<[i := (p, k)]> (procs c)) (globrunqput_batch (globq c) glob) (put c) (ran c ++ out))
      end
  | _, _ => Some c
  end.

Definition start (n : nat) : config := mkConfig (replicate n (p_new, Idle)) [] [] [].
