(* ===== verification/RunQueueSpec.v ===== *)
(** Work stealing loses no goroutine and duplicates none: the invariant of [RunQueue] and its
    preservation under every interleaving. *)
From Stdlib Require Import ZArith Lia List.
From stdpp Require Import base tactics numbers list list_numbers option.
From S2P Require Import Prelude Threads RunQueue.
Open Scope Z_scope.

(** ** Slots *)

Definition slot (p : P) (k : Z) : Z := default 0 (idx (runq p) (k mod 256)).

(** The goroutines at the counts [a] to [a + n - 1]. *)
Definition window (p : P) (a n : Z) : list Z := map (slot p) (seqZ a n).

Definition contents (p : P) : list Z := window p (heads p) (tails p - heads p).

Lemma wrap32_mod x : wrap32 x mod LOCAL_RUNQ_SIZE = x mod 256.
Proof. unfold wrap32, LOCAL_RUNQ_SIZE. lia. Qed.

Lemma slot_get_ok p x : zlen (runq p) = 256 -> slot_get p x = Some (slot p x).
Proof.
  intros Hl. unfold slot_get, slot. rewrite wrap32_mod. destruct (idx_lt (runq p) (x mod 256) ltac:(lia)) as [y ->]. done.
Qed.

Lemma slot_set_ok p x g : zlen (runq p) = 256 -> exists q, slot_set p x g = Some (mkP (heads p) (tails p) q (runnext p)) /\ zlen q = 256 /\
  forall k, slot (mkP (heads p) (tails p) q (runnext p)) k = if decide (k mod 256 = x mod 256) then g else slot p k.
Proof.
  intros Hl. unfold slot_set. rewrite wrap32_mod, upd_Some by lia. cbn [mbind option_bind]. eexists. split; [done|]. split; [by rewrite zlen_insert|].
  intros k. unfold slot. cbn [runq]. rewrite idx_insert by lia. repeat case_decide; (done || lia).
Qed.

Lemma window_length p a n : 0 <= n -> zlen (window p a n) = n.
Proof. intros Hn. unfold window, zlen. rewrite length_map, length_seqZ. lia. Qed.

Lemma window_nil p a n : n <= 0 -> window p a n = [].
Proof. intros Hn. unfold window. by rewrite seqZ_nil. Qed.

Lemma window_snoc p a n : 0 <= n -> window p a (n + 1) = window p a n ++ [slot p (a + n)].
Proof. intros Hn. unfold window. rewrite seqZ_app by lia. by rewrite map_app. Qed.

Lemma window_cons p a n : 0 < n -> window p a n = slot p a :: window p (a + 1) (n - 1).
Proof. intros Hn. unfold window. rewrite seqZ_cons by lia. replace (Z.succ a) with (a + 1) by lia. by replace (Z.pred n) with (n - 1) by lia. Qed.

Lemma window_split p a n m : 0 <= n <= m -> window p a m = window p a n ++ window p (a + n) (m - n).
Proof. intros Hn. unfold window. rewrite <- map_app, <- seqZ_app by lia. f_equal. f_equal. lia. Qed.

Lemma window_ext p q a b n : (forall j, 0 <= j < n -> slot p (a + j) = slot q (b + j)) -> window p a n = window q b n.
Proof.
  intros H. destruct (decide (0 <= n)) as [Hn|Hn]; [|by rewrite !window_nil by lia].
  apply list_eq. intros i. unfold window. rewrite !list_lookup_fmap.
  destruct (decide (Z.of_nat i < n)) as [Hi|Hi].
  - rewrite !lookup_seqZ_lt by lia. cbn. f_equal. apply H. lia.
  - rewrite !lookup_seqZ_ge by lia. done.
Qed.

(** ** Counting *)

Definition occ (g : Z) (l : list Z) : Z := Z.of_nat (count_occ Z.eq_dec l g).

Lemma occ_app g l l' : occ g (l ++ l') = occ g l + occ g l'.
Proof. unfold occ. rewrite count_occ_app. lia. Qed.

Lemma occ_nil g : occ g [] = 0.
Proof. done. Qed.

Lemma occ_cons g x l : occ g (x :: l) = occ g [x] + occ g l.
Proof. apply (occ_app g [x] l). Qed.

(** ** The invariant *)

(** The goroutines an owner has in its hands between two accesses. *)
Definition held (p : P) (k : pc) : list Z :=
  match k with
  | PutNext g | PutNextCas g _ | PutHead g | PutTail g _ | PutWrite g _ | PutStore g _ | SlowCopy g _ _ _ | SlowCas g _ _ _ => [g]
  | SlowGlobal batch => batch
  | GrabNextWrite g => [g]
  | StealTake n => window p (tails p) n
  | StealHead n g | StealStore n g => window p (tails p) n ++ [g]
  | _ => []
  end.

Definition next_list (p : P) : list Z := if decide (runnext p = 0) then [] else [runnext p].

Definition owns (x : P * pc) : list Z := contents x.1 ++ next_list x.1 ++ held x.1 x.2.

Record ring_ok (p : P) : Prop := {
  ri_len : zlen (runq p) = 256;
  ri_order : 0 <= heads p <= tails p;
  ri_room : tails p <= heads p + 256;
  ri_full : forall k, heads p <= k < tails p -> slot p k <> 0
}.

(** What an owner knows about its own P. *)
Definition owner_ok (p : P) (k : pc) : Prop :=
  match k with
  | PutTail _ h | GetTail h => h <= heads p /\ tails p <= h + 256
  | PutWrite _ t => t = tails p /\ tails p < heads p + 256
  | PutStore g t => t = tails p /\ tails p < heads p + 256 /\ slot p t = g
  | SlowCopy _ h n batch => n = 128 /\ h <= heads p /\ tails p = h + 256 /\ zlen batch < 128 /\ (heads p = h -> batch = window p h (zlen batch))
  | SlowCas _ h n batch => n = 128 /\ h <= heads p /\ tails p = h + 256 /\ (heads p = h -> batch = window p h 128)
  | GetNextCas next | GrabNextCas _ _ next => next <> 0 /\ (match k with GrabNextCas _ _ _ => heads p = tails p | _ => True end)
  | GetRead h => h <= heads p /\ h < tails p
  | GetCas h g => h <= heads p /\ h < tails p /\ (heads p = h -> g = slot p h)
  | GrabHead _ _ | GrabTail _ _ _ | GrabNext _ _ | GrabNextWrite _ => heads p = tails p
  | GrabRead _ _ _ n i | GrabWrite _ _ _ n i _ => heads p = tails p /\ 0 <= i < n /\ n <= 128
  | GrabCas _ _ _ n => heads p = tails p /\ 1 <= n <= 128
  | StealTake n => heads p = tails p /\ 1 <= n <= 128
  | StealHead n _ | StealStore n _ => heads p = tails p /\ 1 <= n <= 127
  | _ => True
  end.

(** What a thief with P [p] knows about its target [q]. *)
Definition copied (p q : P) (h n i : Z) : Prop :=
  h <= heads q /\ h + n <= tails q /\ (heads q = h -> forall j, 0 <= j < i -> slot p (tails p + j) = slot q (h + j)).

Definition thief_ok (p q : P) (k : pc) : Prop :=
  match k with
  | GrabTail _ _ h => h <= heads q
  | GrabRead _ _ h n i => copied p q h n i
  | GrabWrite _ _ h n i g => copied p q h n i /\ (heads q = h -> g = slot q (h + i))
  | GrabCas _ _ h n => copied p q h n n
  | _ => True
  end.

(** The target of a steal in progress. *)
Definition victim (k : pc) : option nat :=
  match k with GrabWrite v _ _ _ _ _ => Some v | k => target k end.

Record proc_ok (p : P) (k : pc) : Prop := {
  po_ring : ring_ok p;
  po_owner : owner_ok p k;
  po_held : Forall (fun g => g <> 0) (held p k)
}.

Record shape (ps : list (P * pc)) : Prop := {
  sh_procs : forall i p k, ps !! i = Some (p, k) -> proc_ok p k;
  sh_thief : forall i p k v, ps !! i = Some (p, k) -> victim k = Some v ->
    exists q kv, ps !! v = Some (q, kv) /\ v <> i /\ thief_ok p q k
}.

Record inv (c : config) : Prop := {
  iv_shape : shape (procs c);
  iv_count : forall g, occ g (put c) = zsum (fun x => occ g (owns x)) (procs c) + occ g (globq c) + occ g (ran c)
}.

(** ** Counters at 32 bits *)

(** No owner sleeps with a head it loaded while 2^31 goroutines leave that ring. *)
Definition snapshot (k : pc) : option Z :=
  match k with
  | PutTail _ h | SlowCopy _ h _ _ | SlowCas _ h _ _ | GetTail h | GetRead h | GetCas h _ | GrabTail _ _ h | GrabRead _ _ h _ _ | GrabWrite _ _ h _ _ _ | GrabCas _ _ h _ => Some h
  | _ => None
  end.

Definition timely (q : P) (k : pc) : Prop := forall h, snapshot k = Some h -> heads q < h + 2 ^ 31.

#[global] Instance timely_dec q k : Decision (timely q k).
Proof.
  unfold timely. destruct (snapshot k) as [h|]; [|by left].
  destruct (decide (heads q < h + 2 ^ 31)) as [H|H]; [left; by intros ? [= <-]|right; auto].
Defined.

Lemma wsub_small t h : 0 <= t - h < 2 ^ 32 -> wsub t h = t - h.
Proof. intros H. unfold wsub, wrap32. rewrite <- Zminus_mod. by apply Z.mod_small. Qed.

Lemma wrap32_inj a b : 0 <= a - b < 2 ^ 32 -> wrap32 a = wrap32 b -> a = b.
Proof.
  unfold wrap32. intros H E. assert ((a - b) mod 2 ^ 32 = 0) as Hz by (rewrite Zminus_mod, E, Z.sub_diag; done).
  rewrite Z.mod_small in Hz by done. lia.
Qed.

(** ** What a step of one owner is to the others *)

(** Seen by a thief: as long as the head stays, so do the goroutines of the ring. *)
Record grows (q q' : P) : Prop := {
  gr_heads : heads q <= heads q';
  gr_tails : tails q <= tails q';
  gr_slots : heads q' = heads q -> forall k, heads q <= k < tails q -> slot q' k = slot q k
}.

(** Seen by the owner: thieves move the head forward and take [runnext]. *)
Record taken (q q' : P) : Prop := {
  ta_heads : heads q <= heads q' <= tails q;
  ta_tails : tails q' = tails q;
  ta_runq : runq q' = runq q
}.

Lemma slot_runq p p' k : runq p' = runq p -> slot p' k = slot p k.
Proof. unfold slot. by intros ->. Qed.

Lemma window_runq p p' a n : runq p' = runq p -> window p' a n = window p a n.
Proof. intros E. apply window_ext. intros j _. by apply slot_runq. Qed.

Lemma taken_grows q q' : taken q q' -> grows q q'.
Proof. intros [H1 H2 H3]. split; [lia|lia|]. intros _ k _. by apply slot_runq. Qed.

Lemma grows_refl q : grows q q.
Proof. split; (done || lia). Qed.

Lemma held_runq p p' k : tails p' = tails p -> runq p' = runq p -> held p' k = held p k.
Proof. intros E1 E2. destruct k; cbn [held]; try done; by rewrite E1, (window_runq _ _ _ _ E2). Qed.

Lemma proc_ok_taken p p' k : proc_ok p k -> taken p p' -> proc_ok p' k.
Proof.
  intros [[Hl Ho Hr Hf] Hk Hh] [T1 T2 T3]. assert (forall k, slot p' k = slot p k) as Hs by (intros; by apply slot_runq). split.
  - split; rewrite ?T2, ?T3; try done; try lia. intros j Hj. rewrite Hs. apply Hf. lia.
  - destruct k; cbn [owner_ok] in *; rewrite ?T2, ?Hs, ?(window_runq _ _ _ _ T3); try done; try lia; destruct_and!; split_and!; try done; try lia.
    + intros E. assert (heads p = h) as E' by lia. auto.
    + intros E. assert (heads p = h) as E' by lia. auto.
  - by rewrite (held_runq p).
Qed.

Lemma thief_ok_grows p q q' k : thief_ok p q k -> grows q q' -> owner_ok p k -> thief_ok p q' k.
Proof.
  intros Hk [G1 G2 G3] Hi. cbn [owner_ok] in Hi. assert (forall h n i, i <= n -> copied p q h n i -> copied p q' h n i) as Hc.
  { intros h n i Hin (C1 & C2 & C3). split; [lia|]. split; [lia|]. intros E j Hj. assert (heads q = h) as E' by lia. rewrite C3 by done. symmetry. apply G3; lia. }
  destruct k; cbn [thief_ok owner_ok] in *; try done; try lia.
  - apply Hc; [lia|done].
  - destruct Hk as [Hk Hg]. split; [apply Hc; [lia|done]|]. intros E. destruct Hk as (C1 & C2 & _). assert (heads q = h) as E' by lia. rewrite Hg by done. symmetry. apply G3; lia.
  - apply Hc; [lia|done].
Qed.

Lemma thief_ok_own p p' q k : tails p' = tails p -> runq p' = runq p -> thief_ok p q k -> thief_ok p' q k.
Proof.
  intros E1 E2. assert (forall k, slot p' k = slot p k) as Hs by (intros; by apply slot_runq). unfold thief_ok, copied. rewrite E1.
  destruct k; try done; intros Hk; destruct_and!; split_and!; try done; intros Eh j Hj; rewrite Hs; auto.
Qed.

(** ** Accesses to a target *)

Definition public (p : P) : list Z := contents p ++ next_list p.

Lemma occ_owns g p k : occ g (owns (p, k)) = occ g (public p) + occ g (held p k).
Proof. unfold owns, public. cbn [fst snd]. rewrite !occ_app. lia. Qed.

Lemma ring_heads p h : ring_ok p -> heads p <= h <= tails p -> ring_ok (set_heads p h).
Proof. intros [H1 H2 H3 H4] Hh. split; cbn; try done; try lia. intros k Hk. apply (H4 k). lia. Qed.

Lemma ring_next p g : ring_ok p -> ring_ok (set_runnext p g).
Proof. intros [H1 H2 H3 H4]. by split. Qed.

Lemma contents_heads p n : 0 <= n <= tails p - heads p -> contents p = window p (heads p) n ++ contents (set_heads p (heads p + n)).
Proof.
  intros Hn. unfold contents. cbn [heads tails set_heads]. rewrite (window_split p _ n) by lia. f_equal. rewrite (window_runq p (set_heads p (heads p + n))) by done. f_equal. lia.
Qed.

Lemma public_heads g p n : 0 <= n <= tails p - heads p -> occ g (public p) = occ g (window p (heads p) n) + occ g (public (set_heads p (heads p + n))).
Proof. intros Hn. unfold public. rewrite !occ_app, (contents_heads p n) by done. rewrite occ_app. unfold next_list. cbn [runnext set_heads]. lia. Qed.

Lemma public_next g p x : occ g (public p) = occ g (contents p) + occ g (next_list p) /\
  occ g (public (set_runnext p x)) = occ g (contents p) + occ g (if decide (x = 0) then [] else [x]).
Proof. unfold public. rewrite !occ_app. done. Qed.

Lemma next_list_some p : runnext p <> 0 -> next_list p = [runnext p].
Proof. intros H. unfold next_list. by rewrite decide_False. Qed.

(** What an access to the target [q] by the owner of [p] does. *)
Record grabbed (p : P) (k : pc) (q q' : P) (k' : pc) : Prop := {
  gb_taken : taken q q';
  gb_ring : ring_ok q';
  gb_proc : proc_ok p k';
  gb_thief : forall v, victim k' = Some v -> victim k = Some v /\ thief_ok p q' k';
  gb_count : forall g, occ g (public q) + occ g (held p k) = occ g (public q') + occ g (held p k')
}.

Lemma taken_refl q : ring_ok q -> taken q q.
Proof. intros Hq. pose proof (ri_order _ Hq). split; (done || lia). Qed.

(** The access only reads. *)
Lemma grabbed_read p k q k' : ring_ok q -> proc_ok p k -> owner_ok p k' -> held p k = [] -> held p k' = [] ->
  (forall v, victim k' = Some v -> victim k = Some v /\ thief_ok p q k') -> grabbed p k q q k'.
Proof.
  intros Hq [Hr Ho Hh] Ho' E E' Hv. split; [by apply taken_refl|done| |done|by rewrite E, E']. split; [done|done|by rewrite E'].
Qed.

(** Closes what is left of an access that only reads. *)
Ltac solve_read :=
  apply grabbed_read; try done; cbn [owner_ok]; try lia;
  try (cbn [victim target thief_ok]; intros ? [= <-]; unfold copied; split_and!; first [done | lia | intros; lia]).

Lemma grab_step_ok p k q v : proc_ok p k -> ring_ok q -> target k = Some v -> thief_ok p q k -> timely q k ->
  exists q' k', grab_step q k = Some (q', k') /\ grabbed p k q q' k'.
Proof.
  intros Hp Hq Ht Hth Htm. pose proof (po_owner _ _ Hp) as Ho. pose proof (ri_order _ Hq) as Hqo. pose proof (ri_room _ Hq) as Hqr.
  destruct k; try done; cbn [target] in Ht; injection Ht as ->; cbn [owner_ok thief_ok] in *; cbn [grab_step].
  - eexists q, _. split; [done|]. solve_read.
  - specialize (Htm h eq_refl). rewrite wsub_small by lia. set (d := tails q - h). eexists q, _. split; [done|].
    destruct (decide (d - d / 2 = 0)) as [Hz|Hz].
    { destruct b; solve_read. }
    destruct (decide (d - d / 2 > LOCAL_RUNQ_SIZE / 2)) as [Hb|Hb]; [solve_read|]. change (LOCAL_RUNQ_SIZE / 2) with 128 in Hb. solve_read.
  - eexists q, _. split; [done|]. destruct (decide (runnext q = 0)) as [Hz|Hz]; solve_read.
  - destruct (decide (runnext q = next)) as [E|E]; eexists _, _; (split; [done|]).
    + split; [split; (done || cbn; lia)|by apply ring_next| |done|].
      * split; [apply Hp|cbn; apply Ho|constructor; [apply Ho|constructor]].
      * intros g. destruct (public_next g q 0) as [-> ->]. rewrite next_list_some by (rewrite E; apply Ho). rewrite decide_True by done. cbn [held]. rewrite E, occ_nil. lia.
    + solve_read.
  - rewrite slot_get_ok by apply Hq. cbn [mbind option_bind]. eexists q, _. split; [done|]. solve_read.
  - destruct (decide (wrap32 (heads q) = wrap32 h)) as [E|E]; eexists _, _; (split; [done|]).
    + destruct Hth as (C1 & C2 & C3). specialize (Htm h eq_refl). assert (heads q = h) as Eh by (apply wrap32_inj; [lia|done]). specialize (C3 Eh). clear E.
      assert (window p (tails p) n = window q (heads q) n) as Ew by (apply window_ext; intros j Hj; rewrite Eh; by apply C3).
      split; [split; (done || cbn; lia)|apply ring_heads; [done|lia]| |done|].
      * split; [apply Hp|cbn; lia|]. cbn [held]. rewrite Ew. apply Forall_fmap, Forall_forall. intros j Hj. apply list_elem_of_In, elem_of_seqZ in Hj. apply (ri_full _ Hq). lia.
      * intros g. rewrite (public_heads g q n) by lia. cbn [held]. rewrite Ew, occ_nil. lia.
    + solve_read.
  - eexists q, _. split; [done|]. solve_read.
  - eexists q, _. split; [done|]. solve_read.
  - eexists q, _. split; [done|]. solve_read.
  - eexists q, _. split; [done|]. destruct (decide _); solve_read.
Qed.

(** ** Accesses to the own P *)

Record moved (p : P) (k : pc) (p' : P) (k' : pc) (out glob : list Z) : Prop := {
  mv_proc : proc_ok p' k';
  mv_grows : grows p p';
  mv_thief : forall v, victim k' = Some v -> victim k = Some v /\ forall q, thief_ok p q k -> thief_ok p' q k';
  mv_glob : Forall (fun g => g <> 0) glob;
  mv_count : forall g, occ g (owns (p, k)) = occ g (owns (p', k')) + occ g out + occ g glob
}.

(** A store to a slot outside the ring. *)
Lemma write_outside p x g : ring_ok p -> tails p <= x < heads p + 256 ->
  exists p', slot_set p x g = Some p' /\ ring_ok p' /\ grows p p' /\ heads p' = heads p /\ tails p' = tails p /\ (forall o, occ o (public p') = occ o (public p)) /\
    forall k, heads p <= k < heads p + 256 -> slot p' k = if decide (k = x) then g else slot p k.
Proof.
  intros Hp Hx. destruct (slot_set_ok p x g (ri_len _ Hp)) as (q & -> & Hq & Hs). pose proof (ri_order _ Hp) as Hord. eexists. split; [done|].
  assert (forall k, heads p <= k < tails p -> slot (mkP (heads p) (tails p) q (runnext p)) k = slot p k) as Hin.
  { intros k Hk. rewrite Hs, decide_False; [done|]. lia. }
  split_and!; [| |done|done| |].
  - destruct Hp. split; cbn; try done. intros k Hk. rewrite Hin by done. auto.
  - split; cbn; (done || lia).
  - intros o. unfold public, contents. rewrite !occ_app. cbn [heads tails]. f_equal. f_equal. apply window_ext. intros j Hj. apply Hin. lia.
  - intros k Hk. rewrite Hs. repeat case_decide; (done || lia).
Qed.

(** The access only moves the program counter. *)
Lemma moved_pc p k k' : proc_ok p k -> owner_ok p k' -> held p k' = held p k -> victim k' = None -> moved p k p k' [] [].
Proof.
  intros [Hr Ho Hh] Ho' E Hv. split; [split; [done|done|by rewrite E]|apply grows_refl|by rewrite Hv|constructor|].
  intros g. rewrite !occ_owns, E, occ_nil. lia.
Qed.

Lemma heads_moved p k k' n out : proc_ok p k -> 0 <= n <= tails p - heads p -> owner_ok (set_heads p (heads p + n)) k' -> victim k' = None ->
  Forall (fun g => g <> 0) (held (set_heads p (heads p + n)) k') ->
  (forall g, occ g (window p (heads p) n) + occ g (held p k) = occ g (held (set_heads p (heads p + n)) k') + occ g out) ->
  moved p k (set_heads p (heads p + n)) k' out [].
Proof.
  intros Hp Hn Ho Hv Hh Hc. pose proof (po_ring _ _ Hp) as Hr. pose proof (ri_order _ Hr). split; [split; [by apply ring_heads; [|lia]|done|done]| |by rewrite Hv|constructor|].
  - apply taken_grows. split; (done || cbn; lia).
  - intros g. rewrite !occ_owns, (public_heads g p n) by done. specialize (Hc g). rewrite occ_nil. lia.
Qed.

Lemma next_moved p k k' x out : proc_ok p k -> owner_ok (set_runnext p x) k' -> victim k' = None -> Forall (fun g => g <> 0) (held (set_runnext p x) k') ->
  (forall g, occ g (next_list p) + occ g (held p k) = occ g (if decide (x = 0) then [] else [x]) + occ g (held (set_runnext p x) k') + occ g out) ->
  moved p k (set_runnext p x) k' out [].
Proof.
  intros Hp Ho Hv Hh Hc. pose proof (po_ring _ _ Hp) as Hr. pose proof (ri_order _ Hr). split; [split; [by apply ring_next|done|done]| |by rewrite Hv|constructor|].
  - apply taken_grows. split; (done || cbn; lia).
  - intros g. rewrite !occ_owns. destruct (public_next g p x) as [-> ->]. specialize (Hc g). rewrite occ_nil. lia.
Qed.

(** Publishing [n] slots behind the tail. *)
Lemma tails_moved p k k' n out : proc_ok p k -> 0 <= n -> tails p + n <= heads p + 256 -> Forall (fun g => g <> 0) (window p (tails p) n) -> owner_ok (set_tails p (tails p + n)) k' ->
  victim k' = None -> Forall (fun g => g <> 0) (held (set_tails p (tails p + n)) k') ->
  (forall g, occ g (held p k) = occ g (window p (tails p) n) + occ g (held (set_tails p (tails p + n)) k') + occ g out) ->
  moved p k (set_tails p (tails p + n)) k' out [].
Proof.
  intros Hp Hn Hroom Hnz Ho Hv Hh Hc. pose proof (po_ring _ _ Hp) as Hr. destruct Hr as [R1 R2 R3 R4].
  assert (forall j, tails p <= j < tails p + n -> slot p j <> 0) as Hnew.
  { intros j Hj. unfold window in Hnz. rewrite Forall_fmap, Forall_forall in Hnz. apply (Hnz j). apply list_elem_of_In, elem_of_seqZ. lia. }
  split; [split; [|done|done]| |by rewrite Hv|constructor|].
  - split; cbn; try done; try lia. intros j Hj. change (slot p j <> 0). destruct (decide (j < tails p)); [apply R4; lia|apply Hnew; lia].
  - split; cbn; try lia. done.
  - intros g. rewrite !occ_owns, Hc, occ_nil. unfold public, contents. cbn [heads tails set_tails]. rewrite !occ_app.
    rewrite (window_runq p (set_tails p (tails p + n))) by done. rewrite (window_split p (heads p) (tails p - heads p) (tails p + n - heads p)) by lia.
    rewrite occ_app. replace (heads p + (tails p - heads p)) with (tails p) by lia. replace (tails p + n - heads p - (tails p - heads p)) with n by lia.
    change (next_list (set_tails p (tails p + n))) with (next_list p). lia.
Qed.

(** A store to a slot outside the ring, as a step. *)
Lemma write_moved p k k' x y : proc_ok p k -> tails p <= x < heads p + 256 ->
  exists p', slot_set p x y = Some p' /\ heads p' = heads p /\ tails p' = tails p /\
    (forall j, heads p <= j < heads p + 256 -> slot p' j = if decide (j = x) then y else slot p j) /\
    (owner_ok p' k' -> (forall v, victim k' = Some v -> victim k = Some v /\ forall q, thief_ok p q k -> thief_ok p' q k') ->
     held p' k' = held p k -> moved p k p' k' [] []).
Proof.
  intros Hp Hx. destruct (write_outside p x y (po_ring _ _ Hp) Hx) as (p' & E & Hr & Hg & Hh & Ht & Hc & Hs). exists p'. split_and!; try done.
  intros Ho Hv Eh. split; [split; [done|done|rewrite Eh; apply Hp]|done|done|constructor|]. intros g. rewrite !occ_owns, Hc, Eh, occ_nil. lia.
Qed.

Lemma nonzero_list g : Forall (fun x => x <> 0) [g] -> g <> 0.
Proof. intros H. by inversion H. Qed.

Lemma put_step_ok p k sp : proc_ok p k -> timely p k ->
  match k with PutNext _ | PutNextCas _ _ | PutHead _ | PutTail _ _ | PutWrite _ _ | PutStore _ _ => True | _ => False end ->
  exists p' k' out glob, own_step p k sp = Some (p', k', out, glob) /\ moved p k p' k' out glob.
Proof.
  intros Hp Htm Hk. pose proof (po_owner _ _ Hp) as Ho. pose proof (po_held _ _ Hp) as Hh. destruct (po_ring _ _ Hp) as [R1 R2 R3 R4].
  destruct k; try done; cbn [owner_ok held own_step steal_step] in *.
  - eexists _, _, _, _. split; [done|]. by apply moved_pc.
  - destruct (decide (runnext p = oldnext /\ sp = false)) as [[E _]|_]; eexists _, _, _, _; (split; [done|]); [|by apply moved_pc].
    pose proof (nonzero_list _ Hh) as Hg. destruct (decide (oldnext = 0)) as [Hz|Hz]; apply next_moved; try done.
    + intros o. unfold next_list. rewrite E, (decide_True (P := oldnext = 0)), decide_False by done. cbn [held]. rewrite !occ_nil. lia.
    + constructor; [done|constructor].
    + intros o. rewrite next_list_some by by rewrite E. rewrite E, decide_False by done. cbn [held]. rewrite occ_nil. lia.
  - eexists _, _, _, _. split; [done|]. apply moved_pc; try done; cbn; lia.
  - specialize (Htm h eq_refl). rewrite wsub_small by lia. unfold LOCAL_RUNQ_SIZE. destruct (decide (tails p - h < 256)) as [Hlt|Hge].
    + eexists _, _, _, _. split; [done|]. apply moved_pc; try done; cbn; lia.
    + rewrite decide_True by lia. eexists _, _, _, _. split; [done|]. apply moved_pc; try done. cbn [owner_ok]. split_and!; [lia|lia|lia|done|]. intros _. by rewrite window_nil.
  - destruct Ho as [-> Hlt]. destruct (write_moved p (PutWrite g (tails p)) (PutStore g (tails p)) (tails p) g Hp ltac:(lia)) as (p' & -> & E1 & E2 & Es & Hm).
    cbn [mbind option_bind]. eexists _, _, _, _. split; [done|]. apply Hm; try done. cbn. rewrite E1, E2. split_and!; try done. rewrite Es by lia. by rewrite decide_True.
  - destruct Ho as (-> & Hlt & Es). eexists _, _, _, _. split; [done|]. assert (window p (tails p) 1 = [g]) as Ew by (rewrite window_cons, window_nil by lia; by rewrite Es).
    apply tails_moved; try done; try lia; [by rewrite Ew|]. intros o. rewrite Ew. cbn [held]. rewrite !occ_nil. lia.
Qed.

Lemma slow_step_ok p k sp : proc_ok p k -> timely p k ->
  match k with SlowCopy _ _ _ _ | SlowCas _ _ _ _ | SlowGlobal _ => True | _ => False end ->
  exists p' k' out glob, own_step p k sp = Some (p', k', out, glob) /\ moved p k p' k' out glob.
Proof.
  intros Hp Htm Hk. pose proof (po_owner _ _ Hp) as Ho. pose proof (po_held _ _ Hp) as Hh. destruct (po_ring _ _ Hp) as [R1 R2 R3 R4].
  destruct k; try done; cbn [owner_ok held own_step steal_step] in *.
  - destruct Ho as (-> & Hle & Et & Hb & Hw). rewrite slot_get_ok by done. cbn [mbind option_bind].
    assert (zlen (batch ++ [slot p (h + zlen batch)]) = zlen batch + 1) as El by (unfold zlen; rewrite length_app; cbn; lia). assert (0 <= zlen batch) by (unfold zlen; lia).
    assert (heads p = h -> batch ++ [slot p (h + zlen batch)] = window p h (zlen batch + 1)) as Hw' by (intros E; rewrite window_snoc by lia; f_equal; auto).
    rewrite El. destruct (decide (zlen batch + 1 < 128)); eexists _, _, _, _; (split; [done|]); apply moved_pc; try done; cbn [owner_ok]; rewrite ?El.
    + split_and!; (done || lia).
    + split_and!; try (done || lia). intros E. rewrite Hw' by done. f_equal. lia.
  - destruct Ho as (-> & Hle & Et & Hw). specialize (Htm h eq_refl). destruct (decide (wrap32 (heads p) = wrap32 h)) as [E|E]; eexists _, _, _, _; (split; [done|]); [|by apply moved_pc].
    assert (heads p = h) as Eh by (apply wrap32_inj; [lia|done]). specialize (Hw Eh). rewrite <- Eh in Hw. apply heads_moved; try done; try lia.
    + cbn [held]. apply Forall_app. split; [|done]. rewrite Hw. apply Forall_fmap, Forall_forall. intros j Hj. apply list_elem_of_In, elem_of_seqZ in Hj. apply R4. lia.
    + intros o. cbn [held]. rewrite occ_app, Hw, occ_nil. lia.
  - eexists _, _, _, _. split; [done|]. split; [split; [by split|done|constructor]|apply grows_refl|done|done|]. intros o. rewrite !occ_owns. cbn [held]. rewrite !occ_nil. lia.
Qed.

Lemma get_step_ok p k sp : proc_ok p k -> timely p k ->
  match k with GetNext | GetNextCas _ | GetHead | GetTail _ | GetRead _ | GetCas _ _ => True | _ => False end ->
  exists p' k' out glob, own_step p k sp = Some (p', k', out, glob) /\ moved p k p' k' out glob.
Proof.
  intros Hp Htm Hk. pose proof (po_owner _ _ Hp) as Ho. destruct (po_ring _ _ Hp) as [R1 R2 R3 R4].
  destruct k; try done; cbn [owner_ok held own_step steal_step] in *.
  - eexists _, _, _, _. split; [done|]. destruct (decide (runnext p <> 0)); by apply moved_pc.
  - destruct (decide (runnext p = next)) as [E|E]; eexists _, _, _, _; (split; [done|]); [|by apply moved_pc].
    apply next_moved; try done. intros o. rewrite next_list_some by (rewrite E; apply Ho). rewrite E, decide_True by done. cbn [held]. rewrite !occ_nil. lia.
  - eexists _, _, _, _. split; [done|]. apply moved_pc; try done; cbn; lia.
  - eexists _, _, _, _. split; [done|]. destruct (decide (wrap32 (tails p) = wrap32 h)) as [E|E]; [by apply moved_pc|]. apply moved_pc; try done. cbn. split; [lia|].
    destruct (decide (tails p = h)) as [E'|]; [by rewrite E' in E|lia].
  - rewrite slot_get_ok by done. cbn [mbind option_bind]. eexists _, _, _, _. split; [done|]. apply moved_pc; try done. cbn. split_and!; (done || lia).
  - destruct Ho as (Hle & Hlt & Hg). specialize (Htm h eq_refl). destruct (decide (wrap32 (heads p) = wrap32 h /\ sp = false)) as [[E _]|E]; eexists _, _, _, _; (split; [done|]); [|by apply moved_pc].
    assert (heads p = h) as Eh by (apply wrap32_inj; [lia|done]). specialize (Hg Eh). subst h g. pose proof (R4 (heads p) ltac:(lia)) as Hnz. rewrite !decide_False by done.
    apply heads_moved; try done; try lia. intros o. rewrite window_cons, window_nil by lia. cbn [held]. rewrite !occ_nil. lia.
Qed.

Lemma steal_step_ok p k sp : proc_ok p k ->
  match k with GrabNextWrite _ | GrabWrite _ _ _ _ _ _ | StealTake _ | StealHead _ _ | StealStore _ _ => True | _ => False end ->
  exists p' k' out glob, own_step p k sp = Some (p', k', out, glob) /\ moved p k p' k' out glob.
Proof.
  intros Hp Hk. pose proof (po_owner _ _ Hp) as Ho. pose proof (po_held _ _ Hp) as Hh. destruct (po_ring _ _ Hp) as [R1 R2 R3 R4].
  destruct k; try done; cbn [owner_ok held own_step steal_step] in *.
  - destruct (write_moved p (GrabNextWrite next) (StealTake 1) (tails p) next Hp ltac:(lia)) as (p' & -> & E1 & E2 & Es & Hm). cbn [mbind option_bind].
    eexists _, _, _, _. split; [done|]. apply Hm; try done; [cbn; lia|]. cbn [held]. rewrite E2, window_cons, window_nil by lia. rewrite Es, decide_True by lia. done.
  - destruct Ho as (Het & Hi & Hn). set (k' := if decide (i + 1 < n) then GrabRead v b h n (i + 1) else GrabCas v b h n).
    destruct (write_moved p (GrabWrite v b h n i g) k' (tails p + i) g Hp ltac:(lia)) as (p' & -> & E1 & E2 & Es & Hm). cbn [mbind option_bind].
    eexists _, _, _, _. split; [done|]. fold k'.
    assert (forall q, thief_ok p q (GrabWrite v b h n i g) -> copied p' q h n (i + 1)) as Hc.
    { intros q [(C1 & C2 & C3) Cg]. split_and!; try done. intros E j Hj. rewrite E2, Es by lia. destruct (decide (tails p + j = tails p + i)) as [Ej|Ej]; [rewrite Cg by done; f_equal; lia|].
      apply C3; [done|lia]. }
    apply Hm; unfold k' in *; destruct (decide (i + 1 < n)) as [Hlt|Hge]; cbn [owner_ok held]; try done; try lia.
    cbn. intros ? [= <-]. split_and!; try done. intros q Hq. specialize (Hc q Hq). by replace (i + 1) with n in Hc by lia.
  - destruct Ho as [Het Hn]. rewrite slot_get_ok by done. cbn [mbind option_bind].
    assert (window p (tails p) n = window p (tails p) (n - 1) ++ [slot p (tails p + (n - 1))]) as Ew by (rewrite <- window_snoc by lia; f_equal; lia).
    rewrite Ew in Hh. apply Forall_app in Hh as [Hh1 Hh2]. pose proof (nonzero_list _ Hh2) as Hg. destruct (decide (n - 1 = 0)) as [Hz|Hz]; eexists _, _, _, _; (split; [done|]).
    + rewrite decide_False by done. split; [split; [by split|done|constructor]|apply grows_refl|done|constructor|]. intros o. rewrite !occ_owns. cbn [held].
      rewrite Ew, Hz, window_nil, !occ_nil by lia. cbn [app]. lia.
    + apply moved_pc; try done; cbn [owner_ok]; lia.
  - destruct Ho as [Het Hn]. rewrite wsub_small by lia. unfold wrap32, LOCAL_RUNQ_SIZE. rewrite Z.mod_small by lia. rewrite decide_True by lia.
    eexists _, _, _, _. split; [done|]. by apply moved_pc.
  - destruct Ho as [Het Hn]. apply Forall_app in Hh as [Hh1 Hh2]. pose proof (nonzero_list _ Hh2) as Hg. rewrite decide_False by done. eexists _, _, _, _. split; [done|].
    apply tails_moved; try done; try lia. intros o. cbn [held]. rewrite occ_app, !occ_nil. lia.
Qed.

Lemma own_step_ok p k sp : proc_ok p k -> (victim k = None -> timely p k) -> target k = None -> k <> Idle ->
  exists p' k' out glob, own_step p k sp = Some (p', k', out, glob) /\ moved p k p' k' out glob.
Proof.
  intros Hp Htm Ht Hi. destruct k; try done; try (specialize (Htm eq_refl)); first [by apply put_step_ok | by apply slow_step_ok | by apply get_step_ok | by apply steal_step_ok].
Qed.

(** ** The global queue *)

Lemma batch_app batch : forall q, Forall (fun g => g <> 0) batch -> globrunqput_batch q batch = q ++ batch.
Proof.
  induction batch as [|g batch IH]; intros q Hb; [by rewrite app_nil_r|]. inversion Hb; subst. cbn [globrunqput_batch]. rewrite decide_True, IH by done. by rewrite <- app_assoc.
Qed.

Lemma scan_occ o ok : forall n q, occ o q = occ o (globrunq_scan n ok q).1 + occ o (option_list (globrunq_scan n ok q).2).
Proof.
  induction n as [|n IH]; intros q; cbn [globrunq_scan]; [cbn -[occ Z.add]; rewrite occ_nil; lia|]. destruct q as [|g q]; [done|].
  destruct (ok g); cbn -[occ Z.add]; [rewrite occ_cons; lia|]. rewrite <- IH, occ_app, (occ_cons o g q). lia.
Qed.

(** ** One step *)

(** The P whose head the owner of [p] has loaded. *)
Definition watched (c : config) (p : P) (k : pc) : option P := match victim k with Some v => fst <$> procs c !! v | None => Some p end.

(** How owners call the queue: goroutines are not null; a P steals from another P, and only
    when its own ring is empty, as [runqget] has just told; no owner sleeps too long. *)
Definition allowed (c : config) (i : nat) (a : action) : Prop :=
  match a with
  | StartPut g _ | GlobPut g => g <> 0
  | StartSteal v _ => v <> i /\ is_Some (procs c !! v) /\ forall p k, procs c !! i = Some (p, k) -> wrap32 (heads p) = wrap32 (tails p)
  | StartEmpty v => v <> i /\ is_Some (procs c !! v)
  | Go _ => forall p k q, procs c !! i = Some (p, k) -> watched c p k = Some q -> timely q k
  | _ => True
  end.

#[global] Instance allowed_dec c i a : Decision (allowed c i a).
Proof.
  destruct a; cbn [allowed]; try apply _.
  - apply and_dec; [apply _|]. apply and_dec; [apply _|]. destruct (procs c !! i) as [[p k]|]; [|by left].
    destruct (decide (wrap32 (heads p) = wrap32 (tails p))) as [H|H]; [left; by intros ? ? [= <- <-]|right; eauto].
  - destruct (procs c !! i) as [[p k]|]; [|by left]. destruct (watched c p k) as [q|] eqn:E.
    + destruct (decide (timely q k)) as [H|H]; [left; intros ? ? ? [= <- <-] E2; rewrite E in E2; by injection E2 as <-|right; eauto].
    + left. intros ? ? ? [= <- <-]. congruence.
Defined.

Lemma shape_update ps i p k p' k' : shape ps -> ps !! i = Some (p, k) -> proc_ok p' k' -> grows p p' ->
  (forall v, victim k' = Some v -> exists q kv, ps !! v = Some (q, kv) /\ v <> i /\ thief_ok p' q k') ->
  shape (<[i := (p', k')]> ps).
Proof.
  intros [I1 I2] Hi Hp Hg Hv. assert (forall j x, <[i := (p', k')]> ps !! j = Some x -> j = i /\ x = (p', k') \/ j <> i /\ ps !! j = Some x) as Hl.
  { intros j x [(-> & <- & _)|[Hne Hj]]%list_lookup_insert_Some; [by left|right; by split]. }
  pose proof (lookup_lt_Some _ _ _ Hi) as Hlt. split.
  - intros j pj kj [[-> E]|[_ Hj]]%Hl; [by injection E as -> ->|by eapply I1].
  - intros j pj kj v Hj Ev. destruct (Hl _ _ Hj) as [[-> E]|[Hne Hj']].
    + injection E as -> ->. destruct (Hv v Ev) as (q & kv & Hq & Hvi & Ht). exists q, kv. rewrite list_lookup_insert_ne by done. done.
    + destruct (I2 j pj kj v Hj' Ev) as (q & kv & Hq & Hvj & Ht). destruct (decide (v = i)) as [->|Hvi].
      * rewrite Hi in Hq. injection Hq as -> ->. exists p', k'. rewrite list_lookup_insert_eq by done. split_and!; try done. eapply thief_ok_grows; [done|done|]. by apply (I1 j).
      * exists q, kv. rewrite list_lookup_insert_ne by done. done.
Qed.

Lemma inv_update c i p k p' k' out glob dput : inv c -> procs c !! i = Some (p, k) -> proc_ok p' k' -> grows p p' ->
  (forall v, victim k' = Some v -> exists q kv, procs c !! v = Some (q, kv) /\ v <> i /\ thief_ok p' q k') ->
  (forall g, occ g (owns (p, k)) + occ g dput = occ g (owns (p', k')) + occ g out + occ g glob) ->
  inv (mkConfig (<[i := (p', k')]> (procs c)) (globq c ++ glob) (put c ++ dput) (ran c ++ out)).
Proof.
  intros [Hs I3] Hi Hp Hg Hv Hc. split; cbn [procs put globq ran]; [by eapply shape_update|].
  intros g. rewrite !occ_app, (I3 g), (zsum_insert _ _ _ _ _ Hi). specialize (Hc g). lia.
Qed.

(** The owner begins a call. *)
Lemma inv_start c i p k' dput : inv c -> procs c !! i = Some (p, Idle) -> owner_ok p k' -> held p k' = dput -> Forall (fun g => g <> 0) dput ->
  (forall v, victim k' = Some v -> v <> i /\ is_Some (procs c !! v) /\ forall q, thief_ok p q k') ->
  inv (mkConfig (<[i := (p, k')]> (procs c)) (globq c) (put c ++ dput) (ran c)).
Proof.
  intros Hc Hi Ho Eh Hd Hv. pose proof (sh_procs _ (iv_shape _ Hc) i p Idle Hi) as [Hr _ _].
  rewrite <- (app_nil_r (globq c)), <- (app_nil_r (ran c)). eapply inv_update; [done|done| |apply grows_refl| |].
  - split; [done|done|by rewrite Eh].
  - intros v Ev. destruct (Hv v Ev) as (H1 & [[q kv] H2] & H3). exists q, kv. split_and!; try done.
  - intros g. rewrite !occ_owns, Eh. cbn [held]. rewrite occ_nil. lia.
Qed.

Lemma start_call_ok c i p a : inv c -> procs c !! i = Some (p, Idle) -> allowed c i a -> exists c', start_call c i p a = Some c' /\ inv c' /\ length (procs c') = length (procs c).
Proof.
  intros Hc Hi Ha. pose proof (sh_procs _ (iv_shape _ Hc) i p Idle Hi) as [Hr _ _]. pose proof (ri_order _ Hr) as Ho. pose proof (ri_room _ Hr) as Hroom.
  assert (forall k', owner_ok p k' -> held p k' = [] -> (forall v, victim k' = Some v -> v <> i /\ is_Some (procs c !! v) /\ forall q, thief_ok p q k') -> inv (set_proc c i (p, k'))) as Hstart.
  { intros k' H1 H2 H3. unfold set_proc. rewrite <- (app_nil_r (put c)). by apply inv_start. }
  assert (forall q r, (forall g, occ g (globq c) = occ g q + occ g (option_list r)) -> inv (mkConfig (procs c) q (put c) (ran c ++ option_list r))) as Hglob.
  { intros q r E. destruct Hc as [Hs I3]. split; cbn [procs put globq ran]; [done|]. intros g. rewrite (I3 g), occ_app, (E g). lia. }
  destruct a; cbn [start_call allowed] in *.
  - eexists. split; [done|]. split; [|cbn; by rewrite length_insert]. destruct next; apply inv_start; try done; by repeat constructor.
  - eexists. split; [done|]. split; [by apply Hstart|cbn; by rewrite length_insert].
  - destruct Ha as (Hvi & Hv & He). eexists. split; [done|]. split; [|cbn; by rewrite length_insert]. specialize (He _ _ Hi).
    assert (heads p = tails p) as E by (symmetry; apply wrap32_inj; [lia|done]). apply Hstart; try done. cbn. intros ? [= <-]. done.
  - eexists. split; [done|]. split; [|cbn; by rewrite length_insert]. destruct Ha. apply Hstart; try done. cbn. intros ? [= <-]. done.
  - eexists. split; [done|]. split; [|done]. destruct Hc as [Hs I3]. split; cbn [procs put globq ran]; [done|]. intros x. unfold globrunqput. rewrite !occ_app, (I3 x). lia.
  - unfold globrunqget_one. pose proof (fun g => scan_occ g (fun g => (locked_m g =? 0) || (locked_m g =? m_of i)) (length (globq c)) (globq c)) as Hsc.
    destruct (globrunq_scan _ _ _) as [q r]. eexists. split; [done|]. split; [by apply Hglob|done].
  - unfold globrunqget_locked_for_owner. pose proof (fun g => scan_occ g (fun g => locked_m g =? m_of i) (length (globq c)) (globq c)) as Hsc.
    destruct (globrunq_scan _ _ _) as [q r]. eexists. split; [done|]. split; [by apply Hglob|done].
  - by exists c.
Qed.

(** An access to another P. *)
Lemma inv_grab c i v p k q kv q' k' : inv c -> procs c !! i = Some (p, k) -> procs c !! v = Some (q, kv) -> v <> i -> victim k = Some v ->
  grabbed p k q q' k' -> inv (set_proc (set_proc c v (q', kv)) i (p, k')).
Proof.
  intros [Hs I3] Hi Hv Hne Ek [G1 G2 G3 G4 G5]. assert (<[v := (q', kv)]> (procs c) !! i = Some (p, k)) as Hi' by by rewrite list_lookup_insert_ne.
  pose proof (lookup_lt_Some _ _ _ Hv) as Hlt. split; cbn [procs put globq ran set_proc].
  - eapply shape_update; [|done|done|apply grows_refl|].
    + eapply shape_update; [done|done|eapply proc_ok_taken; [by eapply sh_procs|done]|by apply taken_grows|].
      intros w Ew. destruct (sh_thief _ Hs v q kv w Hv Ew) as (r & kr & Hr & Hwv & Ht). exists r, kr. split_and!; try done. by eapply thief_ok_own; [apply G1|apply G1|].
    + intros w Ew. destruct (G4 w Ew) as [Ew' Ht]. assert (w = v) as -> by congruence. exists q', kv. by rewrite list_lookup_insert_eq.
  - intros g. rewrite (zsum_insert _ _ _ _ _ Hi'), (zsum_insert _ _ _ _ _ Hv), (I3 g), !occ_owns. specialize (G5 g).
    rewrite (held_runq q q' kv) by apply G1. lia.
Qed.

(** An access to the own P. *)
Lemma inv_own c i p k p' k' out glob : inv c -> procs c !! i = Some (p, k) -> moved p k p' k' out glob ->
  inv (mkConfig (<[i := (p', k')]> (procs c)) (globrunqput_batch (globq c) glob) (put c) (ran c ++ out)).
Proof.
  intros Hc Hi [M1 M2 M3 M4 M5]. rewrite batch_app by done. rewrite <- (app_nil_r (put c)). eapply inv_update; [done|done|done|done| |].
  - intros v Ev. destruct (M3 v Ev) as [Ek Ht]. destruct (sh_thief _ (iv_shape _ Hc) i p k v Hi Ek) as (q & kv & Hq & Hvi & Hth). exists q, kv. auto.
  - intros g. rewrite occ_nil, (M5 g). lia.
Qed.

Lemma target_victim k v : target k = Some v -> victim k = Some v.
Proof. by destruct k. Qed.

Lemma go_ok c i p k sp : inv c -> procs c !! i = Some (p, k) -> k <> Idle -> allowed c i (Go sp) ->
  exists c', step c i (Go sp) = Some c' /\ inv c' /\ length (procs c') = length (procs c).
Proof.
  intros Hc Hi Hk Ha. pose proof (sh_procs _ (iv_shape _ Hc) i p k Hi) as Hp. cbn [allowed] in Ha. unfold step. rewrite Hi. cbn [mbind option_bind].
  destruct (target k) as [v|] eqn:Et.
  - destruct (sh_thief _ (iv_shape _ Hc) i p k v Hi (target_victim _ _ Et)) as (q & kv & Hq & Hvi & Hth).
    pose proof (sh_procs _ (iv_shape _ Hc) v q kv Hq) as Hpq.
    assert (timely q k) as Htm by (eapply Ha; [done|]; unfold watched; by rewrite (target_victim _ _ Et), Hq).
    destruct (grab_step_ok p k q v Hp (po_ring _ _ Hpq) Et Hth Htm) as (q' & k' & E & Hg).
    exists (set_proc (set_proc c v (q', kv)) i (p, k')). split; [|split; [by eapply inv_grab; try done; apply target_victim|by cbn; rewrite !length_insert]].
    destruct k; try done; rewrite Hq; cbn [mbind option_bind]; by rewrite E.
  - destruct (own_step_ok p k sp Hp) as (p' & k' & out & glob & E & Hm); [|done|done|].
    { intros Ev. eapply Ha; [done|]. unfold watched. by rewrite Ev. }
    eexists. split; [|split; [by eapply inv_own|by cbn; rewrite length_insert]].
    destruct k; try done; rewrite E; done.
Qed.

Lemma runq_step_ok c i a : inv c -> is_Some (procs c !! i) -> allowed c i a ->
  exists c', step c i a = Some c' /\ inv c' /\ length (procs c') = length (procs c).
Proof.
  intros Hc [[p k] Hi] Ha. assert (k = Idle \/ k <> Idle) as [->|Hk] by (destruct k; auto).
  - unfold step. rewrite Hi. cbn [mbind option_bind]. destruct a; by apply start_call_ok.
  - destruct a; try by eapply go_ok. all: exists c; split; [|done]; unfold step; rewrite Hi; cbn [mbind option_bind]; by destruct k.
Qed.

(** ** Reachable configurations *)

Inductive reachable (n : nat) : config -> Prop :=
| reach_start : reachable n (start n)
| reach_step c c' i a : reachable n c -> (i < n)%nat -> allowed c i a -> step c i a = Some c' -> reachable n c'.

Lemma p_new_ok : ring_ok p_new.
Proof. split; try done. intros k Hk. cbn in Hk. lia. Qed.

Lemma inv_init n : inv (start n).
Proof.
  assert (forall i p k, procs (start n) !! i = Some (p, k) -> p = p_new /\ k = Idle) as Hl by (intros i p k [E _]%lookup_replicate; by injection E).
  split; [split|].
  - intros i p k [-> ->]%Hl. split; [apply p_new_ok|done|constructor].
  - intros i p k v [-> ->]%Hl. done.
  - intros g. cbn [put globq ran start procs]. rewrite zsum_replicate, occ_nil by done. lia.
Qed.

Lemma runq_reachable_inv n c : reachable n c -> inv c /\ length (procs c) = n.
Proof.
  induction 1 as [|c c' i a _ [IH Hl] Hi Ha E]; [split; [apply inv_init|by apply length_replicate]|].
  destruct (runq_step_ok c i a IH) as (d & E' & Hd & Hdl); [by apply lookup_lt_is_Some; lia|done|]. rewrite E in E'. injection E' as <-. split; [done|lia].
Qed.

Lemma occ_concat {A} (f : A -> list Z) g : forall l, occ g (concat (map f l)) = zsum (fun x => occ g (f x)) l.
Proof. induction l as [|x l IH]; [done|]. cbn [map concat zsum]. by rewrite occ_app, IH. Qed.

Lemma occ_perm l l' : (forall g, occ g l = occ g l') -> Permutation l l'.
Proof. intros H. apply (Permutation_count_occ Z.eq_dec). intros g. specialize (H g). unfold occ in H. lia. Qed.

(** C8: In every interleaving of puts, gets, steals and spills, every step an owner may make is
    defined (the assertions of [runqputslow] and [runqsteal] hold, no index is out of range), and
    the goroutines ever made runnable are exactly those in the rings and [runnext] slots, in the
    hands of an owner in the middle of a call, in the global queue, or handed out to run: none is
    lost and none is handed out twice. *)
Theorem runq_conserves n c : reachable n c ->
  (forall i a, (i < n)%nat -> allowed c i a -> is_Some (step c i a)) /\
  Permutation (put c) (concat (map owns (procs c)) ++ globq c ++ ran c).
Proof.
  intros [Hc Hl]%runq_reachable_inv. split.
  - intros i a Hi Ha. destruct (runq_step_ok c i a Hc) as (c' & -> & _); [by apply lookup_lt_is_Some; lia|done|done].
  - apply occ_perm. intros g. rewrite !occ_app, occ_concat, (iv_count _ Hc g). lia.
Qed.

(** A schedule: which owner does what, in order; a step that is not allowed stops it. *)
Fixpoint run (n : nat) (c : config) (l : list (nat * action)) : option config :=
  match l with
  | [] => Some c
  | (i, a) :: l => if decide ((i < n)%nat /\ allowed c i a) then c' ← step c i a; run n c' l else None
  end.

Lemma run_reachable n : forall l c c', reachable n c -> run n c l = Some c' -> reachable n c'.
Proof.
  induction l as [|[i a] l IH]; intros c c' Hc E; cbn [run] in E; [by injection E as <-|].
  destruct (decide _) as [[Hi Ha]|]; [|done]. destruct (step c i a) as [d|] eqn:Ed; [|done]. cbn in E. eapply IH; [|done]. by eapply reach_step.
Qed.

Definition go (i n : nat) : list (nat * action) := replicate n (i, Go false).

(** Owner 0 puts a goroutine in the ring. *)
Definition put_ring (g : Z) : list (nat * action) := (0%nat, StartPut g false) :: go 0 4.

(** Owner 1 copies two of three goroutines, loses the race to owner 0's [runqget], and steals one
    of the two left; owner 0 then overflows its ring into the global queue and takes from there. *)
Definition race : list (nat * action) :=
  concat (map put_ring [10; 11; 12]) ++ (1%nat, StartSteal 0 true) :: go 1 6 ++ (0%nat, StartGet) :: go 0 5 ++ go 1 7 ++
  concat (map put_ring (seqZ 20 256)) ++ go 0 128 ++ [(0%nat, GlobGet (fun _ => 0))].

Lemma runq_conserves_witness : exists c, run 2 (start 2) race = Some c /\ ran c = [10; 11; 12] /\ globq c = seqZ 20 127 ++ [275] /\
  (forall i a, (i < 2)%nat -> allowed c i a -> is_Some (step c i a)) /\ Permutation (put c) (concat (map owns (procs c)) ++ globq c ++ ran c).
Proof.
  assert ((fun c => (ran c, globq c)) <$> run 2 (start 2) race = Some ([10; 11; 12], seqZ 20 127 ++ [275])) as Hr by (vm_compute; reflexivity).
  destruct (run 2 (start 2) race) as [c|] eqn:E; [|discriminate]. injection Hr as Hr1 Hr2. exists c. split; [done|]. split; [exact Hr1|]. split; [exact Hr2|].
  apply runq_conserves. exact (run_reachable 2 race (start 2) c (reach_start 2) E).
Defined.

(** ** An owner by itself *)

(** A call with no thief about, to its end. *)
Fixpoint alone (fuel : nat) (p : P) (k : pc) : option (P * list Z * list Z) :=
  match fuel, k with
  | _, Idle => Some (p, [], [])
  | O, _ => None
  | S fuel, k =>
      '(p, k, out, glob) ← own_step p k false;
      '(p, out', glob') ← alone fuel p k;
      Some (p, out ++ out', glob ++ glob')
  end.

(** The queue a P is meant to be: a line of goroutines and one that runs before them. *)
Definition line (p : P) : list Z * Z := (contents p, runnext p).

Definition push (q : list Z) (g : Z) : list Z * list Z :=
  if decide (zlen q < 256) then (q ++ [g], []) else (drop 128 q, take 128 q ++ [g]).

Definition line_put (g : Z) (next : bool) (l : list Z * Z) : list Z * Z * list Z :=
  let '(q, r) := l in
  if next then (if decide (r = 0) then (q, g, []) else let '(q, glob) := push q r in (q, g, glob))
  else let '(q, glob) := push q g in (q, r, glob).

Definition line_get (l : list Z * Z) : list Z * Z * list Z :=
  let '(q, r) := l in
  if decide (r <> 0) then (q, 0, [r]) else match q with [] => ([], 0, []) | g :: q => (q, 0, [g]) end.

Lemma alone_S fuel p k p' k' p'' out out' glob glob' : k <> Idle -> own_step p k false = Some (p', k', out, glob) ->
  alone fuel p' k' = Some (p'', out', glob') -> alone (S fuel) p k = Some (p'', out ++ out', glob ++ glob').
Proof. intros Hk E E'. destruct k; try done; cbn [alone]; rewrite E; cbn [mbind option_bind]; by rewrite E'. Qed.

Lemma alone_silent fuel p k p' k' r : k <> Idle -> own_step p k false = Some (p', k', [], []) -> alone fuel p' k' = Some r -> alone (S fuel) p k = Some r.
Proof. destruct r as [[p'' out] glob]. intros Hk E E'. by apply (alone_S _ _ _ _ _ _ [] out [] glob Hk E). Qed.

Lemma alone_global p batch : alone 1 p (SlowGlobal batch) = Some (p, [], batch).
Proof. cbn. by rewrite app_nil_r. Qed.

Lemma alone_more p k r : forall fuel, alone fuel p k = Some r -> forall m, (fuel <= m)%nat -> alone m p k = Some r.
Proof.
  intros fuel. revert p k r. induction fuel as [|fuel IH]; intros p k r E m Hm; [by destruct k, m|]. destruct m as [|m]; [lia|].
  destruct k; try done; cbn [alone] in *; destruct (own_step p _ false) as [[[[p' k'] out] glob]|]; try done; cbn [mbind option_bind] in *;
    (destruct (alone fuel p' k') as [[[p'' out'] glob']|] eqn:E'; [|done]); rewrite (IH _ _ _ E' m) by lia; done.
Qed.

(** The owner's last load of its head is current. *)
Definition fresh (p : P) (k : pc) : Prop :=
  match k with
  | PutTail _ h | SlowCopy _ h _ _ | SlowCas _ h _ _ | GetTail h | GetRead h | GetCas h _ => h = heads p
  | GrabNextWrite _ | StealTake _ | StealHead _ _ | StealStore _ _ => False
  | k => victim k = None
  end.

Lemma fresh_step p k p' k' out glob : fresh p k -> own_step p k false = Some (p', k', out, glob) -> fresh p' k'.
Proof.
  intros Hf E. destruct k; try done; cbn [own_step steal_step fresh] in *; repeat case_decide; simplify_option_eq; try done.
  all: repeat case_decide; done.
Qed.

Lemma alone_ok : forall fuel p k p' out glob, proc_ok p k -> fresh p k -> alone fuel p k = Some (p', out, glob) ->
  ring_ok p' /\ Forall (fun g => g <> 0) glob /\ forall g, occ g (owns (p, k)) = occ g (public p') + occ g out + occ g glob.
Proof.
  assert (forall p, proc_ok p Idle -> ring_ok p /\ Forall (fun g => g <> 0) (@nil Z) /\ forall g, occ g (owns (p, Idle)) = occ g (public p) + occ g [] + occ g []) as Hidle.
  { intros p Hp. split_and!; [apply Hp|constructor|]. intros g. rewrite occ_owns. cbn [held]. rewrite occ_nil. lia. }
  induction fuel as [|fuel IH]; intros p k p' out glob Hp Hf E; [destruct k; try done; injection E as <- <- <-; by apply Hidle|].
  assert (k = Idle \/ k <> Idle) as [->|Hk] by (destruct k; auto); [injection E as <- <- <-; by apply Hidle|].
  destruct (own_step_ok p k false Hp) as (p1 & k1 & out1 & glob1 & E1 & [M1 M2 M3 M4 M5]); [|by destruct k|done|].
  { intros _ h Eh. destruct k; try done; injection Eh as <-; cbn in Hf; lia. }
  assert (alone (S fuel) p k = ('(p, out', glob') ← alone fuel p1 k1; Some (p, out1 ++ out', glob1 ++ glob'))) as Ea by (destruct k; try done; cbn [alone]; by rewrite E1).
  rewrite Ea in E. destruct (alone fuel p1 k1) as [[[p2 out2] glob2]|] eqn:E2; [|done]. injection E as <- <- <-.
  destruct (IH p1 k1 p2 out2 glob2 M1 (fresh_step _ _ _ _ _ _ Hf E1) E2) as (H1 & H2 & H3). split_and!; [done|by apply Forall_app|]. intros g. rewrite (M5 g), (H3 g), !occ_app. lia.
Qed.

Lemma alone_copy p g n r : ring_ok p -> alone n p (SlowCas g (heads p) 128 (window p (heads p) 128)) = Some r ->
  forall m j, 0 <= j -> j + Z.of_nat m = 127 -> alone (S m + n) p (SlowCopy g (heads p) 128 (window p (heads p) j)) = Some r.
Proof.
  intros Hr E m. induction m as [|m IH]; intros j Hj Hm; cbn [Nat.add].
  all: eapply alone_silent; [done|cbn [own_step steal_step]; rewrite slot_get_ok by apply Hr; cbn [mbind option_bind]; rewrite window_length by done; rewrite <- window_snoc by done; rewrite window_length by lia; reflexivity|].
  - rewrite decide_False by lia. by replace (j + 1) with 128 by lia.
  - rewrite decide_True by lia. apply IH; lia.
Qed.

Lemma contents_length p : ring_ok p -> zlen (contents p) = tails p - heads p.
Proof. intros [_ H _ _]. apply window_length. lia. Qed.

Lemma window_take p a n m : 0 <= n <= m -> take (Z.to_nat n) (window p a m) = window p a n /\ drop (Z.to_nat n) (window p a m) = window p (a + n) (m - n).
Proof.
  intros Hn. pose proof (window_length p a n ltac:(lia)) as Hl. unfold zlen in Hl. rewrite (window_split p a n m) by done. split.
  - apply take_app_length'. lia.
  - apply drop_app_length'. lia.
Qed.

Lemma push_room p g : ring_ok p -> tails p < heads p + 256 ->
  exists p', alone 4 p (PutHead g) = Some (p', [], []) /\ contents p' = contents p ++ [g] /\ runnext p' = runnext p.
Proof.
  intros Hr Hlt. destruct (write_outside p (tails p) g Hr ltac:(lia)) as (p' & E & _ & _ & Eh & Et & _ & Hs). pose proof (ri_order _ Hr).
  assert (runnext p' = runnext p) as En by (destruct (slot_set_ok p (tails p) g (ri_len _ Hr)) as (q & E' & _); rewrite E in E'; by injection E' as ->).
  exists (set_tails p' (tails p + 1)). split_and!; [|unfold contents; cbn [heads tails set_tails]|done].
  - eapply alone_silent; [done|reflexivity|]. eapply alone_silent; [done|cbn [own_step steal_step]|].
    { rewrite wsub_small by lia. rewrite decide_True by (unfold LOCAL_RUNQ_SIZE; lia). reflexivity. }
    eapply alone_silent; [done|cbn [own_step steal_step]; rewrite E; reflexivity|]. by eapply alone_silent.
  - rewrite (window_runq p' (set_tails p' (tails p + 1))) by done. rewrite Eh. replace (tails p + 1 - heads p) with (tails p - heads p + 1) by lia.
    rewrite window_snoc by lia. f_equal; [apply window_ext; intros j Hj; rewrite Hs, decide_False by lia; done|]. rewrite Hs, decide_True by lia. done.
Qed.

Lemma push_full p g : ring_ok p -> tails p = heads p + 256 ->
  exists p', alone 132 p (PutHead g) = Some (p', [], window p (heads p) 128 ++ [g]) /\ contents p' = window p (heads p + 128) 128 /\ runnext p' = runnext p.
Proof.
  intros Hr Ht. exists (set_heads p (heads p + 128)). split_and!; [| |done].
  - eapply alone_silent; [done|reflexivity|]. eapply alone_silent; [done|cbn [own_step steal_step]|].
    { rewrite wsub_small by lia. rewrite decide_False, decide_True by (unfold LOCAL_RUNQ_SIZE; lia). reflexivity. }
    replace ((tails p - heads p) / 2) with 128 by lia. change (@nil Z) with (window p (heads p) 0) at 1. apply (alone_copy p g 2 _ Hr) with (m := 127%nat); try lia.
    eapply alone_silent; [done|cbn [own_step steal_step]; rewrite decide_True by done; reflexivity|]. apply alone_global.
  - unfold contents. cbn [heads tails set_heads]. rewrite (window_runq p) by done. f_equal. lia.
Qed.

Lemma push_alone p g : ring_ok p ->
  exists p' glob, alone 132 p (PutHead g) = Some (p', [], glob) /\ (contents p', glob) = push (contents p) g /\ runnext p' = runnext p.
Proof.
  intros Hr. pose proof (ri_order _ Hr). pose proof (ri_room _ Hr). unfold push. rewrite contents_length by done. destruct (decide (tails p - heads p < 256)) as [Hlt|Hge].
  - destruct (push_room p g Hr ltac:(lia)) as (p' & E & Ec & En). exists p', []. split_and!; [eapply alone_more; [exact E|lia]|by rewrite Ec|done].
  - destruct (push_full p g Hr ltac:(lia)) as (p' & E & Ec & En). exists p', (window p (heads p) 128 ++ [g]). split_and!; try done.
    destruct (window_take p (heads p) 128 (tails p - heads p) ltac:(lia)) as [E1 E2]. rewrite Ec. unfold contents. change 128%nat with (Z.to_nat 128). rewrite E1, E2. do 2 f_equal. lia.
Qed.

Lemma pop_alone p : ring_ok p -> exists p' out, alone 4 p GetHead = Some (p', out, []) /\ contents p = out ++ contents p' /\
  out = match contents p with [] => [] | g :: _ => [g] end /\ runnext p' = runnext p.
Proof.
  intros Hr. destruct (ri_order _ Hr) as [H0 [Hlt|He]%Zle_lt_or_eq].
  - pose proof (ri_full _ Hr (heads p) ltac:(lia)) as Hnz. pose proof (contents_heads p 1 ltac:(lia)) as Ec. rewrite window_cons, window_nil in Ec by lia.
    exists (set_heads p (heads p + 1)), [slot p (heads p)]. split_and!; [|done|by rewrite Ec|done].
    eapply alone_silent; [done|reflexivity|]. eapply alone_silent; [done|cbn [own_step steal_step]; rewrite decide_False; [reflexivity|]|].
    { intros E%wrap32_inj; pose proof (ri_room _ Hr); lia. }
    eapply alone_silent; [done|cbn [own_step steal_step]; rewrite slot_get_ok by apply Hr; reflexivity|].
    change [slot p (heads p)] with ([slot p (heads p)] ++ []). eapply (alone_S _ _ _ _ _ _ _ _ [] []); [done|cbn [own_step steal_step]; rewrite decide_True, !decide_False by done; reflexivity|done].
  - exists p, []. assert (contents p = []) as Ec by (unfold contents; rewrite window_nil by lia; done). rewrite Ec. split_and!; try done.
    eapply alone_silent; [done|reflexivity|]. eapply alone_silent; [done|cbn [own_step steal_step]; rewrite decide_True by (by rewrite He); reflexivity|done].
Qed.

Lemma push_line p x : ring_ok p ->
  exists p' glob, alone 132 p (PutHead x) = Some (p', [], glob) /\ (line p', glob) = (let '(q, glob) := push (contents p) x in (q, runnext p, glob)).
Proof. intros Hr. destruct (push_alone p x Hr) as (p' & glob & E & Ec & En). exists p', glob. split; [done|]. rewrite <- Ec. unfold line. by rewrite En. Qed.

Lemma put_line p g (next : bool) : ring_ok p ->
  exists p' glob, alone 134 p (if next then PutNext g else PutHead g) = Some (p', [], glob) /\ (line p', glob) = line_put g next (line p).
Proof.
  intros Hr. unfold line at 2. cbn [line_put]. destruct next; [|destruct (push_line p g Hr) as (p' & glob & E & El); exists p', glob; split; [by eapply alone_more; [exact E|lia]|done]].
  destruct (push_line (set_runnext p g) (runnext p) (ring_next _ _ Hr)) as (p' & glob & E & El).
  destruct (decide (runnext p = 0)) as [Hz|Hz]; [exists (set_runnext p g), []|exists p', glob]; (split; [|done]);
    (eapply alone_silent; [done|reflexivity|]); (eapply alone_silent; [done|cbn [own_step steal_step]; rewrite decide_True by done; reflexivity|]); by rewrite ?decide_True, ?decide_False by done.
Qed.

Lemma get_line p : ring_ok p -> exists p' out, alone 6 p GetNext = Some (p', out, []) /\ (line p', out) = line_get (line p).
Proof.
  intros Hr. unfold line at 2. cbn [line_get]. destruct (decide (runnext p <> 0)) as [Hz|Hz].
  - exists (set_runnext p 0), [runnext p]. split; [|done]. eapply alone_silent; [done|cbn [own_step steal_step]; rewrite decide_True by done; reflexivity|].
    apply (alone_S _ _ _ (set_runnext p 0) Idle _ [runnext p] [] [] []); [done|cbn [own_step steal_step]; by rewrite decide_True by done|done].
  - destruct (pop_alone p Hr) as (p' & out & E & Ec & Eo & En). exists p', out. split.
    + eapply alone_silent; [done|cbn [own_step steal_step]; rewrite decide_False by done; reflexivity|]. eapply alone_more; [exact E|lia].
    + assert (runnext p = 0) as Hz' by (destruct (decide (runnext p = 0)); [done|by destruct Hz]). unfold line. rewrite En, Hz'.
      destruct (contents p); subst out; [cbn in Ec; by rewrite <- Ec|]. by injection Ec as ->.
Qed.

(** C25: Without thieves a P is a queue of at most 256 goroutines with one to run first: [runqput]
    appends (the goroutine, or the one it displaces from [runnext]), or, when the ring is full,
    moves its older half and the goroutine to the global queue; [runqget] hands out [runnext], then
    the oldest.  Both end, within 134 and 6 accesses. *)
Theorem runq_alone p g (next : bool) : ring_ok p -> g <> 0 ->
  (exists p' glob, alone 134 p (if next then PutNext g else PutHead g) = Some (p', [], glob) /\ ring_ok p' /\ (line p', glob) = line_put g next (line p)) /\
  (exists p' out, alone 6 p GetNext = Some (p', out, []) /\ ring_ok p' /\ (line p', out) = line_get (line p)).
Proof.
  intros Hr Hg. split.
  - destruct (put_line p g next Hr) as (p' & glob & E & El). exists p', glob. split_and!; try done. eapply alone_ok; [| |exact E]; destruct next; try done; split; try done; by repeat constructor.
  - destruct (get_line p Hr) as (p' & out & E & El). exists p', out. split_and!; try done. eapply alone_ok; [| |exact E]; try done; by split.
Qed.

(** A ring that is full, at counts about to wrap. *)
Definition full_p : P := mkP (2 ^ 32 - 100) (2 ^ 32 + 156) (map (fun i => i + 1) (seqZ 0 256)) 7.

Lemma full_p_ok : ring_ok full_p.
Proof.
  split; [done|cbn; lia|cbn; lia|]. intros k Hk. change (slot full_p k) with (default 0 (idx (map (fun i => i + 1) (seqZ 0 256)) (k mod 256))).
  assert (0 <= k mod 256 < 256) as Hm by lia. destruct (idx_lt (map (fun i => i + 1) (seqZ 0 256)) (k mod 256)) as [y Ey]; [done|]. rewrite Ey.
  assert (Forall (fun y => y <> 0) (map (fun i => i + 1) (seqZ 0 256))) as Hf by (apply (bool_decide_unpack (Forall (fun y => y <> 0) _)); vm_compute; exact I).
  apply idx_Some in Ey as [_ Ey]. rewrite Forall_lookup in Hf. by eapply Hf.
Qed.

Lemma runq_alone_witness : ring_ok full_p /\
  (fun r => (heads r.1.1, tails r.1.1, runnext r.1.1, r.2)) <$> alone 134 full_p (PutNext 9) = Some (2 ^ 32 + 28, 2 ^ 32 + 156, 9, seqZ 157 100 ++ seqZ 1 28 ++ [7]) /\
  exists p' glob, alone 134 full_p (PutNext 9) = Some (p', [], glob) /\ ring_ok p' /\ (line p', glob) = line_put 9 true (line full_p).
Proof.
  split; [apply full_p_ok|]. split; [vm_compute; reflexivity|]. apply (runq_alone full_p 9 true full_p_ok). lia.
Defined.
