(* ===== verification/StealOrder.v ===== *)
(** The random order in which an M looks for work on the other Ps: [RandomOrder] and [RandomEnum]
    of src/src/runtime/sched/p.rs.  The words are 32-bit; [None] is a panic. *)
From Stdlib Require Import ZArith Lia List Znumtheory.
From stdpp Require Import base tactics numbers list list_numbers option.
From S2P Require Import Prelude.
Open Scope Z_scope.

Definition MAX_PS : Z := 256.

Record RandomOrder := mkRandomOrder { ro_count : Z; coprime_count : Z; coprimes : list Z }.

Definition random_order_new : RandomOrder := mkRandomOrder 0 0 (replicate (Z.to_nat MAX_PS) 0).

(** [while b != 0] of [gcd]; [b] goes down at each turn. *)
Fixpoint gcd_loop (fuel : nat) (a b : Z) : option Z :=
  match fuel with
  | O => None
  | S fuel => if decide (b <> 0) then gcd_loop fuel b (a mod b) else Some a
  end.

Definition gcd (a b : Z) : option Z := gcd_loop (S (Z.to_nat b)) a b.

(** [while i <= count && k < MAX_PS] of [reset]. *)
Fixpoint reset_loop (fuel : nat) (count i k : Z) (buf : list Z) : option (Z * list Z) :=
  match fuel with
  | O => None
  | S fuel =>
      if decide (i <= count /\ k < MAX_PS) then
        d ← gcd i count;
        if decide (d = 1) then buf ← upd buf k i; reset_loop fuel count (i + 1) (k + 1) buf
        else reset_loop fuel count (i + 1) k buf
      else Some (k, buf)
  end.

Definition reset (r : RandomOrder) (count : Z) : option RandomOrder :=
  let count := Z.min count MAX_PS in
  '(k, buf) ← reset_loop (S (Z.to_nat count)) count 1 0 (coprimes r);
  Some (mkRandomOrder count k buf).

Record RandomEnum := mkRandomEnum { re_i : Z; re_count : Z; re_pos : Z; re_inc : Z }.

Definition start (r : RandomOrder) (seed : Z) : option RandomEnum :=
  if decide (ro_count r = 0 \/ coprime_count r = 0) then Some (mkRandomEnum 0 0 0 1)
  else
    inc ← idx (coprimes r) ((seed / ro_count r) mod coprime_count r);
    Some (mkRandomEnum 0 (ro_count r) (seed mod ro_count r) inc).

Definition done (e : RandomEnum) : bool := re_i e =? re_count e.

(** The additions are checked, as is the division. *)
Definition next (e : RandomEnum) : option RandomEnum :=
  if decide (re_i e + 1 < 2 ^ 32 /\ re_pos e + re_inc e < 2 ^ 32 /\ re_count e <> 0)
  then Some (mkRandomEnum (re_i e + 1) (re_count e) ((re_pos e + re_inc e) mod re_count e) (re_inc e)) else None.

Definition position (e : RandomEnum) : Z := re_pos e.

(** The positions an enumeration yields to its end: [while !e.done() { .. e.next() }]. *)
Fixpoint visits (fuel : nat) (e : RandomEnum) : option (list Z) :=
  if done e then Some []
  else match fuel with
       | O => None
       | S fuel => e' ← next e; l ← visits fuel e'; Some (position e :: l)
       end.

(** ** The coprimes *)

Lemma gcd_loop_ok : forall fuel a b, 0 <= b -> 0 <= a -> b < Z.of_nat fuel -> gcd_loop fuel a b = Some (Z.gcd a b).
Proof.
  induction fuel as [|fuel IH]; intros a b Hb Ha Hf; [lia|]. cbn [gcd_loop]. destruct (decide (b <> 0)) as [Hz|Hz].
  - pose proof (Z.mod_pos_bound a b ltac:(lia)) as Hm. rewrite IH by lia. f_equal. rewrite Z.gcd_comm, Z.gcd_mod by done. apply Z.gcd_comm.
  - assert (b = 0) as -> by lia. by rewrite Z.gcd_0_r, Z.abs_eq.
Qed.

Lemma gcd_ok a b : 0 <= a -> 0 <= b -> gcd a b = Some (Z.gcd a b).
Proof. intros Ha Hb. apply gcd_loop_ok; lia. Qed.

(** The table holds coprimes of [count] up to [k]. *)
Definition coprime_table (count k : Z) (buf : list Z) : Prop :=
  zlen buf = MAX_PS /\ forall j, 0 <= j < k -> exists x, idx buf j = Some x /\ 1 <= x <= count /\ Z.gcd x count = 1.

Lemma coprime_table_snoc count k buf x : coprime_table count k buf -> 0 <= k < MAX_PS -> 1 <= x <= count -> Z.gcd x count = 1 ->
  exists buf', upd buf k x = Some buf' /\ coprime_table count (k + 1) buf'.
Proof.
  intros [Hl Ht] Hk Hx Hg. rewrite upd_Some by lia. eexists. split; [done|]. split; [by rewrite zlen_insert|]. intros j Hj. rewrite idx_insert by lia.
  destruct (decide _) as [Ej|Ej]; [by exists x|apply Ht; lia].
Qed.

Lemma reset_loop_ok count : 0 <= count <= MAX_PS -> forall fuel i k buf, count + 1 - i < Z.of_nat fuel -> i <= count + 1 -> 0 <= k < i -> coprime_table count k buf ->
  exists k' buf', reset_loop fuel count i k buf = Some (k', buf') /\ k <= k' /\ coprime_table count k' buf' /\ (i <= 1 <= count -> 1 <= k').
Proof.
  intros Hc. unfold MAX_PS in Hc. induction fuel as [|fuel IH]; intros i k buf Hf Hi Hk Ht; cbn [reset_loop]; [lia|].
  destruct (decide (i <= count /\ k < MAX_PS)) as [[Hic Hkm]|Hend]; [|unfold MAX_PS in Hend; exists k, buf; split_and!; (done || lia)].
  rewrite gcd_ok by lia. cbn [mbind option_bind]. destruct (decide (Z.gcd i count = 1)) as [Hg|Hg].
  - destruct (coprime_table_snoc count k buf i Ht) as (buf1 & -> & Ht1); [lia|lia|done|]. cbn [mbind option_bind].
    destruct (IH (i + 1) (k + 1) buf1) as (k' & buf' & E & Hk' & Ht' & _); [lia|lia|lia|done|]. exists k', buf'. split_and!; try done; lia.
  - destruct (IH (i + 1) k buf) as (k' & buf' & E & Hk' & Ht' & _); [lia|lia|lia|done|]. exists k', buf'. split_and!; try done. intros H1.
    assert (i = 1) as -> by lia. by rewrite Z.gcd_1_l in Hg.
Qed.

Definition order_ok (r : RandomOrder) (n : Z) : Prop :=
  ro_count r = n /\ 0 <= n <= MAX_PS /\ coprime_table n (coprime_count r) (coprimes r) /\ (1 <= n -> 1 <= coprime_count r).

Lemma reset_ok r n : zlen (coprimes r) = MAX_PS -> 0 <= n -> exists r', reset r n = Some r' /\ order_ok r' (Z.min n MAX_PS).
Proof.
  intros Hl Hn. unfold reset. destruct (reset_loop_ok (Z.min n MAX_PS) ltac:(unfold MAX_PS; lia) (S (Z.to_nat (Z.min n MAX_PS))) 1 0 (coprimes r)) as (k & buf & -> & Hk & Ht & H1).
  - unfold MAX_PS in *. lia.
  - unfold MAX_PS in *. lia.
  - lia.
  - split; [done|]. intros j Hj. lia.
  - cbn [mbind option_bind]. eexists. split; [done|]. split_and!; try done; unfold MAX_PS in *; try lia. intros H. apply H1. lia.
Qed.

(** ** The enumeration *)

(** The positions from [pos] on. *)
Definition walk (n inc pos : Z) (m : nat) : list Z := map (fun j => (pos + j * inc) mod n) (seqZ 0 (Z.of_nat m)).

Lemma walk_S n inc pos m : 0 <= pos < n -> walk n inc pos (S m) = pos :: walk n inc ((pos + inc) mod n) m.
Proof.
  intros Hp. unfold walk. rewrite seqZ_cons by lia. cbn [map]. rewrite Z.mod_small by lia. f_equal; [lia|].
  replace (Z.pred (Z.of_nat (S m))) with (Z.of_nat m) by lia. apply list_eq. intros i. rewrite !list_lookup_fmap. destruct (decide (Z.of_nat i < Z.of_nat m)) as [Hi|Hi].
  - rewrite !lookup_seqZ_lt by lia. cbn -[Z.add Z.mul]. rewrite Zplus_mod_idemp_l. do 2 f_equal. lia.
  - by rewrite !lookup_seqZ_ge by lia.
Qed.

Lemma visits_walk n inc : 1 <= n <= MAX_PS -> 1 <= inc <= n -> forall m pos, 0 <= pos < n -> Z.of_nat m <= n ->
  visits m (mkRandomEnum (n - Z.of_nat m) n pos inc) = Some (walk n inc pos m).
Proof.
  unfold MAX_PS. intros Hn Hi. induction m as [|m IH]; intros pos Hp Hm; cbn [visits].
  { unfold done. cbn. by rewrite (proj2 (Z.eqb_eq _ _)) by lia. }
  unfold done. cbn [re_i re_count]. rewrite (proj2 (Z.eqb_neq _ _)) by lia. unfold next. cbn [re_i re_count re_pos re_inc]. rewrite decide_True by lia. cbn [mbind option_bind].
  replace (n - Z.of_nat (S m) + 1) with (n - Z.of_nat m) by lia. rewrite IH by lia. cbn [mbind option_bind]. unfold position. cbn [re_pos]. by rewrite walk_S.
Qed.

Lemma walk_perm n inc pos : 1 <= n -> Z.gcd inc n = 1 -> Permutation (walk n inc pos (Z.to_nat n)) (seqZ 0 n).
Proof.
  intros Hn Hg. unfold walk. replace (Z.of_nat (Z.to_nat n)) with n by lia. apply NoDup_Permutation_bis.
  - apply NoDup_ListNoDup, NoDup_fmap_2_strong; [|apply NoDup_seqZ]. intros x y Hx Hy E. rewrite elem_of_seqZ in Hx, Hy.
    assert ((n | inc * (x - y))) as Hd.
    { apply Z.mod_divide; [lia|]. replace (inc * (x - y)) with (pos + x * inc - (pos + y * inc)) by lia. rewrite Zminus_mod, E, Z.sub_diag. done. }
    apply Gauss in Hd; [|apply rel_prime_sym, Zgcd_1_rel_prime; done]. destruct Hd as [q Hq]. assert (q = 0) as -> by (clear - Hq Hx Hy; destruct (Z.lt_trichotomy q 0) as [?|[?|?]]; nia). lia.
  - rewrite length_map. done.
  - intros x Hx. apply in_map_iff in Hx as (j & <- & _). apply list_elem_of_In, elem_of_seqZ. pose proof (Z.mod_pos_bound (pos + j * inc) n). lia.
Qed.

Lemma start_visits r n seed : order_ok r n -> 0 <= seed < 2 ^ 32 ->
  exists e l, start r seed = Some e /\ visits (Z.to_nat n) e = Some l /\ Permutation l (seqZ 0 n).
Proof.
  intros (Hc & Hn & [Hl Ht] & H1) Hs. unfold start. rewrite Hc. destruct (decide (n = 0 \/ coprime_count r = 0)) as [Hz|Hz].
  { assert (n = 0) as -> by lia. by eexists _, []. }
  destruct (Ht ((seed / n) mod coprime_count r)) as (inc & E & Hi & Hg); [apply Z.mod_pos_bound; lia|]. rewrite E. cbn [mbind option_bind].
  pose proof (Z.mod_pos_bound seed n ltac:(lia)) as Hp. eexists _, (walk n inc (seed mod n) (Z.to_nat n)). split; [done|]. split; [|apply walk_perm; [lia|done]].
  rewrite <- visits_walk by lia. do 2 f_equal. lia.
Qed.

(** C26: After [reset(count)] an enumeration from any seed ends and visits each of the Ps exactly
    once: nothing overflows, no index is out of range, the increment chosen is coprime to the
    number of Ps. *)
Theorem steal_order_visits_all count seed : 0 <= count -> 0 <= seed < 2 ^ 32 ->
  exists r e l, reset random_order_new count = Some r /\ start r seed = Some e /\
    visits (Z.to_nat (Z.min count MAX_PS)) e = Some l /\ Permutation l (seqZ 0 (Z.min count MAX_PS)).
Proof.
  intros Hc Hs. destruct (reset_ok random_order_new count eq_refl Hc) as (r & E & Hr). destruct (start_visits r _ seed Hr Hs) as (e & l & H). by exists r, e, l.
Qed.

Lemma steal_order_visits_all_witness :
  (r ← reset random_order_new 6; e ← start r 10; visits 6 e) = Some [4; 3; 2; 1; 0; 5] /\
  exists r e l, reset random_order_new 6 = Some r /\ start r 10 = Some e /\ visits 6 e = Some l /\ Permutation l (seqZ 0 6).
Proof. split; [vm_compute; reflexivity|]. apply (steal_order_visits_all 6 10); lia. Defined.
