(* ===== verification/FindWork.v ===== *)
(** Looking for work: [enqueue_runnable], [find_runnable] and [steal_work] of
    src/src/runtime/sched/scheduler.rs over the run queues and the steal order, and [cheaprand] of
    src/src/runtime/rand.rs.

    One M acts while the others are between calls, so each call runs to its end; the
    interleavings are in [RunQueueSpec].  Wake-ups of other Ms are not part of the state.
    [Panic] stands for an index out of range or a loop out of fuel, [Exit 2] for the abort of
    [enqueue_runnable] before the scheduler runs. *)
From Stdlib Require Import ZArith Lia List.
From stdpp Require Import base tactics numbers list list_numbers option.
From S2P Require Import Prelude Outcome Threads RunQueue RunQueueSpec StealOrder.
Open Scope Z_scope.

(** ** The random numbers *)

Definition K1 : Z := 11562461410679940143.
Definition K2 : Z := 16646288086500911323.

(** [cheaprand] and [cheaprandn] on the 64-bit state. *)
Definition cheaprand (state : Z) : Z * Z :=
  let new := wrap64 (state + K1) in
  let prod := new * Z.lxor new K2 in
  (new, wrap32 (Z.lxor (Z.shiftr prod 64) (wrap64 prod))).

Definition cheaprandn (state n : Z) : Z * Z :=
  let '(state, x) := cheaprand state in (state, wrap32 (Z.shiftr (wrap64 (x * n)) 32)).

(** ** Calls that run to their end *)

(** A call of the owner of [p] that reads [q], with nobody else about. *)
Fixpoint alone_on (fuel : nat) (p q : P) (k : pc) : option (P * P * list Z) :=
  match fuel, k with
  | _, Idle => Some (p, q, [])
  | O, _ => None
  | S fuel, k =>
      match target k with
      | Some _ => '(q, k) ← grab_step q k; alone_on fuel p q k
      | None =>
          '(p, k, out, _) ← own_step p k false;
          '(p, q, out') ← alone_on fuel p q k;
          Some (p, q, out ++ out')
      end
  end.

Definition runqput (p : P) (g : Z) (next : bool) : option (P * list Z) :=
  '(p, _, glob) ← alone 134 p (if next then PutNext g else PutHead g); Some (p, glob).

Definition runqget (p : P) : option (P * option Z) :=
  '(p, out, _) ← alone 6 p GetNext; Some (p, head out).

Definition runqsteal (p q : P) (steal_runnext_g : bool) : option (P * P * option Z) :=
  '(p, q, out) ← alone_on 262 p q (GrabHead 0 steal_runnext_g); Some (p, q, head out).

Definition runqempty (q : P) : bool := runqempty_result (heads q) (tails q) (runnext q).

(** ** The scheduler *)

(** The switches of runtime/flags.rs, and [DISPATCHING], which [mark_dispatching] sets once at
    boot. *)
Record flags := mkFlags { WORK_STEALING : bool; STEAL_RUNNEXT : bool; RUNNEXT_FASTPATH : bool; DISPATCHING : bool }.

Definition mark_dispatching (f : flags) : flags := mkFlags (WORK_STEALING f) (STEAL_RUNNEXT f) (RUNNEXT_FASTPATH f) true.

(** The Ps, the global queue and the state of [cheaprand]. *)
Record sched := mkSched { ps : list P; sched_runq : list Z; rand : Z }.

Definition set_ps (s : sched) (l : list P) : sched := mkSched l (sched_runq s) (rand s).
Definition set_runq (s : sched) (q : list Z) : sched := mkSched (ps s) q (rand s).

(** [locked_m] is each goroutine's field, [me] the calling M's P. *)
Definition enqueue_runnable (f : flags) (locked_m : Z -> Z) (me : option nat) (s : sched) (g : Z) (next : bool) : outcome sched :=
  if negb (DISPATCHING f) then Exit 2
  else if decide (locked_m g <> 0) then Ok (set_runq s (sched_runq s ++ [g]))
  else match me with
       | Some i =>
           p ← of_option (ps s !! i);
           '(p, glob) ← of_option (runqput p g next);
           Ok (mkSched (<[i := p]> (ps s)) (globrunqput_batch (sched_runq s) glob) (rand s))
       | None => Ok (set_runq s (sched_runq s ++ [g]))
       end.

(** One turn of the loop over the targets. *)
Definition steal_from (l : list P) (i pos : nat) (steal_runnext_g : bool) : option (list P * option Z) :=
  match l !! pos with
  | Some p2 =>
      if decide (pos <> i) then
        if negb (runqempty p2) || (steal_runnext_g && negb (runnext p2 =? 0)) then
          pp ← l !! i;
          '(pp, p2, r) ← runqsteal pp p2 steal_runnext_g;
          Some (<[i := pp]> (<[pos := p2]> l), r)
        else Some (l, None)
      else Some (l, None)
  | None => Some (l, None)
  end.

(** [while !e.done()]. *)
Fixpoint steal_scan (fuel : nat) (e : RandomEnum) (l : list P) (i : nat) (steal_runnext_g : bool) : option (list P * option Z) :=
  if StealOrder.done e then Some (l, None)
  else match fuel with
       | O => None
       | S fuel =>
           '(l, r) ← steal_from l i (Z.to_nat (position e)) steal_runnext_g;
           match r with
           | Some g => Some (l, Some g)
           | None => e ← next e; steal_scan fuel e l i steal_runnext_g
           end
       end.

Definition STEAL_TRIES : Z := 4.

(** [for i in 0..STEAL_TRIES]; [tries] tries are to come. *)
Fixpoint steal_tries (f : flags) (order : RandomOrder) (tries : nat) (s : sched) (i : nat) : outcome (sched * option Z) :=
  match tries with
  | O => Ok (s, None)
  | S tries =>
      let steal_runnext_g := STEAL_RUNNEXT f && bool_decide (tries = O) in
      let '(state, seed) := cheaprand (rand s) in
      e ← of_option (StealOrder.start order seed);
      '(l, r) ← of_option (steal_scan (Z.to_nat MAX_PS) e (ps s) i steal_runnext_g);
      let s := mkSched l (sched_runq s) state in
      match r with
      | Some g => Ok (s, Some g)
      | None => steal_tries f order tries s i
      end
  end.

Definition steal_work (f : flags) (order : RandomOrder) (me : option nat) (s : sched) : outcome (sched * option Z) :=
  if WORK_STEALING f then
    match me with
    | Some i => steal_tries f order (Z.to_nat STEAL_TRIES) s i
    | None => Ok (s, None)
    end
  else Ok (s, None).

(** [poll_netpoll_take_one] once [poll_shard] has returned [ready]; the rest goes through
    [goready]. *)
Fixpoint goready_all (f : flags) (locked_m : Z -> Z) (me : option nat) (s : sched) (ready : list Z) : outcome sched :=
  match ready with
  | [] => Ok s
  | g :: ready => s ← enqueue_runnable f locked_m me s g (RUNNEXT_FASTPATH f); goready_all f locked_m me s ready
  end.

Definition poll_netpoll_take_one (f : flags) (locked_m : Z -> Z) (me : option nat) (s : sched) (ready : list Z) : outcome (sched * option Z) :=
  match ready with
  | [] => Ok (s, None)
  | g :: ready => s ← goready_all f locked_m me s ready; Ok (s, Some g)
  end.

(** The local queue: [current_p()] and then [runqget]. *)
Definition get_local (me : option nat) (s : sched) : outcome (sched * option Z) :=
  match me with
  | Some i => p ← of_option (ps s !! i); '(p, r) ← of_option (runqget p); Ok (set_ps s (<[i := p]> (ps s)), r)
  | None => Ok (s, None)
  end.

(** [if let Some(g) = .. { return Some(g) }]. *)
Definition or_else (x : outcome (sched * option Z)) (k : sched -> outcome (sched * option Z)) : outcome (sched * option Z) :=
  '(s, r) ← x;
  match r with
  | Some g => Ok (s, Some g)
  | None => k s
  end.

(** The calls on the global queue, under its lock; [m] is the calling M's address. *)
Definition take_locked (locked_m : Z -> Z) (m : Z) (s : sched) : outcome (sched * option Z) :=
  let '(q, r) := globrunqget_locked_for_owner locked_m m (sched_runq s) in Ok (set_runq s q, r).

Definition take_global (locked_m : Z -> Z) (m : Z) (s : sched) : outcome (sched * option Z) :=
  let '(q, r) := globrunqget_one locked_m m (sched_runq s) in Ok (set_runq s q, r).

(** What [poll_shard] would return is [ready]. *)
Definition find_runnable (f : flags) (order : RandomOrder) (locked_m : Z -> Z) (m : Z) (me : option nat) (ready : list Z) (s : sched) : outcome (sched * option Z) :=
  or_else (take_locked locked_m m s) (fun s =>
  or_else (get_local me s) (fun s =>
  or_else (take_global locked_m m s) (fun s =>
  or_else (steal_work f order me s) (fun s =>
  poll_netpoll_take_one f locked_m me s ready)))).

(** ** Before an M parks *)

Definition runq_has_work (p : P) : bool := bool_decide (runnext p <> 0) || bool_decide (wrap32 (heads p) <> wrap32 (tails p)).

Definition runq_len (p : P) : Z := (if decide (runnext p <> 0) then 1 else 0) + wsub (tails p) (heads p).

(** The closure given to [for_each_p], over the Ps from index [j] on. *)
Fixpoint scan_others (l : list P) (j : nat) (me : option nat) (found : bool) : bool :=
  match l with
  | [] => found
  | p2 :: l =>
      scan_others l (S j) me
        (if found then found
         else if decide (me = Some j) then found
         else if negb (runqempty p2) then true else found)
  end.

Definition has_local_or_global_work (me : option nat) (s : sched) : bool :=
  if (match me with Some i => match ps s !! i with Some p => runq_has_work p | None => false end | None => false end) then true
  else if negb (bool_decide (sched_runq s = [])) then true
  else scan_others (ps s) 0 me false.
