(* ===== verification/FindWorkSpec.v ===== *)
(** [FindWork]: what a steal takes, and that an M that finds nothing has looked everywhere. *)
From Stdlib Require Import ZArith Lia.
From stdpp Require Import base tactics numbers list list_numbers option.
From S2P Require Import Prelude Outcome Threads RunQueue RunQueueSpec StealOrder FindWork.
Open Scope Z_scope.

(** ** A steal by itself *)

(** The thief's last load of the target's head is current. *)
Definition fresh_on (q : P) (k : pc) : Prop :=
  match k with
  | GrabTail _ _ h | GrabRead _ _ h _ _ | GrabWrite _ _ h _ _ _ | GrabCas _ _ h _ => h = heads q
  | GrabHead _ _ | GrabNext _ _ | GrabNextCas _ _ _ | GrabNextWrite _ | StealTake _ | StealHead _ _ | StealStore _ _ | Idle => True
  | _ => False
  end.

Lemma fresh_grab q k q' k' : fresh_on q k -> grab_step q k = Some (q', k') -> fresh_on q' k'.
Proof. intros Hf E. destruct k; try done; cbn [grab_step fresh_on] in *; repeat case_decide; simplify_option_eq; try done; repeat case_match; done. Qed.

Lemma fresh_own p k p' k' q out glob : fresh_on q k -> target k = None -> own_step p k false = Some (p', k', out, glob) -> fresh_on q k' /\ glob = [].
Proof. intros Hf Ht E. destruct k; try done; cbn [own_step steal_step fresh_on] in *; repeat case_decide; simplify_option_eq; try done; repeat case_match; done. Qed.

Lemma alone_on_idle fuel p q : alone_on fuel p q Idle = Some (p, q, []).
Proof. by destruct fuel. Qed.

Lemma alone_on_own fuel p q k p' k' out : k <> Idle -> target k = None -> own_step p k false = Some (p', k', out, []) ->
  alone_on (S fuel) p q k = ('(p, q, out') ← alone_on fuel p' q k'; Some (p, q, out ++ out')).
Proof. intros Hk Ht E. destruct k; try done; cbn [alone_on]; rewrite Ht, E; done. Qed.

Lemma alone_on_grab fuel p q k v q' k' : target k = Some v -> grab_step q k = Some (q', k') -> alone_on (S fuel) p q k = alone_on fuel p q' k'.
Proof. intros Ht E. destruct k; try done; cbn [alone_on]; cbn [target] in *; rewrite E; done. Qed.

Lemma alone_on_ok : forall fuel p q k p' q' out, proc_ok p k -> ring_ok q -> thief_ok p q k -> fresh_on q k -> alone_on fuel p q k = Some (p', q', out) ->
  ring_ok p' /\ ring_ok q' /\ forall g, occ g (owns (p, k)) + occ g (public q) = occ g (public p') + occ g (public q') + occ g out.
Proof.
  assert (forall p q, proc_ok p Idle -> ring_ok q -> ring_ok p /\ ring_ok q /\ forall g, occ g (owns (p, Idle)) + occ g (public q) = occ g (public p) + occ g (public q) + occ g []) as Hidle.
  { intros p q Hp Hq. split_and!; [apply Hp|done|]. intros g. rewrite occ_owns. cbn [held]. rewrite occ_nil. lia. }
  induction fuel as [|fuel IH]; intros p q k p' q' out Hp Hq Ht Hf E; [destruct k; try done; injection E as <- <- <-; by apply Hidle|].
  assert (k = Idle \/ k <> Idle) as [->|Hk] by (destruct k; auto); [injection E as <- <- <-; by apply Hidle|].
  destruct (target k) as [v|] eqn:Et.
  - destruct (grab_step_ok p k q v Hp Hq Et Ht) as (q1 & k1 & E1 & [G1 G2 G3 G4 G5]); [intros h Eh; destruct k; try done; injection Eh as <-; cbn in Hf; lia|].
    rewrite (alone_on_grab _ _ _ _ _ _ _ Et E1) in E. destruct (IH p q1 k1 p' q' out G3 G2) as (H1 & H2 & H3); [|by eapply fresh_grab|done|].
    { destruct (victim k1) as [w|] eqn:Ew; [by apply (G4 w)|]. by destruct k1. }
    split_and!; try done. intros g. specialize (G5 g). specialize (H3 g). rewrite occ_owns in *. lia.
  - destruct (own_step_ok p k false Hp) as (p1 & k1 & out1 & glob1 & E1 & [M1 M2 M3 M4 M5]); [|done|done|].
    { intros Ev h Eh. by destruct k. }
    destruct (fresh_own _ _ _ _ q _ _ Hf Et E1) as [Hf1 ->]. rewrite (alone_on_own _ _ _ _ _ _ _ Hk Et E1) in E.
    destruct (alone_on fuel p1 q k1) as [[[p2 q2] out2]|] eqn:E2; [|done]. injection E as <- <- <-.
    destruct (IH p1 q k1 p2 q2 out2 M1 Hq) as (H1 & H2 & H3); [|done|done|].
    { destruct (victim k1) as [w|] eqn:Ew; [by apply (M3 w)|]. by destruct k1. }
    split_and!; try done. intros g. specialize (M5 g). specialize (H3 g). rewrite occ_nil in M5. rewrite occ_app. lia.
Qed.

(** Nothing to take. *)
Lemma steal_miss p q (b : bool) : ring_ok q -> contents q = [] -> b = false \/ runnext q = 0 -> alone_on 262 p q (GrabHead 0 b) = Some (p, q, []).
Proof.
  intros Hq Ec Hb. assert (tails q = heads q) as Et by (pose proof (contents_length q Hq) as Hl; rewrite Ec in Hl; unfold zlen in Hl; cbn in Hl; lia).
  erewrite alone_on_grab by done. erewrite alone_on_grab; [|done|cbn [grab_step]; rewrite wsub_small by lia; rewrite decide_True by lia; reflexivity].
  destruct b; [|done]. destruct Hb as [|Hz]; [done|]. erewrite alone_on_grab; [|done|cbn [grab_step]; rewrite decide_True by done; reflexivity]. done.
Qed.

(** Only [runnext] to take. *)
Lemma steal_next p q : ring_ok p -> heads p = tails p -> ring_ok q -> contents q = [] -> runnext q <> 0 ->
  exists p', alone_on 262 p q (GrabHead 0 true) = Some (p', set_runnext q 0, [runnext q]) /\ line p' = line p.
Proof.
  intros Hp Het Hq Ec Hz. assert (tails q = heads q) as Et by (pose proof (contents_length q Hq) as Hl; rewrite Ec in Hl; unfold zlen in Hl; cbn in Hl; lia).
  destruct (slot_set_ok p (tails p) (runnext q) (ri_len _ Hp)) as (r & E & Hr & Hs). eexists. split.
  - erewrite alone_on_grab by done. erewrite alone_on_grab; [|done|cbn [grab_step]; rewrite wsub_small by lia; rewrite decide_True by lia; reflexivity].
    erewrite alone_on_grab; [|done|cbn [grab_step]; rewrite decide_False by done; reflexivity]. erewrite alone_on_grab; [|done|cbn [grab_step]; rewrite decide_True by done; reflexivity].
    erewrite alone_on_own; [|done|done|cbn [own_step steal_step]; rewrite E; reflexivity]. erewrite alone_on_own; [|done|done|].
    2: { cbn [own_step steal_step]. rewrite slot_get_ok by done. cbn [mbind option_bind]. rewrite Hs. cbn [tails]. replace (tails p + (1 - 1)) with (tails p) by lia. rewrite (decide_True (P := tails p mod 256 = tails p mod 256)), (decide_True (P := 1 - 1 = 0)), decide_False by done. reflexivity. }
    done.
  - unfold line, contents. cbn [heads tails runnext]. by rewrite !window_nil by lia.
Qed.

(** The goroutines are copied behind the thief's tail. *)
Lemma steal_copy q v b n fuel : ring_ok q -> n <= 128 -> forall m p i, 0 <= i -> i + Z.of_nat (S m) = n -> zlen (runq p) = 256 ->
  (forall j, 0 <= j < i -> slot p (tails p + j) = slot q (heads q + j)) ->
  exists p', alone_on (S m + S m + fuel) p q (GrabRead v b (heads q) n i) = alone_on fuel p' q (GrabCas v b (heads q) n) /\
    heads p' = heads p /\ tails p' = tails p /\ runnext p' = runnext p /\ zlen (runq p') = 256 /\ forall j, 0 <= j < n -> slot p' (tails p + j) = slot q (heads q + j).
Proof.
  intros Hq Hn. induction m as [|m IH]; intros p i Hi Hm Hl Hc; destruct (slot_set_ok p (tails p + i) (slot q (heads q + i)) Hl) as (r & E & Hr & Hs).
  - exists (mkP (heads p) (tails p) r (runnext p)). split_and!; try done.
    + cbn [Nat.add]. erewrite alone_on_grab; [|done|cbn [grab_step]; rewrite slot_get_ok by apply Hq; reflexivity].
      erewrite alone_on_own; [|done|done|cbn [own_step steal_step]; rewrite E; cbn [mbind option_bind]; rewrite decide_False by lia; reflexivity]. by destruct (alone_on _ _ _ _) as [[[? ?] ?]|].
    + intros j Hj. rewrite Hs. destruct (decide _) as [Ej|Ej]; [f_equal; lia|]. apply Hc. destruct (decide (j = i)) as [->|]; lia || done.
  - set (p1 := mkP (heads p) (tails p) r (runnext p)). destruct (IH p1 (i + 1)) as (p' & E' & H); [lia|lia|done| |].
    { intros j Hj. rewrite Hs. cbn [tails p1]. destruct (decide _) as [Ej|Ej]; [f_equal; lia|]. apply Hc. destruct (decide (j = i)) as [->|]; lia || done. }
    exists p'. split; [|done]. rewrite <- E'. replace (S (S m) + S (S m) + fuel)%nat with (S (S (S m + S m + fuel))) by lia.
    erewrite alone_on_grab; [|done|cbn [grab_step]; rewrite slot_get_ok by apply Hq; reflexivity].
    erewrite alone_on_own; [|done|done|cbn [own_step steal_step]; rewrite E; cbn [mbind option_bind]; rewrite decide_True by lia; reflexivity]. fold p1. by destruct (alone_on _ _ _ _) as [[[? ?] ?]|].
Qed.

(** The older half, rounded up: the thief keeps all but the last, which it runs. *)
Lemma steal_half p q b (n := tails q - heads q - (tails q - heads q) / 2) : ring_ok p -> heads p = tails p -> ring_ok q -> heads q < tails q ->
  exists p', alone_on 262 p q (GrabHead 0 b) = Some (p', set_heads q (heads q + n), [slot q (heads q + (n - 1))]) /\
    contents p' = window q (heads q) (n - 1) /\ runnext p' = runnext p.
Proof.
  intros Hp Het Hq Hlt. pose proof (ri_room _ Hq) as Hroom. pose proof (ri_order _ Hp) as Hpo. assert (1 <= n <= 128) as Hn by (unfold n; lia). assert (n <= tails q - heads q) as Hnd by (unfold n; lia).
  destruct (steal_copy q 0 b n (S (S (S (S (256 - 2 * Z.to_nat n))))) Hq ltac:(lia) (Z.to_nat (n - 1)) p 0) as (p1 & E & E1 & E2 & E3 & E4 & Hs); [lia|lia|apply Hp|lia|].
  replace (S (Z.to_nat (n - 1)) + S (Z.to_nat (n - 1)) + S (S (S (S (256 - 2 * Z.to_nat n)))))%nat with 260%nat in E by lia.
  assert (alone_on 262 p q (GrabHead 0 b) = alone_on 260 p q (GrabRead 0 b (heads q) n 0)) as ->.
  { erewrite alone_on_grab; [|done|reflexivity]. erewrite alone_on_grab; [|done|cbn [grab_step]; rewrite wsub_small by lia; fold n]. { reflexivity. }
    rewrite !decide_False by (change (LOCAL_RUNQ_SIZE / 2) with 128; lia). done. }
  rewrite E. clear E. erewrite alone_on_grab; [|done|cbn [grab_step]; rewrite decide_True by done; reflexivity].
  pose proof (ri_full _ Hq (heads q + (n - 1)) ltac:(lia)) as Hnz.
  destruct (decide (n - 1 = 0)) as [Hz|Hz].
  - exists p1. split_and!; [|unfold contents; rewrite !window_nil by lia; done|done]. erewrite alone_on_own; [|done|done|cbn [own_step steal_step]; rewrite slot_get_ok by done; cbn [mbind option_bind]].
    2: { rewrite decide_True by done. rewrite E2, Hs, decide_False by (done || lia). reflexivity. }
    done.
  - exists (set_tails p1 (tails p1 + (n - 1))). split_and!; [| |done].
    + erewrite alone_on_own; [|done|done|cbn [own_step steal_step]; rewrite slot_get_ok by done; cbn [mbind option_bind]; rewrite decide_False by done; reflexivity].
      erewrite alone_on_own; [|done|done|cbn [own_step steal_step]; rewrite wsub_small by lia; rewrite decide_True; [reflexivity|unfold wrap32, LOCAL_RUNQ_SIZE; rewrite Z.mod_small by lia; lia]].
      erewrite alone_on_own; [|done|done|cbn [own_step steal_step]; rewrite E2, Hs, decide_False by (done || lia); reflexivity]. rewrite alone_on_idle, E2. done.
    + unfold contents. cbn [heads tails set_tails]. rewrite E1, E2, Het. replace (tails p + (n - 1) - tails p) with (n - 1) by lia. rewrite (window_runq p1) by done.
      apply window_ext. intros j Hj. apply Hs. lia.
Qed.

(** What a steal takes from a line, and what it leaves. *)
Definition line_steal (steal_runnext_g : bool) (l : list Z * Z) : list Z * (list Z * Z) :=
  let '(q, r) := l in
  match q with
  | [] => if steal_runnext_g && negb (r =? 0) then ([r], ([], 0)) else ([], l)
  | _ => let n := (length q - length q / 2)%nat in (take n q, (drop n q, r))
  end.

Lemma contents_nil p : ring_ok p -> contents p = [] <-> heads p = tails p.
Proof.
  intros Hp. pose proof (contents_length p Hp) as Hl. unfold zlen in Hl. pose proof (ri_order _ Hp). split; intros H'.
  - rewrite H' in Hl. cbn in Hl. lia.
  - unfold contents. apply window_nil. lia.
Qed.

Lemma steal_line p q b : ring_ok p -> heads p = tails p -> ring_ok q ->
  exists p' q' r, runqsteal p q b = Some (p', q', r) /\ ring_ok p' /\ ring_ok q' /\ (forall g, occ g (public p) + occ g (public q) = occ g (public p') + occ g (public q') + occ g (option_list r)) /\
    runnext p' = runnext p /\ (contents p' ++ option_list r, line q') = line_steal b (line q) /\ r = list.last (line_steal b (line q)).1 /\ (r = None -> p' = p /\ q' = q).
Proof.
  intros Hp Het Hq. assert (contents p = []) as Ecp by by apply contents_nil.
  assert (forall p' q' r, alone_on 262 p q (GrabHead 0 b) = Some (p', q', option_list r) ->
    runqsteal p q b = Some (p', q', r) /\ ring_ok p' /\ ring_ok q' /\ forall g, occ g (public p) + occ g (public q) = occ g (public p') + occ g (public q') + occ g (option_list r)) as Hok.
  { intros p' q' r E. unfold runqsteal. rewrite E. split; [by destruct r|]. assert (proc_ok p (GrabHead 0 b)) as Hpk by (split; [done|done|constructor]). destruct (alone_on_ok _ _ _ _ _ _ _ Hpk Hq I I E) as (H1 & H2 & H3).
    split_and!; try done. intros g. specialize (H3 g). rewrite occ_owns in H3. cbn [held] in H3. rewrite occ_nil in H3. lia. }
  destruct (decide (heads q = tails q)) as [Eq|Eq].
  - assert (contents q = []) as Ec by by apply contents_nil. unfold line at 2 3. rewrite Ec. cbn [line_steal]. destruct (decide (b = true /\ runnext q <> 0)) as [[-> Hz]|Hno].
    + destruct (steal_next p q Hp Het Hq Ec Hz) as (p' & E & El). injection El as El1 El2. rewrite (proj2 (Z.eqb_neq _ _)) by done. cbn [andb negb].
      exists p', (set_runnext q 0), (Some (runnext q)). destruct (Hok _ _ (Some (runnext q)) E) as (H1 & H2 & H3 & H4). split_and!; try done. unfold line. change (contents (set_runnext q 0)) with (contents q). by rewrite El1, Ecp, Ec.
    + assert (b = false \/ runnext q = 0) as Hb by (destruct b; [right; destruct (decide (runnext q = 0)); [done|by destruct Hno]|by left]).
      exists p, q, None. destruct (Hok _ _ None (steal_miss p q b Hq Ec Hb)) as (H1 & H2 & H3 & H4).
      assert (b && negb (runnext q =? 0) = false) as -> by (destruct Hb as [-> | ->]; [done|by rewrite andb_false_r]). split_and!; try done. unfold line. by rewrite Ecp, Ec.
  - pose proof (ri_order _ Hq). destruct (steal_half p q b Hp Het Hq ltac:(lia)) as (p' & E & Ec & En). set (n := tails q - heads q - (tails q - heads q) / 2) in *.
    exists p', (set_heads q (heads q + n)), (Some (slot q (heads q + (n - 1)))). destruct (Hok _ _ (Some _) E) as (H1 & H2 & H3 & H4). 
    assert (line_steal b (line q) = (window q (heads q) n, line (set_heads q (heads q + n)))) as ->.
    { unfold line. cbn [line_steal]. destruct (contents q) as [|x l] eqn:Ecq; [by apply contents_nil in Ecq|]. rewrite <- Ecq. pose proof (contents_length q Hq) as Hl. unfold zlen in Hl.
      assert ((length (contents q) - length (contents q) / 2)%nat = Z.to_nat n) as -> by (unfold n; pose proof (Nat2Z.inj_div (length (contents q)) 2); lia).
      unfold contents. cbn [heads tails runnext set_heads]. destruct (window_take q (heads q) n (tails q - heads q)) as [-> ->]; [unfold n; lia|]. rewrite (window_runq q (set_heads _ _)) by done. do 3 f_equal. lia. }
    assert (window q (heads q) n = window q (heads q) (n - 1) ++ [slot q (heads q + (n - 1))]) as Ew by (rewrite <- window_snoc by (unfold n; lia); f_equal; lia).
    cbn [fst]. rewrite Ew, last_snoc, Ec. by split_and!.
Qed.

(** Without contention a steal of an owner with an empty ring ends, takes the older half of the
    target's ring rounded up (or, when it is empty and the caller allows, [runnext]), runs the last
    of them and keeps the others in order. *)
Theorem runqsteal_takes_half p q b : ring_ok p -> heads p = tails p -> ring_ok q ->
  exists p' q' r, runqsteal p q b = Some (p', q', r) /\ ring_ok p' /\ ring_ok q' /\ runnext p' = runnext p /\
    (contents p' ++ option_list r, line q') = line_steal b (line q) /\ r = list.last (line_steal b (line q)).1.
Proof. intros Hp Het Hq. destruct (steal_line p q b Hp Het Hq) as (p' & q' & r & H). exists p', q', r. naive_solver. Qed.

Lemma runqsteal_takes_half_witness : exists p' q' r, runqsteal p_new full_p false = Some (p', q', r) /\ ring_ok p' /\ ring_ok q' /\ runnext p' = runnext p_new /\
  (contents p' ++ option_list r, line q') = line_steal false (line full_p) /\ r = list.last (line_steal false (line full_p)).1.
Proof. apply (runqsteal_takes_half p_new full_p false); [apply p_new_ok|reflexivity|apply full_p_ok]. Defined.

(** ** The scheduler *)

(** The goroutines waiting in the queues. *)
Definition waiting (s : sched) : list Z := concat (map public (ps s)) ++ sched_runq s.

Lemma occ_waiting g s : occ g (waiting s) = zsum (fun p => occ g (public p)) (ps s) + occ g (sched_runq s).
Proof. unfold waiting. by rewrite occ_app, occ_concat. Qed.

Lemma local_put_ok p g (next : bool) : ring_ok p -> g <> 0 ->
  exists p' glob, runqput p g next = Some (p', glob) /\ ring_ok p' /\ Forall (fun g => g <> 0) glob /\ forall o, occ o (public p) + occ o [g] = occ o (public p') + occ o glob.
Proof.
  intros Hp Hg. destruct (put_line p g next Hp) as (p' & glob & E & _). exists p', glob. unfold runqput. rewrite E. split; [done|].
  destruct (alone_ok 134 p (if next then PutNext g else PutHead g) p' [] glob ltac:(destruct next; (split; [done|done|by repeat constructor])) ltac:(by destruct next) E) as (H1 & H2 & H3). split_and!; try done.
  intros o. specialize (H3 o). rewrite occ_owns in H3. rewrite occ_nil in H3. destruct next; cbn [held] in H3; lia.
Qed.

Lemma local_get_ok p : ring_ok p -> exists p' r, runqget p = Some (p', r) /\ ring_ok p' /\ (forall o, occ o (public p) = occ o (public p') + occ o (option_list r)) /\
  (r = None -> line p' = ([], 0) /\ line p = ([], 0)).
Proof.
  intros Hp. destruct (get_line p Hp) as (p' & out & E & El). exists p', (head out). unfold runqget. rewrite E. split; [done|].
  destruct (alone_ok 6 p GetNext p' out [] ltac:(by split) ltac:(done) E) as (H1 & _ & H3). split; [done|]. assert (out = option_list (head out)) as Eo.
  { unfold line at 2 in El. cbn [line_get] in El. destruct (decide _); [by injection El as _ _ ->|]. destruct (contents p); by injection El as _ _ ->. }
  split.
  - intros o. specialize (H3 o). rewrite occ_owns in H3. cbn [held] in H3. rewrite occ_nil in H3. rewrite <- Eo. lia.
  - intros Hn. unfold line at 2 in El. cbn [line_get] in El. destruct (decide (runnext p <> 0)) as [|Hz]; [injection El as _ _ ->; done|].
    destruct (contents p) as [|x l] eqn:Ec; injection El as E1 E2 ->; [|done]. unfold line. rewrite E1, E2, Ec. split; [done|]. f_equal. destruct (decide (runnext p = 0)); [done|by destruct Hz].
Qed.

Record sched_ok (order : RandomOrder) (s : sched) : Prop := {
  so_rings : Forall ring_ok (ps s);
  so_order : order_ok order (zlen (ps s))
}.

(** A call of an M with P [i]: the queues stay well formed, and what it returns is what they lose
    (and what [ready] brings). *)
Record kept (order : RandomOrder) (s : sched) (ready : list Z) (s' : sched) (out : list Z) : Prop := {
  kp_ok : sched_ok order s';
  kp_len : length (ps s') = length (ps s);
  kp_count : forall g, occ g (waiting s) + occ g ready = occ g (waiting s') + occ g out
}.

Lemma kept_refl order s : sched_ok order s -> kept order s [] s [].
Proof. intros Hs. by split. Qed.

Lemma sched_ok_ps order s l : sched_ok order s -> Forall ring_ok l -> length l = length (ps s) -> sched_ok order (set_ps s l).
Proof. intros [H1 H2] Hl El. split; [done|]. cbn. unfold zlen in *. by rewrite El. Qed.

Lemma enqueue_local f locked_m i s g next p p' glob : DISPATCHING f = true -> locked_m g = 0 -> ps s !! i = Some p -> runqput p g next = Some (p', glob) ->
  enqueue_runnable f locked_m (Some i) s g next = Ok (mkSched (<[i := p']> (ps s)) (globrunqput_batch (sched_runq s) glob) (rand s)).
Proof. intros Hd Hm Hi E. unfold enqueue_runnable. rewrite Hd, decide_False by lia. rewrite Hi. cbn [negb of_option]. rewrite outcome_bind_ok, E. reflexivity. Qed.

(** Before [mark_dispatching] the process ends instead. *)
Lemma enqueue_staged f locked_m me s g next : DISPATCHING f = false -> enqueue_runnable f locked_m me s g next = Exit 2.
Proof. intros Hd. unfold enqueue_runnable. by rewrite Hd. Qed.

Lemma enqueue_ok order f locked_m i s g next : DISPATCHING f = true -> sched_ok order s -> (i < length (ps s))%nat -> g <> 0 ->
  exists s', enqueue_runnable f locked_m (Some i) s g next = Ok s' /\ kept order s [g] s' [].
Proof.
  intros Hd Hs [p Hi]%lookup_lt_is_Some Hg. destruct (decide (locked_m g = 0)) as [Hm|Hm].
  - assert (ring_ok p) as Hp by (destruct Hs as [Hr _]; rewrite Forall_lookup in Hr; eauto). destruct (local_put_ok p g next Hp Hg) as (p' & glob & E & Hp' & Hgl & Hc).
    eexists. split; [by eapply enqueue_local|]. rewrite batch_app by done. split.
    + apply (sched_ok_ps order (set_runq s (sched_runq s ++ glob))); [by destruct Hs|by apply Forall_insert; [apply Hs|]|by rewrite length_insert].
    + cbn. by rewrite length_insert.
    + intros o. rewrite !occ_waiting, occ_nil. cbn [ps sched_runq]. rewrite (zsum_insert _ _ _ _ _ Hi), occ_app. specialize (Hc o). lia.
  - exists (set_runq s (sched_runq s ++ [g])). split; [unfold enqueue_runnable; by rewrite Hd, decide_True|]. split; [by destruct Hs|done|]. intros o. rewrite !occ_waiting, occ_nil. cbn. rewrite occ_app. lia.
Qed.

(** ** Stealing *)

Definition stealable (b : bool) (q : P) : Prop := contents q <> [] \/ b = true /\ runnext q <> 0.

Lemma runqempty_line q : ring_ok q -> runqempty q = true <-> line q = ([], 0).
Proof.
  intros Hq. pose proof (ri_order _ Hq). pose proof (ri_room _ Hq). unfold runqempty, runqempty_result, line. rewrite andb_true_iff, !bool_decide_eq_true. split.
  - intros [E ->]. f_equal. apply contents_nil; [done|]. symmetry. apply wrap32_inj; [lia|done].
  - intros E. injection E as E1 ->. apply contents_nil in E1; [|done]. by rewrite E1.
Qed.

Lemma line_steal_none b q r : list.last (line_steal b (q, r)).1 = None <-> q = [] /\ (b = false \/ r = 0).
Proof.
  unfold line_steal. destruct q as [|x q].
  - destruct b; cbn [andb]; [destruct (Z.eqb_spec r 0); cbn [negb]|]; cbn; naive_solver.
  - cbn [fst]. rewrite last_None. split; [|naive_solver]. intros E. exfalso. cbn [length] in E. pose proof (Nat.div_lt (S (length q)) 2 ltac:(lia) ltac:(lia)).
    destruct (S (length q) - S (length q) / 2)%nat eqn:En; [lia|]. done.
Qed.

(** The loop over the targets leaves the Ps well formed and hands out what they lose; when it
    finds nothing it changes nothing. *)
Record swept (l : list P) (i : nat) (poss : list Z) (b : bool) (l' : list P) (r : option Z) : Prop := {
  sw_rings : Forall ring_ok l';
  sw_len : length l' = length l;
  sw_count : forall g, zsum (fun p => occ g (public p)) l = zsum (fun p => occ g (public p)) l' + occ g (option_list r);
  sw_none : r = None -> l' = l /\ forall v q, Z.of_nat v ∈ poss -> v <> i -> l !! v = Some q -> ~ stealable b q
}.

Lemma steal_from_eq l i pos b p2 pp pp' p2' r : l !! pos = Some p2 -> l !! i = Some pp -> pos <> i -> negb (runqempty p2) || (b && negb (runnext p2 =? 0)) = true ->
  runqsteal pp p2 b = Some (pp', p2', r) -> steal_from l i pos b = Some (<[i := pp']> (<[pos := p2']> l), r).
Proof. intros H1 H2 H3 H4 E. unfold steal_from. rewrite H1, decide_True by done. rewrite H4, H2, some_bind, E, some_bind. reflexivity. Qed.

Lemma swept_skip l i pos b : Forall ring_ok l -> (pos <> i -> forall q, l !! pos = Some q -> ~ stealable b q) -> swept l i [Z.of_nat pos] b l None.
Proof.
  intros Hl Hno. split; [done|done|intros g; cbn [option_list]; rewrite occ_nil; lia|]. intros _. split; [done|]. intros v q Hv%list_elem_of_singleton Hvi Hq.
  assert (v = pos) as -> by lia. by apply Hno.
Qed.

Lemma steal_from_ok l i pos b pp : Forall ring_ok l -> l !! i = Some pp -> heads pp = tails pp ->
  exists l' r, steal_from l i pos b = Some (l', r) /\ swept l i [Z.of_nat pos] b l' r.
Proof.
  intros Hl Hi Het. pose proof Hl as Hl'. rewrite Forall_lookup in Hl'. destruct (l !! pos) as [p2|] eqn:Hpos; cycle 1.
  { exists l, None. split; [unfold steal_from; by rewrite Hpos|]. apply swept_skip; [done|]. congruence. }
  destruct (decide (pos = i)) as [->|Hne]; [exists l, None; split; [unfold steal_from; rewrite Hpos; by rewrite decide_False by auto|by apply swept_skip]|].
  pose proof (Hl' _ _ Hpos) as Hp2. destruct (negb (runqempty p2) || (b && negb (runnext p2 =? 0))) eqn:Hw; cycle 1.
  { exists l, None. split; [unfold steal_from; by rewrite Hpos, decide_True, Hw by done|]. apply swept_skip; [done|]. intros _ q Hq.
    apply orb_false_iff in Hw as [He%negb_false_iff _]. apply runqempty_line in He; [|done]. rewrite Hpos in Hq. injection Hq as <-. injection He as E1 E2. unfold stealable. naive_solver. }
  destruct (steal_line pp p2 b (Hl' _ _ Hi) Het Hp2) as (pp' & p2' & r & E & R1 & R2 & Hc & _ & _ & Er & Hn). assert (<[pos := p2']> l !! i = Some pp) as Hi' by by rewrite list_lookup_insert_ne.
  eexists _, r. split; [by eapply steal_from_eq|]. split.
  - by apply Forall_insert; [apply Forall_insert|].
  - by rewrite !length_insert.
  - intros g. rewrite (zsum_insert _ _ _ _ _ Hi'), (zsum_insert _ _ _ _ _ Hpos). specialize (Hc g). lia.
  - intros ->. destruct (Hn eq_refl) as [-> ->]. split; [rewrite (list_insert_id l pos) by done; by apply list_insert_id|].
    intros v q Hv%list_elem_of_singleton _ Hq. assert (v = pos) as -> by lia. rewrite Hpos in Hq. injection Hq as <-. symmetry in Er. unfold line in Er. apply line_steal_none in Er as [Ec Hb].
    intros [Hs|[-> Hs]]; [done|by destruct Hb].
Qed.

Lemma steal_scan_S fuel e l i b : StealOrder.done e = false ->
  steal_scan (S fuel) e l i b = '(l, r) ← steal_from l i (Z.to_nat (position e)) b;
    match r with Some g => Some (l, Some g) | None => e ← next e; steal_scan fuel e l i b end.
Proof. intros H. cbn [steal_scan]. rewrite H. reflexivity. Qed.

Lemma steal_scan_ok l i b pp : Forall ring_ok l -> l !! i = Some pp -> heads pp = tails pp ->
  forall fuel e poss, visits fuel e = Some poss -> Forall (fun x => 0 <= x) poss -> exists l' r, steal_scan fuel e l i b = Some (l', r) /\ swept l i poss b l' r.
Proof.
  intros Hl Hi Het. assert (swept l i [] b l None) as Hnil by (split; [done|done|intros g; cbn [option_list]; rewrite occ_nil; lia|intros _; split; [done|intros v q Hv; by apply elem_of_nil in Hv]]).
  induction fuel as [|fuel IH]; intros e poss Hv Hp; destruct (StealOrder.done e) eqn:Ed; cbn [visits] in Hv; rewrite Ed in Hv.
  1, 3: injection Hv as <-; exists l, None; split; [cbn [steal_scan]; by rewrite Ed|done]. { done. }
  destruct (next e) as [e'|] eqn:En; [|done]. cbn [mbind option_bind] in Hv. destruct (visits fuel e') as [poss'|] eqn:Ev; [|done]. injection Hv as <-. apply list.Forall_cons in Hp as [Hp0 Hp1].
  rewrite steal_scan_S by done. destruct (steal_from_ok l i (Z.to_nat (position e)) b pp Hl Hi Het) as (l1 & r1 & E1 & [W1 W2 W3 W4]). rewrite E1, some_bind. destruct r1 as [g|].
  - exists l1, (Some g). by split.
  - destruct (W4 eq_refl) as [-> Hno]. rewrite En, some_bind. destruct (IH e' poss' Ev Hp1) as (l' & r & E & [V1 V2 V3 V4]). exists l', r. split; [done|]. split; try done.
    intros Hr. destruct (V4 Hr) as [-> Hno']. split; [done|]. intros v q [Ehd|Htl]%elem_of_cons Hvi Hq; [|by eapply Hno']. apply (Hno v q); [apply list_elem_of_singleton; lia|done|done].
Qed.

Lemma visits_more : forall f e l, visits f e = Some l -> forall f', (f <= f')%nat -> visits f' e = Some l.
Proof.
  induction f as [|f IH]; intros e l E f' Hf; [|destruct f' as [|f']; [lia|]]; cbn [visits] in *.
  - destruct (StealOrder.done e) eqn:Ed; [|done]. destruct f'; cbn [visits]; by rewrite Ed.
  - destruct (StealOrder.done e); [done|]. destruct (next e) as [e'|]; [|done]. cbn [mbind option_bind] in *. destruct (visits f e') as [l'|] eqn:E'; [|done]. by rewrite (IH _ _ E' f') by lia.
Qed.

Lemma steal_pass_ok order l i b pp seed : Forall ring_ok l -> order_ok order (zlen l) -> l !! i = Some pp -> heads pp = tails pp -> 0 <= seed < 2 ^ 32 ->
  exists e l' r, StealOrder.start order seed = Some e /\ steal_scan (Z.to_nat MAX_PS) e l i b = Some (l', r) /\ swept l i (seqZ 0 (zlen l)) b l' r.
Proof.
  intros Hl Ho Hi Het Hs. destruct (start_visits order _ seed Ho Hs) as (e & poss & E & Ev & Hperm). destruct Ho as (_ & Hmax & _).
  destruct (steal_scan_ok l i b pp Hl Hi Het (Z.to_nat MAX_PS) e poss) as (l' & r & Esc & [W1 W2 W3 W4]).
  - eapply visits_more; [exact Ev|lia].
  - rewrite list.Forall_forall. intros x Hx. rewrite Hperm in Hx. apply elem_of_seqZ in Hx. lia.
  - exists e, l', r. split_and!; try done. split; try done. intros Hr. destruct (W4 Hr) as [-> Hno]. split; [done|]. intros v q Hv. apply Hno. by rewrite Hperm.
Qed.

Lemma cheaprand_range state : 0 <= (cheaprand state).2 < 2 ^ 32.
Proof. unfold cheaprand, wrap32. cbn [snd]. apply Z.mod_pos_bound. lia. Qed.

Lemma steal_tries_S f order tries s i state seed e l r : cheaprand (rand s) = (state, seed) -> StealOrder.start order seed = Some e ->
  steal_scan (Z.to_nat MAX_PS) e (ps s) i (STEAL_RUNNEXT f && bool_decide (tries = O)) = Some (l, r) ->
  steal_tries f order (S tries) s i = or_else (Ok (mkSched l (sched_runq s) state, r)) (fun s => steal_tries f order tries s i).
Proof. intros E1 E2 E3. unfold or_else. cbn [steal_tries]. rewrite E1, E2. cbn [of_option]. rewrite !outcome_bind_ok, E3. reflexivity. Qed.

(** What a search that returns nothing has established. *)
Definition searched (f : flags) (i : nat) (s : sched) : Prop := forall v q, v <> i -> ps s !! v = Some q -> ~ stealable (STEAL_RUNNEXT f) q.

(** A search from [s] ends, keeps the goroutines (the poller's [ready] too, if it is asked), and
    establishes [Q] when it comes back with nothing. *)
Definition finds (order : RandomOrder) (s : sched) (ready : list Z) (Q : sched -> Prop) (x : outcome (sched * option Z)) : Prop :=
  exists s' r polled, x = Ok (s', r) /\ (polled = [] \/ polled = ready) /\ kept order s polled s' (option_list r) /\ (r = None -> polled = ready /\ Q s').

Lemma kept_trans order s s1 s2 ready out : kept order s [] s1 [] -> kept order s1 ready s2 out -> kept order s ready s2 out.
Proof. intros [K1 K2 K3] [L1 L2 L3]. split; [done|lia|]. intros g. specialize (K3 g). specialize (L3 g). rewrite occ_nil in K3. lia. Qed.

Lemma finds_or_else order s ready (Q1 Q2 : sched -> Prop) x k : finds order s [] Q1 x ->
  (forall s1, kept order s [] s1 [] -> Q1 s1 -> finds order s1 ready Q2 (k s1)) -> finds order s ready Q2 (or_else x k).
Proof.
  intros (s1 & r1 & pl & -> & Hpl & Hk & Hq) Hnext. assert (pl = []) as -> by (by destruct Hpl). unfold or_else. rewrite outcome_bind_ok. destruct r1 as [g|].
  - exists s1, (Some g), []. split_and!; try done. by left.
  - destruct (Hnext s1 Hk (proj2 (Hq eq_refl))) as (s' & r & pl & E & Hpl' & Hk' & Hq'). exists s', r, pl. split_and!; try done. by eapply kept_trans.
Qed.

Lemma kept_sweep order s l state b poss i r : sched_ok order s -> swept (ps s) i poss b l r -> kept order s [] (mkSched l (sched_runq s) state) (option_list r).
Proof.
  intros Hs [W1 W2 W3 W4]. split; [apply (sched_ok_ps order (mkSched (ps s) (sched_runq s) state)); [by destruct Hs|done|done]|done|].
  intros g. rewrite !occ_waiting, occ_nil. cbn [ps sched_runq]. specialize (W3 g). lia.
Qed.

Lemma steal_tries_ok order f i : forall tries s pp, sched_ok order s -> ps s !! i = Some pp -> heads pp = tails pp ->
  finds order s [] (fun s' => ps s' = ps s /\ sched_runq s' = sched_runq s /\ ((0 < tries)%nat -> searched f i s)) (steal_tries f order tries s i).
Proof.
  induction tries as [|tries IH]; intros s pp Hs Hi Het.
  { exists s, None, []. split_and!; try done; [by left|]. intros _. split_and!; try done. lia. }
  destruct (cheaprand (rand s)) as [state seed] eqn:Er. pose proof (cheaprand_range (rand s)) as Hseed. rewrite Er in Hseed. destruct Hs as [Hrings Hord].
  destruct (steal_pass_ok order (ps s) i (STEAL_RUNNEXT f && bool_decide (tries = O)) pp seed Hrings Hord Hi Het Hseed) as (e & l & r & Ee & Esc & Hsw).
  erewrite steal_tries_S by done. pose proof (kept_sweep order s l state _ _ i r ltac:(by split) Hsw) as Hk. destruct Hsw as [W1 W2 W3 W4].
  eapply (finds_or_else _ _ _ (fun s' => l = ps s /\ s' = mkSched l (sched_runq s) state /\ r = None)).
  { exists (mkSched l (sched_runq s) state), r, []. split_and!; try done; [by left|]. intros Hr. split; [done|]. split_and!; try done. by apply W4. }
  intros s1 Hk1 (El & -> & Hr). destruct (W4 Hr) as [_ Hno]. rewrite El. destruct (IH (mkSched (ps s) (sched_runq s) state) pp) as (s' & r' & pl & E & Hpl & Hk' & Hq); [by split|done|done|].
  exists s', r', pl. split_and!; try done. intros Hr'. destruct (Hq Hr') as (Hp & H1 & H2 & H3). split_and!; try done. intros _. destruct tries as [|tries]; [|apply H3; lia].
  intros v q Hvi Hq'. specialize (Hno v q). rewrite bool_decide_true, andb_true_r in Hno by done. apply Hno; try done. apply elem_of_seqZ. apply lookup_lt_Some in Hq'. unfold zlen. lia.
Qed.

(** ** The tiers of [find_runnable] *)

Lemma globrunq_scan_full ok : forall l1 l2, match globrunq_scan (length l1) ok (l1 ++ l2) with (_, Some g) => ok g = true | (q, None) => q = l2 ++ l1 /\ Forall (fun g => ok g = false) l1 end.
Proof.
  induction l1 as [|g l1 IH]; intros l2; cbn [length app globrunq_scan]; [by rewrite app_nil_r|]. destruct (ok g) eqn:Eg; [done|].
  rewrite <- app_assoc. specialize (IH (l2 ++ [g])). destruct (globrunq_scan _ _ _) as [q [x|]]; [done|]. destruct IH as [-> Hf]. rewrite <- app_assoc. split; [done|by constructor].
Qed.

Lemma scan_finds order s ok : sched_ok order s ->
  finds order s [] (fun s' => s' = s /\ Forall (fun g => ok g = false) (sched_runq s)) (let '(q, r) := globrunq_scan (length (sched_runq s)) ok (sched_runq s) in Ok (set_runq s q, r)).
Proof.
  intros Hs. pose proof (globrunq_scan_full ok (sched_runq s) []) as Hf. rewrite app_nil_r in Hf. pose proof (fun g => scan_occ g ok (length (sched_runq s)) (sched_runq s)) as Ho.
  destruct (globrunq_scan _ _ _) as [q r]. exists (set_runq s q), r, []. split_and!; [done|by left| |].
  - split; [by destruct Hs|done|]. intros g. rewrite !occ_waiting, occ_nil. cbn [ps sched_runq set_runq]. specialize (Ho g). cbn [fst snd] in Ho. lia.
  - intros ->. destruct Hf as [-> Hf]. by destruct s.
Qed.

Lemma local_finds order s i : sched_ok order s -> (i < length (ps s))%nat ->
  finds order s [] (fun s' => sched_runq s' = sched_runq s /\ (forall v, v <> i -> ps s' !! v = ps s !! v) /\ (exists p', ps s' !! i = Some p' /\ line p' = ([], 0)) /\ (exists p, ps s !! i = Some p /\ line p = ([], 0)))
    (get_local (Some i) s).
Proof.
  intros Hs Hlt. destruct (lookup_lt_is_Some_2 _ _ Hlt) as [p Hi]. assert (ring_ok p) as Hp by (destruct Hs as [Hr _]; rewrite list.Forall_lookup in Hr; eauto).
  destruct (local_get_ok p Hp) as (p' & r & E & Hp' & Hc & Hn). exists (set_ps s (<[i := p']> (ps s))), r, []. split_and!; [|by left| |].
  - unfold get_local. rewrite Hi. cbn [of_option]. rewrite outcome_bind_ok, E. reflexivity.
  - split; [apply sched_ok_ps; [done|by apply list.Forall_insert; [apply Hs|]|by rewrite length_insert]|cbn; by rewrite length_insert|].
    intros g. rewrite !occ_waiting, occ_nil. cbn [ps sched_runq set_ps]. rewrite (zsum_insert _ _ _ _ _ Hi). specialize (Hc g). lia.
  - intros Hr. destruct (Hn Hr) as [E1 E2]. split; [done|]. split_and!; [done| |exists p'; split; [|done]|by exists p].
    + intros v Hv. cbn. by rewrite list_lookup_insert_ne.
    + cbn. by apply list_lookup_insert_eq.
Qed.

Lemma goready_all_ok order f locked_m i : DISPATCHING f = true -> forall ready s, sched_ok order s -> (i < length (ps s))%nat -> Forall (fun g => g <> 0) ready ->
  exists s', goready_all f locked_m (Some i) s ready = Ok s' /\ kept order s ready s' [].
Proof.
  intros Hd. induction ready as [|g ready IH]; intros s Hs Hi Hr; [exists s; split; [done|by apply kept_refl]|]. apply list.Forall_cons in Hr as [Hg Hr].
  destruct (enqueue_ok order f locked_m i s g (RUNNEXT_FASTPATH f) Hd Hs Hi Hg) as (s1 & E1 & [K1 K2 K3]). destruct (IH s1 K1 ltac:(lia) Hr) as (s' & E & [L1 L2 L3]).
  exists s'. split; [cbn [goready_all]; rewrite E1, outcome_bind_ok; exact E|]. split; [done|lia|]. intros o. specialize (K3 o). specialize (L3 o). rewrite occ_nil in *. rewrite (occ_cons o g ready). lia.
Qed.

Lemma poll_finds order f locked_m i s ready : DISPATCHING f = true -> sched_ok order s -> (i < length (ps s))%nat -> Forall (fun g => g <> 0) ready ->
  finds order s ready (fun _ => ready = []) (poll_netpoll_take_one f locked_m (Some i) s ready).
Proof.
  intros Hd Hs Hi Hr. destruct ready as [|g ready]; [exists s, None, []; split_and!; try done; by left|]. apply list.Forall_cons in Hr as [Hg Hr].
  destruct (goready_all_ok order f locked_m i Hd ready s Hs Hi Hr) as (s' & E & [K1 K2 K3]). exists s', (Some g), (g :: ready). split_and!; [|by right| |done].
  - unfold poll_netpoll_take_one. rewrite E, outcome_bind_ok. reflexivity.
  - split; [done|done|]. intros o. specialize (K3 o). rewrite (occ_cons o g ready). rewrite occ_nil in K3. change (option_list (Some g)) with [g]. lia.
Qed.

Lemma steal_finds order f i s pp : sched_ok order s -> ps s !! i = Some pp -> heads pp = tails pp ->
  finds order s [] (fun s' => ps s' = ps s /\ sched_runq s' = sched_runq s /\ (WORK_STEALING f = true -> searched f i s)) (steal_work f order (Some i) s).
Proof.
  intros Hs Hi Het. unfold steal_work. destruct (WORK_STEALING f); [|exists s, None, []; split_and!; try done; by left].
  destruct (steal_tries_ok order f i (Z.to_nat STEAL_TRIES) s pp Hs Hi Het) as (s' & r & pl & E & Hpl & Hk & Hq). exists s', r, pl. split_and!; try done.
  intros Hr. destruct (Hq Hr) as (H0 & H1 & H2 & H3). split_and!; try done. intros _. apply H3. unfold STEAL_TRIES. lia.
Qed.

(** The calling M may run nothing of what there is. *)
Definition nothing_for (f : flags) (locked_m : Z -> Z) (m : Z) (i : nat) (s : sched) : Prop :=
  Forall (fun g => locked_m g <> 0 /\ locked_m g <> m) (sched_runq s) /\
  (exists p, ps s !! i = Some p /\ line p = ([], 0)) /\
  (WORK_STEALING f = true -> searched f i s).

Lemma find_finds f order locked_m m i ready s : DISPATCHING f = true -> sched_ok order s -> (i < length (ps s))%nat -> Forall (fun g => g <> 0) ready ->
  finds order s ready (fun _ => nothing_for f locked_m m i s /\ ready = []) (find_runnable f order locked_m m (Some i) ready s).
Proof.
  intros Hd Hs Hi Hr. unfold find_runnable. eapply finds_or_else; [by apply scan_finds|]. intros ? _ [-> _].
  eapply finds_or_else; [by apply local_finds|]. intros s1 K1 (Eq1 & Hv1 & (p1 & Hp1 & El1) & Hown). pose proof (kp_ok _ _ _ _ _ K1) as Hs1.
  eapply finds_or_else; [by apply scan_finds|]. intros ? _ [-> Hg]. assert (heads p1 = tails p1) as Het.
  { destruct Hs1 as [Hrings _]. rewrite list.Forall_lookup in Hrings. apply contents_nil; [by eapply Hrings|]. by injection El1. }
  eapply finds_or_else; [by eapply steal_finds|]. intros s2 K2 (Eps & Erq & Hsearch). pose proof (kp_len _ _ _ _ _ K1) as L1. pose proof (kp_len _ _ _ _ _ K2) as L2.
  destruct (poll_finds order f locked_m i s2 ready) as (s' & r & pl & E & Hpl & Hk & Hq); [done|apply K2|lia|done|].
  exists s', r, pl. split_and!; try done. intros Hr'. destruct (Hq Hr') as [Hpl' ->]. split_and!; try done. split_and!; [|done|].
  - rewrite <- Eq1. eapply list.Forall_impl; [exact Hg|]. cbn. intros g [H1 H2]%orb_false_iff. lia.
  - intros Hw v q Hvi Hvq. apply (Hsearch Hw v q Hvi). by rewrite Hv1.
Qed.

(** C9: One M looks for work while every other M is between calls and the scheduler runs
    ([DISPATCHING] is set): each queue call is then one step.  The search always comes back.  It
    hands out exactly what the queues lose, and when it comes back with nothing there was nothing
    when it started: every goroutine in the global queue is locked to another M, its own P has
    none, no other P has one it may steal, and the poller had none ready. *)
Theorem find_runnable_complete f order locked_m m i ready s : DISPATCHING f = true -> sched_ok order s -> (i < length (ps s))%nat -> Forall (fun g => g <> 0) ready ->
  exists s' r polled, find_runnable f order locked_m m (Some i) ready s = Ok (s', r) /\ sched_ok order s' /\ (polled = [] \/ polled = ready) /\
    Permutation (waiting s ++ polled) (option_list r ++ waiting s') /\ (r = None -> nothing_for f locked_m m i s /\ ready = []).
Proof.
  intros Hd Hs Hi Hr. destruct (find_finds f order locked_m m i ready s Hd Hs Hi Hr) as (s' & r & pl & E & Hpl & [K1 K2 K3] & Hq). exists s', r, pl. split_and!; try done.
  - apply occ_perm. intros g. specialize (K3 g). rewrite !occ_app. lia.
  - intros Hn. apply (Hq Hn).
Qed.

Definition order3 : RandomOrder := default random_order_new (reset random_order_new 3).

Lemma order3_ok : order_ok order3 3.
Proof. unfold order3. destruct (reset_ok random_order_new 3 eq_refl ltac:(lia)) as (r & -> & Hr). exact Hr. Qed.

(** Two empty Ps, a full one, and a goroutine that another M must run. *)
Definition sched3 : sched := mkSched [p_new; p_new; full_p] [40] 12345.

Lemma sched3_ok : sched_ok order3 sched3.
Proof. split; [|exact order3_ok]. cbn [ps sched3]. pose proof p_new_ok. pose proof full_p_ok. auto. Qed.

Lemma find_runnable_complete_witness :
  (x ← find_runnable (mkFlags true true true true) order3 (fun g => if decide (g = 40) then 7 else 0) 1 (Some 0%nat) [] sched3; Ok x.2) = Ok (Some 28) /\
  exists s' r polled, find_runnable (mkFlags true true true true) order3 (fun g => if decide (g = 40) then 7 else 0) 1 (Some 0%nat) [] sched3 = Ok (s', r) /\ sched_ok order3 s' /\ (polled = [] \/ polled = []) /\
    Permutation (waiting sched3 ++ polled) (option_list r ++ waiting s') /\
    (r = None -> nothing_for (mkFlags true true true true) (fun g => if decide (g = 40) then 7 else 0) 1 0 sched3 /\ @nil Z = []).
Proof.
  split; [vm_compute; reflexivity|].
  apply (find_runnable_complete (mkFlags true true true true) order3 (fun g => if decide (g = 40) then 7 else 0) 1 0 [] sched3); [reflexivity|exact sched3_ok|cbn; lia|constructor].
Defined.

(** ** Before an M parks *)

Lemma public_nil p : public p = [] <-> line p = ([], 0).
Proof.
  unfold public, line, next_list. destruct (decide (runnext p = 0)) as [->|Hz]; [rewrite app_nil_r|]; split; intros H.
  - by rewrite H.
  - by injection H.
  - by destruct (contents p).
  - by injection H.
Qed.

Lemma has_work_line p : ring_ok p -> runq_has_work p = false <-> line p = ([], 0).
Proof.
  intros Hp. rewrite <- (runqempty_line p Hp). unfold runq_has_work, runqempty, runqempty_result. rewrite orb_false_iff, andb_true_iff, !bool_decide_eq_false, !bool_decide_eq_true.
  split; intros [H1 H2]; split; try done.
  - destruct (decide (wrap32 (heads p) = wrap32 (tails p))); [done|by destruct H2].
  - destruct (decide (runnext p = 0)); [done|by destruct H1].
  - auto.
  - auto.
Qed.

Lemma runq_len_public p : ring_ok p -> runq_len p = zlen (public p).
Proof.
  intros Hp. pose proof (ri_order _ Hp). pose proof (ri_room _ Hp). pose proof (contents_length p Hp) as Hl. unfold runq_len, public, next_list, zlen in *. rewrite wsub_small by lia.
  rewrite length_app. repeat case_decide; try done; cbn; lia.
Qed.

Lemma scan_others_false me : forall l j found, Forall ring_ok l ->
  scan_others l j me found = false <-> found = false /\ forall v p, l !! v = Some p -> me <> Some (j + v)%nat -> line p = ([], 0).
Proof.
  induction l as [|p l IH]; intros j found Hl; [cbn; naive_solver|]. apply list.Forall_cons in Hl as [Hp Hl]. cbn [scan_others]. rewrite IH by done.
  assert ((if found then found else if decide (me = Some j) then found else if negb (runqempty p) then true else found) = false <-> found = false /\ (me <> Some j -> line p = ([], 0))) as ->.
  { rewrite <- (runqempty_line p Hp). destruct found; [naive_solver|]. destruct (decide _); [naive_solver|]. destruct (runqempty p); naive_solver. }
  split.
  - intros [[-> H1] H2]. split; [done|]. intros [|v] q Hq Hm; [injection Hq as <-; apply H1; by rewrite Nat.add_0_r in Hm|]. apply (H2 v q Hq). by rewrite Nat.add_succ_comm.
  - intros [-> H]. split_and!; [done| |].
    + intros Hm. apply (H 0%nat p eq_refl). by rewrite Nat.add_0_r.
    + intros v q Hq Hm. apply (H (S v) q Hq). by rewrite <- Nat.add_succ_comm.
Qed.

(** The check an M makes before it parks says there is no work exactly when no P and not the
    global queue holds a goroutine. *)
Theorem parks_only_when_idle order i s : sched_ok order s -> (i < length (ps s))%nat -> has_local_or_global_work (Some i) s = false <-> waiting s = [].
Proof.
  intros [Hr _] Hi. pose proof Hr as Hr'. rewrite list.Forall_lookup in Hr'. destruct (lookup_lt_is_Some_2 _ _ Hi) as [p Hp]. unfold has_local_or_global_work, waiting. rewrite Hp.
  assert (concat (map public (ps s)) = [] <-> forall v q, ps s !! v = Some q -> line q = ([], 0)) as Hall.
  { clear. induction (ps s) as [|q l IH]; cbn [map concat]; [naive_solver|]. split.
    - intros [H1 H2]%app_eq_nil [|v] q' E; [injection E as <-; by apply public_nil|]. by apply IH in E.
    - intros H. rewrite (proj2 (public_nil q)) by (by apply (H 0%nat)). apply IH. intros v q'. apply (H (S v)). }
  destruct (runq_has_work p) eqn:Hw.
  { split; [done|]. intros [H _]%app_eq_nil. rewrite Hall in H. specialize (H i p Hp). apply has_work_line in H; [|by eauto]. congruence. }
  apply has_work_line in Hw; [|by eauto]. case_bool_decide as Hq; cbn [negb]; cycle 1.
  { split; [done|]. intros [_ H]%app_eq_nil. done. }
  rewrite scan_others_false by done. rewrite Hq, app_nil_r, Hall. cbn [Nat.add]. split.
  - intros [_ H] v q Hv. destruct (decide (v = i)) as [->|Hne]; [rewrite Hp in Hv; by injection Hv as <-|]. apply (H v q Hv). congruence.
  - intros H. split; [done|]. intros v q Hv _. eauto.
Qed.

Lemma parks_only_when_idle_witness : has_local_or_global_work (Some 0%nat) sched3 = true /\ (has_local_or_global_work (Some 0%nat) sched3 = false <-> waiting sched3 = []).
Proof. split; [vm_compute; reflexivity|]. apply (parks_only_when_idle order3 0 sched3); [exact sched3_ok|cbn; lia]. Defined.

(** ** The random numbers *)

(** [cheaprandn] stays below its bound. *)
Lemma cheaprandn_bound state n : 0 < n < 2 ^ 32 -> 0 <= (cheaprandn state n).2 < n.
Proof.
  intros Hn. unfold cheaprandn. pose proof (cheaprand_range state) as Hx. destruct (cheaprand state) as [st x]. cbn [snd] in *.
  assert (0 <= x * n < 2 ^ 64) as Hm by nia. rewrite wrap64_small by done. rewrite Z.shiftr_div_pow2 by lia.
  assert (0 <= x * n / 2 ^ 32 < n) as Hd by (split; [apply Z.div_pos; lia|apply Z.div_lt_upper_bound; nia]). unfold wrap32. rewrite Z.mod_small; lia.
Qed.
