(* ===== verification/Sema.v ===== *)
(** The counting semaphore behind the lock types: src/src/sync/sema.rs.

    Goroutines are numbered by non-zero addresses; their [sema_next] fields are the map
    [links].  Each definition is what one critical section of the semaphore's spin lock does
    ([release_n] takes the lock once per iteration: [release_n_step]).  [goready] is the
    goroutine the operation returns.  The lock types use the semaphore through the interface
    [Semaphore], which the linked chain discharges. *)
From Stdlib Require Import ZArith Lia.
From stdpp Require Import base tactics numbers list list_numbers option fin_maps gmap.
From S2P Require Import Prelude.
Open Scope Z_scope.

Record SemaState := mkSema {
  credit : Z;
  s_head : Z;
  s_tail : Z;
  links : gmap Z Z
}.

Definition sema_new : SemaState := mkSema 0 0 0 ∅.

(** [true]: a unit of credit was consumed; [false]: goroutine [g] is queued and parks. *)
Definition acquire (s : SemaState) (g : Z) : SemaState * bool :=
  if decide (credit s > 0) then (mkSema (credit s - 1) (s_head s) (s_tail s) (links s), true)
  else
    let m := <[g := 0]> (links s) in
    if decide (s_tail s = 0) then (mkSema (credit s) g g m, false)
    else (mkSema (credit s) (s_head s) g (<[s_tail s := g]> m), false).

Definition pop_head (s : SemaState) : SemaState * option Z :=
  if decide (s_head s = 0) then (s, None)
  else
    let g := s_head s in
    let h := default 0 (links s !! g) in
    (mkSema (credit s) h (if decide (h = 0) then 0 else s_tail s) (links s), Some g).

Definition release (s : SemaState) : SemaState * option Z :=
  match pop_head s with
  | (s, Some g) => (s, Some g)
  | (s, None) => (mkSema (credit s + 1) (s_head s) (s_tail s) (links s), None)
  end.

(** One iteration of [release_n] with [left] units to give. *)
Definition release_n_step (s : SemaState) (left : Z) : SemaState * option Z :=
  match pop_head s with
  | (s, Some g) => (s, Some g)
  | (s, None) => (mkSema (credit s + left) (s_head s) (s_tail s) (links s), None)
  end.

(** The whole loop, when nobody interferes: the goroutines it readies. *)
Fixpoint release_n_loop (fuel : nat) (s : SemaState) (left : Z) : SemaState * list Z :=
  match fuel with
  | O => (s, [])
  | S fuel =>
      match release_n_step s left with
      | (s, None) => (s, [])
      | (s, Some g) =>
          if decide (left - 1 = 0) then (s, [g])
          else let '(s, gs) := release_n_loop fuel s (left - 1) in (s, g :: gs)
      end
  end.

Definition release_n (s : SemaState) (n : Z) : SemaState * list Z :=
  if decide (n <= 0) then (s, []) else release_n_loop (Z.to_nat n) s n.

(** ** The interface *)

(** [sem_rep c l s]: [s] holds [c] units of credit and the goroutines [l] wait, oldest first. *)
Class Semaphore (S : Type) := {
  sem_new : S;
  sem_acquire : S -> Z -> S * bool;
  sem_release : S -> S * option Z;
  sem_release_n_step : S -> Z -> S * option Z;
  sem_rep : Z -> list Z -> S -> Prop;
  sem_new_ok : sem_rep 0 [] sem_new;
  sem_nodup : forall c l s, sem_rep c l s -> base.NoDup l;
  sem_acquire_credit : forall c l s g, sem_rep c l s -> 0 < c -> exists s', sem_acquire s g = (s', true) /\ sem_rep (c - 1) l s';
  sem_acquire_park : forall c l s g, sem_rep c l s -> c <= 0 -> g <> 0 -> g ∉ l ->
    exists s', sem_acquire s g = (s', false) /\ sem_rep c (l ++ [g]) s';
  sem_release_wake : forall c g l s, sem_rep c (g :: l) s -> exists s', sem_release s = (s', Some g) /\ sem_rep c l s';
  sem_release_credit : forall c s, sem_rep c [] s -> exists s', sem_release s = (s', None) /\ sem_rep (c + 1) [] s';
  sem_release_n_wake : forall c g l s n, sem_rep c (g :: l) s -> exists s', sem_release_n_step s n = (s', Some g) /\ sem_rep c l s';
  sem_release_n_credit : forall c s n, sem_rep c [] s -> exists s', sem_release_n_step s n = (s', None) /\ sem_rep (c + n) [] s'
}.

(** ** The chain *)

(** [l] is linked from its first goroutine to the null pointer. *)
Fixpoint chain (m : gmap Z Z) (l : list Z) : Prop :=
  match l with
  | [] => True
  | g :: l => g <> 0 /\ m !! g = Some (hd 0 l) /\ chain m l
  end.

Definition chain_rep (c : Z) (l : list Z) (s : SemaState) : Prop :=
  credit s = c /\ s_head s = hd 0 l /\ s_tail s = default 0 (last l) /\ base.NoDup l /\ chain (links s) l.

Lemma chain_frame m m' l : (forall g, g ∈ l -> m' !! g = m !! g) -> chain m l -> chain m' l.
Proof.
  induction l as [|g l IH]; intros Hf; [done|]. intros (Hg & E & Hc). split; [done|]. split.
  - rewrite Hf; [done|]. apply elem_of_cons. by left.
  - apply IH; [|done]. intros x Hx. apply Hf, elem_of_cons. by right.
Qed.

Lemma chain_snoc m l t g : base.NoDup (l ++ [t]) -> g ∉ l ++ [t] -> g <> 0 -> chain m (l ++ [t]) ->
  chain (<[t := g]> (<[g := 0]> m)) ((l ++ [t]) ++ [g]).
Proof.
  intros Hnd Hg Hz. induction l as [|x l IH]; cbn [app chain hd] in *.
  - intros (Ht & _). rewrite list_elem_of_singleton in Hg. rewrite lookup_insert_eq, lookup_insert_ne, lookup_insert_eq by congruence. done.
  - apply list.NoDup_cons in Hnd as [Hx Hnd]. rewrite elem_of_cons in Hg. intros (Hx0 & E & Hc). split; [done|]. split; [|tauto].
    assert (x <> t) by (intros ->; apply Hx, elem_of_app; right; by apply list_elem_of_singleton).
    rewrite !lookup_insert_ne by naive_solver. rewrite E. by destruct l.
Qed.

Lemma chain_nonzero m l g : chain m l -> g ∈ l -> g <> 0.
Proof. induction l as [|x l IH]; [by intros _ ?%elem_of_nil|]. intros (? & _ & Hc) [->|Hg]%elem_of_cons; [done|by apply IH]. Qed.

Lemma acquire_park c l s g : chain_rep c l s -> c <= 0 -> g <> 0 -> g ∉ l ->
  exists s', acquire s g = (s', false) /\ chain_rep c (l ++ [g]) s'.
Proof.
  intros (Ec & Hh & Ht & Hnd & Hc) Hc0 Hg Hni. unfold acquire. rewrite decide_False by lia.
  assert (base.NoDup (l ++ [g])) as Hnd'.
  { apply list.NoDup_app. split_and!; [done| |apply list.NoDup_singleton]. intros x Hx ->%list_elem_of_singleton. done. }
  destruct l as [|t l _] using rev_ind.
  - rewrite decide_True by done. eexists. split; [done|]. split_and!; try done. cbn. by rewrite lookup_insert_eq.
  - rewrite last_snoc in Ht. cbn in Ht. pose proof (chain_nonzero _ _ t Hc ltac:(apply elem_of_app; right; by apply list_elem_of_singleton)) as Htz.
    rewrite decide_False by congruence. eexists. split; [done|]. split_and!; cbn; [done| |by rewrite last_snoc|done|].
    + rewrite Hh. by destruct l.
    + rewrite Ht. by apply chain_snoc.
Qed.

Lemma pop_head_ok c l s : chain_rep c l s ->
  exists s', pop_head s = (s', head l) /\ chain_rep c (tl l) s' /\ (l = [] -> s' = s).
Proof.
  intros (Ec & Hh & Ht & Hnd & Hc). unfold pop_head. destruct l as [|g l].
  { rewrite decide_True by done. by exists s. }
  destruct Hc as (Hg & E & Hc). cbn in Hh. rewrite decide_False by congruence. rewrite Hh, E. cbn [default].
  eexists. split; [done|]. split; [|done]. apply list.NoDup_cons in Hnd as [_ Hnd]. split_and!; try done. cbn.
  destruct l as [|x l]; [done|]. destruct Hc as (Hx & _). rewrite decide_False by done. by rewrite Ht.
Qed.

#[export] Program Instance sema_chain : Semaphore SemaState := {|
  sem_new := sema_new; sem_acquire := acquire; sem_release := release; sem_release_n_step := release_n_step; sem_rep := chain_rep
|}.
Next Obligation. split_and!; try done. apply base.NoDup_nil_2. Qed.
Next Obligation. by intros c l s (_ & _ & _ & ? & _). Qed.
Next Obligation.
  intros c l s g (Ec & Hr) Hc. unfold acquire. rewrite decide_True by lia. eexists. split; [done|]. split; [cbn; lia|done].
Qed.
Next Obligation. exact acquire_park. Qed.
Next Obligation. intros c g l s Hr. unfold release. destruct (pop_head_ok c (g :: l) s Hr) as (s' & -> & Hr' & _). by exists s'. Qed.
Next Obligation.
  intros c s Hr. unfold release. destruct (pop_head_ok c [] s Hr) as (s' & -> & (<- & Hr') & _). eexists. split; [done|]. done.
Qed.
Next Obligation. intros c g l s n Hr. unfold release_n_step. destruct (pop_head_ok c (g :: l) s Hr) as (s' & -> & Hr' & _). by exists s'. Qed.
Next Obligation.
  intros c s n Hr. unfold release_n_step. destruct (pop_head_ok c [] s Hr) as (s' & -> & (<- & Hr') & _). eexists. split; [done|]. done.
Qed.

(** ** The semaphore's contract *)

Lemma release_n_loop_ok fuel : forall c l s left, chain_rep c l s -> 0 < left -> (Z.to_nat left <= fuel)%nat ->
  exists s', release_n_loop fuel s left = (s', take (Z.to_nat left) l) /\
    chain_rep (c + Z.max 0 (left - zlen l)) (drop (Z.to_nat left) l) s'.
Proof.
  induction fuel as [|fuel IH]; intros c l s left Hr Hl Hf; [lia|]. cbn [release_n_loop]. destruct l as [|g l].
  - destruct (@sem_release_n_credit _ sema_chain c s left Hr) as (s' & E & Hr'). cbn in E. rewrite E. exists s'. rewrite take_nil, drop_nil.
    split; [done|]. by replace (Z.max 0 (left - zlen [])) with left by (unfold zlen; cbn [length]; lia).
  - destruct (@sem_release_n_wake _ sema_chain c g l s left Hr) as (s' & E & Hr'). cbn in E. rewrite E.
    replace (Z.to_nat left) with (S (Z.to_nat (left - 1))) by lia. cbn [take drop].
    assert (zlen (g :: l) = zlen l + 1) as -> by (unfold zlen; cbn [length]; lia). case_decide as H1.
    + rewrite H1. exists s'. split; [done|]. rewrite Z.max_l by (unfold zlen; lia). by rewrite Z.add_0_r.
    + destruct (IH c l s' (left - 1) Hr' ltac:(lia) ltac:(lia)) as (s2 & E2 & Hr2). rewrite E2. exists s2. split; [done|].
      by replace (left - (zlen l + 1)) with (left - 1 - zlen l) by lia.
Qed.

(** [release_n n] readies the [n] oldest waiters in order, and what is left over becomes
    credit, so that a release is never lost: it is a wake-up or a stored unit. *)
Theorem release_n_fifo c l s n : chain_rep c l s -> 0 <= n ->
  exists s', release_n s n = (s', take (Z.to_nat n) l) /\
    chain_rep (c + Z.max 0 (n - zlen l)) (drop (Z.to_nat n) l) s'.
Proof.
  intros Hr Hn. unfold release_n. case_decide as H0.
  - replace n with 0 by lia. exists s. cbn. split; [done|]. rewrite Z.max_l by (unfold zlen; lia). by rewrite Z.add_0_r.
  - apply release_n_loop_ok; [done|lia|done].
Qed.

Definition three_waiters : SemaState := fold_left (fun s g => (acquire s g).1) [7; 8; 9] sema_new.

Lemma release_n_fifo_witness : exists s', release_n three_waiters 5 = (s', [7; 8; 9]) /\ chain_rep 2 [] s'.
Proof.
  apply (release_n_fifo 0 [7; 8; 9] three_waiters 5); [|lia]. split_and!; try done.
  repeat (apply list.NoDup_cons; split; [set_solver|]). apply base.NoDup_nil_2.
Defined.
