(* ===== verification/Mutex.v ===== *)
(** The mutex: src/src/sync/mutex.rs, with goroutines interleaved at every atomic access.

    The state word is a u32 [waiters:31 | locked:1].  A thread is a program counter; each of
    its steps is one atomic access of the state word or one critical section of the semaphore.
    Atomics are sequentially consistent in the model.  The semaphore is used through
    [Semaphore]; the guarded value plays no part in the protocol and is left out. *)
From Stdlib Require Import ZArith Lia.
From stdpp Require Import base tactics numbers list list_numbers option relations.
From S2P Require Import Prelude Threads Sema.
Open Scope Z_scope.

Definition M_LOCKED : Z := 1.
Definition M_WAITER_UNIT : Z := Z.shiftl 1 1.

Section mutex.
  Context {S : Type} `{Semaphore S}.

Record Mutex := mkMutex { m_state : Z; m_sema : S }.

Definition mutex_new : Mutex := mkMutex 0 sem_new.

(** Where a goroutine is: outside the lock; about to make the fast-path access of [Lock] or
    [TryLock]; in [lock_slow] before its load, before its compare-exchange of the loaded
    word, before the semaphore, parked; inside the critical section; in [unlock] before the
    fast path, in [unlock_slow] before its load, its compare-exchange, the semaphore; or
    ended by [fatal]. *)
Inductive pc :=
| Idle | LockFast | TryFast
| SlowLoad | SlowCas (old : Z) | SlowAcquire | Parked
| Holding
| UnlockFast | UnlockLoad | UnlockCas (old : Z) | UnlockRelease
| Fatal.

(** [compare_exchange(old, new)] on the state word, then [yes] or [no]. *)
Definition cas (m : Mutex) (old new : Z) (yes no : pc) : Mutex * pc :=
  if decide (m_state m = old) then (mkMutex new (m_sema m), yes) else (m, no).

Definition Lock (m : Mutex) : Mutex * pc := cas m 0 M_LOCKED Holding SlowLoad.
Definition TryLock (m : Mutex) : Mutex * pc := cas m 0 M_LOCKED Holding Idle.

(** The body of [lock_slow]'s loop after its load of [old]; a failed exchange starts over. *)
Definition lock_slow (m : Mutex) (old : Z) : Mutex * pc :=
  if decide (Z.land old M_LOCKED = 0) then cas m old (Z.lor old M_LOCKED) Holding SlowLoad
  else cas m old (wrap32 (old + M_WAITER_UNIT)) SlowAcquire SlowLoad.

Definition unlock (m : Mutex) : Mutex * pc := cas m M_LOCKED 0 Idle UnlockLoad.

(** The body of [unlock_slow]'s loop after its load of [old]. *)
Definition unlock_slow (m : Mutex) (old : Z) : Mutex * pc :=
  if decide (Z.land old M_LOCKED = 0) then (m, Fatal)
  else
    let waiters := Z.shiftr old 1 in
    if decide (waiters = 0) then cas m old 0 Idle UnlockLoad
    else cas m old (Z.lor (wrap32 (Z.shiftl (waiters - 1) 1)) M_LOCKED) UnlockRelease UnlockLoad.

(** One step of goroutine [g]; also whom it readies.  No step: it waits for its caller, or
    for a wake-up. *)
Definition thread_step (g : Z) (p : pc) (m : Mutex) : option (Mutex * pc * option Z) :=
  match p with
  | LockFast => let '(m, p) := Lock m in Some (m, p, None)
  | TryFast => let '(m, p) := TryLock m in Some (m, p, None)
  | SlowLoad => Some (m, SlowCas (m_state m), None)
  | SlowCas old => let '(m, p) := lock_slow m old in Some (m, p, None)
  | SlowAcquire =>
      let '(s, got) := sem_acquire (m_sema m) g in
      Some (mkMutex (m_state m) s, if (got : bool) then Holding else Parked, None)
  | UnlockFast => let '(m, p) := unlock m in Some (m, p, None)
  | UnlockLoad => Some (m, UnlockCas (m_state m), None)
  | UnlockCas old => let '(m, p) := unlock_slow m old in Some (m, p, None)
  | UnlockRelease => let '(s, g) := sem_release (m_sema m) in Some (mkMutex (m_state m) s, Idle, g)
  | Idle | Parked | Holding | Fatal => None
  end.

(** A parked goroutine returns from [acquire] and so from [Lock]: it holds the mutex. *)
Definition resume (p : pc) : pc := match p with Parked => Holding | p => p end.

Record config := mkConfig { mu : Mutex; pcs : list pc }.

(** Goroutines call [Lock] and [TryLock] from outside, [Unlock] only when they hold the mutex
    (the guard's [drop]), and run. *)
Inductive step : config -> config -> Prop :=
| step_lock m l i : l !! i = Some Idle -> step (mkConfig m l) (mkConfig m (<[i := LockFast]> l))
| step_trylock m l i : l !! i = Some Idle -> step (mkConfig m l) (mkConfig m (<[i := TryFast]> l))
| step_unlock m l i : l !! i = Some Holding -> step (mkConfig m l) (mkConfig m (<[i := UnlockFast]> l))
| step_run m l i p m' p' g : l !! i = Some p -> thread_step (gid i) p m = Some (m', p', g) ->
    step (mkConfig m l) (mkConfig m' (wake resume g (<[i := p']> l))).

Definition start (n : nat) : config := mkConfig mutex_new (replicate n Idle).
Definition reachable (n : nat) (c : config) : Prop := rtc step (start n) c.

(** ** Invariant *)

(** Threads that own the lock; that are handing it over; that were counted as waiters. *)
Definition owner (p : pc) : bool :=
  match p with Holding | UnlockFast | UnlockLoad | UnlockCas _ => true | _ => false end.
Definition handing (p : pc) : bool := match p with UnlockRelease => true | _ => false end.
Definition waiting (p : pc) : bool := match p with SlowAcquire | Parked => true | _ => false end.
Definition parked (p : pc) : bool := match p with Parked => true | _ => false end.

Definition count (f : pc -> bool) (l : list pc) : Z := zsum (fun p => Z.b2z (f p)) l.

(** The lock bit [L] counts its owner, whether a thread or a unit in flight; the waiters [W]
    are those counted as waiting that have not been given a unit yet. *)
Record inv (W L cr : Z) (q : list Z) (c : config) : Prop := {
  iv_state : m_state (mu c) = 2 * W + L;
  iv_bounds : 0 <= L <= 1 /\ 0 <= W /\ 0 <= cr;
  iv_owner : L = count owner (pcs c) + count handing (pcs c) + cr;
  iv_waiters : W + count handing (pcs c) + cr = count waiting (pcs c);
  iv_free : L = 0 -> W = 0;
  iv_sema : sem_rep cr q (m_sema (mu c));
  iv_credit : 0 < cr -> q = [];
  iv_queue : queue_ok parked (pcs c) q;
  iv_cas : forall i old, pcs c !! i = Some (UnlockCas old) -> Z.land old M_LOCKED = 1;
  iv_fatal : forall i, pcs c !! i <> Some Fatal;
  iv_size : zlen (pcs c) < 2 ^ 31
}.

Lemma count_insert f l i p p' : l !! i = Some p -> count f (<[i := p']> l) = count f l - Z.b2z (f p) + Z.b2z (f p').
Proof. apply (zsum_insert (fun p => Z.b2z (f p))). Qed.

Lemma b2z_nonneg b : 0 <= Z.b2z b.
Proof. destruct b; cbn; lia. Qed.

Lemma count_nonneg f l : 0 <= count f l.
Proof. apply zsum_nonneg. intros. apply b2z_nonneg. Qed.

Lemma count_ge f l i p : l !! i = Some p -> Z.b2z (f p) <= count f l.
Proof. apply (zsum_ge (fun p => Z.b2z (f p))). intros. apply b2z_nonneg. Qed.

Lemma count_len f l : count f l <= zlen l.
Proof. apply zsum_le_len. intros x. destruct (f x); cbn; lia. Qed.

(** The state word's fields. *)
Lemma land_locked W L : 0 <= L <= 1 -> 0 <= W -> Z.land (2 * W + L) M_LOCKED = L.
Proof. intros. unfold M_LOCKED. change 1 with (Z.ones 1) at 1. rewrite Z.land_ones by lia. lia. Qed.

Lemma shr_waiters W L : 0 <= L <= 1 -> 0 <= W -> Z.shiftr (2 * W + L) 1 = W.
Proof. intros. rewrite Z.shiftr_div_pow2 by lia. lia. Qed.

Lemma lor_locked W : 0 <= W -> Z.lor (2 * W) M_LOCKED = 2 * W + 1.
Proof.
  intros. unfold M_LOCKED. apply Z.bits_inj'. intros i Hi. rewrite Z.lor_spec.
  destruct (decide (i = 0)) as [->|]; [rewrite Z.testbit_even_0, Z.testbit_odd_0; done|].
  replace i with (Z.succ (i - 1)) by lia. rewrite Z.testbit_even_succ, Z.testbit_odd_succ by lia.
  replace (Z.testbit 1 (Z.succ (i - 1))) with false; [by rewrite orb_false_r|].
  symmetry. apply Z.bits_above_log2; cbn; lia.
Qed.

(** Thread [i] moves from [p] to [p'] while the counts change accordingly. *)
Lemma mu_inv_move W L cr q m l i p p' W' L' cr' q' m' : inv W L cr q (mkConfig m l) -> l !! i = Some p ->
  m_state m' = 2 * W' + L' -> 0 <= L' <= 1 /\ 0 <= W' /\ 0 <= cr' ->
  L' - L = Z.b2z (owner p') - Z.b2z (owner p) + Z.b2z (handing p') - Z.b2z (handing p) + (cr' - cr) ->
  W' - W + Z.b2z (handing p') - Z.b2z (handing p) + (cr' - cr) = Z.b2z (waiting p') - Z.b2z (waiting p) ->
  (L' = 0 -> W' = 0) -> sem_rep cr' q' (m_sema m') -> (0 < cr' -> q' = []) -> queue_ok parked (<[i := p']> l) q' ->
  (forall old, p' = UnlockCas old -> Z.land old M_LOCKED = 1) -> p' <> Fatal ->
  inv W' L' cr' q' (mkConfig m' (<[i := p']> l)).
Proof.
  intros [I1 I2 I3 I4 I5 I6 I7 I8 I9 I10 I11] Hi Hst Hb HL HW Hf Hs Hc Hq Hold Hfat. cbn [mu pcs] in *.
  split; cbn [mu pcs]; try done.
  - rewrite !(count_insert _ l i p p' Hi). lia.
  - rewrite !(count_insert _ l i p p' Hi). lia.
  - intros j old Ej. apply list_lookup_insert_Some in Ej as [(_ & -> & _)|[_ Ej]]; [by apply Hold|by apply (I9 j)].
  - intros j Ej. apply list_lookup_insert_Some in Ej as [(_ & -> & _)|[_ Ej]]; [done|by apply (I10 j)].
  - by rewrite zlen_insert.
Qed.

(** The same without the semaphore. *)
Lemma mu_inv_local W L cr q m l i p p' W' L' st : inv W L cr q (mkConfig m l) -> l !! i = Some p ->
  st = 2 * W' + L' -> 0 <= L' <= 1 /\ 0 <= W' ->
  L' - L = Z.b2z (owner p') - Z.b2z (owner p) + Z.b2z (handing p') - Z.b2z (handing p) ->
  W' - W + Z.b2z (handing p') - Z.b2z (handing p) = Z.b2z (waiting p') - Z.b2z (waiting p) ->
  (L' = 0 -> W' = 0) -> parked p = false -> parked p' = false ->
  (forall old, p' = UnlockCas old -> Z.land old M_LOCKED = 1) -> p' <> Fatal ->
  inv W' L' cr q (mkConfig (mkMutex st (m_sema m)) (<[i := p']> l)).
Proof.
  intros I Hi Hst Hb HL HW Hf Hp Hp' Hold Hfat. eapply mu_inv_move; try done; try lia.
  - destruct (iv_bounds _ _ _ _ _ I) as (_ & _ & ?). lia.
  - apply I.
  - apply I.
  - eapply queue_ok_same; [apply I|exact Hi|done|done].
Qed.

Lemma mutex_eta m : mkMutex (m_state m) (m_sema m) = m.
Proof. by destruct m. Qed.

(** A step that changes nothing but the thread, or whose exchange fails. *)
Lemma mu_inv_pc W L cr q m l i p p' : inv W L cr q (mkConfig m l) -> l !! i = Some p ->
  owner p = owner p' -> handing p = handing p' -> waiting p = waiting p' -> parked p = false -> parked p' = false ->
  (forall old, p' = UnlockCas old -> Z.land old M_LOCKED = 1) -> p' <> Fatal ->
  inv W L cr q (mkConfig m (<[i := p']> l)).
Proof.
  intros I Hi Ho Hh Hw Hp Hp' Hold Hfat. rewrite <- (mutex_eta m). destruct (iv_bounds _ _ _ _ _ I) as (? & ? & _).
  eapply (mu_inv_local W L cr q m l i p p' W L); try done; [apply I|rewrite Ho, Hh; lia|rewrite Hw, Hh; lia|apply I].
Qed.

Definition good (c : config) : Prop := exists W L cr q, inv W L cr q c.

(** An owner is alone, and the lock bit is set. *)
Lemma owner_locked W L cr q m l i p : inv W L cr q (mkConfig m l) -> l !! i = Some p -> owner p = true ->
  L = 1 /\ count handing l = 0 /\ cr = 0 /\ count owner l = 1.
Proof.
  intros I Hi Ho. pose proof (count_ge owner l i p Hi) as Hc. rewrite Ho in Hc. cbn in Hc.
  pose proof (iv_owner _ _ _ _ _ I). pose proof (iv_bounds _ _ _ _ _ I). pose proof (count_nonneg handing l). cbn [mu pcs] in *. lia.
Qed.

Ltac mv_thread I Hi := first [by eapply mu_inv_pc | eapply mu_inv_local; [exact I|exact Hi|..]; cbn; try done; try lia].

Lemma lock_slow_good W L cr q m l i old m' p' : inv W L cr q (mkConfig m l) -> l !! i = Some (SlowCas old) ->
  lock_slow m old = (m', p') -> good (mkConfig m' (<[i := p']> l)).
Proof.
  intros I Hi. unfold lock_slow, cas. pose proof (iv_state _ _ _ _ _ I) as Hs. destruct (iv_bounds _ _ _ _ _ I) as (? & ? & ?). cbn in Hs.
  case_decide as Hl; (case_decide as Ho; intros [= <- <-]); [|exists W, L, cr, q; mv_thread I Hi| |exists W, L, cr, q; mv_thread I Hi].
  - subst old. rewrite Hs, land_locked in Hl by lia. subst L. exists W, 1, cr, q. mv_thread I Hi. rewrite Hs, Z.add_0_r. by apply lor_locked.
  - subst old. rewrite Hs, land_locked in Hl by lia. exists (W + 1), L, cr, q. mv_thread I Hi.
    pose proof (count_len waiting (<[i := SlowAcquire]> l)) as Hn. rewrite (count_insert _ _ _ _ _ Hi), zlen_insert in Hn. cbn [waiting Z.b2z] in Hn. pose proof (iv_waiters _ _ _ _ _ I). pose proof (iv_size _ _ _ _ _ I). pose proof (count_nonneg handing l).
    cbn [mu pcs] in *. unfold wrap32, M_WAITER_UNIT. change (Z.shiftl 1 1) with 2. rewrite Hs. rewrite Z.mod_small by lia. lia.
Qed.

Lemma unlock_slow_good W L cr q m l i old m' p' : inv W L cr q (mkConfig m l) -> l !! i = Some (UnlockCas old) ->
  unlock_slow m old = (m', p') -> good (mkConfig m' (<[i := p']> l)).
Proof.
  intros I Hi. unfold unlock_slow, cas. rewrite decide_False by (rewrite (iv_cas _ _ _ _ _ I i old Hi); lia).
  pose proof (iv_state _ _ _ _ _ I) as Hs. destruct (iv_bounds _ _ _ _ _ I) as (? & ? & ?). cbn in Hs.
  destruct (owner_locked _ _ _ _ _ _ _ _ I Hi eq_refl) as (-> & _).
  case_decide as Hw; (case_decide as Ho; intros [= <- <-]); [|exists W, 1, cr, q; mv_thread I Hi| |exists W, 1, cr, q; mv_thread I Hi].
  - subst old. rewrite Hs, shr_waiters in Hw by lia. exists 0, 0, cr, q. mv_thread I Hi.
  - subst old. rewrite Hs, shr_waiters in * by lia. exists (W - 1), 1, cr, q. mv_thread I Hi.
    pose proof (count_len waiting l). pose proof (iv_waiters _ _ _ _ _ I). pose proof (iv_size _ _ _ _ _ I). pose proof (count_nonneg handing l).
    cbn [mu pcs] in *. unfold wrap32. rewrite Z.shiftl_mul_pow2 by lia. rewrite Z.mod_small by lia.
    replace ((W - 1) * 2 ^ 1) with (2 * (W - 1)) by lia. apply lor_locked. lia.
Qed.

Lemma acquire_good W L cr q m l i s got : inv W L cr q (mkConfig m l) -> l !! i = Some SlowAcquire ->
  sem_acquire (m_sema m) (gid i) = (s, got) -> good (mkConfig (mkMutex (m_state m) s) (<[i := if got then Holding else Parked]> l)).
Proof.
  intros I Hi E. pose proof (iv_sema _ _ _ _ _ I) as Hr. pose proof (iv_queue _ _ _ _ _ I) as Hq. cbn in Hr, Hq.
  destruct (iv_bounds _ _ _ _ _ I) as (? & ? & ?). destruct (decide (0 < cr)) as [Hc|Hc].
  - destruct (sem_acquire_credit cr q _ (gid i) Hr Hc) as (s' & E' & Hr'). rewrite E in E'. injection E' as -> ->.
    exists W, L, (cr - 1), q. eapply mu_inv_move; [exact I|exact Hi|..]; cbn; try done; try lia; [apply I|apply I| |].
    + intros _. by apply (iv_credit _ _ _ _ _ I).
    + by eapply queue_ok_same.
  - destruct (queue_ok_park parked l q i _ Parked Hq Hi eq_refl eq_refl) as [Hni Hq'].
    destruct (sem_acquire_park cr q _ (gid i) Hr ltac:(lia) ltac:(unfold gid; lia) Hni) as (s' & E' & Hr'). rewrite E in E'. injection E' as -> ->.
    exists W, L, cr, (q ++ [gid i]). eapply mu_inv_move; [exact I|exact Hi|..]; cbn; try done; try lia; apply I.
Qed.

Lemma release_good W L cr q m l i s g : inv W L cr q (mkConfig m l) -> l !! i = Some UnlockRelease ->
  sem_release (m_sema m) = (s, g) -> good (mkConfig (mkMutex (m_state m) s) (wake resume g (<[i := Idle]> l))).
Proof.
  intros I Hi E. pose proof (iv_sema _ _ _ _ _ I) as Hr. cbn in Hr.
  destruct (iv_bounds _ _ _ _ _ I) as (? & ? & ?). destruct q as [|h q].
  - destruct (sem_release_credit cr _ Hr) as (s' & E' & Hr'). rewrite E in E'. injection E' as -> ->. cbn [wake].
    exists W, L, (cr + 1), []. eapply mu_inv_move; [exact I|exact Hi|..]; cbn; try done; try lia; [apply I|apply I|].
    eapply queue_ok_same; [apply I|exact Hi|done|done].
  - destruct (sem_release_wake cr h q _ Hr) as (s' & E' & Hr'). rewrite E in E'. injection E' as -> ->.
    assert (queue_ok parked (<[i := Idle]> l) (h :: q)) as Hq by (eapply queue_ok_same; [apply I|exact Hi|done|done]).
    destruct (queue_ok_wake parked _ q h Hq (sem_nodup _ _ _ Hr)) as (j & p & -> & Ej & Hp & Hw).
    destruct p; try done. destruct (Hw resume eq_refl) as [-> Hq']. cbn [resume] in *.
    assert (j <> i) as Hji by (intros ->; rewrite list_lookup_insert_eq in Ej by (by eapply lookup_lt_Some); done).
    assert (cr = 0) as Hcr by (destruct (decide (0 < cr)) as [Hc|]; [by discriminate (iv_credit _ _ _ _ _ I Hc)|lia]).
    rewrite list_lookup_insert_ne in Ej by done. rewrite list_insert_insert_ne in Hq' |- * by done.
    exists W, L, cr, q. destruct I as [I1 I2 I3 I4 I5 I6 I7 I8 I9 I10 I11]. cbn [mu pcs] in *.
    assert (<[j := Holding]> l !! i = Some UnlockRelease) as Hi' by (by rewrite list_lookup_insert_ne).
    split; cbn [mu pcs m_state m_sema]; try done.
    + rewrite !(count_insert _ _ i _ _ Hi'), !(count_insert _ _ j _ _ Ej). cbn. lia.
    + rewrite !(count_insert _ _ i _ _ Hi'), !(count_insert _ _ j _ _ Ej). cbn. lia.
    + lia.
    + intros k old Ek. do 2 (apply list_lookup_insert_Some in Ek as [(_ & ? & _)|[_ Ek]]; [done|]). by apply (I9 k).
    + intros k Ek. do 2 (apply list_lookup_insert_Some in Ek as [(_ & ? & _)|[_ Ek]]; [done|]). by apply (I10 k).
    + by rewrite !zlen_insert.
Qed.

Lemma run_good c m l i p m' p' g : c = mkConfig m l -> good c -> l !! i = Some p -> thread_step (gid i) p m = Some (m', p', g) ->
  good (mkConfig m' (wake resume g (<[i := p']> l))).
Proof.
  intros -> (W & L & cr & q & I) Hi E. pose proof (iv_state _ _ _ _ _ I) as Hs. destruct (iv_bounds _ _ _ _ _ I) as (? & ? & ?). cbn in Hs.
  destruct p; cbn in E; try done; unfold Lock, TryLock, unlock, cas, M_LOCKED in E.
  - case_decide as E0; injection E as <- <- <-; cbn [wake]; [|exists W, L, cr, q; mv_thread I Hi]. exists W, 1, cr, q. mv_thread I Hi.
  - case_decide as E0; injection E as <- <- <-; cbn [wake]; [|exists W, L, cr, q; mv_thread I Hi]. exists W, 1, cr, q. mv_thread I Hi.
  - injection E as <- <- <-. exists W, L, cr, q. mv_thread I Hi.
  - destruct (lock_slow m old) as [m1 p1] eqn:E1. injection E as <- <- <-. by eapply lock_slow_good.
  - destruct (sem_acquire (m_sema m) (gid i)) as [s got] eqn:E1. injection E as <- <- <-. by eapply acquire_good.
  - case_decide as E0; injection E as <- <- <-; cbn [wake]; [|exists W, L, cr, q; mv_thread I Hi]. exists 0, 0, cr, q.
    destruct (owner_locked _ _ _ _ _ _ _ _ I Hi eq_refl) as (-> & _). mv_thread I Hi.
  - injection E as <- <- <-. exists W, L, cr, q. cbn [wake]. eapply mu_inv_pc; try done. intros old [= <-]. rewrite Hs, land_locked by lia.
    by apply (owner_locked _ _ _ _ _ _ _ _ I Hi).
  - destruct (unlock_slow m old) as [m1 p1] eqn:E1. injection E as <- <- <-. by eapply unlock_slow_good.
  - destruct (sem_release (m_sema m)) as [s h] eqn:E1. injection E as <- <- <-. by eapply release_good.
Qed.

Lemma mu_step_good c c' : good c -> step c c' -> good c'.
Proof.
  intros G St; revert G; destruct St as [m l i Hi|m l i Hi|m l i Hi|m l i p m' p' g Hi E]; intros G; [| | |exact (run_good _ m l i p m' p' g eq_refl G Hi E)];
    destruct G as (W & L & cr & q & I); exists W, L, cr, q; by eapply mu_inv_pc.
Qed.

Lemma mu_start_good n : Z.of_nat n < 2 ^ 31 -> good (start n).
Proof.
  intros Hn. exists 0, 0, 0, []. split; cbn [start mu pcs mutex_new m_state m_sema]; try done; try lia.
  - unfold count. by rewrite !zsum_replicate.
  - unfold count. by rewrite !zsum_replicate.
  - apply sem_new_ok.
  - by apply queue_ok_replicate.
  - intros i old [E _]%lookup_replicate. done.
  - intros i [E _]%lookup_replicate. done.
  - unfold zlen. by rewrite length_replicate.
Qed.

Lemma mu_reachable_good n c : Z.of_nat n < 2 ^ 31 -> reachable n c -> good c.
Proof.
  intros Hn R. assert (forall a b, rtc step a b -> good a -> good b) as Hp by (induction 1; eauto using mu_step_good).
  by eapply Hp, mu_start_good.
Qed.


(** C20: no wake-up is lost: while a goroutine is parked on the mutex, another one owns it or is
    about to hand it over, so a state in which every other goroutine is outside or parked has
    nobody parked; and what the hand-over readies is a parked goroutine, which then holds
    the mutex. *)
Theorem mutex_no_lost_wakeup n c i : Z.of_nat n < 2 ^ 31 -> reachable n c -> pcs c !! i = Some Parked ->
  exists j p, pcs c !! j = Some p /\ (owner p = true \/ handing p = true) /\
    (p = UnlockRelease -> exists m' k, thread_step (gid j) p (mu c) = Some (m', Idle, Some (gid k)) /\
       wake resume (Some (gid k)) (<[j := Idle]> (pcs c)) !! k = Some Holding).
Proof.
  intros Hn R Hi. destruct (mu_reachable_good n c Hn R) as (W & L & cr & q & I). destruct c as [m l]. cbn [pcs mu] in *.
  assert (gid i ∈ q) as Hq by (apply (iv_queue _ _ _ _ _ I); by exists i, Parked).
  assert (cr = 0) as Hcr.
  { pose proof (iv_bounds _ _ _ _ _ I). destruct (decide (0 < cr)) as [Hc|]; [|lia]. rewrite (iv_credit _ _ _ _ _ I Hc) in Hq. by apply elem_of_nil in Hq. }
  pose proof (count_ge waiting l i _ Hi) as Hw. cbn [waiting Z.b2z] in Hw. pose proof (iv_waiters _ _ _ _ _ I). pose proof (iv_owner _ _ _ _ _ I).
  pose proof (iv_free _ _ _ _ _ I). pose proof (iv_bounds _ _ _ _ _ I). cbn [mu pcs] in *.
  destruct (decide (0 < count handing l)) as [Hh|Hh].
  - apply zsum_pos in Hh as (j & p & Hj & Hp). exists j, p. split; [done|]. destruct p; cbn in Hp; try lia. split; [by right|]. intros _.
    pose proof (iv_sema _ _ _ _ _ I) as Hr. cbn in Hr. destruct q as [|h q]; [by apply elem_of_nil in Hq|].
    destruct (sem_release_wake cr h q _ Hr) as (s' & E & _). cbn [thread_step]. rewrite E.
    assert (queue_ok parked (<[j := Idle]> l) (h :: q)) as Hq' by (eapply queue_ok_same; [apply I|exact Hj|done|done]).
    destruct (queue_ok_wake parked _ q h Hq' (sem_nodup _ _ _ Hr)) as (k & p & -> & Ek & Hp' & Hwk).
    destruct p; try done. destruct (Hwk resume eq_refl) as [Ew _]. eexists _, k. split; [done|]. rewrite Ew.
    apply list_lookup_insert_eq. by eapply lookup_lt_Some.
  - assert (0 < count owner l) as Ho by (pose proof (count_nonneg handing l); lia).
    apply zsum_pos in Ho as (j & p & Hj & Hp). exists j, p. split; [done|]. split; [left; by destruct (owner p)|]. intros ->. by cbn in Hp.
Qed.
End mutex.

(** ** A contended run *)

(** Let the goroutines of [sched] move in turn: a step if there is one, else a call. *)
Fixpoint play (sched : list nat) (c : config (S := SemaState)) : config :=
  match sched with
  | [] => c
  | i :: sched =>
      play sched
        match pcs c !! i with
        | None => c
        | Some p =>
            match thread_step (gid i) p (mu c), p with
            | Some (m, p, g), _ => mkConfig m (wake resume g (<[i := p]> (pcs c)))
            | None, Idle => mkConfig (mu c) (<[i := LockFast]> (pcs c))
            | None, Holding => mkConfig (mu c) (<[i := UnlockFast]> (pcs c))
            | None, _ => c
            end
        end
  end.

Lemma mu_play_steps sched : forall c, rtc step c (play sched c).
Proof.
  induction sched as [|i sched IH]; intros [m l]; [apply rtc_refl|]. cbn [play pcs mu].
  destruct (l !! i) as [p|] eqn:E; [|apply IH]. destruct (thread_step (gid i) p m) as [[[m' p'] g]|] eqn:Et.
  - eapply rtc_l; [by eapply step_run|apply IH].
  - destruct p; try apply IH; (eapply rtc_l; [|apply IH]); [by apply step_lock|by apply step_unlock].
Qed.

(** Goroutine 0 takes the mutex, 1 and 2 park, 0 hands it over to 1. *)
Definition contended : list nat := [0; 0; 1; 1; 1; 1; 1; 2; 2; 2; 2; 2; 0; 0; 0; 0; 0]%nat.


Lemma mutex_no_lost_wakeup_witness : exists j p, pcs (play contended (start 3)) !! j = Some p /\ (owner p = true \/ handing p = true).
Proof.
  destruct (mutex_no_lost_wakeup 3 (play contended (start 3)) 2) as (j & p & Hj & Hp & _); [lia|apply mu_play_steps|vm_compute; reflexivity|].
  exact (ex_intro _ j (ex_intro _ p (conj Hj Hp))).
Defined.
