(* ===== verification/WaitGroup.v ===== *)
(** The wait group: src/src/sync/waitgroup.rs, with goroutines interleaved at every atomic
    access, on the same model of goroutines and semaphore as the mutex.

    The state word is a u64 [counter:32 | waiters:32].  [Done] is [Add(-1)]; [Drop] is [Wait]
    when the counter is not zero. *)
From Stdlib Require Import ZArith Lia.
From stdpp Require Import base tactics numbers list list_numbers option relations.
From S2P Require Import Prelude Threads Sema.
Open Scope Z_scope.

Definition WG_WAITER_MASK : Z := Z.shiftl 1 32 - 1.

(** [(x >> 32) as i64] of a u64. *)
Definition counter_of (x : Z) : Z := let c := shr64 x 32 in if decide (c < 2 ^ 63) then c else c - 2 ^ 64.
Definition waiters_of (x : Z) : Z := Z.land x WG_WAITER_MASK.

Section waitgroup.
  Context {S : Type} `{Semaphore S}.

Record WaitGroup := mkWG { wg_state : Z; wg_sema : S }.

Definition wg_new : WaitGroup := mkWG 0 sem_new.

(** Where a goroutine is: outside; in [Add] before the exchange of the zeroed word, or in
    [release_n] with [left] units to give; in [Wait] before its load, before its exchange of
    the loaded word, before the semaphore, parked; or ended by [fatal]. *)
Inductive pc :=
| Idle
| AddCas (new_state : Z) | Releasing (left : Z)
| WaitLoad | WaitCas (st : Z) | WaitAcquire | Parked
| Fatal.

(** [Add] up to and including its [fetch_add]. *)
Definition Add (w : WaitGroup) (delta : Z) : WaitGroup * pc :=
  let raw_delta := shl64 (wrap64 delta) 32 in
  let new_state := add64 (wg_state w) raw_delta in
  let w := mkWG new_state (wg_sema w) in
  let counter := counter_of new_state in
  let waiters := waiters_of new_state in
  if decide (counter < 0) then (w, Fatal)
  else if decide (counter > 0 \/ waiters = 0) then (w, Idle)
  else (w, AddCas new_state).

(** [Add]'s exchange, which makes its goroutine the unique waker. *)
Definition add_cas (w : WaitGroup) (new_state : Z) : WaitGroup * pc :=
  if decide (wg_state w = new_state) then (mkWG 0 (wg_sema w), Releasing (waiters_of new_state)) else (w, Idle).

Definition Done (w : WaitGroup) : WaitGroup * pc := Add w (-1).

Definition try_wait (w : WaitGroup) : bool := bool_decide (shr64 (wg_state w) 32 = 0).

(** [Wait]'s loop: the load, then the exchange that registers the waiter. *)
Definition wait_load (w : WaitGroup) : pc := if decide (counter_of (wg_state w) = 0) then Idle else WaitCas (wg_state w).
Definition wait_cas (w : WaitGroup) (st : Z) : WaitGroup * pc :=
  if decide (wg_state w = st) then (mkWG (st + 1) (wg_sema w), WaitAcquire) else (w, WaitLoad).

(** One step of goroutine [g], and whom it readies. *)
Definition thread_step (g : Z) (p : pc) (w : WaitGroup) : option (WaitGroup * pc * option Z) :=
  match p with
  | AddCas ns => let '(w, p) := add_cas w ns in Some (w, p, None)
  | Releasing n =>
      let '(s, g) := sem_release_n_step (wg_sema w) n in
      let w := mkWG (wg_state w) s in
      match g with
      | None => Some (w, Idle, None)
      | Some g => Some (w, if decide (n - 1 = 0) then Idle else Releasing (n - 1), Some g)
      end
  | WaitLoad => Some (w, wait_load w, None)
  | WaitCas st => let '(w, p) := wait_cas w st in Some (w, p, None)
  | WaitAcquire =>
      let '(s, got) := sem_acquire (wg_sema w) g in
      Some (mkWG (wg_state w) s, if (got : bool) then Idle else Parked, None)
  | Idle | Parked | Fatal => None
  end.

Definition resume (p : pc) : pc := match p with Parked => Idle | p => p end.

(** Inside a call of [Wait]. *)
Definition in_wait (p : pc) : bool :=
  match p with WaitLoad | WaitCas _ | WaitAcquire | Parked => true | _ => false end.

Record config := mkConfig { wg : WaitGroup; pcs : list pc }.

Inductive step : config -> config -> Prop :=
| step_add w l i d w' p : l !! i = Some Idle -> Add w d = (w', p) -> step (mkConfig w l) (mkConfig w' (<[i := p]> l))
| step_wait w l i : l !! i = Some Idle -> step (mkConfig w l) (mkConfig w (<[i := WaitLoad]> l))
| step_run w l i p w' p' g : l !! i = Some p -> thread_step (gid i) p w = Some (w', p', g) ->
    step (mkConfig w l) (mkConfig w' (wake resume g (<[i := p']> l))).

Definition start (n : nat) : config := mkConfig wg_new (replicate n Idle).
Definition reachable (n : nat) (c : config) : Prop := rtc step (start n) c.

(** ** The state word *)

Lemma counter_div x : is_u64 x -> counter_of x = x / 2 ^ 32.
Proof. intros Hx. unfold counter_of, is_u64 in *. rewrite shr64_div by lia. rewrite decide_True by lia. done. Qed.

Lemma waiters_mod x : 0 <= x -> waiters_of x = x mod 2 ^ 32.
Proof. intros Hx. unfold waiters_of, WG_WAITER_MASK. change (Z.shiftl 1 32 - 1) with (Z.ones 32). by rewrite Z.land_ones by lia. Qed.

Lemma add_state x d : is_u64 x -> exists C, 0 <= C < 2 ^ 32 /\ add64 x (shl64 (wrap64 d) 32) = C * 2 ^ 32 + x mod 2 ^ 32.
Proof.
  intros Hx. exists ((x / 2 ^ 32 + d) mod 2 ^ 32). split; [apply Z.mod_pos_bound; lia|].
  unfold add64, shl64, wrap64. rewrite Z.shiftl_mul_pow2 by lia. rewrite Zplus_mod_idemp_r, (Z.mul_comm (d mod _)).
  assert ((x + 2 ^ 32 * (d mod 2 ^ 64)) mod 2 ^ 64 = (x + 2 ^ 32 * d) mod 2 ^ 64) as ->.
  { rewrite <- Zplus_mod_idemp_r, Zmult_mod_idemp_r, Zplus_mod_idemp_r. done. }
  unfold is_u64 in *. lia.
Qed.

(** [Add] never ends in the fatal error of a negative counter: the counter is read from the
    word with an unsigned shift, so it is never negative, and an [Add] below zero wraps to
    a counter of about 2^32; a [Wait] after it registers instead of returning. *)
Theorem add_never_negative w d : is_u64 (wg_state w) -> (Add w d).2 <> Fatal /\
  exists w', Add wg_new (-1) = (w', Idle) /\ counter_of (wg_state w') = 4294967295 /\ wait_load w' <> Idle.
Proof.
  intros Hw. split.
  - unfold Add. destruct (add_state (wg_state w) d Hw) as (C & HC & E). cbv zeta. rewrite E. rewrite counter_div by (unfold is_u64; lia).
    rewrite decide_False by lia. by case_decide.
  - eexists. split; [reflexivity|]. split; [reflexivity|]. done.
Qed.

(** ** Invariant *)

Definition parked (p : pc) : bool := match p with Parked => true | _ => false end.
Definition waiting (p : pc) : Z := match p with WaitAcquire | Parked => 1 | _ => 0 end.
Definition giving (p : pc) : Z := match p with Releasing n => n | _ => 0 end.

Definition pc_ok (p : pc) : Prop :=
  match p with
  | AddCas ns => 0 < ns < 2 ^ 32
  | Releasing n => 0 < n
  | WaitCas st => 2 ^ 32 <= st
  | Fatal => False
  | _ => True
  end.

(** [C] is the counter, [W] the registered waiters that have not been given a unit. *)
Record inv (C W cr : Z) (q : list Z) (c : config) : Prop := {
  iv_state : wg_state (wg c) = C * 2 ^ 32 + W;
  iv_bounds : 0 <= C < 2 ^ 32 /\ 0 <= W < 2 ^ 32 /\ 0 <= cr;
  iv_waiters : W + zsum giving (pcs c) + cr = zsum waiting (pcs c);
  iv_sema : sem_rep cr q (wg_sema (wg c));
  iv_credit : 0 < cr -> q = [];
  iv_queue : queue_ok parked (pcs c) q;
  iv_pcs : forall i p, pcs c !! i = Some p -> pc_ok p;
  iv_waker : C = 0 -> 0 < W -> exists i, pcs c !! i = Some (AddCas (wg_state (wg c)));
  iv_size : zlen (pcs c) < 2 ^ 32
}.

Definition good (c : config) : Prop := exists C W cr q, inv C W cr q c.

Lemma wg_inv_move C W cr q w l i p p' C' W' cr' q' w' : inv C W cr q (mkConfig w l) -> l !! i = Some p ->
  wg_state w' = C' * 2 ^ 32 + W' -> 0 <= C' < 2 ^ 32 /\ 0 <= W' < 2 ^ 32 /\ 0 <= cr' ->
  W' - W + giving p' - giving p + (cr' - cr) = waiting p' - waiting p ->
  sem_rep cr' q' (wg_sema w') -> (0 < cr' -> q' = []) -> queue_ok parked (<[i := p']> l) q' -> pc_ok p' ->
  (C' = 0 -> 0 < W' -> p' = AddCas (wg_state w') \/ (wg_state w' = wg_state w /\ p <> AddCas (wg_state w))) ->
  inv C' W' cr' q' (mkConfig w' (<[i := p']> l)).
Proof.
  intros [I1 I2 I3 I4 I5 I6 I7 I8 I9] Hi Hst Hb HW Hs Hc Hq Hp Hwk. cbn [wg pcs] in *.
  split; cbn [wg pcs]; try done.
  - rewrite !(zsum_insert _ l i p p' Hi). lia.
  - intros j x Ej. apply list_lookup_insert_Some in Ej as [(_ & <- & _)|[_ Ej]]; [done|by apply (I7 j)].
  - intros HC HW0. destruct (Hwk HC HW0) as [->|[E Hne]]; [exists i; apply list_lookup_insert_eq; by eapply lookup_lt_Some|].
    destruct I8 as [j Ej]; [lia|lia|]. exists j. rewrite E, list_lookup_insert_ne by congruence. done.
  - by rewrite zlen_insert.
Qed.

Lemma wg_inv_local C W cr q w l i p p' C' W' st : inv C W cr q (mkConfig w l) -> l !! i = Some p ->
  st = C' * 2 ^ 32 + W' -> 0 <= C' < 2 ^ 32 /\ 0 <= W' < 2 ^ 32 ->
  W' - W + giving p' - giving p = waiting p' - waiting p ->
  parked p = false -> parked p' = false -> pc_ok p' ->
  (C' = 0 -> 0 < W' -> p' = AddCas st \/ (st = wg_state w /\ p <> AddCas (wg_state w))) ->
  inv C' W' cr q (mkConfig (mkWG st (wg_sema w)) (<[i := p']> l)).
Proof.
  intros I Hi Hst Hb HW Hp Hp' Hok Hwk. eapply wg_inv_move; try done; try lia.
  - destruct (iv_bounds _ _ _ _ _ I) as (_ & _ & ?). lia.
  - apply I.
  - apply I.
  - eapply queue_ok_same; [apply I|exact Hi|done|done].
Qed.

Lemma wg_eta w : mkWG (wg_state w) (wg_sema w) = w.
Proof. by destruct w. Qed.

Lemma wg_inv_pc C W cr q w l i p p' : inv C W cr q (mkConfig w l) -> l !! i = Some p ->
  giving p' - giving p = waiting p' - waiting p -> parked p = false -> parked p' = false -> pc_ok p' ->
  p <> AddCas (wg_state w) -> inv C W cr q (mkConfig w (<[i := p']> l)).
Proof.
  intros I Hi HW Hp Hp' Hok Hne. rewrite <- (wg_eta w) at 1. destruct (iv_bounds _ _ _ _ _ I) as (? & ? & _).
  eapply (wg_inv_local C W cr q w l i p p' C W); try done; [apply I|lia|by right].
Qed.
Lemma inv_u64 C W cr q c : inv C W cr q c -> is_u64 (wg_state (wg c)).
Proof. intros I. unfold is_u64. rewrite (iv_state _ _ _ _ _ I). pose proof (iv_bounds _ _ _ _ _ I). lia. Qed.

Lemma inv_counter C W cr q c : inv C W cr q c -> counter_of (wg_state (wg c)) = C.
Proof.
  intros I. rewrite counter_div by (by eapply inv_u64). rewrite (iv_state _ _ _ _ _ I). pose proof (iv_bounds _ _ _ _ _ I). lia.
Qed.

(** The operations, thread by thread. *)
Lemma inv_Add C W cr q w l i d w' p : inv C W cr q (mkConfig w l) -> l !! i = Some Idle -> Add w d = (w', p) ->
  exists C', inv C' W cr q (mkConfig w' (<[i := p]> l)) /\ (C' <> 0 -> p = Idle).
Proof.
  intros I Hi. destruct (add_state (wg_state w) d (inv_u64 _ _ _ _ _ I)) as (C' & HC & E). unfold Add. cbv zeta. rewrite E.
  pose proof (iv_state _ _ _ _ _ I) as Hs. cbn in Hs. destruct (iv_bounds _ _ _ _ _ I) as (? & ? & _).
  replace (wg_state w mod 2 ^ 32) with W by lia. rewrite counter_div, waiters_mod by (unfold is_u64; lia).
  rewrite decide_False by lia. case_decide as Hc; intros [= <- <-]; exists C'.
  - split; [|done]. eapply wg_inv_local; [exact I|exact Hi|..]; try done; cbn; lia.
  - assert (C' = 0) as -> by lia. split; [|done]. eapply wg_inv_local; [exact I|exact Hi|..]; try done; cbn; try lia. by left.
Qed.

Lemma inv_add_cas C W cr q w l i ns w' p : inv C W cr q (mkConfig w l) -> l !! i = Some (AddCas ns) -> add_cas w ns = (w', p) ->
  good (mkConfig w' (<[i := p]> l)).
Proof.
  intros I Hi. unfold add_cas. pose proof (iv_pcs _ _ _ _ _ I i _ Hi) as Hns. cbn in Hns. pose proof (iv_state _ _ _ _ _ I) as Hs. cbn in Hs.
  destruct (iv_bounds _ _ _ _ _ I) as (? & ? & _). case_decide as Hc; intros [= <- <-].
  - assert (C = 0 /\ W = ns) as [-> ->] by lia. exists 0, 0, cr, q. rewrite waiters_mod by lia. rewrite Z.mod_small by lia.
    eapply wg_inv_local; [exact I|exact Hi|..]; try done; cbn; lia.
  - exists C, W, cr, q. eapply wg_inv_pc; try done. congruence.
Qed.

Lemma inv_wait_cas C W cr q w l i st w' p : inv C W cr q (mkConfig w l) -> l !! i = Some (WaitCas st) -> wait_cas w st = (w', p) ->
  exists W', inv C W' cr q (mkConfig w' (<[i := p]> l)) /\ (p = WaitAcquire \/ p = WaitLoad).
Proof.
  intros I Hi. unfold wait_cas. pose proof (iv_pcs _ _ _ _ _ I i _ Hi) as Hns. cbn in Hns. pose proof (iv_state _ _ _ _ _ I) as Hs. cbn in Hs.
  destruct (iv_bounds _ _ _ _ _ I) as (? & ? & ?). case_decide as Hc; intros [= <- <-].
  - exists (W + 1). split; [|by left].
    assert (zsum waiting (<[i := WaitAcquire]> l) <= zlen (<[i := WaitAcquire]> l)) as Hn by (apply zsum_le_len; intros []; cbn; lia).
    rewrite (zsum_insert _ _ _ _ _ Hi), zlen_insert in Hn. cbn [waiting] in Hn.
    pose proof (iv_waiters _ _ _ _ _ I). pose proof (iv_size _ _ _ _ _ I). cbn [wg pcs] in *.
    assert (0 <= zsum giving l).
    { clear -I. pose proof (iv_pcs _ _ _ _ _ I) as Hp. cbn in Hp. clear I. induction l as [|x l IH]; cbn; [lia|].
      pose proof (Hp 0%nat x eq_refl) as Hx. specialize (IH (fun i p => Hp (Datatypes.S i) p)). destruct x; cbn in *; lia. }
    eapply wg_inv_local; [exact I|exact Hi|..]; try done; cbn [giving waiting pc_ok]; lia.
  - exists W. split; [|by right]. eapply wg_inv_pc; try done.
Qed.

Lemma inv_wait_load C W cr q w l i : inv C W cr q (mkConfig w l) -> l !! i = Some WaitLoad ->
  inv C W cr q (mkConfig w (<[i := wait_load w]> l)) /\ (C <> 0 -> in_wait (wait_load w) = true).
Proof.
  intros I Hi. pose proof (inv_counter _ _ _ _ _ I) as HC. pose proof (iv_state _ _ _ _ _ I) as Hs. cbn in HC, Hs. unfold wait_load. rewrite HC.
  destruct (iv_bounds _ _ _ _ _ I) as (? & ? & _). case_decide as Hz; (split; [|done]); eapply wg_inv_pc; try done. cbn. lia.
Qed.

Lemma inv_acquire C W cr q w l i s got : inv C W cr q (mkConfig w l) -> l !! i = Some WaitAcquire ->
  sem_acquire (wg_sema w) (gid i) = (s, got) ->
  exists cr' q', inv C W cr' q' (mkConfig (mkWG (wg_state w) s) (<[i := if got then Idle else Parked]> l)) /\
    (cr = 0 -> cr' = 0 /\ got = false).
Proof.
  intros I Hi E. pose proof (iv_sema _ _ _ _ _ I) as Hr. pose proof (iv_queue _ _ _ _ _ I) as Hq. cbn in Hr, Hq.
  destruct (iv_bounds _ _ _ _ _ I) as (? & ? & ?). destruct (decide (0 < cr)) as [Hc|Hc].
  - destruct (sem_acquire_credit cr q _ (gid i) Hr Hc) as (s' & E' & Hr'). rewrite E in E'. injection E' as -> ->.
    exists (cr - 1), q. split; [|lia]. eapply wg_inv_move; [exact I|exact Hi|..]; try done; cbn [waiting giving wg_state wg_sema]; try done; try lia; [apply I| | |].
    + intros _. by apply (iv_credit _ _ _ _ _ I).
    + by eapply queue_ok_same.
    + intros _ _. by right.
  - destruct (queue_ok_park parked l q i _ Parked Hq Hi eq_refl eq_refl) as [Hni Hq'].
    destruct (sem_acquire_park cr q _ (gid i) Hr ltac:(lia) ltac:(unfold gid; lia) Hni) as (s' & E' & Hr'). rewrite E in E'. injection E' as -> ->.
    exists cr, (q ++ [gid i]). split; [|done].
    eapply wg_inv_move; [exact I|exact Hi|..]; try done; cbn [waiting giving wg_state wg_sema]; try done; try lia; [apply I|].
    intros _ _. by right.
Qed.

Lemma inv_release C W cr q w l i n s g : inv C W cr q (mkConfig w l) -> l !! i = Some (Releasing n) ->
  sem_release_n_step (wg_sema w) n = (s, g) ->
  good (mkConfig (mkWG (wg_state w) s)
          (wake resume g (<[i := match g with None => Idle | Some _ => if decide (n - 1 = 0) then Idle else Releasing (n - 1) end]> l))).
Proof.
  intros I Hi E. pose proof (iv_sema _ _ _ _ _ I) as Hr. cbn in Hr. pose proof (iv_pcs _ _ _ _ _ I i _ Hi) as Hn. cbn in Hn.
  destruct (iv_bounds _ _ _ _ _ I) as (? & ? & ?). destruct q as [|h q].
  - destruct (sem_release_n_credit cr _ n Hr) as (s' & E' & Hr'). rewrite E in E'. injection E' as -> ->. cbn [wake].
    exists C, W, (cr + n), []. eapply wg_inv_move; [exact I|exact Hi|..]; try done; cbn [waiting giving wg_state wg_sema]; try done; try lia; [apply I| |].
    + eapply queue_ok_same; [apply I|exact Hi|done|done].
    + intros _ _. by right.
  - destruct (sem_release_n_wake cr h q _ n Hr) as (s' & E' & Hr'). rewrite E in E'. injection E' as -> ->.
    set (p' := if decide (n - 1 = 0) then Idle else Releasing (n - 1)).
    assert (parked p' = false /\ giving p' = n - 1 /\ waiting p' = 0 /\ pc_ok p') as (Hp1 & Hp2 & Hp3 & Hp4) by (unfold p'; case_decide; cbn; split_and!; done || lia).
    assert (queue_ok parked (<[i := p']> l) (h :: q)) as Hq by (eapply queue_ok_same; [apply I|exact Hi|done|done]).
    destruct (queue_ok_wake parked _ q h Hq (sem_nodup _ _ _ Hr)) as (j & p & -> & Ej & Hp & Hw).
    destruct p; try done. destruct (Hw resume eq_refl) as [-> Hq']. cbn [resume] in *.
    assert (j <> i) as Hji by (intros ->; rewrite list_lookup_insert_eq in Ej by (by eapply lookup_lt_Some); injection Ej as Ej; by rewrite Ej in Hp1).
    rewrite list_lookup_insert_ne in Ej by done. rewrite list_insert_insert_ne in Hq' |- * by done.
    exists C, W, cr, q. destruct I as [I1 I2 I3 I4 I5 I6 I7 I8 I9]. cbn [wg pcs] in *.
    assert (<[j := Idle]> l !! i = Some (Releasing n)) as Hi' by (by rewrite list_lookup_insert_ne).
    split; cbn [wg pcs wg_state wg_sema]; try done.
    + rewrite !(zsum_insert _ _ i _ _ Hi'), !(zsum_insert _ _ j _ _ Ej), Hp2, Hp3. cbn [waiting giving]. lia.
    + intros Hc. discriminate (I5 Hc).
    + intros k x Ek. apply list_lookup_insert_Some in Ek as [(_ & <- & _)|[_ Ek]]; [done|].
      apply list_lookup_insert_Some in Ek as [(_ & <- & _)|[_ Ek]]; [done|]. by apply (I7 k).
    + intros HC HW. destruct (I8 HC HW) as [k Ek]. exists k. rewrite !list_lookup_insert_ne by congruence. done.
    + by rewrite !zlen_insert.
Qed.

Lemma wg_step_good c c' : good c -> step c c' -> good c'.
Proof.
  intros G St; revert G; destruct St as [w l i d w' p Hi E|w l i Hi|w l i p w' p' g Hi E]; intros (C & W & cr & q & I).
  - destruct (inv_Add _ _ _ _ _ _ _ _ _ _ I Hi E) as (C' & I' & _). by exists C', W, cr, q.
  - exists C, W, cr, q. by eapply wg_inv_pc.
  - destruct p as [|ns|n| |st| | |]; cbn [thread_step] in E; try done.
    + destruct (add_cas w ns) as [w1 p1] eqn:E1. injection E as <- <- <-. by eapply inv_add_cas.
    + destruct (sem_release_n_step (wg_sema w) n) as [s h] eqn:E1. pose proof (inv_release _ _ _ _ _ _ _ _ _ _ I Hi E1) as G.
      destruct h; injection E as <- <- <-; exact G.
    + injection E as <- <- <-. exists C, W, cr, q. by apply (inv_wait_load _ _ _ _ _ _ _ I Hi).
    + destruct (wait_cas w st) as [w1 p1] eqn:E1. injection E as <- <- <-. destruct (inv_wait_cas _ _ _ _ _ _ _ _ _ _ I Hi E1) as (W' & I' & _).
      by exists C, W', cr, q.
    + destruct (sem_acquire (wg_sema w) (gid i)) as [s got] eqn:E1. injection E as <- <- <-.
      destruct (inv_acquire _ _ _ _ _ _ _ _ _ I Hi E1) as (cr' & q' & I' & _). by exists C, W, cr', q'.
Qed.

Lemma wg_start_inv n : Z.of_nat n < 2 ^ 32 -> inv 0 0 0 [] (start n).
Proof.
  intros Hn. split; cbn [start wg pcs wg_new wg_state wg_sema]; try done; try lia.
  - by rewrite !zsum_replicate.
  - apply sem_new_ok.
  - by apply queue_ok_replicate.
  - intros i p [-> _]%lookup_replicate. done.
  - unfold zlen. by rewrite length_replicate.
Qed.

Lemma wg_reachable_good n c : Z.of_nat n < 2 ^ 32 -> reachable n c -> good c.
Proof.
  intros Hn R. assert (forall a b, rtc step a b -> good a -> good b) as Hp by (induction 1; eauto using wg_step_good).
  eapply Hp; [exact R|]. exists 0, 0, 0, []. by apply wg_start_inv.
Qed.

(** C24: a [Wait] is not left behind: when the counter is zero and a goroutine is parked in
    [Wait], some other goroutine is between the [Add] that brought the counter to zero and
    the end of its releases (it is about to exchange exactly the current word, or has units
    left to give); so once every call of [Add] has returned at a zero counter nobody is
    parked. *)
Theorem wg_no_lost_wakeup n c i : Z.of_nat n < 2 ^ 32 -> reachable n c -> counter_of (wg_state (wg c)) = 0 ->
  pcs c !! i = Some Parked ->
  exists j p, pcs c !! j = Some p /\ (p = AddCas (wg_state (wg c)) \/ exists k, p = Releasing k /\ 0 < k).
Proof.
  intros Hn R HC Hi. destruct (wg_reachable_good n c Hn R) as (C & W & cr & q & I). rewrite (inv_counter _ _ _ _ _ I) in HC. subst C.
  assert (gid i ∈ q) as Hq by (apply (iv_queue _ _ _ _ _ I); by exists i, Parked).
  assert (cr = 0) as Hcr.
  { pose proof (iv_bounds _ _ _ _ _ I). destruct (decide (0 < cr)) as [Hc|]; [|lia]. rewrite (iv_credit _ _ _ _ _ I Hc) in Hq. by apply elem_of_nil in Hq. }
  assert (1 <= zsum waiting (pcs c)) by (apply (zsum_ge waiting (pcs c) i Parked); [intros []; cbn; lia|done]).
  pose proof (iv_waiters _ _ _ _ _ I). destruct (decide (0 < W)) as [HW|HW].
  - destruct (iv_waker _ _ _ _ _ I eq_refl HW) as [j Hj]. exists j. eexists. split; [exact Hj|by left].
  - pose proof (iv_bounds _ _ _ _ _ I). destruct (zsum_pos giving (pcs c)) as (j & p & Hj & Hp); [lia|]. exists j, p. split; [done|].
    destruct p; cbn in Hp; try lia. right. by eexists.
Qed.

(** ** While the counter is not zero *)

(** A run none of whose states has a zero counter. *)
Definition busy_step (c c' : config) : Prop := step c c' /\ counter_of (wg_state (wg c')) <> 0.

Definition quiet (p : pc) : bool := match p with Idle => true | p => in_wait p end.

Definition busy_inv (c : config) : Prop := exists C W q, inv C W 0 q c /\ forall i p, pcs c !! i = Some p -> quiet p = true.

Lemma quiet_insert (l : list pc) (i : nat) p' : (forall i p, l !! i = Some p -> quiet p = true) -> quiet p' = true ->
  forall j p, <[i := p']> l !! j = Some p -> quiet p = true.
Proof. intros Hq Hp j p Hj. apply list_lookup_insert_Some in Hj as [(_ & <- & _)|[_ Hj]]; [done|by eapply Hq]. Qed.

(** Thread [i] went from [p] to [p'] and stayed in [Wait] if it was there. *)
Lemma busy_move C' W' q' w' (l : list pc) (i : nat) p p' : inv C' W' 0 q' (mkConfig w' (<[i := p']> l)) -> l !! i = Some p ->
  (forall i p, l !! i = Some p -> quiet p = true) -> quiet p' = true -> (in_wait p = true -> in_wait p' = true) ->
  busy_inv (mkConfig w' (<[i := p']> l)) /\
  forall j x, l !! j = Some x -> in_wait x = true -> exists x', <[i := p']> l !! j = Some x' /\ in_wait x' = true.
Proof.
  intros I Hi Hq Hp Hw. split; [exists C', W', q'; split; [done|by apply quiet_insert]|].
  intros j x Hj Hx. destruct (decide (i = j)) as [<-|Hij].
  - exists p'. rewrite list_lookup_insert_eq by (by eapply lookup_lt_Some). split; [done|]. apply Hw. congruence.
  - exists x. by rewrite list_lookup_insert_ne.
Qed.

Lemma busy_step_ok c c' : busy_inv c -> counter_of (wg_state (wg c)) <> 0 -> busy_step c c' ->
  busy_inv c' /\ forall i p, pcs c !! i = Some p -> in_wait p = true -> exists p', pcs c' !! i = Some p' /\ in_wait p' = true.
Proof.
  intros (C & W & q & I & Hq) HC [St HC']. rewrite (inv_counter _ _ _ _ _ I) in HC.
  destruct St as [w l i d w' p Hi E|w l i Hi|w l i p w' p' g Hi E]; cbn [pcs wg] in *.
  - destruct (inv_Add _ _ _ _ _ _ _ _ _ _ I Hi E) as (C' & I' & Hp). pose proof (inv_counter _ _ _ _ _ I') as Ec. cbn [wg] in Ec. rewrite Ec in HC'. rewrite (Hp HC') in *.
    by eapply busy_move.
  - eapply busy_move; try done. by eapply wg_inv_pc.
  - pose proof (Hq _ _ Hi) as Hqp. destruct p as [|ns|n| |st| | |]; cbn [thread_step] in E; try done.
    + injection E as <- <- <-. destruct (inv_wait_load _ _ _ _ _ _ _ I Hi) as [I' Hw]. specialize (Hw HC). cbn [wake].
      eapply busy_move; try done. unfold quiet. destruct (wait_load w); done.
    + destruct (wait_cas w st) as [w1 p1] eqn:E1. injection E as <- <- <-.
      destruct (inv_wait_cas _ _ _ _ _ _ _ _ _ _ I Hi E1) as (W' & I' & Hp). cbn [wake]. eapply busy_move; try done; by destruct Hp as [->| ->].
    + destruct (sem_acquire (wg_sema w) (gid i)) as [s got] eqn:E1. injection E as <- <- <-.
      destruct (inv_acquire _ _ _ _ _ _ _ _ _ I Hi E1) as (cr' & q' & I' & Hg). destruct (Hg eq_refl) as [-> ->]. cbn [wake]. by eapply busy_move.
Qed.

(** [Wait] does not return early: in a run that starts with [k] tasks added to a fresh wait
    group, as long as the counter has not been zero, every goroutine that is in a call of
    [Wait] stays in it, whatever the interleaving of further [Add]s, [Done]s and [Wait]s. *)
Theorem wg_wait_holds n k w c c' i p : Z.of_nat n < 2 ^ 32 -> 0 < k < 2 ^ 32 -> Add wg_new k = (w, Idle) ->
  rtc busy_step (mkConfig w (replicate n Idle)) c -> busy_step c c' ->
  pcs c !! i = Some p -> in_wait p = true -> exists p', pcs c' !! i = Some p' /\ in_wait p' = true.
Proof.
  intros Hn Hk E R St Hi Hp.
  assert (counter_of (wg_state w) <> 0 /\ inv k 0 0 [] (mkConfig w (replicate n Idle))) as [HC I].
  { revert E. unfold Add. cbv zeta. cbn [wg_new wg_state wg_sema].
    replace (add64 0 (shl64 (wrap64 k) 32)) with (k * 2 ^ 32) by (rewrite (wrap64_small k), shl64_small, add64_small by lia; lia).
    rewrite counter_div, waiters_mod by (unfold is_u64; lia). rewrite decide_False by lia. rewrite decide_True by lia. intros [= <-].
    cbn [wg_state]. rewrite counter_div by (unfold is_u64; lia). split; [lia|].
    destruct (wg_start_inv n Hn) as [I1 I2 I3 I4 I5 I6 I7 I8 I9]. split; cbn [wg pcs wg_state wg_sema start] in *; try done; lia. }
  assert (forall a b, rtc busy_step a b -> busy_inv a -> counter_of (wg_state (wg a)) <> 0 -> busy_inv b /\ counter_of (wg_state (wg b)) <> 0) as Hrun.
  { induction 1 as [|a b d Hab _ IH]; [done|]. intros Ha Hca. apply IH; [by apply (busy_step_ok a)|apply Hab]. }
  destruct (Hrun _ _ R) as [Hb HCb]; [|done|by eapply (busy_step_ok c)].
  exists k, 0, []. split; [done|]. intros j x [-> _]%lookup_replicate. done.
Qed.
End waitgroup.

(** ** A run *)

Abbreviation cfg := (config (S := SemaState)).

Lemma add_never_negative_witness : (Add (S := SemaState) wg_new (-7)).2 <> Fatal /\
  exists w', Add (S := SemaState) wg_new (-1) = (w', Idle) /\ counter_of (wg_state w') = 4294967295 /\ wait_load w' <> Idle.
Proof. apply (add_never_negative (S := SemaState) wg_new (-7)). unfold is_u64. cbn. lia. Defined.

(** Let the goroutines of [sched] move in turn: [None] is a step, [Some None] a call of [Wait],
    [Some (Some d)] a call of [Add d]. *)
Definition move1 (i : nat) (a : option (option Z)) (c : cfg) : cfg :=
  match pcs c !! i, a with
  | Some Idle, Some (Some d) => let '(w, p) := Add (wg c) d in mkConfig w (<[i := p]> (pcs c))
  | Some Idle, Some None => mkConfig (wg c) (<[i := WaitLoad]> (pcs c))
  | Some p, None =>
      match thread_step (gid i) p (wg c) with
      | Some (w, p, g) => mkConfig w (wake resume g (<[i := p]> (pcs c)))
      | None => c
      end
  | _, _ => c
  end.

Definition play (sched : list (nat * option (option Z))) (c : cfg) : cfg := foldl (fun c x => move1 x.1 x.2 c) c sched.

Lemma move1_step i a c : rtc step c (move1 i a c).
Proof.
  destruct c as [w l]. unfold move1. cbn [pcs wg]. destruct (l !! i) as [p|] eqn:E; [|apply rtc_refl].
  destruct a as [[d|]|].
  - destruct p; try apply rtc_refl. destruct (Add w d) as [w' p] eqn:Ea. eapply rtc_once, step_add; eauto.
  - destruct p; try apply rtc_refl. by apply rtc_once, step_wait.
  - assert (rtc step (mkConfig w l) match thread_step (gid i) p w with
              | Some (w, p, g) => mkConfig w (wake resume g (<[i := p]> l)) | None => mkConfig w l end) as Hs.
    { destruct (thread_step (gid i) p w) as [[[w' p'] g]|] eqn:Et; [|apply rtc_refl]. eapply rtc_once, step_run; eauto. }
    by destruct p.
Qed.

Lemma wg_play_steps sched : forall c, rtc step c (play sched c).
Proof. induction sched as [|x sched IH]; intros c; [apply rtc_refl|]. etransitivity; [apply (move1_step x.1 x.2)|apply IH]. Qed.

(** Two tasks are added, goroutines 1 and 2 park in [Wait], the tasks end: the second [Done]
    is about to exchange the word. *)
Definition two_tasks : list (nat * option (option Z)) :=
  [(0%nat, Some (Some 2)); (1%nat, Some None); (1%nat, None); (1%nat, None); (1%nat, None); (2%nat, Some None); (2%nat, None); (2%nat, None); (2%nat, None);
   (0%nat, Some (Some (-1))); (3%nat, Some (Some (-1)))].

Lemma wg_no_lost_wakeup_witness : exists j p, pcs (play two_tasks (start 4)) !! j = Some p /\
  (p = AddCas (wg_state (wg (play two_tasks (start 4)))) \/ exists k, p = Releasing k /\ 0 < k).
Proof. apply (wg_no_lost_wakeup 4 (play two_tasks (start 4)) 1); [lia|apply wg_play_steps|vm_compute; reflexivity..]. Defined.

Definition two_added : cfg := mkConfig (Add wg_new 2).1 (replicate 2 Idle).

Lemma wg_wait_holds_witness : exists p',
  pcs (move1 1 None (move1 1 (Some None) two_added)) !! 1%nat = Some p' /\ in_wait p' = true.
Proof.
  apply (wg_wait_holds 2 2 (Add wg_new 2).1 (move1 1 (Some None) two_added) _ 1 WaitLoad).
  - lia.
  - lia.
  - vm_compute. reflexivity.
  - apply rtc_once. split; [by apply step_wait|]. vm_compute. discriminate.
  - split; [eapply step_run; [reflexivity|reflexivity]|]. vm_compute. discriminate.
  - vm_compute. reflexivity.
  - reflexivity.
Defined.
