(* ===== verification/RWMutex.v ===== *)
(** The reader/writer mutex: src/src/sync/rwmutex.rs, with goroutines interleaved at every
    atomic access, on the same model of goroutines and semaphores as the mutex.

    The inner mutex [w] is used through its contract (the theorems of Mutex): [LockManual] is
    the step of a goroutine that finds it free, [TryLockManual] a test and set, [Unlock]
    frees it.  Counters are i32 with their wrap-around. *)
From Stdlib Require Import ZArith Lia.
From stdpp Require Import base tactics numbers list list_numbers option relations.
From S2P Require Import Prelude Threads Sema.
Open Scope Z_scope.

Definition RW_MAX_READERS : Z := Z.shiftl 1 30.
Definition wrap_i32 (x : Z) : Z := (x + 2 ^ 31) mod 2 ^ 32 - 2 ^ 31.

Section rwmutex.
  Context {S : Type} `{Semaphore S}.

Record RWMutex := mkRW {
  w : bool;
  writer_sem : S;
  reader_sem : S;
  reader_count : Z;
  reader_wait : Z
}.

Definition rw_new : RWMutex := mkRW false sem_new sem_new 0 0.

(** Where a goroutine is.  Readers: before the semaphore in [RLock], parked in it, holding
    the read lock, in [TryRLock] before its load and its exchange, in [r_unlock_slow] before
    the decrement of [reader_wait] and before the release.  Writers: before [w.LockManual],
    before the flip of [reader_count], before the addition to [reader_wait], before the
    semaphore, parked in it, holding the lock, in [Unlock] giving [n] units to readers,
    before [w.Unlock]; in [TryLock] before its test of [w], its exchange, its [w.Unlock]. *)
Inductive pc :=
| Idle
| RAcquire | RParked | RHolding | TryRLoad | TryRCas (c : Z) | RSlow | RRelease
| WLock | WFlip | WAdd (r_active : Z) | WAcquire | WParked | WHolding | WGive (n : Z) | WUnlock
| TryWLock | TryWCas | TryWUnlock
| Fatal.

Definition set_rc (m : RWMutex) (x : Z) : RWMutex := mkRW (w m) (writer_sem m) (reader_sem m) x (reader_wait m).
Definition set_rw (m : RWMutex) (x : Z) : RWMutex := mkRW (w m) (writer_sem m) (reader_sem m) (reader_count m) x.
Definition set_w (m : RWMutex) (b : bool) : RWMutex := mkRW b (writer_sem m) (reader_sem m) (reader_count m) (reader_wait m).
Definition set_rsem (m : RWMutex) (s : S) : RWMutex := mkRW (w m) (writer_sem m) s (reader_count m) (reader_wait m).
Definition set_wsem (m : RWMutex) (s : S) : RWMutex := mkRW (w m) s (reader_sem m) (reader_count m) (reader_wait m).

(** [RLock]'s [fetch_add]. *)
Definition RLock (m : RWMutex) : RWMutex * pc :=
  (set_rc m (wrap_i32 (reader_count m + 1)), if decide (reader_count m < 0) then RAcquire else RHolding).

(** [TryRLock]'s loop: the load, then the exchange. *)
Definition try_rlock_load (m : RWMutex) : pc := if decide (reader_count m < 0) then Idle else TryRCas (reader_count m).
Definition try_rlock_cas (m : RWMutex) (c : Z) : RWMutex * pc :=
  if decide (reader_count m = c) then (set_rc m (wrap_i32 (c + 1)), RHolding) else (m, TryRLoad).

(** [RUnlock]'s [fetch_sub] and the check of [r_unlock_slow]. *)
Definition RUnlock (m : RWMutex) : RWMutex * pc :=
  let r := wrap_i32 (reader_count m - 1) in
  (set_rc m r,
   if decide (r < 0) then
     if decide (r + 1 = 0 \/ r + 1 = - RW_MAX_READERS) then Fatal else RSlow
   else Idle).

Definition r_unlock_slow (m : RWMutex) : RWMutex * pc :=
  (set_rw m (wrap_i32 (reader_wait m - 1)), if decide (reader_wait m = 1) then RRelease else Idle).

(** [Lock] after [w.LockManual]: the flip, then the count of the readers to wait for. *)
Definition lock_flip (m : RWMutex) : RWMutex * pc :=
  let r_active := reader_count m in
  (set_rc m (wrap_i32 (r_active - RW_MAX_READERS)), if decide (r_active <> 0) then WAdd r_active else WHolding).
Definition lock_add (m : RWMutex) (r_active : Z) : RWMutex * pc :=
  let old_wait := reader_wait m in
  (set_rw m (wrap_i32 (old_wait + r_active)), if decide (wrap_i32 (old_wait + r_active) <> 0) then WAcquire else WHolding).

Definition try_lock_cas (m : RWMutex) : RWMutex * pc :=
  if decide (reader_count m = 0) then (set_rc m (- RW_MAX_READERS), WHolding) else (m, TryWUnlock).

(** [Unlock]'s [fetch_add]. *)
Definition Unlock (m : RWMutex) : RWMutex * pc :=
  let r := wrap_i32 (reader_count m + RW_MAX_READERS) in
  (set_rc m r, if decide (r >= RW_MAX_READERS) then Fatal else if decide (r > 0) then WGive r else WUnlock).

(** One step of goroutine [g], and whom it readies. *)
Definition thread_step (g : Z) (p : pc) (m : RWMutex) : option (RWMutex * pc * option Z) :=
  match p with
  | RAcquire =>
      let '(s, got) := sem_acquire (reader_sem m) g in
      Some (set_rsem m s, if (got : bool) then RHolding else RParked, None)
  | TryRLoad => Some (m, try_rlock_load m, None)
  | TryRCas c => let '(m, p) := try_rlock_cas m c in Some (m, p, None)
  | RSlow => let '(m, p) := r_unlock_slow m in Some (m, p, None)
  | RRelease => let '(s, g) := sem_release (writer_sem m) in Some (set_wsem m s, Idle, g)
  | WLock => if w m then None else Some (set_w m true, WFlip, None)
  | WFlip => let '(m, p) := lock_flip m in Some (m, p, None)
  | WAdd r => let '(m, p) := lock_add m r in Some (m, p, None)
  | WAcquire =>
      let '(s, got) := sem_acquire (writer_sem m) g in
      Some (set_wsem m s, if (got : bool) then WHolding else WParked, None)
  | WGive n =>
      let '(s, g) := sem_release_n_step (reader_sem m) n in
      Some (set_rsem m s,
            match g with None => WUnlock | Some _ => if decide (n - 1 = 0) then WUnlock else WGive (n - 1) end, g)
  | WUnlock => Some (set_w m false, Idle, None)
  | TryWLock => if w m then Some (m, Idle, None) else Some (set_w m true, TryWCas, None)
  | TryWCas => let '(m, p) := try_lock_cas m in Some (m, p, None)
  | TryWUnlock => Some (set_w m false, Idle, None)
  | Idle | RParked | RHolding | WParked | WHolding | Fatal => None
  end.

Definition resume (p : pc) : pc := match p with RParked => RHolding | WParked => WHolding | p => p end.

(** The first access of a call, from where the caller may make it. *)
Definition call_step (p : pc) (m : RWMutex) (p' : pc) (m' : RWMutex) : Prop :=
  (p = Idle /\ m' = m /\ (p' = TryRLoad \/ p' = WLock \/ p' = TryWLock)) \/
  (p = Idle /\ (m', p') = RLock m) \/ (p = RHolding /\ (m', p') = RUnlock m) \/ (p = WHolding /\ (m', p') = Unlock m).

Record config := mkConfig { mu : RWMutex; pcs : list pc }.

Inductive step : config -> config -> Prop :=
| step_call m l i p m' p' : l !! i = Some p -> call_step p m p' m' -> step (mkConfig m l) (mkConfig m' (<[i := p']> l))
| step_run m l i p m' p' g : l !! i = Some p -> thread_step (gid i) p m = Some (m', p', g) ->
    step (mkConfig m l) (mkConfig m' (wake resume g (<[i := p']> l))).

Definition start (n : nat) : config := mkConfig rw_new (replicate n Idle).
Definition reachable (n : nat) (c : config) : Prop := rtc step (start n) c.

(** ** Invariant *)

(** What a goroutine contributes to each count. *)
Definition hold (p : pc) : Z := match p with RHolding => 1 | _ => 0 end.
Definition pend (p : pc) : Z := match p with RAcquire | RParked => 1 | _ => 0 end.
Definition slow (p : pc) : Z := match p with RSlow => 1 | _ => 0 end.
Definition rel (p : pc) : Z := match p with RRelease => 1 | _ => 0 end.
Definition give (p : pc) : Z := match p with WGive n => n | _ => 0 end.
Definition giver (p : pc) : Z := match p with WGive _ => 1 | _ => 0 end.
Definition adds (p : pc) : Z := match p with WAdd _ => 1 | _ => 0 end.
Definition added (p : pc) : Z := match p with WAdd r => r | _ => 0 end.
Definition waits (p : pc) : Z := match p with WAcquire | WParked => 1 | _ => 0 end.
Definition whold (p : pc) : Z := match p with WHolding => 1 | _ => 0 end.
Definition wrest (p : pc) : Z := match p with WFlip | WUnlock | TryWCas | TryWUnlock => 1 | _ => 0 end.
Definition rparked (p : pc) : bool := match p with RParked => true | _ => false end.
Definition wparked (p : pc) : bool := match p with WParked => true | _ => false end.

Definition pc_ok (p : pc) : Prop :=
  match p with TryRCas c => 0 <= c | WAdd r => 0 < r < 2 ^ 30 | WGive n => 0 < n < 2 ^ 30 | Fatal => False | _ => True end.

(** The counts of a configuration. *)
Record counts := mkCounts {
  n_hold : Z; n_pend : Z; n_slow : Z; n_rel : Z; n_give : Z; n_giver : Z;
  n_adds : Z; n_added : Z; n_waits : Z; n_whold : Z; n_wrest : Z
}.

Definition counts_of (l : list pc) : counts :=
  mkCounts (zsum hold l) (zsum pend l) (zsum slow l) (zsum rel l) (zsum give l) (zsum giver l)
    (zsum adds l) (zsum added l) (zsum waits l) (zsum whold l) (zsum wrest l).

(** [F] is 1 when a writer has flipped [reader_count]; [T] are the units granted to readers
    that still have to take them, [hold + T] the readers a writer has to wait for. *)
Definition flags (k : counts) : Z := n_adds k + n_waits k + n_whold k.

(** Where the writers are: none has flipped the count; one is about to add the readers it saw;
    one waits for readers, or for the wake-up the last of them gave; one holds the lock. *)
Inductive phase (k : counts) (rw T Tw : Z) : Prop :=
| PhFree : n_adds k = 0 /\ n_waits k = 0 /\ n_whold k = 0 /\ n_pend k = T /\ n_slow k = 0 /\ rw = 0 /\ Tw = 0 -> phase k rw T Tw
| PhAdd : n_adds k = 1 /\ n_waits k = 0 /\ n_whold k = 0 /\ rw + n_added k = n_hold k + T + n_slow k /\ rw <= 0 /\ Tw = 0 -> phase k rw T Tw
| PhWait : n_adds k = 0 /\ n_waits k = 1 /\ n_whold k = 0 /\ rw = n_hold k + T + n_slow k /\ 0 < rw /\ Tw = 0 -> phase k rw T Tw
| PhWoken : n_adds k = 0 /\ n_waits k = 1 /\ n_whold k = 0 /\ n_hold k + T + n_slow k = 0 /\ rw = 0 /\ Tw = 1 -> phase k rw T Tw
| PhHold : n_adds k = 0 /\ n_waits k = 0 /\ n_whold k = 1 /\ n_hold k + T + n_slow k = 0 /\ rw = 0 /\ Tw = 0 -> phase k rw T Tw.

Record balance (k : counts) (locked : bool) (rc rw crr crw : Z) : Prop := mkBalance {
  ba_count : rc = n_hold k + n_pend k - RW_MAX_READERS * flags k;
  ba_lock : flags k + n_giver k + n_wrest k = Z.b2z locked;
  ba_units : 0 <= crr + n_give k <= n_pend k;
  ba_phase : phase k rw (crr + n_give k) (crw + n_rel k)
}.

Record inv (crr crw : Z) (qr qw : list Z) (c : config) : Prop := {
  iv_balance : balance (counts_of (pcs c)) (w (mu c)) (reader_count (mu c)) (reader_wait (mu c)) crr crw;
  iv_credits : 0 <= crr /\ 0 <= crw;
  iv_rsem : sem_rep crr qr (reader_sem (mu c));
  iv_wsem : sem_rep crw qw (writer_sem (mu c));
  iv_rcredit : 0 < crr -> qr = [];
  iv_wcredit : 0 < crw -> qw = [];
  iv_rqueue : queue_ok rparked (pcs c) qr;
  iv_wqueue : queue_ok wparked (pcs c) qw;
  iv_pcs : forall i p, pcs c !! i = Some p -> pc_ok p;
  iv_size : zlen (pcs c) < 2 ^ 30 - 1
}.

Definition good (c : config) : Prop := exists crr crw qr qw, inv crr crw qr qw c.
Lemma counts_bounds (l : list pc) : (forall i p, l !! i = Some p -> pc_ok p) ->
  let k := counts_of l in
  (0 <= n_hold k /\ 0 <= n_pend k /\ 0 <= n_slow k /\ 0 <= n_rel k /\ n_hold k + n_pend k + n_slow k <= zlen l) /\
  (n_giver k <= n_give k <= 2 ^ 30 * n_giver k /\ n_adds k <= n_added k <= 2 ^ 30 * n_adds k) /\
  (0 <= n_giver k /\ 0 <= n_adds k /\ 0 <= n_waits k /\ 0 <= n_whold k /\ 0 <= n_wrest k).
Proof.
  cbn. unfold zlen. induction l as [|p l IH]; intros Hp; [cbn; lia|]. pose proof (Hp 0%nat p eq_refl) as H0.
  specialize (IH (fun i => Hp (Datatypes.S i))). cbn [length zsum] in *. destruct p; cbn [hold pend slow rel give giver adds added waits whold wrest pc_ok] in *; lia.
Qed.

Lemma counts_insert (l : list pc) (i : nat) p p' : l !! i = Some p -> counts_of (<[i := p']> l) =
  mkCounts (zsum hold l - hold p + hold p') (zsum pend l - pend p + pend p') (zsum slow l - slow p + slow p')
    (zsum rel l - rel p + rel p') (zsum give l - give p + give p') (zsum giver l - giver p + giver p')
    (zsum adds l - adds p + adds p') (zsum added l - added p + added p') (zsum waits l - waits p + waits p')
    (zsum whold l - whold p + whold p') (zsum wrest l - wrest p + wrest p').
Proof. intros Hi. unfold counts_of. by rewrite !(zsum_insert _ l i p p' Hi). Qed.

Lemma rw_move crr crw qr qw m l i p p' crr' crw' qr' qw' m' : inv crr crw qr qw (mkConfig m l) -> l !! i = Some p -> pc_ok p' ->
  balance (counts_of (<[i := p']> l)) (w m') (reader_count m') (reader_wait m') crr' crw' -> 0 <= crr' /\ 0 <= crw' ->
  sem_rep crr' qr' (reader_sem m') -> sem_rep crw' qw' (writer_sem m') -> (0 < crr' -> qr' = []) -> (0 < crw' -> qw' = []) ->
  queue_ok rparked (<[i := p']> l) qr' -> queue_ok wparked (<[i := p']> l) qw' ->
  inv crr' crw' qr' qw' (mkConfig m' (<[i := p']> l)).
Proof.
  intros I Hi Hp Hb Hc H1 H2 H3 H4 H5 H6. split; cbn [mu pcs]; try done.
  - intros j x Ej. apply list_lookup_insert_Some in Ej as [(_ & <- & _)|[_ Ej]]; [done|by apply (iv_pcs _ _ _ _ _ I j)].
  - rewrite zlen_insert. apply I.
Qed.

(** A step that leaves the semaphores alone. *)
Lemma rw_local crr crw qr qw m l i p p' m' : inv crr crw qr qw (mkConfig m l) -> l !! i = Some p -> pc_ok p' ->
  reader_sem m' = reader_sem m -> writer_sem m' = writer_sem m ->
  balance (counts_of (<[i := p']> l)) (w m') (reader_count m') (reader_wait m') crr crw ->
  rparked p = false -> rparked p' = false -> wparked p = false -> wparked p' = false ->
  good (mkConfig m' (<[i := p']> l)).
Proof.
  intros I Hi Hp E1 E2 Hb Hr Hr' Hw Hw'. exists crr, crw, qr, qw. eapply rw_move; try done; try apply I.
  - rewrite E1. apply I.
  - rewrite E2. apply I.
  - eapply queue_ok_same; [apply I|exact Hi|done|done].
  - eapply queue_ok_same; [apply I|exact Hi|done|done].
Qed.

Lemma wrap_i32_small x : - 2 ^ 31 <= x < 2 ^ 31 -> wrap_i32 x = x.
Proof. intros Hx. unfold wrap_i32. rewrite Z.mod_small by lia. lia. Qed.

(** The counts of the other threads. *)
Lemma others_bounds (l : list pc) (i : nat) p : (forall i p, l !! i = Some p -> pc_ok p) -> l !! i = Some p ->
  (0 <= zsum hold l - hold p /\ 0 <= zsum pend l - pend p /\ 0 <= zsum slow l - slow p /\ 0 <= zsum rel l - rel p /\
   (zsum hold l - hold p) + (zsum pend l - pend p) + (zsum slow l - slow p) <= zlen l) /\
  (zsum giver l - giver p <= zsum give l - give p <= 2 ^ 30 * (zsum giver l - giver p) /\
   zsum adds l - adds p <= zsum added l - added p <= 2 ^ 30 * (zsum adds l - adds p)) /\
  (0 <= zsum giver l - giver p /\ 0 <= zsum adds l - adds p /\ 0 <= zsum waits l - waits p /\ 0 <= zsum whold l - whold p /\ 0 <= zsum wrest l - wrest p).
Proof.
  intros Hok Hi. pose proof (counts_bounds (<[i := Idle]> l)) as Hb. rewrite (counts_insert l i p Idle Hi), zlen_insert in Hb.
  cbn [n_hold n_pend n_slow n_rel n_give n_giver n_adds n_added n_waits n_whold n_wrest] in Hb.
  cbn [hold pend slow rel give giver adds added waits whold wrest] in Hb. rewrite !Z.add_0_r in Hb. apply Hb.
  intros j x Ej. apply list_lookup_insert_Some in Ej as [(_ & <- & _)|[_ Ej]]; [done|by apply (Hok j)].
Qed.

Lemma b2z_range b : 0 <= Z.b2z b <= 1.
Proof. destruct b; cbn; lia. Qed.
End rwmutex.

(** The facts about a thread's step, ready for [lia]; the phase is [Hph]. *)
Ltac unfold_counts :=
  unfold flags, counts_of, RW_MAX_READERS in *; change (Z.shiftl 1 30) with (2 ^ 30) in *;
  cbn [mu pcs n_hold n_pend n_slow n_rel n_give n_giver n_adds n_added n_waits n_whold n_wrest pc_ok resume Z.b2z
       hold pend slow rel give giver adds added waits whold wrest
       w writer_sem reader_sem reader_count reader_wait set_rc set_rw set_w set_rsem set_wsem] in *.

Ltac facts I Hi :=
  let Hph := fresh "Hph" in destruct (iv_balance _ _ _ _ _ I) as [? ? ? Hph]; pose proof (iv_credits _ _ _ _ _ I); pose proof (iv_size _ _ _ _ _ I);
  pose proof (others_bounds _ _ _ (iv_pcs _ _ _ _ _ I) Hi);
  pose proof (iv_pcs _ _ _ _ _ I _ _ Hi); let m := lazymatch type of I with inv _ _ _ _ (mkConfig ?m _) => m end in pose proof (b2z_range (w m));
  unfold_counts.

(** One case per phase. *)
Ltac phases := lazymatch goal with H : phase _ _ _ _ |- _ => destruct H end; unfold_counts.

(** The new phase. *)
Ltac new_phase := first [exfalso; lia | apply PhFree; unfold_counts; lia | apply PhAdd; unfold_counts; lia
  | apply PhWait; unfold_counts; lia | apply PhWoken; unfold_counts; lia | apply PhHold; unfold_counts; lia].

(** The balance after the step. *)
Ltac bal Hi :=
  try rewrite (counts_insert _ _ _ _ Hi); rewrite ?(zsum_insert _ _ _ _ _ Hi); unfold_counts;
  lazymatch goal with |- balance _ _ _ _ _ _ => split; unfold_counts; [lia|lia|first [lia|phases; lia]|phases; new_phase] | _ => idtac end.

Ltac local_step I Hi := eapply rw_local; try exact I; try exact Hi; try done; bal Hi; try lia.

Section steps.
  Context {S : Type} `{Semaphore S}.
  Implicit Types (m : RWMutex (S := S)).

Lemma RLock_good crr crw qr qw m l i m' p' : inv crr crw qr qw (mkConfig m l) -> l !! i = Some Idle -> (m', p') = RLock m ->
  good (mkConfig m' (<[i := p']> l)).
Proof.
  intros I Hi [= -> ->]. facts I Hi. rewrite wrap_i32_small by lia. destruct (decide (reader_count m < 0)); local_step I Hi.
Qed.

Lemma RUnlock_good crr crw qr qw m l i m' p' : inv crr crw qr qw (mkConfig m l) -> l !! i = Some RHolding -> (m', p') = RUnlock m ->
  good (mkConfig m' (<[i := p']> l)).
Proof.
  intros I Hi [= -> ->]. facts I Hi. rewrite wrap_i32_small by lia.
  destruct (decide (reader_count m - 1 < 0)); [rewrite decide_False by lia|]; local_step I Hi.
Qed.

Lemma Unlock_good crr crw qr qw m l i m' p' : inv crr crw qr qw (mkConfig m l) -> l !! i = Some WHolding -> (m', p') = Unlock m ->
  good (mkConfig m' (<[i := p']> l)).
Proof.
  intros I Hi [= -> ->]. facts I Hi. rewrite wrap_i32_small by lia. rewrite decide_False by lia.
  destruct (decide _); local_step I Hi.
Qed.

(** [reader_wait] stays far from its limits. *)
Lemma wait_range crr crw qr qw m l i p : inv crr crw qr qw (mkConfig m l) -> l !! i = Some p -> - 2 ^ 30 <= reader_wait m <= 2 ^ 30.
Proof. intros I Hi. pose proof (counts_bounds _ (iv_pcs _ _ _ _ _ I)). facts I Hi. phases; lia. Qed.

Lemma call_good c m l i p p' m' : c = mkConfig m l -> good c -> l !! i = Some p -> call_step p m p' m' -> good (mkConfig m' (<[i := p']> l)).
Proof.
  intros -> (crr & crw & qr & qw & I) Hi [(-> & -> & Hp)|[[-> E]|[[-> E]|[-> E]]]];
    [|by eapply RLock_good|by eapply RUnlock_good|by eapply Unlock_good].
  facts I Hi. destruct Hp as [->|[->| ->]]; local_step I Hi.
Qed.

Lemma try_rlock_good crr crw qr qw m l i c m' p' : inv crr crw qr qw (mkConfig m l) -> l !! i = Some (TryRCas c) -> try_rlock_cas m c = (m', p') ->
  good (mkConfig m' (<[i := p']> l)).
Proof.
  intros I Hi. unfold try_rlock_cas. facts I Hi. destruct (decide _); [rewrite wrap_i32_small by lia|]; intros [= <- <-]; local_step I Hi.
Qed.

Lemma r_unlock_slow_good crr crw qr qw m l i m' p' : inv crr crw qr qw (mkConfig m l) -> l !! i = Some RSlow -> r_unlock_slow m = (m', p') ->
  good (mkConfig m' (<[i := p']> l)).
Proof.
  intros I Hi. unfold r_unlock_slow. pose proof (wait_range _ _ _ _ _ _ _ _ I Hi). facts I Hi. rewrite wrap_i32_small by lia. destruct (decide _); intros [= <- <-]; local_step I Hi.
Qed.

Lemma lock_flip_good crr crw qr qw m l i m' p' : inv crr crw qr qw (mkConfig m l) -> l !! i = Some WFlip -> lock_flip m = (m', p') ->
  good (mkConfig m' (<[i := p']> l)).
Proof.
  intros I Hi. unfold lock_flip. facts I Hi. rewrite wrap_i32_small by lia. destruct (decide _); intros [= <- <-]; local_step I Hi.
Qed.

Lemma lock_add_good crr crw qr qw m l i r m' p' : inv crr crw qr qw (mkConfig m l) -> l !! i = Some (WAdd r) -> lock_add m r = (m', p') ->
  good (mkConfig m' (<[i := p']> l)).
Proof.
  intros I Hi. unfold lock_add. pose proof (wait_range _ _ _ _ _ _ _ _ I Hi). facts I Hi. rewrite wrap_i32_small by lia. destruct (decide _); intros [= <- <-]; local_step I Hi.
Qed.

Lemma try_lock_good crr crw qr qw m l i m' p' : inv crr crw qr qw (mkConfig m l) -> l !! i = Some TryWCas -> try_lock_cas m = (m', p') ->
  good (mkConfig m' (<[i := p']> l)).
Proof.
  intros I Hi. unfold try_lock_cas. facts I Hi. destruct (decide _); intros [= <- <-]; local_step I Hi.
Qed.
End steps.
