(* ===== verification/RWMutexSpec.v ===== *)
(** The reader/writer mutex keeps readers and writers apart: the steps that go through the
    semaphores, the invariant of all reachable states, and what it says. *)
From Stdlib Require Import ZArith Lia.
From stdpp Require Import base tactics numbers list list_numbers option relations.
From S2P Require Import Prelude Threads Sema RWMutex.
Open Scope Z_scope.

Section spec.
  Context {S : Type} `{Semaphore S}.
  Implicit Types (m : RWMutex (S := S)).

(** ** The semaphores *)

Lemma r_acquire_good crr crw qr qw m l i s got : inv crr crw qr qw (mkConfig m l) -> l !! i = Some RAcquire ->
  sem_acquire (reader_sem m) (gid i) = (s, got) -> good (mkConfig (set_rsem m s) (<[i := if got then RHolding else RParked]> l)).
Proof.
  intros I Hi E. pose proof (iv_rsem _ _ _ _ _ I) as Hr. pose proof (iv_rqueue _ _ _ _ _ I) as Hq. cbn in Hr, Hq.
  assert (queue_ok wparked (<[i := if got then RHolding else RParked]> l) qw) as Hqw by (eapply queue_ok_same; [apply I|exact Hi|done|by destruct got]).
  destruct (decide (0 < crr)) as [Hc|Hc].
  - destruct (sem_acquire_credit crr qr _ (gid i) Hr Hc) as (s' & E' & Hr'). rewrite E in E'. injection E' as -> ->.
    exists (crr - 1), crw, qr, qw. pose proof (iv_rcredit _ _ _ _ _ I Hc) as ->. assert (sem_rep crw qw (writer_sem m)) by apply I.
    eapply rw_move; try exact I; try exact Hi; try done; try apply I; try (by eapply queue_ok_same); facts I Hi; bal Hi; try lia.
  - destruct (queue_ok_park rparked l qr i _ RParked Hq Hi eq_refl eq_refl) as [Hni Hq'].
    destruct (sem_acquire_park crr qr _ (gid i) Hr ltac:(lia) ltac:(unfold gid; lia) Hni) as (s' & E' & Hr'). rewrite E in E'. injection E' as -> ->.
    exists crr, crw, (qr ++ [gid i]), qw. assert (sem_rep crw qw (writer_sem m)) by apply I.
    eapply rw_move; try exact I; try exact Hi; try done; try apply I; try lia; facts I Hi; bal Hi; try lia.
Qed.

Lemma w_acquire_good crr crw qr qw m l i s got : inv crr crw qr qw (mkConfig m l) -> l !! i = Some WAcquire ->
  sem_acquire (writer_sem m) (gid i) = (s, got) -> good (mkConfig (set_wsem m s) (<[i := if got then WHolding else WParked]> l)).
Proof.
  intros I Hi E. pose proof (iv_wsem _ _ _ _ _ I) as Hr. pose proof (iv_wqueue _ _ _ _ _ I) as Hq. cbn in Hr, Hq.
  assert (queue_ok rparked (<[i := if got then WHolding else WParked]> l) qr) as Hqr by (eapply queue_ok_same; [apply I|exact Hi|done|by destruct got]).
  destruct (decide (0 < crw)) as [Hc|Hc].
  - destruct (sem_acquire_credit crw qw _ (gid i) Hr Hc) as (s' & E' & Hr'). rewrite E in E'. injection E' as -> ->.
    exists crr, (crw - 1), qr, qw. pose proof (iv_wcredit _ _ _ _ _ I Hc) as ->. assert (sem_rep crr qr (reader_sem m)) by apply I.
    eapply rw_move; try exact I; try exact Hi; try done; try apply I; try (by eapply queue_ok_same); facts I Hi; bal Hi; try lia.
  - destruct (queue_ok_park wparked l qw i _ WParked Hq Hi eq_refl eq_refl) as [Hni Hq'].
    destruct (sem_acquire_park crw qw _ (gid i) Hr ltac:(lia) ltac:(unfold gid; lia) Hni) as (s' & E' & Hr'). rewrite E in E'. injection E' as -> ->.
    exists crr, crw, qr, (qw ++ [gid i]). assert (sem_rep crr qr (reader_sem m)) by apply I.
    eapply rw_move; try exact I; try exact Hi; try done; try apply I; try lia; facts I Hi; bal Hi; try lia.
Qed.

(** Thread [i] moves from [p] to [p'] and readies the parked thread [j]. *)
Lemma rw_move2 crr crw qr qw m l i p p' j pj qr' qw' m' : inv crr crw qr qw (mkConfig m l) -> l !! i = Some p -> pc_ok p' ->
  j <> i -> l !! j = Some pj -> pc_ok (resume pj) ->
  balance (counts_of (<[j := resume pj]> (<[i := p']> l))) (w m') (reader_count m') (reader_wait m') crr crw ->
  sem_rep crr qr' (reader_sem m') -> sem_rep crw qw' (writer_sem m') -> (0 < crr -> qr' = []) -> (0 < crw -> qw' = []) ->
  queue_ok rparked (<[j := resume pj]> (<[i := p']> l)) qr' -> queue_ok wparked (<[j := resume pj]> (<[i := p']> l)) qw' ->
  inv crr crw qr' qw' (mkConfig m' (<[j := resume pj]> (<[i := p']> l))).
Proof.
  intros I Hi Hp Hji Hj Hpj Hb H1 H2 H3 H4 H5 H6. split; cbn [mu pcs]; try done; [apply I| |].
  - intros k x Ek. apply list_lookup_insert_Some in Ek as [(_ & <- & _)|[_ Ek]]; [done|].
    apply list_lookup_insert_Some in Ek as [(_ & <- & _)|[_ Ek]]; [done|by apply (iv_pcs _ _ _ _ _ I k)].
  - rewrite !zlen_insert. apply I.
Qed.

Lemma r_release_good crr crw qr qw m l i s g : inv crr crw qr qw (mkConfig m l) -> l !! i = Some RRelease ->
  sem_release (writer_sem m) = (s, g) -> good (mkConfig (set_wsem m s) (wake resume g (<[i := Idle]> l))).
Proof.
  intros I Hi E. pose proof (iv_wsem _ _ _ _ _ I) as Hr. cbn in Hr. assert (sem_rep crr qr (reader_sem m)) as Hrs by apply I.
  assert (queue_ok rparked (<[i := Idle]> l) qr) as Hqr by (eapply queue_ok_same; [apply I|exact Hi|done|done]).
  assert (queue_ok wparked (<[i := Idle]> l) qw) as Hqw by (eapply queue_ok_same; [apply I|exact Hi|done|done]).
  destruct qw as [|h q].
  - destruct (sem_release_credit crw _ Hr) as (s' & E' & Hr'). rewrite E in E'. injection E' as -> ->. cbn [wake].
    exists crr, (crw + 1), qr, []. eapply rw_move; try exact I; try exact Hi; try done; try apply I; facts I Hi; bal Hi; try lia.
  - destruct (sem_release_wake crw h q _ Hr) as (s' & E' & Hr'). rewrite E in E'. injection E' as -> ->.
    destruct (queue_ok_wake wparked _ q h Hqw (sem_nodup _ _ _ Hr)) as (j & p & -> & Ej & Hp & Hw).
    destruct p; try done. destruct (Hw resume eq_refl) as [-> Hq'].
    assert (j <> i) as Hji by (intros ->; rewrite list_lookup_insert_eq in Ej by (by eapply lookup_lt_Some); done).
    assert (queue_ok rparked (<[j := resume WParked]> (<[i := Idle]> l)) qr) as Hqr' by (by eapply queue_ok_same).
    assert (crw = 0) as Hcr by (facts I Hi; destruct (decide (0 < crw)) as [Hc|]; [by discriminate (iv_wcredit _ _ _ _ _ I Hc)|lia]).
    assert (l !! j = Some WParked) as Ej' by (by rewrite list_lookup_insert_ne in Ej by done).
    exists crr, crw, qr, q. eapply rw_move2; try exact I; try exact Hi; try exact Ej'; try done; [|apply I|lia].
    rewrite (counts_insert _ _ _ _ Ej). pose proof (others_bounds _ _ _ (iv_pcs _ _ _ _ _ I) Ej') as Ho.
    rewrite !(zsum_insert _ _ _ _ _ Hi). facts I Hi. bal Hi.
Qed.

Lemma w_give_good crr crw qr qw m l i n s g : inv crr crw qr qw (mkConfig m l) -> l !! i = Some (WGive n) ->
  sem_release_n_step (reader_sem m) n = (s, g) ->
  good (mkConfig (set_rsem m s)
    (wake resume g (<[i := match g with None => WUnlock | Some _ => if decide (n - 1 = 0) then WUnlock else WGive (n - 1) end]> l))).
Proof.
  intros I Hi E. pose proof (iv_rsem _ _ _ _ _ I) as Hr. cbn in Hr. assert (sem_rep crw qw (writer_sem m)) as Hws by apply I.
  set (p' := match g with None => WUnlock | Some _ => if decide (n - 1 = 0) then WUnlock else WGive (n - 1) end).
  assert (rparked p' = false /\ wparked p' = false /\ pc_ok p') as (Hp1 & Hp2 & Hp3).
  { pose proof (iv_pcs _ _ _ _ _ I i _ Hi) as Hn. cbn in Hn. unfold p'. destruct g; [destruct (decide _)|]; cbn; split_and!; done || lia. }
  assert (queue_ok rparked (<[i := p']> l) qr) as Hqr by (eapply queue_ok_same; [apply I|exact Hi|done|done]).
  assert (queue_ok wparked (<[i := p']> l) qw) as Hqw by (eapply queue_ok_same; [apply I|exact Hi|done|done]).
  destruct qr as [|h q].
  - destruct (sem_release_n_credit crr _ n Hr) as (s' & E' & Hr'). rewrite E in E'. injection E' as -> ->. cbn [wake]. subst p'.
    exists (crr + n), crw, [], qw. eapply rw_move; try exact I; try exact Hi; try done; try apply I; facts I Hi; bal Hi; try lia.
  - destruct (sem_release_n_wake crr h q _ n Hr) as (s' & E' & Hr'). rewrite E in E'. injection E' as -> ->.
    destruct (queue_ok_wake rparked _ q h Hqr (sem_nodup _ _ _ Hr)) as (j & p & -> & Ej & Hp & Hw).
    destruct p; try done. destruct (Hw resume eq_refl) as [-> Hq'].
    assert (j <> i) as Hji by (intros ->; rewrite list_lookup_insert_eq in Ej by (by eapply lookup_lt_Some); injection Ej as Ej; by rewrite Ej in Hp1).
    assert (queue_ok wparked (<[j := resume RParked]> (<[i := p']> l)) qw) as Hqw' by (by eapply queue_ok_same).
    assert (crr = 0) as Hcr by (facts I Hi; destruct (decide (0 < crr)) as [Hc|]; [by discriminate (iv_rcredit _ _ _ _ _ I Hc)|lia]).
    assert (l !! j = Some RParked) as Ej' by (by rewrite list_lookup_insert_ne in Ej by done).
    exists crr, crw, q, qw. eapply rw_move2; try exact I; try exact Hi; try exact Ej'; try done; [|lia|apply I].
    rewrite (counts_insert _ _ _ _ Ej). pose proof (others_bounds _ _ _ (iv_pcs _ _ _ _ _ I) Ej') as Ho.
    rewrite !(zsum_insert _ _ _ _ _ Hi). facts I Hi. subst p'. destruct (decide (n - 1 = 0)); bal Hi.
Qed.
Lemma rw_run_good c m l i p m' p' g : c = mkConfig m l -> good c -> l !! i = Some p -> thread_step (gid i) p m = Some (m', p', g) ->
  good (mkConfig m' (wake resume g (<[i := p']> l))).
Proof.
  intros -> (crr & crw & qr & qw & I) Hi E. destruct p; cbn [thread_step] in E; try done.
  - destruct (sem_acquire (reader_sem m) (gid i)) as [s got] eqn:E1. injection E as <- <- <-. by eapply r_acquire_good.
  - injection E as <- <- <-. cbn [wake]. unfold try_rlock_load. facts I Hi. destruct (decide _); local_step I Hi.
  - destruct (try_rlock_cas m c) as [m1 p1] eqn:E1. injection E as <- <- <-. by eapply try_rlock_good.
  - destruct (r_unlock_slow m) as [m1 p1] eqn:E1. injection E as <- <- <-. by eapply r_unlock_slow_good.
  - destruct (sem_release (writer_sem m)) as [s h] eqn:E1. injection E as <- <- <-. by eapply r_release_good.
  - destruct (w m) eqn:Ew; [done|]. injection E as <- <- <-. cbn [wake]. facts I Hi. rewrite Ew in *. local_step I Hi; cbn [Z.b2z] in *; lia.
  - destruct (lock_flip m) as [m1 p1] eqn:E1. injection E as <- <- <-. by eapply lock_flip_good.
  - destruct (lock_add m r_active) as [m1 p1] eqn:E1. injection E as <- <- <-. by eapply lock_add_good.
  - destruct (sem_acquire (writer_sem m) (gid i)) as [s got] eqn:E1. injection E as <- <- <-. by eapply w_acquire_good.
  - destruct (sem_release_n_step (reader_sem m) n) as [s h] eqn:E1. injection E as <- <- <-. by eapply w_give_good.
  - injection E as <- <- <-. cbn [wake]. facts I Hi. local_step I Hi; cbn [Z.b2z] in *; lia.
  - destruct (w m) eqn:Ew; injection E as <- <- <-; cbn [wake]; facts I Hi; [local_step I Hi|].
    rewrite Ew in *. local_step I Hi; cbn [Z.b2z] in *; lia.
  - destruct (try_lock_cas m) as [m1 p1] eqn:E1. injection E as <- <- <-. by eapply try_lock_good.
  - injection E as <- <- <-. cbn [wake]. facts I Hi. local_step I Hi; cbn [Z.b2z] in *; lia.
Qed.

Lemma rw_step_good (c c' : config (S := S)) : good c -> step c c' -> good c'.
Proof.
  intros G St; revert G; destruct St as [m l i p m' p' Hi E|m l i p m' p' g Hi E]; intros G;
    [exact (call_good _ m l i p p' m' eq_refl G Hi E)|exact (rw_run_good _ m l i p m' p' g eq_refl G Hi E)].
Qed.

Lemma rw_start_good n : Z.of_nat n < 2 ^ 30 - 1 -> good (start (S := S) n).
Proof.
  intros Hn. exists 0, 0, [], []. split; cbn [start mu pcs rw_new reader_sem writer_sem]; try done; try apply sem_new_ok; try (by apply queue_ok_replicate).
  - split; [..|apply PhFree]; unfold flags, counts_of; cbn; rewrite !zsum_replicate by done; lia.
  - intros i p [-> _]%lookup_replicate. done.
  - unfold zlen. by rewrite length_replicate.
Qed.

Lemma rw_reachable_good n (c : config (S := S)) : Z.of_nat n < 2 ^ 30 - 1 -> reachable n c -> good c.
Proof.
  intros Hn R. assert (forall a b : config (S := S), rtc step a b -> good a -> good b) as Hp by (induction 1; eauto using rw_step_good).
  by eapply Hp, rw_start_good.
Qed.

(** C5: readers and writers exclude each other: however fewer than 2^30 - 1 goroutines interleave
    [RLock], [TryRLock], [RUnlock], [Lock], [TryLock] and [Unlock], access by access, each
    unlocking only what it holds, no call ever ends in one of the fatal errors of unlocking an
    unlocked lock, and while one holds the lock for writing no other holds it for writing or
    reading. *)
Theorem rwmutex_exclusion n (c : config (S := S)) : Z.of_nat n < 2 ^ 30 - 1 -> reachable n c ->
  (forall j, pcs c !! j <> Some Fatal) /\
  (forall i j p, pcs c !! i = Some WHolding -> pcs c !! j = Some p -> p <> RHolding /\ (p = WHolding -> i = j)).
Proof.
  intros Hn R. destruct (rw_reachable_good n c Hn R) as (crr & crw & qr & qw & I). destruct c as [m l]. cbn [pcs] in *.
  split; [intros j Hj; exact (iv_pcs _ _ _ _ _ I j Fatal Hj)|]. intros i j p Hi Hj. facts I Hi. split.
  - intros ->. assert (1 <= zsum hold l) by (apply (zsum_ge hold l j RHolding); [intros []; cbn; lia|done]). phases; lia.
  - intros ->. destruct (decide (i = j)) as [|Hij]; [done|].
    pose proof (zsum_ge2 whold l i j WHolding WHolding ltac:(intros []; cbn; lia) Hij Hi Hj) as Hw2. cbn [whold] in Hw2. lia.
Qed.

(** C21: no wake-up is lost: while a reader is parked, a writer is waiting for, holds or is
    giving up the lock; while a writer is parked, some goroutine still has the read lock, is
    about to take it with a unit it was granted, or is on its way through [RUnlock] to the
    release that readies the writer.  So in a state where everybody is outside or parked,
    nobody is parked. *)
Theorem rwmutex_no_lost_wakeup n (c : config (S := S)) i p : Z.of_nat n < 2 ^ 30 - 1 -> reachable n c ->
  pcs c !! i = Some p ->
  (p = RParked -> exists j p', pcs c !! j = Some p' /\ 0 < adds p' + waits p' + whold p' + giver p') /\
  (p = WParked -> exists j p', pcs c !! j = Some p' /\ (p' = RAcquire \/ 0 < hold p' + slow p' + rel p')).
Proof.
  intros Hn R Hi. destruct (rw_reachable_good n c Hn R) as (crr & crw & qr & qw & I). destruct c as [m l]. cbn [pcs] in *.
  assert (forall f, 0 < zsum f l -> exists j p', l !! j = Some p' /\ 0 < f p') as Hpos by (intros f; apply zsum_pos).
  assert (forall f g : pc -> Z, zsum (fun p => f p + g p) l = zsum f l + zsum g l) as Hadd by (intros f g; clear; induction l as [|x l IH]; cbn; [done|lia]).
  split; intros ->.
  - assert (gid i ∈ qr) as Hq by (apply (iv_rqueue _ _ _ _ _ I); by exists i, RParked).
    assert (crr = 0) as Hcr.
    { pose proof (iv_credits _ _ _ _ _ I). destruct (decide (0 < crr)) as [Hc|]; [|lia]. rewrite (iv_rcredit _ _ _ _ _ I Hc) in Hq. by apply elem_of_nil in Hq. }
    apply (Hpos (fun p => adds p + waits p + whold p + giver p)). rewrite !Hadd. facts I Hi. phases; lia.
  - assert (gid i ∈ qw) as Hq by (apply (iv_wqueue _ _ _ _ _ I); by exists i, WParked).
    assert (crw = 0) as Hcr.
    { pose proof (iv_credits _ _ _ _ _ I). destruct (decide (0 < crw)) as [Hc|]; [|lia]. rewrite (iv_wcredit _ _ _ _ _ I Hc) in Hq. by apply elem_of_nil in Hq. }
    destruct (decide (0 < crr)) as [Hc|Hc].
    + assert (0 < zsum pend l) as Hp by (facts I Hi; lia). destruct (Hpos pend Hp) as (j & p' & Hj & Hpj). exists j, p'. split; [done|].
      destruct p'; cbn in Hpj; try lia; [by left|]. assert (gid j ∈ qr) as Hq' by (apply (iv_rqueue _ _ _ _ _ I); by exists j, RParked).
      rewrite (iv_rcredit _ _ _ _ _ I Hc) in Hq'. by apply elem_of_nil in Hq'.
    + destruct (Hpos (fun p => hold p + slow p + rel p)) as (j & p' & Hj & Hp'); [rewrite !Hadd; facts I Hi; phases; lia|]. exists j, p'. split; [done|by right].
Qed.
End spec.

(** ** A run *)

(** Let the goroutines of [sched] move in turn: a step, or the call given. *)
Inductive call := Run | CallRLock | CallTryRLock | CallRUnlock | CallLock | CallTryLock | CallUnlock.

Abbreviation cfg := (config (S := SemaState)).

Definition move1 (x : nat * call) (c : cfg) : cfg :=
  let '(i, a) := x in
  let set (q : RWMutex * pc) := mkConfig q.1 (<[i := q.2]> (pcs c)) in
  match pcs c !! i, a with
  | Some Idle, CallRLock => set (RLock (mu c))
  | Some Idle, CallTryRLock => set (mu c, TryRLoad)
  | Some RHolding, CallRUnlock => set (RUnlock (mu c))
  | Some Idle, CallLock => set (mu c, WLock)
  | Some Idle, CallTryLock => set (mu c, TryWLock)
  | Some WHolding, CallUnlock => set (Unlock (mu c))
  | Some p, Run =>
      match thread_step (gid i) p (mu c) with
      | Some (m, p, g) => mkConfig m (wake resume g (<[i := p]> (pcs c)))
      | None => c
      end
  | _, _ => c
  end.

Definition play (sched : list (nat * call)) (c : cfg) : cfg := foldl (fun c x => move1 x c) c sched.

Lemma rw_move1_step x c : rtc step c (move1 x c).
Proof.
  destruct c as [m l], x as [i a]. unfold move1. cbn [pcs mu]. destruct (l !! i) as [p|] eqn:E; [|apply rtc_refl].
  assert (rtc step (mkConfig m l) match thread_step (gid i) p m with
            | Some (m, p, g) => mkConfig m (wake resume g (<[i := p]> l)) | None => mkConfig m l end) as Hs.
  { destruct (thread_step (gid i) p m) as [[[m' p'] g]|] eqn:Et; [|apply rtc_refl]. eapply rtc_once, step_run; eauto. }
  assert (forall q, call_step p m q.2 q.1 -> rtc step (mkConfig m l) (mkConfig q.1 (<[i := q.2]> l))) as Hc.
  { intros q Hq. eapply rtc_once, step_call; eauto. }
  destruct a, p; try apply rtc_refl; try exact Hs; apply Hc; unfold call_step; cbn; tauto.
Qed.

Lemma rw_play_steps sched : forall c, rtc step c (play sched c).
Proof. induction sched as [|x sched IH]; intros c; [apply rtc_refl|]. etransitivity; [apply (rw_move1_step x)|apply IH]. Qed.

(** Goroutine 0 reads, 1 asks to write and parks, 2 asks to read and parks; then 0 leaves. *)
Definition turn_taking : list (nat * call) :=
  [(0%nat, CallRLock); (1%nat, CallLock); (1%nat, Run); (1%nat, Run); (1%nat, Run); (1%nat, Run); (2%nat, CallRLock); (2%nat, Run);
   (0%nat, CallRUnlock); (0%nat, Run)].

Lemma rwmutex_exclusion_witness :
  let c := play (turn_taking ++ [(0%nat, Run)]) (start 3) in
  pcs c = [Idle; WHolding; RParked] /\ (forall j, pcs c !! j <> Some Fatal) /\
  (forall i j p, pcs c !! i = Some WHolding -> pcs c !! j = Some p -> p <> RHolding /\ (p = WHolding -> i = j)).
Proof.
  split; [vm_compute; reflexivity|].
  apply (rwmutex_exclusion 3 (play (turn_taking ++ [(0%nat, Run)]) (start 3))); [lia|apply rw_play_steps].
Defined.

Lemma rwmutex_no_lost_wakeup_witness :
  (RParked = RParked -> exists j p', pcs (play turn_taking (start 3)) !! j = Some p' /\ 0 < adds p' + waits p' + whold p' + giver p') /\
  (RParked = WParked -> exists j p', pcs (play turn_taking (start 3)) !! j = Some p' /\ (p' = RAcquire \/ 0 < hold p' + slow p' + rel p')).
Proof. apply (rwmutex_no_lost_wakeup 3 (play turn_taking (start 3)) 2 RParked); [lia|apply rw_play_steps|vm_compute; reflexivity]. Defined.
