(* ===== verification/Cond.v ===== *)
(** The condition variable: src/src/sync/cond.rs and its ticket list, src/src/sync/notifylist.rs,
    with goroutines interleaved at every atomic access.

    A critical section of the list's spin lock is one step.  The locker is used through its
    contract: [Lock] goes through when nobody holds it.  The words [wait] and [notify] are 32-bit
    and wrap; the record keeps the counts behind them and the code computes on the words.  The
    fields [sema_next] and [notify_ticket] of the goroutines are maps by address. *)
From Stdlib Require Import ZArith Lia.
From stdpp Require Import base tactics numbers list list_numbers option fin_maps gmap relations.
From S2P Require Import Prelude Threads Sema.
Open Scope Z_scope.

(** [int32(a.wrapping_sub(b)) < 0]. *)
Definition less (a b : Z) : bool :=
  let d := wrap32 (wrap32 a - wrap32 b) in (if decide (d < 2 ^ 31) then d else d - 2 ^ 32) <? 0.

Record NotifyList := mkNotifyList {
  wait : Z;
  notify : Z;
  l_head : Z;
  l_tail : Z;
  sema_next : gmap Z Z;
  notify_ticket : gmap Z Z
}.

Definition notifylist_new : NotifyList := mkNotifyList 0 0 0 0 ∅ ∅.

Definition set_list (s : NotifyList) (h t : Z) (m : gmap Z Z) : NotifyList := mkNotifyList (wait s) (notify s) h t m (notify_ticket s).

Definition Add (s : NotifyList) : NotifyList * Z := (mkNotifyList (wait s + 1) (notify s) (l_head s) (l_tail s) (sema_next s) (notify_ticket s), wait s).

(** [true]: notified already; [false]: goroutine [g] is queued and parks. *)
Definition Wait (s : NotifyList) (g t : Z) : NotifyList * bool :=
  if less t (notify s) then (s, true)
  else
    let m := <[g := 0]> (sema_next s) in
    let k := <[g := wrap32 t]> (notify_ticket s) in
    (if decide (l_tail s = 0) then mkNotifyList (wait s) (notify s) g g m k
     else mkNotifyList (wait s) (notify s) (l_head s) g (<[l_tail s := g]> m) k, false).

(** The critical section of [NotifyAll]; the head of the chain it takes. *)
Definition notify_all (s : NotifyList) : NotifyList * Z :=
  (mkNotifyList (wait s) (wait s) 0 0 (sema_next s) (notify_ticket s), l_head s).

(** [while !cur.is_null()] of [NotifyOne]: unlinks the goroutine with ticket [t]. *)
Fixpoint unlink (fuel : nat) (s : NotifyList) (t prev cur : Z) : option (NotifyList * Z) :=
  match fuel with
  | O => None
  | S fuel =>
      if decide (cur = 0) then Some (s, 0)
      else if decide (default 0 (notify_ticket s !! cur) = wrap32 t) then
        let next := default 0 (sema_next s !! cur) in
        let s := if decide (prev = 0) then set_list s next (l_tail s) (sema_next s) else set_list s (l_head s) (l_tail s) (<[prev := next]> (sema_next s)) in
        let s := if decide (l_tail s = cur) then set_list s (l_head s) prev (sema_next s) else s in
        Some (set_list s (l_head s) (l_tail s) (<[cur := 0]> (sema_next s)), cur)
      else unlink fuel s t cur (default 0 (sema_next s !! cur))
  end.

(** The critical section of [NotifyOne]; the goroutine it takes, or null. *)
Definition notify_one (s : NotifyList) : option (NotifyList * Z) :=
  let t := notify s in
  if decide (wrap32 t = wrap32 (wait s)) then Some (s, 0)
  else unlink (S (size (sema_next s))) (mkNotifyList (wait s) (t + 1) (l_head s) (l_tail s) (sema_next s) (notify_ticket s)) t 0 (l_head s).

(** Where a goroutine is: in [Cond::Wait] with its ticket before [Unlock], before the list, parked,
    or before [Lock]; in [Signal] or [Broadcast] before a load, the critical section, or a
    [goready]. *)
Inductive pc :=
| Idle
| WaitUnlock (t : Z) | WaitList (t : Z) | Parked (t : Z) | WaitLock
| OneWait | OneNotify (w : Z) | OneLock | OneReady (g : Z)
| AllWait | AllNotify (w : Z) | AllLock | AllReady (g : Z).

(** A goroutine holds the locker or not. *)
Notation thread := (bool * pc)%type.

Record Cond := mkCond { locked : bool; list_ : NotifyList }.

(** One step of goroutine [g] inside a call, and whom it readies; [None] is blocked. *)
Definition thread_step (g : Z) (x : thread) (c : Cond) : option (Cond * thread * option Z) :=
  let '(h, k) := x in
  let s := list_ c in
  match k with
  | WaitUnlock t => Some (mkCond false s, (false, WaitList t), None)
  | WaitList t => let '(s, ok) := Wait s g t in Some (mkCond (locked c) s, (h, if (ok : bool) then WaitLock else Parked t), None)
  | WaitLock => if locked c then None else Some (mkCond true s, (true, Idle), None)
  | OneWait => Some (c, (h, OneNotify (wait s)), None)
  | OneNotify w => Some (c, (h, if decide (wrap32 w = wrap32 (notify s)) then Idle else OneLock), None)
  | OneLock => '(s, found) ← notify_one s; Some (mkCond (locked c) s, (h, if decide (found = 0) then Idle else OneReady found), None)
  | OneReady found => Some (c, (h, Idle), Some found)
  | AllWait => Some (c, (h, AllNotify (wait s)), None)
  | AllNotify w => Some (c, (h, if decide (wrap32 w = wrap32 (notify s)) then Idle else AllLock), None)
  | AllLock => let '(s, head) := notify_all s in Some (mkCond (locked c) s, (h, AllReady head), None)
  | AllReady g =>
      if decide (g = 0) then Some (c, (h, Idle), None)
      else
        let next := default 0 (sema_next s !! g) in
        Some (mkCond (locked c) (set_list s (l_head s) (l_tail s) (<[g := 0]> (sema_next s))), (h, AllReady next), Some g)
  | Idle | Parked _ => None
  end.

Definition resume (x : thread) : thread := match x with (h, Parked _) => (h, WaitLock) | x => x end.

(** A call begins: [Lock], [Unlock], [Wait] (with the locker held), [Signal], [Broadcast]. *)
Inductive call := CLock | CUnlock | CWait | CSignal | CBroadcast.

Definition begin (a : call) (h : bool) (c : Cond) : option (Cond * thread) :=
  match a, h with
  | CLock, false => if locked c then None else Some (mkCond true (list_ c), (true, Idle))
  | CUnlock, true => Some (mkCond false (list_ c), (false, Idle))
  | CWait, true => let '(s, t) := Add (list_ c) in Some (mkCond (locked c) s, (true, WaitUnlock t))
  | CSignal, h => Some (c, (h, OneWait))
  | CBroadcast, h => Some (c, (h, AllWait))
  | _, _ => None
  end.

Record config := mkConfig { cond : Cond; threads : list thread }.

(** No goroutine sleeps with a ticket while 2^31 tickets after it are notified. *)
Definition timely (c : Cond) (x : thread) : Prop := match x.2 with WaitList t => notify (list_ c) <= t + 2 ^ 31 | _ => True end.

Inductive step : config -> config -> Prop :=
| step_begin c l i h a c' x : l !! i = Some (h, Idle) -> begin a h c = Some (c', x) -> step (mkConfig c l) (mkConfig c' (<[i := x]> l))
| step_run c l i x c' x' g : l !! i = Some x -> timely c x -> thread_step (gid i) x c = Some (c', x', g) ->
    step (mkConfig c l) (mkConfig c' (wake resume g (<[i := x']> l))).

Definition start (n : nat) : config := mkConfig (mkCond false notifylist_new) (replicate n (false, Idle)).
Definition reachable (n : nat) (c : config) : Prop := rtc step (start n) c.
