(* ===== verification/CondSpec.v ===== *)
(** [Cond]: the ticket list and that no notification is lost. *)
From Stdlib Require Import ZArith Lia.
From stdpp Require Import base tactics numbers list list_numbers option fin_maps gmap relations.
From S2P Require Import Prelude Threads Sema Cond.
Open Scope Z_scope.

(** ** The chain *)

(** The list holds the goroutines [q], oldest first. *)
Record rep (q : list Z) (s : NotifyList) : Prop := {
  rp_head : l_head s = hd 0 q;
  rp_tail : l_tail s = default 0 (list.last q);
  rp_nodup : base.NoDup q;
  rp_chain : chain (sema_next s) q
}.

Lemma chain_remove m l1 p g l2 : base.NoDup (l1 ++ p :: g :: l2) -> chain m (l1 ++ p :: g :: l2) -> chain (<[g := 0]> (<[p := hd 0 l2]> m)) (l1 ++ p :: l2).
Proof.
  induction l1 as [|a l1 IH]; cbn [app chain]; intros [Hni Hnd]%list.NoDup_cons.
  - apply list.NoDup_cons in Hnd as [Hgl _]. intros (Hp & _ & Hg & _ & Hc). rewrite not_elem_of_cons in Hni. destruct Hni as [Hpg Hpl]. split; [done|]. split.
    + by rewrite lookup_insert_ne, lookup_insert_eq by done.
    + eapply chain_frame; [|exact Hc]. intros x Hx. rewrite !lookup_insert_ne; [done|by intros ->|by intros ->].
  - intros (Ha & E & Hc). rewrite elem_of_app, !elem_of_cons in Hni. split; [done|]. split; [|by apply IH].
    rewrite !lookup_insert_ne by naive_solver. rewrite E. by destruct l1.
Qed.

Lemma chain_length m q : base.NoDup q -> chain m q -> (length q <= size m)%nat.
Proof.
  intros Hnd Hc. rewrite <- size_dom, <- (size_list_to_set (C := gset Z)) by done. apply subseteq_size. intros x Hx%elem_of_list_to_set. apply elem_of_dom.
  clear Hnd. induction q as [|g q IH]; [by apply elem_of_nil in Hx|]. destruct Hc as (_ & E & Hc). apply elem_of_cons in Hx as [->|Hx]; [by eexists|auto].
Qed.

(** What unlinking leaves alone. *)
Record unlinked (q : list Z) (s s' : NotifyList) : Prop := {
  ul_wait : wait s' = wait s;
  ul_notify : notify s' = notify s;
  ul_ticket : notify_ticket s' = notify_ticket s;
  ul_frame : forall x, x ∉ q -> sema_next s' !! x = sema_next s !! x
}.

Lemma chain_at m l1 g l2 : chain m (l1 ++ g :: l2) -> g <> 0 /\ m !! g = Some (hd 0 l2) /\ chain m l2.
Proof. induction l1 as [|a l1 IH]; cbn [app chain]; [done|]. intros (_ & _ & Hc). auto. Qed.

(** The three assignments of [NotifyOne] that take [g] out of the chain. *)
Definition remove (s : NotifyList) (prev g : Z) : NotifyList :=
  let next := default 0 (sema_next s !! g) in
  let s := if decide (prev = 0) then set_list s next (l_tail s) (sema_next s) else set_list s (l_head s) (l_tail s) (<[prev := next]> (sema_next s)) in
  let s := if decide (l_tail s = g) then set_list s (l_head s) prev (sema_next s) else s in
  set_list s (l_head s) (l_tail s) (<[g := 0]> (sema_next s)).

Lemma remove_fields s prev g : let s' := remove s prev g in
  wait s' = wait s /\ notify s' = notify s /\ notify_ticket s' = notify_ticket s /\
  l_head s' = (if decide (prev = 0) then default 0 (sema_next s !! g) else l_head s) /\
  l_tail s' = (if decide (l_tail s = g) then prev else l_tail s) /\
  sema_next s' = <[g := 0]> (if decide (prev = 0) then sema_next s else <[prev := default 0 (sema_next s !! g)]> (sema_next s)).
Proof. unfold remove, set_list. repeat case_decide; by cbn. Qed.

Lemma rep_remove l1 g l2 s : rep (l1 ++ g :: l2) s ->
  let s' := remove s (default 0 (list.last l1)) g in rep (l1 ++ l2) s' /\ unlinked (l1 ++ g :: l2) s s'.
Proof.
  intros [Rh Rt Rn Rc] s'. destruct (remove_fields s (default 0 (list.last l1)) g) as (F1 & F2 & F3 & F4 & F5 & F6). fold s' in F1, F2, F3, F4, F5, F6.
  destruct (chain_at _ _ _ _ Rc) as (Hg & Eg & Hc2). rewrite Eg in F4, F6. change (default 0 (Some (hd 0 l2))) with (hd 0 l2) in F4, F6.
  assert (g ∉ l1 /\ g ∉ l2 /\ base.NoDup (l1 ++ l2)) as (Hg1 & Hg2 & Hnd).
  { apply list.NoDup_app in Rn as (N1 & N2 & N3). apply list.NoDup_cons in N3 as [N3 N4]. split_and!; [intros H; apply (N2 g H); by left|done|].
    apply list.NoDup_app. split_and!; try done. intros x Hx Hx2. apply (N2 x Hx). by right. }
  assert (l_tail s' = default 0 (list.last (l1 ++ l2))) as Ht.
  { rewrite F5, Rt. destruct l2 as [|y l2 _] using rev_ind.
    - rewrite list.last_snoc, app_nil_r. cbn. by rewrite decide_True.
    - rewrite app_comm_cons, !app_assoc, !list.last_snoc. cbn. rewrite decide_False; [done|]. intros ->. apply Hg2, elem_of_app. right. by left. }
  destruct l1 as [|p l1 _] using rev_ind.
  - cbn [list.last default] in F4, F6. rewrite decide_True in F4 by done. rewrite decide_True in F6 by done. split; [split; [done|done|done|]|split; try done].
    + rewrite F6. cbn [app]. eapply chain_frame; [|exact Hc2]. intros x Hx. rewrite lookup_insert_ne; [done|by intros ->].
    + intros x Hx. rewrite F6. rewrite lookup_insert_ne; [done|]. intros ->. apply Hx. by left.
  - rewrite list.last_snoc in F4, F6. change (default 0 (Some p)) with p in F4, F6. rewrite <- app_assoc in Rc, Rn. cbn [app] in Rc, Rn. destruct (chain_at _ _ _ _ Rc) as (Hp & _ & _). rewrite decide_False in F4 by done. rewrite decide_False in F6 by done.
    split; [split; [|done|done|]|split; try done].
    + rewrite F4, Rh. destruct l1; by rewrite <- ?app_assoc.
    + rewrite F6, <- app_assoc. cbn [app]. by apply chain_remove.
    + intros x Hx. rewrite F6. rewrite !lookup_insert_ne; [done| |]; intros ->; apply Hx; rewrite <- app_assoc; apply elem_of_app; right; cbn [app]; [by left|right; by left].
Qed.

Lemma unlinked_refl q s : unlinked q s s.
Proof. by split. Qed.

(** [NotifyOne]'s walk finds the goroutine with ticket [t] wherever it is, or finds there is none. *)
Lemma notify_unlink_ok s t : forall fuel l1 l2, rep (l1 ++ l2) s -> (length l2 < fuel)%nat ->
  (exists l2a g l2b s', l2 = l2a ++ g :: l2b /\ default 0 (notify_ticket s !! g) = wrap32 t /\ unlink fuel s t (default 0 (list.last l1)) (hd 0 l2) = Some (s', g) /\
     rep (l1 ++ l2a ++ l2b) s' /\ unlinked (l1 ++ l2) s s') \/
  ((forall g, g ∈ l2 -> default 0 (notify_ticket s !! g) <> wrap32 t) /\ unlink fuel s t (default 0 (list.last l1)) (hd 0 l2) = Some (s, 0)).
Proof.
  induction fuel as [|fuel IH]; intros l1 l2 Hr Hf; [lia|]. destruct l2 as [|g l2]; cbn [unlink hd].
  { right. split; [by intros g ?%elem_of_nil|]. by rewrite decide_True. }
  destruct (chain_at _ _ _ _ (rp_chain _ _ Hr)) as (Hg & Eg & _). rewrite decide_False by done. destruct (decide (default 0 (notify_ticket s !! g) = wrap32 t)) as [Et|Et].
  - left. destruct (rep_remove l1 g l2 s Hr) as [R1 R2]. exists [], g, l2, (remove s (default 0 (list.last l1)) g). by split_and!.
  - rewrite Eg. cbn [default]. specialize (IH (l1 ++ [g]) l2). rewrite list.last_snoc, <- app_assoc in IH. cbn [app default length] in IH, Hf. destruct (IH Hr ltac:(lia)) as [(l2a & x & l2b & s' & -> & Ex & E & R & U)|[Hno E]].
    + left. exists (g :: l2a), x, l2b, s'. split_and!; try done. by rewrite <- app_assoc in R.
    + right. split; [|done]. intros x [->|Hx]%elem_of_cons; [done|auto].
Qed.

(** ** Tickets *)

Definition ticket_of (x : thread) : option Z := match x.2 with WaitUnlock t | WaitList t | Parked t => Some t | _ => None end.

(** The tickets handed out are [0 .. W - 1]; those not notified, [N .. W - 1], are all held. *)
Record tickets_ok (l : list thread) (W N : Z) : Prop := {
  tk_order : 0 <= N <= W;
  tk_range : forall i x t, l !! i = Some x -> ticket_of x = Some t -> 0 <= t < W;
  tk_uniq : forall i j x y t, l !! i = Some x -> l !! j = Some y -> ticket_of x = Some t -> ticket_of y = Some t -> i = j;
  tk_held : forall t, N <= t < W -> exists i x, l !! i = Some x /\ ticket_of x = Some t
}.

Lemma tickets_notify l W N N' : tickets_ok l W N -> N <= N' <= W -> tickets_ok l W N'.
Proof. intros [T1 T2 T3 T4] H. split; [lia|done|done|]. intros t Ht. apply T4. lia. Qed.

Lemma tickets_update l W N i x x' : tickets_ok l W N -> l !! i = Some x ->
  ticket_of x' = ticket_of x \/ ticket_of x' = None /\ (forall t, ticket_of x = Some t -> t < N) -> tickets_ok (<[i := x']> l) W N.
Proof.
  intros [T1 T2 T3 T4] Hi Hx. assert (forall t, ticket_of x' = Some t -> ticket_of x = Some t) as Hsub by (intros t E; destruct Hx as [<-|[E' _]]; congruence).
  assert (forall j y t, <[i := x']> l !! j = Some y -> ticket_of y = Some t -> exists z, l !! j = Some z /\ ticket_of z = Some t) as Hl.
  { intros j y t [(-> & <- & _)|[_ Hj]]%list_lookup_insert_Some Et; [exists x; auto|by exists y]. }
  split; [done| | |].
  - intros j y t Hj Et. destruct (Hl _ _ _ Hj Et) as (z & Hz & Ez). eauto.
  - intros j k y z t Hj Hk Ej Ek. destruct (Hl _ _ _ Hj Ej) as (y' & ? & ?), (Hl _ _ _ Hk Ek) as (z' & ? & ?). eauto.
  - intros t Ht. destruct (T4 t Ht) as (j & y & Hj & Ey). destruct (decide (j = i)) as [->|Hne].
    + rewrite Hi in Hj. injection Hj as <-. exists i, x'. rewrite list_lookup_insert_eq by (by eapply lookup_lt_Some). split; [done|]. destruct Hx as [->|[_ Hx]]; [done|]. specialize (Hx _ Ey). lia.
    + exists j, y. by rewrite list_lookup_insert_ne.
Qed.

Lemma tickets_add l W N i x x' : tickets_ok l W N -> l !! i = Some x -> ticket_of x = None -> ticket_of x' = Some W -> tickets_ok (<[i := x']> l) (W + 1) N.
Proof.
  intros [T1 T2 T3 T4] Hi Hx Hx'. pose proof (lookup_lt_Some _ _ _ Hi) as Hlt.
  assert (forall j y t, <[i := x']> l !! j = Some y -> ticket_of y = Some t -> j = i /\ t = W \/ j <> i /\ l !! j = Some y) as Hl.
  { intros j y t [(-> & <- & _)|[Hne Hj]]%list_lookup_insert_Some Et; [left; split; congruence|by right]. }
  split; [lia| | |].
  - intros j y t Hj Et. destruct (Hl _ _ _ Hj Et) as [[-> ->]|[_ Hj']]; [lia|]. specialize (T2 _ _ _ Hj' Et). lia.
  - intros j k y z t Hj Hk Ej Ek. destruct (Hl _ _ _ Hj Ej) as [[-> ->]|[_ Hj']], (Hl _ _ _ Hk Ek) as [[-> E]|[_ Hk']]; try done; [|subst t|eauto].
    + specialize (T2 _ _ _ Hk' Ek). lia.
    + specialize (T2 _ _ _ Hj' Ej). lia.
  - intros t Ht. destruct (decide (t = W)) as [->|Hne]; [exists i, x'; by rewrite list_lookup_insert_eq|]. destruct (T4 t ltac:(lia)) as (j & y & Hj & Ey).
    exists j, y. rewrite list_lookup_insert_ne by congruence. done.
Qed.

(** No more tickets are pending than there are goroutines. *)
Lemma tickets_bound l W N : tickets_ok l W N -> W - N <= zlen l.
Proof.
  intros [T1 _ _ T4]. assert (seqZ N (W - N) ⊆+ omap ticket_of l) as Hsub.
  { apply NoDup_submseteq; [apply NoDup_seqZ|]. intros t Ht%elem_of_seqZ. destruct (T4 t ltac:(lia)) as (i & x & Hi & Ex). apply list_elem_of_omap. exists x. split; [by eapply list_elem_of_lookup_2|done]. }
  apply submseteq_length in Hsub. rewrite length_seqZ in Hsub. assert (length (omap ticket_of l) <= length l)%nat; [|unfold zlen; lia].
  clear. induction l as [|x l IH]; cbn; [lia|]. destruct (ticket_of x); cbn; lia.
Qed.

Lemma less_ok t N : N - 2 ^ 31 <= t < N + 2 ^ 31 -> less t N = bool_decide (t < N).
Proof.
  intros H. unfold less, wrap32. rewrite <- Zminus_mod. destruct (decide (t < N)) as [Hlt|Hge].
  - replace ((t - N) mod 2 ^ 32) with (t - N + 2 ^ 32) by (symmetry; rewrite <- (Z_mod_plus_full (t - N) 1); apply Z.mod_small; lia).
    rewrite decide_False, bool_decide_true by lia. apply Z.ltb_lt. lia.
  - rewrite Z.mod_small by lia. rewrite decide_True, bool_decide_false by lia. apply Z.ltb_ge. lia.
Qed.

(** ** Parked goroutines *)

Definition parked (x : thread) : bool := match x.2 with Parked _ => true | _ => false end.

(** The goroutines a notifier has taken off the list and is about to ready. *)
Definition hand_ok (m : gmap Z Z) (x : thread) (h : list Z) : Prop :=
  match x.2 with OneReady g => h = [g] /\ g <> 0 | AllReady g => g = hd 0 h /\ chain m h | _ => h = [] end.

(** Every parked goroutine is in the list [q], with a ticket not notified, or in one hand, with
    one notified. *)
Record parked_ok (s : NotifyList) (l : list thread) (q : list Z) (hands : list (list Z)) : Prop := {
  pk_rep : rep q s;
  pk_len : length hands = length l;
  pk_hand : forall j x h, l !! j = Some x -> hands !! j = Some h -> hand_ok (sema_next s) x h;
  pk_nodup : base.NoDup (q ++ concat hands);
  pk_parked : queue_ok parked l (q ++ concat hands);
  pk_q : forall i h t, gid i ∈ q -> l !! i = Some (h, Parked t) -> notify s <= t /\ notify_ticket s !! gid i = Some (wrap32 t);
  pk_h : forall i h t, gid i ∈ concat hands -> l !! i = Some (h, Parked t) -> t < notify s
}.

Lemma concat_insert {A} (ls : list (list A)) j h h0 : ls !! j = Some h0 -> h0 ++ concat (<[j := h]> ls) ≡ₚ h ++ concat ls.
Proof.
  revert j. induction ls as [|x ls IH]; intros [|j] E; cbn in *; try done.
  - injection E as ->. by rewrite !app_assoc, (Permutation_app_comm h0 h).
  - rewrite (Permutation_app_comm x), app_assoc, IH by done. rewrite <- app_assoc. f_equiv. apply Permutation_app_comm.
Qed.

Lemma elem_of_concat {A} (ls : list (list A)) x : x ∈ concat ls <-> exists j h, ls !! j = Some h /\ x ∈ h.
Proof.
  induction ls as [|a ls IH]; cbn.
  - split; [by intros ?%elem_of_nil|]. intros (j & h & E & _). by rewrite lookup_nil in E.
  - rewrite elem_of_app, IH. split.
    + intros [Hx|(j & h & E & Hx)]; [by exists 0%nat, a|by exists (S j), h].
    + intros ([|j] & h & E & Hx); [left; by injection E as ->|right; by exists j, h].
Qed.

Lemma queue_ok_perm (l : list thread) q q' : q ≡ₚ q' -> queue_ok parked l q -> queue_ok parked l q'.
Proof. intros E Hq g. rewrite <- E. apply Hq. Qed.

(** A goroutine that is not parked moves on. *)
Lemma parked_move s l q hands i x x' : parked_ok s l q hands -> l !! i = Some x -> parked x = false -> parked x' = false ->
  (forall h, hand_ok (sema_next s) x h -> hand_ok (sema_next s) x' h) -> parked_ok s (<[i := x']> l) q hands.
Proof.
  intros [K1 K2 K3 K4 K5 K6 K7] Hi Hx Hx' Hh. split; [done|by rewrite length_insert| |done|by eapply queue_ok_same| |].
  - intros j y h [(-> & <- & _)|[_ Hj]]%list_lookup_insert_Some E; eauto.
  - intros j h t Hg [(-> & -> & _)|[_ Hj]]%list_lookup_insert_Some; [done|eauto].
  - intros j h t Hg [(-> & -> & _)|[_ Hj]]%list_lookup_insert_Some; [done|eauto].
Qed.

(** Only [wait] changes. *)
Lemma parked_wait s l q hands w : parked_ok s l q hands -> parked_ok (mkNotifyList w (notify s) (l_head s) (l_tail s) (sema_next s) (notify_ticket s)) l q hands.
Proof. intros [[R1 R2 R3 R4] K2 K3 K4 K5 K6 K7]. by split. Qed.

Lemma hand_frame (m m' : gmap Z Z) x (h : list Z) : (forall g, g ∈ h -> m' !! g = m !! g) -> hand_ok m x h -> hand_ok m' x h.
Proof. unfold hand_ok. intros Hf. destruct x as [b []]; cbn; try done. intros [-> Hc]. split; [done|]. by eapply chain_frame. Qed.

(** The hands other than [i]'s are not in the list [q], nor in [i]'s hand. *)
Lemma hand_disjoint (q : list Z) (hands : list (list Z)) i (h0 : list Z) j (h : list Z) (g : Z) : base.NoDup (q ++ concat hands) -> hands !! i = Some h0 -> hands !! j = Some h -> j <> i -> g ∈ h -> g ∉ q /\ g ∉ h0.
Proof.
  intros (Nq & Nd & Nc)%list.NoDup_app Hi Hj Hne Hg. assert (g ∈ concat hands) as Hgc by (apply elem_of_concat; eauto). split; [intros Hq; by apply (Nd g)|]. clear Nq Nd Hgc.
  intros Hg0. revert i j Hi Hj Hne Nc. induction hands as [|a hands IH]; intros [|i] [|j] Hi Hj Hne; cbn in *; try done.
  - injection Hi as ->. intros (_ & Nd & _)%list.NoDup_app. apply (Nd g Hg0). apply elem_of_concat. eauto.
  - injection Hj as ->. intros (_ & Nd & _)%list.NoDup_app. apply (Nd g Hg). apply elem_of_concat. eauto.
  - intros (_ & _ & Nc)%list.NoDup_app. eapply IH; [exact Hi|exact Hj|congruence|done].
Qed.

Lemma wait_rep s q g t : rep q s -> less t (notify s) = false -> g <> 0 -> g ∉ q ->
  exists s', Wait s g t = (s', false) /\ rep (q ++ [g]) s' /\ wait s' = wait s /\ notify s' = notify s /\ notify_ticket s' = <[g := wrap32 t]> (notify_ticket s) /\
    forall x, x ∉ q -> x <> g -> sema_next s' !! x = sema_next s !! x.
Proof.
  intros [R1 R2 R3 R4] Hl Hg Hni. unfold Wait. rewrite Hl.
  destruct (acquire_park 0 q (mkSema 0 (l_head s) (l_tail s) (sema_next s)) g ltac:(by split_and!) ltac:(lia) Hg Hni) as (sm & E & (_ & S1 & S2 & S3 & S4)).
  unfold acquire in E. cbn [credit s_head s_tail links] in E. rewrite decide_False in E by lia. destruct (decide (l_tail s = 0)) as [Hz|Hz]; injection E as <-; cbn [s_head s_tail links] in *.
  - eexists. split; [done|]. split_and!; try done. intros x Hx Hxg. cbn. by rewrite lookup_insert_ne by congruence.
  - eexists. split; [done|]. split_and!; try done. intros x Hx Hxg. cbn. rewrite !lookup_insert_ne; [done|congruence|].
    intros <-. apply Hx. rewrite R2 in Hz |- *. destruct (list.last q) as [y|] eqn:Ey; [|done]. cbn. apply last_Some in Ey as [q' ->]. apply elem_of_app. right. by left.
Qed.

Lemma parked_park s l q hands i h t : parked_ok s l q hands -> l !! i = Some (h, WaitList t) -> less t (notify s) = false -> notify s <= t ->
  exists s', Wait s (gid i) t = (s', false) /\ wait s' = wait s /\ notify s' = notify s /\ parked_ok s' (<[i := (h, Parked t)]> l) (q ++ [gid i]) hands.
Proof.
  intros [K1 K2 K3 K4 K5 K6 K7] Hi Hl Ht. destruct (queue_ok_park parked l (q ++ concat hands) i _ (h, Parked t) K5 Hi eq_refl eq_refl) as [Hni Hqo].
  assert (gid i ∉ q /\ gid i ∉ concat hands) as [Hn1 Hn2] by (rewrite elem_of_app in Hni; tauto).
  assert ((q ++ concat hands) ++ [gid i] ≡ₚ (q ++ [gid i]) ++ concat hands) as Hperm by (rewrite <- !app_assoc; f_equiv; apply Permutation_app_comm).
  destruct (wait_rep s q (gid i) t K1 Hl ltac:(unfold gid; lia) Hn1) as (s' & E & R & E1 & E2 & E3 & Hf). exists s'. split_and!; try done.
  split; [done|by rewrite length_insert| | |by eapply queue_ok_perm| |].
  - intros j x hj Hj Hh. assert (hand_ok (sema_next s) x hj) as Hok.
    { apply list_lookup_insert_Some in Hj as [(-> & <- & _)|[_ Hj]]; [|eauto]. by pose proof (K3 _ _ _ Hi Hh). }
    eapply hand_frame; [|exact Hok]. intros g Hg. assert (g ∈ concat hands) as Hgc by (apply elem_of_concat; eauto). apply Hf; [|by intros ->].
    apply list.NoDup_app in K4 as (_ & Nd & _). intros Hq. by apply (Nd g).
  - rewrite <- Hperm. apply list.NoDup_app. split_and!; [done| |apply list.NoDup_singleton]. intros x Hx ->%list_elem_of_singleton. done.
  - intros j hj tj Hg Hj. rewrite E2, E3. apply list_lookup_insert_Some in Hj as [(-> & Eq & _)|[Hne Hj]].
    + injection Eq as -> ->. by rewrite lookup_insert_eq.
    + rewrite lookup_insert_ne by (intros E'; apply gid_inj in E'; congruence). eapply K6; [|exact Hj]. apply elem_of_app in Hg as [Hg|Hg%list_elem_of_singleton]; [done|]. by apply gid_inj in Hg; congruence.
  - intros j hj tj Hg Hj. rewrite E2. apply list_lookup_insert_Some in Hj as [(-> & _ & _)|[Hne Hj]]; [done|eauto].
Qed.

Lemma parked_all s l q hands i h : parked_ok s l q hands -> tickets_ok l (wait s) (notify s) -> l !! i = Some (h, AllLock) ->
  parked_ok (notify_all s).1 (<[i := (h, AllReady (notify_all s).2)]> l) [] (<[i := q]> hands).
Proof.
  intros [[R1 R2 R3 R4] K2 K3 K4 K5 K6 K7] Htk Hi. pose proof (lookup_lt_Some _ _ _ Hi) as Hlt. rewrite <- K2 in Hlt. destruct (lookup_lt_is_Some_2 hands i Hlt) as [h0 Hh0].
  pose proof (K3 _ _ _ Hi Hh0) as Eh0. cbn in Eh0. subst h0. pose proof (concat_insert hands i q [] Hh0) as Hperm. cbn [app] in Hperm. cbn [notify_all fst snd].
  split; cbn [app notify sema_next notify_ticket].
  - split; try done. apply base.NoDup_nil_2.
  - by rewrite !length_insert.
  - intros j x hj Hj Hh. apply list_lookup_insert_Some in Hj as [(-> & <- & _)|[Hne Hj]].
    + rewrite list_lookup_insert_eq in Hh by done. by injection Hh as <-.
    + rewrite list_lookup_insert_ne in Hh by done. eauto.
  - by rewrite Hperm.
  - eapply queue_ok_perm; [symmetry; exact Hperm|]. by eapply queue_ok_same.
  - intros j hj tj Hg. by apply elem_of_nil in Hg.
  - intros j hj tj _ Hj. apply list_lookup_insert_Some in Hj as [(-> & Eq & _)|[Hne Hj]]; [done|]. by apply (tk_range _ _ _ Htk _ _ _ Hj).
Qed.

Lemma wrap32_near a b : 0 <= a - b < 2 ^ 32 -> wrap32 a = wrap32 b -> a = b.
Proof.
  unfold wrap32. intros H E. assert ((a - b) mod 2 ^ 32 = 0) as Hz by (rewrite Zminus_mod, E, Z.sub_diag; done). rewrite Z.mod_small in Hz by done. lia.
Qed.

(** [s] with its next ticket notified. *)
Definition bump (s : NotifyList) : NotifyList := mkNotifyList (wait s) (notify s + 1) (l_head s) (l_tail s) (sema_next s) (notify_ticket s).

Lemma rep_bump q s : rep q s -> rep q (bump s).
Proof. intros [R1 R2 R3 R4]. by split. Qed.

(** The goroutine taken off the list moves to the hand of the notifier. *)
Lemma parked_take s l qa g qb hands i h s' : parked_ok s l (qa ++ g :: qb) hands -> tickets_ok l (wait s) (notify s) -> wait s - notify s < 2 ^ 31 -> l !! i = Some (h, OneLock) ->
  default 0 (notify_ticket s !! g) = wrap32 (notify s) -> rep (qa ++ qb) s' -> unlinked (qa ++ g :: qb) (bump s) s' ->
  (exists k hk, g = gid k /\ l !! k = Some (hk, Parked (notify s))) /\ parked_ok s' (<[i := (h, OneReady g)]> l) (qa ++ qb) (<[i := [g]]> hands).
Proof.
  intros [K1 K2 K3 K4 K5 K6 K7] Htk Hw Hi Eg Hr [U1 U2 U3 U4]. assert (g ∈ qa ++ g :: qb) as Hgin by (apply elem_of_app; right; by left).
  destruct (proj1 (K5 g)) as (k & [hk pk] & Egk & Hk & Hpk); [apply elem_of_app; by left|]. destruct pk as [| | |tk| | | | | | | | |]; try done. subst g.
  assert (tk = notify s) as ->.
  { destruct (K6 _ _ _ Hgin Hk) as [Hn Et]. rewrite Et in Eg. cbn in Eg. apply wrap32_near; [|done]. pose proof (tk_range _ _ _ Htk _ _ tk Hk eq_refl). lia. }
  split; [eauto|]. pose proof (lookup_lt_Some _ _ _ Hi) as Hlt. rewrite <- K2 in Hlt. destruct (lookup_lt_is_Some_2 hands i Hlt) as [h0 Hh0].
  pose proof (K3 _ _ _ Hi Hh0) as Eh0. cbn in Eh0. subst h0. pose proof (concat_insert hands i [gid k] [] Hh0) as Hperm. cbn [app] in Hperm.
  assert ((qa ++ gid k :: qb) ++ concat hands ≡ₚ (qa ++ qb) ++ concat (<[i := [gid k]]> hands)) as Hp by (rewrite Hperm; solve_Permutation).
  assert (gid k ∉ qa ++ qb) as Hgn.
  { pose proof (rp_nodup _ _ K1) as Nd. apply list.NoDup_app in Nd as (_ & Nd & [Ng _]%list.NoDup_cons). intros [Hg|Hg]%elem_of_app; [apply (Nd _ Hg); by left|done]. }
  split; [done|by rewrite !length_insert| |by rewrite <- Hp|eapply queue_ok_perm; [exact Hp|]; by eapply queue_ok_same| |].
  - intros j x hj Hj Hh. apply list_lookup_insert_Some in Hj as [(-> & <- & _)|[Hne Hj]].
    + rewrite list_lookup_insert_eq in Hh by done. injection Hh as <-. cbn. unfold gid. split; [done|lia].
    + rewrite list_lookup_insert_ne in Hh by done. eapply hand_frame; [|by eauto]. intros x' Hx'. apply (U4 x').
      apply list.NoDup_app in K4 as (_ & Nd & _). intros Hq. apply (Nd _ Hq). apply elem_of_concat. eauto.
  - intros j hj tj Hg Hj. apply list_lookup_insert_Some in Hj as [(-> & Eq & _)|[Hne Hj]]; [done|]. rewrite U2, U3. cbn [bump notify notify_ticket].
    destruct (K6 j hj tj) as [Hn Et]; [|done|].
    { apply elem_of_app in Hg as [Hg|Hg]; apply elem_of_app; [by left|right; by right]. }
    split; [|done]. assert (tj <> notify s); [|lia]. intros ->. assert (j = k) as -> by by eapply (tk_uniq _ _ _ Htk). done.
  - intros j hj tj Hg Hj. apply list_lookup_insert_Some in Hj as [(-> & Eq & _)|[Hne Hj]]; [done|]. rewrite U2. cbn [bump notify]. rewrite Hperm in Hg. apply elem_of_cons in Hg as [Hg|Hg].
    + apply gid_inj in Hg as ->. rewrite Hk in Hj. injection Hj as _ <-. lia.
    + specialize (K7 _ _ _ Hg Hj). lia.
Qed.

(** What the critical section of [NotifyOne] does: it notifies the oldest ticket that is not, and
    takes its holder off the list if it is parked. *)
Record one_ok (s : NotifyList) (l : list thread) (s' : NotifyList) (g : Z) : Prop := {
  on_wait : wait s' = wait s;
  on_notify : notify s' = Z.min (notify s + 1) (wait s);
  on_found : g <> 0 -> exists k h, g = gid k /\ l !! k = Some (h, Parked (notify s));
  on_none : g = 0 -> forall k h, l !! k <> Some (h, Parked (notify s))
}.

Lemma parked_one s l q hands i h : parked_ok s l q hands -> tickets_ok l (wait s) (notify s) -> wait s - notify s < 2 ^ 31 -> l !! i = Some (h, OneLock) ->
  exists s' g q' hands', notify_one s = Some (s', g) /\ one_ok s l s' g /\ parked_ok s' (<[i := (h, if decide (g = 0) then Idle else OneReady g)]> l) q' hands'.
Proof.
  intros Hk Htk Hw Hi. pose proof (tk_order _ _ _ Htk) as Ho. pose proof (pk_rep _ _ _ _ Hk) as Hr. unfold notify_one.
  destruct (decide (wrap32 (notify s) = wrap32 (wait s))) as [E|E].
  - assert (wait s = notify s) as Ew by (apply wrap32_near; [lia|done]). exists s, 0, q, hands. split; [done|]. split; [|by eapply parked_move].
    split; [done|lia|done|]. intros _ k hk Hpk. pose proof (tk_range _ _ _ Htk _ _ (notify s) Hpk eq_refl). lia.
  - assert (notify s < wait s) as Hlt by (destruct (decide (notify s = wait s)) as [E'|]; [by rewrite E' in E|lia]). fold (bump s).
    destruct (notify_unlink_ok (bump s) (notify s) (S (size (sema_next s))) [] q) as [(qa & g & qb & s' & -> & Eg & Eu & R & U)|[Hno Eu]]; [by apply rep_bump|pose proof (chain_length _ _ (rp_nodup _ _ Hr) (rp_chain _ _ Hr)); lia| |].
    + destruct (parked_take s l qa g qb hands i h s' Hk Htk Hw Hi Eg R U) as [(k & hk & -> & Hpk) Hok]. rewrite (rp_head _ _ Hr). exists s', (gid k), (qa ++ qb), (<[i := [gid k]]> hands).
      split; [exact Eu|]. assert (gid k <> 0) by (unfold gid; lia). rewrite decide_False by done. split; [|done]. destruct U as [U1 U2 _ _]. split; [done|rewrite U2; cbn; lia|eauto|done].
    + exists (bump s), 0, q, hands. rewrite (rp_head _ _ Hr). split; [exact Eu|]. destruct Hk as [K1 K2 K3 K4 K5 K6 K7].
      assert (forall k hk, l !! k <> Some (hk, Parked (notify s))) as Hnone.
      { intros k hk Hpk. assert (gid k ∈ q ++ concat hands) as [Hq|Hq]%elem_of_app by (apply K5; by exists k, (hk, Parked (notify s))).
        - apply (Hno _ Hq). cbn. by rewrite (proj2 (K6 _ _ _ Hq Hpk)).
        - specialize (K7 _ _ _ Hq Hpk). lia. }
      split; [split; [done|cbn; lia|done|done]|]. eapply parked_move; [|done|done|done|done]. split; try done; [by apply rep_bump| |].
      * intros j hj tj Hg Hj. destruct (K6 _ _ _ Hg Hj) as [Hn Et]. split; [|done]. assert (tj <> notify s) by (intros ->; by eapply Hnone). cbn. lia.
      * intros j hj tj Hg Hj. specialize (K7 _ _ _ Hg Hj). cbn. lia.
Qed.

(** A notifier readies the first goroutine in its hand, and touches at most its link. *)
Lemma parked_wake s l q hands i x x' g h m : parked_ok s l q hands -> l !! i = Some x -> hands !! i = Some (g :: h) -> parked x = false -> parked x' = false ->
  (forall y, y <> g -> m !! y = sema_next s !! y) -> (chain (sema_next s) (g :: h) \/ h = [] -> hand_ok m x' h) -> hand_ok (sema_next s) x (g :: h) ->
  exists k hk t, g = gid k /\ k <> i /\ l !! k = Some (hk, Parked t) /\ t < notify s /\ wake resume (Some g) (<[i := x']> l) = <[k := (hk, WaitLock)]> (<[i := x']> l) /\
    parked_ok (set_list s (l_head s) (l_tail s) m) (<[k := (hk, WaitLock)]> (<[i := x']> l)) q (<[i := h]> hands).
Proof.
  intros [K1 K2 K3 K4 K5 K6 K7] Hi Hh Hx Hx' Hm Hhand Hok. pose proof (lookup_lt_Some _ _ _ Hi) as Hlt.
  pose proof (concat_insert hands i h (g :: h) Hh) as Hperm. cbn [app] in Hperm. assert (concat hands ≡ₚ g :: concat (<[i := h]> hands)) as Hp.
  { apply (Permutation_app_inv_l h). rewrite <- Hperm. solve_Permutation. }
  assert (g ∈ concat hands) as Hgc by (rewrite Hp; by left). assert (q ++ concat hands ≡ₚ g :: q ++ concat (<[i := h]> hands)) as Hpq by (rewrite Hp; solve_Permutation).
  assert (queue_ok parked (<[i := x']> l) (g :: q ++ concat (<[i := h]> hands))) as Hqo by (eapply queue_ok_perm; [exact Hpq|]; by eapply queue_ok_same).
  assert (base.NoDup (g :: q ++ concat (<[i := h]> hands))) as Hnd by (by rewrite <- Hpq).
  destruct (queue_ok_wake parked _ _ g Hqo Hnd) as (k & [hk pk] & -> & Hk & Hpk & Hres). destruct pk as [| | |t| | | | | | | | |]; try done.
  assert (k <> i) as Hki by (intros ->; rewrite list_lookup_insert_eq in Hk by done; injection Hk as ->; done). assert (l !! k = Some (hk, Parked t)) as Hlk by by rewrite list_lookup_insert_ne in Hk.
  destruct (Hres resume eq_refl) as [Hw Hqo']. cbn [resume] in Hw, Hqo'. apply list.NoDup_cons in Hnd as [Hgn Hnd]. exists k, hk, t. split_and!; try done; [by eapply K7|].
  assert (forall j y, <[k := (hk, WaitLock)]> (<[i := x']> l) !! j = Some y -> parked y = true -> j <> k /\ j <> i /\ l !! j = Some y) as Hl.
  { intros j y [(-> & <- & _)|[H1 H2]]%list_lookup_insert_Some Hy; [done|]. apply list_lookup_insert_Some in H2 as [(-> & <- & _)|[H3 H4]]; [congruence|done]. }
  assert (gid k ∉ q /\ forall y, y ∈ q -> y <> gid k) as [Hgq Hgq'] by (split; [intros Hq; apply Hgn, elem_of_app; by left|intros y Hy ->; apply Hgn, elem_of_app; by left]).
  split; cbn [set_list sema_next notify notify_ticket].
  - destruct K1 as [R1 R2 R3 R4]. split; try done. cbn. eapply chain_frame; [|exact R4]. intros y Hy. apply Hm. auto.
  - by rewrite !length_insert.
  - intros j y hj Hj Hhj. destruct (decide (j = i)) as [->|Hji].
    + rewrite list_lookup_insert_ne, list_lookup_insert_eq in Hj by done. injection Hj as <-. rewrite list_lookup_insert_eq in Hhj by lia. injection Hhj as <-. apply Hhand.
      destruct x as [b []]; cbn in Hok; try done; naive_solver.
    + rewrite list_lookup_insert_ne in Hhj by done. assert (hand_ok (sema_next s) y hj) as Hokj.
      { apply list_lookup_insert_Some in Hj as [(-> & <- & _)|[_ Hj]]; [by pose proof (K3 _ _ _ Hlk Hhj)|]. rewrite list_lookup_insert_ne in Hj by done. eauto. }
      eapply hand_frame; [|exact Hokj]. intros g Hg. apply Hm. intros ->. destruct (hand_disjoint q hands i _ j hj _ K4 Hh Hhj Hji Hg) as [_ Hnot]. apply Hnot. by left.
  - done.
  - done.
  - intros j hj tj Hg Hj. destruct (Hl _ _ Hj eq_refl) as (_ & _ & Hj'). eauto.
  - intros j hj tj Hg Hj. destruct (Hl _ _ Hj eq_refl) as (_ & _ & Hj'). eapply K7; [|exact Hj']. rewrite Hp. by right.
Qed.

(** ** The invariant *)

Definition holds (x : thread) : Z := if x.1 then 1 else 0.

Definition thread_ok (x : thread) : Prop :=
  match x.2 with WaitUnlock _ => x.1 = true | WaitList _ | Parked _ | WaitLock => x.1 = false | _ => True end.

Record inv (c : config) (q : list Z) (hands : list (list Z)) : Prop := {
  iv_tickets : tickets_ok (threads c) (wait (list_ (cond c))) (notify (list_ (cond c)));
  iv_parked : parked_ok (list_ (cond c)) (threads c) q hands;
  iv_locked : zsum holds (threads c) = if locked (cond c) then 1 else 0;
  iv_threads : forall i x, threads c !! i = Some x -> thread_ok x
}.

Lemma threads_update (l : list thread) i x' : (forall i x, l !! i = Some x -> thread_ok x) -> thread_ok x' -> forall j x, <[i := x']> l !! j = Some x -> thread_ok x.
Proof. intros Hl Hx j x [(-> & <- & _)|[_ Hj]]%list_lookup_insert_Some; eauto. Qed.

Lemma inv_move c l q hands i x x' (b : bool) : inv (mkConfig c l) q hands -> l !! i = Some x -> parked x = false -> parked x' = false ->
  (forall h, hand_ok (sema_next (list_ c)) x h -> hand_ok (sema_next (list_ c)) x' h) ->
  ticket_of x' = ticket_of x \/ ticket_of x' = None /\ (forall t, ticket_of x = Some t -> t < notify (list_ c)) -> thread_ok x' ->
  holds x' - holds x = (if b then 1 else 0) - (if locked c then 1 else 0) -> inv (mkConfig (mkCond b (list_ c)) (<[i := x']> l)) q hands.
Proof.
  intros [I1 I2 I3 I4] Hi Hx Hx' Hh Ht Hok Hb. cbn [cond threads list_ locked] in *. split; cbn [cond threads list_ locked].
  - by eapply tickets_update.
  - by eapply parked_move.
  - rewrite (zsum_insert _ _ _ _ _ Hi). lia.
  - by apply threads_update.
Qed.

Lemma inv_same c l q hands i x x' : inv (mkConfig c l) q hands -> l !! i = Some x -> parked x = false -> parked x' = false ->
  (forall h, hand_ok (sema_next (list_ c)) x h -> hand_ok (sema_next (list_ c)) x' h) ->
  ticket_of x' = ticket_of x \/ ticket_of x' = None /\ (forall t, ticket_of x = Some t -> t < notify (list_ c)) -> thread_ok x' ->
  holds x' = holds x -> inv (mkConfig c (<[i := x']> l)) q hands.
Proof. intros Hv Hi Hx Hx' Hh Ht Hok Hb. destruct c as [b s]. apply (inv_move (mkCond b s) l q hands i x x' b); try done. cbn. lia. Qed.

(** A step that changes the list but not the locker. *)
Lemma inv_list c l q hands s' l' q' hands' : inv (mkConfig c l) q hands -> tickets_ok l' (wait s') (notify s') -> parked_ok s' l' q' hands' -> zsum holds l' = zsum holds l ->
  (forall i x, l' !! i = Some x -> thread_ok x) -> inv (mkConfig (mkCond (locked c) s') l') q' hands'.
Proof. intros [_ _ I3 _] H1 H2 H3 H4. split; cbn [cond threads list_ locked] in *; try done. by rewrite H3. Qed.

Lemma begin_ok c l q hands i h a c' x : inv (mkConfig c l) q hands -> l !! i = Some (h, Idle) -> begin a h c = Some (c', x) -> exists q' hands', inv (mkConfig c' (<[i := x]> l)) q' hands'.
Proof.
  intros Hv Hi E. pose proof Hv as [I1 I2 I3 I4]. cbn [cond threads list_ locked] in *. destruct a.
  - destruct h; [done|]. cbn in E. destruct (locked c) eqn:El; [done|]. injection E as <- <-. exists q, hands. eapply inv_move; try done; [by left|cbn; rewrite El; lia].
  - destruct h; [|done]. injection E as <- <-. pose proof (zsum_ge holds l i (true, Idle) ltac:(intros [[] ?]; cbn; lia) Hi) as Hge. cbn in Hge.
    destruct (locked c) eqn:El; [|lia]. exists q, hands. eapply inv_move; try done; [by left|cbn; rewrite El; lia].
  - destruct h; [|done]. injection E as <- <-. exists q, hands. eapply (inv_list c l q hands _ _ q hands Hv); cbn [wait notify].
    + by eapply tickets_add.
    + apply parked_wait. by eapply parked_move.
    + rewrite (zsum_insert _ _ _ _ _ Hi). cbn. lia.
    + by apply threads_update.
  - destruct h; injection E as <- <-; exists q, hands; (eapply inv_same; try done; by left).
  - destruct h; injection E as <- <-; exists q, hands; (eapply inv_same; try done; by left).
Qed.

Lemma holder_locked c l q hands i x : inv (mkConfig c l) q hands -> l !! i = Some x -> x.1 = true -> locked c = true.
Proof.
  intros [_ _ I3 _] Hi Hx. cbn in I3. pose proof (zsum_ge holds l i x ltac:(intros [[] ?]; cbn; lia) Hi) as Hge. unfold holds in Hge at 1. rewrite Hx in Hge. destruct (locked c); [done|lia].
Qed.

(** After a notifier at [i] readied the parked goroutine [k]. *)
Lemma inv_wake c l q hands i x x' k hk t s' q' hands' : inv (mkConfig c l) q hands -> l !! i = Some x -> k <> i -> l !! k = Some (hk, Parked t) -> t < notify (list_ c) ->
  ticket_of x = None -> ticket_of x' = None -> holds x' = holds x -> thread_ok x' -> wait s' = wait (list_ c) -> notify s' = notify (list_ c) ->
  parked_ok s' (<[k := (hk, WaitLock)]> (<[i := x']> l)) q' hands' -> inv (mkConfig (mkCond (locked c) s') (<[k := (hk, WaitLock)]> (<[i := x']> l))) q' hands'.
Proof.
  intros Hv Hi Hki Hk Ht Hx Hx' Hh Hok E1 E2 Hp. pose proof Hv as [I1 I2 I3 I4]. cbn [cond threads list_ locked] in *. assert (<[i := x']> l !! k = Some (hk, Parked t)) as Hk' by by rewrite list_lookup_insert_ne.
  eapply inv_list; [exact Hv| |exact Hp| |].
  - rewrite E1, E2. eapply tickets_update; [eapply tickets_update; [exact I1|exact Hi|left; congruence]|exact Hk'|]. right. split; [done|]. by intros ? [= <-].
  - rewrite (zsum_insert _ _ _ _ _ Hk'), (zsum_insert _ _ _ _ _ Hi). unfold holds in *. cbn in *. lia.
  - apply threads_update; [by apply threads_update|]. pose proof (I4 _ _ Hk) as Hpk. exact Hpk.
Qed.

Lemma notify_step_ok c l q hands i h k c' x' g : inv (mkConfig c l) q hands -> zlen l < 2 ^ 31 -> l !! i = Some (h, k) ->
  match k with OneLock | OneReady _ | AllLock | AllReady _ => True | _ => False end -> thread_step (gid i) (h, k) c = Some (c', x', g) ->
  exists q' hands', inv (mkConfig c' (wake resume g (<[i := x']> l))) q' hands'.
Proof.
  intros Hv Hn Hi Hk E. pose proof Hv as [I1 I2 I3 I4]. cbn [cond threads list_ locked] in *. pose proof (tickets_bound _ _ _ I1) as Hb. pose proof (tk_order _ _ _ I1) as Ho.
  assert (exists hi, hands !! i = Some hi) as [hi Hhi] by (apply lookup_lt_is_Some_2; rewrite (pk_len _ _ _ _ I2); by eapply lookup_lt_Some). pose proof (pk_hand _ _ _ _ I2 _ _ _ Hi Hhi) as Hok.
  destruct k; try done; cbn [thread_step] in E.
  - assert (wait (list_ c) - notify (list_ c) < 2 ^ 31) as Hw by lia. destruct (parked_one _ _ _ _ _ _ I2 I1 Hw Hi) as (s' & found & q' & hands' & E' & [O1 O2 _ _] & Hp). rewrite E' in E. injection E as <- <- <-. cbn [wake]. exists q', hands'.
    eapply (inv_list c l); [done| |done| |].
    + rewrite O1, O2. eapply tickets_notify; [eapply tickets_update; [exact I1|exact Hi|]|lia]. left. by destruct (decide (found = 0)).
    + rewrite (zsum_insert _ _ _ _ _ Hi). destruct (decide (found = 0)); unfold holds; cbn [fst]; lia.
    + apply threads_update; [done|]. by destruct (decide (found = 0)).
  - injection E as <- <- <-. cbn in Hok. destruct Hok as [-> Hg]. destruct (parked_wake _ _ _ _ i (h, OneReady g0) (h, Idle) g0 [] (sema_next (list_ c)) I2 Hi Hhi) as (k & hk & t & -> & Hki & Hlk & Ht & -> & Hp); try done.
    exists q, (<[i := []]> hands). destruct c as [b s]. eapply (inv_wake (mkCond b s)); try done. by destruct s.
  - injection E as <- <- <-. cbn [wake]. exists [], (<[i := q]> hands). eapply (inv_list c l); [done| |by apply parked_all| |].
    + cbn [notify_all wait notify]. eapply tickets_notify; [eapply tickets_update; [exact I1|exact Hi|by left]|lia].
    + rewrite (zsum_insert _ _ _ _ _ Hi). unfold holds; cbn [fst]; lia.
    + by apply threads_update.
  - cbn in Hok. destruct Hok as [Eg Hc]. destruct (decide (g0 = 0)) as [->|Hg].
    + injection E as <- <- <-. cbn [wake]. exists q, hands. eapply inv_same; try done; [|by left]. cbn. intros [|y h'] [Ey Hc']; [done|]. cbn in Ey. subst y. by destruct Hc'.
    + destruct hi as [|y hi]; cbn in Eg; [done|]. subst y. destruct Hc as (_ & En & Hc). rewrite En in E. cbn [default] in E. injection E as <- <- <-.
      destruct (parked_wake _ _ _ _ i (h, AllReady g0) (h, AllReady (hd 0 hi)) g0 hi (<[g0 := 0]> (sema_next (list_ c))) I2 Hi Hhi) as (k & hk & t & -> & Hki & Hlk & Ht & -> & Hp); try done.
      * intros y Hy. by rewrite lookup_insert_ne.
      * intros _. cbn. split; [done|]. eapply chain_frame; [|exact Hc]. intros y Hy. rewrite lookup_insert_ne; [done|]. intros <-.
        pose proof (pk_nodup _ _ _ _ I2) as Nd. apply list.NoDup_app in Nd as (_ & _ & Nd). pose proof (concat_insert hands i [] _ Hhi) as Hp. cbn [app] in Hp. rewrite <- Hp in Nd. apply list.NoDup_cons in Nd as [Nd _]. apply Nd, elem_of_app. by left.
      * exists q, (<[i := hi]> hands). by eapply inv_wake.
Qed.

Lemma wait_less c l q hands i h t : inv (mkConfig c l) q hands -> zlen l < 2 ^ 31 -> l !! i = Some (h, WaitList t) -> timely c (h, WaitList t) -> less t (notify (list_ c)) = bool_decide (t < notify (list_ c)).
Proof.
  intros [I1 _ _ _] Hn Hi Ht. cbn [cond threads list_] in *. cbn in Ht. pose proof (tickets_bound _ _ _ I1). pose proof (tk_range _ _ _ I1 _ _ t Hi eq_refl). apply less_ok. lia.
Qed.

Lemma cond_run_ok c l q hands i x c' x' g : inv (mkConfig c l) q hands -> zlen l < 2 ^ 31 -> l !! i = Some x -> timely c x -> thread_step (gid i) x c = Some (c', x', g) ->
  exists q' hands', inv (mkConfig c' (wake resume g (<[i := x']> l))) q' hands'.
Proof.
  intros Hv Hn Hi Htm E. pose proof Hv as [I1 I2 I3 I4]. cbn [cond threads list_ locked] in *. pose proof (I4 _ _ Hi) as Hok. destruct x as [h k].
  destruct k; try done; try by eapply notify_step_ok.
  all: cbn [thread_step] in E; try (injection E as <- <- <-; cbn [wake]; exists q, hands).
  - cbn in Hok. subst h. pose proof (holder_locked c l q hands i _ Hv Hi eq_refl) as El. eapply inv_move; try done; [by left|rewrite El; cbn; lia].
  - cbn in Hok. subst h. pose proof (wait_less c l q hands i _ t Hv Hn Hi Htm) as El. destruct (decide (t < notify (list_ c))) as [Hlt|Hge].
    + rewrite bool_decide_true in El by done. unfold Wait in E. rewrite El in E. injection E as <- <- <-. cbn [wake]. exists q, hands. eapply inv_move; try done; [|cbn; lia]. right. split; [done|]. by intros ? [= <-].
    + rewrite bool_decide_false in El by done. destruct (parked_park _ _ _ _ i false t I2 Hi El ltac:(lia)) as (s' & Es & E1 & E2 & Hp). rewrite Es in E. injection E as <- <- <-. cbn [wake]. exists (q ++ [gid i]), hands.
      eapply inv_list; [exact Hv| |exact Hp| |].
      * rewrite E1, E2. eapply tickets_update; [exact I1|exact Hi|by left].
      * rewrite (zsum_insert _ _ _ _ _ Hi). unfold holds; cbn [fst]; lia.
      * by apply threads_update.
  - cbn in Hok. subst h. destruct (locked c) eqn:El; [done|]. injection E as <- <- <-. cbn [wake]. exists q, hands. eapply inv_move; try done; [by left|rewrite El; cbn; lia].
  - eapply inv_same; try done. by left.
  - destruct (decide _); (eapply inv_same; try done; by left).
  - eapply inv_same; try done. by left.
  - destruct (decide _); (eapply inv_same; try done; by left).
Qed.

Lemma wake_length {A} (f : A -> A) g l : length (wake f g l) = length l.
Proof. unfold wake. destruct g as [g|]; [|done]. destruct (l !! _); [by rewrite length_insert|done]. Qed.

Lemma cond_reachable_inv n c : Z.of_nat n < 2 ^ 31 -> reachable n c -> length (threads c) = n /\ exists q hands, inv c q hands.
Proof.
  intros Hn Hr. refine (rtc_ind_r (R := step) (fun c => length (threads c) = n /\ exists q hands, inv c q hands) (start n) _ _ c Hr); [|clear c Hr].
  - split; [by apply length_replicate|]. exists [], (replicate n []). assert (forall i x, replicate n (false, Idle) !! i = Some x -> x = (false, Idle)) as Hx by (by intros i x [-> _]%lookup_replicate).
    assert (concat (replicate n (@nil Z)) = []) as Ec by (clear; induction n as [|n IH]; [done|exact IH]).
    split; cbn [cond threads start list_ locked notifylist_new wait notify].
    + split; [lia| | |lia]; intros i; [intros x t ->%Hx|intros j x y t ->%Hx]; done.
    + split; cbn [app]; rewrite ?Ec; try done.
      * split; try done. apply base.NoDup_nil_2.
      * by rewrite !length_replicate.
      * by intros j x h ->%Hx [-> _]%lookup_replicate.
      * apply base.NoDup_nil_2.
      * by apply queue_ok_replicate.
      * by intros i h t ?%elem_of_nil.
      * by intros i h t ?%elem_of_nil.
    + by apply zsum_replicate.
    + by intros i x ->%Hx.
  - intros c c' _ Hs [Hl (q & hands & Hv)]. destruct Hs as [c l i h a c' x Hi E|c l i x c' x' g Hi Ht E]; cbn [threads] in *; (split; [by rewrite ?wake_length, length_insert|]).
    + by eapply begin_ok.
    + eapply cond_run_ok; try done. unfold zlen. lia.
Qed.

(** ** Theorems *)

Lemma chain_unique m : forall l l', chain m l -> chain m l' -> hd 0 l = hd 0 l' -> l = l'.
Proof.
  induction l as [|g l IH]; intros [|g' l'] Hc Hc' E; cbn in *; try done; [by destruct Hc'|by destruct Hc|]. subst g'.
  destruct Hc as (_ & E1 & Hc), Hc' as (_ & E2 & Hc'). f_equal. apply IH; try done. congruence.
Qed.

Lemma hand_unique m x h h' : hand_ok m x h -> hand_ok m x h' -> h = h'.
Proof. unfold hand_ok. destruct x as [b []]; cbn; try congruence; try naive_solver. intros [-> Hc] [E Hc']. by eapply chain_unique. Qed.

(** C22: In every reachable interleaving of [Wait], [Signal] and [Broadcast]: a parked goroutine whose
    ticket is notified is in the hands of a notifier that is about to ready it, and only those are;
    a goroutine whose ticket is notified before it parks does not park; and at most one goroutine
    holds the locker. *)
Theorem cond_no_lost_wakeup n c : Z.of_nat n < 2 ^ 31 -> reachable n c ->
  (forall i h t, threads c !! i = Some (h, Parked t) ->
     t < notify (list_ (cond c)) <-> exists j x hs, threads c !! j = Some x /\ hand_ok (sema_next (list_ (cond c))) x hs /\ gid i ∈ hs) /\
  (forall i h t, threads c !! i = Some (h, WaitList t) -> timely (cond c) (h, WaitList t) -> t < notify (list_ (cond c)) -> Wait (list_ (cond c)) (gid i) t = (list_ (cond c), true)) /\
  (forall i j k k', threads c !! i = Some (true, k) -> threads c !! j = Some (true, k') -> i = j).
Proof.
  intros Hn Hr. destruct (cond_reachable_inv n c Hn Hr) as [Hl (q & hands & Hv)]. destruct c as [c l]. cbn [cond threads] in *. pose proof Hv as [I1 I2 I3 I4]. cbn [cond threads] in *. split_and!.
  - intros i h t Hi. split.
    + intros Ht. assert (gid i ∈ q ++ concat hands) as [Hq|Hq]%elem_of_app by (apply (pk_parked _ _ _ _ I2); by exists i, (h, Parked t)).
      * pose proof (pk_q _ _ _ _ I2 _ _ _ Hq Hi). lia.
      * apply elem_of_concat in Hq as (j & hs & Hj & Hg). destruct (lookup_lt_is_Some_2 l j) as [x Hx]; [rewrite <- (pk_len _ _ _ _ I2); by eapply lookup_lt_Some|]. exists j, x, hs. split_and!; try done. by eapply pk_hand.
    + intros (j & x & hs & Hx & Hok & Hg). destruct (lookup_lt_is_Some_2 hands j) as [hs' Hj]; [rewrite (pk_len _ _ _ _ I2); by eapply lookup_lt_Some|].
      assert (hs = hs') as -> by (eapply hand_unique; [exact Hok|by eapply pk_hand]). eapply (pk_h _ _ _ _ I2); [|exact Hi]. apply elem_of_concat. eauto.
  - intros i h t Hi Ht Hlt. unfold Wait. rewrite (wait_less c l q hands i h t Hv) by (unfold zlen; done || lia). by rewrite bool_decide_true.
  - intros i j k k' Hi Hj. destruct (decide (i = j)) as [|Hne]; [done|]. pose proof (zsum_ge2 holds l i j _ _ ltac:(intros [[] ?]; cbn; lia) Hne Hi Hj) as Hge. cbn in Hge. destruct (locked c); lia.
Qed.

(** [Signal] notifies the oldest ticket that is not notified, whose holder it takes off the list
    wherever it stands there, or leaves to find out for itself when it has not parked yet. *)
Theorem cond_signal_oldest n c i h : Z.of_nat n < 2 ^ 31 -> reachable n c -> threads c !! i = Some (h, OneLock) ->
  let s := list_ (cond c) in
  exists s' g, notify_one s = Some (s', g) /\ wait s' = wait s /\ notify s' = Z.min (notify s + 1) (wait s) /\
    (notify s < wait s -> exists k x, threads c !! k = Some x /\ ticket_of x = Some (notify s) /\ g = if parked x then gid k else 0).
Proof.
  intros Hn Hr Hi s. destruct (cond_reachable_inv n c Hn Hr) as [Hl (q & hands & [I1 I2 I3 I4])]. pose proof (tickets_bound _ _ _ I1) as Hb.
  assert (wait s - notify s < 2 ^ 31) as Hw by (unfold zlen in Hb; fold s in Hb; lia). destruct (parked_one _ _ _ _ _ _ I2 I1 Hw Hi) as (s' & g & _ & _ & E & [O1 O2 O3 O4] & _). exists s', g. split_and!; try done.
  intros Hlt. destruct (tk_held _ _ _ I1 (notify s)) as (k & x & Hk & Ex); [fold s; lia|]. exists k, x. split_and!; try done. destruct (decide (g = 0)) as [->|Hg].
  - destruct x as [hx []]; try done. cbn in Ex. injection Ex as ->. by apply O4 in Hk.
  - destruct (O3 Hg) as (k' & hk & -> & Hk'). assert (k = k') as -> by (by eapply (tk_uniq _ _ _ I1)). rewrite Hk' in Hk. by injection Hk as <-.
Qed.

(** ** Schedules *)

#[global] Instance timely_dec c x : Decision (timely c x).
Proof. unfold timely. destruct x.2; apply _. Defined.

(** Goroutine [i] begins a call or takes a step. *)
Definition exec (c : config) (i : nat) (a : option call) : option config :=
  x ← threads c !! i;
  match a with
  | Some a => match x with (h, Idle) => '(c', x) ← begin a h (cond c); Some (mkConfig c' (<[i := x]> (threads c))) | _ => None end
  | None => if decide (timely (cond c) x) then '(c', x', g) ← thread_step (gid i) x (cond c); Some (mkConfig c' (wake resume g (<[i := x']> (threads c)))) else None
  end.

Fixpoint exec_all (c : config) (l : list (nat * option call)) : option config :=
  match l with [] => Some c | (i, a) :: l => c ← exec c i a; exec_all c l end.

Lemma exec_step c i a c' : exec c i a = Some c' -> step c c'.
Proof.
  unfold exec. destruct c as [c l]. cbn [cond threads]. destruct (l !! i) as [x|] eqn:Ei; [|done]. cbn [mbind option_bind]. destruct a as [a|].
  - destruct x as [h []]; try done. destruct (begin a h c) as [[c1 x1]|] eqn:E; [|done]. cbn. intros [= <-]. by eapply step_begin.
  - destruct (decide _) as [Ht|]; [|done]. destruct (thread_step (gid i) x c) as [[[c1 x1] g]|] eqn:E; [|done]. cbn [mbind option_bind]. intros [= <-]. by eapply step_run.
Qed.

Lemma exec_reachable n : forall l c c', reachable n c -> exec_all c l = Some c' -> reachable n c'.
Proof.
  induction l as [|[i a] l IH]; intros c c' Hc E; cbn [exec_all] in E; [by injection E as <-|]. destruct (exec c i a) as [d|] eqn:Ed; [|done]. cbn in E.
  eapply IH; [|exact E]. eapply rtc_r; [exact Hc|]. by eapply exec_step.
Qed.

Definition waits (i : nat) (n : nat) : list (nat * option call) := [(i, Some CLock); (i, Some CWait)] ++ replicate n (i, None).

(** Two goroutines park, a third has its ticket but not parked yet, a fourth is in [Signal]. *)
Definition three_waits : list (nat * option call) := waits 0 2 ++ waits 1 2 ++ waits 2 1 ++ [(3%nat, Some CSignal); (3%nat, None); (3%nat, None)].

Lemma cond_no_lost_wakeup_witness : exists c, exec_all (start 4) (three_waits ++ [(3%nat, None)]) = Some c /\ threads c = [(false, Parked 0); (false, Parked 1); (false, WaitList 2); (false, OneReady (gid 0))] /\
  (forall i h t, threads c !! i = Some (h, Parked t) ->
     t < notify (list_ (cond c)) <-> exists j x hs, threads c !! j = Some x /\ hand_ok (sema_next (list_ (cond c))) x hs /\ gid i ∈ hs) /\
  (forall i h t, threads c !! i = Some (h, WaitList t) -> timely (cond c) (h, WaitList t) -> t < notify (list_ (cond c)) -> Wait (list_ (cond c)) (gid i) t = (list_ (cond c), true)) /\
  (forall i j k k', threads c !! i = Some (true, k) -> threads c !! j = Some (true, k') -> i = j).
Proof.
  destruct (exec_all (start 4) (three_waits ++ [(3%nat, None)])) as [c|] eqn:E; [|vm_compute in E; discriminate]. exists c. split; [done|].
  split; [vm_compute in E; injection E as <-; reflexivity|]. apply (cond_no_lost_wakeup 4 c); [lia|]. exact (exec_reachable 4 _ _ _ (rtc_refl _ _) E).
Defined.

Lemma cond_signal_oldest_witness : exists c, exec_all (start 4) three_waits = Some c /\ threads c !! 3%nat = Some (false, OneLock) /\ exists s' g, notify_one (list_ (cond c)) = Some (s', g) /\
  wait s' = wait (list_ (cond c)) /\ notify s' = Z.min (notify (list_ (cond c)) + 1) (wait (list_ (cond c))) /\
  (notify (list_ (cond c)) < wait (list_ (cond c)) -> exists k x, threads c !! k = Some x /\ ticket_of x = Some (notify (list_ (cond c))) /\ g = if parked x then gid k else 0).
Proof.
  destruct (exec_all (start 4) three_waits) as [c|] eqn:E; [|vm_compute in E; discriminate]. exists c. split; [done|].
  assert (threads c !! 3%nat = Some (false, OneLock)) as Hi by (vm_compute in E; injection E as <-; reflexivity). split; [exact Hi|].
  apply (cond_signal_oldest 4 c 3 false); [lia| |exact Hi]. exact (exec_reachable 4 _ _ _ (rtc_refl _ _) E).
Defined.
