(* ===== verification/Once.v ===== *)
(** [sync.Once]: src/src/sync/once.rs, with goroutines interleaved at every atomic access.  The
    mutex is used through its contract: [Lock] goes through when nobody holds it.  The function
    given to [Do] is two steps, its start and its end, which are recorded. *)
From Stdlib Require Import ZArith Lia.
From stdpp Require Import base tactics numbers list list_numbers option relations.
From S2P Require Import Prelude Threads.
Open Scope Z_scope.








(** ** The invariant *)











