(* ===== verification/Utf8.v ===== *)
(** UTF-8: src/src/unicode/utf8/utf8.rs.

    Bytes and runes are integers; [rune] is i32 and [byte] u8 with their conversions written
    out.  A slice is the list of its bytes; [EncodeRune] writes into its argument and fails
    ([None]) where the code's indexing panics. *)
From Stdlib Require Import ZArith Lia.
From stdpp Require Import base tactics numbers list list_numbers option.
From S2P Require Import Prelude.
Open Scope Z_scope.

(** ** Constants *)

Definition RuneError : Z := 0xFFFD.
Definition RuneSelf : Z := 0x80.
Definition MaxRune : Z := 0x10FFFF.
Definition UTFMax : Z := 4.
Definition surrogateMin : Z := 0xD800.
Definition surrogateMax : Z := 0xDFFF.
Definition tx : Z := 128.
Definition t2 : Z := 192.
Definition t3 : Z := 224.
Definition t4 : Z := 240.
Definition maskx : Z := 63.
Definition rune1Max : Z := Z.shiftl 1 7 - 1.
Definition rune2Max : Z := Z.shiftl 1 11 - 1.
Definition rune3Max : Z := Z.shiftl 1 16 - 1.

(** The conversions [uint32(r)] and [byte(r)]. *)
Definition touint32 (r : Z) : Z := r mod 2 ^ 32.
Definition tobyte (r : Z) : Z := r mod 2 ^ 8.

Definition runeErrorByte0 : Z := Z.lor t3 (tobyte (Z.shiftr RuneError 12)).
Definition runeErrorByte1 : Z := Z.lor tx (Z.land (tobyte (Z.shiftr RuneError 6)) maskx).
Definition runeErrorByte2 : Z := Z.lor tx (Z.land (tobyte RuneError) maskx).

(** ** Decoding *)

(** The length of the sequence from the leading byte's high bits. *)
Definition lead_len (b0 : Z) : option Z :=
  if decide (Z.land b0 0xE0 = 0xC0) then Some 2
  else if decide (Z.land b0 0xF0 = 0xE0) then Some 3
  else if decide (Z.land b0 0xF8 = 0xF0) then Some 4
  else None.

(** [for i in 1..n]: accumulate the continuation bytes; [None] is the early return. *)
Fixpoint decode_cont (bs : list Z) (r : Z) : option Z :=
  match bs with
  | [] => Some r
  | bi :: bs => if decide (Z.land bi 0xC0 <> 0x80) then None else decode_cont bs (Z.lor (Z.shiftl r 6) (Z.land bi 0x3F))
  end.

Definition lead_bits (n b0 : Z) : Z :=
  if decide (n = 2) then Z.land b0 0x1F else if decide (n = 3) then Z.land b0 0x0F else Z.land b0 0x07.

Definition min_rune (n : Z) : Z :=
  if decide (n = 2) then 0x80 else if decide (n = 3) then 0x800 else 0x10000.

Definition DecodeRune (p : list Z) : Z * Z :=
  match p with
  | [] => (RuneError, 0)
  | b0 :: rest =>
      if decide (b0 < RuneSelf) then (b0, 1)
      else
        match lead_len b0 with
        | None => (RuneError, 1)
        | Some n =>
            if decide (zlen p < n) then (RuneError, 1)
            else
              match decode_cont (take (Z.to_nat (n - 1)) rest) (lead_bits n b0) with
              | None => (RuneError, 1)
              | Some r =>
                  if decide (r < min_rune n \/ r > MaxRune \/ (r >= surrogateMin /\ r <= surrogateMax)) then (RuneError, 1)
                  else (r, n)
              end
        end
  end.

Definition RuneStart (b : Z) : bool := bool_decide (Z.land b 0xC0 <> 0x80).

(** [while i >= start], from [i] down; at most [UTFMax] iterations. *)
Fixpoint decode_last_loop (fuel : nat) (p : list Z) (start i : Z) : Z * Z :=
  match fuel with
  | O => (RuneError, 1)
  | S fuel =>
      let b := default 0 (idx p i) in
      if RuneStart b then
        let '(r, sz) := DecodeRune (drop (Z.to_nat i) p) in
        if decide (sz = zlen p - i) then (r, sz) else (RuneError, 1)
      else if decide (i = start) then (RuneError, 1)
      else decode_last_loop fuel p start (i - 1)
  end.

Definition DecodeLastRune (p : list Z) : Z * Z :=
  let n := zlen p in
  if decide (n = 0) then (RuneError, 0)
  else decode_last_loop (Z.to_nat UTFMax) p (Z.max 0 (n - UTFMax)) (n - 1).

(** ** Encoding *)

Definition write_bytes (p bs : list Z) : option (list Z) :=
  if decide (zlen bs <= zlen p) then Some (bs ++ drop (length bs) p) else None.

Definition encodeRuneNonASCII (p : list Z) (r : Z) : option (list Z * Z) :=
  let i := touint32 r in
  if decide (i <= touint32 rune2Max) then
    p ← write_bytes p [Z.lor t2 (tobyte (Z.shiftr r 6)); Z.lor tx (Z.land (tobyte r) maskx)];
    Some (p, 2)
  else if decide (i < touint32 surrogateMin \/ (touint32 surrogateMax < i /\ i <= touint32 rune3Max)) then
    p ← write_bytes p [Z.lor t3 (tobyte (Z.shiftr r 12)); Z.lor tx (Z.land (tobyte (Z.shiftr r 6)) maskx);
                       Z.lor tx (Z.land (tobyte r) maskx)];
    Some (p, 3)
  else if decide (i > touint32 rune3Max /\ i <= touint32 MaxRune) then
    p ← write_bytes p [Z.lor t4 (tobyte (Z.shiftr r 18)); Z.lor tx (Z.land (tobyte (Z.shiftr r 12)) maskx);
                       Z.lor tx (Z.land (tobyte (Z.shiftr r 6)) maskx); Z.lor tx (Z.land (tobyte r) maskx)];
    Some (p, 4)
  else
    p ← write_bytes p [runeErrorByte0; runeErrorByte1; runeErrorByte2];
    Some (p, 3).

Definition EncodeRune (p : list Z) (r : Z) : option (list Z * Z) :=
  if decide (touint32 r <= touint32 rune1Max) then p ← write_bytes p [tobyte r]; Some (p, 1)
  else encodeRuneNonASCII p r.

Definition appendRuneNonASCII (p : list Z) (r : Z) : list Z :=
  let i := touint32 r in
  if decide (i <= touint32 rune2Max) then
    p ++ [Z.lor t2 (tobyte (Z.shiftr r 6)); Z.lor tx (Z.land (tobyte r) maskx)]
  else if decide (i < touint32 surrogateMin \/ (touint32 surrogateMax < i /\ i <= touint32 rune3Max)) then
    p ++ [Z.lor t3 (tobyte (Z.shiftr r 12)); Z.lor tx (Z.land (tobyte (Z.shiftr r 6)) maskx); Z.lor tx (Z.land (tobyte r) maskx)]
  else if decide (i > touint32 rune3Max /\ i <= touint32 MaxRune) then
    p ++ [Z.lor t4 (tobyte (Z.shiftr r 18)); Z.lor tx (Z.land (tobyte (Z.shiftr r 12)) maskx);
          Z.lor tx (Z.land (tobyte (Z.shiftr r 6)) maskx); Z.lor tx (Z.land (tobyte r) maskx)]
  else p ++ [runeErrorByte0; runeErrorByte1; runeErrorByte2].

Definition AppendRune (p : list Z) (r : Z) : list Z :=
  if decide (touint32 r <= touint32 rune1Max) then p ++ [tobyte r] else appendRuneNonASCII p r.

(** ** Counting and validation *)

Definition ValidRune (r : Z) : bool := bool_decide (r >= 0 /\ r <= MaxRune /\ ~ (r >= surrogateMin /\ r <= surrogateMax)).

Definition RuneLen (r : Z) : Z :=
  if negb (ValidRune r) then -1
  else if decide (r < 0x80) then 1
  else if decide (r < 0x800) then 2
  else if decide (r < 0x10000) then 3
  else 4.

(** Each iteration consumes a byte, so the length of the slice bounds the loops. *)
Fixpoint rune_count_loop (fuel : nat) (bytes : list Z) (n : Z) : option Z :=
  match bytes with
  | [] => Some n
  | b :: rest =>
      match fuel with
      | O => None
      | S fuel =>
          if decide (b < RuneSelf) then rune_count_loop fuel rest (n + 1)
          else rune_count_loop fuel (drop (Z.to_nat (DecodeRune bytes).2) bytes) (n + 1)
      end
  end.
Definition RuneCount (p : list Z) : option Z := rune_count_loop (length p) p 0.

Fixpoint valid_loop (fuel : nat) (p : list Z) : option bool :=
  match p with
  | [] => Some true
  | b :: rest =>
      match fuel with
      | O => None
      | S fuel =>
          if decide (b < RuneSelf) then valid_loop fuel rest
          else
            let '(r, sz) := DecodeRune p in
            if decide (r = RuneError /\ sz = 1) then Some false else valid_loop fuel (drop (Z.to_nat sz) p)
      end
  end.
Definition Valid (p : list Z) : option bool := valid_loop (length p) p.

Definition FullRune (p : list Z) : bool :=
  match p with
  | [] => false
  | b0 :: _ =>
      if decide (b0 < RuneSelf) then true
      else match lead_len b0 with None => true | Some need => bool_decide (zlen p >= need) end
  end.

(** ** Bytes *)

Definition is_byte (b : Z) : Prop := 0 <= b < 256.

(** A decidable property of bytes, by evaluation. *)
Lemma byte_check (P : Z -> Prop) `{forall b, Decision (P b)} : bool_decide (Forall P (seqZ 0 256)) = true -> forall b, is_byte b -> P b.
Proof.
  intros Hf%bool_decide_eq_true b Hb. unfold is_byte in Hb. rewrite Forall_lookup in Hf. apply (Hf (Z.to_nat b)).
  apply lookup_seqZ. lia.
Qed.

Lemma byte_masks b : is_byte b ->
  (Z.land b 0xE0 = 0xC0 <-> 192 <= b < 224) /\ (Z.land b 0xF0 = 0xE0 <-> 224 <= b < 240) /\
  (Z.land b 0xF8 = 0xF0 <-> 240 <= b < 248) /\ (Z.land b 0xC0 = 0x80 <-> 128 <= b < 192) /\
  Z.land b 0x1F = b mod 32 /\ Z.land b 0x0F = b mod 16 /\ Z.land b 0x07 = b mod 8 /\ Z.land b 0x3F = b mod 64 /\
  Z.lor tx (Z.land b maskx) = 128 + b mod 64 /\
  (b < 32 -> Z.lor t2 b = 192 + b) /\ (b < 16 -> Z.lor t3 b = 224 + b) /\ (b < 8 -> Z.lor t4 b = 240 + b).
Proof.
  revert b. apply (byte_check _).
  vm_compute. reflexivity.
Qed.

Lemma tobyte_byte r : is_byte (tobyte r).
Proof. apply Z.mod_pos_bound. lia. Qed.

Lemma lor_shift6 r x : 0 <= r -> 0 <= x < 64 -> Z.lor (Z.shiftl r 6) x = r * 64 + x.
Proof.
  intros Hr Hx. rewrite <- (Z.mod_small x (2 ^ 6)) by lia. apply Z.bits_inj'. intros i Hi.
  rewrite Z.lor_spec, Z.shiftl_spec by lia. change 64 with (2 ^ 6). rewrite <- (Z.shiftl_mul_pow2 r 6) by lia.
  destruct (decide (i < 6)).
  - rewrite Z.testbit_neg_r by lia. cbn [orb]. rewrite <- (Z.mod_pow2_bits_low (_ + _) 6) by lia. f_equal.
    rewrite Z.shiftl_mul_pow2 by lia. lia.
  - rewrite Z.mod_pow2_bits_high, orb_false_r by lia. replace i with (i - 6 + 6) at 2 by lia. rewrite <- Z.shiftr_spec by lia. f_equal.
    rewrite Z.shiftl_mul_pow2, Z.shiftr_div_pow2 by lia. lia.
Qed.

(** The encoding of a rune. *)
Definition enc (r : Z) : list Z := AppendRune [] r.

Lemma tail_byte x : Z.lor tx (Z.land (tobyte x) maskx) = 128 + x mod 64.
Proof. destruct (byte_masks (tobyte x) (tobyte_byte x)) as (_ & _ & _ & _ & _ & _ & _ & _ & -> & _). unfold tobyte. lia. Qed.

Lemma lead_byte x : 0 <= x -> (x < 32 -> Z.lor t2 (tobyte x) = 192 + x) /\ (x < 16 -> Z.lor t3 (tobyte x) = 224 + x) /\
  (x < 8 -> Z.lor t4 (tobyte x) = 240 + x).
Proof.
  intros Hx. destruct (byte_masks (tobyte x) (tobyte_byte x)) as (_ & _ & _ & _ & _ & _ & _ & _ & _ & H2 & H3 & H4). unfold tobyte in *.
  split_and!; intros Hlt; rewrite (Z.mod_small x) in * by lia; tauto.
Qed.

(** The constants as u32. *)
Ltac u32 :=
  change (rune1Max mod 2 ^ 32) with 127; change (rune2Max mod 2 ^ 32) with 2047; change (rune3Max mod 2 ^ 32) with 65535;
  change (surrogateMin mod 2 ^ 32) with 55296; change (surrogateMax mod 2 ^ 32) with 57343; change (MaxRune mod 2 ^ 32) with 1114111.

Lemma enc1 r : 0 <= r < 128 -> enc r = [r].
Proof.
  intros Hr. unfold enc, AppendRune, touint32, tobyte. rewrite decide_True by (u32; rewrite Z.mod_small by lia; lia).
  by rewrite Z.mod_small by lia.
Qed.

Lemma enc2 r : 128 <= r < 2048 -> enc r = [192 + r / 64; 128 + r mod 64].
Proof.
  intros Hr. unfold enc, AppendRune, appendRuneNonASCII, touint32. rewrite (Z.mod_small r) by lia.
  rewrite decide_False by (u32; lia). rewrite decide_True by (u32; lia). rewrite tail_byte, Z.shiftr_div_pow2 by lia.
  change (2 ^ 6) with 64. by rewrite (proj1 (lead_byte (r / 64) ltac:(lia))) by lia.
Qed.

Lemma enc3 r : 2048 <= r < 65536 -> ~ (surrogateMin <= r <= surrogateMax) -> enc r = [224 + r / 4096; 128 + r / 64 mod 64; 128 + r mod 64].
Proof.
  intros Hr Hs. unfold surrogateMin, surrogateMax in Hs. unfold enc, AppendRune, appendRuneNonASCII, touint32. rewrite (Z.mod_small r) by lia.
  rewrite decide_False by (u32; lia). rewrite decide_False by (u32; lia). rewrite decide_True by (u32; lia).
  rewrite !tail_byte, !Z.shiftr_div_pow2 by lia. change (2 ^ 6) with 64. change (2 ^ 12) with 4096.
  by rewrite (proj1 (proj2 (lead_byte (r / 4096) ltac:(lia)))) by lia.
Qed.

Lemma enc4 r : 65536 <= r <= MaxRune ->
  enc r = [240 + r / 262144; 128 + r / 4096 mod 64; 128 + r / 64 mod 64; 128 + r mod 64].
Proof.
  intros Hr. unfold MaxRune in Hr. unfold enc, AppendRune, appendRuneNonASCII, touint32. rewrite (Z.mod_small r) by lia.
  rewrite decide_False by (u32; lia). rewrite decide_False by (u32; lia). rewrite decide_False by (u32; lia). rewrite decide_True by (u32; lia).
  rewrite !tail_byte, !Z.shiftr_div_pow2 by lia. change (2 ^ 6) with 64. change (2 ^ 12) with 4096. change (2 ^ 18) with 262144.
  by rewrite (proj2 (proj2 (lead_byte (r / 262144) ltac:(lia)))) by lia.
Qed.

Lemma valid_rune r : ValidRune r = true <-> (0 <= r <= MaxRune /\ ~ (surrogateMin <= r <= surrogateMax)).
Proof. unfold ValidRune. rewrite bool_decide_eq_true. lia. Qed.

Lemma valid_cases r : ValidRune r = true ->
  (0 <= r < 128) \/ (128 <= r < 2048) \/ (2048 <= r < 65536 /\ ~ (surrogateMin <= r <= surrogateMax)) \/ 65536 <= r <= MaxRune.
Proof. intros [H1 H2]%valid_rune. lia. Qed.

(** ** Decoding, in arithmetic *)

Lemma lead_len_byte b : is_byte b -> lead_len b =
  if decide (192 <= b < 224) then Some 2 else if decide (224 <= b < 240) then Some 3 else if decide (240 <= b < 248) then Some 4 else None.
Proof.
  intros Hb. destruct (byte_masks b Hb) as (H2 & H3 & H4 & _). unfold lead_len.
  rewrite (decide_ext _ _ _ _ H2), (decide_ext _ _ _ _ H3), (decide_ext _ _ _ _ H4). done.
Qed.

Lemma decode_cont_byte b bs r : is_byte b -> 0 <= r ->
  decode_cont (b :: bs) r = if decide (128 <= b < 192) then decode_cont bs (r * 64 + b mod 64) else None.
Proof.
  intros Hb Hr. destruct (byte_masks b Hb) as (_ & _ & _ & Hc & _ & _ & _ & H6 & _). cbn [decode_cont].
  destruct (decide (128 <= b < 192)) as [H|H].
  - rewrite decide_False by tauto. rewrite H6, lor_shift6 by lia. done.
  - by rewrite decide_True by tauto.
Qed.

Lemma lead_bits_byte n b : is_byte b -> lead_bits n b = if decide (n = 2) then b mod 32 else if decide (n = 3) then b mod 16 else b mod 8.
Proof. intros Hb. destruct (byte_masks b Hb) as (_ & _ & _ & _ & H5 & H4 & H3 & _). unfold lead_bits. by rewrite H5, H4, H3. Qed.

(** What the last check of [DecodeRune] does. *)
Definition checked (r n : Z) : Z * Z :=
  if decide (r < min_rune n \/ r > MaxRune \/ (r >= surrogateMin /\ r <= surrogateMax)) then (RuneError, 1) else (r, n).

Lemma checked_ok r n : ValidRune r = true -> min_rune n <= r -> checked r n = (r, n).
Proof. intros Hv%valid_rune Hm. unfold checked. rewrite decide_False; [done|]. lia. Qed.

Lemma decode2 b0 b1 rest : 192 <= b0 < 224 -> 128 <= b1 < 192 -> DecodeRune (b0 :: b1 :: rest) = checked (b0 mod 32 * 64 + b1 mod 64) 2.
Proof.
  intros H0 H1. cbn [DecodeRune]. rewrite decide_False by (unfold RuneSelf; lia). rewrite lead_len_byte by (unfold is_byte; lia).
  rewrite decide_True by lia. rewrite decide_False by (unfold zlen; cbn [length]; lia). change (Z.to_nat (2 - 1)) with 1%nat. cbn [take].
  rewrite lead_bits_byte by (unfold is_byte; lia). rewrite decide_True by done. rewrite decode_cont_byte by (unfold is_byte; lia).
  by rewrite decide_True by lia.
Qed.

Lemma decode3 b0 b1 b2 rest : 224 <= b0 < 240 -> 128 <= b1 < 192 -> 128 <= b2 < 192 ->
  DecodeRune (b0 :: b1 :: b2 :: rest) = checked ((b0 mod 16 * 64 + b1 mod 64) * 64 + b2 mod 64) 3.
Proof.
  intros H0 H1 H2. cbn [DecodeRune]. rewrite decide_False by (unfold RuneSelf; lia). rewrite lead_len_byte by (unfold is_byte; lia).
  rewrite decide_False, decide_True by lia. rewrite decide_False by (unfold zlen; cbn [length]; lia). change (Z.to_nat (3 - 1)) with 2%nat. cbn [take].
  rewrite lead_bits_byte by (unfold is_byte; lia). rewrite decide_False, decide_True by done.
  do 2 (rewrite decode_cont_byte by (unfold is_byte; lia); rewrite decide_True by lia). done.
Qed.

Lemma decode4 b0 b1 b2 b3 rest : 240 <= b0 < 248 -> 128 <= b1 < 192 -> 128 <= b2 < 192 -> 128 <= b3 < 192 ->
  DecodeRune (b0 :: b1 :: b2 :: b3 :: rest) = checked (((b0 mod 8 * 64 + b1 mod 64) * 64 + b2 mod 64) * 64 + b3 mod 64) 4.
Proof.
  intros H0 H1 H2 H3. cbn [DecodeRune]. rewrite decide_False by (unfold RuneSelf; lia). rewrite lead_len_byte by (unfold is_byte; lia).
  rewrite decide_False, decide_False, decide_True by lia. rewrite decide_False by (unfold zlen; cbn [length]; lia).
  change (Z.to_nat (4 - 1)) with 3%nat. cbn [take].
  rewrite lead_bits_byte by (unfold is_byte; lia). rewrite decide_False, decide_False by done. rewrite decode_cont_byte by (unfold is_byte; lia).
  rewrite decide_True by lia. do 2 (rewrite decode_cont_byte by (unfold is_byte; lia); rewrite decide_True by lia). done.
Qed.

(** ** Round trips *)

Lemma enc_len r : ValidRune r = true -> zlen (enc r) = RuneLen r.
Proof.
  intros Hv. unfold RuneLen. rewrite Hv. cbn [negb]. unfold MaxRune in *.
  destruct (valid_cases r Hv) as [H|[H|[[H Hs]|H]]]; [rewrite enc1|rewrite enc2|rewrite enc3|rewrite enc4]; try done; unfold zlen; cbn [length];
    repeat (destruct (decide _)); lia.
Qed.

Lemma append_enc p r : AppendRune p r = p ++ enc r.
Proof. unfold enc, AppendRune, appendRuneNonASCII. cbv zeta. repeat destruct (decide _); done. Qed.

Lemma write_ok p bs n : zlen bs <= zlen p -> n = zlen bs ->
  (q ← write_bytes p bs; Some (q, n)) = Some (bs ++ drop (length bs) p, zlen bs).
Proof. intros Hl ->. unfold write_bytes. by rewrite decide_True. Qed.

Lemma encode_enc p r : zlen (enc r) <= zlen p -> EncodeRune p r = Some (enc r ++ drop (length (enc r)) p, zlen (enc r)).
Proof.
  unfold enc, AppendRune, EncodeRune, encodeRuneNonASCII, appendRuneNonASCII. cbv zeta.
  repeat destruct (decide _); intros Hl; by rewrite write_ok.
Qed.

Lemma decode_enc r rest : ValidRune r = true -> DecodeRune (enc r ++ rest) = (r, zlen (enc r)).
Proof.
  intros Hv. destruct (valid_cases r Hv) as [H|[H|[[H Hs]|H]]].
  - rewrite enc1 by done. cbn [app DecodeRune]. by rewrite decide_True by (unfold RuneSelf; lia).
  - rewrite enc2 by done. cbn [app]. rewrite decode2 by lia.
    replace ((192 + r / 64) mod 32 * 64 + (128 + r mod 64) mod 64) with r by lia.
    rewrite checked_ok; [done|done|vm_compute min_rune; lia].
  - rewrite enc3 by done. cbn [app]. rewrite decode3 by lia.
    replace (((224 + r / 4096) mod 16 * 64 + (128 + r / 64 mod 64) mod 64) * 64 + (128 + r mod 64) mod 64) with r by lia.
    rewrite checked_ok; [done|done|vm_compute min_rune; lia].
  - unfold MaxRune in H. rewrite enc4 by done. cbn [app]. rewrite decode4 by lia.
    replace ((((240 + r / 262144) mod 8 * 64 + (128 + r / 4096 mod 64) mod 64) * 64 + (128 + r / 64 mod 64) mod 64) * 64 + (128 + r mod 64) mod 64) with r by lia.
    rewrite checked_ok; [done|done|vm_compute min_rune; lia].
Qed.

Lemma full_enc r rest : ValidRune r = true -> FullRune (enc r ++ rest) = true.
Proof.
  intros Hv. pose proof (decode_enc r rest Hv) as Hd. destruct (enc r ++ rest) as [|b0 p] eqn:E.
  { apply app_nil in E as [E _]. rewrite E in Hd. cbn in Hd. injection Hd as <-. done. }
  unfold FullRune. cbn [DecodeRune] in Hd. destruct (decide (b0 < RuneSelf)); [done|]. destruct (lead_len b0) as [k|] eqn:En; [|done].
  apply bool_decide_eq_true. destruct (decide (zlen (b0 :: p) < k)); [|lia]. injection Hd as <- Hd.
  exfalso. revert Hd. vm_compute. done.
Qed.

(** C28: decoding what was encoded gives the rune back, whatever follows it: for every valid
    rune, [EncodeRune] into a large enough buffer and [AppendRune] write the same bytes, as many
    as [RuneLen] says, [FullRune] sees a whole rune and [DecodeRune] returns the rune and
    that length. *)
Theorem utf8_decode_encode r buf rest : ValidRune r = true -> RuneLen r <= zlen buf ->
  AppendRune buf r = buf ++ enc r /\ EncodeRune buf r = Some (enc r ++ drop (length (enc r)) buf, RuneLen r) /\
  FullRune (enc r ++ rest) = true /\ DecodeRune (enc r ++ rest) = (r, RuneLen r).
Proof.
  intros Hv Hl. rewrite <- enc_len in * by done. split_and!; [apply append_enc|by apply encode_enc|by apply full_enc|by apply decode_enc].
Qed.

Lemma utf8_decode_encode_witness :
  AppendRune [0; 0; 0] 0x20AC = [0; 0; 0] ++ enc 0x20AC /\
  EncodeRune [0; 0; 0] 0x20AC = Some (enc 0x20AC ++ drop (length (enc 0x20AC)) [0; 0; 0], RuneLen 0x20AC) /\
  FullRune (enc 0x20AC ++ [65]) = true /\ DecodeRune (enc 0x20AC ++ [65]) = (0x20AC, RuneLen 0x20AC).
Proof. apply (utf8_decode_encode 0x20AC [0; 0; 0] [65]); vm_compute; [reflexivity|discriminate]. Defined.

(** Every decoded rune is valid and its bytes are its encoding. *)
Lemma checked_inv r n r' n' : checked r n = (r', n') -> (r' = RuneError /\ n' = 1) \/
  (r' = r /\ n' = n /\ min_rune n <= r <= MaxRune /\ ~ (surrogateMin <= r <= surrogateMax)).
Proof. unfold checked. destruct (decide _) as [H|H]; intros [= <- <-]; [by left|right]. split_and!; try done; lia. Qed.

Definition is_cont (b : Z) : Prop := 128 <= b < 192.

Lemma decode_cont_inv bs : forall r r', Forall is_byte bs -> 0 <= r -> decode_cont bs r = Some r' -> Forall is_cont bs.
Proof.
  induction bs as [|b bs IH]; intros r r' Hb Hr E; [done|]. apply Forall_cons_iff in Hb as [H0 Hb].
  rewrite decode_cont_byte in E by done. destruct (decide _) as [Hc|]; [|done]. apply Forall_cons_iff. split; [done|].
  apply (IH (r * 64 + b mod 64) r'); [done|lia|done].
Qed.

(** A sequence longer than a byte that does not decode to an error has its bytes in range. *)
Lemma decode_long b0 p : is_byte b0 -> Forall is_byte p -> RuneSelf <= b0 ->
  DecodeRune (b0 :: p) = (RuneError, 1) \/
  exists k cs rest, p = cs ++ rest /\ Forall is_cont cs /\ lead_len b0 = Some k /\ zlen cs = k - 1.
Proof.
  intros H0 Hp Hs. cbn [DecodeRune]. rewrite decide_False by lia. destruct (lead_len b0) as [k|] eqn:El; [|by left].
  assert (2 <= k <= 4) by (unfold lead_len in El; repeat destruct (decide _); simplify_eq; lia).
  destruct (decide (zlen (b0 :: p) < k)) as [Hk|Hk]; [by left|].
  destruct (decode_cont (take (Z.to_nat (k - 1)) p) (lead_bits k b0)) as [r|] eqn:Ec; [right|by left].
  exists k, (take (Z.to_nat (k - 1)) p), (drop (Z.to_nat (k - 1)) p). rewrite take_drop. split_and!; try done.
  - eapply decode_cont_inv; [by apply Forall_take| |exact Ec]. rewrite lead_bits_byte by done. unfold is_byte in H0. repeat destruct (decide _); lia.
  - unfold zlen in *. cbn [length] in Hk. rewrite length_take. lia.
Qed.

Lemma decode_inv p r n : Forall is_byte p -> p <> [] -> DecodeRune p = (r, n) ->
  (r = RuneError /\ n = 1) \/ (ValidRune r = true /\ p = enc r ++ drop (Z.to_nat n) p /\ n = zlen (enc r)).
Proof.
  intros Hp Hne E. destruct p as [|b0 p]; [done|]. apply Forall_cons_iff in Hp as [H0 Hp]. unfold is_byte in H0.
  destruct (decide (b0 < RuneSelf)) as [Hs|Hs].
  { cbn [DecodeRune] in E. rewrite decide_True in E by done. injection E as <- <-. right. unfold RuneSelf in Hs. rewrite enc1 by lia.
    split; [|done]. apply valid_rune. unfold MaxRune, surrogateMin, surrogateMax. lia. }
  destruct (decode_long b0 p) as [E'|(k & cs & rest & -> & Hc & El & Hk)]; [done|done|lia|rewrite E' in E; injection E as <- <-; by left|].
  rewrite lead_len_byte in El by done. unfold zlen in Hk.
  destruct (decide (192 <= b0 < 224)) as [H2|H2]; [|destruct (decide (224 <= b0 < 240)) as [H3|H3]; [|destruct (decide (240 <= b0 < 248)) as [H4|H4]]];
    simplify_eq; destruct cs as [|b1 [|b2 [|b3 [|b4 cs]]]]; cbn [length] in Hk; try lia; rewrite ?Forall_cons_iff in Hc; unfold is_cont in Hc; cbn [app] in *.
  - rewrite decode2 in E by lia. apply checked_inv in E as [?|(-> & -> & Hm & Hr)]; [by left|right]. vm_compute min_rune in Hm; unfold MaxRune in Hm.
    split; [apply valid_rune; unfold MaxRune; lia|]. rewrite enc2 by lia. split; [|done].
    cbn [Z.to_nat app drop Pos.to_nat Pos.iter_op Nat.add]. f_equal; [lia|f_equal; lia].
  - rewrite decode3 in E by lia. apply checked_inv in E as [?|(-> & -> & Hm & Hr)]; [by left|right]. vm_compute min_rune in Hm; unfold MaxRune in Hm.
    split; [apply valid_rune; unfold MaxRune; lia|]. rewrite enc3 by lia. split; [|done].
    cbn [Z.to_nat app drop Pos.to_nat Pos.iter_op Nat.add]. f_equal; [lia|f_equal; [lia|f_equal; lia]].
  - rewrite decode4 in E by lia. apply checked_inv in E as [?|(-> & -> & Hm & Hr)]; [by left|right]. vm_compute min_rune in Hm; unfold MaxRune in Hm.
    split; [apply valid_rune; unfold MaxRune; lia|]. rewrite enc4 by (unfold MaxRune; lia). split; [|done].
    cbn [Z.to_nat app drop Pos.to_nat Pos.iter_op Nat.add]. f_equal; [lia|f_equal; [lia|f_equal; [lia|f_equal; lia]]].
Qed.

(** Decoding is sound: on any bytes [DecodeRune] either reports the error (width 1, or
    width 0 on an empty slice) or a valid rune whose encoding is exactly the prefix consumed. *)
Theorem utf8_decode_sound p r n : Forall is_byte p -> DecodeRune p = (r, n) ->
  (p = [] /\ r = RuneError /\ n = 0) \/ (p <> [] /\ r = RuneError /\ n = 1) \/
  (ValidRune r = true /\ n = RuneLen r /\ n <= zlen p /\ take (Z.to_nat n) p = enc r).
Proof.
  intros Hp E. destruct (decide (p = [])) as [->|Hne]; [injection E as <- <-; by left|]. right.
  destruct (decode_inv p r n Hp Hne E) as [?|(Hv & Ep & En)]; [by left|right]. rewrite <- enc_len by done. split_and!; try done.
  - rewrite Ep, En. unfold zlen. rewrite length_app. lia.
  - rewrite Ep, En. unfold zlen. rewrite Nat2Z.id. by rewrite take_app_length.
Qed.

Lemma utf8_decode_sound_witness : DecodeRune [0xE2; 0x82; 0xAC; 65] = (0x20AC, 3) /\
  take 3 [0xE2; 0x82; 0xAC; 65] = enc 0x20AC.
Proof.
  split; [reflexivity|].
  destruct (utf8_decode_sound [0xE2; 0x82; 0xAC; 65] 0x20AC 3) as [(E & _)|[(_ & E & _)|(_ & _ & _ & E)]];
    [repeat (apply Forall_cons_iff; split; [unfold is_byte; lia|]); constructor|reflexivity|discriminate E|discriminate E|].
  exact E.
Defined.

(** ** Strings of runes *)

Definition encode_all (rs : list Z) : list Z := concat (enc <$> rs).

Lemma enc_nonempty r : ValidRune r = true -> enc r <> [].
Proof. intros Hv E. pose proof (decode_enc r [] Hv) as Hd. rewrite E in Hd. cbn in Hd. injection Hd as <-. done. Qed.

Lemma error_not_one r : ValidRune r = true -> (r, zlen (enc r)) <> (RuneError, 1).
Proof. intros _ [= -> E]. by vm_compute in E. Qed.

(** Both loops look at the next rune, as [DecodeRune] does. *)
Lemma ascii_decode b rest : b < RuneSelf -> DecodeRune (b :: rest) = (b, 1).
Proof. intros Hb. cbn [DecodeRune]. by rewrite decide_True. Qed.

Lemma valid_step fuel b rest : valid_loop (S fuel) (b :: rest) =
  let '(r, sz) := DecodeRune (b :: rest) in
  if decide (r = RuneError /\ sz = 1) then Some false else valid_loop fuel (drop (Z.to_nat sz) (b :: rest)).
Proof.
  cbn [valid_loop]. destruct (decide (b < RuneSelf)) as [Hb|]; [|done]. rewrite ascii_decode by done.
  rewrite decide_False; [done|]. unfold RuneSelf, RuneError in *. lia.
Qed.

Lemma count_step fuel b rest n : rune_count_loop (S fuel) (b :: rest) n =
  rune_count_loop fuel (drop (Z.to_nat (DecodeRune (b :: rest)).2) (b :: rest)) (n + 1).
Proof. cbn [rune_count_loop]. destruct (decide (b < RuneSelf)) as [Hb|]; [|done]. by rewrite ascii_decode. Qed.

Lemma encode_all_cons r rs : encode_all (r :: rs) = enc r ++ encode_all rs.
Proof. done. Qed.

Lemma valid_loop_ok fuel : forall p, Forall is_byte p -> (length p <= fuel)%nat ->
  exists b, valid_loop fuel p = Some b /\ (b = true <-> exists rs, Forall (fun r => ValidRune r = true) rs /\ p = encode_all rs).
Proof.
  induction fuel as [|fuel IH]; intros p Hp Hf.
  { destruct p; [|cbn in Hf; lia]. exists true. split; [done|]. split; [|done]. intros _. by exists []. }
  destruct p as [|b p]; [exists true; split; [done|]; split; [|done]; intros _; by exists []|].
  rewrite valid_step. destruct (DecodeRune (b :: p)) as [r n] eqn:E. destruct (decode_inv _ r n Hp ltac:(done) E) as [[-> ->]|(Hv & Ep & En)].
  - rewrite decide_True by done. exists false. split; [done|]. split; [done|]. intros ([|r rs] & Hrs & Ep); [done|].
    apply Forall_cons_iff in Hrs as [Hv _]. rewrite encode_all_cons in Ep. rewrite Ep, decode_enc in E by done. by destruct (error_not_one r Hv).
  - rewrite decide_False by (intros [-> ->]; by apply (error_not_one RuneError Hv); rewrite <- En).
    pose proof (enc_nonempty r Hv) as Hnz. assert (length (drop (Z.to_nat n) (b :: p)) <= fuel)%nat as Hd.
    { rewrite length_drop. cbn [length] in *. destruct (enc r); [done|]. unfold zlen in En. cbn [length] in En. lia. }
    destruct (IH (drop (Z.to_nat n) (b :: p)) ltac:(by apply Forall_drop) Hd) as (v & Ev & Hiff). exists v. split; [done|]. rewrite Hiff. split.
    + intros (rs & Hrs & Erest). exists (r :: rs). split; [by apply Forall_cons_iff|]. by rewrite encode_all_cons, <- Erest.
    + intros ([|r' rs] & Hrs & Ep'); [done|]. apply Forall_cons_iff in Hrs as [Hv' Hrs]. rewrite encode_all_cons in Ep'.
      rewrite Ep', decode_enc in E by done. injection E as -> E. exists rs. split; [done|]. rewrite Ep', <- E. unfold zlen. by rewrite Nat2Z.id, drop_app_length.
Qed.

Lemma count_loop_all fuel : forall rs n, Forall (fun r => ValidRune r = true) rs -> (length (encode_all rs) <= fuel)%nat ->
  rune_count_loop fuel (encode_all rs) n = Some (n + zlen rs).
Proof.
  induction fuel as [|fuel IH]; intros [|r rs] n Hrs Hf; try (cbn; f_equal; unfold zlen; cbn; lia).
  - apply Forall_cons_iff in Hrs as [Hv _]. rewrite encode_all_cons, length_app in Hf. pose proof (enc_nonempty r Hv). destruct (enc r); [done|cbn in Hf; lia].
  - apply Forall_cons_iff in Hrs as [Hv Hrs]. rewrite encode_all_cons in *. pose proof (enc_nonempty r Hv) as Hne.
    destruct (enc r ++ encode_all rs) as [|b p] eqn:E; [apply app_nil in E as [? _]; done|]. rewrite count_step, <- E, decode_enc by done. cbn [snd].
    unfold zlen. rewrite Nat2Z.id, drop_app_length. assert (length (encode_all rs) <= fuel)%nat as Hd.
    { rewrite <- E in Hf. rewrite length_app in Hf. destruct (enc r); [done|]. cbn [length] in *. lia. }
    rewrite (IH rs (n + 1) Hrs Hd). f_equal. unfold zlen. cbn [length]. lia.
Qed.

(** [Valid] always answers, and answers [true] exactly on the byte strings that are the
    encodings of sequences of valid runes (no overlong forms, no surrogates, nothing above
    0x10FFFF, nothing truncated); on such a string [RuneCount] is the number of runes. *)
Theorem utf8_valid_iff p : Forall is_byte p ->
  exists b, Valid p = Some b /\
    (b = true <-> exists rs, Forall (fun r => ValidRune r = true) rs /\ p = encode_all rs /\ RuneCount p = Some (zlen rs)).
Proof.
  intros Hp. destruct (valid_loop_ok (length p) p Hp ltac:(lia)) as (b & E & Hiff). exists b. split; [exact E|]. rewrite Hiff.
  split; intros (rs & Hrs & Ep); exists rs; [|naive_solver]. split_and!; try done. subst p. unfold RuneCount. by rewrite count_loop_all.
Qed.

Lemma utf8_valid_iff_witness : exists b, Valid [104; 0xC3; 0xA9; 0xF0; 0x9F; 0x98; 0x80] = Some b /\
  (b = true <-> exists rs, Forall (fun r => ValidRune r = true) rs /\ [104; 0xC3; 0xA9; 0xF0; 0x9F; 0x98; 0x80] = encode_all rs /\
     RuneCount [104; 0xC3; 0xA9; 0xF0; 0x9F; 0x98; 0x80] = Some (zlen rs)).
Proof.
  apply (utf8_valid_iff [104; 0xC3; 0xA9; 0xF0; 0x9F; 0x98; 0x80]).
  repeat (apply Forall_cons_iff; split; [unfold is_byte; lia|]). constructor.
Defined.

(** ** The last rune *)

Lemma enc_shape r : ValidRune r = true -> exists b0 cs, enc r = b0 :: cs /\ RuneStart b0 = true /\ Forall (fun b => RuneStart b = false) cs /\ (length cs <= 3)%nat.
Proof.
  intros Hv.
  assert (forall b, is_byte b -> ~ is_cont b -> RuneStart b = true) as Hs.
  { intros b Hb Hn. apply bool_decide_eq_true. destruct (byte_masks b Hb) as (_ & _ & _ & Hc & _). unfold is_cont in Hn. tauto. }
  assert (forall b, is_cont b -> RuneStart b = false) as Hc.
  { intros b Hb. apply bool_decide_eq_false. unfold is_cont in Hb. destruct (byte_masks b) as (_ & _ & _ & Hc & _); [unfold is_byte; lia|]. tauto. }
  unfold is_byte, is_cont, MaxRune in *.
  destruct (valid_cases r Hv) as [H|[H|[[H Hsu]|H]]]; [rewrite enc1|rewrite enc2|rewrite enc3|rewrite enc4]; try done; unfold MaxRune in *;
    eexists _, _; (split; [done|]); (split; [apply Hs; lia|]); (split; [|cbn; lia]);
    repeat (apply Forall_cons_iff; split; [apply Hc; lia|]); by apply Forall_nil.
Qed.

Lemma decode_last_back p b0 cs start res : RuneStart b0 = true -> Forall (fun b => RuneStart b = false) cs -> start <= zlen p ->
  DecodeRune (b0 :: cs) = (res, zlen (b0 :: cs)) ->
  forall m fuel, (m <= length cs)%nat -> (m < fuel)%nat ->
  decode_last_loop fuel (p ++ b0 :: cs) start (zlen p + Z.of_nat m) = (res, zlen (b0 :: cs)).
Proof.
  intros H0 Hcs Hst Hd. induction m as [|m IH]; intros [|fuel] Hm Hf; try lia; cbn [decode_last_loop]; unfold idx; rewrite decide_True by (unfold zlen; lia).
  - replace (Z.to_nat (zlen p + Z.of_nat 0)) with (length p) by (unfold zlen; lia). rewrite list_lookup_middle by done.
    change (default 0 (Some b0)) with b0. rewrite H0, drop_app_length, Hd. rewrite decide_True; [done|]. unfold zlen. rewrite length_app. lia.
  - destruct (lookup_lt_is_Some_2 cs m ltac:(lia)) as [b Eb]. rewrite lookup_app_r by (unfold zlen; lia).
    replace (Z.to_nat (zlen p + Z.of_nat (S m)) - length p)%nat with (S m) by (unfold zlen; lia). change ((b0 :: cs) !! S m) with (cs !! m). rewrite Eb.
    change (default 0 (Some b)) with b. rewrite Forall_lookup in Hcs. rewrite (Hcs m b Eb), decide_False by lia.
    replace (zlen p + Z.of_nat (S m) - 1) with (zlen p + Z.of_nat m) by lia. apply IH; lia.
Qed.

(** [DecodeLastRune] finds the rune that was appended last, whatever precedes it, valid or
    not: appending a valid rune to any bytes and decoding backwards gives the rune and its
    length. *)
Theorem utf8_decode_last p r : ValidRune r = true -> DecodeLastRune (AppendRune p r) = (r, RuneLen r).
Proof.
  intros Hv. rewrite append_enc, <- enc_len by done. destruct (enc_shape r Hv) as (b0 & cs & E & H0 & Hcs & Hl).
  pose proof (decode_enc r [] Hv) as Hd. rewrite app_nil_r in Hd. rewrite E in *. unfold DecodeLastRune, UTFMax.
  assert (zlen (p ++ b0 :: cs) = zlen p + Z.of_nat (length cs) + 1) as Hn by (unfold zlen; rewrite length_app; cbn [length]; lia).
  rewrite Hn, decide_False by (unfold zlen; lia). replace (zlen p + Z.of_nat (length cs) + 1 - 1) with (zlen p + Z.of_nat (length cs)) by lia.
  apply decode_last_back; try done; [unfold zlen in *; lia|]. change (Z.to_nat 4) with 4%nat. lia.
Qed.

Lemma utf8_decode_last_witness : DecodeLastRune (AppendRune [0xE2; 0x82] 0x1F600) = (0x1F600, RuneLen 0x1F600).
Proof. apply (utf8_decode_last [0xE2; 0x82] 0x1F600). reflexivity. Defined.
