(* ===== verification/Varint.v ===== *)
(** Variable-length integers: src/src/encoding/binary/varint.rs.

    [uint] is u64 and [int] is i64.  A slice is the list of its bytes.  [PutUvarint] writes
    into its argument and fails ([None]) where the code's indexing panics.  The reader of
    [ReadUvarint] is a parameter with its [ReadByte]. *)
From Stdlib Require Import ZArith Lia.
From stdpp Require Import base tactics numbers list list_numbers option.
From S2P Require Import Prelude Utf8.
Open Scope Z_scope.

Definition MaxVarintLen16 : Z := 3.
Definition MaxVarintLen32 : Z := 5.
Definition MaxVarintLen64 : Z := 10.

(** [while x >= 0x80]: seven bits per iteration, so ten iterations at most; running out of
    fuel is [None]. *)
Fixpoint append_uvarint_loop (fuel : nat) (out : list Z) (x : Z) : option (list Z) :=
  if decide (x >= 0x80) then
    match fuel with
    | O => None
    | S fuel => append_uvarint_loop fuel (out ++ [Z.lor (tobyte x) 0x80]) (shr64 x 7)
    end
  else Some (out ++ [tobyte x]).
Definition AppendUvarint (buf : list Z) (x : Z) : option (list Z) := append_uvarint_loop 10 buf x.

Fixpoint put_uvarint_loop (fuel : nat) (buf : list Z) (i x : Z) : option (list Z * Z) :=
  if decide (x >= 0x80) then
    match fuel with
    | O => None
    | S fuel => buf ← upd buf i (Z.lor (tobyte x) 0x80); put_uvarint_loop fuel buf (i + 1) (shr64 x 7)
    end
  else buf ← upd buf i (tobyte x); Some (buf, i + 1).
Definition PutUvarint (buf : list Z) (x : Z) : option (list Z * Z) := put_uvarint_loop 10 buf 0 x.

(** The loop of [Uvarint] over what is left of the slice. *)
Fixpoint uvarint_loop (raw : list Z) (x s i : Z) : Z * Z :=
  match raw with
  | [] => (0, 0)
  | b :: raw =>
      if decide (i = MaxVarintLen64) then (0, - (i + 1))
      else if decide (b < 0x80) then
        if decide (i = MaxVarintLen64 - 1 /\ b > 1) then (0, - (i + 1))
        else (Z.lor x (shl64 b s), i + 1)
      else uvarint_loop raw (Z.lor x (shl64 (Z.land b 0x7f) s)) (s + 7) (i + 1)
  end.
Definition Uvarint (buf : list Z) : Z * Z := uvarint_loop buf 0 0 0.

(** [uint64(x) << 1], complemented when negative. *)
Definition zigzag (x : Z) : Z :=
  let ux := shl64 (wrap64 x) 1 in if decide (x < 0) then not64 ux else ux.
Definition AppendVarint (buf : list Z) (x : Z) : option (list Z) := AppendUvarint buf (zigzag x).
Definition PutVarint (buf : list Z) (x : Z) : option (list Z * Z) := PutUvarint buf (zigzag x).

(** [int64(ux >> 1)], complemented when the low bit is set. *)
Definition unzigzag (ux : Z) : Z :=
  let x := shr64 ux 1 in if decide (Z.land ux 1 <> 0) then - x - 1 else x.
Definition Varint (buf : list Z) : Z * Z :=
  let '(ux, n) := Uvarint buf in (unzigzag ux, n).

Inductive verror := NoError | EOF | ErrUnexpectedEOF | errOverflow | OtherError (code : Z).

Section reader.
  Context {R : Type} (ReadByte : R -> R * (Z * verror)).

(** The loop of [ReadUvarint], at most [MaxVarintLen64] iterations. *)
Fixpoint read_uvarint_loop (fuel : nat) (r : R) (x s i : Z) : R * (Z * verror) :=
  match fuel with
  | O => (r, (x, errOverflow))
  | S fuel =>
      let '(r, (b, err)) := ReadByte r in
      match err with
      | NoError =>
          if decide (b < 0x80) then
            if decide (i = MaxVarintLen64 - 1 /\ b > 1) then (r, (x, errOverflow))
            else (r, (Z.lor x (shl64 b s), NoError))
          else read_uvarint_loop fuel r (Z.lor x (shl64 (Z.land b 0x7f) s)) (s + 7) (i + 1)
      | EOF => (r, (x, if decide (i > 0) then ErrUnexpectedEOF else EOF))
      | err => (r, (x, err))
      end
  end.
Definition ReadUvarint (r : R) : R * (Z * verror) := read_uvarint_loop (Z.to_nat MaxVarintLen64) r 0 0 0.

Definition ReadVarint (r : R) : R * (Z * verror) :=
  let '(r, (ux, err)) := ReadUvarint r in (r, (unzigzag ux, err)).
End reader.

(** ** The encoding *)

(** The bytes of [x]: groups of seven bits, low group first. *)
Fixpoint uvarint_bytes (fuel : nat) (x : Z) : list Z :=
  match fuel with
  | O => [x]
  | S fuel => if decide (x >= 0x80) then (x mod 128 + 128) :: uvarint_bytes fuel (x / 128) else [x]
  end.

(** An encoding of at most [fuel + 1] bytes holds [7 * (fuel + 1)] bits. *)
Definition enc_uvarint (x : Z) : list Z := uvarint_bytes 9 x.

Lemma group_byte x : 0 <= x -> Z.lor (tobyte x) 0x80 = x mod 128 + 128.
Proof.
  intros Hx. assert (forall b, is_byte b -> Z.lor b 0x80 = b mod 128 + 128) as Hb by (apply (byte_check _); vm_compute; reflexivity).
  rewrite Hb by apply tobyte_byte. unfold tobyte. lia.
Qed.

Lemma append_loop_ok fuel : forall out x, 0 <= x < 2 ^ (7 * (Z.of_nat fuel + 1)) ->
  append_uvarint_loop (S fuel) out x = Some (out ++ uvarint_bytes fuel x).
Proof.
  induction fuel as [|fuel IH]; intros out x Hx.
  - change (2 ^ (7 * (Z.of_nat 0 + 1))) with 128 in Hx. cbn [append_uvarint_loop uvarint_bytes]. rewrite decide_False by lia.
    unfold tobyte. by rewrite Z.mod_small by lia.
  - assert (x / 128 < 2 ^ (7 * (Z.of_nat fuel + 1))) as Hd.
    { apply Z.div_lt_upper_bound; [lia|]. change 128 with (2 ^ 7). rewrite <- Z.pow_add_r by lia. replace (7 + 7 * (Z.of_nat fuel + 1)) with (7 * (Z.of_nat (S fuel) + 1)) by lia. lia. }
    remember (S fuel) as n. cbn [append_uvarint_loop]. rewrite Heqn. cbn [uvarint_bytes]. rewrite <- Heqn. destruct (decide (x >= 128)) as [Hc|Hc].
    + rewrite group_byte by lia. rewrite shr64_div by lia. change (2 ^ 7) with 128. subst n. rewrite IH by lia. by rewrite <- app_assoc.
    + unfold tobyte. by rewrite Z.mod_small by lia.
Qed.

Lemma append_uvarint_ok buf x : is_u64 x -> AppendUvarint buf x = Some (buf ++ enc_uvarint x).
Proof. intros Hx. apply (append_loop_ok 9). unfold is_u64 in Hx. change (2 ^ (7 * (Z.of_nat 9 + 1))) with (2 ^ 70). lia. Qed.

Lemma uvarint_bytes_len fuel : forall x, (1 <= length (uvarint_bytes fuel x) <= S fuel)%nat.
Proof. induction fuel as [|fuel IH]; intros x; cbn [uvarint_bytes]; [cbn; lia|]. destruct (decide _); cbn [length]; [specialize (IH (x / 128)); lia|lia]. Qed.

Lemma put_loop_ok fuel : forall pre post x, 0 <= x < 2 ^ (7 * (Z.of_nat fuel + 1)) -> (length (uvarint_bytes fuel x) <= length post)%nat ->
  put_uvarint_loop (S fuel) (pre ++ post) (zlen pre) x =
    Some (pre ++ uvarint_bytes fuel x ++ drop (length (uvarint_bytes fuel x)) post, zlen pre + zlen (uvarint_bytes fuel x)).
Proof.
  assert (forall (pre : list Z) p post b, upd (pre ++ p :: post) (zlen pre) b = Some (pre ++ b :: post)) as Hu.
  { intros pre p post b. rewrite upd_Some by (unfold zlen; rewrite length_app; cbn [length]; lia). unfold zlen. by rewrite Nat2Z.id, insert_app_r_alt, Nat.sub_diag by lia. }
  induction fuel as [|fuel IH]; intros pre post x Hx Hl.
  - change (2 ^ (7 * (Z.of_nat 0 + 1))) with 128 in Hx. cbn [put_uvarint_loop uvarint_bytes length] in *. rewrite decide_False by lia.
    destruct post as [|p post]; [cbn in Hl; lia|]. rewrite Hu. cbn. unfold tobyte. by rewrite Z.mod_small by lia.
  - assert (x / 128 < 2 ^ (7 * (Z.of_nat fuel + 1))) as Hd.
    { apply Z.div_lt_upper_bound; [lia|]. change 128 with (2 ^ 7). rewrite <- Z.pow_add_r by lia. replace (7 + 7 * (Z.of_nat fuel + 1)) with (7 * (Z.of_nat (S fuel) + 1)) by lia. lia. }
    remember (S fuel) as n. cbn [put_uvarint_loop]. rewrite Heqn in Hl |- *. cbn [uvarint_bytes] in Hl |- *. rewrite <- Heqn.
    destruct post as [|p post]; [destruct (decide (x >= 128)); cbn in Hl; lia|]. destruct (decide (x >= 128)) as [Hc|Hc].
    + rewrite Hu. cbn [mbind option_bind]. rewrite group_byte by lia. rewrite shr64_div by lia. change (2 ^ 7) with 128. subst n.
      replace (pre ++ (x mod 128 + 128) :: post) with ((pre ++ [x mod 128 + 128]) ++ post) by (by rewrite <- app_assoc).
      replace (zlen pre + 1) with (zlen (pre ++ [x mod 128 + 128])) by (unfold zlen; rewrite length_app; cbn [length]; lia).
      rewrite IH by (cbn [length] in Hl; lia). f_equal. f_equal; [by rewrite <- app_assoc|]. unfold zlen. rewrite length_app. cbn [length]. lia.
    + rewrite Hu. cbn. unfold tobyte. by rewrite Z.mod_small by lia.
Qed.

(** ** Decoding *)

Lemma land_7f b : is_byte b -> Z.land b 0x7f = b mod 128.
Proof. intros. change 0x7f with (Z.ones 7). by rewrite Z.land_ones by lia. Qed.

(** Adding a group above the ones read so far. *)
Lemma lor_group x g s : 0 <= s -> 0 <= x < 2 ^ s -> 0 <= g -> g * 2 ^ s < 2 ^ 64 -> Z.lor x (shl64 g s) = x + g * 2 ^ s.
Proof.
  intros Hs Hx Hg Hb. rewrite shl64_small by nia. rewrite <- Z.shiftl_mul_pow2 by lia. apply Z.bits_inj'. intros i Hi.
  rewrite Z.lor_spec, Z.shiftl_spec by lia. destruct (decide (i < s)).
  - rewrite (Z.testbit_neg_r g) by lia. rewrite orb_false_r. rewrite <- (Z.mod_pow2_bits_low (x + _) s) by lia.
    rewrite Z.shiftl_mul_pow2, Z.mod_add, Z.mod_small by lia. done.
  - replace (Z.testbit x i) with false by (symmetry; rewrite <- (Z.mod_small x (2 ^ s)) by lia; apply Z.mod_pow2_bits_high; lia).
    cbn [orb]. replace i with (i - s + s) at 2 by lia. rewrite <- Z.shiftr_spec by lia. f_equal.
    rewrite Z.shiftl_mul_pow2, Z.shiftr_div_pow2, Z.div_add, Z.div_small by lia. lia.
Qed.

Lemma uvarint_loop_ok fuel : forall y x i rest, 0 <= i -> i + Z.of_nat fuel = 9 -> 0 <= y -> 0 <= x < 2 ^ (7 * i) -> x + y * 2 ^ (7 * i) < 2 ^ 64 ->
  uvarint_loop (uvarint_bytes fuel y ++ rest) x (7 * i) i = (x + y * 2 ^ (7 * i), i + zlen (uvarint_bytes fuel y)).
Proof.
  induction fuel as [|fuel IH]; intros y x i rest Hi Hf Hy Hx Hb; cbn [uvarint_bytes].
  - assert (i = 9) as -> by lia. change (7 * 9) with 63 in *. assert (y < 2) by lia. cbn [app uvarint_loop].
    rewrite decide_False by done. rewrite decide_True by lia. rewrite decide_False by lia. rewrite lor_group by lia. done.
  - assert (0 < 2 ^ (7 * i)) as Hp by lia. destruct (decide (y >= 128)) as [Hc|Hc]; cbn [app uvarint_loop].
    + rewrite decide_False by (unfold MaxVarintLen64; lia). rewrite decide_False by lia. rewrite land_7f by (unfold is_byte; lia).
      replace ((y mod 128 + 128) mod 128) with (y mod 128) by lia.
      assert (y mod 128 * 2 ^ (7 * i) <= y * 2 ^ (7 * i)) as Hm by (apply Z.mul_le_mono_nonneg_r; lia).
      rewrite lor_group by lia. replace (7 * i + 7) with (7 * (i + 1)) by lia.
      assert (2 ^ (7 * (i + 1)) = 128 * 2 ^ (7 * i)) as Hpow by (replace (7 * (i + 1)) with (7 + 7 * i) by lia; rewrite Z.pow_add_r by lia; done).
      assert (x + y mod 128 * 2 ^ (7 * i) + y / 128 * 2 ^ (7 * (i + 1)) = x + y * 2 ^ (7 * i)) as Hsum.
      { rewrite Hpow. pose proof (Z.div_mod y 128 ltac:(lia)). nia. }
      rewrite IH; [|lia|lia|lia| |lia].
      * rewrite Hsum. f_equal. unfold zlen. cbn [length]. lia.
      * rewrite Hpow. pose proof (Z.mod_pos_bound y 128 ltac:(lia)). nia.
    + rewrite decide_False by (unfold MaxVarintLen64; lia). rewrite decide_True by lia. rewrite decide_False by (unfold MaxVarintLen64; lia).
      rewrite lor_group by lia. done.
Qed.

Lemma uvarint_enc x rest : is_u64 x -> Uvarint (enc_uvarint x ++ rest) = (x, zlen (enc_uvarint x)).
Proof.
  intros Hx. unfold Uvarint, enc_uvarint. unfold is_u64 in Hx. pose proof (uvarint_loop_ok 9 x 0 0 rest) as H. change (7 * 0) with 0 in H. change (2 ^ 0) with 1 in H.
  rewrite H by lia. f_equal; lia.
Qed.

Lemma not64_sub a : is_u64 a -> not64 a = 2 ^ 64 - 1 - a.
Proof.
  intros Ha. assert (Z.land a (not64 a) = 0) as Hl.
  { apply Z.bits_inj'. intros i Hi. rewrite Z.land_spec, testbit_not64, Z.bits_0 by done. destruct (decide (i < 64)).
    - rewrite bool_decide_true by done. by destruct (Z.testbit a i).
    - by rewrite (testbit_u64_high a i Ha ltac:(lia)). }
  pose proof (Z.add_nocarry_lxor a (not64 a) Hl) as E. unfold not64 in E at 2. rewrite <- Z.lxor_assoc, Z.lxor_nilpotent, Z.lxor_0_l in E.
  unfold u64_max in E. lia.
Qed.

Lemma zigzag_ok x : - 2 ^ 63 <= x < 2 ^ 63 -> is_u64 (zigzag x) /\ unzigzag (zigzag x) = x.
Proof.
  intros Hx. assert (zigzag x = if decide (x < 0) then - 2 * x - 1 else 2 * x) as E.
  { unfold zigzag. destruct (decide (x < 0)).
    - rewrite not64_sub by apply shl_u64. unfold shl64, wrap64. rewrite Z.shiftl_mul_pow2 by lia. lia.
    - rewrite wrap64_small by lia. rewrite shl64_small by lia. lia. }
  rewrite E. unfold is_u64, unzigzag. rewrite (Z.land_ones _ 1 ltac:(lia) : Z.land _ 1 = _ mod 2 ^ 1), shr64_div by lia.
  destruct (decide (x < 0)); (split; [lia|]); [rewrite decide_True by lia|rewrite decide_False by lia]; lia.
Qed.

(** Unsigned varints round-trip: every u64 is encoded in 1 to 10 bytes, [PutUvarint] writes
    at the start of a large enough buffer what [AppendUvarint] appends, and [Uvarint] on
    these bytes, whatever follows them, gives the value and the length back without an
    overflow report. *)
Theorem uvarint_roundtrip x buf rest : is_u64 x -> zlen (enc_uvarint x) <= zlen buf ->
  AppendUvarint buf x = Some (buf ++ enc_uvarint x) /\ 1 <= zlen (enc_uvarint x) <= MaxVarintLen64 /\
  PutUvarint buf x = Some (enc_uvarint x ++ drop (length (enc_uvarint x)) buf, zlen (enc_uvarint x)) /\
  Uvarint (enc_uvarint x ++ rest) = (x, zlen (enc_uvarint x)).
Proof.
  intros Hx Hl. split_and!.
  - by apply append_uvarint_ok.
  - pose proof (uvarint_bytes_len 9 x). unfold enc_uvarint, zlen. lia.
  - pose proof (uvarint_bytes_len 9 x). unfold enc_uvarint, zlen, MaxVarintLen64. lia.
  - apply (put_loop_ok 9 []); [|unfold enc_uvarint, zlen in *; lia]. unfold is_u64 in Hx. change (2 ^ (7 * (Z.of_nat 9 + 1))) with (2 ^ 70). lia.
  - by apply uvarint_enc.
Qed.

Lemma uvarint_roundtrip_witness :
  AppendUvarint [0; 0; 0] 300 = Some [0; 0; 0; 172; 2] /\ 1 <= zlen (enc_uvarint 300) <= MaxVarintLen64 /\
  PutUvarint [0; 0; 0] 300 = Some ([172; 2; 0], 2) /\ Uvarint [172; 2; 9] = (300, 2).
Proof. apply (uvarint_roundtrip 300 [0; 0; 0] [9]); [unfold is_u64; lia|vm_compute; discriminate]. Defined.

(** A reader of a byte list. *)
Definition read_list (l : list Z) : list Z * (Z * verror) :=
  match l with [] => ([], (0, EOF)) | b :: l => (l, (b, NoError)) end.

(** Reading byte by byte follows [Uvarint]. *)
Lemma read_loop_ok fuel : forall l x s i y n, uvarint_loop l x s i = (y, n) -> 0 < n -> i + Z.of_nat fuel = 10 -> 0 <= i ->
  read_uvarint_loop read_list fuel l x s i = (drop (Z.to_nat (n - i)) l, (y, NoError)) /\ i < n <= i + zlen l.
Proof.
  induction fuel as [|fuel IH]; intros l x s i y n E Hn Hi H0.
  { destruct l as [|b l]; cbn [uvarint_loop] in E; [injection E as <- <-; lia|]. rewrite decide_True in E by (unfold MaxVarintLen64; lia). injection E as <- <-. lia. }
  destruct l as [|b l]; cbn [uvarint_loop] in E; [injection E as <- <-; lia|]. rewrite decide_False in E by (unfold MaxVarintLen64; lia).
  cbn [read_uvarint_loop read_list]. destruct (decide (b < 128)).
  - destruct (decide _) in E |- *; injection E as <- <-; [lia|]. replace (Z.to_nat (i + 1 - i)) with 1%nat by lia. split; [done|]. unfold zlen. cbn [length]. lia.
  - destruct (IH l _ _ (i + 1) y n E Hn ltac:(lia) ltac:(lia)) as [-> Hr]. split; [|unfold zlen in *; cbn [length]; lia].
    replace (Z.to_nat (n - i)) with (S (Z.to_nat (n - (i + 1)))) by lia. done.
Qed.

(** Signed varints round-trip: zig-zag coding maps every i64 to a u64 and back, so that
    [Varint] undoes [AppendVarint] and [ReadVarint], reading byte by byte from a stream that
    starts with the encoding, returns the value without error and stops right after it. *)
Theorem varint_roundtrip x rest : - 2 ^ 63 <= x < 2 ^ 63 ->
  exists bs, AppendVarint [] x = Some bs /\ 1 <= zlen bs <= MaxVarintLen64 /\ Varint (bs ++ rest) = (x, zlen bs) /\
    ReadVarint read_list (bs ++ rest) = (rest, (x, NoError)).
Proof.
  intros Hx. destruct (zigzag_ok x Hx) as [Hz Hu]. exists (enc_uvarint (zigzag x)). pose proof (uvarint_bytes_len 9 (zigzag x)) as Hl.
  pose proof (uvarint_enc (zigzag x) rest Hz) as E. unfold AppendVarint, Varint, ReadVarint, ReadUvarint. rewrite append_uvarint_ok by done.
  split_and!; [done|unfold enc_uvarint, zlen; lia|unfold enc_uvarint, zlen, MaxVarintLen64; lia|by rewrite E, Hu|].
  destruct (read_loop_ok 10 (enc_uvarint (zigzag x) ++ rest) 0 0 0 _ _ E) as [Er _]; [unfold enc_uvarint, zlen; lia|lia|lia|].
  change (Z.to_nat MaxVarintLen64) with 10%nat. rewrite Er, Hu, Z.sub_0_r. unfold zlen. by rewrite Nat2Z.id, drop_app_length.
Qed.

Lemma varint_roundtrip_witness : exists bs, AppendVarint [] (-12345) = Some bs /\ 1 <= zlen bs <= MaxVarintLen64 /\
  Varint (bs ++ [7; 7]) = (-12345, zlen bs) /\ ReadVarint read_list (bs ++ [7; 7]) = ([7; 7], (-12345, NoError)).
Proof. apply (varint_roundtrip (-12345) [7; 7]). lia. Defined.
