(* ===== verification/Strconv.v ===== *)
(** Integers as text: src/src/strconv/itoa.rs and src/src/strconv/atoi.rs.

    Bytes are integers below 256 and strings lists of them; [int] and [uint] have 64 bits.  A
    [None] is a panic.  An error is the record [NumError]. *)
From Stdlib Require Import ZArith Lia.
From stdpp Require Import base tactics numbers list list_numbers option.
From S2P Require Import Prelude.
Open Scope Z_scope.

(** ** itoa.rs *)

Definition nSmalls : Z := 100.

(** "000102..99", the renderings of 00 to 99. *)
Definition smallsString : list Z :=
  concat (map (fun t => concat (map (fun u => [48 + t; 48 + u]) (seqZ 0 10))) (seqZ 0 10)).

(** "0123456789abcdefghijklmnopqrstuvwxyz". *)
Definition digits : list Z := map (fun d => 48 + d) (seqZ 0 10) ++ map (fun d => 97 + d) (seqZ 0 26).

Definition small (i : Z) : option (list Z) := if decide (i < 10) then slice digits i (i + 1) else slice smallsString (i * 2) (i * 2 + 2).

Definition isPowerOfTwo (x : Z) : bool := Z.land x (x - 1) =? 0.

(** The buffer [a] and the index [i] of [formatBits]: [i -= 1; a[i] = c]. *)
Definition push (s : list Z * Z) (c : Z) : option (list Z * Z) :=
  let '(a, i) := s in a ← upd a (i - 1) c; Some (a, i - 1).

(** [while us >= 100] and the last two digits; [i -= 2; a[i + 1] = ..; a[i] = ..]. *)
Fixpoint decimal_loop (fuel : nat) (us : Z) (s : list Z * Z) : option (list Z * Z) :=
  match fuel with
  | O => None
  | S fuel =>
      if decide (us >= 100) then
        let pos := us mod 100 * 2 in
        hi ← idx smallsString (pos + 1);
        lo ← idx smallsString pos;
        s ← push s hi;
        s ← push s lo;
        decimal_loop fuel (us / 100) s
      else
        let pos := us * 2 in
        hi ← idx smallsString (pos + 1);
        s ← push s hi;
        if decide (us >= 10) then lo ← idx smallsString pos; push s lo else Some s
  end.

(** [while u >= b] of the case of a power of two. *)
Fixpoint shift_loop (fuel : nat) (shift b m u : Z) (s : list Z * Z) : option (list Z * Z) :=
  match fuel with
  | O => None
  | S fuel =>
      if decide (u >= b) then
        c ← idx digits (Z.land u m);
        s ← push s c;
        shift_loop fuel shift b m (shr64 u shift) s
      else
        c ← idx digits u;
        push s c
  end.

(** [while u >= b] of the general case. *)
Fixpoint divide_loop (fuel : nat) (b u : Z) (s : list Z * Z) : option (list Z * Z) :=
  match fuel with
  | O => None
  | S fuel =>
      if decide (u >= b) then
        let q := u / b in
        c ← idx digits (u - q * b);
        s ← push s c;
        divide_loop fuel b q s
      else
        c ← idx digits u;
        push s c
  end.

(** The bytes written: [a[i..]].  A 64-bit value has at most 64 digits. *)
Definition formatBits_bytes (u base : Z) (neg : bool) : option (list Z) :=
  if decide (base < 2 \/ base > zlen digits) then None
  else
    let s := (replicate 65 0, 65) in
    let u := if neg then wrap64 (- u) else u in
    s ← (if decide (base = 10) then decimal_loop 64 u s
         else if isPowerOfTwo base then shift_loop 64 (trailing_zeros base) base (base - 1) u s
         else divide_loop 64 base u s);
    '(a, i) ← (if neg then push s 45 else Some s);
    slice a i (zlen a).

(** The bytes appended to [dst], and the string. *)
Definition formatBits (dst : list Z) (u base : Z) (neg append_ : bool) : option (list Z * list Z) :=
  v ← formatBits_bytes u base neg;
  Some (if append_ then (dst ++ v, []) else ([], v)).

Definition FormatUint (i base : Z) : option (list Z) :=
  if decide (i < nSmalls /\ base = 10) then small i
  else '(_, s) ← formatBits [] i base false false; Some s.

Definition FormatInt (i base : Z) : option (list Z) :=
  if decide (0 <= i /\ i < nSmalls /\ base = 10) then small i
  else '(_, s) ← formatBits [] (wrap64 i) base (bool_decide (i < 0)) false; Some s.

Definition Itoa (i : Z) : option (list Z) := FormatInt i 10.

Definition AppendInt (dst : list Z) (i base : Z) : option (list Z) :=
  if decide (0 <= i /\ i < nSmalls /\ base = 10) then v ← small i; Some (dst ++ v)
  else '(d, _) ← formatBits dst (wrap64 i) base (bool_decide (i < 0)) true; Some d.

Definition AppendUint (dst : list Z) (i base : Z) : option (list Z) :=
  if decide (i < nSmalls /\ base = 10) then v ← small i; Some (dst ++ v)
  else '(d, _) ← formatBits dst i base false true; Some d.

(** ** atoi.rs *)

Definition intSize : Z := 32 * 2.
Definition IntSize : Z := intSize.
Definition maxUint64 : Z := 2 ^ 64 - 1.

Definition lower (c : Z) : Z := Z.lor c (120 - 88).

(** What an error wraps. *)
Inductive num_err := ErrSyntax | ErrRange | BaseErr (base : Z) | BitSizeErr (bit_size : Z).

Inductive num_func := FParseUint | FParseInt | FAtoi.

Record NumError := mkNumError { Func : num_func; Num : list Z; Err : num_err }.

Definition syntaxError (f : num_func) (s : list Z) : NumError := mkNumError f s ErrSyntax.
Definition rangeError (f : num_func) (s : list Z) : NumError := mkNumError f s ErrRange.
Definition baseError (f : num_func) (s : list Z) (base : Z) : NumError := mkNumError f s (BaseErr base).
Definition bitSizeError (f : num_func) (s : list Z) (bit_size : Z) : NumError := mkNumError f s (BitSizeErr bit_size).

(** [while i < s.len()] of [underscoreOK]. *)
Fixpoint underscore_loop (hex : bool) (saw : Z) (s : list Z) : bool :=
  match s with
  | [] => negb (saw =? 95)
  | c :: s =>
      if decide (48 <= c <= 57 \/ hex = true /\ 97 <= lower c <= 102) then underscore_loop hex 48 s
      else if decide (c = 95) then if decide (saw <> 48) then false else underscore_loop hex 95 s
      else if decide (saw = 95) then false
      else underscore_loop hex 33 s
  end.

Definition underscoreOK (s : list Z) : bool :=
  let s := match s with c :: s' => if decide (c = 45 \/ c = 43) then s' else s | [] => s end in
  match s with
  | c :: d :: s' =>
      if decide (c = 48 /\ (lower d = 98 \/ lower d = 111 \/ lower d = 120)) then underscore_loop (lower d =? 120) 48 s'
      else underscore_loop false 94 s
  | s => underscore_loop false 94 s
  end.

(** The digit a byte stands for. *)
Definition digit_val (c : Z) : option Z :=
  if decide (48 <= c <= 57) then Some (c - 48)
  else if decide (97 <= lower c <= 122) then Some (lower c - 97 + 10)
  else None.

(** [for &c in s_bytes]: the number and whether underscores were seen, or the value and error
    returned. *)
Fixpoint parse_loop (s0 : list Z) (base : Z) (base0 : bool) (cutoff max_val : Z) (underscores : bool) (n : Z) (s : list Z) : Z * bool + Z * NumError :=
  match s with
  | [] => inl (n, underscores)
  | c :: s =>
      if decide (c = 95 /\ base0 = true) then parse_loop s0 base base0 cutoff max_val true n s
      else
        match digit_val c with
        | None => inr (0, syntaxError FParseUint s0)
        | Some d =>
            if decide (d >= base) then inr (0, syntaxError FParseUint s0)
            else if decide (n >= cutoff) then inr (max_val, rangeError FParseUint s0)
            else
              let n := mul64 n base in
              let n1 := add64 n d in
              if decide (n1 < n \/ n1 > max_val) then inr (max_val, rangeError FParseUint s0)
              else parse_loop s0 base base0 cutoff max_val underscores n1 s
        end
  end.

(** The base of a literal and its digits, for [base == 0]. *)
Definition detect_base (s : list Z) : Z * list Z :=
  match s with
  | c :: s1 =>
      if decide (c = 48) then
        match s1 with
        | d :: (_ :: _) as s2 =>
            let s2 := tl s1 in
            if decide (lower d = 98) then (2, s2)
            else if decide (lower d = 111) then (8, s2)
            else if decide (lower d = 120) then (16, s2)
            else (8, s1)
        | _ => (8, s1)
        end
      else (10, s)
  | [] => (10, s)
  end.

Definition ParseUint (s : list Z) (base bit_size : Z) : Z * option NumError :=
  if decide (s = []) then (0, Some (syntaxError FParseUint s))
  else if decide (base <> 0 /\ (base < 2 \/ base > 36)) then (0, Some (baseError FParseUint s base))
  else
    let base0 := bool_decide (base = 0) in
    let '(b, body) := if base0 then detect_base s else (base, s) in
    if decide (bit_size <> 0 /\ (bit_size < 0 \/ bit_size > 64)) then (0, Some (bitSizeError FParseUint s bit_size))
    else
      let bits := if decide (bit_size = 0) then IntSize else bit_size in
      let cutoff := maxUint64 / b + 1 in
      let max_val := if decide (bits = 64) then maxUint64 else 2 ^ bits - 1 in
      match parse_loop s b base0 cutoff max_val false 0 body with
      | inr (v, e) => (v, Some e)
      | inl (n, underscores) => if underscores && negb (underscoreOK s) then (0, Some (syntaxError FParseUint s)) else (n, None)
      end.

(** [x as i64] of a 64-bit word. *)
Definition to_int64 (x : Z) : Z := if decide (x < 2 ^ 63) then x else x - 2 ^ 64.

(** [x.wrapping_neg()] of an [i64]. *)
Definition neg64 (x : Z) : Z := to_int64 (wrap64 (- x)).

(** The sign, and the rest. *)
Definition split_sign (s : list Z) : bool * list Z :=
  match s with
  | c :: s' => if decide (c = 43) then (false, s') else if decide (c = 45) then (true, s') else (false, s)
  | [] => (false, s)
  end.

(** [1 << (bs - 1)]; the code shifts by 63 when [bs] is 64. *)
Definition ParseInt (s : list Z) (base bit_size : Z) : Z * option NumError :=
  if decide (s = []) then (0, Some (syntaxError FParseInt s))
  else
    let '(neg, body) := split_sign s in
    let bs := if decide (bit_size = 0) then IntSize else bit_size in
    let cutoff_abs := if decide (bs = 64) then 2 ^ 63 else 2 ^ (bs - 1) in
    match ParseUint body base bit_size with
    | (_, Some e) =>
        match Err e with
        | ErrRange => if (neg : bool) then (neg64 (to_int64 cutoff_abs), Some (rangeError FParseInt s)) else (to_int64 (cutoff_abs - 1), Some (rangeError FParseInt s))
        | err => (0, Some (mkNumError FParseInt s err))
        end
    | (un, None) =>
        if decide (neg = false /\ un >= cutoff_abs) then (to_int64 (cutoff_abs - 1), Some (rangeError FParseInt s))
        else if decide (neg = true /\ un > cutoff_abs) then (neg64 (to_int64 cutoff_abs), Some (rangeError FParseInt s))
        else let n := to_int64 un in (if (neg : bool) then neg64 n else n, None)
    end.

(** [for &ch in &bytes[start..]] of [Atoi]'s fast path. *)
Fixpoint atoi_loop (n : Z) (s : list Z) : option Z :=
  match s with
  | [] => Some n
  | ch :: s =>
      let d := (ch - 48) mod 256 in
      if decide (d > 9) then None else atoi_loop (to_int64 (wrap64 (n * 10 + d))) s
  end.

Definition Atoi (s : list Z) : Z * option NumError :=
  if decide (0 < zlen s < 19) then
    let '(neg, body) := split_sign s in
    if decide (body <> s /\ body = []) then (0, Some (syntaxError FAtoi s))
    else match atoi_loop 0 body with
         | None => (0, Some (syntaxError FAtoi s))
         | Some n => (if (neg : bool) then neg64 n else n, None)
         end
  else
    match ParseInt s 10 0 with
    | (v, Some e) => (v, Some (match Err e with ErrRange => rangeError FAtoi s | _ => syntaxError FAtoi s end))
    | (v, None) => (v, None)
    end.
