(* ===== verification/StrconvSpec.v ===== *)
(** [Strconv]: formatting is positional notation in every base, parsing inverts it and accepts
    nothing else. *)
From Stdlib Require Import ZArith Lia.
From stdpp Require Import base tactics numbers list list_numbers option.
From S2P Require Import Prelude Strconv.
Open Scope Z_scope.

(** ** Positional notation *)

(** The digits of [u] in base [b], most significant first. *)
Fixpoint digs (fuel : nat) (b u : Z) : list Z :=
  match fuel with
  | O => []
  | S fuel => if decide (u < b) then [u] else digs fuel b (u / b) ++ [u mod b]
  end.

Definition value (b n : Z) (l : list Z) : Z := foldl (fun n d => n * b + d) n l.

Definition digit_char (d : Z) : Z := default 0 (idx digits d).

(** The text of [u] in base [b]; a 64-bit word has at most 64 digits. *)
Definition notation (b u : Z) : list Z := map digit_char (digs 64 b u).

Lemma digs_S f b u : digs (S f) b u = if decide (u < b) then [u] else digs f b (u / b) ++ [u mod b].
Proof. done. Qed.

Lemma div_pow b f u : 2 <= b -> 0 <= u < b ^ Z.of_nat (S f) -> 0 <= u / b < b ^ Z.of_nat f.
Proof. intros Hb Hu. replace (Z.of_nat (S f)) with (Z.succ (Z.of_nat f)) in Hu by lia. rewrite Z.pow_succ_r in Hu by lia. split; [apply Z.div_pos; lia|apply Z.div_lt_upper_bound; lia]. Qed.

Lemma digs_fuel b : 2 <= b -> forall f u, 0 <= u < b ^ Z.of_nat (S f) -> forall f', (f <= f')%nat -> digs (S f') b u = digs (S f) b u.
Proof.
  intros Hb. induction f as [|f IH]; intros u Hu f' Hf; cbn [digs].
  - change (Z.of_nat 1) with 1 in Hu. rewrite Z.pow_1_r in Hu. by rewrite !decide_True by lia.
  - destruct (decide (u < b)); [done|]. destruct f' as [|f']; [lia|]. f_equal. apply IH; [apply div_pow; lia|lia].
Qed.

Lemma digs_range b : 2 <= b -> forall f u, 0 <= u -> Forall (fun d => 0 <= d < b) (digs f b u).
Proof.
  intros Hb. induction f as [|f IH]; intros u Hu; cbn [digs]; [constructor|]. destruct (decide (u < b)); [constructor; [lia|constructor]|].
  apply Forall_app. split; [apply IH, Z.div_pos; lia|]. constructor; [apply Z.mod_pos_bound; lia|constructor].
Qed.

Lemma digs_length b : forall f u, (length (digs f b u) <= f)%nat.
Proof. induction f as [|f IH]; intros u; cbn [digs]; [cbn; lia|]. destruct (decide (u < b)); [cbn; lia|]. rewrite length_app. cbn. specialize (IH (u / b)). lia. Qed.

Lemma digs_nonempty b f u : digs (S f) b u <> [].
Proof. cbn [digs]. destruct (decide (u < b)); [done|]. by destruct (digs f b (u / b)). Qed.

Lemma value_digs b : 2 <= b -> forall f u, 0 <= u < b ^ Z.of_nat f -> value b 0 (digs f b u) = u.
Proof.
  intros Hb. induction f as [|f IH]; intros u Hu; cbn [digs]; [change (b ^ Z.of_nat 0) with 1 in Hu; cbn; lia|]. destruct (decide (u < b)); [cbn; lia|].
  unfold value in *. rewrite foldl_app, IH by (by apply div_pow). cbn. pose proof (Z.div_mod u b). lia.
Qed.

Lemma pow64 b : 2 <= b -> 2 ^ 64 <= b ^ Z.of_nat 64.
Proof. intros Hb. change (Z.of_nat 64) with 64. apply Z.pow_le_mono_l. lia. Qed.

(** ** Formatting *)

(** The buffer holds [t] from its index on. *)
Definition holds (s : list Z * Z) (t : list Z) : Prop := zlen s.1 = 65 /\ s.2 = 65 - zlen t /\ 0 <= s.2 /\ drop (Z.to_nat s.2) s.1 = t.

Lemma push_holds s t c : holds s t -> zlen t < 65 -> exists s', push s c = Some s' /\ holds s' (c :: t).
Proof.
  intros (H1 & H2 & H3 & H4) Ht. destruct s as [a i]. cbn [fst snd] in *. assert (0 <= zlen t) by (unfold zlen; lia). unfold push. rewrite upd_Some by lia. cbn [mbind option_bind]. eexists. split; [done|].
  assert (zlen (c :: t) = zlen t + 1) as El by (unfold zlen; cbn [length]; lia). split_and!; cbn [fst snd]; [by rewrite zlen_insert|lia|lia|].
  unfold zlen in *. rewrite (drop_S _ c) by (apply list_lookup_insert_eq; lia). f_equal. rewrite drop_insert_lt by lia. rewrite <- H4. f_equal. lia.
Qed.

Lemma digits_idx d : 0 <= d < 36 -> idx digits d = Some (digit_char d).
Proof. intros Hd. unfold digit_char. destruct (idx_lt digits d) as [x ->]; [done|done]. Qed.

(** One turn of the loops for a base that is not 10. *)
Lemma divide_S f b u s : divide_loop (S f) b u s = if decide (u >= b) then c ← idx digits (u - u / b * b); s ← push s c; divide_loop f b (u / b) s else c ← idx digits u; push s c.
Proof. done. Qed.

Lemma shift_S f shift b m u s : shift_loop (S f) shift b m u s = if decide (u >= b) then c ← idx digits (Z.land u m); s ← push s c; shift_loop f shift b m (shr64 u shift) s else c ← idx digits u; push s c.
Proof. done. Qed.

Lemma divide_loop_ok b : 2 <= b <= 36 -> forall f u s t, 0 <= u < b ^ Z.of_nat (S f) -> holds s t -> zlen t + Z.of_nat (S f) <= 65 ->
  exists s', divide_loop (S f) b u s = Some s' /\ holds s' (map digit_char (digs (S f) b u) ++ t).
Proof.
  intros Hb. induction f as [|f IH]; intros u s t Hu Hs Ht; rewrite divide_S, digs_S.
  - change (Z.of_nat 1) with 1 in Hu. rewrite Z.pow_1_r in Hu. rewrite decide_False, decide_True by lia. rewrite digits_idx, some_bind by lia. apply push_holds; [done|lia].
  - destruct (decide (u >= b)) as [Hge|Hlt].
    + rewrite decide_False by lia. pose proof (Z.div_mod u b ltac:(lia)) as Hdm. pose proof (Z.mod_pos_bound u b ltac:(lia)) as Hm. replace (u - u / b * b) with (u mod b) by lia.
      rewrite digits_idx, some_bind by lia. destruct (push_holds s t (digit_char (u mod b)) Hs ltac:(lia)) as (s1 & -> & H1). rewrite some_bind.
      rewrite map_app, <- app_assoc. change (map digit_char [u mod b] ++ t) with (digit_char (u mod b) :: t). apply IH; [apply div_pow; lia|done|]. assert (zlen (digit_char (u mod b) :: t) = zlen t + 1) as -> by (unfold zlen; cbn [length]; lia). lia.
    + rewrite decide_True by lia. rewrite digits_idx, some_bind by lia. apply push_holds; [done|lia].
Qed.

(** Shifting and masking is dividing. *)
Lemma shift_divide shift : 0 <= shift -> forall f u s, 0 <= u -> shift_loop f shift (2 ^ shift) (2 ^ shift - 1) u s = divide_loop f (2 ^ shift) u s.
Proof.
  intros Hs. induction f as [|f IH]; intros u s Hu; [done|]. rewrite shift_S, divide_S. destruct (decide (u >= 2 ^ shift)); [|done].
  assert (Z.land u (2 ^ shift - 1) = u - u / 2 ^ shift * 2 ^ shift) as ->.
  { replace (2 ^ shift - 1) with (Z.ones shift) by (rewrite Z.ones_equiv; lia). rewrite Z.land_ones by lia. pose proof (Z.div_mod u (2 ^ shift)). lia. }
  destruct (idx digits _) as [c|]; [|done]. rewrite !some_bind. destruct (push s c) as [s'|]; [|done]. rewrite !some_bind, shr64_div by lia. apply IH. apply Z.div_pos; lia.
Qed.

(** A base that is a power of two. *)
Lemma power_of_two b : 2 <= b <= 36 -> isPowerOfTwo b = true -> b = 2 ^ trailing_zeros b /\ 0 <= trailing_zeros b.
Proof.
  intros Hb. assert (forallb (fun b => implb (isPowerOfTwo b) ((b =? 2 ^ trailing_zeros b) && (0 <=? trailing_zeros b))) (seqZ 2 35) = true) as Hall by (vm_compute; reflexivity).
  rewrite forallb_forall in Hall. specialize (Hall b ltac:(apply list_elem_of_In, elem_of_seqZ; lia)). intros E. rewrite E in Hall. cbn in Hall. lia.
Qed.

Lemma smalls_idx k : 0 <= k < 100 -> idx smallsString (k * 2) = Some (digit_char (k / 10)) /\ idx smallsString (k * 2 + 1) = Some (digit_char (k mod 10)).
Proof.
  intros Hk. assert (forallb (fun k => bool_decide (idx smallsString (k * 2) = Some (digit_char (k / 10)) /\ idx smallsString (k * 2 + 1) = Some (digit_char (k mod 10)))) (seqZ 0 100) = true) as Hall by (vm_compute; reflexivity).
  rewrite forallb_forall in Hall. specialize (Hall k ltac:(apply list_elem_of_In, elem_of_seqZ; lia)). by apply bool_decide_eq_true in Hall.
Qed.

Lemma decimal_S f us s : decimal_loop (S f) us s =
  if decide (us >= 100) then
    hi ← idx smallsString (us mod 100 * 2 + 1); lo ← idx smallsString (us mod 100 * 2); s ← push s hi; s ← push s lo; decimal_loop f (us / 100) s
  else hi ← idx smallsString (us * 2 + 1); s ← push s hi; if decide (us >= 10) then lo ← idx smallsString (us * 2); push s lo else Some s.
Proof. done. Qed.

Lemma pow_drop b k u : 1 < b -> b <= u -> u < b ^ Z.of_nat (S k) -> exists k', k = S k'.
Proof. intros Hb Hu Hk. destruct k as [|k]; [|by exists k]. change (Z.of_nat 1) with 1 in Hk. rewrite Z.pow_1_r in Hk. lia. Qed.

(** Two decimal digits at a time. *)
Lemma decimal_loop_ok : forall f k us s t, 0 <= us < 10 ^ Z.of_nat (S k) -> us < 100 ^ Z.of_nat (S f) -> holds s t -> zlen t + Z.of_nat (S k) <= 65 ->
  exists s', decimal_loop (S f) us s = Some s' /\ holds s' (map digit_char (digs (S k) 10 us) ++ t).
Proof.
  induction f as [|f IH]; intros k us s t Hu Hf Hs Ht; rewrite decimal_S; (destruct (decide (us >= 100)) as [Hge|Hlt]; [try (change (100 ^ Z.of_nat 1) with 100 in Hf; lia)|]).
  2: { destruct (pow_drop 10 k us) as [k1 ->]; [lia|lia|lia|]. pose proof (div_pow 10 (S k1) us ltac:(lia) Hu) as Hu1. destruct (pow_drop 10 k1 (us / 10)) as [k2 ->]; [lia|lia|lia|].
    pose proof (div_pow 10 (S k2) (us / 10) ltac:(lia) Hu1) as Hu2. pose proof (div_pow 100 (S f) us ltac:(lia) ltac:(lia)) as Hf2.
    rewrite (digs_S _ 10 us), decide_False, (digs_S _ 10 (us / 10)), decide_False by lia. replace (us / 10 / 10) with (us / 100) in * by lia.
    destruct (smalls_idx (us mod 100) ltac:(lia)) as [-> ->]. rewrite !some_bind. replace (us mod 100 / 10) with (us / 10 mod 10) by lia. replace (us mod 100 mod 10) with (us mod 10) by lia.
    destruct (push_holds s t (digit_char (us mod 10)) Hs ltac:(lia)) as (s1 & -> & H1). rewrite some_bind. destruct (push_holds s1 _ (digit_char (us / 10 mod 10)) H1 ltac:(rewrite zlen_cons; lia)) as (s2 & -> & H2). rewrite some_bind.
    rewrite !map_app, <- !app_assoc. apply IH; [lia|lia|exact H2|]. change (map digit_char [us / 10 mod 10] ++ map digit_char [us mod 10] ++ t) with (digit_char (us / 10 mod 10) :: digit_char (us mod 10) :: t). rewrite !zlen_cons. lia. }
  all: destruct (smalls_idx us ltac:(lia)) as [-> ->]; rewrite some_bind; destruct (push_holds s t (digit_char (us mod 10)) Hs ltac:(lia)) as (s1 & -> & H1); rewrite some_bind; (destruct (decide (us >= 10)) as [H10|H10]; [|exists s1; split; [done|]; rewrite digs_S, decide_True by lia; by rewrite Z.mod_small in H1 by lia]).
  all: destruct (pow_drop 10 k us) as [k1 ->]; [lia|lia|lia|]; rewrite some_bind, digs_S, decide_False, digs_S, decide_True by lia; apply push_holds; [exact H1|rewrite zlen_cons; lia].
Qed.

(** ** The text *)

Lemma holds_nil : holds (replicate 65 0, 65) [].
Proof. by split_and!. Qed.

Lemma zlen_notation b u : 0 <= zlen (notation b u) <= 64.
Proof. unfold notation, zlen. rewrite length_map. pose proof (digs_length b 64 u). lia. Qed.

Lemma convert_ok base u : 2 <= base <= 36 -> 0 <= u < 2 ^ 64 ->
  exists s', (if decide (base = 10) then decimal_loop 64 u (replicate 65 0, 65)
    else if isPowerOfTwo base then shift_loop 64 (trailing_zeros base) base (base - 1) u (replicate 65 0, 65) else divide_loop 64 base u (replicate 65 0, 65)) = Some s' /\ holds s' (notation base u).
Proof.
  intros Hb Hu. pose proof (pow64 base ltac:(lia)) as Hp. unfold notation. rewrite <- (app_nil_r (map _ _)). destruct (decide (base = 10)) as [->|Hne].
  - rewrite (digs_fuel 10 ltac:(lia) 19 u) by lia. apply (decimal_loop_ok 63 19); [lia|lia|apply holds_nil|unfold zlen; cbn [length]; lia].
  - assert (exists s', divide_loop 64 base u (replicate 65 0, 65) = Some s' /\ holds s' (map digit_char (digs 64 base u) ++ [])) as Hd by (apply (divide_loop_ok base Hb 63); [lia|apply holds_nil|unfold zlen; cbn [length]; lia]).
    destruct (isPowerOfTwo base) eqn:Ep; [|done]. destruct (power_of_two base Hb Ep) as [Eb Ht]. pose proof (shift_divide (trailing_zeros base) Ht 64 u (replicate 65 0, 65) ltac:(lia)) as E. rewrite <- Eb in E. by rewrite E.
Qed.

Lemma formatBits_ok u base neg : 2 <= base <= 36 -> 0 <= u < 2 ^ 64 ->
  formatBits_bytes u base neg = Some (if neg then 45 :: notation base (wrap64 (- u)) else notation base u).
Proof.
  intros Hb Hu. unfold formatBits_bytes. rewrite decide_False by (change (zlen digits) with 36; lia). cbv zeta.
  set (v := if neg then wrap64 (- u) else u). assert (0 <= v < 2 ^ 64) as Hv by (unfold v; destruct neg; [apply wrap64_range|done]).
  destruct (convert_ok base v Hb Hv) as (s & -> & Hs). rewrite some_bind. pose proof (zlen_notation base v) as Hl.
  assert (forall s t, holds s t -> slice s.1 s.2 (zlen s.1) = Some t) as Hsl.
  { intros [a i] t (H1 & H2 & H3 & <-). cbn [fst snd] in *. assert (0 <= zlen (drop (Z.to_nat i) a)) by (unfold zlen; lia). unfold slice. rewrite decide_True by lia. f_equal. apply take_ge. rewrite length_drop. unfold zlen in *. lia. }
  destruct neg.
  - destruct (push_holds s _ 45 Hs ltac:(lia)) as (s' & -> & Hs'). rewrite some_bind. destruct s' as [a i]. by apply (Hsl (a, i)).
  - rewrite some_bind. destruct s as [a i]. by apply (Hsl (a, i)).
Qed.

Lemma small_ok i : 0 <= i < 100 -> small i = Some (notation 10 i).
Proof.
  intros Hi. assert (forallb (fun i => bool_decide (small i = Some (notation 10 i))) (seqZ 0 100) = true) as Hall by (vm_compute; reflexivity).
  rewrite forallb_forall in Hall. specialize (Hall i ltac:(apply list_elem_of_In, elem_of_seqZ; lia)). by apply bool_decide_eq_true in Hall.
Qed.

(** The text of a signed number. *)
Definition int_notation (b i : Z) : list Z := if decide (i < 0) then 45 :: notation b (- i) else notation b i.

Lemma format_uint_ok i base : 0 <= i < 2 ^ 64 -> 2 <= base <= 36 -> FormatUint i base = Some (notation base i).
Proof.
  intros Hi Hb. unfold FormatUint. destruct (decide _) as [[H1 ->]|_]; [apply small_ok; unfold nSmalls in H1; lia|]. unfold formatBits. by rewrite formatBits_ok.
Qed.

Lemma signed_bytes i base : - 2 ^ 63 <= i < 2 ^ 63 -> 2 <= base <= 36 -> formatBits_bytes (wrap64 i) base (bool_decide (i < 0)) = Some (int_notation base i).
Proof.
  intros Hi Hb. rewrite formatBits_ok by (done || apply wrap64_range). unfold int_notation, wrap64. case_bool_decide; [rewrite decide_True by done|rewrite decide_False by done].
  - do 3 f_equal. lia.
  - by rewrite Z.mod_small by lia.
Qed.

Lemma format_int_ok i base : - 2 ^ 63 <= i < 2 ^ 63 -> 2 <= base <= 36 -> FormatInt i base = Some (int_notation base i).
Proof.
  intros Hi Hb. unfold FormatInt. destruct (decide _) as [(H0 & H1 & ->)|_].
  - unfold nSmalls in H1. rewrite small_ok by lia. unfold int_notation. by rewrite decide_False by lia.
  - unfold formatBits. by rewrite signed_bytes.
Qed.

(** Every formatting function, by whichever of its three loops, writes positional notation: no
    base from 2 to 36 and no 64-bit value makes it leave its buffer. *)
Theorem format_positional base : 2 <= base <= 36 ->
  (forall u, 0 <= u < 2 ^ 64 -> FormatUint u base = Some (notation base u) /\ forall dst, AppendUint dst u base = Some (dst ++ notation base u)) /\
  (forall i, - 2 ^ 63 <= i < 2 ^ 63 -> FormatInt i base = Some (int_notation base i) /\ forall dst, AppendInt dst i base = Some (dst ++ int_notation base i)).
Proof.
  intros Hb. split.
  - intros u Hu. split; [by apply format_uint_ok|]. intros dst. unfold AppendUint. destruct (decide _) as [[H1 ->]|_].
    + unfold nSmalls in H1. by rewrite small_ok by lia.
    + unfold formatBits. by rewrite formatBits_ok.
  - intros i Hi. split; [by apply format_int_ok|]. intros dst. unfold AppendInt. destruct (decide _) as [(H0 & H1 & ->)|_].
    + unfold nSmalls in H1. rewrite small_ok by lia. unfold int_notation. by rewrite decide_False by lia.
    + unfold formatBits. by rewrite signed_bytes.
Qed.

Lemma format_positional_witness : FormatInt (-255) 16 = Some [45; 102; 102] /\
  (forall u, 0 <= u < 2 ^ 64 -> FormatUint u 16 = Some (notation 16 u) /\ forall dst, AppendUint dst u 16 = Some (dst ++ notation 16 u)) /\
  (forall i, - 2 ^ 63 <= i < 2 ^ 63 -> FormatInt i 16 = Some (int_notation 16 i) /\ forall dst, AppendInt dst i 16 = Some (dst ++ int_notation 16 i)).
Proof. split; [vm_compute; reflexivity|]. apply (format_positional 16). lia. Defined.

(** ** Parsing *)

(** The value of a byte as a digit of base [b]. *)
Definition digit_in (b c : Z) : option Z := match digit_val c with Some d => if decide (d < b) then Some d else None | None => None end.

Lemma digit_char_val d : 0 <= d < 36 -> digit_val (digit_char d) = Some d /\ digit_char d <> 43 /\ digit_char d <> 45 /\ 0 <= digit_char d < 256.
Proof.
  intros Hd. assert (forallb (fun d => bool_decide (digit_val (digit_char d) = Some d /\ digit_char d <> 43 /\ digit_char d <> 45 /\ 0 <= digit_char d < 256)) (seqZ 0 36) = true) as Hall by (vm_compute; reflexivity).
  rewrite forallb_forall in Hall. specialize (Hall d ltac:(apply list_elem_of_In, elem_of_seqZ; lia)). by apply bool_decide_eq_true in Hall.
Qed.

Lemma digit_val_nonneg c d : digit_val c = Some d -> 0 <= d.
Proof. unfold digit_val. repeat case_decide; intros E; simplify_eq; lia. Qed.

Lemma value_mono b : 1 <= b -> forall ds n, Forall (fun d => 0 <= d) ds -> 0 <= n -> n <= value b n ds.
Proof.
  intros Hb. induction ds as [|d ds IH]; intros n Hd Hn; [cbn; lia|]. apply list.Forall_cons in Hd as [Hd0 Hd]. cbn. specialize (IH (n * b + d) Hd ltac:(nia)). unfold value in IH. nia.
Qed.

Lemma digits_cons b c s ds : mapM (digit_in b) (c :: s) = Some ds ->
  exists d ds', digit_val c = Some d /\ 0 <= d < b /\ mapM (digit_in b) s = Some ds' /\ ds = d :: ds'.
Proof.
  cbn [mapM]. unfold mbind, option_bind. destruct (digit_in b c) as [d|] eqn:Ec; [|done]. destruct (mapM (digit_in b) s) as [ds'|]; [|done]. intros [= <-]. unfold digit_in in Ec.
  destruct (digit_val c) as [d'|] eqn:Ed; [|done]. case_decide; [|done]. injection Ec as ->. exists d, ds'. split_and!; try done. by eapply digit_val_nonneg.
Qed.

Lemma digits_cons_None b c s : mapM (digit_in b) (c :: s) = None -> match digit_val c with Some d => d >= b \/ mapM (digit_in b) s = None | None => True end.
Proof.
  cbn [mapM]. unfold mbind, option_bind, digit_in at 1. destruct (digit_val c) as [d|]; [|done]. case_decide; [|intros; left; lia]. destruct (mapM (digit_in b) s); [done|by right].
Qed.

Lemma digits_nonneg b s ds : mapM (digit_in b) s = Some ds -> Forall (fun d => 0 <= d) ds.
Proof.
  revert ds. induction s as [|c s IH]; intros ds E; [injection E as <-; constructor|]. apply digits_cons in E as (d & ds' & _ & Hd & E & ->). constructor; [lia|auto].
Qed.

Section parse.
  Context (s0 : list Z) (b max_val : Z) (Hb : 2 <= b <= 36) (Hm : 0 <= max_val < 2 ^ 64).
Let cutoff := maxUint64 / b + 1.

(** A string of digits: its value, or a range error when that exceeds the maximum. *)
Lemma parse_loop_digits : forall s ds n, mapM (digit_in b) s = Some ds -> 0 <= n <= max_val ->
  parse_loop s0 b false cutoff max_val false n s = if decide (value b n ds <= max_val) then inl (value b n ds, false) else inr (max_val, rangeError FParseUint s0).
Proof.
  induction s as [|c s IH]; intros ds n E Hn; [injection E as <-; cbn; by rewrite decide_True by (cbn; lia)|]. apply digits_cons in E as (d & ds' & Ed & Hd & E' & ->). cbn [parse_loop]. rewrite decide_False by naive_solver. rewrite Ed, decide_False by lia. change (value b n (d :: ds')) with (value b (n * b + d) ds').
  pose proof (value_mono b ltac:(lia) ds' (n * b + d) (digits_nonneg _ _ _ E') ltac:(nia)) as Hmono. unfold cutoff, maxUint64. destruct (decide (n >= (2 ^ 64 - 1) / b + 1)) as [Hc|Hc].
  { rewrite decide_False; [done|]. pose proof (Z.mul_div_le (2 ^ 64 - 1) b). assert (2 ^ 64 - 1 < n * b) by (pose proof (Z.mul_succ_div_gt (2 ^ 64 - 1) b); nia). lia. }
  assert (n * b <= 2 ^ 64 - 1) as Hnb by (pose proof (Z.mul_div_le (2 ^ 64 - 1) b); nia). rewrite mul64_small by nia. cbv zeta. unfold add64, wrap64.
  destruct (decide (n * b + d < 2 ^ 64)) as [Hs|Hs].
  - rewrite Z.mod_small by nia. destruct (decide (n * b + d < n * b \/ n * b + d > max_val)) as [Ho|Ho]; [by rewrite decide_False by lia|]. apply IH; [done|nia].
  - assert ((n * b + d) mod 2 ^ 64 = n * b + d - 2 ^ 64) as -> by (rewrite <- (Z_mod_plus_full _ (-1)); apply Z.mod_small; lia). rewrite decide_True by lia. by rewrite decide_False by lia.
Qed.

(** Anything else is an error. *)
Lemma parse_loop_bad : forall s n, mapM (digit_in b) s = None -> exists v e, parse_loop s0 b false cutoff max_val false n s = inr (v, e).
Proof.
  induction s as [|c s IH]; intros n E; [done|]. apply digits_cons_None in E. cbn [parse_loop]. rewrite decide_False by naive_solver. destruct (digit_val c) as [d|]; [|eauto].
  destruct (decide (d >= b)); [eauto|]. destruct E as [|E]; [done|]. cbv zeta. repeat case_decide; eauto.
Qed.

(** Too short to be out of range, it is a syntax error. *)
Lemma parse_loop_syntax : max_val = maxUint64 -> b = 10 -> forall s n k, mapM (digit_in b) s = None -> 0 <= n < 10 ^ Z.of_nat k -> (k + length s <= 18)%nat ->
  parse_loop s0 b false cutoff max_val false n s = inr (0, syntaxError FParseUint s0).
Proof.
  intros Em Eb. induction s as [|c s IH]; intros n k E Hn Hk; [done|]. apply digits_cons_None in E. cbn [parse_loop]. rewrite decide_False by naive_solver. destruct (digit_val c) as [d|] eqn:Ed; [|done].
  pose proof (digit_val_nonneg _ _ Ed). destruct (decide (d >= b)); [done|]. destruct E as [|E]; [done|]. cbn [length] in Hk.
  assert (10 ^ Z.of_nat k <= 10 ^ 17) as Hp by (apply Z.pow_le_mono_r; lia). assert (10 ^ Z.of_nat (S k) = 10 * 10 ^ Z.of_nat k) as Hp1 by (rewrite Nat2Z.inj_succ, Z.pow_succ_r; lia).
  subst b. unfold cutoff, maxUint64 in *. rewrite decide_False by lia. rewrite mul64_small by lia. cbv zeta. rewrite add64_small by lia. rewrite decide_False by lia. apply (IH _ (S k)); [done|lia|lia].
Qed.
End parse.

Definition bits_of (bit_size : Z) : Z := if decide (bit_size = 0) then 64 else bit_size.

Lemma bits_max bit_size : 0 <= bit_size <= 64 -> let m := if decide (bits_of bit_size = 64) then maxUint64 else 2 ^ bits_of bit_size - 1 in m = 2 ^ bits_of bit_size - 1 /\ 0 <= m < 2 ^ 64.
Proof.
  intros Hb m. assert (1 <= bits_of bit_size <= 64) as Hr by (unfold bits_of; case_decide; lia). assert (m = 2 ^ bits_of bit_size - 1) as E by (unfold m; case_decide as E; [by rewrite E|done]).
  split; [done|]. rewrite E. pose proof (Z.pow_pos_nonneg 2 (bits_of bit_size)). pose proof (Z.pow_le_mono_r 2 (bits_of bit_size) 64). lia.
Qed.

(** [ParseUint] in a base given explicitly. *)
Lemma parse_uint_loop s base bit_size : s <> [] -> 2 <= base <= 36 -> 0 <= bit_size <= 64 ->
  ParseUint s base bit_size = match parse_loop s base false (maxUint64 / base + 1) (2 ^ bits_of bit_size - 1) false 0 s with
    | inr (v, e) => (v, Some e) | inl (n, u) => if u && negb (underscoreOK s) then (0, Some (syntaxError FParseUint s)) else (n, None) end.
Proof.
  intros Hs Hb Hn. unfold ParseUint. rewrite decide_False by done. rewrite decide_False by lia. rewrite bool_decide_false by lia. cbv zeta. rewrite decide_False by lia.
  destruct (bits_max bit_size Hn) as [E _]. cbv zeta in E. unfold bits_of in *. change IntSize with 64. by rewrite E.
Qed.

Lemma parse_uint_digits s base bit_size ds : s <> [] -> 2 <= base <= 36 -> 0 <= bit_size <= 64 -> mapM (digit_in base) s = Some ds ->
  ParseUint s base bit_size = if decide (value base 0 ds < 2 ^ bits_of bit_size) then (value base 0 ds, None) else (2 ^ bits_of bit_size - 1, Some (rangeError FParseUint s)).
Proof.
  intros Hs Hb Hn E. destruct (bits_max bit_size Hn) as [Em Hm]. cbv zeta in Em, Hm. rewrite Em in Hm. rewrite parse_uint_loop by done. rewrite (parse_loop_digits s base _ Hb Hm s ds 0 E) by lia.
  destruct (decide (value base 0 ds < 2 ^ bits_of bit_size)); [by rewrite decide_True by lia|by rewrite decide_False by lia].
Qed.

Lemma parse_uint_bad s base bit_size : 2 <= base <= 36 -> 0 <= bit_size <= 64 -> mapM (digit_in base) s = None -> exists v e, ParseUint s base bit_size = (v, Some e).
Proof.
  intros Hb Hn E. assert (s <> []) as Hs by (by intros ->). destruct (bits_max bit_size Hn) as [Em Hm]. cbv zeta in Em, Hm. rewrite Em in Hm. rewrite parse_uint_loop by done.
  destruct (parse_loop_bad s base (2 ^ bits_of bit_size - 1) Hb Hm s 0 E) as (v & e & ->). eauto.
Qed.

(** In an explicit base [ParseUint] returns a number exactly for a non-empty string of digits of
    that base whose value fits, and that value; digits whose value does not fit give the largest
    value and a range error. *)
Theorem parse_uint_exact s base bit_size : 2 <= base <= 36 -> 0 <= bit_size <= 64 ->
  (forall n, ParseUint s base bit_size = (n, None) <-> s <> [] /\ exists ds, mapM (digit_in base) s = Some ds /\ n = value base 0 ds /\ n < 2 ^ bits_of bit_size) /\
  (forall ds, s <> [] -> mapM (digit_in base) s = Some ds -> 2 ^ bits_of bit_size <= value base 0 ds -> ParseUint s base bit_size = (2 ^ bits_of bit_size - 1, Some (rangeError FParseUint s))).
Proof.
  intros Hb Hn. split.
  - intros n. split.
    + intros E. assert (s <> []) as Hs by (by intros ->). split; [done|]. destruct (mapM (digit_in base) s) as [ds|] eqn:Ed.
      * exists ds. rewrite (parse_uint_digits s base bit_size ds Hs Hb Hn Ed) in E. case_decide; [|done]. injection E as <-. done.
      * destruct (parse_uint_bad s base bit_size Hb Hn Ed) as (v & e & E'). congruence.
    + intros (Hs & ds & Ed & -> & Hlt). rewrite (parse_uint_digits s base bit_size ds Hs Hb Hn Ed). by rewrite decide_True.
  - intros ds Hs Ed Hge. rewrite (parse_uint_digits s base bit_size ds Hs Hb Hn Ed). by rewrite decide_False by lia.
Qed.

(** "7fff" in base 16 and 15 bits. *)
Lemma parse_uint_exact_witness : ParseUint [55; 102; 102; 102] 16 15 = (32767, None) /\
  (forall n, ParseUint [55; 102; 102; 102] 16 15 = (n, None) <-> [55; 102; 102; 102] <> [] /\ exists ds, mapM (digit_in 16) [55; 102; 102; 102] = Some ds /\ n = value 16 0 ds /\ n < 2 ^ bits_of 15) /\
  (forall ds, [55; 102; 102; 102] <> [] -> mapM (digit_in 16) [55; 102; 102; 102] = Some ds -> 2 ^ bits_of 15 <= value 16 0 ds -> ParseUint [55; 102; 102; 102] 16 15 = (2 ^ bits_of 15 - 1, Some (rangeError FParseUint [55; 102; 102; 102]))).
Proof. split; [vm_compute; reflexivity|]. apply (parse_uint_exact [55; 102; 102; 102] 16 15); lia. Defined.

(** ** Round trips *)

Lemma notation_digits b u : 2 <= b <= 36 -> 0 <= u -> mapM (digit_in b) (notation b u) = Some (digs 64 b u).
Proof.
  intros Hb Hu. unfold notation. pose proof (digs_range b ltac:(lia) 64 u Hu) as Hr. induction (digs 64 b u) as [|d ds IH]; [done|]. apply list.Forall_cons in Hr as [Hd Hr].
  assert (digit_in b (digit_char d) = Some d) as Ed by (unfold digit_in; destruct (digit_char_val d ltac:(lia)) as [-> _]; by rewrite decide_True by lia).
  cbn [map mapM]. rewrite Ed, some_bind, IH, some_bind by done. done.
Qed.

Lemma notation_nonempty b u : notation b u <> [].
Proof. unfold notation. pose proof (digs_nonempty b 63 u) as Hne. by destruct (digs 64 b u). Qed.

Lemma notation_sign b u : 2 <= b <= 36 -> 0 <= u -> split_sign (notation b u) = (false, notation b u).
Proof.
  intros Hb Hu. pose proof (digs_range b ltac:(lia) 64 u Hu) as Hr. unfold notation. destruct (digs 64 b u) as [|d ds]; [done|]. apply list.Forall_cons in Hr as [Hd _].
  destruct (digit_char_val d ltac:(lia)) as (_ & H1 & H2 & _). cbn [map split_sign]. by rewrite !decide_False.
Qed.

Lemma parse_notation b u : 2 <= b <= 36 -> 0 <= u < 2 ^ 64 -> ParseUint (notation b u) b 64 = (u, None).
Proof.
  intros Hb Hu. rewrite (parse_uint_digits _ _ _ (digs 64 b u)); [|apply notation_nonempty|done|lia|apply notation_digits; lia]. pose proof (pow64 b ltac:(lia)).
  rewrite value_digs by lia. by rewrite decide_True by (change (bits_of 64) with 64; lia).
Qed.

Lemma to_int64_small x : 0 <= x < 2 ^ 63 -> to_int64 x = x.
Proof. intros H. unfold to_int64. by rewrite decide_True by lia. Qed.

Lemma neg64_ok x : 0 <= x <= 2 ^ 63 -> neg64 (to_int64 x) = - x.
Proof. intros H. unfold neg64, to_int64, wrap64. repeat case_decide; lia. Qed.

Lemma parse_int_notation b i : 2 <= b <= 36 -> - 2 ^ 63 <= i < 2 ^ 63 -> ParseInt (int_notation b i) b 64 = (i, None).
Proof.
  intros Hb Hi. unfold ParseInt, int_notation. destruct (decide (i < 0)) as [Hneg|Hpos].
  - rewrite decide_False by done. cbn [split_sign]. rewrite decide_False, decide_True by done. rewrite parse_notation by lia. cbv zeta. rewrite (decide_True (P := (if decide (64 = 0) then IntSize else 64) = 64)) by done.
    rewrite decide_False by naive_solver. rewrite decide_False by lia. rewrite neg64_ok by lia. f_equal. lia.
  - rewrite decide_False by apply notation_nonempty. rewrite notation_sign by lia. rewrite parse_notation by lia. cbv zeta. rewrite (decide_True (P := (if decide (64 = 0) then IntSize else 64) = 64)) by done.
    rewrite decide_False by lia. rewrite decide_False by naive_solver. by rewrite to_int64_small by lia.
Qed.

(** C31: Parsing inverts formatting, for every base and every 64-bit value. *)
Theorem strconv_roundtrip base : 2 <= base <= 36 ->
  (forall u, 0 <= u < 2 ^ 64 -> exists s, FormatUint u base = Some s /\ ParseUint s base 64 = (u, None)) /\
  (forall i, - 2 ^ 63 <= i < 2 ^ 63 -> exists s, FormatInt i base = Some s /\ ParseInt s base 64 = (i, None)).
Proof.
  intros Hb. split; intros x Hx.
  - exists (notation base x). split; [by apply format_uint_ok|by apply parse_notation].
  - exists (int_notation base x). split; [by apply format_int_ok|by apply parse_int_notation].
Qed.

Lemma strconv_roundtrip_witness :
  (forall u, 0 <= u < 2 ^ 64 -> exists s, FormatUint u 36 = Some s /\ ParseUint s 36 64 = (u, None)) /\
  (forall i, - 2 ^ 63 <= i < 2 ^ 63 -> exists s, FormatInt i 36 = Some s /\ ParseInt s 36 64 = (i, None)).
Proof. apply (strconv_roundtrip 36). lia. Defined.

(** ** The fast path of [Atoi] *)

Lemma digit10 c d : 0 <= c < 256 -> digit_in 10 c = Some d <-> d = (c - 48) mod 256 /\ d <= 9.
Proof.
  intros Hc. assert (forallb (fun c => bool_decide (digit_in 10 c = if decide ((c - 48) mod 256 <= 9) then Some ((c - 48) mod 256) else None)) (seqZ 0 256) = true) as Hall by (vm_compute; reflexivity).
  rewrite forallb_forall in Hall. specialize (Hall c ltac:(apply list_elem_of_In, elem_of_seqZ; lia)). apply bool_decide_eq_true in Hall. rewrite Hall. case_decide; naive_solver.
Qed.

Lemma atoi_loop_ok : forall s n k, Forall (fun c => 0 <= c < 256) s -> 0 <= n < 10 ^ Z.of_nat k -> (k + length s <= 18)%nat ->
  match mapM (digit_in 10) s with Some ds => atoi_loop n s = Some (value 10 n ds) /\ value 10 n ds < 10 ^ 18 | None => atoi_loop n s = None end.
Proof.
  induction s as [|c s IH]; intros n k Hs Hn Hk.
  { cbn. split; [done|]. pose proof (Z.pow_le_mono_r 10 (Z.of_nat k) 18). cbn in Hk. lia. }
  apply list.Forall_cons in Hs as [Hc Hs]. cbn [length] in Hk. cbn [mapM atoi_loop]. cbv zeta.
  assert (10 ^ Z.of_nat k <= 10 ^ 17) as Hp by (apply Z.pow_le_mono_r; lia). assert (10 ^ Z.of_nat (S k) = 10 * 10 ^ Z.of_nat k) as Hp1 by (rewrite Nat2Z.inj_succ, Z.pow_succ_r; lia).
  destruct (decide ((c - 48) mod 256 > 9)) as [Hgt|Hle].
  - destruct (digit_in 10 c) as [d|] eqn:Ed; [|done]. apply digit10 in Ed; [|done]. lia.
  - assert (digit_in 10 c = Some ((c - 48) mod 256)) as Ed by (apply digit10; [done|split; [done|lia]]). rewrite Ed, some_bind. set (d := (c - 48) mod 256) in *. assert (0 <= d <= 9) by (unfold d; lia).
    assert (to_int64 (wrap64 (n * 10 + d)) = n * 10 + d) as -> by (unfold to_int64; rewrite wrap64_small by lia; by rewrite decide_True by lia).
    specialize (IH (n * 10 + d) (S k) Hs ltac:(lia) ltac:(lia)). destruct (mapM (digit_in 10) s) as [ds|]; [|done]. rewrite some_bind. exact IH.
Qed.

Lemma split_sign_cases s neg body : split_sign s = (neg, body) -> s <> [] -> body = s /\ neg = false \/ exists c, s = c :: body.
Proof. destruct s as [|c s]; [done|]. cbn [split_sign]. repeat case_decide; intros [= <- <-] _; eauto. Qed.

(** [ParseInt] in base 10 and 64 bits on a text short enough for the fast path. *)
Lemma parse_int_short s neg body : s <> [] -> split_sign s = (neg, body) -> Forall (fun c => 0 <= c < 256) body -> (length body <= 18)%nat ->
  ParseInt s 10 0 = if decide (body = []) then (0, Some (syntaxError FParseInt s)) else
    match atoi_loop 0 body with None => (0, Some (syntaxError FParseInt s)) | Some n => (if neg then - n else n, None) end.
Proof.
  intros Hs Esp Hb Hl. unfold ParseInt. rewrite decide_False by done. rewrite Esp. destruct (decide (body = [])) as [->|Hne]; [done|]. pose proof (atoi_loop_ok body 0 0 Hb ltac:(lia) Hl) as Ha. destruct (mapM (digit_in 10) body) as [ds|] eqn:Ed.
  - destruct Ha as [-> Hv]. rewrite (parse_uint_digits body 10 0 ds Hne) by (done || lia). change (bits_of 0) with 64. rewrite decide_True by lia. cbv zeta.
    pose proof (value_mono 10 ltac:(lia) ds 0 (digits_nonneg _ _ _ Ed) ltac:(lia)). rewrite (decide_True (P := (if decide (0 = 0) then IntSize else 0) = 64)) by done.
    rewrite decide_False by lia. rewrite decide_False by lia. destruct neg; [by rewrite neg64_ok by lia|by rewrite to_int64_small by lia].
  - rewrite Ha. rewrite parse_uint_loop by (done || lia). change (bits_of 0) with 64. rewrite (parse_loop_syntax body 10 (2 ^ 64 - 1) ltac:(lia) ltac:(lia) eq_refl eq_refl body 0 0 Ed) by lia. done.
Qed.

(** In base 10 and 64 bits the only errors are of syntax and of range. *)
Lemma parse_uint_err s : match (ParseUint s 10 0).2 with Some e => Err e = ErrSyntax \/ Err e = ErrRange | None => True end.
Proof.
  destruct (decide (s = [])) as [->|Hs]; [by left|]. rewrite parse_uint_loop by (done || lia). change (bits_of 0) with 64.
  assert (forall l n u, match parse_loop s 10 false (maxUint64 / 10 + 1) (2 ^ 64 - 1) u n l with inr (_, e) => Err e = ErrSyntax \/ Err e = ErrRange | _ => True end) as Hl.
  { induction l as [|c l IH]; intros n u; cbn [parse_loop]; [done|]. rewrite decide_False by naive_solver. destruct (digit_val c); [|by left]. cbv zeta. repeat case_decide; first [by left | by right | apply IH]. }
  specialize (Hl s 0 false). destruct (parse_loop _ _ _ _ _ _ _ _) as [[n u]|[v e]]; [|done]. destruct (u && _); [by left|done].
Qed.

Lemma parse_int_err s : match (ParseInt s 10 0).2 with Some e => Err e = ErrSyntax \/ Err e = ErrRange | None => True end.
Proof.
  unfold ParseInt. case_decide; [by left|]. destruct (split_sign s) as [neg body]. pose proof (parse_uint_err body) as He. destruct (ParseUint body 10 0) as [un [e|]]; cbv zeta.
  - cbn in He. destruct He as [-> | ->]; [by left|]. destruct neg; by right.
  - repeat case_decide; cbn; by right || done.
Qed.

(** [Atoi], fast path or not, is [ParseInt] in base 10 for 64 bits, on every input; its errors
    carry its own name. *)
Theorem atoi_is_parse_int s : Forall (fun c => 0 <= c < 256) s ->
  Atoi s = ((ParseInt s 10 0).1, match (ParseInt s 10 0).2 with Some e => Some (mkNumError FAtoi s (Err e)) | None => None end).
Proof.
  intros Hs. unfold Atoi. destruct (decide (0 < zlen s < 19)) as [Hlen|Hlen].
  - assert (s <> []) as Hne by (intros ->; unfold zlen in Hlen; cbn in Hlen; lia). destruct (split_sign s) as [neg body] eqn:Esp. assert (Forall (fun c => 0 <= c < 256) body /\ (length body <= 18)%nat /\ (body <> s /\ body = [] <-> body = [])) as (Hb & Hl & Hiff).
    { unfold zlen in Hlen. destruct (split_sign_cases _ _ _ Esp Hne) as [[-> _]|[c ->]]; [split_and!; [done|lia|naive_solver]|]. apply list.Forall_cons in Hs as [_ Hs]. cbn [length] in Hlen. split_and!; [done|lia|]. split; [naive_solver|]. intros ->. done. }
    rewrite (parse_int_short s neg body Hne Esp Hb Hl). destruct (decide (body = [])) as [->|Hbne]; [by rewrite decide_True by naive_solver|]. rewrite decide_False by naive_solver.
    pose proof (atoi_loop_ok body 0 0 Hb ltac:(lia) Hl) as Ha. destruct (atoi_loop 0 body) as [n|] eqn:En; [|done]. destruct (mapM (digit_in 10) body) as [ds|] eqn:Ed; [|done].
    destruct Ha as [[= ->] Hv]. pose proof (value_mono 10 ltac:(lia) ds 0 (digits_nonneg _ _ _ Ed) ltac:(lia)). cbn [fst snd]. destruct neg; [|done]. f_equal. rewrite <- (neg64_ok (value 10 0 ds)) by lia. by rewrite to_int64_small by lia.
  - destruct (ParseInt s 10 0) as [v [e|]] eqn:E; [|done]. cbn [fst snd]. pose proof (parse_int_err s) as He. rewrite E in He. cbn in He. by destruct He as [-> | ->].
Qed.

(** "-9223372036854775808", which is too long for the fast path. *)
Lemma atoi_is_parse_int_witness : exists s, Itoa (- 2 ^ 63) = Some s /\ Atoi s = (- 2 ^ 63, None) /\
  Atoi s = ((ParseInt s 10 0).1, match (ParseInt s 10 0).2 with Some e => Some (mkNumError FAtoi s (Err e)) | None => None end).
Proof.
  exists (int_notation 10 (- 2 ^ 63)). split; [vm_compute; reflexivity|]. split; [vm_compute; reflexivity|].
  apply (atoi_is_parse_int (int_notation 10 (- 2 ^ 63))). apply (bool_decide_unpack (Forall (fun c => 0 <= c < 256) _)). vm_compute. exact I.
Defined.
