(* ===== verification/HeapOrder.v ===== *)
(** Binary heaps on sequences, for src/src/container/heap/heap.rs and src/src/sort/sort.rs:
    exchanges, strict weak orders, the heap order and holes in it. *)
From Stdlib Require Import ZArith Lia.
From stdpp Require Import base tactics numbers list list_numbers option sorting.
From S2P Require Import Prelude.
Open Scope Z_scope.

(** [l] with elements [i] and [j] exchanged. *)
Definition swapped {A} (l : list A) (i j : Z) : list A :=
  match idx l i, idx l j with
  | Some x, Some y => <[Z.to_nat j := x]> (<[Z.to_nat i := y]> l)
  | _, _ => l
  end.

(** ** Swaps *)

Section swap.
  Context {A : Type}.
  Implicit Types l : list A.

Lemma idx_swapped l i j k : 0 <= i < zlen l -> 0 <= j < zlen l -> 0 <= k ->
  idx (swapped l i j) k = if decide (k = i) then idx l j else if decide (k = j) then idx l i else idx l k.
Proof.
  intros Hi Hj Hk. destruct (idx_lt l i Hi) as [x Ex], (idx_lt l j Hj) as [y Ey]. unfold swapped. rewrite Ex, Ey.
  rewrite idx_insert, idx_insert by (rewrite ?zlen_insert; lia). repeat destruct (decide _); subst; try done; congruence.
Qed.

Lemma zlen_swapped l i j : zlen (swapped l i j) = zlen l.
Proof. unfold swapped. repeat case_match; by rewrite ?zlen_insert. Qed.

Lemma swapped_perm l i j : swapped l i j ≡ₚ l.
Proof.
  unfold swapped. destruct (idx l i) as [x|] eqn:Ex; [|done]. destruct (idx l j) as [y|] eqn:Ey; [|done].
  apply idx_Some in Ex as [_ Ex]. apply idx_Some in Ey as [_ Ey]. set (a := Z.to_nat i) in *. set (b := Z.to_nat j) in *.
  destruct (decide (a = b)) as [->|Hab].
  { rewrite list_insert_insert_eq. rewrite list_insert_id; [done|congruence]. }
  rewrite (list_insert_insert_ne l b a) by done.
  assert (forall l a b (x y : A), (a < b)%nat -> l !! a = Some x -> l !! b = Some y -> <[a := y]> (<[b := x]> l) ≡ₚ l) as Hlt.
  { clear. intros l a b x y Hab Ex Ey. rewrite <- (take_drop_middle l a x Ex). set (l1 := take a l). set (l2 := drop (S a) l).
    assert (length l1 = a) as La by (unfold l1; rewrite length_take; apply lookup_lt_Some in Ex; lia).
    assert (l2 !! (b - S a)%nat = Some y) as E2 by (unfold l2; rewrite lookup_drop; by replace (S a + (b - S a))%nat with b by lia).
    rewrite (insert_app_r_alt l1 (x :: l2) b x) by lia. rewrite La. replace (b - a)%nat with (S (b - S a)) by lia.
    set (k := (b - S a)%nat) in *. change (<[S k := x]> (x :: l2)) with (x :: <[k := x]> l2).
    rewrite (insert_app_r_alt l1 _ a y) by lia. rewrite La, Nat.sub_diag. change (<[0%nat := y]> (x :: <[k := x]> l2)) with (y :: <[k := x]> l2).
    apply Permutation_app_head. rewrite insert_take_drop by (by eapply lookup_lt_Some).
    transitivity (y :: x :: take k l2 ++ drop (S k) l2); [apply perm_skip; by rewrite <- Permutation_middle|].
    rewrite Permutation_swap. apply perm_skip. rewrite Permutation_middle. by rewrite (take_drop_middle l2 k y E2). }
  destruct (decide (a < b)%nat); [by apply Hlt|]. rewrite list_insert_insert_ne by done. apply Hlt; [lia|done|done].
Qed.
End swap.

(** ** Heap order *)

(** A strict weak order, as [Less] should be. *)
Class StrictWeak {A} (lt : A -> A -> bool) : Prop := {
  sw_asym : forall x y, lt x y = true -> lt y x = false;
  sw_trans : forall x y z, lt y x = false -> lt z y = false -> lt z x = false
}.

Definition parent (c : Z) : Z := (c - 1) / 2.

Section order.
  Context {A : Type} {lt : A -> A -> bool} `{StrictWeak A lt}.
  Implicit Types l : list A.

Definition leq (x y : A) : Prop := lt y x = false.

(** Element [i] does not sort after element [j]. *)
Definition le_at l (i j : Z) : Prop := forall x y, idx l i = Some x -> idx l j = Some y -> leq x y.

(** The first [n] elements, from the parent [k] on. *)
Definition heap_from l (k n : Z) : Prop := forall c, 0 < c < n -> k <= parent c -> le_at l (parent c) c.
Abbreviation heap_ordered l := (heap_from l 0 (zlen l)).

Lemma leq_refl x : leq x x.
Proof. unfold leq. destruct (lt x x) eqn:E; [|done]. by rewrite (sw_asym x x E) in E. Qed.

Lemma leq_trans x y z : leq x y -> leq y z -> leq x z.
Proof. apply sw_trans. Qed.

Lemma le_at_trans l i j k : 0 <= j < zlen l -> le_at l i j -> le_at l j k -> le_at l i k.
Proof. intros Hj Hij Hjk x z Ex Ez. destruct (idx_lt l j Hj) as [y Ey]. eapply leq_trans; [by eapply Hij|by eapply Hjk]. Qed.

(** All but what concerns the element at [i]: its children, and its parent unless [q]; and
    its children do not sort before its parent. *)
Record hole l (k n i : Z) (q : bool) : Prop := {
  ho_rest : forall c, 0 < c < n -> k <= parent c -> c <> i -> parent c <> i -> le_at l (parent c) c;
  ho_grand : forall c, 0 < c < n -> parent c = i -> 0 < i -> k <= parent i -> le_at l (parent i) c;
  ho_parent : q = true -> 0 < i -> k <= parent i -> le_at l (parent i) i
}.

Lemma parent_range c : 0 < c -> 0 <= parent c < c.
Proof. unfold parent. lia. Qed.

(** Where the element at [a] was before the exchange of [i] and [j]. *)
Definition before (i j a : Z) : Z := if decide (a = i) then j else if decide (a = j) then i else a.

Lemma le_at_swapped l i j a b : 0 <= i < zlen l -> 0 <= j < zlen l -> 0 <= a -> 0 <= b ->
  le_at (swapped l i j) a b <-> le_at l (before i j a) (before i j b).
Proof. intros Hi Hj Ha Hb. unfold le_at, before. rewrite !idx_swapped by done. repeat destruct (decide _); done. Qed.

(** Moving the smaller child [j] of [i] up. *)
Lemma hole_down l k n i q j : hole l k n i q -> 0 <= i -> 0 <= k -> n <= zlen l -> 0 < j < n -> parent j = i ->
  le_at l j i -> (forall c, 0 < c < n -> parent c = i -> le_at l j c) -> hole (swapped l i j) k n j true.
Proof.
  intros [Hr Hg _] Hi Hk Hn Hj Hp Hji Hmin. pose proof (parent_range j ltac:(lia)) as Hpj. assert (i <> j) as Hij by lia.
  pose proof (fun a b => le_at_swapped l i j a b ltac:(lia) ltac:(lia)) as Hsw.
  split.
  - intros c Hc Hkc Hcj Hpc. pose proof (parent_range c). rewrite Hsw by lia; unfold before.
    destruct (decide (c = i)) as [->|Hci].
    + rewrite decide_False, decide_False by lia. apply Hg; lia.
    + destruct (decide (c = j)); [done|]. destruct (decide (parent c = i)); [by apply Hmin|]. rewrite decide_False by lia. apply Hr; lia.
  - intros c Hc Hpc _ Hkj. pose proof (parent_range c). pose proof (parent_range j). rewrite Hsw by lia; unfold before. rewrite Hp. rewrite decide_True by done.
    rewrite decide_False, decide_False by lia. rewrite <- Hpc. apply Hr; try lia.
  - intros _ _ Hkj. rewrite Hsw by lia; unfold before. rewrite Hp, decide_True by done. rewrite decide_False, decide_True by lia. done.
Qed.

(** A hole whose children are in order, below its parent, is a heap. *)
Lemma hole_filled l k n i : hole l k n i true -> 0 <= i -> (forall c, 0 < c < n -> parent c = i -> le_at l i c) -> heap_from l k n.
Proof.
  intros [Hr Hg Hp] Hi Hc c Hcn Hkc. destruct (decide (c = i)) as [->|]; [by apply Hp; try lia|].
  destruct (decide (parent c = i)) as [E|]; [rewrite E; by apply Hc|by apply Hr].
Qed.

(** Moving the element at [j] above its parent. *)
Lemma hole_up l n j : hole l 0 n j false -> 0 < j < n -> n <= zlen l -> (forall c, 0 < c < n -> parent c = j -> le_at l j c) ->
  le_at l j (parent j) -> hole (swapped l (parent j) j) 0 n (parent j) false /\
  (forall c, 0 < c < n -> parent c = parent j -> le_at (swapped l (parent j) j) (parent j) c).
Proof.
  intros [Hr Hg _] Hj Hn Hch Hlt. set (i := parent j) in *. pose proof (parent_range j). fold i in H0.
  pose proof (fun a b => le_at_swapped l i j a b ltac:(lia) ltac:(lia)) as Hsw.
  assert (forall c, 0 < c < n -> parent c = i -> c <> j -> le_at l i c) as Hsib.
  { intros c Hc Hpc Hcj. rewrite <- Hpc. apply Hr; unfold i, parent in *; lia. }
  split; [split|].
  - intros c Hc Hkc Hci Hpc. pose proof (parent_range c). rewrite Hsw by lia; unfold before. rewrite (decide_False (P := c = i)) by done.
    rewrite (decide_False (P := parent c = i)) by done. destruct (decide (parent c = j)) as [E|E].
    + rewrite decide_False by lia. apply Hg; [lia|done|lia|unfold i in *; lia].
    + destruct (decide (c = j)) as [->|]; [done|]. by apply Hr.
  - intros c Hc Hpc Hi Hki. pose proof (parent_range i). pose proof (parent_range c). rewrite Hsw by lia; unfold before.
    assert (le_at l (parent i) i) as Hpi by (apply Hr; try lia; unfold parent in *; lia).
    rewrite (decide_False (P := parent i = i)), (decide_False (P := parent i = j)), (decide_False (P := c = i)) by lia.
    destruct (decide (c = j)) as [->|]; [done|]. eapply le_at_trans; [|exact Hpi|by apply Hsib]. lia.
  - done.
  - intros c Hc Hpc. pose proof (parent_range c). rewrite Hsw by lia; unfold before. rewrite decide_True by done. rewrite (decide_False (P := c = i)) by lia.
    destruct (decide (c = j)) as [->|]; [done|]. eapply le_at_trans; [|exact Hlt|by apply Hsib]. lia.
Qed.

(** The root is the least. *)
Lemma heap_root l n c : heap_from l 0 n -> n <= zlen l -> 0 <= c < n -> le_at l 0 c.
Proof.
  intros Hh Hn Hc. remember (Z.to_nat c) as k eqn:Ek. revert c Hc Ek. induction (lt_wf k) as [k _ IH]. intros c Hc ->.
  destruct (decide (c = 0)) as [->|]; [intros x y Ex Ey; assert (x = y) as -> by congruence; apply leq_refl|].
  pose proof (parent_range c). apply (le_at_trans _ _ (parent c)); [lia| |apply Hh; lia]. apply (IH (Z.to_nat (parent c))); lia.
Qed.
(** Any change of the single element [i] of a heap makes a hole there. *)
Lemma heap_hole l l' n m i : heap_from l 0 m -> n <= m <= zlen l -> 0 <= i < m ->
  (forall c, 0 <= c < n -> c <> i -> idx l' c = idx l c) -> hole l' 0 n i false.
Proof.
  intros Hh Hn Hi Heq. split; [| |done].
  - intros c Hc _ Hci Hpi. pose proof (parent_range c ltac:(lia)). unfold le_at. rewrite !Heq by lia. by apply Hh; lia.
  - intros c Hc Hpc Hi0 _. pose proof (parent_range c ltac:(lia)). pose proof (parent_range i Hi0). unfold le_at. rewrite !Heq by lia.
    apply (le_at_trans l _ i); [lia|by apply Hh; lia|]. rewrite <- Hpc. by apply Hh; lia.
Qed.

Lemma heap_from_agree l l' k n : (forall c, 0 <= c < n -> idx l' c = idx l c) -> heap_from l k n -> heap_from l' k n.
Proof. intros Heq Hh c Hc Hk. pose proof (parent_range c ltac:(lia)). unfold le_at. rewrite !Heq by lia. by apply Hh. Qed.
End order.

#[export] Instance ltb_strict_weak : StrictWeak Z.ltb.
Proof. split; intros; rewrite ?Z.ltb_lt, ?Z.ltb_ge in *; lia. Qed.
