(* ===== verification/ContainerHeap.v ===== *)
(** Heap operations: src/src/container/heap/heap.rs.

    [heap.Interface] is a trait that the user implements; here it is the class [Interface],
    whose laws are the documented behaviour of its five methods on the sequence of elements.
    The operations are written against the class, as the code is against the trait.  Indices
    are i64 ([int]); loops carry fuel. *)
From Stdlib Require Import ZArith Lia.
From stdpp Require Import base tactics numbers list list_numbers option sorting.
From S2P Require Import Prelude HeapOrder.
Open Scope Z_scope.

(** [heap.Interface], with the sequence of elements it stands for. *)
Class Interface (H Item : Type) (lt : Item -> Item -> bool) := {
  Len : H -> Z;
  Less : H -> Z -> Z -> bool;
  Swap : H -> Z -> Z -> H;
  Push_back : H -> Item -> H;
  Pop_back : H -> option (H * Item);
  elems : H -> list Item;
  Len_ok : forall h, Len h = zlen (elems h);
  Less_ok : forall h i j x y, idx (elems h) i = Some x -> idx (elems h) j = Some y -> Less h i j = lt x y;
  Swap_ok : forall h i j, 0 <= i < zlen (elems h) -> 0 <= j < zlen (elems h) -> elems (Swap h i j) = swapped (elems h) i j;
  Push_ok : forall h x, elems (Push_back h x) = elems h ++ [x];
  Pop_ok : forall h l x, elems h = l ++ [x] -> exists h', Pop_back h = Some (h', x) /\ elems h' = l
}.

Section heap.
  Context {H Item : Type} {lt : Item -> Item -> bool} `{I : Interface H Item lt}.

(** Each iteration halves [j]; running out of fuel is [None]. *)
Fixpoint up_loop (fuel : nat) (h : H) (j : Z) : option H :=
  match fuel with
  | O => None
  | S fuel =>
      let i := Z.quot (j - 1) 2 in
      if decide (i = j \/ Less h j i = false) then Some h else up_loop fuel (Swap h i j) i
  end.
Definition up (h : H) (j : Z) : option H := up_loop (S (Z.to_nat j)) h j.

(** The result is the structure and the index where the element came to rest. *)
Fixpoint down_loop (fuel : nat) (h : H) (i n : Z) : option (H * Z) :=
  match fuel with
  | O => None
  | S fuel =>
      let j1 := 2 * i + 1 in
      if decide (j1 >= n \/ j1 < 0) then Some (h, i)
      else
        let j2 := j1 + 1 in
        let j := if decide (j2 < n /\ Less h j2 j1 = true) then j2 else j1 in
        if decide (Less h j i = false) then Some (h, i) else down_loop fuel (Swap h i j) j n
  end.
Definition down (h : H) (i0 n : Z) : option (H * bool) :=
  '(h, i) ← down_loop (S (Z.to_nat (n - i0))) h i0 n;
  Some (h, bool_decide (i > i0)).

(** [while i >= 0], from [i] down. *)
Fixpoint init_loop (k : nat) (h : H) (n : Z) : option H :=
  match k with
  | O => Some h
  | S k => '(h, _) ← down h (Z.of_nat k) n; init_loop k h n
  end.
Definition Init (h : H) : option H :=
  let n := Len h in init_loop (Z.to_nat (Z.quot n 2 - 1 + 1)) h n.

Definition Push (h : H) (x : Item) : option H :=
  let h := Push_back h x in up h (Len h - 1).

Definition Pop (h : H) : option (H * Item) :=
  let n := Len h - 1 in
  let h := Swap h 0 n in
  '(h, _) ← down h 0 n;
  Pop_back h.

Definition Fix (h : H) (i : Z) : option H :=
  let n := Len h in
  '(h, moved) ← down h i n;
  if (moved : bool) then Some h else up h i.

Definition Remove (h : H) (i : Z) : option (H * Item) :=
  let n := Len h - 1 in
  h ← (if decide (n <> i) then
         '(h, moved) ← down (Swap h i n) i n;
         if (moved : bool) then Some h else up h i
       else Some h);
  Pop_back h.
End heap.

(** ** The sifts *)

Section sift.
  Context {H Item : Type} {lt : Item -> Item -> bool} `{I : Interface H Item lt} `{!StrictWeak lt}.
  Implicit Types h : H.

(** [h'] has the elements of [h], those from [n] on in place. *)
Definition sifted (n : Z) (h h' : H) : Prop :=
  elems h' ≡ₚ elems h /\ (forall c, n <= c -> idx (elems h') c = idx (elems h) c).

Lemma sifted_refl n h : sifted n h h.
Proof. done. Qed.

Lemma sifted_trans n h1 h2 h3 : sifted n h1 h2 -> sifted n h2 h3 -> sifted n h1 h3.
Proof. intros [P1 E1] [P2 E2]. split; [by rewrite P2|]. intros c Hc. by rewrite E2, E1. Qed.

Lemma sifted_len n h h' : sifted n h h' -> zlen (elems h') = zlen (elems h).
Proof. intros [P _]. unfold zlen. by rewrite P. Qed.

Lemma sifted_swap n h i j : 0 <= i < n -> 0 <= j < n -> n <= zlen (elems h) -> sifted n h (Swap h i j).
Proof.
  intros Hi Hj Hn. unfold sifted. rewrite Swap_ok by lia. split; [apply swapped_perm|].
  intros c Hc. rewrite idx_swapped by lia. by rewrite decide_False, decide_False by lia.
Qed.

Lemma less_le h i j : 0 <= i < zlen (elems h) -> 0 <= j < zlen (elems h) -> Less h j i = false -> le_at (lt := lt) (elems h) i j.
Proof. intros Hi Hj HL x y Ex Ey. unfold leq. by rewrite <- (Less_ok h j i y x). Qed.

Lemma less_lt h i j : 0 <= i < zlen (elems h) -> 0 <= j < zlen (elems h) -> Less h j i = true -> le_at (lt := lt) (elems h) j i.
Proof. intros Hi Hj HL x y Ex Ey. apply sw_asym. by rewrite <- (Less_ok h j i x y). Qed.

(** The child [down] compares with: the least of the two. *)
Lemma child_least h i n : let j1 := 2 * i + 1 in let j := if decide (j1 + 1 < n /\ Less h (j1 + 1) j1 = true) then j1 + 1 else j1 in
  0 <= i -> j1 < n -> n <= zlen (elems h) ->
  0 < j < n /\ parent j = i /\ (forall c, 0 < c < n -> parent c = i -> le_at (lt := lt) (elems h) j c).
Proof.
  intros j1 j Hi Hj Hn.
  assert (forall a, 0 <= a < n -> le_at (lt := lt) (elems h) a a) as Hr
    by (intros a Ha x y Ex Ey; assert (x = y) as -> by congruence; apply leq_refl).
  assert (forall c, 0 < c < n -> parent c = i -> c = j1 \/ c = j1 + 1) as Hc by (unfold parent; lia).
  subst j. destruct (decide _) as [[H2 HL]|HL].
  - split_and!; [lia|lia|unfold parent; lia|]. intros c Hcn Hp. destruct (Hc c Hcn Hp) as [-> | ->]; [apply less_lt; auto; lia|apply Hr; lia].
  - split_and!; [lia|lia|unfold parent; lia|]. intros c Hcn Hp. destruct (Hc c Hcn Hp) as [-> | ->]; [apply Hr; lia|].
    apply less_le; [lia|lia|]. destruct (Less h (j1 + 1) j1) eqn:E; [|done]. exfalso. apply HL. split; [lia|done].
Qed.

Lemma down_loop_ok fuel h k i n q : hole (lt := lt) (elems h) k n i q -> 0 <= i -> 0 <= k -> n <= zlen (elems h) -> (Z.to_nat (n - i) < fuel)%nat ->
  exists h' i', down_loop fuel h i n = Some (h', i') /\ i <= i' /\ sifted n h h' /\
    (i < i' \/ q = true -> heap_from (lt := lt) (elems h') k n) /\
    (i' = i -> h' = h /\ forall c, 0 < c < n -> parent c = i -> le_at (lt := lt) (elems h) i c).
Proof.
  revert h i q. induction fuel as [|fuel IH]; [lia|]. intros h i q Hh Hi Hk Hn Hf. cbn [down_loop].
  assert (forall (Hc : forall c, 0 < c < n -> parent c = i -> le_at (lt := lt) (elems h) i c),
    exists h' i', Some (h, i) = Some (h', i') /\ i <= i' /\ sifted n h h' /\ (i < i' \/ q = true -> heap_from (lt := lt) (elems h') k n) /\
    (i' = i -> h' = h /\ forall c, 0 < c < n -> parent c = i -> le_at (lt := lt) (elems h) i c)) as Hstop.
  { intros Hc. exists h, i. split_and!; [done|lia|done| |done]. intros [|Hq]; [lia|]. eapply hole_filled; [by rewrite <- Hq|done|done]. }
  destruct (decide _) as [Hs|Hs]; [apply Hstop; unfold parent; lia|].
  pose proof (child_least h i n Hi ltac:(lia) Hn) as (Hj & Hp & Hmin). set (j := if decide _ then _ else _) in *.
  pose proof (parent_range j ltac:(lia)) as Hpj. clearbody j. destruct (decide (Less h j i = false)) as [HL|HL].
  - apply Hstop. intros c Hc Hpc. eapply (le_at_trans (elems h) i j); [lia| |by apply Hmin]. apply less_le; [lia|lia|done].
  - apply not_false_is_true in HL.
    assert (hole (lt := lt) (elems (Swap h i j)) k n j true) as Hh2.
    { rewrite Swap_ok by lia. eapply hole_down; try done. apply less_lt; [lia|lia|done]. }
    pose proof (sifted_swap n h i j ltac:(lia) ltac:(lia) Hn) as Hsw. pose proof (sifted_len _ _ _ Hsw).
    destruct (IH (Swap h i j) j true Hh2 ltac:(lia) Hk ltac:(lia) ltac:(lia)) as (h' & i' & E & Hle & Hs' & Hheap & _).
    exists h', i'. split_and!; [done|lia|by eapply sifted_trans|auto|lia].
Qed.

Lemma down_ok h k i n q : hole (lt := lt) (elems h) k n i q -> 0 <= i -> 0 <= k -> n <= zlen (elems h) ->
  exists h' moved, down h i n = Some (h', moved) /\ sifted n h h' /\
    (moved = true \/ q = true -> heap_from (lt := lt) (elems h') k n) /\
    (moved = false -> h' = h /\ forall c, 0 < c < n -> parent c = i -> le_at (lt := lt) (elems h) i c).
Proof.
  intros Hh Hi Hk Hn. destruct (down_loop_ok (S (Z.to_nat (n - i))) h k i n q Hh Hi Hk Hn ltac:(lia)) as (h' & i' & E & Hle & Hs & Hheap & Hst).
  exists h', (bool_decide (i' > i)). unfold down. rewrite E. split_and!; [done|done| |].
  - rewrite bool_decide_eq_true. intros [|]; apply Hheap; [left; lia|auto].
  - rewrite bool_decide_eq_false. intros. apply Hst. lia.
Qed.

Lemma up_loop_ok fuel h n j : hole (lt := lt) (elems h) 0 n j false -> 0 <= j < n -> n <= zlen (elems h) ->
  (forall c, 0 < c < n -> parent c = j -> le_at (lt := lt) (elems h) j c) -> (Z.to_nat j < fuel)%nat ->
  exists h', up_loop fuel h j = Some h' /\ sifted n h h' /\ heap_from (lt := lt) (elems h') 0 n.
Proof.
  revert h j. induction fuel as [|fuel IH]; [lia|]. intros h j Hh Hj Hn Hc Hf. cbn [up_loop].
  assert (Z.quot (j - 1) 2 = if decide (j = 0) then 0 else parent j) as Eq by (unfold parent; destruct (decide _); [by subst|rewrite Z.quot_div_nonneg; lia]).
  rewrite Eq. destruct (decide (j = 0)) as [->|Hj0].
  { rewrite decide_True by auto. exists h. split_and!; [done|done|]. apply (hole_filled _ _ _ 0); [|lia|done]. destruct Hh. split; [done|done|intros; lia]. }
  pose proof (parent_range j ltac:(lia)) as Hp. destruct (decide (_ \/ _)) as [Hs|Hs].
  - exists h. split_and!; [done|done|]. apply (hole_filled _ _ _ j); [|lia|done]. destruct Hh. split; [done|done|]. intros _ _ _. apply less_le; [lia|lia|]. destruct Hs; [lia|done].
  - assert (Less h j (parent j) = true) as HL by (destruct (Less h j (parent j)); [done|tauto]).
    pose proof (sifted_swap n h (parent j) j ltac:(lia) ltac:(lia) Hn) as Hsw. pose proof (sifted_len _ _ _ Hsw).
    destruct (hole_up (elems h) n j Hh ltac:(lia) Hn Hc ltac:(apply less_lt; [lia|lia|done])) as [Hh2 Hc2].
    rewrite <- Swap_ok in Hh2, Hc2 by lia.
    destruct (IH (Swap h (parent j) j) (parent j) Hh2 ltac:(lia) ltac:(lia) Hc2 ltac:(lia)) as (h' & E & Hs' & Hheap).
    exists h'. split_and!; [done|by eapply sifted_trans|done].
Qed.
Lemma up_ok h n j : hole (lt := lt) (elems h) 0 n j false -> 0 <= j < n -> n <= zlen (elems h) ->
  (forall c, 0 < c < n -> parent c = j -> le_at (lt := lt) (elems h) j c) ->
  exists h', up h j = Some h' /\ sifted n h h' /\ heap_from (lt := lt) (elems h') 0 n.
Proof. intros. apply up_loop_ok; auto; lia. Qed.

(** [down], then [up] if nothing moved: the tail of Fix and Remove. *)
Lemma settle_ok h i n : hole (lt := lt) (elems h) 0 n i false -> 0 <= i < n -> n <= zlen (elems h) ->
  exists h', ('(h, moved) ← down h i n; if (moved : bool) then Some h else up h i) = Some h' /\ sifted n h h' /\ heap_from (lt := lt) (elems h') 0 n.
Proof.
  intros Hh Hi Hn. destruct (down_ok h 0 i n false Hh ltac:(lia) ltac:(lia) Hn) as (h1 & [] & E & Hs & Hheap & Hst); rewrite E; cbn.
  - exists h1. auto.
  - destruct (Hst eq_refl) as [-> Hc]. by apply up_ok.
Qed.

Lemma init_loop_ok k h n : heap_from (lt := lt) (elems h) (Z.of_nat k) n -> n <= zlen (elems h) ->
  exists h', init_loop k h n = Some h' /\ sifted n h h' /\ heap_from (lt := lt) (elems h') 0 n.
Proof.
  revert h. induction k as [|k IH]; intros h Hh Hn; cbn [init_loop]; [by exists h|].
  assert (hole (lt := lt) (elems h) (Z.of_nat k) n (Z.of_nat k) true) as Ho.
  { split; intros; [apply Hh; lia|..]; pose proof (parent_range (Z.of_nat k) ltac:(lia)); lia. }
  destruct (down_ok h _ _ n true Ho ltac:(lia) ltac:(lia) Hn) as (h1 & mv & E & Hs & Hheap & _). rewrite E. cbn.
  pose proof (sifted_len _ _ _ Hs). destruct (IH h1 (Hheap (or_intror eq_refl)) ltac:(lia)) as (h' & E' & Hs' & Hh').
  exists h'. split_and!; [done|by eapply sifted_trans|done].
Qed.

(** The last element leaves a structure whose first [n] are a heap. *)
Lemma pop_back_ok h n : 0 <= n -> zlen (elems h) = n + 1 -> heap_from (lt := lt) (elems h) 0 n ->
  exists h' x, Pop_back h = Some (h', x) /\ idx (elems h) n = Some x /\ elems h = elems h' ++ [x] /\ heap_from (lt := lt) (elems h') 0 (zlen (elems h')).
Proof.
  intros Hn Hl Hh. destruct (exists_last (l := elems h)) as (l & x & E); [intros E; rewrite E in Hl; unfold zlen in Hl; cbn in Hl; lia|].
  destruct (Pop_ok h l x E) as (h' & Ep & El). rewrite E in Hl, Hh. assert (zlen l = n) as Hln by (unfold zlen in *; rewrite length_app in Hl; cbn in Hl; lia).
  exists h', x. rewrite E, El. split_and!; [done| |done|].
  - rewrite idx_Some. split; [lia|]. replace (Z.to_nat n) with (length l) by (unfold zlen in Hln; lia). by rewrite list_lookup_middle.
  - replace (zlen l) with n by lia. eapply heap_from_agree; [|exact Hh]. intros c Hc. unfold idx. rewrite !decide_True by lia.
    rewrite lookup_app_l; [done|]. unfold zlen in *. lia.
Qed.
End sift.

(** ** The operations *)

Section spec.
  Context {H Item : Type} {lt : Item -> Item -> bool} `{I : Interface H Item lt} `{!StrictWeak lt}.
  Implicit Types h : H.

(** The heap invariant of the whole structure. *)
Definition is_heap (h : H) : Prop := heap_from (lt := lt) (elems h) 0 (zlen (elems h)).

Lemma Init_ok h : exists h', Init h = Some h' /\ elems h' ≡ₚ elems h /\ is_heap h'.
Proof.
  unfold Init. rewrite Len_ok. pose proof (Z.quot_div_nonneg (zlen (elems h)) 2) as Eq. assert (0 <= zlen (elems h)) by (unfold zlen; lia).
  rewrite Eq by lia. set (n := zlen (elems h)) in *. destruct (init_loop_ok (Z.to_nat (n / 2 - 1 + 1)) h n) as (h' & E & Hs & Hh).
  - intros c Hc Hk. unfold parent in Hk. lia.
  - done.
  - exists h'. split_and!; [done|apply Hs|]. unfold is_heap. by rewrite (sifted_len _ _ _ Hs).
Qed.

Lemma Push_ok' h x : is_heap h -> exists h', Push h x = Some h' /\ elems h' ≡ₚ x :: elems h /\ is_heap h'.
Proof.
  intros Hh. unfold Push. rewrite Len_ok. set (n := zlen (elems (Push_back h x))).
  assert (n = zlen (elems h) + 1) as En by (unfold n, zlen; rewrite Push_ok, length_app; cbn; lia). assert (0 <= zlen (elems h)) by (unfold zlen; lia).
  assert (forall c, 0 <= c < n - 1 -> idx (elems (Push_back h x)) c = idx (elems h) c) as Heq.
  { intros c Hc. rewrite Push_ok. unfold idx. rewrite !decide_True by lia. rewrite lookup_app_l; [done|]. unfold zlen in *. lia. }
  destruct (up_ok (Push_back h x) n (n - 1)) as (h' & E & Hs & Hh').
  - split; [| |done]; intros c Hc; [intros _ Hcn Hpn|unfold parent; lia].
    pose proof (parent_range c ltac:(lia)). unfold le_at. rewrite !Heq by lia. apply Hh; lia.
  - lia.
  - done.
  - unfold parent. lia.
  - exists h'. split_and!; [done| |].
    + rewrite (proj1 Hs), Push_ok. by rewrite Permutation_app_comm.
    + unfold is_heap. by rewrite (sifted_len _ _ _ Hs).
Qed.

Lemma Pop_min h : is_heap h -> elems h <> [] ->
  exists h' x, Pop h = Some (h', x) /\ x :: elems h' ≡ₚ elems h /\ is_heap h' /\ Forall (leq (lt := lt) x) (elems h').
Proof.
  intros Hh Hne. unfold Pop. rewrite Len_ok. assert (0 < zlen (elems h)) as Hl by (destruct (elems h); [done|unfold zlen; cbn; lia]).
  set (n := zlen (elems h) - 1). assert (sifted (n + 1) h (Swap h 0 n)) as Hsw by (apply sifted_swap; lia). pose proof (sifted_len _ _ _ Hsw) as Hlen.
  assert (hole (lt := lt) (elems (Swap h 0 n)) 0 n 0 true) as Ho.
  { destruct (heap_hole (elems h) (elems (Swap h 0 n)) n (n + 1) 0) as [Hr Hg _].
    - intros c Hc Hk. apply Hh; lia.
    - lia.
    - lia.
    - intros c Hc Hc0. rewrite Swap_ok by lia. rewrite idx_swapped by lia. by rewrite decide_False, decide_False by lia.
    - split; [done|done|intros; lia]. }
  destruct (down_ok _ _ _ n true Ho ltac:(lia) ltac:(lia) ltac:(lia)) as (h1 & mv & E & Hs & Hheap & _). rewrite E. cbn.
  pose proof (sifted_len _ _ _ Hs). destruct (pop_back_ok h1 n) as (h' & x & Ep & Ex & El & Hh'); [lia|lia|auto|].
  assert (x :: elems h' ≡ₚ elems h) as Hperm by (rewrite Permutation_cons_append, <- El, (proj1 Hs); apply Hsw).
  exists h', x. split_and!; [done|done|done|].
  rewrite (proj2 Hs) in Ex by lia. rewrite Swap_ok, idx_swapped in Ex by lia.
  assert (idx (elems h) 0 = Some x) as E0 by (destruct (decide (n = 0)) as [E0|]; [by rewrite E0 in Ex|by rewrite decide_True in Ex]).
  apply Forall_forall. intros y Hy. assert (y ∈ elems h) as Hy' by (rewrite <- Hperm; by right).
  apply list_elem_of_lookup in Hy' as [k Hk]. assert (0 <= Z.of_nat k < zlen (elems h)) by (apply lookup_lt_Some in Hk; unfold zlen; lia).
  eapply (heap_root (elems h) _ (Z.of_nat k) Hh); [lia|lia|done|]. apply idx_Some. rewrite Nat2Z.id. split; [lia|done].
Qed.

(** The element that [Fix] is called for may have any value. *)
Lemma Fix_ok h l i v : heap_from (lt := lt) l 0 (zlen l) -> 0 <= i < zlen l -> elems h = <[Z.to_nat i := v]> l ->
  exists h', Fix h i = Some h' /\ elems h' ≡ₚ elems h /\ is_heap h'.
Proof.
  intros Hh Hi El. unfold Fix. rewrite Len_ok. assert (zlen (elems h) = zlen l) as Hl by by rewrite El, zlen_insert.
  destruct (settle_ok h i (zlen (elems h))) as (h' & E & Hs & Hh').
  - apply (heap_hole l _ _ (zlen l)); [done|lia|done|]. intros c Hc Hci. rewrite El, idx_insert by lia. by rewrite decide_False.
  - lia.
  - done.
  - exists h'. split_and!; [done|apply Hs|]. unfold is_heap. by rewrite (sifted_len _ _ _ Hs).
Qed.

Lemma Remove_ok h i x : is_heap h -> idx (elems h) i = Some x ->
  exists h', Remove h i = Some (h', x) /\ x :: elems h' ≡ₚ elems h /\ is_heap h'.
Proof.
  intros Hh Hx. pose proof (idx_range _ _ _ Hx) as Hi. unfold Remove. rewrite Len_ok. set (n := zlen (elems h) - 1).
  assert (exists h1, (if decide (n <> i) then '(h, moved) ← down (Swap h i n) i n; if (moved : bool) then Some h else up h i else Some h) = Some h1 /\
            elems h1 ≡ₚ elems h /\ heap_from (lt := lt) (elems h1) 0 n /\ idx (elems h1) n = Some x) as (h1 & E & Hp & Hh1 & Hn1).
  { destruct (decide (n <> i)) as [Hni|Hni].
    - assert (sifted (n + 1) h (Swap h i n)) as Hsw by (apply sifted_swap; lia). pose proof (sifted_len _ _ _ Hsw).
      destruct (settle_ok (Swap h i n) i n) as (h1 & E & Hs & Hh1); [|lia|lia|].
      { apply (heap_hole (elems h) _ _ (n + 1)); [intros c Hc Hk; apply Hh; lia|lia|lia|].
        intros c Hc Hci. rewrite Swap_ok, idx_swapped by lia. by rewrite decide_False, decide_False by lia. }
      exists h1. split_and!; [done|rewrite (proj1 Hs); apply Hsw|done|]. rewrite (proj2 Hs) by lia. rewrite Swap_ok, idx_swapped by lia.
      by rewrite decide_False, decide_True by lia.
    - exists h. assert (n = i) as -> by lia. split_and!; [done|done| |done]. intros c Hc Hk. apply Hh; lia. }
  rewrite E. cbn. assert (zlen (elems h1) = n + 1) as Hl1 by (unfold zlen, n in *; rewrite Hp; unfold zlen; lia).
  destruct (pop_back_ok h1 n) as (h' & y & Ep & Ey & El & Hh'); [lia|done|done|]. assert (y = x) as -> by congruence.
  exists h'. split_and!; [done|by rewrite Permutation_cons_append, <- El|done].
Qed.

(** What a client that pops [k] times gets. *)
Fixpoint drain (k : nat) (h : H) : option (list Item) :=
  match k with
  | O => Some []
  | S k => '(h, x) ← Pop h; l ← drain k h; Some (x :: l)
  end.

Lemma drain_ok k h : is_heap h -> length (elems h) = k ->
  exists l, drain k h = Some l /\ l ≡ₚ elems h /\ StronglySorted (leq (lt := lt)) l.
Proof.
  revert h. induction k as [|k IH]; intros h Hh Hk; cbn [drain].
  - exists []. apply nil_length_inv in Hk. rewrite Hk. split_and!; [done|done|constructor].
  - destruct (Pop_min h Hh) as (h' & x & E & Hp & Hh' & Hmin); [by intros En; rewrite En in Hk|]. rewrite E. cbn.
    destruct (IH h' Hh') as (l & El & Hpl & Hs); [apply Permutation_length in Hp; cbn in Hp; lia|]. rewrite El. cbn.
    exists (x :: l). split_and!; [done|by rewrite Hpl|]. constructor; [done|]. by rewrite Hpl.
Qed.

(** Heap sort - [Init] on any structure, then [Pop] until it is empty, yields the elements of
    the structure in order: every call returns, nothing is lost or repeated. *)
Theorem heap_sorts h : exists l, (Init h ≫= drain (length (elems h))) = Some l /\ l ≡ₚ elems h /\ StronglySorted (leq (lt := lt)) l.
Proof.
  destruct (Init_ok h) as (h' & E & Hp & Hh). rewrite E. cbn. destruct (drain_ok (length (elems h)) h' Hh) as (l & El & Hpl & Hs); [by rewrite Hp|].
  exists l. split_and!; [done|by rewrite Hpl|done].
Qed.

(** On a heap, [Push] adds exactly its element, [Pop] takes a least one, and [Remove] the one
    at the index given; all three return and leave a heap. *)
Theorem heap_operations h (Hh : is_heap h) :
  (forall x, exists h', Push h x = Some h' /\ elems h' ≡ₚ x :: elems h /\ is_heap h') /\
  (elems h <> [] -> exists h' x, Pop h = Some (h', x) /\ x :: elems h' ≡ₚ elems h /\ is_heap h' /\ Forall (leq (lt := lt) x) (elems h')) /\
  (forall i x, idx (elems h) i = Some x -> exists h', Remove h i = Some (h', x) /\ x :: elems h' ≡ₚ elems h /\ is_heap h').
Proof. split_and!; [intros; by apply Push_ok'|by apply Pop_min|intros; by apply Remove_ok]. Qed.

(** After one element of a heap has been given any other value, [Fix] at its index returns
    and restores the heap, with the same elements. *)
Theorem heap_fix_restores h l i v (Hh : heap_from (lt := lt) l 0 (zlen l)) (Hi : 0 <= i < zlen l) (El : elems h = <[Z.to_nat i := v]> l) :
  exists h', Fix h i = Some h' /\ elems h' ≡ₚ elems h /\ is_heap h'.
Proof. by eapply Fix_ok. Qed.
End spec.

(** ** A slice of integers, as the tests of the package implement the trait *)

Definition slice_less (l : list Z) (i j : Z) : bool :=
  match idx l i, idx l j with Some x, Some y => x <? y | _, _ => false end.
Definition slice_pop (l : list Z) : option (list Z * Z) :=
  match reverse l with [] => None | x :: r => Some (reverse r, x) end.

#[export] Instance slice_interface : Interface (list Z) Z Z.ltb.
Proof.
  refine {| Len := zlen; Less := slice_less; Swap := swapped; Push_back l x := l ++ [x]; Pop_back := slice_pop; elems l := l |}; try done.
  - intros l i j x y Ex Ey. unfold slice_less. by rewrite Ex, Ey.
  - intros h l x ->. unfold slice_pop. rewrite reverse_app. change (reverse [x]) with [x]. cbn [app]. exists (reverse (reverse l)). by rewrite reverse_involutive.
Defined.

Example drain_slice : (Init [5; 2; 8; 1; 9; 1] ≫= drain 6) = Some [1; 1; 2; 5; 8; 9].
Proof. vm_compute. reflexivity. Qed.

Lemma slice_heap (l : list Z) (n : nat) : n = length l ->
  forallb (fun c => match idx l (parent c), idx l c with Some x, Some y => x <=? y | _, _ => false end) (seqZ 1 (Z.of_nat n - 1)) = true -> is_heap l.
Proof.
  intros -> Hf c Hc _ x y Ex Ey. rewrite forallb_forall in Hf. specialize (Hf c). cbn in *. unfold zlen in Hc. rewrite Ex, Ey in Hf. unfold leq.
  rewrite Z.ltb_ge, <- Z.leb_le. apply Hf. apply list_elem_of_In, elem_of_seqZ. lia.
Qed.

Lemma heap_sorts_witness : exists l, (Init [3; 1; 2] ≫= drain 3) = Some l /\ l ≡ₚ [3; 1; 2] /\ StronglySorted (leq (lt := Z.ltb)) l.
Proof. exact (heap_sorts (lt := Z.ltb) (I := slice_interface) [3; 1; 2]). Defined.

Lemma heap_operations_witness : exists h', Remove [1; 2; 5; 7] 1 = Some (h', 2) /\ 2 :: h' ≡ₚ [1; 2; 5; 7] /\ is_heap h'.
Proof.
  refine (proj2 (proj2 (heap_operations (lt := Z.ltb) (I := slice_interface) [1; 2; 5; 7] _)) 1 2 _); [by apply (slice_heap _ 4)|reflexivity].
Defined.

Lemma heap_fix_restores_witness : exists h', Fix [1; 9; 5; 7] 1 = Some h' /\ h' ≡ₚ [1; 9; 5; 7] /\ is_heap h'.
Proof. apply (heap_fix_restores (lt := Z.ltb) (I := slice_interface) [1; 9; 5; 7] [1; 2; 5; 7] 1 9); [by apply (slice_heap _ 4)|vm_compute; split; congruence|reflexivity]. Defined.
