(* ===== verification/Sort.v ===== *)
(** Sorting and searching: src/src/sort/sort.rs, zsortinterface.rs, search.rs and slice.rs.

    [sort.Interface] is a trait that the user implements; here it is the class [Interface], whose
    laws are the documented behaviour of its three methods on the sequence of elements.  The
    algorithms are written against the class, as the code is against the trait.  Indices are i64
    ([int]); up to 2^61 elements their sums stay in range.  A [while] loop carries fuel and is
    [None] without it; a loop that counts an index up or down to a bound recurs on the distance. *)
From Stdlib Require Import ZArith Lia.
From stdpp Require Import base tactics numbers list list_numbers option sorting.
From S2P Require Import Prelude HeapOrder.
Open Scope Z_scope.

(** [sort.Interface], with the sequence of elements it stands for. *)
Class Interface (D Item : Type) (lt : Item -> Item -> bool) := {
  Len : D -> Z;
  Less : D -> Z -> Z -> bool;
  Swap : D -> Z -> Z -> D;
  elems : D -> list Item;
  Len_ok : forall d, Len d = zlen (elems d);
  Less_ok : forall d i j x y, idx (elems d) i = Some x -> idx (elems d) j = Some y -> Less d i j = lt x y;
  Swap_ok : forall d i j, 0 <= i < zlen (elems d) -> 0 <= j < zlen (elems d) -> elems (Swap d i j) = swapped (elems d) i j
}.

(** [toint((touint(i) + touint(j)) >> 1)]. *)
Definition half (i j : Z) : Z := shr64 (add64 (wrap64 i) (wrap64 j)) 1.

(** ** sort.rs *)

Section sort.
  Context {D Item : Type} {lt : Item -> Item -> bool} `{I : Interface D Item lt}.

(** Each iteration at least doubles [r]. *)
Fixpoint sift_loop (fuel : nat) (d : D) (r end_ : Z) : option D :=
  match fuel with
  | O => None
  | S fuel =>
      let child := r * 2 + 1 in
      if decide (child >= end_) then Some d
      else
        let child := if decide (child + 1 < end_ /\ Less d child (child + 1) = true) then child + 1 else child in
        if decide (Less d r child = false) then Some d else sift_loop fuel (Swap d r child) child end_
  end.
Definition siftDown (d : D) (root end_ : Z) : option D := sift_loop (S (Z.to_nat (end_ - root))) d root end_.

(** Phase 1, from [start] down to 0. *)
Fixpoint heapify_loop (start : nat) (d : D) (n : Z) : option D :=
  d ← siftDown d (Z.of_nat start) n;
  match start with O => Some d | S start => heapify_loop start d n end.

(** Phase 2, [while end > 0]. *)
Fixpoint drain_loop (end_ : nat) (d : D) : option D :=
  match end_ with
  | O => Some d
  | S e => d ← siftDown (Swap d 0 (Z.of_nat end_)) 0 (Z.of_nat end_); drain_loop e d
  end.

Definition Sort (d : D) : option D :=
  let n := Len d in
  if decide (n <= 1) then Some d
  else d ← heapify_loop (Z.to_nat (Z.quot (n - 1) 2)) d n; drain_loop (Z.to_nat (n - 1)) d.

(** [while i > 0]. *)
Fixpoint is_sorted_loop (i : nat) (d : D) : bool :=
  match i with
  | O => true
  | S i' => if Less d (Z.of_nat i) (Z.of_nat i - 1) then false else is_sorted_loop i' d
  end.
Definition IsSorted (d : D) : bool := is_sorted_loop (Z.to_nat (Len d - 1)) d.

(** ** zsortinterface.rs *)

(** [while j > a && data.Less(j, j - 1)], [j] being [a + k]. *)
Fixpoint insert_loop (k : nat) (d : D) (a : Z) : D :=
  match k with
  | O => d
  | S k' => let j := a + Z.of_nat k in if Less d j (j - 1) then insert_loop k' (Swap d j (j - 1)) a else d
  end.

(** [while i < b], [k] iterations from [i] on. *)
Fixpoint insertion_loop (k : nat) (d : D) (a i : Z) : D :=
  match k with
  | O => d
  | S k => insertion_loop k (insert_loop (Z.to_nat (i - a)) d a) a (i + 1)
  end.
Definition insertionSort (d : D) (a b : Z) : D := insertion_loop (Z.to_nat (b - (a + 1))) d a (a + 1).

Fixpoint swap_range_loop (k : nat) (d : D) (a b i : Z) : D :=
  match k with
  | O => d
  | S k => swap_range_loop k (Swap d (a + i) (b + i)) a b (i + 1)
  end.
Definition swapRange (d : D) (a b n : Z) : D := swap_range_loop (Z.to_nat n) d a b 0.

(** [while i != j]. *)
Fixpoint rotate_loop (fuel : nat) (d : D) (m i j : Z) : option D :=
  match fuel with
  | O => None
  | S fuel =>
      if decide (i = j) then Some (swapRange d (m - i) m i)
      else if decide (i > j) then rotate_loop fuel (swapRange d (m - i) m j) m (i - j) j
      else rotate_loop fuel (swapRange d (m - i) (m + j - i) i) m i (j - i)
  end.
Definition rotate (d : D) (a m b : Z) : option D := rotate_loop (Z.to_nat (b - a)) d m (m - a) (b - m).

(** The binary searches [while i < j] of [symMerge]: up to where [go h] holds. *)
Fixpoint bisect (fuel : nat) (go : Z -> bool) (i j : Z) : option Z :=
  match fuel with
  | O => None
  | S fuel =>
      if decide (i < j) then
        let h := half i j in
        if go h then bisect fuel go (h + 1) j else bisect fuel go i h
      else Some i
  end.

(** [while k < i - 1 { Swap(k, k + 1); k += 1 }]. *)
Fixpoint walk_up (n : nat) (d : D) (k : Z) : D :=
  match n with O => d | S n => walk_up n (Swap d k (k + 1)) (k + 1) end.

(** [while k > i { Swap(k, k - 1); k -= 1 }]. *)
Fixpoint walk_down (n : nat) (d : D) (k : Z) : D :=
  match n with O => d | S n => walk_down n (Swap d k (k - 1)) (k - 1) end.

(** A range of less than 2^63 indices is halved 63 times at most. *)
Definition bisections : nat := 64.

Fixpoint sym_merge (fuel : nat) (d : D) (a m b : Z) : option D :=
  match fuel with
  | O => None
  | S fuel =>
      if decide (m - a = 1) then
        i ← bisect bisections (fun h => Less d h a) m b;
        Some (walk_up (Z.to_nat (i - 1 - a)) d a)
      else if decide (b - m = 1) then
        i ← bisect bisections (fun h => negb (Less d m h)) a m;
        Some (walk_down (Z.to_nat (m - i)) d m)
      else
        let mid := half a b in
        let n := mid + m in
        let '(start, r) := if decide (m > mid) then (n - b, mid) else (a, m) in
        let p := n - 1 in
        start ← bisect bisections (fun c => negb (Less d (p - c) c)) start r;
        let end_ := n - start in
        d ← (if decide (start < m /\ m < end_) then rotate d start m end_ else Some d);
        d ← (if decide (a < start /\ start < mid) then sym_merge fuel d a start mid else Some d);
        if decide (mid < end_ /\ end_ < b) then sym_merge fuel d mid end_ b else Some d
  end.
Definition symMerge (d : D) (a m b : Z) : option D := sym_merge (Z.to_nat (b - a)) d a m b.

(** The first loop of [stable], [while b <= n], and the last block. *)
Fixpoint block_loop (fuel : nat) (d : D) (block_size a b n : Z) : option D :=
  match fuel with
  | O => None
  | S fuel =>
      if decide (b <= n) then block_loop fuel (insertionSort d a b) block_size b (b + block_size) n
      else Some (insertionSort d a n)
  end.

(** One pass of merges, [while b <= n], and the last merge. *)
Fixpoint merge_pass (fuel : nat) (d : D) (block_size a b n : Z) : option D :=
  match fuel with
  | O => None
  | S fuel =>
      if decide (b <= n) then d ← symMerge d a (a + block_size) b; merge_pass fuel d block_size b (b + 2 * block_size) n
      else
        let m := a + block_size in
        if decide (m < n) then symMerge d a m n else Some d
  end.

(** [while blockSize < n]. *)
Fixpoint merge_loop (fuel : nat) (d : D) (block_size n : Z) : option D :=
  match fuel with
  | O => None
  | S fuel =>
      if decide (block_size < n) then
        d ← merge_pass (S (Z.to_nat n)) d block_size 0 (2 * block_size) n;
        merge_loop fuel d (block_size * 2) n
      else Some d
  end.

Definition stable (d : D) (n : Z) : option D :=
  let block_size := 20 in
  d ← block_loop (S (Z.to_nat n)) d block_size 0 block_size n;
  merge_loop (S (Z.to_nat n)) d block_size n.

Definition Stable (d : D) : option D := stable d (Len d).
End sort.

(** [sort.Reverse]. *)
Record Reverse (D : Type) := mkReverse { inner : D }.
Arguments mkReverse {D} _.
Arguments inner {D} _.

#[export] Instance reverse_interface {D Item lt} (I : Interface D Item lt) : Interface (Reverse D) Item (fun x y => lt y x).
Proof.
  refine {| Len r := Len (inner r); Less r i j := Less (inner r) j i; Swap r i j := mkReverse (Swap (inner r) i j); elems r := elems (inner r) |}.
  - intros. apply Len_ok.
  - intros. by apply Less_ok.
  - intros. by apply Swap_ok.
Defined.

(** [IntSlice] and [StringSlice]: a slice, with the order of its elements. *)
Definition slice_less {A} (lt : A -> A -> bool) (l : list A) (i j : Z) : bool :=
  match idx l i, idx l j with Some x, Some y => lt x y | _, _ => false end.

Definition slice_interface {A} (lt : A -> A -> bool) : Interface (list A) A lt.
Proof.
  refine {| Len := zlen; Less := slice_less lt; Swap := swapped; elems l := l |}; try done.
  intros l i j x y Ex Ey. unfold slice_less. by rewrite Ex, Ey.
Defined.

Definition IntSlice : Interface (list Z) Z Z.ltb := slice_interface Z.ltb.

(** The order of byte slices. *)
Fixpoint bytes_lt (x y : list Z) : bool :=
  match x, y with
  | _, [] => false
  | [], _ :: _ => true
  | a :: x, b :: y => if a <? b then true else if b <? a then false else bytes_lt x y
  end.

Definition StringSlice : Interface (list (list Z)) (list Z) bytes_lt := slice_interface bytes_lt.

(** [IntsAreSorted] and [StringsAreSorted]: [while i > 1], [i] being [k + 1]. *)
Fixpoint are_sorted_loop {A} (lt : A -> A -> bool) (k : nat) (raw : list A) : bool :=
  match k with
  | O => true
  | S k' => if slice_less lt raw (Z.of_nat k) (Z.of_nat k - 1) then false else are_sorted_loop lt k' raw
  end.
Definition IntsAreSorted (x : list Z) : bool := are_sorted_loop Z.ltb (Nat.pred (length x)) x.
Definition StringsAreSorted (x : list (list Z)) : bool := are_sorted_loop bytes_lt (Nat.pred (length x)) x.

(** ** search.rs *)

(** [while i < j]; an [int] range is halved 63 times at most. *)
Fixpoint search_loop (fuel : nat) (f : Z -> bool) (i j : Z) : option Z :=
  match fuel with
  | O => None
  | S fuel =>
      if decide (i < j) then
        let h := half i j in
        if negb (f h) then search_loop fuel f (h + 1) j else search_loop fuel f i h
      else Some i
  end.
Definition Search (n : Z) (f : Z -> bool) : option Z := search_loop bisections f 0 n.

Fixpoint find_loop (fuel : nat) (cmp : Z -> Z) (i j : Z) : option Z :=
  match fuel with
  | O => None
  | S fuel =>
      if decide (i < j) then
        let h := half i j in
        if decide (cmp h > 0) then find_loop fuel cmp (h + 1) j else find_loop fuel cmp i h
      else Some i
  end.
Definition Find (n : Z) (cmp : Z -> Z) : option (Z * bool) :=
  i ← find_loop bisections cmp 0 n;
  Some (i, bool_decide (i < n) && (cmp i =? 0)).

(** [raw[i] >= x]; the index is in range at every call. *)
Definition at_least {A} (lt : A -> A -> bool) (raw : list A) (x : A) (i : Z) : bool :=
  match idx raw i with Some y => negb (lt y x) | None => true end.
Definition SearchInts (a : list Z) (x : Z) : option Z := Search (zlen a) (at_least Z.ltb a x).
Definition SearchStrings (a : list (list Z)) (x : list Z) : option Z := Search (zlen a) (at_least bytes_lt a x).

(** ** slice.rs *)

Section slice.
  Context {T : Type}.
  (** The closure reads the slice as it is at the call. *)
  Variable less : list T -> Z -> Z -> bool.

Fixpoint sift_down (fuel : nat) (x : list T) (r end_ : Z) : option (list T) :=
  match fuel with
  | O => None
  | S fuel =>
      let child := r * 2 + 1 in
      if decide (child >= end_) then Some x
      else
        let child := if decide (child + 1 < end_ /\ less x child (child + 1) = true) then child + 1 else child in
        if decide (less x r child = false) then Some x else sift_down fuel (swapped x r child) child end_
  end.

Fixpoint slice_heapify (start : nat) (x : list T) (n : Z) : option (list T) :=
  x ← sift_down (S (Z.to_nat (n - Z.of_nat start))) x (Z.of_nat start) n;
  match start with O => Some x | S start => slice_heapify start x n end.

Fixpoint slice_drain (end_ : nat) (x : list T) : option (list T) :=
  match end_ with
  | O => Some x
  | S e => x ← sift_down (S (Z.to_nat (Z.of_nat end_ - 0))) (swapped x 0 (Z.of_nat end_)) 0 (Z.of_nat end_); slice_drain e x
  end.

Definition Slice (x : list T) : option (list T) :=
  let n := zlen x in
  if decide (n <= 1) then Some x
  else x ← slice_heapify (Z.to_nat (Z.quot (n - 1) 2)) x n; slice_drain (Z.to_nat (n - 1)) x.

(** [slice::sort_by] of the standard library, which is stable. *)
Fixpoint insert_by (cmp : Z -> Z -> comparison) (x : Z) (l : list Z) : list Z :=
  match l with
  | [] => [x]
  | y :: l' => match cmp x y with Gt => y :: insert_by cmp x l' | _ => x :: l end
  end.
Definition sort_by (cmp : Z -> Z -> comparison) (l : list Z) : list Z := foldr (insert_by cmp) [] l.

(** The comparison of two indices. *)
Definition index_cmp (x : list T) (a b : Z) : comparison :=
  if less x a b then Lt else if less x b a then Gt else Eq.

(** The inner [loop] of the permutation: one cycle, from [j] until it is back at [i]. *)
Fixpoint cycle (fuel : nat) (ix : list Z) (i j : Z) (s : list bool * list T) : option (list bool * list T) :=
  match fuel with
  | O => None
  | S fuel =>
      let '(done, x) := s in
      k ← idx ix j;
      done ← upd done j true;
      if decide (k = i) then Some (done, x) else cycle fuel ix i k (done, swapped x j k)
  end.

(** [for i in 0..n]. *)
Definition permute_at (ix : list Z) (i : Z) (s : list bool * list T) : option (list bool * list T) :=
  let '(done, x) := s in
  di ← idx done i;
  ki ← idx ix i;
  if decide (di = true \/ ki = i) then done ← upd done i true; Some (done, x)
  else cycle (length ix) ix i i (done, x).

Definition SliceStable (x : list T) : option (list T) :=
  let n := zlen x in
  if decide (n <= 1) then Some x
  else
    let ix := sort_by (index_cmp x) (seqZ 0 n) in
    '(_, x) ← for_range 0 n (permute_at ix) (replicate (Z.to_nat n) false, x);
    Some x.

(** [while i < n], [k] iterations from [i] on. *)
Fixpoint slice_sorted_loop (k : nat) (x : list T) (i : Z) : bool :=
  match k with
  | O => true
  | S k => if less x i (i - 1) then false else slice_sorted_loop k x (i + 1)
  end.
Definition SliceIsSorted (x : list T) : bool := slice_sorted_loop (Z.to_nat (zlen x - 1)) x 1.
End slice.
