(* ===== verification/StableSpec.v ===== *)
(** [Stable] of src/src/sort/zsortinterface.rs sorts and is stable.

    The elements are tagged with their positions.  On the ranges [stable] compares, [Less] of a
    later and an earlier element is the order by element and then by tag, so that it sorts by a
    total order, and elements that compare equal end up in the order of their tags. *)
From Stdlib Require Import ZArith Lia.
From stdpp Require Import base tactics numbers list list_numbers option sorting sets.
From S2P Require Import Prelude HeapOrder Sort.
Open Scope Z_scope.

(** ** Binary search *)

Lemma half_ok i j : 0 <= i <= j -> j < 2 ^ 63 -> half i j = (i + j) / 2.
Proof. intros Hi Hj. unfold half. rewrite !wrap64_small by lia. rewrite add64_small by lia. rewrite shr64_div by lia. done. Qed.

(** The search ends at a place where [go] changes, or at an end of the range. *)
Lemma bisect_ok go : forall fuel i j, 0 <= i <= j -> j < 2 ^ 63 -> j - i < 2 ^ Z.of_nat fuel ->
  exists k, bisect (S fuel) go i j = Some k /\ i <= k <= j /\ (k = i \/ go (k - 1) = true) /\ (k = j \/ go k = false).
Proof.
  induction fuel as [|fuel IH]; intros i j Hi Hj Hf; cbn [bisect].
  { cbn in Hf. rewrite decide_False by lia. exists i. split_and!; try done; lia. }
  destruct (decide (i < j)) as [Hlt|Hge]; [|exists i; split_and!; try done; lia]. rewrite half_ok by lia. set (h := (i + j) / 2). assert (i <= h < j) as Hh by (subst h; lia).
  rewrite Nat2Z.inj_succ, Z.pow_succ_r in Hf by lia. destruct (go h) eqn:E.
  - destruct (IH (h + 1) j) as (k & Ek & Hk & Hl & Hr); [lia|lia|subst h; lia|]. exists k. split_and!; [done|lia|lia| |done]. right. destruct Hl as [->|]; [|done]. by rewrite Z.add_simpl_r.
  - destruct (IH i h) as (k & Ek & Hk & Hl & Hr); [lia|lia|subst h; lia|]. exists k. split_and!; [done|lia|lia|done|]. right. by destruct Hr as [->|].
Qed.

Lemma bisections_ok go i j : 0 <= i <= j -> j < 2 ^ 63 ->
  exists k, bisect bisections go i j = Some k /\ i <= k <= j /\ (k = i \/ go (k - 1) = true) /\ (k = j \/ go k = false).
Proof. intros Hi Hj. apply (bisect_ok go 63); [done|done|change (Z.of_nat 63) with 63; lia]. Qed.

(** ** Sequences split in the middle *)

Lemma zlen_nil {A} : zlen (@nil A) = 0.
Proof. done. Qed.

Lemma zlen_cons' {A} (x : A) l : zlen (x :: l) = 1 + zlen l.
Proof. unfold zlen. cbn [length]. lia. Qed.

Lemma zlen_zero {A} (l : list A) : zlen l = 0 -> l = [].
Proof. destruct l; [done|]. rewrite zlen_cons'. pose proof (zlen_nonneg l). lia. Qed.

Create HintDb zlen_simp.
#[export] Hint Rewrite @zlen_app @zlen_cons' @zlen_nil : zlen_simp.
Ltac zlens := autorewrite with zlen_simp in *.

Lemma idx_mid {A} (p : list A) x q i : i = zlen p -> idx (p ++ x :: q) i = Some x.
Proof. intros ->. apply idx_Some. unfold zlen. split; [lia|]. rewrite Nat2Z.id. by apply list_lookup_middle. Qed.

Lemma swapped_comm {A} (l : list A) i j : swapped l i j = swapped l j i.
Proof.
  unfold swapped. destruct (idx l i) as [x|] eqn:Ei, (idx l j) as [y|] eqn:Ej; try done. destruct (decide (i = j)) as [->|Hn]; [congruence|].
  apply idx_Some in Ei as [? _]. apply idx_Some in Ej as [? _]. apply list_insert_insert_ne. lia.
Qed.

Lemma swapped_mid {A} (p : list A) x q y r i j : i = zlen p -> j = zlen p + 1 + zlen q ->
  swapped (p ++ x :: q ++ y :: r) i j = p ++ y :: q ++ x :: r.
Proof.
  intros -> ->. unfold swapped. rewrite (idx_mid p x (q ++ y :: r)) by done. rewrite app_comm_cons, app_assoc, (idx_mid (p ++ x :: q) y r) by (zlens; lia).
  rewrite <- app_assoc, <- app_comm_cons. unfold zlen. rewrite insert_app_r_alt, Nat2Z.id, Nat.sub_diag by lia. cbn [list_insert insert].
  rewrite insert_app_r_alt by lia. replace (Z.to_nat _ - length p)%nat with (S (length q)) by lia. cbn [list_insert insert]. f_equal. f_equal.
  change (<[length q := x]> (q ++ y :: r) = q ++ x :: r). rewrite insert_app_r_alt by lia. by rewrite Nat.sub_diag.
Qed.

(** [l] cut at [k]. *)
Lemma zsplit {A} (l : list A) k : 0 <= k <= zlen l -> exists l1 l2, l = l1 ++ l2 /\ zlen l1 = k.
Proof. unfold zlen. intros Hk. exists (take (Z.to_nat k) l), (drop (Z.to_nat k) l). split; [by rewrite take_drop|]. rewrite length_take. lia. Qed.

(** ** Tagged elements *)

Section stable.
  Context {D Item : Type} {lt : Item -> Item -> bool} `{I : Interface D Item lt} `{!StrictWeak lt}.
  Notation elt := (Item * nat)%type.
  Implicit Types (d : D) (t u v w p r : list elt).

(** The order by element and then by tag. *)
Definition ord (x y : elt) : Prop := lt x.1 y.1 = true \/ lt y.1 x.1 = false /\ (x.2 < y.2)%nat.
Definition tags (x y : elt) : Prop := (x.2 < y.2)%nat.
Definition cross u v : Prop := forall x y, x ∈ u -> y ∈ v -> tags x y.
Definition below u v : Prop := forall x y, x ∈ u -> y ∈ v -> ord x y.
Notation sorted := (StronglySorted ord).

Lemma ord_leq x y : ord x y -> lt y.1 x.1 = false.
Proof. intros [Hl|[Hl _]]; [by apply sw_asym|done]. Qed.

Lemma ord_trans x y z : ord x y -> ord y z -> ord x z.
Proof.
  intros Hxy Hyz. pose proof (ord_leq _ _ Hxy) as L1. pose proof (ord_leq _ _ Hyz) as L2. pose proof (sw_trans _ _ _ L1 L2) as L3. destruct (lt x.1 z.1) eqn:E; [by left|right].
  assert (lt x.1 y.1 = false) as E1 by exact (sw_trans _ _ _ L2 E). assert (lt y.1 z.1 = false) as E2 by exact (sw_trans _ _ _ E L1). destruct Hxy as [|[_ ?]]; [congruence|]. destruct Hyz as [|[_ ?]]; [congruence|]. split; [done|lia].
Qed.

(** [Less] of a later and an earlier element. *)
Lemma less_ord x y : tags x y -> if lt y.1 x.1 then ord y x else ord x y.
Proof. intros Ht. destruct (lt y.1 x.1) eqn:E; [by left|by right]. Qed.

Definition holds d t : Prop := elems d = t.*1.

Lemma idx_fmap {A B} (f : A -> B) (l : list A) i : idx (f <$> l) i = f <$> idx l i.
Proof. unfold idx. case_decide; [apply list_lookup_fmap|done]. Qed.

Lemma less_holds d t i j x y : holds d t -> idx t i = Some x -> idx t j = Some y -> Less d i j = lt x.1 y.1.
Proof. intros Hd Hi Hj. apply Less_ok; rewrite Hd, idx_fmap; by rewrite ?Hi, ?Hj. Qed.

Lemma swap_holds d p x q y r i j : holds d (p ++ x :: q ++ y :: r) -> i = zlen p -> j = zlen p + 1 + zlen q ->
  holds (Swap d i j) (p ++ y :: q ++ x :: r) /\ holds (Swap d j i) (p ++ y :: q ++ x :: r).
Proof.
  intros Hd Hi Hj. pose proof (zlen_nonneg p). pose proof (zlen_nonneg q). pose proof (zlen_nonneg r).
  assert (zlen (elems d) = zlen p + 1 + zlen q + 1 + zlen r) as Hl by (rewrite Hd; unfold zlen; rewrite length_fmap, length_app; cbn [length]; rewrite length_app; cbn [length]; lia).
  assert (swapped (elems d) i j = (p ++ y :: q ++ x :: r).*1) as E.
  { rewrite Hd, !fmap_app, !fmap_cons, !fmap_app, !fmap_cons. apply swapped_mid; unfold zlen in *; rewrite ?length_fmap; done. }
  unfold holds. rewrite !Swap_ok by lia. rewrite (swapped_comm _ j i). done.
Qed.

(** ** Insertion sort *)

Lemma insert_loop_ok x r p : forall s1 s2 d, holds d (p ++ s1 ++ x :: s2 ++ r) -> sorted (s1 ++ s2) -> Forall (ord x) s2 -> cross s1 [x] ->
  exists s, holds (insert_loop (length s1) d (zlen p)) (p ++ s ++ r) /\ s ≡ₚ x :: s1 ++ s2 /\ sorted s.
Proof.
  induction s1 as [|y s1 IH] using rev_ind; intros s2 d Hd Hs H2 Hc.
  { exists (x :: s2). split_and!; [done|done|]. by constructor. }
  rewrite length_app, Nat.add_1_r. cbn [insert_loop]. replace (zlen p + Z.of_nat (S (length s1))) with (zlen p + 1 + zlen s1) by (unfold zlen; lia).
  assert (Less d (zlen p + 1 + zlen s1) (zlen p + 1 + zlen s1 - 1) = lt x.1 y.1) as ->.
  { eapply less_holds; [exact Hd| |].
    - rewrite app_assoc. apply idx_mid. zlens. lia.
    - rewrite <- app_assoc, app_assoc. cbn [app]. apply idx_mid. zlens. lia. }
  assert (tags y x) as Ht by (apply Hc; set_solver). pose proof (less_ord y x Ht) as Ho. rewrite <- app_assoc in Hs. cbn [app] in Hs. pose proof Hs as (Hys & Hs1 & Hs2)%StronglySorted_app.
  destruct (lt x.1 y.1).
  - rewrite <- app_assoc in Hd. cbn [app] in Hd. rewrite app_assoc in Hd.
    destruct (swap_holds d (p ++ s1) y [] x (s2 ++ r) (zlen p + 1 + zlen s1 - 1) (zlen p + 1 + zlen s1) Hd) as [_ Hd']; [zlens; lia|zlens; lia|]. cbn [app] in Hd'. rewrite <- app_assoc in Hd'.
    destruct (IH (y :: s2) _ Hd') as (s & Hh & Hp & Hss); [done|by constructor|intros a b Ha Hb; apply Hc; set_solver|]. exists s. split_and!; [done| |done]. rewrite Hp. by rewrite <- app_assoc.
  - exists ((s1 ++ [y]) ++ x :: s2). split_and!; [rewrite <- !app_assoc in *; cbn [app] in *; by rewrite <- ?app_assoc|by rewrite <- Permutation_middle|]. rewrite <- app_assoc. cbn [app]. apply StronglySorted_app. split_and!; [|done|].
    + intros a b Ha [->|[->|Hb]%elem_of_cons]%elem_of_cons; [by apply Hys; [|left]| |apply Hys; [done|by right]]. eapply ord_trans; [apply Hys; [done|left]|done].
    + apply StronglySorted_inv in Hs2 as [Hs2 Hf]. constructor; [by constructor|by apply list.Forall_cons].
Qed.

Lemma insertion_loop_ok r p : forall w s d, holds d (p ++ s ++ w ++ r) -> sorted s -> StronglySorted tags w -> cross s w ->
  exists s', holds (insertion_loop (length w) d (zlen p) (zlen p + zlen s)) (p ++ s' ++ r) /\ s' ≡ₚ s ++ w /\ sorted s'.
Proof.
  induction w as [|x w IH]; intros s d Hd Hs Hw Hc; cbn [length insertion_loop].
  { exists s. rewrite app_nil_r. done. }
  apply StronglySorted_inv in Hw as [Hw Hx]. rewrite Z.add_simpl_l. unfold zlen at 1. rewrite Nat2Z.id.
  destruct (insert_loop_ok x (w ++ r) p s [] d) as (s' & Hd' & Hp & Hs'); [done|by rewrite app_nil_r|done|intros a b Ha ->%list_elem_of_singleton; apply Hc; [done|left]|]. rewrite app_nil_r in Hp.
  destruct (IH s' _ Hd' Hs' Hw) as (s'' & Hd'' & Hp' & Hs''); [intros a b Ha Hb; rewrite Hp in Ha; apply elem_of_cons in Ha as [->|Ha]; [rewrite list.Forall_forall in Hx; auto|apply Hc; [done|by right]]|].
  exists s''. split_and!; [|by rewrite Hp', Hp, <- Permutation_middle|done]. replace (zlen p + zlen s + 1) with (zlen p + zlen s'); [done|]. unfold zlen. rewrite Hp. cbn [length]. lia.
Qed.

(** On a range in the order of the tags. *)
Lemma insertionSort_ok d p w r b : holds d (p ++ w ++ r) -> StronglySorted tags w -> b = zlen p + zlen w ->
  exists s, holds (insertionSort d (zlen p) b) (p ++ s ++ r) /\ s ≡ₚ w /\ sorted s.
Proof.
  intros Hd Hw ->. unfold insertionSort. destruct w as [|x w]; [exists []; zlens; replace (Z.to_nat _) with 0%nat by lia; split_and!; [done|done|constructor]|].
  apply StronglySorted_inv in Hw as [Hw Hx]. destruct (insertion_loop_ok r p w [x] d) as (s & Hd' & Hp & Hs); [done|by repeat constructor|done| |].
  { intros a b ->%list_elem_of_singleton Hb. rewrite list.Forall_forall in Hx. auto. }
  exists s. zlens. replace (Z.to_nat _) with (length w) by (unfold zlen; lia). rewrite Z.add_0_r in Hd'. done.
Qed.

(** ** Rotation *)

Lemma swap_range_loop_ok r : forall x y p q d a b i, holds d (p ++ x ++ q ++ y ++ r) -> length x = length y -> a + i = zlen p -> b + i = zlen p + zlen x + zlen q ->
  holds (swap_range_loop (length x) d a b i) (p ++ y ++ q ++ x ++ r).
Proof.
  induction x as [|x0 x IH]; intros [|y0 y] p q d a b i Hd Hl Ha Hb; try done. cbn [length swap_range_loop]. injection Hl as Hl.
  replace (p ++ (x0 :: x) ++ q ++ (y0 :: y) ++ r) with (p ++ x0 :: (x ++ q) ++ y0 :: (y ++ r)) in Hd by (cbn [app]; by rewrite <- app_assoc).
  destruct (swap_holds d p x0 (x ++ q) y0 (y ++ r) (a + i) (b + i) Hd) as [Hd' _]; [done|zlens; lia|].
  specialize (IH y (p ++ [y0]) (q ++ [x0]) (Swap d (a + i) (b + i)) a b (i + 1)). rewrite <- !app_assoc in IH. cbn [app] in *. apply IH; [by rewrite <- app_assoc in Hd'|done|zlens; lia|zlens; lia].
Qed.

Lemma swapRange_ok d p x q y r a b n : holds d (p ++ x ++ q ++ y ++ r) -> zlen x = n -> zlen y = n -> a = zlen p -> b = zlen p + n + zlen q ->
  holds (swapRange d a b n) (p ++ y ++ q ++ x ++ r).
Proof.
  intros Hd Hx Hy -> ->. unfold swapRange. replace (Z.to_nat n) with (length x) by (unfold zlen in *; lia). apply swap_range_loop_ok; [done|unfold zlen in *; lia|lia|lia].
Qed.

Lemma rotate_loop_ok : forall fuel p u v r d m, holds d (p ++ u ++ v ++ r) -> u <> [] -> v <> [] -> m = zlen p + zlen u -> (length u + length v <= fuel)%nat ->
  exists d', rotate_loop fuel d m (zlen u) (zlen v) = Some d' /\ holds d' (p ++ v ++ u ++ r).
Proof.
  induction fuel as [|fuel IH]; intros p u v r d m Hd Hu Hv -> Hf; [destruct u; cbn in Hf; [done|lia]|]. assert (0 < zlen u) by (destruct u; [done|]; zlens; pose proof (zlen_nonneg u); lia).
  assert (0 < zlen v) by (destruct v; [done|]; zlens; pose proof (zlen_nonneg v); lia). cbn [rotate_loop]. destruct (decide (zlen u = zlen v)) as [E|Hne].
  { eexists. split; [done|]. apply (swapRange_ok d p u [] v r); [done|done|done|lia|zlens; lia]. }
  destruct (decide (zlen u > zlen v)) as [Hgt|Hle].
  - destruct (zsplit u (zlen v)) as (u1 & u2 & -> & H1); [lia|]. zlens. assert (u2 <> []) as Hu2 by (intros ->; zlens; lia).
    destruct (IH (p ++ v) u2 u1 r (swapRange d (zlen p + (zlen u1 + zlen u2) - (zlen u1 + zlen u2)) (zlen p + (zlen u1 + zlen u2)) (zlen v)) (zlen p + (zlen u1 + zlen u2))) as (d' & E & Hd').
    + rewrite <- !app_assoc in *. apply (swapRange_ok d p u1 u2 v r); try done; lia.
    + done.
    + intros ->. zlens. lia.
    + zlens. lia.
    + rewrite length_app in Hf. unfold zlen in *. lia.
    + exists d'. rewrite <- !app_assoc in *. split; [|done]. rewrite <- E. f_equal; lia.
  - destruct (zsplit v (zlen v - zlen u)) as (v1 & v2 & -> & H1); [lia|]. zlens. assert (v1 <> []) as Hv1 by (intros ->; zlens; lia).
    destruct (IH p v2 v1 (u ++ r) (swapRange d (zlen p + zlen u - zlen u) (zlen p + zlen u + (zlen v1 + zlen v2) - zlen u) (zlen u)) (zlen p + zlen u)) as (d' & E & Hd').
    + rewrite <- !app_assoc in *. apply (swapRange_ok d p u v1 v2 r); try done; lia.
    + intros ->. zlens. lia.
    + done.
    + lia.
    + rewrite length_app in Hf. unfold zlen in *. lia.
    + exists d'. rewrite <- !app_assoc in *. split; [|done]. rewrite <- E. f_equal; lia.
Qed.

Lemma rotate_ok d p u v r a m b : holds d (p ++ u ++ v ++ r) -> u <> [] -> v <> [] -> a = zlen p -> m = a + zlen u -> b = m + zlen v ->
  exists d', rotate d a m b = Some d' /\ holds d' (p ++ v ++ u ++ r).
Proof.
  intros Hd Hu Hv -> -> ->. unfold rotate. replace (zlen p + zlen u - zlen p) with (zlen u) by lia. replace (zlen p + zlen u + zlen v - (zlen p + zlen u)) with (zlen v) by lia.
  apply rotate_loop_ok; try done. unfold zlen. lia.
Qed.

(** ** Merging *)

Lemma below_ends u v : sorted u -> sorted v -> (forall u' x y v', u = u' ++ [x] -> v = y :: v' -> ord x y) -> below u v.
Proof.
  intros Hu Hv He x y Hx Hy. destruct u as [|x0 u _] using rev_ind; [by apply not_elem_of_nil in Hx|]. destruct v as [|y0 v]; [by apply not_elem_of_nil in Hy|].
  specialize (He u x0 y0 v eq_refl eq_refl). apply StronglySorted_app in Hu as (Hu & _ & _). apply StronglySorted_inv in Hv as [_ Hv]. rewrite list.Forall_forall in Hv.
  assert (x = x0 \/ ord x x0) as Hxx by (apply elem_of_app in Hx as [Hx| ->%list_elem_of_singleton]; [right; apply Hu; [done|left]|by left]).
  assert (y = y0 \/ ord y0 y) as Hyy by (apply elem_of_cons in Hy as [->|Hy]; [by left|right; auto]). destruct Hxx as [->|Hxx], Hyy as [->|Hyy]; eauto using ord_trans.
Qed.

Lemma sorted_app u v : sorted u -> sorted v -> below u v -> sorted (u ++ v).
Proof. intros. by apply StronglySorted_app. Qed.

Lemma below_app_l u v w : below (u ++ v) w <-> below u w /\ below v w.
Proof. unfold below. split; [intros H0; split; intros; apply H0; set_solver|]. intros [H1 H2] x y [Hx|Hx]%elem_of_app Hy; eauto. Qed.

Lemma below_app_r u v w : below w (u ++ v) <-> below w u /\ below w v.
Proof. unfold below. split; [intros H0; split; intros; apply H0; set_solver|]. intros [H1 H2] x y Hx [Hy|Hy]%elem_of_app; eauto. Qed.

Lemma below_perm u u' v v' : u' ≡ₚ u -> v' ≡ₚ v -> below u v -> below u' v'.
Proof. intros Hu Hv Hb x y Hx Hy. rewrite Hu in Hx. rewrite Hv in Hy. auto. Qed.

Lemma cross_mono u u' v v' : cross u v -> u' ⊆ u -> v' ⊆ v -> cross u' v'.
Proof. intros Hc Hu Hv x y Hx Hy. apply Hc; auto. Qed.

(** The element [x] moves up over [v]. *)
Lemma walk_up_ok x r : forall v p d, holds d (p ++ x :: v ++ r) -> holds (walk_up (length v) d (zlen p)) (p ++ v ++ x :: r).
Proof.
  induction v as [|y v IH]; intros p d Hd; [done|]. cbn [length walk_up app] in *. destruct (swap_holds d p x [] y (v ++ r) (zlen p) (zlen p + 1) Hd) as [Hd' _]; [done|zlens; lia|]. cbn [app] in Hd'.
  specialize (IH (p ++ [y]) (Swap d (zlen p) (zlen p + 1))). rewrite <- !app_assoc in IH. zlens. rewrite Z.add_0_r in IH. by apply IH.
Qed.

Lemma walk_down_ok x r : forall v p d, holds d (p ++ v ++ x :: r) -> holds (walk_down (length v) d (zlen p + zlen v)) (p ++ x :: v ++ r).
Proof.
  intros v. revert r. induction v as [|y v IH] using rev_ind; intros r p d Hd; [done|]. rewrite length_app, Nat.add_1_r. cbn [length walk_down]. rewrite <- app_assoc, app_assoc in Hd. cbn [app] in Hd. zlens.
  destruct (swap_holds d (p ++ v) y [] x r (zlen p + (zlen v + (1 + 0)) - 1) (zlen p + (zlen v + (1 + 0))) Hd) as [_ Hd']; [zlens; lia|zlens; lia|]. cbn [app] in Hd'. rewrite <- app_assoc in Hd'.
  replace (zlen p + (zlen v + (1 + 0)) - 1) with (zlen p + zlen v) in * by lia. rewrite <- app_assoc. by apply (IH (y :: r)).
Qed.

(** The end of a search where [p] is split by [i]: what is before and what is after. *)
Lemma merge_left d p x v r m b : holds d (p ++ x :: v ++ r) -> sorted v -> cross [x] v -> zlen (p ++ x :: v ++ r) < 2 ^ 61 -> m = zlen p + 1 -> b = m + zlen v ->
  exists i w, bisect bisections (fun h => Less d h (zlen p)) m b = Some i /\ holds (walk_up (Z.to_nat (i - 1 - zlen p)) d (zlen p)) (p ++ w ++ r) /\ w ≡ₚ x :: v /\ sorted w.
Proof.
  intros Hd Hv Hc Hl -> ->. zlens. pose proof (zlen_nonneg p). pose proof (zlen_nonneg v). pose proof (zlen_nonneg r).
  destruct (bisections_ok (fun h => Less d h (zlen p)) (zlen p + 1) (zlen p + 1 + zlen v)) as (i & -> & Hi & Hlo & Hhi); [lia|lia|]. exists i.
  destruct (zsplit v (i - 1 - zlen p)) as (v1 & v2 & -> & Hk); [lia|]. zlens. exists (v1 ++ x :: v2). split_and!; [done| |by rewrite <- Permutation_middle|].
  { rewrite <- Hk. unfold zlen at 1. rewrite Nat2Z.id. rewrite <- !app_assoc in *. by apply walk_up_ok. }
  pose proof Hv as (Hb & Hv1 & Hv2)%StronglySorted_app. assert (idx (p ++ x :: (v1 ++ v2) ++ r) (zlen p) = Some x) as Ex by (by apply idx_mid).
  apply sorted_app; [done| |].
  - constructor; [done|]. apply list.Forall_forall. intros y Hy. apply (below_ends [x] v2); [by repeat constructor|done| |by apply list_elem_of_singleton|done].
    intros u' x' y' v' Eu Ev. symmetry in Eu. apply app_singleton in Eu as [[-> [= ->]]|[-> ?]]; [|done]. subst v2. zlens. destruct Hhi as [->|Hhi]; [pose proof (zlen_nonneg v'); lia|].
    rewrite (less_holds d _ _ _ y' x Hd) in Hhi; [|rewrite <- !app_assoc, app_comm_cons, app_assoc; apply idx_mid; zlens; lia|done]. pose proof (less_ord x y') as Ho. rewrite Hhi in Ho. apply Ho. apply Hc; set_solver.
  - apply below_app_r with (u := [x]) (v := v2). split; [|done]. apply below_ends; [done|by repeat constructor|]. intros u' x' y' v' Eu [= <- <-]. subst v1. zlens. destruct Hlo as [->|Hlo]; [pose proof (zlen_nonneg u'); lia|].
    rewrite (less_holds d _ _ _ x' x Hd) in Hlo; [|rewrite <- !app_assoc, app_comm_cons, app_assoc; cbn [app]; apply idx_mid; zlens; lia|done]. by left.
Qed.

Lemma merge_right d p u y r a m : holds d (p ++ u ++ y :: r) -> sorted u -> cross u [y] -> zlen (p ++ u ++ y :: r) < 2 ^ 61 -> a = zlen p -> m = a + zlen u ->
  exists i w, bisect bisections (fun h => negb (Less d m h)) a m = Some i /\ holds (walk_down (Z.to_nat (m - i)) d m) (p ++ w ++ r) /\ w ≡ₚ u ++ [y] /\ sorted w.
Proof.
  intros Hd Hu Hc Hl -> ->. zlens. pose proof (zlen_nonneg p). pose proof (zlen_nonneg u). pose proof (zlen_nonneg r).
  destruct (bisections_ok (fun h => negb (Less d (zlen p + zlen u) h)) (zlen p) (zlen p + zlen u)) as (i & -> & Hi & Hlo & Hhi); [lia|lia|]. exists i.
  destruct (zsplit u (i - zlen p)) as (u1 & u2 & -> & Hk); [lia|]. zlens. exists (u1 ++ y :: u2). split_and!; [done| |by rewrite <- app_assoc, (Permutation_app_comm u2)|].
  { replace (zlen p + (zlen u1 + zlen u2) - i) with (zlen u2) by lia. unfold zlen at 1. rewrite Nat2Z.id. rewrite <- !app_assoc in *. rewrite app_assoc in *.
    replace (zlen p + (zlen u1 + zlen u2)) with (zlen (p ++ u1) + zlen u2) by (zlens; lia). by apply walk_down_ok. }
  pose proof Hu as (Hb & Hu1 & Hu2)%StronglySorted_app. assert (idx (p ++ (u1 ++ u2) ++ y :: r) (zlen p + (zlen u1 + zlen u2)) = Some y) as Ey by (rewrite app_assoc; apply idx_mid; zlens; lia).
  apply sorted_app; [done| |].
  - constructor; [done|]. apply list.Forall_forall. intros x Hx. apply (below_ends [y] u2); [by repeat constructor|done| |by apply list_elem_of_singleton|done].
    intros u' x' y' v' Eu Ev. symmetry in Eu. apply app_singleton in Eu as [[-> [= ->]]|[-> ?]]; [|done]. subst u2. zlens. destruct Hhi as [->|Hhi%negb_false_iff]; [pose proof (zlen_nonneg v'); lia|].
    rewrite (less_holds d _ _ _ y y' Hd) in Hhi; [by left|done|]. rewrite <- !app_assoc, app_assoc. cbn [app]. apply idx_mid. zlens. lia.
  - apply below_app_r with (u := [y]) (v := u2). split; [|done]. apply below_ends; [done|by repeat constructor|]. intros u' x' y' v' Eu [= <- <-]. subst u1. zlens. destruct Hlo as [->|Hlo%negb_true_iff]; [pose proof (zlen_nonneg u'); lia|].
    rewrite (less_holds d _ _ _ y x' Hd) in Hlo; [|done|rewrite <- !app_assoc, app_assoc; cbn [app]; apply idx_mid; zlens; lia]. pose proof (less_ord x' y) as Ho. rewrite Hlo in Ho. apply Ho. apply Hc; set_solver.
Qed.

(** The search of [symMerge] for the place to cut both runs. *)
Definition cut d (a m b start : Z) : Prop :=
  let n := half a b + m in
  let '(lo, hi) := if decide (m > half a b) then (n - b, half a b) else (a, m) in
  bisect bisections (fun c => negb (Less d (n - 1 - c) c)) lo hi = Some start.

(** Cut there, all of the left parts is below all of the right parts. *)
Lemma cut_ok d p u v r a m b : holds d (p ++ u ++ v ++ r) -> sorted u -> sorted v -> cross u v -> zlen (p ++ u ++ v ++ r) < 2 ^ 61 -> 1 < zlen u -> 1 < zlen v ->
  a = zlen p -> m = a + zlen u -> b = m + zlen v ->
  exists start u1 u2 v1 v2, cut d a m b start /\ u = u1 ++ u2 /\ v = v1 ++ v2 /\ start = a + zlen u1 /\ zlen u1 + zlen v1 = half a b - a /\ half a b = (a + b) / 2 /\ below (u1 ++ v1) (u2 ++ v2).
Proof.
  intros Hd Hu Hv Hc Hl Hu1 Hv1 Ha Hm Hb. zlens. pose proof (zlen_nonneg p). pose proof (zlen_nonneg r). pose proof (half_ok a b ltac:(lia) ltac:(lia)) as Eh. unfold cut. set (mid := half a b) in *. set (n := mid + m).
  set (lo := if decide (m > mid) then n - b else a). set (hi := if decide (m > mid) then mid else m).
  assert (a <= lo /\ lo <= hi /\ hi <= m /\ n - b <= lo /\ hi <= mid) as (L1 & L2 & L3 & L4 & L5) by (subst lo hi n; case_decide; lia).
  assert (m > mid /\ lo = n - b /\ hi = mid \/ m <= mid /\ lo = a /\ hi = m) as Hcase by (subst lo hi; case_decide; lia).
  destruct (bisections_ok (fun c => negb (Less d (n - 1 - c) c)) lo hi) as (start & E & Hs & Hlo & Hhi); [lia|lia|].
  destruct (zsplit u (start - a)) as (u1 & u2 & -> & Eu1); [lia|]. destruct (zsplit v (mid - start)) as (v1 & v2 & -> & Ev1); [subst n; lia|]. zlens.
  exists start, u1, u2, v1, v2. split_and!; [subst lo hi; by case_decide|done|done|lia|lia|done|]. clear E Eh.
  pose proof Hu as (Bu & Su1 & Su2)%StronglySorted_app. pose proof Hv as (Bv & Sv1 & Sv2)%StronglySorted_app. apply below_app_l. rewrite !below_app_r. split_and!; [done| | |done].
  - apply below_ends; [done|done|]. intros u' x y v' -> ->. zlens. pose proof (zlen_nonneg u'). pose proof (zlen_nonneg v'). destruct Hlo as [->|Hlo%negb_true_iff]; [subst n; lia|].
    rewrite (less_holds d _ _ _ y x Hd) in Hlo.
    + pose proof (less_ord x y) as Ho. rewrite Hlo in Ho. apply Ho. apply Hc; set_solver.
    + rewrite <- !app_assoc. rewrite !app_assoc. cbn [app]. rewrite <- (app_assoc _ (y :: v')). apply idx_mid. zlens. subst n. lia.
    + rewrite <- !app_assoc. cbn [app]. rewrite app_assoc. apply idx_mid. zlens. lia.
  - apply below_ends; [done|done|]. intros v' x y u' -> ->. zlens. pose proof (zlen_nonneg u'). pose proof (zlen_nonneg v'). destruct Hhi as [->|Hhi%negb_false_iff]; [subst n; lia|].
    rewrite (less_holds d _ _ _ x y Hd) in Hhi.
    + by left.
    + replace (p ++ (u1 ++ y :: u') ++ ((v' ++ [x]) ++ v2) ++ r) with ((p ++ u1 ++ y :: u' ++ v') ++ x :: v2 ++ r) by (rewrite <- !app_assoc; cbn [app]; by rewrite <- !app_assoc). apply idx_mid. zlens. subst n. lia.
    + rewrite <- !app_assoc. cbn [app]. rewrite app_assoc. apply idx_mid. zlens. lia.
Qed.

(** What a call on [p ++ u ++ v ++ r] does. *)
Definition merges (f : D -> Z -> Z -> Z -> option D) d p u v r : Prop :=
  exists d' w, f d (zlen p) (zlen p + zlen u) (zlen p + zlen u + zlen v) = Some d' /\ holds d' (p ++ w ++ r) /\ w ≡ₚ u ++ v /\ sorted w.

(** A recursive call under its guard. *)
Lemma guarded_merge f d p u v r : (u <> [] -> v <> [] -> merges f d p u v r) -> holds d (p ++ u ++ v ++ r) -> sorted u -> sorted v ->
  merges (fun d a m b => if decide (a < m /\ m < b) then f d a m b else Some d) d p u v r.
Proof.
  intros Hf Hd Hu Hv. unfold merges. pose proof (zlen_nonneg u). pose proof (zlen_nonneg v). destruct (decide _) as [[H1 H2]|Hn].
  - apply Hf; intros ->; zlens; lia.
  - exists d, (u ++ v). split_and!; [done|by rewrite <- app_assoc|done|]. assert (u = [] \/ v = []) as [-> | ->]; [|done|by rewrite app_nil_r].
    destruct (decide (zlen u = 0)) as [?%zlen_zero|]; [by left|]. right. apply zlen_zero. lia.
Qed.

(** The cut and the rotation. *)
Lemma cut_step fuel d a m b start : cut d a m b start -> m - a <> 1 -> b - m <> 1 ->
  sym_merge (S fuel) d a m b =
    (let mid := half a b in let end_ := mid + m - start in
     d ← (if decide (start < m /\ m < end_) then rotate d start m end_ else Some d);
     d ← (if decide (a < start /\ start < mid) then sym_merge fuel d a start mid else Some d);
     if decide (mid < end_ /\ end_ < b) then sym_merge fuel d mid end_ b else Some d).
Proof.
  intros Hc Hm Hb. unfold cut in Hc. cbv zeta in Hc. cbn [sym_merge]. rewrite decide_False, decide_False by done. cbv zeta. by destruct (decide (m > half a b)); rewrite Hc; rewrite some_bind.
Qed.

Lemma guarded_rotate d p u v r a m b : holds d (p ++ u ++ v ++ r) -> a = zlen p -> m = a + zlen u -> b = m + zlen v ->
  exists d', (if decide (a < m /\ m < b) then rotate d a m b else Some d) = Some d' /\ holds d' (p ++ v ++ u ++ r).
Proof.
  intros Hd Ha Hm Hb. pose proof (zlen_nonneg u). pose proof (zlen_nonneg v). destruct (decide _) as [[H1 H2]|Hn].
  - apply rotate_ok; try done; intros ->; zlens; lia.
  - exists d. split; [done|]. assert (u = [] \/ v = []) as [-> | ->]; [|done|done]. destruct (decide (zlen u = 0)) as [?%zlen_zero|]; [by left|]. right. apply zlen_zero. lia.
Qed.

Lemma zlen_pos {A} (l : list A) : l <> [] -> 0 < zlen l.
Proof. intros Hl. destruct l as [|x l]; [done|]. rewrite zlen_cons'. pose proof (zlen_nonneg l). lia. Qed.

Lemma zlen_one {A} (l : list A) : zlen l = 1 -> exists x, l = [x].
Proof. destruct l as [|x l]; [done|]. rewrite zlen_cons'. intros E. exists x. f_equal. apply zlen_zero. lia. Qed.

Lemma sym_merge_ok : forall fuel d p u v r, holds d (p ++ u ++ v ++ r) -> sorted u -> sorted v -> cross u v -> zlen (p ++ u ++ v ++ r) < 2 ^ 61 -> u <> [] -> v <> [] ->
  (length u + length v <= fuel)%nat -> merges (sym_merge fuel) d p u v r.
Proof.
  induction fuel as [|fuel IH]; intros d p u v r Hd Hu Hv Hc Hl Hu0 Hv0 Hf; [destruct u; cbn in Hf; [done|lia]|]. pose proof (zlen_pos u Hu0). pose proof (zlen_pos v Hv0). unfold merges.
  destruct (decide (zlen u = 1)) as [[x ->]%zlen_one|Hu1].
  { cbn [sym_merge]. rewrite decide_True by (zlens; lia). destruct (merge_left d p x v r (zlen p + zlen [x]) (zlen p + zlen [x] + zlen v)) as (i & w & -> & Hw); [done..|zlens; lia|lia|]. eauto. }
  destruct (decide (zlen v = 1)) as [[y ->]%zlen_one|Hv1].
  { cbn [sym_merge]. rewrite decide_False by lia. rewrite decide_True by (zlens; lia). destruct (merge_right d p u y r (zlen p) (zlen p + zlen u)) as (i & w & -> & Hw); [done..|]. eauto. }
  destruct (cut_ok d p u v r _ _ _ Hd Hu Hv Hc Hl ltac:(lia) ltac:(lia) eq_refl eq_refl eq_refl) as (start & u1 & u2 & v1 & v2 & Hcut & -> & -> & Es & Hn & Eh & Hb).
  rewrite (cut_step _ _ _ _ _ _ Hcut) by lia. set (mid := half _ _) in *. cbv zeta. pose proof Hu as (_ & Su1 & Su2)%StronglySorted_app. pose proof Hv as (_ & Sv1 & Sv2)%StronglySorted_app.
  zlens. destruct (guarded_rotate d (p ++ u1) u2 v1 (v2 ++ r) start (zlen p + (zlen u1 + zlen u2)) (mid + (zlen p + (zlen u1 + zlen u2)) - start)) as (d1 & -> & Hd1); [by rewrite <- !app_assoc in *|zlens; lia|lia|lia|]. rewrite some_bind.
  pose proof (zlen_nonneg u1). pose proof (zlen_nonneg u2). pose proof (zlen_nonneg v1). pose proof (zlen_nonneg v2).
  destruct (guarded_merge (sym_merge fuel) d1 p u1 v1 (u2 ++ v2 ++ r)) as (d2 & w1 & E2 & Hd2 & P1 & S1); [|by rewrite <- !app_assoc in *|done|done|].
  { intros. apply IH; try done; [by rewrite <- !app_assoc in *|eapply cross_mono; [exact Hc|set_solver..]|zlens; lia|unfold zlen in *; rewrite !length_app in Hf; lia]. }
  replace (zlen p + zlen u1 + zlen v1) with mid in E2 by lia. rewrite Es, E2, some_bind. assert (zlen w1 = zlen u1 + zlen v1) as Ew by (unfold zlen; rewrite P1, length_app; lia).
  destruct (guarded_merge (sym_merge fuel) d2 (p ++ w1) u2 v2 r) as (d3 & w2 & E3 & Hd3 & P2 & S2); [|by rewrite <- !app_assoc in *|done|done|].
  { intros. apply IH; try done; [by rewrite <- !app_assoc in *|eapply cross_mono; [exact Hc|set_solver..]|zlens; lia|unfold zlen in *; rewrite !length_app in Hf; lia]. }
  zlens. exists d3, (w1 ++ w2). split_and!; [|by rewrite <- !app_assoc in *| |apply sorted_app; [done|done|by eapply below_perm]].
  - replace (zlen p + zlen w1) with mid in E3 by lia. rewrite <- E3. by replace (mid + (zlen p + (zlen u1 + zlen u2)) - (zlen p + zlen u1)) with (mid + zlen u2) by lia; replace (zlen p + (zlen u1 + zlen u2) + (zlen v1 + zlen v2)) with (mid + zlen u2 + zlen v2) by lia.
  - rewrite P1, P2. solve_Permutation.
Qed.

Lemma symMerge_ok d p u v r m b : holds d (p ++ u ++ v ++ r) -> sorted u -> sorted v -> cross u v -> zlen (p ++ u ++ v ++ r) < 2 ^ 61 -> u <> [] -> v <> [] ->
  m = zlen p + zlen u -> b = m + zlen v -> exists d' w, symMerge d (zlen p) m b = Some d' /\ holds d' (p ++ w ++ r) /\ w ≡ₚ u ++ v /\ sorted w.
Proof. intros Hd Hu Hv Hc Hl Hu0 Hv0 -> ->. apply sym_merge_ok; try done. unfold zlen. lia. Qed.

(** ** The passes *)

(** [t] is made of sorted blocks of [bs] elements, the last one of at most [bs]; each is a
    permutation of the same positions of [t0]. *)
Inductive runs (bs : Z) : list elt -> list elt -> Prop :=
| runs_last t0 t : zlen t <= bs -> t ≡ₚ t0 -> sorted t -> runs bs t0 t
| runs_cons w0 w t0 t : zlen w = bs -> w ≡ₚ w0 -> sorted w -> runs bs t0 t -> runs bs (w0 ++ t0) (w ++ t).

Lemma runs_perm bs t0 t : runs bs t0 t -> t ≡ₚ t0.
Proof. induction 1 as [|w0 w t0 t _ Hw _ _ IH]; [done|]. by rewrite Hw, IH. Qed.

(** A full block can be taken off. *)
Lemma runs_block bs t0 t : runs bs t0 t -> 0 < bs <= zlen t -> exists w0 w t0' t', t0 = w0 ++ t0' /\ t = w ++ t' /\ zlen w = bs /\ w ≡ₚ w0 /\ sorted w /\ runs bs t0' t'.
Proof.
  intros [t0' t' Hl Hp Hs|w0 w t0' t' Hw Hp Hs Hr] Hb.
  - exists t0', t', [], []. rewrite !app_nil_r. split_and!; try done; [lia|]. apply runs_last; [zlens; lia|done|constructor].
  - by exists w0, w, t0', t'.
Qed.

Lemma runs_short bs t0 t : runs bs t0 t -> 0 < bs -> zlen t <= bs -> sorted t.
Proof.
  intros [t0' t' Hl0 Hp Hs|w0 w t0' t' Hw Hp Hs Hr] Hb Hl; [done|]. zlens. assert (t' = []) as -> by (apply zlen_zero; pose proof (zlen_nonneg t'); lia). by rewrite app_nil_r.
Qed.

Lemma block_loop_ok bs n : 0 < bs -> forall fuel p t0 d, holds d (p ++ t0) -> StronglySorted tags t0 -> n = zlen p + zlen t0 -> zlen t0 < Z.of_nat fuel ->
  exists d' t, block_loop fuel d bs (zlen p) (zlen p + bs) n = Some d' /\ holds d' (p ++ t) /\ runs bs t0 t.
Proof.
  intros Hbs. induction fuel as [|fuel IH]; intros p t0 d Hd Ht Hn Hf; [pose proof (zlen_nonneg t0); lia|]. cbn [block_loop]. destruct (decide _) as [Hle|Hgt].
  - destruct (zsplit t0 bs) as (w0 & t1 & -> & Hw0); [lia|]. zlens. pose proof Ht as (_ & Htw & Ht1)%StronglySorted_app.
    destruct (insertionSort_ok d p w0 t1 (zlen p + bs) Hd Htw) as (w & Hd' & Hp & Hs); [lia|]. assert (zlen w = bs) as Hw by (unfold zlen in *; by rewrite Hp).
    destruct (IH (p ++ w) t1 (insertionSort d (zlen p) (zlen p + bs))) as (d' & t & E & Hh & Hr); [by rewrite <- app_assoc|done|zlens; lia|lia|]. zlens. rewrite Hw in E.
    exists d', (w ++ t). split_and!; [done|by rewrite app_assoc|by apply runs_cons].
  - destruct (insertionSort_ok d p t0 [] n) as (w & Hd' & Hp & Hs); [by rewrite app_nil_r|done|done|]. rewrite app_nil_r in Hd'. eexists _, w. split_and!; [done|done|]. apply runs_last; [unfold zlen in *; rewrite Hp; lia|done|done].
Qed.

Lemma cross_perm u u0 v v0 : u ≡ₚ u0 -> v ≡ₚ v0 -> cross u0 v0 -> cross u v.
Proof. intros Hu Hv Hc x y Hx Hy. rewrite Hu in Hx. rewrite Hv in Hy. auto. Qed.

Lemma merge_pass_ok bs n : 0 < bs -> n < 2 ^ 61 -> forall fuel p t0 t d, holds d (p ++ t) -> StronglySorted tags t0 -> runs bs t0 t -> n = zlen p + zlen t -> zlen t < Z.of_nat fuel ->
  exists d' t', merge_pass fuel d bs (zlen p) (zlen p + 2 * bs) n = Some d' /\ holds d' (p ++ t') /\ runs (2 * bs) t0 t'.
Proof.
  intros Hbs Hn. induction fuel as [|fuel IH]; intros p t0 t d Hd Ht Hr En Hf; [pose proof (zlen_nonneg t); lia|]. cbn [merge_pass]. destruct (decide (zlen p + 2 * bs <= n)) as [Hle|Hgt].
  - destruct (runs_block bs t0 t Hr) as (u0 & u & t1 & t' & -> & -> & Eu & Pu & Su & Hr1); [lia|]. zlens. destruct (runs_block bs t1 t' Hr1) as (v0 & v & t2 & t3 & -> & -> & Ev & Pv & Sv & Hr2); [lia|]. zlens.
    pose proof Ht as (Hc & _ & Ht1)%StronglySorted_app. apply StronglySorted_app in Ht1 as (_ & _ & Ht2).
    destruct (symMerge_ok d p u v t3 (zlen p + bs) (zlen p + 2 * bs)) as (d1 & w & -> & Hd1 & Pw & Sw); [done..| | | | |lia|lia|].
    { apply (cross_perm _ u0 _ v0); [done|done|]. intros x y Hx Hy. apply Hc; set_solver. }
    { zlens. lia. } { intros ->; zlens; lia. } { intros ->; zlens; lia. }
    rewrite some_bind. assert (zlen w = 2 * bs) as Ew by (unfold zlen in *; rewrite Pw, length_app; lia).
    destruct (IH (p ++ w) t2 t3 d1) as (d' & t' & E & Hh & Hr'); [by rewrite <- app_assoc|done|done|zlens; lia|lia|]. zlens. rewrite Ew in E. exists d', (w ++ t'). split_and!; [done|by rewrite app_assoc|].
    rewrite app_assoc. apply runs_cons; [done|by rewrite Pw, Pu, Pv|done|done].
  - destruct (decide (zlen p + bs < n)) as [Hlt|Hge].
    + pose proof (runs_perm _ _ _ Hr) as Hp0. destruct (runs_block bs t0 t Hr) as (u0 & u & t1 & t' & -> & -> & Eu & Pu & Su & Hr1); [lia|]. zlens. pose proof (runs_short bs t1 t' Hr1 Hbs ltac:(lia)) as Sv. pose proof (runs_perm _ _ _ Hr1) as Pv.
      pose proof Ht as (Hc & _ & _)%StronglySorted_app. destruct (symMerge_ok d p u t' [] (zlen p + bs) n) as (d1 & w & -> & Hd1 & Pw & Sw); [by rewrite app_nil_r|done|done|by apply (cross_perm _ u0 _ t1)|zlens; lia|intros ->; zlens; lia|intros ->; zlens; lia|lia|lia|].
      rewrite app_nil_r in Hd1. exists d1, w. split_and!; [done|done|]. apply runs_last; [unfold zlen in *; rewrite Pw, length_app; lia|by rewrite Pw|done].
    + exists d, t. split_and!; [done|done|]. apply runs_last; [lia|by eapply runs_perm|apply (runs_short bs t0 t); [done|done|lia]].
Qed.

Lemma merge_passes_ok n : n < 2 ^ 61 -> forall fuel bs t0 t d, holds d t -> StronglySorted tags t0 -> runs bs t0 t -> n = zlen t -> 0 < bs -> n <= bs + Z.of_nat fuel ->
  exists d' t', merge_loop (S fuel) d bs n = Some d' /\ holds d' t' /\ t' ≡ₚ t0 /\ sorted t'.
Proof.
  intros Hn. induction fuel as [|fuel IH]; intros bs t0 t d Hd Ht Hr En Hb Hf; cbn [merge_loop]; fold (@merge_loop D Item lt I).
  - rewrite decide_False by lia. exists d, t. split_and!; [done|done|by eapply runs_perm|apply (runs_short bs t0 t); [done|done|lia]].
  - destruct (decide (bs < n)) as [Hlt|Hge]; [|exists d, t; split_and!; [done|done|by eapply runs_perm|apply (runs_short bs t0 t); [done|done|lia]]].
    destruct (merge_pass_ok bs n Hb Hn (S (Z.to_nat n)) [] t0 t d Hd Ht Hr) as (d1 & t1 & E & Hd1 & Hr1); [done|lia|]. change (zlen []) with 0 in E. rewrite Z.add_0_l in E. rewrite E, some_bind.
    replace (bs * 2) with (2 * bs) by lia. apply (IH (2 * bs) t0 t1 d1); try done; [|lia|lia]. rewrite En. unfold zlen. by rewrite (runs_perm _ _ _ Hr), (runs_perm _ _ _ Hr1).
Qed.

Definition tagged (l : list Item) : list elt := zip l (seq 0 (length l)).

Lemma tagged_fst l : (tagged l).*1 = l.
Proof. apply fst_zip. by rewrite length_seq. Qed.

Lemma tagged_sorted l : StronglySorted tags (tagged l).
Proof.
  unfold tagged. generalize 0%nat. induction l as [|x l IH]; intros k; [constructor|]. cbn. constructor; [apply IH|]. apply list.Forall_forall. intros [y j] Hy. apply elem_of_zip_r, elem_of_seq in Hy. unfold tags. cbn. lia.
Qed.

(** Elements that compare equal. *)
Definition eqv (x y : Item) : Prop := lt x y = false /\ lt y x = false.
#[global] Instance eqv_dec x y : Decision (eqv x y).
Proof. unfold eqv. apply _. Defined.

Lemma filter_fst (P : Item -> Prop) `{!forall x, Decision (P x)} t : filter P t.*1 = (filter (fun x => P x.1) t).*1.
Proof. induction t as [|x t IH]; [done|]. rewrite fmap_cons, !filter_cons. destruct (decide (P x.1)); rewrite ?fmap_cons; by rewrite IH. Qed.

Lemma sorted_filter {A} (R : relation A) (P : A -> Prop) `{!forall x, Decision (P x)} l : StronglySorted R l -> StronglySorted R (filter P l).
Proof. induction 1 as [|x l Hs IH Hx]; [constructor|]. rewrite filter_cons. case_decide; [|done]. constructor; [done|]. rewrite list.Forall_forall in *. intros y [_ Hy]%list_elem_of_filter. auto. Qed.

(** Elements that compare equal are in the order of their tags. *)
Lemma sorted_tags x t : sorted t -> StronglySorted tags (filter (fun y => eqv x y.1) t).
Proof.
  intros Hs%(sorted_filter _ (fun y => eqv x y.1)). assert (Forall (fun y => eqv x y.1) (filter (fun y => eqv x y.1) t)) as Hf by (apply list.Forall_forall; intros y; by rewrite list_elem_of_filter; intros [? _]).
  induction Hs as [|y l Hs IH Hy]; [constructor|]. apply list.Forall_cons in Hf as [[E1 E2] Hf]. constructor; [by apply IH|]. rewrite !list.Forall_forall in *. intros z Hz. destruct (Hf z Hz) as [E3 E4].
  destruct (Hy z Hz) as [Hl|[_ Ht]]; [|done]. rewrite (sw_trans _ _ _ E3 E2) in Hl. done.
Qed.

Lemma Stable_ok d : zlen (elems d) < 2 ^ 61 -> exists d' t, Stable d = Some d' /\ holds d' t /\ t ≡ₚ tagged (elems d) /\ sorted t.
Proof.
  intros Hl. unfold Stable, stable. rewrite Len_ok. set (n := zlen (elems d)) in *. pose proof (zlen_nonneg (elems d)) as H0. fold n in H0. set (t0 := tagged (elems d)).
  assert (zlen t0 = n) as E0 by (unfold t0, n, tagged, zlen; rewrite length_zip_with, length_seq; lia).
  destruct (block_loop_ok 20 n ltac:(lia) (S (Z.to_nat n)) [] t0 d) as (d1 & t1 & E1 & Hd1 & Hr1); [unfold holds; symmetry; apply tagged_fst|apply tagged_sorted|done|lia|].
  change (zlen []) with 0 in E1. rewrite Z.add_0_l in E1. rewrite E1, some_bind. apply (merge_passes_ok n Hl (Z.to_nat n) 20 t0 t1); try done; [apply tagged_sorted| |lia]. rewrite <- E0. unfold zlen. by rewrite (runs_perm _ _ _ Hr1).
Qed.

(** What a permutation of the tagged elements sorted by [ord] is. *)
Lemma tagged_stable l t : t ≡ₚ tagged l -> sorted t -> t.*1 ≡ₚ l /\ StronglySorted (leq (lt := lt)) t.*1 /\ forall x, filter (eqv x) t.*1 = filter (eqv x) l.
Proof.
  intros Hp Hs. split_and!; [by rewrite Hp, tagged_fst| |].
  - eapply StronglySorted_fmap; [|exact Hs]. intros x y Ho. by apply ord_leq.
  - intros x. rewrite <- (tagged_fst l), !filter_fst. f_equal. eapply (StronglySorted_unique_strong tags).
    + intros y z _ _ H1 H2. unfold tags in *. lia.
    + by apply sorted_tags.
    + apply sorted_filter, tagged_sorted.
    + by rewrite Hp.
Qed.

(** C29: [Stable] returns on every collection of less than 2^61 elements, and leaves its elements sorted
    by [Less]; those that compare equal stay in the order they had. *)
Theorem stable_sorts d : zlen (elems d) < 2 ^ 61 ->
  exists d', Stable d = Some d' /\ elems d' ≡ₚ elems d /\ StronglySorted (leq (lt := lt)) (elems d') /\ forall x, filter (eqv x) (elems d') = filter (eqv x) (elems d).
Proof.
  intros Hl. destruct (Stable_ok d Hl) as (d' & t & E & Hd & Hp & Hs). exists d'. split; [done|]. unfold holds in Hd. rewrite Hd. by apply tagged_stable.
Qed.
End stable.

(** Pairs by their first component. *)
Definition key_lt (x y : Z * Z) : bool := x.1 <? y.1.

#[export] Instance key_strict_weak : StrictWeak key_lt.
Proof. split; unfold key_lt; intros *; rewrite ?Z.ltb_lt, ?Z.ltb_ge; lia. Qed.

(** Forty-five pairs, with three different keys: three blocks. *)
Definition three_keys : list (Z * Z) := map (fun i => (i mod 3, i)) (seqZ 0 45).

Lemma stable_sorts_witness : Stable (I := slice_interface key_lt) three_keys = Some (map (fun i => (0, 3 * i)) (seqZ 0 15) ++ map (fun i => (1, 3 * i + 1)) (seqZ 0 15) ++ map (fun i => (2, 3 * i + 2)) (seqZ 0 15)) /\
  exists d', Stable (I := slice_interface key_lt) three_keys = Some d' /\ d' ≡ₚ three_keys /\ StronglySorted (leq (lt := key_lt)) d' /\ forall x, filter (eqv (lt := key_lt) x) d' = filter (eqv (lt := key_lt) x) three_keys.
Proof. split; [vm_compute; reflexivity|]. apply (stable_sorts (I := slice_interface key_lt) three_keys). vm_compute. reflexivity. Defined.
