(* ===== verification/SortSpec.v ===== *)
(** [Sort], [IsSorted], [Reverse], the searches and the functions on slices of src/src/sort. *)
From Stdlib Require Import ZArith Lia.
From stdpp Require Import base tactics numbers list list_numbers option sorting sets.
From S2P Require Import Prelude Threads HeapOrder Sort StableSpec.
Open Scope Z_scope.

(** ** Heap sort *)

#[export] Instance flip_strict_weak {A} (lt : A -> A -> bool) `{!StrictWeak lt} : StrictWeak (fun x y => lt y x).
Proof. split; intros x y; [apply sw_asym|]. intros z H1 H2. by eapply sw_trans. Qed.

Section heapsort.
  Context {D Item : Type} {lt : Item -> Item -> bool} `{I : Interface D Item lt} `{!StrictWeak lt}.
  Implicit Types d : D.
  (** The heap has its greatest element at the root. *)
  Notation gt := (fun x y => lt y x).
  Notation le_at := (le_at (lt := gt)).
  Notation heap_from := (heap_from (lt := gt)).
  Notation hole := (hole (lt := gt)).

(** [d'] has the elements of [d], those from [n] on in place. *)
Definition sifted (n : Z) d d' : Prop := elems d' ≡ₚ elems d /\ (forall c, n <= c -> idx (elems d') c = idx (elems d) c).

Lemma sift_trans n d1 d2 d3 : sifted n d1 d2 -> sifted n d2 d3 -> sifted n d1 d3.
Proof. intros [P1 E1] [P2 E2]. split; [by rewrite P2|]. intros c Hc. by rewrite E2, E1. Qed.

Lemma sift_len n d d' : sifted n d d' -> zlen (elems d') = zlen (elems d).
Proof. intros [P _]. unfold zlen. by rewrite P. Qed.

Lemma sift_swap n d i j : 0 <= i < n -> 0 <= j < n -> n <= zlen (elems d) -> sifted n d (Swap d i j).
Proof.
  intros Hi Hj Hn. unfold sifted. rewrite Swap_ok by lia. split; [apply swapped_perm|]. intros c Hc. rewrite idx_swapped by lia. by rewrite decide_False, decide_False by lia.
Qed.

Lemma not_less_le d i j : 0 <= i < zlen (elems d) -> 0 <= j < zlen (elems d) -> Less d i j = false -> le_at (elems d) i j.
Proof. intros Hi Hj HL x y Ex Ey. unfold leq. by rewrite <- (Less_ok d i j x y). Qed.

Lemma less_above d i j : 0 <= i < zlen (elems d) -> 0 <= j < zlen (elems d) -> Less d i j = true -> le_at (elems d) j i.
Proof. intros Hi Hj HL x y Ex Ey. apply sw_asym. by rewrite <- (Less_ok d i j y x). Qed.

(** The child compared with: the greater of the two. *)
Lemma greater_child d r n : let c1 := r * 2 + 1 in let j := if decide (c1 + 1 < n /\ Less d c1 (c1 + 1) = true) then c1 + 1 else c1 in
  0 <= r -> c1 < n -> n <= zlen (elems d) -> 0 < j < n /\ parent j = r /\ (forall c, 0 < c < n -> parent c = r -> le_at (elems d) j c).
Proof.
  intros c1 j Hr Hc Hn. assert (forall a, 0 <= a < n -> le_at (elems d) a a) as Hrefl by (intros a Ha x y Ex Ey; assert (x = y) as -> by congruence; apply leq_refl).
  assert (forall c, 0 < c < n -> parent c = r -> c = c1 \/ c = c1 + 1) as Hcs by (unfold parent; lia). subst j. destruct (decide _) as [[H2 HL]|HL].
  - split_and!; [lia|lia|unfold parent; lia|]. intros c Hcn Hp. destruct (Hcs c Hcn Hp) as [-> | ->]; [apply less_above; auto; lia|apply Hrefl; lia].
  - split_and!; [lia|lia|unfold parent; lia|]. intros c Hcn Hp. destruct (Hcs c Hcn Hp) as [-> | ->]; [apply Hrefl; lia|]. apply not_less_le; [lia|lia|].
    destruct (Less d c1 (c1 + 1)) eqn:E; [|done]. exfalso. apply HL. split; [lia|done].
Qed.

Lemma sift_loop_ok k n : 0 <= k -> forall fuel d r, hole (elems d) k n r true -> 0 <= r -> n <= zlen (elems d) -> (Z.to_nat (n - r) < fuel)%nat ->
  exists d', sift_loop fuel d r n = Some d' /\ sifted n d d' /\ heap_from (elems d') k n.
Proof.
  intros Hk. induction fuel as [|fuel IH]; intros d r Hh Hr Hn Hf; [lia|]. cbn [sift_loop]. destruct (decide _) as [Hge|Hlt].
  { exists d. split_and!; [done|done|]. eapply hole_filled; [done|done|]. intros c Hc Hp. unfold parent in Hp. lia. }
  pose proof (greater_child d r n) as Hg. cbv zeta in Hg. set (j := if decide _ then _ else _) in *. destruct Hg as (Hj & Hp & Hmax); [done|lia|done|]. pose proof (parent_range j ltac:(lia)).
  destruct (decide (Less d r j = false)) as [Hno|Hyes].
  - exists d. split_and!; [done|done|]. eapply hole_filled; [done|done|]. intros c Hc Hpc. apply (le_at_trans _ _ j); [lia|apply not_less_le; [lia|lia|done]|by apply Hmax].
  - apply not_false_iff_true in Hyes. assert (elems (Swap d r j) = swapped (elems d) r j) as Es by (apply Swap_ok; lia). destruct (IH (Swap d r j) j) as (d' & E & Hs & Hheap).
    + rewrite Es. eapply hole_down; try done. apply less_above; [lia|lia|done].
    + lia.
    + by rewrite Es, zlen_swapped.
    + lia.
    + exists d'. split_and!; [done| |done]. eapply sift_trans; [|exact Hs]. apply sift_swap; lia.
Qed.

Lemma siftDown_ok d k r n : hole (elems d) k n r true -> 0 <= k -> 0 <= r -> n <= zlen (elems d) -> exists d', siftDown d r n = Some d' /\ sifted n d d' /\ heap_from (elems d') k n.
Proof. intros Hh Hk Hr Hn. apply sift_loop_ok; try done. lia. Qed.

Lemma heapify_loop_ok n : forall k d, heap_from (elems d) (Z.of_nat (S k)) n -> n <= zlen (elems d) ->
  exists d', heapify_loop k d n = Some d' /\ sifted n d d' /\ heap_from (elems d') 0 n.
Proof.
  induction k as [|k IH]; intros d Hh Hn; cbn [heapify_loop].
  - destruct (siftDown_ok d 0 (Z.of_nat 0) n) as (d' & -> & Hs & Hh'); [|lia|lia|done|]; [|by exists d'].
    split; [| |lia]; [|lia]. intros c Hc Hk H0 Hp. apply Hh; [done|]. pose proof (parent_range c). lia.
  - destruct (siftDown_ok d (Z.of_nat (S k)) (Z.of_nat (S k)) n) as (d1 & -> & Hs & Hh'); [|lia|lia|done|].
    { split; [|pose proof (parent_range (Z.of_nat (S k))); lia|pose proof (parent_range (Z.of_nat (S k))); lia]. intros c Hc Hk H0 Hp. apply Hh; [done|]. lia. }
    rewrite some_bind. destruct (IH d1 Hh') as (d2 & E & Hs2 & Hh2); [by rewrite (sift_len _ _ _ Hs)|]. exists d2. split_and!; [done|by eapply sift_trans|done].
Qed.

(** What a sift leaves in place. *)
Lemma sift_split d d' f b : sifted (zlen f) d d' -> elems d = f ++ b -> exists f', elems d' = f' ++ b /\ f' ≡ₚ f.
Proof.
  intros [Hp He] Ed. exists (take (length f) (elems d')). assert (drop (length f) (elems d') = b) as Eb.
  { apply list_eq. intros i. rewrite lookup_drop. specialize (He (zlen f + Z.of_nat i) ltac:(lia)). unfold idx, zlen in He. rewrite !decide_True in He by lia. replace (Z.to_nat _) with (length f + i)%nat in He by lia.
    rewrite He, Ed, lookup_app_r by lia. f_equal. lia. }
  assert (elems d' = take (length f) (elems d') ++ b) as E' by (by rewrite <- Eb, take_drop). split; [done|]. rewrite Ed, E' in Hp. by apply Permutation_app_inv_r in Hp.
Qed.

Notation le := (leq (lt := lt)).

(** The first [e] elements are a heap, the others sorted and above them. *)
Record draining d (f b : list Item) : Prop := {
  dr_elems : elems d = f ++ b;
  dr_heap : heap_from (elems d) 0 (zlen f);
  dr_sorted : StronglySorted le b;
  dr_above : forall x y, x ∈ f -> y ∈ b -> le x y
}.

Lemma heap_greatest d f b x0 : draining d f b -> idx f 0 = Some x0 -> forall x, x ∈ f -> le x x0.
Proof.
  intros [He Hh _ _] H0 x [i Hi]%list_elem_of_lookup. pose proof (lookup_lt_Some _ _ _ Hi) as Hlt. assert (zlen f <= zlen (elems d)) as Hn by (rewrite He; zlens; pose proof (zlen_nonneg b); lia).
  apply (heap_root _ _ (Z.of_nat i) Hh Hn); [unfold zlen; lia| |]; rewrite He; apply idx_Some; (split; [lia|]).
  - apply idx_Some in H0 as [_ H0]. by apply lookup_app_l_Some.
  - rewrite Nat2Z.id. by apply lookup_app_l_Some.
Qed.

(** The root changes places with the last element of the heap. *)
Lemma drain_swap d f b e : draining d f b -> zlen f = Z.of_nat (S e) + 1 -> exists x0 g, elems (Swap d 0 (Z.of_nat (S e))) = g ++ x0 :: b /\ zlen g = Z.of_nat (S e) /\ x0 :: g ≡ₚ f /\ idx f 0 = Some x0 /\
  (forall c, 0 < c < zlen g -> idx (g ++ x0 :: b) c = idx (elems d) c).
Proof.
  intros [He _ _ _] Hn. destruct f as [|x0 f]; [zlens; lia|]. destruct f as [|z m _] using rev_ind; [zlens; lia|]. zlens. exists x0, (z :: m).
  assert (elems (Swap d 0 (Z.of_nat (S e))) = (z :: m) ++ x0 :: b) as E.
  { rewrite Swap_ok by (rewrite He; zlens; pose proof (zlen_nonneg b); lia). rewrite He. cbn [app]. rewrite <- app_assoc. apply (swapped_mid [] x0 m z b); zlens; lia. }
  split_and!; [done|zlens; lia| |done|].
  - by rewrite (Permutation_cons_append m z).
  - intros c Hc. rewrite <- E, Swap_ok by (rewrite He; zlens; pose proof (zlen_nonneg b); lia). rewrite idx_swapped by (rewrite ?He; zlens; pose proof (zlen_nonneg b); lia). zlens. by rewrite !decide_False by lia.
Qed.

Lemma drain_step d f b e : draining d f b -> zlen f = Z.of_nat (S e) + 1 ->
  exists d' x0 g, siftDown (Swap d 0 (Z.of_nat (S e))) 0 (Z.of_nat (S e)) = Some d' /\ draining d' g (x0 :: b) /\ zlen g = Z.of_nat e + 1 /\ x0 :: g ≡ₚ f.
Proof.
  intros Hd Hn. destruct (drain_swap d f b e Hd Hn) as (x0 & g & Es & Hg & Hp & H0 & Hid). destruct (siftDown_ok (Swap d 0 (Z.of_nat (S e))) 0 0 (zlen g)) as (d' & E & Hs & Hh).
  { rewrite Es. split; [|lia|lia]. intros c Hc _ Hc0 Hpc. pose proof (parent_range c ltac:(lia)). unfold HeapOrder.le_at. rewrite !Hid by lia. apply (dr_heap _ _ _ Hd); lia. }
  { lia. } { lia. } { rewrite Es. zlens. pose proof (zlen_nonneg b). lia. }
  destruct (sift_split _ _ g (x0 :: b) Hs Es) as (g' & Ed' & Hg'). exists d', x0, g'. assert (zlen g' = zlen g) as El by (unfold zlen; by rewrite Hg'). rewrite Hg in E, Hh. split_and!; [done| |lia|by rewrite Hg'].
  assert (forall x, x ∈ g' -> x ∈ f) as Hsub by (intros x Hx; rewrite <- Hp, <- Hg'; by right). split; [done|by rewrite El, Hg| |].
  - constructor; [apply (dr_sorted _ _ _ Hd)|]. apply list.Forall_forall. intros y Hy. apply (dr_above _ _ _ Hd); [|done]. rewrite <- Hp. left.
  - intros x y Hx [->|Hy]%elem_of_cons; [eapply heap_greatest; eauto|apply (dr_above _ _ _ Hd); auto].
Qed.

Lemma drain_loop_ok : forall e d f b, draining d f b -> zlen f = Z.of_nat e + 1 -> exists d', drain_loop e d = Some d' /\ elems d' ≡ₚ f ++ b /\ StronglySorted le (elems d').
Proof.
  induction e as [|e IH]; intros d f b Hd Hn; cbn [drain_loop].
  - exists d. rewrite (dr_elems _ _ _ Hd). split_and!; [done|done|]. destruct (zlen_one f) as [x ->]; [lia|]. cbn [app]. constructor; [apply (dr_sorted _ _ _ Hd)|]. apply list.Forall_forall. intros y Hy. apply (dr_above _ _ _ Hd); [left|done].
  - destruct (drain_step d f b e Hd Hn) as (d1 & x0 & g & -> & Hd1 & Hg & Hp). rewrite some_bind. destruct (IH d1 g (x0 :: b) Hd1 Hg) as (d2 & E & P & S2). exists d2. split_and!; [done| |done]. by rewrite P, <- Hp, <- Permutation_middle.
Qed.

Lemma Sort_ok d : exists d', Sort d = Some d' /\ elems d' ≡ₚ elems d /\ StronglySorted le (elems d').
Proof.
  unfold Sort. rewrite Len_ok. set (n := zlen (elems d)). destruct (decide (n <= 1)) as [H1|H1].
  { exists d. split_and!; [done|done|]. destruct (elems d) as [|x [|y l]]; [constructor|by repeat constructor|]. subst n. zlens. pose proof (zlen_nonneg l). lia. }
  destruct (heapify_loop_ok n (Z.to_nat (Z.quot (n - 1) 2)) d) as (d1 & -> & Hs & Hh); [|done|].
  { intros c Hc Hk. unfold parent in Hk. rewrite Z.quot_div_nonneg in Hk by lia. lia. }
  rewrite some_bind. destruct (drain_loop_ok (Z.to_nat (n - 1)) d1 (elems d1) []) as (d2 & E & P & S2); [split; [by rewrite app_nil_r| |constructor|set_solver]|rewrite (sift_len _ _ _ Hs); lia|].
  - by rewrite (sift_len _ _ _ Hs).
  - exists d2. split_and!; [done| |done]. rewrite P, app_nil_r. apply Hs.
Qed.
End heapsort.

(** [Sort] returns on every collection and leaves its elements sorted by [Less]; through [Reverse]
    it leaves them sorted the other way round. *)
Theorem heapsort_sorts {D Item lt} {I : Interface D Item lt} `{!StrictWeak lt} (d : D) :
  (exists d', Sort d = Some d' /\ elems d' ≡ₚ elems d /\ StronglySorted (leq (lt := lt)) (elems d')) /\
  (exists d', Sort (mkReverse d) = Some (mkReverse d') /\ elems d' ≡ₚ elems d /\ StronglySorted (fun x y => lt x y = false) (elems d')).
Proof. split; [apply Sort_ok|]. destruct (Sort_ok (I := reverse_interface I) (mkReverse d)) as ([d'] & E & H). by exists d'. Qed.

(** ** Checks *)

Section adjacent.
  Context {A : Type} (lt : A -> A -> bool) `{!StrictWeak lt}.

(** Neighbours in order make a sorted sequence. *)
Lemma adjacent_sorted (l : list A) : (forall i x y, l !! i = Some x -> l !! S i = Some y -> leq (lt := lt) x y) <-> StronglySorted (leq (lt := lt)) l.
Proof.
  split.
  - intros Ha. assert (Transitive (leq (lt := lt))) by (intros x y z; apply leq_trans). apply Sorted_StronglySorted; [done|]. induction l as [|x l IH]; [constructor|]. constructor.
    + apply IH. intros i y z Hy Hz. by apply (Ha (S i)).
    + destruct l as [|y l]; constructor. by apply (Ha 0%nat).
  - induction 1 as [|x l Hs IH Hx]; intros i y z Hy Hz; [done|]. destruct i as [|i]; [|by apply (IH i)]. injection Hy as <-. rewrite list.Forall_forall in Hx. apply Hx. by eapply list_elem_of_lookup_2.
Qed.

(** The loops of the checks: [out k] compares element [k] with the one before. *)
Lemma checks_sorted (l : list A) (out : Z -> bool) : (forall k x y, 0 < k -> idx l (k - 1) = Some x -> idx l k = Some y -> out k = lt y x) ->
  (forall k, 0 < k < zlen l -> out k = false) <-> StronglySorted (leq (lt := lt)) l.
Proof.
  intros Ho. rewrite <- adjacent_sorted. split.
  - intros Hn i x y Hx Hy. unfold leq. pose proof (lookup_lt_Some _ _ _ Hy) as Hlt. rewrite <- (Ho (Z.of_nat (S i)) x y).
    + apply Hn. unfold zlen. lia.
    + lia.
    + apply idx_Some. split; [lia|]. by replace (Z.to_nat _) with i by lia.
    + apply idx_Some. split; [lia|]. by rewrite Nat2Z.id.
  - intros Ha k Hk. destruct (idx_lt l (k - 1)) as [x Ex]; [lia|]. destruct (idx_lt l k) as [y Ey]; [lia|]. rewrite (Ho k x y) by (done || lia). apply idx_Some in Ex as [_ Ex]. apply idx_Some in Ey as [_ Ey].
    apply (Ha (Z.to_nat (k - 1))); [done|]. by replace (S (Z.to_nat (k - 1))) with (Z.to_nat k) by lia.
Qed.
End adjacent.

Lemma is_sorted_loop_ok {D Item lt} {I : Interface D Item lt} (d : D) : forall n, is_sorted_loop n d = true <-> forall k, 0 < k <= Z.of_nat n -> Less d k (k - 1) = false.
Proof.
  induction n as [|n IH]; cbn [is_sorted_loop]; [split; [lia|done]|]. destruct (Less d _ _) eqn:E.
  - split; [done|]. intros Hk. rewrite Hk in E by lia. done.
  - rewrite IH. split; intros Hk k Hk'; [|apply Hk; lia]. destruct (decide (k = Z.of_nat (S n))) as [->|]; [done|]. apply Hk. lia.
Qed.

Lemma are_sorted_loop_ok {A} (lt : A -> A -> bool) raw : forall n, are_sorted_loop lt n raw = is_sorted_loop (I := slice_interface lt) n raw.
Proof. induction n as [|n IH]; [done|]. cbn [are_sorted_loop is_sorted_loop]. by rewrite IH. Qed.

Lemma slice_sorted_loop_ok {T} less (x : list T) : forall k i, slice_sorted_loop less k x i = true <-> forall j, i <= j < i + Z.of_nat k -> less x j (j - 1) = false.
Proof.
  induction k as [|k IH]; intros i; cbn [slice_sorted_loop]; [split; [lia|done]|]. destruct (less x i (i - 1)) eqn:E.
  - split; [done|]. intros Hk. rewrite Hk in E by lia. done.
  - rewrite IH. split; intros Hk j Hj; [|apply Hk; lia]. destruct (decide (j = i)) as [->|]; [done|]. apply Hk. lia.
Qed.

Lemma IsSorted_ok {D Item lt} {I : Interface D Item lt} `{!StrictWeak lt} (d : D) : IsSorted d = true <-> StronglySorted (leq (lt := lt)) (elems d).
Proof.
  unfold IsSorted. rewrite is_sorted_loop_ok, Len_ok. rewrite <- (checks_sorted lt (elems d) (fun k => Less d k (k - 1))); [|intros; by apply Less_ok]. split; intros Hk k Hk'; apply Hk; lia.
Qed.

Lemma slice_checked {A} (lt : A -> A -> bool) x : StrictWeak lt -> are_sorted_loop lt (Nat.pred (length x)) x = true <-> StronglySorted (leq (lt := lt)) x.
Proof.
  intros Hw. rewrite are_sorted_loop_ok. etransitivity; [|exact (IsSorted_ok (I := slice_interface lt) x)]. unfold IsSorted. cbn [Len slice_interface]. by replace (Z.to_nat (zlen x - 1)) with (Nat.pred (length x)) by (unfold zlen; lia).
Qed.

(** The order of byte slices is one. *)
#[export] Instance bytes_strict_weak : StrictWeak bytes_lt.
Proof.
  assert (forall x y, bytes_lt x y = true -> bytes_lt y x = false) as Ha.
  { induction x as [|a x IH]; intros [|b y]; cbn; try done. destruct (a <? b) eqn:E1, (b <? a) eqn:E2; try done; [rewrite Z.ltb_lt in *; lia|apply IH]. }
  split; [done|]. intros x y z. revert y z. induction x as [|a x IH]; intros [|b y] [|c z]; cbn; try done.
  destruct (b <? a) eqn:E1; [done|]. destruct (c <? b) eqn:E2; [by destruct (a <? b)|]. rewrite Z.ltb_ge in *. destruct (c <? a) eqn:E3; [rewrite Z.ltb_lt in E3; lia|].
  destruct (a <? b) eqn:E4, (b <? c) eqn:E5, (a <? c) eqn:E6; rewrite ?Z.ltb_lt, ?Z.ltb_ge in *; try done; try lia. by apply IH.
Qed.

(** The closure given to [Slice] compares two elements. *)
Definition compares {T} (lt : T -> T -> bool) (less : list T -> Z -> Z -> bool) : Prop :=
  forall l i j x y, idx l i = Some x -> idx l j = Some y -> less l i j = lt x y.

(** Every check says exactly whether the sequence is sorted. *)
Theorem checks_exact :
  (forall D Item lt (I : Interface D Item lt) (d : D), StrictWeak lt -> IsSorted d = true <-> StronglySorted (leq (lt := lt)) (elems d)) /\
  (forall x, IntsAreSorted x = true <-> StronglySorted Z.le x) /\
  (forall x, StringsAreSorted x = true <-> StronglySorted (leq (lt := bytes_lt)) x) /\
  (forall T lt less (x : list T), StrictWeak lt -> compares lt less -> SliceIsSorted less x = true <-> StronglySorted (leq (lt := lt)) x).
Proof.
  split_and!.
  - intros. apply IsSorted_ok.
  - intros x. unfold IntsAreSorted. transitivity (StronglySorted (leq (lt := Z.ltb)) x).
    + apply (slice_checked Z.ltb), _.
    + split; intros Hs; induction Hs as [|y l Hs IH Hy]; constructor; try done; (eapply Forall_impl; [exact Hy|]); intros z; unfold leq; by rewrite Z.ltb_ge.
  - intros x. unfold StringsAreSorted. apply slice_checked, _.
  - intros T lt less x Hw Hc. unfold SliceIsSorted. rewrite slice_sorted_loop_ok. rewrite <- (checks_sorted lt x (fun k => less x k (k - 1))); [|intros; by apply Hc]. split; intros Hk k Hk'; apply Hk; lia.
Qed.

(** ** Searches *)

Lemma search_loop_bisect f : forall fuel i j, search_loop fuel f i j = bisect fuel (fun h => negb (f h)) i j.
Proof. induction fuel as [|fuel IH]; intros i j; [done|]. cbn [search_loop bisect]. destruct (decide (i < j)); [|done]. by destruct (f (half i j)); cbn [negb]; rewrite IH. Qed.

Lemma find_loop_bisect cmp : forall fuel i j, find_loop fuel cmp i j = bisect fuel (fun h => bool_decide (cmp h > 0)) i j.
Proof. induction fuel as [|fuel IH]; intros i j; [done|]. cbn [find_loop bisect]. destruct (decide (i < j)); [|done]. destruct (decide (cmp (half i j) > 0)) as [H|H]; [rewrite (bool_decide_true _ H)|rewrite (bool_decide_false _ H)]; by rewrite IH. Qed.

(** [go] holds up to a place, and not from there on. *)
Lemma bisect_monotone go n : 0 <= n < 2 ^ 63 -> (forall i j, 0 <= i <= j -> j < n -> go j = true -> go i = true) ->
  exists k, bisect bisections go 0 n = Some k /\ 0 <= k <= n /\ forall i, 0 <= i < n -> go i = bool_decide (i < k).
Proof.
  intros Hn Hm. destruct (bisections_ok go 0 n) as (k & E & Hk & Hlo & Hhi); [lia|lia|]. exists k. split_and!; [done|lia|lia|]. intros i Hi. case_bool_decide as Hik.
  - destruct Hlo as [->|Hlo]; [lia|]. apply (Hm i (k - 1)); [lia|lia|done].
  - destruct Hhi as [->|Hhi]; [lia|]. destruct (go i) eqn:Ei; [|done]. rewrite (Hm k i) in Hhi by (done || lia). done.
Qed.

Lemma Search_ok n f : 0 <= n < 2 ^ 63 -> (forall i j, 0 <= i <= j -> j < n -> f i = true -> f j = true) ->
  exists k, Search n f = Some k /\ 0 <= k <= n /\ forall i, 0 <= i < n -> f i = bool_decide (k <= i).
Proof.
  intros Hn Hm. unfold Search. rewrite search_loop_bisect. destruct (bisect_monotone (fun h => negb (f h)) n Hn) as (k & E & Hk & Hi).
  { intros i j Hij Hj. rewrite !negb_true_iff. destruct (f i) eqn:Ei; [|done]. by rewrite (Hm i j Hij Hj Ei). }
  exists k. split_and!; [done|lia|lia|]. intros i Hi'. specialize (Hi i Hi'). rewrite <- (negb_involutive (f i)), Hi. repeat case_bool_decide; done || lia.
Qed.

Lemma at_least_mono {A} (lt : A -> A -> bool) `{!StrictWeak lt} l x : StronglySorted (leq (lt := lt)) l ->
  forall i j, 0 <= i <= j -> j < zlen l -> at_least lt l x i = true -> at_least lt l x j = true.
Proof.
  intros Hs i j Hij Hj. unfold at_least. destruct (idx_lt l i) as [y Ey]; [lia|]. destruct (idx_lt l j) as [z Ez]; [lia|]. rewrite Ey, Ez, !negb_true_iff. intros Hy.
  assert (leq (lt := lt) y z) as Hyz; [|by eapply (leq_trans (lt := lt)); [exact Hy|exact Hyz]]. destruct (decide (i = j)) as [->|]; [assert (y = z) as -> by congruence; apply leq_refl|].
  apply idx_Some in Ey as [_ Ey]. apply idx_Some in Ez as [_ Ez]. eapply (StronglySorted_app_1_elem_of _ (take (Z.to_nat j) l) (drop (Z.to_nat j) l)); [by rewrite take_drop| |].
  - apply list_elem_of_lookup. exists (Z.to_nat i). by rewrite lookup_take_lt by lia.
  - apply list_elem_of_lookup. exists 0%nat. by rewrite lookup_drop, Nat.add_0_r.
Qed.

(** Where [x] belongs in a sorted slice: what is below is before, and the rest from there on. *)
Lemma search_slice {A} (lt : A -> A -> bool) `{!StrictWeak lt} l x : StronglySorted (leq (lt := lt)) l -> zlen l < 2 ^ 63 ->
  exists p q, l = p ++ q /\ Search (zlen l) (at_least lt l x) = Some (zlen p) /\ Forall (fun y => lt y x = true) p /\ Forall (leq (lt := lt) x) q.
Proof.
  intros Hs Hl. destruct (Search_ok (zlen l) (at_least lt l x)) as (k & E & Hk & Hi); [pose proof (zlen_nonneg l); lia|by apply at_least_mono|]. destruct (zsplit l k) as (p & q & -> & Hp); [lia|]. exists p, q.
  rewrite Hp. split_and!; [done|done| |]; apply list.Forall_forall; intros y [i Hy]%list_elem_of_lookup; pose proof (lookup_lt_Some _ _ _ Hy) as Hlt.
  - specialize (Hi (Z.of_nat i)). unfold at_least in Hi. rewrite (proj2 (idx_Some (p ++ q) (Z.of_nat i) y)) in Hi by (split; [lia|]; rewrite Nat2Z.id; by apply lookup_app_l_Some).
    rewrite bool_decide_false in Hi by (unfold zlen in Hp; lia). apply negb_false_iff, Hi. zlens. pose proof (zlen_nonneg q). unfold zlen in *. lia.
  - specialize (Hi (zlen p + Z.of_nat i)). unfold at_least in Hi. rewrite (proj2 (idx_Some (p ++ q) (zlen p + Z.of_nat i) y)) in Hi.
    + rewrite bool_decide_true in Hi by lia. apply negb_true_iff, Hi. zlens. pose proof (zlen_nonneg p). unfold zlen in *. lia.
    + split; [pose proof (zlen_nonneg p); lia|]. replace (Z.to_nat _) with (length p + i)%nat by (unfold zlen; lia). rewrite lookup_app_r by lia. by replace (length p + i - length p)%nat with i by lia.
Qed.

(** Both searches end within 64 probes.  On a predicate that stays true [Search] returns the first
    index where it holds, or [n]; on a comparison that does not increase [Find] returns the first
    index where it is not positive and whether it is zero there, which it is if it is zero
    anywhere; in a sorted slice [SearchInts] and [SearchStrings] return the place of [x]. *)
Theorem search_finds_first n : 0 <= n < 2 ^ 63 ->
  (forall f, (forall i j, 0 <= i <= j -> j < n -> f i = true -> f j = true) -> exists k, Search n f = Some k /\ 0 <= k <= n /\ forall i, 0 <= i < n -> f i = true <-> k <= i) /\
  (forall cmp, (forall i j, 0 <= i <= j -> j < n -> Z.sgn (cmp j) <= Z.sgn (cmp i)) ->
     exists k found, Find n cmp = Some (k, found) /\ 0 <= k <= n /\ (forall i, 0 <= i < n -> cmp i <= 0 <-> k <= i) /\ (found = true <-> exists i, 0 <= i < n /\ cmp i = 0)) /\
  (forall a x, StronglySorted Z.le a -> zlen a = n -> exists p q, a = p ++ q /\ SearchInts a x = Some (zlen p) /\ Forall (fun y => y < x) p /\ Forall (Z.le x) q) /\
  (forall a x, StronglySorted (leq (lt := bytes_lt)) a -> zlen a = n ->
     exists p q, a = p ++ q /\ SearchStrings a x = Some (zlen p) /\ Forall (fun y => bytes_lt y x = true) p /\ Forall (leq (lt := bytes_lt) x) q).
Proof.
  intros Hn. split_and!.
  - intros f Hm. destruct (Search_ok n f Hn Hm) as (k & E & Hk & Hi). exists k. split_and!; [done|lia|lia|]. intros i Hi'. by rewrite Hi, bool_decide_eq_true.
  - intros cmp Hm. destruct (bisect_monotone (fun h => bool_decide (cmp h > 0)) n Hn) as (k & E & Hk & Hi).
    { intros i j Hij Hj. rewrite !bool_decide_eq_true. specialize (Hm i j Hij Hj). lia. }
    unfold Find. rewrite find_loop_bisect, E, some_bind. eexists k, _. assert (forall i, 0 <= i < n -> cmp i <= 0 <-> k <= i) as Hle.
    { intros i Hi'. specialize (Hi i Hi'). repeat case_bool_decide; try done; lia. }
    split_and!; [done|lia|lia|done|]. rewrite andb_true_iff, bool_decide_eq_true, Z.eqb_eq. split; [intros [H1 H2]; exists k; lia|]. intros (i & Hi' & Ei). pose proof (proj1 (Hle i Hi')) as H1. specialize (Hm k i). pose proof (Hle k). lia.
  - intros a x Hs Hl. destruct (search_slice Z.ltb a x) as (p & q & -> & E & Hp & Hq); [|lia|].
    + clear Hl. induction Hs as [|y l Hs IH Hy]; constructor; [done|]. eapply Forall_impl; [exact Hy|]. intros z. unfold leq. by rewrite Z.ltb_ge.
    + exists p, q. split_and!; [done|done| |]; (eapply Forall_impl; [done|]); intros y; [by rewrite Z.ltb_lt|unfold leq; by rewrite Z.ltb_ge].
  - intros a x Hs Hl. apply search_slice; [apply _|done|lia].
Qed.

(** ** Slices *)

(** A slice with the closure that compares its elements. *)
Definition closure_interface {T} (lt : T -> T -> bool) less (Hc : compares lt less) : Interface (list T) T lt.
Proof. by refine {| Len := zlen; Less := less; Swap := swapped; elems l := l |}. Defined.

Section slices.
  Context {T : Type} {lt : T -> T -> bool} `{!StrictWeak lt} {less : list T -> Z -> Z -> bool} (Hc : compares lt less).
  Notation I := (closure_interface lt less Hc).

(** [Slice], which repeats the heap sort of [Sort]. *)
Lemma sift_down_sort : forall fuel x r e, sift_down less fuel x r e = sift_loop (I := I) fuel x r e.
Proof. induction fuel as [|fuel IH]; intros x r e; [done|]. cbn [sift_down sift_loop Less Swap closure_interface]. by rewrite IH. Qed.

Lemma slice_heapify_sort n : forall start x, slice_heapify less start x n = heapify_loop (I := I) start x n.
Proof.
  induction start as [|k IH]; intros x; cbn [slice_heapify heapify_loop]; unfold siftDown; rewrite sift_down_sort; [done|]. destruct (sift_loop _ _ _ _); [|done]. rewrite !some_bind. apply IH.
Qed.

Lemma slice_drain_sort : forall e x, slice_drain less e x = drain_loop (I := I) e x.
Proof.
  induction e as [|e IH]; intros x; [done|]. cbn [slice_drain drain_loop]. unfold siftDown. rewrite sift_down_sort. cbn [Swap closure_interface]. destruct (sift_loop _ _ _ _); [|done]. rewrite !some_bind. apply IH.
Qed.

Lemma Slice_sort x : Slice less x = Sort (I := I) x.
Proof.
  unfold Slice, Sort. cbn [Len closure_interface]. destruct (decide _); [done|]. rewrite slice_heapify_sort. destruct (heapify_loop _ _ _); [|done]. rewrite !some_bind. apply slice_drain_sort.
Qed.

(** ** The permutation of [SliceStable] *)

Section permute.
  Context (ix : list Z) (x0 : list T).
  Notation n := (zlen x0).
  Hypothesis (Hix : ix ≡ₚ seqZ 0 n).
  Implicit Types (done : list bool) (x : list T).

Lemma ix_range j k : idx ix j = Some k -> 0 <= k < n.
Proof using Hix.
  intros [_ Hj]%idx_Some. apply list_elem_of_lookup_2 in Hj. rewrite Hix in Hj. apply elem_of_seqZ in Hj. lia.
Qed.

Lemma ix_inj i j k : idx ix i = Some k -> idx ix j = Some k -> i = j.
Proof using Hix.
  intros [? Hi]%idx_Some [? Hj]%idx_Some. assert (NoDup ix) as Hn by (rewrite Hix; apply NoDup_seqZ). pose proof (NoDup_lookup _ _ _ _ Hn Hi Hj). lia.
Qed.

Lemma ix_len : zlen ix = n.
Proof using Hix. unfold zlen. rewrite Hix, length_seqZ. unfold zlen. lia. Qed.

(** Between cycles: what is done has its element, the rest is as it was, and what is done is a
    union of cycles. *)
Record settled done x : Prop := {
  se_done_len : zlen done = n;
  se_len : zlen x = n;
  se_done : forall p k, idx done p = Some true -> idx ix p = Some k -> idx x p = idx x0 k;
  se_undone : forall p, idx done p = Some false -> idx x p = idx x0 p;
  se_pred : forall p, idx done p = Some true -> exists q, idx done q = Some true /\ idx ix q = Some p
}.

(** On the cycle of [i], at [j], which holds the element of [i]. *)
Record walking i j done x : Prop := {
  wa_done_len : zlen done = n;
  wa_len : zlen x = n;
  wa_done : forall p k, idx done p = Some true -> idx ix p = Some k -> idx x p = idx x0 k;
  wa_undone : forall p, idx done p = Some false -> p <> j -> idx x p = idx x0 p;
  wa_here : idx x j = idx x0 i;
  wa_new : idx done j = Some false;
  wa_start : idx done i = Some true \/ i = j;
  wa_pred : forall p, idx done p = Some true \/ p = j -> p = i \/ exists q, idx done q = Some true /\ idx ix q = Some p
}.

Lemma idx_mark done j p : idx done j = Some false -> idx (<[Z.to_nat j := true]> done) p = if decide (p = j) then Some true else idx done p.
Proof.
  intros Hj. pose proof (idx_range _ _ _ Hj) as Hr. destruct (decide (0 <= p)) as [Hp|Hp]; [rewrite idx_insert by done; repeat case_decide; congruence|]. rewrite decide_False by lia. unfold idx. by rewrite !decide_False.
Qed.

(** The next position of the cycle is new, unless it is where the cycle began. *)
Lemma next_new i j done x k : walking i j done x -> idx ix j = Some k -> k <> i -> idx done k = Some false /\ k <> j.
Proof using Hix.
  intros Hw Hk Hki. assert (~ (idx done k = Some true \/ k = j)) as Hn.
  { intros Hd. destruct (wa_pred _ _ _ _ Hw k Hd) as [?|(q & Hq & Eq)]; [done|]. assert (q = j) as -> by (by eapply ix_inj). rewrite (wa_new _ _ _ _ Hw) in Hq. done. }
  destruct (idx_lt done k) as [[] Ek]; [rewrite (wa_done_len _ _ _ _ Hw); by eapply ix_range|by exfalso; auto|]. auto.
Qed.

Lemma cycle_end i j done x : walking i j done x -> idx ix j = Some i -> settled (<[Z.to_nat j := true]> done) x.
Proof using Hix.
  intros Hw Hj. pose proof (wa_new _ _ _ _ Hw) as Hn. split.
  - rewrite zlen_insert. apply (wa_done_len _ _ _ _ Hw).
  - apply (wa_len _ _ _ _ Hw).
  - intros p k. rewrite idx_mark by done. destruct (decide (p = j)) as [->|]; [|by apply (wa_done _ _ _ _ Hw)]. intros _ E. rewrite Hj in E. injection E as <-. apply (wa_here _ _ _ _ Hw).
  - intros p. rewrite idx_mark by done. destruct (decide (p = j)); [done|]. intros Hp. by apply (wa_undone _ _ _ _ Hw).
  - intros p. rewrite idx_mark by done. intros Hp. assert (idx done p = Some true \/ p = j) as Hp' by (destruct (decide (p = j)); auto).
    destruct (wa_pred _ _ _ _ Hw p Hp') as [->|(q & Hq & Eq)]; [exists j|exists q]; rewrite idx_mark by done; [by rewrite decide_True|]. split; [|done]. by destruct (decide (q = j)).
Qed.

Lemma cycle_next i j done x k : walking i j done x -> idx ix j = Some k -> k <> i -> walking i k (<[Z.to_nat j := true]> done) (swapped x j k).
Proof using Hix.
  intros Hw Hj Hki. pose proof (wa_new _ _ _ _ Hw) as Hn. destruct (next_new _ _ _ _ _ Hw Hj Hki) as [Hk Hkj]. pose proof (ix_range _ _ Hj) as Hkr. pose proof (idx_range _ _ _ Hn) as Hjr. rewrite (wa_done_len _ _ _ _ Hw) in Hjr.
  pose proof (wa_len _ _ _ _ Hw) as Hl. assert (forall p, 0 <= p -> idx (swapped x j k) p = if decide (p = j) then idx x k else if decide (p = k) then idx x j else idx x p) as Hsw by (intros; apply idx_swapped; lia).
  split.
  - rewrite zlen_insert. apply (wa_done_len _ _ _ _ Hw).
  - by rewrite zlen_swapped.
  - intros p k'. rewrite idx_mark by done. intros Hp Hpk. assert (0 <= p) by (apply idx_range in Hpk; lia). rewrite Hsw by done. destruct (decide (p = j)) as [->|].
    + assert (k' = k) as -> by congruence. by apply (wa_undone _ _ _ _ Hw).
    + destruct (decide (p = k)) as [->|]; [congruence|]. by apply (wa_done _ _ _ _ Hw).
  - intros p. rewrite idx_mark by done. destruct (decide (p = j)); [done|]. intros Hp Hpk. rewrite Hsw by (apply idx_range in Hp; lia). rewrite !decide_False by done. by apply (wa_undone _ _ _ _ Hw).
  - rewrite Hsw by lia. rewrite decide_False, decide_True by done. apply (wa_here _ _ _ _ Hw).
  - rewrite idx_mark by done. by rewrite decide_False.
  - left. rewrite idx_mark by done. destruct (wa_start _ _ _ _ Hw) as [Hi| ->]; [by destruct (decide _)|by rewrite decide_True].
  - intros p. rewrite idx_mark by done. intros Hp. destruct (decide (p = k)) as [->|].
    + right. exists j. rewrite idx_mark by done. by rewrite decide_True.
    + assert (idx done p = Some true \/ p = j) as Hp' by (destruct (decide (p = j)); [auto|destruct Hp; auto; done]). destruct (wa_pred _ _ _ _ Hw p Hp') as [->|(q & Hq & Eq)]; [by left|right].
      exists q. rewrite idx_mark by done. split; [|done]. by destruct (decide (q = j)).
Qed.

Notation undone := (zsum (fun b : bool => if b then 0 else 1)).

Lemma cycle_ok i : forall fuel j done x, walking i j done x -> undone done <= Z.of_nat fuel ->
  exists done' x', cycle fuel ix i j (done, x) = Some (done', x') /\ settled done' x' /\ (forall p, idx done p = Some true -> idx done' p = Some true) /\ idx done' i = Some true.
Proof using Hix.
  induction fuel as [|fuel IH]; intros j done x Hw Hf; pose proof (wa_new _ _ _ _ Hw) as Hn; pose proof (idx_range _ _ _ Hn) as Hj; pose proof Hn as [_ Hl]%idx_Some.
  { pose proof (zsum_ge (fun b : bool => if b then 0 else 1) done _ _ ltac:(by intros []) Hl) as Hge. cbn in Hge. lia. }
  pose proof Hj as Hj0. rewrite (wa_done_len _ _ _ _ Hw), <- ix_len in Hj0. destruct (idx_lt ix j Hj0) as [k Ek]. cbn [cycle]. rewrite Ek, some_bind. rewrite upd_Some by done. rewrite some_bind.
  assert (forall p, idx done p = Some true -> idx (<[Z.to_nat j := true]> done) p = Some true) as Hk by (intros p Hp; rewrite idx_mark by done; by destruct (decide _)). destruct (decide (k = i)) as [->|Hki].
  - eexists _, _. split_and!; [done|by eapply cycle_end|done|]. destruct (wa_start _ _ _ _ Hw) as [Hi| ->]; [by apply Hk|]. rewrite idx_mark by done. by rewrite decide_True.
  - pose proof (cycle_next _ _ _ _ _ Hw Ek Hki) as Hw'. destruct (IH k _ _ Hw') as (done' & x' & E & Hs & Hk' & Hi).
    + rewrite (zsum_insert _ _ _ _ _ Hl). lia.
    + exists done', x'. split_and!; [done|done|auto|done].
Qed.

Lemma permute_at_ok i done x : settled done x -> 0 <= i < n -> exists done' x', permute_at ix i (done, x) = Some (done', x') /\ settled done' x' /\ (forall p, idx done p = Some true -> idx done' p = Some true) /\ idx done' i = Some true.
Proof using Hix.
  intros Hs Hi. destruct (idx_lt done i) as [b Eb]; [by rewrite (se_done_len _ _ Hs)|]. destruct (idx_lt ix i) as [k Ek]; [by rewrite ix_len|]. unfold permute_at. rewrite Eb, some_bind, Ek, some_bind.
  assert (b = false -> walking i i done x) as Hw.
  { intros ->. destruct Hs as [S1 S2 S3 S4 S5]. split; auto. intros p [Hp| ->]; auto. }
  destruct b.
  { rewrite decide_True by auto. rewrite upd_Some by (by eapply idx_range). rewrite some_bind. pose proof Eb as [_ Hl]%idx_Some. rewrite list_insert_id by done. by exists done, x. }
  specialize (Hw eq_refl). destruct (decide (k = i)) as [->|Hne].
  - rewrite decide_True by auto. rewrite upd_Some by (by eapply idx_range). rewrite some_bind. eexists _, _. split_and!; [done|by eapply cycle_end| |].
    + intros p Hp. rewrite idx_mark by done. by destruct (decide _).
    + rewrite idx_mark by done. by rewrite decide_True.
  - rewrite decide_False by naive_solver. apply cycle_ok; [done|]. etransitivity; [apply zsum_le_len; by intros []|]. rewrite (se_done_len _ _ Hs), <- ix_len. done.
Qed.

(** Position [p] gets the element of position [ix[p]]. *)
Lemma permute_ok : exists done x, for_range 0 n (permute_at ix) (replicate (Z.to_nat n) false, x0) = Some (done, x) /\ zlen x = n /\ forall p k, idx ix p = Some k -> idx x p = idx x0 k.
Proof using Hix.
  destruct (for_range_inv (fun i s => settled s.1 s.2 /\ forall p, 0 <= p < i -> idx s.1 p = Some true) 0 n (permute_at ix) (replicate (Z.to_nat n) false, x0)) as ([done x] & E & Hs & Hd); [apply zlen_nonneg| | |].
  - split; [|intros; lia]. cbn [fst snd]. assert (forall p b, idx (replicate (Z.to_nat n) false) p = Some b -> b = false) as Hf by (intros p b [_ Hp]%idx_Some; by apply lookup_replicate in Hp as [-> _]).
    split; [unfold zlen at 1; rewrite length_replicate; pose proof (zlen_nonneg x0); lia|done|intros p k Hp; by apply Hf in Hp|done|intros p Hp; by apply Hf in Hp].
  - intros i [done x] Hi [Hs Hd]. destruct (permute_at_ok i done x Hs Hi) as (done' & x' & E & Hs' & Hk & Hdi). exists (done', x'). split_and!; [done|done|]. cbn [fst] in *. intros p Hp. destruct (decide (p = i)) as [->|]; [done|]. apply Hk, Hd. lia.
  - exists done, x. cbn [fst snd] in *. split_and!; [done|apply Hs|]. intros p k Hp. apply (se_done _ _ Hs); [|done]. apply Hd. pose proof (idx_range _ _ _ Hp). by rewrite <- ix_len.
Qed.
End permute.

(** ** The order of the indices *)

(** The element at an index, tagged. *)
Definition at_ (v : T) (x : list T) (k : Z) : T * nat := (default v (idx x k), Z.to_nat k).

Lemma at_tagged v x : at_ v x <$> seqZ 0 (zlen x) = tagged x.
Proof.
  apply list_eq. intros i. unfold tagged. rewrite list_lookup_fmap. destruct (decide (i < length x)%nat) as [Hi|Hi].
  - destruct (lookup_lt_is_Some_2 x i Hi) as [y Hy]. rewrite lookup_seqZ_lt by (unfold zlen; lia). cbn [fmap option_fmap option_map]. rewrite lookup_zip_with, Hy. cbn. rewrite lookup_seq_lt by done. cbn. unfold at_, idx.
    rewrite decide_True by lia. replace (Z.to_nat (0 + Z.of_nat i)) with i by lia. by rewrite Hy.
  - rewrite lookup_seqZ_ge by (unfold zlen; lia). rewrite lookup_zip_with. by rewrite (lookup_ge_None_2 x i) by lia.
Qed.

Section order.
  Context (v : T) (x : list T).
  Notation ordk := (fun a b => ord (lt := lt) (at_ v x a) (at_ v x b)).

Lemma index_cmp_ok a b : 0 <= a < b -> b < zlen x -> match index_cmp less x a b with Gt => ordk b a | _ => ordk a b end.
Proof using Hc.
  intros Ha Hb. destruct (idx_lt x a) as [y Ey]; [lia|]. destruct (idx_lt x b) as [z Ez]; [lia|]. unfold index_cmp, ord, at_. rewrite !(Hc x _ _ _ _ Ey Ez), !(Hc x _ _ _ _ Ez Ey), Ey, Ez. cbn [default fst snd id]. unfold id.
  destruct (lt y z) eqn:E1; [by left|]. destruct (lt z y) eqn:E2; [by left|]. right. split; [done|lia].
Qed.

Lemma insert_by_perm cmp a l : insert_by cmp a l ≡ₚ a :: l.
Proof. induction l as [|b l IH]; [done|]. cbn [insert_by]. destruct (cmp a b); [done|done|]. rewrite IH. apply Permutation_swap. Qed.

Lemma insert_by_sorted a l : Forall (fun b => 0 <= a < b /\ b < zlen x) l -> StronglySorted ordk l -> StronglySorted ordk (insert_by (index_cmp less x) a l).
Proof using All.
  intros Hf Hs. induction Hs as [|b l Hs IH Hb]; [by repeat constructor|]. apply list.Forall_cons in Hf as [[Ha Hbl] Hf]. cbn [insert_by]. pose proof (index_cmp_ok a b Ha Hbl) as Ho.
  assert (ordk a b -> Forall (ordk a) (b :: l)) as Hall by (intros Hab; apply list.Forall_cons; split; [done|]; eapply Forall_impl; [exact Hb|]; intros c Hbc; by eapply ord_trans).
  destruct (index_cmp less x a b); [constructor; [by constructor|auto]..|]. constructor; [auto|]. rewrite insert_by_perm. by apply list.Forall_cons.
Qed.

Lemma sort_by_ok k m : 0 <= k -> k + Z.of_nat m = zlen x -> sort_by (index_cmp less x) (seqZ k (Z.of_nat m)) ≡ₚ seqZ k (Z.of_nat m) /\ StronglySorted ordk (sort_by (index_cmp less x) (seqZ k (Z.of_nat m))).
Proof using All.
  revert k. induction m as [|m IH]; intros k Hk Hm; [split; [done|constructor]|]. rewrite seqZ_cons by lia. replace (Z.pred (Z.of_nat (S m))) with (Z.of_nat m) by lia. cbn [sort_by foldr].
  destruct (IH (Z.succ k)) as [Hp Hs]; [lia|lia|]. split; [unfold sort_by in *; cbn [foldr]; by rewrite insert_by_perm, Hp|]. apply insert_by_sorted; [|done]. apply list.Forall_forall. intros b Hb. unfold sort_by in Hp. rewrite Hp in Hb. apply elem_of_seqZ in Hb. lia.
Qed.
End order.

Lemma SliceStable_ok x : exists x', SliceStable less x = Some x' /\ x' ≡ₚ x /\ StronglySorted (leq (lt := lt)) x' /\ forall y, filter (eqv (lt := lt) y) x' = filter (eqv (lt := lt) y) x.
Proof using All.
  unfold SliceStable. destruct (decide (zlen x <= 1)) as [H1|H1].
  { exists x. split_and!; try done. destruct x as [|y [|z l]]; [constructor|by repeat constructor|]. zlens. pose proof (zlen_nonneg l). lia. }
  destruct x as [|v x1] eqn:Ex; [zlens; lia|]. rewrite <- Ex in *. clear Ex. destruct (sort_by_ok v x 0 (length x)) as [Hp Hs]; [lia|done|]. fold (zlen x) in Hp, Hs. set (ix := sort_by _ _) in *.
  destruct (permute_ok ix x Hp) as (done & x' & E & Hl & Hx). rewrite E, some_bind. exists x'. split; [done|]. assert (x' = (at_ v x <$> ix).*1) as ->.
  - apply list_eq. intros i. rewrite !list_lookup_fmap. destruct (ix !! i) as [k|] eqn:Ei; cbn [fmap option_fmap option_map].
    + assert (idx ix (Z.of_nat i) = Some k) as Ek by (apply idx_Some; rewrite Nat2Z.id; split; [lia|done]). specialize (Hx _ _ Ek). destruct (idx_lt x k) as [y Ey]; [by eapply ix_range|]. rewrite Ey in Hx. apply idx_Some in Hx as [_ Hx].
      rewrite Nat2Z.id in Hx. cbn. by rewrite Ey.
    + apply lookup_ge_None in Ei. apply lookup_ge_None. rewrite <- (ix_len ix x Hp) in Hl. unfold zlen in Hl. lia.
  - apply tagged_stable; [|by eapply StronglySorted_fmap; [|exact Hs]]. by rewrite Hp, at_tagged.
Qed.

(** [Slice] and [SliceStable] return on every slice and leave it sorted by the closure, [SliceStable]
    with equal elements in the order they had. *)
Theorem slices_sort x :
  (exists x', Slice less x = Some x' /\ x' ≡ₚ x /\ StronglySorted (leq (lt := lt)) x') /\
  (exists x', SliceStable less x = Some x' /\ x' ≡ₚ x /\ StronglySorted (leq (lt := lt)) x' /\ forall y, filter (eqv (lt := lt) y) x' = filter (eqv (lt := lt) y) x).
Proof using All. split; [|apply SliceStable_ok]. rewrite Slice_sort. apply (Sort_ok (I := I)). Qed.
End slices.

(** ** On concrete slices *)

Lemma heapsort_sorts_witness : Sort (I := IntSlice) [5; 3; 9; 1; 5] = Some [1; 3; 5; 5; 9] /\
  (exists d', Sort (I := IntSlice) [5; 3; 9; 1; 5] = Some d' /\ d' ≡ₚ [5; 3; 9; 1; 5] /\ StronglySorted (leq (lt := Z.ltb)) d') /\
  (exists d', Sort (I := reverse_interface IntSlice) (mkReverse [5; 3; 9; 1; 5]) = Some (mkReverse d') /\ d' ≡ₚ [5; 3; 9; 1; 5] /\ StronglySorted (fun x y => (x <? y) = false) d').
Proof. split; [vm_compute; reflexivity|]. exact (heapsort_sorts (I := IntSlice) [5; 3; 9; 1; 5]). Defined.

Lemma key_compares : compares key_lt (slice_less key_lt).
Proof. intros l i j x y Ex Ey. unfold slice_less. by rewrite Ex, Ey. Qed.

Lemma checks_exact_witness : IntsAreSorted [1; 2; 2] = true /\ StronglySorted Z.le [1; 2; 2] /\
  (SliceIsSorted (slice_less key_lt) [(2, 0); (1, 1)] = true <-> StronglySorted (leq (lt := key_lt)) [(2, 0); (1, 1)]).
Proof.
  split; [vm_compute; reflexivity|]. split; [apply (proj1 (proj2 checks_exact)); vm_compute; reflexivity|]. apply (proj2 (proj2 (proj2 checks_exact))); [apply _|exact key_compares].
Defined.

(** The first square above 50, and 7 in a sorted slice. *)
Lemma search_finds_first_witness : Search 10 (fun i => 50 <? i * i) = Some 8 /\
  (exists k, Search 10 (fun i => 50 <? i * i) = Some k /\ 0 <= k <= 10 /\ forall i, 0 <= i < 10 -> (50 <? i * i) = true <-> k <= i) /\
  (exists k found, Find 10 (fun i => 7 - i) = Some (k, found) /\ 0 <= k <= 10 /\ (forall i, 0 <= i < 10 -> 7 - i <= 0 <-> k <= i) /\ (found = true <-> exists i, 0 <= i < 10 /\ 7 - i = 0)).
Proof.
  split; [vm_compute; reflexivity|]. split.
  - apply (search_finds_first 10); [lia|]. intros i j Hij Hj. rewrite !Z.ltb_lt. nia.
  - apply (search_finds_first 10); [lia|]. intros i j Hij Hj. lia.
Defined.

Lemma slices_sort_witness : SliceStable (slice_less key_lt) [(2, 0); (1, 1); (2, 2); (0, 3); (1, 4)] = Some [(0, 3); (1, 1); (1, 4); (2, 0); (2, 2)] /\
  (exists x', Slice (slice_less key_lt) three_keys = Some x' /\ x' ≡ₚ three_keys /\ StronglySorted (leq (lt := key_lt)) x') /\
  (exists x', SliceStable (slice_less key_lt) three_keys = Some x' /\ x' ≡ₚ three_keys /\ StronglySorted (leq (lt := key_lt)) x' /\ forall y, filter (eqv (lt := key_lt) y) x' = filter (eqv (lt := key_lt) y) three_keys).
Proof. split; [vm_compute; reflexivity|]. apply (slices_sort key_compares three_keys). Defined.
