(* ===== verification/ContainerList.v ===== *)
(** Doubly linked lists: src/src/container/list/list.rs.

    A [List] is a handle on a shared [ListInner], a slab of nodes keyed by id whose links form a
    ring through the sentinel [ROOT_ID]; an [Element] is a handle of a list (weak), a node id and
    the shared cell of its value.  [World] is the store those handles point into: lists and cells
    by location.  A list whose last strong handle was dropped has left the store, which is when
    [Weak::upgrade] fails.  [None] is a panic; every list method is called on a live list. *)
From Stdlib Require Import ZArith Lia.
From stdpp Require Import base tactics numbers list list_numbers option fin_maps gmap.
From S2P Require Import Prelude.
Open Scope Z_scope.

Definition ROOT_ID : Z := 0.
Definition FIRST_REAL_ID : Z := 1.

Record Node := mkNode { next : Z; prev : Z; value : option Z }.
Record ListInner := mkInner { nodes : gmap Z Node; next_id : Z; len : Z }.

(** The handle: the list it belongs to, the node and the value's cell. *)
Record Element := mkElement { e_list : Z; e_id : Z; e_value : Z }.

Definition set_next (y : Z) (n : Node) : Node := mkNode y (prev n) (value n).
Definition set_prev (y : Z) (n : Node) : Node := mkNode (next n) y (value n).

(** [get_mut(&k).expect(..)] and an assignment to a field. *)
Definition modify (f : Node -> Node) (k : Z) (m : gmap Z Node) : option (gmap Z Node) :=
  n ← m !! k; Some (<[k := f n]> m).

(** ** The slab *)

Definition root_node : Node := mkNode ROOT_ID ROOT_ID None.

Definition inner_new : ListInner := mkInner {[ROOT_ID := root_node]} FIRST_REAL_ID 0.

Definition insert (s : ListInner) (v : Z) (at_ : Z) : option (ListInner * Z) :=
  let new_id := next_id s in
  at_next ← next <$> nodes s !! at_;
  let m := <[new_id := mkNode at_next at_ (Some v)]> (nodes s) in
  m ← modify (set_next new_id) at_ m;
  m ← modify (set_prev new_id) at_next m;
  Some (mkInner m (add64 (next_id s) 1) (len s + 1), new_id).

Definition insertValue (s : ListInner) (v : Z) (at_ : Z) : option (ListInner * Z) := insert s v at_.

Definition lazyInit (s : ListInner) : ListInner :=
  if decide (is_Some (nodes s !! ROOT_ID)) then s
  else mkInner (<[ROOT_ID := root_node]> (nodes s)) FIRST_REAL_ID 0.

Definition remove (s : ListInner) (e : Z) : ListInner :=
  match nodes s !! e with
  | None => s
  | Some n =>
      let m := alter (set_next (next n)) (prev n) (nodes s) in
      let m := alter (set_prev (prev n)) (next n) m in
      mkInner (delete e m) (next_id s) (len s - 1)
  end.

Definition move (s : ListInner) (e at_ : Z) : option ListInner :=
  if decide (e = at_) then Some s
  else
    n ← nodes s !! e;
    m ← modify (set_next (next n)) (prev n) (nodes s);
    m ← modify (set_prev (prev n)) (next n) m;
    at_next ← next <$> m !! at_;
    m ← modify (fun n => mkNode at_next at_ (value n)) e m;
    m ← modify (set_next e) at_ m;
    m ← modify (set_prev e) at_next m;
    Some (mkInner m (next_id s) (len s)).

(** ** The store *)

Section list.
  Context {T : Type}.

Record World := mkWorld { lists : gmap Z ListInner; cells : gmap Z T; next_loc : Z }.
Implicit Types w : World.

Definition set_list w (l : Z) (s : ListInner) : World := mkWorld (<[l := s]> (lists w)) (cells w) (next_loc w).

(** [Rc::new(RefCell::new(v))] *)
Definition alloc_cell w (v : T) : World * Z :=
  (mkWorld (lists w) (<[next_loc w := v]> (cells w)) (next_loc w + 1), next_loc w).

(** The last strong handle of the list goes away. *)
Definition drop_list w (l : Z) : World := mkWorld (delete l (lists w)) (cells w) (next_loc w).

(** [e.list.upgrade().map(|rc| Rc::ptr_eq(&rc, &self.inner)).unwrap_or(false)] *)
Definition same w (l : Z) (e : Element) : bool :=
  match lists w !! e_list e with Some _ => bool_decide (e_list e = l) | None => false end.

Definition New w : World * Z :=
  (mkWorld (<[next_loc w := inner_new]> (lists w)) (cells w) (next_loc w + 1), next_loc w).

Definition Init w (l : Z) : World := set_list w l (mkInner {[ROOT_ID := root_node]} FIRST_REAL_ID 0).

Definition Len w (l : Z) : option Z := len <$> lists w !! l.

(** The element with node [id], if the slab has it with a value. *)
Definition handle (s : ListInner) (l id : Z) : option Element :=
  n ← nodes s !! id; v ← value n; Some (mkElement l id v).

Definition Front w (l : Z) : option (option Element) :=
  s ← lists w !! l;
  Some (if decide (len s = 0) then None else r ← nodes s !! ROOT_ID; handle s l (next r)).

Definition Back w (l : Z) : option (option Element) :=
  s ← lists w !! l;
  Some (if decide (len s = 0) then None else r ← nodes s !! ROOT_ID; handle s l (prev r)).

Definition Value w (e : Element) : option T := cells w !! e_value e.

Definition SetValue w (e : Element) (v : T) : World :=
  mkWorld (lists w) (<[e_value e := v]> (cells w)) (next_loc w).

Definition Remove w (l : Z) (e : Element) : option (World * T) :=
  s ← lists w !! l;
  let w := if decide (same w l e = true /\ is_Some (nodes s !! e_id e) /\ e_id e <> ROOT_ID)
           then set_list w l (remove s (e_id e)) else w in
  v ← Value w e;
  Some (w, v).

Definition PushFront w (l : Z) (v : T) : option (World * Element) :=
  let '(w, c) := alloc_cell w v in
  s ← lists w !! l;
  let s := lazyInit s in
  '(s, id) ← insertValue s c ROOT_ID;
  Some (set_list w l s, mkElement l id c).

Definition PushBack w (l : Z) (v : T) : option (World * Element) :=
  let '(w, c) := alloc_cell w v in
  s ← lists w !! l;
  let s := lazyInit s in
  tail ← prev <$> nodes s !! ROOT_ID;
  '(s, id) ← insertValue s c tail;
  Some (set_list w l s, mkElement l id c).

Definition InsertBefore w (l : Z) (v : T) (mark : Element) : option (World * option Element) :=
  s ← lists w !! l;
  if negb (same w l mark) then Some (w, None)
  else
    let '(w', c) := alloc_cell w v in
    match nodes s !! e_id mark with
    | None => Some (w, None) (* the cell is freed again *)
    | Some n => '(s, id) ← insertValue s c (prev n); Some (set_list w' l s, Some (mkElement l id c))
    end.

Definition InsertAfter w (l : Z) (v : T) (mark : Element) : option (World * option Element) :=
  s ← lists w !! l;
  if negb (same w l mark) then Some (w, None)
  else if decide (~ is_Some (nodes s !! e_id mark)) then Some (w, None)
  else
    let '(w, c) := alloc_cell w v in
    '(s, id) ← insertValue s c (e_id mark);
    Some (set_list w l s, Some (mkElement l id c)).

Definition MoveToFront w (l : Z) (e : Element) : option World :=
  s ← lists w !! l;
  if negb (same w l e) then Some w
  else
    match nodes s !! ROOT_ID with
    | None => Some w
    | Some r =>
        if decide (next r = e_id e) then Some w
        else if decide (~ is_Some (nodes s !! e_id e) \/ e_id e = ROOT_ID) then Some w
        else s ← move s (e_id e) ROOT_ID; Some (set_list w l s)
    end.

Definition MoveToBack w (l : Z) (e : Element) : option World :=
  s ← lists w !! l;
  if negb (same w l e) then Some w
  else
    match nodes s !! ROOT_ID with
    | None => Some w
    | Some r =>
        if decide (prev r = e_id e) then Some w
        else if decide (~ is_Some (nodes s !! e_id e) \/ e_id e = ROOT_ID) then Some w
        else s ← move s (e_id e) (prev r); Some (set_list w l s)
    end.

Definition MoveBefore w (l : Z) (e mark : Element) : option World :=
  s ← lists w !! l;
  if decide (same w l e = false \/ e_id e = e_id mark \/ same w l mark = false) then Some w
  else if decide (~ is_Some (nodes s !! e_id e) \/ ~ is_Some (nodes s !! e_id mark)) then Some w
  else
    mark_prev ← prev <$> nodes s !! e_id mark;
    s ← move s (e_id e) mark_prev; Some (set_list w l s).

Definition MoveAfter w (l : Z) (e mark : Element) : option World :=
  s ← lists w !! l;
  if decide (same w l e = false \/ e_id e = e_id mark \/ same w l mark = false) then Some w
  else if decide (~ is_Some (nodes s !! e_id e) \/ ~ is_Some (nodes s !! e_id mark)) then Some w
  else s ← move s (e_id e) (e_id mark); Some (set_list w l s).

(** The walk of the two snapshots: [dir] is [next] or [prev]; running out of fuel is [None]. *)
Fixpoint walk (dir : Node -> Z) (fuel : nat) (cs : gmap Z T) (s : ListInner) (cur : Z) : option (list T) :=
  match fuel with
  | O => None
  | S fuel =>
      if decide (cur = ROOT_ID) then Some []
      else
        n ← nodes s !! cur;
        match value n with
        | Some c => v ← cs !! c; rest ← walk dir fuel cs s (dir n); Some (v :: rest)
        | None => walk dir fuel cs s (dir n)
        end
  end.

Definition snapshot_forward w (l : Z) : option (list T) :=
  s ← lists w !! l; r ← nodes s !! ROOT_ID;
  walk next (S (size (nodes s))) (cells w) s (next r).

Definition snapshot_backward w (l : Z) : option (list T) :=
  s ← lists w !! l; r ← nodes s !! ROOT_ID;
  walk prev (S (size (nodes s))) (cells w) s (prev r).

(** The loops of the two [Push*List], over the values left. *)
Fixpoint push_back_all w (l : Z) (vs : list T) : option World :=
  match vs with
  | [] => Some w
  | v :: vs =>
      s ← lists w !! l;
      tail ← prev <$> nodes s !! ROOT_ID;
      let '(w, c) := alloc_cell w v in
      '(s, _) ← insertValue s c tail;
      push_back_all (set_list w l s) l vs
  end.

Definition PushBackList w (l other : Z) : option World :=
  snap ← snapshot_forward w other;
  s ← lists w !! l;
  push_back_all (set_list w l (lazyInit s)) l snap.

Fixpoint push_front_all w (l : Z) (vs : list T) : option World :=
  match vs with
  | [] => Some w
  | v :: vs =>
      s ← lists w !! l;
      let '(w, c) := alloc_cell w v in
      '(s, _) ← insertValue s c ROOT_ID;
      push_front_all (set_list w l s) l vs
  end.

Definition PushFrontList w (l other : Z) : option World :=
  snap ← snapshot_backward w other;
  s ← lists w !! l;
  push_front_all (set_list w l (lazyInit s)) l snap.

Definition Next w (e : Element) : option Element :=
  s ← lists w !! e_list e;
  n ← nodes s !! e_id e;
  if decide (next n = ROOT_ID) then None else handle s (e_list e) (next n).

Definition Prev w (e : Element) : option Element :=
  s ← lists w !! e_list e;
  n ← nodes s !! e_id e;
  if decide (prev n = ROOT_ID) then None else handle s (e_list e) (prev n).
End list.
