(* ===== verification/ContainerListSpec.v ===== *)
(** The linked list refines sequences: every operation of list.rs on the slab of nodes is the
    expected operation on the sequence of its elements, and none panics. *)
From Stdlib Require Import ZArith Lia.
From stdpp Require Import base tactics numbers list list_numbers option fin_maps gmap.
From S2P Require Import Prelude ContainerList.
Open Scope Z_scope.

(** ** Links *)

Definition nxt (m : gmap Z Node) (x : Z) : option Z := next <$> m !! x.
Definition prv (m : gmap Z Node) (x : Z) : option Z := prev <$> m !! x.
Definition val (m : gmap Z Node) (x : Z) : option Z := m !! x ≫= value.

Fixpoint chain (m : gmap Z Node) (l : list Z) : Prop :=
  match l with
  | x :: (y :: _) as t => nxt m x = Some y /\ prv m y = Some x /\ chain m t
  | _ => True
  end.

Section chain.
  Implicit Types (m : gmap Z Node) (p q : list Z).

Lemma chain_cons2 m x y q : chain m (x :: y :: q) <-> nxt m x = Some y /\ prv m y = Some x /\ chain m (y :: q).
Proof. done. Qed.

Lemma chain_app m p x q : chain m (p ++ x :: q) <-> chain m (p ++ [x]) /\ chain m (x :: q).
Proof.
  induction p as [|y p IH]; cbn [app]; [cbn; tauto|]. destruct p as [|z p]; cbn [app] in *; [cbn; tauto|].
  cbn [chain] in *. tauto.
Qed.

Lemma links_frame m m' p : chain m p -> (forall z, z ∈ removelast p -> nxt m' z = nxt m z) ->
  (forall z, z ∈ tail p -> prv m' z = prv m z) -> chain m' p.
Proof.
  induction p as [|x p IH]; [done|]. destruct p as [|y p]; [done|]. intros (Hn & Hp & Hc) Hf Hb. cbn [chain removelast tail] in *.
  rewrite Hf, Hb by (rewrite elem_of_cons; auto). split_and!; [done|done|]. apply IH; [done| |].
  - intros z Hz. apply Hf. rewrite elem_of_cons. auto.
  - intros z Hz. apply Hb. destruct p; [by apply elem_of_nil in Hz|]. rewrite elem_of_cons. auto.
Qed.

Lemma removelast_mid p x y q : removelast (p ++ x :: y :: q) = p ++ x :: removelast (y :: q).
Proof. rewrite removelast_app by done. done. Qed.

Lemma tail_mid p x q : tail (p ++ x :: q) = tail (p ++ [x]) ++ q.
Proof. destruct p; [done|]. cbn. by rewrite <- app_assoc. Qed.

(** Putting [e] between [x] and [y]. *)
Lemma chain_splice m m' p x y q e : chain m (p ++ x :: y :: q) -> NoDup (removelast (p ++ x :: y :: q)) -> NoDup (tail (p ++ x :: y :: q)) ->
  e ∉ p ++ x :: y :: q ->
  (forall z, nxt m' z = if decide (z = x) then Some e else if decide (z = e) then Some y else nxt m z) ->
  (forall z, prv m' z = if decide (z = y) then Some e else if decide (z = e) then Some x else prv m z) ->
  chain m' (p ++ x :: e :: y :: q).
Proof.
  intros Hc Hn Ht He Hnx Hpv. rewrite removelast_mid in Hn. rewrite tail_mid in Ht. apply chain_app in Hc as [Hc1 Hc2]. destruct Hc2 as (_ & _ & Hc2).
  apply list.NoDup_app in Hn as (_ & Hn1 & Hn2). apply list.NoDup_cons in Hn2 as [Hn2 _].
  apply list.NoDup_app in Ht as (_ & Ht1 & Ht2). apply list.NoDup_cons in Ht2 as [Ht2 _].
  rewrite elem_of_app, !elem_of_cons in He. apply chain_app. split.
  - eapply links_frame; [exact Hc1| |].
    + rewrite removelast_app, app_nil_r by done. intros z Hz. rewrite Hnx.
      rewrite decide_False by (intros ->; apply (Hn1 x Hz); rewrite elem_of_cons; auto). by rewrite decide_False by (intros ->; tauto).
    + intros z Hz. rewrite Hpv. rewrite decide_False by (intros ->; apply (Ht1 y Hz); rewrite elem_of_cons; auto).
      rewrite decide_False; [done|]. intros ->. apply He. destruct p; cbn in Hz; [by apply elem_of_nil in Hz|].
      rewrite elem_of_app, elem_of_cons, elem_of_nil in Hz. rewrite elem_of_cons. tauto.
  - rewrite !chain_cons2, !Hnx, !Hpv. rewrite (decide_True (P := x = x)), (decide_True (P := y = y)), !(decide_True (P := e = e)) by done.
    rewrite (decide_False (P := e = x)), (decide_False (P := e = y)) by tauto. split_and!; try done.
    eapply links_frame; [exact Hc2| |].
    + intros z Hz. rewrite Hnx. rewrite decide_False by (intros ->; tauto). rewrite decide_False; [done|]. intros ->.
      assert (e ∈ y :: q) as Hq by (rewrite (app_removelast_last 0 (l := y :: q)) by done; rewrite elem_of_app; auto). rewrite elem_of_cons in Hq. tauto.
    + cbn. intros z Hz. rewrite Hpv. rewrite decide_False by (intros ->; tauto). by rewrite decide_False by (intros ->; tauto).
Qed.

(** Taking [e] out from between [x] and [y]. *)
Lemma chain_unlink m m' p x e y q : chain m (p ++ x :: e :: y :: q) -> NoDup (removelast (p ++ x :: e :: y :: q)) -> NoDup (tail (p ++ x :: e :: y :: q)) ->
  (forall z, z <> e -> nxt m' z = if decide (z = x) then Some y else nxt m z) ->
  (forall z, z <> e -> prv m' z = if decide (z = y) then Some x else prv m z) ->
  e ∉ p ++ x :: y :: q -> chain m' (p ++ x :: y :: q).
Proof.
  intros Hc Hn Ht Hnx Hpv He. rewrite removelast_mid in Hn. rewrite tail_mid in Ht. apply chain_app in Hc as [Hc1 Hc2]. destruct Hc2 as (_ & _ & _ & _ & Hc2).
  apply list.NoDup_app in Hn as (_ & Hn1 & Hn2). apply list.NoDup_cons in Hn2 as [Hn2 _]. change (removelast (e :: y :: q)) with (e :: removelast (y :: q)) in *.
  apply list.NoDup_app in Ht as (_ & Ht1 & Ht2). apply list.NoDup_cons in Ht2 as [_ Ht2]. apply list.NoDup_cons in Ht2 as [Ht2 _].
  rewrite elem_of_app, !elem_of_cons in He. apply chain_app. split.
  - eapply links_frame; [exact Hc1| |].
    + rewrite removelast_app, app_nil_r by done. intros z Hz. rewrite Hnx by (intros ->; tauto).
      by rewrite decide_False by (intros ->; apply (Hn1 x Hz); rewrite elem_of_cons; auto).
    + intros z Hz. assert (z <> y) by (intros ->; apply (Ht1 y Hz); rewrite !elem_of_cons; auto).
      rewrite Hpv by (intros ->; apply (Ht1 e Hz); rewrite elem_of_cons; auto). by rewrite decide_False.
  - rewrite chain_cons2, Hnx, Hpv, !decide_True by (try done; intros ->; tauto). split_and!; try done.
    eapply links_frame; [exact Hc2| |].
    + intros z Hz. rewrite elem_of_cons in Hn2. assert (z ∈ y :: q) as Hq by (rewrite (app_removelast_last 0 (l := y :: q)) by done; rewrite elem_of_app; auto).
      rewrite elem_of_cons in Hq. rewrite Hnx by (intros ->; tauto). by rewrite decide_False by (intros ->; tauto).
    + cbn. intros z Hz. rewrite Hpv by (intros ->; tauto). by rewrite decide_False by (intros ->; tauto).
Qed.
End chain.

(** ** Updates of one node *)

Section update.
  Implicit Types m : gmap Z Node.

Lemma modify_alter f k m : is_Some (m !! k) -> modify f k m = Some (alter f k m).
Proof.
  intros [n Hn]. unfold modify. rewrite Hn. cbn. f_equal. apply map_eq. intros z.
  destruct (decide (z = k)) as [->|]; [by rewrite lookup_insert_eq, lookup_alter_eq, Hn|by rewrite lookup_insert_ne, lookup_alter_ne].
Qed.

Lemma alter_field {B} (g : Node -> B) f m k z :
  g <$> alter f k m !! z = if decide (z = k) then (fun n => g (f n)) <$> m !! k else g <$> m !! z.
Proof.
  destruct (decide (z = k)) as [->|]; [rewrite lookup_alter_eq; by destruct (m !! k)|by rewrite lookup_alter_ne].
Qed.

Lemma nxt_set_next m k y z : is_Some (m !! k) -> nxt (alter (set_next y) k m) z = if decide (z = k) then Some y else nxt m z.
Proof. intros [n E]. unfold nxt. rewrite alter_field, E. done. Qed.

Lemma prv_set_prev m k y z : is_Some (m !! k) -> prv (alter (set_prev y) k m) z = if decide (z = k) then Some y else prv m z.
Proof. intros [n E]. unfold prv. rewrite alter_field, E. done. Qed.

Lemma prv_set_next m k y z : prv (alter (set_next y) k m) z = prv m z.
Proof. unfold prv. rewrite alter_field. case_decide; [by subst|done]. Qed.

Lemma nxt_set_prev m k y z : nxt (alter (set_prev y) k m) z = nxt m z.
Proof. unfold nxt. rewrite alter_field. case_decide; [by subst|done]. Qed.

Lemma val_join m z : val m z = (value <$> m !! z) ≫= id.
Proof. unfold val. by destruct (m !! z). Qed.

Lemma val_set_next m k y z : val (alter (set_next y) k m) z = val m z.
Proof. rewrite !val_join, alter_field. case_decide; [by subst|done]. Qed.

Lemma val_set_prev m k y z : val (alter (set_prev y) k m) z = val m z.
Proof. rewrite !val_join, alter_field. case_decide; [by subst|done]. Qed.

Lemma nxt_insert m k n z : nxt (<[k := n]> m) z = if decide (z = k) then Some (next n) else nxt m z.
Proof. unfold nxt. case_decide; [subst; by rewrite lookup_insert_eq|by rewrite lookup_insert_ne]. Qed.

Lemma prv_insert m k n z : prv (<[k := n]> m) z = if decide (z = k) then Some (prev n) else prv m z.
Proof. unfold prv. case_decide; [subst; by rewrite lookup_insert_eq|by rewrite lookup_insert_ne]. Qed.

Lemma val_insert m k n z : val (<[k := n]> m) z = if decide (z = k) then value n else val m z.
Proof. unfold val. case_decide; [subst; by rewrite lookup_insert_eq|by rewrite lookup_insert_ne]. Qed.
End update.

#[export] Hint Rewrite nxt_set_prev prv_set_next val_set_next val_set_prev nxt_insert prv_insert val_insert : links.

(** ** The ring of a sequence of elements *)

(** The ring starting and ending at the sentinel. *)
Definition cyc (ids : list Z) : list Z := ROOT_ID :: ids ++ [ROOT_ID].
(** The node before, and after, a position that splits the sequence in [a] and [b]. *)
Definition pred (a : list Z) : Z := List.last a ROOT_ID.
Definition succ (b : list Z) : Z := hd ROOT_ID b.

Lemma cyc_split a b : exists p q, p ++ [pred a] = ROOT_ID :: a /\ succ b :: q = b ++ [ROOT_ID] /\
  forall mid, cyc (a ++ mid ++ b) = p ++ pred a :: mid ++ succ b :: q.
Proof.
  assert (exists p, p ++ [pred a] = ROOT_ID :: a) as [p Hp].
  { exists (removelast (ROOT_ID :: a)). rewrite (app_removelast_last ROOT_ID (l := ROOT_ID :: a)) at 2 by done. f_equal. f_equal. unfold pred. by destruct a. }
  assert (exists q, succ b :: q = b ++ [ROOT_ID]) as [q Hq] by (destruct b; by eexists).
  exists p, q. split_and!; [done|done|]. intros mid. unfold cyc. rewrite Hq, <- !app_assoc. rewrite (app_comm_cons a), <- Hp, <- !app_assoc. done.
Qed.

Lemma cyc_removelast ids : removelast (cyc ids) = ROOT_ID :: ids.
Proof. unfold cyc. rewrite app_comm_cons, removelast_app, app_nil_r by done. done. Qed.

Lemma cyc_tail ids : NoDup (ROOT_ID :: ids) -> NoDup (tail (cyc ids)).
Proof. unfold cyc. cbn [tail]. intros [Hr Hn]%list.NoDup_cons. apply list.NoDup_app. split_and!; [done| |apply NoDup_singleton]. by intros x Hx ->%list_elem_of_singleton. Qed.

(** The slab [s] holds the elements [els], node id and value cell of each, in order. *)
Record ring (s : ListInner) (els : list (Z * Z)) : Prop := {
  r_nodup : NoDup (ROOT_ID :: els.*1);
  r_chain : chain (nodes s) (cyc els.*1);
  r_dom : forall k, is_Some (nodes s !! k) <-> k ∈ ROOT_ID :: els.*1;
  r_val : forall k c, (k, c) ∈ els -> val (nodes s) k = Some c;
  r_len : len s = zlen els;
  r_next : 1 <= next_id s < 2 ^ 64;
  r_ids : forall k, k ∈ els.*1 -> 1 <= k < next_id s
}.

Lemma ring_new : ring inner_new [].
Proof.
  split; cbn; try done; try lia; [apply NoDup_singleton| |set_solver|set_solver].
  intros k. rewrite list_elem_of_singleton, lookup_insert_is_Some, lookup_empty, is_Some_alt. unfold ROOT_ID. naive_solver.
Qed.

(** The links at a position of the ring. *)
Lemma ring_at s a b : ring s (a ++ b) ->
  nxt (nodes s) (pred a.*1) = Some (succ b.*1) /\ prv (nodes s) (succ b.*1) = Some (pred a.*1) /\
  is_Some (nodes s !! pred a.*1) /\ is_Some (nodes s !! succ b.*1).
Proof.
  intros Hr. pose proof (r_chain _ _ Hr) as Hc. rewrite fmap_app in Hc. destruct (cyc_split a.*1 b.*1) as (p & q & _ & _ & Hs).
  specialize (Hs []). cbn in Hs. rewrite Hs in Hc. apply chain_app in Hc as [_ Hc]. apply chain_cons2 in Hc as (Hn & Hp & _).
  split_and!; [done|done|..].
  - apply (fmap_is_Some next). by exists (succ b.*1).
  - apply (fmap_is_Some prev). by exists (pred a.*1).
Qed.

(** One step of a proof that fields of an updated slab agree. *)
Ltac links := repeat first
  [ progress autorewrite with links | rewrite nxt_set_next by (rewrite ?lookup_alter_is_Some, ?lookup_insert_is_Some; auto)
  | rewrite prv_set_prev by (rewrite ?lookup_alter_is_Some, ?lookup_insert_is_Some; auto) ]; cbn [next prev value];
  repeat (case_decide; subst; try done).

Lemma insert_ok s a b c : ring s (a ++ b) -> next_id s + 1 < 2 ^ 64 ->
  exists s', insert s c (pred a.*1) = Some (s', next_id s) /\ next_id s' = next_id s + 1 /\ ring s' (a ++ (next_id s, c) :: b).
Proof.
  intros Hr Hroom. destruct (ring_at s a b Hr) as (Hnx & Hpv & Hx & Hy). set (e := next_id s) in *.
  assert (e ∉ ROOT_ID :: (a ++ b).*1) as He.
  { rewrite elem_of_cons. intros [E|Hin]; [pose proof (r_next _ _ Hr); unfold ROOT_ID in *; lia|]. apply (r_ids _ _ Hr) in Hin. lia. }
  assert (forall k, is_Some (nodes s !! k) -> k <> e) as Hne by (intros k Hk ->; by apply (r_dom _ _ Hr) in Hk).
  unfold insert. unfold nxt in Hnx. rewrite Hnx. cbn [mbind option_bind]. fold e.
  set (x := pred a.*1) in *. set (y := succ b.*1) in *. pose proof (Hne _ Hx). pose proof (Hne _ Hy).
  rewrite modify_alter by (rewrite lookup_insert_is_Some; auto). cbn [mbind option_bind].
  rewrite modify_alter by (rewrite lookup_alter_is_Some, lookup_insert_is_Some; auto). cbn [mbind option_bind].
  set (m := alter _ y _). eexists. split; [done|]. pose proof (r_next _ _ Hr). cbn [next_id]. split; [unfold add64, wrap64; rewrite Z.mod_small; lia|].
  destruct (cyc_split a.*1 b.*1) as (p & q & _ & _ & Hs). pose proof (Hs []) as Hs0. pose proof (Hs [e]) as Hs1. cbn [app] in Hs0, Hs1.
  fold x y in Hs0, Hs1. pose proof (r_nodup _ _ Hr) as Hnd. rewrite fmap_app in Hnd, He.
  assert ((a ++ (e, c) :: b).*1 = a.*1 ++ e :: b.*1) as Efm by by rewrite fmap_app.
  split; cbn [nodes next_id len]; rewrite ?Efm.
  - rewrite <- (Permutation_middle a.*1 b.*1 e). rewrite Permutation_swap. by apply list.NoDup_cons.
  - rewrite Hs1. apply (chain_splice (nodes s)).
    + rewrite <- Hs0, <- fmap_app. apply Hr.
    + by rewrite <- Hs0, cyc_removelast.
    + rewrite <- Hs0. by apply cyc_tail.
    + rewrite <- Hs0. unfold cyc. rewrite app_comm_cons, elem_of_app, list_elem_of_singleton. intros [|E]; [done|]. rewrite elem_of_cons in He. tauto.
    + intros z. unfold m. links.
    + intros z. unfold m. links.
  - intros k. unfold m. rewrite !lookup_alter_is_Some, lookup_insert_is_Some. pose proof (r_dom _ _ Hr k) as Hd. rewrite fmap_app in Hd. set_solver.
  - intros k d Hin. unfold m. autorewrite with links. cbn [value]. rewrite <- Permutation_middle in Hin. apply elem_of_cons in Hin as [[= -> ->]|Hin].
    + by rewrite decide_True.
    + rewrite decide_False; [by apply (r_val _ _ Hr)|]. intros ->. apply He. right. rewrite <- fmap_app. apply list_elem_of_fmap. by exists (e, d).
  - rewrite (r_len _ _ Hr). unfold zlen. rewrite !length_app. cbn. lia.
  - unfold add64, wrap64. rewrite Z.mod_small; lia.
  - unfold add64, wrap64. rewrite Z.mod_small by lia. intros k. rewrite elem_of_app, elem_of_cons.
    intros Hk. destruct (decide (k = e)) as [->|]; [lia|]. assert (k ∈ (a ++ b).*1) as Hk' by (rewrite fmap_app, elem_of_app; tauto). apply (r_ids _ _ Hr) in Hk'. lia.
Qed.

Lemma ring_split_ne s a e c b : ring s (a ++ (e, c) :: b) -> e ∉ ROOT_ID :: (a ++ b).*1 /\ NoDup (ROOT_ID :: (a ++ b).*1).
Proof.
  intros Hr. pose proof (r_nodup _ _ Hr) as Hnd. rewrite <- Permutation_middle in Hnd. cbn in Hnd. rewrite Permutation_swap in Hnd.
  by apply list.NoDup_cons in Hnd.
Qed.

(** The node of an element, and the links around it. *)
Lemma ring_node s a e c b : ring s (a ++ (e, c) :: b) ->
  exists n, nodes s !! e = Some n /\ prev n = pred a.*1 /\ next n = succ b.*1 /\ value n = Some c /\
    is_Some (nodes s !! pred a.*1) /\ is_Some (nodes s !! succ b.*1).
Proof.
  intros Hr. destruct (ring_at s a ((e, c) :: b) Hr) as (_ & Hp & Hx & _). cbn in Hp.
  assert (ring s ((a ++ [(e, c)]) ++ b)) as Hr2 by by rewrite <- app_assoc. destruct (ring_at s _ b Hr2) as (Hn & _ & _ & Hy).
  assert (pred (a ++ [(e, c)]).*1 = e) as Ee by (unfold pred; rewrite fmap_app; apply last_last). rewrite Ee in Hn.
  assert (val (nodes s) e = Some c) as Hv by (apply (r_val _ _ Hr); rewrite elem_of_app, elem_of_cons; auto).
  unfold nxt, prv, val in *. destruct (nodes s !! e) as [n|] eqn:E; [|done]. exists n. cbn in *. split_and!; congruence || done.
Qed.

(** Unlinking [e] from its neighbours leaves the ring of the others. *)
Lemma unlinked s a e c b m : ring s (a ++ (e, c) :: b) ->
  (forall z, z <> e -> nxt m z = if decide (z = pred a.*1) then Some (succ b.*1) else nxt (nodes s) z) ->
  (forall z, z <> e -> prv m z = if decide (z = succ b.*1) then Some (pred a.*1) else prv (nodes s) z) ->
  chain m (cyc (a ++ b).*1).
Proof.
  intros Hr Hn Hp. destruct (ring_split_ne _ _ _ _ _ Hr) as [He Hnd]. pose proof (r_nodup _ _ Hr) as Hnd1. pose proof (r_chain _ _ Hr) as Hc.
  rewrite fmap_app in *. cbn [fmap list_fmap fst] in *. destruct (cyc_split a.*1 b.*1) as (p & q & _ & _ & Hs). pose proof (Hs []) as Hs0. pose proof (Hs [e]) as Hs1.
  cbn [app] in Hs0, Hs1. rewrite Hs0. rewrite Hs1 in Hc. eapply (chain_unlink (nodes s) m _ _ e); eauto.
  - rewrite <- Hs1, cyc_removelast. done.
  - rewrite <- Hs1. by apply cyc_tail.
  - rewrite <- Hs0. unfold cyc. rewrite app_comm_cons, elem_of_app, list_elem_of_singleton. intros [|E]; [done|]. rewrite elem_of_cons in He. tauto.
Qed.

Lemma remove_ok s a e c b : ring s (a ++ (e, c) :: b) -> ring (remove s e) (a ++ b) /\ next_id (remove s e) = next_id s.
Proof.
  intros Hr. destruct (ring_node _ _ _ _ _ Hr) as (n & En & Ep & Ex & _ & Hx & Hy). unfold remove. rewrite En, Ep, Ex. split; [|done].
  destruct (ring_split_ne _ _ _ _ _ Hr) as [He Hnd]. split; cbn [nodes next_id len].
  - done.
  - eapply unlinked; [done| |]; intros z Hz; unfold nxt, prv; rewrite lookup_delete_ne by done; fold (nxt (nodes s) z) (prv (nodes s) z).
    + change (nxt (alter (set_prev (pred a.*1)) (succ b.*1) (alter (set_next (succ b.*1)) (pred a.*1) (nodes s))) z = if decide (z = pred a.*1) then Some (succ b.*1) else nxt (nodes s) z). links.
    + change (prv (alter (set_prev (pred a.*1)) (succ b.*1) (alter (set_next (succ b.*1)) (pred a.*1) (nodes s))) z = if decide (z = succ b.*1) then Some (pred a.*1) else prv (nodes s) z). links.
  - intros k. rewrite lookup_delete_is_Some, !lookup_alter_is_Some. pose proof (r_dom _ _ Hr k) as Hd. rewrite fmap_app in *. cbn in *. set_solver.
  - intros k d Hin. unfold val. assert (k <> e) as Hk. { intros ->. apply He. right. apply list_elem_of_fmap. by exists (e, d). }
    rewrite lookup_delete_ne by done. change (val (alter (set_prev (pred a.*1)) (succ b.*1) (alter (set_next (succ b.*1)) (pred a.*1) (nodes s))) k = Some d).
    autorewrite with links. apply (r_val _ _ Hr). set_solver.
  - rewrite (r_len _ _ Hr). unfold zlen. rewrite !length_app. cbn. lia.
  - apply Hr.
  - intros k Hk. apply (r_ids _ _ Hr). rewrite fmap_app in *. cbn. set_solver.
Qed.

Lemma move_ok s a e c b a' b' : ring s (a ++ (e, c) :: b) -> a ++ b = a' ++ b' ->
  exists s', move s e (pred a'.*1) = Some s' /\ next_id s' = next_id s /\ ring s' (a' ++ (e, c) :: b').
Proof.
  intros Hr Hab. destruct (ring_node _ _ _ _ _ Hr) as (n & En & Ep & Ex & Ev & Hx & Hy). destruct (ring_split_ne _ _ _ _ _ Hr) as [He Hnd].
  rewrite Hab in He, Hnd. rewrite fmap_app in He, Hnd. destruct (cyc_split a'.*1 b'.*1) as (p & q & Hp & Hq & Hs). pose proof (Hs []) as Hs0. pose proof (Hs [e]) as Hs1. cbn [app] in Hs0, Hs1.
  assert (pred a'.*1 ∈ ROOT_ID :: a'.*1) as Hin by (rewrite <- Hp; rewrite elem_of_app, list_elem_of_singleton; auto).
  assert (e <> pred a'.*1) as Hne by (intros E; rewrite <- E in Hin; apply He; set_solver).
  unfold move. rewrite decide_False by done. rewrite En. cbn [mbind option_bind]. rewrite Ep, Ex.
  rewrite modify_alter by done. cbn [mbind option_bind]. rewrite modify_alter by by rewrite lookup_alter_is_Some. cbn [mbind option_bind].
  set (m := alter _ (succ b.*1) _).
  assert (chain m (cyc (a ++ b).*1)) as Hc by (eapply unlinked; [done|intros z Hz; unfold m; links|intros z Hz; unfold m; links]).
  rewrite Hab, fmap_app, Hs0 in Hc. pose proof Hc as Hc0. apply chain_app in Hc0 as [_ Hc0]. apply chain_cons2 in Hc0 as (Hn & Hv & _).
  assert (next <$> m !! pred a'.*1 = Some (succ b'.*1)) as Hn' by exact Hn. rewrite Hn'. cbn [mbind option_bind].
  assert (is_Some (m !! pred a'.*1)) as Hx' by (apply (fmap_is_Some next); eauto). assert (is_Some (m !! succ b'.*1)) as Hy' by (apply (fmap_is_Some prev); by eexists).
  assert (is_Some (m !! e)) as He' by (unfold m; rewrite !lookup_alter_is_Some; eauto). destruct He' as [ne Hne'].
  assert (value ne = Some c) as Evc. { assert (val m e = Some c) as Hvm by (unfold m; autorewrite with links; unfold val; by rewrite En). unfold val in Hvm. by rewrite Hne' in Hvm. }
  unfold modify at 3. rewrite Hne'. cbn [mbind option_bind]. rewrite Evc.
  rewrite modify_alter by (rewrite lookup_insert_is_Some; auto). cbn [mbind option_bind].
  rewrite modify_alter by (rewrite lookup_alter_is_Some, lookup_insert_is_Some'; auto). cbn [mbind option_bind].
  eexists. split_and!; [done|done|]. set (x := pred a'.*1) in *. set (y := succ b'.*1) in *.
  assert ((a' ++ (e, c) :: b').*1 = a'.*1 ++ e :: b'.*1) as Efm by by rewrite fmap_app.
  assert (a ++ (e, c) :: b ≡ₚ a' ++ (e, c) :: b') as Hperm by (by rewrite <- !Permutation_middle, Hab).
  assert (e ∉ p ++ x :: y :: q) as Hep.
  { rewrite <- Hs0. unfold cyc. rewrite app_comm_cons, elem_of_app, list_elem_of_singleton. intros [|E]; [done|]. rewrite elem_of_cons in He. tauto. }
  assert (e <> y) by (intros ->; apply Hep; set_solver).
  split; cbn [nodes next_id len]; rewrite ?Efm.
  - pose proof (r_nodup _ _ Hr) as Hnd1. by rewrite Hperm, Efm in Hnd1.
  - rewrite Hs1. apply (chain_splice m); [done|by rewrite <- Hs0, cyc_removelast|rewrite <- Hs0; by apply cyc_tail|done| |]; intros z; links.
  - intros k. rewrite !lookup_alter_is_Some, lookup_insert_is_Some'. unfold m. rewrite !lookup_alter_is_Some, (r_dom _ _ Hr k), Hperm, Efm. set_solver.
  - intros k d Hin'. autorewrite with links. cbn [value]. rewrite <- Hperm in Hin'. case_decide as E; [|unfold m; autorewrite with links; by apply (r_val _ _ Hr)].
    subst k. apply (r_val _ _ Hr) in Hin'. unfold val in Hin'. rewrite En in Hin'. cbn in Hin'. congruence.
  - rewrite (r_len _ _ Hr). unfold zlen. by rewrite Hperm.
  - apply Hr.
  - intros k Hk. apply (r_ids _ _ Hr). by rewrite Hperm, Efm.
Qed.
