(* ===== verification/ContainerListRefine.v ===== *)
(** The list package against its specification on sequences. *)
From Stdlib Require Import ZArith Lia.
From stdpp Require Import base tactics numbers list list_numbers option fin_maps gmap.
From S2P Require Import Prelude ContainerList ContainerListSpec.
Open Scope Z_scope.

Section spec.
  Context {T : Type}.

(** ** Specification: each list is its sequence of elements, node id and value cell of each,
    with the id the next element gets *)

Record AWorld := mkAWorld { alists : gmap Z (list (Z * Z) * Z); acells : gmap Z T; aloc : Z }.
Implicit Types a : AWorld.

(** The sequence before element [id], its cell, and the sequence after it. *)
Fixpoint cut (id : Z) (els : list (Z * Z)) : option (list (Z * Z) * Z * list (Z * Z)) :=
  match els with
  | [] => None
  | (k, c) :: els =>
      if decide (k = id) then Some ([], c, els)
      else '(p, d, q) ← cut id els; Some ((k, c) :: p, d, q)
  end.

(** Cutting at a handle, which has to belong to list [l]. *)
Definition held (l : Z) (e : Element) (els : list (Z * Z)) : option (list (Z * Z) * Z * list (Z * Z)) :=
  if decide (e_list e = l) then cut (e_id e) els else None.

Definition a_set a (l : Z) (al : list (Z * Z) * Z) : AWorld := mkAWorld (<[l := al]> (alists a)) (acells a) (aloc a).
Definition a_elems a (l : Z) : list (Z * Z) := default [] (fst <$> alists a !! l).
Definition a_next a (l : Z) : Z := default 1 (snd <$> alists a !! l).
Definition a_values a (l : Z) : list T := omap (fun x => acells a !! x.2) (a_elems a l).

(** A new element between [p] and [q]. *)
Definition a_put a (l : Z) (v : T) (p q : list (Z * Z)) : AWorld * Element :=
  let a' := a_set a l (p ++ (a_next a l, aloc a) :: q, a_next a l + 1) in
  (mkAWorld (alists a') (<[aloc a := v]> (acells a)) (aloc a + 1), mkElement l (a_next a l) (aloc a)).

Inductive op :=
| ONew
| OInit (l : Z)
| ODrop (l : Z)
| OPushFront (l : Z) (v : T)
| OPushBack (l : Z) (v : T)
| OInsertBefore (l : Z) (v : T) (mark : Element)
| OInsertAfter (l : Z) (v : T) (mark : Element)
| ORemove (l : Z) (e : Element)
| OMoveToFront (l : Z) (e : Element)
| OMoveToBack (l : Z) (e : Element)
| OMoveBefore (l : Z) (e mark : Element)
| OMoveAfter (l : Z) (e mark : Element)
| OPushBackList (l other : Z)
| OPushFrontList (l other : Z)
| OSetValue (e : Element) (v : T).

Inductive res := RUnit | RList (l : Z) | RElem (e : option Element) | RVal (v : option T).

(** The program: one call. *)
Definition exec (w : World (T := T)) (o : op) : option (World * res) :=
  match o with
  | ONew => let '(w, l) := New w in Some (w, RList l)
  | OInit l => Some (Init w l, RUnit)
  | ODrop l => Some (drop_list w l, RUnit)
  | OPushFront l v => '(w, e) ← PushFront w l v; Some (w, RElem (Some e))
  | OPushBack l v => '(w, e) ← PushBack w l v; Some (w, RElem (Some e))
  | OInsertBefore l v mark => '(w, e) ← InsertBefore w l v mark; Some (w, RElem e)
  | OInsertAfter l v mark => '(w, e) ← InsertAfter w l v mark; Some (w, RElem e)
  | ORemove l e => '(w, v) ← Remove w l e; Some (w, RVal (Some v))
  | OMoveToFront l e => w ← MoveToFront w l e; Some (w, RUnit)
  | OMoveToBack l e => w ← MoveToBack w l e; Some (w, RUnit)
  | OMoveBefore l e mark => w ← MoveBefore w l e mark; Some (w, RUnit)
  | OMoveAfter l e mark => w ← MoveAfter w l e mark; Some (w, RUnit)
  | OPushBackList l other => w ← PushBackList w l other; Some (w, RUnit)
  | OPushFrontList l other => w ← PushFrontList w l other; Some (w, RUnit)
  | OSetValue e v => Some (SetValue w e v, RUnit)
  end.

(** The sequence with element [e] put elsewhere: [place] gives the two parts of the others it
    goes between. *)
Definition a_move a (l : Z) (e : Element) (place : list (Z * Z) -> option (list (Z * Z) * list (Z * Z))) : AWorld :=
  match held l e (a_elems a l) with
  | Some (p, c, q) =>
      match place (p ++ q) with
      | Some (p', q') => a_set a l (p' ++ (e_id e, c) :: q', a_next a l)
      | None => a
      end
  | None => a
  end.

Definition before_mark (l : Z) (mark : Element) (els : list (Z * Z)) : option (list (Z * Z) * list (Z * Z)) :=
  '(p, c, q) ← held l mark els; Some (p, (e_id mark, c) :: q).
Definition after_mark (l : Z) (mark : Element) (els : list (Z * Z)) : option (list (Z * Z) * list (Z * Z)) :=
  '(p, c, q) ← held l mark els; Some (p ++ [(e_id mark, c)], q).

Definition a_insert a (l : Z) (v : T) (place : option (list (Z * Z) * list (Z * Z))) : AWorld * res :=
  match place with
  | Some (p, q) => let '(a, e) := a_put a l v p q in (a, RElem (Some e))
  | None => (a, RElem None)
  end.

(** The specification: one call. *)
Definition spec a (o : op) : AWorld * res :=
  match o with
  | ONew => (mkAWorld (<[aloc a := ([], 1)]> (alists a)) (acells a) (aloc a + 1), RList (aloc a))
  | OInit l => (a_set a l ([], 1), RUnit)
  | ODrop l => (mkAWorld (delete l (alists a)) (acells a) (aloc a), RUnit)
  | OPushFront l v => a_insert a l v (Some ([], a_elems a l))
  | OPushBack l v => a_insert a l v (Some (a_elems a l, []))
  | OInsertBefore l v mark => a_insert a l v (before_mark l mark (a_elems a l))
  | OInsertAfter l v mark => a_insert a l v (after_mark l mark (a_elems a l))
  | ORemove l e =>
      (match held l e (a_elems a l) with Some (p, _, q) => a_set a l (p ++ q, a_next a l) | None => a end, RVal (acells a !! e_value e))
  | OMoveToFront l e => (a_move a l e (fun els => Some ([], els)), RUnit)
  | OMoveToBack l e => (a_move a l e (fun els => Some (els, [])), RUnit)
  | OMoveBefore l e mark => (a_move a l e (before_mark l mark), RUnit)
  | OMoveAfter l e mark => (a_move a l e (after_mark l mark), RUnit)
  | OPushBackList l other => (foldl (fun a v => (a_put a l v (a_elems a l) []).1) a (a_values a other), RUnit)
  | OPushFrontList l other => (foldl (fun a v => (a_put a l v [] (a_elems a l)).1) a (reverse (a_values a other)), RUnit)
  | OSetValue e v => (mkAWorld (alists a) (<[e_value e := v]> (acells a)) (aloc a), RUnit)
  end.

(** ** The program's state and the specification's *)

Record rep (w : World (T := T)) a : Prop := {
  rp_lists : forall l, option_Forall2 (fun s al => ring s al.1 /\ next_id s = al.2) (lists w !! l) (alists a !! l);
  rp_cells : cells w = acells a;
  rp_loc : next_loc w = aloc a;
  rp_alloc : forall l al k c, alists a !! l = Some al -> (k, c) ∈ al.1 -> is_Some (acells a !! c);
  rp_fresh : forall c, is_Some (acells a !! c) -> c < aloc a;
  rp_fresh_list : forall l, is_Some (alists a !! l) -> l < aloc a
}.

(** A handle as the operations return them. *)
Definition handle_ok a (e : Element) : Prop := 1 <= e_id e /\ is_Some (acells a !! e_value e).

(** What a call needs: live lists, real handles, and ids left for the new elements. *)
Definition op_ok a (o : op) : Prop :=
  let live l := is_Some (alists a !! l) in
  let room l k := a_next a l + k < 2 ^ 64 in
  match o with
  | ONew | ODrop _ => True
  | OInit l => live l
  | OPushFront l _ | OPushBack l _ => live l /\ room l 1
  | OInsertBefore l _ mark | OInsertAfter l _ mark => live l /\ room l 1 /\ handle_ok a mark
  | ORemove l e | OMoveToFront l e | OMoveToBack l e => live l /\ handle_ok a e
  | OMoveBefore l e mark | OMoveAfter l e mark => live l /\ handle_ok a e /\ handle_ok a mark
  | OPushBackList l other | OPushFrontList l other => live l /\ live other /\ room l (zlen (a_elems a other))
  | OSetValue e _ => handle_ok a e
  end.
End spec.
Arguments op : clear implicits.
Arguments AWorld : clear implicits.
Arguments res : clear implicits.

(** ** Cutting *)

Lemma cut_Some id els p c q : cut id els = Some (p, c, q) -> els = p ++ (id, c) :: q.
Proof.
  revert p. induction els as [|[k d] els IH]; intros p H; cbn in H; [done|]. case_decide as E; [subst; by simplify_eq|].
  destruct (cut id els) as [[[p' d'] q']|] eqn:Ec; [|done]. cbn in H. simplify_eq. cbn. f_equal. by apply IH.
Qed.

Lemma cut_None id els : cut id els = None <-> id ∉ els.*1.
Proof.
  induction els as [|[k d] els IH]; cbn; [set_solver|]. case_decide as E; [subst; set_solver|]. rewrite elem_of_cons.
  destruct (cut id els) as [[[p' d'] q']|]; cbn.
  - split; [done|]. intros H. assert (id ∉ els.*1) as Hn by tauto. by apply IH in Hn.
  - split; [|done]. intros _. destruct IH as [IH _]. specialize (IH eq_refl). intros [Hk|H]; [by subst|done].
Qed.

Lemma cut_mid id c p q : id ∉ p.*1 -> cut id (p ++ (id, c) :: q) = Some (p, c, q).
Proof.
  induction p as [|[k d] p IH]; cbn; [by rewrite decide_True|]. intros H. rewrite elem_of_cons in H. rewrite decide_False by (intros ->; tauto).
  rewrite IH by tauto. done.
Qed.

Section refine.
  Context {T : Type}.
  Implicit Types (w : World (T := T)) (a : AWorld T).

Lemma rep_live w a l els nx : rep w a -> alists a !! l = Some (els, nx) ->
  exists s, lists w !! l = Some s /\ ring s els /\ next_id s = nx.
Proof.
  intros Hr Hl. pose proof (rp_lists _ _ Hr l) as H. rewrite Hl in H. inversion H as [s al [H1 H2] Es|]. by exists s.
Qed.

Lemma rep_set w a l s els nx nx' els0 : rep w a -> alists a !! l = Some (els0, nx') -> ring s els -> next_id s = nx ->
  (forall k c, (k, c) ∈ els -> is_Some (acells a !! c)) -> rep (set_list w l s) (a_set a l (els, nx)).
Proof.
  intros Hr Hl Hs Hn Hc. split; cbn; try apply Hr.
  - intros l'. destruct (decide (l' = l)) as [->|]; [rewrite !lookup_insert_eq; by constructor|rewrite !lookup_insert_ne by done; apply Hr].
  - intros l' al k c Hl'. destruct (decide (l' = l)) as [->|].
    + rewrite lookup_insert_eq in Hl'. simplify_eq. apply Hc.
    + rewrite lookup_insert_ne in Hl' by done. by apply (rp_alloc _ _ Hr l').
  - intros l' Hl'. destruct (decide (l' = l)) as [->|]; [apply (rp_fresh_list _ _ Hr); by eexists|]. rewrite lookup_insert_ne in Hl' by done. by apply (rp_fresh_list _ _ Hr).
Qed.

Lemma rep_same w a l els nx : rep w a -> alists a !! l = Some (els, nx) -> rep w (a_set a l (els, nx)).
Proof.
  intros Hr Hl. assert (a_set a l (els, nx) = a) as -> by (destruct a; unfold a_set; cbn in *; by rewrite insert_id). done.
Qed.

(** A handle either is an element of the list, or no guard of the code lets it through. *)
Lemma held_cases w a l s els nx e : rep w a -> alists a !! l = Some (els, nx) -> lists w !! l = Some s -> ring s els -> handle_ok a e ->
  (exists p c q, held l e els = Some (p, c, q) /\ els = p ++ (e_id e, c) :: q /\ same w l e = true /\ is_Some (nodes s !! e_id e)) \/
  (held l e els = None /\ (same w l e = false \/ same w l e = true /\ nodes s !! e_id e = None)).
Proof.
  intros Hr Hl Hs Hring [He _]. unfold held, same. destruct (decide (e_list e = l)) as [->|Hne].
  - rewrite Hs, bool_decide_true by done. destruct (cut (e_id e) els) as [[[p c] q]|] eqn:Ec.
    + left. exists p, c, q. pose proof (cut_Some _ _ _ _ _ Ec) as Eels. split_and!; [done|done|done|]. apply (r_dom _ _ Hring). rewrite Eels, fmap_app. cbn. set_solver.
    + right. split; [done|]. right. split; [done|]. apply cut_None in Ec. destruct (nodes s !! e_id e) eqn:En; [|done].
      assert (e_id e ∈ ROOT_ID :: els.*1) as Hin by (apply (r_dom _ _ Hring); eauto). rewrite elem_of_cons in Hin. unfold ROOT_ID in Hin. destruct Hin; [lia|done].
  - right. split; [done|]. left. destruct (lists w !! e_list e); [by apply bool_decide_false|done].
Qed.

Lemma put_ok w a l v p q nx s : rep w a -> alists a !! l = Some (p ++ q, nx) -> lists w !! l = Some s -> nx + 1 < 2 ^ 64 ->
  exists s', insert s (next_loc w) (pred p.*1) = Some (s', nx) /\ rep (set_list (alloc_cell w v).1 l s') (a_put a l v p q).1 /\
    (a_put a l v p q).2 = mkElement l nx (next_loc w).
Proof.
  intros Hr Hl Hs Hroom. destruct (rep_live _ _ _ _ _ Hr Hl) as (s0 & Hs0 & Hring & Hnx). assert (s0 = s) as -> by congruence.
  destruct (insert_ok s p q (next_loc w) Hring ltac:(lia)) as (s' & E & Hn' & Hring'). exists s'. rewrite Hnx in *. rewrite E.
  unfold a_put, a_next. rewrite Hl. cbn [fmap option_fmap option_map default snd fst]. rewrite (rp_loc _ _ Hr) in *. split_and!; [done| |done].
  assert (rep (alloc_cell w v).1 (mkAWorld (alists a) (<[aloc a := v]> (acells a)) (aloc a + 1))) as Hr2.
  { split; cbn; rewrite ?(rp_loc _ _ Hr), ?(rp_cells _ _ Hr); try done; [apply Hr| | |].
    - intros l' al k c Hl' Hin. rewrite lookup_insert_is_Some'. right. by apply (rp_alloc _ _ Hr l' al k).
    - intros c [->|Hc]%lookup_insert_is_Some'; [lia|]. apply (rp_fresh _ _ Hr) in Hc. lia.
    - intros l' Hl'. apply (rp_fresh_list _ _ Hr) in Hl'. lia. }
  change (rep (set_list (alloc_cell w v).1 l s') (a_set (mkAWorld (alists a) (<[aloc a := v]> (acells a)) (aloc a + 1)) l (p ++ (nx, aloc a) :: q, nx + 1))).
  eapply rep_set; [done|exact Hl|done|done|]. intros k c Hin. cbn. rewrite lookup_insert_is_Some'.
  rewrite <- Permutation_middle, elem_of_cons in Hin. destruct Hin as [[= -> ->]|Hin]; [by left|]. right. by apply (rp_alloc _ _ Hr l (p ++ q, nx) k).
Qed.

Lemma moved_ok w a l els nx s e p c q p' q' : rep w a -> alists a !! l = Some (els, nx) -> lists w !! l = Some s ->
  els = p ++ (e, c) :: q -> p ++ q = p' ++ q' ->
  exists s', move s e (pred p'.*1) = Some s' /\ rep (set_list w l s') (a_set a l (p' ++ (e, c) :: q', nx)).
Proof.
  intros Hr Hl Hs -> Hpq. destruct (rep_live _ _ _ _ _ Hr Hl) as (s0 & Hs0 & Hring & Hnx). assert (s0 = s) as -> by congruence.
  destruct (move_ok _ _ _ _ _ _ _ Hring Hpq) as (s' & E & Hn' & Hring'). exists s'. split; [done|]. eapply rep_set; [done|done|done|congruence|].
  intros k d Hin. apply (rp_alloc _ _ Hr l _ k d Hl). cbn. by rewrite <- Permutation_middle, Hpq, Permutation_middle.
Qed.

Lemma lazyInit_id s els : ring s els -> lazyInit s = s.
Proof. intros Hr. unfold lazyInit. rewrite decide_True; [done|]. apply (r_dom _ _ Hr). by left. Qed.

(** The sentinel links to the two ends. *)
Lemma ring_root s els : ring s els -> exists r, nodes s !! ROOT_ID = Some r /\ next r = succ els.*1 /\ prev r = pred els.*1.
Proof.
  intros Hr. destruct (ring_at s [] els Hr) as (Hn & _). assert (ring s (els ++ [])) as Hr2 by by rewrite app_nil_r.
  destruct (ring_at s els [] Hr2) as (_ & Hp & _). cbn in *. unfold nxt, prv in *. cbn in *. destruct (nodes s !! ROOT_ID) as [r|]; [|done].
  exists r. cbn in *. split_and!; congruence.
Qed.

Lemma live_inv a l : is_Some (alists a !! l) -> exists els nx, alists a !! l = Some (els, nx) /\ a_elems a l = els /\ a_next a l = nx.
Proof. intros [[els nx] H]. exists els, nx. unfold a_elems, a_next. by rewrite H. Qed.

Lemma insert_res a l v p q : a_insert a l v (Some (p, q)) = ((a_put a l v p q).1, RElem (Some (a_put a l v p q).2)).
Proof. done. Qed.

Lemma push_front_refines w a l v : rep w a -> is_Some (alists a !! l) -> a_next a l + 1 < 2 ^ 64 ->
  exists w', PushFront w l v = Some (w', (a_put a l v [] (a_elems a l)).2) /\ rep w' (a_put a l v [] (a_elems a l)).1.
Proof.
  intros Hr (els & nx & Hl & -> & ->)%live_inv Hroom. destruct (rep_live _ _ _ _ _ Hr Hl) as (s & Hs & Hring & Hnx).
  destruct (put_ok w a l v [] els nx s Hr Hl Hs Hroom) as (s' & E & Hr' & ->). unfold PushFront, insertValue. cbn [alloc_cell lists]. rewrite Hs. cbn [mbind option_bind].
  rewrite (lazyInit_id _ _ Hring). change ROOT_ID with (pred (@nil (Z * Z)).*1). rewrite E. by eexists.
Qed.

Lemma push_back_refines w a l v : rep w a -> is_Some (alists a !! l) -> a_next a l + 1 < 2 ^ 64 ->
  exists w', PushBack w l v = Some (w', (a_put a l v (a_elems a l) []).2) /\ rep w' (a_put a l v (a_elems a l) []).1.
Proof.
  intros Hr (els & nx & Hl & -> & ->)%live_inv Hroom. destruct (rep_live _ _ _ _ _ Hr Hl) as (s & Hs & Hring & Hnx).
  assert (alists a !! l = Some (els ++ [], nx)) as Hl' by by rewrite app_nil_r.
  destruct (put_ok w a l v els [] nx s Hr Hl' Hs Hroom) as (s' & E & Hr' & ->). unfold PushBack, insertValue. cbn [alloc_cell lists]. rewrite Hs. cbn [mbind option_bind].
  rewrite (lazyInit_id _ _ Hring). destruct (ring_root _ _ Hring) as (r & -> & _ & Hp). cbn. rewrite Hp, E. by eexists.
Qed.

Lemma insert_before_refines w a l v mark : rep w a -> is_Some (alists a !! l) -> a_next a l + 1 < 2 ^ 64 -> handle_ok a mark ->
  exists w', exec w (OInsertBefore l v mark) = Some (w', (spec a (OInsertBefore l v mark)).2) /\ rep w' (spec a (OInsertBefore l v mark)).1.
Proof.
  intros Hr (els & nx & Hl & Ee & En)%live_inv Hroom Hm. destruct (rep_live _ _ _ _ _ Hr Hl) as (s & Hs & Hring & Hnx). rewrite En in Hroom.
  cbn [exec spec]. unfold InsertBefore, insertValue, before_mark. rewrite Hs, Ee. cbn [mbind option_bind].
  destruct (held_cases w a l s els nx mark) as [(p & c & q & -> & Eels & -> & _)|[-> [->|[-> Hno]]]]; try done; cbn [negb mbind option_bind].
  - rewrite Eels in Hl, Hring. destruct (put_ok w a l v p ((e_id mark, c) :: q) nx s Hr Hl Hs Hroom) as (s' & E & Hr' & Epe).
    destruct (ring_node _ _ _ _ _ Hring) as (n & -> & Hp & _). cbn [alloc_cell]. rewrite Hp, E, insert_res. rewrite Epe. cbn. by eexists.
  - by exists w.
  - cbn [alloc_cell]. rewrite Hno. by exists w.
Qed.

Lemma insert_after_refines w a l v mark : rep w a -> is_Some (alists a !! l) -> a_next a l + 1 < 2 ^ 64 -> handle_ok a mark ->
  exists w', exec w (OInsertAfter l v mark) = Some (w', (spec a (OInsertAfter l v mark)).2) /\ rep w' (spec a (OInsertAfter l v mark)).1.
Proof.
  intros Hr (els & nx & Hl & Ee & En)%live_inv Hroom Hm. destruct (rep_live _ _ _ _ _ Hr Hl) as (s & Hs & Hring & Hnx). rewrite En in Hroom.
  cbn [exec spec]. unfold InsertAfter, insertValue, after_mark. rewrite Hs, Ee. cbn [mbind option_bind].
  destruct (held_cases w a l s els nx mark) as [(p & c & q & -> & Eels & -> & Hin)|[-> [->|[-> Hno]]]]; try done; cbn [negb mbind option_bind].
  - rewrite Eels, cons_middle, app_assoc in Hl. destruct (put_ok w a l v (p ++ [(e_id mark, c)]) q nx s Hr Hl Hs Hroom) as (s' & E & Hr' & Epe).
    rewrite decide_False by tauto. cbn [alloc_cell]. assert (pred (p ++ [(e_id mark, c)]).*1 = e_id mark) as Ep by (unfold pred; rewrite fmap_app; apply last_last).
    rewrite Ep in E. rewrite E, insert_res, Epe. cbn. by eexists.
  - by exists w.
  - rewrite decide_True by (rewrite Hno; by intros []). by exists w.
Qed.

Lemma remove_refines w a l e : rep w a -> is_Some (alists a !! l) -> handle_ok a e ->
  exists w', exec w (ORemove l e) = Some (w', (spec a (ORemove l e)).2) /\ rep w' (spec a (ORemove l e)).1.
Proof.
  intros Hr (els & nx & Hl & Ee & En)%live_inv Hh. destruct (rep_live _ _ _ _ _ Hr Hl) as (s & Hs & Hring & Hnx).
  cbn [exec spec fst snd]. unfold Remove, Value. rewrite Hs, Ee. cbn [mbind option_bind]. destruct (proj2 Hh) as [v Hv].
  destruct (held_cases w a l s els nx e) as [(p & c & q & -> & Eels & -> & Hin)|[-> Hno]]; try done.
  - rewrite decide_True by (split_and!; [done|done|destruct Hh; unfold ROOT_ID; lia]). cbn [cells set_list]. rewrite (rp_cells _ _ Hr), Hv. cbn.
    eexists. split; [done|]. rewrite En. rewrite Eels in Hring, Hl. destruct (remove_ok _ _ _ _ _ Hring) as [Hring' Hn']. eapply rep_set; [done|done|done|congruence|].
    intros k d Hin'. apply (rp_alloc _ _ Hr l _ k d Hl). cbn. set_solver.
  - rewrite decide_False by (destruct Hno as [->|[_ ->]]; intros (? & ? & ?); [done|by destruct H0]).
    rewrite (rp_cells _ _ Hr), Hv. cbn. by eexists.
Qed.

(** The end of the sequence, with an element before it taken out. *)
Lemma pred_skip (p q : list (Z * Z)) x : q <> [] -> pred (p ++ x :: q).*1 = pred (p ++ q).*1.
Proof.
  intros Hq. destruct (exists_last Hq) as (q' & y & ->). unfold pred. rewrite app_comm_cons, !app_assoc, !fmap_app. cbn. by rewrite !last_last.
Qed.

Lemma pred_last (p : list (Z * Z)) x : pred (p ++ [x]).*1 = x.1.
Proof. unfold pred. rewrite fmap_app. apply last_last. Qed.

Lemma move_to_front_refines w a l e : rep w a -> is_Some (alists a !! l) -> handle_ok a e ->
  exists w', MoveToFront w l e = Some w' /\ rep w' (a_move a l e (fun els => Some ([], els))).
Proof.
  intros Hr (els & nx & Hl & Ee & En)%live_inv Hh. destruct (rep_live _ _ _ _ _ Hr Hl) as (s & Hs & Hring & Hnx).
  unfold MoveToFront, a_move. rewrite Hs, Ee, En. cbn [mbind option_bind]. destruct (ring_root _ _ Hring) as (r & -> & Hn & _).
  destruct (held_cases w a l s els nx e) as [(p & c & q & -> & Eels & -> & Hin)|[-> Hno]]; try done.
  - cbn [negb]. destruct (decide (next r = e_id e)) as [E|E].
    + exists w. split; [done|]. rewrite Hn, Eels in E. destruct p as [|x p].
      * rewrite Eels in Hl. by apply rep_same.
      * cbn in E. exfalso. pose proof (r_nodup _ _ Hring) as Hnd. rewrite Eels in Hnd. cbn in Hnd. rewrite fmap_app in Hnd. cbn in Hnd.
        apply list.NoDup_cons in Hnd as [_ Hnd]. apply list.NoDup_cons in Hnd as [Hnd _]. set_solver.
    + rewrite decide_False by (destruct Hh; unfold ROOT_ID; intros [|]; [tauto|lia]).
      destruct (moved_ok w a l els nx s (e_id e) p c q [] (p ++ q)) as (s' & E' & Hr'); try done. cbn in E'. rewrite E'. by eexists.
  - exists w. split; [|done]. destruct Hno as [->|[-> Hno]]; [done|]. cbn [negb]. case_decide; [done|]. rewrite decide_True; [done|]. left. rewrite Hno. by intros [].
Qed.

Lemma move_to_back_refines w a l e : rep w a -> is_Some (alists a !! l) -> handle_ok a e ->
  exists w', MoveToBack w l e = Some w' /\ rep w' (a_move a l e (fun els => Some (els, []))).
Proof.
  intros Hr (els & nx & Hl & Ee & En)%live_inv Hh. destruct (rep_live _ _ _ _ _ Hr Hl) as (s & Hs & Hring & Hnx).
  unfold MoveToBack, a_move. rewrite Hs, Ee, En. cbn [mbind option_bind]. destruct (ring_root _ _ Hring) as (r & -> & _ & Hp).
  destruct (held_cases w a l s els nx e) as [(p & c & q & -> & Eels & -> & Hin)|[-> Hno]]; try done.
  - cbn [negb]. destruct (decide (q = [])) as [->|Hq].
    + rewrite Hp, Eels, pred_last. cbn. rewrite decide_True by done. exists w. split; [done|]. rewrite app_nil_r. rewrite Eels in Hl. by apply rep_same.
    + rewrite Hp, Eels, pred_skip by done. destruct (moved_ok w a l els nx s (e_id e) p c q (p ++ q) []) as (s' & E' & Hr'); try done; [by rewrite app_nil_r|].
      rewrite decide_False.
      2:{ intros E. destruct (exists_last Hq) as (q' & y & ->). rewrite app_assoc, pred_last in E. pose proof (ring_split_ne s p (e_id e) c (q' ++ [y])) as Hne.
          rewrite <- Eels in Hne. destruct (Hne Hring) as [Hne' _]. apply Hne'. rewrite <- E, !fmap_app. cbn. set_solver. }
      rewrite decide_False by (destruct Hh; unfold ROOT_ID; intros [|]; [tauto|lia]). rewrite E'. by eexists.
  - exists w. split; [|done]. destruct Hno as [->|[-> Hno]]; [done|]. cbn [negb]. case_decide; [done|]. rewrite decide_True; [done|]. left. rewrite Hno. by intros [].
Qed.

(** Where a mark is once [e] has been taken out: [e] was right before it, or the element before
    it is still the same. *)
Lemma mark_prev (p q p' q' : list (Z * Z)) e m : p ++ q = p' ++ m :: q' ->
  exists p1 q1, p ++ e :: q = p1 ++ m :: q1 /\ (p1 = p' ++ [e] /\ q1 = q' \/ pred p1.*1 = pred p'.*1).
Proof.
  intros E. apply app_eq_app in E as (k & [[-> E]|[-> ->]]).
  - destruct k as [|y k]; cbn in E.
    + exists (p' ++ [e]), q'. rewrite <- !app_assoc. cbn. rewrite <- E. auto.
    + injection E as -> ->. exists p', (k ++ e :: q). rewrite <- app_assoc. cbn. auto.
  - exists (p ++ e :: k), q'. rewrite <- app_assoc. split; [done|]. destruct (decide (k = [])) as [->|Hk]; [left; by rewrite app_nil_r|right; by apply pred_skip].
Qed.

(** The guards of MoveBefore and MoveAfter let nothing through but two distinct elements. *)
Lemma move_guard w a l s els nx e mark : rep w a -> alists a !! l = Some (els, nx) -> lists w !! l = Some s -> ring s els -> handle_ok a e -> handle_ok a mark ->
  let refused := (same w l e = false \/ e_id e = e_id mark \/ same w l mark = false) in
  let absent := (~ is_Some (nodes s !! e_id e) \/ ~ is_Some (nodes s !! e_id mark)) in
  (exists p c q p' d q', held l e els = Some (p, c, q) /\ els = p ++ (e_id e, c) :: q /\
     held l mark (p ++ q) = Some (p', d, q') /\ p ++ q = p' ++ (e_id mark, d) :: q' /\ ~ refused /\ ~ absent) \/
  ((held l e els = None \/ exists p c q, held l e els = Some (p, c, q) /\ held l mark (p ++ q) = None) /\ (refused \/ absent)).
Proof.
  intros Hr Hl Hs Hring He Hm refused absent.
  destruct (held_cases w a l s els nx e) as [(p & c & q & Ehe & Eels & Hse & Hin)|[Ehe Hno]]; try done.
  2:{ right. split; [by left|]. unfold refused, absent. destruct Hno as [->|[_ ->]]; [left; by left|right; left; by intros []]. }
  rewrite Ehe. pose proof Hring as Hring0. rewrite Eels in Hring0. destruct (ring_split_ne _ _ _ _ _ Hring0) as [Hne _].
  destruct (held_cases w a l s els nx mark) as [(p1 & d & q1 & Ehm & Eels' & Hsm & Hin')|[Ehm Hno]]; try done.
  - assert (e_list mark = l) as Hlm by (unfold held in Ehm; case_decide; done).
    destruct (held l mark (p ++ q)) as [[[p' d'] q']|] eqn:Ec.
    + left. exists p, c, q, p', d', q'. assert (p ++ q = p' ++ (e_id mark, d') :: q') as Epq by (unfold held in Ec; rewrite decide_True in Ec by done; by apply cut_Some in Ec).
      split_and!; try done; unfold refused, absent; [|tauto]. rewrite Hse, Hsm. intros [|[E|]]; try done. apply Hne. rewrite Epq, E, fmap_app. cbn. set_solver.
    + right. split; [right; by exists p, c, q|]. left. right. left. unfold held in Ec. rewrite decide_True in Ec by done. apply cut_None in Ec.
      destruct (decide (e_id e = e_id mark)); [done|]. exfalso. apply Ec. assert (e_id mark ∈ els.*1) as Hi by (rewrite Eels', fmap_app; cbn; set_solver).
      rewrite Eels in Hi. rewrite fmap_app in *. cbn in Hi. set_solver.
  - right. split; [|unfold refused, absent; destruct Hno as [->|[_ ->]]; [left; right; by right|right; right; by intros []]].
    right. exists p, c, q. split; [done|]. unfold held in *. case_decide; [|done]. apply cut_None. apply cut_None in Ehm. rewrite Eels in Ehm. rewrite fmap_app in *. cbn in Ehm. set_solver.
Qed.

Lemma move_after_refines w a l e mark : rep w a -> is_Some (alists a !! l) -> handle_ok a e -> handle_ok a mark ->
  exists w', MoveAfter w l e mark = Some w' /\ rep w' (a_move a l e (after_mark l mark)).
Proof.
  intros Hr (els & nx & Hl & Ee & En)%live_inv He Hm. destruct (rep_live _ _ _ _ _ Hr Hl) as (s & Hs & Hring & Hnx).
  unfold MoveAfter, a_move, after_mark. rewrite Hs, Ee, En. cbn [mbind option_bind].
  destruct (move_guard w a l s els nx e mark) as [(p & c & q & p' & d & q' & -> & Eels & -> & Epq & Hg1 & Hg2)|[Hno Hg]]; try done.
  - rewrite !decide_False by done. cbn. destruct (moved_ok w a l els nx s (e_id e) p c q (p' ++ [(e_id mark, d)]) q') as (s' & E' & Hr'); try done; [by rewrite <- app_assoc|].
    rewrite pred_last in E'. cbn in E'. rewrite E'. by eexists.
  - exists w. split; [repeat case_decide; tauto|]. destruct Hno as [->|(p & c & q & -> & ->)]; done.
Qed.

Lemma move_before_refines w a l e mark : rep w a -> is_Some (alists a !! l) -> handle_ok a e -> handle_ok a mark ->
  exists w', MoveBefore w l e mark = Some w' /\ rep w' (a_move a l e (before_mark l mark)).
Proof.
  intros Hr (els & nx & Hl & Ee & En)%live_inv He Hm. destruct (rep_live _ _ _ _ _ Hr Hl) as (s & Hs & Hring & Hnx).
  unfold MoveBefore, a_move, before_mark. rewrite Hs, Ee, En. cbn [mbind option_bind].
  destruct (move_guard w a l s els nx e mark) as [(p & c & q & p' & d & q' & -> & Eels & -> & Epq & Hg1 & Hg2)|[Hno Hg]]; try done.
  2:{ exists w. split; [repeat case_decide; tauto|]. destruct Hno as [->|(p & c & q & -> & ->)]; done. }
  rewrite !decide_False by done. cbn [mbind option_bind]. destruct (moved_ok w a l els nx s (e_id e) p c q p' ((e_id mark, d) :: q')) as (s' & E' & Hr'); try done.
  destruct (mark_prev _ _ _ _ (e_id e, c) _ Epq) as (p1 & q1 & Em & Hp1). rewrite <- Eels in Em.
  assert (ring s (p1 ++ (e_id mark, d) :: q1)) as Hring1 by by rewrite <- Em. destruct (ring_node _ _ _ _ _ Hring1) as (n & -> & Hpn & _). cbn [fmap option_fmap option_map mbind option_bind].
  rewrite Hpn. destruct Hp1 as [[-> ->]| ->]; [|rewrite E'; by eexists].
  rewrite pred_last. unfold move. rewrite decide_True by done. cbn. eexists. split; [done|].
  assert (set_list w l s = w) as -> by (destruct w; unfold set_list; cbn in *; by rewrite insert_id). rewrite Em, <- app_assoc in Hl. by apply rep_same.
Qed.

(** ** Snapshots *)

Definition values (cs : gmap Z T) (els : list (Z * Z)) : list T := omap (fun x => cs !! x.2) els.

Lemma values_app cs p q : values cs (p ++ q) = values cs p ++ values cs q.
Proof. apply omap_app. Qed.

Lemma values_one cs k c v : cs !! c = Some v -> values cs [(k, c)] = [v].
Proof. intros E. unfold values. cbn. by rewrite E. Qed.

Lemma root_not_id s p k c q : ring s (p ++ (k, c) :: q) -> k <> ROOT_ID.
Proof. intros Hr ->. destruct (ring_split_ne _ _ _ _ _ Hr) as [H _]. set_solver. Qed.

Lemma walk_next cs s p q fuel : ring s (p ++ q) -> (forall k c, (k, c) ∈ q -> is_Some (cs !! c)) -> (length q < fuel)%nat ->
  walk next fuel cs s (succ q.*1) = Some (values cs q).
Proof.
  revert p fuel. induction q as [|[k c] q IH]; intros p fuel Hr Hc Hf; (destruct fuel as [|fuel]; [cbn in Hf; lia|]); [done|].
  cbn [walk fmap list_fmap fst succ hd]. rewrite decide_False by by eapply root_not_id. destruct (ring_node _ _ _ _ _ Hr) as (n & -> & _ & Hn & Hvn & _).
  cbn [mbind option_bind]. rewrite Hvn, Hn. destruct (Hc k c) as [v Hv]; [by left|]. rewrite Hv. cbn [mbind option_bind].
  rewrite (IH (p ++ [(k, c)])); [|by rewrite <- app_assoc|intros; eapply Hc; by right|cbn in Hf; lia].
  change ((k, c) :: q) with ([(k, c)] ++ q). by rewrite values_app, (values_one _ _ _ v).
Qed.

Lemma walk_prev cs s p q fuel : ring s (p ++ q) -> (forall k c, (k, c) ∈ p -> is_Some (cs !! c)) -> (length p < fuel)%nat ->
  walk prev fuel cs s (pred p.*1) = Some (reverse (values cs p)).
Proof.
  revert q fuel. induction p as [|[k c] p IH] using rev_ind; intros q fuel Hr Hc Hf; (destruct fuel as [|fuel]; [cbn in Hf; lia|]); [done|].
  rewrite pred_last. cbn [walk fst]. rewrite <- app_assoc in Hr. cbn in Hr. rewrite decide_False by by eapply root_not_id.
  destruct (ring_node _ _ _ _ _ Hr) as (n & -> & Hn & _ & Hvn & _). cbn [mbind option_bind]. rewrite Hvn, Hn. destruct (Hc k c) as [v Hv]; [set_solver|]. rewrite Hv. cbn [mbind option_bind].
  rewrite length_app in Hf. cbn in Hf. rewrite (IH ((k, c) :: q)); [|done|intros k' c' Hin; apply (Hc k'); set_solver|lia]. by rewrite values_app, (values_one _ _ _ v), reverse_app.
Qed.

Lemma ring_size s els : ring s els -> size (nodes s) = S (length els).
Proof.
  intros Hr. rewrite <- size_dom. assert (dom (nodes s) = list_to_set (ROOT_ID :: els.*1)) as ->.
  { apply leibniz_equiv. intros k. rewrite elem_of_dom, elem_of_list_to_set. apply Hr. }
  rewrite size_list_to_set by apply Hr. cbn. by rewrite length_fmap.
Qed.

Lemma snapshots_ok w a l : rep w a -> is_Some (alists a !! l) ->
  snapshot_forward w l = Some (a_values a l) /\ snapshot_backward w l = Some (reverse (a_values a l)).
Proof.
  intros Hr (els & nx & Hl & Ee & En)%live_inv. destruct (rep_live _ _ _ _ _ Hr Hl) as (s & Hs & Hring & Hnx). unfold snapshot_forward, snapshot_backward, a_values.
  rewrite Hs, Ee. cbn [mbind option_bind]. destruct (ring_root _ _ Hring) as (r & -> & Hn & Hp). cbn [mbind option_bind]. rewrite Hn, Hp, (ring_size _ _ Hring), (rp_cells _ _ Hr).
  assert (forall k c, (k, c) ∈ els -> is_Some (acells a !! c)) as Hc by (intros k c; apply (rp_alloc _ _ Hr l _ k c Hl)).
  split; [apply (walk_next _ _ []); auto|]. apply (walk_prev _ _ _ []); [by rewrite app_nil_r|done|auto].
Qed.

(** ** The loops of PushBackList and PushFrontList *)

Lemma put_alists a l v p q : alists (a_put a l v p q).1 !! l = Some (p ++ (a_next a l, aloc a) :: q, a_next a l + 1).
Proof. unfold a_put. cbn. by rewrite lookup_insert_eq. Qed.

Lemma put_next a l v p q : a_next (a_put a l v p q).1 l = a_next a l + 1.
Proof. unfold a_next at 1. by rewrite put_alists. Qed.

Lemma push_back_all_ok w a l vs : rep w a -> is_Some (alists a !! l) -> a_next a l + zlen vs < 2 ^ 64 ->
  exists w', push_back_all w l vs = Some w' /\ rep w' (foldl (fun a v => (a_put a l v (a_elems a l) []).1) a vs).
Proof.
  revert w a. induction vs as [|v vs IH]; intros w a Hr Hl Hroom; [by exists w|]. assert (zlen (v :: vs) = zlen vs + 1) as Ez by (unfold zlen; cbn; lia).
  assert (0 <= zlen vs) by (unfold zlen; lia). destruct (push_back_refines w a l v Hr Hl ltac:(lia)) as (w' & E & Hr').
  apply live_inv in Hl as (els & nx & Hl & Ee & En). destruct (rep_live _ _ _ _ _ Hr Hl) as (s & Hs & Hring & Hnx).
  unfold PushBack in E. cbn [push_back_all foldl]. cbn [alloc_cell lists] in *. rewrite Hs in E |- *. cbn [mbind option_bind] in *. rewrite (lazyInit_id _ _ Hring) in E.
  destruct (prev <$> nodes s !! ROOT_ID) as [tl|]; [|done]. cbn [mbind option_bind] in *. destruct (insertValue s (next_loc w) tl) as [[s' id]|]; [|done]. cbn [mbind option_bind] in *.
  injection E as <- _. apply IH; [done|rewrite put_alists; eauto|rewrite put_next; lia].
Qed.

Lemma push_front_all_ok w a l vs : rep w a -> is_Some (alists a !! l) -> a_next a l + zlen vs < 2 ^ 64 ->
  exists w', push_front_all w l vs = Some w' /\ rep w' (foldl (fun a v => (a_put a l v [] (a_elems a l)).1) a vs).
Proof.
  revert w a. induction vs as [|v vs IH]; intros w a Hr Hl Hroom; [by exists w|]. assert (zlen (v :: vs) = zlen vs + 1) as Ez by (unfold zlen; cbn; lia).
  assert (0 <= zlen vs) by (unfold zlen; lia). destruct (push_front_refines w a l v Hr Hl ltac:(lia)) as (w' & E & Hr').
  apply live_inv in Hl as (els & nx & Hl & Ee & En). destruct (rep_live _ _ _ _ _ Hr Hl) as (s & Hs & Hring & Hnx).
  unfold PushFront in E. cbn [push_front_all foldl]. cbn [alloc_cell lists] in *. rewrite Hs in E |- *. cbn [mbind option_bind] in *. rewrite (lazyInit_id _ _ Hring) in E.
  destruct (insertValue s (next_loc w) ROOT_ID) as [[s' id]|]; [|done]. cbn [mbind option_bind] in *.
  injection E as <- _. apply IH; [done|rewrite put_alists; eauto|rewrite put_next; lia].
Qed.

Lemma push_list_start w a l : rep w a -> is_Some (alists a !! l) -> exists s, lists w !! l = Some s /\ set_list w l (lazyInit s) = w.
Proof.
  intros Hr (els & nx & Hl & Ee & En)%live_inv. destruct (rep_live _ _ _ _ _ Hr Hl) as (s & Hs & Hring & Hnx). exists s. split; [done|].
  rewrite (lazyInit_id _ _ Hring). destruct w. unfold set_list. cbn in *. by rewrite insert_id.
Qed.

Lemma values_length a l : zlen (a_values a l) <= zlen (a_elems a l).
Proof. unfold a_values, zlen. induction (a_elems a l) as [|x els IH]; cbn; [lia|]. destruct (acells a !! x.2); cbn; lia. Qed.

Lemma push_list_refines w a l other : rep w a -> is_Some (alists a !! l) -> is_Some (alists a !! other) -> a_next a l + zlen (a_elems a other) < 2 ^ 64 ->
  (exists w', PushBackList w l other = Some w' /\ rep w' (spec a (OPushBackList l other)).1) /\
  (exists w', PushFrontList w l other = Some w' /\ rep w' (spec a (OPushFrontList l other)).1).
Proof.
  intros Hr Hl Ho Hroom. destruct (snapshots_ok w a other Hr Ho) as [Ef Eb]. unfold PushBackList, PushFrontList. rewrite Ef, Eb. cbn [mbind option_bind].
  destruct (push_list_start w a l Hr Hl) as (s & -> & Es). cbn [mbind option_bind]. rewrite Es. pose proof (values_length a other).
  split; [by apply push_back_all_ok; try lia|]. apply push_front_all_ok; [done|done|]. unfold zlen in *. rewrite length_reverse. lia.
Qed.

(** ** The rest *)

Lemma rep_new w a : rep w a -> rep (New w).1 (spec a ONew).1 /\ (New w).2 = aloc a.
Proof.
  intros Hr. unfold New. cbn. rewrite (rp_loc _ _ Hr). split; [|done]. split; cbn; try apply Hr; try done.
  - intros l. destruct (decide (l = aloc a)) as [->|]; [rewrite !lookup_insert_eq; constructor; split; [apply ring_new|done]|rewrite !lookup_insert_ne by done; apply Hr].
  - intros l al k c Hl Hin. destruct (decide (l = aloc a)) as [->|]; [rewrite lookup_insert_eq in Hl; simplify_eq; set_solver|].
    rewrite lookup_insert_ne in Hl by done. by eapply (rp_alloc _ _ Hr).
  - intros c Hc. apply (rp_fresh _ _ Hr) in Hc. lia.
  - intros l [->|Hl]%lookup_insert_is_Some'; [lia|]. apply (rp_fresh_list _ _ Hr) in Hl. lia.
Qed.

Lemma rep_drop w a l : rep w a -> rep (drop_list w l) (spec a (ODrop l)).1.
Proof.
  intros Hr. split; cbn; try apply Hr.
  - intros l'. destruct (decide (l' = l)) as [->|]; [rewrite !lookup_delete_eq; constructor|rewrite !lookup_delete_ne by done; apply Hr].
  - intros l' al k c [_ Hl]%lookup_delete_Some. by apply (rp_alloc _ _ Hr l').
  - intros l' [_ Hl]%lookup_delete_is_Some. by apply (rp_fresh_list _ _ Hr).
Qed.

Lemma rep_set_value w a e v : rep w a -> handle_ok a e -> rep (SetValue w e v) (spec a (OSetValue e v)).1.
Proof.
  intros Hr [_ He]. split; cbn; try apply Hr.
  - by rewrite (rp_cells _ _ Hr).
  - intros l al k c Hl Hin. rewrite lookup_insert_is_Some'. right. by eapply (rp_alloc _ _ Hr).
  - intros c [<-|Hc]%lookup_insert_is_Some'; by apply (rp_fresh _ _ Hr).
Qed.

Lemma rep_init w a l : rep w a -> is_Some (alists a !! l) -> rep (Init w l) (spec a (OInit l)).1.
Proof.
  intros Hr (els & nx & Hl & _)%live_inv. eapply rep_set; [done|done|apply ring_new|done|set_solver].
Qed.

Lemma exec_refines w a o : rep w a -> op_ok a o -> exists w', exec w o = Some (w', (spec a o).2) /\ rep w' (spec a o).1.
Proof.
  intros Hr Ho. destruct o as [|l|l|l v|l v|l v mark|l v mark|l e|l e|l e|l e mark|l e mark|l other|l other|e v]; cbn [op_ok] in Ho.
  - destruct (rep_new w a Hr) as [Hr' El]. exists (New w).1. split; [|done]. cbn [exec spec snd]. rewrite <- El. by destruct (New w).
  - eexists. split; [done|]. by apply rep_init.
  - eexists. split; [done|]. by apply rep_drop.
  - destruct Ho as [Hl Hroom]. destruct (push_front_refines w a l v Hr Hl Hroom) as (w' & E & Hr'). exists w'. cbn [exec spec]. rewrite E, insert_res. done.
  - destruct Ho as [Hl Hroom]. destruct (push_back_refines w a l v Hr Hl Hroom) as (w' & E & Hr'). exists w'. cbn [exec spec]. rewrite E, insert_res. done.
  - destruct Ho as (Hl & Hroom & Hm). by apply insert_before_refines.
  - destruct Ho as (Hl & Hroom & Hm). by apply insert_after_refines.
  - destruct Ho. by apply remove_refines.
  - destruct Ho as [Hl He]. destruct (move_to_front_refines w a l e Hr Hl He) as (w' & E & Hr'). exists w'. cbn [exec spec fst snd]. by rewrite E.
  - destruct Ho as [Hl He]. destruct (move_to_back_refines w a l e Hr Hl He) as (w' & E & Hr'). exists w'. cbn [exec spec fst snd]. by rewrite E.
  - destruct Ho as (Hl & He & Hm). destruct (move_before_refines w a l e mark Hr Hl He Hm) as (w' & E & Hr'). exists w'. cbn [exec spec fst snd]. by rewrite E.
  - destruct Ho as (Hl & He & Hm). destruct (move_after_refines w a l e mark Hr Hl He Hm) as (w' & E & Hr'). exists w'. cbn [exec spec fst snd]. by rewrite E.
  - destruct Ho as (Hl & Ho & Hroom). destruct (push_list_refines w a l other Hr Hl Ho Hroom) as [(w' & E & Hr') _]. exists w'. cbn [exec]. by rewrite E.
  - destruct Ho as (Hl & Ho & Hroom). destruct (push_list_refines w a l other Hr Hl Ho Hroom) as [_ (w' & E & Hr')]. exists w'. cbn [exec]. by rewrite E.
  - eexists. split; [done|]. by apply rep_set_value.
Qed.

(** Sequences of calls, with the results. *)
Fixpoint run w (os : list (op T)) : option (World * list (res T)) :=
  match os with
  | [] => Some (w, [])
  | o :: os => '(w, r) ← exec w o; '(w, rs) ← run w os; Some (w, r :: rs)
  end.

Fixpoint spec_run a (os : list (op T)) : AWorld T * list (res T) :=
  match os with
  | [] => (a, [])
  | o :: os => let '(a, r) := spec a o in let '(a, rs) := spec_run a os in (a, r :: rs)
  end.

Fixpoint ops_ok a (os : list (op T)) : Prop :=
  match os with [] => True | o :: os => op_ok a o /\ ops_ok (spec a o).1 os end.

Definition world0 : World (T := T) := mkWorld ∅ ∅ 0.
Definition aworld0 : AWorld T := mkAWorld ∅ ∅ 0.

Lemma rep0 : rep world0 aworld0.
Proof. split; cbn; try done; try (intros ? []; by rewrite lookup_empty in *); try (by rewrite lookup_empty). intros l. rewrite !lookup_empty. constructor. Qed.

Lemma run_refines w a os : rep w a -> ops_ok a os -> exists w', run w os = Some (w', (spec_run a os).2) /\ rep w' (spec_run a os).1.
Proof.
  revert w a. induction os as [|o os IH]; intros w a Hr Hok; [by exists w|]. destruct Hok as [Ho Hos]. destruct (exec_refines w a o Hr Ho) as (w' & E & Hr').
  destruct (IH w' _ Hr' Hos) as (w'' & E' & Hr''). cbn [run spec_run]. rewrite E. cbn [mbind option_bind]. rewrite E'. cbn [mbind option_bind].
  destruct (spec a o) as [a1 r1]. cbn [fst snd] in *. destruct (spec_run a1 os) as [a2 rs]. by exists w''.
Qed.

(** C7: any sequence of calls of the list package, on any number of lists (the two-list calls
    with both arguments the same list included), panics nowhere, returns what the specification
    on plain sequences returns, and leaves rings of nodes that represent the specification's
    sequences; calls are on live lists with handles that came from the package, of elements still
    in a list or not. *)
Theorem list_refines os (Hok : ops_ok aworld0 os) :
  exists w', run world0 os = Some (w', (spec_run aworld0 os).2) /\ rep w' (spec_run aworld0 os).1.
Proof. apply run_refines; [apply rep0|done]. Qed.

(** ** Queries *)

(** The element handle of an entry of the sequence. *)
Definition entry (l : Z) (x : Z * Z) : Element := mkElement l x.1 x.2.

Lemma handle_entry s l p k c q : ring s (p ++ (k, c) :: q) -> handle s l k = Some (entry l (k, c)).
Proof. intros Hr. unfold handle. destruct (ring_node _ _ _ _ _ Hr) as (n & -> & _ & _ & Hv & _). cbn. by rewrite Hv. Qed.

Lemma succ_handle s l p q : ring s (p ++ q) -> (if decide (succ q.*1 = ROOT_ID) then None else handle s l (succ q.*1)) = entry l <$> head q.
Proof.
  intros Hr. destruct q as [|[k c] q]; [done|]. cbn [fmap list_fmap fst succ hd]. rewrite decide_False by by eapply root_not_id. by eapply handle_entry.
Qed.

Lemma pred_handle s l p q : ring s (p ++ q) -> (if decide (pred p.*1 = ROOT_ID) then None else handle s l (pred p.*1)) = entry l <$> last p.
Proof.
  intros Hr. destruct p as [|[k c] p] using rev_ind; [done|]. rewrite pred_last, last_snoc. cbn [fst]. rewrite <- app_assoc in Hr. cbn in Hr.
  rewrite decide_False by by eapply root_not_id. by eapply handle_entry.
Qed.

(** The queries agree with the sequence: Len is its length, Front and Back its ends, and
    Next and Prev of an element its neighbours there, nothing for the element of another list or
    one removed. *)
Theorem list_queries w a l els nx (Hr : rep w a) (Hl : alists a !! l = Some (els, nx)) :
  Len w l = Some (zlen els) /\ Front w l = Some (entry l <$> head els) /\ Back w l = Some (entry l <$> last els) /\
  (forall e, e_list e = l -> handle_ok a e ->
     Next w e = ('(_, _, q) ← cut (e_id e) els; entry l <$> head q) /\ Prev w e = ('(p, _, _) ← cut (e_id e) els; entry l <$> last p)).
Proof.
  destruct (rep_live _ _ _ _ _ Hr Hl) as (s & Hs & Hring & Hnx). unfold Len, Front, Back, Next, Prev. rewrite Hs. cbn [mbind option_bind fmap option_fmap option_map].
  rewrite (r_len _ _ Hring). destruct (ring_root _ _ Hring) as (r & -> & Hn & Hp). cbn [mbind option_bind]. rewrite Hn, Hp.
  split_and!; [done|..].
  - f_equal. clear Hr Hl. destruct els as [|[k c] els]; [done|]. rewrite decide_False by (unfold zlen; cbn; lia). by apply (handle_entry s l []) in Hring.
  - f_equal. clear Hr Hl. destruct els as [|[k c] els] using rev_ind; [done|]. rewrite decide_False by (unfold zlen; rewrite length_app; cbn; lia).
    rewrite pred_last, last_snoc. cbn [fst]. by apply (handle_entry s l) in Hring.
  - intros e <- He. rewrite Hs. cbn [mbind option_bind]. destruct (cut (e_id e) els) as [[[p c] q]|] eqn:Ec.
    + apply cut_Some in Ec as ->. cbn [mbind option_bind]. destruct (ring_node _ _ _ _ _ Hring) as (n & -> & Ep & Ex & _). cbn [mbind option_bind]. rewrite Ep, Ex.
      split; [|by apply (pred_handle s (e_list e)) in Hring]. rewrite cons_middle, app_assoc in Hring. by apply (succ_handle s (e_list e)) in Hring.
    + cbn [mbind option_bind]. apply cut_None in Ec. destruct (nodes s !! e_id e) eqn:En; [|done].
      assert (e_id e ∈ ROOT_ID :: els.*1) as Hin by (apply (r_dom _ _ Hring); eauto). apply elem_of_cons in Hin. destruct He as [He _]. unfold ROOT_ID in Hin. destruct Hin; [lia|done].
Qed.
End refine.

(** ** Witnesses *)

(** Two lists; the second is appended to the first, an element moves, another goes. *)
Definition demo : list (op Z) :=
  [ONew; OPushBack 0 10; OPushBack 0 20; OPushFront 0 5; OMoveAfter 0 (mkElement 0 1 1) (mkElement 0 2 2);
   ONew; OPushBackList 4 0; ORemove 0 (mkElement 0 3 3); OMoveBefore 0 (mkElement 0 1 1) (mkElement 0 2 2); OPushFrontList 0 0].

Example demo_values : let a := (spec_run aworld0 demo).1 in a_values a 4 = [5; 20; 10] /\ a_values a 0 = [10; 20; 10; 20].
Proof. vm_compute. done. Qed.

Lemma demo_ok : ops_ok (T := Z) aworld0 demo.
Proof. vm_compute. split_and!; try done; by eexists. Qed.

Lemma list_refines_witness : exists w', run world0 demo = Some (w', (spec_run aworld0 demo).2) /\ rep w' (spec_run aworld0 demo).1.
Proof. apply (list_refines demo). exact demo_ok. Defined.

Definition two : list (op Z) := [ONew; OPushBack 0 10; OPushBack 0 20].

Lemma list_queries_witness : exists w, Front w 0 = Some (Some (mkElement 0 1 1)) /\ Back w 0 = Some (Some (mkElement 0 2 2)) /\
  Next (T := Z) w (mkElement 0 1 1) = Some (mkElement 0 2 2).
Proof.
  destruct (run_refines world0 aworld0 two) as (w & _ & Hr); [apply rep0|vm_compute; split_and!; try done; by eexists|].
  exists w. destruct (list_queries w _ 0 [(1, 1); (2, 2)] 3 Hr) as (_ & Hf & Hb & Hn); [reflexivity|]. split_and!; [exact Hf|exact Hb|].
  apply (Hn (mkElement 0 1 1)); [reflexivity|]. split; [cbn; lia|by exists 10].
Defined.
