(* ===== verification/ContainerRing.v ===== *)
(** Circular lists: src/src/container/ring/ring.rs.

    A handle [Ring] is a shared pointer to a node, here the node's address; the nodes are a map, so
    that every alias of a handle sees every write.  [None] is a panic.  The function given to [Do]
    only looks at the values; the values it is called with are returned in order. *)
From Stdlib Require Import ZArith Lia.
From stdpp Require Import base tactics numbers list list_numbers option fin_maps gmap.
From S2P Require Import Prelude.
Open Scope Z_scope.

Record Inner (V : Type) := mkInner { next : option Z; prev : option Z; value : option V }.
Arguments mkInner {V} _ _ _.
Arguments next {V} _.
Arguments prev {V} _.
Arguments value {V} _.

(** The nodes, and the next address to be given out. *)
Record memory (V : Type) := mkMemory { nodes : gmap Z (Inner V); fresh : Z }.
Arguments mkMemory {V} _ _.
Arguments nodes {V} _.
Arguments fresh {V} _.

Section ring.
  Context {V : Type}.
  Implicit Types w : memory V.

Definition empty_memory : memory V := mkMemory ∅ 1.

Definition alloc w (n : Inner V) : memory V * Z := (mkMemory (<[fresh w := n]> (nodes w)) (fresh w + 1), fresh w).

Definition set_next w (r : Z) (x : option Z) : option (memory V) :=
  n ← nodes w !! r; Some (mkMemory (<[r := mkInner x (prev n) (value n)]> (nodes w)) (fresh w)).
Definition set_prev w (r : Z) (x : option Z) : option (memory V) :=
  n ← nodes w !! r; Some (mkMemory (<[r := mkInner (next n) x (value n)]> (nodes w)) (fresh w)).

(** [Ring::new]. *)
Definition ring_new w : memory V * Z := alloc w (mkInner None None None).

Definition init w (r : Z) : option (memory V * Z) :=
  w ← set_next w r (Some r);
  w ← set_prev w r (Some r);
  Some (w, r).

Definition Next w (r : Z) : option (memory V * Z) :=
  n ← nodes w !! r;
  match next n with None => init w r | Some n => Some (w, n) end.

Definition Prev w (r : Z) : option (memory V * Z) :=
  n ← nodes w !! r;
  if decide (next n = None) then init w r else p ← prev n; Some (w, p).

(** [while k < 0] and [while k > 0]. *)
Fixpoint back w (k : nat) (cur : Z) : option Z :=
  match k with O => Some cur | S k => n ← nodes w !! cur; p ← prev n; back w k p end.
Fixpoint forward w (k : nat) (cur : Z) : option Z :=
  match k with O => Some cur | S k => n ← nodes w !! cur; nx ← next n; forward w k nx end.

Definition Move w (r n : Z) : option (memory V * Z) :=
  x ← nodes w !! r;
  if decide (next x = None) then init w r
  else cur ← (if decide (n < 0) then back w (Z.to_nat (- n)) r else forward w (Z.to_nat n) r); Some (w, cur).

Definition Value w (r : Z) : option (option V) := n ← nodes w !! r; Some (value n).
Definition SetValue w (r : Z) (v : V) : option (memory V) :=
  n ← nodes w !! r; Some (mkMemory (<[r := mkInner (next n) (prev n) (Some v)]> (nodes w)) (fresh w)).

Definition Link w (r s : Z) : option (memory V * Z) :=
  '(w, n) ← Next w r;
  '(w, p) ← Prev w s;
  w ← set_next w r (Some s);
  w ← set_prev w s (Some r);
  w ← set_prev w n (Some p);
  w ← set_next w p (Some n);
  Some (w, n).

(** [n + 1] is an [int]'s sum, checked: it overflows for the largest [int]. *)
Definition Unlink w (r n : Z) : option (memory V * option Z) :=
  if decide (n <= 0) then Some (w, None)
  else
    n1 ← chki64 (n + 1);
    '(w, s) ← Move w r n1;
    '(w, x) ← Link w r s;
    Some (w, Some x).

(** [while cur != r] of [Len]. *)
Fixpoint len_loop (fuel : nat) w (r cur n : Z) : option Z :=
  match fuel with
  | O => None
  | S fuel =>
      if decide (cur = r) then Some n
      else
        x ← nodes w !! cur;
        match next x with Some node => len_loop fuel w r node (n + 1) | None => Some (n + 1) end
  end.

(** A walk visits each node once at most. *)
Definition Len w (r : Z) : option (memory V * Z) :=
  '(w, cur) ← Next w r;
  n ← len_loop (S (size (nodes w))) w r cur 1;
  Some (w, n).

Fixpoint do_loop (fuel : nat) w (r cur : Z) : option (list V) :=
  match fuel with
  | O => None
  | S fuel =>
      if decide (cur = r) then Some []
      else
        x ← nodes w !! cur;
        l ← match next x with Some node => do_loop fuel w r node | None => Some [] end;
        Some (option_list (value x) ++ l)
  end.

Definition Do w (r : Z) : option (memory V * list V) :=
  x ← nodes w !! r;
  '(w, cur) ← Next w r;
  l ← do_loop (S (size (nodes w))) w r cur;
  Some (w, option_list (value x) ++ l).

(** [while i < n], [k] iterations from the node [p] on. *)
Fixpoint new_loop (k : nat) w (p : Z) : option (memory V * Z) :=
  match k with
  | O => Some (w, p)
  | S k =>
      let '(w, x) := alloc w (mkInner None (Some p) None) in
      w ← set_next w p (Some x);
      new_loop k w x
  end.

Definition New w (n : Z) : option (memory V * option Z) :=
  if decide (n <= 0) then Some (w, None)
  else
    let '(w, r) := ring_new w in
    '(w, p) ← new_loop (Z.to_nat (n - 1)) w r;
    w ← set_next w p (Some r);
    w ← set_prev w r (Some p);
    Some (w, Some r).
End ring.
