(* ===== verification/ContainerRingSpec.v ===== *)
(** Circular lists: every node is on a ring, and what [Link], [Unlink], [Move], [Len], [Do] and [New]
    do to the rings, for src/src/container/ring/ring.rs. *)
From Stdlib Require Import ZArith Lia.
From stdpp Require Import base tactics numbers list list_numbers option fin_maps gmap sets relations.
From S2P Require Import Prelude ContainerRing.
Open Scope Z_scope.

Section spec.
  Context {V : Type}.
  Implicit Types (w : memory V) (l : list Z) (x y r s : Z).

(** ** The links as functions *)

(** A node that is not initialised is a ring of its own. *)
Definition nx w x : Z := match nodes w !! x with Some n => default x (next n) | None => x end.
Definition pv w x : Z := match nodes w !! x with Some n => default x (prev n) | None => x end.
Definition live w x : Prop := is_Some (nodes w !! x).
Definition val w x : option V := n ← nodes w !! x; value n.

(** Both links of a node are set or none, they stay among the nodes and are inverse. *)
Record good w : Prop := {
  gd_fresh : forall x, live w x -> x < fresh w;
  gd_both : forall x n, nodes w !! x = Some n -> next n = None <-> prev n = None;
  gd_nx : forall x, live w x -> live w (nx w x);
  gd_pv : forall x, live w x -> live w (pv w x);
  gd_pv_nx : forall x, live w x -> pv w (nx w x) = x;
  gd_nx_pv : forall x, live w x -> nx w (pv w x) = x
}.

(** The same rings with the same values. *)
Record same w w' : Prop := {
  sm_nx : forall x, nx w' x = nx w x;
  sm_pv : forall x, pv w' x = pv w x;
  sm_live : forall x, live w' x <-> live w x;
  sm_val : forall x, val w' x = val w x
}.

Definition set_up w x : Prop := exists n y z, nodes w !! x = Some n /\ next n = Some y /\ prev n = Some z.

(** What is pointed to from another node is initialised. *)
Lemma set_up_nx w x : good w -> set_up w x -> set_up w (nx w x).
Proof.
  intros Hg (n & y & z & Hx & Hn & Hp). assert (nx w x = y) as Ey by (unfold nx; by rewrite Hx, Hn). destruct (decide (y = x)) as [->|Hne]; [rewrite Ey; by exists n, x, z|].
  assert (live w x) as Hl by (by eexists). pose proof (gd_nx _ Hg x Hl) as [m Hm]. pose proof (gd_pv_nx _ Hg x Hl) as Hpv. rewrite Ey in *. unfold pv in Hpv. rewrite Hm in Hpv.
  destruct (prev m) as [q|] eqn:Eq; [|by cbn in Hpv]. destruct (next m) as [t|] eqn:Et; [by exists m, t, q|]. pose proof (gd_both _ Hg y m Hm). naive_solver.
Qed.

Lemma set_up_pv w x : good w -> set_up w x -> set_up w (pv w x).
Proof.
  intros Hg (n & y & z & Hx & Hn & Hp). assert (pv w x = z) as Ez by (unfold pv; by rewrite Hx, Hp). destruct (decide (z = x)) as [->|Hne]; [rewrite Ez; by exists n, y, x|].
  assert (live w x) as Hl by (by eexists). pose proof (gd_pv _ Hg x Hl) as [m Hm]. pose proof (gd_nx_pv _ Hg x Hl) as Hnx. rewrite Ez in *. unfold nx in Hnx. rewrite Hm in Hnx.
  destruct (next m) as [q|] eqn:Eq; [|by cbn in Hnx]. destruct (prev m) as [t|] eqn:Et; [by exists m, q, t|]. pose proof (gd_both _ Hg z m Hm). naive_solver.
Qed.

Lemma set_next_ok w r y : live w r -> exists w', set_next w r (Some y) = Some w' /\ fresh w' = fresh w /\ (forall x, nx w' x = if decide (x = r) then y else nx w x) /\ (forall x, pv w' x = pv w x) /\
  (forall x, live w' x <-> live w x) /\ (forall x, val w' x = val w x) /\
  (forall x n, nodes w' !! x = Some n -> exists m, nodes w !! x = Some m /\ prev n = prev m /\ next n = if decide (x = r) then Some y else next m).
Proof.
  intros [n Hn]. unfold set_next. rewrite Hn, some_bind. eexists. split; [done|]. unfold nx, pv, live, val. cbn [nodes fresh]. split_and!; [done|intros x; destruct (decide (x = r)) as [->|Hne]..|].
  all: rewrite ?lookup_insert_eq, ?lookup_insert_ne by done; rewrite ?Hn; try done.
  intros x m. destruct (decide (x = r)) as [->|Hne]; [rewrite lookup_insert_eq; intros [= <-]; by exists n|rewrite lookup_insert_ne by done; intros ->; by exists m].
Qed.

Lemma set_prev_ok w r y : live w r -> exists w', set_prev w r (Some y) = Some w' /\ fresh w' = fresh w /\ (forall x, nx w' x = nx w x) /\ (forall x, pv w' x = if decide (x = r) then y else pv w x) /\
  (forall x, live w' x <-> live w x) /\ (forall x, val w' x = val w x) /\
  (forall x n, nodes w' !! x = Some n -> exists m, nodes w !! x = Some m /\ next n = next m /\ prev n = if decide (x = r) then Some y else prev m).
Proof.
  intros [n Hn]. unfold set_prev. rewrite Hn, some_bind. eexists. split; [done|]. unfold nx, pv, live, val. cbn [nodes fresh]. split_and!; [done|intros x; destruct (decide (x = r)) as [->|Hne]..|].
  all: rewrite ?lookup_insert_eq, ?lookup_insert_ne by done; rewrite ?Hn; try done.
  intros x m. destruct (decide (x = r)) as [->|Hne]; [rewrite lookup_insert_eq; intros [= <-]; by exists n|rewrite lookup_insert_ne by done; intros ->; by exists m].
Qed.

(** ** Operations on the links *)

(** A memory that differs only in which nodes are initialised. *)
Record refreshed w w' : Prop := {
  rf_same : same w w';
  rf_good : good w';
  rf_set_up : forall x, set_up w x -> set_up w' x;
  rf_fresh : fresh w' = fresh w
}.

Lemma refreshed_refl w : good w -> refreshed w w.
Proof. by split. Qed.

Lemma init_ok w r n : good w -> nodes w !! r = Some n -> next n = None -> exists w', init w r = Some (w', r) /\ refreshed w w' /\ set_up w' r.
Proof.
  intros Hg Hn Hx. pose proof (proj1 (gd_both _ Hg r n Hn) Hx) as Hp. unfold init, set_next. rewrite Hn, some_bind, some_bind. unfold set_prev. cbn [nodes fresh]. rewrite lookup_insert_eq, some_bind, some_bind. cbn [next prev value]. rewrite insert_insert_eq.
  eexists. split; [done|]. set (w' := mkMemory _ _). assert (same w w') as Hs.
  { unfold w'. split; unfold nx, pv, live, val; cbn [nodes]; intros x; (destruct (decide (x = r)) as [->|Hne]; [rewrite lookup_insert_eq, Hn; cbn; rewrite ?Hx, ?Hp; try done|by rewrite lookup_insert_ne]). }
  assert (forall x, nodes w' !! x = if decide (x = r) then Some (mkInner (Some r) (Some r) (value n)) else nodes w !! x) as Hw by (intros x; unfold w'; cbn [nodes]; destruct (decide (x = r)) as [->|]; [by rewrite lookup_insert_eq|by rewrite lookup_insert_ne]).
  assert (set_up w' r) as Hr by (eexists _, _, _; rewrite Hw, decide_True by done; done). split; [|done]. destruct Hs as [S1 S2 S3 S4]. destruct Hg as [G1 G2 G3 G4 G5 G6]. split; [done| | |done].
  - split.
    + intros x Hl. apply G1. by apply S3.
    + intros x m. rewrite Hw. destruct (decide (x = r)); [intros [= <-]; done|apply G2].
    + intros x Hl. rewrite S1. apply S3, G3. by apply S3.
    + intros x Hl. rewrite S2. apply S3, G4. by apply S3.
    + intros x Hl. rewrite S1, S2. apply G5. by apply S3.
    + intros x Hl. rewrite S1, S2. apply G6. by apply S3.
  - intros x (m & y & z & Hm & Hy). destruct (decide (x = r)) as [->|Hne]; [done|]. exists m, y, z. by rewrite Hw, decide_False.
Qed.

Lemma Next_ok w r : good w -> live w r -> exists w', Next w r = Some (w', nx w r) /\ refreshed w w' /\ set_up w' r.
Proof.
  intros Hg [n Hn]. unfold Next, nx. rewrite Hn, some_bind. destruct (next n) as [y|] eqn:Ey; [|by apply (init_ok w r n)]. exists w. split_and!; [done|by apply refreshed_refl|]. destruct (prev n) as [z|] eqn:Ez; [by exists n, y, z|].
  pose proof (gd_both _ Hg r n Hn). naive_solver.
Qed.

Lemma Prev_ok w r : good w -> live w r -> exists w', Prev w r = Some (w', pv w r) /\ refreshed w w' /\ set_up w' r.
Proof.
  intros Hg [n Hn]. unfold Prev, pv. rewrite Hn, some_bind. pose proof (gd_both _ Hg r n Hn) as Hb. destruct (decide (next n = None)) as [Ey|Ey]; [rewrite (proj1 Hb Ey); by apply (init_ok w r n)|].
  destruct (prev n) as [z|] eqn:Ez; [|naive_solver]. destruct (next n) as [y|] eqn:Ey'; [|done]. exists w. split_and!; [done|by apply refreshed_refl|by exists n, y, z].
Qed.

(** The four writes of [Link]: [r] to [s], and [p] before [s] to [n] after [r]. *)
Record linked w w' r s : Prop := {
  lk_nx : forall x, nx w' x = if decide (x = pv w s) then nx w r else if decide (x = r) then s else nx w x;
  lk_pv : forall x, pv w' x = if decide (x = nx w r) then pv w s else if decide (x = s) then r else pv w x;
  lk_live : forall x, live w' x <-> live w x;
  lk_val : forall x, val w' x = val w x;
  lk_fresh : fresh w' = fresh w
}.

Lemma linked_good w w' r s : good w -> live w r -> live w s -> linked w w' r s -> (forall x n, nodes w' !! x = Some n -> next n = None <-> prev n = None) -> good w'.
Proof.
  intros [G1 G2 G3 G4 G5 G6] Hr Hs [L1 L2 L3 _ Lf] Hb. pose proof (G5 r Hr) as Er. pose proof (G6 s Hs) as Es. split; [intros x Hx; rewrite Lf; apply G1; by apply L3|done|..]; intros x Hx%L3.
  - rewrite L1. apply L3. repeat case_decide; auto.
  - rewrite L2. apply L3. repeat case_decide; auto.
  - rewrite L1, L2. destruct (decide (x = pv w s)) as [->|H1]; [by rewrite decide_True|]. destruct (decide (x = r)) as [->|H2].
    + destruct (decide (s = nx w r)) as [E|]; [rewrite E, Er in H1; done|by rewrite decide_True].
    + destruct (decide (nx w x = nx w r)) as [E|]; [rewrite <- E, G5 in Er by done; done|]. destruct (decide (nx w x = s)) as [E|]; [rewrite <- E, G5 in H1 by done; done|]. by apply G5.
  - rewrite L1, L2. destruct (decide (x = nx w r)) as [->|H1]; [by rewrite decide_True|]. destruct (decide (x = s)) as [->|H2].
    + destruct (decide (r = pv w s)) as [E|]; [rewrite E, Es in H1; done|by rewrite decide_True].
    + destruct (decide (pv w x = pv w s)) as [E|]; [rewrite <- E, G6 in Es by done; done|]. destruct (decide (pv w x = r)) as [E|]; [rewrite <- E, G6 in H1 by done; done|]. by apply G6.
Qed.

Lemma Link_ok w r s : good w -> live w r -> live w s -> exists w', Link w r s = Some (w', nx w r) /\ good w' /\ linked w w' r s.
Proof.
  intros Hg Hr Hs. unfold Link. destruct (Next_ok w r Hg Hr) as (w1 & -> & [[S1 S2 S3 S4] Hg1 _ F1] & U1). rewrite some_bind. destruct (Prev_ok w1 s Hg1) as (w2 & -> & [[T1 T2 T3 T4] Hg2 Hu F2] & U2); [by apply S3|]. rewrite some_bind. apply Hu in U1.
  assert (forall x, live w2 x <-> live w x) as Hlv by (intros x; by rewrite T3, S3). assert (set_up w2 (nx w r)) as U3 by (rewrite <- S1, <- T1; by apply set_up_nx). assert (set_up w2 (pv w1 s)) as U4 by (rewrite <- T2; by apply set_up_pv).
  destruct (set_next_ok w2 r s) as (w3 & -> & F3 & A1 & A2 & A3 & A4 & A5); [by apply Hlv|]. rewrite some_bind. destruct (set_prev_ok w3 s r) as (w4 & -> & F4 & B1 & B2 & B3 & B4 & B5); [by apply A3, Hlv|]. rewrite some_bind.
  destruct (set_prev_ok w4 (nx w r) (pv w1 s)) as (w5 & -> & F5 & C1 & C2 & C3 & C4 & C5); [by apply B3, A3, Hlv, (gd_nx _ Hg)|]. rewrite some_bind.
  destruct (set_next_ok w5 (pv w1 s) (nx w r)) as (w6 & -> & F6 & D1 & D2 & D3 & D4 & D5); [apply C3, B3, A3, Hlv; rewrite S2; by apply (gd_pv _ Hg)|]. rewrite some_bind.
  exists w6. split; [done|]. assert (linked w w6 r s) as Hl.
  { split; intros; rewrite ?D1, ?D2, ?C1, ?C2, ?B1, ?B2, ?A1, ?A2, ?T1, ?T2, ?S1, ?S2; try done; [by rewrite D3, C3, B3, A3|by rewrite D4, C4, B4, A4, T4, S4|congruence]. }
  split; [|done]. apply (linked_good w w6 r s); [done..|]. intros x n6 H6. destruct (D5 _ _ H6) as (n5 & H5 & P6 & N6). destruct (C5 _ _ H5) as (n4 & H4 & N5 & P5). destruct (B5 _ _ H4) as (n3 & H3 & N4 & P4). destruct (A5 _ _ H3) as (n2 & H2 & P3 & N3).
  pose proof (gd_both _ Hg2 _ _ H2) as Hb. assert (x = r \/ x = s \/ x = nx w r \/ x = pv w1 s -> next n2 <> None /\ prev n2 <> None) as Hu2.
  { intros Hx. assert (set_up w2 x) as (m & y & z & Hm & Hy & Hz) by naive_solver. rewrite Hm in H2. injection H2 as <-. rewrite Hy, Hz. done. }
  rewrite P6, P5, P4, P3, N6, N5, N4, N3. repeat case_decide; naive_solver.
Qed.

(** ** Rings as sequences *)

Fixpoint path w l : Prop :=
  match l with
  | x :: l' => match l' with y :: _ => nx w x = y /\ path w l' | [] => True end
  | [] => True
  end.

(** The nodes of a ring in order, from one of them on. *)
Definition ring w l : Prop := match l with [] => False | r :: _ => path w (l ++ [r]) /\ NoDup l /\ Forall (live w) l end.

Lemma path_app w l1 x l2 : path w (l1 ++ x :: l2) <-> path w (l1 ++ [x]) /\ path w (x :: l2).
Proof.
  induction l1 as [|y l1 IH]; [cbn; tauto|]. destruct l1 as [|z l1]; cbn [app path] in *; tauto.
Qed.

Lemma path_keep w w' l y : path w (l ++ [y]) -> (forall x, x ∈ l -> nx w' x = nx w x) -> path w' (l ++ [y]).
Proof.
  induction l as [|x l IH]; [done|]. intros Hp Hk. assert (path w (l ++ [y])) as Hp' by (destruct l; [done|by destruct Hp]). specialize (IH Hp' ltac:(intros; apply Hk; by right)).
  destruct l as [|z l]; cbn [app path] in *; rewrite Hk by left; tauto.
Qed.

Lemma path_end w l x y : path w (l ++ [x; y]) <-> path w (l ++ [x]) /\ nx w x = y.
Proof. change [x; y] with (x :: [y]). rewrite path_app. cbn. tauto. Qed.

Lemma ring_live w l x : ring w l -> x ∈ l -> live w x.
Proof. destruct l as [|r l]; [done|]. intros (_ & _ & Hf) Hx. rewrite Forall_forall in Hf. auto. Qed.

(** Other rings are not touched. *)
Lemma ring_keep w w' l : ring w l -> (forall x, x ∈ l -> nx w' x = nx w x) -> (forall x, live w' x <-> live w x) -> ring w' l.
Proof.
  destruct l as [|r l]; [done|]. intros (Hp & Hn & Hf) Hk Hl. split_and!; [by apply (path_keep w)|done|]. eapply Forall_impl; [exact Hf|]. intros x. apply Hl.
Qed.

Lemma ring_same w w' l : same w w' -> ring w l -> ring w' l.
Proof. intros [S1 _ S3 _] Hr. apply (ring_keep w); auto. Qed.

(** From any of its nodes it is the same ring. *)
Lemma ring_rotate w x l1 y l2 : ring w (x :: l1 ++ y :: l2) -> ring w (y :: l2 ++ x :: l1).
Proof.
  intros (Hp & Hn & Hf). split_and!.
  - cbn [app] in Hp. rewrite <- app_assoc in Hp. cbn [app] in Hp. rewrite app_comm_cons in Hp. apply path_app in Hp as [Hp1 Hp2]. cbn [app]. rewrite <- app_assoc. cbn [app]. rewrite app_comm_cons. apply path_app. split; [done|]. done.
  - replace (y :: l2 ++ x :: l1) with ((y :: l2) ++ (x :: l1)) by done. rewrite app_comm_cons in Hn. rewrite list.NoDup_app in *. set_solver.
  - rewrite app_comm_cons, Forall_app in *. tauto.
Qed.

Lemma ring_rotate_to w l x : ring w l -> x ∈ l -> exists l', ring w (x :: l') /\ x :: l' ≡ₚ l.
Proof.
  intros Hr Hx. destruct l as [|r l]; [done|]. apply elem_of_cons in Hx as [->|Hx]; [by exists l|]. apply list_elem_of_split in Hx as (l1 & l2 & ->). exists (l2 ++ r :: l1). split; [by apply ring_rotate|].
  apply (Permutation_app_comm (x :: l2) (r :: l1)).
Qed.

(** The end of the part of a ring before [y]. *)
Lemma pv_last w l x y l2 : good w -> live w x -> path w (l ++ [x; y] ++ l2) -> pv w y = x.
Proof.
  intros Hg Hx Hp. replace (l ++ [x; y] ++ l2) with (l ++ x :: (y :: l2)) in Hp by done. apply path_app in Hp as [_ [E _]]. rewrite <- E. by apply (gd_pv_nx _ Hg).
Qed.

(** ** [Link] *)

(** [Link] within a ring cuts out what is between [r] and [s]. *)
Lemma link_cut w w' r s A B : good w -> linked w w' r s -> ring w (r :: A ++ B) -> s = hd r B -> ring w' (r :: B) /\ (A <> [] -> ring w' A).
Proof.
  intros Hg Hl Hr Hs. pose proof Hr as (Hp & Hn & Hf). cbn [app] in Hp. assert (exists T, B ++ [r] = s :: T) as [T ET] by (destruct B as [|b B]; cbn in *; subst; eauto).
  rewrite <- app_assoc, ET in Hp. assert (exists l q, r :: A = l ++ [q]) as (l & q & El) by (destruct A as [|a A _] using rev_ind; [by exists [], r|by exists (r :: A), a]).
  assert (q ∈ r :: A) as Hq by (rewrite El; apply elem_of_app; right; left). assert (live w q) as Hlq by (eapply ring_live; [exact Hr|rewrite app_comm_cons; apply elem_of_app; by left]). assert (pv w s = q) as Epv.
  { apply (pv_last w l q s T Hg Hlq). rewrite app_comm_cons, El, <- app_assoc in Hp. done. }
  pose proof (lk_nx _ _ _ _ Hl) as Hnx. rewrite Epv in Hnx. pose proof (lk_live _ _ _ _ Hl) as Hlv. rewrite app_comm_cons, list.NoDup_app in Hn. destruct Hn as (NA & Hd & NB). split.
  - split_and!.
    + cbn [app]. rewrite ET. split; [|rewrite <- ET; apply (path_keep w)].
      * rewrite Hnx. destruct (decide (r = q)) as [<-|]; [|by rewrite decide_True]. assert (A = []) as -> by (destruct l as [|? l]; [by injection El|]; injection El as -> ->; apply list.NoDup_cons in NA as [NA _]; exfalso; apply NA; apply elem_of_app; right; left).
        cbn [app] in Hp. apply Hp.
      * rewrite app_comm_cons in Hp. apply path_app in Hp as [_ Hp]. by rewrite ET.
      * intros x Hx. rewrite Hnx. rewrite !decide_False; [done|by intros ->; apply (Hd r); [left|]|by intros ->; apply (Hd q)].
    + apply list.NoDup_cons. split; [|done]. apply (Hd r). left.
    + rewrite Forall_forall in *. intros x Hx. apply Hlv, Hf. apply elem_of_cons in Hx as [->|Hx]; [left|right; apply elem_of_app; by right].
  - intros HA. destruct A as [|a A]; [done|]. assert (exists l', l = r :: l' /\ a :: A = l' ++ [q]) as (l' & -> & EA) by (destruct l as [|? l']; [by injection El|]; injection El as -> El; eauto).
    split_and!; [|by apply list.NoDup_cons in NA as [_ NA]|rewrite Forall_forall in *; intros x Hx; apply Hlv, Hf; right; apply elem_of_app; by left].
    rewrite EA, <- app_assoc. cbn [app]. apply path_end. apply list.NoDup_cons in NA as [Hra NA]. split.
    + apply (path_keep w).
      * rewrite <- EA. rewrite app_comm_cons in Hp. apply path_app in Hp as [Hp _]. rewrite El, <- app_assoc in Hp. cbn [app] in Hp. apply (path_app w (r :: l') q [s]) in Hp as [Hp _]. rewrite EA. destruct l' as [|b l']; [done|]. by destruct Hp as [_ Hp].
      * intros x Hx. rewrite Hnx, !decide_False; [done|intros ->; apply Hra; rewrite EA; apply elem_of_app; by left|]. intros ->. rewrite EA, list.NoDup_app in NA. destruct NA as (_ & NA & _). apply (NA q); [done|by apply list_elem_of_singleton].
    + rewrite Hnx, decide_True by done. cbn [app] in Hp. by destruct Hp as [-> _].
Qed.

(** [Link] of two rings joins them. *)
Lemma link_join w w' r s A B : good w -> linked w w' r s -> ring w (r :: A) -> ring w (s :: B) -> r :: A ## s :: B -> ring w' (r :: s :: B ++ A).
Proof.
  intros Hg Hl Hr Hs Hd. pose proof Hr as (Hp & Hn & Hf). pose proof Hs as (Hp2 & Hn2 & Hf2). assert (exists l q, s :: B = l ++ [q]) as (l & q & El) by (destruct B as [|b B _] using rev_ind; [by exists [], s|by exists (s :: B), b]).
  assert (q ∈ s :: B) as Hq by (rewrite El; apply elem_of_app; right; left). assert (live w q) as Hlq by (by eapply ring_live). assert (pv w s = q) as Epv.
  { apply (pv_last w l q s [] Hg Hlq). rewrite El, <- app_assoc in Hp2. done. }
  pose proof (lk_nx _ _ _ _ Hl) as Hnx. rewrite Epv in Hnx. pose proof (lk_live _ _ _ _ Hl) as Hlv. assert (r <> q) as Hrq by (intros ->; by apply (Hd q); [left|]).
  assert (forall x, x ∈ A -> nx w' x = nx w x) as KA by (intros x Hx; rewrite Hnx, !decide_False; [done| |]; intros ->; [by apply list.NoDup_cons in Hn as [Hn _]|by apply (Hd q); [right|]]).
  assert (exists n T, A ++ [r] = n :: T /\ nx w r = n) as (n & T & ET & En) by (destruct A as [|a A]; cbn in Hp; [exists r, []; split; [done|apply Hp]|exists a, (A ++ [r]); split; [done|apply Hp]]).
  split_and!.
  - cbn [app]. split; [rewrite Hnx, decide_False, decide_True by done; done|]. rewrite <- app_assoc, ET. rewrite app_comm_cons, El, <- app_assoc. cbn [app]. apply path_app. split.
    + apply (path_keep w); [rewrite El, <- app_assoc in Hp2; by apply path_end in Hp2 as [Hp2 _]|]. intros x Hx. rewrite Hnx, !decide_False; [done| |].
      * intros ->. apply (Hd r); [left|]. rewrite El. apply elem_of_app. by left.
      * intros ->. rewrite El, list.NoDup_app in Hn2. destruct Hn2 as (_ & Hn2 & _). apply (Hn2 q); [done|by apply list_elem_of_singleton].
    + rewrite <- ET. assert (path w' (A ++ [r])) as PA by (apply (path_keep w); [|done]; destruct A; [done|by destruct Hp]). rewrite ET in PA. rewrite ET. split; [|done]. by rewrite Hnx, decide_True.
  - apply list.NoDup_cons. split; [apply list.NoDup_cons in Hn as [Hn _]; intros Hx; apply (Hd r); [left|]; apply elem_of_cons in Hx as [->|[Hx|Hx]%elem_of_app]; [left|by right|done]|]. rewrite app_comm_cons, list.NoDup_app. apply list.NoDup_cons in Hn as [_ Hn]. split_and!; [done| |done]. intros x Hx HA. apply (Hd x); [by right|done].
  - rewrite !Forall_forall in *. intros x Hx. apply Hlv. apply elem_of_cons in Hx as [->|Hx]; [apply Hf; left|]. rewrite app_comm_cons in Hx. apply elem_of_app in Hx as [Hx|Hx]; [by apply Hf2|apply Hf; by right].
Qed.

(** Rings that meet neither are left alone. *)
Lemma link_frame w w' r s l : good w -> linked w w' r s -> ring w l -> r ∉ l -> s ∉ l -> live w s -> ring w' l.
Proof.
  intros Hg Hl Hr Hnr Hns Hs. apply (ring_keep w); [done| |apply Hl]. intros x Hx. rewrite (lk_nx _ _ _ _ Hl), !decide_False; [done|by intros ->|]. intros ->.
  destruct (ring_rotate_to w l _ Hr Hx) as (l' & (Hp & _) & Hperm). apply Hns. rewrite <- Hperm. pose proof (gd_nx_pv _ Hg s Hs) as E. destruct l' as [|y l']; cbn in Hp; destruct Hp as [E' _]; rewrite E in E'; [rewrite E' at 1; left|subst; right; left].
Qed.

(** ** Every node is on a ring *)

Lemma live_dom w l : NoDup l -> Forall (live w) l -> (length l <= size (nodes w))%nat.
Proof.
  intros Hn Hf. rewrite <- (size_dom (nodes w)). rewrite <- (size_list_to_set (C := gset Z) l) by done. apply subseteq_size. intros x Hx%elem_of_list_to_set. rewrite Forall_forall in Hf. apply elem_of_dom. by apply Hf.
Qed.

(** A path that does not meet itself goes on or closes. *)
Lemma path_grows w r : good w -> live w r -> forall k l y, path w (r :: l ++ [y]) -> NoDup (r :: l ++ [y]) -> Forall (live w) (r :: l ++ [y]) -> (size (nodes w) < length (r :: l ++ [y]) + k)%nat -> exists l', ring w (r :: l').
Proof.
  intros Hg Hr. induction k as [|k IH]; intros l y Hp Hn Hf Hk; [pose proof (live_dom w _ Hn Hf); lia|]. destruct (decide (nx w y = r)) as [E|Hne].
  - exists (l ++ [y]). split_and!; [|done|done]. cbn [app]. rewrite <- app_assoc. cbn [app]. apply (path_end w (r :: l) y r). done.
  - apply (IH (l ++ [y]) (nx w y)).
    + rewrite <- app_assoc. cbn [app]. by apply (path_end w (r :: l) y (nx w y)).
    + rewrite app_comm_cons, list.NoDup_app. split_and!; [done| |apply NoDup_singleton]. intros x Hx ->%list_elem_of_singleton. apply elem_of_cons in Hx as [?|Hx]; [done|].
      assert (live w y) as Hy by (rewrite Forall_forall in Hf; apply Hf; right; apply elem_of_app; right; left). apply list_elem_of_split in Hx as (l1 & l2 & Ex). pose proof (gd_pv_nx _ Hg y Hy) as Epv.
      assert (exists l0 u, r :: l1 = l0 ++ [u]) as (l0 & u & Eu) by (destruct l1 as [|a l1 _] using rev_ind; [by exists [], r|by exists (r :: l1), a]). rewrite Ex in Hp, Hn, Hf. rewrite app_comm_cons, Eu in Hp, Hn, Hf. rewrite <- app_assoc in Hp, Hn, Hf.
      assert (live w u) as Hu by (rewrite Forall_forall in Hf; apply Hf; apply elem_of_app; right; left). rewrite (pv_last w l0 u (nx w y) l2 Hg Hu Hp) in Epv. subst u.
      assert (y ∈ nx w y :: l2) as Hin by (assert (list.last (l ++ [y]) = list.last (nx w y :: l2)) as El by (by rewrite Ex, last_app_cons); rewrite last_snoc in El; symmetry in El; by apply last_Some_elem_of in El).
      apply list.NoDup_app in Hn as (_ & _ & Hn). apply list.NoDup_cons in Hn as [Hn _]. done.
    + rewrite app_comm_cons, Forall_app. split; [done|]. apply list.Forall_singleton. apply (gd_nx _ Hg). rewrite Forall_forall in Hf. apply Hf. right. apply elem_of_app. right. left.
    + cbn [length] in *. rewrite !length_app in *. cbn [length] in *. lia.
Qed.

Lemma on_ring w r : good w -> live w r -> exists l, ring w (r :: l).
Proof.
  intros Hg Hr. destruct (decide (nx w r = r)) as [E|Hne]; [exists []; split_and!; [done|apply NoDup_singleton|by apply list.Forall_singleton]|].
  apply (path_grows w r Hg Hr (size (nodes w)) [] (nx w r)); cbn [app length]; [done| |by repeat constructor; [..|apply (gd_nx _ Hg)]|lia].
  apply list.NoDup_cons. split; [intros E%list_elem_of_singleton; congruence|apply NoDup_singleton].
Qed.

(** ** Walks *)

Lemma ring_nx w L i x : ring w L -> L !! i = Some x -> L !! ((i + 1) mod length L)%nat = Some (nx w x).
Proof.
  destruct L as [|r l]; [done|]. intros (Hp & _ & _) Hi. pose proof (lookup_lt_Some _ _ _ Hi) as Hlt. assert ((r :: l) ++ [r] = take i (r :: l) ++ x :: drop (S i) ((r :: l) ++ [r])) as E.
  { rewrite <- (take_drop_middle ((r :: l) ++ [r]) i x) at 1 by (by apply lookup_app_l_Some). by rewrite take_app_le by lia. }
  rewrite E in Hp. apply path_app in Hp as [_ Hp]. destruct (decide (S i = length (r :: l))) as [El|El].
  - rewrite Nat.add_1_r, El, Nat.Div0.mod_same. rewrite El, drop_app_length in Hp. cbn in Hp. destruct Hp as [-> _]. done.
  - rewrite Nat.mod_small by lia. rewrite Nat.add_1_r. destruct (lookup_lt_is_Some_2 (r :: l) (S i)) as [y Hy]; [lia|]. rewrite (drop_S ((r :: l) ++ [r]) y) in Hp by (by apply lookup_app_l_Some). destruct Hp as [-> _]. done.
Qed.

Lemma ring_pv w L i x : good w -> ring w L -> L !! i = Some x -> L !! ((i + (length L - 1)) mod length L)%nat = Some (pv w x).
Proof.
  intros Hg HL Hi. pose proof (lookup_lt_Some _ _ _ Hi) as Hlt. set (j := ((i + (length L - 1)) mod length L)%nat). destruct (lookup_lt_is_Some_2 L j) as [y Hy]; [subst j; apply Nat.mod_upper_bound; lia|]. rewrite Hy. f_equal.
  pose proof (ring_nx w L j y HL Hy) as Hn. replace ((j + 1) mod length L)%nat with i in Hn; [|subst j; rewrite Nat.Div0.add_mod_idemp_l; replace (i + (length L - 1) + 1)%nat with (i + 1 * length L)%nat by lia; rewrite Nat.Div0.mod_add; by rewrite Nat.mod_small].
  rewrite Hi in Hn. injection Hn as ->. symmetry. apply (gd_pv_nx _ Hg). eapply ring_live; [exact HL|]. by eapply list_elem_of_lookup_2.
Qed.

(** Every node of a ring of more than one node is initialised. *)
Lemma forward_ok w L : good w -> ring w L -> forall k i x, L !! i = Some x -> set_up w x -> exists y, forward w k x = Some y /\ L !! ((i + k) mod length L)%nat = Some y.
Proof.
  intros Hg HL. induction k as [|k IH]; intros i x Hi Hu; cbn [forward].
  { exists x. split; [done|]. rewrite Nat.add_0_r, Nat.mod_small; [done|]. by eapply lookup_lt_Some. }
  pose proof (set_up_nx w x Hg Hu) as Hu'. pose proof (ring_nx w L i x HL Hi) as Hi'. destruct Hu as (n & y & z & Hn & Hy & Hz). rewrite Hn, some_bind, Hy, some_bind. assert (nx w x = y) as Ey by (unfold nx; by rewrite Hn, Hy). rewrite Ey in *.
  destruct (IH _ y Hi' Hu') as (v & -> & Hv). exists v. split; [done|]. rewrite <- Hv. f_equal. rewrite Nat.Div0.add_mod_idemp_l. f_equal. lia.
Qed.

Lemma back_ok w L : good w -> ring w L -> forall k i x, L !! i = Some x -> set_up w x -> exists y, back w k x = Some y /\ L !! ((i + k * (length L - 1)) mod length L)%nat = Some y.
Proof.
  intros Hg HL. induction k as [|k IH]; intros i x Hi Hu; cbn [back].
  { exists x. split; [done|]. rewrite Nat.add_0_r, Nat.mod_small; [done|]. by eapply lookup_lt_Some. }
  pose proof (set_up_pv w x Hg Hu) as Hu'. pose proof (ring_pv w L i x Hg HL Hi) as Hi'. destruct Hu as (n & y & z & Hn & Hy & Hz). rewrite Hn, some_bind, Hz, some_bind. assert (pv w x = z) as Ez by (unfold pv; by rewrite Hn, Hz). rewrite Ez in *.
  destruct (IH _ z Hi' Hu') as (v & -> & Hv). exists v. split; [done|]. rewrite <- Hv. f_equal. rewrite Nat.Div0.add_mod_idemp_l. f_equal. lia.
Qed.

Lemma mod_back (n : Z) (len : nat) : n < 0 -> (0 < len)%nat -> Z.of_nat ((0 + Z.to_nat (- n) * (len - 1)) mod len) = n mod Z.of_nat len.
Proof.
  intros Hn Hl. rewrite Nat2Z.inj_mod, Nat2Z.inj_add, Nat2Z.inj_mul, Nat2Z.inj_sub, Z2Nat.id by lia. replace (Z.of_nat 0 + - n * (Z.of_nat len - Z.of_nat 1)) with (n + - n * Z.of_nat len) by lia. apply Z_mod_plus_full.
Qed.

Lemma Move_ok w r l n : good w -> ring w (r :: l) -> exists w' x, Move w r n = Some (w', x) /\ refreshed w w' /\ (r :: l) !! Z.to_nat (n mod zlen (r :: l)) = Some x.
Proof.
  intros Hg HL. assert (live w r) as Hr by (eapply ring_live; [exact HL|left]). pose proof Hr as [m Hm]. unfold Move. rewrite Hm, some_bind. destruct (decide (next m = None)) as [E|E].
  - destruct (init_ok w r m Hg Hm E) as (w' & -> & Hrf & _). exists w', r. split_and!; [done|done|]. assert (l = []) as ->; [|by rewrite Z.mod_1_r]. destruct HL as (Hp & Hn & _). destruct l as [|y l]; [done|]. cbn in Hp. destruct Hp as [Ey _]. unfold nx in Ey. rewrite Hm, E in Ey. cbn in Ey. subst y. apply list.NoDup_cons in Hn as [Hn _]. exfalso. apply Hn. left.
  - assert (set_up w r) as Hu by (pose proof (gd_both _ Hg r m Hm); destruct (next m) as [y|] eqn:Ey; [|done]; destruct (prev m) as [z|] eqn:Ez; [by exists m, y, z|naive_solver]).
    destruct (decide (n < 0)) as [Hneg|Hpos].
    + destruct (back_ok w _ Hg HL (Z.to_nat (- n)) 0 r eq_refl Hu) as (y & -> & Hy). rewrite some_bind. exists w, y. split_and!; [done|by apply refreshed_refl|]. rewrite <- Hy. f_equal. unfold zlen. rewrite <- (mod_back n (length (r :: l))) by (done || (cbn; lia)). by rewrite Nat2Z.id.
    + destruct (forward_ok w _ Hg HL (Z.to_nat n) 0 r eq_refl Hu) as (y & -> & Hy). rewrite some_bind. exists w, y. split_and!; [done|by apply refreshed_refl|]. rewrite <- Hy. f_equal. apply Nat2Z.inj. rewrite Nat2Z.inj_mod, Nat.add_0_l, !Z2Nat.id; [done|lia|]. apply Z.mod_pos_bound. unfold zlen. cbn. lia.
Qed.

(** What is left of the ring when the walk of [Len] or [Do] is at [cur]. *)
Lemma len_loop_ok w r : good w -> set_up w r -> forall l fuel n, path w (l ++ [r]) -> r ∉ l -> Forall (set_up w) l -> (length l < fuel)%nat -> len_loop fuel w r (hd r l) n = Some (n + zlen l).
Proof.
  intros Hg Hr. induction l as [|x l IH]; intros [|fuel] n Hp Hn Hf Hk; try (cbn in Hk; lia); cbn [len_loop hd].
  - rewrite decide_True by done. f_equal. unfold zlen. cbn. lia.
  - apply not_elem_of_cons in Hn as [Hne Hn]. apply list.Forall_cons in Hf as [(m & y & z & Hm & Hy & _) Hf]. rewrite decide_False by done. rewrite Hm, some_bind, Hy. assert (y = hd r l /\ path w (l ++ [r])) as [-> Hp'].
    { assert (nx w x = y) as Ey by (unfold nx; by rewrite Hm, Hy). destruct l as [|x' l]; cbn in Hp; destruct Hp as [E Hp]; (split; [cbn [hd]; congruence|done]). }
    rewrite IH by (done || (cbn in Hk; lia)). f_equal. unfold zlen. cbn [length]. lia.
Qed.

Lemma do_loop_ok w r : good w -> set_up w r -> forall l fuel, path w (l ++ [r]) -> r ∉ l -> Forall (set_up w) l -> (length l < fuel)%nat -> do_loop fuel w r (hd r l) = Some (omap (val w) l).
Proof.
  intros Hg Hr. induction l as [|x l IH]; intros [|fuel] Hp Hn Hf Hk; try (cbn in Hk; lia); cbn [do_loop hd].
  - by rewrite decide_True.
  - apply not_elem_of_cons in Hn as [Hne Hn]. apply list.Forall_cons in Hf as [(m & y & z & Hm & Hy & _) Hf]. rewrite decide_False by done. rewrite Hm, some_bind, Hy. assert (y = hd r l /\ path w (l ++ [r])) as [-> Hp'].
    { assert (nx w x = y) as Ey by (unfold nx; by rewrite Hm, Hy). destruct l as [|x' l]; cbn in Hp; destruct Hp as [E Hp]; (split; [cbn [hd]; congruence|done]). }
    rewrite IH by (done || (cbn in Hk; lia)). rewrite some_bind. cbn. unfold val at 2. rewrite Hm. cbn. by destruct (value m).
Qed.

Lemma ring_set_up w r l : good w -> ring w (r :: l) -> set_up w r -> Forall (set_up w) l.
Proof.
  intros Hg HL Hu. apply Forall_lookup. intros i x Hx. assert (forall k y, (r :: l) !! k = Some y -> set_up w y) as Hall; [|by apply (Hall (S i))]. induction k as [|k IH]; intros y Hy; [by injection Hy as <-|].
  destruct (lookup_lt_is_Some_2 (r :: l) k) as [z Hz]; [apply lookup_lt_Some in Hy; lia|]. pose proof (ring_nx w _ k z HL Hz) as Hn. rewrite Nat.mod_small in Hn by (apply lookup_lt_Some in Hy; lia). rewrite Nat.add_1_r, Hy in Hn. injection Hn as ->. apply set_up_nx; eauto.
Qed.

Lemma walk_ok w r l : good w -> ring w (r :: l) -> exists w', Next w r = Some (w', hd r l) /\ refreshed w w' /\ set_up w' r /\ path w' (l ++ [r]) /\ r ∉ l /\ Forall (set_up w') l /\ (length l < S (size (nodes w')))%nat.
Proof.
  intros Hg HL. pose proof HL as (Hp & Hn & Hf). destruct (Next_ok w r Hg) as (w' & E & Hrf & Hu); [by apply list.Forall_cons in Hf as [? _]|]. exists w'. pose proof (ring_same w w' _ (rf_same _ _ Hrf) HL) as HL'. pose proof HL' as (Hp' & _ & Hf').
  assert (nx w r = hd r l) as Enx by (destruct l; cbn in Hp; apply Hp). rewrite Enx in E. pose proof Hn as [Hnr Hnl]%list.NoDup_cons. split_and!; [done|done|done| |done|eapply ring_set_up; try done; apply Hrf|].
  - destruct l; [done|]. by destruct Hp'.
  - pose proof (live_dom w' (r :: l) Hn Hf') as Hd. cbn in Hd. lia.
Qed.

Lemma Len_ok w r l : good w -> ring w (r :: l) -> exists w', Len w r = Some (w', zlen (r :: l)) /\ refreshed w w'.
Proof.
  intros Hg HL. destruct (walk_ok w r l Hg HL) as (w' & E & Hrf & Hu & Hp & Hn & Hf & Hk). exists w'. split; [|done]. unfold Len. rewrite E, some_bind, len_loop_ok by (done || apply Hrf). rewrite some_bind. repeat f_equal. unfold zlen. cbn [length]. lia.
Qed.

Lemma Do_ok w r l : good w -> ring w (r :: l) -> exists w', Do w r = Some (w', omap (val w) (r :: l)) /\ refreshed w w'.
Proof.
  intros Hg HL. destruct (walk_ok w r l Hg HL) as (w' & E & Hrf & Hu & Hp & Hn & Hf & Hk). exists w'. split; [|done]. unfold Do. assert (live w r) as [m Hm] by (eapply ring_live; [exact HL|left]). rewrite Hm, some_bind, E, some_bind, do_loop_ok by (done || apply Hrf). rewrite some_bind.
  assert (forall k : list Z, omap (val w') k = omap (val w) k) as -> by (induction k as [|y k IHk]; [done|]; cbn; by rewrite IHk, (sm_val _ _ (rf_same _ _ Hrf))). assert (val w r = value m) as Ev by (unfold val; by rewrite Hm). cbn. rewrite Ev. by destruct (value m).
Qed.

(** ** [Unlink] *)

Lemma Unlink_ok w r l n : good w -> ring w (r :: l) -> 0 < n < 2 ^ 63 - 1 -> exists w' A B, Unlink w r n = Some (w', Some (nx w r)) /\ l = A ++ B /\ zlen A = n mod zlen (r :: l) /\
  good w' /\ ring w' (r :: B) /\ (A <> [] -> ring w' A) /\ (forall M, ring w M -> M ## r :: l -> ring w' M) /\ (forall x, val w' x = val w x) /\ (forall x, live w' x <-> live w x).
Proof.
  intros Hg HL Hn. unfold Unlink. rewrite decide_False by lia. rewrite chki64_ok, some_bind by lia. destruct (Move_ok w r l (n + 1) Hg HL) as (w1 & s & -> & [Hs1 Hg1 _ _] & Hs). rewrite some_bind. pose proof (ring_same _ _ _ Hs1 HL) as HL1.
  assert (live w1 r) as Hr by (eapply ring_live; [exact HL1|left]). assert (live w1 s) as Hls by (eapply ring_live; [exact HL1|by eapply list_elem_of_lookup_2]). destruct (Link_ok w1 r s Hg1 Hr Hls) as (w2 & -> & Hg2 & Hlk). rewrite some_bind.
  set (len := zlen (r :: l)) in *. assert (0 < len) as Hlen by (unfold len, zlen; cbn; lia). pose proof (Z.mod_pos_bound n len Hlen) as Hk. set (k := n mod len) in *. exists w2, (take (Z.to_nat k) l), (drop (Z.to_nat k) l).
  assert (l = take (Z.to_nat k) l ++ drop (Z.to_nat k) l) as El by (by rewrite take_drop). assert (s = hd r (drop (Z.to_nat k) l)) as Es.
  { replace ((n + 1) mod len) with ((k + 1) mod len) in Hs by (unfold k; by rewrite Z.add_mod_idemp_l by lia). destruct (decide (k + 1 = len)) as [Ek|Ek].
    - rewrite Ek, Z.mod_same in Hs by lia. injection Hs as ->. rewrite drop_ge; [done|]. unfold len, zlen in Ek. cbn [length] in Ek. lia.
    - rewrite Z.mod_small in Hs by lia. replace (Z.to_nat (k + 1)) with (S (Z.to_nat k)) in Hs by lia. cbn in Hs. rewrite <- (drop_S l s) || idtac. by rewrite (drop_S l s). }
  rewrite El in HL1. destruct (link_cut w1 w2 r s _ _ Hg1 Hlk HL1 Es) as [R1 R2]. destruct Hs1 as [S1 S2 S3 S4]. split_and!; [by rewrite S1|done| |done|done|done| | |].
  - unfold zlen. rewrite length_take. unfold len, zlen in Hk. cbn [length] in Hk. lia.
  - intros M HM Hd. apply (link_frame w1 w2 r s M Hg1 Hlk); [by apply (ring_same w)|intros Hx; apply (Hd r Hx); left|intros Hx; apply (Hd s Hx); by eapply list_elem_of_lookup_2|done].
  - intros x. by rewrite (lk_val _ _ _ _ Hlk), S4.
  - intros x. by rewrite (lk_live _ _ _ _ Hlk), S3.
Qed.

(** ** [New] *)

Lemma new_loop_ok : forall k w p n, nodes w !! p = Some n -> fresh w = p + 1 -> exists w', new_loop k w p = Some (w', p + Z.of_nat k) /\ fresh w' = p + Z.of_nat k + 1 /\
  (forall x, nodes w' !! x = if decide (x = p) then Some (mkInner (if decide (k = 0%nat) then next n else Some (p + 1)) (prev n) (value n))
                             else if decide (p < x <= p + Z.of_nat k) then Some (mkInner (if decide (x = p + Z.of_nat k) then None else Some (x + 1)) (Some (x - 1)) None) else nodes w !! x).
Proof.
  induction k as [|k IH]; intros w p n Hn Hf; cbn [new_loop].
  { exists w. rewrite Z.add_0_r. split_and!; [done|done|]. intros x. destruct (decide (x = p)) as [->|]; [by rewrite decide_True; destruct n|]. by rewrite decide_False by lia. }
  unfold alloc, set_next. cbn [nodes fresh]. rewrite lookup_insert_ne by lia. rewrite Hn, some_bind. cbn [nodes fresh]. rewrite some_bind.
  destruct (IH (mkMemory (<[p := mkInner (Some (fresh w)) (prev n) (value n)]> (<[fresh w := mkInner None (Some p) None]> (nodes w))) (fresh w + 1)) (fresh w) (mkInner None (Some p) None)) as (w' & E & Ef & Hl).
  { cbn [nodes]. rewrite lookup_insert_ne by lia. by rewrite lookup_insert_eq. } { done. }
  exists w'. split_and!; [rewrite E; f_equal; f_equal; lia|lia|]. intros x. rewrite Hl. cbn [nodes next prev value]. rewrite Hf in *. destruct (decide (x = p)) as [->|Hxp].
  - rewrite !decide_False by lia. by rewrite lookup_insert_eq.
  - destruct (decide (x = p + 1)) as [->|Hx1].
    + rewrite (decide_True (P := p < p + 1 <= _)) by lia. f_equal. f_equal; [|f_equal; lia]. repeat case_decide; try done; lia.
    + rewrite !lookup_insert_ne by lia. repeat case_decide; try done; try lia; repeat f_equal; lia.
Qed.

(** The nodes from [f] on, linked in order. *)
Lemma new_ring w w' f n p : good w -> 0 < n -> f = fresh w -> p = f + (n - 1) -> fresh w' = p + 1 ->
  (forall x, nodes w' !! x = if decide (f <= x < f + n) then Some (mkInner (Some (if decide (x = p) then f else x + 1)) (Some (if decide (x = f) then p else x - 1)) None) else nodes w !! x) ->
  good w' /\ ring w' (seqZ f n) /\ zlen (seqZ f n) = n /\ Forall (fun x => ~ live w x /\ val w' x = None) (seqZ f n) /\
  (forall x, live w' x <-> live w x \/ x ∈ seqZ f n) /\ (forall x, live w x -> nodes w' !! x = nodes w !! x).
Proof.
  intros Hg Hn Ef Ep Hfr Hw. assert (forall x, live w x -> x < f) as Hlt by (intros x Hx; rewrite Ef; by apply (gd_fresh _ Hg)).
  assert (forall x, nx w' x = if decide (f <= x < f + n) then if decide (x = p) then f else x + 1 else nx w x) as Hnx by (intros x; unfold nx; rewrite Hw; by destruct (decide (f <= x < f + n))).
  assert (forall x, pv w' x = if decide (f <= x < f + n) then if decide (x = f) then p else x - 1 else pv w x) as Hpv by (intros x; unfold pv; rewrite Hw; by destruct (decide (f <= x < f + n))).
  assert (forall x, live w' x <-> live w x \/ f <= x < f + n) as Hl by (intros x; unfold live; rewrite Hw; destruct (decide (f <= x < f + n)); [split; [by right|by eexists]|split; [by left|intros [?|?]; done]]).
  assert (forall x, live w' x -> ~ (f <= x < f + n) -> live w x) as Ho by (intros x [?|?]%Hl; done). split_and!.
  - split.
    + intros x [Hx%Hlt|Hx]%Hl; lia.
    + intros x m. rewrite Hw. destruct (decide (f <= x < f + n)); [intros [= <-]; done|apply (gd_both _ Hg)].
    + intros x Hx. rewrite Hnx, Hl. destruct (decide (f <= x < f + n)); [right; case_decide; lia|left; apply (gd_nx _ Hg); auto].
    + intros x Hx. rewrite Hpv, Hl. destruct (decide (f <= x < f + n)); [right; case_decide; lia|left; apply (gd_pv _ Hg); auto].
    + intros x Hx. rewrite Hnx, Hpv. destruct (decide (f <= x < f + n)) as [Hr|Hr].
      * destruct (decide (x = p)) as [->|]; [by rewrite !decide_True by (done || lia)|]. rewrite decide_True, decide_False by lia. lia.
      * pose proof (Hlt _ (gd_nx _ Hg x (Ho x Hx Hr))). rewrite decide_False by lia. apply (gd_pv_nx _ Hg); auto.
    + intros x Hx. rewrite Hnx, Hpv. destruct (decide (f <= x < f + n)) as [Hr|Hr].
      * destruct (decide (x = f)) as [->|]; [by rewrite !decide_True by (done || lia)|]. rewrite decide_True, decide_False by lia. lia.
      * pose proof (Hlt _ (gd_pv _ Hg x (Ho x Hx Hr))). rewrite decide_False by lia. apply (gd_nx_pv _ Hg); auto.
  - assert (forall m a, 0 <= m -> f <= a -> a + m = p -> path w' (seqZ a (m + 1) ++ [f])) as Hpath.
    { intros m a Hm. revert a. pattern m. apply natlike_ind; [|clear m Hm|done].
      - intros a Ha Hap. change (seqZ a (0 + 1)) with (seqZ a 1). rewrite (seqZ_cons a 1) by lia. change (seqZ (Z.succ a) (Z.pred 1)) with (@nil Z). cbn [app path]. by rewrite Hnx, !decide_True by lia.
      - intros m Hm IH a Ha Hap. specialize (IH (a + 1) ltac:(lia) ltac:(lia)). rewrite seqZ_cons by lia. replace (Z.succ a) with (a + 1) by lia. replace (Z.pred (Z.succ m + 1)) with (m + 1) by lia. revert IH. rewrite (seqZ_cons (a + 1)) by lia. cbn [app path]. intros IH. split; [|done].
        rewrite Hnx, decide_True, decide_False by lia. done. }
    specialize (Hpath (n - 1) f ltac:(lia) ltac:(lia) ltac:(lia)). replace (n - 1 + 1) with n in Hpath by lia. assert (Forall (live w') (seqZ f n)) as Hf by (apply list.Forall_forall; intros x Hx%elem_of_seqZ; apply Hl; by right). pose proof (NoDup_seqZ f n) as Hnd.
    rewrite (seqZ_cons f n) in * by lia. done.
  - unfold zlen. rewrite length_seqZ. lia.
  - apply list.Forall_forall. intros x Hx%elem_of_seqZ. split; [intros Hx'%Hlt; lia|]. unfold val. rewrite Hw, decide_True by lia. done.
  - intros x. by rewrite Hl, elem_of_seqZ.
  - intros x Hx%Hlt. by rewrite Hw, decide_False by lia.
Qed.

Lemma New_ok w n : good w -> 0 < n -> exists w' r l, New w n = Some (w', Some r) /\ good w' /\ ring w' (r :: l) /\ zlen (r :: l) = n /\ Forall (fun x => ~ live w x /\ val w' x = None) (r :: l) /\
  (forall x, live w' x <-> live w x \/ x ∈ r :: l) /\ (forall x, live w x -> nodes w' !! x = nodes w !! x).
Proof.
  intros Hg Hn. unfold New, ring_new, alloc. rewrite decide_False by lia. set (f := fresh w). set (w0 := mkMemory _ _). destruct (new_loop_ok (Z.to_nat (n - 1)) w0 f (mkInner None None None)) as (w1 & -> & F1 & L1); [apply lookup_insert_eq|done|].
  rewrite Z2Nat.id in * by lia. rewrite some_bind. set (p := f + (n - 1)) in *. unfold set_next, set_prev. destruct (nodes w1 !! p) as [np|] eqn:Ep; [|exfalso; rewrite L1 in Ep; repeat case_decide; done || lia]. rewrite some_bind, some_bind. cbn [nodes fresh].
  destruct (<[p := mkInner (Some f) (prev np) (value np)]> (nodes w1) !! f) as [nf|] eqn:Ef; [|exfalso; destruct (decide (f = p)) as [<-|]; [by rewrite lookup_insert_eq in Ef|]; rewrite lookup_insert_ne, L1 in Ef by done; repeat case_decide; done || lia]. rewrite some_bind, some_bind. set (w' := mkMemory _ _).
  assert (forall x, nodes w' !! x = if decide (f <= x < f + n) then Some (mkInner (Some (if decide (x = p) then f else x + 1)) (Some (if decide (x = f) then p else x - 1)) None) else nodes w !! x) as Hw.
  { intros x. assert (nodes w0 !! x = if decide (x = f) then Some (mkInner None None None) else nodes w !! x) as H0 by (unfold w0; cbn [nodes]; destruct (decide (x = f)) as [->|]; [by rewrite lookup_insert_eq|by rewrite lookup_insert_ne]).
    unfold w'. cbn [nodes]. destruct (decide (x = f)) as [->|Hxf].
    - rewrite lookup_insert_eq. rewrite (decide_True (P := f <= f < f + n)) by lia. destruct (decide (f = p)) as [E|E].
      + rewrite <- E, lookup_insert_eq in Ef. injection Ef as <-. cbn [next value prev]. rewrite <- E, L1, decide_True in Ep by done. injection Ep as <-. by rewrite E.
      + rewrite lookup_insert_ne, L1, decide_True in Ef by done. injection Ef as <-. cbn [next value]. by rewrite decide_False by lia.
    - rewrite lookup_insert_ne by done. destruct (decide (x = p)) as [->|Hxp].
      + rewrite lookup_insert_eq, decide_True by lia. rewrite L1, decide_False, decide_True in Ep by lia. injection Ep as <-. done.
      + rewrite lookup_insert_ne, L1, (decide_False (P := x = f)) by done. destruct (decide (f < x <= p)); [rewrite (decide_True (P := f <= x < f + n)) by lia; by rewrite decide_False by lia|by rewrite (decide_False (P := f <= x < f + n)) by lia]. }
  exists w', f, (seqZ (f + 1) (n - 1)). split; [done|]. replace (f :: seqZ (f + 1) (n - 1)) with (seqZ f n) by (rewrite (seqZ_cons f n) by lia; by rewrite Z.sub_1_r, Z.add_1_r). by apply (new_ring w w' f n p).
Qed.
End spec.

(** ** Sequences of calls *)

Section calls.
  Context {V : Type}.
  Implicit Types (w : memory V) (l : list Z) (x y r s : Z).

Inductive call := CRing | CNew (n : Z) | CNext (r : Z) | CPrev (r : Z) | CMove (r n : Z) | CLink (r s : Z) | CUnlink (r n : Z) | CLen (r : Z) | CDo (r : Z) | CValue (r : Z) | CSetValue (r : Z) (v : V).

(** The handles a call is given. *)
Definition handles (c : call) : list Z :=
  match c with
  | CRing | CNew _ => []
  | CNext r | CPrev r | CMove r _ | CUnlink r _ | CLen r | CDo r | CValue r | CSetValue r _ => [r]
  | CLink r s => [r; s]
  end.

(** Calls whose arithmetic stays in an [int]. *)
Definition in_int (c : call) : Prop := match c with CUnlink _ n => n < 2 ^ 63 - 1 | _ => True end.

Definition exec w (c : call) : option (memory V) :=
  match c with
  | CRing => Some (ring_new w).1
  | CNew n => fst <$> New w n
  | CNext r => fst <$> Next w r
  | CPrev r => fst <$> Prev w r
  | CMove r n => fst <$> Move w r n
  | CLink r s => fst <$> Link w r s
  | CUnlink r n => fst <$> Unlink w r n
  | CLen r => fst <$> Len w r
  | CDo r => fst <$> Do w r
  | CValue r => _ ← Value w r; Some w
  | CSetValue r v => SetValue w r v
  end.

Inductive reachable : memory V -> Prop :=
| reach_start : reachable empty_memory
| reach_call w c w' : reachable w -> Forall (live w) (handles c) -> exec w c = Some w' -> reachable w'.

Lemma new_node_ok w : good w -> good (ring_new w).1 /\ (forall x, live w x -> live (ring_new w).1 x).
Proof.
  intros Hg. unfold ring_new, alloc. cbn [fst]. set (f := fresh w). set (w' := mkMemory _ _).
  assert (forall x, nodes w' !! x = if decide (x = f) then Some (mkInner None None None) else nodes w !! x) as Hw by (intros x; unfold w'; cbn [nodes]; destruct (decide (x = f)) as [->|]; [by rewrite lookup_insert_eq|by rewrite lookup_insert_ne]).
  assert (forall x, live w x -> x < f) as Hlt by (intros x Hx; by apply (gd_fresh _ Hg)). assert (nodes w !! f = None) as Hf by (destruct (nodes w !! f) eqn:E; [assert (live w f) as Hx%Hlt by (by eexists); lia|done]).
  assert (forall x, nx w' x = nx w x) as Hnx by (intros x; unfold nx; rewrite Hw; destruct (decide (x = f)) as [->|]; [by rewrite Hf|done]). assert (forall x, pv w' x = pv w x) as Hpv by (intros x; unfold pv; rewrite Hw; destruct (decide (x = f)) as [->|]; [by rewrite Hf|done]).
  assert (forall x, live w' x <-> live w x \/ x = f) as Hl by (intros x; unfold live; rewrite Hw; destruct (decide (x = f)); [split; [by right|by eexists]|split; [by left|intros [?|?]; done]]).
  assert (nx w f = f /\ pv w f = f) as [Enx Epv] by (unfold nx, pv; by rewrite Hf). split; [|intros; apply Hl; by left]. split.
  - intros x [Hx%Hlt| ->]%Hl; cbn [fresh w']; lia.
  - intros x m. rewrite Hw. destruct (decide (x = f)); [intros [= <-]; done|apply (gd_both _ Hg)].
  - intros x [Hx| ->]%Hl; rewrite Hnx; apply Hl; [left; by apply (gd_nx _ Hg)|by right].
  - intros x [Hx| ->]%Hl; rewrite Hpv; apply Hl; [left; by apply (gd_pv _ Hg)|by right].
  - intros x [Hx| ->]%Hl; rewrite Hnx, Hpv; [by apply (gd_pv_nx _ Hg)|by rewrite Enx].
  - intros x [Hx| ->]%Hl; rewrite Hnx, Hpv; [by apply (gd_nx_pv _ Hg)|by rewrite Epv].
Qed.

Lemma SetValue_ok w r v : good w -> live w r -> exists w', SetValue w r v = Some w' /\ good w' /\ (forall x, live w' x <-> live w x) /\ (forall x, nx w' x = nx w x) /\ (forall x, val w' x = if decide (x = r) then Some v else val w x).
Proof.
  intros Hg [n Hn]. unfold SetValue. rewrite Hn, some_bind. eexists. split; [done|]. set (w' := mkMemory _ _).
  assert (forall x, nodes w' !! x = if decide (x = r) then Some (mkInner (next n) (prev n) (Some v)) else nodes w !! x) as Hw by (intros x; unfold w'; cbn [nodes]; destruct (decide (x = r)) as [->|]; [by rewrite lookup_insert_eq|by rewrite lookup_insert_ne]).
  assert (forall x, nx w' x = nx w x) as Hnx by (intros x; unfold nx; rewrite Hw; destruct (decide (x = r)) as [->|]; [by rewrite Hn|done]). assert (forall x, pv w' x = pv w x) as Hpv by (intros x; unfold pv; rewrite Hw; destruct (decide (x = r)) as [->|]; [by rewrite Hn|done]).
  assert (forall x, live w' x <-> live w x) as Hl by (intros x; unfold live; rewrite Hw; destruct (decide (x = r)) as [->|]; [rewrite Hn; split; by eexists|done]).
  split_and!; [split|done|done|intros x; unfold val; rewrite Hw; by destruct (decide (x = r))].
  - intros x Hx%Hl. by apply (gd_fresh _ Hg).
  - intros x m. rewrite Hw. destruct (decide (x = r)) as [->|]; [intros [= <-]; by apply (gd_both _ Hg r n)|apply (gd_both _ Hg)].
  - intros x Hx%Hl. rewrite Hnx. by apply Hl, (gd_nx _ Hg).
  - intros x Hx%Hl. rewrite Hpv. by apply Hl, (gd_pv _ Hg).
  - intros x Hx%Hl. rewrite Hnx, Hpv. by apply (gd_pv_nx _ Hg).
  - intros x Hx%Hl. rewrite Hnx, Hpv. by apply (gd_nx_pv _ Hg).
Qed.

(** Every call on live handles returns; the memory stays good and no node goes away. *)
Lemma exec_ok w c : good w -> Forall (live w) (handles c) -> in_int c -> exists w', exec w c = Some w' /\ good w' /\ (forall x, live w x -> live w' x).
Proof.
  intros Hg Hh Hint. assert (forall w', refreshed w w' -> good w' /\ (forall x, live w x -> live w' x)) as Hrf by (intros w' [[_ _ S3 _] Hg' _ _]; split; [done|intros x; apply S3]).
  destruct c as [|n|r|r|r n|r s|r n|r|r|r|r v]; cbn [exec handles in_int] in *.
  - eexists. split; [done|by apply new_node_ok].
  - destruct (decide (0 < n)) as [Hn|Hn]; [|unfold New; rewrite decide_True by lia; by exists w]. destruct (New_ok w n Hg Hn) as (w' & r & l & -> & Hg' & _ & _ & _ & Hl & _). exists w'. split_and!; [done|done|]. intros x Hx. apply Hl. by left.
  - apply list.Forall_cons in Hh as [Hh _]. destruct (Next_ok w r Hg Hh) as (w' & -> & H & _). exists w'. auto.
  - apply list.Forall_cons in Hh as [Hh _]. destruct (Prev_ok w r Hg Hh) as (w' & -> & H & _). exists w'. auto.
  - apply list.Forall_cons in Hh as [Hh _]. destruct (on_ring w r Hg Hh) as [l Hl]. destruct (Move_ok w r l n Hg Hl) as (w' & y & -> & H & _). exists w'. auto.
  - apply list.Forall_cons in Hh as [Hr [Hs _]%list.Forall_cons]. destruct (Link_ok w r s Hg Hr Hs) as (w' & -> & Hg' & [_ _ L3 _ _]). exists w'. split_and!; [done|done|]. intros x. apply L3.
  - apply list.Forall_cons in Hh as [Hh _]. destruct (decide (0 < n)) as [Hn|Hn]; [|unfold Unlink; rewrite decide_True by lia; by exists w]. destruct (on_ring w r Hg Hh) as [l Hl].
    destruct (Unlink_ok w r l n Hg Hl ltac:(lia)) as (w' & A & B & -> & _ & _ & Hg' & _ & _ & _ & _ & Hlv). exists w'. split_and!; [done|done|]. intros x. apply Hlv.
  - apply list.Forall_cons in Hh as [Hh _]. destruct (on_ring w r Hg Hh) as [l Hl]. destruct (Len_ok w r l Hg Hl) as (w' & -> & H). exists w'. auto.
  - apply list.Forall_cons in Hh as [Hh _]. destruct (on_ring w r Hg Hh) as [l Hl]. destruct (Do_ok w r l Hg Hl) as (w' & -> & H). exists w'. auto.
  - apply list.Forall_cons in Hh as [[n Hn] _]. unfold Value. rewrite Hn. by exists w.
  - apply list.Forall_cons in Hh as [Hh _]. destruct (SetValue_ok w r v Hg Hh) as (w' & -> & Hg' & Hl & _). exists w'. split_and!; [done|done|]. intros x. apply Hl.
Qed.

(** [Unlink] of the largest [int] panics. *)
Lemma unlink_overflow w r : Unlink w r (2 ^ 63 - 1) = None.
Proof. reflexivity. Qed.

Lemma reachable_good w : reachable w -> good w.
Proof.
  induction 1 as [|w c w' _ IH Hh E]; [split; intros x; try (intros [n Hn]); unfold live, empty_memory in *; cbn [nodes] in *; rewrite ?lookup_empty in *; done|].
  assert (in_int c) as Hi.
  { destruct c; try done. cbn [in_int exec] in *. destruct (decide (n < 2 ^ 63 - 1)) as [|Hn]; [done|]. exfalso. revert E. unfold Unlink. rewrite decide_False by lia. unfold chki64. by rewrite decide_False by lia. }
  destruct (exec_ok w c IH Hh Hi) as (w2 & E2 & Hg & _). congruence.
Qed.

(** Whatever calls were made before: every node is on a ring, every call on handles of nodes
    returns ([Unlink] of the largest [int] apart), and on the ring [r :: l] [Move] goes round in both directions, [Len] counts it and
    [Do] visits the values in order, without changing any ring. *)
Theorem ring_always w : reachable w ->
  (forall r, live w r -> exists l, ring w (r :: l)) /\
  (forall c, Forall (live w) (handles c) -> in_int c -> exists w', exec w c = Some w' /\ reachable w' /\ forall x, live w x -> live w' x) /\
  (forall r l, ring w (r :: l) ->
     (forall n, exists w' x, Move w r n = Some (w', x) /\ (r :: l) !! Z.to_nat (n mod zlen (r :: l)) = Some x /\ same w w') /\
     (exists w', Len w r = Some (w', zlen (r :: l)) /\ same w w') /\
     (exists w', Do w r = Some (w', omap (val w) (r :: l)) /\ same w w')).
Proof.
  intros Hr. pose proof (reachable_good w Hr) as Hg. split_and!.
  - intros r Hl. by apply on_ring.
  - intros c Hh Hi. destruct (exec_ok w c Hg Hh Hi) as (w' & E & _ & Hl). exists w'. split_and!; [done|by eapply reach_call|done].
  - intros r l HL. split_and!.
    + intros n. destruct (Move_ok w r l n Hg HL) as (w' & x & E & [Hs _ _ _] & Hx). by exists w', x.
    + destruct (Len_ok w r l Hg HL) as (w' & E & [Hs _ _ _]). by exists w'.
    + destruct (Do_ok w r l Hg HL) as (w' & E & [Hs _ _ _]). by exists w'.
Qed.

(** C30: [Link] within a ring cuts out what is between its two nodes, as a ring of its own; between two
    rings it joins them; [Unlink n] cuts out the [n] nodes, modulo the length, after its own, for [n] below the
    largest [int] (there [n + 1] overflows and the call panics); [New n]
    makes a ring of [n] new nodes.  Other rings and all values are as they were. *)
Theorem ring_link_splices w : reachable w ->
  (forall r A B, ring w (r :: A ++ B) -> exists w', Link w r (hd r B) = Some (w', nx w r) /\ ring w' (r :: B) /\ (A <> [] -> ring w' A) /\
     (forall M, ring w M -> M ## r :: A ++ B -> ring w' M) /\ forall x, val w' x = val w x) /\
  (forall r A s B, ring w (r :: A) -> ring w (s :: B) -> r :: A ## s :: B -> exists w', Link w r s = Some (w', nx w r) /\ ring w' (r :: s :: B ++ A) /\
     (forall M, ring w M -> M ## r :: A ++ s :: B -> ring w' M) /\ forall x, val w' x = val w x) /\
  (forall r l n, ring w (r :: l) -> 0 < n < 2 ^ 63 - 1 -> exists w' A B, Unlink w r n = Some (w', Some (nx w r)) /\ l = A ++ B /\ zlen A = n mod zlen (r :: l) /\
     ring w' (r :: B) /\ (A <> [] -> ring w' A) /\ (forall M, ring w M -> M ## r :: l -> ring w' M) /\ forall x, val w' x = val w x) /\
  (forall n, 0 < n -> exists w' r l, New w n = Some (w', Some r) /\ ring w' (r :: l) /\ zlen (r :: l) = n /\ Forall (fun x => ~ live w x /\ val w' x = None) (r :: l) /\
     (forall M, ring w M -> ring w' M) /\ forall x, live w x -> val w' x = val w x).
Proof.
  intros Hr. pose proof (reachable_good w Hr) as Hg. split_and!.
  - intros r A B HL. assert (hd r B ∈ r :: A ++ B) as Hs by (destruct B; cbn; [left|right; apply elem_of_app; right; left]). assert (live w (hd r B)) as Hls by (by eapply ring_live).
    destruct (Link_ok w r (hd r B) Hg) as (w' & E & _ & Hlk); [eapply ring_live; [exact HL|left]|done|]. exists w'. destruct (link_cut w w' r _ A B Hg Hlk HL eq_refl) as [R1 R2]. split_and!; [done|done|done| |apply Hlk].
    intros M HM Hd. apply (link_frame w w' r (hd r B) M Hg Hlk HM); [intros Hx; apply (Hd r Hx); left|intros Hx; by apply (Hd _ Hx)|done].
  - intros r A s B HA HB Hd. assert (live w s) as Hls by (eapply ring_live; [exact HB|left]). destruct (Link_ok w r s Hg) as (w' & E & _ & Hlk); [eapply ring_live; [exact HA|left]|done|]. exists w'. split_and!; [done|by apply (link_join w)| |apply Hlk].
    intros M HM Hd'. apply (link_frame w w' r s M Hg Hlk HM); [intros Hx; apply (Hd' r Hx); left|intros Hx; apply (Hd' s Hx); right; apply elem_of_app; right; left|done].
  - intros r l n HL Hn. destruct (Unlink_ok w r l n Hg HL Hn) as (w' & A & B & E & El & Ek & _ & R1 & R2 & Hfr & Hv & _). by exists w', A, B.
  - intros n Hn. destruct (New_ok w n Hg Hn) as (w' & r & l & E & _ & R & Hl & Hf & Hlv & Hold). exists w', r, l. split_and!; [done..| |].
    + intros M HM. assert (forall x, x ∈ M -> nx w' x = nx w x) as Hk by (intros x Hx; unfold nx; rewrite Hold; [done|by eapply ring_live]). destruct M as [|m M]; [done|]. destruct HM as (Hp & Hnd & HfM). split_and!; [by apply (path_keep w)|done|]. eapply Forall_impl; [exact HfM|]. intros x Hx. apply Hlv. by left.
    + intros x Hx. unfold val. by rewrite Hold.
Qed.
End calls.

(** ** A ring of five *)

Definition five : memory Z := default empty_memory (w ← exec empty_memory (CNew 5); w ← exec w (CSetValue 1 10); exec w (CSetValue 3 30)).

Lemma five_reachable : reachable five.
Proof.
  assert (forall x, x ∈ [1; 3] -> live (default empty_memory (exec (V := Z) empty_memory (CNew 5))) x) as Hl by (intros x [->|[->|[]%not_elem_of_nil]%elem_of_cons]%elem_of_cons; eexists; vm_compute; reflexivity).
  eapply (reach_call _ (CSetValue 3 30)); [eapply (reach_call _ (CSetValue 1 10)); [eapply (reach_call _ (CNew 5)); [apply reach_start|constructor|]| |]| |].
  1: vm_compute; reflexivity. 2: vm_compute; reflexivity. 3: vm_compute; reflexivity.
  all: apply list.Forall_cons; (split; [|constructor]); eexists; vm_compute; reflexivity.
Qed.

Lemma five_ring : ring five [1; 2; 3; 4; 5].
Proof.
  split_and!; [vm_compute; tauto|apply (bool_decide_unpack (NoDup [1; 2; 3; 4; 5])); vm_compute; exact I|]. repeat (apply list.Forall_cons; split; [eexists; vm_compute; reflexivity|]). constructor.
Qed.

Lemma ring_always_witness : (exists w', Len five 1 = Some (w', 5) /\ same five w') /\ (exists w', Do five 1 = Some (w', [10; 30]) /\ same five w') /\ exists w' x, Move five 1 (-7) = Some (w', x) /\ [1; 2; 3; 4; 5] !! Z.to_nat (-7 mod zlen [1; 2; 3; 4; 5]) = Some x /\ same five w'.
Proof.
  pose proof (proj2 (proj2 (ring_always five five_reachable)) 1 [2; 3; 4; 5] five_ring) as (Hm & Hl & Hd). split; [exact Hl|]. split; [exact Hd|]. exact (Hm (-7)).
Defined.

(** Linking 1 to 4 cuts out 2 and 3. *)
Lemma ring_link_splices_witness : exists w', Link five 1 4 = Some (w', nx five 1) /\ ring w' [1; 4; 5] /\ ([2; 3] <> [] -> ring w' [2; 3]) /\
  (forall M, ring five M -> M ## [1; 2; 3; 4; 5] -> ring w' M) /\ forall x, val w' x = val five x.
Proof. exact (proj1 (ring_link_splices five five_reachable) 1 [2; 3] [4; 5] five_ring). Defined.
