(* ===== verification/Limbs.v ===== *)
(** Magnitudes of math/big: the limb functions of src/src/math/big/mod.rs.

    A magnitude is a [Vec<u32>], least significant limb first: a list of integers below 2^32.
    Indexing is checked ([idx], [upd]), plain arithmetic is checked for overflow ([chk64],
    [chki64]) and a failed [debug_assert!] is a panic; a [None] is any of these.  Casts to u32
    truncate ([wrap32]). *)
From Stdlib Require Import ZArith Lia.
From stdpp Require Import base tactics numbers list list_numbers option.
From S2P Require Import Prelude.
Open Scope Z_scope.

(** [alloc::vec![0u32; n]] *)
Definition zeros (n : Z) : list Z := replicate (Z.to_nat n) 0.

(** [u32::leading_zeros] and [!x] on u32. *)
Definition leading_zeros32 (x : Z) : Z := match x with Zpos _ => 31 - Z.log2 x | _ => 32 end.
Definition not32 (x : Z) : Z := Z.lxor x (2 ^ 32 - 1).

(** A difference of two lengths. *)
Definition usize_sub (a b : Z) : option Z := if decide (b <= a) then Some (a - b) else None.

(** [while v.last().copied() == Some(0) { v.pop(); }] *)
Definition pop (v : list Z) : list Z := take (length v - 1) v.

Fixpoint trim_loop (fuel : nat) (v : list Z) : list Z :=
  match fuel with
  | O => v
  | S fuel => if decide (list.last v = Some 0) then trim_loop fuel (pop v) else v
  end.

Definition trim (v : list Z) : list Z := trim_loop (length v) v.

Definition u64_to_limbs (x : Z) : list Z :=
  if decide (x = 0) then []
  else if decide (x <= 2 ^ 32 - 1) then [wrap32 x]
  else [wrap32 x; wrap32 (shr64 x 32)].

Definition limbs_to_u64 (limbs : list Z) : Z :=
  match limbs with
  | [] => 0
  | [l0] => l0
  | l0 :: l1 :: _ => Z.lor l0 (shl64 l1 32)
  end.

(** [for (x, y) in a.iter().rev().zip(b.iter().rev())] *)
Fixpoint cmp_zip (a b : list Z) : comparison :=
  match a, b with
  | x :: a, y :: b => match x ?= y with Eq => cmp_zip a b | o => o end
  | _, _ => Eq
  end.

Definition abs_cmp (a b : list Z) : comparison :=
  match zlen a ?= zlen b with
  | Eq => cmp_zip (reverse a) (reverse b)
  | o => o
  end.

Definition divmod_by_u32 (num : list Z) (d : Z) : option (list Z * Z) :=
  if decide (d = 0) then None
  else
    '(q, r) ← for_range_rev 0 (zlen num) (fun i '(q, r) =>
        limb ← idx num i;
        let cur := Z.lor (shl64 r 32) limb in
        q ← upd q i (wrap32 (cur / d));
        Some (q, cur mod d)) (zeros (zlen num), 0);
    Some (trim q, wrap32 r).

Definition shl_small (a : list Z) (s : Z) : option (list Z) :=
  if decide (a = []) then Some []
  else if decide (s = 0) then Some a
  else
    '(out, carry) ← for_range 0 (zlen a) (fun i '(out, carry) =>
        limb ← idx a i;
        let v := Z.lor (shl64 limb s) carry in
        out ← upd out i (wrap32 v);
        Some (out, wrap32 (shr64 v 32))) (zeros (zlen a + 1), 0);
    out ← upd out (zlen a) carry;
    Some (trim out).

Definition shr_small (a : list Z) (s : Z) : option (list Z) :=
  if decide (a = []) then Some []
  else if decide (s = 0) then Some (trim a)
  else
    '(out, _) ← for_range_rev 0 (zlen a) (fun i '(out, carry) =>
        v ← idx a i;
        out ← upd out i (Z.lor (Z.shiftr v s) carry);
        Some (out, wrap32 (Z.shiftl v (32 - s)))) (zeros (zlen a), 0);
    Some (trim out).

(** ** Algorithm D *)

(** The [while] that refines the estimate; [u2] is [un[j + n - 2]]. *)
Fixpoint refine (fuel : nat) (dn_hi dn_lo u2 qhat rhat : Z) : option (Z * Z) :=
  match fuel with
  | O => None
  | S fuel =>
      go ← (if decide (qhat >= 2 ^ 32) then Some true
            else p ← chk64 (qhat * dn_lo); Some (bool_decide (p > Z.lor (shl64 rhat 32) u2)));
      if (go : bool) then
        qhat ← chk64 (qhat - 1);
        rhat ← chk64 (rhat + dn_hi);
        if decide (rhat >= 2 ^ 32) then Some (qhat, rhat) else refine fuel dn_hi dn_lo u2 qhat rhat
      else Some (qhat, rhat)
  end.

(** D4: [un[j..j+n+1] -= qhat * dn], and the last borrow.  The sums and products are of
    non-negative terms, so one check covers their parts. *)
Definition mul_sub (un dn : list Z) (n j qhat : Z) : option (list Z * Z) :=
  '(un, borrow, carry) ← for_range 0 n (fun i '(un, borrow, carry) =>
      d ← idx dn i;
      p ← chk64 (qhat * d + carry);
      u ← idx un (j + i);
      s ← chki64 (u - borrow - wrap32 p);
      un ← upd un (j + i) (wrap32 s);
      Some (un, if decide (s < 0) then 1 else 0, shr64 p 32)) (un, 0, 0);
  u ← idx un (j + n);
  s ← chki64 (u - borrow - carry);
  un ← upd un (j + n) (wrap32 s);
  Some (un, if decide (s < 0) then 1 else 0).

(** D6: add the divisor back. *)
Definition add_back (un dn : list Z) (n j : Z) : option (list Z) :=
  '(un, add_carry) ← for_range 0 n (fun i '(un, add_carry) =>
      u ← idx un (j + i);
      d ← idx dn i;
      s ← chk64 (u + d + add_carry);
      un ← upd un (j + i) (wrap32 s);
      Some (un, shr64 s 32)) (un, 0);
  u ← idx un (j + n);
  upd un (j + n) (wrap32 (u + wrap32 add_carry)).

(** One iteration of the main loop, on the dividend [un] and the quotient [q]. *)
Definition divide_step (dn : list Z) (n dn_hi dn_lo j : Z) (s : list Z * list Z) : option (list Z * list Z) :=
  let '(un, q) := s in
  u0 ← idx un (j + n);
  u1 ← idx un (j + n - 1);
  u2 ← idx un (j + n - 2);
  let num_hi := Z.lor (shl64 u0 32) u1 in
  '(qhat, _) ← refine 3 dn_hi dn_lo u2 (num_hi / dn_hi) (num_hi mod dn_hi);
  '(un, borrow) ← mul_sub un dn n j qhat;
  '(un, qhat) ← (if decide (borrow ≠ 0) then
                   qhat ← chk64 (qhat - 1);
                   un ← add_back un dn n j;
                   Some (un, qhat)
                 else Some (un, qhat));
  q ← upd q j (wrap32 qhat);
  Some (un, q).

Definition divmod_limbs (num den : list Z) : option (list Z * list Z) :=
  if decide (den = []) then None
  else if decide (abs_cmp num den = Lt) then Some ([], trim num)
  else if decide (zlen den = 1) then
    d ← idx den 0;
    '(q, r) ← divmod_by_u32 num d;
    Some (q, if decide (r = 0) then [] else [r])
  else
    let n := zlen den in
    m ← usize_sub (zlen num) n;
    top ← idx den (n - 1);
    let shift := leading_zeros32 top in
    dn ← shl_small den shift;
    if decide (zlen dn <> n) then None
    else
      un ← shl_small num shift;
      let un := resize (length num + 1) 0 un in
      dn_hi ← idx dn (n - 1);
      dn_lo ← idx dn (n - 2);
      '(un, q) ← for_range_rev 0 (m + 1) (divide_step dn n dn_hi dn_lo) (un, zeros (m + 1));
      low ← slice un 0 n;
      rem ← shr_small low shift;
      Some (trim q, rem).

(** ** Products, sums and differences *)

Definition mul_limbs (a b : list Z) : option (list Z) :=
  if decide (a = [] \/ b = []) then Some []
  else
    out ← for_range 0 (zlen a) (fun i out =>
        ai ← idx a i;
        '(out, carry) ← for_range 0 (zlen b) (fun j '(out, carry) =>
            bj ← idx b j;
            o ← idx out (i + j);
            prod ← chk64 (ai * bj + o + carry);
            out ← upd out (i + j) (wrap32 prod);
            Some (out, shr64 prod 32)) (out, 0);
        o ← idx out (i + zlen b);
        upd out (i + zlen b) (wrap32 (o + wrap32 carry))) (zeros (zlen a + zlen b));
    Some (trim out).

Definition add_limbs (a b : list Z) : option (list Z) :=
  let n := Z.max (zlen a) (zlen b) in
  '(out, carry) ← for_range 0 n (fun i '(out, carry) =>
      let av := default 0 (idx a i) in
      let bv := default 0 (idx b i) in
      s ← chk64 (av + bv + carry);
      out ← upd out i (wrap32 s);
      Some (out, shr64 s 32)) (zeros (n + 1), 0);
  out ← upd out n (wrap32 carry);
  Some (trim out).

Definition sub_limbs (a b : list Z) : option (list Z) :=
  if decide (abs_cmp a b = Lt) then None
  else
    '(out, _) ← for_range 0 (zlen a) (fun i '(out, borrow) =>
        av ← idx a i;
        let bv := default 0 (idx b i) in
        d ← chki64 (av - bv - borrow);
        '(d, borrow) ← (if decide (d < 0) then d ← chki64 (d + 2 ^ 32); Some (d, 1) else Some (d, 0));
        out ← upd out i (wrap32 d);
        Some (out, borrow)) (zeros (zlen a), 0);
    Some (trim out).

(** ** Bits and shifts *)

(** [while i > 0 && a[i - 1] == 0 { i -= 1; }] *)
Fixpoint top_index (a : list Z) (i : nat) : nat :=
  match i with
  | O => O
  | S i' => if decide (a !! i' = Some 0) then top_index a i' else i
  end.

Definition bit_len (a : list Z) : option Z :=
  let i := Z.of_nat (top_index a (length a)) in
  if decide (i = 0) then Some 0
  else x ← idx a (i - 1); Some ((i - 1) * 32 + (32 - leading_zeros32 x)).

(** [while i < a.len() && a[i] == 0 { i += 1; }] *)
Fixpoint low_index (a : list Z) : Z :=
  match a with
  | [] => 0
  | x :: a => if decide (x = 0) then 1 + low_index a else 0
  end.

Definition trailing_zero_bits (a : list Z) : option Z :=
  if decide (a = []) then Some 0
  else
    let i := low_index a in
    if decide (i = zlen a) then Some 0
    else x ← idx a i; Some (i * 32 + trailing_zeros x).

Definition limb_bit (a : list Z) (i : Z) : option Z :=
  let j := i / 32 in
  if decide (j >= zlen a) then Some 0
  else x ← idx a j; Some (Z.land (Z.shiftr x (i mod 32)) 1).

Definition limb_set_bit (a : list Z) (i b : Z) : option (list Z) :=
  let j := i / 32 in
  let m := wrap32 (Z.shiftl 1 (i mod 32)) in
  z ← (if decide (b = 0) then
         if decide (j < zlen a) then x ← idx a j; upd a j (Z.land x (not32 m)) else Some a
       else
         let z := if decide (j >= zlen a) then resize (Z.to_nat (j + 1)) 0 a else a in
         x ← idx z j; upd z j (Z.lor x m));
  Some (trim z).

Definition lsh_limbs (x : list Z) (s : Z) : option (list Z) :=
  if decide (x = []) then Some []
  else
    let limb_shift := s / 32 in
    let bit_shift := s mod 32 in
    shifted ← (if decide (bit_shift = 0) then Some x else shl_small x bit_shift);
    if decide (limb_shift = 0) then Some (trim shifted)
    else Some (trim (zeros limb_shift ++ shifted)).

Definition rsh_limbs (x : list Z) (s : Z) : option (list Z) :=
  if decide (x = []) then Some []
  else
    let limb_shift := s / 32 in
    let bit_shift := s mod 32 in
    if decide (limb_shift >= zlen x) then Some []
    else
      dropped ← slice x limb_shift (zlen x);
      out ← (if decide (bit_shift = 0) then Some dropped else shr_small dropped bit_shift);
      Some (trim out).

(** [for i in 0..n { z[i] = f(x[i], y[i]); }] *)
Definition zip_loop (f : Z -> Z -> Z) (x y : list Z) (n : Z) (z : list Z) : option (list Z) :=
  for_range 0 n (fun i z => a ← idx x i; b ← idx y i; upd z i (f a b)) z.

Definition and_limbs (x y : list Z) : option (list Z) :=
  let m := Z.min (zlen x) (zlen y) in
  z ← zip_loop Z.land x y m (zeros m);
  Some (trim z).

(** The last assignment is [z[n..m].copy_from_slice(&x[n..m])]. *)
Definition and_not_limbs (x y : list Z) : option (list Z) :=
  let m := zlen x in
  let n := Z.min (zlen y) m in
  z ← zip_loop (fun a b => Z.land a (not32 b)) x y n (zeros m);
  rest ← slice x n m;
  Some (trim (take (Z.to_nat n) z ++ rest)).

Definition or_limbs (x y : list Z) : option (list Z) :=
  let '(short, long) := if decide (zlen x < zlen y) then (x, y) else (y, x) in
  z ← zip_loop Z.lor x y (zlen short) long;
  Some (trim z).

Definition xor_limbs (x y : list Z) : option (list Z) :=
  let '(short, long) := if decide (zlen x < zlen y) then (x, y) else (y, x) in
  z ← zip_loop Z.lxor x y (zlen short) long;
  Some (trim z).

(** ** Text *)

Definition MAX_BASE : Z := 62.
Definition MAX_BASE_SMALL : Z := 36.

(** "0123456789abcdefghijklmnopqrstuvwxyzABCDEFGHIJKLMNOPQRSTUVWXYZ" *)
Definition DIGIT_CHARS : list Z :=
  map (fun d => 48 + d) (seqZ 0 10) ++ map (fun d => 97 + d) (seqZ 0 26) ++ map (fun d => 65 + d) (seqZ 0 26).

Definition digit_value (ch base : Z) : option Z :=
  d ← (if decide (48 <= ch <= 57) then Some (ch - 48)
       else if decide (97 <= ch <= 122) then Some (ch - 97 + 10)
       else if decide (65 <= ch <= 90) then
         if decide (base <= MAX_BASE_SMALL) then Some (ch - 65 + 10) else Some (ch - 65 + MAX_BASE_SMALL)
       else None);
  if decide (d < base) then Some d else None.

Definition mul_add_word (limbs : list Z) (mul add : Z) : option (list Z) :=
  '(limbs, carry) ← for_range 0 (zlen limbs) (fun i '(limbs, carry) =>
      limb ← idx limbs i;
      v ← chk64 (limb * mul + carry);
      limbs ← upd limbs i (wrap32 v);
      Some (limbs, shr64 v 32)) (limbs, add);
  let limbs := if decide (carry <> 0) then limbs ++ [wrap32 carry] else limbs in
  Some (trim limbs).

(** The sign and the index after it. *)
Definition scan_sign (bytes : list Z) : bool * Z :=
  match bytes with
  | 45 :: _ => (true, 1)
  | 43 :: _ => (false, 1)
  | _ => (false, 0)
  end.

(** The base, the prefix letter, the previous character and the index after a prefix. *)
Definition scan_prefix (bytes : list Z) (base i : Z) : Z * Z * Z * Z :=
  if decide (base = 0) then
    if decide (idx bytes i = Some 48) then
      match idx bytes (i + 1) with
      | Some 98 | Some 66 => (2, 98, 48, i + 2)
      | Some 111 | Some 79 => (8, 111, 48, i + 2)
      | Some 120 | Some 88 => (16, 120, 48, i + 2)
      | _ => (8, 48, 48, i + 1)
      end
    else (10, 0, 46, i)
  else (base, 0, 46, i).

Record scan_state := mkScan { s_limbs : list Z; s_count : Z; s_inval : bool; s_prev : Z; s_i : Z }.

(** [while i < bytes.len()] *)
Fixpoint scan_loop (fuel : nat) (bytes : list Z) (base b : Z) (s : scan_state) : option scan_state :=
  match fuel with
  | O => None
  | S fuel =>
      if decide (s_i s < zlen bytes) then
        ch ← idx bytes (s_i s);
        if decide (ch = 95 /\ base = 0) then
          scan_loop fuel bytes base b
            (mkScan (s_limbs s) (s_count s) (s_inval s || bool_decide (s_prev s <> 48)) 95 (s_i s + 1))
        else
          match digit_value ch b with
          | Some d =>
              limbs ← mul_add_word (s_limbs s) b d;
              scan_loop fuel bytes base b (mkScan limbs (s_count s + 1) (s_inval s) 48 (s_i s + 1))
          | None => Some s
          end
      else Some s
  end.

(** An inner [None] is a syntax error. *)
Definition scan_int (bytes : list Z) (base : Z) : option (option (bool * list Z)) :=
  if decide (~ (base = 0 \/ 2 <= base <= MAX_BASE)) then Some None
  else
    let '(neg, i) := scan_sign bytes in
    let '(b, prefix, prev, i) := scan_prefix bytes base i in
    s ← scan_loop (S (length bytes)) bytes base b (mkScan [] 0 false prev i);
    Some (if decide (s_i s <> zlen bytes) then None
          else if s_inval s || bool_decide (s_prev s = 95) then None
          else if decide (s_count s = 0) then
            if decide (prefix = 48) then Some (false, []) else None
          else Some (neg, s_limbs s)).

(** [while !limbs.is_empty()], least significant digit first; 32 digits per limb are enough. *)
Fixpoint itoa_loop (fuel : nat) (limbs : list Z) (bw : Z) (digits : list Z) : option (list Z) :=
  match fuel with
  | O => None
  | S fuel =>
      if decide (limbs = []) then Some digits
      else
        '(q, r) ← divmod_by_u32 limbs bw;
        c ← idx DIGIT_CHARS r;
        itoa_loop fuel q bw (digits ++ [c])
  end.

Definition itoa (neg : bool) (abs : list Z) (base : Z) : option (list Z) :=
  if decide (~ (2 <= base <= MAX_BASE)) then None
  else if decide (abs = []) then Some [48]
  else
    digits ← itoa_loop (32 * length abs + 1) (trim abs) (wrap32 base) [];
    Some (reverse (if neg : bool then digits ++ [45] else digits)).

(** ** Bytes and words *)

Definition limb_bytes (limb : Z) : list Z :=
  [Z.shiftr limb 24 mod 256; Z.shiftr limb 16 mod 256; Z.shiftr limb 8 mod 256; limb mod 256].

(** [while start < out.len() - 1 && out[start] == 0 { start += 1; }], as the rest of [out]. *)
Fixpoint skip_zeros (out : list Z) : list Z :=
  match out with
  | x :: ((_ :: _) as rest) => if decide (x = 0) then skip_zeros rest else out
  | _ => out
  end.

Definition limbs_to_be_bytes (abs : list Z) : option (list Z) :=
  let top := top_index abs (length abs) in
  if decide (top = O) then Some []
  else
    let out := skip_zeros (concat (map limb_bytes (reverse (take top abs)))) in
    h ← idx out 0;
    Some (if decide (h = 0) then [] else out).

(** [while start < buf.len() && buf[start] == 0 { start += 1; }; &buf[start..]] *)
Fixpoint significant (buf : list Z) : list Z :=
  match buf with
  | [] => []
  | x :: rest => if decide (x = 0) then significant rest else buf
  end.

(** [for &byte in sig.iter().rev()], with the bit and the limb it goes to. *)
Fixpoint pack_bytes (rev_sig : list Z) (limbs : list Z) (bit li : Z) : option (list Z) :=
  match rev_sig with
  | [] => Some limbs
  | byte :: rest =>
      l ← idx limbs li;
      limbs ← upd limbs li (Z.lor l (wrap32 (Z.shiftl byte bit)));
      let bit := bit + 8 in
      if decide (bit = 32) then pack_bytes rest limbs 0 (li + 1) else pack_bytes rest limbs bit li
  end.

Definition be_bytes_to_limbs (buf : list Z) : option (list Z) :=
  let sig := significant buf in
  if decide (sig = []) then Some []
  else
    limbs ← pack_bytes (reverse sig) (zeros ((zlen sig + 3) / 4)) 0 0;
    Some (trim limbs).

(** [while i < abs.len()], two limbs at a time. *)
Fixpoint pair_limbs (abs : list Z) : list Z :=
  match abs with
  | [] => []
  | [lo] => [Z.lor (shl64 0 32) lo]
  | lo :: hi :: rest => Z.lor (shl64 hi 32) lo :: pair_limbs rest
  end.

Definition limbs_to_words (abs : list Z) : list Z := trim (pair_limbs abs).

Definition words_to_limbs (words : list Z) : list Z :=
  trim (concat (map (fun w => [Z.land w (2 ^ 32 - 1); Z.land (shr64 w 32) (2 ^ 32 - 1)]) words)).
