(* ===== verification/LimbsSpec.v ===== *)
(** Magnitudes as numbers: the value of a limb sequence, its normal form, and what the sums,
    differences, products, comparisons and short shifts of [Limbs] compute. *)
From Stdlib Require Import ZArith Lia.
From stdpp Require Import base tactics numbers list list_numbers option.
From S2P Require Import Prelude Limbs.
Open Scope Z_scope.

(** The base and the powers of it. *)
Notation B := (2 ^ 32) (only parsing).
Definition Bpow (i : Z) : Z := 2 ^ (32 * i).

Fixpoint val (l : list Z) : Z := match l with [] => 0 | x :: l => x + 2 ^ 32 * val l end.

Definition limb (x : Z) : Prop := 0 <= x < 2 ^ 32.
Definition limbs (l : list Z) : Prop := Forall limb l.

(** No leading zero limb. *)
Definition trimmed (l : list Z) : Prop := list.last l <> Some 0.

Definition normal (l : list Z) : Prop := limbs l /\ trimmed l.

Lemma Bpow_0 : Bpow 0 = 1.
Proof. done. Qed.
Lemma Bpow_1 : Bpow 1 = 2 ^ 32.
Proof. done. Qed.
Lemma Bpow_S i : 0 <= i -> Bpow (i + 1) = 2 ^ 32 * Bpow i.
Proof. intros. unfold Bpow. rewrite <- Z.pow_add_r by lia. f_equal. lia. Qed.
Lemma Bpow_add i j : 0 <= i -> 0 <= j -> Bpow (i + j) = Bpow i * Bpow j.
Proof. intros. unfold Bpow. rewrite <- Z.pow_add_r by lia. f_equal. lia. Qed.
Lemma Bpow_pos i : 0 <= i -> 0 < Bpow i.
Proof. intros. unfold Bpow. apply Z.pow_pos_nonneg; lia. Qed.
Lemma Bpow_mono i j : 0 <= i <= j -> Bpow i <= Bpow j.
Proof. intros. unfold Bpow. apply Z.pow_le_mono_r; lia. Qed.

(** ** Lengths and bounds *)

Lemma zlen_zeros n : 0 <= n -> zlen (zeros n) = n.
Proof. intros. unfold zlen, zeros. rewrite length_replicate. lia. Qed.
Lemma zlen_nil_inv {A} (l : list A) : zlen l = 0 -> l = [].
Proof. unfold zlen. destruct l; [done|]. cbn. lia. Qed.

Lemma zlen_ne {A} (l : list A) : 0 < zlen l -> l <> [].
Proof. by intros H ->. Qed.

Lemma limbs_cons x l : limbs (x :: l) <-> limb x /\ limbs l.
Proof. apply list.Forall_cons. Qed.
Lemma limbs_app l k : limbs (l ++ k) <-> limbs l /\ limbs k.
Proof. apply list.Forall_app. Qed.
Lemma limbs_zeros n : limbs (zeros n).
Proof. apply Forall_replicate. unfold limb. lia. Qed.
Lemma limbs_take n l : limbs l -> limbs (take n l).
Proof. apply Forall_take. Qed.
Lemma limbs_drop n l : limbs l -> limbs (drop n l).
Proof. apply Forall_drop. Qed.
Lemma limb_wrap32 x : limb (wrap32 x).
Proof. unfold limb, wrap32. apply Z.mod_pos_bound. lia. Qed.
Lemma limbs_idx l i x : limbs l -> idx l i = Some x -> limb x.
Proof. intros Hl [_ H]%idx_Some. by eapply Forall_lookup_1. Qed.
Lemma limbs_idx_default l i : limbs l -> limb (default 0 (idx l i)).
Proof.
  intros Hl. destruct (idx l i) eqn:E; cbn; [by eapply limbs_idx|]. unfold limb. lia.
Qed.
Lemma limbs_upd l l' i x : limbs l -> limb x -> upd l i x = Some l' -> limbs l'.
Proof. intros Hl Hx [_ ->]%upd_inv. by apply Forall_insert. Qed.

Lemma idx_ok {A} (l : list A) i : 0 <= i < zlen l -> exists x, idx l i = Some x.
Proof. apply idx_lt. Qed.
Lemma upd_ok {A} (l : list A) i x : 0 <= i < zlen l ->
  exists l', upd l i x = Some l' /\ zlen l' = zlen l.
Proof. intros. eexists. split; [by apply upd_Some|]. by rewrite zlen_insert. Qed.

#[export] Hint Resolve limbs_zeros limb_wrap32 limbs_take limbs_drop limbs_idx limbs_upd zlen_nonneg : goish.

Lemma val_app l k : val (l ++ k) = val l + Bpow (zlen l) * val k.
Proof.
  induction l as [|x l IH]; cbn [val app].
  - change (zlen []) with 0. rewrite Bpow_0. lia.
  - rewrite IH, zlen_cons, Bpow_S by apply zlen_nonneg. lia.
Qed.

Lemma val_range l : limbs l -> 0 <= val l < Bpow (zlen l).
Proof.
  induction l as [|x l IH]; intros Hl.
  { change (zlen []) with 0. rewrite Bpow_0. cbn. lia. }
  apply limbs_cons in Hl as [Hx Hl]. rewrite zlen_cons, Bpow_S by apply zlen_nonneg.
  cbn [val]. specialize (IH Hl). unfold limb in Hx. nia.
Qed.

Lemma val_zeros n : val (zeros n) = 0.
Proof. unfold zeros. induction (Z.to_nat n) as [|k IH]; cbn [replicate val]; lia. Qed.

(** ** Prefixes and suffixes by index *)

Definition vtake (i : Z) (l : list Z) : Z := val (take (Z.to_nat i) l).
Definition vdrop (i : Z) (l : list Z) : Z := val (drop (Z.to_nat i) l).

Lemma vtake_0 l : vtake 0 l = 0.
Proof. done. Qed.
Lemma vdrop_0 l : vdrop 0 l = val l.
Proof. done. Qed.
Lemma vtake_all i l : zlen l <= i -> vtake i l = val l.
Proof. unfold vtake, zlen. intros. by rewrite take_ge by lia. Qed.
Lemma vdrop_all i l : zlen l <= i -> vdrop i l = 0.
Proof. unfold vdrop, zlen. intros. by rewrite drop_ge by lia. Qed.

Lemma vtake_S i l : 0 <= i -> vtake (i + 1) l = vtake i l + default 0 (idx l i) * Bpow i.
Proof.
  intros Hi. unfold vtake. destruct (idx l i) as [x|] eqn:E; cbn [from_option id].
  - pose proof (idx_range _ _ _ E). apply idx_Some in E as [_ E]. unfold zlen in *.
    replace (Z.to_nat (i + 1)) with (S (Z.to_nat i)) by lia.
    rewrite (take_S_r _ _ x E), val_app. cbn [val]. unfold zlen. rewrite length_take.
    replace (Z.of_nat _) with i by lia. ring.
  - apply idx_None in E. unfold zlen in *. rewrite !take_ge by lia. lia.
Qed.

Lemma vdrop_S i l x : idx l i = Some x -> vdrop i l = x + 2 ^ 32 * vdrop (i + 1) l.
Proof.
  intros [Hi E]%idx_Some. unfold vdrop. rewrite (drop_S _ _ _ E).
  by replace (Z.to_nat (i + 1)) with (S (Z.to_nat i)) by lia.
Qed.

Lemma vsplit i l : 0 <= i <= zlen l -> val l = vtake i l + Bpow i * vdrop i l.
Proof.
  intros Hi. unfold vtake, vdrop, zlen in *. rewrite <- (take_drop (Z.to_nat i) l) at 1.
  rewrite val_app. unfold zlen. rewrite length_take. by replace (Z.of_nat _) with i by lia.
Qed.

Lemma vtake_range i l : limbs l -> 0 <= i -> 0 <= vtake i l < Bpow i.
Proof.
  intros Hl Hi. pose proof (val_range (take (Z.to_nat i) l) ltac:(auto with goish)) as H.
  unfold vtake. split; [lia|]. eapply Z.lt_le_trans; [apply H|]. apply Bpow_mono.
  unfold zlen. rewrite length_take. lia.
Qed.

Lemma vdrop_range i l : limbs l -> 0 <= i <= zlen l -> 0 <= vdrop i l < Bpow (zlen l - i).
Proof.
  intros Hl Hi. pose proof (val_range (drop (Z.to_nat i) l) ltac:(auto with goish)) as H.
  unfold vdrop. unfold zlen in *. rewrite length_drop in H.
  by replace (Z.of_nat (length l - Z.to_nat i)) with (Z.of_nat (length l) - i) in H by lia.
Qed.

(** An assignment by the side that a loop has already written. *)
Lemma vtake_upd l l' i x : upd l i x = Some l' -> vtake (i + 1) l' = vtake i l + x * Bpow i.
Proof.
  intros [Hi ->]%upd_inv. rewrite vtake_S by lia. f_equal.
  - unfold vtake. rewrite take_insert_ge by lia. done.
  - rewrite idx_insert by lia. by rewrite decide_True.
Qed.

Lemma vdrop_upd l l' i x : upd l i x = Some l' -> vdrop i l' = x + 2 ^ 32 * vdrop (i + 1) l.
Proof.
  intros [Hi ->]%upd_inv. rewrite (vdrop_S i _ x).
  - unfold vdrop. by rewrite drop_insert_lt by lia.
  - rewrite idx_insert by lia. by rewrite decide_True.
Qed.

Lemma val_upd l l' i x y : idx l i = Some y -> upd l i x = Some l' -> val l' = val l + (x - y) * Bpow i.
Proof.
  intros E Hu. pose proof (upd_inv _ _ _ _ Hu) as [Hi Hl'].
  rewrite (vsplit (i + 1) l'), (vsplit (i + 1) l) by (subst; rewrite ?zlen_insert; lia).
  rewrite (vtake_upd _ _ _ _ Hu), vtake_S, E by lia. cbn [from_option id].
  assert (vdrop (i + 1) l' = vdrop (i + 1) l) as ->; [|lia].
  subst. unfold vdrop. by rewrite drop_insert_lt by lia.
Qed.

Lemma upd_zlen {A} (l l' : list A) i x : upd l i x = Some l' -> zlen l' = zlen l.
Proof. intros [_ ->]%upd_inv. apply zlen_insert. Qed.

(** ** Words: what casts, shifts and ors do to a sum of limbs *)

Lemma wrap32_split x : x = wrap32 x + 2 ^ 32 * (x / 2 ^ 32).
Proof. unfold wrap32. lia. Qed.

Lemma shr64_32 x : shr64 x 32 = x / 2 ^ 32.
Proof. by rewrite shr64_div. Qed.

Lemma pair64 h l : limb h -> limb l -> Z.lor (shl64 h 32) l = h * 2 ^ 32 + l.
Proof. unfold limb. intros. rewrite shl64_small by lia. apply lor_add_low; lia. Qed.

(** ** Normal form *)

Lemma last_pop_zero v : list.last v = Some 0 -> val (pop v) = val v /\ v = pop v ++ [0].
Proof.
  destruct (list_eq_nil_dec v) as [->|Hv]; [done|]. destruct (exists_last Hv) as (v' & x & ->).
  rewrite list.last_snoc. intros [= ->]. unfold pop. rewrite length_app. cbn [length].
  replace (length v' + 1 - 1)%nat with (length v') by lia. rewrite take_app_length.
  split; [|done]. rewrite val_app. cbn [val]. lia.
Qed.

Lemma trim_loop_spec fuel v : (length v <= fuel)%nat ->
  val (trim_loop fuel v) = val v /\ trimmed (trim_loop fuel v) /\ exists k, v = trim_loop fuel v ++ replicate k 0.
Proof.
  revert v. induction fuel as [|fuel IH]; intros v Hf; cbn [trim_loop].
  - destruct v; [|cbn in Hf; lia]. split; [done|]. split; [done|]. by exists O.
  - case_decide as Hl.
    + destruct (last_pop_zero v Hl) as [Hv Hp].
      assert (length v = S (length (pop v))) as Hlen by (rewrite Hp at 1; rewrite length_app; cbn; lia).
      destruct (IH (pop v) ltac:(lia)) as (H1 & H2 & k & H3).
      split; [lia|]. split; [done|]. exists (S k). rewrite Hp at 1. rewrite H3 at 1.
      rewrite <- app_assoc. f_equal. by rewrite <- replicate_cons_app.
    + split; [done|]. split; [done|]. exists O. cbn. by rewrite app_nil_r.
Qed.

Lemma trim_val v : val (trim v) = val v.
Proof. by apply trim_loop_spec. Qed.
Lemma trim_trimmed v : trimmed (trim v).
Proof. by apply trim_loop_spec. Qed.
Lemma trim_limbs v : limbs v -> limbs (trim v).
Proof.
  destruct (trim_loop_spec (length v) v (le_n _)) as (_ & _ & k & Hk). fold (trim v) in Hk.
  intros Hv. rewrite Hk in Hv. by apply limbs_app in Hv as [? _].
Qed.
Lemma trim_normal v : limbs v -> normal (trim v).
Proof. split; [by apply trim_limbs|apply trim_trimmed]. Qed.

(** The top limb of a normal magnitude counts. *)
Lemma normal_lower l : normal l -> l <> [] -> Bpow (zlen l - 1) <= val l.
Proof.
  intros [Hl Ht] Hne. destruct (exists_last Hne) as (k & x & ->).
  unfold trimmed in Ht. rewrite list.last_snoc in Ht. rewrite val_app, zlen_app. cbn [val].
  change (zlen [x]) with 1. replace (zlen k + 1 - 1) with (zlen k) by lia.
  apply limbs_app in Hl as [Hk Hx]. apply limbs_cons in Hx as [Hx _].
  pose proof (val_range k Hk). pose proof (Bpow_pos (zlen k) (zlen_nonneg k)).
  assert (0 < x) by (unfold limb in Hx; destruct (decide (x = 0)); [congruence|lia]). nia.
Qed.

Lemma normal_nil : normal [].
Proof. by split; [constructor|]. Qed.

Lemma normal_zero l : normal l -> val l = 0 <-> l = [].
Proof.
  intros Hn. split; [|by intros ->]. intros H0. destruct (list_eq_nil_dec l) as [|Hne]; [done|].
  pose proof (normal_lower l Hn Hne). assert (0 <= zlen l - 1); [|pose proof (Bpow_pos (zlen l - 1)); lia].
  destruct l; [done|]. rewrite zlen_cons. pose proof (zlen_nonneg l). lia.
Qed.

Lemma normal_pos l : normal l -> l <> [] -> 0 < val l.
Proof.
  intros Hn Hne. pose proof (val_range l (proj1 Hn)).
  destruct (decide (val l = 0)) as [?%normal_zero|]; [done|done|lia].
Qed.

Lemma limbs_inj l k : limbs l -> limbs k -> length l = length k -> val l = val k -> l = k.
Proof.
  revert k. induction l as [|x l IH]; intros [|y k] Hl Hk Hlen Hv; try done.
  apply limbs_cons in Hl as [Hx Hl]. apply limbs_cons in Hk as [Hy Hk].
  cbn [val] in Hv. unfold limb in *. assert (x = y /\ val l = val k) as [-> E] by lia.
  f_equal. apply IH; auto.
Qed.

(** A number has one normal form. *)
Lemma normal_len_lt l k : normal l -> normal k -> zlen l < zlen k -> val l < val k.
Proof.
  intros Hl Hk Hlt. assert (k <> []) as Hne by (intros ->; unfold zlen in Hlt; cbn in Hlt; lia).
  pose proof (normal_lower k Hk Hne). pose proof (val_range l (proj1 Hl)).
  pose proof (Bpow_mono (zlen l) (zlen k - 1)). pose proof (zlen_nonneg l). lia.
Qed.

Lemma normal_inj l k : normal l -> normal k -> val l = val k -> l = k.
Proof.
  intros Hl Hk Hv. apply limbs_inj; [apply Hl|apply Hk| |done].
  destruct (Z.lt_trichotomy (zlen l) (zlen k)) as [H|[H|H]].
  - pose proof (normal_len_lt l k Hl Hk H). lia.
  - unfold zlen in H. lia.
  - pose proof (normal_len_lt k l Hk Hl H). lia.
Qed.

(** ** Stepping through checked code *)

Ltac go_idx x Hx := match goal with
  |- context [mbind _ (idx ?l ?i)] => destruct (idx_ok l i) as [x Hx]; [|rewrite Hx, some_bind] end.
Ltac go_upd l Hu Hz := match goal with
  |- context [mbind _ (upd ?k ?i ?x)] => destruct (upd_ok k i x) as (l & Hu & Hz); [|rewrite Hu, some_bind] end.
Ltac go_chk := match goal with
  | |- context [mbind _ (chk64 ?x)] =>
      let E := fresh in assert (chk64 x = Some x) as E; [apply chk64_ok|rewrite E, some_bind; clear E]
  | |- context [mbind _ (chki64 ?x)] =>
      let E := fresh in assert (chki64 x = Some x) as E; [apply chki64_ok|rewrite E, some_bind; clear E] end.
Ltac go_loop I s H := match goal with
  | |- context [for_range ?lo ?hi ?f ?s0] =>
      let E := fresh in assert (exists s', for_range lo hi f s0 = Some s' /\ I hi s') as (s & E & H);
      [apply (for_range_inv I)|rewrite E; clear E]
  | |- context [for_range_rev ?lo ?hi ?f ?s0] =>
      let E := fresh in assert (exists s', for_range_rev lo hi f s0 = Some s' /\ I lo s') as (s & E & H);
      [apply (for_range_rev_inv I)|rewrite E; clear E] end.

(** ** Sums, differences and products *)

Lemma add_limbs_spec a b : limbs a -> limbs b ->
  exists c, add_limbs a b = Some c /\ normal c /\ val c = val a + val b.
Proof.
  intros Ha Hb. unfold add_limbs. set (n := Z.max (zlen a) (zlen b)).
  assert (0 <= n) as Hn by (pose proof (zlen_nonneg a); lia).
  go_loop (fun i '(out, carry) => zlen out = n + 1 /\ limbs out /\ 0 <= carry <= 1 /\
    vtake i out + carry * Bpow i = vtake i a + vtake i b) s H; [lia| | |].
  - rewrite zlen_zeros by lia. rewrite !vtake_0. auto with goish lia.
  - intros i [out carry] Hi (Hz & Hl & Hc & Hv). cbv beta iota.
    pose proof (limbs_idx_default a i Ha) as Hx. pose proof (limbs_idx_default b i Hb) as Hy. unfold limb in *.
    go_chk; [lia|]. go_upd out' Hu Hz'; [lia|]. eexists. split; [done|]. cbv beta iota.
    split; [lia|]. split; [eauto with goish|]. rewrite shr64_32. split; [lia|].
    rewrite (vtake_upd _ _ _ _ Hu), !vtake_S, Bpow_S by lia.
    pose proof (wrap32_split (default 0 (idx a i) + default 0 (idx b i) + carry)). nia.
  - destruct s as [out carry]. destruct H as (Hz & Hl & Hc & Hv). rewrite some_bind.
    go_upd out' Hu Hz'; [lia|]. eexists. split; [done|]. split; [eauto using trim_normal with goish|].
    rewrite trim_val, <- (vtake_all (n + 1) out') by lia. rewrite (vtake_upd _ _ _ _ Hu).
    rewrite (vtake_all n a), (vtake_all n b) in Hv by lia. unfold wrap32. rewrite Z.mod_small by lia. lia.
Qed.

Lemma cmp_zip_spec a b : limbs a -> limbs b -> length a = length b ->
  cmp_zip a b = (val (reverse a) ?= val (reverse b)).
Proof.
  revert b. induction a as [|x a IH]; intros [|y b] Ha Hb Hlen; try done.
  apply limbs_cons in Ha as [Hx Ha]. apply limbs_cons in Hb as [Hy Hb]. cbn [cmp_zip].
  rewrite !reverse_cons, !val_app. unfold zlen. rewrite !length_reverse. cbn [val].
  injection Hlen as Hlen. rewrite Hlen.
  pose proof (val_range (reverse a)) as Va. pose proof (val_range (reverse b)) as Vb.
  unfold limbs, zlen in Va, Vb. rewrite Forall_reverse, length_reverse in Va, Vb. rewrite Hlen in Va.
  specialize (Va Ha). specialize (Vb Hb).
  destruct (Z.compare_spec x y) as [->|Hlt|Hlt].
  - rewrite (IH b Ha Hb Hlen). by rewrite !(Z.add_comm (val (reverse _))), Z.add_compare_mono_l.
  - symmetry. apply Z.compare_lt_iff. nia.
  - symmetry. apply Z.compare_gt_iff. nia.
Qed.

Lemma abs_cmp_spec a b : normal a -> normal b -> abs_cmp a b = (val a ?= val b).
Proof.
  intros Ha Hb. unfold abs_cmp. destruct (Z.compare_spec (zlen a) (zlen b)) as [E|E|E].
  - rewrite cmp_zip_spec, !reverse_involutive; [done|apply Forall_reverse, Ha|apply Forall_reverse, Hb|].
    rewrite !length_reverse. unfold zlen in E. lia.
  - symmetry. apply Z.compare_lt_iff. by apply normal_len_lt.
  - symmetry. apply Z.compare_gt_iff. by apply normal_len_lt.
Qed.

Lemma sub_limbs_spec a b : normal a -> normal b ->
  if decide (val b <= val a) then exists c, sub_limbs a b = Some c /\ normal c /\ val c = val a - val b
  else sub_limbs a b = None.
Proof.
  intros Ha Hb. unfold sub_limbs. rewrite abs_cmp_spec by done. case_decide as Hle.
  2: { rewrite decide_True; [done|]. apply Z.compare_lt_iff. lia. }
  rewrite decide_False by (intros Hlt; change (val a < val b) in Hlt; lia).
  go_loop (fun i '(out, borrow) => zlen out = zlen a /\ limbs out /\ 0 <= borrow <= 1 /\
    vtake i out - borrow * Bpow i = vtake i a - vtake i b) s H; [apply zlen_nonneg| | |].
  - rewrite zlen_zeros by apply zlen_nonneg. rewrite !vtake_0. auto with goish lia.
  - intros i [out borrow] Hi (Hz & Hl & Hc & Hv). cbv beta iota. go_idx av Hav; [lia|].
    pose proof (limbs_idx _ _ _ (proj1 Ha) Hav) as Hx. pose proof (limbs_idx_default b i (proj1 Hb)) as Hy.
    unfold limb in *. go_chk; [lia|].
    assert (exists d bw, (if decide (av - default 0 (idx b i) - borrow < 0)
       then d ← chki64 (av - default 0 (idx b i) - borrow + 2 ^ 32); Some (d, 1)
       else Some (av - default 0 (idx b i) - borrow, 0)) = Some (d, bw) /\ 0 <= bw <= 1 /\ 0 <= d < 2 ^ 32 /\
       d = av - default 0 (idx b i) - borrow + bw * 2 ^ 32) as (d & bw & -> & Hbw & Hd & Hdv).
    { case_decide; [rewrite chki64_ok, some_bind by lia|]; do 2 eexists; (split; [done|]); lia. }
    rewrite some_bind. go_upd out' Hu Hz'; [lia|]. eexists. split; [done|]. cbv beta iota.
    split; [lia|]. split; [eauto with goish|]. split; [lia|].
    rewrite (vtake_upd _ _ _ _ Hu), !vtake_S, Bpow_S, Hav by lia. cbn [from_option id].
    unfold wrap32. rewrite Z.mod_small by lia. subst d. lia.
  - destruct s as [out borrow]. destruct H as (Hz & Hl & Hc & Hv). rewrite some_bind.
    eexists. split; [done|]. split; [by apply trim_normal|]. rewrite trim_val.
    assert (zlen b <= zlen a) as Hlen.
    { apply Z.nlt_ge. intros Hlt. pose proof (normal_len_lt a b Ha Hb Hlt). lia. }
    rewrite !vtake_all in Hv by lia. pose proof (val_range out Hl) as Ho. rewrite Hz in Ho.
    pose proof (val_range a (proj1 Ha)). pose proof (val_range b (proj1 Hb)). assert (borrow = 0 \/ borrow = 1) as [-> | ->] by lia; lia.
Qed.

Lemma idx_val l i x : limbs l -> idx l i = Some x -> x * Bpow i <= val l.
Proof.
  intros Hl E. pose proof (idx_range _ _ _ E). rewrite (vsplit i), (vdrop_S _ _ _ E) by lia.
  pose proof (vtake_range i l Hl ltac:(lia)). pose proof (vdrop_range (i + 1) l Hl ltac:(lia)).
  pose proof (Bpow_pos i). nia.
Qed.

(** One row of the schoolbook product. *)
Lemma mul_row out0 b ai i : limbs out0 -> limbs b -> limb ai -> 0 <= i -> i + zlen b < zlen out0 ->
  exists out carry,
    for_range 0 (zlen b) (fun j '(out, carry) =>
      bj ← idx b j;
      o ← idx out (i + j);
      prod ← chk64 (ai * bj + o + carry);
      out ← upd out (i + j) (wrap32 prod);
      Some (out, shr64 prod 32)) (out0, 0) = Some (out, carry) /\
    zlen out = zlen out0 /\ limbs out /\ limb carry /\
    val out + carry * Bpow (i + zlen b) = val out0 + ai * val b * Bpow i.
Proof.
  intros Ho Hb Ha Hi Hlen.
  go_loop (fun j '(out, carry) => zlen out = zlen out0 /\ limbs out /\ limb carry /\
    val out + carry * Bpow (i + j) = val out0 + ai * vtake j b * Bpow i) s H; [apply zlen_nonneg| | |].
  - rewrite vtake_0. unfold limb. auto with lia.
  - intros j [out carry] Hj (Hz & Hl & Hc & Hv). cbv beta iota.
    go_idx bj Hbj; [lia|]. go_idx o Hoj; [lia|].
    pose proof (limbs_idx _ _ _ Hb Hbj) as H1. pose proof (limbs_idx _ _ _ Hl Hoj) as H2. unfold limb in *.
    go_chk; [nia|]. go_upd out' Hu Hz'; [lia|]. eexists. split; [done|]. cbv beta iota.
    split; [lia|]. split; [eauto with goish|]. rewrite shr64_32.
    set (p := ai * bj + o + carry) in *. assert (0 <= p < 2 ^ 64) by (unfold p; nia). split; [lia|].
    rewrite (val_upd _ _ _ _ _ Hoj Hu), vtake_S, Hbj by lia. cbn [from_option id].
    replace (i + (j + 1)) with (i + j + 1) by lia. rewrite Bpow_S, (Bpow_add i j) in * by lia.
    pose proof (wrap32_split p). replace (2 ^ 32 * (Bpow i * Bpow j)) with (Bpow i * Bpow j * 2 ^ 32) by lia.
    unfold p in *. nia.
  - destruct s as [out carry]. rewrite (vtake_all (zlen b)) in H by lia. by exists out, carry.
Qed.

Lemma mul_limbs_spec a b : limbs a -> limbs b ->
  exists c, mul_limbs a b = Some c /\ normal c /\ val c = val a * val b.
Proof.
  intros Ha Hb. unfold mul_limbs. case_decide as Hne.
  { exists []. split; [done|]. split; [apply normal_nil|]. destruct Hne as [-> | ->]; cbn; lia. }
  pose proof (zlen_nonneg a) as Hla. pose proof (zlen_nonneg b) as Hlb.
  go_loop (fun i out => zlen out = zlen a + zlen b /\ limbs out /\ val out = vtake i a * val b) out H; [lia| | |].
  - rewrite zlen_zeros, val_zeros, vtake_0 by lia. auto with goish lia.
  - intros i out Hi (Hz & Hl & Hv). go_idx ai Hai; [lia|].
    pose proof (limbs_idx _ _ _ Ha Hai) as H1.
    destruct (mul_row out b ai i Hl Hb H1 ltac:(lia) ltac:(lia)) as (out1 & carry & -> & Hz1 & Hl1 & Hc & Hv1).
    rewrite some_bind. cbv beta iota. go_idx o Ho; [lia|].
    pose proof (limbs_idx _ _ _ Hl1 Ho) as H2. pose proof (idx_val _ _ _ Hl1 Ho) as H3.
    assert (val out1 + carry * Bpow (i + zlen b) = vtake (i + 1) a * val b) as Hv2.
    { rewrite vtake_S, Hai by lia. cbn [from_option id]. lia. }
    assert (vtake (i + 1) a * val b < Bpow (i + zlen b) * 2 ^ 32) as Hlt.
    { pose proof (vtake_range (i + 1) a Ha ltac:(lia)) as H4. pose proof (val_range b Hb) as H5.
      rewrite Bpow_S in H4 by lia. rewrite Bpow_add by lia. pose proof (Bpow_pos i). nia. }
    pose proof (Bpow_pos (i + zlen b) ltac:(lia)). unfold limb in *.
    assert (o + carry < 2 ^ 32) by nia. unfold wrap32. rewrite (Z.mod_small carry), (Z.mod_small (o + carry)) by lia.
    destruct (upd_ok out1 (i + zlen b) (o + carry)) as (out2 & Hu & Hz2); [lia|]. exists out2.
    split; [done|]. split; [lia|]. split; [eapply limbs_upd; [done| |done]; unfold limb; lia|].
    rewrite (val_upd _ _ _ _ _ Ho Hu). lia.
  - destruct H as (Hz & Hl & Hv). rewrite some_bind. eexists. split; [done|].
    split; [by apply trim_normal|]. by rewrite trim_val, Hv, vtake_all by lia.
Qed.

(** ** Division by one limb *)

Lemma divmod_by_u32_spec num d : limbs num -> 0 < d < 2 ^ 32 ->
  exists q, divmod_by_u32 num d = Some (q, val num mod d) /\ normal q /\ val q = val num / d.
Proof.
  intros Hn Hd. unfold divmod_by_u32. rewrite decide_False by lia. pose proof (zlen_nonneg num) as Hln.
  go_loop (fun i '(q, r) => zlen q = zlen num /\ limbs q /\ 0 <= r < d /\
    vdrop i num = d * vdrop i q + r) s H; [lia| | |].
  - rewrite zlen_zeros by lia. rewrite !vdrop_all by (rewrite ?zlen_zeros; lia). auto with goish lia.
  - intros i [q r] Hi (Hz & Hl & Hr & Hv). cbv beta iota. go_idx x Hx; [lia|].
    pose proof (limbs_idx _ _ _ Hn Hx) as H1. rewrite pair64 by (unfold limb in *; lia). unfold limb in *.
    assert (0 <= (r * 2 ^ 32 + x) / d < 2 ^ 32) as Hq.
    { split; [apply Z.div_pos; lia|]. apply Z.div_lt_upper_bound; nia. }
    go_upd q' Hu Hz'; [lia|]. eexists. split; [done|]. cbv beta iota.
    split; [lia|]. split; [eauto with goish|]. split; [apply Z.mod_pos_bound; lia|].
    rewrite (vdrop_upd _ _ _ _ Hu), (vdrop_S _ _ _ Hx), Hv. unfold wrap32. rewrite Z.mod_small by lia.
    pose proof (Z.div_mod (r * 2 ^ 32 + x) d ltac:(lia)). lia.
  - destruct s as [q r]. destruct H as (Hz & Hl & Hr & Hv). rewrite some_bind. rewrite !vdrop_0 in Hv.
    assert (wrap32 r = val num mod d) as -> by (unfold wrap32; rewrite Z.mod_small by lia; by apply (Z.mod_unique _ _ (val q)); [left|]).
    eexists. split; [done|]. split; [by apply trim_normal|]. rewrite trim_val.
    by apply (Z.div_unique _ _ _ r); [left|].
Qed.

(** ** Short shifts *)

Lemma shl_small_spec a s : normal a -> 0 <= s < 32 ->
  exists c, shl_small a s = Some c /\ normal c /\ val c = val a * 2 ^ s.
Proof.
  intros [Ha Ht] Hs. unfold shl_small. case_decide as Hne.
  { exists []. split; [done|]. split; [apply normal_nil|]. subst. cbn. lia. }
  case_decide as H0. { exists a. split; [done|]. split; [done|]. subst s. lia. }
  pose proof (zlen_nonneg a) as Hla. assert (0 < 2 ^ s <= 2 ^ 31) as Hp.
  { split; [apply Z.pow_pos_nonneg; lia|]. apply Z.pow_le_mono_r; lia. }
  go_loop (fun i '(out, carry) => zlen out = zlen a + 1 /\ limbs out /\ 0 <= carry < 2 ^ s /\
    vtake i out + carry * Bpow i = vtake i a * 2 ^ s) st H; [lia| | |].
  - rewrite zlen_zeros by lia. rewrite !vtake_0. auto with goish lia.
  - intros i [out carry] Hi (Hz & Hl & Hc & Hv). cbv beta iota. go_idx x Hx; [lia|].
    pose proof (limbs_idx _ _ _ Ha Hx) as H1. unfold limb in *.
    assert (0 <= x * 2 ^ s < 2 ^ 64) by nia. rewrite shl64_small, lor_add_low by lia.
    set (v := x * 2 ^ s + carry) in *. assert (0 <= v < 2 ^ 32 * 2 ^ s) by (unfold v; nia).
    go_upd out' Hu Hz'; [lia|]. eexists. split; [done|]. cbv beta iota. rewrite shr64_32.
    assert (0 <= v / 2 ^ 32 < 2 ^ s) by (split; [apply Z.div_pos; lia|apply Z.div_lt_upper_bound; lia]).
    assert (wrap32 (v / 2 ^ 32) = v / 2 ^ 32) as -> by (apply Z.mod_small; lia).
    split; [lia|]. split; [eauto with goish|]. split; [lia|].
    rewrite (vtake_upd _ _ _ _ Hu), vtake_S, Bpow_S, Hx by lia. cbn [from_option id].
    pose proof (wrap32_split v). unfold v in *. nia.
  - destruct st as [out carry]. destruct H as (Hz & Hl & Hc & Hv). rewrite some_bind.
    go_upd out' Hu Hz'; [lia|]. eexists. split; [done|].
    split; [apply trim_normal; eapply limbs_upd; [done| |done]; unfold limb; lia|].
    rewrite trim_val, <- (vtake_all (zlen a + 1) out') by lia. rewrite (vtake_upd _ _ _ _ Hu).
    rewrite (vtake_all (zlen a) a) in Hv by lia. lia.
Qed.

Lemma shr_limb v D s : 0 < s < 32 -> limb v -> 0 <= D ->
  Z.lor (Z.shiftr v s) (D mod 2 ^ s * 2 ^ (32 - s)) + 2 ^ 32 * (D / 2 ^ s) = (v + 2 ^ 32 * D) / 2 ^ s /\
  wrap32 (Z.shiftl v (32 - s)) = (v + 2 ^ 32 * D) mod 2 ^ s * 2 ^ (32 - s) /\
  limb (Z.lor (Z.shiftr v s) (D mod 2 ^ s * 2 ^ (32 - s))).
Proof.
  unfold limb. intros Hs Hv HD.
  assert (2 ^ 32 = 2 ^ s * 2 ^ (32 - s)) as Hp by (rewrite <- Z.pow_add_r by lia; f_equal; lia).
  assert (0 < 2 ^ s) by (apply Z.pow_pos_nonneg; lia). assert (0 < 2 ^ (32 - s)) by (apply Z.pow_pos_nonneg; lia).
  assert (0 <= v / 2 ^ s < 2 ^ (32 - s)) by (split; [apply Z.div_pos; lia|apply Z.div_lt_upper_bound; lia]).
  pose proof (Z.mod_pos_bound D (2 ^ s) ltac:(lia)).
  rewrite Z.lor_comm, Z.shiftr_div_pow2, Z.shiftl_mul_pow2 by lia. rewrite lor_add_low by lia.
  rewrite Hp. replace (v + 2 ^ s * 2 ^ (32 - s) * D) with (v + 2 ^ (32 - s) * D * 2 ^ s) by ring.
  rewrite Z.div_add, Z.mod_add by lia. split; [|split].
  - rewrite (Z.div_mod D (2 ^ s)) at 3 by lia. ring.
  - unfold wrap32. rewrite Hp. by rewrite Zmult_mod_distr_r.
  - rewrite <- Hp. nia.
Qed.

Lemma shr_small_spec a s : limbs a -> 0 <= s < 32 ->
  exists c, shr_small a s = Some c /\ normal c /\ val c = val a / 2 ^ s.
Proof.
  intros Ha Hs. unfold shr_small. case_decide as Hne.
  { exists []. split; [done|]. split; [apply normal_nil|]. by subst. }
  case_decide as H0.
  { eexists. split; [done|]. split; [by apply trim_normal|]. subst s. by rewrite trim_val, Z.div_1_r. }
  pose proof (zlen_nonneg a) as Hla.
  go_loop (fun i '(out, carry) => zlen out = zlen a /\ limbs out /\
    carry = vdrop i a mod 2 ^ s * 2 ^ (32 - s) /\ vdrop i out = vdrop i a / 2 ^ s) st H; [lia| | |].
  - rewrite zlen_zeros by lia. rewrite !vdrop_all by (rewrite ?zlen_zeros; lia). auto with goish lia.
  - intros i [out carry] Hi (Hz & Hl & Hc & Hv). cbv beta iota. go_idx x Hx; [lia|].
    pose proof (limbs_idx _ _ _ Ha Hx) as H1. subst carry.
    destruct (shr_limb x (vdrop (i + 1) a) s ltac:(lia) H1 (proj1 (vdrop_range (i + 1) a Ha ltac:(lia)))) as (E1 & E2 & E3).
    go_upd out' Hu Hz'; [lia|]. eexists. split; [done|]. cbv beta iota.
    rewrite (vdrop_upd _ _ _ _ Hu), (vdrop_S _ _ _ Hx), Hv. eauto using limbs_upd with lia.
  - destruct st as [out carry]. destruct H as (Hz & Hl & _ & Hv). rewrite some_bind.
    eexists. split; [done|]. split; [by apply trim_normal|]. by rewrite trim_val.
Qed.

(** ** Words *)

Lemma u64_to_limbs_spec x : 0 <= x < 2 ^ 64 -> normal (u64_to_limbs x) /\ val (u64_to_limbs x) = x.
Proof.
  intros Hx. unfold u64_to_limbs, normal, trimmed. case_decide as H0; [by subst; repeat constructor|].
  unfold wrap32. rewrite shr64_32. case_decide as H1; cbn [val list.last].
  - rewrite Z.mod_small by lia. repeat split; [|congruence|lia]. repeat constructor; lia.
  - rewrite (Z.mod_small (x / 2 ^ 32)) by lia.
    repeat split; [|intros [= E]; lia|lia]. repeat constructor; lia.
Qed.

Lemma limbs_to_u64_spec l : limbs l -> limbs_to_u64 l = val l mod 2 ^ 64.
Proof.
  intros Hl. unfold limbs_to_u64. destruct l as [|a [|b l]]; [done| |].
  - apply limbs_cons in Hl as [Ha _]. unfold limb in *. cbn [val]. rewrite Z.mod_small; lia.
  - apply limbs_cons in Hl as [Ha Hl]. apply limbs_cons in Hl as [Hb _]. rewrite Z.lor_comm, pair64 by done.
    unfold limb in *. cbn [val]. apply (Z.mod_unique _ _ (val l)); lia.
Qed.
