(* ===== verification/LimbsDiv.v ===== *)
(** Long division of magnitudes: Algorithm D as [Limbs.divmod_limbs] has it.

    [digit_estimate] and [refine_spec] bound the estimate of a digit, [mul_sub_spec] and
    [add_back_spec] are the two passes over the dividend, [divide_step_spec] is one digit, and
    [divmod_limbs_spec] the whole division. *)
From Stdlib Require Import ZArith Lia.
From stdpp Require Import base tactics numbers list list_numbers option.
From S2P Require Import Prelude Limbs LimbsSpec.
Open Scope Z_scope.

(** ** The estimate of a digit *)

(** The refined estimate is the quotient of the leading digits, capped at a digit. *)
Section refinement.
  Context (b v1 v0 u u2 : Z).
  Context (Hb : 0 < b) (Hv1 : b <= 2 * v1) (Hv1b : v1 < b) (Hv0 : 0 <= v0 < b) (Hu2 : 0 <= u2 < b).
  Context (Hu : 0 <= u <= v1 * b + v0).

Let V := v1 * b + v0.
Let T := Z.min (b - 1) ((u * b + u2) / V).

Lemma refine_target_lt q : T < q <-> b <= q \/ u * b + u2 < q * V.
Proof using Hb Hv1 Hv0 Hv1b Hu Hu2.
  assert (0 < V) as HV by (unfold V; nia). unfold T.
  pose proof (Z.div_mod (u * b + u2) V ltac:(lia)). pose proof (Z.mod_pos_bound (u * b + u2) V HV).
  set (d := (u * b + u2) / V) in *. nia.
Qed.

Lemma refine_first : T <= u / v1 <= b + 1.
Proof using Hb Hv1 Hv0 Hv1b Hu Hu2.
  pose proof (Z.div_mod u v1 ltac:(lia)). pose proof (Z.mod_pos_bound u v1 ltac:(lia)).
  set (q := u / v1) in *. split; [|nia].
  assert (~ (q < T)); [|lia]. intros Hlt. assert (~ (T < q + 1)) as Hn by lia.
  rewrite refine_target_lt in Hn. apply Hn. right. unfold V. nia.
Qed.

(** A step that goes on, and the two ways to stop. *)
Lemma refine_stop q rhat : q * v1 + rhat = u -> T <= q -> q < b -> q * v0 <= rhat * b + u2 -> q = T.
Proof using Hb Hv1 Hv0 Hv1b Hu Hu2.
  intros Hq Hle Hlt Hs. assert (~ (T < q)); [|lia]. rewrite refine_target_lt. unfold V. nia.
Qed.

Lemma refine_go q rhat : q * v1 + rhat = u -> b <= q \/ rhat * b + u2 < q * v0 -> T <= q - 1.
Proof using Hb Hv1 Hv0 Hv1b Hu Hu2.
  intros Hq Hc. assert (T < q); [|lia]. apply refine_target_lt. destruct Hc; [by left|right]. unfold V. nia.
Qed.

Lemma refine_break q rhat : q * v1 + rhat = u -> q <= b + 1 -> T <= q - 1 -> b <= rhat + v1 -> q - 1 = T.
Proof using Hb Hv1 Hv0 Hv1b Hu Hu2.
  intros Hq Hle HT Hr. assert (q <= b) by nia. assert (~ (T < q - 1)); [|lia].
  rewrite refine_target_lt. unfold V. nia.
Qed.

Lemma refine_target_nonneg : 0 <= T.
Proof using Hb Hv1 Hv0 Hv1b Hu Hu2. unfold T. assert (0 < V) by (unfold V; nia). pose proof (Z.div_pos (u * b + u2) V). nia. Qed.
End refinement.

Lemma refine_loop fuel v1 v0 u u2 q rhat :
  2 ^ 31 <= v1 < 2 ^ 32 -> limb v0 -> limb u2 -> 0 <= u <= v1 * 2 ^ 32 + v0 ->
  q * v1 + rhat = u -> limb rhat -> q <= 2 ^ 32 + 1 ->
  Z.min (2 ^ 32 - 1) ((u * 2 ^ 32 + u2) / (v1 * 2 ^ 32 + v0)) <= q ->
  2 ^ 32 <= rhat + Z.of_nat fuel * v1 -> (0 < fuel)%nat ->
  exists r, refine fuel v1 v0 u2 q rhat = Some (Z.min (2 ^ 32 - 1) ((u * 2 ^ 32 + u2) / (v1 * 2 ^ 32 + v0)), r).
Proof.
  intros Hv1 Hv0 Hu2 Hu. revert q rhat. unfold limb in Hv0, Hu2.
  induction fuel as [|fuel IH]; intros q rhat Hq Hr Hqb HT Hf Hpos; [lia|]. cbn [refine].
  pose proof (refine_target_nonneg (2 ^ 32) v1 v0 u u2) as Hnn.
  set (T := Z.min _ _) in *.
  assert (exists go : bool, (if decide (q >= 2 ^ 32) then Some true
            else p ← chk64 (q * v0); Some (bool_decide (p > Z.lor (shl64 rhat 32) u2))) = Some go /\
          if go then 2 ^ 32 <= q \/ rhat * 2 ^ 32 + u2 < q * v0 else q < 2 ^ 32 /\ q * v0 <= rhat * 2 ^ 32 + u2)
    as (go & -> & Hgo).
  { case_decide; [exists true; split; [done|]; lia|]. rewrite chk64_ok, some_bind by nia.
    rewrite pair64 by done. eexists. split; [done|]. case_bool_decide; lia. }
  rewrite some_bind. destruct go.
  - assert (T <= q - 1) as HT'.
    { apply (refine_go (2 ^ 32) v1 v0 u u2 ltac:(lia) ltac:(lia) ltac:(lia) ltac:(lia) ltac:(lia) ltac:(lia) q rhat); lia. }
    unfold limb in *. specialize (Hnn ltac:(lia) ltac:(lia) ltac:(lia) ltac:(lia) ltac:(lia) ltac:(lia)). fold T in Hnn.
    go_chk; [lia|]. go_chk; [lia|]. case_decide as Hbr.
    + exists (rhat + v1). do 2 f_equal.
      apply (refine_break (2 ^ 32) v1 v0 u u2 ltac:(lia) ltac:(lia) ltac:(lia) ltac:(lia) ltac:(lia) ltac:(lia) q rhat); lia.
    + destruct fuel as [|fuel]; [lia|]. apply IH; unfold limb; lia.
  - exists rhat. do 2 f_equal.
    apply (refine_stop (2 ^ 32) v1 v0 u u2 ltac:(lia) ltac:(lia) ltac:(lia) ltac:(lia) ltac:(lia) ltac:(lia) q rhat); lia.
Qed.

Lemma refine_spec v1 v0 u u2 : 2 ^ 31 <= v1 < 2 ^ 32 -> limb v0 -> limb u2 -> 0 <= u <= v1 * 2 ^ 32 + v0 ->
  exists r, refine 3 v1 v0 u2 (u / v1) (u mod v1) =
    Some (Z.min (2 ^ 32 - 1) ((u * 2 ^ 32 + u2) / (v1 * 2 ^ 32 + v0)), r).
Proof.
  intros Hv1 Hv0 Hu2 Hu. unfold limb in *.
  pose proof (Z.div_mod u v1 ltac:(lia)). pose proof (Z.mod_pos_bound u v1 ltac:(lia)).
  pose proof (refine_first (2 ^ 32) v1 v0 u u2 ltac:(lia) ltac:(lia) ltac:(lia) ltac:(lia) ltac:(lia) ltac:(lia)).
  apply refine_loop; unfold limb; try lia.
Qed.

(** The leading digits give the digit or one more. *)
Lemma digit_estimate b k u3 v2 u' v' : 0 < b -> 0 < k -> b < v2 -> 0 <= u' < k -> 0 <= v' < k ->
  0 <= u3 -> u3 * k + u' < (v2 * k + v') * b ->
  let q := (u3 * k + u') / (v2 * k + v') in
  let qhat := Z.min (b - 1) (u3 / v2) in q <= qhat <= q + 1 /\ 0 <= q < b.
Proof.
  intros Hb Hk Hv Hu' Hv' Hu3 Hlt q qhat.
  assert (0 < v2 * k + v') as HV by nia.
  pose proof (Z.div_mod (u3 * k + u') (v2 * k + v') ltac:(lia)) as Hq.
  pose proof (Z.mod_pos_bound (u3 * k + u') (v2 * k + v') HV) as Hr. fold q in Hq.
  pose proof (Z.div_mod u3 v2 ltac:(lia)) as Hd. pose proof (Z.mod_pos_bound u3 v2 ltac:(lia)) as Hdr.
  set (d := u3 / v2) in *. assert (0 <= q) by (apply Z.div_pos; nia).
  assert (q < b) by nia. assert (0 <= d) by nia.
  assert (q <= d). { assert (~ d + 1 <= q); [|lia]. intros Hc. assert (u3 + 1 <= v2 * q) by nia. nia. }
  assert (qhat <= q + 1); [|lia]. assert (~ q + 2 <= qhat); [|lia]. intros Hc.
  assert (qhat * v2 <= u3) by nia. assert (qhat < b) by lia. assert (0 <= qhat) by lia.
  assert (qhat * (v2 * k + v') < u3 * k + u' + (v2 * k + v')); [|nia].
  assert (qhat * v2 * k <= u3 * k) by nia. assert (qhat * v' <= b * k) by nia. assert (b * k < v2 * k) by nia. lia.
Qed.

(** ** The passes over the dividend *)

Lemma vdrop_upd_above l l' i k x : upd l i x = Some l' -> i < k -> vdrop k l' = vdrop k l.
Proof. intros [Hi ->]%upd_inv Hk. unfold vdrop. by rewrite drop_insert_lt by lia. Qed.

Lemma mul_sub_spec un dn n j qhat : limbs un -> limbs dn -> zlen dn = n -> 0 <= j -> j + n < zlen un ->
  0 <= qhat < 2 ^ 32 ->
  exists un' borrow, mul_sub un dn n j qhat = Some (un', borrow) /\ zlen un' = zlen un /\ limbs un' /\
    (borrow = 0 \/ borrow = 1) /\ vdrop (j + n + 1) un' = vdrop (j + n + 1) un /\
    val un' = val un - qhat * val dn * Bpow j + borrow * Bpow (j + n + 1).
Proof.
  intros Hun Hdn Hn Hj Hlen Hq. unfold mul_sub. pose proof (zlen_nonneg dn) as Hn0.
  go_loop (fun i '(un1, borrow, carry) => zlen un1 = zlen un /\ limbs un1 /\ 0 <= borrow <= 1 /\ limb carry /\
    vdrop (j + n + 1) un1 = vdrop (j + n + 1) un /\
    val un1 = val un - qhat * vtake i dn * Bpow j + (carry + borrow) * Bpow (j + i)) s H; [lia| | |].
  - rewrite vtake_0. unfold limb. repeat (split; [done || lia|]). lia.
  - intros i [[un1 borrow] carry] Hi (Hz & Hl & Hb & Hc & Ht & Hv). cbv beta iota.
    go_idx d Hd; [lia|]. pose proof (limbs_idx _ _ _ Hdn Hd) as H1. unfold limb in *.
    go_chk; [nia|]. go_idx u Hu; [lia|]. pose proof (limbs_idx _ _ _ Hl Hu) as H2.
    set (p := qhat * d + carry) in *. pose proof (limb_wrap32 p) as H3. unfold limb in *.
    assert (0 <= p <= 2 ^ 32 * (2 ^ 32 - 1)) as Hp by (unfold p; nia).
    go_chk; [lia|]. set (s := u - borrow - wrap32 p) in *.
    go_upd un2 Hu2 Hz2; [lia|]. eexists. split; [done|]. cbv beta iota. rewrite shr64_32.
    split; [lia|]. split; [eauto with goish|]. split; [case_decide; lia|]. split; [lia|].
    split; [rewrite (vdrop_upd_above _ _ _ _ _ Hu2) by lia; done|].
    rewrite (val_upd _ _ _ _ _ Hu Hu2), Hv, vtake_S, Hd by lia. cbn [from_option id].
    rewrite Z.add_assoc, Bpow_S, Bpow_add by lia.
    assert (wrap32 s = s + 2 ^ 32 * (if decide (s < 0) then 1 else 0)) as ->.
    { unfold wrap32. case_decide; [symmetry; apply (Z.mod_unique _ _ (-1)); lia|]. rewrite Z.mod_small; lia. }
    pose proof (wrap32_split p) as Hs. assert (wrap32 p = p - 2 ^ 32 * (p / 2 ^ 32)) as Hw by lia.
    unfold s. rewrite Hw. unfold p. ring.
  - destruct s as [[un1 borrow] carry]. destruct H as (Hz & Hl & Hb & Hc & Ht & Hv). rewrite some_bind.
    go_idx u Hu; [lia|]. pose proof (limbs_idx _ _ _ Hl Hu) as H2. unfold limb in *. go_chk; [lia|].
    set (s := u - borrow - carry) in *. go_upd un2 Hu2 Hz2; [lia|]. do 2 eexists. split; [done|].
    split; [lia|]. split; [eauto with goish|]. split; [case_decide; lia|].
    split; [rewrite (vdrop_upd_above _ _ _ _ _ Hu2) by lia; done|].
    rewrite (val_upd _ _ _ _ _ Hu Hu2), Hv, (vtake_all n dn), Bpow_S by lia.
    assert (wrap32 s = s + 2 ^ 32 * (if decide (s < 0) then 1 else 0)) as ->.
    { unfold wrap32. case_decide; [symmetry; apply (Z.mod_unique _ _ (-1)); lia|]. rewrite Z.mod_small; lia. }
    unfold s. ring.
Qed.

Lemma add_back_spec un dn n j : limbs un -> limbs dn -> zlen dn = n -> 0 <= j -> j + n < zlen un ->
  exists un' c, add_back un dn n j = Some un' /\ zlen un' = zlen un /\ limbs un' /\
    vdrop (j + n + 1) un' = vdrop (j + n + 1) un /\
    val un' = val un + val dn * Bpow j - c * Bpow (j + n + 1).
Proof.
  intros Hun Hdn Hn Hj Hlen. unfold add_back. pose proof (zlen_nonneg dn) as Hn0.
  go_loop (fun i '(un1, carry) => zlen un1 = zlen un /\ limbs un1 /\ 0 <= carry <= 1 /\
    vdrop (j + n + 1) un1 = vdrop (j + n + 1) un /\
    val un1 + carry * Bpow (j + i) = val un + vtake i dn * Bpow j) s H; [lia| | |].
  - rewrite vtake_0. repeat (split; [done || lia|]). lia.
  - intros i [un1 carry] Hi (Hz & Hl & Hc & Ht & Hv). cbv beta iota.
    go_idx u Hu; [lia|]. pose proof (limbs_idx _ _ _ Hl Hu) as H2.
    go_idx d Hd; [lia|]. pose proof (limbs_idx _ _ _ Hdn Hd) as H1. unfold limb in *.
    go_chk; [lia|]. set (p := u + d + carry) in *. go_upd un2 Hu2 Hz2; [lia|].
    eexists. split; [done|]. cbv beta iota. rewrite shr64_32.
    split; [lia|]. split; [eauto with goish|]. split; [lia|].
    split; [rewrite (vdrop_upd_above _ _ _ _ _ Hu2) by lia; done|].
    rewrite (val_upd _ _ _ _ _ Hu Hu2), vtake_S, Hd by lia. cbn [from_option id].
    rewrite Z.add_assoc, Bpow_S, Bpow_add in * by lia.
    pose proof (wrap32_split p) as Hs. assert (wrap32 p = p - 2 ^ 32 * (p / 2 ^ 32)) as -> by lia.
    unfold p. replace (val un1) with (val un + vtake i dn * Bpow j - carry * (Bpow j * Bpow i)) by lia. ring.
  - destruct s as [un1 carry]. destruct H as (Hz & Hl & Hc & Ht & Hv). rewrite some_bind.
    go_idx u Hu; [lia|].
    set (x := u + wrap32 carry) in *. destruct (upd_ok un1 (j + n) (wrap32 x)) as (un2 & Hu2 & Hz2); [lia|].
    exists un2, (x / 2 ^ 32). split; [done|].
    split; [lia|]. split; [eauto with goish|].
    split; [rewrite (vdrop_upd_above _ _ _ _ _ Hu2) by lia; done|].
    rewrite (val_upd _ _ _ _ _ Hu Hu2), Bpow_S by lia. rewrite (vtake_all n dn) in Hv by lia.
    assert (x = u + carry) as Hx by (unfold x, wrap32; rewrite Z.mod_small; lia).
    pose proof (wrap32_split x) as Hs. assert (wrap32 x = x - 2 ^ 32 * (x / 2 ^ 32)) as -> by lia.
    rewrite Hx at 1. lia.
Qed.

(** ** One digit *)

(** The limbs above a bound are zero. *)
Lemma above_zero un k : limbs un -> 0 <= k <= zlen un -> val un < Bpow k -> vdrop k un = 0.
Proof.
  intros Hl Hk Hlt. rewrite (vsplit k un) in Hlt by lia. pose proof (vtake_range k un Hl ltac:(lia)).
  pose proof (vdrop_range k un Hl ltac:(lia)). pose proof (Bpow_pos k). nia.
Qed.

Lemma below_pow un k : limbs un -> 0 <= k <= zlen un -> vdrop k un = 0 -> 0 <= val un < Bpow k.
Proof.
  intros Hl Hk H0. rewrite (vsplit k) by lia. rewrite H0. pose proof (vtake_range k un Hl ltac:(lia)). lia.
Qed.

Lemma leading_le b k N D u2 u' v' : 0 < b -> 0 < k -> 0 <= u2 -> 0 <= u' -> v' < k ->
  (N * b + u2) * k + u' < (D * k + v') * b -> N <= D.
Proof.
  intros Hb Hk Hu2 Hu' Hv' Hlt. apply Z.nlt_ge. intros Hc.
  assert ((D + 1) * b <= N * b) by nia. assert ((D + 1) * b * k <= N * b * k) by nia.
  assert (v' * b < k * b) by nia. assert (0 <= u2 * k) by nia. lia.
Qed.

(** What the borrow says: with no borrow the estimate was the digit, with one it was one more. *)
Lemma borrow_digit P W q qhat r u1 borrow : 0 <= u1 < P -> 0 <= r < W -> W < P -> q <= qhat <= q + 1 ->
  u1 = q * W + r - qhat * W + borrow * P -> (borrow = 0 -> qhat = q /\ u1 = r) /\ (borrow = 1 -> qhat = q + 1 /\ u1 = r - W + P).
Proof. intros H1 Hr HW Hq E. assert (qhat = q \/ qhat = q + 1) as [-> | ->] by lia; split; intros ->; lia. Qed.

Section digits.
  Context (dn : list Z) (n V dn_hi dn_lo : Z).
  Context (Hdn : limbs dn) (Hn : zlen dn = n) (Hn2 : 2 <= n) (HV : val dn = V).
  Context (Hhi : idx dn (n - 1) = Some dn_hi) (Hlo : idx dn (n - 2) = Some dn_lo) (Htop : 2 ^ 31 <= dn_hi).

Lemma divisor_top : limb dn_hi /\ limb dn_lo.
Proof using Hdn Hhi Hlo. split; by eapply limbs_idx. Qed.

Lemma divisor_split j : 0 <= j ->
  V * Bpow j = (dn_hi * 2 ^ 32 + dn_lo) * Bpow (j + n - 2) + vtake (n - 2) dn * Bpow j /\
  0 <= vtake (n - 2) dn * Bpow j < Bpow (j + n - 2).
Proof using All.
  intros Hj. replace (j + n - 2) with (n - 2 + j) by lia. rewrite Bpow_add by lia. split.
  - rewrite <- HV, (vsplit (n - 2) dn) by lia. rewrite (vdrop_S _ _ _ Hlo).
    replace (n - 2 + 1) with (n - 1) by lia. rewrite (vdrop_S _ _ _ Hhi), (vdrop_all (n - 1 + 1)) by lia. ring.
  - pose proof (vtake_range (n - 2) dn Hdn ltac:(lia)). pose proof (Bpow_pos j Hj). nia.
Qed.

Lemma divisor_bound j : 0 <= j -> 0 < V * Bpow j < Bpow (j + n).
Proof using All.
  intros Hj. pose proof (val_range dn Hdn) as R. rewrite HV, Hn in R. pose proof (Bpow_pos j Hj).
  destruct (divisor_split 0 ltac:(lia)) as [E E']. destruct divisor_top as [L1 L2]. unfold limb in *.
  pose proof (Bpow_pos (0 + n - 2) ltac:(lia)). rewrite Bpow_0 in *. assert (0 < V) by nia.
  rewrite Bpow_add by lia. nia.
Qed.

(** The three leading limbs of the window of a digit. *)
Lemma dividend_split un j u0 u1 u2 : 0 <= j -> idx un (j + n) = Some u0 -> idx un (j + n - 1) = Some u1 ->
  idx un (j + n - 2) = Some u2 -> vdrop (j + n + 1) un = 0 ->
  val un = ((u0 * 2 ^ 32 + u1) * 2 ^ 32 + u2) * Bpow (j + n - 2) + vtake (j + n - 2) un.
Proof using Hn2.
  intros Hj H0 H1 H2 Habove. pose proof (idx_range _ _ _ H0). rewrite (vsplit (j + n - 2) un) by lia. rewrite (vdrop_S _ _ _ H2).
  replace (j + n - 2 + 1) with (j + n - 1) by lia. rewrite (vdrop_S _ _ _ H1).
  replace (j + n - 1 + 1) with (j + n) by lia. rewrite (vdrop_S _ _ _ H0), Habove. ring.
Qed.

(** Multiply, subtract and add back: the dividend loses the digit times the divisor. *)
Lemma subtract_digit un j qhat : limbs un -> 0 <= j -> j + n < zlen un -> vdrop (j + n + 1) un = 0 ->
  let q := val un / (V * Bpow j) in q <= qhat <= q + 1 -> 0 <= q -> 0 <= qhat < 2 ^ 32 ->
  exists un1 un2 borrow, mul_sub un dn n j qhat = Some (un1, borrow) /\
    (if decide (borrow <> 0) then qhat ← chk64 (qhat - 1); un ← add_back un1 dn n j; Some (un, qhat)
     else Some (un1, qhat)) = Some (un2, q) /\
    limbs un2 /\ zlen un2 = zlen un /\ val un2 = val un mod (V * Bpow j).
Proof using All.
  intros Hun Hj Hlen Habove q Hest Hq0 Hqh. destruct (divisor_bound j Hj) as [HV0 HVn].
  assert (Bpow (j + n) <= Bpow (j + n + 1)) as Hmono by (apply Bpow_mono; lia).
  pose proof (Z.div_mod (val un) (V * Bpow j) ltac:(lia)) as Hdm. fold q in Hdm.
  pose proof (Z.mod_pos_bound (val un) (V * Bpow j) HV0) as Hmod.
  destruct (mul_sub_spec un dn n j qhat) as (un1 & borrow & E1 & Hz1 & Hl1 & Hb & Ha1 & Hv1); [done|done|done|lia|lia|lia|].
  rewrite Habove in Ha1. rewrite HV in Hv1. pose proof (below_pow un1 (j + n + 1) Hl1 ltac:(lia) Ha1) as R1.
  destruct (borrow_digit (Bpow (j + n + 1)) (V * Bpow j) q qhat (val un mod (V * Bpow j)) (val un1) borrow) as [B0 B1]; [lia..|].
  destruct Hb as [-> | ->].
  - destruct (B0 eq_refl) as [Eq E]. exists un1, un1, 0. rewrite decide_False by lia. rewrite E, Eq in *. auto with lia.
  - destruct (B1 eq_refl) as [Eq E].
    destruct (add_back_spec un1 dn n j) as (un2 & c & E2 & Hz2 & Hl2 & Ha2 & Hv2); [done|done|done|lia|lia|].
    exists un1, un2, 1. split; [done|]. rewrite decide_True by lia. go_chk; [lia|]. rewrite E2, some_bind.
    split; [do 2 f_equal; lia|]. split; [done|]. split; [lia|].
    rewrite Ha1 in Ha2. rewrite HV in Hv2. pose proof (below_pow un2 (j + n + 1) Hl2 ltac:(lia) Ha2) as R2.
    assert (c = 1) by nia. subst c. lia.
Qed.

Lemma divide_step_spec un q j m : limbs un -> zlen un = m + n + 1 -> 0 <= j <= m -> zlen q = m + 1 ->
  val un < V * Bpow (j + 1) ->
  exists un' q' d, divide_step dn n dn_hi dn_lo j (un, q) = Some (un', q') /\ limbs un' /\ zlen un' = zlen un /\
    upd q j d = Some q' /\ limb d /\ val un = val un' + d * (V * Bpow j) /\ 0 <= val un' < V * Bpow j.
Proof using All.
  intros Hun Hz Hj Hzq Hlt. unfold divide_step. cbv beta iota.
  go_idx u0 H0; [lia|]. go_idx u1 H1; [lia|]. go_idx u2 H2; [lia|].
  pose proof (limbs_idx _ _ _ Hun H0) as L0. pose proof (limbs_idx _ _ _ Hun H1) as L1. pose proof (limbs_idx _ _ _ Hun H2) as L2.
  destruct divisor_top as [Lhi Llo]. rewrite pair64 by done.
  destruct (divisor_bound (j + 1) ltac:(lia)) as [_ HVn]. replace (j + 1 + n) with (j + n + 1) in HVn by lia.
  assert (vdrop (j + n + 1) un = 0) as Habove by (apply above_zero; [done|lia|lia]).
  pose proof (dividend_split un j u0 u1 u2 ltac:(lia) H0 H1 H2 Habove) as Hu3.
  destruct (divisor_split j ltac:(lia)) as [HVj Rv]. destruct (divisor_bound j ltac:(lia)) as [HV0 _].
  pose proof (vtake_range (j + n - 2) un Hun ltac:(lia)) as Ru. pose proof (Bpow_pos (j + n - 2) ltac:(lia)) as Pk.
  assert (V * Bpow (j + 1) = V * Bpow j * 2 ^ 32) as HVj1 by (rewrite Bpow_S by lia; ring).
  unfold limb in L0, L1, L2, Lhi, Llo. rewrite HVj1 in Hlt.
  assert (0 <= u0 * 2 ^ 32 + u1 <= dn_hi * 2 ^ 32 + dn_lo) as Hnum.
  { split; [lia|]. apply (leading_le (2 ^ 32) (Bpow (j + n - 2)) _ _ u2 (vtake (j + n - 2) un) (vtake (n - 2) dn * Bpow j)); lia. }
  pose proof (digit_estimate (2 ^ 32) (Bpow (j + n - 2)) ((u0 * 2 ^ 32 + u1) * 2 ^ 32 + u2) (dn_hi * 2 ^ 32 + dn_lo)
    (vtake (j + n - 2) un) (vtake (n - 2) dn * Bpow j) ltac:(lia) Pk ltac:(lia) Ru Rv ltac:(lia) ltac:(lia)) as Hest.
  cbv zeta in Hest. rewrite <- Hu3, <- HVj in Hest.
  destruct (refine_spec dn_hi dn_lo (u0 * 2 ^ 32 + u1) u2) as [r ->]; [lia|done|done|done|].
  rewrite some_bind. cbv beta iota.
  set (qhat := Z.min _ _) in *.
  destruct (subtract_digit un j qhat) as (un1 & un2 & borrow & -> & E & Hl2 & Hz2 & Hv2); [done|lia|lia|done|lia|lia|lia|].
  rewrite some_bind. cbv beta iota. rewrite E, some_bind. set (qs := val un / (V * Bpow j)) in *.
  unfold wrap32. rewrite Z.mod_small by lia. destruct (upd_ok q j qs) as (q' & Hu & Hzq'); [lia|]. rewrite Hu, some_bind.
  exists un2, q', qs. pose proof (Z.div_mod (val un) (V * Bpow j) ltac:(lia)). fold qs in H.
  pose proof (Z.mod_pos_bound (val un) (V * Bpow j) HV0). unfold limb. auto 10 with lia.
Qed.
End digits.

(** ** The whole division *)

Lemma leading_zeros32_spec x : 0 < x < 2 ^ 32 ->
  0 <= leading_zeros32 x < 32 /\ 2 ^ 31 <= x * 2 ^ leading_zeros32 x /\ (x + 1) * 2 ^ leading_zeros32 x <= 2 ^ 32.
Proof.
  intros Hx. assert (leading_zeros32 x = 31 - Z.log2 x) as -> by (destruct x; lia || done).
  destruct (Z.log2_spec x ltac:(lia)) as [H1 H2]. pose proof (Z.log2_nonneg x).
  assert (Z.log2 x < 32) by (apply Z.log2_lt_pow2; lia). split; [lia|].
  assert (0 < 2 ^ (31 - Z.log2 x)) by (apply Z.pow_pos_nonneg; lia).
  assert (2 ^ 31 = 2 ^ Z.log2 x * 2 ^ (31 - Z.log2 x)) as E1 by (rewrite <- Z.pow_add_r by lia; f_equal; lia).
  assert (2 ^ 32 = 2 ^ Z.succ (Z.log2 x) * 2 ^ (31 - Z.log2 x)) as E2 by (rewrite <- Z.pow_add_r by lia; f_equal; lia).
  rewrite E1, E2. nia.
Qed.

Lemma normal_zlen l k : normal l -> 0 <= k -> val l < Bpow k -> zlen l <= k.
Proof.
  intros Hl Hk Hlt. destruct (list_eq_nil_dec l) as [->|Hne]; [done|]. apply Z.nlt_ge. intros Hc.
  pose proof (normal_lower l Hl Hne). pose proof (Bpow_mono k (zlen l - 1)). lia.
Qed.

Lemma normal_top l : normal l -> l <> [] -> exists top low, idx l (zlen l - 1) = Some top /\ limb top /\ top <> 0 /\
  val l = low + Bpow (zlen l - 1) * top /\ 0 <= low < Bpow (zlen l - 1).
Proof.
  intros Hl Hne. pose proof (normal_pos l Hl Hne) as Hpos. pose proof (normal_lower l Hl Hne) as Hlow.
  assert (1 <= zlen l) as Hz by (destruct l; [done|]; rewrite zlen_cons; pose proof (zlen_nonneg l); lia).
  destruct (idx_ok l (zlen l - 1) ltac:(lia)) as [top Ht]. exists top, (vtake (zlen l - 1) l).
  pose proof (limbs_idx _ _ _ (proj1 Hl) Ht). pose proof (vtake_range (zlen l - 1) l (proj1 Hl) ltac:(lia)).
  assert (val l = vtake (zlen l - 1) l + Bpow (zlen l - 1) * top) as Hv.
  { rewrite (vsplit (zlen l - 1) l) at 1 by lia. rewrite (vdrop_S _ _ _ Ht), (vdrop_all (zlen l - 1 + 1)) by lia. ring. }
  split; [done|]. split; [done|]. split; [intros ->; lia|]. split; [done|lia].
Qed.

Lemma val_resize n l : (length l <= n)%nat -> limbs l ->
  val (resize n 0 l) = val l /\ limbs (resize n 0 l) /\ zlen (resize n 0 l) = Z.of_nat n.
Proof.
  intros Hn Hl. rewrite resize_ge by lia. split; [|split].
  - rewrite val_app.
    assert (val (replicate (n - length l) 0) = 0) as ->; [|lia].
    pose proof (val_zeros (Z.of_nat (n - length l))) as Hz. unfold zeros in Hz. by rewrite Nat2Z.id in Hz.
  - apply limbs_app. split; [done|]. apply Forall_replicate. unfold limb. lia.
  - unfold zlen. rewrite length_app, length_replicate. lia.
Qed.

(** The divisor shifted so that its leading bit is set. *)
Lemma normalize_divisor den top : normal den -> 2 <= zlen den -> idx den (zlen den - 1) = Some top ->
  exists dn dn_hi dn_lo, shl_small den (leading_zeros32 top) = Some dn /\ normal dn /\ zlen dn = zlen den /\
    0 <= leading_zeros32 top < 32 /\ val dn = val den * 2 ^ leading_zeros32 top /\
    idx dn (zlen den - 1) = Some dn_hi /\ idx dn (zlen den - 2) = Some dn_lo /\ 2 ^ 31 <= dn_hi.
Proof.
  intros Hden Hn Htop. destruct (normal_top den Hden) as (t & low & Ht & Lt & Ht0 & Hv & Hlow); [by intros ->|].
  rewrite Htop in Ht. injection Ht as <-. unfold limb in Lt.
  destruct (leading_zeros32_spec top ltac:(lia)) as (Hs & H1 & H2). set (s := leading_zeros32 top) in *.
  destruct (shl_small_spec den s Hden Hs) as (dn & Edn & Hdn & Hvdn).
  assert (0 < 2 ^ s) as Ps by (apply Z.pow_pos_nonneg; lia).
  pose proof (Bpow_pos (zlen den - 1) ltac:(lia)) as Pn.
  assert (2 ^ 31 * Bpow (zlen den - 1) <= val dn) as Hge by nia.
  assert (val dn < 2 ^ 32 * Bpow (zlen den - 1)) as Hlt by nia. rewrite <- Bpow_S in Hlt by lia.
  assert (zlen dn = zlen den) as Hz.
  { apply Z.le_antisymm; [apply normal_zlen; [done|lia|by replace (zlen den) with (zlen den - 1 + 1) by lia]|].
    apply Z.nlt_ge. intros Hc. pose proof (val_range dn (proj1 Hdn)). pose proof (Bpow_mono (zlen dn) (zlen den - 1)).
    pose proof (zlen_nonneg dn). lia. }
  destruct (normal_top dn Hdn) as (hi & low' & Hhi & Lhi & _ & Hv' & Hlow'); [apply zlen_ne; lia|].
  destruct (idx_ok dn (zlen den - 2)) as [lo Hlo]; [lia|]. rewrite Hz in *.
  exists dn, hi, lo. repeat (split; [done || lia|]). nia.
Qed.

Lemma divide_loop_spec dn n dn_hi dn_lo un m : normal dn -> zlen dn = n -> 2 <= n ->
  idx dn (n - 1) = Some dn_hi -> idx dn (n - 2) = Some dn_lo -> 2 ^ 31 <= dn_hi ->
  limbs un -> 0 <= m -> zlen un = m + n + 1 -> val un < val dn * Bpow (m + 1) ->
  exists un' q, for_range_rev 0 (m + 1) (divide_step dn n dn_hi dn_lo) (un, zeros (m + 1)) = Some (un', q) /\
    limbs un' /\ zlen un' = zlen un /\ limbs q /\ val un = val un' + val q * val dn /\ 0 <= val un' < val dn.
Proof.
  intros Hdn Hn Hn2 Hhi Hlo Htop Hun Hm Hz Hlt.
  go_loop (fun j '(un1, q) => limbs un1 /\ zlen un1 = zlen un /\ limbs q /\ zlen q = m + 1 /\
    (forall k, 0 <= k < j -> idx q k = Some 0) /\ val un = val un1 + val q * val dn /\
    0 <= val un1 < val dn * Bpow j) s H; [lia| | |].
  - rewrite zlen_zeros, val_zeros by lia. pose proof (val_range un Hun).
    split; [done|]. split; [done|]. split; [auto with goish|]. split; [done|]. split; [|split; lia].
    intros k Hk. apply idx_Some. split; [lia|]. apply lookup_replicate. split; [done|]. lia.
  - intros j [un1 q] Hj (Hl1 & Hz1 & Hlq & Hzq & Hq0 & Hv & Hlt1).
    destruct (divide_step_spec dn n (val dn) dn_hi dn_lo (proj1 Hdn) Hn Hn2 eq_refl Hhi Hlo Htop un1 q j m)
      as (un2 & q2 & d & E & Hl2 & Hz2 & Hu & Ld & Hv2 & Hlt2); [done|lia|lia|done|lia|].
    exists (un2, q2). split; [done|]. split; [done|]. split; [lia|]. split; [eauto with goish|].
    split; [rewrite (upd_zlen _ _ _ _ Hu); lia|]. split; [|split; [|done]].
    + intros k Hk. apply upd_inv in Hu as [Hr ->]. rewrite idx_insert by lia. rewrite decide_False by lia. apply Hq0. lia.
    + rewrite (val_upd _ _ _ _ _ (Hq0 j ltac:(lia)) Hu). lia.
  - destruct s as [un1 q]. destruct H as (Hl1 & Hz1 & Hlq & Hzq & _ & Hv & Hlt1). rewrite Bpow_0 in Hlt1.
    exists un1, q. auto 10 with lia.
Qed.

Lemma val_slice_low un n : limbs un -> 0 <= n <= zlen un -> val un < Bpow n ->
  exists low, slice un 0 n = Some low /\ limbs low /\ val low = val un.
Proof.
  intros Hun Hn Hlt. unfold slice. rewrite decide_True by lia. rewrite drop_0, Z.sub_0_r.
  eexists. split; [done|]. split; [auto with goish|]. pose proof (above_zero un n Hun Hn Hlt).
  rewrite (vsplit n un Hn). fold (vtake n un). lia.
Qed.

Lemma divide_one_limb num den : normal num -> normal den -> zlen den = 1 ->
  exists q r, (d ← idx den 0; '(q, r) ← divmod_by_u32 num d; Some (q, if decide (r = 0) then [] else [r])) = Some (q, r) /\
    normal q /\ normal r /\ val q = val num / val den /\ val r = val num mod val den.
Proof.
  intros Hnum Hden H1. destruct (normal_top den Hden) as (top & low & Ht & Lt & Ht0 & Hv & Hlow); [apply zlen_ne; lia|].
  unfold limb in Lt. rewrite H1 in *. change (1 - 1) with 0 in *. rewrite Ht, some_bind.
  rewrite Bpow_0 in *. assert (val den = top) as -> by lia.
  destruct (divmod_by_u32_spec num top (proj1 Hnum) ltac:(lia)) as (q & -> & Hq & Hvq). rewrite some_bind.
  pose proof (Z.mod_pos_bound (val num) top ltac:(lia)). do 2 eexists. split; [done|]. split; [done|].
  case_decide as Hr; (split; [|split; [done|]]); [apply normal_nil|cbn; lia| |cbn [val]; lia].
  split; [repeat constructor; lia|]. unfold trimmed. cbn. congruence.
Qed.

(** The shifted dividend is below the shifted divisor times the base to the number of digits. *)
Lemma dividend_bound num dn k s dn_hi : normal num -> normal dn -> idx dn (zlen dn - 1) = Some dn_hi -> 2 ^ 31 <= dn_hi ->
  0 <= s < 32 -> 0 <= k -> zlen num = zlen dn - 1 + k -> val num * 2 ^ s < val dn * Bpow k.
Proof.
  intros Hnum Hdn Hhi Htop Hs Hk Hlen. pose proof (idx_range _ _ _ Hhi).
  destruct (normal_top dn Hdn) as (t & low & Ht & _ & _ & Hv & Hlow); [apply zlen_ne; lia|].
  rewrite Hhi in Ht. injection Ht as <-. pose proof (Bpow_pos (zlen dn - 1) ltac:(lia)).
  assert (2 ^ 31 * Bpow (zlen dn - 1) <= val dn) by nia. pose proof (val_range num (proj1 Hnum)) as R.
  rewrite Hlen, Bpow_add in R by lia. pose proof (Bpow_pos k Hk).
  assert (0 < 2 ^ s <= 2 ^ 31) by (split; [apply Z.pow_pos_nonneg; lia|apply Z.pow_le_mono_r; lia]).
  apply Z.lt_le_trans with (Bpow (zlen dn - 1) * Bpow k * 2 ^ 31); [|nia]. nia.
Qed.

Lemma divmod_limbs_spec num den : normal num -> normal den -> den <> [] ->
  exists q r, divmod_limbs num den = Some (q, r) /\ normal q /\ normal r /\
    val q = val num / val den /\ val r = val num mod val den.
Proof.
  intros Hnum Hden Hne. unfold divmod_limbs. rewrite decide_False by done. rewrite abs_cmp_spec by done.
  pose proof (normal_pos den Hden Hne) as Hpos. pose proof (val_range num (proj1 Hnum)) as Rnum.
  case_decide as Hlt.
  { change (val num < val den) in Hlt. exists [], (trim num). rewrite trim_val.
    rewrite Z.div_small, Z.mod_small by lia. pose proof (trim_normal num (proj1 Hnum)). auto using normal_nil. }
  case_decide as H1; [by apply divide_one_limb|].
  assert (val den <= val num) as Hge by (apply Z.nlt_ge; exact Hlt).
  assert (2 <= zlen den) as Hn2 by (destruct den; [done|]; rewrite zlen_cons in *; pose proof (zlen_nonneg den); lia).
  assert (zlen den <= zlen num) as Hlen.
  { apply Z.nlt_ge. intros Hc. pose proof (normal_len_lt num den Hnum Hden Hc). lia. }
  destruct (normal_top den Hden Hne) as (top & low & Ht & _).
  unfold usize_sub. rewrite decide_True, some_bind by lia. rewrite Ht, some_bind.
  destruct (normalize_divisor den top Hden Hn2 Ht) as (dn & hi & lo & -> & Hdn & Hz & Hs & Hvdn & Hhi & Hlo & Htop).
  rewrite some_bind, decide_False by lia. set (s := leading_zeros32 top) in *.
  destruct (shl_small_spec num s Hnum Hs) as (un0 & -> & Hun0 & Hvun). rewrite some_bind, Hhi, Hlo, !some_bind.
  assert (val num * 2 ^ s < val dn * Bpow (zlen num - zlen den + 1)) as Hb.
  { apply (dividend_bound _ _ _ _ hi); rewrite ?Hz; done || lia. }
  assert (zlen un0 <= zlen num + 1) as Hz0.
  { apply normal_zlen; [done|pose proof (zlen_nonneg num); lia|]. rewrite Hvun.
    assert (2 ^ s <= 2 ^ 31) by (apply Z.pow_le_mono_r; lia). rewrite Bpow_S by apply zlen_nonneg. nia. }
  destruct (val_resize (length num + 1) un0) as (Hvr & Hlr & Hzr); [unfold zlen in *; lia|apply Hun0|].
  destruct (divide_loop_spec dn (zlen den) hi lo (resize (length num + 1) 0 un0) (zlen num - zlen den))
    as (un & q & -> & Hlun & Hzun & Hlq & Hv1 & Hlt1); [done..|lia|unfold zlen in *; lia|by rewrite Hvr, Hvun|].
  rewrite some_bind. cbv beta iota.
  assert (val dn < Bpow (zlen den)) as Hdnlt by (rewrite <- Hz; apply val_range, Hdn).
  destruct (val_slice_low un (zlen den) Hlun ltac:(unfold zlen in *; lia) ltac:(lia)) as (lw & -> & Hlw & Hvlw). rewrite some_bind.
  destruct (shr_small_spec lw s Hlw Hs) as (rem & -> & Hrem & Hvrem). rewrite some_bind.
  assert (0 < 2 ^ s) by (apply Z.pow_pos_nonneg; lia). rewrite Hvr, Hvun, Hvdn in Hv1. rewrite Hvdn in Hlt1.
  assert (val un = (val num - val q * val den) * 2 ^ s) as Eun by lia.
  assert (val rem = val num - val q * val den) as Er by (rewrite Hvrem, Hvlw, Eun, Z.div_mul by lia; done).
  exists (trim q), rem. rewrite trim_val. split; [done|]. split; [by apply trim_normal|]. split; [done|].
  assert (0 <= val num - val q * val den < val den) by nia.
  split; [apply (Z.div_unique _ _ _ (val rem)); lia|apply (Z.mod_unique _ _ (val q)); lia].
Qed.

(** C10: Long division is exact on operands of any length: for a divisor that is not zero the digit
    loop ends with the quotient and the remainder, both trimmed, no step of it overflows, reads out of
    range or runs out of corrections; and a zero divisor is the only panic. *)
Theorem algorithm_d_exact : forall num den, normal num -> normal den ->
  if decide (den = []) then divmod_limbs num den = None
  else exists q r, divmod_limbs num den = Some (q, r) /\ normal q /\ normal r /\
    val q = val num / val den /\ val r = val num mod val den.
Proof.
  intros num den Hnum Hden. case_decide as Hne; [|by apply divmod_limbs_spec]. unfold divmod_limbs. by rewrite decide_True.
Qed.

Lemma algorithm_d_exact_witness : exists q r, divmod_limbs [0; 0; 0; 2147483648] [1; 0; 2147483648] = Some (q, r) /\
  normal q /\ normal r /\ val q = 2 ^ 32 - 1 /\ val r = 2 ^ 95 - 2 ^ 32 + 1.
Proof.
  assert (normal [0; 0; 0; 2147483648]) as H1 by (split; [repeat constructor; unfold limb; lia|vm_compute; congruence]).
  assert (normal [1; 0; 2147483648]) as H2 by (split; [repeat constructor; unfold limb; lia|vm_compute; congruence]).
  exact (algorithm_d_exact _ _ H1 H2).
Defined.
