(* ===== verification/LimbsBits.v ===== *)
(** Bit operations and long shifts on magnitudes compute those operations on the values. *)
From Stdlib Require Import ZArith Lia.
From stdpp Require Import base tactics numbers list list_numbers option.
From S2P Require Import Prelude Limbs LimbsSpec LimbsDiv.
Open Scope Z_scope.

(** ** Words split at a bit *)

Lemma testbit_split a p k i : 0 <= k -> 0 <= a < 2 ^ k -> 0 <= i ->
  Z.testbit (a + 2 ^ k * p) i = if decide (i < k) then Z.testbit a i else Z.testbit p (i - k).
Proof.
  intros Hk Ha Hi. rewrite Z.add_comm, (Z.mul_comm _ p), <- lor_add_low, Z.lor_spec by lia. case_decide as H.
  - by rewrite Z.mul_pow2_bits_low by lia.
  - rewrite Z.mul_pow2_bits by lia. rewrite <- (Z.mod_small a (2 ^ k)) by lia.
    rewrite Z.mod_pow2_bits_high by lia. apply orb_false_r.
Qed.

(** A bitwise operation, given by its truth table, that keeps zeros. *)
Class BitOp (op : Z -> Z -> Z) (f : bool -> bool -> bool) := {
  bitop_spec a b i : 0 <= i -> Z.testbit (op a b) i = f (Z.testbit a i) (Z.testbit b i);
  bitop_ff : f false false = false }.

#[export] Instance land_bitop : BitOp Z.land andb.
Proof. split; [intros; apply Z.land_spec|done]. Qed.
#[export] Instance lor_bitop : BitOp Z.lor orb.
Proof. split; [intros; apply Z.lor_spec|done]. Qed.
#[export] Instance lxor_bitop : BitOp Z.lxor xorb.
Proof. split; [intros; apply Z.lxor_spec|done]. Qed.
#[export] Instance ldiff_bitop : BitOp Z.ldiff (fun x y => x && negb y).
Proof. split; [intros; apply Z.ldiff_spec|done]. Qed.

Section bitop.
  Context (op : Z -> Z -> Z) (f : bool -> bool -> bool) `{Hop : BitOp op f}.

Lemma bitop_range a b k : 0 <= k -> 0 <= a < 2 ^ k -> 0 <= b < 2 ^ k -> 0 <= op a b < 2 ^ k.
Proof using Hop.
  intros Hk Ha Hb. assert (op a b = op a b mod 2 ^ k) as ->; [|apply Z.mod_pos_bound; apply Z.pow_pos_nonneg; lia].
  apply Z.bits_inj'. intros i Hi. destruct (decide (i < k)); [by rewrite Z.mod_pow2_bits_low|].
  rewrite Z.mod_pow2_bits_high, bitop_spec by lia.
  rewrite <- (Z.mod_small a (2 ^ k)), <- (Z.mod_small b (2 ^ k)), !Z.mod_pow2_bits_high by lia. apply bitop_ff.
Qed.

Lemma bitop_split a b p q k : 0 <= k -> 0 <= a < 2 ^ k -> 0 <= b < 2 ^ k ->
  op (a + 2 ^ k * p) (b + 2 ^ k * q) = op a b + 2 ^ k * op p q.
Proof using Hop.
  intros Hk Ha Hb. apply Z.bits_inj'. intros i Hi. rewrite bitop_spec by lia.
  rewrite !testbit_split by (try apply bitop_range; lia). case_decide; by rewrite bitop_spec by lia.
Qed.

Lemma bitop_00 : op 0 0 = 0.
Proof using Hop. pose proof (bitop_range 0 0 0). cbn in *. lia. Qed.

Lemma val_zip x y : limbs x -> limbs y -> length x = length y ->
  limbs (zip_with op x y) /\ val (zip_with op x y) = op (val x) (val y).
Proof using Hop.
  revert y. induction x as [|a x IH]; intros [|b y] Hx Hy Hlen; try done.
  { split; [constructor|]. symmetry. apply bitop_00. }
  apply limbs_cons in Hx as [Ha Hx]. apply limbs_cons in Hy as [Hb Hy]. injection Hlen as Hlen.
  destruct (IH y Hx Hy Hlen) as [Hl Hv]. cbn [zip_with val]. rewrite bitop_split by (unfold limb in *; lia).
  split; [apply limbs_cons; split; [apply bitop_range; unfold limb in *; lia|done]|]. by rewrite Hv.
Qed.

(** The common limbs, and any sequence that stands for the operation on the others. *)
Lemma bitop_limbs x y n rest : limbs x -> limbs y -> 0 <= n -> n <= zlen x -> n <= zlen y -> limbs rest ->
  val rest = op (vdrop n x) (vdrop n y) ->
  let z := zip_with op (take (Z.to_nat n) x) (take (Z.to_nat n) y) ++ rest in
  normal (trim z) /\ val (trim z) = op (val x) (val y).
Proof using Hop.
  intros Hx Hy Hn Hnx Hny Hr Hv z. unfold zlen in *.
  destruct (val_zip (take (Z.to_nat n) x) (take (Z.to_nat n) y)) as [Hl Hz]; [auto with goish..| |].
  { rewrite !length_take. lia. }
  split; [apply trim_normal, limbs_app; done|]. rewrite trim_val. unfold z. rewrite val_app, Hz, Hv.
  rewrite (vsplit n x), (vsplit n y) by (unfold zlen; lia). unfold Bpow, zlen.
  rewrite bitop_split; [|lia|by apply vtake_range..]. rewrite length_zip_with, !length_take.
  by replace (Z.of_nat _) with n by lia.
Qed.
End bitop.

Lemma zip_loop_spec f x y n z : 0 <= n -> n <= zlen x -> n <= zlen y -> n <= zlen z ->
  zip_loop f x y n z = Some (zip_with f (take (Z.to_nat n) x) (take (Z.to_nat n) y) ++ drop (Z.to_nat n) z).
Proof.
  intros Hn Hx Hy Hz. unfold zip_loop.
  go_loop (fun i z' => z' = zip_with f (take (Z.to_nat i) x) (take (Z.to_nat i) y) ++ drop (Z.to_nat i) z) z' H; [lia|done| |].
  - intros i z' Hi ->. destruct (idx_ok x i) as [a Ha]; [lia|]. destruct (idx_ok y i) as [b Hb]; [lia|].
    rewrite Ha, Hb, !some_bind. apply idx_Some in Ha as [_ Ha]. apply idx_Some in Hb as [_ Hb]. unfold zlen in *.
    assert (length (zip_with f (take (Z.to_nat i) x) (take (Z.to_nat i) y)) = Z.to_nat i) as Hl.
    { rewrite length_zip_with, !length_take. lia. }
    eexists. split; [apply upd_Some; unfold zlen; rewrite length_app, Hl, length_drop; lia|].
    replace (Z.to_nat (i + 1)) with (S (Z.to_nat i)) by lia.
    rewrite (take_S_r _ _ _ Ha), (take_S_r _ _ _ Hb), zip_with_app by (rewrite !length_take; lia).
    destruct (lookup_lt_is_Some_2 z (Z.to_nat i)) as [c Hc]; [lia|]. rewrite (drop_S _ _ _ Hc).
    rewrite <- app_assoc. rewrite <- Hl at 1. rewrite insert_app_r_alt by lia. rewrite Hl, Nat.sub_diag. done.
  - by rewrite H.
Qed.

Lemma land_not32 a b : limb a -> limb b -> Z.land a (not32 b) = Z.ldiff a b.
Proof.
  unfold limb. intros Ha Hb. apply Z.bits_inj'. intros i Hi. unfold not32.
  change (2 ^ 32 - 1) with (Z.ones 32). rewrite Z.land_spec, Z.lxor_spec, Z.ldiff_spec.
  destruct (decide (i < 32)); [by rewrite Z.ones_spec_low, xorb_true_r by lia|].
  rewrite <- (Z.mod_small a (2 ^ 32)), Z.mod_pow2_bits_high by lia. done.
Qed.

Lemma and_limbs_spec x y : limbs x -> limbs y ->
  exists z, and_limbs x y = Some z /\ normal z /\ val z = Z.land (val x) (val y).
Proof.
  intros Hx Hy. unfold and_limbs. set (m := Z.min _ _). pose proof (zlen_nonneg x). pose proof (zlen_nonneg y).
  rewrite zip_loop_spec, some_bind by (rewrite ?zlen_zeros; lia). eexists. split; [done|].
  apply (bitop_limbs Z.land andb); [done|done|lia|lia|lia|auto with goish|].
  unfold zeros. rewrite drop_ge by (rewrite length_replicate; lia). cbn [val].
  destruct (decide (m = zlen x)); [rewrite (vdrop_all m x) by lia; by rewrite Z.land_0_l|].
  rewrite (vdrop_all m y) by lia. by rewrite Z.land_0_r.
Qed.

(** The longer operand's limbs remain where the shorter one has none. *)
Lemma long_limbs_spec op f `{BitOp op f} x y : (forall a, op a 0 = a) -> (forall a, op 0 a = a) -> limbs x -> limbs y ->
  exists z, (let '(short, long) := if decide (zlen x < zlen y) then (x, y) else (y, x) in
    z ← zip_loop op x y (zlen short) long; Some (trim z)) = Some z /\ normal z /\ val z = op (val x) (val y).
Proof.
  intros H0 H1 Hx Hy. pose proof (zlen_nonneg x). pose proof (zlen_nonneg y). case_decide.
  - rewrite zip_loop_spec, some_bind by lia. eexists. split; [done|]. apply (bitop_limbs op f); [done|done|lia|lia|lia|auto with goish|].
    by rewrite (vdrop_all (zlen x) x), H1 by lia.
  - rewrite zip_loop_spec, some_bind by lia. eexists. split; [done|]. apply (bitop_limbs op f); [done|done|lia|lia|lia|auto with goish|].
    by rewrite (vdrop_all (zlen y) y), H0 by lia.
Qed.

Lemma or_limbs_spec x y : limbs x -> limbs y ->
  exists z, or_limbs x y = Some z /\ normal z /\ val z = Z.lor (val x) (val y).
Proof. apply (long_limbs_spec Z.lor orb); [apply Z.lor_0_r|apply Z.lor_0_l]. Qed.

Lemma xor_limbs_spec x y : limbs x -> limbs y ->
  exists z, xor_limbs x y = Some z /\ normal z /\ val z = Z.lxor (val x) (val y).
Proof. apply (long_limbs_spec Z.lxor xorb); [apply Z.lxor_0_r|apply Z.lxor_0_l]. Qed.

Lemma zip_with_limbs_ext (f g : Z -> Z -> Z) x y : limbs x -> limbs y -> (forall a b, limb a -> limb b -> f a b = g a b) ->
  zip_with f x y = zip_with g x y.
Proof.
  intros Hx Hy Hfg. revert y Hy. induction x as [|a x IH]; intros [|b y] Hy; try done.
  apply limbs_cons in Hx as [Ha Hx]. apply limbs_cons in Hy as [Hb Hy]. cbn. f_equal; [by apply Hfg|by apply IH].
Qed.

Lemma and_not_limbs_spec x y : limbs x -> limbs y ->
  exists z, and_not_limbs x y = Some z /\ normal z /\ val z = Z.ldiff (val x) (val y).
Proof.
  intros Hx Hy. unfold and_not_limbs. set (n := Z.min _ _). pose proof (zlen_nonneg x). pose proof (zlen_nonneg y).
  rewrite zip_loop_spec, some_bind by (rewrite ?zlen_zeros; lia).
  unfold slice. rewrite decide_True, some_bind by lia. eexists. split; [done|].
  match goal with |- context [zip_with ?f ?a ?b] => set (zs := zip_with f a b) end. assert (length zs = Z.to_nat n) as Hl.
  { unfold zs, zlen in *. rewrite length_zip_with, !length_take. lia. }
  rewrite take_app_length' by done. unfold zs.
  rewrite (zip_with_limbs_ext (fun a b => Z.land a (not32 b)) Z.ldiff) by auto using land_not32 with goish.
  rewrite (take_ge (drop _ _)) by (rewrite length_drop; unfold zlen; lia).
  apply (bitop_limbs Z.ldiff (fun x y => x && negb y)); [done|done|lia|lia|lia|auto with goish|]. fold (vdrop n x).
  destruct (decide (n = zlen y)); [rewrite (vdrop_all n y) by lia; by rewrite Z.ldiff_0_r|].
  rewrite (vdrop_all n x) by lia. by rewrite Z.ldiff_0_l.
Qed.

(** ** Long shifts *)

Lemma vdrop_div l k : limbs l -> 0 <= k <= zlen l -> vdrop k l = val l / Bpow k.
Proof.
  intros Hl Hk. pose proof (vtake_range k l Hl ltac:(lia)). apply (Z.div_unique _ _ _ (vtake k l)); [lia|].
  rewrite (vsplit k l) by lia. lia.
Qed.

Lemma pow_limbs s : 0 <= s -> 2 ^ s = Bpow (s / 32) * 2 ^ (s mod 32) /\ 0 <= s / 32 /\ 0 <= s mod 32 < 32.
Proof. intros Hs. unfold Bpow. rewrite <- Z.pow_add_r by lia. split; [f_equal; lia|lia]. Qed.

Lemma val_beyond l k : limbs l -> zlen l <= k -> val l < Bpow k.
Proof.
  intros Hl Hk. pose proof (val_range l Hl). pose proof (Bpow_mono (zlen l) k). pose proof (zlen_nonneg l). lia.
Qed.

Lemma lsh_limbs_spec x s : normal x -> 0 <= s ->
  exists z, lsh_limbs x s = Some z /\ normal z /\ val z = val x * 2 ^ s.
Proof.
  intros Hx Hs. unfold lsh_limbs. case_decide as Hne; [subst; exists []; by auto using normal_nil|].
  destruct (pow_limbs s Hs) as (-> & Hq & Hr).
  assert (exists y, (if decide (s mod 32 = 0) then Some x else shl_small x (s mod 32)) = Some y /\ normal y /\
    val y = val x * 2 ^ (s mod 32)) as (y & -> & Hy & Hv).
  { case_decide as H0; [|by apply shl_small_spec]. exists x. rewrite H0. split; [done|]. split; [done|]. lia. }
  rewrite some_bind. case_decide as H1.
  - eexists. split; [done|]. split; [apply trim_normal, Hy|]. rewrite trim_val, Hv, H1, Bpow_0. lia.
  - eexists. split; [done|]. split; [apply trim_normal, limbs_app; split; [apply limbs_zeros|apply Hy]|].
    rewrite trim_val, val_app, val_zeros, zlen_zeros, Hv by lia. lia.
Qed.

Lemma rsh_limbs_spec x s : limbs x -> 0 <= s ->
  exists z, rsh_limbs x s = Some z /\ normal z /\ val z = val x / 2 ^ s.
Proof.
  intros Hx Hs. unfold rsh_limbs. case_decide as Hne; [subst; exists []; by auto using normal_nil|].
  destruct (pow_limbs s Hs) as (-> & Hq & Hr). pose proof (val_range x Hx).
  pose proof (Bpow_pos (s / 32) Hq). assert (0 < 2 ^ (s mod 32)) by (apply Z.pow_pos_nonneg; lia).
  case_decide as Hbig.
  { exists []. split; [done|]. split; [apply normal_nil|]. cbn [val]. symmetry. apply Z.div_small.
    pose proof (val_beyond x (s / 32) Hx ltac:(lia)). nia. }
  unfold slice. rewrite decide_True, some_bind by lia.
  rewrite take_ge by (rewrite length_drop; unfold zlen; lia). set (d := drop _ x).
  assert (limbs d) as Hd by (unfold d; auto with goish).
  assert (val d = val x / Bpow (s / 32)) as Hvd by (apply vdrop_div; [done|lia]).
  rewrite <- Z.div_div, <- Hvd by lia.
  assert (exists y, (if decide (s mod 32 = 0) then Some d else shr_small d (s mod 32)) = Some y /\ limbs y /\
    val y = val d / 2 ^ (s mod 32)) as (y & -> & Hy & Hv).
  { case_decide as Hb.
    - exists d. rewrite Hb, Z.div_1_r. done.
    - destruct (shr_small_spec d (s mod 32) Hd Hr) as (y & -> & [Hy _] & Hv). eauto. }
  rewrite some_bind. eexists. split; [done|]. split; [by apply trim_normal|]. by rewrite trim_val.
Qed.

(** ** Single bits *)

Lemma testbit_val l i : limbs l -> 0 <= i ->
  Z.testbit (val l) i = Z.testbit (default 0 (idx l (i / 32))) (i mod 32).
Proof.
  intros Hl Hi. destruct (idx l (i / 32)) as [x|] eqn:E; cbn [from_option id].
  - pose proof (idx_range _ _ _ E). rewrite (vsplit (i / 32) l), (vdrop_S _ _ _ E) by lia.
    pose proof (limbs_idx _ _ _ Hl E) as Hx. unfold Bpow.
    rewrite testbit_split, decide_False by (try apply vtake_range; lia || done).
    rewrite testbit_split, decide_True by (unfold limb in *; lia). f_equal. lia.
  - apply idx_None in E. rewrite Z.bits_0. pose proof (val_range l Hl).
    rewrite <- (Z.mod_small (val l) (2 ^ i)); [apply Z.mod_pow2_bits_high; lia|]. split; [lia|].
    apply Z.lt_le_trans with (Bpow (i / 32)); [apply val_beyond; [done|lia]|].
    unfold Bpow. apply Z.pow_le_mono_r; lia.
Qed.

Lemma land_1_testbit x k : 0 <= k -> Z.land (Z.shiftr x k) 1 = Z.b2z (Z.testbit x k).
Proof.
  intros Hk. change 1 with (Z.ones 1). rewrite Z.land_ones, Z.shiftr_div_pow2, Z.testbit_spec' by lia. done.
Qed.

Lemma limb_bit_spec a i : limbs a -> 0 <= i -> limb_bit a i = Some (Z.b2z (Z.testbit (val a) i)).
Proof.
  intros Ha Hi. unfold limb_bit. rewrite testbit_val by done. case_decide as Hj.
  - assert (idx a (i / 32) = None) as -> by (apply idx_None; lia). cbn [from_option]. by rewrite Z.bits_0.
  - destruct (idx_ok a (i / 32)) as [x ->]; [lia|]. cbn [from_option id mbind option_bind]. by rewrite land_1_testbit by lia.
Qed.

Lemma upd_bits a z j x : limbs a -> limb x -> upd a j x = Some z -> forall k, 0 <= k ->
  Z.testbit (val z) k = if decide (k / 32 = j) then Z.testbit x (k mod 32) else Z.testbit (val a) k.
Proof.
  intros Ha Hx Hu k Hk. rewrite !testbit_val by eauto with goish. apply upd_inv in Hu as [Hj ->].
  rewrite idx_insert by lia. destruct (decide (j = k / 32)) as [->|]; [by rewrite decide_True|]. by rewrite decide_False by congruence.
Qed.

Lemma bit_mask i : 0 <= i -> wrap32 (Z.shiftl 1 (i mod 32)) = 2 ^ (i mod 32) /\ limb (2 ^ (i mod 32)).
Proof.
  intros Hi. rewrite Z.shiftl_1_l. pose proof (Z.pow_pos_nonneg 2 (i mod 32)).
  assert (2 ^ (i mod 32) < 2 ^ 32) by (apply Z.pow_lt_mono_r; lia).
  unfold wrap32, limb. rewrite Z.mod_small by lia. lia.
Qed.

(** Combining one limb with a mask combines the value with the bit. *)
Lemma limb_op_bit op f `{BitOp op f} y i x : (forall t, f t false = t) -> limbs y -> 0 <= i -> idx y (i / 32) = Some x ->
  exists z, upd y (i / 32) (op x (2 ^ (i mod 32))) = Some z /\ limbs z /\ val z = op (val y) (2 ^ i).
Proof.
  intros Hf Hy Hi Hx. pose proof (idx_range _ _ _ Hx). pose proof (limbs_idx _ _ _ Hy Hx) as Lx.
  destruct (bit_mask i Hi) as [_ Hm]. unfold limb in Lx, Hm.
  assert (limb (op x (2 ^ (i mod 32)))) as L1 by (apply (bitop_range op f x _ 32); lia).
  destruct (upd_ok y (i / 32) (op x (2 ^ (i mod 32)))) as (z & Hu & _); [lia|].
  exists z. split; [done|]. split; [by eapply limbs_upd|].
  apply Z.bits_inj'. intros k Hk. rewrite (upd_bits _ _ _ _ Hy L1 Hu k Hk), (bitop_spec (val y)), Z.pow2_bits_eqb by lia.
  rewrite testbit_val by done. case_decide as Hkj.
  - rewrite Hkj, Hx, bitop_spec, Z.pow2_bits_eqb by lia. cbn [from_option id].
    f_equal. destruct (Z.eqb_spec (i mod 32) (k mod 32)), (Z.eqb_spec i k); lia || done.
  - destruct (Z.eqb_spec i k) as [->|]; [done|]. by rewrite Hf.
Qed.

Lemma ldiff_above a i : 0 <= i -> Z.testbit a i = false -> Z.ldiff a (2 ^ i) = a.
Proof.
  intros Hi Ha. apply Z.bits_inj'. intros k Hk. rewrite Z.ldiff_spec, Z.pow2_bits_eqb by lia.
  destruct (Z.eqb_spec i k) as [<-|]; [by rewrite Ha|apply andb_true_r].
Qed.

Lemma limb_set_bit_spec a i b : limbs a -> 0 <= i ->
  exists z, limb_set_bit a i b = Some z /\ normal z /\
    val z = if decide (b = 0) then Z.clearbit (val a) i else Z.setbit (val a) i.
Proof.
  intros Ha Hi. unfold limb_set_bit. destruct (bit_mask i Hi) as [-> Hm]. rewrite Z.clearbit_spec', Z.setbit_spec'.
  assert (forall o (v : Z), (exists z, o = Some z /\ limbs z /\ val z = v) ->
    exists z, (y ← o; Some (trim y)) = Some z /\ normal z /\ val z = v) as Htrim.
  { intros o v (z & -> & Hz & Hv). eexists. split; [done|]. split; [by apply trim_normal|]. by rewrite trim_val. }
  apply Htrim. destruct (decide (b = 0)) as [->|Hb].
  - case_decide as Hj.
    + destruct (idx_ok a (i / 32)) as [x Hx]; [lia|]. rewrite Hx, some_bind.
      rewrite land_not32 by eauto with goish.
      apply (limb_op_bit Z.ldiff (fun x y => x && negb y)); auto using andb_true_r.
    + exists a. split; [done|]. split; [done|]. rewrite ldiff_above; [done|done|].
      rewrite testbit_val by done. assert (idx a (i / 32) = None) as -> by (apply idx_None; lia).
      cbn [from_option]. apply Z.bits_0.
  - set (y := if decide (i / 32 >= zlen a) then resize (Z.to_nat (i / 32 + 1)) 0 a else a).
    assert (limbs y /\ val y = val a /\ i / 32 < zlen y) as (Hy & Hvy & Hzy).
    { unfold y. case_decide; [|split; [done|split; [done|lia]]].
      destruct (val_resize (Z.to_nat (i / 32 + 1)) a) as (V1 & V2 & V3); [unfold zlen in *; lia|done|]. auto with lia. }
    destruct (idx_ok y (i / 32)) as [x Hx]; [lia|]. rewrite Hx, some_bind, <- Hvy.
    apply (limb_op_bit Z.lor orb); auto using orb_false_r.
Qed.

(** ** Lengths in bits *)

Lemma bit_len_spec a : normal a -> bit_len a = Some (if decide (val a = 0) then 0 else Z.log2 (val a) + 1).
Proof.
  intros Ha. unfold bit_len. assert (top_index a (length a) = length a) as ->.
  { destruct Ha as [_ Ht]. unfold trimmed in Ht. rewrite list.last_lookup in Ht.
    destruct (length a) as [|n] eqn:E; [done|]. cbn [top_index]. by rewrite decide_False by (by cbn in Ht). }
  fold (zlen a). case_decide as H0.
  { apply zlen_nil_inv in H0 as ->. by rewrite decide_True. }
  destruct (normal_top a Ha) as (top & low & -> & Lt & Ht0 & Hv & Hlow); [intros ->; done|]. rewrite some_bind. unfold limb in Lt.
  assert (1 <= zlen a) by (pose proof (zlen_nonneg a); lia). pose proof (Bpow_pos (zlen a - 1) ltac:(lia)).
  rewrite decide_False by nia. f_equal. assert (leading_zeros32 top = 31 - Z.log2 top) as -> by (destruct top; lia || done).
  destruct (Z.log2_spec top ltac:(lia)) as [L1 L2]. pose proof (Z.log2_nonneg top).
  assert (Z.log2 (val a) = 32 * (zlen a - 1) + Z.log2 top) as ->; [|lia].
  apply Z.log2_unique; [lia|]. rewrite <- Z.add_succ_r, !Z.pow_add_r by lia. fold (Bpow (zlen a - 1)). nia.
Qed.

Lemma low_index_spec a : limbs a -> val a <> 0 ->
  exists x, idx a (low_index a) = Some x /\ x <> 0 /\ 0 <= low_index a < zlen a /\
    forall k, 0 <= k < low_index a -> idx a k = Some 0.
Proof.
  induction a as [|x a IH]; intros Hl Hv; [done|]. apply limbs_cons in Hl as [Hx Hl]. cbn [low_index val] in *.
  rewrite zlen_cons. pose proof (zlen_nonneg a). case_decide as H0.
  - destruct (IH Hl ltac:(lia)) as (y & Hy & Hy0 & Hi & Hk). exists y. split; [|split; [done|split; [lia|]]].
    + apply idx_Some in Hy as [_ Hy]. apply idx_Some. split; [lia|].
      by replace (Z.to_nat (1 + low_index a)) with (S (Z.to_nat (low_index a))) by lia.
    + intros k Hk'. destruct (decide (k = 0)) as [->|]; [by subst|].
      destruct (proj1 (idx_Some _ _ _) (Hk (k - 1) ltac:(lia))) as [_ E]. apply idx_Some. split; [lia|].
      by replace (Z.to_nat k) with (S (Z.to_nat (k - 1))) by lia.
  - exists x. split; [done|]. split; [done|]. split; [lia|]. lia.
Qed.

(** The number of zero bits below the lowest one. *)
Lemma trailing_zero_bits_spec a : normal a -> a <> [] ->
  exists t, trailing_zero_bits a = Some t /\ 0 <= t /\ Z.testbit (val a) t = true /\
    (forall k, 0 <= k < t -> Z.testbit (val a) k = false).
Proof.
  intros Ha Hne. pose proof (normal_pos a Ha Hne). destruct (low_index_spec a (proj1 Ha)) as (x & Hx & Hx0 & Hi & Hlow); [lia|].
  unfold trailing_zero_bits. rewrite decide_False, decide_False by (done || lia). rewrite Hx, some_bind.
  pose proof (limbs_idx _ _ _ (proj1 Ha) Hx) as Lx. unfold limb in Lx.
  destruct (trailing_zeros_spec x ltac:(lia)) as (Ht & Htrue & Hfalse).
  assert (Z.log2 x < 32) by (apply Z.log2_lt_pow2; lia).
  eexists. split; [done|]. split; [lia|]. split.
  - rewrite testbit_val by (apply Ha || lia).
    replace ((low_index a * 32 + trailing_zeros x) / 32) with (low_index a) by lia. rewrite Hx. cbn [from_option id].
    by replace ((low_index a * 32 + trailing_zeros x) mod 32) with (trailing_zeros x) by lia.
  - intros k Hk. rewrite testbit_val by (apply Ha || lia). destruct (decide (k / 32 < low_index a)).
    + rewrite Hlow by lia. apply Z.bits_0.
    + assert (k / 32 = low_index a) as -> by lia. rewrite Hx. cbn [from_option id]. apply Hfalse. lia.
Qed.
