(* ===== verification/BigInt.v ===== *)
(** Integers of any size: [Int] of src/src/math/big/mod.rs and src/src/math/big/intconv.rs.

    A method [z.F(x, y)] is a function of [x] and [y] that gives the new value of the receiver;
    the old value is an argument where the code may leave it.  A borrowed receiver cannot also be
    an operand, so that there is no aliasing.  A [None] is a panic. *)
From Stdlib Require Import ZArith Lia.
From stdpp Require Import base tactics numbers list list_numbers option.
From S2P Require Import Prelude Limbs.
Open Scope Z_scope.

Record Int := mkInt { neg : bool; abs : list Z }.

#[export] Instance Int_eq_dec : EqDecision Int.
Proof. solve_decision. Defined.

Definition is_empty (l : list Z) : bool := bool_decide (l = []).

Definition new : Int := mkInt false [].

Definition Sign (x : Int) : Z := if is_empty (abs x) then 0 else if neg x then -1 else 1.

(** Words: [as i64] of a u64, and its wrapping negation. *)
Definition as_i64 (x : Z) : Z := (x + 2 ^ 63) mod 2 ^ 64 - 2 ^ 63.

Definition SetInt64 (x : Z) : Int := mkInt (bool_decide (x < 0)) (u64_to_limbs (Z.abs x)).
Definition NewInt (x : Z) : Int := SetInt64 x.
Definition SetUint64 (x : Z) : Int := mkInt false (u64_to_limbs x).
Definition Int64 (x : Int) : Z :=
  let v := as_i64 (limbs_to_u64 (abs x)) in if neg x then as_i64 (- v) else v.
Definition Uint64 (x : Int) : Z := limbs_to_u64 (abs x).

Definition IsInt64 (x : Int) : bool :=
  if decide (zlen (abs x) > 2) then false
  else
    let w := limbs_to_u64 (abs x) in
    if neg x then bool_decide (w <= 2 ^ 63 - 1 + 1) else bool_decide (w <= 2 ^ 63 - 1).
Definition IsUint64 (x : Int) : bool := negb (neg x) && bool_decide (zlen (abs x) <= 2).

Definition ordering (c : comparison) : Z := match c with Lt => -1 | Eq => 0 | Gt => 1 end.

Definition Cmp (x y : Int) : Z :=
  if decide (Sign x < Sign y) then -1
  else if decide (Sign x > Sign y) then 1
  else match abs_cmp (abs x) (abs y) with
       | Lt => if neg x then 1 else -1
       | Eq => 0
       | Gt => if neg x then -1 else 1
       end.

Definition CmpAbs (x y : Int) : Z := ordering (abs_cmp (abs x) (abs y)).

(** ** Sums and products *)

Definition add_signed (a b : Int) : option Int :=
  if decide (neg a = neg b) then
    l ← add_limbs (abs a) (abs b);
    Some (mkInt (neg a && negb (is_empty (abs a) && is_empty (abs b))) l)
  else match abs_cmp (abs a) (abs b) with
       | Eq => Some (mkInt false [])
       | Gt => l ← sub_limbs (abs a) (abs b); Some (mkInt (neg a) l)
       | Lt => l ← sub_limbs (abs b) (abs a); Some (mkInt (neg b) l)
       end.

Definition Add (x y : Int) : option Int := add_signed x y.

Definition Sub (x y : Int) : option Int :=
  add_signed x (mkInt (negb (neg y) && negb (is_empty (abs y))) (abs y)).

Definition AddInt64 (self : Int) (delta : Z) : option Int :=
  if decide (delta = 0) then Some self else add_signed self (SetInt64 delta).

Definition Neg (x : Int) : Int := mkInt (negb (is_empty (abs x)) && negb (neg x)) (abs x).
Definition Abs (x : Int) : Int := mkInt false (abs x).

Definition Mul (x y : Int) : option Int :=
  mag ← mul_limbs (abs x) (abs y);
  Some (mkInt (negb (is_empty mag) && xorb (neg x) (neg y)) mag).

(** ** Division *)

Definition Mod (x y : Int) : option Int :=
  if is_empty (abs y) then None
  else
    '(_, r_abs) ← divmod_limbs (abs x) (abs y);
    let r_neg_t := negb (is_empty r_abs) && neg x in
    mag ← (if r_neg_t : bool then sub_limbs (abs y) r_abs else Some r_abs);
    Some (mkInt (false && negb (is_empty mag)) mag).

Definition Div (x y : Int) : option Int :=
  if is_empty (abs y) then None
  else
    '(q_abs, r_abs) ← divmod_limbs (abs x) (abs y);
    let q := mkInt (negb (is_empty q_abs) && xorb (neg x) (neg y)) q_abs in
    if negb (is_empty r_abs) && neg x then AddInt64 q (if neg y then 1 else -1) else Some q.

(** The quotient and the remainder [m]. *)
Definition DivMod (x y : Int) : option (Int * Int) :=
  if is_empty (abs y) then None
  else
    '(q_abs, r_abs) ← divmod_limbs (abs x) (abs y);
    let q := mkInt (negb (is_empty q_abs) && xorb (neg x) (neg y)) q_abs in
    if negb (is_empty r_abs) && neg x then
      rem_abs ← sub_limbs (abs y) r_abs;
      q ← AddInt64 q (if neg y then 1 else -1);
      Some (q, mkInt false rem_abs)
    else Some (q, mkInt (negb (is_empty r_abs) && neg x) r_abs).

Definition Quo (x y : Int) : option Int :=
  if is_empty (abs y) then None
  else
    '(q_abs, _) ← divmod_limbs (abs x) (abs y);
    Some (mkInt (negb (is_empty q_abs) && xorb (neg x) (neg y)) q_abs).

Definition Rem (x y : Int) : option Int :=
  if is_empty (abs y) then None
  else
    '(_, r_abs) ← divmod_limbs (abs x) (abs y);
    Some (mkInt (negb (is_empty r_abs) && neg x) r_abs).

Definition QuoRem (x y : Int) : option (Int * Int) :=
  if is_empty (abs y) then None
  else
    '(q_abs, r_abs) ← divmod_limbs (abs x) (abs y);
    Some (mkInt (negb (is_empty q_abs) && xorb (neg x) (neg y)) q_abs, mkInt (negb (is_empty r_abs) && neg x) r_abs).

(** ** Bits *)

Definition BitLen (x : Int) : option Z := bit_len (abs x).
Definition TrailingZeroBits (x : Int) : option Z := trailing_zero_bits (abs x).

Definition Bit (x : Int) (i : Z) : option Z :=
  if decide (i = 0) then
    if is_empty (abs x) then Some 0 else l ← idx (abs x) 0; Some (Z.land l 1)
  else if decide (i < 0) then None
  else if neg x then
    t ← sub_limbs (abs x) [1];
    b ← limb_bit t i;
    Some (Z.lxor b 1)
  else limb_bit (abs x) i.

Definition SetBit (x : Int) (i b : Z) : option Int :=
  if decide (i < 0) then None
  else if decide (b <> 0 /\ b <> 1) then None
  else if neg x then
    t ← sub_limbs (abs x) [1];
    t ← limb_set_bit t i (Z.lxor b 1);
    a ← add_limbs t [1];
    Some (mkInt (negb (is_empty a)) a)
  else a ← limb_set_bit (abs x) i b; Some (mkInt false a).

Definition Lsh (x : Int) (n : Z) : option Int :=
  a ← lsh_limbs (abs x) n;
  Some (mkInt (neg x && negb (is_empty a)) a).

Definition Rsh (x : Int) (n : Z) : option Int :=
  if neg x then
    t ← sub_limbs (abs x) [1];
    t ← rsh_limbs t n;
    a ← add_limbs t [1];
    Some (mkInt true a)
  else a ← rsh_limbs (abs x) n; Some (mkInt false a).

(** [x & y], [x &^ y], [x | y] and [x ^ y] on two's complement. *)
Definition And (x y : Int) : option Int :=
  if decide (neg x = neg y) then
    if neg x then
      x1 ← sub_limbs (abs x) [1];
      y1 ← sub_limbs (abs y) [1];
      o ← or_limbs x1 y1;
      a ← add_limbs o [1];
      Some (mkInt true a)
    else a ← and_limbs (abs x) (abs y); Some (mkInt false a)
  else
    let '(xp, yn) := if neg x then (y, x) else (x, y) in
    y1 ← sub_limbs (abs yn) [1];
    a ← and_not_limbs (abs xp) y1;
    Some (mkInt false a).

Definition AndNot (x y : Int) : option Int :=
  if decide (neg x = neg y) then
    if neg x then
      x1 ← sub_limbs (abs x) [1];
      y1 ← sub_limbs (abs y) [1];
      a ← and_not_limbs y1 x1;
      Some (mkInt false a)
    else a ← and_not_limbs (abs x) (abs y); Some (mkInt false a)
  else if neg x then
    x1 ← sub_limbs (abs x) [1];
    o ← or_limbs x1 (abs y);
    a ← add_limbs o [1];
    Some (mkInt true a)
  else
    y1 ← sub_limbs (abs y) [1];
    a ← and_limbs (abs x) y1;
    Some (mkInt false a).

Definition Or (x y : Int) : option Int :=
  if decide (neg x = neg y) then
    if neg x then
      x1 ← sub_limbs (abs x) [1];
      y1 ← sub_limbs (abs y) [1];
      o ← and_limbs x1 y1;
      a ← add_limbs o [1];
      Some (mkInt true a)
    else a ← or_limbs (abs x) (abs y); Some (mkInt false a)
  else
    let '(xp, yn) := if neg x then (y, x) else (x, y) in
    y1 ← sub_limbs (abs yn) [1];
    o ← and_not_limbs y1 (abs xp);
    a ← add_limbs o [1];
    Some (mkInt true a).

Definition Xor (x y : Int) : option Int :=
  if decide (neg x = neg y) then
    if neg x then
      x1 ← sub_limbs (abs x) [1];
      y1 ← sub_limbs (abs y) [1];
      a ← xor_limbs x1 y1;
      Some (mkInt false a)
    else a ← xor_limbs (abs x) (abs y); Some (mkInt false a)
  else
    let '(xp, yn) := if neg x then (y, x) else (x, y) in
    y1 ← sub_limbs (abs yn) [1];
    o ← xor_limbs (abs xp) y1;
    a ← add_limbs o [1];
    Some (mkInt (negb (is_empty a)) a).

Definition Not (x : Int) : option Int :=
  if neg x then a ← sub_limbs (abs x) [1]; Some (mkInt false a)
  else a ← add_limbs (abs x) [1]; Some (mkInt true a).

(** ** Text, bytes and words *)

(** The receiver and whether the text was an integer. *)
Definition SetString (self : Int) (s : list Z) (base : Z) : option (Int * bool) :=
  r ← scan_int s base;
  Some (match r with
        | Some (n, a) => (mkInt (n && negb (is_empty a)) a, true)
        | None => (self, false)
        end).

Definition Text (x : Int) (base : Z) : option (list Z) :=
  if decide (base < 2 \/ base > MAX_BASE) then None else itoa (neg x) (abs x) base.

Definition Append (x : Int) (buf : list Z) (base : Z) : option (list Z) :=
  if decide (base < 2 \/ base > MAX_BASE) then None
  else t ← itoa (neg x) (abs x) base; Some (buf ++ t).

Definition String (x : Int) : option (list Z) := Text x 10.
Definition AppendText (x : Int) (b : list Z) : option (list Z) := Append x b 10.
Definition MarshalText (x : Int) : option (list Z) := AppendText x [].
Definition MarshalJSON (x : Int) : option (list Z) := MarshalText x.

(** The receiver and whether there was no error. *)
Definition UnmarshalText (self : Int) (text : list Z) : option (Int * bool) :=
  r ← scan_int text 0;
  Some (match r with
        | Some (n, a) => (mkInt (n && negb (is_empty a)) a, true)
        | None => (self, false)
        end).

(** [b"null"] *)
Definition json_null : list Z := [110; 117; 108; 108].

Definition UnmarshalJSON (self : Int) (text : list Z) : option (Int * bool) :=
  if decide (text = json_null) then Some (self, true) else UnmarshalText self text.

Definition Bytes (x : Int) : option (list Z) := limbs_to_be_bytes (abs x).
Definition SetBytes (buf : list Z) : option Int := a ← be_bytes_to_limbs buf; Some (mkInt false a).

Definition FillBytes (x : Int) (buf : list Z) : option (list Z) :=
  be ← limbs_to_be_bytes (abs x);
  let n := zlen buf in
  if decide (zlen be > n) then None
  else Some (take (Z.to_nat (n - zlen be)) (zeros n) ++ be).

Definition Bits (x : Int) : list Z := limbs_to_words (abs x).
Definition SetBits (words : list Z) : Int := mkInt false (words_to_limbs words).

Definition INT_GOB_VERSION : Z := 1.

Definition GobEncode (x : Int) : option (list Z) :=
  let b := INT_GOB_VERSION * 2 in
  let b := if neg x then Z.lor b 1 else b in
  be ← limbs_to_be_bytes (abs x);
  Some (b :: be).

Definition GobDecode (self : Int) (buf : list Z) : option (Int * bool) :=
  match buf with
  | [] => Some (mkInt false [], true)
  | b :: rest =>
      if decide (Z.shiftr b 1 <> INT_GOB_VERSION) then Some (self, false)
      else a ← be_bytes_to_limbs rest; Some (mkInt (negb (bool_decide (Z.land b 1 = 0))) a, true)
  end.

(** ** Greatest common divisors and powers *)

(** [while r1.Sign() != 0] of [GCD]; each round at least halves the product of the remainders. *)
Fixpoint gcd_loop (fuel : nat) (r0 r1 ca cb da db : Int) : option (Int * Int * Int) :=
  match fuel with
  | O => None
  | S fuel =>
      if decide (Sign r1 <> 0) then
        '(q, rem) ← DivMod r0 r1;
        qda ← Mul q da;
        nca ← Sub ca qda;
        qdb ← Mul q db;
        ncb ← Sub cb qdb;
        gcd_loop fuel r1 rem da db nca ncb
      else Some (r0, ca, cb)
  end.

(** The divisor and the coefficients for [x] and [y]; a nil argument drops its coefficient. *)
Definition GCD (a b : Int) : option (Int * Int * Int) :=
  '(r0, ca, cb) ← gcd_loop (32 * (length (abs a) + length (abs b)) + 3)
                    (mkInt false (abs a)) (mkInt false (abs b)) (SetInt64 1) new new (SetInt64 1);
  Some (mkInt false (abs r0), if neg a then Neg ca else ca, if neg b then Neg cb else cb).

Definition ModInverse (self g n : Int) : option Int :=
  if is_empty (abs n) then None
  else
    let n_abs := Abs n in
    g_red ← Mod g n_abs;
    '(d, xc, _) ← GCD g_red n_abs;
    if decide (Cmp d (SetInt64 1) <> 0) then Some self
    else if neg xc then Add xc n_abs else Some xc.

(** The remainder modulo [m_abs] when there is a modulus. *)
Definition reduce (m_zero : bool) (m_abs l : list Z) : option (list Z) :=
  if m_zero then Some l else '(_, r) ← divmod_limbs l m_abs; Some r.

(** [Exp] for an exponent that is not negative: square and multiply from the lowest bit. *)
Definition exp_nonneg (x y m : Int) : option Int :=
  let m_zero := is_empty (abs m) in
  base ← reduce m_zero (abs m) (abs x);
  acc ← reduce m_zero (abs m) [1];
  total_bits ← bit_len (abs y);
  '(acc, _) ← for_range 0 total_bits (fun bit '(acc, base) =>
      limb ← idx (abs y) (bit / 32);
      acc ← (if decide (Z.land (Z.shiftr limb (bit mod 32)) 1 = 1) then p ← mul_limbs acc base; reduce m_zero (abs m) p
             else Some acc);
      base ← (if decide (bit + 1 < total_bits) then p ← mul_limbs base base; reduce m_zero (abs m) p
              else Some base);
      Some (acc, base)) (acc, base);
  y_odd ← (if is_empty (abs y) then Some false else l ← idx (abs y) 0; Some (bool_decide (Z.land l 1 = 1)));
  let ng := negb (is_empty acc) && neg x && y_odd in
  if ng && negb m_zero then acc ← sub_limbs (abs m) acc; Some (mkInt false acc)
  else Some (mkInt (ng && negb (is_empty acc)) acc).

Definition Exp (self x y m : Int) : option Int :=
  if neg y then
    if is_empty (abs m) then Some (SetInt64 1)
    else
      let m_abs := Abs m in
      x_red ← Mod x m_abs;
      '(g, _, _) ← GCD x_red m_abs;
      if decide (Cmp g (SetInt64 1) <> 0) then Some self
      else
        inv ← ModInverse new x_red m_abs;
        exp_nonneg inv (Neg y) m_abs
  else exp_nonneg x y m.

(** [loop] of [Sqrt]: Newton's iteration; each round halves the distance to the root. *)
Fixpoint sqrt_loop (fuel : nat) (x t : Int) : option Int :=
  match fuel with
  | O => None
  | S fuel =>
      q ← Div x t;
      sum ← Add t q;
      next ← Div sum (SetInt64 2);
      if decide (Cmp next t >= 0) then Some t else sqrt_loop fuel x next
  end.

Definition Sqrt (x : Int) : option Int :=
  if neg x then None
  else if is_empty (abs x) then Some (SetInt64 0)
  else if decide (Cmp x (SetInt64 1) = 0) then Some (SetInt64 1)
  else
    bl ← BitLen x;
    t ← Lsh (SetInt64 1) ((bl + 1) / 2);
    t ← sqrt_loop (16 * length (abs x) + 4) x t;
    Some (mkInt false (abs t)).

(** ** Products of ranges *)

Definition MulRange (a b : Z) : option Int :=
  if decide (a > b) then Some (SetInt64 1)
  else if decide (a <= 0 /\ b >= 0) then Some (SetInt64 0)
  else
    '(ng, lo, hi) ← (if decide (a < 0) then
                       d ← chki64 (b - a);
                       nb ← chki64 (- b);
                       na ← chki64 (- a);
                       Some (bool_decide (Z.land d 1 = 0), nb, na)
                     else Some (false, a, b));
    l ← for_range lo (hi + 1) (fun n l => mul_limbs l (u64_to_limbs n)) (u64_to_limbs 1);
    Some (mkInt (ng && negb (is_empty l)) l).

(** [while ival < k] of [Binomial]. *)
Definition Binomial (n k : Z) : option Int :=
  if decide (k < 0 \/ k > n) then Some (SetInt64 0)
  else
    let k := if decide (k > n - k) then n - k else k in
    for_range 0 k (fun ival z =>
      z ← Mul z (SetInt64 (n - ival));
      Quo z (SetInt64 (ival + 1))) (SetInt64 1).
