(* ===== verification/BigIntSpec.v ===== *)
(** [Int] implements the integers: every method of [BigInt] keeps the representation and
    computes its operation on [Z], on two's complement for the bitwise ones. *)
From Stdlib Require Import ZArith Lia.
From stdpp Require Import base tactics numbers list list_numbers option.
From S2P Require Import Prelude Limbs LimbsSpec LimbsDiv LimbsBits BigInt.
Open Scope Z_scope.

(** ** Representation *)

Definition toZ (x : Int) : Z := if neg x then - val (abs x) else val (abs x).

(** The type invariant: a trimmed magnitude, and no negative zero. *)
Definition wf (x : Int) : Prop := normal (abs x) /\ (neg x = true -> abs x <> []).

Definition repr (x : Int) (z : Z) : Prop := wf x /\ toZ x = z.

(** The call returns, with an [Int] that stands for [z]. *)
Definition returns (o : option Int) (z : Z) : Prop := exists x, o = Some x /\ repr x z.

Lemma repr_elim x z : repr x z ->
  normal (abs x) /\ (if neg x then 0 < val (abs x) /\ z = - val (abs x) else 0 <= val (abs x) /\ z = val (abs x)).
Proof.
  intros [[Hn Hneg] <-]. split; [done|]. unfold toZ. destruct (neg x).
  - split; [apply normal_pos; auto|done].
  - split; [apply val_range, Hn|done].
Qed.

Lemma repr_intro b l z : normal l -> (b = true -> val l <> 0) -> z = (if b then - val l else val l) -> repr (mkInt b l) z.
Proof.
  intros Hl Hb ->. split; [split; [done|]|done]. cbn. intros H ->. by apply Hb.
Qed.

Lemma wf_repr x : wf x -> repr x (toZ x).
Proof. done. Qed.

(** An integer has one representation. *)
Lemma repr_inj x y z : repr x z -> repr y z -> x = y.
Proof.
  intros [Hx Ex]%repr_elim [Hy Ey]%repr_elim. destruct x as [nx lx], y as [ny ly]. cbn in *.
  destruct nx, ny; try lia; f_equal; apply normal_inj; (done || lia).
Qed.

Lemma is_empty_val l : normal l -> is_empty l = bool_decide (val l = 0).
Proof. intros Hl. unfold is_empty. apply bool_decide_ext. by rewrite normal_zero. Qed.

Lemma normal_one : normal [1] /\ val [1] = 1.
Proof. split; [|done]. split; [repeat constructor; unfold limb; lia|done]. Qed.

Lemma sub_limbs_ok a b : normal a -> normal b -> val b <= val a ->
  exists c, sub_limbs a b = Some c /\ normal c /\ val c = val a - val b.
Proof. intros Ha Hb Hle. pose proof (sub_limbs_spec a b Ha Hb) as H. by rewrite decide_True in H. Qed.

(** Takes [repr x z] apart into the sign and the magnitude. *)
Ltac take_repr x H := let n := fresh "n" x in let l := fresh "l" x in let Hl := fresh "N" x in let E := fresh "E" x in
  destruct (repr_elim _ _ H) as [Hl E]; clear H; destruct x as [n l]; cbn [neg abs] in *.

Lemma repr_abs x z : repr x z -> repr (mkInt false (abs x)) (Z.abs z).
Proof. intros Hx. take_repr x Hx. apply repr_intro; [done|done|]. destruct nx; lia. Qed.

(** The sign flag that the code computes for a magnitude. *)
Lemma repr_signed (b : bool) l z : normal l -> z = (if b then - val l else val l) -> repr (mkInt (negb (is_empty l) && b) l) z.
Proof.
  intros Hl ->. rewrite is_empty_val by done. case_bool_decide as H0; cbn [negb andb].
  - apply repr_intro; [done|done|]. destruct b; lia.
  - by apply repr_intro.
Qed.

(** ** Conversions of words *)

Lemma SetInt64_repr x : - 2 ^ 63 <= x < 2 ^ 63 -> repr (SetInt64 x) x.
Proof.
  intros Hx. destruct (u64_to_limbs_spec (Z.abs x)) as [Hl Hv]; [lia|]. apply repr_intro; [done| |]; rewrite Hv; case_bool_decide; lia.
Qed.

Lemma SetUint64_repr x : 0 <= x < 2 ^ 64 -> repr (SetUint64 x) x.
Proof. intros Hx. destruct (u64_to_limbs_spec x Hx) as [Hl Hv]. by apply repr_intro. Qed.

Lemma new_repr : repr new 0.
Proof. apply repr_intro; [apply normal_nil|done|done]. Qed.

Lemma repr_1 : repr (SetInt64 1) 1.
Proof. apply SetInt64_repr. lia. Qed.

#[export] Hint Resolve new_repr repr_1 : goish.

(** ** Comparison *)

Lemma Sign_spec x z : repr x z -> Sign x = Z.sgn z.
Proof.
  intros Hx. take_repr x Hx. unfold Sign. cbn [abs neg]. rewrite is_empty_val by done.
  case_bool_decide; destruct nx; lia.
Qed.

Lemma Cmp_spec x y a b : repr x a -> repr y b -> Cmp x y = ordering (a ?= b).
Proof.
  intros Hx Hy. unfold Cmp. rewrite (Sign_spec x a), (Sign_spec y b) by done. take_repr x Hx. take_repr y Hy.
  rewrite abs_cmp_spec by done. case_decide; [|case_decide].
  - assert (a < b) as ->%Z.compare_lt_iff by lia. done.
  - assert (b < a) as ->%Z.compare_gt_iff by lia. done.
  - destruct (Z.compare_spec (val lx) (val ly)), (Z.compare_spec a b); destruct nx, ny; cbn; lia.
Qed.

Lemma ordering_inj c d : ordering c = ordering d -> c = d.
Proof. by destruct c, d. Qed.

Lemma Cmp_eq x y a b : repr x a -> repr y b -> Cmp x y = 0 <-> a = b.
Proof.
  intros Hx Hy. rewrite (Cmp_spec x y a b) by done. destruct (Z.compare_spec a b); cbn; lia.
Qed.

Lemma Cmp_ge x y a b : repr x a -> repr y b -> Cmp x y >= 0 <-> b <= a.
Proof. intros Hx Hy. rewrite (Cmp_spec x y a b) by done. destruct (Z.compare_spec a b); cbn; lia. Qed.

(** ** Sums and products *)

Lemma add_signed_spec x y a b : repr x a -> repr y b -> returns (add_signed x y) (a + b).
Proof.
  intros Hx Hy. take_repr x Hx. take_repr y Hy. unfold add_signed. cbn [neg abs]. case_decide as E.
  - destruct (add_limbs_spec lx ly (proj1 Nx) (proj1 Ny)) as (c & -> & Hc & Hv). rewrite some_bind.
    eexists. split; [done|]. rewrite !is_empty_val by done. subst ny.
    apply repr_intro; [done| |]; destruct nx; repeat case_bool_decide; cbn; lia.
  - rewrite abs_cmp_spec by done. destruct (Z.compare_spec (val lx) (val ly)) as [H|H|H].
    + eexists. split; [done|]. apply repr_intro; [apply normal_nil|done|]. destruct nx, ny; cbn; done || lia.
    + destruct (sub_limbs_ok ly lx Ny Nx) as (c & -> & Hc & Hv); [lia|]. rewrite some_bind.
      eexists. split; [done|]. apply repr_intro; [done|lia|]. destruct nx, ny; done || lia.
    + destruct (sub_limbs_ok lx ly Nx Ny) as (c & -> & Hc & Hv); [lia|]. rewrite some_bind.
      eexists. split; [done|]. apply repr_intro; [done|lia|]. destruct nx, ny; done || lia.
Qed.

Lemma Add_spec x y a b : repr x a -> repr y b -> returns (Add x y) (a + b).
Proof. apply add_signed_spec. Qed.

Lemma Neg_spec x a : repr x a -> repr (Neg x) (- a).
Proof. intros Hx. take_repr x Hx. apply repr_signed; [done|]. destruct nx; cbn; lia. Qed.

Lemma Sub_spec x y a b : repr x a -> repr y b -> returns (Sub x y) (a - b).
Proof.
  intros Hx Hy. unfold Sub. rewrite andb_comm. rewrite <- Z.add_opp_r. apply add_signed_spec; [done|].
  apply (Neg_spec y b Hy).
Qed.

Lemma AddInt64_spec x a d : repr x a -> - 2 ^ 63 <= d < 2 ^ 63 -> returns (AddInt64 x d) (a + d).
Proof.
  intros Hx Hd. unfold AddInt64. case_decide as H0.
  - exists x. subst d. by rewrite Z.add_0_r.
  - apply add_signed_spec; [done|by apply SetInt64_repr].
Qed.

Lemma Abs_spec x a : repr x a -> repr (Abs x) (Z.abs a).
Proof. apply repr_abs. Qed.

Lemma Mul_spec x y a b : repr x a -> repr y b -> returns (Mul x y) (a * b).
Proof.
  intros Hx Hy. take_repr x Hx. take_repr y Hy. unfold Mul. cbn [neg abs].
  destruct (mul_limbs_spec lx ly (proj1 Nx) (proj1 Ny)) as (c & -> & Hc & Hv). rewrite some_bind.
  eexists. split; [done|]. apply repr_signed; [done|]. rewrite Hv. destruct nx, ny; cbn [xorb]; lia.
Qed.

(** ** Division *)

(** Euclidean quotient and remainder: the remainder is never negative. *)
Definition ediv (a b : Z) : Z := Z.sgn b * (a / Z.abs b).
Definition emod (a b : Z) : Z := a mod Z.abs b.

Lemma euclid_exact a b : b <> 0 -> a = b * ediv a b + emod a b /\ 0 <= emod a b < Z.abs b.
Proof.
  intros Hb. unfold ediv, emod. pose proof (Z.div_mod a (Z.abs b) ltac:(lia)).
  pose proof (Z.mod_pos_bound a (Z.abs b) ltac:(lia)). split; [|lia].
  destruct (Z.lt_trichotomy b 0) as [H1|[H1|H1]]; [|lia|].
  - rewrite Z.sgn_neg, Z.abs_neq in * by lia. lia.
  - rewrite Z.sgn_pos, Z.abs_eq in * by lia. lia.
Qed.

Lemma is_empty_repr x a : repr x a -> is_empty (abs x) = bool_decide (a = 0).
Proof. intros Hx. take_repr x Hx. rewrite is_empty_val by done. apply bool_decide_ext. destruct nx; lia. Qed.

Lemma repr_mag x a : repr x a -> normal (abs x) /\ val (abs x) = Z.abs a.
Proof. intros Hx. take_repr x Hx. split; [done|]. destruct nx; lia. Qed.

Lemma divmod_repr x y a b : repr x a -> repr y b -> b <> 0 ->
  exists q r, divmod_limbs (abs x) (abs y) = Some (q, r) /\ normal q /\ normal r /\
    val q = Z.abs a / Z.abs b /\ val r = Z.abs a mod Z.abs b /\ val (abs y) = Z.abs b /\ normal (abs y).
Proof.
  intros Hx Hy Hb. take_repr x Hx. take_repr y Hy.
  destruct (divmod_limbs_spec lx ly Nx Ny) as (q & r & H & Hq & Hr & Vq & Vr); [intros ->; destruct ny; cbn in *; lia|].
  exists q, r. split; [done|]. split; [done|]. split; [done|].
  assert (val lx = Z.abs a) as <- by (destruct nx; lia). assert (val ly = Z.abs b) as <- by (destruct ny; lia). done.
Qed.

(** What the correction of a negative remainder computes. *)
Lemma euclid_neg a b : a < 0 -> 0 < b ->
  if decide (Z.abs a mod b = 0) then a / b = - (Z.abs a / b) /\ a mod b = 0
  else a / b = - (Z.abs a / b) - 1 /\ a mod b = b - Z.abs a mod b.
Proof.
  intros Ha Hb. rewrite Z.abs_neq by lia. case_decide as H.
  - rewrite <- (Z.opp_involutive a) at 1 3. by rewrite Z.div_opp_l_z, Z.mod_opp_l_z by lia.
  - rewrite <- (Z.opp_involutive a) at 1 3. by rewrite Z.div_opp_l_nz, Z.mod_opp_l_nz by lia.
Qed.

Lemma neg_repr x a : repr x a -> neg x = bool_decide (a < 0).
Proof. intros Hx. take_repr x Hx. destruct nx; case_bool_decide; lia || done. Qed.

(** The quotient and the remainder before the correction, and the test for it. *)
Lemma quotient_repr q_abs a b x y : normal q_abs -> val q_abs = Z.abs a / Z.abs b -> repr x a -> repr y b -> b <> 0 ->
  repr (mkInt (negb (is_empty q_abs) && xorb (neg x) (neg y)) q_abs) (Z.quot a b).
Proof.
  intros Hq Vq Hx Hy Hb. apply repr_signed; [done|]. rewrite Z.quot_div, Vq by done.
  rewrite (neg_repr x a), (neg_repr y b) by done. repeat case_bool_decide; cbn [xorb];
  [rewrite (Z.sgn_neg a), (Z.sgn_neg b) by lia|rewrite (Z.sgn_neg a), (Z.sgn_pos b) by lia| |]; try lia.
  - destruct (decide (a = 0)) as [->|]; [done|]. rewrite (Z.sgn_pos a), (Z.sgn_neg b) by lia. lia.
  - destruct (decide (a = 0)) as [->|]; [done|]. rewrite (Z.sgn_pos a), (Z.sgn_pos b) by lia. lia.
Qed.

Lemma remainder_repr r_abs a b x : normal r_abs -> val r_abs = Z.abs a mod Z.abs b -> repr x a -> b <> 0 ->
  repr (mkInt (negb (is_empty r_abs) && neg x) r_abs) (Z.rem a b).
Proof.
  intros Hr Vr Hx Hb. apply repr_signed; [done|]. rewrite Z.rem_mod, Vr by done. rewrite (neg_repr x a) by done.
  case_bool_decide; [rewrite Z.sgn_neg by lia; lia|].
  destruct (decide (a = 0)) as [->|]; [by rewrite Z.sgn_0, Z.mod_0_l by lia|]. rewrite Z.sgn_pos by lia. lia.
Qed.

Lemma correct_repr r_abs a b x : normal r_abs -> val r_abs = Z.abs a mod Z.abs b -> repr x a -> b <> 0 ->
  if negb (is_empty r_abs) && neg x
  then ediv a b = Z.quot a b + (if decide (b < 0) then 1 else -1) /\ emod a b = Z.abs b - val r_abs
  else ediv a b = Z.quot a b /\ emod a b = val r_abs.
Proof.
  intros Hr Vr Hx Hb. rewrite is_empty_val, (neg_repr x a), Vr by done. unfold ediv, emod. rewrite Z.quot_div by done.
  destruct (decide (a < 0)) as [Ha|Ha].
  - pose proof (euclid_neg a (Z.abs b) Ha ltac:(lia)) as H. rewrite (bool_decide_true (a < 0)), andb_true_r by done.
    rewrite (Z.sgn_neg a) by lia. case_bool_decide as H0; cbn [negb].
    + rewrite decide_True in H by done. destruct H as [-> ->]. rewrite H0. lia.
    + rewrite decide_False in H by done. destruct H as [-> ->]. split; [|done].
      destruct (Z.lt_trichotomy b 0) as [Hb'|[Hb'|Hb']]; [|lia|].
      * rewrite (Z.sgn_neg b), decide_True by lia. lia.
      * rewrite (Z.sgn_pos b), decide_False by lia. lia.
  - rewrite (bool_decide_false (a < 0)), andb_false_r by done. rewrite (Z.abs_eq a) by lia. split; [|done].
    destruct (decide (a = 0)) as [->|]; [by rewrite Z.div_0_l, !Z.mul_0_r by lia|]. rewrite (Z.sgn_pos a) by lia. lia.
Qed.

(** The calls that divide, up to their test for a zero divisor. *)
Lemma divisor_nonzero {A} y b (o : option A) : repr y b -> b <> 0 -> (if is_empty (abs y) then None else o) = o.
Proof. intros Hy Hb. by rewrite (is_empty_repr y b), bool_decide_false by done. Qed.

Lemma Quo_spec x y a b : repr x a -> repr y b -> b <> 0 -> returns (Quo x y) (Z.quot a b).
Proof.
  intros Hx Hy Hb. unfold Quo. rewrite (divisor_nonzero y b) by done.
  destruct (divmod_repr x y a b Hx Hy Hb) as (q & r & -> & Hq & Hr & Vq & Vr & _). rewrite some_bind.
  eexists. split; [done|]. by apply quotient_repr.
Qed.

Lemma Rem_spec x y a b : repr x a -> repr y b -> b <> 0 -> returns (Rem x y) (Z.rem a b).
Proof.
  intros Hx Hy Hb. unfold Rem. rewrite (divisor_nonzero y b) by done.
  destruct (divmod_repr x y a b Hx Hy Hb) as (q & r & -> & Hq & Hr & Vq & Vr & _). rewrite some_bind.
  eexists. split; [done|]. by apply remainder_repr.
Qed.

Lemma QuoRem_spec x y a b : repr x a -> repr y b -> b <> 0 ->
  exists q r, QuoRem x y = Some (q, r) /\ repr q (Z.quot a b) /\ repr r (Z.rem a b).
Proof.
  intros Hx Hy Hb. unfold QuoRem. rewrite (divisor_nonzero y b) by done.
  destruct (divmod_repr x y a b Hx Hy Hb) as (q & r & -> & Hq & Hr & Vq & Vr & _). rewrite some_bind.
  do 2 eexists. split; [done|]. split; [by apply quotient_repr|by apply remainder_repr].
Qed.

Lemma Mod_spec x y a b : repr x a -> repr y b -> b <> 0 -> returns (Mod x y) (emod a b).
Proof.
  intros Hx Hy Hb. unfold Mod. rewrite (divisor_nonzero y b) by done.
  destruct (divmod_repr x y a b Hx Hy Hb) as (q & r & -> & Hq & Hr & Vq & Vr & Vy & Ny). rewrite some_bind.
  pose proof (correct_repr r a b x Hr Vr Hx Hb) as H. pose proof (Z.mod_pos_bound (Z.abs a) (Z.abs b) ltac:(lia)).
  destruct (negb (is_empty r) && neg x); destruct H as [_ ->].
  - destruct (sub_limbs_ok (abs y) r Ny Hr) as (c & -> & Hc & Vc); [lia|]. rewrite some_bind.
    eexists. split; [done|]. apply repr_intro; [done|done|]. cbn [andb]. lia.
  - rewrite some_bind. eexists. split; [done|]. by apply repr_intro.
Qed.

Lemma correction_repr q y b z : repr q z -> repr y b -> b <> 0 ->
  returns (AddInt64 q (if neg y then 1 else -1)) (z + (if decide (b < 0) then 1 else -1)).
Proof.
  intros Hq Hy Hb. rewrite (neg_repr y b) by done. case_bool_decide.
  - rewrite decide_True by done. apply AddInt64_spec; [done|lia].
  - rewrite decide_False by done. apply AddInt64_spec; [done|lia].
Qed.

Lemma Div_spec x y a b : repr x a -> repr y b -> b <> 0 -> returns (Div x y) (ediv a b).
Proof.
  intros Hx Hy Hb. unfold Div. rewrite (divisor_nonzero y b) by done.
  destruct (divmod_repr x y a b Hx Hy Hb) as (q & r & -> & Hq & Hr & Vq & Vr & _). rewrite some_bind.
  pose proof (correct_repr r a b x Hr Vr Hx Hb) as H. pose proof (quotient_repr q a b x y Hq Vq Hx Hy Hb) as Hqr.
  destruct (negb (is_empty r) && neg x); destruct H as [-> _]; [by apply correction_repr|by eexists].
Qed.

Lemma DivMod_spec x y a b : repr x a -> repr y b -> b <> 0 ->
  exists q m, DivMod x y = Some (q, m) /\ repr q (ediv a b) /\ repr m (emod a b).
Proof.
  intros Hx Hy Hb. unfold DivMod. rewrite (divisor_nonzero y b) by done.
  destruct (divmod_repr x y a b Hx Hy Hb) as (q & r & -> & Hq & Hr & Vq & Vr & Vy & Ny). rewrite some_bind.
  pose proof (correct_repr r a b x Hr Vr Hx Hb) as H. pose proof (quotient_repr q a b x y Hq Vq Hx Hy Hb) as Hqr.
  pose proof (Z.mod_pos_bound (Z.abs a) (Z.abs b) ltac:(lia)).
  destruct (negb (is_empty r) && neg x) eqn:Hn; destruct H as [-> ->].
  - destruct (sub_limbs_ok (abs y) r Ny Hr) as (c & -> & Hc & Vc); [lia|]. rewrite some_bind.
    destruct (correction_repr _ y b _ Hqr Hy Hb) as (q' & -> & Hq'). rewrite some_bind.
    do 2 eexists. split; [done|]. split; [done|]. apply repr_intro; [done|done|]. lia.
  - do 2 eexists. split; [done|]. split; [done|]. by apply repr_intro.
Qed.

Lemma divide_by_zero x y a : repr y 0 -> repr x a ->
  Quo x y = None /\ Rem x y = None /\ QuoRem x y = None /\ Div x y = None /\ Mod x y = None /\ DivMod x y = None.
Proof.
  intros Hy Hx. unfold Quo, Rem, QuoRem, Div, Mod, DivMod. by rewrite (is_empty_repr y 0 Hy).
Qed.

(** ** Bitwise operations *)

Lemma sub_one l : normal l -> 0 < val l -> exists c, sub_limbs l [1] = Some c /\ normal c /\ val c = val l - 1.
Proof. intros Hl Hv. apply sub_limbs_ok; [done|apply normal_one|cbn; lia]. Qed.

Lemma add_one l : normal l -> exists c, add_limbs l [1] = Some c /\ normal c /\ val c = val l + 1.
Proof. intros Hl. apply add_limbs_spec; [apply Hl|apply normal_one]. Qed.

(** Identities of two's complement, checked bit by bit. *)
Ltac bitwise := intros; apply Z.bits_inj'; let i := fresh "i" in let Hi := fresh "Hi" in intros i Hi;
  rewrite ?Z.land_spec, ?Z.lor_spec, ?Z.lxor_spec, ?Z.ldiff_spec, ?Z.lnot_spec by done;
  rewrite ?Z.land_spec, ?Z.lor_spec, ?Z.lxor_spec, ?Z.ldiff_spec, ?Z.lnot_spec by done;
  repeat match goal with |- context [Z.testbit ?x i] => destruct (Z.testbit x i) end; done.

Lemma land_lnot_lnot a b : Z.land (Z.lnot a) (Z.lnot b) = Z.lnot (Z.lor a b).
Proof. bitwise. Qed.
Lemma lor_lnot_lnot a b : Z.lor (Z.lnot a) (Z.lnot b) = Z.lnot (Z.land a b).
Proof. bitwise. Qed.
Lemma lor_lnot_r a b : Z.lor a (Z.lnot b) = Z.lnot (Z.ldiff b a).
Proof. bitwise. Qed.
Lemma lxor_lnot_lnot a b : Z.lxor (Z.lnot a) (Z.lnot b) = Z.lxor a b.
Proof. bitwise. Qed.
Lemma lxor_lnot_r a b : Z.lxor a (Z.lnot b) = Z.lnot (Z.lxor a b).
Proof. bitwise. Qed.
Lemma ldiff_lnot_lnot a b : Z.ldiff (Z.lnot a) (Z.lnot b) = Z.ldiff b a.
Proof. bitwise. Qed.
Lemma ldiff_lnot_l a b : Z.ldiff (Z.lnot a) b = Z.lnot (Z.lor a b).
Proof. bitwise. Qed.
Lemma ldiff_lnot_r a b : Z.ldiff a (Z.lnot b) = Z.land a b.
Proof. bitwise. Qed.
Lemma land_lnot_r a b : Z.land a (Z.lnot b) = Z.ldiff a b.
Proof. bitwise. Qed.
Lemma setbit_lnot a i : 0 <= i -> Z.setbit (Z.lnot a) i = Z.lnot (Z.clearbit a i).
Proof. intros. rewrite Z.setbit_spec', Z.clearbit_spec', Z.lor_comm. apply lor_lnot_r. Qed.
Lemma clearbit_lnot a i : 0 <= i -> Z.clearbit (Z.lnot a) i = Z.lnot (Z.setbit a i).
Proof. intros. rewrite Z.setbit_spec', Z.clearbit_spec'. apply ldiff_lnot_l. Qed.

Lemma neg_lnot a v : a = - v -> a = Z.lnot (v - 1).
Proof. intros ->. unfold Z.lnot. lia. Qed.

(** A negative operand as the complement of the magnitude the code works with. *)
Ltac complement l c Hc Vc := match goal with
  H : 0 < val l /\ ?z = - val l |- _ =>
      let Hp := fresh in let Hz := fresh in destruct H as [Hp Hz]; apply neg_lnot in Hz;
      destruct (sub_one l ltac:(assumption) Hp) as (c & -> & Hc & Vc); rewrite some_bind; rewrite <- Vc in Hz; subst z end.

Lemma repr_lnot l v : normal l -> val l = v + 1 -> 0 <= v -> repr (mkInt true l) (Z.lnot v).
Proof. intros Hl Hv H0. apply repr_intro; [done|lia|]. unfold Z.lnot. lia. Qed.

(** The complement of the magnitude [o], which the code forms by adding one. *)
Lemma returns_lnot o : normal o -> returns (a ← add_limbs o [1]; Some (mkInt true a)) (Z.lnot (val o)).
Proof.
  intros Ho. destruct (add_one o Ho) as (c & -> & Hc & Vc). rewrite some_bind. eexists. split; [done|].
  apply repr_lnot; [done|done|]. apply val_range, Ho.
Qed.

Lemma returns_pos o v : (exists z, o = Some z /\ normal z /\ val z = v) -> returns (a ← o; Some (mkInt false a)) v.
Proof. intros (z & -> & Hz & <-). rewrite some_bind. eexists. split; [done|]. by apply repr_intro. Qed.

Lemma Not_spec x a : repr x a -> returns (Not x) (Z.lnot a).
Proof.
  intros Hx. take_repr x Hx. unfold Not. cbn [neg abs]. destruct nx.
  - complement lx c Hc Vc. rewrite Z.lnot_involutive. eexists. split; [done|]. by apply repr_intro.
  - destruct Ex as [_ ->]. by apply returns_lnot.
Qed.

Lemma And_spec x y a b : repr x a -> repr y b -> returns (And x y) (Z.land a b).
Proof.
  intros Hx Hy. take_repr x Hx. take_repr y Hy. unfold And. cbn [neg abs].
  destruct nx, ny; [rewrite decide_True by done|rewrite decide_False by done..|rewrite decide_True by done]; cbn [neg abs].
  - complement lx c Hc Vc. complement ly d Hd Vd. destruct (or_limbs_spec c d) as (o & -> & Ho & Vo); [apply Hc|apply Hd|].
    rewrite some_bind, land_lnot_lnot, <- Vo. by apply returns_lnot.
  - complement lx c Hc Vc. destruct Ey as [_ ->]. rewrite Z.land_comm, land_lnot_r.
    apply returns_pos, and_not_limbs_spec; [apply Ny|apply Hc].
  - complement ly d Hd Vd. destruct Ex as [_ ->]. rewrite land_lnot_r.
    apply returns_pos, and_not_limbs_spec; [apply Nx|apply Hd].
  - destruct Ex as [_ ->], Ey as [_ ->]. apply returns_pos, and_limbs_spec; [apply Nx|apply Ny].
Qed.

Lemma AndNot_spec x y a b : repr x a -> repr y b -> returns (AndNot x y) (Z.ldiff a b).
Proof.
  intros Hx Hy. take_repr x Hx. take_repr y Hy. unfold AndNot. cbn [neg abs].
  destruct nx, ny; [rewrite decide_True by done|rewrite decide_False by done..|rewrite decide_True by done]; cbn [neg abs].
  - complement lx c Hc Vc. complement ly d Hd Vd. rewrite ldiff_lnot_lnot.
    apply returns_pos, and_not_limbs_spec; [apply Hd|apply Hc].
  - complement lx c Hc Vc. destruct Ey as [_ ->]. destruct (or_limbs_spec c ly) as (o & -> & Ho & Vo); [apply Hc|apply Ny|].
    rewrite some_bind, ldiff_lnot_l, <- Vo. by apply returns_lnot.
  - complement ly d Hd Vd. destruct Ex as [_ ->]. rewrite ldiff_lnot_r. apply returns_pos, and_limbs_spec; [apply Nx|apply Hd].
  - destruct Ex as [_ ->], Ey as [_ ->]. apply returns_pos, and_not_limbs_spec; [apply Nx|apply Ny].
Qed.

Lemma Or_spec x y a b : repr x a -> repr y b -> returns (Or x y) (Z.lor a b).
Proof.
  intros Hx Hy. take_repr x Hx. take_repr y Hy. unfold Or. cbn [neg abs].
  destruct nx, ny; [rewrite decide_True by done|rewrite decide_False by done..|rewrite decide_True by done]; cbn [neg abs].
  - complement lx c Hc Vc. complement ly d Hd Vd. destruct (and_limbs_spec c d) as (o & -> & Ho & Vo); [apply Hc|apply Hd|].
    rewrite some_bind, lor_lnot_lnot, <- Vo. by apply returns_lnot.
  - complement lx c Hc Vc. destruct Ey as [_ ->]. destruct (and_not_limbs_spec c ly) as (o & -> & Ho & Vo); [apply Hc|apply Ny|].
    rewrite some_bind, Z.lor_comm, lor_lnot_r, <- Vo. by apply returns_lnot.
  - complement ly d Hd Vd. destruct Ex as [_ ->]. destruct (and_not_limbs_spec d lx) as (o & -> & Ho & Vo); [apply Hd|apply Nx|].
    rewrite some_bind, lor_lnot_r, <- Vo. by apply returns_lnot.
  - destruct Ex as [_ ->], Ey as [_ ->]. apply returns_pos, or_limbs_spec; [apply Nx|apply Ny].
Qed.

Lemma returns_lnot_flag o : normal o ->
  returns (a ← add_limbs o [1]; Some (mkInt (negb (is_empty a)) a)) (Z.lnot (val o)).
Proof.
  intros Ho. destruct (returns_lnot o Ho) as (x & E & Hx). destruct (add_one o Ho) as (c & Hc & Nc & Vc).
  rewrite Hc in *. rewrite !some_bind in *. injection E as <-. rewrite is_empty_val by done.
  pose proof (val_range o (proj1 Ho)). rewrite bool_decide_false by lia. by eexists.
Qed.

Lemma Xor_spec x y a b : repr x a -> repr y b -> returns (Xor x y) (Z.lxor a b).
Proof.
  intros Hx Hy. take_repr x Hx. take_repr y Hy. unfold Xor. cbn [neg abs].
  destruct nx, ny; [rewrite decide_True by done|rewrite decide_False by done..|rewrite decide_True by done]; cbn [neg abs].
  - complement lx c Hc Vc. complement ly d Hd Vd. rewrite lxor_lnot_lnot. apply returns_pos, xor_limbs_spec; [apply Hc|apply Hd].
  - complement lx c Hc Vc. destruct Ey as [_ ->]. destruct (xor_limbs_spec ly c) as (o & -> & Ho & Vo); [apply Ny|apply Hc|].
    rewrite some_bind, Z.lxor_comm, lxor_lnot_r, <- Vo. by apply returns_lnot_flag.
  - complement ly d Hd Vd. destruct Ex as [_ ->]. destruct (xor_limbs_spec lx d) as (o & -> & Ho & Vo); [apply Nx|apply Hd|].
    rewrite some_bind, lxor_lnot_r, <- Vo. by apply returns_lnot_flag.
  - destruct Ex as [_ ->], Ey as [_ ->]. apply returns_pos, xor_limbs_spec; [apply Nx|apply Ny].
Qed.

Lemma Lsh_spec x a n : repr x a -> 0 <= n -> returns (Lsh x n) (Z.shiftl a n).
Proof.
  intros Hx Hn. take_repr x Hx. unfold Lsh. cbn [neg abs]. destruct (lsh_limbs_spec lx n Nx Hn) as (c & -> & Hc & Vc).
  rewrite some_bind. eexists. split; [done|]. rewrite andb_comm. apply repr_signed; [done|].
  rewrite Z.shiftl_mul_pow2, Vc by done. destruct nx; lia.
Qed.

Lemma shiftr_lnot a n : 0 <= n -> Z.shiftr (Z.lnot a) n = Z.lnot (Z.shiftr a n).
Proof.
  intros Hn. apply Z.bits_inj'. intros i Hi. rewrite Z.shiftr_spec, !Z.lnot_spec, Z.shiftr_spec by lia. done.
Qed.

Lemma Rsh_spec x a n : repr x a -> 0 <= n -> returns (Rsh x n) (Z.shiftr a n).
Proof.
  intros Hx Hn. take_repr x Hx. unfold Rsh. cbn [neg abs]. destruct nx.
  - complement lx c Hc Vc. destruct (rsh_limbs_spec c n (proj1 Hc) Hn) as (d & -> & Hd & Vd). rewrite some_bind.
    rewrite shiftr_lnot, (Z.shiftr_div_pow2 (val c)), <- Vd by done. by apply returns_lnot.
  - destruct Ex as [_ ->]. rewrite Z.shiftr_div_pow2 by done. apply returns_pos, rsh_limbs_spec; [apply Nx|done].
Qed.

Lemma Bit_spec x a i : repr x a -> 0 <= i -> Bit x i = Some (Z.b2z (Z.testbit a i)).
Proof.
  intros Hx Hi. take_repr x Hx. unfold Bit. cbn [neg abs].
  rewrite is_empty_val by done. destruct (decide (i = 0)) as [H0|H0].
  - subst i. case_bool_decide as Hv; [destruct nx; [lia|]; destruct Ex as [_ ->]; by rewrite Hv|].
    assert (0 < zlen lx) as Hz by (destruct lx; [done|]; rewrite zlen_cons; pose proof (zlen_nonneg lx); lia).
    destruct (idx_ok lx 0 ltac:(lia)) as [w Hw]. rewrite Hw, some_bind. f_equal.
    assert (Z.testbit a 0 = Z.testbit (val lx) 0) as ->.
    { destruct nx; destruct Ex as [_ ->]; [|done]. rewrite !Z.bit0_odd. apply Z.odd_opp. }
    rewrite testbit_val by (apply Nx || lia). change (0 / 32) with 0. change (0 mod 32) with 0. rewrite Hw. cbn [from_option id].
    rewrite <- (land_1_testbit w 0) by lia. by rewrite Z.shiftr_0_r.
  - rewrite decide_False by lia. destruct nx.
    + complement lx c Hc Vc. rewrite limb_bit_spec, some_bind by (apply Hc || lia). f_equal.
      rewrite Z.lnot_spec by lia. by destruct (Z.testbit (val c) i).
    + destruct Ex as [_ ->]. apply limb_bit_spec; [apply Nx|lia].
Qed.

Lemma SetBit_spec x a i b : repr x a -> 0 <= i -> b = 0 \/ b = 1 ->
  returns (SetBit x i b) (if decide (b = 0) then Z.clearbit a i else Z.setbit a i).
Proof.
  intros Hx Hi Hb. take_repr x Hx. unfold SetBit. cbn [neg abs]. rewrite !decide_False by lia. destruct nx.
  - complement lx c Hc Vc. destruct (limb_set_bit_spec c i (Z.lxor b 1) (proj1 Hc) Hi) as (d & -> & Hd & Vd). rewrite some_bind.
    assert ((if decide (b = 0) then Z.clearbit (Z.lnot (val c)) i else Z.setbit (Z.lnot (val c)) i) = Z.lnot (val d)) as ->.
    { rewrite Vd. destruct Hb as [-> | ->]; [apply clearbit_lnot|apply setbit_lnot]; done. }
    by apply returns_lnot_flag.
  - destruct Ex as [_ ->]. apply returns_pos, limb_set_bit_spec; [apply Nx|done].
Qed.

Lemma BitLen_spec x a : repr x a -> BitLen x = Some (if decide (a = 0) then 0 else Z.log2 (Z.abs a) + 1).
Proof.
  intros Hx. take_repr x Hx. unfold BitLen. cbn [abs]. rewrite bit_len_spec by done. f_equal.
  assert (val lx = Z.abs a) as -> by (destruct nx; lia). destruct (decide (a = 0)) as [->|]; [done|]. by rewrite decide_False by lia.
Qed.
