(* ===== verification/BigIntText.v ===== *)
(** Text, bytes and words of [Int]: what the parsers accept, what the printers write, and that they
    are inverse to each other. *)
From Stdlib Require Import ZArith Lia.
From stdpp Require Import base tactics numbers list list_numbers option.
From S2P Require Import Prelude Digits Limbs LimbsSpec LimbsDiv LimbsBits BigInt BigIntSpec.
Open Scope Z_scope.

(** ** Parsing *)

Lemma mul_add_word_spec l mul add : limbs l -> limb mul -> limb add ->
  exists c, mul_add_word l mul add = Some c /\ normal c /\ val c = val l * mul + add.
Proof.
  intros Hl Hm Ha. unfold mul_add_word. unfold limb in Hm, Ha.
  go_loop (fun i '(out, carry) => zlen out = zlen l /\ limbs out /\ limb carry /\
    (forall k, i <= k -> idx out k = idx l k) /\ vtake i out + carry * Bpow i = vtake i l * mul + add) s H; [apply zlen_nonneg| | |].
  - rewrite !vtake_0. unfold limb. repeat (split; [done|]). rewrite Bpow_0. lia.
  - intros i [out carry] Hi (Hz & Ho & Hc & Hk & Hv). cbv beta iota. go_idx x Hx; [lia|].
    pose proof (limbs_idx _ _ _ Ho Hx) as Lx. unfold limb in *. go_chk; [nia|].
    set (v := x * mul + carry) in *. assert (0 <= v <= 2 ^ 32 * (2 ^ 32 - 1)) by (unfold v; nia).
    go_upd out' Hu Hz'; [lia|]. eexists. split; [done|]. cbv beta iota. rewrite shr64_32.
    split; [lia|]. split; [eauto with goish|]. split; [unfold limb; lia|]. split.
    + intros k Hk'. rewrite <- (Hk k) by lia. apply upd_inv in Hu as [_ ->].
      rewrite idx_insert by lia. by rewrite decide_False by lia.
    + rewrite (vtake_upd _ _ _ _ Hu), vtake_S, Bpow_S, <- (Hk i), Hx by lia. cbn [from_option id].
      pose proof (wrap32_split v). unfold v in *. nia.
  - destruct s as [out carry]. destruct H as (Hz & Ho & Hc & _ & Hv). rewrite some_bind. rewrite !vtake_all in Hv by lia.
    unfold limb in Hc. eexists. split; [done|]. unfold wrap32. rewrite Z.mod_small by lia. rewrite trim_val. case_decide as H0.
    + split; [apply trim_normal, limbs_app; split; [done|repeat constructor; unfold limb; lia]|].
      rewrite val_app. cbn [val]. rewrite Hz. lia.
    + split; [by apply trim_normal|]. assert (carry = 0) by lia. subst carry. lia.
Qed.

(** What the loop takes for digits, and the number it reads from them. *)
Definition scans_digit (b c : Z) : bool := bool_decide (is_Some (digit_value c b)).
Definition scan_value (b : Z) : Z -> list Z -> Z := foldl (fun a c => a * b + default 0 (digit_value c b)).

(** That is: the digits of the alphabet. *)
Lemma digit_value_of c b : 2 <= b <= 62 -> digit_value c b = digit_of b c.
Proof.
  intros Hb. apply (digit_of_agrees (fun b c => digit_value c b) 2 61); [vm_compute; reflexivity| |lia].
  clear. intros b c Hc. unfold digit_value. by rewrite !decide_False by lia.
Qed.

Lemma scans_digit_of b t : 2 <= b <= 62 -> forallb (scans_digit b) t = forallb (is_digit b) t.
Proof. intros Hb. induction t as [|c t IH]; [done|]. cbn [forallb]. unfold scans_digit, is_digit in *. by rewrite IH, digit_value_of. Qed.

Lemma scan_value_of b a t : 2 <= b <= 62 -> scan_value b a t = horner b a t.
Proof. intros Hb. revert a. induction t as [|c t IH]; intros a; [done|]. cbn [horner]. rewrite <- IH. unfold scan_value. cbn [foldl]. by rewrite digit_value_of. Qed.

Lemma digit_value_range c b d : digit_value c b = Some d -> 0 <= d < b.
Proof.
  unfold digit_value. intros H. repeat case_decide; cbn in H; repeat case_decide; simplify_eq; unfold MAX_BASE_SMALL in *; lia.
Qed.

Lemma digit_not_sign c b : is_Some (digit_value c b) -> c <> 45 /\ c <> 43 /\ c <> 95.
Proof. intros [d H]. split; [|split]; by intros ->. Qed.

Lemma drop_lookup_hd {A} (l : list A) i x rest : drop i l = x :: rest -> l !! i = Some x /\ drop (S i) l = rest.
Proof.
  intros H. assert (l !! i = Some x) as E by (rewrite <- (Nat.add_0_r i), <- lookup_drop, H; done).
  split; [done|]. rewrite (drop_S _ _ _ E) in H. by injection H.
Qed.

(** The loop over digits only. *)
Lemma scan_loop_digits bytes base b fuel rest s : 2 <= b <= 62 -> drop (Z.to_nat (s_i s)) bytes = rest -> 0 <= s_i s <= zlen bytes ->
  forallb (scans_digit b) rest -> normal (s_limbs s) -> (length rest < fuel)%nat ->
  exists l, scan_loop fuel bytes base b s =
      Some (mkScan l (s_count s + zlen rest) (s_inval s) (if decide (rest = []) then s_prev s else 48) (zlen bytes)) /\
    normal l /\ val l = scan_value b (val (s_limbs s)) rest.
Proof.
  intros Hb. revert rest s. induction fuel as [|fuel IH]; intros rest s Hd Hi Hall Hn Hf; [lia|]. cbn [scan_loop].
  destruct rest as [|c rest].
  - assert (zlen bytes <= s_i s) as Hge.
    { pose proof (length_drop bytes (Z.to_nat (s_i s))) as Hl. rewrite Hd in Hl. cbn in Hl. unfold zlen in *. lia. }
    rewrite decide_False by lia. exists (s_limbs s). split; [|done]. change (zlen []) with 0.
    rewrite Z.add_0_r, decide_True by done. replace (zlen bytes) with (s_i s) by lia. by destruct s.
  - destruct (drop_lookup_hd _ _ _ _ Hd) as [Hc Hd'].
    assert (idx bytes (s_i s) = Some c) as Ec by (apply idx_Some; split; [lia|done]). pose proof (idx_range _ _ _ Ec).
    rewrite decide_True, Ec, some_bind by lia. cbn [forallb] in Hall. apply andb_prop_elim in Hall as [Hdig Hall].
    unfold scans_digit in Hdig. apply bool_decide_unpack in Hdig. destruct (digit_not_sign c b Hdig) as (_ & _ & H95).
    destruct Hdig as [d Hdv]. rewrite decide_False by (intros [? _]; done). rewrite Hdv.
    pose proof (digit_value_range _ _ _ Hdv).
    destruct (mul_add_word_spec (s_limbs s) b d (proj1 Hn)) as (l1 & -> & Hn1 & Hv1); [unfold limb; lia..|]. rewrite some_bind.
    destruct (IH rest (mkScan l1 (s_count s + 1) (s_inval s) 48 (s_i s + 1))) as (l & -> & Hl & Hv); cbn [s_i s_limbs s_count s_inval s_prev].
    + by replace (Z.to_nat (s_i s + 1)) with (S (Z.to_nat (s_i s))) by lia.
    + lia.
    + done.
    + done.
    + cbn in Hf. lia.
    + exists l. rewrite (decide_False (P := c :: rest = [])) by done. split; [|split; [done|]].
      * rewrite zlen_cons. do 2 f_equal; [lia|]. by case_decide.
      * rewrite Hv. cbn [s_limbs]. rewrite Hv1. unfold scan_value. cbn [foldl]. by rewrite Hdv.
Qed.

(** Without separators, the loop stops at the first character that is not a digit. *)
Lemma scan_loop_stops bytes base b fuel rest s : base <> 0 -> 2 <= b <= 62 -> drop (Z.to_nat (s_i s)) bytes = rest ->
  0 <= s_i s -> forallb (scans_digit b) rest = false -> normal (s_limbs s) -> (length rest < fuel)%nat ->
  exists s', scan_loop fuel bytes base b s = Some s' /\ s_i s' < zlen bytes.
Proof.
  intros H0 Hb. revert rest s. induction fuel as [|fuel IH]; intros rest s Hd Hi Hall Hn Hf; [lia|]. cbn [scan_loop].
  destruct rest as [|c rest]; [done|]. destruct (drop_lookup_hd _ _ _ _ Hd) as [Hc Hd'].
  assert (idx bytes (s_i s) = Some c) as Ec by (apply idx_Some; split; [lia|done]). pose proof (idx_range _ _ _ Ec).
  rewrite decide_True, Ec, some_bind by lia. rewrite decide_False by (by intros [_ ?]).
  destruct (digit_value c b) as [d|] eqn:Hdv; [|exists s; split; [done|lia]].
  pose proof (digit_value_range _ _ _ Hdv).
  destruct (mul_add_word_spec (s_limbs s) b d (proj1 Hn)) as (l1 & -> & Hn1 & Hv1); [unfold limb; lia..|]. rewrite some_bind.
  apply (IH rest); cbn [s_i s_limbs].
  - by replace (Z.to_nat (s_i s + 1)) with (S (Z.to_nat (s_i s))) by lia.
  - lia.
  - cbn [forallb] in Hall. assert (scans_digit b c = true) as E by (unfold scans_digit; apply bool_decide_true; by eexists).
    by rewrite E in Hall.
  - done.
  - cbn in Hf. lia.
Qed.

(** The text without its sign. *)
Definition unsigned_text (s : list Z) : list Z := match s with 45 :: t | 43 :: t => t | _ => s end.
Definition minus_text (s : list Z) : bool := match s with 45 :: _ => true | _ => false end.

Lemma scan_sign_spec s : scan_sign s = (minus_text s, if decide (unsigned_text s = s) then 0 else 1) /\
  drop (Z.to_nat (if decide (unsigned_text s = s) then 0 else 1)) s = unsigned_text s /\
  0 <= (if decide (unsigned_text s = s) then 0 else 1) <= zlen s.
Proof.
  assert (forall (x : Z) l, l <> x :: l) as Hne by (intros x l E; apply (f_equal length) in E; cbn in E; lia).
  pose proof (zlen_nonneg s) as Hz.
  assert (s = [] \/ (exists t, s = 45 :: t) \/ (exists t, s = 43 :: t) \/
    (scan_sign s = (false, 0) /\ unsigned_text s = s /\ minus_text s = false)) as [->|[[t ->]|[[t ->]|(E1 & E2 & E3)]]].
  { destruct s as [|c t]; [by left|right]. destruct (decide (c = 45)) as [->|H1]; [left; by eexists|right].
    destruct (decide (c = 43)) as [->|H2]; [left; by eexists|right]. unfold scan_sign, unsigned_text, minus_text.
    repeat (match goal with |- context [match ?x with _ => _ end] => destruct x end; try done). }
  - done.
  - cbn [unsigned_text scan_sign minus_text]. rewrite decide_False by apply Hne. rewrite zlen_cons. pose proof (zlen_nonneg t).
    split; [done|]. split; [done|lia].
  - cbn [unsigned_text scan_sign minus_text]. rewrite decide_False by apply Hne. rewrite zlen_cons. pose proof (zlen_nonneg t).
    split; [done|]. split; [done|lia].
  - rewrite E1, E2, E3, decide_True by done. split; [done|]. split; [done|lia].
Qed.

(** In an explicit base the texts accepted are a sign and digits, and denote that number. *)
Lemma scan_int_explicit s base : 2 <= base <= 62 ->
  let t := unsigned_text s in
  if decide (t <> [] /\ forallb (scans_digit base) t = true)
  then exists l, scan_int s base = Some (Some (minus_text s, l)) /\ normal l /\ val l = scan_value base 0 t
  else scan_int s base = Some None.
Proof.
  intros Hb t. unfold scan_int.
  rewrite !(decide_False (P := ~ (base = 0 \/ 2 <= base <= MAX_BASE))) by (unfold MAX_BASE; intros H; apply H; right; lia).
  destruct (scan_sign_spec s) as (-> & Hd & Hi). set (i := if decide (unsigned_text s = s) then 0 else 1) in *.
  unfold scan_prefix. rewrite !(decide_False (P := base = 0)) by lia. fold t in Hd.
  assert (length t < S (length s))%nat as Hf by (rewrite <- Hd, length_drop; lia).
  destruct (forallb (scans_digit base) t) eqn:Hall.
  - destruct (scan_loop_digits s base base (S (length s)) t (mkScan [] 0 false 46 i)) as (l & -> & Hl & Hv);
      [lia|done|done|by rewrite Hall|apply normal_nil|done|]. rewrite !some_bind. cbn [s_i s_inval s_prev s_count s_limbs orb].
    rewrite !(decide_False (P := zlen s <> zlen s)) by (intros H; by apply H). destruct (decide (t = [])) as [E|E].
    + rewrite decide_False by (intros [? _]; done). rewrite E. by rewrite bool_decide_false.
    + rewrite decide_True by done. rewrite bool_decide_false by done. rewrite decide_False; [by exists l|].
      intros H0. apply E, zlen_nil_inv. lia.
  - rewrite decide_False by (intros [_ ?]; done).
    destruct (scan_loop_stops s base base (S (length s)) t (mkScan [] 0 false 46 i)) as (s' & -> & Hs');
      [lia|lia|done|apply Hi|done|apply normal_nil|done|]. rewrite some_bind. by rewrite decide_True by lia.
Qed.

(** ** Printing *)

Fixpoint lsb_val (b : Z) (ds : list Z) : Z :=
  match ds with [] => 0 | c :: ds => default 0 (digit_value c b) + b * lsb_val b ds end.

Lemma scan_value_reverse b ds : scan_value b 0 (reverse ds) = lsb_val b ds.
Proof.
  induction ds as [|c ds IH]; [done|]. rewrite reverse_cons. unfold scan_value in *. rewrite foldl_snoc, IH. cbn [lsb_val]. lia.
Qed.

Definition digit_char (r : Z) : Z := if decide (r < 10) then 48 + r else if decide (r < 36) then 87 + r else 29 + r.

Lemma DIGIT_CHARS_lookup r : 0 <= r < 62 -> idx DIGIT_CHARS r = Some (digit_char r).
Proof.
  assert (Forall (fun r => idx DIGIT_CHARS r = Some (digit_char r)) (seqZ 0 62)) as H by (repeat constructor).
  rewrite list.Forall_forall in H. intros Hr. apply H, elem_of_seqZ. lia.
Qed.

Lemma digit_char_value r b : 0 <= r < b -> b <= 62 -> digit_value (digit_char r) b = Some r /\ (r <> 0 -> digit_char r <> 48).
Proof.
  intros Hr Hb. unfold digit_value, digit_char, MAX_BASE_SMALL. destruct (decide (r < 10)); [|destruct (decide (r < 36))];
  repeat (first [rewrite decide_True by lia|rewrite decide_False by lia]); rewrite ?some_bind;
  repeat (first [rewrite decide_True by lia|rewrite decide_False by lia]); (split; [f_equal; lia|lia]).
Qed.

Lemma itoa_loop_spec b k : 2 <= b <= 62 -> forall fuel l acc, normal l -> val l < 2 ^ Z.of_nat k -> (k < fuel)%nat ->
  exists ds, itoa_loop fuel l b acc = Some (acc ++ ds) /\ forallb (scans_digit b) ds = true /\ lsb_val b ds = val l /\
    if decide (l = []) then ds = [] else exists c, list.last ds = Some c /\ c <> 48.
Proof.
  intros Hb. induction k as [|k IH]; intros fuel l acc Hl Hv Hf; (destruct fuel as [|fuel]; [lia|]); cbn [itoa_loop].
  - pose proof (val_range l (proj1 Hl)). assert (l = []) as -> by (apply normal_zero; [done|cbn in Hv; lia]).
    exists []. rewrite decide_True, app_nil_r by done. done.
  - destruct (decide (l = [])) as [He|He]; [subst; exists []; by rewrite app_nil_r|]. pose proof (normal_pos l Hl He).
    destruct (divmod_by_u32_spec l b (proj1 Hl)) as (q & -> & Hq & Vq); [lia|]. rewrite some_bind. cbv beta iota.
    pose proof (Z.mod_pos_bound (val l) b ltac:(lia)). pose proof (Z.div_mod (val l) b ltac:(lia)).
    rewrite DIGIT_CHARS_lookup, some_bind by lia.
    destruct (digit_char_value (val l mod b) b ltac:(lia) ltac:(lia)) as [Hdv Hnz].
    assert (val q < 2 ^ Z.of_nat k) as Hqk.
    { rewrite Vq. apply Z.div_lt_upper_bound; [lia|]. rewrite Nat2Z.inj_succ, Z.pow_succ_r in Hv by lia.
      pose proof (Z.pow_pos_nonneg 2 (Z.of_nat k)). nia. }
    destruct (IH fuel q (acc ++ [digit_char (val l mod b)]) Hq Hqk ltac:(lia)) as (ds & -> & Hall & Hds & Hlast).
    exists (digit_char (val l mod b) :: ds). rewrite <- app_assoc. split; [done|]. split; [|split].
    + cbn [forallb]. rewrite Hall, andb_true_r. unfold scans_digit. apply bool_decide_true. by eexists.
    + cbn [lsb_val]. rewrite Hdv, Hds, Vq. cbn [from_option id]. lia.
    + destruct (decide (q = [])) as [Hq0|Hq0].
      * assert (val q = 0) as Hvq by (by rewrite Hq0). subst ds. eexists. split; [done|]. apply Hnz. lia.
      * destruct Hlast as (c & Hc & Hc48). exists c. split; [|done]. rewrite list.last_cons, Hc. done.
Qed.

Lemma unsigned_text_digits ds b : forallb (scans_digit b) ds = true ->
  unsigned_text ds = ds /\ minus_text ds = false /\ unsigned_text (45 :: ds) = ds /\ minus_text (45 :: ds) = true.
Proof.
  intros H. split; [|split; [|done]].
  - destruct ds as [|c ds]; [done|]. cbn [forallb] in H. apply andb_prop in H as [Hc _].
    unfold scans_digit in Hc. apply bool_decide_eq_true in Hc. destruct (digit_not_sign c b Hc) as (H1 & H2 & _).
    unfold unsigned_text. repeat (match goal with |- context [match ?x with _ => _ end] => destruct x end; try done).
  - destruct ds as [|c ds]; [done|]. cbn [forallb] in H. apply andb_prop in H as [Hc _].
    unfold scans_digit in Hc. apply bool_decide_eq_true in Hc. destruct (digit_not_sign c b Hc) as (H1 & H2 & _).
    unfold minus_text. repeat (match goal with |- context [match ?x with _ => _ end] => destruct x end; try done).
Qed.

Lemma forallb_reverse {A} (f : A -> bool) l : forallb f (reverse l) = forallb f l.
Proof.
  induction l as [|x l IH]; [done|]. rewrite reverse_cons, forallb_app, IH. cbn [forallb]. by rewrite andb_true_r, andb_comm.
Qed.

(** The text of a number: its sign and its digits, without leading zeros. *)
Lemma Text_spec x a base : repr x a -> 2 <= base <= 62 ->
  exists t, Text x base = Some t /\ unsigned_text t <> [] /\ forallb (scans_digit base) (unsigned_text t) = true /\
    minus_text t = bool_decide (a < 0) /\ scan_value base 0 (unsigned_text t) = Z.abs a /\
    (a <> 0 -> head (unsigned_text t) <> Some 48) /\ (a = 0 -> t = [48]).
Proof.
  intros Hx Hb. rewrite <- (neg_repr x a) by done. take_repr x Hx. unfold Text, itoa, MAX_BASE. cbn [neg abs].
  rewrite decide_False, decide_False by lia. case_decide as He.
  - subst lx. cbn [val] in Ex. destruct nx; [lia|]. destruct Ex as [_ ->]. exists [48]. split; [done|]. split; [done|].
    assert (digit_value 48 base = Some 0) as H0 by (unfold digit_value; rewrite decide_True by lia; cbn; by rewrite decide_True by lia).
    cbn [unsigned_text forallb scan_value foldl]. split; [|split; [done|split; [|done]]].
    + unfold scans_digit. rewrite H0. by rewrite bool_decide_true.
    + unfold scan_value. cbn [foldl]. by rewrite H0.
  - assert (wrap32 base = base) as -> by (apply Z.mod_small; lia).
    assert (val (trim lx) < 2 ^ Z.of_nat (32 * length lx)) as Hlt.
    { rewrite trim_val. pose proof (val_range lx (proj1 Nx)) as R. unfold Bpow, zlen in R.
      replace (Z.of_nat (32 * length lx)) with (32 * Z.of_nat (length lx)) by lia. apply R. }
    destruct (itoa_loop_spec base (32 * length lx) Hb (32 * length lx + 1) (trim lx) [] (trim_normal lx (proj1 Nx)) Hlt ltac:(lia))
      as (ds & -> & Hall & Hv & Hlast). rewrite some_bind, app_nil_l. rewrite trim_val in Hv.
    pose proof (normal_pos lx Nx He).
    rewrite decide_False in Hlast by (intros E; apply (f_equal val) in E; rewrite trim_val in E; cbn in E; lia).
    destruct Hlast as (c & Hc & Hc48). assert (ds <> []) as Hne by (by intros ->).
    destruct (unsigned_text_digits (reverse ds) base) as (U1 & U2 & U3 & U4); [by rewrite forallb_reverse|].
    assert (head (reverse ds) <> Some 48) as Hh by (rewrite list.head_reverse, Hc; congruence).
    assert (reverse ds <> []) as Hr by (intros E; apply Hne; by rewrite <- (reverse_involutive ds), E).
    eexists. split; [done|]. destruct nx; [rewrite reverse_snoc, U3, U4|rewrite U1, U2];
      (split; [done|]); (split; [by rewrite forallb_reverse|]); (split; [done|]); (split; [rewrite scan_value_reverse; lia|]);
      (split; [done|intros ->; lia]).
Qed.

Lemma set_signed_repr l a : normal l -> val l = Z.abs a -> repr (mkInt (bool_decide (a < 0) && negb (is_empty l)) l) a.
Proof. intros Hl Hv. rewrite andb_comm. apply repr_signed; [done|]. case_bool_decide; lia. Qed.

Lemma SetString_Text x a base self : repr x a -> 2 <= base <= 62 ->
  exists t, Text x base = Some t /\ SetString self t base = Some (x, true).
Proof.
  intros Hx Hb. destruct (Text_spec x a base Hx Hb) as (t & Ht & Hne & Hall & Hm & Hv & _). exists t. split; [done|].
  unfold SetString. pose proof (scan_int_explicit t base Hb) as H. cbv zeta in H. rewrite decide_True in H by done.
  destruct H as (l & -> & Hl & Hvl). rewrite some_bind, Hm. do 2 f_equal.
  apply (repr_inj _ _ a); [|done]. apply set_signed_repr; [done|lia].
Qed.

Lemma UnmarshalText_MarshalText x a self : repr x a ->
  exists t, MarshalText x = Some t /\ UnmarshalText self t = Some (x, true).
Proof.
  intros Hx. destruct (Text_spec x a 10 Hx ltac:(lia)) as (t & Ht & Hne & Hall & Hm & Hv & Hz & H0). exists t. split.
  { unfold MarshalText, AppendText, Append, MAX_BASE. rewrite decide_False by lia. unfold Text, MAX_BASE in Ht.
    rewrite decide_False in Ht by lia. by rewrite Ht. }
  unfold UnmarshalText. destruct (decide (a = 0)) as [->|Ha].
  { rewrite (H0 eq_refl). vm_compute (scan_int [48] 0). rewrite some_bind. do 2 f_equal. apply (repr_inj _ _ 0); [|done].
    apply repr_intro; [apply normal_nil|done|done]. }
  unfold scan_int. rewrite decide_False by (intros H; apply H; by left).
  destruct (scan_sign_spec t) as (-> & Hd & Hi). set (i := if decide (unsigned_text t = t) then 0 else 1) in *.
  assert (scan_prefix t 0 i = (10, 0, 46, i)) as ->.
  { unfold scan_prefix. rewrite decide_True by done. rewrite decide_False; [done|]. intros [_ E]%idx_Some. apply (Hz Ha).
    rewrite <- Hd. by rewrite list.head_lookup, lookup_drop, Nat.add_0_r. }
  destruct (scan_loop_digits t 0 10 (S (length t)) (unsigned_text t) (mkScan [] 0 false 46 i)) as (l & -> & Hl & Hvl);
    [lia|done|done|by rewrite Hall|apply normal_nil| |].
  { rewrite <- Hd, length_drop. lia. }
  rewrite some_bind. cbn [s_i s_inval s_prev s_count s_limbs orb].
  rewrite decide_False by (intros H; by apply H). rewrite (decide_False (P := unsigned_text t = [])) by done.
  rewrite bool_decide_false by done. rewrite decide_False by (intros E; apply Hne, zlen_nil_inv; lia).
  rewrite some_bind, Hm. do 2 f_equal. apply (repr_inj _ _ a); [|done]. apply set_signed_repr; [done|].
  rewrite Hvl. cbn [s_limbs val]. done.
Qed.

(** ** Bytes *)

Definition byte (b : Z) : Prop := 0 <= b < 256.

(** The number that bytes denote, most significant first. *)
Definition be_val : list Z -> Z := foldl (fun a b => a * 256 + b) 0.

Lemma be_val_snoc l b : be_val (l ++ [b]) = be_val l * 256 + b.
Proof. unfold be_val. by rewrite foldl_snoc. Qed.

Lemma be_val_app l k : be_val (l ++ k) = be_val l * 256 ^ zlen k + be_val k.
Proof.
  induction k as [|b k IH] using rev_ind; [rewrite app_nil_r; unfold zlen, be_val; cbn; lia|].
  rewrite app_assoc, !be_val_snoc, IH, zlen_app. change (zlen [b]) with 1.
  rewrite Z.pow_add_r by (lia || apply zlen_nonneg). lia.
Qed.

Lemma be_val_cons b k : be_val (b :: k) = b * 256 ^ zlen k + be_val k.
Proof. change (b :: k) with ([b] ++ k). rewrite be_val_app. unfold be_val at 1. cbn [foldl]. lia. Qed.

Lemma be_val_range l : Forall byte l -> 0 <= be_val l < 256 ^ zlen l.
Proof.
  induction l as [|b l IH]; intros H; [unfold be_val, zlen; cbn; lia|]. apply list.Forall_cons in H as [Hb Hl]. specialize (IH Hl).
  rewrite be_val_cons, zlen_cons, Z.pow_add_r by (lia || apply zlen_nonneg). unfold byte in Hb.
  pose proof (Z.pow_pos_nonneg 256 (zlen l) ltac:(lia) (zlen_nonneg l)). nia.
Qed.

(** A number is written with the fewest bytes when the first is not zero. *)
Definition minimal (l : list Z) : Prop := head l <> Some 0.

Lemma be_val_lower l : Forall byte l -> minimal l -> l <> [] -> 256 ^ (zlen l - 1) <= be_val l.
Proof.
  destruct l as [|b l]; intros H Hm Hne; [done|]. apply list.Forall_cons in H as [Hb Hl]. rewrite be_val_cons, zlen_cons.
  replace (zlen l + 1 - 1) with (zlen l) by lia. pose proof (be_val_range l Hl).
  assert (b <> 0) by (intros ->; by apply Hm). unfold byte in Hb. pose proof (Z.pow_pos_nonneg 256 (zlen l) ltac:(lia) (zlen_nonneg l)). nia.
Qed.

Lemma limb_bytes_spec x : limb x -> Forall byte (limb_bytes x) /\ be_val (limb_bytes x) = x.
Proof.
  unfold limb, limb_bytes, byte. intros Hx. rewrite !Z.shiftr_div_pow2 by lia. split.
  - repeat constructor; lia.
  - unfold be_val. cbn [foldl]. lia.
Qed.

Lemma concat_limb_bytes l : limbs l -> let bs := concat (map limb_bytes (reverse l)) in Forall byte bs /\ be_val bs = val l.
Proof.
  induction l as [|x l IH]; intros Hl; [done|]. apply limbs_cons in Hl as [Hx Hl]. destruct (IH Hl) as [Hb Hv].
  destruct (limb_bytes_spec x Hx) as [Hbx Hvx]. cbv zeta in *.
  rewrite reverse_cons, map_app, concat_app. cbn [map concat]. rewrite app_nil_r. split; [by apply list.Forall_app|].
  rewrite be_val_app, Hv, Hvx. change (256 ^ zlen (limb_bytes x)) with (2 ^ 32). cbn [val]. lia.
Qed.

Lemma skip_zeros_spec l : Forall byte l -> Forall byte (skip_zeros l) /\ be_val (skip_zeros l) = be_val l /\
  (be_val l <> 0 -> minimal (skip_zeros l)) /\ (l <> [] -> skip_zeros l <> []).
Proof.
  induction l as [|b l IH]; intros H; [by repeat split|]. destruct l as [|c l].
  - cbn [skip_zeros]. split; [done|]. split; [done|]. split; [|done]. unfold be_val, minimal. cbn [foldl head]. intros Hv [= ->]. lia.
  - change (skip_zeros (b :: c :: l)) with (if decide (b = 0) then skip_zeros (c :: l) else b :: c :: l).
    apply list.Forall_cons in H as [Hb Hl]. destruct (IH Hl) as (H1 & H2 & H3 & H4). case_decide as H0.
    + subst b. rewrite (be_val_cons 0). split; [done|]. split; [by rewrite H2|]. split; [|intros _; by apply H4].
      intros Hv. apply H3. lia.
    + split; [by constructor|]. split; [done|]. split; [|done]. unfold minimal. cbn. congruence.
Qed.

Lemma top_index_normal l : normal l -> top_index l (length l) = length l.
Proof.
  intros [_ Ht]. unfold trimmed in Ht. rewrite list.last_lookup in Ht.
  destruct (length l) as [|n] eqn:E; [done|]. cbn [top_index]. by rewrite decide_False by (by cbn in Ht).
Qed.

Lemma limbs_to_be_bytes_spec l : normal l ->
  exists bs, limbs_to_be_bytes l = Some bs /\ Forall byte bs /\ minimal bs /\ be_val bs = val l.
Proof.
  intros Hl. unfold limbs_to_be_bytes. rewrite top_index_normal by done. case_decide as H0.
  { apply nil_length_inv in H0 as ->. by exists []. }
  rewrite take_ge by lia. destruct (concat_limb_bytes l (proj1 Hl)) as [Hb Hv].
  set (bs := concat _) in *. destruct (skip_zeros_spec bs Hb) as (H1 & H2 & H3 & H4).
  assert (l <> []) as Hne by (by intros ->). pose proof (normal_pos l Hl Hne).
  assert (minimal (skip_zeros bs)) as Hm by (apply H3; lia).
  destruct (skip_zeros bs) as [|h t] eqn:E; [change (be_val []) with 0 in H2; lia|].
  change (idx (h :: t) 0) with (Some h). rewrite some_bind, decide_False by (intros ->; by apply Hm).
  exists (h :: t). split; [done|]. split; [done|]. split; [done|lia].
Qed.

Lemma significant_spec l : Forall byte l -> Forall byte (significant l) /\ be_val (significant l) = be_val l /\ minimal (significant l).
Proof.
  induction l as [|b l IH]; intros H; [done|]. apply list.Forall_cons in H as [Hb Hl]. cbn [significant]. case_decide as H0.
  - subst b. rewrite (be_val_cons 0). by apply IH.
  - split; [by constructor|]. split; [done|]. unfold minimal. cbn. congruence.
Qed.

(** Packing bytes, least significant first, above the bits already there. *)
Lemma pack_bytes_spec bs : Forall byte bs -> forall l bit li, limbs l -> 0 <= li -> (bit = 0 \/ bit = 8 \/ bit = 16 \/ bit = 24) ->
  4 * li + bit / 8 + zlen bs <= 4 * zlen l -> val l < 2 ^ bit * Bpow li ->
  exists l', pack_bytes bs l bit li = Some l' /\ limbs l' /\ val l' = val l + be_val (reverse bs) * (2 ^ bit * Bpow li).
Proof.
  induction bs as [|b bs IH]; intros Hbs l bit li Hl Hli Hbit Hlen Hv; cbn [pack_bytes].
  { exists l. split; [done|]. split; [done|]. unfold be_val. cbn. lia. }
  apply list.Forall_cons in Hbs as [Hb Hbs]. unfold byte in Hb. rewrite zlen_cons in Hlen. pose proof (zlen_nonneg bs).
  destruct (idx_ok l li) as [x Hx]; [lia|]. rewrite Hx, some_bind. pose proof (idx_val _ _ _ Hl Hx) as Hxv.
  pose proof (limbs_idx _ _ _ Hl Hx) as Lx. unfold limb in Lx. pose proof (Bpow_pos li Hli).
  assert (0 < 2 ^ bit) by (apply Z.pow_pos_nonneg; lia). assert (x < 2 ^ bit) as Hxb by nia.
  assert (2 ^ bit * 256 <= 2 ^ 32) as Hp by (change 256 with (2 ^ 8); rewrite <- Z.pow_add_r by lia; apply Z.pow_le_mono_r; lia).
  assert (wrap32 (Z.shiftl b bit) = b * 2 ^ bit) as -> by (rewrite Z.shiftl_mul_pow2 by lia; apply Z.mod_small; nia).
  rewrite Z.lor_comm, lor_add_low by lia. destruct (upd_ok l li (b * 2 ^ bit + x)) as (l1 & Hu & Hz1); [lia|]. rewrite Hu, some_bind.
  assert (limb (b * 2 ^ bit + x)) as L1 by (unfold limb; nia). pose proof (limbs_upd _ _ _ _ Hl L1 Hu) as Hl1.
  pose proof (val_upd _ _ _ _ _ Hx Hu) as Hv1. rewrite reverse_cons, be_val_snoc.
  assert (2 ^ (bit + 8) = 2 ^ bit * 256) as Hp8 by (rewrite Z.pow_add_r by lia; lia).
  case_decide as H32.
  - destruct (IH Hbs l1 0 (li + 1) Hl1) as (l' & -> & Hl' & Hv'); [lia|lia|lia| |].
    + rewrite Bpow_S by lia. rewrite H32 in Hp8. nia.
    + exists l'. split; [done|]. split; [done|]. rewrite Hv', Hv1, Bpow_S by lia. rewrite H32 in Hp8. rewrite Hp8. ring.
  - destruct (IH Hbs l1 (bit + 8) li Hl1) as (l' & -> & Hl' & Hv'); [lia|lia|lia|nia|].
    exists l'. split; [done|]. split; [done|]. rewrite Hv', Hv1, Hp8. ring.
Qed.

Lemma be_bytes_to_limbs_spec bs : Forall byte bs ->
  exists l, be_bytes_to_limbs bs = Some l /\ normal l /\ val l = be_val bs.
Proof.
  intros H. unfold be_bytes_to_limbs. destruct (significant_spec bs H) as (H1 & H2 & _). rewrite <- H2.
  case_decide as H0; [rewrite H0; exists []; by auto using normal_nil|]. pose proof (zlen_nonneg (significant bs)).
  destruct (pack_bytes_spec (reverse (significant bs)) (proj2 (Forall_reverse _ _) H1) (zeros ((zlen (significant bs) + 3) / 4)) 0 0)
    as (l & -> & Hl & Hv); [auto with goish|lia|lia| |rewrite val_zeros, Bpow_0; lia|].
  { rewrite zlen_zeros by lia. unfold zlen. rewrite length_reverse. fold (zlen (significant bs)). lia. }
  rewrite some_bind. eexists. split; [done|]. split; [by apply trim_normal|].
  rewrite trim_val, Hv, val_zeros, reverse_involutive, Bpow_0. lia.
Qed.

(** ** Words *)

Fixpoint wval (ws : list Z) : Z := match ws with [] => 0 | w :: ws => w + 2 ^ 64 * wval ws end.

Lemma wval_app ws n : wval (ws ++ replicate n 0) = wval ws.
Proof.
  induction ws as [|w ws IH]; cbn [wval app]; [|by rewrite IH]. induction n as [|n IH]; cbn [replicate wval]; lia.
Qed.

Lemma wval_trim ws : wval (trim ws) = wval ws.
Proof.
  destruct (trim_loop_spec (length ws) ws (le_n _)) as (_ & _ & k & Hk). fold (trim ws) in Hk. rewrite Hk at 2. by rewrite wval_app.
Qed.

Lemma pair_limbs_spec n l : (length l <= n)%nat -> limbs l -> Forall is_u64 (pair_limbs l) /\ wval (pair_limbs l) = val l.
Proof.
  revert l. induction n as [|n IH]; intros l Hn Hl.
  { destruct l; [done|cbn in Hn; lia]. }
  destruct l as [|lo [|hi l]]; [done| |].
  - apply limbs_cons in Hl as [Hlo _]. cbn [pair_limbs wval val]. rewrite pair64 by (done || (unfold limb; lia)). unfold limb in Hlo.
    split; [constructor; [unfold is_u64; lia|constructor]|lia].
  - apply limbs_cons in Hl as [Hlo Hl]. apply limbs_cons in Hl as [Hhi Hl]. cbn [pair_limbs wval val]. rewrite pair64 by done.
    cbn in Hn. destruct (IH l ltac:(lia) Hl) as [H1 H2]. unfold limb in *. split; [constructor; [unfold is_u64; lia|done]|]. lia.
Qed.

Lemma words_to_limbs_spec ws : Forall is_u64 ws -> normal (words_to_limbs ws) /\ val (words_to_limbs ws) = wval ws.
Proof.
  intros Hw. unfold words_to_limbs.
  assert (forall ws, Forall is_u64 ws ->
    let l := concat (map (fun w => [Z.land w (2 ^ 32 - 1); Z.land (shr64 w 32) (2 ^ 32 - 1)]) ws) in limbs l /\ val l = wval ws) as H.
  { clear. induction ws as [|w ws IH]; intros Hw; [by split; [constructor|]|]. apply list.Forall_cons in Hw as [Hw Hws].
    destruct (IH Hws) as [H1 H2]. cbv zeta in *. cbn [map concat app]. change (2 ^ 32 - 1) with (Z.ones 32).
    rewrite !Z.land_ones, shr64_32 by lia. unfold is_u64 in Hw. cbn [val wval].
    change (Z.ones 32) with (2 ^ 32 - 1) in *. split; [|rewrite H2; lia].
    constructor; [unfold limb; lia|constructor; [unfold limb; lia|done]]. }
  destruct (H ws Hw) as [H1 H2]. split; [by apply trim_normal|]. by rewrite trim_val.
Qed.
