(* ===== verification/BigIntNum.v ===== *)
(** Number theory on [Int]: greatest common divisors with their coefficients, modular inverses,
    powers, square roots, products of ranges and binomial coefficients. *)
From Stdlib Require Import ZArith Znumtheory Lia.
From stdpp Require Import base tactics numbers list list_numbers option.
From S2P Require Import Prelude Limbs LimbsSpec LimbsDiv LimbsBits BigInt BigIntSpec.
Open Scope Z_scope.

(** ** Greatest common divisors *)

(** Runs a call that returns, naming its result. *)
Ltac go_call H y Hy := let E := fresh in destruct H as (y & E & Hy); rewrite E, some_bind; clear E.

(** The state of the extended Euclidean algorithm on [A] and [B]. *)
Definition euclid_inv (A B R0 R1 CA CB DA DB : Z) : Prop :=
  R0 = CA * A + CB * B /\ R1 = DA * A + DB * B /\ Z.gcd R0 R1 = Z.gcd A B /\ 0 <= R0 /\ 0 <= R1 /\
  Z.abs DA * R0 + Z.abs CA * R1 = B /\ CA * DA <= 0 /\ ((CA = 1 /\ DA = 0) \/ R1 < R0) /\
  (R1 = 0 -> B <> 0 -> 2 * Z.abs CA <= Z.abs DA).

Lemma euclid_step A B R0 R1 CA CB DA DB : euclid_inv A B R0 R1 CA CB DA DB -> 0 < R1 ->
  let q := R0 / R1 in
  euclid_inv A B R1 (R0 mod R1) DA DB (CA - q * DA) (CB - q * DB) /\ R0 mod R1 < R1.
Proof.
  intros (E0 & E1 & Hg & H0 & H1 & Hb & Hs & HJ & _) Hp q.
  pose proof (Z.mod_pos_bound R0 R1 Hp) as Hr. pose proof (Z.div_mod R0 R1 ltac:(lia)) as Hd. fold q in Hd.
  assert (0 <= q) as Hq by (apply Z.div_pos; lia).
  assert (Z.abs (CA - q * DA) = Z.abs CA + q * Z.abs DA) as Habs.
  { destruct (Z.le_ge_cases CA 0), (Z.le_ge_cases DA 0); destruct (decide (CA = 0)); destruct (decide (DA = 0)); subst; nia. }
  split; [|lia]. unfold euclid_inv. split; [done|].
  split; [transitivity ((CA * A + CB * B) - (DA * A + DB * B) * q); [rewrite <- E0, <- E1; lia|ring]|].
  split; [rewrite <- Hg, (Z.gcd_comm R1), Z.gcd_mod, Z.gcd_comm by lia; done|].
  split; [lia|]. split; [lia|]. split; [rewrite Habs; replace (R0 mod R1) with (R0 - q * R1) by lia; rewrite <- Hb; ring|].
  split; [assert (0 <= q * (DA * DA)) by (apply Z.mul_nonneg_nonneg; [lia|apply Z.square_nonneg]); lia|].
  split; [right; lia|]. intros H _. rewrite Habs. destruct HJ as [[-> ->]|HJ]; [lia|].
  assert (2 <= q) as Hq2 by (apply Z.nlt_ge; intros Hc; assert (R1 * q <= R1 * 1) by (apply Z.mul_le_mono_nonneg_l; lia); lia).
  pose proof (Z.mul_le_mono_nonneg_r 2 q (Z.abs DA) (Z.abs_nonneg DA) Hq2). lia.
Qed.

Section gcd.
  Context (A B : Z).

(** The loop returns the divisor and coefficients; the product of the remainders bounds its length. *)
Lemma gcd_loop_spec k : forall fuel r0 r1 ca cb da db R0 R1 CA CB DA DB,
  repr r0 R0 -> repr r1 R1 -> repr ca CA -> repr cb CB -> repr da DA -> repr db DB ->
  euclid_inv A B R0 R1 CA CB DA DB -> (R1 < R0 /\ R0 * R1 < 2 ^ Z.of_nat k) -> (k < fuel)%nat ->
  exists z x y X Y, gcd_loop fuel r0 r1 ca cb da db = Some (z, x, y) /\ repr z (Z.gcd A B) /\ repr x X /\ repr y Y /\
    A * X + B * Y = Z.gcd A B /\ (B <> 0 -> 2 * Z.abs X * Z.gcd A B <= B).
Proof using.
  induction k as [|k IH]; intros fuel r0 r1 ca cb da db R0 R1 CA CB DA DB Hr0 Hr1 Hca Hcb Hda Hdb HI [Hlt Hk] Hf;
    (destruct fuel as [|fuel]; [lia|]); cbn [gcd_loop]; rewrite (Sign_spec r1 R1 Hr1);
    pose proof HI as (E0 & E1 & Hg & H0 & H1 & Hb & Hs & HJ & HK).
  1, 2: destruct (decide (R1 = 0)) as [Hz|Hz].
  1, 3: rewrite decide_False by lia; exists r0, ca, cb, CA, CB; rewrite Hz, Z.gcd_0_r, Z.abs_eq in Hg by lia; rewrite <- Hg;
    (split; [done|]); (split; [done|]); (split; [done|]); (split; [done|]); (split; [lia|]); intros HB; specialize (HK Hz HB);
    rewrite Hz in Hb; nia.
  { exfalso. change (2 ^ Z.of_nat 0) with 1 in Hk. nia. }
  rewrite decide_True by lia.
  destruct (DivMod_spec r0 r1 R0 R1 Hr0 Hr1 Hz) as (q & m & -> & Hq & Hm). rewrite some_bind. cbv beta iota.
  unfold ediv, emod in Hq, Hm. rewrite Z.sgn_pos, Z.abs_eq, Z.mul_1_l in Hq by lia. rewrite Z.abs_eq in Hm by lia.
  go_call (Mul_spec q da _ _ Hq Hda) qda Hqda. go_call (Sub_spec ca qda _ _ Hca Hqda) nca Hnca.
  go_call (Mul_spec q db _ _ Hq Hdb) qdb Hqdb. go_call (Sub_spec cb qdb _ _ Hcb Hqdb) ncb Hncb.
  destruct (euclid_step _ _ _ _ _ _ _ _ HI ltac:(lia)) as [HI' Hm'].
  eapply IH; [done..| |lia]. split; [done|]. pose proof (Z.mod_pos_bound R0 R1 ltac:(lia)).
  pose proof (Z.div_mod R0 R1 ltac:(lia)). assert (1 <= R0 / R1) by (apply Z.div_le_lower_bound; lia).
  rewrite Nat2Z.inj_succ, Z.pow_succ_r in Hk by lia. nia.
Qed.
End gcd.

Lemma repr_bound x a : repr x a -> Z.abs a < 2 ^ (32 * Z.of_nat (length (abs x))).
Proof.
  intros Hx. take_repr x Hx. pose proof (val_range lx (proj1 Nx)) as R. unfold Bpow, zlen in R. destruct nx; lia.
Qed.

Lemma gcd_magnitudes x y a b : repr x a -> repr y b ->
  exists z u v X Y, gcd_loop (32 * (length (abs x) + length (abs y)) + 3) (mkInt false (abs x)) (mkInt false (abs y))
      (SetInt64 1) new new (SetInt64 1) = Some (z, u, v) /\ repr z (Z.gcd a b) /\ repr u X /\ repr v Y /\
    Z.abs a * X + Z.abs b * Y = Z.gcd a b /\ (b <> 0 -> 2 * Z.abs X * Z.gcd a b <= Z.abs b).
Proof.
  intros Hx Hy. pose proof (repr_bound x a Hx) as Ba. pose proof (repr_bound y b Hy) as Bb.
  set (K := (32 * (length (abs x) + length (abs y)))%nat). replace (K + 3)%nat with (S (K + 2)) by lia. cbn [gcd_loop].
  rewrite <- (Z.gcd_abs_l a b), <- (Z.gcd_abs_r (Z.abs a) b).
  pose proof (repr_abs x a Hx) as Hx'. pose proof (repr_abs y b Hy) as Hy'. set (A := Z.abs a) in *. set (B := Z.abs b) in *.
  rewrite (Sign_spec _ _ Hy'). destruct (decide (B = 0)) as [Hz|Hz].
  { rewrite decide_False by lia. rewrite Hz in *. exists (mkInt false (abs x)), (SetInt64 1), new, 1, 0.
    rewrite Z.gcd_0_r, Z.abs_eq by lia. split; [done|]. split; [done|]. split; [auto with goish|]. split; [auto with goish|].
    split; [lia|]. intros. lia. }
  rewrite decide_True by lia.
  destruct (DivMod_spec _ _ A B Hx' Hy' Hz) as (q & m & -> & Hq & Hm). rewrite some_bind. cbv beta iota.
  unfold ediv, emod in Hq, Hm. rewrite Z.sgn_pos, Z.abs_eq, Z.mul_1_l in Hq by lia. rewrite Z.abs_eq in Hm by lia.
  go_call (Mul_spec q new _ _ Hq new_repr) qda Hqda. go_call (Sub_spec (SetInt64 1) qda _ _ repr_1 Hqda) nca Hnca.
  go_call (Mul_spec q (SetInt64 1) _ _ Hq repr_1) qdb Hqdb. go_call (Sub_spec new qdb _ _ new_repr Hqdb) ncb Hncb.
  assert (euclid_inv A B A B 1 0 0 1) as HI.
  { unfold euclid_inv. repeat (split; [lia|]). lia. }
  destruct (euclid_step _ _ _ _ _ _ _ _ HI ltac:(lia)) as [HI' Hm'].
  destruct (gcd_loop_spec A B K (K + 2) _ _ _ _ _ _ _ _ _ _ _ _ Hy' Hm new_repr repr_1 Hnca Hncb HI') as
    (z & u & v & X & Y & E & Hz' & Hu & Hv & HX & HY); [|lia|].
  - split; [done|]. pose proof (Z.mod_pos_bound A B ltac:(lia)). pose proof (Z.mod_le A B ltac:(lia) ltac:(lia)).
    unfold K. rewrite Nat2Z.inj_mul, Nat2Z.inj_add, Z.mul_add_distr_l, Z.pow_add_r by lia. change (Z.of_nat 32) with 32. nia.
  - exists z, u, v, X, Y. split; [done|]. split; [done|]. split; [done|]. split; [done|]. split; [done|]. intros _. by apply HY.
Qed.

(** [GCD] gives the divisor and coefficients of the signed operands; that of [a] is at most half of [b]. *)
Lemma GCD_spec x y a b : repr x a -> repr y b ->
  exists z u v X Y, GCD x y = Some (z, u, v) /\ repr z (Z.gcd a b) /\ repr u X /\ repr v Y /\
    a * X + b * Y = Z.gcd a b /\ (b <> 0 -> 2 * Z.abs X * Z.gcd a b <= Z.abs b).
Proof.
  intros Hx Hy. unfold GCD. destruct (gcd_magnitudes x y a b Hx Hy) as (z & u & v & X & Y & -> & Hz & Hu & Hv & HX & HY).
  rewrite some_bind. cbv beta iota. rewrite (neg_repr x a), (neg_repr y b) by done.
  pose proof (repr_abs z _ Hz) as Hz'. rewrite Z.abs_eq in Hz' by apply Z.gcd_nonneg.
  exists (mkInt false (abs z)), (if bool_decide (a < 0) then Neg u else u), (if bool_decide (b < 0) then Neg v else v),
    (if bool_decide (a < 0) then - X else X), (if bool_decide (b < 0) then - Y else Y).
  split; [done|]. split; [done|].
  split; [case_bool_decide; [by apply Neg_spec|done]|]. split; [case_bool_decide; [by apply Neg_spec|done]|].
  split; [|intros Hb; specialize (HY Hb); case_bool_decide; [by rewrite Z.abs_opp|done]].
  clear Hx Hy Hz Hz' Hu Hv HY. destruct (Z.abs_spec a) as [[Ha Ea]|[Ha Ea]], (Z.abs_spec b) as [[Hb Eb]|[Hb Eb]];
    rewrite Ea, Eb in HX; rewrite <- HX; repeat case_bool_decide; lia.
Qed.

(** ** Inverses *)

Lemma gcd_emod a c : c <> 0 -> Z.gcd (a mod Z.abs c) (Z.abs c) = Z.gcd a c.
Proof. intros Hc. rewrite Z.gcd_mod, Z.gcd_comm by lia. by rewrite Z.gcd_abs_r. Qed.

Lemma ModInverse_spec self g n a c : repr g a -> repr n c -> c <> 0 ->
  if decide (Z.gcd a c = 1)
  then exists z, returns (ModInverse self g n) z /\ 0 <= z < Z.abs c /\ (z * a) mod Z.abs c = 1 mod Z.abs c
  else ModInverse self g n = Some self.
Proof.
  intros Hg Hn Hc. unfold ModInverse. rewrite (divisor_nonzero n c) by done.
  pose proof (Abs_spec n c Hn) as Hna.
  destruct (Mod_spec g (Abs n) a (Z.abs c) Hg Hna ltac:(lia)) as (gr & Egr & Hgr). rewrite Egr, some_bind; clear Egr.
  unfold emod in Hgr. rewrite (Z.abs_eq (Z.abs c)) in Hgr by lia.
  destruct (GCD_spec gr (Abs n) _ _ Hgr Hna) as (d & xc & y & X & Y & Ed & Hd & Hx & Hy & HX & HY). rewrite Ed, some_bind; clear Ed. cbv beta iota.
  rewrite gcd_emod in * by done. specialize (HY ltac:(lia)). rewrite (Z.abs_eq (Z.abs c)) in HY by lia.
  pose proof (Cmp_eq d (SetInt64 1) _ _ Hd repr_1) as Hcmp.
  destruct (decide (Z.gcd a c = 1)) as [H1|H1]; [|by rewrite decide_True by (intros ?%Hcmp; lia)].
  rewrite decide_False by (intros Hne; apply Hne, Hcmp; done). rewrite H1 in *.
  assert (forall z, z mod Z.abs c = X mod Z.abs c -> (z * a) mod Z.abs c = 1 mod Z.abs c) as Hinv.
  { intros z Hz. rewrite <- HX. rewrite Z.mul_comm, Z.mul_mod, Hz, <- Z.mul_mod by lia.
    rewrite (Z.mul_comm (Z.abs c)), Z.mod_add by lia. by rewrite Z.mul_mod_idemp_l by lia. }
  rewrite (neg_repr xc X) by done. case_bool_decide as HXneg.
  - exists (X + Z.abs c). split; [by apply Add_spec|]. split; [lia|]. apply Hinv.
    rewrite <- (Z.mul_1_l (Z.abs c)) at 1. by rewrite Z.mod_add by lia.
  - exists X. split; [by eexists|]. split; [lia|]. by apply Hinv.
Qed.

(** ** Powers *)

(** What [reduce] computes: nothing without a modulus. *)
Definition red (c z : Z) : Z := if decide (c = 0) then z else z mod Z.abs c.

Lemma red_mul c a b : red c (red c a * red c b) = red c (a * b).
Proof. unfold red. case_decide; [done|]. by rewrite <- Z.mul_mod by lia. Qed.

Lemma red_idem c a : red c (red c a) = red c a.
Proof. unfold red. case_decide; [done|]. by rewrite Z.mod_mod by lia. Qed.

Lemma reduce_spec m c l : repr m c -> normal l ->
  exists r, reduce (is_empty (abs m)) (abs m) l = Some r /\ normal r /\ val r = red c (val l).
Proof.
  intros Hm Hl. unfold reduce, red. rewrite (is_empty_repr m c) by done. case_bool_decide as Hc.
  - exists l. by rewrite decide_True by done.
  - rewrite decide_False by done. take_repr m Hm.
    destruct (divmod_limbs_spec l lm Hl Nm) as (q & r & -> & _ & Hr & _ & Vr); [intros ->; destruct nm; cbn in *; lia|].
    rewrite some_bind. exists r. split; [done|]. split; [done|]. rewrite Vr. f_equal. destruct nm; lia.
Qed.

Lemma mul_reduce_spec m c l k : repr m c -> normal l -> normal k ->
  exists r, (p ← mul_limbs l k; reduce (is_empty (abs m)) (abs m) p) = Some r /\ normal r /\ val r = red c (val l * val k).
Proof.
  intros Hm Hl Hk. destruct (mul_limbs_spec l k (proj1 Hl) (proj1 Hk)) as (p & -> & Hp & Vp). rewrite some_bind, <- Vp.
  by apply reduce_spec.
Qed.

Lemma pow_low_bits X e i : 0 <= e -> 0 <= i ->
  X ^ (e mod 2 ^ (i + 1)) = X ^ (e mod 2 ^ i) * (if Z.testbit e i then X ^ (2 ^ i) else 1).
Proof.
  intros He Hi. assert (0 < 2 ^ i) by (apply Z.pow_pos_nonneg; lia). pose proof (Z.mod_pos_bound e (2 ^ i) ltac:(lia)).
  assert (e mod 2 ^ (i + 1) = e mod 2 ^ i + 2 ^ i * Z.b2z (Z.testbit e i)) as ->.
  { rewrite Z.pow_add_r, Z.pow_1_r by lia. rewrite Z.rem_mul_r by lia. by rewrite Z.testbit_spec' by lia. }
  rewrite Z.pow_add_r by (destruct (Z.testbit e i); cbn; lia). f_equal. destruct (Z.testbit e i); cbn [Z.b2z].
  - by rewrite Z.mul_1_r.
  - by rewrite Z.mul_0_r, Z.pow_0_r.
Qed.

(** The loop over the bits of the exponent [e]. *)
Lemma exp_loop_spec y m c e X acc base : repr y e -> 0 <= e -> repr m c ->
  normal acc -> val acc = red c 1 -> normal base -> val base = red c X ->
  let total := if decide (e = 0) then 0 else Z.log2 e + 1 in
  exists acc' base', for_range 0 total (fun bit '(acc, base) =>
      limb ← idx (abs y) (bit / 32);
      acc ← (if decide (Z.land (Z.shiftr limb (bit mod 32)) 1 = 1)
             then p ← mul_limbs acc base; reduce (is_empty (abs m)) (abs m) p else Some acc);
      base ← (if decide (bit + 1 < total) then p ← mul_limbs base base; reduce (is_empty (abs m)) (abs m) p
              else Some base);
      Some (acc, base)) (acc, base) = Some (acc', base') /\ normal acc' /\ val acc' = red c (X ^ e).
Proof.
  intros Hy He Hm Hacc Vacc Hbase Vbase total. pose proof (neg_repr y e Hy) as Hneg. take_repr y Hy.
  rewrite bool_decide_false in Hneg by lia. subst ny. destruct Ey as [_ Ey].
  assert (0 <= total) as Ht by (unfold total; pose proof (Z.log2_nonneg e); case_decide; lia).
  assert (e < 2 ^ total) as He2.
  { unfold total. case_decide; [lia|]. destruct (Z.log2_spec e ltac:(lia)) as [_ Hl2]. by rewrite <- Z.add_1_r in Hl2. }
  go_loop (fun i '(acc, base) => normal acc /\ val acc = red c (X ^ (e mod 2 ^ i)) /\ normal base /\
    (i < total -> val base = red c (X ^ (2 ^ i)))) s H; [lia| | |].
  - rewrite Z.mod_1_r, Z.pow_0_r, Z.pow_1_r. done.
  - intros i [ac bs] Hi (Ha & Va & Hb & Vb). cbv beta iota. specialize (Vb ltac:(lia)). cbn [abs].
    assert (i / 32 < zlen ly) as Hlen.
    { assert (2 ^ i <= val ly) as Hle.
      { rewrite <- Ey. unfold total in Hi. case_decide; [lia|]. apply Z.le_trans with (2 ^ Z.log2 e); [apply Z.pow_le_mono_r; lia|].
        apply Z.log2_spec. lia. }
      apply Z.nle_gt. intros Hc. pose proof (val_beyond ly (i / 32) (proj1 Ny) Hc) as Hlt. unfold Bpow in Hlt.
      assert (2 ^ (32 * (i / 32)) <= 2 ^ i) by (apply Z.pow_le_mono_r; lia). lia. }
    destruct (idx_ok ly (i / 32) ltac:(lia)) as [w Hw]. rewrite Hw, some_bind.
    rewrite land_1_testbit by lia. assert (Z.testbit w (i mod 32) = Z.testbit e i) as ->.
    { rewrite Ey, testbit_val by (apply Ny || lia). by rewrite Hw. }
    assert (exists ac', (if decide (Z.b2z (Z.testbit e i) = 1) then p ← mul_limbs ac bs; reduce (is_empty (abs m)) (abs m) p
        else Some ac) = Some ac' /\ normal ac' /\ val ac' = red c (X ^ (e mod 2 ^ (i + 1)))) as (ac' & -> & Ha' & Va').
    { rewrite pow_low_bits by lia. destruct (Z.testbit e i); cbn [Z.b2z].
      - rewrite decide_True by done. destruct (mul_reduce_spec m c ac bs Hm Ha Hb) as (r & -> & Hr & Vr).
        exists r. split; [done|]. split; [done|]. by rewrite Vr, Va, Vb, red_mul.
      - rewrite decide_False, Z.mul_1_r by done. by exists ac. }
    rewrite some_bind.
    assert (exists bs', (if decide (i + 1 < total) then p ← mul_limbs bs bs; reduce (is_empty (abs m)) (abs m) p
        else Some bs) = Some bs' /\ normal bs' /\ (i + 1 < total -> val bs' = red c (X ^ (2 ^ (i + 1))))) as (bs' & -> & Hb' & Vb').
    { case_decide.
      - destruct (mul_reduce_spec m c bs bs Hm Hb Hb) as (r & -> & Hr & Vr). exists r. split; [done|]. split; [done|]. intros _.
        rewrite Vr, Vb, red_mul, <- Z.pow_add_r by (apply Z.pow_nonneg; lia). f_equal. f_equal.
        rewrite Z.pow_add_r, Z.pow_1_r by lia. lia.
      - exists bs. split; [done|]. split; [done|]. lia. }
    rewrite some_bind. eexists. split; [done|]. done.
  - destruct s as [ac bs]. destruct H as (Ha & Va & _ & _). exists ac, bs. split; [done|]. split; [done|].
    by rewrite Va, Z.mod_small by lia.
Qed.

Lemma pow_abs_sign a e : 0 <= e -> a ^ e = (if bool_decide (a < 0) && Z.odd e then - Z.abs a ^ e else Z.abs a ^ e).
Proof.
  intros He. case_bool_decide as Ha; cbn [andb]; [|by rewrite Z.abs_eq by lia].
  rewrite Z.abs_neq by lia. destruct (Z.odd e) eqn:Ho.
  - rewrite Z.pow_opp_odd by (by apply Z.odd_spec). lia.
  - rewrite Z.pow_opp_even; [done|]. apply Z.even_spec. rewrite <- Z.negb_odd, Ho. done.
Qed.

(** The parity that the code reads off the lowest limb. *)
Lemma y_odd_spec y e : repr y e -> 0 <= e ->
  (if is_empty (abs y) then Some false else l ← idx (abs y) 0; Some (bool_decide (Z.land l 1 = 1))) = Some (Z.odd e).
Proof.
  intros Hy He. pose proof (Bit_spec y e 0 Hy ltac:(lia)) as H. unfold Bit in H. rewrite decide_True in H by done.
  destruct (is_empty (abs y)).
  - f_equal. rewrite <- Z.bit0_odd. destruct (Z.testbit e 0); [discriminate H|done].
  - destruct (idx (abs y) 0) as [l|]; [|done]. rewrite some_bind in *. injection H as ->. f_equal.
    rewrite <- Z.bit0_odd. by destruct (Z.testbit e 0).
Qed.

Lemma exp_nonneg_spec x y m a e c : repr x a -> repr y e -> 0 <= e -> repr m c -> returns (exp_nonneg x y m) (red c (a ^ e)).
Proof.
  intros Hx Hy He Hm. unfold exp_nonneg. pose proof (repr_abs x a Hx) as Hxa. apply repr_elim in Hxa as [Nx [_ Vx]]. cbn [abs] in *.
  destruct (reduce_spec m c (abs x) Hm Nx) as (base & -> & Hbase & Vbase). rewrite some_bind.
  destruct (reduce_spec m c [1] Hm (proj1 normal_one)) as (acc & -> & Hacc & Vacc). rewrite some_bind.
  rewrite <- Vx in Vbase. change (val [1]) with 1 in Vacc.
  pose proof (BitLen_spec y e Hy) as Hbl. unfold BitLen in Hbl. rewrite Hbl, some_bind, Z.abs_eq by lia.
  destruct (exp_loop_spec y m c e (Z.abs a) acc base Hy He Hm Hacc Vacc Hbase Vbase) as (ac & bs & -> & Ha & Va).
  rewrite some_bind. cbv beta iota. rewrite (y_odd_spec y e Hy He), some_bind, is_empty_val by done.
  rewrite (neg_repr x a), (is_empty_repr m c) by done. rewrite (pow_abs_sign a e He).
  rewrite <- !(andb_assoc (negb (bool_decide (val ac = 0))) (bool_decide (a < 0)) (Z.odd e)). set (s := bool_decide (a < 0) && Z.odd e). set (P := Z.abs a ^ e) in *.
  destruct (decide (val ac = 0)) as [H0|H0].
  - rewrite bool_decide_true by done. cbn [negb andb]. eexists. split; [done|]. apply repr_intro; [done|done|].
    destruct s; [|done]. unfold red in *. destruct (decide (c = 0)); [by rewrite <- Va, H0|]. rewrite H0. apply Z.mod_opp_l_z; [lia|congruence].
  - rewrite bool_decide_false by done. cbn [negb andb]. destruct s; cbn [andb].
    + case_bool_decide as Hc; cbn [negb andb].
      * eexists. split; [done|]. apply repr_intro; [done|done|]. unfold red in *. rewrite (decide_True (P := c = 0)) in Va |- * by done. by rewrite Va.
      * destruct (repr_mag m c Hm) as [Nm Vm]. unfold red in *. rewrite (decide_False (P := c = 0)) in Va |- * by done.
        pose proof (Z.mod_pos_bound P (Z.abs c) ltac:(lia)) as Hr. rewrite Z.mod_opp_l_nz by lia. rewrite <- Va in *.
        destruct (sub_limbs_ok (abs m) ac Nm Ha) as (d & -> & Hd & Vd); [lia|]. rewrite some_bind.
        eexists. split; [done|]. apply repr_intro; [done|done|]. lia.
    + eexists. split; [done|]. by apply repr_intro.
Qed.

Lemma Exp_negative self x y m a e c : repr x a -> repr y e -> e < 0 -> repr m c ->
  if decide (c = 0) then returns (Exp self x y m) 1
  else if decide (Z.gcd a c = 1)
  then exists z, returns (Exp self x y m) z /\ 0 <= z < Z.abs c /\ (z * a ^ (- e)) mod Z.abs c = 1 mod Z.abs c
  else Exp self x y m = Some self.
Proof.
  intros Hx Hy He Hm. unfold Exp. rewrite (neg_repr y e), bool_decide_true by done. rewrite (is_empty_repr m c) by done.
  case_decide as Hc; [rewrite bool_decide_true by done; eexists; by auto with goish|].
  rewrite bool_decide_false by done. pose proof (Abs_spec m c Hm) as Hma. assert (Z.abs c <> 0) as Hc0 by lia.
  destruct (Mod_spec x (Abs m) a (Z.abs c) Hx Hma ltac:(lia)) as (xr & -> & Hxr). rewrite some_bind.
  unfold emod in Hxr. rewrite (Z.abs_eq (Z.abs c)) in Hxr by lia.
  destruct (GCD_spec xr (Abs m) _ _ Hxr Hma) as (g & u & v & X & Y & -> & Hg & _). rewrite some_bind. cbv beta iota.
  rewrite gcd_emod in Hg by done. pose proof (Cmp_eq g (SetInt64 1) _ _ Hg repr_1) as Hcmp.
  case_decide as H1; [|by rewrite decide_True by (intros ?%Hcmp; lia)].
  rewrite decide_False by (intros Hne; apply Hne, Hcmp; done).
  pose proof (ModInverse_spec new xr (Abs m) _ _ Hxr Hma ltac:(lia)) as Hinv. rewrite gcd_emod, decide_True in Hinv by done.
  destruct Hinv as (z & (i & -> & Hi) & Hz & Hza). rewrite some_bind. rewrite (Z.abs_eq (Z.abs c)) in * by lia.
  exists (red (Z.abs c) (z ^ (- e))). split; [apply exp_nonneg_spec; [done|by apply Neg_spec|lia|done]|].
  unfold red. rewrite decide_False, (Z.abs_eq (Z.abs c)) by lia. split; [apply Z.mod_pos_bound; lia|].
  rewrite Z.mul_mod_idemp_l, <- Z.pow_mul_l by done. rewrite Z.mul_mod_idemp_r in Hza by done.
  assert (forall n, 0 <= n -> ((z * a) ^ n) mod Z.abs c = 1 mod Z.abs c) as Hpow; [|apply Hpow; lia].
  intros n Hn. pattern n. apply natlike_ind; [by rewrite Z.pow_0_r| |done].
  intros k Hk IH. rewrite Z.pow_succ_r by done. by rewrite Z.mul_mod, IH, Hza, <- Z.mul_mod by done.
Qed.
