(* ===== verification/BigIntSqrt.v ===== *)
(** Square roots by Newton's iteration, products of ranges and binomial coefficients of [Int]. *)
From Stdlib Require Import ZArith Lia.
From stdpp Require Import base tactics numbers list list_numbers option.
From S2P Require Import Prelude Limbs LimbsSpec LimbsDiv LimbsBits BigInt BigIntSpec BigIntNum.
Open Scope Z_scope.

(** ** Square roots *)

Lemma ediv_pos a b : 0 < b -> ediv a b = a / b.
Proof. intros Hb. unfold ediv. by rewrite Z.sgn_pos, Z.abs_eq, Z.mul_1_l by lia. Qed.

(** An iterate above the root halves its distance to it and never falls below it. *)
Lemma newton_step X t : 0 <= X -> 0 < t -> Z.sqrt X <= t ->
  let t' := (t + X / t) / 2 in
  Z.sqrt X <= t' /\ (Z.sqrt X < t -> t' < t /\ 2 * (t' - Z.sqrt X) <= t - Z.sqrt X).
Proof.
  intros HX Ht Hle t'. destruct (Z.sqrt_spec X HX) as [H1 H2]. pose proof (Z.sqrt_nonneg X). set (s := Z.sqrt X) in *.
  pose proof (Z.div_mod X t ltac:(lia)) as Hd. pose proof (Z.mod_pos_bound X t Ht) as Hm. set (q := X / t) in *. set (r := X mod t) in *.
  assert (t' = (t + q) / 2) as Et by done. clearbody t' q r s. split.
  - assert (2 * s <= t + q); [|lia]. apply Z.nlt_ge. intros Hc. assert (q + 1 <= 2 * s - t) by lia.
    assert (X < t * (2 * s - t)) as Hlt by nia. assert (t * (2 * s - t) = s * s - (s - t) * (s - t)) as E by ring.
    pose proof (Z.square_nonneg (s - t)). lia.
  - intros Hlt. assert (q <= s); [|lia]. apply Z.nlt_ge. intros Hc. assert (s + 1 <= q) by lia.
    assert ((s + 1) * (s + 1) <= t * q) by nia. lia.
Qed.

Lemma sqrt_loop_spec x X : repr x X -> 0 < X -> forall k fuel t T, repr t T -> 0 < T -> Z.sqrt X <= T ->
  T - Z.sqrt X < 2 ^ Z.of_nat k -> (k < fuel)%nat -> returns (sqrt_loop fuel x t) (Z.sqrt X).
Proof.
  intros Hx HX. assert (repr (SetInt64 2) 2) as H2 by (apply SetInt64_repr; lia).
  induction k as [|k IH]; intros fuel t T Ht HT Hle Hk Hf; (destruct fuel as [|fuel]; [lia|]); cbn [sqrt_loop];
    destruct (newton_step X T ltac:(lia) HT Hle) as [Hge Hlt];
    go_call (Div_spec x t X T Hx Ht ltac:(lia)) q Hq; rewrite ediv_pos in Hq by lia; go_call (Add_spec t q _ _ Ht Hq) sm Hsm;
    go_call (Div_spec sm (SetInt64 2) _ _ Hsm H2 ltac:(lia)) nx Hnx; rewrite ediv_pos in Hnx by lia;
    pose proof (Cmp_ge nx t _ _ Hnx Ht) as Hcmp; clear Hq Hsm q sm.
  - change (2 ^ Z.of_nat 0) with 1 in Hk. assert (T = Z.sqrt X) as -> by lia.
    rewrite decide_True by (by apply Hcmp). by exists t.
  - destruct (decide (T = Z.sqrt X)) as [->|Hne].
    + rewrite decide_True by (by apply Hcmp). by exists t.
    + destruct (Hlt ltac:(lia)) as [Hd Hhalf]. rewrite decide_False by (intros ?%Hcmp; lia).
      pose proof (Z.sqrt_pos X) as Hsp. eapply IH; [done|lia|lia| |lia].
      rewrite Nat2Z.inj_succ, Z.pow_succ_r in Hk by lia. lia.
Qed.

Lemma sqrt_start X n : 1 < X -> X < 2 ^ (32 * n) -> let T := 2 ^ ((Z.log2 X + 1 + 1) / 2) in
  Z.sqrt X <= T /\ T <= 2 ^ (16 * n) /\ 0 < T.
Proof.
  intros HX Hn T. destruct (Z.log2_spec X ltac:(lia)) as [H1 H2]. pose proof (Z.log2_nonneg X).
  assert (0 < T) by (apply Z.pow_pos_nonneg; lia). split; [|split; [|done]].
  - assert (Z.sqrt X < T); [|lia]. apply Z.sqrt_lt_square; [lia|lia|].
    apply Z.lt_le_trans with (2 ^ Z.succ (Z.log2 X)); [done|]. unfold T. rewrite <- Z.pow_add_r by lia. apply Z.pow_le_mono_r; lia.
  - apply Z.log2_lt_pow2 in Hn; [|lia]. unfold T. apply Z.pow_le_mono_r; lia.
Qed.

Lemma Sqrt_spec x X : repr x X -> if decide (X < 0) then Sqrt x = None else returns (Sqrt x) (Z.sqrt X).
Proof.
  intros Hx. unfold Sqrt. rewrite (neg_repr x X), (is_empty_repr x X) by done. case_decide as H0; [by rewrite bool_decide_true|].
  rewrite (bool_decide_false (X < 0)) by done. case_bool_decide as Hz.
  { subst. eexists. split; [done|]. change (Z.sqrt 0) with 0. apply SetInt64_repr. lia. }
  pose proof (Cmp_eq x (SetInt64 1) X 1 Hx repr_1) as Hcmp. case_decide as H1.
  { apply Hcmp in H1. subst. eexists. split; [done|]. apply repr_1. }
  assert (X <> 1) by (intros E; apply H1, Hcmp, E). rewrite (BitLen_spec x X), decide_False, some_bind, Z.abs_eq by (done || lia).
  pose proof (repr_bound x X Hx) as Hb. rewrite Z.abs_eq in Hb by lia.
  destruct (sqrt_start X (Z.of_nat (length (abs x))) ltac:(lia) Hb) as (T1 & T2 & T3).
  pose proof (Z.log2_nonneg X). destruct (Lsh_spec (SetInt64 1) 1 ((Z.log2 X + 1 + 1) / 2) repr_1 ltac:(lia)) as (t & -> & Ht).
  rewrite some_bind. rewrite Z.shiftl_1_l in Ht. pose proof (Z.sqrt_nonneg X).
  destruct (sqrt_loop_spec x X Hx ltac:(lia) (16 * length (abs x) + 1) (16 * length (abs x) + 4) t _ Ht T3 T1) as (z & -> & Hr); [|lia|].
  { rewrite Nat2Z.inj_add, Nat2Z.inj_mul, Z.pow_add_r by lia. change (Z.of_nat 16) with 16. change (2 ^ Z.of_nat 1) with 2. lia. }
  rewrite some_bind. eexists. split; [done|]. apply repr_abs in Hr. by rewrite Z.abs_eq in Hr by lia.
Qed.

(** ** Products of ranges *)

Definition range_prod (a n : Z) : Z := foldr Z.mul 1 (seqZ a n).

Lemma foldr_mul_snoc l x : foldr Z.mul 1 (l ++ [x]) = foldr Z.mul 1 l * x.
Proof. induction l as [|y l IH]; cbn; [lia|]. rewrite IH. lia. Qed.

Lemma range_prod_S a n : 0 <= n -> range_prod a (n + 1) = range_prod a n * (a + n).
Proof.
  intros Hn. unfold range_prod. rewrite seqZ_app by lia. change (seqZ (a + n) 1) with [a + n]. apply foldr_mul_snoc.
Qed.

Lemma range_prod_cons a n : 0 < n -> range_prod a n = a * range_prod (a + 1) (n - 1).
Proof. intros Hn. unfold range_prod. rewrite seqZ_cons by lia. replace (Z.succ a) with (a + 1) by lia. by replace (Z.pred n) with (n - 1) by lia. Qed.

Lemma range_prod_0 a n : a <= 0 -> 0 < a + n -> range_prod a n = 0.
Proof.
  intros Ha Hn. assert (0 ∈ seqZ a n) as H by (apply elem_of_seqZ; lia). unfold range_prod.
  induction (seqZ a n) as [|x l IH]; [by apply elem_of_nil in H|]. cbn.
  apply elem_of_cons in H as [<-|H]; [done|]. rewrite IH by done. lia.
Qed.

Lemma range_prod_pos a n : 0 < a -> 0 < range_prod a n.
Proof.
  intros Ha. unfold range_prod. assert (Forall (fun x => 0 < x) (seqZ a n)) as H.
  { apply list.Forall_forall. intros x Hx%elem_of_seqZ. lia. }
  induction H as [|x l Hx _ IH]; cbn; [lia|]. nia.
Qed.

(** The same range on the other side of zero: each factor changes its sign. *)
Lemma range_prod_opp a n : 0 <= n -> range_prod (- a - n + 1) n = (if Z.odd n then -1 else 1) * range_prod a n.
Proof.
  intros Hn. pattern n. apply natlike_ind; [done| |done]. intros k Hk IH.
  rewrite <- Z.add_1_r. rewrite (range_prod_S a k), (range_prod_cons (- a - (k + 1) + 1) (k + 1)) by lia.
  replace (- a - (k + 1) + 1 + 1) with (- a - k + 1) by lia. replace (k + 1 - 1) with k by lia. rewrite IH.
  rewrite Z.odd_add. change (Z.odd 1) with true. destruct (Z.odd k); cbn [xorb]; ring.
Qed.

Lemma mul_range_loop lo hi : 0 < lo <= hi -> hi < 2 ^ 64 ->
  exists l, for_range lo (hi + 1) (fun n l => mul_limbs l (u64_to_limbs n)) (u64_to_limbs 1) = Some l /\ normal l /\
    val l = range_prod lo (hi + 1 - lo).
Proof.
  intros Hlo Hhi. go_loop (fun i l => normal l /\ val l = range_prod lo (i - lo)) l H; [lia| | |].
  - destruct (u64_to_limbs_spec 1 ltac:(lia)) as [H1 H2]. rewrite Z.sub_diag. done.
  - intros i l Hi [Hl Hv]. destruct (u64_to_limbs_spec i ltac:(lia)) as [H1 H2].
    destruct (mul_limbs_spec l (u64_to_limbs i) (proj1 Hl) (proj1 H1)) as (c & -> & Hc & Vc). exists c. split; [done|]. split; [done|].
    replace (i + 1 - lo) with (i - lo + 1) by lia. rewrite range_prod_S, Vc, Hv, H2 by lia. f_equal. lia.
  - by exists l.
Qed.

Lemma land_1_0 d : bool_decide (Z.land d 1 = 0) = Z.even d.
Proof.
  change 1 with (Z.ones 1). rewrite Z.land_ones by lia. change (2 ^ 1) with 2. rewrite Zeven_mod.
  destruct (Zeq_bool (d mod 2) 0) eqn:E; [apply bool_decide_true; by apply Zeq_bool_eq|apply bool_decide_false; by apply Zeq_bool_neq].
Qed.

Lemma MulRange_spec a b : - 2 ^ 63 < a < 2 ^ 63 -> - 2 ^ 63 <= b < 2 ^ 63 -> returns (MulRange a b) (range_prod a (b + 1 - a)).
Proof.
  intros Ha Hb. unfold MulRange. case_decide as H1.
  { eexists. split; [done|]. unfold range_prod. rewrite seqZ_nil by lia. apply repr_1. }
  case_decide as H2.
  { eexists. split; [done|]. rewrite range_prod_0 by lia. apply SetInt64_repr. lia. }
  assert (forall lo hi ng, 0 < lo <= hi -> hi < 2 ^ 64 ->
    returns (l ← for_range lo (hi + 1) (fun n l => mul_limbs l (u64_to_limbs n)) (u64_to_limbs 1);
             Some (mkInt (ng && negb (is_empty l)) l)) ((if ng : bool then -1 else 1) * range_prod lo (hi + 1 - lo))) as Hloop.
  { intros lo hi ng Hlo Hhi. destruct (mul_range_loop lo hi Hlo Hhi) as (l & -> & Hl & Hv). rewrite some_bind.
    eexists. split; [done|]. rewrite andb_comm. apply repr_signed; [done|]. destruct ng; lia. }
  case_decide as H3.
  - rewrite !chki64_ok, !some_bind by lia. cbv beta iota. rewrite land_1_0.
    specialize (Hloop (- b) (- a) (Z.even (b - a)) ltac:(lia) ltac:(lia)).
    replace (range_prod a (b + 1 - a)) with ((if Z.even (b - a) then -1 else 1) * range_prod (- b) (- a + 1 - - b)); [done|].
    replace a with (- (- b) - (b + 1 - a) + 1) at 3 by lia. rewrite (range_prod_opp (- b)) by lia.
    replace (b + 1 - a) with (Z.succ (b - a)) by lia. rewrite Z.odd_succ. by replace (- a + 1 - - b) with (Z.succ (b - a)) by lia.
  - rewrite some_bind. cbv beta iota. specialize (Hloop a b false ltac:(lia) ltac:(lia)). by rewrite Z.mul_1_l in Hloop.
Qed.

(** ** Binomial coefficients *)

(** Pascal's triangle. *)
Fixpoint binom (n k : nat) : Z :=
  match k, n with
  | O, _ => 1
  | S _, O => 0
  | S k', S n' => binom n' k' + binom n' k
  end.

Lemma binom_absorb n k : Z.of_nat (S k) * binom n (S k) = (Z.of_nat n - Z.of_nat k) * binom n k.
Proof.
  revert k. induction n as [|n IH]; intros k.
  - destruct k; cbn [binom]; lia.
  - destruct k as [|k].
    + pose proof (IH O) as H. cbn [binom] in *. destruct n; cbn [binom] in *; lia.
    + pose proof (IH (S k)) as H1. pose proof (IH k) as H2.
      change (binom (S n) (S (S k))) with (binom n (S k) + binom n (S (S k))).
      change (binom (S n) (S k)) with (binom n k + binom n (S k)). rewrite !Nat2Z.inj_succ in *. lia.
Qed.

Lemma binom_gt n k : (n < k)%nat -> binom n k = 0.
Proof.
  revert k. induction n as [|n IH]; intros [|k] Hk; try lia; [done|]. cbn [binom]. rewrite !IH by lia. done.
Qed.

Lemma binom_diag n : binom n n = 1.
Proof. induction n as [|n IH]; [done|]. cbn [binom]. rewrite IH, binom_gt by lia. done. Qed.

Lemma binom_sym n k : (k <= n)%nat -> binom n (n - k) = binom n k.
Proof.
  revert k. induction n as [|n IH]; intros k Hk; [by replace k with O by lia|]. destruct k as [|k].
  - rewrite Nat.sub_0_r, binom_diag. done.
  - destruct (decide (k = n)) as [->|Hne]; [by rewrite Nat.sub_diag, binom_diag|].
    replace (S n - S k)%nat with (S (n - S k)) by lia. cbn [binom]. rewrite IH by lia.
    replace (S (n - S k)) with (n - k)%nat by lia. rewrite IH by lia. lia.
Qed.

Lemma Binomial_loop n k : 0 <= k <= n -> n < 2 ^ 63 ->
  returns (for_range 0 k (fun ival z => z ← Mul z (SetInt64 (n - ival)); Quo z (SetInt64 (ival + 1))) (SetInt64 1))
    (binom (Z.to_nat n) (Z.to_nat k)).
Proof.
  intros Hk Hn. go_loop (fun i z => repr z (binom (Z.to_nat n) (Z.to_nat i))) z H; [lia| | |].
  - destruct (Z.to_nat n); apply repr_1.
  - intros i z Hi Hz. pose proof (SetInt64_repr (n - i) ltac:(lia)) as H1. pose proof (SetInt64_repr (i + 1) ltac:(lia)) as H2.
    destruct (Mul_spec _ _ _ _ Hz H1) as (m & -> & Hm). rewrite some_bind.
    destruct (Quo_spec _ _ _ _ Hm H2 ltac:(lia)) as (q & -> & Hq). exists q. split; [done|].
    pose proof (binom_absorb (Z.to_nat n) (Z.to_nat i)) as Ha.
    replace (Z.to_nat (i + 1)) with (S (Z.to_nat i)) by lia.
    replace (binom (Z.to_nat n) (Z.to_nat i) * (n - i)) with (binom (Z.to_nat n) (S (Z.to_nat i)) * (i + 1)) in Hq.
    + by rewrite Z.quot_mul in Hq by lia.
    + rewrite Nat2Z.inj_succ, !Z2Nat.id in Ha by lia. lia.
  - by exists z.
Qed.

Lemma Binomial_spec n k : - 2 ^ 63 <= n < 2 ^ 63 ->
  returns (Binomial n k) (if decide (0 <= k <= n) then binom (Z.to_nat n) (Z.to_nat k) else 0).
Proof.
  intros Hn. unfold Binomial. destruct (decide (0 <= k <= n)) as [Hk|Hk].
  - rewrite decide_False by lia. case_decide as H.
    + replace (binom (Z.to_nat n) (Z.to_nat k)) with (binom (Z.to_nat n) (Z.to_nat (n - k))).
      * apply Binomial_loop; lia.
      * rewrite Z2Nat.inj_sub by lia. apply binom_sym. lia.
    + apply Binomial_loop; lia.
  - rewrite decide_True by lia. eexists. split; [done|]. apply SetInt64_repr. lia.
Qed.
