(* ===== verification/BigIntRefine.v ===== *)
(** [Int] as an implementation of the integers: the theorems about its public methods. *)
From Stdlib Require Import ZArith Znumtheory Lia.
From stdpp Require Import base tactics numbers list list_numbers option.
From S2P Require Import Prelude Digits Limbs LimbsSpec LimbsDiv LimbsBits BigInt BigIntSpec BigIntText BigIntNum BigIntSqrt.
Open Scope Z_scope.

(** ** Words *)

Lemma as_i64_range x : - 2 ^ 63 <= as_i64 x < 2 ^ 63.
Proof. unfold as_i64. pose proof (Z.mod_pos_bound (x + 2 ^ 63) (2 ^ 64)). lia. Qed.

Lemma as_i64_small x : - 2 ^ 63 <= x < 2 ^ 63 -> as_i64 x = x.
Proof. intros Hx. unfold as_i64. rewrite Z.mod_small by lia. lia. Qed.

Lemma as_i64_cong x y : x mod 2 ^ 64 = y mod 2 ^ 64 -> as_i64 x = as_i64 y.
Proof. intros H. unfold as_i64. f_equal. rewrite Z.add_mod, H, <- Z.add_mod by lia. done. Qed.

Lemma as_i64_mod x : as_i64 x mod 2 ^ 64 = x mod 2 ^ 64.
Proof.
  unfold as_i64. rewrite Zminus_mod_idemp_l. f_equal. lia.
Qed.

Lemma Int64_spec x a : repr x a -> Int64 x = as_i64 a.
Proof.
  intros Hx. take_repr x Hx. unfold Int64. cbn [neg abs]. rewrite limbs_to_u64_spec by apply Nx. destruct nx; destruct Ex as [_ ->].
  - apply as_i64_cong. rewrite <- (Z.sub_0_l (as_i64 _)), <- (Z.sub_0_l (val lx)). rewrite <- Zminus_mod_idemp_r, as_i64_mod, Z.mod_mod by lia.
    by rewrite Zminus_mod_idemp_r.
  - apply as_i64_cong. by rewrite Z.mod_mod by lia.
Qed.

Lemma two_limbs l : normal l -> zlen l <= 2 <-> val l < 2 ^ 64.
Proof.
  intros Hl. split; intros H.
  - pose proof (val_beyond l 2 (proj1 Hl) H) as Hv. done.
  - apply normal_zlen; [done|lia|done].
Qed.

Lemma IsInt64_spec x a : repr x a -> IsInt64 x = bool_decide (- 2 ^ 63 <= a < 2 ^ 63).
Proof.
  intros Hx. take_repr x Hx. unfold IsInt64. cbn [neg abs]. pose proof (two_limbs lx Nx) as H2.
  rewrite limbs_to_u64_spec by apply Nx. pose proof (val_range lx (proj1 Nx)). case_decide as Hz.
  - symmetry. apply bool_decide_false. assert (~ val lx < 2 ^ 64) by (intros ?%H2; lia). destruct nx; lia.
  - assert (val lx < 2 ^ 64) by (apply H2; lia). rewrite Z.mod_small by lia. destruct nx; apply bool_decide_ext; lia.
Qed.

Lemma IsUint64_spec x a : repr x a -> IsUint64 x = bool_decide (0 <= a < 2 ^ 64).
Proof.
  intros Hx. take_repr x Hx. unfold IsUint64. cbn [neg abs]. pose proof (two_limbs lx Nx) as H2. pose proof (val_range lx (proj1 Nx)).
  destruct nx; cbn [negb andb]; [symmetry; apply bool_decide_false; lia|]. apply bool_decide_ext. rewrite H2. lia.
Qed.

(** ** Parsers never panic *)

Lemma scan_loop_total bytes base b fuel s : 2 <= b <= 62 -> 0 <= s_i s -> zlen bytes - s_i s < Z.of_nat fuel -> (0 < fuel)%nat ->
  normal (s_limbs s) -> exists s', scan_loop fuel bytes base b s = Some s' /\ normal (s_limbs s').
Proof.
  intros Hb. revert s. induction fuel as [|fuel IH]; intros s Hi Hf Hf0 Hn; [lia|]. cbn [scan_loop].
  case_decide as Hlt; [|by exists s]. destruct (idx_ok bytes (s_i s)) as [c ->]; [lia|]. rewrite some_bind. case_decide as Hsep.
  - apply IH; cbn [s_i s_limbs]; (lia || done).
  - destruct (digit_value c b) as [d|] eqn:Hd; [|by exists s]. pose proof (digit_value_range _ _ _ Hd).
    destruct (mul_add_word_spec (s_limbs s) b d (proj1 Hn)) as (l1 & -> & Hn1 & _); [unfold limb; lia..|]. rewrite some_bind.
    apply IH; cbn [s_i s_limbs]; (lia || done).
Qed.

Lemma scan_prefix_range bytes base i b p v k : 0 <= i -> (base = 0 \/ 2 <= base <= 62) ->
  scan_prefix bytes base i = (b, p, v, k) -> 2 <= b <= 62 /\ i <= k.
Proof.
  intros Hi Hb H. unfold scan_prefix in H. case_decide; [|simplify_eq; lia]. case_decide; [|simplify_eq; lia].
  repeat (match goal with H : context [match ?x with _ => _ end] |- _ => destruct x end); simplify_eq; lia.
Qed.

Lemma scan_int_total s base : exists r, scan_int s base = Some r /\ forall n l, r = Some (n, l) -> normal l.
Proof.
  unfold scan_int. case_decide as Hb; [exists None; done|]. assert (base = 0 \/ 2 <= base <= 62) as Hb' by (unfold MAX_BASE in Hb; lia).
  destruct (scan_sign_spec s) as (-> & _ & Hi). set (i := if decide (unsigned_text s = s) then 0 else 1) in *.
  destruct (scan_prefix s base i) as [[[b p] v] k] eqn:E. destruct (scan_prefix_range _ _ _ _ _ _ _ (proj1 Hi) Hb' E) as [Hbb Hk].
  destruct (scan_loop_total s base b (S (length s)) (mkScan [] 0 false v k)) as (s' & -> & Hn);
    [done|cbn [s_i]; lia|cbn [s_i]; unfold zlen; lia|lia|apply normal_nil|]. rewrite some_bind. eexists. split; [done|].
  intros n l. destruct (decide (s_i s' <> zlen s)); [done|]. destruct (s_inval s' || bool_decide (s_prev s' = 95)); [done|].
  case_decide; [case_decide; [|done]; intros [= <- <-]; apply normal_nil|]. by intros [= <- <-].
Qed.

Lemma parsed_wf n l : normal l -> wf (mkInt (n && negb (is_empty l)) l).
Proof. intros Hl. rewrite andb_comm. apply (repr_signed n l _ Hl eq_refl). Qed.

Lemma SetString_total self s base : wf self -> exists x ok, SetString self s base = Some (x, ok) /\ wf x /\ (ok = false -> x = self).
Proof.
  intros Hs. unfold SetString. destruct (scan_int_total s base) as (r & -> & Hr). rewrite some_bind.
  destruct r as [[n l]|]; do 2 eexists; (split; [done|]); [|done]. split; [|done]. apply parsed_wf. by eapply Hr.
Qed.

Lemma UnmarshalJSON_total self s : wf self -> exists x ok, UnmarshalJSON self s = Some (x, ok) /\ wf x /\ (ok = false -> x = self).
Proof.
  intros Hs. unfold UnmarshalJSON. case_decide; [by exists self, true|]. apply (SetString_total self s 0 Hs).
Qed.

(** ** The type *)

(** Only the sign byte is left unchecked. *)
Lemma GobDecode_total self bs : wf self -> Forall byte bs ->
  exists x ok, GobDecode self bs = Some (x, ok) /\ (wf x \/ x = mkInt true []) /\ (ok = false -> x = self).
Proof.
  intros Hs Hb. unfold GobDecode. destruct bs as [|b rest]; [eexists _, _; split; [done|]; split; [left; apply new_repr|done]|].
  case_decide; [eexists _, _; split; [done|]; split; [by left|done]|]. apply list.Forall_cons in Hb as [_ Hb].
  destruct (be_bytes_to_limbs_spec rest Hb) as (a & -> & Hn & _). rewrite some_bind. eexists _, _. split; [done|]. split; [|done].
  destruct (negb (bool_decide (Z.land b 1 = 0))); [|left; by split]. destruct a as [|x a]; [by right|left]. by split.
Qed.

(** C32: The type invariant of [Int]: every way to make one from words, bytes, limbs of 64 bits or any
    text in any base returns without a panic and gives a trimmed magnitude and no negative zero;
    rejected text leaves the receiver.  [GobDecode] of any bytes returns as well, with such a value
    or, for a sign bit and no magnitude, the one bad value, a negative zero.  And an integer has only one such representation, so that
    equal values are equal structures. *)
Theorem big_int_type : forall self, wf self ->
  wf new /\ (forall v, - 2 ^ 63 <= v < 2 ^ 63 -> repr (SetInt64 v) v) /\ (forall v, 0 <= v < 2 ^ 64 -> repr (SetUint64 v) v) /\
  (forall bs, Forall byte bs -> returns (SetBytes bs) (be_val bs)) /\
  (forall ws, Forall is_u64 ws -> repr (SetBits ws) (wval ws)) /\
  (forall s base, exists x ok, SetString self s base = Some (x, ok) /\ wf x /\ (ok = false -> x = self)) /\
  (forall s, exists x ok, UnmarshalJSON self s = Some (x, ok) /\ wf x /\ (ok = false -> x = self)) /\
  (forall bs, Forall byte bs -> exists x ok, GobDecode self bs = Some (x, ok) /\ (wf x \/ x = mkInt true []) /\ (ok = false -> x = self)) /\
  (forall x y, wf x -> wf y -> toZ x = toZ y -> x = y).
Proof.
  intros self Hs. split; [apply new_repr|]. split; [apply SetInt64_repr|]. split; [apply SetUint64_repr|].
  split. { intros bs Hb. apply returns_pos. by apply be_bytes_to_limbs_spec. }
  split. { intros ws Hw. destruct (words_to_limbs_spec ws Hw) as [H1 H2]. by apply repr_intro. }
  split; [intros; by apply SetString_total|]. split; [intros; by apply UnmarshalJSON_total|].
  split; [intros; by apply GobDecode_total|].
  intros x y Hx Hy E. by apply (repr_inj x y (toZ x)).
Qed.

Lemma big_int_type_witness : wf (NewInt 5) /\ returns (SetBytes [1; 0]) 256.
Proof.
  assert (wf (NewInt 5)) as H by (apply SetInt64_repr; lia). split; [exact H|].
  apply (big_int_type (NewInt 5) H). repeat constructor; unfold byte; lia.
Defined.

(** ** Arithmetic *)

(** C11: Sums, differences, products, negation and comparison of [Int] are those of the integers, for
    operands of any size and sign; none of these calls panics. *)
Theorem big_int_arith : forall x y, wf x -> wf y ->
  returns (Add x y) (toZ x + toZ y) /\ returns (Sub x y) (toZ x - toZ y) /\ returns (Mul x y) (toZ x * toZ y) /\
  repr (Neg x) (- toZ x) /\ repr (Abs x) (Z.abs (toZ x)) /\ Sign x = Z.sgn (toZ x) /\
  Cmp x y = ordering (toZ x ?= toZ y) /\ CmpAbs x y = ordering (Z.abs (toZ x) ?= Z.abs (toZ y)).
Proof.
  intros x y Hx Hy. split; [by apply Add_spec|]. split; [by apply Sub_spec|]. split; [by apply Mul_spec|].
  split; [by apply Neg_spec|]. split; [by apply Abs_spec|]. split; [by apply Sign_spec|]. split; [by apply Cmp_spec|].
  unfold CmpAbs. destruct (repr_mag x _ (wf_repr x Hx)) as [Nx <-]. destruct (repr_mag y _ (wf_repr y Hy)) as [Ny <-].
  by rewrite abs_cmp_spec.
Qed.

Lemma big_int_arith_witness : returns (Mul (NewInt (-7)) (NewInt (2 ^ 62))) (-7 * 2 ^ 62).
Proof.
  assert (wf (NewInt (-7))) as H1 by (apply SetInt64_repr; lia). assert (wf (NewInt (2 ^ 62))) as H2 by (apply SetInt64_repr; lia).
  exact (proj1 (proj2 (proj2 (big_int_arith _ _ H1 H2)))).
Defined.

(** C12: Division panics exactly for a zero divisor.  Otherwise [Quo], [Rem] and [QuoRem] truncate,
    and [Div], [Mod] and [DivMod] give the quotient and remainder with a remainder that is not negative. *)
Theorem big_int_division : forall x y, wf x -> wf y ->
  if decide (toZ y = 0)
  then Quo x y = None /\ Rem x y = None /\ QuoRem x y = None /\ Div x y = None /\ Mod x y = None /\ DivMod x y = None
  else returns (Quo x y) (Z.quot (toZ x) (toZ y)) /\ returns (Rem x y) (Z.rem (toZ x) (toZ y)) /\
    (exists q r, QuoRem x y = Some (q, r) /\ repr q (Z.quot (toZ x) (toZ y)) /\ repr r (Z.rem (toZ x) (toZ y))) /\
    exists q m, DivMod x y = Some (q, m) /\ Div x y = Some q /\ Mod x y = Some m /\ wf q /\ wf m /\
      toZ x = toZ y * toZ q + toZ m /\ 0 <= toZ m < Z.abs (toZ y).
Proof.
  intros x y Hx Hy. case_decide as H0.
  { apply (divide_by_zero x y (toZ x)); [by split|done]. }
  split; [by apply Quo_spec|]. split; [by apply Rem_spec|]. split; [by apply QuoRem_spec|].
  destruct (DivMod_spec x y _ _ (wf_repr x Hx) (wf_repr y Hy) H0) as (q & m & E & Hq & Hm).
  destruct (Div_spec x y _ _ (wf_repr x Hx) (wf_repr y Hy) H0) as (q' & E1 & Hq').
  destruct (Mod_spec x y _ _ (wf_repr x Hx) (wf_repr y Hy) H0) as (m' & E2 & Hm').
  rewrite (repr_inj _ _ _ Hq' Hq) in E1. rewrite (repr_inj _ _ _ Hm' Hm) in E2. exists q, m.
  split; [done|]. split; [done|]. split; [done|]. split; [apply Hq|]. split; [apply Hm|].
  rewrite (proj2 Hq), (proj2 Hm). by apply euclid_exact.
Qed.

Lemma big_int_division_witness : Div (NewInt (-7)) (NewInt 2) = Some (NewInt (-4)) /\ Quo (NewInt 1) (NewInt 0) = None.
Proof.
  assert (forall v, - 2 ^ 63 <= v < 2 ^ 63 -> wf (NewInt v)) as H by (intros v Hv; apply SetInt64_repr; exact Hv).
  split; [|exact (proj1 (big_int_division (NewInt 1) (NewInt 0) (H 1 ltac:(lia)) (H 0 ltac:(lia))))].
  destruct (proj2 (proj2 (proj2 (big_int_division (NewInt (-7)) (NewInt 2) (H (-7) ltac:(lia)) (H 2 ltac:(lia))))))
    as (q & m & _ & E & _ & Wq & _ & Hv & Hm).
  rewrite E. f_equal. apply (repr_inj _ _ (-4)); [split; [exact Wq|]|apply SetInt64_repr; lia].
  assert (toZ (NewInt (-7)) = -7) as E1 by reflexivity. assert (toZ (NewInt 2) = 2) as E2 by reflexivity.
  rewrite E1, E2 in *. lia.
Defined.

(** C13: The bitwise methods compute on two's complement of unlimited width, also for negative operands,
    which the code rewrites to operations on magnitudes; shifts and single bits agree with them;
    an index or a bit value out of range panics. *)
Theorem big_int_bitwise : forall x y, wf x -> wf y ->
  returns (And x y) (Z.land (toZ x) (toZ y)) /\ returns (Or x y) (Z.lor (toZ x) (toZ y)) /\
  returns (Xor x y) (Z.lxor (toZ x) (toZ y)) /\ returns (AndNot x y) (Z.ldiff (toZ x) (toZ y)) /\
  returns (Not x) (Z.lnot (toZ x)) /\
  (forall n, 0 <= n -> returns (Lsh x n) (Z.shiftl (toZ x) n) /\ returns (Rsh x n) (Z.shiftr (toZ x) n)) /\
  (forall i, Bit x i = if decide (0 <= i) then Some (Z.b2z (Z.testbit (toZ x) i)) else None) /\
  (forall i b, if decide (0 <= i /\ (b = 0 \/ b = 1))
     then returns (SetBit x i b) (if decide (b = 0) then Z.clearbit (toZ x) i else Z.setbit (toZ x) i)
     else SetBit x i b = None) /\
  BitLen x = Some (if decide (toZ x = 0) then 0 else Z.log2 (Z.abs (toZ x)) + 1).
Proof.
  intros x y Hx Hy. split; [by apply And_spec|]. split; [by apply Or_spec|]. split; [by apply Xor_spec|].
  split; [by apply AndNot_spec|]. split; [by apply Not_spec|].
  split; [intros n Hn; split; [by apply Lsh_spec|by apply Rsh_spec]|].
  split. { intros i. case_decide; [by apply Bit_spec|]. unfold Bit. by rewrite decide_False, decide_True by lia. }
  split; [|by apply BitLen_spec]. intros i b. case_decide as H; [apply SetBit_spec; [done|apply H|apply H]|].
  unfold SetBit. case_decide; [done|]. by rewrite decide_True by lia.
Qed.

Lemma big_int_bitwise_witness : returns (And (NewInt (-5)) (NewInt 7)) 3.
Proof.
  assert (forall v, - 2 ^ 63 <= v < 2 ^ 63 -> wf (NewInt v)) as H by (intros v Hv; apply SetInt64_repr; exact Hv).
  exact (proj1 (big_int_bitwise (NewInt (-5)) (NewInt 7) (H (-5) ltac:(lia)) (H 7 ltac:(lia)))).
Defined.

(** ** Text *)

(** C33: Printing and parsing are inverse: [SetString] reads back what [Text] wrote in every base from
    2 to 62, and [UnmarshalText], which looks for a base prefix, what [MarshalText] wrote. *)
Theorem big_text_roundtrip : forall x self base, wf x -> 2 <= base <= 62 ->
  (exists t, Text x base = Some t /\ SetString self t base = Some (x, true)) /\
  (exists t, MarshalText x = Some t /\ UnmarshalText self t = Some (x, true)).
Proof.
  intros x self base Hx Hb. split; [by apply (SetString_Text x (toZ x))|by apply (UnmarshalText_MarshalText x (toZ x))].
Qed.

Lemma big_text_roundtrip_witness : exists t, Text (NewInt (-255)) 16 = Some t /\ SetString new t 16 = Some (NewInt (-255), true).
Proof.
  assert (wf (NewInt (-255))) as H by (apply SetInt64_repr; lia).
  exact (proj1 (big_text_roundtrip (NewInt (-255)) new 16 H ltac:(lia))).
Defined.

(** C34: In an explicit base [SetString] accepts exactly an optional sign and one or more digits of the
    base (the first characters of 0-9a-z, in either case, up to base 36, and of 0-9a-zA-Z above), and
    returns the number they denote; anything else is refused and leaves the receiver; a base out of range
    is refused as well. *)
Theorem big_parse_exact : forall self s base, base <> 0 ->
  if decide (2 <= base <= 62 /\ unsigned_text s <> [] /\ forallb (is_digit base) (unsigned_text s) = true)
  then exists x, SetString self s base = Some (x, true) /\
         repr x ((if minus_text s then -1 else 1) * horner base 0 (unsigned_text s))
  else SetString self s base = Some (self, false).
Proof.
  intros self s base H0. unfold SetString. destruct (decide (2 <= base <= 62)) as [Hb|Hb].
  - pose proof (scan_int_explicit s base Hb) as H. cbv zeta in H. rewrite scans_digit_of in H by done. case_decide as Hok; case_decide as Hok'; try tauto.
    + rewrite scan_value_of in H by done. destruct H as (l & -> & Hl & Hv). rewrite some_bind. eexists. split; [done|]. rewrite andb_comm. apply repr_signed; [done|].
      rewrite Hv. destruct (minus_text s); lia.
    + by rewrite H.
  - rewrite decide_False by (intros [? _]; done). unfold scan_int, MAX_BASE. by rewrite decide_True by lia.
Qed.

Lemma big_parse_exact_witness : exists x, SetString new [45; 49; 50] 10 = Some (x, true) /\ repr x (-12).
Proof. exact (big_parse_exact new [45; 49; 50] 10 ltac:(lia)). Defined.

(** ** Bytes *)

Lemma be_val_zeros n : be_val (replicate n 0) = 0.
Proof. induction n as [|n IH]; [done|]. cbn [replicate]. rewrite be_val_cons, IH. lia. Qed.

(** The shortest form is longer than a buffer exactly when the number does not fit. *)
Lemma minimal_fits bs k : Forall byte bs -> minimal bs -> 0 <= k -> zlen bs > k <-> 256 ^ k <= be_val bs.
Proof.
  intros Hb Hm Hk. split; intros H.
  - apply Z.le_trans with (256 ^ (zlen bs - 1)); [apply Z.pow_le_mono_r; lia|]. apply be_val_lower; [done|done|apply zlen_ne; lia].
  - apply Z.lt_gt, Z.nle_gt. intros Hle. pose proof (Z.pow_le_mono_r 256 (zlen bs) k ltac:(lia) Hle).
    pose proof (be_val_range bs Hb). lia.
Qed.

Lemma FillBytes_spec x buf : wf x ->
  if decide (Z.abs (toZ x) < 256 ^ zlen buf)
  then exists bs, FillBytes x buf = Some bs /\ zlen bs = zlen buf /\ Forall byte bs /\ be_val bs = Z.abs (toZ x)
  else FillBytes x buf = None.
Proof.
  intros Hx. destruct (repr_mag x _ (wf_repr x Hx)) as [Nx Vx]. destruct (limbs_to_be_bytes_spec (abs x) Nx) as (bs & Eb & Hb & Hm & Hv).
  unfold FillBytes. rewrite Eb, some_bind, <- Vx, <- Hv. pose proof (minimal_fits bs (zlen buf) Hb Hm (zlen_nonneg buf)) as Hfit.
  pose proof (zlen_nonneg bs). case_decide as H1; [|by rewrite decide_True by (apply Hfit; lia)].
  assert (~ zlen bs > zlen buf) as Hle by (rewrite Hfit; lia). rewrite decide_False by done.
  unfold zeros. rewrite take_replicate, Nat.min_l by lia. eexists. split; [done|].
  split; [rewrite zlen_app; unfold zlen in *; rewrite length_replicate; lia|].
  split; [apply list.Forall_app; split; [apply Forall_replicate; unfold byte; lia|done]|]. rewrite be_val_app, be_val_zeros. lia.
Qed.

(** [Bytes] writes the magnitude with the fewest big-endian bytes and [SetBytes] reads it back;
    [FillBytes] pads it to the buffer and panics exactly when it does not fit; [Bits] and [SetBits]
    do the same with words; the gob encoding keeps the sign too. *)
Theorem big_bytes_roundtrip : forall x self, wf x ->
  (exists bs, Bytes x = Some bs /\ Forall byte bs /\ minimal bs /\ be_val bs = Z.abs (toZ x) /\ SetBytes bs = Some (Abs x)) /\
  (forall buf, if decide (Z.abs (toZ x) < 256 ^ zlen buf)
     then exists bs, FillBytes x buf = Some bs /\ zlen bs = zlen buf /\ Forall byte bs /\ be_val bs = Z.abs (toZ x)
     else FillBytes x buf = None) /\
  (Forall is_u64 (Bits x) /\ wval (Bits x) = Z.abs (toZ x) /\ SetBits (Bits x) = Abs x) /\
  exists g, GobEncode x = Some g /\ GobDecode self g = Some (x, true).
Proof.
  intros x self Hx. pose proof (wf_repr x Hx) as Rx. destruct (repr_mag x _ Rx) as [Nx Vx].
  destruct (limbs_to_be_bytes_spec (abs x) Nx) as (bs & Eb & Hb & Hm & Hv).
  destruct (be_bytes_to_limbs_spec bs Hb) as (l & El & Hl & Vl).
  assert (l = abs x) as -> by (apply normal_inj; [done|done|lia]). split; [|split; [|split]].
  - exists bs. unfold Bytes, SetBytes. rewrite El. split; [done|]. split; [done|]. split; [done|]. split; [lia|done].
  - intros buf. by apply FillBytes_spec.
  - destruct (pair_limbs_spec (length (abs x)) (abs x) (le_n _) (proj1 Nx)) as [Hp Vp]. unfold Bits, SetBits, limbs_to_words.
    assert (Forall is_u64 (trim (pair_limbs (abs x)))) as Hw.
    { destruct (trim_loop_spec (length (pair_limbs (abs x))) (pair_limbs (abs x)) (le_n _)) as (_ & _ & k & Hk).
      fold (trim (pair_limbs (abs x))) in Hk. rewrite Hk in Hp. by apply list.Forall_app in Hp as [? _]. }
    destruct (words_to_limbs_spec _ Hw) as [Hn Vn]. rewrite wval_trim in *. split; [done|]. split; [lia|].
    unfold Abs. f_equal. apply normal_inj; [done|done|lia].
  - unfold GobEncode. rewrite Eb, some_bind. eexists. split; [done|]. unfold GobDecode, INT_GOB_VERSION.
    destruct (neg x) eqn:En; cbn [Z.mul Z.lor Z.shiftr]; rewrite decide_False by (intros H; by apply H); rewrite El, some_bind;
      destruct x as [n a]; cbn in En; subst n; done.
Qed.

Lemma big_bytes_roundtrip_witness : exists g, GobEncode (NewInt (-300)) = Some g /\ GobDecode new g = Some (NewInt (-300), true).
Proof.
  assert (wf (NewInt (-300))) as H by (apply SetInt64_repr; lia).
  exact (proj2 (proj2 (proj2 (big_bytes_roundtrip (NewInt (-300)) new H)))).
Defined.

(** A gob stream can hold a sign and no magnitude: decoding it gives a negative zero, which is not a
    value of the type, and on which the assertion of a shift fails. *)
Lemma gob_negative_zero : GobDecode new [3] = Some (mkInt true [], true) /\ ~ wf (mkInt true []) /\ Rsh (mkInt true []) 0 = None.
Proof. split; [done|]. split; [|done]. intros [_ H]. by apply H. Qed.

(** [UnmarshalText] says it parses decimal text; it takes a base prefix, too. *)
Lemma unmarshal_text_prefix : UnmarshalText new [48; 120; 49; 48] = Some (NewInt 16, true).
Proof. vm_compute. reflexivity. Qed.

(** ** Number theory *)

(** C35: [GCD] returns the divisor with coefficients for the signed operands.  [ModInverse] returns the
    inverse between zero and the modulus when there is one and leaves the receiver otherwise.  [Exp] returns
    the power, reduced by a modulus if there is one; a negative exponent uses the inverse. *)
Theorem big_number_theory : forall x y m self, wf x -> wf y -> wf m ->
  (exists z u v, GCD x y = Some (z, u, v) /\ repr z (Z.gcd (toZ x) (toZ y)) /\ wf u /\ wf v /\
     toZ x * toZ u + toZ y * toZ v = Z.gcd (toZ x) (toZ y)) /\
  (if decide (toZ m = 0) then ModInverse self x m = None
   else if decide (Z.gcd (toZ x) (toZ m) = 1)
   then exists z, returns (ModInverse self x m) z /\ 0 <= z < Z.abs (toZ m) /\ (z * toZ x) mod Z.abs (toZ m) = 1 mod Z.abs (toZ m)
   else ModInverse self x m = Some self) /\
  (if decide (0 <= toZ y)
   then returns (Exp self x y m) (if decide (toZ m = 0) then toZ x ^ toZ y else (toZ x ^ toZ y) mod Z.abs (toZ m))
   else if decide (toZ m = 0) then returns (Exp self x y m) 1
   else if decide (Z.gcd (toZ x) (toZ m) = 1)
   then exists z, returns (Exp self x y m) z /\ 0 <= z < Z.abs (toZ m) /\
          (z * toZ x ^ (- toZ y)) mod Z.abs (toZ m) = 1 mod Z.abs (toZ m)
   else Exp self x y m = Some self).
Proof.
  intros x y m self Hx Hy Hm. pose proof (wf_repr x Hx) as Rx. pose proof (wf_repr y Hy) as Ry. pose proof (wf_repr m Hm) as Rm.
  split; [|split].
  - destruct (GCD_spec x y _ _ Rx Ry) as (z & u & v & X & Y & E & Hz & [Wu <-] & [Wv <-] & HX & _). by exists z, u, v.
  - case_decide as H0; [|by apply ModInverse_spec]. unfold ModInverse. by rewrite (is_empty_repr m _ Rm), bool_decide_true.
  - case_decide as H0; [|apply Exp_negative; [done|done|lia|done]].
    unfold Exp. rewrite (neg_repr y _ Ry), bool_decide_false by lia. by apply exp_nonneg_spec.
Qed.

Lemma big_number_theory_witness : returns (Exp new (NewInt (-3)) (NewInt 5) (NewInt 7)) 2.
Proof.
  assert (forall v, - 2 ^ 63 <= v < 2 ^ 63 -> wf (NewInt v)) as H by (intros v Hv; apply SetInt64_repr; exact Hv).
  exact (proj2 (proj2 (big_number_theory (NewInt (-3)) (NewInt 5) (NewInt 7) new (H (-3) ltac:(lia)) (H 5 ltac:(lia)) (H 7 ltac:(lia))))).
Defined.

(** C36: [Sqrt] returns the integer square root, its iteration ending within the bound of the model, and
    panics exactly on negative numbers; [MulRange] of 64-bit bounds, the lower one above -2^63 (whose
    negation overflows), is the product of the range; [Binomial] is the binomial coefficient, each division of its loop being exact. *)
Theorem big_roots_products : forall x, wf x ->
  (if decide (toZ x < 0) then Sqrt x = None else returns (Sqrt x) (Z.sqrt (toZ x))) /\
  (forall a b, - 2 ^ 63 < a < 2 ^ 63 -> - 2 ^ 63 <= b < 2 ^ 63 -> returns (MulRange a b) (range_prod a (b + 1 - a))) /\
  (forall n k, - 2 ^ 63 <= n < 2 ^ 63 ->
     returns (Binomial n k) (if decide (0 <= k <= n) then binom (Z.to_nat n) (Z.to_nat k) else 0)).
Proof.
  intros x Hx. split; [by apply Sqrt_spec|]. split; [apply MulRange_spec|apply Binomial_spec].
Qed.

Lemma big_roots_products_witness : returns (Sqrt (NewInt 99)) 9 /\ returns (Binomial 5 3) 10.
Proof.
  assert (wf (NewInt 99)) as H by (apply SetInt64_repr; lia). destruct (big_roots_products (NewInt 99) H) as (H1 & _ & H3).
  split; [exact H1|exact (H3 5 3 ltac:(lia))].
Defined.

(** The one operand that [MulRange] cannot take: its negation overflows. *)
Lemma mulrange_min_panics : MulRange (- 2 ^ 63) (- 2 ^ 63) = None.
Proof. done. Qed.

(** [Int64] truncates to two's complement, [Uint64] to the low word of the magnitude, and the tests
    say when nothing is lost. *)
Theorem big_int_words : forall x, wf x ->
  - 2 ^ 63 <= Int64 x < 2 ^ 63 /\ Int64 x mod 2 ^ 64 = toZ x mod 2 ^ 64 /\ Uint64 x = Z.abs (toZ x) mod 2 ^ 64 /\
  IsInt64 x = bool_decide (Int64 x = toZ x) /\ IsUint64 x = bool_decide (Uint64 x = toZ x).
Proof.
  intros x Hx. pose proof (wf_repr x Hx) as Rx. destruct (repr_mag x _ Rx) as [Nx Vx]. rewrite (Int64_spec x _ Rx).
  assert (Uint64 x = Z.abs (toZ x) mod 2 ^ 64) as HU by (unfold Uint64; rewrite limbs_to_u64_spec by apply Nx; by rewrite Vx).
  pose proof (as_i64_range (toZ x)) as R. split; [done|]. split; [apply as_i64_mod|]. split; [done|].
  rewrite (IsInt64_spec x _ Rx), (IsUint64_spec x _ Rx), HU. split; apply bool_decide_ext; split; intros H.
  - by apply as_i64_small.
  - by rewrite <- H.
  - by rewrite Z.abs_eq, Z.mod_small by lia.
  - rewrite <- H. apply Z.mod_pos_bound. lia.
Qed.

Lemma big_int_words_witness : IsInt64 (NewInt (-9)) = true /\ Int64 (NewInt (-9)) mod 2 ^ 64 = 2 ^ 64 - 9.
Proof.
  assert (wf (NewInt (-9))) as H by (apply SetInt64_repr; lia).
  destruct (big_int_words (NewInt (-9)) H) as (_ & E & _ & E' & _). split; [exact E'|exact E].
Defined.
