(* ===== verification/BigRat.v ===== *)
(** Rational numbers of any size: [Rat] of src/src/math/big/mod.rs, over [BigInt].

    As there, a method is a function that gives the new value of the receiver; a [None] is a
    panic. *)
From Stdlib Require Import ZArith QArith Lia.
From stdpp Require Import base tactics numbers list list_numbers option.
From S2P Require Import Prelude Limbs BigInt.
Open Scope Z_scope.

Record Rat := mkRat { num : Int; den : Int }.

Definition new : Rat := mkRat BigInt.new (NewInt 1).

(** [#[derive(Default)]] *)
Definition rat_default : Rat := mkRat BigInt.new BigInt.new.

Definition norm (z : Rat) : option Rat :=
  if decide (BigInt.Sign (den z) = 0) then None
  else
    let '(n, d) := if neg (den z) then (mkInt (negb (neg (num z))) (abs (num z)), mkInt false (abs (den z)))
                   else (num z, den z) in
    if decide (BigInt.Sign n = 0) then Some (mkRat (mkInt false (abs n)) (NewInt 1))
    else
      '(g, _, _) ← GCD n d;
      if decide (BigInt.Cmp g (NewInt 1) <> 0) then
        n' ← BigInt.Div n g;
        d' ← BigInt.Div d g;
        Some (mkRat n' d')
      else Some (mkRat n d).

Definition SetFrac (a b : Int) : option Rat :=
  if decide (BigInt.Sign b = 0) then None else norm (mkRat a b).

Definition SetFrac64 (a b : Z) : option Rat :=
  if decide (b = 0) then None else norm (mkRat (NewInt a) (NewInt b)).

Definition NewRat (a b : Z) : option Rat := SetFrac (NewInt a) (NewInt b).

Definition SetInt (x : Int) : Rat := mkRat x (mkInt false (abs (NewInt 1))).
Definition SetInt64 (x : Z) : Rat := mkRat (NewInt x) (NewInt 1).
Definition SetUint64 (x : Z) : Rat := mkRat (BigInt.SetUint64 x) (NewInt 1).

Definition Mul (x y : Rat) : option Rat :=
  n ← BigInt.Mul (num x) (num y);
  d ← BigInt.Mul (den x) (den y);
  norm (mkRat n d).

Definition Add (x y : Rat) : option Rat :=
  a1 ← BigInt.Mul (num x) (den y);
  a2 ← BigInt.Mul (num y) (den x);
  n ← BigInt.Add a1 a2;
  d ← BigInt.Mul (den x) (den y);
  norm (mkRat n d).

Definition Sub (x y : Rat) : option Rat :=
  a1 ← BigInt.Mul (num x) (den y);
  a2 ← BigInt.Mul (num y) (den x);
  n ← BigInt.Sub a1 a2;
  d ← BigInt.Mul (den x) (den y);
  norm (mkRat n d).

Definition Quo (x y : Rat) : option Rat :=
  if decide (BigInt.Sign (num y) = 0) then None
  else
    n ← BigInt.Mul (num x) (den y);
    d ← BigInt.Mul (den x) (num y);
    norm (mkRat n d).

Definition Neg (x : Rat) : option Rat := norm (mkRat (BigInt.Neg (num x)) (den x)).
Definition Abs (x : Rat) : option Rat := norm (mkRat (BigInt.Abs (num x)) (den x)).

Definition Inv (x : Rat) : option Rat :=
  if decide (BigInt.Sign (num x) = 0) then None else norm (mkRat (den x) (num x)).

Definition Cmp (x y : Rat) : option Z :=
  a ← BigInt.Mul (num x) (den y);
  b ← BigInt.Mul (num y) (den x);
  Some (BigInt.Cmp a b).

Definition Sign (x : Rat) : Z := BigInt.Sign (num x).
Definition IsInt (x : Rat) : bool := bool_decide (BigInt.Cmp (den x) (NewInt 1) = 0).
