(* ===== verification/BigRatSpec.v ===== *)
(** [Rat] implements the rational numbers in lowest terms: its methods compute the field
    operations of [Q] and keep the representation, which is unique. *)
From Stdlib Require Import ZArith QArith Qabs Lia.
From stdpp Require Import base tactics numbers list list_numbers option.
From S2P Require Import Prelude Limbs LimbsSpec BigInt BigIntSpec BigIntNum BigRat.
Open Scope Z_scope.

(** Lowest terms with a positive denominator. *)
Definition rat_wf (r : Rat) : Prop :=
  wf (num r) /\ wf (den r) /\ 0 < toZ (den r) /\ Z.gcd (toZ (num r)) (toZ (den r)) = 1.

Definition toQ (r : Rat) : Q := Qmake (toZ (num r)) (Z.to_pos (toZ (den r))).

(** The call returns a fraction in lowest terms equal to [q]. *)
Definition rat_returns (o : option Rat) (q : Q) : Prop := exists r, o = Some r /\ rat_wf r /\ Qeq (toQ r) q.

#[export] Instance rat_returns_proper : Proper (eq ==> Qeq ==> iff) rat_returns.
Proof.
  intros o o' <- q q' Hq. unfold rat_returns. split; intros (r & Ho & Hr & E); exists r; (split; [done|]); (split; [done|]);
  by rewrite E, Hq || by rewrite E, <- Hq.
Qed.

Lemma toQ_eq r p q : rat_wf r -> 0 < q -> Qeq (toQ r) (Qmake p (Z.to_pos q)) <-> toZ (num r) * q = p * toZ (den r).
Proof. intros (_ & _ & Hd & _) Hq. unfold Qeq, toQ. cbn. by rewrite !Z2Pos.id by done. Qed.

(** Fractions in lowest terms that are equal are the same. *)
Lemma rat_unique r s : rat_wf r -> rat_wf s -> Qeq (toQ r) (toQ s) -> r = s.
Proof.
  intros Hr Hs E. destruct Hs as (Wn & Wd & Hd & Hg). apply (toQ_eq r) in E; [|done|done].
  destruct Hr as (Vn & Vd & Hd' & Hg'). set (a := toZ (num r)) in *. set (b := toZ (den r)) in *.
  set (c := toZ (num s)) in *. set (d := toZ (den s)) in *.
  assert (b = d) as Ebd.
  { apply Z.divide_antisym_nonneg; [lia|lia| |].
    - apply (Z.gauss b a d); [exists c; lia|by rewrite Z.gcd_comm].
    - apply (Z.gauss d c b); [exists a; lia|by rewrite Z.gcd_comm]. }
  assert (a = c) as Eac by (rewrite Ebd in E; nia).
  destruct r as [rn rd], s as [sn sd]. f_equal; [apply (repr_inj _ _ c)|apply (repr_inj _ _ d)]; split; done.
Qed.

Lemma ediv_exact a g : g <> 0 -> ediv (g * a) g = a.
Proof.
  intros Hg. destruct (euclid_exact (g * a) g Hg) as [H1 H2]. set (q := ediv (g * a) g) in *. set (r := emod (g * a) g) in *.
  assert (r = g * (a - q)) as Hr by lia. nia.
Qed.

(** Reduction of a fraction [a / b] with [b] positive. *)
Lemma reduce_fraction n d a b : repr n a -> repr d b -> 0 < b -> a <> 0 ->
  exists n' d', ('(g, _, _) ← GCD n d;
      if decide (BigInt.Cmp g (NewInt 1) <> 0) then n' ← BigInt.Div n g; d' ← BigInt.Div d g; Some (mkRat n' d')
      else Some (mkRat n d)) = Some (mkRat n' d') /\
    rat_wf (mkRat n' d') /\ toZ n' * b = a * toZ d'.
Proof.
  intros Hn Hd Hb Ha. destruct (GCD_spec n d a b Hn Hd) as (g & u & v & X & Y & -> & Hg & _). rewrite some_bind. cbv beta iota.
  pose proof (Cmp_eq g (NewInt 1) _ _ Hg repr_1) as Hc. pose proof (Z.gcd_nonneg a b).
  destruct (Z.gcd_divide_l a b) as [a' Ea]. destruct (Z.gcd_divide_r a b) as [b' Eb]. set (G := Z.gcd a b) in *.
  assert (G <> 0) as HG0 by (intros E; rewrite E, Z.mul_0_r in Eb; lia). assert (0 < G) as HG by lia. case_decide as H1.
  - destruct (Div_spec n g a G Hn Hg ltac:(lia)) as (n' & -> & Hn'). destruct (Div_spec d g b G Hd Hg ltac:(lia)) as (d' & -> & Hd').
    rewrite !some_bind. rewrite Ea, Z.mul_comm, ediv_exact in Hn' by lia. rewrite Eb, Z.mul_comm, ediv_exact in Hd' by lia.
    exists n', d'. split; [done|]. destruct Hn' as [Wn Vn], Hd' as [Wd Vd]. rewrite Vn, Vd. split; [|nia].
    split; [done|]. split; [done|]. cbn [num den]. rewrite Vn, Vd. split; [nia|].
    apply (proj1 (Z.mul_cancel_l _ _ G HG0)). rewrite <- Z.gcd_mul_mono_l_nonneg by lia.
    rewrite !(Z.mul_comm G), <- Ea, <- Eb. fold G. lia.
  - assert (G = 1) as G1 by (apply Hc; lia).
    exists n, d. split; [done|]. destruct Hn as [Wn Vn], Hd as [Wd Vd]. rewrite Vn, Vd. split; [|lia].
    split; [done|]. split; [done|]. cbn [num den]. by rewrite Vn, Vd.
Qed.

Lemma norm_spec n d a b : repr n a -> repr d b -> b <> 0 ->
  rat_returns (norm (mkRat n d)) (Qmake (Z.sgn b * a) (Z.to_pos (Z.abs b))).
Proof.
  intros Hn Hd Hb. unfold norm. cbn [num den]. rewrite (Sign_spec d b Hd), decide_False by lia.
  rewrite (neg_repr d b Hd).
  destruct (decide (a = 0)) as [Ha|Ha].
  { assert (abs n = []) as En.
    { pose proof (is_empty_repr n a Hn) as E. rewrite bool_decide_true in E by done. unfold is_empty in E. by apply bool_decide_eq_true in E. }
    destruct (repr_1) as [W1 V1]. assert (rat_wf (mkRat (mkInt false []) (NewInt 1))) as Hwf.
    { split; [apply new_repr|]. split; [done|]. cbn [num den]. unfold NewInt. by rewrite V1. }
    exists (mkRat (mkInt false []) (NewInt 1)).
    split; [|split; [done|]].
    - case_bool_decide; rewrite decide_True; unfold BigInt.Sign; cbn [abs neg]; by rewrite En.
    - apply toQ_eq; [done|lia|]. cbn [num den]. subst a. cbn. lia. }
  case_bool_decide as Hneg.
  - assert (repr (mkInt (negb (neg n)) (abs n)) (- a)) as Hn'.
    { pose proof (Neg_spec n a Hn) as H. unfold BigInt.Neg in H. rewrite (is_empty_repr n a Hn), bool_decide_false in H by done. done. }
    pose proof (repr_abs d b Hd) as Hd'. rewrite (Sign_spec _ _ Hn'), decide_False by lia.
    destruct (reduce_fraction _ _ _ _ Hn' Hd' ltac:(lia) ltac:(lia)) as (n' & d' & E & Hwf & Hv). rewrite E.
    exists (mkRat n' d'). split; [done|]. split; [done|]. apply toQ_eq; [done|lia|]. cbn [num den]. rewrite Z.sgn_neg by lia. lia.
  - rewrite (Sign_spec _ _ Hn), decide_False by lia.
    destruct (reduce_fraction _ _ _ _ Hn Hd ltac:(lia) ltac:(lia)) as (n' & d' & E & Hwf & Hv). rewrite E.
    exists (mkRat n' d'). split; [done|]. split; [done|]. apply toQ_eq; [done|lia|]. cbn [num den].
    rewrite Z.sgn_pos, Z.abs_eq by lia. lia.
Qed.

(** A positive denominator needs no sign. *)
Lemma norm_pos n d a b : repr n a -> repr d b -> 0 < b -> rat_returns (norm (mkRat n d)) (Qmake a (Z.to_pos b)).
Proof.
  intros Hn Hd Hb. pose proof (norm_spec n d a b Hn Hd ltac:(lia)) as H.
  by rewrite Z.sgn_pos, Z.abs_eq, Z.mul_1_l in H by lia.
Qed.

(** ** Fractions of integers *)

Lemma frac_pos a b : 0 < b -> Qeq (Qmake a (Z.to_pos b)) (inject_Z a / inject_Z b).
Proof.
  intros Hb. destruct b as [|p|p]; [lia| |lia]. unfold Qeq, Qdiv, Qinv, inject_Z. cbn. lia.
Qed.

Lemma frac_sgn a b : b <> 0 -> Qeq (Qmake (Z.sgn b * a) (Z.to_pos (Z.abs b))) (inject_Z a / inject_Z b).
Proof. intros Hb. destruct b as [|p|p]; [lia| |]; unfold Qeq, Qdiv, Qinv, inject_Z;
  change (Z.abs (Zneg p)) with (Zpos p) || change (Z.abs (Zpos p)) with (Zpos p); cbn [Z.sgn Z.to_pos Qnum Qden Qmult]; rewrite Pos.mul_1_l; ring. Qed.

Lemma norm_frac n d a b : repr n a -> repr d b -> b <> 0 -> rat_returns (norm (mkRat n d)) (inject_Z a / inject_Z b).
Proof. intros Hn Hd Hb. rewrite <- frac_sgn by done. by apply norm_spec. Qed.

Lemma inject_nonzero b : b <> 0 -> ~ Qeq (inject_Z b) 0.
Proof. intros Hb H. unfold Qeq in H. cbn in H. lia. Qed.

(** The parts of a fraction in lowest terms. *)
Lemma rat_parts x : rat_wf x -> exists a b, repr (num x) a /\ repr (den x) b /\ 0 < b /\ Z.gcd a b = 1 /\
  toQ x = Qmake a (Z.to_pos b) /\ Qeq (toQ x) (inject_Z a / inject_Z b).
Proof.
  intros (Wn & Wd & Hd & Hg). exists (toZ (num x)), (toZ (den x)). split; [done|]. split; [done|]. split; [done|]. split; [done|].
  split; [done|]. by apply frac_pos.
Qed.

Ltac take_rat x H a b := let Ha := fresh "R" a in let Hb := fresh "R" b in let Hp := fresh "P" b in
  let G := fresh "G" x in let E := fresh "E" x in let E' := fresh "Q" x in
  destruct (rat_parts x H) as (a & b & Ha & Hb & Hp & G & E & E');
  let N := fresh "N" b in pose proof (inject_nonzero b ltac:(lia)) as N.

Lemma rat_Mul_spec x y : rat_wf x -> rat_wf y -> rat_returns (Mul x y) (toQ x * toQ y).
Proof.
  intros Hx Hy. take_rat x Hx a b. take_rat y Hy c d. unfold Mul.
  destruct (Mul_spec _ _ _ _ Ra Rc) as (n & -> & Hn). destruct (Mul_spec _ _ _ _ Rb Rd) as (m & -> & Hm). rewrite !some_bind.
  assert (Qeq (toQ x * toQ y) (inject_Z (a * c) / inject_Z (b * d))) as ->; [|apply norm_frac; [done|done|nia]].
  rewrite Qx, Qy, !inject_Z_mult. field. done.
Qed.

Lemma rat_Add_spec x y : rat_wf x -> rat_wf y -> rat_returns (Add x y) (toQ x + toQ y).
Proof.
  intros Hx Hy. take_rat x Hx a b. take_rat y Hy c d. unfold Add.
  destruct (Mul_spec _ _ _ _ Ra Rd) as (n1 & -> & Hn1). destruct (Mul_spec _ _ _ _ Rc Rb) as (n2 & -> & Hn2). rewrite !some_bind.
  destruct (Add_spec _ _ _ _ Hn1 Hn2) as (n & -> & Hn). destruct (Mul_spec _ _ _ _ Rb Rd) as (m & -> & Hm). rewrite !some_bind.
  assert (Qeq (toQ x + toQ y) (inject_Z (a * d + c * b) / inject_Z (b * d))) as ->; [|apply norm_frac; [done|done|nia]].
  rewrite Qx, Qy, inject_Z_plus, !inject_Z_mult. field. done.
Qed.

Lemma rat_Sub_spec x y : rat_wf x -> rat_wf y -> rat_returns (Sub x y) (toQ x - toQ y).
Proof.
  intros Hx Hy. take_rat x Hx a b. take_rat y Hy c d. unfold Sub.
  destruct (Mul_spec _ _ _ _ Ra Rd) as (n1 & -> & Hn1). destruct (Mul_spec _ _ _ _ Rc Rb) as (n2 & -> & Hn2). rewrite !some_bind.
  destruct (Sub_spec _ _ _ _ Hn1 Hn2) as (n & -> & Hn). destruct (Mul_spec _ _ _ _ Rb Rd) as (m & -> & Hm). rewrite !some_bind.
  assert (Qeq (toQ x - toQ y) (inject_Z (a * d - c * b) / inject_Z (b * d))) as ->; [|apply norm_frac; [done|done|nia]].
  rewrite <- Z.add_opp_r. rewrite Qx, Qy, inject_Z_plus, inject_Z_opp, !inject_Z_mult. field. done.
Qed.

Lemma toQ_zero x : rat_wf x -> Qeq (toQ x) 0 <-> toZ (num x) = 0.
Proof. intros Hx. unfold Qeq, toQ. cbn. lia. Qed.

Lemma rat_Quo_spec x y : rat_wf x -> rat_wf y ->
  if decide (toZ (num y) = 0) then Quo x y = None else rat_returns (Quo x y) (toQ x / toQ y).
Proof.
  intros Hx Hy. take_rat x Hx a b. take_rat y Hy c d. unfold Quo. rewrite (Sign_spec _ _ Rc). pose proof (proj2 Rc) as ->.
  case_decide as H0; [by rewrite decide_True by lia|]. rewrite decide_False by lia.
  destruct (Mul_spec _ _ _ _ Ra Rd) as (n & -> & Hn). destruct (Mul_spec _ _ _ _ Rb Rc) as (m & -> & Hm). rewrite !some_bind.
  assert (Qeq (toQ x / toQ y) (inject_Z (a * d) / inject_Z (b * c))) as ->; [|apply norm_frac; [done|done|nia]].
  pose proof (inject_nonzero c H0). rewrite Qx, Qy, !inject_Z_mult. field. done.
Qed.

Lemma rat_Inv_spec x : rat_wf x -> if decide (toZ (num x) = 0) then Inv x = None else rat_returns (Inv x) (/ toQ x).
Proof.
  intros Hx. take_rat x Hx a b. unfold Inv. rewrite (Sign_spec _ _ Ra). pose proof (proj2 Ra) as ->.
  case_decide as H0; [by rewrite decide_True by lia|]. rewrite decide_False by lia.
  assert (Qeq (/ toQ x) (inject_Z b / inject_Z a)) as ->; [|by apply norm_frac].
  pose proof (inject_nonzero a H0). rewrite Qx. field. done.
Qed.

Lemma rat_Neg_spec x : rat_wf x -> rat_returns (Neg x) (- toQ x).
Proof.
  intros Hx. take_rat x Hx a b. unfold Neg.
  assert (Qeq (- toQ x) (inject_Z (- a) / inject_Z b)) as ->; [|apply norm_frac; [by apply Neg_spec|done|lia]].
  rewrite Qx, inject_Z_opp. field. done.
Qed.

Lemma rat_Abs_spec x : rat_wf x -> rat_returns (Abs x) (Qabs (toQ x)).
Proof. intros Hx. take_rat x Hx a b. unfold Abs. rewrite Ex. cbn [Qabs]. apply norm_pos; [by apply Abs_spec|done|done]. Qed.

Lemma rat_Cmp_spec x y : rat_wf x -> rat_wf y -> Cmp x y = Some (ordering (toQ x ?= toQ y)%Q).
Proof.
  intros Hx Hy. take_rat x Hx a b. take_rat y Hy c d. unfold Cmp.
  destruct (Mul_spec _ _ _ _ Ra Rd) as (n1 & -> & Hn1). destruct (Mul_spec _ _ _ _ Rc Rb) as (n2 & -> & Hn2). rewrite !some_bind.
  rewrite (Cmp_spec _ _ _ _ Hn1 Hn2), Ex, Ey. unfold Qcompare. cbn [Qnum Qden]. by rewrite !Z2Pos.id by done.
Qed.

Lemma rat_IsInt_spec x : rat_wf x -> IsInt x = true <-> exists z, Qeq (toQ x) (inject_Z z).
Proof.
  intros Hx. take_rat x Hx a b. unfold IsInt. rewrite bool_decide_eq_true. pose proof (Cmp_eq (den x) (NewInt 1) b 1 Rb repr_1) as Hc.
  rewrite Hc. split.
  - intros ->. exists a. by rewrite Ex.
  - intros [z Hz]. rewrite Ex in Hz. unfold Qeq in Hz. cbn in Hz. rewrite Z2Pos.id in Hz by done.
    assert ((b | 1)) as Hd; [|apply Z.divide_1_r_nonneg in Hd; [done|lia]]. rewrite <- Gx. apply Z.gcd_greatest; [exists z; lia|done].
Qed.

(** ** The field *)

Lemma NewRat_spec a b : - 2 ^ 63 <= a < 2 ^ 63 -> - 2 ^ 63 <= b < 2 ^ 63 ->
  if decide (b = 0) then NewRat a b = None else rat_returns (NewRat a b) (inject_Z a / inject_Z b).
Proof.
  intros Ha Hb. unfold NewRat, SetFrac. pose proof (SetInt64_repr a Ha) as Ra. pose proof (SetInt64_repr b Hb) as Rb.
  rewrite (Sign_spec (NewInt b) b Rb). case_decide as H0; [by rewrite decide_True by lia|]. rewrite decide_False by lia.
  by apply norm_frac.
Qed.

(** The value that [#[derive(Default)]] gives is 0/0: the documented zero value, 0/1, is that of
    [new] only, and a sum with the derived one panics. *)
Lemma rat_default_panics : rat_default <> new /\ Add rat_default new = None /\ rat_wf new.
Proof.
  split; [done|]. split; [vm_compute; reflexivity|]. split; [apply new_repr|]. split; [apply repr_1|]. done.
Qed.

(** C37: [Rat] is the field of the rational numbers, each in lowest terms with a positive denominator:
    sums, differences, products, negation, absolute value and comparison agree with those of the rationals,
    a quotient or an inverse panics exactly when it divides by zero, so does the constructor,
    and equal numbers have equal numerators and denominators. *)
Theorem rat_field : forall x y, rat_wf x -> rat_wf y ->
  rat_returns (Add x y) (toQ x + toQ y) /\ rat_returns (Sub x y) (toQ x - toQ y) /\ rat_returns (Mul x y) (toQ x * toQ y) /\
  rat_returns (Neg x) (- toQ x) /\ rat_returns (Abs x) (Qabs (toQ x)) /\ Cmp x y = Some (ordering (toQ x ?= toQ y)%Q) /\
  (if decide (toZ (num y) = 0) then Quo x y = None /\ Inv y = None
   else rat_returns (Quo x y) (toQ x / toQ y) /\ rat_returns (Inv y) (/ toQ y)) /\
  (forall a b, - 2 ^ 63 <= a < 2 ^ 63 -> - 2 ^ 63 <= b < 2 ^ 63 ->
     if decide (b = 0) then NewRat a b = None else rat_returns (NewRat a b) (inject_Z a / inject_Z b)) /\
  (IsInt x = true <-> exists z, Qeq (toQ x) (inject_Z z)) /\
  (Qeq (toQ x) (toQ y) -> x = y).
Proof.
  intros x y Hx Hy. split; [by apply rat_Add_spec|]. split; [by apply rat_Sub_spec|]. split; [by apply rat_Mul_spec|].
  split; [by apply rat_Neg_spec|]. split; [by apply rat_Abs_spec|]. split; [by apply rat_Cmp_spec|].
  split; [|split; [exact NewRat_spec|split; [by apply rat_IsInt_spec|by apply rat_unique]]].
  pose proof (rat_Quo_spec x y Hx Hy) as Hq. pose proof (rat_Inv_spec y Hy) as Hi. by case_decide.
Qed.

Lemma rat_field_witness : rat_returns (Add (mkRat (NewInt 1) (NewInt 2)) (mkRat (NewInt (-1)) (NewInt 3))) (1 # 6).
Proof.
  assert (forall v, - 2 ^ 63 <= v < 2 ^ 63 -> wf (NewInt v)) as H by (intros v Hv; apply SetInt64_repr; exact Hv).
  assert (rat_wf (mkRat (NewInt 1) (NewInt 2))) as H1 by (split; [apply H; lia|split; [apply H; lia|split; reflexivity]]).
  assert (rat_wf (mkRat (NewInt (-1)) (NewInt 3))) as H2 by (split; [apply H; lia|split; [apply H; lia|split; reflexivity]]).
  exact (proj1 (rat_field _ _ H1 H2)).
Defined.
