(* ===== verification/Bits.v ===== *)
(** Bit counting and word arithmetic: src/src/math/bits/bits.rs.

    The functions on [u8] to [u64] call Rust's methods of the same width, which are defined here
    with the width as an argument.  [wrapping_*] operations wrap; the plain ones are checked, and a
    panic is [None].  The operands are values of their types. *)
From Stdlib Require Import ZArith Lia.
From stdpp Require Import base tactics numbers list list_numbers option.
From S2P Require Import Prelude Limbs.
Open Scope Z_scope.
Open Scope goish_scope.

Definition UintSize : Z := 64.

(** ** Rust's methods on integers of [w] bits *)

Definition leading_zeros_w (w x : Z) : Z := match x with Zpos _ => w - 1 - Z.log2 x | _ => w end.
Definition trailing_zeros_w (w x : Z) : Z := match x with Zpos p => pos_ctz p | _ => w end.

(** [rotate_left]: the bits shifted out come back at the low end. *)
Definition rotate_left (w x k : Z) : Z := Z.lor (Z.shiftl x k mod 2 ^ w) (Z.shiftr x (w - k)).

(** [n] digits of [x] in base [b], last one first: bits for [reverse_bits], bytes for [swap_bytes]. *)
Fixpoint reverse_digits (b : Z) (n : nat) (x acc : Z) : Z :=
  match n with
  | O => acc
  | S n' => reverse_digits b n' (x / b) (acc * b + x mod b)
  end.

Definition reverse_bits (w x : Z) : Z := reverse_digits 2 (Z.to_nat w) x 0.
Definition swap_bytes (w x : Z) : Z := reverse_digits 256 (Z.to_nat (w / 8)) x 0.

(** ** Counting *)

Definition LeadingZeros64 (x : Z) : Z := leading_zeros_w 64 x.
Definition LeadingZeros32 (x : Z) : Z := leading_zeros_w 32 x.
Definition LeadingZeros16 (x : Z) : Z := leading_zeros_w 16 x.
Definition LeadingZeros8 (x : Z) : Z := leading_zeros_w 8 x.
Definition LeadingZeros (x : Z) : Z := LeadingZeros64 x.

Definition TrailingZeros64 (x : Z) : Z := if decide (x = 0) then 64 else trailing_zeros_w 64 x.
Definition TrailingZeros32 (x : Z) : Z := if decide (x = 0) then 32 else trailing_zeros_w 32 x.
Definition TrailingZeros16 (x : Z) : Z := if decide (x = 0) then 16 else trailing_zeros_w 16 x.
Definition TrailingZeros8 (x : Z) : Z := if decide (x = 0) then 8 else trailing_zeros_w 8 x.
Definition TrailingZeros (x : Z) : Z := TrailingZeros64 x.

Definition OnesCount64 (x : Z) : Z := count_ones x.
Definition OnesCount32 (x : Z) : Z := count_ones x.
Definition OnesCount16 (x : Z) : Z := count_ones x.
Definition OnesCount8 (x : Z) : Z := count_ones x.
Definition OnesCount (x : Z) : Z := OnesCount64 x.

Definition Len64 (x : Z) : option Z := chk32 (64 - leading_zeros_w 64 x).
Definition Len32 (x : Z) : option Z := chk32 (32 - leading_zeros_w 32 x).
Definition Len16 (x : Z) : option Z := chk32 (16 - leading_zeros_w 16 x).
Definition Len8 (x : Z) : option Z := chk32 (8 - leading_zeros_w 8 x).
Definition Len (x : Z) : option Z := Len64 x.

(** ** Rotation and reversal; [k.rem_euclid(n)] is not negative *)

Definition RotateLeft64 (x k : Z) : Z := rotate_left 64 x (k mod 64).
Definition RotateLeft32 (x k : Z) : Z := rotate_left 32 x (k mod 32).
Definition RotateLeft16 (x k : Z) : Z := rotate_left 16 x (k mod 16).
Definition RotateLeft8 (x k : Z) : Z := rotate_left 8 x (k mod 8).
Definition RotateLeft (x k : Z) : Z := RotateLeft64 x k.

Definition Reverse64 (x : Z) : Z := reverse_bits 64 x.
Definition Reverse32 (x : Z) : Z := reverse_bits 32 x.
Definition Reverse16 (x : Z) : Z := reverse_bits 16 x.
Definition Reverse8 (x : Z) : Z := reverse_bits 8 x.
Definition Reverse (x : Z) : Z := Reverse64 x.

Definition ReverseBytes64 (x : Z) : Z := swap_bytes 64 x.
Definition ReverseBytes32 (x : Z) : Z := swap_bytes 32 x.
Definition ReverseBytes16 (x : Z) : Z := swap_bytes 16 x.
Definition ReverseBytes (x : Z) : Z := ReverseBytes64 x.

(** ** Words *)

Definition Add32 (x y carry : Z) : option (Z * Z) :=
  sum64 ← chk64 (x + y + carry);
  Some (wrap32 sum64, wrap32 (shr64 sum64 32)).

Definition Add64 (x y carry : Z) : Z * Z :=
  let sum := x +! y +! carry in
  let carry_out := shr64 (Z.lor (Z.land x y) (Z.land (Z.lor x y) (not64 sum))) 63 in
  (sum, carry_out).

Definition Add (x y carry : Z) : Z * Z := let '(s, c) := Add64 x y carry in (s, c).

Definition Sub32 (x y borrow : Z) : Z * Z :=
  let diff := wrap32 (wrap32 (x - y) - borrow) in
  let borrow_out := Z.shiftr (Z.lor (Z.land (not32 x) y) (Z.land (not32 (Z.lxor x y)) diff)) 31 in
  (diff, borrow_out).

Definition Sub64 (x y borrow : Z) : Z * Z :=
  let diff := x -! y -! borrow in
  let borrow_out := shr64 (Z.lor (Z.land (not64 x) y) (Z.land (not64 (Z.lxor x y)) diff)) 63 in
  (diff, borrow_out).

Definition Sub (x y borrow : Z) : Z * Z := let '(d, b) := Sub64 x y borrow in (d, b).

Definition Mul32 (x y : Z) : Z * Z :=
  let tmp := x *! y in (wrap32 (shr64 tmp 32), wrap32 tmp).

Definition Mul64 (x y : Z) : Z * Z :=
  let mask32 := 2 ^ 32 - 1 in
  let x0 := Z.land x mask32 in
  let x1 := shr64 x 32 in
  let y0 := Z.land y mask32 in
  let y1 := shr64 y 32 in
  let w0 := x0 *! y0 in
  let t := x1 *! y0 +! shr64 w0 32 in
  let w1 := Z.land t mask32 +! x0 *! y1 in
  let w2 := shr64 t 32 in
  let hi := x1 *! y1 +! w2 +! shr64 w1 32 in
  let lo := x *! y in
  (hi, lo).

Definition Mul (x y : Z) : Z * Z := let '(h, l) := Mul64 x y in (h, l).

Definition Div32 (hi lo y : Z) : option (Z * Z) :=
  if decide (y = 0) then None
  else if decide (y <= hi) then None
  else
    let z := Z.lor (shl64 hi 32) lo in
    Some (wrap32 (z / y), wrap32 (z mod y)).

(** The correction loop of [Div64], which it has twice: [while q >= two32 || ...]. *)
Fixpoint correct (fuel : nat) (yn1 yn0 un q rhat : Z) : option (Z * Z) :=
  match fuel with
  | O => None
  | S fuel' =>
      if decide (q >= 2 ^ 32 \/ q *! yn0 > 2 ^ 32 *! rhat +! un) then
        q ← chk64 (q - 1);
        let rhat := rhat +! yn1 in
        if decide (rhat >= 2 ^ 32) then Some (q, rhat)
        else correct fuel' yn1 yn0 un q rhat
      else Some (q, rhat)
  end.

(** A shift by the width or more panics. *)
Definition shift_amount (s : Z) : option Z := if decide (0 <= s < 64) then Some s else None.

Definition Div64 (hi lo y : Z) : option (Z * Z) :=
  if decide (y = 0) then None
  else if decide (y <= hi) then None
  else if decide (hi = 0) then Some (lo / y, lo mod y)
  else
    s ← shift_amount (LeadingZeros64 y);
    let y := shl64 y s in
    let two32 := 2 ^ 32 in
    let mask32 := two32 - 1 in
    let yn1 := shr64 y 32 in
    let yn0 := Z.land y mask32 in
    un32 ← (if decide (s = 0) then Some hi
            else r ← shift_amount (64 - s); Some (Z.lor (shl64 hi s) (shr64 lo r)));
    let un10 := shl64 lo s in
    let un1 := shr64 un10 32 in
    let un0 := Z.land un10 mask32 in
    let q1 := un32 / yn1 in
    p ← chk64 (q1 * yn1);
    rhat ← chk64 (un32 - p);
    '(q1, rhat) ← correct 3 yn1 yn0 un1 q1 rhat;
    let un21 := un32 *! two32 +! un1 -! q1 *! y in
    let q0 := un21 / yn1 in
    p ← chk64 (q0 * yn1);
    rhat ← chk64 (un21 - p);
    '(q0, rhat) ← correct 3 yn1 yn0 un0 q0 rhat;
    let quo := q1 *! two32 +! q0 in
    let rem := shr64 (un21 *! two32 +! un0 -! q0 *! y) s in
    Some (quo, rem).

Definition Div (hi lo y : Z) : option (Z * Z) := Div64 hi lo y.

Definition Rem32 (hi lo y : Z) : option Z :=
  if decide (y = 0) then None else Some (wrap32 (Z.lor (shl64 hi 32) lo mod y)).

Definition Rem64 (hi lo y : Z) : option Z :=
  if decide (y = 0) then None
  else '(_, rem) ← Div64 (hi mod y) lo y; Some rem.

Definition Rem (hi lo y : Z) : option Z := Rem64 hi lo y.
