(* ===== verification/BitsSpec.v ===== *)
(** The word arithmetic of math/bits is exact: sums, differences, products and quotients of two
    words against the integers, and the bit functions against the bits of their arguments. *)
From Stdlib Require Import ZArith Lia.
From stdpp Require Import base tactics numbers list list_numbers option.
From S2P Require Import Prelude Limbs LimbsSpec LimbsDiv Bits.
Open Scope Z_scope.
Open Scope goish_scope.

(** ** Carries *)

Lemma testbit_top w v : 0 < w -> 0 <= v < 2 ^ w -> Z.testbit v (w - 1) = bool_decide (2 ^ (w - 1) <= v).
Proof.
  intros Hw Hv. assert (2 ^ w = 2 * 2 ^ (w - 1)) as E by (rewrite <- Z.pow_succ_r by lia; f_equal; lia).
  case_bool_decide as H.
  - apply Z.testbit_true; [lia|]. by rewrite <- (Z.div_unique v (2 ^ (w - 1)) 1 (v - 2 ^ (w - 1))) by lia.
  - destruct (decide (v = 0)) as [->|]; [apply Z.bits_0|]. apply Z.bits_above_log2; [lia|]. apply Z.log2_lt_pow2; lia.
Qed.

Lemma testbit_high w v i : 0 <= v < 2 ^ w -> w <= i -> Z.testbit v i = false.
Proof.
  intros Hv Hi. destruct (decide (v = 0)) as [->|]; [apply Z.bits_0|]. apply Z.bits_above_log2; [lia|].
  apply Z.lt_le_trans with w; [|done]. destruct (decide (w < 0)); [rewrite Z.pow_neg_r in Hv by done; lia|]. apply Z.log2_lt_pow2; lia.
Qed.

(** What is left of a word shifted down to its top bit. *)
Lemma shiftr_top w v : 0 < w -> (forall i, w <= i -> Z.testbit v i = false) -> Z.shiftr v (w - 1) = Z.b2z (Z.testbit v (w - 1)).
Proof.
  intros Hw Hh. apply Z.bits_inj'. intros i Hi. rewrite Z.shiftr_spec by done. destruct (decide (i = 0)) as [->|Hi0].
  - by rewrite Z.b2z_bit0.
  - rewrite Hh by lia. symmetry. destruct (Z.testbit v (w - 1)); [|apply Z.bits_0]. apply Z.bits_above_log2; cbn; lia.
Qed.

Lemma carry_bit w x y s : 0 < w -> 0 <= x < 2 ^ w -> 0 <= y < 2 ^ w -> 0 <= s < 2 ^ w ->
  Z.shiftr (Z.lor (Z.land x y) (Z.land (Z.lor x y) (Z.lxor s (2 ^ w - 1)))) (w - 1) =
  Z.b2z (let h v := bool_decide (2 ^ (w - 1) <= v) in h x && h y || (h x || h y) && negb (h s)).
Proof.
  intros Hw Hx Hy Hs. rewrite shiftr_top by (done || intros i Hi; rewrite !Z.lor_spec, !Z.land_spec, !Z.lor_spec, !(testbit_high w) by done; done).
  f_equal. assert (2 ^ w = 2 * 2 ^ (w - 1)) as E by (rewrite <- Z.pow_succ_r by lia; f_equal; lia).
  assert (0 < 2 ^ (w - 1)) by (apply Z.pow_pos_nonneg; lia).
  rewrite !Z.lor_spec, !Z.land_spec, !Z.lor_spec, Z.lxor_spec, !(testbit_top w) by lia.
  rewrite (bool_decide_true (2 ^ (w - 1) <= 2 ^ w - 1)) by lia. by rewrite xorb_true_r.
Qed.

Lemma borrow_bit w x y d : 0 < w -> 0 <= x < 2 ^ w -> 0 <= y < 2 ^ w -> 0 <= d < 2 ^ w ->
  Z.shiftr (Z.lor (Z.land (Z.lxor x (2 ^ w - 1)) y) (Z.land (Z.lxor (Z.lxor x y) (2 ^ w - 1)) d)) (w - 1) =
  Z.b2z (let h v := bool_decide (2 ^ (w - 1) <= v) in negb (h x) && h y || negb (xorb (h x) (h y)) && h d).
Proof.
  intros Hw Hx Hy Hd. rewrite shiftr_top by (done || intros i Hi; rewrite !Z.lor_spec, !Z.land_spec, (testbit_high w y), (testbit_high w d) by done; by rewrite !andb_false_r).
  f_equal. assert (2 ^ w = 2 * 2 ^ (w - 1)) as E by (rewrite <- Z.pow_succ_r by lia; f_equal; lia).
  assert (0 < 2 ^ (w - 1)) by (apply Z.pow_pos_nonneg; lia).
  rewrite !Z.lor_spec, !Z.land_spec, !Z.lxor_spec, !(testbit_top w) by lia.
  rewrite (bool_decide_true (2 ^ (w - 1) <= 2 ^ w - 1)) by lia. by rewrite !xorb_true_r.
Qed.

Lemma Add64_spec x y c : is_u64 x -> is_u64 y -> 0 <= c <= 1 ->
  Add64 x y c = ((x + y + c) mod 2 ^ 64, (x + y + c) / 2 ^ 64).
Proof.
  unfold is_u64. intros Hx Hy Hc. unfold Add64. cbv zeta. assert (x +! y +! c = (x + y + c) mod 2 ^ 64) as ->.
  { unfold add64, wrap64. by rewrite Zplus_mod_idemp_l. }
  f_equal. unfold shr64, not64, u64_max. rewrite (carry_bit 64) by (lia || apply Z.mod_pos_bound; lia). cbv beta zeta. change (64 - 1) with 63.
  repeat case_bool_decide; cbn [andb orb negb Z.b2z]; lia.
Qed.

Lemma Sub64_spec x y c : is_u64 x -> is_u64 y -> 0 <= c <= 1 ->
  Sub64 x y c = ((x - y - c) mod 2 ^ 64, if decide (x < y + c) then 1 else 0).
Proof.
  unfold is_u64. intros Hx Hy Hc. unfold Sub64. cbv zeta. assert (x -! y -! c = (x - y - c) mod 2 ^ 64) as ->.
  { unfold sub64, wrap64. by rewrite Zminus_mod_idemp_l. }
  f_equal. unfold shr64, not64, u64_max. rewrite (borrow_bit 64) by (lia || apply Z.mod_pos_bound; lia). cbv beta zeta. change (64 - 1) with 63.
  case_decide; repeat case_bool_decide; cbn [andb orb negb xorb Z.b2z]; lia.
Qed.

Lemma Add32_spec x y c : 0 <= x < 2 ^ 32 -> 0 <= y < 2 ^ 32 -> 0 <= c <= 1 ->
  Add32 x y c = Some ((x + y + c) mod 2 ^ 32, (x + y + c) / 2 ^ 32).
Proof.
  intros Hx Hy Hc. unfold Add32. rewrite chk64_ok, some_bind by lia. unfold wrap32. rewrite shr64_div by lia.
  rewrite (Z.mod_small (_ / _)) by lia. done.
Qed.

Lemma Sub32_spec x y c : 0 <= x < 2 ^ 32 -> 0 <= y < 2 ^ 32 -> 0 <= c <= 1 ->
  Sub32 x y c = ((x - y - c) mod 2 ^ 32, if decide (x < y + c) then 1 else 0).
Proof.
  intros Hx Hy Hc. unfold Sub32. cbv zeta. assert (wrap32 (wrap32 (x - y) - c) = (x - y - c) mod 2 ^ 32) as ->.
  { unfold wrap32. by rewrite Zminus_mod_idemp_l. }
  f_equal. unfold not32. rewrite (borrow_bit 32) by (lia || apply Z.mod_pos_bound; lia). cbv beta zeta. change (32 - 1) with 31.
  case_decide; repeat case_bool_decide; cbn [andb orb negb xorb Z.b2z]; lia.
Qed.

(** ** Products *)

Lemma land_mask32 x : Z.land x (2 ^ 32 - 1) = x mod 2 ^ 32.
Proof. change (2 ^ 32 - 1) with (Z.ones 32). apply Z.land_ones. lia. Qed.

Lemma Mul32_spec x y : 0 <= x < 2 ^ 32 -> 0 <= y < 2 ^ 32 -> Mul32 x y = (x * y / 2 ^ 32, x * y mod 2 ^ 32).
Proof.
  intros Hx Hy. unfold Mul32. cbv zeta. assert (0 <= x * y <= (2 ^ 32 - 1) * (2 ^ 32 - 1)) by nia.
  rewrite mul64_small by lia. rewrite shr64_div by lia. unfold wrap32. by rewrite (Z.mod_small (_ / _)) by lia.
Qed.

Lemma half_product a b : 0 <= a < 2 ^ 32 -> 0 <= b < 2 ^ 32 -> 0 <= a * b <= (2 ^ 32 - 1) * (2 ^ 32 - 1) /\ a *! b = a * b.
Proof. intros. assert (0 <= a * b <= (2 ^ 32 - 1) * (2 ^ 32 - 1)) by nia. split; [done|]. apply mul64_small. lia. Qed.

Lemma Mul64_spec x y : is_u64 x -> is_u64 y -> Mul64 x y = (x * y / 2 ^ 64, x * y mod 2 ^ 64).
Proof.
  unfold is_u64. intros Hx Hy. unfold Mul64. cbv zeta. rewrite !land_mask32, !shr64_div by lia.
  set (x0 := x mod 2 ^ 32). set (x1 := x / 2 ^ 32). set (y0 := y mod 2 ^ 32). set (y1 := y / 2 ^ 32).
  assert (x = x1 * 2 ^ 32 + x0 /\ 0 <= x0 < 2 ^ 32 /\ 0 <= x1 < 2 ^ 32) as (Ex & Hx0 & Hx1) by (unfold x0, x1; lia).
  assert (y = y1 * 2 ^ 32 + y0 /\ 0 <= y0 < 2 ^ 32 /\ 0 <= y1 < 2 ^ 32) as (Ey & Hy0 & Hy1) by (unfold y0, y1; lia).
  clearbody x0 x1 y0 y1. f_equal.
  destruct (half_product x0 y0 Hx0 Hy0) as [R00 ->]. destruct (half_product x1 y0 Hx1 Hy0) as [R10 ->].
  destruct (half_product x0 y1 Hx0 Hy1) as [R01 ->]. destruct (half_product x1 y1 Hx1 Hy1) as [R11 ->].
  assert (x * y = x1 * y1 * 2 ^ 64 + (x1 * y0 + x0 * y1) * 2 ^ 32 + x0 * y0) as -> by (subst x y; ring).
  set (p00 := x0 * y0) in *. set (p10 := x1 * y0) in *. set (p01 := x0 * y1) in *. set (p11 := x1 * y1) in *.
  clearbody p00 p10 p01 p11. clear - R00 R10 R01 R11. rewrite (add64_small p10) by lia.
  remember (p10 + p00 / 2 ^ 32) as t eqn:Et. assert (0 <= t < 2 ^ 64) by lia. assert (0 <= t mod 2 ^ 32 < 2 ^ 32) by lia.
  rewrite (add64_small (t mod 2 ^ 32)) by lia.
  remember (t mod 2 ^ 32 + p01) as w1 eqn:Ew. assert (0 <= w1 < 2 ^ 64) by lia.
  assert (0 <= t / 2 ^ 32 < 2 ^ 32) by lia. assert (0 <= w1 / 2 ^ 32 < 2 ^ 32) by lia. rewrite (add64_small p11), add64_small by lia.
  apply (Z.div_unique _ _ _ (w1 mod 2 ^ 32 * 2 ^ 32 + p00 mod 2 ^ 32)); [lia|].
  pose proof (Z.div_mod w1 (2 ^ 32) ltac:(lia)). pose proof (Z.div_mod t (2 ^ 32) ltac:(lia)).
  pose proof (Z.div_mod p00 (2 ^ 32) ltac:(lia)). lia.
Qed.

(** ** Quotients *)

Lemma correct_loop fuel v1 v0 u u2 q rhat :
  2 ^ 31 <= v1 < 2 ^ 32 -> limb v0 -> limb u2 -> 0 <= u < v1 * 2 ^ 32 + v0 ->
  q * v1 + rhat = u -> limb rhat -> q <= 2 ^ 32 + 1 ->
  Z.min (2 ^ 32 - 1) ((u * 2 ^ 32 + u2) / (v1 * 2 ^ 32 + v0)) <= q ->
  2 ^ 32 <= rhat + Z.of_nat fuel * v1 -> (0 < fuel)%nat ->
  exists r, correct fuel v1 v0 u2 q rhat = Some (Z.min (2 ^ 32 - 1) ((u * 2 ^ 32 + u2) / (v1 * 2 ^ 32 + v0)), r).
Proof.
  intros Hv1 Hv0 Hu2 Hu. revert q rhat. unfold limb in Hv0, Hu2.
  induction fuel as [|fuel IH]; intros q rhat Hq Hr Hqb HT Hf Hpos; [lia|]. cbn [correct]. unfold limb in Hr.
  pose proof (refine_target_nonneg (2 ^ 32) v1 v0 u u2 ltac:(lia) ltac:(lia) ltac:(lia) ltac:(lia) ltac:(lia) ltac:(lia)) as Hnn.
  set (T := Z.min _ _) in *. rewrite (mul64_small (2 ^ 32) rhat), (add64_small (2 ^ 32 * rhat)) by lia.
  assert (q < 2 ^ 32 -> q *! v0 = q * v0) as Hm by (intros; apply mul64_small; nia).
  case_decide as Hgo.
  - assert (T <= q - 1) as HT'.
    { apply (refine_go (2 ^ 32) v1 v0 u u2 ltac:(lia) ltac:(lia) ltac:(lia) ltac:(lia) ltac:(lia) ltac:(lia) q rhat); lia. }
    go_chk; [lia|]. rewrite add64_small by lia. case_decide as Hbr.
    + exists (rhat + v1). do 2 f_equal.
      apply (refine_break (2 ^ 32) v1 v0 u u2 ltac:(lia) ltac:(lia) ltac:(lia) ltac:(lia) ltac:(lia) ltac:(lia) q rhat); lia.
    + destruct fuel as [|fuel]; [lia|]. apply IH; unfold limb; lia.
  - exists rhat. do 2 f_equal. rewrite Hm in Hgo by lia.
    apply (refine_stop (2 ^ 32) v1 v0 u u2 ltac:(lia) ltac:(lia) ltac:(lia) ltac:(lia) ltac:(lia) ltac:(lia) q rhat); lia.
Qed.

(** One half of the quotient: the estimate, the correction and what is left of the dividend. *)
Lemma half_quotient y u u2 : 2 ^ 63 <= y < 2 ^ 64 -> 0 <= u < y -> limb u2 ->
  let q := (u * 2 ^ 32 + u2) / y in
  chk64 (u / (y / 2 ^ 32) * (y / 2 ^ 32)) = Some (u / (y / 2 ^ 32) * (y / 2 ^ 32)) /\
  chk64 (u - u / (y / 2 ^ 32) * (y / 2 ^ 32)) = Some (u mod (y / 2 ^ 32)) /\
  (exists r, correct 3 (y / 2 ^ 32) (y mod 2 ^ 32) u2 (u / (y / 2 ^ 32)) (u mod (y / 2 ^ 32)) = Some (q, r)) /\
  0 <= q < 2 ^ 32 /\ u *! 2 ^ 32 +! u2 -! q *! y = (u * 2 ^ 32 + u2) mod y.
Proof.
  intros Hy Hu Hu2. cbv zeta. unfold limb in *. set (v1 := y / 2 ^ 32). set (v0 := y mod 2 ^ 32).
  assert (y = v1 * 2 ^ 32 + v0 /\ 2 ^ 31 <= v1 < 2 ^ 32 /\ 0 <= v0 < 2 ^ 32) as (Ey & Hv1 & Hv0) by (unfold v0, v1; lia).
  clearbody v1 v0. pose proof (Z.div_mod u v1 ltac:(lia)) as Hd. pose proof (Z.mod_pos_bound u v1 ltac:(lia)) as Hmb.
  assert (0 <= u / v1) by (apply Z.div_pos; lia). set (q := (u * 2 ^ 32 + u2) / y) in *.
  pose proof (Z.div_mod (u * 2 ^ 32 + u2) y ltac:(lia)) as Hq. pose proof (Z.mod_pos_bound (u * 2 ^ 32 + u2) y ltac:(lia)) as Hr. fold q in Hq.
  assert (0 <= q < 2 ^ 32) as Rq by nia.
  split; [rewrite chk64_ok; [done|nia]|]. split; [rewrite chk64_ok; [f_equal; lia|lia]|].
  split; [|split; [done|]].
  - pose proof (refine_first (2 ^ 32) v1 v0 u u2 ltac:(lia) ltac:(lia) ltac:(lia) ltac:(lia) ltac:(lia) ltac:(lia)) as Hf.
    rewrite <- Ey in Hf. destruct (correct_loop 3 v1 v0 u u2 (u / v1) (u mod v1)) as [r E]; unfold limb; try lia; [rewrite <- Ey; lia|].
    exists r. rewrite E, <- Ey. fold q. do 2 f_equal. lia.
  - unfold sub64, add64, mul64, wrap64. rewrite Zplus_mod_idemp_l, <- Zminus_mod, Z.mod_small by lia. lia.
Qed.

Lemma LeadingZeros64_spec y : 0 < y < 2 ^ 64 -> 0 <= LeadingZeros64 y < 64 /\ 2 ^ 63 <= y * 2 ^ LeadingZeros64 y < 2 ^ 64.
Proof.
  intros Hy. assert (LeadingZeros64 y = 63 - Z.log2 y) as -> by (destruct y; lia || done).
  destruct (Z.log2_spec y ltac:(lia)) as [H1 H2]. pose proof (log2_u64 y Hy). split; [lia|].
  assert (2 ^ 63 = 2 ^ Z.log2 y * 2 ^ (63 - Z.log2 y)) as E1 by (rewrite <- Z.pow_add_r by lia; f_equal; lia).
  assert (2 ^ 64 = 2 ^ Z.succ (Z.log2 y) * 2 ^ (63 - Z.log2 y)) as E2 by (rewrite <- Z.pow_add_r by lia; f_equal; lia).
  assert (0 < 2 ^ (63 - Z.log2 y)) by (apply Z.pow_pos_nonneg; lia). rewrite E1, E2. nia.
Qed.

(** The high word of the shifted dividend. *)
Lemma shifted_high hi lo y s : 0 <= s < 64 -> 0 <= hi < y -> y * 2 ^ s < 2 ^ 64 -> is_u64 lo ->
  exists un32, (if decide (s = 0) then Some hi else r ← shift_amount (64 - s); Some (Z.lor (shl64 hi s) (shr64 lo r))) = Some un32 /\
    (hi * 2 ^ 64 + lo) * 2 ^ s = un32 * 2 ^ 64 + shl64 lo s /\ 0 <= un32 < y * 2 ^ s.
Proof.
  unfold is_u64. intros Hs Hhi Hy Hlo. assert (0 < 2 ^ s) as Ps by (apply Z.pow_pos_nonneg; lia).
  assert (2 ^ 64 = 2 ^ (64 - s) * 2 ^ s) as E by (rewrite <- Z.pow_add_r by lia; f_equal; lia).
  assert (0 < 2 ^ (64 - s)) as Pr by (apply Z.pow_pos_nonneg; lia).
  pose proof (Z.div_mod lo (2 ^ (64 - s)) ltac:(lia)) as Hd. pose proof (Z.mod_pos_bound lo (2 ^ (64 - s)) Pr) as Hm.
  set (l1 := lo / 2 ^ (64 - s)) in *. set (l0 := lo mod 2 ^ (64 - s)) in *. assert (0 <= l1 < 2 ^ s) as Rl1 by nia.
  assert (shl64 lo s = l0 * 2 ^ s) as El.
  { unfold shl64, wrap64. rewrite Z.shiftl_mul_pow2 by lia. symmetry. apply (Z.mod_unique _ _ l1); [left; nia|]. rewrite E. nia. }
  assert (0 <= hi * 2 ^ s + l1 < y * 2 ^ s) as Rh by nia. rewrite El. case_decide as H0.
  - exists hi. subst s. rewrite Z.pow_0_r in *. assert (l1 = 0) by lia. split; [done|]. split; [nia|lia].
  - exists (hi * 2 ^ s + l1). unfold shift_amount. rewrite decide_True, some_bind by lia. split; [|split; [|done]].
    + f_equal. rewrite shl64_small, shr64_div by nia. apply lor_add_low; fold l1; lia.
    + rewrite E. nia.
Qed.

Lemma Div64_spec hi lo y : is_u64 hi -> is_u64 lo -> is_u64 y ->
  Div64 hi lo y = if decide (y <= hi) then None else Some ((hi * 2 ^ 64 + lo) / y, (hi * 2 ^ 64 + lo) mod y).
Proof.
  intros Hhi Hlo Hy. unfold is_u64 in *. unfold Div64. case_decide as H0; [by rewrite decide_True by lia|].
  case_decide as H1; [done|]. case_decide as H2; [by subst|].
  destruct (LeadingZeros64_spec y ltac:(lia)) as [Hs Hys]. set (s := LeadingZeros64 y) in *.
  assert (shift_amount s = Some s) as -> by (unfold shift_amount; by rewrite decide_True by lia). rewrite some_bind. cbv zeta.
  destruct (shifted_high hi lo y s Hs ltac:(lia) ltac:(lia) Hlo) as (un32 & -> & Hdiv & Hun). rewrite some_bind.
  rewrite (shl64_small y) by lia. set (y' := y * 2 ^ s) in *. pose proof (wrap64_range (Z.shiftl lo s)) as Hw. fold (shl64 lo s) in Hw.
  set (un10 := shl64 lo s) in *. rewrite !land_mask32, !shr64_div by lia.
  destruct (half_quotient y' un32 (un10 / 2 ^ 32) Hys Hun ltac:(unfold limb; lia)) as (-> & E2 & (r1 & E3) & Hq1 & E4). cbv zeta in E3, Hq1, E4.
  rewrite some_bind, E2, some_bind, E3, some_bind. cbv beta iota. rewrite E4.
  set (q1 := (un32 * 2 ^ 32 + un10 / 2 ^ 32) / y') in *. set (un21 := (un32 * 2 ^ 32 + un10 / 2 ^ 32) mod y') in *.
  assert (un32 * 2 ^ 32 + un10 / 2 ^ 32 = y' * q1 + un21 /\ 0 <= un21 < y') as [Hd1 Rd1].
  { split; [apply Z.div_mod; lia|apply Z.mod_pos_bound; lia]. }
  destruct (half_quotient y' un21 (un10 mod 2 ^ 32) Hys Rd1 ltac:(unfold limb; lia)) as (-> & F2 & (r0 & F3) & Hq0 & F4). cbv zeta in F3, Hq0, F4.
  rewrite some_bind, F2, some_bind, F3, some_bind. cbv beta iota. rewrite F4.
  set (q0 := (un21 * 2 ^ 32 + un10 mod 2 ^ 32) / y') in *. set (un := (un21 * 2 ^ 32 + un10 mod 2 ^ 32) mod y') in *.
  assert (un21 * 2 ^ 32 + un10 mod 2 ^ 32 = y' * q0 + un /\ 0 <= un < y') as [Hd0 Rd0].
  { split; [apply Z.div_mod; lia|apply Z.mod_pos_bound; lia]. }
  rewrite mul64_small, add64_small by lia. set (q := q1 * 2 ^ 32 + q0) in *.
  assert ((hi * 2 ^ 64 + lo) * 2 ^ s = y' * q + un) as Hall.
  { rewrite Hdiv. unfold q. pose proof (Z.div_mod un10 (2 ^ 32) ltac:(lia)). rewrite Z.mul_add_distr_l, Z.mul_assoc. clear - Hd1 Hd0 H. lia. }
  clearbody q un. clear - Hall Rd0 Hs H0 Hy Hhi. unfold y' in *. assert (0 < 2 ^ s) as Ps by (apply Z.pow_pos_nonneg; lia).
  assert (un = ((hi * 2 ^ 64 + lo) - y * q) * 2 ^ s) as Eu by lia.
  rewrite shr64_div, Eu, Z.div_mul by lia. rewrite Eu in Rd0. assert (0 <= hi * 2 ^ 64 + lo - y * q < y) as R by nia.
  do 2 f_equal; [apply (Z.div_unique _ _ _ (hi * 2 ^ 64 + lo - y * q)); lia|apply (Z.mod_unique _ _ q); lia].
Qed.

Lemma Rem64_spec hi lo y : is_u64 hi -> is_u64 lo -> is_u64 y ->
  Rem64 hi lo y = if decide (y = 0) then None else Some ((hi * 2 ^ 64 + lo) mod y).
Proof.
  unfold is_u64. intros Hhi Hlo Hy. unfold Rem64. case_decide as H0; [done|].
  pose proof (Z.mod_pos_bound hi y ltac:(lia)). rewrite Div64_spec, decide_False, some_bind by (unfold is_u64; lia). f_equal.
  by rewrite <- Z.add_mod_idemp_l, Z.mul_mod_idemp_l, Z.add_mod_idemp_l by done.
Qed.

Lemma Div32_spec hi lo y : 0 <= hi < 2 ^ 32 -> 0 <= lo < 2 ^ 32 -> 0 <= y < 2 ^ 32 ->
  Div32 hi lo y = if decide (y <= hi) then None else Some ((hi * 2 ^ 32 + lo) / y, (hi * 2 ^ 32 + lo) mod y).
Proof.
  intros Hhi Hlo Hy. unfold Div32. case_decide as H0; [by rewrite decide_True by lia|]. case_decide; [done|]. cbv zeta.
  rewrite pair64 by done. pose proof (Z.div_mod (hi * 2 ^ 32 + lo) y H0). pose proof (Z.mod_pos_bound (hi * 2 ^ 32 + lo) y ltac:(lia)).
  unfold wrap32. rewrite !(Z.mod_small _ (2 ^ 32)); [done|lia|nia].
Qed.

Lemma Rem32_spec hi lo y : 0 <= hi < 2 ^ 32 -> 0 <= lo < 2 ^ 32 -> 0 <= y < 2 ^ 32 ->
  Rem32 hi lo y = if decide (y = 0) then None else Some ((hi * 2 ^ 32 + lo) mod y).
Proof.
  intros Hhi Hlo Hy. unfold Rem32. case_decide as H0; [done|]. rewrite pair64 by done.
  pose proof (Z.mod_pos_bound (hi * 2 ^ 32 + lo) y ltac:(lia)). unfold wrap32. by rewrite (Z.mod_small _ (2 ^ 32)) by lia.
Qed.

(** ** Reversal *)

(** Digit [i] in base [b]. *)
Definition digit (b x i : Z) : Z := x / b ^ i mod b.

Lemma reverse_digits_acc b n x acc : reverse_digits b n x acc = acc * b ^ Z.of_nat n + reverse_digits b n x 0.
Proof.
  revert x acc. induction n as [|n IH]; intros x acc; cbn [reverse_digits]; [lia|].
  rewrite IH, (IH _ (0 * b + _)), Nat2Z.inj_succ, Z.pow_succ_r by lia. ring.
Qed.

Lemma reverse_digits_S b n x : reverse_digits b (S n) x 0 = x mod b * b ^ Z.of_nat n + reverse_digits b n (x / b) 0.
Proof. cbn [reverse_digits]. rewrite reverse_digits_acc. f_equal. Qed.

Lemma reverse_digits_range b n x : 0 < b -> 0 <= reverse_digits b n x 0 < b ^ Z.of_nat n.
Proof.
  intros Hb. revert x. induction n as [|n IH]; intros x; [cbn; lia|]. rewrite reverse_digits_S, Nat2Z.inj_succ, Z.pow_succ_r by lia.
  specialize (IH (x / b)). pose proof (Z.mod_pos_bound x b Hb). nia.
Qed.

Lemma reverse_digits_digit b n x i : 0 < b -> 0 <= i < Z.of_nat n ->
  digit b (reverse_digits b n x 0) i = digit b x (Z.of_nat n - 1 - i).
Proof.
  intros Hb. revert x. induction n as [|n IH]; intros x Hi; [lia|]. rewrite reverse_digits_S. unfold digit in *.
  pose proof (reverse_digits_range b n (x / b) Hb) as R. assert (0 < b ^ i) by (apply Z.pow_pos_nonneg; lia).
  destruct (decide (i = Z.of_nat n)) as [->|Hne].
  - rewrite Z.div_add_l, (Z.div_small _ _ R), Z.add_0_r, Z.mod_mod by lia.
    replace (Z.of_nat (S n) - 1 - Z.of_nat n) with 0 by lia. by rewrite Z.pow_0_r, Z.div_1_r.
  - replace (Z.of_nat n) with (Z.of_nat n - 1 - i + 1 + i) at 1 by lia. rewrite Z.pow_add_r, Z.mul_assoc, Z.div_add_l by lia.
    rewrite Z.pow_add_r, Z.pow_1_r, Z.mul_assoc, Z.add_comm, Z.mod_add by lia. rewrite IH by lia.
    replace (Z.of_nat (S n) - 1 - i) with (1 + (Z.of_nat n - 1 - i)) by lia.
    by rewrite Z.pow_add_r, Z.pow_1_r, Z.div_div by (lia || apply Z.pow_pos_nonneg; lia).
Qed.

(** Numbers of [n] digits with the same digits are the same. *)
Lemma digits_ext b n x y : 0 < b -> 0 <= x < b ^ Z.of_nat n -> 0 <= y < b ^ Z.of_nat n ->
  (forall i, 0 <= i < Z.of_nat n -> digit b x i = digit b y i) -> x = y.
Proof.
  intros Hb. revert x y. induction n as [|n IH]; intros x y Hx Hy H; [cbn in *; lia|].
  rewrite Nat2Z.inj_succ, Z.pow_succ_r in Hx, Hy by lia.
  pose proof (Z.div_mod x b ltac:(lia)). pose proof (Z.div_mod y b ltac:(lia)).
  pose proof (Z.mod_pos_bound x b Hb). pose proof (Z.mod_pos_bound y b Hb).
  assert (x mod b = y mod b) as E. { specialize (H 0 ltac:(lia)). unfold digit in H. by rewrite Z.pow_0_r, !Z.div_1_r in H. }
  assert (x / b = y / b) as E'; [|congruence]. apply IH; [nia|nia|]. intros i Hi. specialize (H (1 + i) ltac:(lia)). unfold digit in *.
  by rewrite Z.pow_add_r, Z.pow_1_r, <- !Z.div_div in H by (lia || apply Z.pow_pos_nonneg; lia).
Qed.

Lemma reverse_digits_invol b n x : 0 < b -> 0 <= x < b ^ Z.of_nat n -> reverse_digits b n (reverse_digits b n x 0) 0 = x.
Proof.
  intros Hb Hx. apply (digits_ext b n); [done|by apply reverse_digits_range|done|]. intros i Hi.
  rewrite !reverse_digits_digit by lia. f_equal. lia.
Qed.

Lemma digit_testbit x i : 0 <= i -> digit 2 x i = Z.b2z (Z.testbit x i).
Proof. intros Hi. unfold digit. by rewrite Z.testbit_spec' by done. Qed.

Lemma reverse_bits_testbit w x i : 0 <= i < w -> Z.testbit (reverse_bits w x) i = Z.testbit x (w - 1 - i).
Proof.
  intros Hi. apply Z.b2z_inj. rewrite <- !digit_testbit by lia. unfold reverse_bits.
  rewrite reverse_digits_digit by lia. f_equal. lia.
Qed.

(** ** Rotation *)

Lemma range_of_bits w x : 0 <= w -> 0 <= x -> (forall i, w <= i -> Z.testbit x i = false) -> 0 <= x < 2 ^ w.
Proof.
  intros Hw Hx Hb. split; [done|]. destruct (decide (x = 0)) as [->|Hne]; [apply Z.pow_pos_nonneg; lia|].
  apply Z.log2_lt_pow2; [lia|]. apply Z.nle_gt. intros Hl. specialize (Hb (Z.log2 x) Hl). by rewrite Z.bit_log2 in Hb by lia.
Qed.

Lemma bits_ext w x y : 0 <= x < 2 ^ w -> 0 <= y < 2 ^ w -> (forall i, 0 <= i < w -> Z.testbit x i = Z.testbit y i) -> x = y.
Proof.
  intros Hx Hy H. apply Z.bits_inj'. intros i Hi. destruct (decide (i < w)); [by apply H|]. by rewrite !(testbit_high w) by lia.
Qed.

Lemma rotate_left_range w x k : 0 <= k < w -> 0 <= x < 2 ^ w -> 0 <= rotate_left w x k < 2 ^ w.
Proof.
  intros Hk Hx. pose proof (Z.mod_pos_bound (Z.shiftl x k) (2 ^ w) ltac:(lia)). apply range_of_bits; [lia| |].
  - apply Z.lor_nonneg. split; [lia|]. apply Z.shiftr_nonneg. lia.
  - intros i Hi. unfold rotate_left. by rewrite Z.lor_spec, Z.shiftr_spec, !(testbit_high w) by lia.
Qed.

Lemma rotate_left_testbit w x k i : 0 <= k < w -> 0 <= x < 2 ^ w -> 0 <= i < w ->
  Z.testbit (rotate_left w x k) i = Z.testbit x ((i - k) mod w).
Proof.
  intros Hk Hx Hi. unfold rotate_left. rewrite Z.lor_spec, Z.mod_pow2_bits_low, Z.shiftl_spec, Z.shiftr_spec by lia.
  destruct (decide (i < k)).
  - rewrite (Z.testbit_neg_r x (i - k)) by lia. cbn [orb]. f_equal. apply (Z.mod_unique _ _ (-1)); lia.
  - rewrite (testbit_high w x (i + (w - k))), orb_false_r by lia. by rewrite Z.mod_small by lia.
Qed.

(** Rotating by [- k] undoes rotating by [k]. *)
Lemma rotate_left_undo w x k : 0 < w -> 0 <= x < 2 ^ w -> rotate_left w (rotate_left w x (k mod w)) (- k mod w) = x.
Proof.
  intros Hw Hx. pose proof (Z.mod_pos_bound k w Hw). pose proof (Z.mod_pos_bound (- k) w Hw).
  pose proof (rotate_left_range w x (k mod w) ltac:(lia) Hx).
  apply (bits_ext w); [by apply rotate_left_range|done|]. intros i Hi. pose proof (Z.mod_pos_bound (i - - k mod w) w Hw).
  rewrite !rotate_left_testbit by done. f_equal.
  rewrite Zminus_mod_idemp_l, Zminus_mod_idemp_r. replace (i - - k mod w - k) with (i - k - - k mod w) by lia.
  rewrite Zminus_mod_idemp_r. replace (i - k - - k) with i by lia. by apply Z.mod_small.
Qed.

(** ** Counting *)

Fixpoint bit_sum (n : nat) (x : Z) : Z :=
  match n with
  | O => 0
  | S n' => Z.b2z (Z.testbit x (Z.of_nat n')) + bit_sum n' x
  end.

Lemma bit_sum_half n x : bit_sum (S n) x = x mod 2 + bit_sum n (x / 2).
Proof.
  induction n as [|n IH].
  - cbn [bit_sum]. by rewrite <- Z.bit0_mod.
  - change (bit_sum (S (S n)) x) with (Z.b2z (Z.testbit x (Z.of_nat (S n))) + bit_sum (S n) x). rewrite IH.
    cbn [bit_sum]. rewrite Z.div2_bits, Nat2Z.inj_succ by lia. lia.
Qed.

Lemma count_ones_half x : 0 <= x -> count_ones x = x mod 2 + count_ones (x / 2).
Proof.
  intros Hx. rewrite <- Z.div2_div, <- Z.bit0_mod. destruct x as [|p|p]; [done| |lia]. by destruct p.
Qed.

Lemma count_ones_sum n x : 0 <= x < 2 ^ Z.of_nat n -> count_ones x = bit_sum n x.
Proof.
  revert x. induction n as [|n IH]; intros x Hx; [assert (x = 0) as -> by (cbn in Hx; lia); done|].
  rewrite Nat2Z.inj_succ, Z.pow_succ_r in Hx by lia. rewrite bit_sum_half, count_ones_half, IH by lia. done.
Qed.

Lemma leading_zeros_w_spec w x : 0 < w -> 0 <= x < 2 ^ w ->
  w - leading_zeros_w w x = (if decide (x = 0) then 0 else Z.log2 x + 1) /\ 0 <= leading_zeros_w w x <= w.
Proof.
  intros Hw Hx. case_decide as H0; [subst; cbn; lia|]. assert (leading_zeros_w w x = w - 1 - Z.log2 x) as -> by (destruct x; lia || done).
  pose proof (Z.log2_nonneg x). assert (Z.log2 x < w) by (apply Z.log2_lt_pow2; lia). lia.
Qed.

Lemma trailing_zeros_w_spec w x : 0 < x -> Z.testbit x (trailing_zeros_w w x) = true /\
  forall i, 0 <= i < trailing_zeros_w w x -> Z.testbit x i = false.
Proof. intros Hx. destruct x; try lia. apply pos_ctz_spec. Qed.

(** ** The functions of each width *)

Record WordOps := mkWordOps {
  op_width : Z; op_leading : Z -> Z; op_trailing : Z -> Z; op_ones : Z -> Z; op_len : Z -> option Z;
  op_rotate : Z -> Z -> Z; op_reverse : Z -> Z
}.

Definition word_ops : list WordOps :=
  [mkWordOps 8 LeadingZeros8 TrailingZeros8 OnesCount8 Len8 RotateLeft8 Reverse8;
   mkWordOps 16 LeadingZeros16 TrailingZeros16 OnesCount16 Len16 RotateLeft16 Reverse16;
   mkWordOps 32 LeadingZeros32 TrailingZeros32 OnesCount32 Len32 RotateLeft32 Reverse32;
   mkWordOps 64 LeadingZeros64 TrailingZeros64 OnesCount64 Len64 RotateLeft64 Reverse64;
   mkWordOps UintSize LeadingZeros TrailingZeros OnesCount Len RotateLeft Reverse].

(** What the functions of width [w] have to do with the bits of [x]. *)
Definition word_ops_ok (o : WordOps) (x : Z) : Prop :=
  let w := op_width o in
  op_len o x = Some (if decide (x = 0) then 0 else Z.log2 x + 1) /\
  op_leading o x = w - (if decide (x = 0) then 0 else Z.log2 x + 1) /\
  (if decide (x = 0) then op_trailing o x = w
   else Z.testbit x (op_trailing o x) = true /\ forall i, 0 <= i < op_trailing o x -> Z.testbit x i = false) /\
  op_ones o x = bit_sum (Z.to_nat w) x /\
  (forall k i, 0 <= i < w -> Z.testbit (op_rotate o x k) i = Z.testbit x ((i - k) mod w)) /\
  (forall k, op_rotate o (op_rotate o x k) (- k) = x) /\
  (forall i, 0 <= i < w -> Z.testbit (op_reverse o x) i = Z.testbit x (w - 1 - i)) /\
  op_reverse o (op_reverse o x) = x.

Lemma word_ops_width w x : 0 < w < 2 ^ 32 -> 0 <= x < 2 ^ w ->
  word_ops_ok (mkWordOps w (leading_zeros_w w) (fun x => if decide (x = 0) then w else trailing_zeros_w w x) count_ones
    (fun x => chk32 (w - leading_zeros_w w x)) (fun x k => rotate_left w x (k mod w)) (reverse_bits w)) x.
Proof.
  intros Hw Hx. unfold word_ops_ok. cbn [op_width op_leading op_trailing op_ones op_len op_rotate op_reverse].
  destruct (leading_zeros_w_spec w x ltac:(lia) Hx) as [El Rl].
  split; [rewrite chk32_ok by lia; by rewrite El|]. split; [lia|].
  split; [case_decide; [done|]; apply trailing_zeros_w_spec; lia|].
  split; [apply count_ones_sum; by rewrite Z2Nat.id by lia|].
  split. { intros k i Hi. pose proof (Z.mod_pos_bound k w ltac:(lia)). rewrite rotate_left_testbit by done. by rewrite Zminus_mod_idemp_r. }
  split; [intros k; apply rotate_left_undo; lia|].
  split; [intros i Hi; by apply reverse_bits_testbit|].
  apply reverse_digits_invol; [lia|]. by rewrite Z2Nat.id by lia.
Qed.

(** Every bit function of every width means what it says of the bits of its argument: [Len] and
    [LeadingZeros] the position of the highest bit, [TrailingZeros] of the lowest, [OnesCount] their sum;
    [RotateLeft] moves bit [i - k] modulo the width to bit [i] for every [k] of either sign, and [- k] undoes [k];
    [Reverse] mirrors the bits and [ReverseBytes] the bytes, and both are their own inverses. *)
Theorem bits_functions : (forall o x, In o word_ops -> 0 <= x < 2 ^ op_width o -> word_ops_ok o x) /\
  (forall w f x, In (w, f) [(16, ReverseBytes16); (32, ReverseBytes32); (64, ReverseBytes64); (UintSize, ReverseBytes)] ->
     0 <= x < 2 ^ w -> f (f x) = x /\ forall i, 0 <= i < w / 8 -> digit 256 (f x) i = digit 256 x (w / 8 - 1 - i)).
Proof.
  split.
  - intros o x Ho. cbn in Ho. repeat (destruct Ho as [<-|Ho]; [by apply (word_ops_width _ x)|]). done.
  - intros w f x Hf Hx. assert (f = swap_bytes w /\ (w = 16 \/ w = 32 \/ w = 64)) as [-> Hw].
    { cbn in Hf. repeat (destruct Hf as [[= <- <-]|Hf]; [by auto|]). done. }
    unfold swap_bytes. split.
    + apply reverse_digits_invol; [lia|]. by destruct Hw as [->|[->| ->]].
    + intros i Hi. rewrite reverse_digits_digit by lia. f_equal. lia.
Qed.

Lemma bits_functions_witness : In (mkWordOps 64 LeadingZeros64 TrailingZeros64 OnesCount64 Len64 RotateLeft64 Reverse64) word_ops /\
  RotateLeft64 (RotateLeft64 5 67) (-67) = 5 /\ ReverseBytes32 (ReverseBytes32 258) = 258.
Proof.
  assert (In (mkWordOps 64 LeadingZeros64 TrailingZeros64 OnesCount64 Len64 RotateLeft64 Reverse64) word_ops) as H
    by (do 3 right; left; reflexivity).
  destruct bits_functions as [H1 H2]. split; [exact H|]. split.
  - destruct (H1 _ 5 H ltac:(cbn; lia)) as (_ & _ & _ & _ & _ & E & _). exact (E 67).
  - refine (proj1 (H2 32 ReverseBytes32 258 _ ltac:(lia))). right; left; reflexivity.
Defined.

(** C38: sums with a carry, differences with a borrow and products of words are exact in both parts:
    the carry and borrow formulas on the bits of the operands give the carry of the integers, and the
    product of 64-bit words, from four products of their halves, gives all 128 bits.  [Div] and [Rem] by words
    of either width panic exactly for a zero divisor or, [Div] only, a quotient that does not fit; otherwise the two corrected
    digits of [Div64] are the quotient and the remainder of the two-word dividend. *)
Theorem bits_words_exact : forall x y z, is_u64 x -> is_u64 y -> is_u64 z ->
  (forall c, 0 <= c <= 1 ->
    Add64 x y c = ((x + y + c) mod 2 ^ 64, (x + y + c) / 2 ^ 64) /\
    Sub64 x y c = ((x - y - c) mod 2 ^ 64, if decide (x < y + c) then 1 else 0) /\
    (x < 2 ^ 32 -> y < 2 ^ 32 ->
      Add32 x y c = Some ((x + y + c) mod 2 ^ 32, (x + y + c) / 2 ^ 32) /\
      Sub32 x y c = ((x - y - c) mod 2 ^ 32, if decide (x < y + c) then 1 else 0))) /\
  Mul64 x y = (x * y / 2 ^ 64, x * y mod 2 ^ 64) /\
  (x < 2 ^ 32 -> y < 2 ^ 32 -> Mul32 x y = (x * y / 2 ^ 32, x * y mod 2 ^ 32)) /\
  Div64 x y z = (if decide (z <= x) then None else Some ((x * 2 ^ 64 + y) / z, (x * 2 ^ 64 + y) mod z)) /\
  Rem64 x y z = (if decide (z = 0) then None else Some ((x * 2 ^ 64 + y) mod z)) /\
  (x < 2 ^ 32 -> y < 2 ^ 32 -> z < 2 ^ 32 ->
    Div32 x y z = (if decide (z <= x) then None else Some ((x * 2 ^ 32 + y) / z, (x * 2 ^ 32 + y) mod z)) /\
    Rem32 x y z = (if decide (z = 0) then None else Some ((x * 2 ^ 32 + y) mod z))).
Proof.
  intros x y z Hx Hy Hz. split.
  { intros c Hc. split; [by apply Add64_spec|]. split; [by apply Sub64_spec|]. unfold is_u64 in *. intros Hx' Hy'.
    split; [apply Add32_spec; lia|apply Sub32_spec; lia]. }
  split; [by apply Mul64_spec|]. split; [unfold is_u64 in *; intros; apply Mul32_spec; lia|].
  split; [by apply Div64_spec|]. split; [by apply Rem64_spec|]. unfold is_u64 in *. intros.
  split; [apply Div32_spec; lia|apply Rem32_spec; lia].
Qed.

Lemma bits_words_exact_witness :
  Div64 (2 ^ 63) 5 (2 ^ 63 + 1) = Some ((2 ^ 63 * 2 ^ 64 + 5) / (2 ^ 63 + 1), (2 ^ 63 * 2 ^ 64 + 5) mod (2 ^ 63 + 1)) /\
  Add64 (2 ^ 64 - 1) 0 1 = (0, 1).
Proof.
  assert (forall v, 0 <= v < 2 ^ 64 -> is_u64 v) as U by (intros v Hv; exact Hv). split.
  - exact (proj1 (proj2 (proj2 (proj2 (bits_words_exact (2 ^ 63) 5 (2 ^ 63 + 1) (U (2 ^ 63) ltac:(lia)) (U 5 ltac:(lia)) (U (2 ^ 63 + 1) ltac:(lia))))))).
  - exact (proj1 (proj1 (bits_words_exact (2 ^ 64 - 1) 0 1 (U (2 ^ 64 - 1) ltac:(lia)) (U 0 ltac:(lia)) (U 1 ltac:(lia))) 1 ltac:(lia))).
Defined.
