(* ===== verification/Hex.v ===== *)
(** Hexadecimal encoding, decoding and dumps: src/src/encoding/hex/hex.rs.

    Bytes are integers; a buffer passed by mutable reference is returned with the result, and a
    [None] is a panic.  The writer under an encoder or a dumper is any instance of [Writer]. *)
From Stdlib Require Import ZArith Lia.
From stdpp Require Import base tactics numbers list list_numbers option.
From S2P Require Import Prelude.
Open Scope Z_scope.

Definition HEX_TABLE : list Z := [48; 49; 50; 51; 52; 53; 54; 55; 56; 57; 97; 98; 99; 100; 101; 102].

Definition EncodedLen (n : Z) : option Z := chki64 (n * 2).
Definition DecodedLen (n : Z) : Z := Z.quot n 2.

(** ** Encoding *)

Fixpoint encode_loop (src dst : list Z) (j : Z) : option (list Z * Z) :=
  match src with
  | [] => Some (dst, j)
  | b :: src' =>
      h ← idx HEX_TABLE (Z.shiftr b 4);
      dst ← upd dst j h;
      l ← idx HEX_TABLE (Z.land b 15);
      dst ← upd dst (j + 1) l;
      encode_loop src' dst (j + 2)
  end.

Definition Encode (dst src : list Z) : option (list Z * Z) :=
  let needed := zlen src * 2 in
  if decide (zlen dst >= needed) then encode_loop src dst 0 else None.

Definition EncodeToString (src : list Z) : option (list Z) :=
  '(dst, _) ← Encode (replicate (length src * 2) 0) src;
  Some dst.

(** ** Decoding *)

Inductive hex_error := InvalidByteError (b : Z) | ErrLength.

#[export] Instance hex_error_eq_dec : EqDecision hex_error.
Proof. solve_decision. Defined.

Definition from_hex_char (c : Z) : Z * bool :=
  if decide (48 <= c <= 57) then (c - 48, true)
  else if decide (97 <= c <= 102) then (c - 97 + 10, true)
  else if decide (65 <= c <= 70) then (c - 65 + 10, true)
  else (0, false).

(** [while j + 1 < src.len()]: the buffer, the count and the error of an early return. *)
Fixpoint decode_loop (fuel : nat) (dst src : list Z) (i j : Z) : option (list Z * Z * option hex_error) :=
  match fuel with
  | O => None
  | S fuel' =>
      if decide (j + 1 < zlen src) then
        a ← idx src j;
        let '(hi, ok1) := from_hex_char a in
        if negb ok1 then Some (dst, i, Some (InvalidByteError a))
        else
          b ← idx src (j + 1);
          let '(lo, ok2) := from_hex_char b in
          if negb ok2 then Some (dst, i, Some (InvalidByteError b))
          else if decide (i >= zlen dst) then Some (dst, i, None)
          else
            dst ← upd dst i (Z.lor (Z.shiftl hi 4 mod 256) lo);
            decode_loop fuel' dst src (i + 1) (j + 2)
      else Some (dst, i, None)
  end.

(** After the loop: an odd length, whose last byte is looked at first. *)
Definition decode_odd (src dst : list Z) (i : Z) : option (list Z * Z * option hex_error) :=
  if decide (zlen src mod 2 = 1) then
    c ← idx src (zlen src - 1);
    let '(_, ok) := from_hex_char c in
    if negb ok then Some (dst, i, Some (InvalidByteError c)) else Some (dst, i, Some ErrLength)
  else Some (dst, i, None).

Definition Decode (dst src : list Z) : option (list Z * Z * option hex_error) :=
  '(dst, i, err) ← decode_loop (S (length src)) dst src 0 0;
  if err is Some e then Some (dst, i, Some e) else decode_odd src dst i.

Definition DecodeString (src : list Z) : option (list Z * option hex_error) :=
  '(dst, n, err) ← Decode (replicate (length src / 2) 0) src;
  Some (take (Z.to_nat n) dst, err).

(** [Encode] and [Decode] into the end of a grown buffer. *)
Definition AppendEncode (dst src : list Z) : option (list Z) :=
  let n := (length src * 2)%nat in
  '(out, _) ← Encode (replicate n 0) src;
  Some (dst ++ out).

Definition AppendDecode (dst src : list Z) : option (list Z * option hex_error) :=
  '(out, n, err) ← Decode (replicate (length src / 2) 0) src;
  Some (take (length dst + Z.to_nat n) (dst ++ out), err).

(** ** Writers *)

(** [io::Writer]: the new state, the number of bytes written and the error. *)
Class Writer (W E : Type) := write : W -> list Z -> W * Z * option E.

Definition BUFFER_SIZE : Z := 1024.

Record Encoder (W E : Type) := mkEncoder { enc_w : W; enc_err : option E; enc_out : list Z }.
Arguments mkEncoder {W E}. Arguments enc_w {W E}. Arguments enc_err {W E}. Arguments enc_out {W E}.

Definition NewEncoder {W E} (w : W) : Encoder W E := mkEncoder w None (replicate (Z.to_nat BUFFER_SIZE) 0).

(** The loop of [Encoder::Write]. *)
Fixpoint encoder_loop {W E} `{!Writer W E} (fuel : nat) (e : Encoder W E) (p : list Z) (n : Z) : option (Encoder W E * Z) :=
  match fuel with
  | O => None
  | S fuel' =>
      if bool_decide (p = []) || bool_decide (is_Some (enc_err e)) then Some (e, n)
      else
        let chunk_size := Z.min (BUFFER_SIZE / 2) (zlen p) in
        piece ← slice p 0 chunk_size;
        '(out, encoded) ← Encode (enc_out e) piece;
        chunk ← slice out 0 encoded;
        let '(w, written, err) := write (enc_w e) chunk in
        n ← chki64 (n + Z.quot written 2);
        rest ← slice p chunk_size (zlen p);
        encoder_loop fuel' (mkEncoder w err out) rest n
  end.

Definition encoder_write {W E} `{!Writer W E} (e : Encoder W E) (p : list Z) : option (Encoder W E * Z * option E) :=
  '(e, n) ← encoder_loop (S (length p)) e p 0;
  Some (e, n, enc_err e).

(** ** Dumps *)

Definition toChar (b : Z) : Z := if decide (b < 32 \/ b > 126) then 46 else b.

(** An error of the writer, or the dumper's own. *)
Inductive dump_error (E : Type) := DumperClosed | WriterError (e : E).
Arguments DumperClosed {E}. Arguments WriterError {E}.

Record DumperT (W : Type) := mkDumper {
  d_w : W; d_right : list Z; d_buf : list Z; d_used : Z; d_n : Z; d_closed : bool
}.
Arguments mkDumper {W}. Arguments d_w {W}. Arguments d_right {W}. Arguments d_buf {W}.
Arguments d_used {W}. Arguments d_n {W}. Arguments d_closed {W}.

Definition Dumper {W} (w : W) : DumperT W := mkDumper w (replicate 18 0) (replicate 14 0) 0 0 false.

Section dumper.
  Context {W E : Type} `{!Writer W E}.

(** At the start of a line: the offset. *)
Definition dump_offset (d : DumperT W) : option (DumperT W * option E) :=
  if decide (d_used d = 0) then
    let n := d_n d in
    buf ← upd (d_buf d) 0 (Z.shiftr n 24 mod 256);
    buf ← upd buf 1 (Z.shiftr n 16 mod 256);
    buf ← upd buf 2 (Z.shiftr n 8 mod 256);
    buf ← upd buf 3 (n mod 256);
    left ← slice buf 0 4;
    right ← slice buf 4 12;
    '(right, _) ← Encode right left;
    rest ← slice buf 12 (zlen buf);
    let buf := left ++ right ++ rest in
    buf ← upd buf 12 32;
    buf ← upd buf 13 32;
    chunk ← slice buf 4 14;
    let '(w, _, err) := write (d_w d) chunk in
    Some (mkDumper w (d_right d) buf (d_used d) n (d_closed d), err)
  else Some (d, None).

(** The byte itself and what separates it from the next. *)
Definition dump_cell (d : DumperT W) (b : Z) : option (DumperT W * option E) :=
  head ← slice (d_buf d) 0 2;
  '(head, _) ← Encode head [b];
  rest ← slice (d_buf d) 2 (zlen (d_buf d));
  let buf := head ++ rest in
  buf ← upd buf 2 32;
  '(buf, l) ← (if decide (d_used d = 7) then buf ← upd buf 3 32; Some (buf, 4)
               else if decide (d_used d = 15) then buf ← upd buf 3 32; buf ← upd buf 4 124; Some (buf, 5)
               else Some (buf, 3));
  chunk ← slice buf 0 l;
  let '(w, _, err) := write (d_w d) chunk in
  Some (mkDumper w (d_right d) buf (d_used d) (d_n d) (d_closed d), err).

(** The printable column, once a line is full. *)
Definition dump_right (d : DumperT W) (b : Z) : option (DumperT W * option E) :=
  right ← upd (d_right d) (d_used d) (toChar b);
  let used := d_used d + 1 in
  n ← chk32 (d_n d + 1);
  if decide (used = 16) then
    right ← upd right 16 124;
    right ← upd right 17 10;
    chunk ← slice right 0 18;
    let '(w, _, err) := write (d_w d) chunk in
    Some (mkDumper w right (d_buf d) (if err is Some _ then used else 0) n (d_closed d), err)
  else Some (mkDumper (d_w d) right (d_buf d) used n (d_closed d), None).

(** The loop of [Dumper::Write], which returns at the first error of the writer. *)
Fixpoint dump_loop (d : DumperT W) (raw : list Z) (written : Z) : option (DumperT W * Z * option E) :=
  match raw with
  | [] => Some (d, written, None)
  | b :: raw' =>
      '(d, err) ← dump_offset d;
      if err is Some e then Some (d, written, Some e)
      else
        '(d, err) ← dump_cell d b;
        if err is Some e then Some (d, written, Some e)
        else
          written ← chki64 (written + 1);
          '(d, err) ← dump_right d b;
          if err is Some e then Some (d, written, Some e) else dump_loop d raw' written
  end.

Definition dumper_write (d : DumperT W) (data : list Z) : option (DumperT W * Z * option (dump_error E)) :=
  if d_closed d then Some (d, 0, Some DumperClosed)
  else '(d, written, err) ← dump_loop d data 0; Some (d, written, option_map WriterError err).

(** The blank cells of the last line: [while self.used < 16]. *)
Fixpoint pad_loop (fuel : nat) (d : DumperT W) : option (DumperT W * option E) :=
  match fuel with
  | O => None
  | S fuel' =>
      if decide (d_used d < 16) then
        let l := if decide (d_used d = 7) then 4 else if decide (d_used d = 15) then 5 else 3 in
        chunk ← slice (d_buf d) 0 l;
        let '(w, _, err) := write (d_w d) chunk in
        let d := mkDumper w (d_right d) (d_buf d) (d_used d) (d_n d) (d_closed d) in
        if err is Some e then Some (d, Some e)
        else pad_loop fuel' (mkDumper w (d_right d) (d_buf d) (d_used d + 1) (d_n d) (d_closed d))
      else Some (d, None)
  end.

Definition dumper_close (d : DumperT W) : option (DumperT W * option E) :=
  if d_closed d then Some (d, None)
  else
    let d := mkDumper (d_w d) (d_right d) (d_buf d) (d_used d) (d_n d) true in
    if decide (d_used d = 0) then Some (d, None)
    else
      buf ← upd (d_buf d) 0 32;
      buf ← upd buf 1 32;
      buf ← upd buf 2 32;
      buf ← upd buf 3 32;
      buf ← upd buf 4 124;
      let n_bytes := d_used d in
      '(d, err) ← pad_loop 17 (mkDumper (d_w d) (d_right d) buf n_bytes (d_n d) true);
      if err is Some e then Some (d, Some e)
      else
        right ← upd (d_right d) n_bytes 124;
        right ← upd right (n_bytes + 1) 10;
        chunk ← slice right 0 (n_bytes + 2);
        let '(w, _, err) := write (d_w d) chunk in
        Some (mkDumper w right (d_buf d) (d_used d) (d_n d) (d_closed d), err).

(** [Dump] with the new buffer it writes to and that buffer's [String]. *)
Definition Dump (NewBuffer : W) (String : W -> list Z) (data : list Z) : option (list Z) :=
  if decide (zlen data = 0) then Some []
  else
    '(d, _, _) ← dumper_write (Dumper NewBuffer) data;
    '(d, _) ← dumper_close d;
    Some (String (d_w d)).
End dumper.
