(* ===== verification/HexSpec.v ===== *)
(** Hexadecimal text: encoding and decoding are inverse, decoding is exact on any input, and a dump
    has the layout of [hexdump -C]. *)
From Stdlib Require Import ZArith Lia.
From stdpp Require Import base tactics numbers list list_numbers option.
From S2P Require Import Prelude Digits Hex.
Open Scope Z_scope.

Definition is_byte (b : Z) : Prop := 0 <= b < 256.

(** ** Encoding *)

(** The digit of value [v], in lower case. *)
Definition hex_digit (v : Z) : Z := nth (Z.to_nat v) lower_digits 0.
Definition hex_of (b : Z) : list Z := [hex_digit (b / 16); hex_digit (b mod 16)].
Definition hex_text (src : list Z) : list Z := concat (map hex_of src).

Lemma hex_table_idx v : 0 <= v < 16 -> idx HEX_TABLE v = Some (hex_digit v).
Proof.
  intros Hv. assert (Forall (fun v => idx HEX_TABLE v = Some (hex_digit v)) (seqZ 0 16)) as H by (repeat constructor).
  rewrite list.Forall_forall in H. apply H. apply elem_of_seqZ. lia.
Qed.

Lemma hex_text_cons b src : hex_text (b :: src) = hex_of b ++ hex_text src.
Proof. done. Qed.

Lemma hex_text_length src : length (hex_text src) = (2 * length src)%nat.
Proof. induction src as [|b src IH]; [done|]. rewrite hex_text_cons, length_app, IH. cbn. lia. Qed.

Lemma hex_text_app s t : hex_text (s ++ t) = hex_text s ++ hex_text t.
Proof. unfold hex_text. by rewrite map_app, concat_app. Qed.

Lemma encode_loop_spec src pre dst : Forall is_byte src -> (2 * length src <= length dst)%nat ->
  encode_loop src (pre ++ dst) (zlen pre) = Some (pre ++ hex_text src ++ drop (2 * length src) dst, zlen pre + 2 * zlen src).
Proof.
  intros Hb. revert pre dst. induction Hb as [|b src Hb Hs IH]; intros pre dst Hl; cbn [encode_loop].
  - rewrite Z.add_0_r. done.
  - cbn [length] in Hl. destruct dst as [|x [|y dst]]; [cbn in Hl; lia..|]. unfold is_byte in Hb.
    rewrite Z.shiftr_div_pow2, (hex_table_idx (b / 2 ^ 4)), some_bind by lia. rewrite upd_prefix, some_bind.
    change 15 with (Z.ones 4). rewrite Z.land_ones, hex_table_idx, some_bind by lia.
    replace (zlen pre + 1) with (zlen (pre ++ [hex_digit (b / 2 ^ 4)])) by (unfold zlen; rewrite length_app; cbn; lia).
    change (pre ++ hex_digit (b / 2 ^ 4) :: y :: dst) with (pre ++ [hex_digit (b / 2 ^ 4)] ++ y :: dst). rewrite app_assoc.
    rewrite upd_prefix, some_bind. change (pre ++ [hex_digit (b / 2 ^ 4)]) with (pre ++ [hex_digit (b / 16)]).
    change (2 ^ 4) with 16. rewrite <- app_assoc. cbn [app].
    change (hex_digit (b / 16) :: hex_digit (b mod 16) :: dst) with (hex_of b ++ dst). rewrite app_assoc.
    replace (zlen pre + 2) with (zlen (pre ++ hex_of b)) by (unfold zlen; rewrite length_app; cbn; lia).
    rewrite IH by (cbn in Hl; lia). rewrite hex_text_cons, <- !app_assoc. f_equal. f_equal.
    + do 3 f_equal. replace (2 * length (b :: src))%nat with (S (S (2 * length src))) by (cbn; lia). done.
    + unfold zlen. rewrite length_app. cbn. lia.
Qed.

Lemma Encode_spec dst src : Forall is_byte src ->
  Encode dst src = if decide (2 * zlen src <= zlen dst) then Some (hex_text src ++ drop (2 * length src) dst, 2 * zlen src) else None.
Proof.
  intros Hb. unfold Encode. cbv zeta. case_decide as H; case_decide as H'; try (unfold zlen in *; lia); [|done].
  pose proof (encode_loop_spec src [] dst Hb ltac:(unfold zlen in *; lia)) as E. cbn [app zlen length] in E. exact E.
Qed.


(** ** Decoding *)



















(** ** Writers that append *)

(** What [bytes.Buffer] promises: every byte is written, after those that are there. *)
Class AppendWriter (W E : Type) `{!Writer W E} := {
  contents : W -> list Z;
  write_appends w p : exists w', write w p = (w', zlen p, None) /\ contents w' = contents w ++ p
}.

Section appending.
  Context {W E : Type} `{!Writer W E, !AppendWriter W E}.

Lemma encoder_loop_spec fuel p (e : Encoder W E) n : (length p < fuel)%nat -> Forall is_byte p -> enc_err e = None ->
  zlen (enc_out e) = BUFFER_SIZE -> 0 <= n -> n + zlen p < 2 ^ 63 ->
  exists e', encoder_loop fuel e p n = Some (e', n + zlen p) /\ enc_err e' = None /\ zlen (enc_out e') = BUFFER_SIZE /\
    contents (enc_w e') = contents (enc_w e) ++ hex_text p.
Proof.
  revert p e n. induction fuel as [|fuel IH]; intros p e n Hf Hb He Ho Hn Hs; [lia|]. cbn [encoder_loop].
  rewrite He, (bool_decide_false (is_Some None)), orb_false_r by (by intros [? ?]).
  destruct (decide (p = [])) as [->|Hne].
  { rewrite bool_decide_true by done. exists e. rewrite Z.add_0_r, app_nil_r. done. }
  rewrite bool_decide_false by done. set (k := Z.to_nat (Z.min (BUFFER_SIZE / 2) (zlen p))).
  unfold BUFFER_SIZE in *. change (1024 / 2) with 512 in *.
  assert (0 < k <= length p /\ k <= 512)%nat as Hk by (destruct p; [done|]; unfold k, zlen in *; cbn [length] in *; lia).
  assert (Z.min 512 (zlen p) = zlen (take k p)) as Ek by (unfold zlen at 2; rewrite length_take; unfold k, zlen in *; lia).
  rewrite Ek. pose proof (slice_app (take k p) (drop k p)) as [E1 E2]. rewrite take_drop in E1, E2. rewrite E1, some_bind.
  assert (Forall is_byte (take k p) /\ Forall is_byte (drop k p)) as [B1 B2] by (by apply list.Forall_app; rewrite take_drop).
  rewrite Encode_spec, decide_True, some_bind by (done || unfold zlen in *; rewrite length_take; lia). cbv beta iota.
  replace (2 * zlen (take k p)) with (zlen (hex_text (take k p))) by (unfold zlen; rewrite hex_text_length; lia).
  rewrite (proj1 (slice_app _ _)), some_bind. destruct (write_appends (enc_w e) (hex_text (take k p))) as (w & -> & Hc).
  assert (zlen (take k p) + zlen (drop k p) = zlen p) as El by (unfold zlen; rewrite length_take, length_drop; lia).
  replace (Z.quot (zlen (hex_text (take k p))) 2) with (zlen (take k p)).
  2: { unfold zlen. rewrite hex_text_length, Z.quot_div_nonneg by lia. lia. }
  pose proof (Nat2Z.is_nonneg (length (drop k p))). fold (zlen (drop k p)) in H.
  rewrite chki64_ok, some_bind by (unfold zlen in *; lia). rewrite E2, some_bind.
  destruct (IH (drop k p) (mkEncoder w None (hex_text (take k p) ++ drop (2 * length (take k p)) (enc_out e))) (n + zlen (take k p)))
    as (e' & -> & He' & Ho' & Hc'); [rewrite length_drop; lia|done|done| |unfold zlen; lia|lia|].
  { cbn [enc_out]. unfold zlen in *. rewrite length_app, hex_text_length, length_drop, length_take. lia. }
  exists e'. split; [do 2 f_equal; lia|]. split; [done|]. split; [done|]. rewrite Hc'. cbn [enc_w]. rewrite Hc, <- app_assoc, <- hex_text_app.
  by rewrite take_drop.
Qed.
End appending.

(** ** Dumps *)

(** What follows a byte in column [i]. *)
Definition spacer (i : Z) : list Z := 32 :: (if decide (i = 7) then [32] else if decide (i = 15) then [32; 124] else []).

Fixpoint cells (i : Z) (bs : list Z) : list Z :=
  match bs with
  | [] => []
  | b :: bs' => (hex_of b ++ spacer i) ++ cells (i + 1) bs'
  end.

(** [n] blank cells from column [i] on. *)
Fixpoint blanks (n : nat) (i : Z) : list Z :=
  match n with
  | O => []
  | S n' => ([32; 32] ++ spacer i) ++ blanks n' (i + 1)
  end.

Definition offset_text (n : Z) : list Z :=
  hex_text [n / 2 ^ 24 mod 256; n / 2 ^ 16 mod 256; n / 2 ^ 8 mod 256; n mod 256] ++ [32; 32].

Definition line_head (off : Z) (chunk : list Z) : list Z := if decide (chunk = []) then [] else offset_text off ++ cells 0 chunk.

(** A line: the offset, sixteen columns in two groups, and the printable rendering between bars. *)
Definition dump_line (off : Z) (chunk : list Z) : list Z :=
  line_head off chunk ++ blanks (16 - length chunk) (zlen chunk) ++ map toChar chunk ++ [124; 10].

Fixpoint dump_lines (fuel : nat) (off : Z) (data : list Z) : list Z :=
  match fuel, data with
  | S fuel', _ :: _ => dump_line off (take 16 data) ++ dump_lines fuel' (off + 16) (drop 16 data)
  | _, _ => []
  end.

Definition dump_text (off : Z) (data : list Z) : list Z := dump_lines (length data) off data.

Lemma dump_lines_fuel fuel off data : (length data <= fuel)%nat -> dump_lines fuel off data = dump_text off data.
Proof.
  unfold dump_text. revert off data. induction fuel as [fuel IH] using (well_founded_induction lt_wf). intros off data Hf.
  destruct data as [|x data]; [by destruct fuel|]. destruct fuel as [|fuel]; [cbn in Hf; lia|]. cbn [dump_lines length].
  assert (length (drop 16 (x :: data)) <= length data)%nat as Hl by (rewrite length_drop; cbn; lia). cbn [length] in Hf.
  f_equal. rewrite (IH fuel) by lia. by destruct (decide (length data < S fuel)%nat); [rewrite (IH (length data)) by lia|lia].
Qed.

Lemma dump_text_line off chunk data : length chunk = 16%nat -> dump_text off (chunk ++ data) = dump_line off chunk ++ dump_text (off + 16) data.
Proof.
  intros Hl. rewrite <- (dump_lines_fuel (S (15 + length data))) by (rewrite length_app; lia).
  generalize (eq_refl (15 + length data)%nat). generalize (15 + length data)%nat at 1 2. intros fuel Hf.
  destruct chunk as [|x chunk]; [done|]. cbn [dump_lines app]. change (x :: chunk ++ data) with ((x :: chunk) ++ data).
  rewrite take_app_length' by done. rewrite drop_app_length' by done. f_equal. apply dump_lines_fuel. lia.
Qed.

Lemma dump_text_last off rest : rest <> [] -> (length rest < 16)%nat -> dump_text off rest = dump_line off rest.
Proof.
  intros Hne Hl. unfold dump_text. destruct rest as [|x rest]; [done|]. cbn [dump_lines length].
  rewrite take_ge, drop_ge by lia. destruct (length rest); by rewrite app_nil_r.
Qed.

Lemma cells_snoc i bs b : cells i (bs ++ [b]) = cells i bs ++ hex_of b ++ spacer (i + zlen bs).
Proof.
  revert i. induction bs as [|x bs IH]; intros i; cbn [app cells].
  - by rewrite app_nil_r, Z.add_0_r.
  - rewrite IH, <- !app_assoc. replace (i + zlen (x :: bs)) with (i + 1 + zlen bs) by (unfold zlen; cbn [length]; lia). done.
Qed.

Lemma line_head_snoc off rest b : line_head off (rest ++ [b]) =
  line_head off rest ++ (if decide (rest = []) then offset_text off else []) ++ hex_of b ++ spacer (zlen rest).
Proof.
  unfold line_head. rewrite decide_False by (by destruct rest). rewrite cells_snoc, Z.add_0_l. case_decide; [by subst|]. by rewrite <- app_assoc.
Qed.

Ltac list_of_length l := repeat (destruct l as [|? l]; try discriminate).

(** Runs the accesses to a buffer whose elements are named. *)
Ltac run_buf := repeat match goal with
  | |- context [mbind _ (upd ?l ?i ?x)] => let r := eval vm_compute in (upd l i x) in change (upd l i x) with r; rewrite some_bind
  | |- context [mbind _ (slice ?l ?i ?j)] => let r := eval vm_compute in (slice l i j) in change (slice l i j) with r; rewrite some_bind
  end.

Section dumping.
  Context {W E : Type} `{!Writer W E, !AppendWriter W E}.

(** Between two bytes: [out] is written, [rest] are the bytes of the line that starts at [off]. *)
Definition dump_state (d : DumperT W) (out : list Z) (off : Z) (rest : list Z) : Prop :=
  contents (d_w d) = out ++ line_head off rest /\ length (d_right d) = 18%nat /\ length (d_buf d) = 14%nat /\
  take (length rest) (d_right d) = map toChar rest /\ d_used d = zlen rest /\ (length rest < 16)%nat /\
  d_n d = off + zlen rest /\ d_closed d = false.

Lemma dump_offset_spec d out off rest : dump_state d out off rest -> 0 <= off ->
  exists d', dump_offset d = Some (d', None) /\ d_right d' = d_right d /\ length (d_buf d') = 14%nat /\ d_used d' = d_used d /\
    d_n d' = d_n d /\ d_closed d' = false /\
    contents (d_w d') = contents (d_w d) ++ (if decide (rest = []) then offset_text off else []).
Proof.
  intros (Hc & Hr & Hb & Ht & Hu & Hl & Hn & Hcl) Ho. unfold dump_offset. rewrite Hu.
  destruct (decide (rest = [])) as [->|Hne].
  2: { rewrite decide_False by (destruct rest; [done|unfold zlen; cbn; lia]). exists d. rewrite app_nil_r. by split_and!. }
  rewrite decide_True by done. change (zlen []) with 0 in *. rewrite Z.add_0_r in Hn. rewrite Hn. destruct d as [w right buf used n cl].
  cbn [d_buf d_w d_right d_used d_closed d_n] in *.
  rewrite !Z.shiftr_div_pow2 by lia. list_of_length buf. clear Hb. unfold offset_text.
  assert (Forall is_byte [off / 2 ^ 24 mod 256; off / 2 ^ 16 mod 256; off / 2 ^ 8 mod 256; off mod 256]) as Hbytes
    by (repeat constructor; apply Z.mod_pos_bound; lia).
  revert Hbytes. generalize (off / 2 ^ 24 mod 256) (off / 2 ^ 16 mod 256) (off / 2 ^ 8 mod 256) (off mod 256).
  intros b3 b2 b1 b0 Hbytes. run_buf. rewrite Encode_spec, decide_True, some_bind by done. cbv beta iota.
  pose proof (hex_text_length [b3; b2; b1; b0]) as Hlen. change (drop _ _) with (@nil Z). rewrite app_nil_r.
  generalize dependent (hex_text [b3; b2; b1; b0]). intros t Hlen. cbn [length Nat.mul Nat.add] in Hlen. list_of_length t. cbn [app]. run_buf.
  match goal with |- context [write w ?p] => destruct (write_appends w p) as (w' & -> & Hw) end.
  eexists. split; [done|]. cbn [d_w d_right d_buf d_used d_n d_closed length]. by split_and!.
Qed.

Lemma dump_cell_spec d b : is_byte b -> length (d_buf d) = 14%nat -> 0 <= d_used d < 16 ->
  exists d', dump_cell d b = Some (d', None) /\ d_right d' = d_right d /\ length (d_buf d') = 14%nat /\ d_used d' = d_used d /\
    d_n d' = d_n d /\ d_closed d' = d_closed d /\ contents (d_w d') = contents (d_w d) ++ hex_of b ++ spacer (d_used d).
Proof.
  intros Hb Hl Hu. destruct d as [w right buf used n cl]. cbn [d_buf d_w d_right d_used d_closed d_n] in *. unfold dump_cell.
  cbn [d_buf d_w d_right d_used d_closed d_n]. list_of_length buf. run_buf.
  rewrite Encode_spec, decide_True, some_bind by (done || by apply list.Forall_singleton). cbv beta iota. change (drop _ _) with (@nil Z). rewrite app_nil_r.
  unfold hex_text, hex_of. cbn [map concat app]. generalize (hex_digit (b / 16)) (hex_digit (b mod 16)). intros h1 h0. unfold spacer.
  run_buf. repeat case_decide; run_buf; repeat (rewrite some_bind; cbv beta iota; run_buf).
  all: match goal with |- context [write ?v ?p] => destruct (write_appends v p) as (w' & -> & Hw) end.
  all: eexists; split; [done|]; cbn [d_w d_right d_buf d_used d_n d_closed length]; by split_and!.
Qed.

(** The blank columns of a full line. *)
Lemma dump_line_full off chunk : length chunk = 16%nat -> dump_line off chunk = line_head off chunk ++ map toChar chunk ++ [124; 10].
Proof. intros Hl. unfold dump_line. by rewrite Hl. Qed.

Lemma dump_right_spec d b rest : 0 <= d_n d -> d_n d + 1 < 2 ^ 32 -> length (d_right d) = 18%nat -> (length rest < 16)%nat ->
  take (length rest) (d_right d) = map toChar rest -> d_used d = zlen rest ->
  exists d', dump_right d b = Some (d', None) /\ d_buf d' = d_buf d /\ d_n d' = d_n d + 1 /\ d_closed d' = d_closed d /\
    length (d_right d') = 18%nat /\
    if decide (length rest = 15%nat)
    then d_used d' = 0 /\ contents (d_w d') = contents (d_w d) ++ map toChar (rest ++ [b]) ++ [124; 10]
    else d_used d' = zlen (rest ++ [b]) /\ d_w d' = d_w d /\ take (length (rest ++ [b])) (d_right d') = map toChar (rest ++ [b]).
Proof.
  intros Hn0 Hn Hr Hl Ht Hu. destruct d as [w right buf used n cl]. cbn [d_buf d_w d_right d_used d_closed d_n] in *. unfold dump_right.
  cbn [d_buf d_w d_right d_used d_closed d_n]. subst used. rewrite (upd_Some right), some_bind by (unfold zlen; lia).
  rewrite chk32_ok, some_bind by lia. replace (Z.to_nat (zlen rest)) with (length rest) by (unfold zlen; lia).
  set (r1 := <[length rest := toChar b]> right). assert (length r1 = 18%nat) as Hr1 by (unfold r1; by rewrite length_insert).
  assert (take (length (rest ++ [b])) r1 = map toChar (rest ++ [b])) as Ht1.
  { rewrite length_app, map_app. cbn [length]. rewrite Nat.add_1_r. rewrite (take_S_r _ _ (toChar b)) by (apply list_lookup_insert_eq; lia).
    unfold r1. rewrite take_insert_ge by lia. by rewrite Ht. }
  clearbody r1. destruct (decide (length rest = 15%nat)) as [H15|H15].
  - rewrite decide_True by (unfold zlen; lia).
    rewrite length_app, H15 in Ht1. cbn [length Nat.add] in Ht1. rewrite <- Ht1. clear Ht1. list_of_length r1. run_buf.
    match goal with |- context [write w ?p] => destruct (write_appends w p) as (w' & -> & Hw) end.
    eexists. split; [done|]. cbn [d_w d_right d_buf d_used d_n d_closed]. by split_and!.
  - rewrite decide_False by (unfold zlen; lia). eexists. split; [done|]. cbn [d_w d_right d_buf d_used d_n d_closed].
    split_and!; try done. unfold zlen. rewrite length_app. cbn. lia.
Qed.

(** One byte. *)
Lemma dump_byte_spec d out off rest b k : dump_state d out off rest -> is_byte b -> 0 <= off -> off + zlen rest + 1 < 2 ^ 32 ->
  0 <= k < 2 ^ 62 ->
  exists d' out' off' rest', (forall raw, dump_loop d (b :: raw) k = dump_loop d' raw (k + 1)) /\ dump_state d' out' off' rest' /\
    0 <= off' /\ off' + zlen rest' = off + zlen rest + 1 /\
    (forall data, out' ++ dump_text off' (rest' ++ data) = out ++ dump_text off (rest ++ b :: data)).
Proof.
  intros Hd Hb Ho Hn Hk. cbn [dump_loop].
  destruct (dump_offset_spec d out off rest Hd Ho) as (d1 & -> & R1 & B1 & U1 & N1 & C1 & W1).
  destruct Hd as (Hc & Hr & _ & Ht & Hu & Hl & Hdn & Hcl).
  destruct (dump_cell_spec d1 b Hb B1) as (d2 & E2 & R2 & B2 & U2 & N2 & C2 & W2); [rewrite U1, Hu; unfold zlen; lia|].
  destruct (dump_right_spec d2 b rest) as (d3 & E3 & B3 & N3 & C3 & R3 & H3).
  { rewrite N2, N1, Hdn. unfold zlen. lia. } { rewrite N2, N1, Hdn. done. } { by rewrite R2, R1. } { done. } { by rewrite R2, R1. }
  { by rewrite U2, U1. }
  assert (contents (d_w d2) = out ++ line_head off (rest ++ [b])) as Hc2.
  { rewrite W2, W1, Hc, U1, Hu, line_head_snoc, <- !app_assoc. done. }
  assert (forall raw, ('(d0, err) ← Some (d1, @None E);
     match err with Some e => Some (d0, k, Some e) | None =>
       '(d4, err0) ← dump_cell d0 b; match err0 with Some e => Some (d4, k, Some e) | None =>
         written ← chki64 (k + 1); '(d5, err1) ← dump_right d4 b;
         match err1 with Some e => Some (d5, written, Some e) | None => dump_loop d5 raw written end end end) = dump_loop d3 raw (k + 1)) as Hrun.
  { intros raw. rewrite some_bind. cbv beta iota. rewrite E2, some_bind. cbv beta iota. rewrite chki64_ok, some_bind, E3 by lia. done. }
  pose proof (length_app rest [b]) as Hlb. cbn [length] in Hlb.
  case_decide as H15; destruct H3 as [U3 H3].
  - exists d3, (out ++ dump_line off (rest ++ [b])), (off + 16), []. split; [done|]. split; [|split; [lia|split]].
    + unfold dump_state. rewrite H3, Hc2, dump_line_full, <- app_assoc by lia. cbn [length map]. rewrite app_nil_r, B3, C3, C2, C1, N3, N2, N1, Hdn.
      split_and!; try done; try lia. unfold zlen. cbn [length]. lia.
    + unfold zlen. cbn [length]. lia.
    + intros data. cbn [app]. rewrite <- app_assoc, <- dump_text_line by lia. by rewrite <- app_assoc.
  - destruct H3 as [W3 T3]. exists d3, out, off, (rest ++ [b]). split; [done|]. split; [|split; [lia|split]].
    + unfold dump_state. rewrite W3, Hc2, B3, C3, C2, C1, N3, N2, N1, Hdn. split_and!; try done; try lia. unfold zlen. rewrite Hlb. lia.
    + unfold zlen. rewrite Hlb. lia.
    + intros data. by rewrite <- app_assoc.
Qed.

Lemma dump_loop_spec data d out off rest k : dump_state d out off rest -> Forall is_byte data -> 0 <= off ->
  off + zlen rest + zlen data < 2 ^ 32 -> 0 <= k -> k + zlen data < 2 ^ 62 ->
  exists d' out' off' rest', dump_loop d data k = Some (d', k + zlen data, None) /\ dump_state d' out' off' rest' /\ 0 <= off' /\
    out' ++ dump_text off' rest' = out ++ dump_text off (rest ++ data).
Proof.
  intros Hd Hb. revert d out off rest k Hd. induction Hb as [|b data Hb Hs IH]; intros d out off rest k Hd Ho Hn Hk Hk2.
  - exists d, out, off, rest. rewrite app_nil_r. change (zlen []) with 0. by rewrite Z.add_0_r.
  - assert (zlen (b :: data) = 1 + zlen data) as El by (unfold zlen; cbn [length]; lia). rewrite El in *.
    pose proof (Nat2Z.is_nonneg (length data)) as Hnn. fold (zlen data) in Hnn.
    destruct (dump_byte_spec d out off rest b k Hd Hb Ho) as (d1 & out1 & off1 & rest1 & Hrun & Hd1 & Ho1 & Hn1 & Htext); [lia|lia|].
    destruct (IH d1 out1 off1 rest1 (k + 1) Hd1 Ho1) as (d2 & out2 & off2 & rest2 & E2 & Hd2 & Ho2 & Ht2); [lia..|].
    exists d2, out2, off2, rest2. rewrite Hrun, E2. split; [do 3 f_equal; lia|]. split; [done|]. split; [done|]. by rewrite Ht2, Htext.
Qed.

Lemma pad_loop_spec fuel d n : (n < fuel)%nat -> d_used d = 16 - Z.of_nat n -> (n <= 16)%nat ->
  take 5 (d_buf d) = [32; 32; 32; 32; 124] ->
  exists w, pad_loop fuel d = Some (mkDumper w (d_right d) (d_buf d) 16 (d_n d) (d_closed d), None) /\
    contents w = contents (d_w d) ++ blanks n (d_used d).
Proof.
  revert d n. induction fuel as [|fuel IH]; intros d n Hf Hu Hn Hb; [lia|]. cbn [pad_loop]. destruct n as [|n].
  - rewrite decide_False by lia. exists (d_w d). rewrite app_nil_r. split; [|done]. destruct d. cbn in *. by rewrite Hu, Z.sub_0_r.
  - rewrite decide_True by lia. destruct (d_buf d) as [|c0 [|c1 [|c2 [|c3 [|c4 buf]]]]] eqn:Eb; try discriminate. injection Hb as -> -> -> -> ->.
    assert (slice (32 :: 32 :: 32 :: 32 :: 124 :: buf) 0 (if decide (d_used d = 7) then 4 else if decide (d_used d = 15) then 5 else 3) =
            Some ([32; 32] ++ spacer (d_used d))) as ->.
    { unfold slice, spacer, zlen. cbn [length]. repeat case_decide; try lia; done. }
    rewrite some_bind. destruct (write_appends (d_w d) ([32; 32] ++ spacer (d_used d))) as (w & -> & Hw). cbv zeta. cbn [d_right d_buf d_used d_n d_closed].
    destruct (IH (mkDumper w (d_right d) (d_buf d) (d_used d + 1) (d_n d) (d_closed d)) n) as (w' & E' & Hw');
      cbn [d_used d_buf]; [lia|lia|lia|by rewrite Eb|]. cbn [d_w d_right d_buf d_used d_n d_closed] in *. rewrite Eb in E'. rewrite E'.
    exists w'. split; [done|]. rewrite Hw', Hw, <- app_assoc. done.
Qed.

Lemma dumper_close_spec d out off rest : dump_state d out off rest ->
  exists d', dumper_close d = Some (d', None) /\ d_closed d' = true /\ contents (d_w d') = out ++ dump_text off rest.
Proof.
  intros (Hc & Hr & Hb & Ht & Hu & Hl & Hn & Hcl). destruct d as [w right buf used n cl]. cbn [d_buf d_w d_right d_used d_closed d_n] in *.
  unfold dumper_close. cbn [d_buf d_w d_right d_used d_closed d_n]. rewrite Hcl. cbv zeta. subst used.
  destruct (decide (rest = [])) as [->|Hne].
  { rewrite decide_True by done. eexists. split; [done|]. done. }
  rewrite decide_False by (destruct rest; [done|unfold zlen; cbn; lia]). list_of_length buf. run_buf.
  match goal with |- context [pad_loop 17 ?d] => destruct (pad_loop_spec 17 d (16 - length rest)) as (w1 & -> & Hw1) end;
    cbn [d_used d_buf]; [lia|unfold zlen; lia|lia|done|].
  cbn [d_w d_right d_buf d_used d_n d_closed] in *. rewrite some_bind. cbv beta iota. cbn [d_w d_right d_buf d_used d_n d_closed].
  assert (length rest + 2 <= 18)%nat as Hl2 by lia. rewrite <- (take_drop (length rest) right), Ht.
  pose proof (length_drop right (length rest)) as Hld. rewrite Hr in Hld. destruct (drop (length rest) right) as [|x [|y post]]; [cbn in Hld; lia..|].
  assert (zlen rest = zlen (map toChar rest)) as Em by (unfold zlen; by rewrite length_map). rewrite Em. rewrite upd_prefix, some_bind.
  replace (map toChar rest ++ 124 :: y :: post) with ((map toChar rest ++ [124]) ++ y :: post) by (by rewrite <- app_assoc).
  rewrite <- (zlen_snoc1 (map toChar rest) 124), upd_prefix, some_bind.
  replace ((map toChar rest ++ [124]) ++ 10 :: post) with ((map toChar rest ++ [124; 10]) ++ post) by (by rewrite <- !app_assoc).
  rewrite <- (zlen_snoc2 (map toChar rest) 124 10), (proj1 (slice_app _ _)), some_bind.
  destruct (write_appends w1 (map toChar rest ++ [124; 10])) as (w2 & -> & Hw2). eexists. split; [done|]. split; [done|]. cbn [d_w].
  rewrite Hw2, Hw1, Hc, dump_text_last by done. unfold dump_line. by rewrite <- !app_assoc.
Qed.

Lemma Dumper_state w : dump_state (Dumper w) (contents w) 0 [].
Proof. unfold dump_state, Dumper, line_head. cbn [d_w d_right d_buf d_used d_n d_closed]. rewrite decide_True, app_nil_r by done. split_and!; (done || cbn; lia). Qed.

Lemma Dump_spec w data : contents w = [] -> Forall is_byte data -> zlen data < 2 ^ 32 ->
  Dump w contents data = Some (dump_text 0 data).
Proof.
  intros Hw Hb Hl. unfold Dump. case_decide as H0.
  { destruct data; [done|]. unfold zlen in H0. cbn in H0. lia. }
  unfold dumper_write. cbn [d_closed Dumper].
  destruct (dump_loop_spec data (Dumper w) (contents w) 0 [] 0 (Dumper_state w) Hb) as (d1 & out & off & rest & Hrun & Hd & Ho & Ht);
    [done|unfold zlen in *; cbn [length]; lia|done|lia|].
  change (Dumper w) with (mkDumper w (replicate 18 0) (replicate 14 0) 0 0 false) in Hrun |- *. cbn [d_closed].
  rewrite Hrun. rewrite some_bind. cbv beta iota. rewrite some_bind. cbv beta iota.
  destruct (dumper_close_spec d1 out off rest Hd) as (d2 & -> & _ & Hc). rewrite some_bind. cbv beta iota. rewrite Hc, Ht, Hw. done.
Qed.
End dumping.

(** ** Theorems *)





(** The streaming encoder and the dumper over a writer that appends: an encoder writes the encoding of what
    it is given, in pieces of 512 bytes, and reports all of it; [Dump] of less than 2^32 bytes writes
    lines of an eight-digit offset, sixteen columns in two groups, the last line filled up with blanks, and the
    printable bytes between bars; what a dumper is given after [Close] is refused. *)
Theorem hex_streams : forall {W E} `{!Writer W E, !AppendWriter W E} (w : W) data, Forall is_byte data -> zlen data < 2 ^ 32 ->
  (exists e, encoder_write (NewEncoder w) data = Some (e, zlen data, None) /\ contents (enc_w e) = contents w ++ hex_text data) /\
  (contents w = [] -> Dump w contents data = Some (dump_text 0 data)) /\
  (exists d, ('(d, _, _) ← dumper_write (Dumper w) data; dumper_close d) = Some (d, None) /\
     contents (d_w d) = contents w ++ dump_text 0 data /\ dumper_close d = Some (d, None) /\
     forall more, dumper_write d more = Some (d, 0, Some DumperClosed)).
Proof.
  intros W E HW HA w data Hb Hl. split.
  { unfold encoder_write. destruct (encoder_loop_spec (S (length data)) data (NewEncoder w : Encoder W E) 0) as (e & -> & He & _ & Hc);
      [lia|done|done|done|done|lia|]. rewrite some_bind. exists e. cbv beta iota. rewrite He, Z.add_0_l. done. }
  split; [intros Hw; by apply Dump_spec|]. unfold dumper_write at 1.
  destruct (dump_loop_spec data (Dumper w) (contents w) 0 [] 0 (Dumper_state w) Hb) as (d1 & out & off & rest & Hrun & Hd & Ho & Ht);
    [done|unfold zlen in *; cbn [length]; lia|done|lia|].
  destruct (dumper_close_spec d1 out off rest Hd) as (d2 & Hcl & Hc & Hcont). exists d2.
  change (d_closed (Dumper w)) with false. cbv iota. rewrite Hrun, !some_bind. cbv beta iota.
  rewrite Hcont, Ht. split; [done|]. split; [done|]. unfold dumper_close, dumper_write. by rewrite Hc.
Qed.

(** A buffer that is the bytes written to it. *)
#[local] Instance list_writer : Writer (list Z) unit := fun w p => (w ++ p, zlen p, None).
#[local] Instance list_append : AppendWriter (list Z) unit.
Proof. refine (Build_AppendWriter (list Z) unit _ (fun w => w) _). intros w p. by exists (w ++ p). Defined.

Lemma hex_streams_witness : Dump ([] : list Z) contents [65; 0] = Some (dump_text 0 [65; 0]) /\
  exists e, encoder_write (NewEncoder []) [65; 0] = Some (e, 2, None) /\ contents (enc_w e) = [52; 49; 48; 48].
Proof.
  assert (Forall is_byte [65; 0]) as H by (repeat constructor; unfold is_byte; lia).
  destruct (hex_streams ([] : list Z) [65; 0] H ltac:(vm_compute; reflexivity)) as (H1 & H2 & _). split; [exact (H2 eq_refl)|exact H1].
Defined.
