(* ===== verification/Base64.v ===== *)
(** Radix-64 encoding and decoding: src/src/encoding/base64/base64.rs.

    Bytes are integers; a buffer passed by mutable reference is returned with the result, and a
    [None] is a panic or a lack of fuel.  An error is the offset of [CorruptInputError]. *)
From Stdlib Require Import ZArith Lia.
From stdpp Require Import base tactics numbers list list_numbers option.
From S2P Require Import Prelude.
Open Scope Z_scope.

Definition shl32 (x k : Z) : Z := wrap32 (Z.shiftl x k).

Definition StdPadding : Z := 61.
Definition NoPadding : Z := -1.
Definition invalidIndex : Z := 255.

Record Encoding := mkEncoding { encode : list Z; decodeMap : list Z; padChar : Z; strict : bool }.

(** ** Alphabets *)

Definition NewEncoding (b : list Z) : option Encoding :=
  if decide (zlen b <> 64) then None
  else
    decodeMap ← for_range 0 64 (fun i decodeMap =>
      c ← idx b i;
      if decide (c = 10 \/ c = 13) then None
      else
        x ← idx decodeMap c;
        if decide (x <> invalidIndex) then None else upd decodeMap c i) (replicate 256 invalidIndex);
    Some (mkEncoding b decodeMap StdPadding false).

Definition WithPadding (enc : Encoding) (padding : Z) : option Encoding :=
  if decide (padding < NoPadding \/ padding = 13 \/ padding = 10 \/ padding > 255) then None
  else
    let pb := padding mod 256 in
    x ← idx (decodeMap enc) pb;
    if decide (padding <> NoPadding /\ x <> invalidIndex) then None
    else Some (mkEncoding (encode enc) (decodeMap enc) padding (strict enc)).

Definition Strict (enc : Encoding) : Encoding := mkEncoding (encode enc) (decodeMap enc) (padChar enc) true.

Definition padded (enc : Encoding) : bool := bool_decide (padChar enc <> NoPadding).

(** The alphabets of the package and its four encodings. *)
Definition STD_ALPHABET : list Z := seqZ 65 26 ++ seqZ 97 26 ++ seqZ 48 10 ++ [43; 47].
Definition URL_ALPHABET : list Z := seqZ 65 26 ++ seqZ 97 26 ++ seqZ 48 10 ++ [45; 95].
Definition StdEncoding : option Encoding := NewEncoding STD_ALPHABET.
Definition URLEncoding : option Encoding := NewEncoding URL_ALPHABET.
Definition RawStdEncoding : option Encoding := e ← NewEncoding STD_ALPHABET; WithPadding e NoPadding.
Definition RawURLEncoding : option Encoding := e ← NewEncoding URL_ALPHABET; WithPadding e NoPadding.

(** Sizes of memory are far below the width of [int], so the products do not overflow. *)
Definition EncodedLen (enc : Encoding) (n : Z) : Z := if padded enc then (n + 2) / 3 * 4 else (n * 8 + 5) / 6.
Definition DecodedLen (enc : Encoding) (n : Z) : Z := if padded enc then n / 4 * 3 else n * 6 / 8.

(** ** Encoding *)

(** The symbol of six bits of [v]. *)
Definition symbol (alpha : list Z) (v s : Z) : option Z := idx alpha (Z.land (Z.shiftr v s) 63).

(** Full groups: [while si + 3 <= src.len()]. *)
Fixpoint encode_groups (fuel : nat) (alpha dst src : list Z) (di si : Z) : option (list Z * Z * Z) :=
  match fuel with
  | O => None
  | S fuel' =>
      if decide (si + 3 <= zlen src) then
        a ← idx src si;
        b ← idx src (si + 1);
        c ← idx src (si + 2);
        let v := Z.lor (Z.lor (shl32 a 16) (shl32 b 8)) c in
        x ← symbol alpha v 18;
        dst ← upd dst di x;
        x ← symbol alpha v 12;
        dst ← upd dst (di + 1) x;
        x ← symbol alpha v 6;
        dst ← upd dst (di + 2) x;
        x ← symbol alpha v 0;
        dst ← upd dst (di + 3) x;
        encode_groups fuel' alpha dst src (di + 4) (si + 3)
      else Some (dst, di, si)
  end.

(** The one or two bytes that are left. *)
Definition encode_tail (enc : Encoding) (dst src : list Z) (di si : Z) : option (list Z) :=
  let alpha := encode enc in
  let remain := zlen src - si in
  if decide (remain = 0) then Some dst
  else
    a ← idx src si;
    v ← (if decide (remain = 2) then b ← idx src (si + 1); Some (Z.lor (shl32 a 16) (shl32 b 8)) else Some (shl32 a 16));
    x ← symbol alpha v 18;
    dst ← upd dst di x;
    x ← symbol alpha v 12;
    dst ← upd dst (di + 1) x;
    if decide (remain = 2) then
      x ← symbol alpha v 6;
      dst ← upd dst (di + 2) x;
      if padded enc then upd dst (di + 3) (padChar enc mod 256) else Some dst
    else if padded enc then
      dst ← upd dst (di + 2) (padChar enc mod 256);
      upd dst (di + 3) (padChar enc mod 256)
    else Some dst.

Definition encode_into (enc : Encoding) (dst src : list Z) : option (list Z) :=
  '(dst, di, si) ← encode_groups (S (length src)) (encode enc) dst src 0 0;
  encode_tail enc dst src di si.

Definition EncodeToString (enc : Encoding) (src : list Z) : option (list Z) :=
  encode_into enc (replicate (Z.to_nat (EncodedLen enc (zlen src))) 0) src.

(** ** One quantum *)

Definition is_newline (c : Z) : bool := bool_decide (c = 10 \/ c = 13).

(** [while si < src.len() && (src[si] == '\n' || src[si] == '\r')]. *)
Fixpoint skip_newlines (fuel : nat) (src : list Z) (si : Z) : option Z :=
  match fuel with
  | O => None
  | S fuel' =>
      if decide (si < zlen src) then
        c ← idx src si;
        if is_newline c then skip_newlines fuel' src (si + 1) else Some si
      else Some si
  end.

(** What the reading loop of [decodeQuantum] ends with: a return, or digits to convert. *)
Inductive quantum :=
  | QReturn (si : Z) (err : option Z)
  | QBytes (dbuf : list Z) (dlen si : Z) (err : option Z).

(** After a padding character: the second one, newlines, and nothing more. *)
Definition read_padding (enc : Encoding) (src dbuf : list Z) (si j : Z) : option quantum :=
  let finish si :=
    si ← skip_newlines (S (length src)) src si;
    Some (QBytes dbuf j si (if decide (si < zlen src) then Some si else None)) in
  if decide (j = 2) then
    si ← skip_newlines (S (length src)) src si;
    if decide (si = zlen src) then Some (QReturn si (Some (zlen src)))
    else
      c ← idx src si;
      if decide (c <> padChar enc) then Some (QReturn si (Some (si - 1))) else finish (si + 1)
  else finish si.

Fixpoint read_quantum (fuel : nat) (enc : Encoding) (src : list Z) (si j : Z) (dbuf : list Z) : option quantum :=
  match fuel with
  | O => None
  | S fuel' =>
      if decide (j < 4) then
        if decide (zlen src = si) then
          if decide (j = 0) then Some (QReturn si None)
          else if decide (j = 1 \/ padded enc = true) then k ← chk64 (si - j); Some (QReturn si (Some k))
          else Some (QBytes dbuf j si None)
        else
          inb ← idx src si;
          let si := si + 1 in
          out ← idx (decodeMap enc) inb;
          if decide (out <> invalidIndex) then
            dbuf ← upd dbuf j out;
            read_quantum fuel' enc src si (j + 1) dbuf
          else if is_newline inb then read_quantum fuel' enc src si j dbuf
          else if decide (inb <> padChar enc) then Some (QReturn si (Some (si - 1)))
          else if decide (j = 0 \/ j = 1) then Some (QReturn si (Some (si - 1)))
          else read_padding enc src dbuf si j
      else Some (QBytes dbuf 4 si None)
  end.

(** Converts four digits to three bytes and stores those that count. *)
Definition store_quantum (enc : Encoding) (dst dbuf : list Z) (dlen si : Z) (err : option Z) : option (list Z * Z * Z * option Z) :=
  d0 ← idx dbuf 0;
  d1 ← idx dbuf 1;
  d2 ← idx dbuf 2;
  d3 ← idx dbuf 3;
  let val := Z.lor (Z.lor (Z.lor (shl64 d0 18) (shl64 d1 12)) (shl64 d2 6)) d3 in
  let b2 := val mod 256 in
  let b1 := shr64 val 8 mod 256 in
  let b0 := shr64 val 16 mod 256 in
  '(dst, b2) ← (if decide (dlen = 4) then dst ← upd dst 2 b2; Some (dst, 0) else Some (dst, b2));
  dst ← (if decide (dlen >= 3) then upd dst 1 b1 else Some dst);
  if decide (dlen >= 3 /\ strict enc = true /\ b2 <> 0) then Some (dst, si, 0, Some (si - 1))
  else
    let b1 := if decide (dlen >= 3) then 0 else b1 in
    dst ← (if decide (dlen >= 2) then upd dst 0 b0 else Some dst);
    if decide (dlen >= 2 /\ strict enc = true /\ (b1 <> 0 \/ b2 <> 0)) then Some (dst, si, 0, Some (si - 2))
    else n ← chk64 (dlen - 1); Some (dst, si, n, err).

(** The buffer, the new source index, the bytes written and the error. *)
Definition decodeQuantum (enc : Encoding) (dst src : list Z) (si0 : Z) : option (list Z * Z * Z * option Z) :=
  q ← read_quantum (length src + 5) enc src si0 0 [0; 0; 0; 0];
  match q with
  | QReturn si err => Some (dst, si, 0, err)
  | QBytes dbuf dlen si err => store_quantum enc dst dbuf dlen si err
  end.

(** ** Fast paths *)

Definition assemble32 (n1 n2 n3 n4 : Z) : Z * bool :=
  if decide (Z.lor (Z.lor (Z.lor n1 n2) n3) n4 = invalidIndex) then (0, false)
  else (Z.lor (Z.lor (Z.lor (shl32 n1 26) (shl32 n2 20)) (shl32 n3 14)) (shl32 n4 8), true).

Definition assemble64 (n1 n2 n3 n4 n5 n6 n7 n8 : Z) : Z * bool :=
  if decide (Z.lor (Z.lor (Z.lor (Z.lor (Z.lor (Z.lor (Z.lor n1 n2) n3) n4) n5) n6) n7) n8 = invalidIndex) then (0, false)
  else (Z.lor (Z.lor (Z.lor (Z.lor (Z.lor (Z.lor (Z.lor (shl64 n1 58) (shl64 n2 52)) (shl64 n3 46)) (shl64 n4 40))
          (shl64 n5 34)) (shl64 n6 28)) (shl64 n7 22)) (shl64 n8 16), true).

(** [to_be_bytes] of a word of [n] bytes. *)
Definition be_bytes (n : nat) (v : Z) : list Z := map (fun i => Z.shiftr v (8 * Z.of_nat i) mod 256) (rev (seq 0 n)).

(** [dst[n..n + k].copy_from_slice(bs)]. *)
Definition copy_at (dst : list Z) (n : Z) (bs : list Z) : option (list Z) :=
  if decide (0 <= n /\ n + zlen bs <= zlen dst)
  then Some (take (Z.to_nat n) dst ++ bs ++ drop (Z.to_nat n + length bs) dst) else None.

(** [decodeQuantum] into [dst[n..]]. *)
Definition quantum_at (enc : Encoding) (dst src : list Z) (n si : Z) : option (list Z * Z * Z * option Z) :=
  tail ← slice dst n (zlen dst);
  '(tail, nsi, ninc, e) ← decodeQuantum enc tail src si;
  Some (take (Z.to_nat n) dst ++ tail, nsi, n + ninc, e).

(** A loop ends with where it is, or returns with an error. *)
Fixpoint decode8 (fuel : nat) (enc : Encoding) (dst src : list Z) (n si : Z) : option (list Z * Z * Z * option Z) :=
  match fuel with
  | O => None
  | S fuel' =>
      left ← chk64 (zlen src - si);
      room ← chk64 (zlen dst - n);
      if decide (left >= 8 /\ room >= 8) then
        s2 ← slice src si (si + 8);
        ms ← mapM (fun c => idx (decodeMap enc) c) s2;
        match ms with
        | [n1; n2; n3; n4; n5; n6; n7; n8] =>
            let '(dn, ok) := assemble64 n1 n2 n3 n4 n5 n6 n7 n8 in
            if (ok : bool) then
              dst ← copy_at dst n (be_bytes 8 dn);
              decode8 fuel' enc dst src (n + 6) (si + 8)
            else
              '(dst, si, n, e) ← quantum_at enc dst src n si;
              if e is Some k then Some (dst, si, n, Some k) else decode8 fuel' enc dst src n si
        | _ => None
        end
      else Some (dst, si, n, None)
  end.

Fixpoint decode4 (fuel : nat) (enc : Encoding) (dst src : list Z) (n si : Z) : option (list Z * Z * Z * option Z) :=
  match fuel with
  | O => None
  | S fuel' =>
      left ← chk64 (zlen src - si);
      room ← chk64 (zlen dst - n);
      if decide (left >= 4 /\ room >= 4) then
        s2 ← slice src si (si + 4);
        ms ← mapM (fun c => idx (decodeMap enc) c) s2;
        match ms with
        | [n1; n2; n3; n4] =>
            let '(dn, ok) := assemble32 n1 n2 n3 n4 in
            if (ok : bool) then
              dst ← copy_at dst n (be_bytes 4 dn);
              decode4 fuel' enc dst src (n + 3) (si + 4)
            else
              '(dst, si, n, e) ← quantum_at enc dst src n si;
              if e is Some k then Some (dst, si, n, Some k) else decode4 fuel' enc dst src n si
        | _ => None
        end
      else Some (dst, si, n, None)
  end.

Fixpoint decode1 (fuel : nat) (enc : Encoding) (dst src : list Z) (n si : Z) : option (list Z * Z * Z * option Z) :=
  match fuel with
  | O => None
  | S fuel' =>
      if decide (si < zlen src) then
        '(dst, si, n, e) ← quantum_at enc dst src n si;
        if e is Some k then Some (dst, si, n, Some k) else decode1 fuel' enc dst src n si
      else Some (dst, si, n, None)
  end.

(** The buffer, the bytes written and the error. *)
Definition decode_into (enc : Encoding) (dst src : list Z) : option (list Z * Z * option Z) :=
  if decide (src = []) then Some (dst, 0, None)
  else
    let fuel := S (length src) in
    '(dst, si, n, e) ← decode8 fuel enc dst src 0 0;
    if e is Some k then Some (dst, n, Some k)
    else
      '(dst, si, n, e) ← decode4 fuel enc dst src n si;
      if e is Some k then Some (dst, n, Some k)
      else
        '(dst, si, n, e) ← decode1 fuel enc dst src n si;
        Some (dst, n, e).

Definition DecodeString (enc : Encoding) (src : list Z) : option (list Z * option Z) :=
  let max_len := DecodedLen enc (zlen src) + 3 in
  '(dst, n, err) ← decode_into enc (replicate (Z.to_nat max_len) 0) src;
  Some (take (Z.to_nat n) dst, err).

(** ** The variants on owned slices *)

Definition Encode (enc : Encoding) (dst src : list Z) : option (list Z) :=
  let n := Z.to_nat (EncodedLen enc (zlen src)) in
  let dv := if decide (length dst < n)%nat then resize n 0 dst else dst in
  head ← encode_into enc (take n dv) src;
  Some (head ++ drop n dv).

Definition AppendEncode (enc : Encoding) (dst src : list Z) : option (list Z) :=
  out ← encode_into enc (replicate (Z.to_nat (EncodedLen enc (zlen src))) 0) src;
  Some (dst ++ out).

Definition Decode (enc : Encoding) (dst src : list Z) : option (list Z * Z * option Z) := decode_into enc dst src.

Definition AppendDecode (enc : Encoding) (dst src : list Z) : option (list Z * option Z) :=
  let max_len := DecodedLen enc (zlen src) + 3 in
  '(out, n, err) ← decode_into enc (replicate (Z.to_nat max_len) 0) src;
  Some (dst ++ take (Z.to_nat n) out, err).
