(* ===== verification/Base64Words.v ===== *)
(** Words made of six-bit digits: what [assemble32] and [assemble64] put together. *)
From Stdlib Require Import ZArith Lia.
From stdpp Require Import base tactics numbers list list_numbers option.
From S2P Require Import Prelude Base64.
Open Scope Z_scope.

(** ** Words of digits *)

Definition digit (m : Z) : Prop := 0 <= m < 64.

(** The three bytes of four digits. *)
Definition bytes3 (m1 m2 m3 m4 : Z) : list Z := [m1 * 4 + m2 / 16; m2 mod 16 * 16 + m3 / 4; m3 mod 4 * 64 + m4].

Lemma pack4 m1 m2 m3 m4 : digit m1 -> digit m2 -> digit m3 -> digit m4 ->
  Z.lor (Z.lor (Z.lor (shl64 m1 18) (shl64 m2 12)) (shl64 m3 6)) m4 = m1 * 2 ^ 18 + m2 * 2 ^ 12 + m3 * 2 ^ 6 + m4.
Proof.
  unfold digit. intros. rewrite !shl64_small by lia. rewrite (lor_disjoint (m1 * 2 ^ 18) (m2 * 2 ^ 12) 18) by lia.
  rewrite (lor_disjoint (_ + _) (m3 * 2 ^ 6) 12) by lia. rewrite (lor_disjoint (_ + _) m4 6) by lia. lia.
Qed.

Lemma shl32_small x k : 0 <= k -> 0 <= x * 2 ^ k < 2 ^ 32 -> shl32 x k = x * 2 ^ k.
Proof. intros Hk H. unfold shl32, wrap32. rewrite Z.shiftl_mul_pow2 by lia. by apply Z.mod_small. Qed.

(** A digit that is none shows in the or of all. *)
Definition code (m : Z) : Prop := digit m \/ m = invalidIndex.

Lemma code_lor m n : code m -> code n -> code (Z.lor m n) /\ (Z.lor m n = invalidIndex <-> m = invalidIndex \/ n = invalidIndex).
Proof.
  unfold code, digit, invalidIndex. intros Hm Hn.
  assert (forall x, 0 <= x < 64 -> Z.lor 255 x = 255) as Habs.
  { intros x Hx. apply (Z.bits_inj'). intros i Hi. rewrite Z.lor_spec. change 255 with (Z.ones 8). destruct (decide (i < 8)).
    - by rewrite Z.ones_spec_low by lia.
    - rewrite Z.ones_spec_high by lia. destruct (decide (x = 0)) as [->|]; [apply Z.bits_0|]. apply Z.bits_above_log2; [lia|].
      apply Z.lt_le_trans with 6; [apply Z.log2_lt_pow2; lia|lia]. }
  destruct Hm as [Hm| ->], Hn as [Hn| ->].
  - assert (0 <= Z.lor m n < 64); [|lia]. split; [apply Z.lor_nonneg; lia|].
    destruct (decide (Z.lor m n = 0)) as [->|Hz]; [lia|]. apply (Z.log2_lt_pow2 _ 6); [pose proof (proj2 (Z.lor_nonneg m n)); lia|].
    assert (forall x, 0 <= x < 64 -> Z.log2 x < 6) as Hl.
    { intros x Hx. destruct (decide (x = 0)) as [->|]; [done|]. apply Z.log2_lt_pow2; lia. }
    rewrite Z.log2_lor by lia. apply Z.max_lub_lt; by apply Hl.
  - rewrite Z.lor_comm, Habs by done. lia.
  - rewrite Habs by done. lia.
  - change (Z.lor 255 255) with 255. lia.
Qed.

Lemma assemble32_spec m1 m2 m3 m4 : code m1 -> code m2 -> code m3 -> code m4 ->
  if snd (assemble32 m1 m2 m3 m4)
  then digit m1 /\ digit m2 /\ digit m3 /\ digit m4 /\ be_bytes 4 (fst (assemble32 m1 m2 m3 m4)) = bytes3 m1 m2 m3 m4 ++ [0]
  else True.
Proof.
  intros H1 H2 H3 H4. unfold assemble32. destruct (code_lor m1 m2 H1 H2) as [C2 E2]. destruct (code_lor _ _ C2 H3) as [C3 E3].
  destruct (code_lor _ _ C3 H4) as [_ E4]. case_decide as H; [done|]. cbn [fst snd]. unfold code in *.
  assert (digit m1 /\ digit m2 /\ digit m3 /\ digit m4) as (D1 & D2 & D3 & D4) by tauto. do 4 (split; [done|]). clear - D1 D2 D3 D4.
  unfold digit in *. rewrite !shl32_small by lia. rewrite (lor_disjoint (m1 * 2 ^ 26) (m2 * 2 ^ 20) 26) by lia.
  rewrite (lor_disjoint (_ + _) (m3 * 2 ^ 14) 20) by lia. rewrite (lor_disjoint (_ + _) (m4 * 2 ^ 8) 14) by lia.
  unfold be_bytes, bytes3. cbn [seq rev app map]. rewrite !Z.shiftr_div_pow2 by lia. repeat f_equal; lia.
Qed.

Lemma assemble64_spec m1 m2 m3 m4 m5 m6 m7 m8 : Forall code [m1; m2; m3; m4; m5; m6; m7; m8] ->
  if snd (assemble64 m1 m2 m3 m4 m5 m6 m7 m8)
  then Forall digit [m1; m2; m3; m4; m5; m6; m7; m8] /\
    be_bytes 8 (fst (assemble64 m1 m2 m3 m4 m5 m6 m7 m8)) = bytes3 m1 m2 m3 m4 ++ bytes3 m5 m6 m7 m8 ++ [0; 0]
  else True.
Proof.
  rewrite !list.Forall_cons. intros (H1 & H2 & H3 & H4 & H5 & H6 & H7 & H8 & _). unfold assemble64.
  destruct (code_lor m1 m2 H1 H2) as [C2 E2]. destruct (code_lor _ _ C2 H3) as [C3 E3]. destruct (code_lor _ _ C3 H4) as [C4 E4].
  destruct (code_lor _ _ C4 H5) as [C5 E5]. destruct (code_lor _ _ C5 H6) as [C6 E6]. destruct (code_lor _ _ C6 H7) as [C7 E7].
  destruct (code_lor _ _ C7 H8) as [_ E8]. case_decide as H; [done|]. cbn [fst snd]. rewrite E8, E7, E6, E5, E4, E3, E2 in H. clear - H H1 H2 H3 H4 H5 H6 H7 H8.
  unfold code in *. assert (digit m1 /\ digit m2 /\ digit m3 /\ digit m4 /\ digit m5 /\ digit m6 /\ digit m7 /\ digit m8)
    as (D1 & D2 & D3 & D4 & D5 & D6 & D7 & D8) by tauto.
  split; [repeat constructor; apply D1 || apply D2 || apply D3 || apply D4 || apply D5 || apply D6 || apply D7 || apply D8|].
  clear - D1 D2 D3 D4 D5 D6 D7 D8. unfold digit in *. rewrite !shl64_small by lia. rewrite (lor_disjoint (m1 * 2 ^ 58) (m2 * 2 ^ 52) 58) by lia.
  rewrite (lor_disjoint (_ + _) (m3 * 2 ^ 46) 52) by lia. rewrite (lor_disjoint (_ + _) (m4 * 2 ^ 40) 46) by lia.
  rewrite (lor_disjoint (_ + _) (m5 * 2 ^ 34) 40) by lia. rewrite (lor_disjoint (_ + _) (m6 * 2 ^ 28) 34) by lia.
  rewrite (lor_disjoint (_ + _) (m7 * 2 ^ 22) 28) by lia. rewrite (lor_disjoint (_ + _) (m8 * 2 ^ 16) 22) by lia.
  unfold be_bytes, bytes3. cbn [seq rev app map]. rewrite !Z.shiftr_div_pow2 by lia. repeat f_equal; lia.
Qed.
