(* ===== verification/Base64Spec.v ===== *)
(** Radix-64 text: the alphabets that are accepted, the fast paths of the decoder against the
    reference that decodes one quantum at a time, and the round trip. *)
From Stdlib Require Import ZArith Lia.
From stdpp Require Import base tactics numbers list list_numbers option.
From S2P Require Import Prelude Base64 Base64Words.
Open Scope Z_scope.

(** ** Encodings *)

(** The alphabet and its inverse, and a padding character outside of it. *)
Record enc_wf (enc : Encoding) : Prop := {
  wf_encode : length (encode enc) = 64%nat;
  wf_map : length (decodeMap enc) = 256%nat;
  wf_range c m : idx (decodeMap enc) c = Some m -> 0 <= m < 64 \/ m = invalidIndex;
  wf_inverse i c : idx (encode enc) i = Some c -> idx (decodeMap enc) c = Some i;
  wf_newline c : is_newline c = true -> idx (decodeMap enc) c = Some invalidIndex;
  wf_pad : padChar enc = NoPadding \/ 0 <= padChar enc < 256 /\ is_newline (padChar enc) = false /\
    idx (decodeMap enc) (padChar enc) = Some invalidIndex
}.

Lemma idx_replicate {A} n (x : A) i y : idx (replicate n x) i = Some y <-> y = x /\ 0 <= i < Z.of_nat n.
Proof. rewrite idx_Some, lookup_replicate. split; [intros (? & ? & ?); split; [done|lia]|intros (-> & ?); split; [lia|split; [done|lia]]]. Qed.

(** What the table holds after [i] symbols. *)
Definition map_inv (b : list Z) (i : Z) (dm : list Z) : Prop :=
  length dm = 256%nat /\ (forall k c, 0 <= k < i -> idx b k = Some c -> idx dm c = Some k /\ is_newline c = false) /\
  (forall c m, idx dm c = Some m -> m = invalidIndex \/ 0 <= m < i /\ idx b m = Some c).

Lemma NewEncoding_map b enc : NewEncoding b = Some enc ->
  length b = 64%nat /\ encode enc = b /\ padChar enc = StdPadding /\ strict enc = false /\ map_inv b 64 (decodeMap enc).
Proof.
  unfold NewEncoding. case_decide as Hl; [done|]. destruct (for_range 0 64 _ _) as [dm|] eqn:E; [|done].
  rewrite some_bind. intros [= <-]. cbn [encode decodeMap padChar strict]. split; [unfold zlen in Hl; lia|]. do 3 (split; [done|]).
  revert E. apply for_range_returned; [lia| |].
  - split; [done|]. split; [lia|]. intros c m [-> _]%idx_replicate. by left.
  - intros i dm1 dm2 Hi (Hlen & Hin & Hout) Hb. destruct (idx b i) as [c|] eqn:Ec; [|done]. rewrite some_bind in Hb.
    case_decide as Hnl; [done|]. destruct (idx dm1 c) as [x|] eqn:Ex; [|done]. rewrite some_bind in Hb. case_decide as Hx; [done|].
    assert (x = invalidIndex) as -> by (destruct (decide (x = invalidIndex)); [done|by destruct Hx]).
    pose proof (idx_range _ _ _ Ex) as Rc. apply upd_inv in Hb as [_ ->]. split; [by rewrite length_insert|]. split.
    + intros k d Hk Ed. destruct (decide (k = i)) as [->|Hki].
      * simplify_eq. rewrite idx_insert, decide_True by (done || lia). split; [done|]. by apply bool_decide_false.
      * destruct (Hin k d) as [E' N']; [lia|done|]. pose proof (idx_range _ _ _ E'). split; [|done].
        rewrite idx_insert, decide_False; [done| |lia|lia]. intros ->. simplify_eq. unfold invalidIndex in *. lia.
    + intros d m. destruct (decide (0 <= d)) as [Hd|Hd]; [|intros E%idx_range; lia]. rewrite idx_insert by done. case_decide as Hcd.
      * intros [= <-]. right. subst d. split; [lia|done].
      * intros E. destruct (Hout d m E) as [->|[Hm Em]]; [by left|right]. split; [lia|done].
Qed.

Lemma NewEncoding_wf b enc : NewEncoding b = Some enc -> StdPadding ∉ b -> enc_wf enc.
Proof.
  intros (Hl & He & Hp & _ & Hm & Hin & Hout)%NewEncoding_map Hpad. rewrite <- He in *. clear He b.
  assert (forall c, 0 <= c < 256 -> c ∉ encode enc -> idx (decodeMap enc) c = Some invalidIndex) as Hno.
  { intros c Hc Hn. destruct (idx_lt (decodeMap enc) c) as [m Em]; [unfold zlen; lia|]. destruct (Hout c m Em) as [->|[_ E]]; [done|].
    exfalso. apply Hn. apply idx_Some in E as [_ E]. apply list_elem_of_lookup; by eexists. }
  split; [done|done| | | |].
  - intros c m E. destruct (Hout c m E) as [->|[H _]]; [by right|left; lia].
  - intros i c E. apply (Hin i c); [|done]. pose proof (idx_range _ _ _ E) as R. unfold zlen in R. lia.
  - intros c Hc. apply Hno; [unfold is_newline in Hc; apply bool_decide_eq_true in Hc; lia|]. intros [k Hk]%list_elem_of_lookup.
    assert (idx (encode enc) (Z.of_nat k) = Some c) as E by (apply idx_Some; rewrite Nat2Z.id; split; [lia|done]).
    destruct (Hin (Z.of_nat k) c) as [_ N]; [|done|congruence]. apply lookup_lt_Some in Hk. lia.
  - right. rewrite Hp. split; [unfold StdPadding; lia|]. split; [done|]. apply Hno; [unfold StdPadding; lia|done].
Qed.

Lemma WithPadding_wf enc p enc' : enc_wf enc -> WithPadding enc p = Some enc' -> enc_wf enc' /\ padChar enc' = p.
Proof.
  intros W. unfold WithPadding. case_decide as H1; [done|]. cbv zeta. destruct (idx (decodeMap enc) (p mod 256)) as [x|] eqn:Ex; [|done].
  rewrite some_bind. case_decide as H2; [done|]. intros [= <-]. split; [|done]. destruct W as [W1 W2 W3 W4 W5 W6].
  split; cbn [encode decodeMap padChar]; try done. destruct (decide (p = NoPadding)) as [->|Hp]; [by left|right].
  unfold NoPadding in *. split; [lia|]. split; [apply bool_decide_false; lia|]. rewrite Z.mod_small in Ex by lia. rewrite Ex. f_equal.
  destruct (decide (x = invalidIndex)); [done|]. by destruct H2.
Qed.

Lemma Strict_wf enc : enc_wf enc -> enc_wf (Strict enc).
Proof. intros [W1 W2 W3 W4 W5 W6]. by split. Qed.

(** ** One quantum on any input *)

Lemma skip_newlines_spec src fuel si : 0 <= si <= zlen src -> zlen src - si < Z.of_nat fuel ->
  exists si', skip_newlines fuel src si = Some si' /\ si <= si' <= zlen src.
Proof.
  revert si. induction fuel as [|fuel IH]; intros si Hs Hf; [lia|]. cbn [skip_newlines]. case_decide as Hlt; [|exists si; split; [done|lia]].
  destruct (idx_lt src si) as [c ->]; [lia|]. rewrite some_bind. destruct (is_newline c); [|exists si; split; [done|lia]].
  destruct (IH (si + 1)) as (si' & E & H); [lia|lia|]. exists si'. split; [done|lia].
Qed.

(** What the reading loop can end with, having started at [si0]. *)
Definition quantum_ok (src : list Z) (si0 : Z) (q : quantum) : Prop :=
  match q with
  | QReturn si err => si0 <= si <= zlen src /\ (si0 < zlen src -> si0 < si) /\ (err = None -> si = zlen src)
  | QBytes dbuf dlen si err => length dbuf = 4%nat /\ 2 <= dlen <= 4 /\ si0 + dlen <= si <= zlen src
  end.

Lemma read_padding_spec enc src dbuf si0 si j : length dbuf = 4%nat -> 2 <= j <= 3 -> 0 <= si0 -> si0 + j + 1 <= si <= zlen src ->
  exists q, read_padding enc src dbuf si j = Some q /\ quantum_ok src si0 q.
Proof.
  intros Hd Hj H0 Hs. unfold read_padding. cbv zeta.
  assert (forall t, si <= t <= zlen src -> exists q, (si ← skip_newlines (S (length src)) src t;
    Some (QBytes dbuf j si (if decide (si < zlen src) then Some si else None))) = Some q /\ quantum_ok src si0 q) as Hfin.
  { intros t Ht. destruct (skip_newlines_spec src (S (length src)) t) as (u & -> & Hu); [lia|unfold zlen; lia|]. rewrite some_bind.
    eexists. split; [done|]. cbn [quantum_ok]. split; [done|]. lia. }
  case_decide as H2; [|apply Hfin; lia].
  destruct (skip_newlines_spec src (S (length src)) si) as (u & -> & Hu); [lia|unfold zlen; lia|]. rewrite some_bind.
  case_decide as He; [eexists; split; [done|]; cbn [quantum_ok]; split; [lia|split; [lia|done]]|].
  destruct (idx_lt src u) as [c ->]; [lia|]. rewrite some_bind. case_decide; [eexists; split; [done|]; cbn [quantum_ok]; split; [lia|split; [lia|done]]|].
  apply Hfin. lia.
Qed.

Lemma upd_at0 (x y : Z) l : upd (x :: l) 0 y = Some (y :: l).
Proof. exact (upd_prefix [] l x y). Qed.
Lemma upd_at1 (a x y : Z) l : upd (a :: x :: l) 1 y = Some (a :: y :: l).
Proof. exact (upd_prefix [a] l x y). Qed.
Lemma upd_at2 (a b x y : Z) l : upd (a :: b :: x :: l) 2 y = Some (a :: b :: y :: l).
Proof. exact (upd_prefix [a; b] l x y). Qed.

Ltac run_store := repeat first
  [ rewrite upd_at0 | rewrite upd_at1 | rewrite upd_at2 | rewrite some_bind | progress cbv beta iota
  | rewrite decide_True by (lia || tauto || (split; [lia|tauto]))
  | rewrite decide_False by (lia || tauto || (intros (_ & ? & ?); tauto) || (intros (_ & ? & [?|?]); lia)) | rewrite chk64_ok by lia ].

(** The reference: one quantum at a time into a scratch buffer. *)
Fixpoint decode_ref (fuel : nat) (enc : Encoding) (src : list Z) (si : Z) : option (list Z * option Z) :=
  match fuel with
  | O => None
  | S fuel' =>
      if decide (si < zlen src) then
        '(buf, si, n, e) ← decodeQuantum enc [0; 0; 0] src si;
        let bs := take (Z.to_nat n) buf in
        if e is Some k then Some (bs, Some k)
        else '(out, err) ← decode_ref fuel' enc src si; Some (bs ++ out, err)
      else Some ([], None)
  end.

Lemma copy_at_spec dst n bs extra : 0 <= n -> n + zlen bs + zlen extra <= zlen dst ->
  exists dst', copy_at dst n (bs ++ extra) = Some dst' /\ zlen dst' = zlen dst /\
    take (Z.to_nat (n + zlen bs)) dst' = take (Z.to_nat n) dst ++ bs.
Proof.
  intros Hn Hl. unfold copy_at. rewrite decide_True by (rewrite zlen_app; lia). eexists. split; [done|]. unfold zlen in *. split.
  - rewrite !length_app, length_take, length_drop. lia.
  - rewrite <- app_assoc, app_assoc. rewrite take_app_le by (rewrite length_app, length_take; lia).
    apply take_ge. rewrite length_app, length_take. lia.
Qed.

Section decoding.
  Context (enc : Encoding) (W : enc_wf enc) (src : list Z) (Hsrc : Forall (fun c => 0 <= c < 256) src) (Hlen : zlen src < 2 ^ 62).

Lemma src_byte si c : idx src si = Some c -> 0 <= c < 256.
Proof using Hsrc. intros [_ E]%idx_Some. by eapply list.Forall_lookup in Hsrc. Qed.

Lemma read_quantum_spec fuel si0 si j dbuf : length dbuf = 4%nat -> 0 <= j <= 4 -> 0 <= si0 -> si0 + j <= si <= zlen src ->
  zlen src - si < Z.of_nat fuel -> exists q, read_quantum fuel enc src si j dbuf = Some q /\ quantum_ok src si0 q.
Proof using W Hsrc Hlen.
  revert si j dbuf. induction fuel as [|fuel IH]; intros si j dbuf Hd Hj H0 Hs Hf; [lia|]. cbn [read_quantum].
  case_decide as Hj4; [|eexists; split; [done|]; cbn [quantum_ok]; split; [done|]; lia].
  case_decide as Hend.
  { case_decide as Hz; [eexists; split; [done|]; cbn [quantum_ok]; split; [lia|split; [lia|done]]|].
    case_decide as H1; [|eexists; split; [done|]; cbn [quantum_ok]; split; [done|]; lia].
    rewrite chk64_ok, some_bind by lia. eexists. split; [done|]. cbn [quantum_ok]. split; [lia|]. split; [lia|done]. }
  destruct (idx_lt src si) as [c Ec]; [lia|]. rewrite Ec, some_bind. cbv zeta. pose proof (src_byte _ _ Ec) as Hc.
  destruct (idx_lt (decodeMap enc) c) as [m ->]; [unfold zlen; rewrite (wf_map enc W); lia|]. rewrite some_bind.
  assert (forall k, exists q, Some (QReturn (si + 1) (Some k)) = Some q /\ quantum_ok src si0 q) as Hret.
  { intros k. eexists. split; [done|]. cbn [quantum_ok]. split; [lia|]. split; [lia|done]. }
  case_decide as Hm.
  - rewrite upd_Some, some_bind by (unfold zlen; lia). apply IH; [by rewrite length_insert|lia..].
  - destruct (is_newline c); [apply IH; (done || lia)|]. case_decide; [apply Hret|]. case_decide; [apply Hret|].
    apply read_padding_spec; (done || lia).
Qed.

(** Storing a quantum of [dlen] digits needs room for [dlen - 1] bytes, whatever the buffer holds. *)
Lemma store_quantum_spec dbuf dlen si err : length dbuf = 4%nat -> 2 <= dlen <= 4 ->
  exists bs err', zlen bs <= dlen - 1 /\ (err' = None -> err = None) /\ forall tail, dlen - 1 <= zlen tail ->
    exists tail', store_quantum enc tail dbuf dlen si err = Some (tail', si, zlen bs, err') /\ zlen tail' = zlen tail /\
      take (length bs) tail' = bs.
Proof using.
  intros Hd Hl. destruct dbuf as [|d0 [|d1 [|d2 [|d3 [|]]]]]; try discriminate. unfold store_quantum.
  change (idx [d0; d1; d2; d3] 0) with (Some d0). change (idx [d0; d1; d2; d3] 1) with (Some d1).
  change (idx [d0; d1; d2; d3] 2) with (Some d2). change (idx [d0; d1; d2; d3] 3) with (Some d3). cbn [mbind option_bind]. cbv zeta.
  set (val := Z.lor _ d3). generalize (val mod 256) (shr64 val 8 mod 256) (shr64 val 16 mod 256). intros b2 b1 b0.
  assert (dlen = 2 \/ dlen = 3 \/ dlen = 4) as [->|[->| ->]] by lia.
  - destruct (decide (strict enc = true /\ (b1 <> 0 \/ b2 <> 0))) as [Hs|Hs].
    + exists [], (Some (si - 2)). split; [done|]. split; [done|].
      intros [|x tail] Ht; [unfold zlen in Ht; cbn [length] in Ht; lia|]. exists (b0 :: tail). run_store. done.
    + exists [b0], err. split; [done|]. split; [done|].
      intros [|x tail] Ht; [unfold zlen in Ht; cbn [length] in Ht; lia|]. exists (b0 :: tail). run_store. done.
  - destruct (decide (strict enc = true /\ b2 <> 0)) as [Hs|Hs].
    + exists [], (Some (si - 1)). split; [done|]. split; [done|].
      intros [|x [|y tail]] Ht; [unfold zlen in Ht; cbn [length] in Ht; lia..|]. exists (x :: b1 :: tail). run_store. done.
    + exists [b0; b1], err. split; [done|]. split; [done|].
      intros [|x [|y tail]] Ht; [unfold zlen in Ht; cbn [length] in Ht; lia..|]. exists (b0 :: b1 :: tail). run_store. done.
  - exists [b0; b1; b2], err. split; [done|]. split; [done|].
    intros [|x [|y [|z tail]]] Ht; [unfold zlen in Ht; cbn [length] in Ht; lia..|]. exists (b0 :: b1 :: b2 :: tail). run_store. done.
Qed.

Lemma decodeQuantum_spec si : 0 <= si < zlen src ->
  exists k si' bs err, 0 <= k <= 3 /\ zlen bs <= k /\ 4 * k <= 3 * (si' - si) /\ si < si' <= zlen src /\
    forall tail, k <= zlen tail -> exists tail', decodeQuantum enc tail src si = Some (tail', si', zlen bs, err) /\
      zlen tail' = zlen tail /\ take (length bs) tail' = bs.
Proof using W Hsrc Hlen.
  intros Hs. unfold decodeQuantum.
  destruct (read_quantum_spec (length src + 5) si si 0 [0; 0; 0; 0]) as (q & -> & Hq); [done|lia|lia|lia|unfold zlen; lia|].
  setoid_rewrite some_bind. destruct q as [si' err|dbuf dlen si' err]; cbn [quantum_ok] in Hq.
  - exists 0, si', [], err. split; [lia|]. split; [done|]. split; [lia|]. split; [lia|]. intros tail Ht. by exists tail.
  - destruct Hq as (Hd & Hl & Hsi). destruct (store_quantum_spec dbuf dlen si' err Hd Hl) as (bs & err' & Hb & _ & H).
    exists (dlen - 1), si', bs, err'. split; [lia|]. split; [done|]. split; [lia|]. split; [lia|]. done.
Qed.

(** The bytes from [si] on and the error, quantum by quantum. *)
Inductive decodes : Z -> list Z -> option Z -> Prop :=
  | decodes_end si : zlen src <= si -> decodes si [] None
  | decodes_error si buf si' n k : si < zlen src -> decodeQuantum enc [0; 0; 0] src si = Some (buf, si', n, Some k) ->
      decodes si (take (Z.to_nat n) buf) (Some k)
  | decodes_step si buf si' n out err : si < zlen src -> decodeQuantum enc [0; 0; 0] src si = Some (buf, si', n, None) ->
      decodes si' out err -> decodes si (take (Z.to_nat n) buf ++ out) err.

Lemma decodes_ref si out err fuel : decodes si out err -> 0 <= si -> zlen src - si < Z.of_nat fuel -> (0 < fuel)%nat ->
  decode_ref fuel enc src si = Some (out, err).
Proof using W Hsrc Hlen.
  intros H. revert fuel. induction H as [si Hs|si buf si' n k Hs E|si buf si' n out err Hs E Hd IH]; intros fuel H0 Hf Hf0;
    (destruct fuel as [|fuel]; [lia|]); cbn [decode_ref].
  - by rewrite decide_False by lia.
  - by rewrite decide_True, E by lia.
  - rewrite decide_True, E, some_bind by lia. cbv beta iota zeta.
    destruct (decodeQuantum_spec si) as (k & si1 & bs & e & Hk & _ & _ & Hsi & H); [lia|].
    destruct (H [0; 0; 0]) as (t & E' & _); [change (zlen [0; 0; 0]) with 3; lia|]. rewrite E' in E. simplify_eq. rewrite IH; [done|lia|lia|lia].
Qed.

(** [decodeQuantum] into the rest of a buffer that is long enough. *)
Lemma quantum_at_spec dst n si : 0 <= n -> 0 <= si < zlen src -> 4 * n <= 3 * si -> 3 * zlen src <= 4 * zlen dst ->
  exists dst' si' bs err, quantum_at enc dst src n si = Some (dst', si', n + zlen bs, err) /\ zlen dst' = zlen dst /\
    take (Z.to_nat (n + zlen bs)) dst' = take (Z.to_nat n) dst ++ bs /\ si < si' <= zlen src /\ 4 * (n + zlen bs) <= 3 * si' /\
    exists buf, decodeQuantum enc [0; 0; 0] src si = Some (buf, si', zlen bs, err) /\ take (length bs) buf = bs.
Proof using W Hsrc Hlen.
  intros Hn Hs Hr Hd. destruct (decodeQuantum_spec si Hs) as (k & si' & bs & err & Hk & Hb & Hk3 & Hsi & H).
  unfold quantum_at, slice. rewrite decide_True, some_bind by lia.
  destruct (H (take (Z.to_nat (zlen dst - n)) (drop (Z.to_nat n) dst))) as (tail & -> & Hz & Ht).
  { unfold zlen in *. rewrite length_take, length_drop. lia. }
  rewrite some_bind. cbv beta iota. destruct (H [0; 0; 0]) as (buf & E & _ & Eb); [change (zlen [0; 0; 0]) with 3; lia|].
  exists (take (Z.to_nat n) dst ++ tail), si', bs, err. split; [done|].
  split; [unfold zlen in *; rewrite length_take, length_drop in Hz; rewrite length_app, length_take; lia|].
  split. { rewrite take_app_ge by (unfold zlen in *; rewrite length_take; lia). f_equal.
    rewrite length_take. replace (Z.to_nat (n + zlen bs) - Z.to_nat n `min` length dst)%nat with (length bs) by (unfold zlen in *; lia). done. }
  split; [done|]. split; [lia|]. by exists buf.
Qed.

Lemma decode1_spec fuel dst n si : 0 <= n -> 0 <= si <= zlen src -> 4 * n <= 3 * si -> 3 * zlen src <= 4 * zlen dst ->
  zlen src - si < Z.of_nat fuel -> exists dst' si' out err, decode1 fuel enc dst src n si = Some (dst', si', n + zlen out, err) /\
    zlen dst' = zlen dst /\ take (Z.to_nat (n + zlen out)) dst' = take (Z.to_nat n) dst ++ out /\ decodes si out err.
Proof using W Hsrc Hlen.
  revert dst n si. induction fuel as [|fuel IH]; intros dst n si Hn Hs Hr Hd Hf; [lia|]. cbn [decode1]. case_decide as Hlt.
  2: { exists dst, si, [], None. rewrite Z.add_0_r, app_nil_r. split; [done|]. split; [done|]. split; [done|]. constructor. lia. }
  destruct (quantum_at_spec dst n si) as (dst1 & si1 & bs & err & -> & Hz & Ht & Hs1 & Hr1 & buf & E & Eb); [lia..|].
  rewrite some_bind. cbv beta iota. destruct err as [k|].
  { exists dst1, si1, bs, (Some k). split; [done|]. split; [done|]. split; [done|].
    replace bs with (take (Z.to_nat (zlen bs)) buf) at 1 by (unfold zlen; by rewrite Nat2Z.id). by eapply decodes_error. }
  destruct (IH dst1 (n + zlen bs) si1) as (dst2 & si2 & out & err & -> & Hz2 & Ht2 & Hdec); [pose proof (zlen_nonneg bs); lia|lia..|].
  exists dst2, si2, (bs ++ out), err. rewrite zlen_app, Z.add_assoc. split; [done|]. split; [lia|].
  split; [rewrite Ht2, Ht, <- app_assoc; done|].
  replace bs with (take (Z.to_nat (zlen bs)) buf) at 1 by (unfold zlen; by rewrite Nat2Z.id). by eapply decodes_step.
Qed.

(** ** Fast paths *)

Lemma read_digit fuel si j dbuf c m : 0 <= j < 4 -> length dbuf = 4%nat -> idx src si = Some c -> idx (decodeMap enc) c = Some m -> digit m ->
  read_quantum (S fuel) enc src si j dbuf = read_quantum fuel enc src (si + 1) (j + 1) (<[Z.to_nat j := m]> dbuf).
Proof using.
  intros Hj Hd Ec Em Hm. pose proof (idx_range _ _ _ Ec). cbn [read_quantum]. rewrite decide_True, decide_False by lia.
  rewrite Ec, some_bind. cbv zeta. rewrite Em, some_bind, decide_True by (unfold digit, invalidIndex in *; lia).
  by rewrite upd_Some, some_bind by (unfold zlen; lia).
Qed.

(** Four symbols in a row are a quantum. *)
Lemma clean_quantum si c1 c2 c3 c4 m1 m2 m3 m4 tail : 3 <= zlen tail ->
  idx src si = Some c1 -> idx src (si + 1) = Some c2 -> idx src (si + 2) = Some c3 -> idx src (si + 3) = Some c4 ->
  idx (decodeMap enc) c1 = Some m1 -> idx (decodeMap enc) c2 = Some m2 -> idx (decodeMap enc) c3 = Some m3 -> idx (decodeMap enc) c4 = Some m4 ->
  digit m1 -> digit m2 -> digit m3 -> digit m4 ->
  decodeQuantum enc tail src si = Some (bytes3 m1 m2 m3 m4 ++ drop 3 tail, si + 4, 3, None).
Proof using.
  intros Ht E1 E2 E3 E4 M1 M2 M3 M4 D1 D2 D3 D4. unfold decodeQuantum. rewrite Nat.add_comm. cbn [Nat.add].
  rewrite (read_digit _ _ _ _ c1 m1) by (done || lia). rewrite (read_digit _ _ _ _ c2 m2) by (done || lia).
  replace (si + 1 + 1) with (si + 2) by lia. rewrite (read_digit _ _ _ _ c3 m3) by (done || lia).
  replace (si + 2 + 1) with (si + 3) by lia. rewrite (read_digit _ _ _ _ c4 m4) by (done || lia).
  change (<[_ := m4]> _) with [m1; m2; m3; m4]. replace (si + 3 + 1) with (si + 4) by lia.
  cbn [read_quantum]. rewrite decide_False, some_bind by lia. unfold store_quantum.
  change (idx [m1; m2; m3; m4] 0) with (Some m1). change (idx [m1; m2; m3; m4] 1) with (Some m2).
  change (idx [m1; m2; m3; m4] 2) with (Some m3). change (idx [m1; m2; m3; m4] 3) with (Some m4). cbn [mbind option_bind]. cbv zeta.
  rewrite pack4, !shr64_div by (done || lia). unfold digit in *.
  replace ((m1 * 2 ^ 18 + m2 * 2 ^ 12 + m3 * 2 ^ 6 + m4) mod 256) with (m3 mod 4 * 64 + m4) by lia.
  replace ((m1 * 2 ^ 18 + m2 * 2 ^ 12 + m3 * 2 ^ 6 + m4) / 2 ^ 8 mod 256) with (m2 mod 16 * 16 + m3 / 4) by lia.
  replace ((m1 * 2 ^ 18 + m2 * 2 ^ 12 + m3 * 2 ^ 6 + m4) / 2 ^ 16 mod 256) with (m1 * 4 + m2 / 16) by lia.
  destruct tail as [|x [|y [|z tail]]]; [unfold zlen in Ht; cbn [length] in Ht; lia..|]. clear. run_store. done.
Qed.

(** A position in the buffer and in the text. *)
Definition pos_ok (dst : list Z) (n si : Z) : Prop :=
  0 <= n /\ 0 <= si <= zlen src /\ 4 * n <= 3 * si /\ 3 * zlen src <= 4 * zlen dst.

(** What a loop did from [si] on: it wrote what the reference decodes there, up to where it is or to the error. *)
Definition seg_ok (dst : list Z) (n si : Z) (r : list Z * Z * Z * option Z) : Prop :=
  let '(dst', si', n', e) := r in
  zlen dst' = zlen dst /\ exists mid, n' = n + zlen mid /\ take (Z.to_nat n') dst' = take (Z.to_nat n) dst ++ mid /\
    match e with
    | Some k => decodes si mid (Some k)
    | None => si <= si' /\ pos_ok dst' n' si' /\ forall out err, decodes si' out err -> decodes si (mid ++ out) err
    end.

Lemma seg_refl dst n si : pos_ok dst n si -> seg_ok dst n si (dst, si, n, None).
Proof using.
  intros Hp. split; [done|]. exists []. change (zlen []) with 0. rewrite Z.add_0_r, app_nil_r. split; [done|]. split; [done|]. split; [lia|].
  split; [done|]. auto.
Qed.

Lemma seg_trans dst n si dst1 si1 n1 r : seg_ok dst n si (dst1, si1, n1, None) -> seg_ok dst1 n1 si1 r -> seg_ok dst n si r.
Proof using.
  intros (Hz & mid & -> & Ht & Hs & Hp & Hd). destruct r as [[[dst2 si2] n2] e]. intros (Hz2 & mid2 & -> & Ht2 & He).
  split; [lia|]. exists (mid ++ mid2). rewrite zlen_app. split; [lia|]. split; [rewrite Ht2, Ht, <- app_assoc; done|].
  destruct e as [k|]; [by apply Hd|]. destruct He as (Hs2 & Hp2 & Hd2). split; [lia|]. split; [done|].
  intros out err Ho. rewrite <- app_assoc. apply Hd. by apply Hd2.
Qed.

Lemma seg_quantum dst n si : pos_ok dst n si -> si < zlen src ->
  exists dst' si' n' e, quantum_at enc dst src n si = Some (dst', si', n', e) /\ seg_ok dst n si (dst', si', n', e) /\ (e = None -> si < si').
Proof using W Hsrc Hlen.
  intros (Hn & Hs & Hr & Hd) Hlt.
  destruct (quantum_at_spec dst n si) as (dst1 & si1 & bs & err & E & Hz & Ht & Hs1 & Hr1 & buf & Eq & Eb); [lia..|].
  exists dst1, si1, (n + zlen bs), err. split; [done|]. split; [|lia]. split; [done|]. exists bs. split; [done|]. split; [done|].
  assert (bs = take (Z.to_nat (zlen bs)) buf) as Ebs by (unfold zlen; by rewrite Nat2Z.id). pose proof (zlen_nonneg bs).
  destruct err as [k|]; [rewrite Ebs at 1; by eapply decodes_error|]. split; [lia|]. split; [unfold pos_ok; lia|].
  intros out err Ho. rewrite Ebs at 1. by eapply decodes_step.
Qed.

(** [k] symbols from [si] on, with their codes. *)
Lemma symbols_at k si : 0 <= si -> si + Z.of_nat k <= zlen src -> exists cs ms, slice src si (si + Z.of_nat k) = Some cs /\
  mapM (fun c => idx (decodeMap enc) c) cs = Some ms /\ length ms = k /\ Forall code ms /\
  forall i m, ms !! i = Some m -> exists c, idx src (si + Z.of_nat i) = Some c /\ idx (decodeMap enc) c = Some m.
Proof using W Hsrc.
  intros Hs Hk. destruct (slice_Some src si (si + Z.of_nat k)) as (cs & -> & Hz & Hi); [lia|lia|done|].
  assert (Forall (fun c => is_Some (idx (decodeMap enc) c)) cs) as Hc.
  { apply list.Forall_lookup. intros i c Ec. pose proof (lookup_lt_Some _ _ _ Ec). unfold zlen in Hz.
    assert (idx cs (Z.of_nat i) = Some c) as Ei by (apply idx_Some; rewrite Nat2Z.id; split; [lia|done]). rewrite Hi in Ei by lia.
    pose proof (src_byte _ _ Ei). apply idx_lt. unfold zlen. rewrite (wf_map enc W). lia. }
  apply mapM_is_Some_2 in Hc as [ms Hms]. exists cs, ms. pose proof (length_mapM _ _ _ Hms) as Hl. apply mapM_Some in Hms as Hf.
  split; [done|]. split; [done|]. split; [unfold zlen in Hz; lia|].
  assert (forall i m, ms !! i = Some m -> exists c, idx src (si + Z.of_nat i) = Some c /\ idx (decodeMap enc) c = Some m) as Hat.
  { intros i m Em. destruct (Forall2_lookup_r _ _ _ _ _ Hf Em) as (c & Ec & Hcm). exists c. split; [|done]. pose proof (lookup_lt_Some _ _ _ Em).
    unfold zlen in Hz. rewrite <- Hi by lia. apply idx_Some. rewrite Nat2Z.id. split; [lia|done]. }
  split; [|done]. apply list.Forall_lookup. intros i m Em. destruct (Hat i m Em) as (c & _ & Hcm). destruct (wf_range enc W c m Hcm); [by left|by right].
Qed.

Lemma decodes_clean si ms m1 m2 m3 m4 out err : 0 <= si ->
  (forall i m, ms !! i = Some m -> exists c, idx src (si + Z.of_nat i) = Some c /\ idx (decodeMap enc) c = Some m) ->
  take 4 ms = [m1; m2; m3; m4] -> Forall digit [m1; m2; m3; m4] -> decodes (si + 4) out err -> decodes si (bytes3 m1 m2 m3 m4 ++ out) err.
Proof using.
  intros Hs Hat Ht Hd Ho. rewrite !list.Forall_cons in Hd. destruct Hd as (D1 & D2 & D3 & D4 & _).
  assert (forall i m, [m1; m2; m3; m4] !! i = Some m -> ms !! i = Some m) as Hl.
  { intros i m. rewrite <- Ht. destruct (decide (i < 4)%nat); [by rewrite lookup_take_lt|]. rewrite lookup_take_ge by lia. done. }
  destruct (Hat 0%nat m1 (Hl 0%nat m1 eq_refl)) as (c1 & E1 & M1). destruct (Hat 1%nat m2 (Hl 1%nat m2 eq_refl)) as (c2 & E2 & M2).
  destruct (Hat 2%nat m3 (Hl 2%nat m3 eq_refl)) as (c3 & E3 & M3). destruct (Hat 3%nat m4 (Hl 3%nat m4 eq_refl)) as (c4 & E4 & M4).
  rewrite Z.add_0_r in E1. change (si + Z.of_nat 1) with (si + 1) in E2. change (si + Z.of_nat 2) with (si + 2) in E3.
  change (si + Z.of_nat 3) with (si + 3) in E4. pose proof (idx_range _ _ _ E1).
  pose proof (clean_quantum si c1 c2 c3 c4 m1 m2 m3 m4 [0; 0; 0] ltac:(done) E1 E2 E3 E4 M1 M2 M3 M4 D1 D2 D3 D4) as Hq.
  change (bytes3 m1 m2 m3 m4) with (take (Z.to_nat 3) (bytes3 m1 m2 m3 m4 ++ drop 3 [0; 0; 0])). eapply decodes_step; [lia|exact Hq|done].
Qed.

(** The loop over four symbols. *)
Lemma decode4_spec fuel dst n si : pos_ok dst n si -> zlen dst < 2 ^ 62 -> zlen src - si < Z.of_nat fuel ->
  exists r, decode4 fuel enc dst src n si = Some r /\ seg_ok dst n si r.
Proof using W Hsrc Hlen.
  revert dst n si. induction fuel as [|fuel IH]; intros dst n si Hp Hd Hf; [destruct Hp; lia|]. cbn [decode4].
  pose proof Hp as (Hn & Hs & Hr & Hroom). rewrite !chk64_ok by lia. rewrite !some_bind. case_decide as Hc; [|eexists; split; [done|]; by apply seg_refl].
  destruct (symbols_at 4 si) as (cs & ms & Es & Em & Hl & Hcode & Hat); [lia|lia|]. change (Z.of_nat 4) with 4 in Es. rewrite Es, some_bind, Em, some_bind.
  destruct ms as [|m1 [|m2 [|m3 [|m4 [|]]]]]; try discriminate. pose proof Hcode as Hcode'. rewrite !list.Forall_cons in Hcode'.
  destruct Hcode' as (C1 & C2 & C3 & C4 & _). pose proof (assemble32_spec m1 m2 m3 m4 C1 C2 C3 C4) as Ha.
  destruct (assemble32 m1 m2 m3 m4) as [dn []]; cbn [fst snd] in Ha.
  - destruct Ha as (D1 & D2 & D3 & D4 & Hb). rewrite Hb.
    destruct (copy_at_spec dst n (bytes3 m1 m2 m3 m4) [0]) as (dst1 & -> & Hz & Ht); [lia|change (zlen (bytes3 m1 m2 m3 m4)) with 3; change (zlen [0]) with 1; lia|].
    rewrite some_bind. change (zlen (bytes3 m1 m2 m3 m4)) with 3 in Ht.
    assert (seg_ok dst n si (dst1, si + 4, n + 3, None)) as Hseg.
    { split; [done|]. exists (bytes3 m1 m2 m3 m4). split; [done|]. split; [done|]. split; [lia|]. split; [unfold pos_ok; lia|]. intros out err.
      apply (decodes_clean si [m1; m2; m3; m4]); [lia|done|done|by repeat first [apply Forall_nil_2 | apply Forall_cons_2]]. }
    destruct (IH dst1 (n + 3) (si + 4)) as (r & -> & Hrest); [unfold pos_ok; lia|lia|lia|]. exists r. split; [done|]. by eapply seg_trans.
  - destruct (seg_quantum dst n si Hp) as (dst1 & si1 & n1 & e & -> & Hseg & Hprog); [lia|]. rewrite some_bind. cbv beta iota.
    destruct e as [k|]; [by eexists|]. pose proof Hseg as (Hz & mid & _ & _ & _ & Hp1 & _). specialize (Hprog eq_refl).
    destruct (IH dst1 n1 si1) as (r & -> & Hrest); [done|lia|lia|]. exists r. split; [done|]. by eapply seg_trans.
Qed.

(** The loop over eight. *)
Lemma decode8_spec fuel dst n si : pos_ok dst n si -> zlen dst < 2 ^ 62 -> zlen src - si < Z.of_nat fuel ->
  exists r, decode8 fuel enc dst src n si = Some r /\ seg_ok dst n si r.
Proof using W Hsrc Hlen.
  revert dst n si. induction fuel as [|fuel IH]; intros dst n si Hp Hd Hf; [destruct Hp; lia|]. cbn [decode8].
  pose proof Hp as (Hn & Hs & Hr & Hroom). rewrite !chk64_ok by lia. rewrite !some_bind. case_decide as Hc; [|eexists; split; [done|]; by apply seg_refl].
  destruct (symbols_at 8 si) as (cs & ms & Es & Em & Hl & Hcode & Hat); [lia|lia|]. change (Z.of_nat 8) with 8 in Es. rewrite Es, some_bind, Em, some_bind.
  destruct ms as [|m1 [|m2 [|m3 [|m4 [|m5 [|m6 [|m7 [|m8 [|]]]]]]]]]; try discriminate.
  pose proof (assemble64_spec m1 m2 m3 m4 m5 m6 m7 m8 Hcode) as Ha.
  destruct (assemble64 m1 m2 m3 m4 m5 m6 m7 m8) as [dn []]; cbn [fst snd] in Ha.
  - destruct Ha as (D & Hb). rewrite Hb, app_assoc. set (bs := bytes3 m1 m2 m3 m4 ++ bytes3 m5 m6 m7 m8). assert (zlen bs = 6) as Hz6 by done.
    destruct (copy_at_spec dst n bs [0; 0]) as (dst1 & -> & Hz & Ht); [lia|rewrite Hz6; change (zlen [0; 0]) with 2; lia|].
    rewrite some_bind. rewrite Hz6 in Ht. rewrite !list.Forall_cons in D. destruct D as (D1 & D2 & D3 & D4 & D5 & D6 & D7 & D8 & _).
    assert (seg_ok dst n si (dst1, si + 8, n + 6, None)) as Hseg.
    { split; [done|]. exists bs. split; [by rewrite Hz6|]. split; [done|]. split; [lia|]. split; [unfold pos_ok; lia|]. intros out err Ho.
      unfold bs. rewrite <- app_assoc. apply (decodes_clean si [m1; m2; m3; m4; m5; m6; m7; m8]); [lia|done|done|by repeat first [apply Forall_nil_2 | apply Forall_cons_2]|].
      apply (decodes_clean (si + 4) [m5; m6; m7; m8]); [lia| |done|by repeat first [apply Forall_nil_2 | apply Forall_cons_2]|by replace (si + 4 + 4) with (si + 8) by lia].
      intros i m Ei. destruct (Hat (4 + i)%nat m Ei) as (c & E1 & E2). exists c. split; [|done]. rewrite <- E1. f_equal. lia. }
    destruct (IH dst1 (n + 6) (si + 8)) as (r & -> & Hrest); [unfold pos_ok; lia|lia|lia|]. exists r. split; [done|]. by eapply seg_trans.
  - destruct (seg_quantum dst n si Hp) as (dst1 & si1 & n1 & e & -> & Hseg & Hprog); [lia|]. rewrite some_bind. cbv beta iota.
    destruct e as [k|]; [by eexists|]. pose proof Hseg as (Hz & mid & _ & _ & _ & Hp1 & _). specialize (Hprog eq_refl).
    destruct (IH dst1 n1 si1) as (r & -> & Hrest); [done|lia|lia|]. exists r. split; [done|]. by eapply seg_trans.
Qed.

(** The whole decoder. *)
Lemma decode_into_spec dst : 3 * zlen src <= 4 * zlen dst -> zlen dst < 2 ^ 62 ->
  exists dst' out err, decode_into enc dst src = Some (dst', zlen out, err) /\ zlen dst' = zlen dst /\
    take (length out) dst' = out /\ decodes 0 out err.
Proof using W Hsrc Hlen.
  intros Hroom Hd. unfold decode_into. case_decide as He.
  { exists dst, [], None. split; [done|]. split; [done|]. split; [done|]. constructor. rewrite He. done. }
  cbv zeta. pose proof (zlen_nonneg src). assert (pos_ok dst 0 0) as Hp by (unfold pos_ok; lia).
  assert (forall r, seg_ok dst 0 0 r -> let '(dst', _, n, e) := r in zlen dst' = zlen dst /\ exists out, n = zlen out /\
    take (length out) dst' = out /\ forall k, e = Some k -> decodes 0 out (Some k)) as Hseg.
  { intros [[[dst' si'] n] e] (Hz & mid & -> & Ht & H1). split; [done|]. exists mid. rewrite Z.add_0_l in *. split; [done|].
    unfold zlen in Ht. rewrite Nat2Z.id in Ht. split; [done|]. intros k ->. done. }
  destruct (decode8_spec (S (length src)) dst 0 0 Hp Hd) as (r8 & -> & H8); [unfold zlen; lia|]. rewrite some_bind.
  pose proof (Hseg r8 H8) as S8. destruct r8 as [[[d8 s8] n8] [k8|]]; cbv beta iota.
  { destruct S8 as (Hz & out & -> & Ht & Hk). exists d8, out, (Some k8). auto. }
  pose proof H8 as (Hz8 & _ & _ & _ & _ & Hp8 & _). pose proof Hp8 as (_ & Hs8 & _).
  destruct (decode4_spec (S (length src)) d8 n8 s8 Hp8) as (r4 & -> & H4); [lia|unfold zlen in *; lia|]. rewrite some_bind.
  pose proof (seg_trans _ _ _ _ _ _ _ H8 H4) as H84. pose proof (Hseg r4 H84) as S4. destruct r4 as [[[d4 s4] n4] [k4|]]; cbv beta iota.
  { destruct S4 as (Hz & out & -> & Ht & Hk). exists d4, out, (Some k4). auto. }
  destruct H84 as (Hz4 & mid & En & Ht & _ & (P1 & P2 & P3 & P4) & Hdec).
  destruct (decode1_spec (S (length src)) d4 n4 s4) as (d1 & s1 & out & err & -> & Hz1 & Ht1 & Hd1); [lia|lia|lia|lia|unfold zlen in *; lia|].
  rewrite some_bind. cbv beta iota. exists d1, (mid ++ out), err. rewrite En, Z.add_0_l, zlen_app. split; [done|]. split; [lia|].
  split; [|by apply Hdec]. rewrite Ht, En in Ht1. change (take (Z.to_nat 0) dst) with (@nil Z) in Ht1. cbn [app] in Ht1. replace (length (mid ++ out)) with (Z.to_nat (0 + zlen mid + zlen out)) by (rewrite length_app; unfold zlen; lia). exact Ht1.
Qed.
End decoding.
