(* ===== verification/Base64Refine.v ===== *)
(** Radix-64 text: what the encoder writes, that it decodes to what was encoded, and that the decoder
    with its fast paths is the reference decoder. *)
From Stdlib Require Import ZArith Lia.
From stdpp Require Import base tactics numbers list list_numbers option.
From S2P Require Import Prelude Base64 Base64Words Base64Spec.
Open Scope Z_scope.

(** ** The text of some bytes *)

Definition sym (enc : Encoding) (v : Z) : Z := nth (Z.to_nat v) (encode enc) 0.
Definition pads (enc : Encoding) (k : nat) : list Z := if padded enc then replicate k (padChar enc) else [].

Fixpoint text (enc : Encoding) (src : list Z) : list Z :=
  match src with
  | a :: b :: c :: src' =>
      [sym enc (a / 4); sym enc (a mod 4 * 16 + b / 16); sym enc (b mod 16 * 4 + c / 64); sym enc (c mod 64)] ++ text enc src'
  | [a; b] => [sym enc (a / 4); sym enc (a mod 4 * 16 + b / 16); sym enc (b mod 16 * 4)] ++ pads enc 1
  | [a] => [sym enc (a / 4); sym enc (a mod 4 * 16)] ++ pads enc 2
  | [] => []
  end.

Lemma triple_ind (P : list Z -> Prop) : P [] -> (forall a, P [a]) -> (forall a b, P [a; b]) ->
  (forall a b c l, P l -> P (a :: b :: c :: l)) -> forall l, P l.
Proof.
  intros H0 H1 H2 H3. assert (forall l, P l /\ (forall a, P (a :: l)) /\ forall a b, P (a :: b :: l)) as H; [|intros l; apply H].
  induction l as [|c l (IH1 & IH2 & IH3)]; [auto|]. split; [apply IH2|]. split; [intros a; apply IH3|]. intros a b. by apply H3.
Qed.

Definition is_byte (b : Z) : Prop := 0 <= b < 256.

Lemma text_length enc src : zlen (text enc src) = EncodedLen enc (zlen src).
Proof.
  unfold EncodedLen. induction src as [|a|a b|a b c src IH] using triple_ind.
  - by destruct (padded enc).
  - cbn [text]. unfold pads. by destruct (padded enc).
  - cbn [text]. unfold pads. by destruct (padded enc).
  - cbn [text]. rewrite zlen_app, IH, !zlen_cons. change (zlen []) with 0. destruct (padded enc); lia.
Qed.

Lemma upd_app_r (pre l : list Z) k y : 0 <= k -> upd (pre ++ l) (zlen pre + k) y = (fun l' => pre ++ l') <$> upd l k y.
Proof.
  intros Hk. unfold upd. case_decide as H1; case_decide as H2; try (unfold zlen in *; rewrite length_app in *; lia); [|done].
  cbn. f_equal. unfold zlen. rewrite insert_app_r_alt by lia. do 2 f_equal. lia.
Qed.

Lemma upd_app_0 (pre l : list Z) y : upd (pre ++ l) (zlen pre) y = (fun l' => pre ++ l') <$> upd l 0 y.
Proof. rewrite <- (upd_app_r pre l 0 y) by lia. by rewrite Z.add_0_r. Qed.

Lemma upd_at3 (a b c x y : Z) l : upd (a :: b :: c :: x :: l) 3 y = Some (a :: b :: c :: y :: l).
Proof. exact (upd_prefix [a; b; c] l x y). Qed.

Section encoding.
  Context (enc : Encoding) (W : enc_wf enc).

Lemma sym_idx v : 0 <= v < 64 -> idx (encode enc) v = Some (sym enc v).
Proof using W.
  intros Hv. apply idx_Some. split; [lia|]. unfold sym. rewrite nth_lookup.
  destruct (lookup_lt_is_Some_2 (encode enc) (Z.to_nat v)) as [x ->]; [rewrite (wf_encode enc W); lia|done].
Qed.

Lemma symbol_spec v s : 0 <= s -> symbol (encode enc) v s = Some (sym enc (v / 2 ^ s mod 64)).
Proof using W.
  intros Hs. unfold symbol. change 63 with (Z.ones 6). rewrite Z.land_ones, Z.shiftr_div_pow2 by lia. apply sym_idx. lia.
Qed.

Lemma pack3 a b c : is_byte a -> is_byte b -> is_byte c ->
  Z.lor (Z.lor (shl32 a 16) (shl32 b 8)) c = a * 2 ^ 16 + b * 2 ^ 8 + c /\ Z.lor (shl32 a 16) (shl32 b 8) = a * 2 ^ 16 + b * 2 ^ 8 /\
  shl32 a 16 = a * 2 ^ 16.
Proof using.
  unfold is_byte. intros. rewrite !shl32_small by lia. rewrite (lor_disjoint (a * 2 ^ 16) (b * 2 ^ 8) 16) by lia.
  rewrite (lor_disjoint (_ + _) c 8) by lia. done.
Qed.

Lemma pad_byte : padded enc = true -> padChar enc mod 256 = padChar enc.
Proof using W.
  unfold padded. intros Hp%bool_decide_eq_true. destruct (wf_pad enc W) as [?|[? _]]; [done|]. by apply Z.mod_small.
Qed.

Ltac run_upd := repeat first [ rewrite upd_app_0 | rewrite upd_app_r by lia | rewrite upd_at0 | rewrite upd_at1 | rewrite upd_at2 | rewrite upd_at3
  | rewrite symbol_spec by lia | rewrite some_bind | progress cbn [fmap option_fmap option_map] ].

Lemma encode_tail_spec rest spre dpre dpost : Forall is_byte rest -> (length rest < 3)%nat -> zlen (text enc rest) <= zlen dpost ->
  encode_tail enc (dpre ++ dpost) (spre ++ rest) (zlen dpre) (zlen spre) =
  Some (dpre ++ text enc rest ++ drop (length (text enc rest)) dpost).
Proof using W.
  intros Hb Hl Hd. unfold encode_tail. cbv zeta. rewrite zlen_app, Z.add_simpl_l.
  destruct rest as [|a [|b [|]]]; [done| | |cbn in Hl; lia].
  - rewrite idx_prefix, some_bind. change (zlen [a]) with 1. rewrite !decide_False by lia. rewrite some_bind.
    apply list.Forall_cons in Hb as [Ha _]. destruct (pack3 a 0 0 Ha) as (_ & _ & ->); [unfold is_byte; lia..|]. unfold is_byte in Ha.
    cbn [text] in Hd |- *. unfold pads in *. replace (a mod 4 * 16) with (a * 2 ^ 16 / 2 ^ 12 mod 64) by lia. replace (a / 4) with (a * 2 ^ 16 / 2 ^ 18 mod 64) by lia.
    destruct (padded enc) eqn:Hp.
    + rewrite pad_byte by done. destruct dpost as [|x0 [|x1 [|x2 [|x3 dpost]]]]; [unfold zlen in Hd; cbn in Hd; lia..|]. run_upd. done.
    + destruct dpost as [|x0 [|x1 dpost]]; [unfold zlen in Hd; cbn in Hd; lia..|]. run_upd. done.
  - rewrite idx_prefix, some_bind. change (zlen [a; b]) with 2. rewrite decide_False by lia. rewrite !decide_True by done.
    apply list.Forall_cons in Hb as [Ha Hb]. apply list.Forall_cons in Hb as [Hb _].
    rewrite <- (zlen_snoc1 spre a). change (spre ++ [a; b]) with (spre ++ [a] ++ [b]). rewrite app_assoc, idx_prefix, !some_bind.
    destruct (pack3 a b 0 Ha Hb) as (_ & -> & _); [unfold is_byte; lia|]. unfold is_byte in Ha, Hb.
    cbn [text] in Hd |- *. unfold pads in *. replace (b mod 16 * 4) with ((a * 2 ^ 16 + b * 2 ^ 8) / 2 ^ 6 mod 64) by lia.
    replace (a mod 4 * 16 + b / 16) with ((a * 2 ^ 16 + b * 2 ^ 8) / 2 ^ 12 mod 64) by lia.
    replace (a / 4) with ((a * 2 ^ 16 + b * 2 ^ 8) / 2 ^ 18 mod 64) by lia.
    destruct (padded enc) eqn:Hp.
    + rewrite pad_byte by done. destruct dpost as [|x0 [|x1 [|x2 [|x3 dpost]]]]; [unfold zlen in Hd; cbn in Hd; lia..|]. run_upd. done.
    + destruct dpost as [|x0 [|x1 [|x2 dpost]]]; [unfold zlen in Hd; cbn in Hd; lia..|]. run_upd. done.
Qed.

Lemma zlen_snoc3 (pre : list Z) a b c : zlen (pre ++ [a; b; c]) = zlen pre + 3.
Proof using. unfold zlen. rewrite length_app. cbn. lia. Qed.

Lemma encode_groups_spec rest fuel spre dpre dpost : Forall is_byte rest -> (length rest < fuel)%nat -> zlen (text enc rest) <= zlen dpost ->
  ('(dst, di, si) ← encode_groups fuel (encode enc) (dpre ++ dpost) (spre ++ rest) (zlen dpre) (zlen spre);
   encode_tail enc dst (spre ++ rest) di si) = Some (dpre ++ text enc rest ++ drop (length (text enc rest)) dpost).
Proof using W.
  revert fuel spre dpre dpost. induction rest as [|a|a b|a b c rest IH] using triple_ind; intros fuel spre dpre dpost Hb Hf Hd;
    (destruct fuel as [|fuel]; [lia|]); cbn [encode_groups].
  1-3: rewrite decide_False by (rewrite zlen_app; unfold zlen; cbn [length]; lia); rewrite some_bind; cbv beta iota;
    apply encode_tail_spec; [done|cbn; lia|done].
  rewrite decide_True by (rewrite zlen_app, !zlen_cons; pose proof (zlen_nonneg rest); lia). rewrite idx_prefix, some_bind.
  assert (idx (spre ++ a :: b :: c :: rest) (zlen spre + 1) = Some b) as ->.
  { rewrite <- (zlen_snoc1 spre a). change (a :: b :: c :: rest) with ([a] ++ b :: c :: rest). by rewrite app_assoc, idx_prefix. }
  assert (idx (spre ++ a :: b :: c :: rest) (zlen spre + 2) = Some c) as ->.
  { rewrite <- (zlen_snoc2 spre a b). change (a :: b :: c :: rest) with ([a; b] ++ c :: rest). by rewrite app_assoc, idx_prefix. }
  rewrite !some_bind. rewrite !list.Forall_cons in Hb. destruct Hb as (Ha & Hb & Hc & Hr). cbv zeta.
  destruct (pack3 a b c Ha Hb Hc) as (-> & _ & _). unfold is_byte in Ha, Hb, Hc. cbn [text] in Hd |- *.
  rewrite zlen_app in Hd. change (zlen [_; _; _; _]) with 4 in Hd. pose proof (zlen_nonneg (text enc rest)).
  destruct dpost as [|x0 [|x1 [|x2 [|x3 dpost]]]]; [unfold zlen in *; cbn [length] in *; lia..|]. run_upd.
  replace ((a * 2 ^ 16 + b * 2 ^ 8 + c) / 2 ^ 18 mod 64) with (a / 4) by lia.
  replace ((a * 2 ^ 16 + b * 2 ^ 8 + c) / 2 ^ 12 mod 64) with (a mod 4 * 16 + b / 16) by lia.
  replace ((a * 2 ^ 16 + b * 2 ^ 8 + c) / 2 ^ 6 mod 64) with (b mod 16 * 4 + c / 64) by lia.
  replace ((a * 2 ^ 16 + b * 2 ^ 8 + c) / 2 ^ 0 mod 64) with (c mod 64) by lia.
  set (g := [sym enc (a / 4); sym enc (a mod 4 * 16 + b / 16); sym enc (b mod 16 * 4 + c / 64); sym enc (c mod 64)]).
  change (dpre ++ sym enc (a / 4) :: _) with (dpre ++ g ++ dpost). rewrite app_assoc.
  replace (zlen dpre + 4) with (zlen (dpre ++ g)) by (rewrite zlen_app; done). rewrite <- (zlen_snoc3 spre a b c).
  replace (spre ++ a :: b :: c :: rest) with ((spre ++ [a; b; c]) ++ rest) by (by rewrite <- app_assoc).
  rewrite IH; [|done|cbn in Hf; lia|rewrite !zlen_cons in Hd; lia]. by rewrite <- !app_assoc.
Qed.

Lemma encode_into_spec dst src : Forall is_byte src -> EncodedLen enc (zlen src) <= zlen dst ->
  encode_into enc dst src = Some (text enc src ++ drop (length (text enc src)) dst).
Proof using W.
  intros Hb Hd. rewrite <- text_length in Hd. exact (encode_groups_spec src (S (length src)) [] [] dst Hb ltac:(lia) Hd).
Qed.

Lemma encode_exact src n : Forall is_byte src -> n = Z.to_nat (EncodedLen enc (zlen src)) ->
  encode_into enc (replicate n 0) src = Some (text enc src).
Proof using W.
  intros Hb ->. pose proof (text_length enc src) as Ht. rewrite encode_into_spec; [|done|unfold zlen in *; rewrite length_replicate; lia].
  rewrite drop_ge by (rewrite length_replicate, <- Ht; unfold zlen; lia). by rewrite app_nil_r.
Qed.
End encoding.

(** ** The text decodes *)

Section roundtrip.
  Context (enc : Encoding) (W : enc_wf enc).

Lemma sym_code v : 0 <= v < 64 -> idx (decodeMap enc) (sym enc v) = Some v.
Proof using W. intros Hv. apply (wf_inverse enc W). by apply sym_idx. Qed.

(** The last quantum with two or three digits. *)
Lemma store_three m1 m2 m3 si : digit m1 -> digit m2 -> digit m3 -> m3 mod 4 = 0 ->
  store_quantum enc [0; 0; 0] [m1; m2; m3; 0] 3 si None = Some ([m1 * 4 + m2 / 16; m2 mod 16 * 16 + m3 / 4; 0], si, 2, None).
Proof using.
  intros D1 D2 D3 Hm. unfold store_quantum. change (idx [m1; m2; m3; 0] 0) with (Some m1). change (idx [m1; m2; m3; 0] 1) with (Some m2).
  change (idx [m1; m2; m3; 0] 2) with (Some m3). change (idx [m1; m2; m3; 0] 3) with (Some 0). cbn [mbind option_bind]. cbv zeta.
  rewrite pack4, !shr64_div by (done || unfold digit; lia). unfold digit in *.
  replace ((m1 * 2 ^ 18 + m2 * 2 ^ 12 + m3 * 2 ^ 6 + 0) mod 256) with 0 by lia.
  replace ((m1 * 2 ^ 18 + m2 * 2 ^ 12 + m3 * 2 ^ 6 + 0) / 2 ^ 8 mod 256) with (m2 mod 16 * 16 + m3 / 4) by lia.
  replace ((m1 * 2 ^ 18 + m2 * 2 ^ 12 + m3 * 2 ^ 6 + 0) / 2 ^ 16 mod 256) with (m1 * 4 + m2 / 16) by lia. clear. run_store. done.
Qed.

Lemma store_two m1 m2 si : digit m1 -> digit m2 -> m2 mod 16 = 0 ->
  store_quantum enc [0; 0; 0] [m1; m2; 0; 0] 2 si None = Some ([m1 * 4 + m2 / 16; 0; 0], si, 1, None).
Proof using.
  intros D1 D2 Hm. unfold store_quantum. change (idx [m1; m2; 0; 0] 0) with (Some m1). change (idx [m1; m2; 0; 0] 1) with (Some m2).
  change (idx [m1; m2; 0; 0] 2) with (Some 0). change (idx [m1; m2; 0; 0] 3) with (Some 0). cbn [mbind option_bind]. cbv zeta.
  rewrite pack4, !shr64_div by (done || unfold digit; lia). unfold digit in *.
  replace ((m1 * 2 ^ 18 + m2 * 2 ^ 12 + 0 * 2 ^ 6 + 0) mod 256) with 0 by lia.
  replace ((m1 * 2 ^ 18 + m2 * 2 ^ 12 + 0 * 2 ^ 6 + 0) / 2 ^ 8 mod 256) with 0 by lia.
  replace ((m1 * 2 ^ 18 + m2 * 2 ^ 12 + 0 * 2 ^ 6 + 0) / 2 ^ 16 mod 256) with (m1 * 4 + m2 / 16) by lia. clear. run_store. done.
Qed.

(** A position past the end of the symbols and the padding. *)
Lemma skip_at_end fuel src : skip_newlines (S fuel) src (zlen src) = Some (zlen src).
Proof using. cbn [skip_newlines]. by rewrite decide_False by lia. Qed.

Lemma idx_app_r (pre l : list Z) k : 0 <= k -> idx (pre ++ l) (zlen pre + k) = idx l k.
Proof using.
  intros Hk. unfold idx. pose proof (zlen_nonneg pre). rewrite !decide_True by lia. rewrite lookup_app_r by (unfold zlen; lia).
  f_equal. unfold zlen. lia.
Qed.

Lemma pad_code : padded enc = true -> is_newline (padChar enc) = false /\ idx (decodeMap enc) (padChar enc) = Some invalidIndex.
Proof using W. unfold padded. intros Hp%bool_decide_eq_true. destruct (wf_pad enc W) as [?|(_ & ? & ?)]; done. Qed.

Lemma quantum_three pre a b : is_byte a -> is_byte b -> let src := pre ++ text enc [a; b] in
  decodeQuantum enc [0; 0; 0] src (zlen pre) = Some ([a; b; 0], zlen src, 2, None).
Proof using W.
  intros Ha Hb src. unfold decodeQuantum. rewrite Nat.add_comm. cbn [Nat.add]. unfold is_byte in *.
  assert (zlen src = zlen pre + 3 + (if padded enc then 1 else 0)) as Hz.
  { unfold src. rewrite zlen_app. cbn [text]. unfold pads. destruct (padded enc); unfold zlen; cbn [length app replicate]; lia. }
  rewrite (read_digit enc src _ _ _ _ (sym enc (a / 4)) (a / 4)); [|lia|done|by unfold src; rewrite <- (Z.add_0_r (zlen pre)), idx_app_r|apply sym_code; lia|unfold digit; lia].
  rewrite (read_digit enc src _ _ _ _ (sym enc (a mod 4 * 16 + b / 16)) (a mod 4 * 16 + b / 16)); [|lia|done|by unfold src; rewrite idx_app_r|apply sym_code; lia|unfold digit; lia].
  replace (zlen pre + 1 + 1) with (zlen pre + 2) by lia.
  rewrite (read_digit enc src _ _ _ _ (sym enc (b mod 16 * 4)) (b mod 16 * 4)); [|lia|done|by unfold src; rewrite idx_app_r|apply sym_code; lia|unfold digit; lia].
  change (<[_ := b mod 16 * 4]> _) with [a / 4; a mod 4 * 16 + b / 16; b mod 16 * 4; 0]. replace (zlen pre + 2 + 1) with (zlen pre + 3) by lia.
  assert (read_quantum (S (S (length src))) enc src (zlen pre + 3) (0 + 1 + 1 + 1) [a / 4; a mod 4 * 16 + b / 16; b mod 16 * 4; 0] =
    Some (QBytes [a / 4; a mod 4 * 16 + b / 16; b mod 16 * 4; 0] 3 (zlen src) None)) as ->.
  { cbn [read_quantum]. rewrite (decide_True (P := 0 + 1 + 1 + 1 < 4)) by lia. destruct (padded enc) eqn:Hp.
    - rewrite decide_False by lia. assert (idx src (zlen pre + 3) = Some (padChar enc)) as ->.
      { unfold src. rewrite idx_app_r by lia. cbn [text]. unfold pads. by rewrite Hp. }
      destruct (pad_code Hp) as [Hn Hc]. rewrite some_bind. cbv zeta. rewrite Hc, some_bind, Hn. rewrite !decide_False by (lia || (intros []; lia) || (intros E; by apply E)).
      unfold read_padding. cbv zeta. rewrite decide_False by lia. replace (zlen pre + 3 + 1) with (zlen src) by lia.
      rewrite skip_at_end, some_bind, decide_False by lia. done.
    - rewrite decide_True by lia. rewrite !decide_False by (lia || (intros [?|?]; [lia|done])). by rewrite Hz, Z.add_0_r. }
  rewrite some_bind, store_three by (unfold digit; lia). do 5 f_equal; [lia|]. f_equal. lia.
Qed.

Lemma quantum_two pre a : is_byte a -> let src := pre ++ text enc [a] in
  decodeQuantum enc [0; 0; 0] src (zlen pre) = Some ([a; 0; 0], zlen src, 1, None).
Proof using W.
  intros Ha src. unfold decodeQuantum. rewrite Nat.add_comm. cbn [Nat.add]. unfold is_byte in *.
  assert (zlen src = zlen pre + 2 + (if padded enc then 2 else 0)) as Hz.
  { unfold src. rewrite zlen_app. cbn [text]. unfold pads. destruct (padded enc); unfold zlen; cbn [length app replicate]; lia. }
  rewrite (read_digit enc src _ _ _ _ (sym enc (a / 4)) (a / 4)); [|lia|done|by unfold src; rewrite <- (Z.add_0_r (zlen pre)), idx_app_r|apply sym_code; lia|unfold digit; lia].
  rewrite (read_digit enc src _ _ _ _ (sym enc (a mod 4 * 16)) (a mod 4 * 16)); [|lia|done|by unfold src; rewrite idx_app_r|apply sym_code; lia|unfold digit; lia].
  change (<[_ := a mod 4 * 16]> _) with [a / 4; a mod 4 * 16; 0; 0]. replace (zlen pre + 1 + 1) with (zlen pre + 2) by lia.
  assert (read_quantum (S (S (S (length src)))) enc src (zlen pre + 2) (0 + 1 + 1) [a / 4; a mod 4 * 16; 0; 0] =
    Some (QBytes [a / 4; a mod 4 * 16; 0; 0] 2 (zlen src) None)) as ->.
  { cbn [read_quantum]. rewrite (decide_True (P := 0 + 1 + 1 < 4)) by lia. destruct (padded enc) eqn:Hp.
    - rewrite decide_False by lia. assert (forall k, 2 <= k < 4 -> idx src (zlen pre + k) = Some (padChar enc)) as Hpad.
      { intros k Hk. unfold src. rewrite idx_app_r by lia. cbn [text]. unfold pads. rewrite Hp. by assert (k = 2 \/ k = 3) as [-> | ->] by lia. }
      destruct (pad_code Hp) as [Hn Hc]. rewrite Hpad, some_bind by lia. cbv zeta. rewrite Hc, some_bind, Hn.
      rewrite !decide_False by (lia || (intros []; lia) || (intros E; by apply E)).
      unfold read_padding. cbv zeta. rewrite decide_True by done. replace (zlen pre + 2 + 1) with (zlen pre + 3) by lia.
      assert (skip_newlines (S (length src)) src (zlen pre + 3) = Some (zlen pre + 3)) as ->.
      { cbn [skip_newlines]. rewrite decide_True, Hpad, some_bind, Hn by lia. done. }
      rewrite some_bind, decide_False, Hpad, some_bind, decide_False by (lia || (intros E; by apply E)).
      replace (zlen pre + 3 + 1) with (zlen src) by lia. rewrite skip_at_end, some_bind, decide_False by lia. done.
    - rewrite decide_True by lia. rewrite !decide_False by (lia || (intros [?|?]; [lia|done])). by rewrite Hz, Z.add_0_r. }
  rewrite some_bind, store_two by (unfold digit; lia). do 5 f_equal. lia.
Qed.

Lemma decodes_text rest pre : Forall is_byte rest -> decodes enc (pre ++ text enc rest) (zlen pre) rest None.
Proof using W.
  revert pre. induction rest as [|a|a b|a b c rest IH] using triple_ind; intros pre Hb.
  - constructor. rewrite app_nil_r. lia.
  - apply list.Forall_cons in Hb as [Ha _]. assert (zlen pre < zlen (pre ++ text enc [a])) as Hlt.
    { rewrite zlen_app. cbn [text app]. rewrite zlen_cons. pose proof (zlen_nonneg (sym enc (a mod 4 * 16) :: pads enc 2)). lia. }
    apply (decodes_step enc _ (zlen pre) [a; 0; 0] _ 1 [] None Hlt (quantum_two pre a Ha)). constructor. lia.
  - rewrite !list.Forall_cons in Hb. destruct Hb as (Ha & Hb & _). assert (zlen pre < zlen (pre ++ text enc [a; b])) as Hlt.
    { rewrite zlen_app. cbn [text app]. rewrite !zlen_cons. pose proof (zlen_nonneg (pads enc 1)). lia. }
    apply (decodes_step enc _ (zlen pre) [a; b; 0] _ 2 [] None Hlt (quantum_three pre a b Ha Hb)). constructor. lia.
  - rewrite !list.Forall_cons in Hb. destruct Hb as (Ha & Hb & Hc & Hr). unfold is_byte in Ha, Hb, Hc.
    cbn [text]. set (g := [sym enc (a / 4); sym enc (a mod 4 * 16 + b / 16); sym enc (b mod 16 * 4 + c / 64); sym enc (c mod 64)]).
    pose proof (IH (pre ++ g) Hr) as Hrest. rewrite <- app_assoc, zlen_app in Hrest. change (zlen g) with 4 in Hrest.
    assert (bytes3 (a / 4) (a mod 4 * 16 + b / 16) (b mod 16 * 4 + c / 64) (c mod 64) = [a; b; c]) as E by (unfold bytes3; repeat f_equal; lia).
    change (a :: b :: c :: rest) with ([a; b; c] ++ rest). rewrite <- E.
    apply (decodes_clean enc _ (zlen pre) [a / 4; a mod 4 * 16 + b / 16; b mod 16 * 4 + c / 64; c mod 64]); [apply zlen_nonneg| |done| |done].
    + intros i m Em. rewrite idx_app_r by lia. pose proof (lookup_lt_Some _ _ _ Em) as Hi. cbn [length] in Hi.
      exists (sym enc m). assert (0 <= m < 64 /\ g !! i = Some (sym enc m)) as [Hm Eg].
      { destruct i as [|[|[|[|]]]]; cbn in Em; simplify_eq; (split; [lia|done]) || lia. }
      split; [|by apply sym_code]. apply idx_Some. rewrite Nat2Z.id. split; [lia|]. by apply lookup_app_l_Some.
    + repeat first [apply Forall_nil_2 | apply Forall_cons_2]; unfold digit; lia.
Qed.
End roundtrip.

(** ** Theorems *)

Lemma text_bytes enc src : enc_wf enc -> Forall is_byte src -> Forall (fun c => 0 <= c < 256) (text enc src).
Proof.
  intros W. assert (forall v, 0 <= v < 64 -> 0 <= sym enc v < 256) as Hs.
  { intros v Hv. pose proof (sym_code enc W v Hv) as R%idx_range. unfold zlen in R. rewrite (wf_map enc W) in R. lia. }
  assert (forall k, Forall (fun c => 0 <= c < 256) (pads enc k)) as Hp.
  { intros k. unfold pads. destruct (padded enc) eqn:E; [|constructor]. apply Forall_replicate. rewrite <- (pad_byte enc W E). lia. }
  unfold is_byte. induction src as [|a|a b|a b c src IH] using triple_ind; rewrite ?list.Forall_cons; [constructor|..]; cbn [text];
    rewrite !list.Forall_app, !list.Forall_cons.
  - intros [Ha _]. split; [|apply Hp]. split; [apply Hs; lia|]. split; [apply Hs; lia|constructor].
  - intros (Ha & Hb & _). split; [|apply Hp]. split; [apply Hs; lia|]. split; [apply Hs; lia|]. split; [apply Hs; lia|constructor].
  - intros (Ha & Hb & Hc & Hr). split; [|by apply IH]. split; [apply Hs; lia|]. split; [apply Hs; lia|]. split; [apply Hs; lia|].
    split; [apply Hs; lia|constructor].
Qed.

Lemma DecodeString_decodes enc src out err : enc_wf enc -> Forall (fun c => 0 <= c < 256) src -> zlen src < 2 ^ 62 ->
  decodes enc src 0 out err -> DecodeString enc src = Some (out, err) /\ forall dst, AppendDecode enc dst src = Some (dst ++ out, err).
Proof.
  intros W Hb Hl Hd. pose proof (zlen_nonneg src) as Hnn. unfold DecodeString, AppendDecode. cbv zeta. set (k := DecodedLen enc (zlen src) + 3).
  assert (3 * zlen src <= 4 * k /\ 0 <= k < 2 ^ 62) as [Hk1 Hk2].
  { unfold k, DecodedLen. destruct (padded enc); lia. }
  assert (zlen (replicate (Z.to_nat k) 0) = k) as Hz by (unfold zlen; rewrite length_replicate; lia).
  destruct (decode_into_spec enc W src Hb Hl (replicate (Z.to_nat k) 0)) as (dst' & out' & err' & -> & _ & Ht & Hd'); [lia|lia|].
  pose proof (decodes_ref enc W src Hb Hl 0 out err (S (length src)) Hd ltac:(lia) ltac:(unfold zlen; lia) ltac:(lia)) as E1.
  pose proof (decodes_ref enc W src Hb Hl 0 out' err' (S (length src)) Hd' ltac:(lia) ltac:(unfold zlen; lia) ltac:(lia)) as E2.
  rewrite E1 in E2. injection E2 as <- <-. assert (take (Z.to_nat (zlen out)) dst' = out) as Et by (unfold zlen; by rewrite Nat2Z.id).
  split; [|intros dst]; rewrite some_bind; cbv beta iota; by rewrite Et.
Qed.

(** C14: the decoder with its two fast paths, eight and four symbols at a time, is the decoder that takes one quantum
    after the other, for every alphabet and padding, on any bytes, newlines, bad padding and trailing garbage included:
    the same bytes, the same count and the same error, and no panic; the buffer keeps its length. *)
Theorem base64_fast_paths : forall enc src dst, enc_wf enc -> Forall (fun c => 0 <= c < 256) src -> zlen src < 2 ^ 62 -> zlen dst < 2 ^ 62 ->
  3 * zlen src <= 4 * zlen dst ->
  exists out err dst', decode_ref (S (length src)) enc src 0 = Some (out, err) /\
    Decode enc dst src = Some (dst', zlen out, err) /\ zlen dst' = zlen dst /\ take (length out) dst' = out /\
    DecodeString enc src = Some (out, err) /\ AppendDecode enc dst src = Some (dst ++ out, err).
Proof.
  intros enc src dst W Hb Hl Hdl Hroom. destruct (decode_into_spec enc W src Hb Hl dst Hroom Hdl) as (dst' & out & err & E & Hz & Ht & Hd).
  exists out, err, dst'. split; [apply (decodes_ref enc W src Hb Hl); [done|lia|unfold zlen; lia|lia]|].
  split; [done|]. split; [done|]. split; [done|]. destruct (DecodeString_decodes enc src out err W Hb Hl Hd) as [E1 E2]. auto.
Qed.

Lemma StdEncoding_wf : exists e, StdEncoding = Some e /\ enc_wf e.
Proof.
  destruct StdEncoding as [e|] eqn:E; [|vm_compute in E; discriminate]. exists e. split; [done|]. apply (NewEncoding_wf STD_ALPHABET e E).
  by apply (bool_decide_unpack (StdPadding ∉ STD_ALPHABET)).
Qed.

Lemma base64_fast_paths_witness : exists e, StdEncoding = Some e /\ enc_wf e /\
  exists out err, decode_ref 10 e [90; 109; 57; 118; 10; 89; 103; 61; 61] 0 = Some (out, err) /\
    DecodeString e [90; 109; 57; 118; 10; 89; 103; 61; 61] = Some (out, err).
Proof.
  destruct StdEncoding_wf as (e & E & W). exists e. split; [exact E|]. split; [exact W|].
  assert (Forall (fun c => 0 <= c < 256) [90; 109; 57; 118; 10; 89; 103; 61; 61]) as Hb by (repeat constructor; lia).
  destruct (base64_fast_paths e [90; 109; 57; 118; 10; 89; 103; 61; 61] [0; 0; 0; 0; 0; 0; 0] W Hb ltac:(vm_compute; reflexivity)
    ltac:(vm_compute; reflexivity) ltac:(vm_compute; discriminate)) as (out & err & _ & H1 & _ & _ & _ & H2 & _).
  exists out, err. split; [exact H1|exact H2].
Defined.

(** C40: base64 round-trips: an alphabet that [NewEncoding] accepts and that has no padding character, with any padding that
    [WithPadding] accepts or none, strict or not, encodes any bytes into text of the length [EncodedLen] gives, and the decoders take
    it back without an error. *)
Theorem base64_roundtrip : forall b enc, NewEncoding b = Some enc -> StdPadding ∉ b -> forall p enc', WithPadding enc p = Some enc' ->
  forall e, e = enc \/ e = enc' \/ e = Strict enc \/ e = Strict enc' -> forall src dst, Forall is_byte src -> EncodedLen e (zlen src) < 2 ^ 62 ->
  exists t, EncodeToString e src = Some t /\ zlen t = EncodedLen e (zlen src) /\ AppendEncode e dst src = Some (dst ++ t) /\
    Encode e [] src = Some t /\ DecodeString e t = Some (src, None) /\ AppendDecode e dst t = Some (dst ++ src, None).
Proof.
  intros b enc Hnew Hpad p enc' Hwith e He src dst Hb Hl. pose proof (NewEncoding_wf b enc Hnew Hpad) as W0.
  destruct (WithPadding_wf enc p enc' W0 Hwith) as [W1 _].
  assert (enc_wf e) as W by (destruct He as [->|[->|[->| ->]]]; auto using Strict_wf).
  exists (text e src). pose proof (text_length e src) as Ht. pose proof (zlen_nonneg (text e src)).
  unfold EncodeToString, AppendEncode, Encode. cbv zeta. rewrite !(encode_exact e W src) by done. split; [done|]. split; [done|]. split; [done|].
  split. { set (n := Z.to_nat (EncodedLen e (zlen src))). assert ((if decide (length (@nil Z) < n)%nat then resize n 0 [] else []) = replicate n 0) as ->.
    { case_decide; [by rewrite resize_nil|]. by replace n with 0%nat by (cbn in *; lia). }
    rewrite take_ge, drop_ge by (by rewrite length_replicate). rewrite (encode_exact e W src) by done. cbn. by rewrite app_nil_r. }
  pose proof (decodes_text e W src [] Hb) as Hd. cbn [app] in Hd. change (zlen []) with 0 in Hd.
  destruct (DecodeString_decodes e (text e src) src None W (text_bytes e src W Hb) ltac:(lia) Hd) as [E1 E2]. auto.
Qed.

Lemma base64_roundtrip_witness : exists e e' t, StdEncoding = Some e /\ RawStdEncoding = Some e' /\
  EncodeToString (Strict e') [102; 111; 111; 98] = Some t /\ DecodeString (Strict e') t = Some ([102; 111; 111; 98], None).
Proof.
  destruct StdEncoding_wf as (e & E & _). destruct RawStdEncoding as [e'|] eqn:E'; [|vm_compute in E'; discriminate].
  assert (WithPadding e NoPadding = Some e') as Hw.
  { unfold RawStdEncoding in E'. change (NewEncoding STD_ALPHABET) with StdEncoding in E'. rewrite E in E'. exact E'. }
  assert (StdPadding ∉ STD_ALPHABET) as Hp by (apply (bool_decide_unpack (StdPadding ∉ STD_ALPHABET)); vm_compute; exact I).
  assert (Forall is_byte [102; 111; 111; 98]) as Hb by (repeat constructor; unfold is_byte; lia).
  assert (EncodedLen (Strict e') (zlen [102; 111; 111; 98]) < 2 ^ 62) as Hl by (unfold EncodedLen; destruct (padded (Strict e')); vm_compute; reflexivity).
  destruct (base64_roundtrip STD_ALPHABET e E Hp NoPadding e' Hw (Strict e') ltac:(right; right; right; reflexivity) [102; 111; 111; 98] [] Hb Hl)
    as (t & H1 & _ & _ & _ & H2 & _).
  exists e, e', t. split; [exact E|]. split; [reflexivity|]. split; [exact H1|exact H2].
Defined.
